(* ===== verification/_CoqProject ===== *)
-Q . S2P
Prelude.v
OrdMap.v
Words.v
Event.v
LinkTime.v
ExecError.v
Fel.v
EcnRamp.v
Dcqcn.v
Tcp.v
Model.v
Image.v
Roce.v
TcpReceiver.v
PfcOrder.v
Sched.v
PacketStore.v
Radix.v
Machine.v
ScalarLoop.v
Rounds.v
RoundsSpec.v
RoundsFrontier.v
RoundsMain.v
TcpLedger.v
TcpRing.v
Compaction.v
TcpRingLedger.v
DeviceScheduler.v
DevicePlane.v
DeviceRestore.v
StageIndex.v
Transition.v
Orphans.v
TcpSend.v
Stages.v
HostSend.v
HostTcp.v
Pacing.v
HostRoce.v
HostReceive.v
SwitchHandlers.v
Dispatch.v
Effects.v
SwitchLocality.v
HostLocality.v
Validate.v
SchedulerChecks.v
WfqCheckpoint.v
Checkpoint.v
ServiceChecks.v
Wakes.v
HostWakes.v
SwitchWakes.v
Simulator.v
IndexRuns.v
WakeUps.v
Liveness.v
SeededMatrix.v
Graphs.v
BestFirst.v
EdgeLists.v
FatTree.v
Routing.v
RouteProofs.v
RouteTables.v
Topology.v
Pairing.v
BuiltTrees.v
Dragonflies.v
Rail.v
