(* ===== verification/Prelude.v ===== *)
(** * A verification of the Days executor

    Days is a packet-level simulator of data-centre networks. Its executor
    (src/executor) runs a validated image of a scenario: hosts and switches are
    logical processes (LPs), events carry a canonical key, and every back end
    must compute the same result as the scalar one. Before a run, the scenario
    side (src/src/topos) builds the topology, attaches and pairs hosts and
    selects routes. This library models the executor's deterministic core and
    these builders in Rocq and proves what the rest relies on.

    ** The program and the files that model it

    - Prelude.v: machine integers as [Z] with each operation's wrap-around,
      saturation or check written out; [Result] and runs that may not return;
      while loops with fuel and their proof rule; in-place record update.
    - OrdMap.v: [BTreeMap] and [BTreeSet] as canonical sorted lists.
    - Event.v (event.rs, the dispatch table of model.rs): event keys and their
      order, kinds, phases, classes, payload identities.
    - LinkTime.v (time.rs): serialization and arrival times.
    - ExecError.v (scalar.rs, [ExecutionError]).
    - Fel.v (fel.rs, the superseded timers of scalar.rs): the future-event list,
      a heap beside an ordered timer map. The heap is an interface,
      [BinaryHeap], with the standard library's promise as [BinaryHeapLaws].
    - EcnRamp.v (ecn_ramp.rs, splitmix.rs): the random marking ramp.
    - Dcqcn.v (dcqcn.rs): the DCQCN rate controller with its lazy timers.
    - Tcp.v (tcp.rs): Reno, CUBIC and the retransmission-timeout estimator.
    - Model.v, Image.v (model.rs, image.rs): the policies and the image.
    - Roce.v (roce.rs): windows, pacer restart, the Go-back-N receiver.
    - TcpReceiver.v (scalar.rs, [tcp_receive_range]): reassembly.
    - PfcOrder.v (scalar.rs, [PfcClassOrder]): service of a paused FIFO queue.
    - Sched.v (scalar.rs): the queue disciplines SP, WFQ, DRR and WRR, and the
      admission actions.
    - PacketStore.v (packet_store.rs): the resident-packet store.
    - Radix.v (safe_horizon.rs): the radix sort of exchanged events.
    - Machine.v: the interface between the transition handlers and the event
      loops, [Machine] with [MachineLaws]; one dispatch on the pending events;
      safe schedules and their confluence.
    - ScalarLoop.v (scalar.rs, [run_scalar]): the scalar event loop.
    - Rounds.v (safe_horizon.rs): the safe-horizon round executor.
      RoundsSpec.v, RoundsFrontier.v and RoundsMain.v prove it: the drain of an
      LP, the lazy frontier index, and the whole run.
    - TcpLedger.v (tcp_ledger.rs): the sent segments of each flow. Orphans.v: the
      initial packets a device retains because its readback could not find them.
    - Words.v: windows and tables of the word buffers the device back ends use.
      TcpRing.v (tcp_ledger_ring.rs): the host mirror of the device's ring of sent
      segments, which the source compiles for its tests, and the shifting array it
      replaced; TcpRingLedger.v relates both to the ledger.
      Compaction.v (device_compaction.rs): the readback of live records.
    - DeviceScheduler.v (device_scheduler.rs): the words of every node's switch
      scheduler, planned from an image and read back. DevicePlane.v gives the plan
      a closed form, DeviceRestore.v proves the readback on it.
    - StageIndex.v (stage_index.rs): a host's keyed views of its generator,
      receiver and stage tables.
    - Transition.v (scalar.rs, [TransitionState]): the state of a run, lookups,
      packets, emission of children, counters, construction and finish. A handler
      is a [transition]: a function of the state and the children emitted so far
      that succeeds, fails with an [ExecutionError], or panics.
    - TcpSend.v, Stages.v, HostSend.v, HostTcp.v, Pacing.v, HostRoce.v,
      HostReceive.v, SwitchHandlers.v (scalar.rs): the handlers of hosts and
      switches, each whole. Dispatch.v: [dispatch] and one step of the event loop.
    - Effects.v, SwitchLocality.v, HostLocality.v: what a handler may touch and
      emit, a small logic of [keeps] and [emits] with one lemma per handler.
    - Validate.v (validate.rs): the structural checks of an image.
      SchedulerChecks.v, ServiceChecks.v: the checks of the scheduler states, with
      the largest frame a DRR class can still see, and of the service events.
      WfqCheckpoint.v and Checkpoint.v show that a queue in service keeps passing
      the checks of its scheduler, whatever bounds the frames.
    - Wakes.v, HostWakes.v, SwitchWakes.v, WakeUps.v, Liveness.v: the flags and
      pending events of a node's egress through every handler.
    - SeededMatrix.v (seeded_matrix.rs): the bytes of an imbalanced all-to-all.
    - Simulator.v: the handlers as an instance of [Machine], runs from a validated
      image, and an example run of the whole executor. IndexRuns.v: the stage
      index along those runs.

    - Graphs.v: walks, and [petgraph]'s graph as an interface, [Graph] with
      [GraphLaws]; the canonical graph of route.rs. EdgeLists.v implements the
      interface and that of the search's heap.
    - BestFirst.v, FatTree.v, Routing.v (route.rs): the best-first search, the
      recognition of fat trees and their neighbours, routes, route tables and
      the equal-cost table. RouteProofs.v and RouteTables.v prove them.
    - Topology.v (build.rs, config.rs): the builders; BuiltTrees.v and
      Dragonflies.v prove their wiring. Pairing.v (build.rs): endpoint pairs,
      with [rand] as the interface [RandomSource]. Rail.v (rail.rs): rail fabrics
      and the choice between the builders.

    ** What the theorems show

    - The round executor returns a result exactly when the scalar loop does, and
      the same one ([rounds_equal_scalar]).
    - The handlers: a dispatch changes only its target's state and emits children
      numbered from that node's sequence ([dispatch_is_local]); from a validated
      image no two events ever share a key ([keys_never_collide]).
    - The structural checks of validation accept exactly the images the executors
      assume ([validate_structure_exact]).
    - No wake-up is lost: in every reachable configuration a node's pending service
      events are those its state asks for ([no_lost_wakeups]), for every host and
      every switch none of whose initial service events names a PFC frame; the
      checks accept such an event and it is lost ([pfc_service_unchecked]). A queue
      that passes validation passes it again after any service
      ([checkpoint_stays_valid]).
    - Routes: the budget of workers, the reuse of a worker's search state and the
      tree read instead of a search never show ([route_table_ignores_budget],
      [tree_routes_equal_searches]); every route is shortest
      ([routes_are_shortest], [ecmp_routes_shortest]); the router recognises the fat
      trees the builder builds ([built_fat_tree_recognised]).
    - Wiring and traffic: dragonflies are balanced ([dragonfly_balanced]), rail
      fabrics connect their GPUs ([rail_fabric_connected]), structural pairings are
      permutations ([structural_pairs_permute]), and a seeded matrix of fewer than
      [2 ^ 30] ranks routes no more than its sources have
      ([seeded_matrix_conserves]); a larger one panics ([seeded_matrix_panics]).
    - Refinements: the lazy DCQCN timers against a machine that fires every
      timer at its instant; the future-event list against one ordered map, also on
      traces with duplicates, where the map refuses an insertion that the list
      reports later ([fel_refines_ordered_map]); the packet store against a map; the
      Go-back-N receiver against the longest in-order run of the arrivals.
    - Equivalences: the radix sort is a stable sort; the PFC class order finds
      what the search from the head finds; at every configuration a run reaches the
      stage index answers as the scans of the tables do ([stage_index_equals_scan]).
    - The segment ledger keeps exactly the unacknowledged bytes of each flow, and
      the mirror of the device's ring is that ledger on every trace of a sender,
      whose insertions overlap no bytes filed under another sequence
      ([ring_refines_ledger]); with an overlap it is not
      ([overlapping_insert_diverges]).
    - Device buffers: the gather of a compaction plan is the live records in order
      ([gather_exact]); the scheduler words restore the queues they were planned
      from ([scheduler_plane_round_trip]).
    - Exactness of the integer arithmetic: serialization times, the DCQCN cut
      and alpha, the ECN ramp, CUBIC's K and curve, WFQ finish tags, pacer grid.
    - Invariants and bounds of the DCQCN controller, congestion windows, RTO.
    - Termination of the loops that have no structural bound: the controller's
      materialization, the DRR and WRR selections, the cube root.

    ** Fuel and bounds

    [wloop d] runs at most [2 ^ d] iterations and stops at the first result; each
    use comes with a theorem that the loop ends within its fuel. The DRR and WRR
    selections run at depth 140 and 70, that is for at most [2 ^ 140] and [2 ^ 70]
    iterations: a DRR selection visits every class once per round, over at most
    [2 ^ 64 + 2] rounds, as a quantum is at least one byte and a packet below
    [2 ^ 64]; a WRR selection visits a class at most twice; and there are fewer
    than [2 ^ 64] classes. The probe loops of the packet store are
    bounded by the number of buckets. The event loops take fuel as an argument:
    it counts dispatched events, and the theorems say that enough fuel for one
    executor is enough for the other. The loop that fills a TCP window has fuel
    for [2 ^ 64] segments, more than the bytes a sequence number can count. A
    route search has fuel for [2 ^ node_count] steps, and its theorem shows that
    it ends. A release build is modelled: plain arithmetic wraps, and debug
    assertions are absent.

    ** Not modelled

    The handlers are those of the [Summary] observation mode: the records of the
    [Full] mode, which never feed back into a run, and the test probes are left
    out. The equality of the round and the scalar executor is proved for every
    machine that keeps [MachineLaws]; that the handlers of Simulator.v keep them,
    and the per-LP state of the round executors ([new_local], [finish_local]), are
    not proved here. Of image validation, the checks of flows, generators,
    receivers, queues and work budgets are not modelled. Nor are the CPU, CUDA and
    Metal back ends, which are threads and device code around the same transitions,
    and of their buffers those other than the segment ring, the compaction and the
    scheduler words; the scenario compiler and workloads, which turn text into
    images; the legacy floating-point simulator. Of src/src/topos, reading and
    parsing of text, rendering of a rail fabric to a file, the legacy protocols of
    route.rs and the allocation of memory are left out, and the parts of a route
    table that threads compute are sequential computations. The [f64] of a round's
    parallel efficiency is its exact quotient. *)

From stdpp Require Export prelude sorting strings.
From Stdlib Require Export ZArith Lia.

#[global] Open Scope Z_scope.

(** ** Machine integers

    Rust's [u16], [u32], [u64] and [u128] are modelled as [Z] with the
    wrap-around, the saturation or the check of each operation written out.
    The bounds are notations, so that [lia] sees the literals. *)

Declare Scope rust_scope.
Delimit Scope rust_scope with rust.
#[global] Open Scope rust_scope.

Abbreviation u16_max := 65535 (only parsing).
Abbreviation u32_max := 4294967295 (only parsing).
Abbreviation u64_max := 18446744073709551615 (only parsing).
Abbreviation u64_modulus := 18446744073709551616 (only parsing).
Abbreviation u128_max := 340282366920938463463374607431768211455 (only parsing).
Abbreviation u128_modulus := 340282366920938463463374607431768211456 (only parsing).

Definition in_u16 (x : Z) : Prop := 0 <= x <= u16_max.
Definition in_u32 (x : Z) : Prop := 0 <= x <= u32_max.
Definition in_u64 (x : Z) : Prop := 0 <= x <= u64_max.
Definition in_u128 (x : Z) : Prop := 0 <= x <= u128_max.

(** [u64::checked_add] and friends. *)
Definition checked_add (x y : Z) : option Z :=
  if x + y <=? u64_max then Some (x + y) else None.
Definition checked_sub (x y : Z) : option Z :=
  if y <=? x then Some (x - y) else None.
Definition checked_mul (x y : Z) : option Z :=
  if x * y <=? u64_max then Some (x * y) else None.

(** [u128::checked_add] and [u128::checked_mul]. *)
Definition checked_add_128 (x y : Z) : option Z :=
  if x + y <=? u128_max then Some (x + y) else None.
Definition checked_sub_128 (x y : Z) : option Z :=
  if y <=? x then Some (x - y) else None.
Definition checked_mul_128 (x y : Z) : option Z :=
  if x * y <=? u128_max then Some (x * y) else None.

(** [u64::saturating_add] and friends, in a form [lia] decides. *)
Definition saturating_add (x y : Z) : Z := Z.min (x + y) u64_max.
Definition saturating_sub (x y : Z) : Z := Z.max (x - y) 0.
Definition saturating_mul (x y : Z) : Z := Z.min (x * y) u64_max.

(** Plain [+], [-], [*] on [u64] in a release build: two's-complement wrap. *)
Definition wadd (x y : Z) : Z := (x + y) mod u64_modulus.
Definition wsub (x y : Z) : Z := (x - y) mod u64_modulus.
Definition wmul (x y : Z) : Z := (x * y) mod u64_modulus.

#[global] Arguments wadd : simpl never.
#[global] Arguments wsub : simpl never.
#[global] Arguments wmul : simpl never.
#[global] Arguments Z.shiftr : simpl never.
#[global] Arguments Z.shiftl : simpl never.
#[global] Arguments Z.pow : simpl never.

Infix "+w" := wadd (at level 50, left associativity) : rust_scope.
Infix "-w" := wsub (at level 50, left associativity) : rust_scope.
Infix "*w" := wmul (at level 40, left associativity) : rust_scope.

(** [u64::try_from] on a non-negative value. *)
Definition try_u64 (x : Z) : option Z := if x <=? u64_max then Some x else None.

(** [u64::div_ceil]. *)
Definition div_ceil (x y : Z) : Z := x / y + (if x mod y =? 0 then 0 else 1).

(** [u64::abs_diff]. *)
Definition abs_diff (x y : Z) : Z := Z.abs (x - y).

(** [Ord::clamp]. *)
Definition clamp (x lo hi : Z) : Z := Z.min (Z.max x lo) hi.

(** ** Automation *)

Create HintDb days.
#[export] Hint Unfold in_u16 in_u32 in_u64 in_u128 : days.

(** Unfolds the machine operations that [lia] understands once unfolded. *)
Ltac munfold :=
  unfold saturating_add, saturating_sub, saturating_mul, clamp, abs_diff,
    in_u16, in_u32, in_u64, in_u128 in *.

(** [lia] on goals about saturating and clamped machine arithmetic. *)
Ltac mlia := munfold; lia.

(** [mlia] with division and modulo by constants turned into equations. *)
Ltac dlia := munfold; Z.div_mod_to_equations; lia.

(** Case split on every conditional and match of the goal, keeping the facts
    the tests establish in a form [lia] uses. *)
Ltac cases :=
  repeat first
    [ progress simplify_eq/=
    | case_match ].

(** Splits a [Forall] over a concrete list into its elements. *)
Ltac list_forall := repeat (first [apply Forall_nil_2 | apply Forall_cons_2]).

Lemma wadd_small x y : 0 <= x + y <= u64_max -> x +w y = x + y.
Proof. intros. unfold wadd. apply Z.mod_small. lia. Qed.

Lemma wsub_small x y : 0 <= x - y <= u64_max -> x -w y = x - y.
Proof. intros. unfold wsub. apply Z.mod_small. lia. Qed.

Lemma wmul_small x y : 0 <= x * y <= u64_max -> x *w y = x * y.
Proof. intros. unfold wmul. apply Z.mod_small. lia. Qed.

Lemma wadd_range x y : in_u64 (x +w y).
Proof. unfold in_u64, wadd. pose proof (Z.mod_pos_bound (x + y) u64_modulus). lia. Qed.

Lemma wsub_range x y : in_u64 (x -w y).
Proof. unfold in_u64, wsub. pose proof (Z.mod_pos_bound (x - y) u64_modulus). lia. Qed.

Lemma wmul_range x y : in_u64 (x *w y).
Proof. unfold in_u64, wmul. pose proof (Z.mod_pos_bound (x * y) u64_modulus). lia. Qed.

#[export] Hint Resolve wadd_range wsub_range wmul_range : days.

Lemma checked_add_Some x y z :
  checked_add x y = Some z <-> z = x + y /\ x + y <= u64_max.
Proof. unfold checked_add. case_match; [|]; split; intros; simplify_eq; lia || (f_equal; lia). Qed.

Lemma checked_add_None x y : checked_add x y = None <-> u64_max < x + y.
Proof. unfold checked_add. case_match; split; intros; simplify_eq; lia || done. Qed.

Lemma checked_sub_Some x y z :
  checked_sub x y = Some z <-> z = x - y /\ y <= x.
Proof. unfold checked_sub. case_match; split; intros; simplify_eq; lia || (f_equal; lia). Qed.

Lemma checked_sub_None x y : checked_sub x y = None <-> x < y.
Proof. unfold checked_sub. case_match; split; intros; simplify_eq; lia || done. Qed.

Lemma checked_mul_Some x y z :
  checked_mul x y = Some z <-> z = x * y /\ x * y <= u64_max.
Proof. unfold checked_mul. case_match; split; intros; simplify_eq; lia || (f_equal; lia). Qed.

Lemma try_u64_Some x z : try_u64 x = Some z <-> z = x /\ x <= u64_max.
Proof. unfold try_u64. case_match; split; intros; simplify_eq; lia || (f_equal; lia). Qed.

Lemma try_u64_None x : try_u64 x = None <-> u64_max < x.
Proof. unfold try_u64. case_match; split; intros; simplify_eq; lia || done. Qed.

(** [div_ceil] is the least [q] with [x <= q * y]. *)
Lemma div_ceil_spec x y :
  0 < y -> x <= div_ceil x y * y /\ (div_ceil x y - 1) * y < x.
Proof.
  intros Hy. unfold div_ceil.
  pose proof (Z.div_mod x y ltac:(lia)). pose proof (Z.mod_pos_bound x y Hy).
  case_match; nia.
Qed.

(** ** Sorted lists *)

Lemma StronglySorted_mono {A} (R R' : A -> A -> Prop) l :
  (forall a b, R a b -> R' a b) -> StronglySorted R l -> StronglySorted R' l.
Proof.
  intros HR. induction 1 as [|a l _ IH Hall]; constructor; [done|].
  eapply Forall_impl; eauto.
Qed.

Lemma filter_all {A} (P : A -> Prop) `{!forall x, Decision (P x)} (l : list A) :
  (forall x, x ∈ l -> P x) -> filter P l = l.
Proof.
  induction l as [|x l IH]; intros Hl; [done|].
  rewrite filter_cons_True by (apply Hl; left). rewrite IH; [done|]. intros. apply Hl. by right.
Qed.

Lemma filter_none {A} (P : A -> Prop) `{!forall x, Decision (P x)} (l : list A) :
  (forall x, x ∈ l -> ~ P x) -> filter P l = [].
Proof.
  induction l as [|x l IH]; intros Hl; [done|].
  rewrite filter_cons_False by (apply Hl; left). apply IH. intros. apply Hl. by right.
Qed.

Lemma filter_sorted {A} (R : A -> A -> Prop) (P : A -> Prop) `{!forall x, Decision (P x)} l :
  StronglySorted R l -> StronglySorted R (filter P l).
Proof.
  induction 1 as [|x l _ IH Hall]; [constructor|]. rewrite filter_cons.
  case_decide; [|done]. constructor; [done|]. rewrite Forall_forall in Hall |- *.
  intros y [_ Hy]%list_elem_of_filter. auto.
Qed.

(** ** Tables: a list by its entries *)

Lemma lookup_total_table {A} `{Inhabited A} (f : nat -> A) n c : (c < n)%nat ->
  (f <$> seq 0 n) !!! c = f c.
Proof.
  intros Hc. apply list_lookup_total_correct. by rewrite list_lookup_fmap, lookup_seq_lt.
Qed.

Lemma insert_table {A} (f : nat -> A) n c y : (c < n)%nat ->
  <[c := y]> (f <$> seq 0 n) = (fun i => if decide (i = c) then y else f i) <$> seq 0 n.
Proof.
  intros Hc. apply list_eq. intros i. destruct (decide (i < n)%nat) as [Hi|Hi].
  - rewrite (list_lookup_fmap _ (seq 0 n)), lookup_seq_lt by done.
    destruct (decide (c = i)) as [->|Hne]; cbn [fmap option_fmap option_map Nat.add].
    + rewrite list_lookup_insert_eq by (by rewrite length_fmap, length_seq). by case_decide.
    + rewrite list_lookup_insert_ne, list_lookup_fmap, lookup_seq_lt by done. simpl.
      by case_decide.
  - etrans; [apply lookup_ge_None_2|symmetry; apply lookup_ge_None_2];
      rewrite ?length_insert, ?length_fmap, ?length_seq; lia.
Qed.

Lemma table_of_list {A} `{Inhabited A} (l : list A) :
  l = (fun c => l !!! c) <$> seq 0 (length l).
Proof.
  apply list_eq. intros i. destruct (decide (i < length l)%nat) as [Hi|Hi].
  - rewrite list_lookup_fmap, lookup_seq_lt by done. simpl.
    by apply list_lookup_lookup_total_lt.
  - etrans; [apply lookup_ge_None_2|symmetry; apply lookup_ge_None_2];
      rewrite ?length_fmap, ?length_seq; lia.
Qed.

Lemma table_ext {A} (f g : nat -> A) n : (forall c, (c < n)%nat -> f c = g c) ->
  f <$> seq 0 n = g <$> seq 0 n.
Proof. intros H. apply list_fmap_ext. intros i c [-> Hc]%lookup_seq. apply H. lia. Qed.

Lemma alter_table {A} (g : A -> A) (f : nat -> A) n c :
  alter g c (f <$> seq 0 n) = (fun i => if decide (i = c) then g (f i) else f i) <$> seq 0 n.
Proof.
  apply list_eq. intros i. rewrite (list_lookup_fmap _ (seq 0 n)).
  destruct (decide (i = c)) as [->|Hne].
  - rewrite list_lookup_alter_eq, list_lookup_fmap.
    destruct (seq 0 n !! c) as [j|] eqn:E; [|done]. apply lookup_seq in E as [-> _]. simpl.
    by rewrite decide_True.
  - rewrite list_lookup_alter_ne, list_lookup_fmap by done.
    destruct (seq 0 n !! i) as [j|] eqn:E; [|done]. apply lookup_seq in E as [-> _]. simpl.
    by rewrite decide_False.
Qed.

(** ** The result type

    [Result<A, E>] with the monad of the [?] operator. *)

Inductive result (E A : Type) : Type :=
| Ok (a : A)
| Err (e : E).
Arguments Ok {E A} a.
Arguments Err {E A} e.

#[export] Instance result_ret E : MRet (result E) := fun A a => Ok a.
#[export] Instance result_bind E : MBind (result E) := fun A B f m =>
  match m with Ok a => f a | Err e => Err e end.
#[export] Instance result_fmap E : FMap (result E) := fun A B f m =>
  match m with Ok a => Ok (f a) | Err e => Err e end.

(** [Option::ok_or]. *)
Definition ok_or {E A} (o : option A) (e : E) : result E A :=
  match o with Some a => Ok a | None => Err e end.

(** [Result::map_err]. *)
Definition map_err {E F A} (f : E -> F) (m : result E A) : result F A :=
  match m with Ok a => Ok a | Err e => Err (f e) end.

(** A [for] loop whose body may return early with [?]. *)
Fixpoint try_fold {E A B} (f : A -> B -> result E A) (a : A) (l : list B) : result E A :=
  match l with
  | [] => Ok a
  | x :: l => a' ← f a x; try_fold f a' l
  end.

Lemma bind_Ok {E A B} (m : result E A) (f : A -> result E B) b :
  (m ≫= f) = Ok b <-> exists a, m = Ok a /\ f a = Ok b.
Proof. destruct m as [a|e]; simpl; [|by split; [|intros (? & ? & ?)]].
  split; [eauto|]. by intros (? & [= <-] & ?).
Qed.

Lemma ok_or_Ok {E A} (o : option A) (e : E) a : ok_or o e = Ok a <-> o = Some a.
Proof. destruct o; simpl; naive_solver. Qed.

Lemma try_fold_app {E A B} (f : A -> B -> result E A) a l1 l2 :
  try_fold f a (l1 ++ l2) = (a' ← try_fold f a l1; try_fold f a' l2).
Proof.
  revert a. induction l1 as [|x l1 IH]; intros a; simpl; [done|].
  destruct (f a x); simpl; auto.
Qed.

(** An invariant of the body is an invariant of the loop. *)
Lemma try_fold_ind {E A B} (P : A -> Prop) (f : A -> B -> result E A) l :
  (forall a x a', x ∈ l -> P a -> f a x = Ok a' -> P a') ->
  forall a a', P a -> try_fold f a l = Ok a' -> P a'.
Proof.
  induction l as [|x l IH]; simpl; intros Hf a a' Ha Hr; [naive_solver|].
  apply bind_Ok in Hr as (b & Hb & Hr).
  eapply IH; [| |exact Hr].
  - intros c y c' Hy. apply Hf. set_solver.
  - eapply Hf; [|exact Ha|exact Hb]. set_solver.
Qed.

(** A loop that may panic. *)
Fixpoint fold_option {A B} (f : A -> B -> option A) (a : A) (l : list B) : option A :=
  match l with
  | [] => Some a
  | x :: l => a ← f a x; fold_option f a l
  end.

(** ** Code that may not return

    [None] is a run that gives no value: its fuel ran out, or the code panics. *)

Definition fueled (E A : Type) : Type := option (result E A).

#[export] Instance fueled_ret E : MRet (fueled E) := fun A a => Some (Ok a).
#[export] Instance fueled_bind E : MBind (fueled E) := fun A B f m =>
  match m with Some (Ok a) => f a | Some (Err e) => Some (Err e) | None => None end.

(** [expect] and indexing: a panic on [None]. *)
Definition or_panic {E A} (o : option A) : fueled E A :=
  match o with Some a => Some (Ok a) | None => None end.

Definition lift_result {E A} (m : result E A) : fueled E A := Some m.

Fixpoint fueled_fold {E A B} (f : A -> B -> fueled E A) (a : A) (l : list B) : fueled E A :=
  match l with
  | [] => Some (Ok a)
  | x :: l => a' ← f a x; fueled_fold f a' l
  end.

Lemma fueled_fold_snoc {E A B} (f : A -> B -> fueled E A) a (l : list B) x :
  fueled_fold f a (l ++ [x]) = (a' ← fueled_fold f a l; f a' x).
Proof.
  revert a. induction l as [|y l IH]; intros a; simpl.
  - by destruct (f a x) as [[?|?]|].
  - destruct (f a y) as [[b|?]|]; simpl; [apply IH|done..].
Qed.

Lemma fueled_bind_Ok {E A B} (m : fueled E A) (f : A -> fueled E B) b :
  (m ≫= f) = Some (Ok b) <-> exists a, m = Some (Ok a) /\ f a = Some (Ok b).
Proof.
  destruct m as [[a|e]|]; simpl; split; try done; try (by intros (? & ? & ?)); [eauto|].
  by intros (? & [= <-] & ?).
Qed.

Lemma or_panic_Ok {E A} (o : option A) a : or_panic (E := E) o = Some (Ok a) <-> o = Some a.
Proof. destruct o; simpl; naive_solver. Qed.

Lemma lift_result_Ok {E A} (m : result E A) a : lift_result m = Some (Ok a) <-> m = Ok a.
Proof. unfold lift_result. naive_solver. Qed.

Lemma fueled_fold_ind {E A B} (P : A -> Prop) (f : A -> B -> fueled E A) l :
  (forall a x a', x ∈ l -> P a -> f a x = Some (Ok a') -> P a') ->
  forall a a', P a -> fueled_fold f a l = Some (Ok a') -> P a'.
Proof.
  induction l as [|x l IH]; simpl; intros Hf a a' Ha Hr; [naive_solver|].
  apply fueled_bind_Ok in Hr as (b & Hb & Hr).
  eapply IH; [| |exact Hr].
  - intros c y c' Hy. apply Hf. set_solver.
  - eapply Hf; [|exact Ha|exact Hb]. set_solver.
Qed.

(** Splits a run that succeeded into the steps it is made of. *)
Ltac invert_ok :=
  repeat
    (cbv zeta in *;
     lazymatch goal with
     | H : Ok _ = Ok _ |- _ => simplify_eq
     | H : Some _ = Some _ |- _ => simplify_eq
     | H : Err _ = Ok _ |- _ => discriminate H
     | H : None = Some _ |- _ => discriminate H
     | H : ok_or _ _ = Ok _ |- _ => apply (proj1 (ok_or_Ok _ _ _)) in H
     | H : lift_result _ = Some (Ok _) |- _ => apply (proj1 (lift_result_Ok _ _)) in H
     | H : or_panic _ = Some (Ok _) |- _ => apply (proj1 (or_panic_Ok _ _)) in H
     | H : (_ ≫= _) = Ok _ |- _ =>
         let H1 := fresh H in apply bind_Ok in H as (? & H1 & H); cbn beta in H
     | H : (_ ≫= _) = Some _ |- _ =>
         let H1 := fresh H in
         first [apply fueled_bind_Ok in H as (? & H1 & H) | apply bind_Some in H as (? & H1 & H)];
         cbn beta in H
     | H : (match ?x with _ => _ end) = Ok _ |- _ =>
         first [is_var x; destruct x | destruct x eqn:?]
     | H : (match ?x with _ => _ end) = Some _ |- _ =>
         first [is_var x; destruct x | destruct x eqn:?]
     end).

(** ** While loops

    A loop body maps a state to either the next state or a result. [wloop d]
    runs at most [2 ^ d] iterations; it stops at the first result, so its fuel
    costs nothing to evaluate. [Runs] is the loop without fuel. *)

Section loops.
Context {S R : Type} (step : S -> S + R).

Fixpoint wloop (d : nat) (s : S) : S + R :=
  match d with
  | O => step s
  | Datatypes.S d =>
      match wloop d s with
      | inl s' => wloop d s'
      | inr r => inr r
      end
  end.

Inductive Runs : S -> R -> Prop :=
| Runs_stop s r : step s = inr r -> Runs s r
| Runs_step s s' r : step s = inl s' -> Runs s' r -> Runs s r.

(** [n] iterations that all continue. *)
Inductive Iterates : nat -> S -> S -> Prop :=
| Iterates_O s : Iterates O s s
| Iterates_S n s s' s'' : step s = inl s' -> Iterates n s' s'' ->
    Iterates (Datatypes.S n) s s''.

Lemma Runs_det s r1 r2 : Runs s r1 -> Runs s r2 -> r1 = r2.
Proof.
  intros H. revert r2. induction H as [s r Hs|s s' r Hs _ IH]; intros r2 H2;
    inversion H2 as [? ? Hs2|? s2 ? Hs2 Hr2]; subst; rewrite Hs in Hs2; simplify_eq; auto.
Qed.

Lemma Iterates_trans n m s s' s'' :
  Iterates n s s' -> Iterates m s' s'' -> Iterates (n + m) s s''.
Proof. induction 1; simpl; [done|]. intros. econstructor; eauto. Qed.

Lemma Iterates_Runs n s s' r : Iterates n s s' -> Runs s' r -> Runs s r.
Proof. induction 1; eauto using Runs_step. Qed.

Lemma wloop_inl d s s' : wloop d s = inl s' -> Iterates (2 ^ d) s s'.
Proof.
  revert s s'. induction d as [|d IH]; intros s s' H.
  - econstructor; [exact H|constructor].
  - change (2 ^ Datatypes.S d)%nat with (2 ^ d + (2 ^ d + 0))%nat.
    rewrite Nat.add_0_r. simpl in H.
    destruct (wloop d s) as [s1|] eqn:E; [|done].
    eapply Iterates_trans; eauto.
Qed.

Lemma wloop_inr d s r : wloop d s = inr r -> Runs s r.
Proof.
  revert s r. induction d as [|d IH]; intros s r H; simpl in H.
  - by apply Runs_stop.
  - destruct (wloop d s) as [s1|r1] eqn:E; [|naive_solver].
    eapply Iterates_Runs; [by eapply wloop_inl|eauto].
Qed.

(** A measure that decreases at every iteration bounds the iterations. *)
Lemma Iterates_measure (I : S -> Prop) (mu : S -> Z) n s s' :
  (forall s s', I s -> step s = inl s' -> I s' /\ 0 <= mu s' < mu s) ->
  I s -> Iterates n s s' -> I s' /\ mu s' + Z.of_nat n <= mu s.
Proof.
  intros Hstep HI H. revert HI. induction H as [|n s s1 s2 Hs Hit IH]; intros HI.
  - split; [done|lia].
  - destruct (Hstep _ _ HI Hs) as [HI1 Hmu]. destruct (IH HI1). split; [done|lia].
Qed.

(** The proof rule of the loop: an invariant, a measure below the fuel and a
    postcondition established on exit give termination and correctness. *)
Lemma wloop_spec (I : S -> Prop) (mu : S -> Z) (Q : R -> Prop) d s :
  (forall s s', I s -> step s = inl s' -> I s' /\ 0 <= mu s' < mu s) ->
  (forall s r, I s -> step s = inr r -> Q r) ->
  I s -> mu s < 2 ^ Z.of_nat d ->
  exists r, wloop d s = inr r /\ Runs s r /\ Q r.
Proof.
  intros Hstep Hexit HI Hmu.
  destruct (wloop d s) as [s'|r] eqn:E.
  - exfalso. apply wloop_inl in E.
    assert (Hn : Z.of_nat (2 ^ d) = 2 ^ Z.of_nat d) by (rewrite Nat2Z.inj_pow; done).
    assert (Hpos : 0 <= mu s').
    { assert (H1 : (0 < 2 ^ d)%nat) by (apply Nat.neq_0_lt_0, Nat.pow_nonzero; lia).
      clear -E Hstep HI H1.
      revert HI. remember (2 ^ d)%nat as n. clear Heqn.
      induction E as [|n s s1 s2 Hs Hit IH]; [lia|]. intros HI.
      destruct (Hstep _ _ HI Hs) as [HI1 ?].
      destruct n; [inversion Hit; subst; lia|]. apply IH; [lia|done]. }
    destruct (Iterates_measure _ mu _ _ _ Hstep HI E). lia.
  - exists r. split_and!; [done|by eapply wloop_inr|].
    apply wloop_inr in E. clear Hmu.
    induction E as [s r Hs|s s' r Hs Hr IH]; [eauto|].
    apply IH. by eapply Hstep.
Qed.

(** Any sufficient fuel gives the result of the loop. *)
Lemma Runs_wloop (I : S -> Prop) (mu : S -> Z) d s r :
  (forall s s', I s -> step s = inl s' -> I s' /\ 0 <= mu s' < mu s) ->
  I s -> mu s < 2 ^ Z.of_nat d -> Runs s r -> wloop d s = inr r.
Proof.
  intros Hstep HI Hmu Hr.
  destruct (wloop_spec I mu (fun _ => True) d s Hstep (fun _ _ _ _ => Logic.I) HI Hmu)
    as (r' & Hw & Hr' & _).
  rewrite Hw. f_equal. by eapply Runs_det.
Qed.
End loops.

(** The result of a loop that is known to terminate; [default] otherwise. *)
Definition loop_result {S R} (default : R) (o : S + R) : R :=
  match o with inl _ => default | inr r => r end.

(** ** Record update

    Rust updates structs in place, one field at a time. A record declares its
    eta-expansion once; the setter of each field is derived from it, and
    [r <| f := v |>] reads as the assignment [r.f = v]. *)

Class RecordEta (R : Type) := record_eta : R -> R.
Class FieldSetter {R T : Type} (f : R -> T) := field_update : (T -> T) -> R -> R.
#[global] Arguments field_update {R T} f {_} _ _ /.

Ltac derive_setter :=
  lazymatch goal with
  | |- @FieldSetter ?R ?T ?f =>
      let e := eval hnf in (record_eta : R -> R) in
      lazymatch eval pattern f in e with
      | ?ctx _ => exact (fun (g : T -> T) (r : R) => ctx (fun r => g (f r)) r)
      end
  end.

#[export] Hint Extern 1 (FieldSetter _) => derive_setter : typeclass_instances.

Declare Scope record_scope.
#[global] Open Scope record_scope.
Notation "r <| f := v |>" := (field_update f (fun _ => v) r)
  (at level 12, left associativity, f at level 200, v at level 200,
   format "r  <| f  :=  v |>") : record_scope.
Notation "r <| f ::= g |>" := (field_update f g r)
  (at level 12, left associativity, f at level 200, g at level 200,
   format "r  <| f  ::=  g |>") : record_scope.
