(* ===== verification/OrdMap.v ===== *)
(** * Ordered maps: the standard library's [BTreeMap] and [BTreeSet]

    The executor keeps its ordered state in [std::collections::BTreeMap] and
    [BTreeSet]. A map is modelled as the association list its iterator yields:
    strictly increasing in the key ([wf]). The canonical form makes Leibniz
    equality the equality of maps ([bm_ext]). *)

From S2P Require Import Prelude.

(** A key type with Rust's [Ord]: a total comparison. *)
Class OrdKey (K : Type) := {
  kcmp : K -> K -> comparison;
  kcmp_eq a b : kcmp a b = Eq <-> a = b;
  kcmp_opp a b : kcmp b a = CompOpp (kcmp a b);
  kcmp_trans a b c : kcmp a b = Lt -> kcmp b c = Lt -> kcmp a c = Lt;
}.

Definition klt {K} `{OrdKey K} (a b : K) : Prop := kcmp a b = Lt.
Definition kle {K} `{OrdKey K} (a b : K) : Prop := kcmp a b <> Gt.
Definition kltb {K} `{OrdKey K} (a b : K) : bool :=
  match kcmp a b with Lt => true | _ => false end.
Definition kleb {K} `{OrdKey K} (a b : K) : bool :=
  match kcmp a b with Gt => false | _ => true end.
Definition keqb {K} `{OrdKey K} (a b : K) : bool :=
  match kcmp a b with Eq => true | _ => false end.

(** [Ord::min]. *)
Definition kmin {K} `{OrdKey K} (a b : K) : K := if kleb a b then a else b.

Section order.
Context {K : Type} `{OrdKey K}.
Implicit Types a b c : K.

Lemma kcmp_refl a : kcmp a a = Eq.
Proof. by apply kcmp_eq. Qed.

Lemma klt_irrefl a : ~ klt a a.
Proof. unfold klt. by rewrite kcmp_refl. Qed.

Lemma klt_trans a b c : klt a b -> klt b c -> klt a c.
Proof. apply kcmp_trans. Qed.

Lemma kcmp_gt a b : kcmp a b = Gt <-> klt b a.
Proof. unfold klt. rewrite (kcmp_opp a b). destruct (kcmp a b); simpl; naive_solver. Qed.

Lemma klt_asym a b : klt a b -> ~ klt b a.
Proof. intros H1 H2. exact (klt_irrefl a (klt_trans _ _ _ H1 H2)). Qed.

Lemma klt_ne a b : klt a b -> a <> b.
Proof. intros Hlt ->. exact (klt_irrefl _ Hlt). Qed.

Lemma kle_lt_eq a b : kle a b <-> klt a b \/ a = b.
Proof. unfold kle, klt. rewrite <- kcmp_eq. destruct (kcmp a b); naive_solver. Qed.

Lemma kle_not_lt a b : kle a b <-> ~ klt b a.
Proof. unfold kle. rewrite <- kcmp_gt. done. Qed.

Lemma klt_total a b : klt a b \/ a = b \/ klt b a.
Proof.
  destruct (kcmp a b) eqn:E; [right; left; by apply kcmp_eq|by left|].
  right; right. by apply kcmp_gt.
Qed.

Lemma klt_le_trans a b c : klt a b -> kle b c -> klt a c.
Proof. rewrite kle_lt_eq. intros ? [?| <-]; eauto using klt_trans. Qed.

Lemma kle_lt_trans a b c : kle a b -> klt b c -> klt a c.
Proof. rewrite kle_lt_eq. intros [?| ->]; eauto using klt_trans. Qed.

#[export] Instance kle_trans : Transitive kle.
Proof.
  intros a b c. rewrite !kle_lt_eq. intros [?| <-] [?| <-]; eauto using klt_trans.
Qed.

#[export] Instance klt_transitive : Transitive klt.
Proof. intros a b c. apply klt_trans. Qed.

Lemma kle_refl a : kle a a.
Proof. rewrite kle_lt_eq. by right. Qed.

Lemma klt_le a b : klt a b -> kle a b.
Proof. rewrite kle_lt_eq. by left. Qed.

Lemma kle_antisym a b : kle a b -> kle b a -> a = b.
Proof.
  rewrite !kle_lt_eq. intros [?|?] [?|?]; auto. exfalso. by eapply klt_asym.
Qed.

Lemma kle_total a b : kle a b \/ kle b a.
Proof. rewrite !kle_lt_eq. destruct (klt_total a b) as [|[|]]; auto. Qed.

#[export] Instance kle_AntiSymm : AntiSymm eq kle.
Proof. intros a b. apply kle_antisym. Qed.

#[export] Instance kle_Total : Total kle.
Proof. intros a b. apply kle_total. Qed.

Lemma kltb_spec a b : kltb a b = true <-> klt a b.
Proof. unfold kltb, klt. destruct (kcmp a b); naive_solver. Qed.

Lemma kltb_false a b : kltb a b = false <-> kle b a.
Proof. rewrite kle_not_lt, <- kltb_spec. destruct (kltb a b); naive_solver. Qed.

Lemma kleb_spec a b : kleb a b = true <-> kle a b.
Proof. unfold kleb, kle. destruct (kcmp a b); naive_solver. Qed.

Lemma kleb_false a b : kleb a b = false <-> klt b a.
Proof. rewrite <- kcmp_gt. unfold kleb. destruct (kcmp a b); naive_solver. Qed.

Lemma keqb_spec a b : keqb a b = true <-> a = b.
Proof. rewrite <- kcmp_eq. unfold keqb. destruct (kcmp a b); naive_solver. Qed.

#[export] Instance key_eq_dec : EqDecision K | 100.
Proof.
  intros a b. destruct (kcmp a b) eqn:E; [left; by apply kcmp_eq|right..];
    intros ->; by rewrite kcmp_refl in E.
Defined.

#[export] Instance kle_dec a b : Decision (kle a b).
Proof. unfold kle. destruct (kcmp a b); [left|left|right]; naive_solver. Defined.

#[export] Instance klt_dec a b : Decision (klt a b).
Proof. unfold klt. destruct (kcmp a b); [right|left|right]; naive_solver. Defined.

Lemma kmin_spec a b : (kmin a b = a /\ kle a b) \/ (kmin a b = b /\ klt b a).
Proof.
  unfold kmin. destruct (kleb a b) eqn:E; [left|right]; split; auto;
    by rewrite <- ?kleb_spec, <- ?kleb_false.
Qed.
End order.

#[export] Hint Resolve klt_trans klt_le kle_refl kle_lt_trans klt_le_trans : days.

(** Keys are compared through an injection into another key type. *)
Program Definition ord_by {A K} `{OrdKey K} (f : A -> K) (Hf : forall a b, f a = f b -> a = b)
  : OrdKey A := {| kcmp a b := kcmp (f a) (f b) |}.
Next Obligation. intros. rewrite kcmp_eq. split; [auto|by intros ->]. Qed.
Next Obligation. intros. apply kcmp_opp. Qed.
Next Obligation. intros A K H f Hf a b c. apply kcmp_trans. Qed.

#[export] Program Instance Z_ord : OrdKey Z := {| kcmp := Z.compare |}.
Next Obligation. intros. apply Z.compare_eq_iff. Qed.
Next Obligation. intros. apply Z.compare_antisym. Qed.
Next Obligation. intros a b c. rewrite !Z.compare_lt_iff. lia. Qed.

(** Lexicographic comparison, as [#[derive(Ord)]] orders a struct's fields. *)
Definition lex_compare {A B} `{OrdKey A, OrdKey B} (x y : A * B) : comparison :=
  match kcmp x.1 y.1 with Eq => kcmp x.2 y.2 | c => c end.

#[export] Program Instance prod_ord {A B} `{OrdKey A, OrdKey B} : OrdKey (A * B) :=
  {| kcmp := lex_compare |}.
Next Obligation.
  intros A B HA HB [a1 a2] [b1 b2]. unfold lex_compare; simpl.
  destruct (kcmp a1 b1) eqn:E.
  - apply kcmp_eq in E as ->. rewrite kcmp_eq. naive_solver.
  - split; [done|]. intros [= -> ->]. by rewrite kcmp_refl in E.
  - split; [done|]. intros [= -> ->]. by rewrite kcmp_refl in E.
Qed.
Next Obligation.
  intros A B HA HB [a1 a2] [b1 b2]. unfold lex_compare; simpl.
  rewrite (kcmp_opp a1 b1). destruct (kcmp a1 b1); simpl; auto. apply kcmp_opp.
Qed.
Next Obligation.
  intros A B HA HB [a1 a2] [b1 b2] [c1 c2]. unfold lex_compare; simpl.
  destruct (kcmp a1 b1) eqn:E1; [|destruct (kcmp b1 c1) eqn:E2|]; intros H1 H2.
  - apply kcmp_eq in E1 as ->. destruct (kcmp b1 c1); eauto using kcmp_trans.
  - apply kcmp_eq in E2 as ->. by rewrite E1.
  - by rewrite (kcmp_trans _ _ _ E1 E2).
  - done.
  - done.
Qed.

Lemma klt_Z (a b : Z) : klt a b <-> a < b.
Proof. apply Z.compare_lt_iff. Qed.

Lemma kle_Z (a b : Z) : kle a b <-> a <= b.
Proof. rewrite kle_not_lt, klt_Z. lia. Qed.

Lemma klt_pair {A B} `{OrdKey A, OrdKey B} (x y : A * B) :
  klt x y <-> klt x.1 y.1 \/ (x.1 = y.1 /\ klt x.2 y.2).
Proof.
  unfold klt at 1. simpl. unfold lex_compare, klt.
  destruct (kcmp x.1 y.1) eqn:E.
  - apply kcmp_eq in E. naive_solver.
  - split; auto.
  - split; [done|]. intros [|[E' _]]; [done|]. rewrite E', kcmp_refl in E. done.
Qed.

(** ** Maps *)

Abbreviation bmap K V := (list (K * V)) (only parsing).

Section maps.
Context {K V : Type} `{OrdKey K}.
Implicit Types (k : K) (v : V) (m : bmap K V).

Definition wf m : Prop := StronglySorted klt m.*1.

(** [BTreeMap::get]. *)
Fixpoint bm_get k m : option V :=
  match m with
  | [] => None
  | (k', v) :: m => if keqb k k' then Some v else bm_get k m
  end.

(** [BTreeMap::insert]; the value it returns is [bm_get k m]. *)
Fixpoint bm_insert k v m : bmap K V :=
  match m with
  | [] => [(k, v)]
  | (k', v') :: m' =>
      match kcmp k k' with
      | Lt => (k, v) :: m
      | Eq => (k, v) :: m'
      | Gt => (k', v') :: bm_insert k v m'
      end
  end.

(** [BTreeMap::remove]. *)
Fixpoint bm_remove k m : bmap K V :=
  match m with
  | [] => []
  | (k', v') :: m' => if keqb k k' then m' else (k', v') :: bm_remove k m'
  end.

(** [BTreeMap::first_key_value] and [BTreeMap::pop_first]. *)
Definition bm_first m : option (K * V) := head m.
Definition bm_pop_first m : option (K * V) * bmap K V := (head m, tail m).

(** [BTreeMap::last_key_value]; [BTreeMap::pop_last] also drops it. *)
Definition bm_last m : option (K * V) := last m.

(** [BTreeMap::split_off]: the first part keeps the keys below [k]. *)
Definition bm_split_off k m : bmap K V * bmap K V :=
  (filter (fun kv => klt kv.1 k) m, filter (fun kv => kle k kv.1) m).

(** [BTreeMap::range] over an inclusive range. *)
Definition bm_range lo hi m : bmap K V :=
  filter (fun kv => kle lo kv.1 /\ kle kv.1 hi) m.

Lemma wf_nil : wf [].
Proof. constructor. Qed.

Lemma wf_cons k v m : wf ((k, v) :: m) <-> Forall (fun kv => klt k kv.1) m /\ wf m.
Proof.
  unfold wf. simpl. split.
  - intros [? HF]%StronglySorted_inv. by rewrite Forall_fmap in HF.
  - intros [HF ?]. constructor; [done|]. by rewrite Forall_fmap.
Qed.

Lemma bm_get_elem_of k v m : wf m -> bm_get k m = Some v <-> (k, v) ∈ m.
Proof.
  induction m as [|[k' v'] m IH]; intros Hwf; simpl; [set_solver|].
  apply wf_cons in Hwf as [HF Hwf]. rewrite elem_of_cons.
  destruct (keqb k k') eqn:E.
  - apply keqb_spec in E as ->. split; [intros [= ->]; by left|].
    intros [[= <-]|Hin]; [done|]. exfalso.
    rewrite Forall_forall in HF. apply HF in Hin. by eapply klt_irrefl.
  - rewrite IH by done. split; [by right|]. intros [[= -> ->]|?]; [|done].
    assert (Hkk : keqb k' k' = true) by (by apply keqb_spec). congruence.
Qed.

Lemma bm_get_None k m : bm_get k m = None <-> k ∉ m.*1.
Proof.
  induction m as [|[k' v'] m IH]; simpl; [set_solver|].
  destruct (keqb k k') eqn:E.
  - apply keqb_spec in E as ->. set_solver.
  - assert (k <> k') by (intros ->; assert (keqb k' k' = true) by (by apply keqb_spec); congruence).
    rewrite IH. set_solver.
Qed.

Lemma bm_insert_elem_of_1 k v m x :
  x ∈ bm_insert k v m -> x = (k, v) \/ x ∈ m.
Proof.
  induction m as [|[k' v'] m IH]; simpl; [set_solver|].
  destruct (kcmp k k') eqn:E; rewrite ?elem_of_cons; [naive_solver..|].
  intros [->|Hx]; [naive_solver|]. destruct (IH Hx); naive_solver.
Qed.

Lemma bm_insert_wf k v m : wf m -> wf (bm_insert k v m).
Proof.
  induction m as [|[k' v'] m IH]; intros Hwf; simpl.
  - apply wf_cons. split; constructor.
  - pose proof Hwf as Hwf0. apply wf_cons in Hwf as [HF Hwf].
    destruct (kcmp k k') eqn:E; apply wf_cons.
    + apply kcmp_eq in E as ->. done.
    + split; [|done]. constructor; [done|]. eapply Forall_impl; [exact HF|].
      simpl. intros ? ?. by eapply klt_trans.
    + split; [|by apply IH]. rewrite Forall_forall in HF |- *. intros x Hx.
      apply bm_insert_elem_of_1 in Hx as [->|Hx]; [by apply kcmp_gt|by apply HF].
Qed.

Lemma bm_get_insert_eq k v m : bm_get k (bm_insert k v m) = Some v.
Proof.
  induction m as [|[k' v'] m IH]; simpl.
  - by rewrite (proj2 (keqb_spec k k) eq_refl).
  - destruct (kcmp k k') eqn:E; simpl; rewrite ?(proj2 (keqb_spec k k) eq_refl); auto.
    unfold keqb. by rewrite E.
Qed.

Lemma bm_get_insert_ne k k2 v m : k <> k2 -> bm_get k2 (bm_insert k v m) = bm_get k2 m.
Proof.
  intros Hne.
  assert (Hf : keqb k2 k = false).
  { destruct (keqb k2 k) eqn:E; [|done]. apply keqb_spec in E. congruence. }
  induction m as [|[k' v'] m IH]; simpl; [by rewrite Hf|].
  destruct (kcmp k k') eqn:E; simpl; rewrite ?Hf; auto.
  - apply kcmp_eq in E as <-. by rewrite Hf.
  - by rewrite IH.
Qed.

(** Two well-formed maps with the same elements are equal. *)
Lemma bm_ext m1 m2 : wf m1 -> wf m2 -> (forall x, x ∈ m1 <-> x ∈ m2) -> m1 = m2.
Proof.
  revert m2. induction m1 as [|[k1 v1] m1 IH]; intros [|[k2 v2] m2] H1 H2 Hx.
  - done.
  - exfalso. destruct (Hx (k2, v2)) as [_ Hin]. set_solver.
  - exfalso. destruct (Hx (k1, v1)) as [Hin _]. set_solver.
  - apply wf_cons in H1 as [HF1 H1]. apply wf_cons in H2 as [HF2 H2].
    rewrite Forall_forall in HF1, HF2.
    assert (Heq : (k1, v1) = (k2, v2)).
    { destruct (Hx (k1, v1)) as [Hin1 _], (Hx (k2, v2)) as [_ Hin2].
      rewrite !elem_of_cons in Hin1, Hin2.
      destruct Hin1 as [?|Hin1]; [by left|done|].
      destruct Hin2 as [?|Hin2]; [by left|done|].
      apply HF2 in Hin1. apply HF1 in Hin2. simpl in *. exfalso. by eapply klt_asym. }
    rewrite Heq. f_equal. apply IH; [done..|]. intros x. specialize (Hx x).
    rewrite Heq, !elem_of_cons in Hx. simplify_eq. split; intros Hin.
    + destruct Hx as [[->|?] _]; [by right| |done].
      apply HF1 in Hin. exfalso. by eapply klt_irrefl.
    + destruct Hx as [_ [->|?]]; [by right| |done].
      apply HF2 in Hin. exfalso. by eapply klt_irrefl.
Qed.

Lemma bm_insert_elem_of k v m x :
  wf m -> x ∈ bm_insert k v m <-> x = (k, v) \/ (x ∈ m /\ x.1 <> k).
Proof.
  intros Hwf. destruct x as [k2 v2].
  rewrite <- bm_get_elem_of by (by apply bm_insert_wf).
  destruct (decide (k = k2)) as [<-|Hne].
  - rewrite bm_get_insert_eq. naive_solver.
  - rewrite bm_get_insert_ne by done. rewrite bm_get_elem_of by done. naive_solver.
Qed.

Lemma bm_insert_perm k v m :
  wf m -> bm_get k m = None -> bm_insert k v m ≡ₚ (k, v) :: m.
Proof.
  rewrite bm_get_None. induction m as [|[k' v'] m IH]; intros Hwf Hn; simpl; [done|].
  destruct (kcmp k k') eqn:E; [|done|].
  - apply kcmp_eq in E as ->. set_solver.
  - rewrite IH; [constructor|by eapply wf_cons|set_solver].
Qed.

Lemma bm_remove_elem_of_1 k m x : x ∈ bm_remove k m -> x ∈ m.
Proof.
  induction m as [|[k' v'] m IH]; simpl; [done|].
  case_match; rewrite ?elem_of_cons; naive_solver.
Qed.

Lemma bm_remove_wf k m : wf m -> wf (bm_remove k m).
Proof.
  induction m as [|[k' v'] m IH]; simpl; [done|]. intros [HF Hwf]%wf_cons.
  case_match; [done|]. apply wf_cons. split; [|by apply IH].
  rewrite Forall_forall in HF |- *. intros x Hx. apply HF. by eapply bm_remove_elem_of_1.
Qed.

Lemma bm_remove_elem_of k m x :
  wf m -> x ∈ bm_remove k m <-> x ∈ m /\ x.1 <> k.
Proof.
  induction m as [|[k' v'] m IH]; intros Hwf; simpl; [set_solver|].
  apply wf_cons in Hwf as [HF Hwf]. rewrite Forall_forall in HF.
  destruct (keqb k k') eqn:E.
  - apply keqb_spec in E as ->. rewrite elem_of_cons. split.
    + intros Hx. split; [by right|]. intros Heq. apply HF in Hx. rewrite Heq in Hx.
      by eapply klt_irrefl.
    + intros [[->|?] ?]; done.
  - rewrite !elem_of_cons, IH by done. split; [|naive_solver].
    intros [->|?]; [|naive_solver]. split; [by left|]. simpl. intros ->.
    assert (keqb k k = true) by (by apply keqb_spec). congruence.
Qed.

Lemma bm_remove_perm k v m : bm_get k m = Some v -> m ≡ₚ (k, v) :: bm_remove k m.
Proof.
  induction m as [|[k' v'] m IH]; simpl; [done|]. destruct (keqb k k') eqn:E.
  - apply keqb_spec in E as ->. by intros [= ->].
  - intros Hk. rewrite (IH Hk) at 1. apply perm_swap.
Qed.

Lemma bm_remove_absent k m : bm_get k m = None -> bm_remove k m = m.
Proof.
  induction m as [|[k' v'] m IH]; simpl; [done|]. destruct (keqb k k'); [done|].
  intros Hk. by rewrite IH.
Qed.

Lemma bm_insert_perm_remove k v m :
  wf m -> bm_insert k v m ≡ₚ (k, v) :: bm_remove k m.
Proof.
  intros Hwf. assert (Hr : wf (bm_remove k m)) by (by apply bm_remove_wf).
  assert (Heq : bm_insert k v m = bm_insert k v (bm_remove k m)).
  { apply bm_ext; [by apply bm_insert_wf..|]. intros x.
    rewrite !bm_insert_elem_of, bm_remove_elem_of by done. naive_solver. }
  rewrite Heq. apply bm_insert_perm; [done|]. apply bm_get_None. intros ((k' & v') & Hk & Hin)%list_elem_of_fmap.
  apply bm_remove_elem_of in Hin as [_ Hne]; [|done]. by simpl in *.
Qed.

Lemma filter_wf (P : K * V -> Prop) `{!forall x, Decision (P x)} m : wf m -> wf (filter P m).
Proof.
  induction m as [|[k v] m IH]; [done|]. intros [HF Hwf]%wf_cons.
  rewrite filter_cons. case_decide; [|by apply IH].
  apply wf_cons. split; [|by apply IH]. rewrite Forall_forall in HF |- *.
  intros x [_ ?]%list_elem_of_filter. by apply HF.
Qed.

Lemma bm_split_off_wf k m :
  wf m -> wf (bm_split_off k m).1 /\ wf (bm_split_off k m).2.
Proof. intros. split; by apply filter_wf. Qed.

(** The head of a well-formed map holds its least key. *)
Lemma bm_first_min k v m x : wf ((k, v) :: m) -> x ∈ (k, v) :: m -> kle k x.1.
Proof.
  intros [HF _]%wf_cons. rewrite elem_of_cons, Forall_forall in *.
  intros [->|?]; [apply kle_refl|]. apply klt_le. by apply HF.
Qed.

(** Taking while the keys stay below a bound is filtering by it. *)
Lemma wf_NoDup m : wf m -> NoDup m.*1.
Proof.
  induction m as [|[k v] m IH]; simpl; [constructor|].
  intros [HF Hwf]%wf_cons. constructor; [|by apply IH].
  rewrite Forall_forall in HF. intros ((k', v') & -> & Hin)%list_elem_of_fmap.
  apply HF in Hin. by eapply klt_irrefl.
Qed.
End maps.

#[export] Hint Resolve wf_nil bm_insert_wf bm_remove_wf : days.

(** Insertion and removal at two distinct keys commute. *)
Lemma bm_remove_insert_ne {K V} `{OrdKey K} (k k2 : K) (v : V) m :
  wf m -> k <> k2 -> bm_remove k2 (bm_insert k v m) = bm_insert k v (bm_remove k2 m).
Proof.
  intros Hwf Hne. apply bm_ext; [auto with days..|]. intros x.
  rewrite bm_remove_elem_of, !bm_insert_elem_of, bm_remove_elem_of by auto with days.
  split; [naive_solver|]. intros [->|?]; [split; [by left|done]|naive_solver].
Qed.

(** ** Sets: a [BTreeSet] is the sorted list of its elements. *)

Abbreviation bset K := (list K) (only parsing).

Section sets.
Context {K : Type} `{OrdKey K}.
Implicit Types (k : K) (s : bset K).

Definition bs_contains k s : bool := existsb (keqb k) s.

(** [BTreeSet::insert]; it returns whether the element is new. *)
Fixpoint bs_add k s : bset K :=
  match s with
  | [] => [k]
  | k' :: s' =>
      match kcmp k k' with
      | Lt => k :: s
      | Eq => s
      | Gt => k' :: bs_add k s'
      end
  end.

Definition bs_insert k s : bool * bset K := (negb (bs_contains k s), bs_add k s).

(** [BTreeSet::remove]; it returns whether the element was present. *)
Definition bs_remove k s : bool * bset K :=
  (bs_contains k s, filter (fun k' => k' <> k) s).

Lemma bs_contains_spec k s : bs_contains k s = true <-> k ∈ s.
Proof.
  unfold bs_contains. rewrite existsb_exists. setoid_rewrite keqb_spec.
  setoid_rewrite <- list_elem_of_In. naive_solver.
Qed.

Lemma bs_add_elem_of k s x : x ∈ bs_add k s <-> x = k \/ x ∈ s.
Proof.
  induction s as [|k' s IH]; simpl; [set_solver|].
  destruct (kcmp k k') eqn:E; rewrite ?elem_of_cons, ?IH; [|naive_solver..].
  apply kcmp_eq in E as ->. naive_solver.
Qed.

Lemma bs_add_sorted k s : StronglySorted klt s -> StronglySorted klt (bs_add k s).
Proof.
  induction s as [|k' s IH]; intros Hs; simpl.
  - repeat constructor.
  - destruct (kcmp k k') eqn:E; [done|..]; pose proof Hs as [Hs' HF]%StronglySorted_inv.
    + constructor; [done|]. constructor; [done|]. eapply Forall_impl; [exact HF|].
      intros ? ?. by eapply klt_trans.
    + constructor; [by apply IH|]. rewrite Forall_forall in HF |- *. intros x Hx.
      apply bs_add_elem_of in Hx as [->|Hx]; [by apply kcmp_gt|by apply HF].
Qed.
End sets.
