(* ===== verification/Words.v ===== *)
(** * Arrays of machine words

    The device planners and readbacks work on flat [Vec<u64>] planes. The indexed
    operations they use, where an index out of range panics, and what each one
    leaves inside and outside the words it touches. *)

From S2P Require Import Prelude.

(** [words[start..start + record.len()].copy_from_slice(record)]. *)
Definition write_record (start : nat) (record : list Z) (words : list Z) : option (list Z) :=
  if (start + length record <=? length words)%nat
  then Some (take start words ++ record ++ drop (start + length record)%nat words) else None.

(** [words[start] = value]. *)
Definition write_word (start : nat) (value : Z) (words : list Z) : option (list Z) :=
  if (start <? length words)%nat then Some (<[start := value]> words) else None.

Definition option_fold {A B} (f : A -> B -> option A) : A -> list B -> option A :=
  fix go acc l := match l with [] => Some acc | b :: l => acc ← f acc b; go acc l end.

(** [&source[from..from + len]]. *)
Definition read_slice (source : list Z) (from len : nat) : option (list Z) :=
  if (from + len <=? length source)%nat then Some (take len (drop from source)) else None.

Lemma write_word_app meta l i v : (i < length l)%nat ->
  write_word (length meta + i) v (meta ++ l) = Some (meta ++ <[i := v]> l).
Proof.
  intros Hi. unfold write_word. rewrite length_app.
  rewrite (proj2 (Nat.ltb_lt _ _)) by lia. by rewrite insert_app_r.
Qed.

Lemma write_next (filled record : list Z) k :
  write_record (length filled) record (filled ++ replicate (length record + k) 0)
  = Some ((filled ++ record) ++ replicate k 0).
Proof.
  unfold write_record. rewrite length_app, length_replicate.
  rewrite (proj2 (Nat.leb_le _ _)) by lia. rewrite take_app_length.
  rewrite <- app_assoc. do 3 f_equal. rewrite drop_app_ge by lia.
  rewrite drop_replicate. f_equal. lia.
Qed.


(** ** Windows: a piece of a plane at a known position *)

Lemma window_lookup {A} (pre mid post : list A) k : (k < length mid)%nat ->
  (pre ++ mid ++ post) !! (length pre + k)%nat = mid !! k.
Proof.
  intros Hk. rewrite lookup_app_r by lia. rewrite lookup_app_l by lia. f_equal. lia.
Qed.

Lemma window_write_word (pre mid post : list Z) k v : (k < length mid)%nat ->
  write_word (length pre + k) v (pre ++ mid ++ post) = Some (pre ++ <[k := v]> mid ++ post).
Proof.
  intros Hk. unfold write_word. rewrite !length_app. rewrite (proj2 (Nat.ltb_lt _ _)) by lia.
  rewrite insert_app_r_alt by lia. rewrite insert_app_l by lia. do 4 f_equal. lia.
Qed.

(** [record] over the words of [mid] from [k] on. *)
Definition splice {A} (k : nat) (record mid : list A) : list A :=
  take k mid ++ record ++ drop (k + length record) mid.

Lemma window_write_record (pre mid post : list Z) k record : (k + length record <= length mid)%nat ->
  write_record (length pre + k) record (pre ++ mid ++ post)
  = Some (pre ++ splice k record mid ++ post).
Proof.
  intros Hk. unfold write_record, splice. rewrite !length_app.
  rewrite (proj2 (Nat.leb_le _ _)) by lia. f_equal.
  rewrite take_app_ge by lia. replace (length pre + k - length pre)%nat with k by lia.
  rewrite take_app_le by lia. rewrite drop_app_ge by lia.
  replace (length pre + k + length record - length pre)%nat with (k + length record)%nat by lia.
  rewrite drop_app_le by lia. by rewrite <- !app_assoc.
Qed.

Lemma window_read_slice (pre mid post : list Z) k n : (k + n <= length mid)%nat ->
  read_slice (pre ++ mid ++ post) (length pre + k) n = Some (take n (drop k mid)).
Proof.
  intros Hk. unfold read_slice. rewrite !length_app. rewrite (proj2 (Nat.leb_le _ _)) by lia.
  rewrite drop_app_ge by lia. replace (length pre + k - length pre)%nat with k by lia.
  rewrite drop_app_le by lia. rewrite take_app_le by (rewrite length_drop; lia). done.
Qed.

Lemma splice_length {A} k (record mid : list A) : (k + length record <= length mid)%nat ->
  length (splice k record mid) = length mid.
Proof. intros Hk. unfold splice. rewrite !length_app, length_take, length_drop. lia. Qed.

Lemma splice_insert {A} k j (record mid : list A) v : (k <= length mid)%nat ->
  (j < length record)%nat -> <[(k + j)%nat := v]> (splice k record mid) = splice k (<[j := v]> record) mid.
Proof.
  intros Hk Hj. unfold splice. rewrite length_insert.
  rewrite insert_app_r_alt by (rewrite length_take; lia). rewrite length_take, Nat.min_l by lia.
  replace (k + j - k)%nat with j by lia. by rewrite insert_app_l by done.
Qed.

Lemma splice_splice {A} k j (inner record mid : list A) : (k <= length mid)%nat ->
  (j + length inner <= length record)%nat ->
  splice (k + j) inner (splice k record mid) = splice k (splice j inner record) mid.
Proof.
  intros Hk Hj. unfold splice at 1 2 3. rewrite splice_length by done.
  rewrite take_app_ge by (rewrite length_take; lia).
  rewrite length_take, Nat.min_l by lia. replace (k + j - k)%nat with j by lia.
  rewrite (take_app_le record) by lia. rewrite <- app_assoc. f_equal.
  unfold splice. rewrite <- !app_assoc. do 2 f_equal.
  rewrite drop_app_ge by (rewrite length_take; lia). rewrite length_take, Nat.min_l by lia.
  rewrite drop_app_le by lia. f_equal. f_equal. lia.
Qed.

Lemma splice_over {A} k (inner record mid : list A) : (k <= length mid)%nat ->
  (length inner <= length record)%nat ->
  splice k inner (splice k record mid) = splice k (splice 0 inner record) mid.
Proof. intros Hk Hj. rewrite <- splice_splice by lia. by rewrite Nat.add_0_r. Qed.

Lemma splice_all {A} (record mid : list A) : length record = length mid -> splice 0 record mid = record.
Proof. intros H. unfold splice. simpl. by rewrite drop_ge, app_nil_r by lia. Qed.

(** ** Tables: rows of one width, one after the other *)

Lemma table_length {A} n (rows : list (list A)) :
  Forall (fun row => length row = n) rows -> length (mjoin rows) = (length rows * n)%nat.
Proof.
  intros Hu. rewrite length_join.
  assert (H : length <$> rows = replicate (length rows) n).
  { induction Hu as [|row rows Hr _ IH]; [done|]. cbn [fmap list_fmap length]. by rewrite Hr, IH. }
  by rewrite H, sum_list_replicate.
Qed.

Lemma table_split {A} n (rows : list (list A)) i row :
  Forall (fun row => length row = n) rows -> rows !! i = Some row ->
  mjoin rows = mjoin (take i rows) ++ row ++ mjoin (drop (S i) rows)
  /\ length (mjoin (take i rows)) = (i * n)%nat /\ length row = n.
Proof.
  intros Hu Hi. split_and!.
  - rewrite <- (take_drop_middle rows i row) at 1 by done. by rewrite join_app.
  - rewrite (table_length n) by by apply Forall_take. apply lookup_lt_Some in Hi.
    rewrite length_take. f_equal. lia.
  - exact (Forall_lookup_1 _ _ _ _ Hu Hi).
Qed.

Lemma table_insert {A} (rows : list (list A)) i row : (i < length rows)%nat ->
  mjoin (<[i := row]> rows) = mjoin (take i rows) ++ row ++ mjoin (drop (S i) rows).
Proof. intros Hi. rewrite insert_take_drop by done. by rewrite join_app. Qed.
