(* ===== verification/Event.v ===== *)
(** * Canonical event records (executor/src/event.rs, the dispatch table of model.rs)

    Event keys and their lexicographic order, event kinds with their equal-time
    phase and future-event-list class, payload identities allocated from a
    node-local sequence, and the role/event dispatch table. *)

From S2P Require Import Prelude OrdMap.

(** Stable identifiers are transparent wrappers of [u64]. *)
Abbreviation NodeId := Z (only parsing).
Abbreviation LinkId := Z (only parsing).
Abbreviation FlowId := Z (only parsing).
Abbreviation PayloadId := Z (only parsing).

(** Allocates a packet identity from one node's monotone local sequence. *)
Definition from_node_sequence (source : NodeId) (node_count local_sequence : Z)
  : option PayloadId :=
  _ ← checked_add local_sequence 1;
  base ← checked_mul local_sequence node_count;
  checked_add base source.

Record EventKey := mkKey {
  time_ns : Z;
  phase : Z;
  origin_node : NodeId;
  origin_seq : Z;
}.

(** The derived [Ord]: lexicographic in declaration order. *)
Definition key_tuple (k : EventKey) : Z * (Z * (Z * Z)) :=
  (time_ns k, (phase k, (origin_node k, origin_seq k))).

Lemma key_tuple_inj a b : key_tuple a = key_tuple b -> a = b.
Proof. destruct a, b. by intros [= -> -> -> ->]. Qed.

#[export] Instance EventKey_ord : OrdKey EventKey := ord_by key_tuple key_tuple_inj.

Inductive EventKind :=
| PacketArrival
| TxReady
| TxComplete
| RemoteArrival
| RetransmissionTimeout
| PacingTimer.

#[export] Instance EventKind_eq_dec : EqDecision EventKind.
Proof. solve_decision. Defined.

Inductive EventFelClass := Channel | Service | Generator | FallbackHeap.

#[export] Instance EventFelClass_eq_dec : EqDecision EventFelClass.
Proof. solve_decision. Defined.

Definition event_fel_class (kind : EventKind) : EventFelClass :=
  match kind with
  | RemoteArrival => Channel
  | TxReady | TxComplete => Service
  | PacketArrival => Generator
  | RetransmissionTimeout | PacingTimer => FallbackHeap
  end.

Definition event_phase (kind : EventKind) : Z :=
  match kind with
  | PacketArrival | RemoteArrival => 0
  | TxComplete | RetransmissionTimeout | PacingTimer => 1
  | TxReady => 2
  end.

Record Event := mkEvent {
  key : EventKey;
  target : NodeId;
  kind : EventKind;
  payload : PayloadId;
}.

#[export] Instance EventKey_eq_dec : EqDecision EventKey.
Proof. solve_decision. Defined.
#[export] Instance Event_eq_dec : EqDecision Event.
Proof. solve_decision. Defined.

(** Whether a locally emitted child can execute directly after its parent. *)
Definition is_same_time_tx_ready_continuation
    (parent child : Event) (local_node : NodeId) (next_key : option EventKey) : bool :=
  bool_decide (kind parent = TxComplete)
  && (target child =? local_node)
  && bool_decide (kind child = TxReady)
  && (time_ns (key child) =? time_ns (key parent))
  && (phase (key child) =? event_phase TxReady)
  && match next_key with
     | None => true
     | Some next => kltb (key child) next
     end.

Inductive NodeKind := Host | Switch.

#[export] Instance NodeKind_eq_dec : EqDecision NodeKind.
Proof. solve_decision. Defined.

Inductive TransitionHandler :=
| HostPacketArrival
| HostTxReady
| HostTxComplete
| HostRemoteArrival
| SwitchTxReady
| SwitchTxComplete
| SwitchRemoteArrival
| HostRetransmissionTimeout
| HostPacingTimer.

(** Resolves a role/event pair to its transition handler. *)
Definition resolve_transition (node_kind : NodeKind) (event_kind : EventKind)
  : option TransitionHandler :=
  match node_kind, event_kind with
  | Host, PacketArrival => Some HostPacketArrival
  | Host, TxReady => Some HostTxReady
  | Host, TxComplete => Some HostTxComplete
  | Host, RemoteArrival => Some HostRemoteArrival
  | Host, RetransmissionTimeout => Some HostRetransmissionTimeout
  | Host, PacingTimer => Some HostPacingTimer
  | Switch, PacketArrival => None
  | Switch, TxReady => Some SwitchTxReady
  | Switch, TxComplete => Some SwitchTxComplete
  | Switch, RemoteArrival => Some SwitchRemoteArrival
  | Switch, RetransmissionTimeout => None
  | Switch, PacingTimer => None
  end.

(** ** Lemmas *)

Lemma klt_key (a b : EventKey) :
  klt a b <->
  time_ns a < time_ns b \/
  (time_ns a = time_ns b /\
   (phase a < phase b \/
    (phase a = phase b /\
     (origin_node a < origin_node b \/
      (origin_node a = origin_node b /\ origin_seq a < origin_seq b))))).
Proof.
  change (klt a b) with (klt (key_tuple a) (key_tuple b)).
  unfold key_tuple. rewrite !klt_pair; simpl. by rewrite !klt_Z.
Qed.

Lemma klt_key_time (a b : EventKey) : klt a b -> time_ns a <= time_ns b.
Proof. rewrite klt_key. lia. Qed.

Lemma kle_key_time (a b : EventKey) : kle a b -> time_ns a <= time_ns b.
Proof. rewrite kle_lt_eq. intros [?| ->]; [by apply klt_key_time|lia]. Qed.

Lemma key_time_lt (a b : EventKey) : time_ns a < time_ns b -> klt a b.
Proof. rewrite klt_key. lia. Qed.

Lemma from_node_sequence_Some source node_count seq p :
  from_node_sequence source node_count seq = Some p <->
  seq < u64_max /\ seq * node_count <= u64_max /\
  p = seq * node_count + source /\ p <= u64_max.
Proof.
  unfold from_node_sequence. destruct (checked_add seq 1) as [s|] eqn:E1; simpl.
  - apply checked_add_Some in E1 as [-> ?].
    destruct (checked_mul seq node_count) as [b|] eqn:E2; simpl.
    + apply checked_mul_Some in E2 as [-> ?]. rewrite checked_add_Some. lia.
    + unfold checked_mul in E2. case_match; [done|]. split; [done|lia].
  - apply checked_add_None in E1. split; [done|lia].
Qed.

(** The identity names the pair it was allocated from. *)
Lemma from_node_sequence_div source node_count seq p :
  0 <= source < node_count -> 0 <= seq ->
  from_node_sequence source node_count seq = Some p ->
  p / node_count = seq /\ p mod node_count = source.
Proof.
  intros Hs Hq (_ & _ & -> & _)%from_node_sequence_Some.
  split; symmetry.
  - apply (Z.div_unique _ _ _ source); lia.
  - apply (Z.mod_unique _ _ seq); lia.
Qed.
