(* ===== verification/LinkTime.v ===== *)
(** * Exact integer link time (executor/src/time.rs)

    Serialization and arrival times of constant-rate links in integer
    nanoseconds. Products are taken in [u128], where two [u64] factors and the
    constants cannot overflow, so they are exact here. *)

From S2P Require Import Prelude.

Definition BITS_PER_BYTE : Z := 8.
Definition NANOS_PER_SECOND : Z := 1000000000.

Inductive TimeError := ZeroRate | SerializationOverflow | ArrivalOverflow.

Definition serialization_time_ns (bytes rate_bps : Z) : result TimeError Z :=
  if rate_bps =? 0 then Err ZeroRate
  else
    let numerator := bytes * BITS_PER_BYTE * NANOS_PER_SECOND in
    let divisor := rate_bps in
    let quotient := numerator / divisor in
    let rounded := quotient + (if negb (numerator mod divisor =? 0) then 1 else 0) in
    ok_or (try_u64 rounded) SerializationOverflow.

Definition link_arrival_time_ns (start_time_ns bytes rate_bps propagation_ns : Z)
  : result TimeError Z :=
  serialization_ns ← serialization_time_ns bytes rate_bps;
  ok_or (time_ns ← checked_add start_time_ns serialization_ns;
         checked_add time_ns propagation_ns)
    ArrivalOverflow.

(** ** Lemmas *)

Lemma serialization_time_value bytes rate :
  0 < rate ->
  serialization_time_ns bytes rate =
    ok_or (try_u64 (div_ceil (bytes * 8 * 1000000000) rate)) SerializationOverflow.
Proof.
  intros Hr. unfold serialization_time_ns, div_ceil, BITS_PER_BYTE, NANOS_PER_SECOND.
  rewrite (proj2 (Z.eqb_neq rate 0)) by lia. do 2 f_equal.
  by destruct (_ mod rate =? 0).
Qed.

Lemma div_ceil_mono x y r : 0 < r -> x <= y -> div_ceil x r <= div_ceil y r.
Proof.
  intros Hr Hxy. pose proof (div_ceil_spec x r Hr). pose proof (div_ceil_spec y r Hr). nia.
Qed.

Lemma div_ceil_nonneg x r : 0 < r -> 0 <= x -> 0 <= div_ceil x r.
Proof. intros Hr Hx. pose proof (div_ceil_spec x r Hr). nia. Qed.

Lemma div_ceil_pos x r : 0 < r -> 0 < x -> 0 < div_ceil x r.
Proof. intros Hr Hx. pose proof (div_ceil_spec x r Hr). nia. Qed.

Lemma div_ceil_sub_add x y r : 0 < r -> div_ceil (x + y) r <= div_ceil x r + div_ceil y r.
Proof.
  intros Hr. pose proof (div_ceil_spec x r Hr). pose proof (div_ceil_spec y r Hr).
  pose proof (div_ceil_spec (x + y) r Hr). nia.
Qed.

Lemma link_arrival_Ok start bytes rate prop t :
  0 < rate -> 0 <= start -> 0 <= bytes -> 0 <= prop ->
  link_arrival_time_ns start bytes rate prop = Ok t <->
  t = start + div_ceil (bytes * 8 * 1000000000) rate + prop /\ t <= u64_max.
Proof.
  intros Hr Hs Hb Hp. unfold link_arrival_time_ns. rewrite serialization_time_value by done.
  pose proof (div_ceil_nonneg (bytes * 8 * 1000000000) rate Hr ltac:(lia)) as Hd.
  set (d := div_ceil _ _) in *.
  destruct (try_u64 d) eqn:E; simpl.
  - apply try_u64_Some in E as [-> ?]. rewrite ok_or_Ok.
    destruct (checked_add start d) eqn:E2; simpl.
    + apply checked_add_Some in E2 as [-> ?]. rewrite checked_add_Some. lia.
    + apply checked_add_None in E2. split; [done|lia].
  - apply try_u64_None in E. split; [done|lia].
Qed.

(** ** Properties *)

(** C32. [serialization_time_ns] is the exact rounded-up service interval: on a
    nonzero rate it returns the least number of nanoseconds [t] with
    [8 * bytes * 10^9 <= t * rate], fails with [SerializationOverflow] exactly
    when that number exceeds [u64], and fails with [ZeroRate] exactly on rate 0. *)
Theorem serialization_time_exact bytes rate :
  0 <= bytes -> 0 <= rate ->
  match serialization_time_ns bytes rate with
  | Ok t => 0 < rate /\ in_u64 t /\ bytes * 8 * 1000000000 <= t * rate /\
      (forall t', bytes * 8 * 1000000000 <= t' * rate -> t <= t')
  | Err ZeroRate => rate = 0
  | Err SerializationOverflow => 0 < rate /\
      (forall t', bytes * 8 * 1000000000 <= t' * rate -> u64_max < t')
  | Err ArrivalOverflow => False
  end.
Proof.
  intros Hb Hr. destruct (decide (rate = 0)) as [->|Hne]; [done|].
  rewrite serialization_time_value by lia.
  pose proof (div_ceil_spec (bytes * 8 * 1000000000) rate ltac:(lia)) as [H1 H2].
  pose proof (div_ceil_nonneg (bytes * 8 * 1000000000) rate ltac:(lia) ltac:(lia)).
  set (d := div_ceil _ _) in *.
  destruct (try_u64 d) eqn:E; simpl.
  - apply try_u64_Some in E as [-> ?]. split_and!; [lia|mlia|done|]. intros t' ?. nia.
  - apply try_u64_None in E. split; [lia|]. intros t' ?. nia.
Qed.

Lemma serialization_time_exact_witness :
  serialization_time_ns 1500 100000000000 = Ok 120 /\
  match serialization_time_ns 1500 100000000000 with
  | Ok t => 0 < 100000000000 /\ in_u64 t /\ 1500 * 8 * 1000000000 <= t * 100000000000 /\
      (forall t', 1500 * 8 * 1000000000 <= t' * 100000000000 -> t <= t')
  | Err ZeroRate => 100000000000 = 0
  | Err SerializationOverflow => 0 < 100000000000 /\
      (forall t', 1500 * 8 * 1000000000 <= t' * 100000000000 -> u64_max < t')
  | Err ArrivalOverflow => False
  end.
Proof.
  split; [reflexivity|].
  apply (serialization_time_exact 1500 100000000000); lia.
Defined.

(** C31. Arrival over a link is never earlier than the lookahead the channel
    declares: when the delay of a minimum-size packet from time 0 is [d]
    ([RemoteChannel::min_delay_ns]), any packet at least that large that starts
    at [start] arrives at or after [start + d]; larger packets arrive no earlier. *)
Theorem link_arrival_lookahead start min_bytes bytes rate prop d t :
  0 < rate -> 0 <= start -> 0 <= min_bytes <= bytes -> 0 <= prop ->
  link_arrival_time_ns 0 min_bytes rate prop = Ok d ->
  link_arrival_time_ns start bytes rate prop = Ok t ->
  start + d <= t /\ in_u64 t.
Proof.
  intros Hr Hs Hb Hp Hd Ht.
  apply link_arrival_Ok in Hd as [-> ?]; [|lia..].
  apply link_arrival_Ok in Ht as [-> ?]; [|lia..].
  pose proof (div_ceil_mono (min_bytes * 8 * 1000000000) (bytes * 8 * 1000000000) rate Hr ltac:(lia)).
  pose proof (div_ceil_nonneg (bytes * 8 * 1000000000) rate Hr ltac:(lia)).
  mlia.
Qed.

Lemma link_arrival_lookahead_witness :
  link_arrival_time_ns 0 64 8000000000 500 = Ok 564 /\
  link_arrival_time_ns 1000 1500 8000000000 500 = Ok 3000 /\
  (1000 + 564 <= 3000 /\ in_u64 3000).
Proof.
  split; [reflexivity|]. split; [reflexivity|].
  apply (link_arrival_lookahead 1000 64 1500 8000000000 500 564 3000);
    first [lia | reflexivity].
Defined.
