(* ===== verification/ExecError.v ===== *)
(** * Execution errors (executor/src/scalar.rs, [ExecutionError]) *)

From S2P Require Import Prelude Event LinkTime.

Inductive ExecutionError :=
| DuplicateEventKey (k : EventKey)
| UnknownNode (node : NodeId)
| InvalidStateSlot (node : NodeId) (kind : NodeKind) (state_slot : Z)
| UnsupportedTransition (node : NodeId) (kind : NodeKind) (event_kind : EventKind)
| UnknownLink (link : LinkId)
| LinkSourceMismatch (link : LinkId) (expected_source actual_source : NodeId)
| UnknownPacket (payload : PayloadId)
| DuplicatePayload (payload : PayloadId)
| UnknownFlow (flow : FlowId)
| UnknownGenerator (node : NodeId) (flow : FlowId)
| UnexpectedGeneratorEmission (node : NodeId) (flow : FlowId) (payload : PayloadId)
| MissingTcpSegment (flow : FlowId) (sequence : Z)
| InconsistentTcpSegment (flow : FlowId)
    (sequence original_size_bytes replacement_size_bytes : Z)
| PayloadSequenceOverflow (node : NodeId)
| GeneratorTimeOverflow (flow : FlowId)
| FlowRouteMiss (flow : FlowId) (node : NodeId)
| MissingSwitchQueue (node : NodeId) (egress_link : option LinkId)
| InvalidSchedulerState (node : NodeId)
| MissingWfqFinishTag (node : NodeId) (payload : PayloadId)
| NonMonotoneWfqTime (node : NodeId) (previous_ns current_ns : Z)
| HostAlreadyTransmitting (node : NodeId)
| SwitchAlreadyTransmitting (node : NodeId) (link : LinkId)
| UnexpectedTxComplete (node : NodeId) (expected : option PayloadId) (actual : PayloadId)
| CounterOverflow (node : NodeId)
| OriginSequenceOverflow (node : NodeId)
| NonPositiveLookahead
| RemoteEventBeforeHorizon (k : EventKey) (exclusive_horizon_ns : Z)
| EventBelowHorizonAfterDrain (k : EventKey) (exclusive_horizon_ns : Z)
| InvalidCpuConfig (reason : string)
| WorkerFailed (worker round : Z)
| WorkerPanicked (worker : Z)
| WorkerChannelDisconnected
| OutboxCapacityExceeded (node : NodeId) (capacity : Z)
| NonMonotoneChild (parent child : EventKey)
| SupersededTimerMissing (node : NodeId) (payload : PayloadId) (deadline_ns : Z)
| InconsistentRocePacket (flow : FlowId) (payload : PayloadId)
| Time (error : TimeError).
