(* ===== verification/Fel.v ===== *)
(** * The future-event list (executor/src/fel.rs)

    [FutureEvents] keeps every pending event but the retransmission timeouts in
    a [BinaryHeap] and the timeouts in an ordered map. The heap is a parameter:
    [BinaryHeap] states what the standard library promises of it, up to the
    order of equal keys and the internal layout, and every theorem holds for
    every heap that keeps the promise. The refinement theorem compares the list
    with the single ordered map it replaces: on a trace without duplicates they
    agree, and where the map refuses an insertion the list reports the duplicate
    at once or when its events are drained. *)

From S2P Require Import Prelude OrdMap Event ExecError.

(** The reversed order of the wrapper [Pending]: the heap's maximum is the
    minimum key. *)
Definition pending_cmp (a b : Event) : comparison := kcmp (key b) (key a).

(** ** The heap interface

    [std::collections::BinaryHeap<Pending>], a max-heap for [pending_cmp]. *)
Class BinaryHeap (H : Type) := {
  heap_empty : H;
  heap_push : Event -> H -> H;
  heap_peek : H -> option Event;
  heap_pop : H -> option (Event * H);
  heap_into_vec : H -> list Event;
}.

Class BinaryHeapLaws (H : Type) `{BinaryHeap H} := {
  heap_empty_vec : heap_into_vec heap_empty = [];
  heap_push_vec e h : heap_into_vec (heap_push e h) ≡ₚ e :: heap_into_vec h;
  heap_peek_max e h : heap_peek h = Some e ->
    e ∈ heap_into_vec h /\ forall e', e' ∈ heap_into_vec h -> pending_cmp e' e <> Gt;
  heap_peek_None h : heap_peek h = None -> heap_into_vec h = [];
  heap_pop_max e h h' : heap_pop h = Some (e, h') ->
    heap_into_vec h ≡ₚ e :: heap_into_vec h' /\
    forall e', e' ∈ heap_into_vec h -> pending_cmp e' e <> Gt;
  heap_pop_None h : heap_pop h = None -> heap_into_vec h = [];
}.

(** ** Superseded timers (executor/src/scalar.rs) *)

Record SupersededTimer := mkSuperseded {
  st_target : NodeId;
  st_payload : PayloadId;
  st_deadline_ns : Z;
}.

(** The inclusive bounds of the keys that can hold the timer's event. *)
Definition key_bounds (t : SupersededTimer) : EventKey * EventKey :=
  (mkKey (st_deadline_ns t) (event_phase RetransmissionTimeout) (st_target t) 0,
   mkKey (st_deadline_ns t) (event_phase RetransmissionTimeout) (st_target t) u64_max).

Definition timer_matches (t : SupersededTimer) (e : Event) : bool :=
  bool_decide (kind e = RetransmissionTimeout)
  && (target e =? st_target t) && (payload e =? st_payload t).

(** Removes the event of a superseded timer from an ordered event map. *)
Definition remove_superseded_timer (events : bmap EventKey Event) (t : SupersededTimer)
  : result ExecutionError (Event * bmap EventKey Event) :=
  let '(lower, upper) := key_bounds t in
  kv ← ok_or (List.find (fun kv => timer_matches t kv.2) (bm_range lower upper events))
         (SupersededTimerMissing (st_target t) (st_payload t) (st_deadline_ns t));
  e ← ok_or (bm_get kv.1 events)
         (SupersededTimerMissing (st_target t) (st_payload t) (st_deadline_ns t));
  Ok (e, bm_remove kv.1 events).

(** ** The list *)

Record FutureEvents (H : Type) := mkFel {
  heap : H;
  timers : bmap EventKey Event;
}.
Arguments mkFel {H} heap timers.
Arguments heap {H} f.
Arguments timers {H} f.

Fixpoint take_while {A} (p : A -> bool) (l : list A) : list A :=
  match l with
  | [] => []
  | x :: l => if p x then x :: take_while p l else []
  end.

(** The first adjacent pair of equal keys, [windows(2).find]. *)
Fixpoint adjacent_duplicate (l : list Event) : option EventKey :=
  match l with
  | e1 :: (e2 :: _) as l' =>
      if keqb (key e1) (key e2) then Some (key e2) else adjacent_duplicate l'
  | _ => None
  end.

Definition event_le (a b : Event) : Prop := kle (key a) (key b).
#[export] Instance event_le_dec a b : Decision (event_le a b).
Proof. unfold event_le. apply _. Defined.

Section fel.
Context {H : Type} `{HH : BinaryHeap H}.

Definition fel_new : FutureEvents H := mkFel heap_empty [].

Definition insert (q : FutureEvents H) (event : Event)
  : result ExecutionError (FutureEvents H) :=
  if bool_decide (kind event = RetransmissionTimeout) then
    match bm_get (key event) (timers q) with
    | Some _ => Err (DuplicateEventKey (key event))
    | None => Ok (mkFel (heap q) (bm_insert (key event) event (timers q)))
    end
  else Ok (mkFel (heap_push event (heap q)) (timers q)).

Definition peek_key (q : FutureEvents H) : option EventKey :=
  let queued := key <$> heap_peek (heap q) in
  match timers q with
  | [] => queued
  | _ =>
      let timer := fst <$> bm_first (timers q) in
      match queued, timer with
      | Some queued, Some timer => Some (kmin queued timer)
      | Some queued, None => Some queued
      | None, timer => timer
      end
  end.

Definition pop (q : FutureEvents H)
  : result ExecutionError (option Event * FutureEvents H) :=
  let from_timers :=
    match bm_first (timers q) with
    | Some (timer, _) =>
        match heap_peek (heap q) with
        | None => true
        | Some pending => kltb timer (key pending)
        end
    | None => false
    end in
  let '(event, q') :=
    if from_timers then
      let '(first, rest) := bm_pop_first (timers q) in
      (snd <$> first, mkFel (heap q) rest)
    else
      match heap_pop (heap q) with
      | Some (e, h) => (Some e, mkFel h (timers q))
      | None => (None, q)
      end in
  match event with
  | Some e =>
      if bool_decide (peek_key q' = Some (key e)) then Err (DuplicateEventKey (key e))
      else Ok (event, q')
  | None => Ok (event, q')
  end.

Definition fel_remove_superseded_timer (q : FutureEvents H) (t : SupersededTimer)
  : result ExecutionError (Event * FutureEvents H) :=
  r ← remove_superseded_timer (timers q) t;
  Ok (r.1, mkFel (heap q) r.2).

Definition count_below (q : FutureEvents H) (exclusive_horizon_ns : Z) : nat :=
  let below (k : EventKey) := time_ns k <? exclusive_horizon_ns in
  (length (List.filter (fun e => below (key e)) (heap_into_vec (heap q)))
   + length (take_while below (timers q).*1))%nat.

Definition into_sorted_vec (q : FutureEvents H) : result ExecutionError (list Event) :=
  let events := merge_sort event_le (heap_into_vec (heap q) ++ (timers q).*2) in
  match adjacent_duplicate events with
  | Some k => Err (DuplicateEventKey k)
  | None => Ok events
  end.
End fel.

(** ** Lemmas: superseded timers, prefixes, sorting *)

Lemma find_Some_split {A} (p : A -> bool) l x :
  List.find p l = Some x ->
  exists l1 l2, l = l1 ++ x :: l2 /\ p x = true /\ Forall (fun y => p y = false) l1.
Proof.
  induction l as [|y l IH]; simpl; [done|]. destruct (p y) eqn:E.
  - intros [= ->]. by exists [], l.
  - intros (l1 & l2 & -> & ? & ?)%IH. exists (y :: l1), l2. by repeat constructor.
Qed.

(** What the removal does: it takes out the least pending event that carries
    the timer's identity and leaves the rest. *)
Lemma remove_superseded_Ok events t e events' :
  wf events ->
  remove_superseded_timer events t = Ok (e, events') ->
  exists k, bm_get k events = Some e /\ events' = bm_remove k events /\
    timer_matches t e = true /\ kle (key_bounds t).1 k /\ kle k (key_bounds t).2.
Proof.
  intros Hwf. unfold remove_superseded_timer. destruct (key_bounds t) as [lo hi] eqn:Eb. simpl.
  destruct (List.find _ _) as [[k e0]|] eqn:Ef; simpl; [|done].
  apply find_Some_split in Ef as (l1 & l2 & Hl & Hm & _). simpl in Hm.
  assert (Hin : (k, e0) ∈ bm_range lo hi events) by (rewrite Hl; set_solver).
  unfold bm_range in Hin. apply list_elem_of_filter in Hin as [[? ?] Hin].
  pose proof Hin as Hg. apply (bm_get_elem_of _ _ _ Hwf) in Hg. rewrite Hg. simpl.
  intros [= <- <-]. eauto 6.
Qed.

Lemma take_while_length_filter {A} (p : A -> bool) (R : A -> A -> Prop) l :
  (forall x y, R x y -> p y = true -> p x = true) ->
  StronglySorted R l -> length (take_while p l) = length (List.filter p l).
Proof.
  intros Hp. induction l as [|x l IH]; simpl; [done|].
  intros [Hs HF]%StronglySorted_inv. destruct (p x) eqn:E; simpl; [by rewrite IH|].
  assert (Hn : List.filter p l = []).
  { clear IH Hs. induction HF as [|y l HR HF IH]; simpl; [done|].
    destruct (p y) eqn:Ey; [|done]. rewrite (Hp _ _ HR Ey) in E. done. }
  by rewrite Hn.
Qed.

#[export] Instance event_le_total : Total event_le.
Proof. intros a b. apply kle_total. Qed.
#[export] Instance event_le_trans : Transitive event_le.
Proof. intros a b c. unfold event_le. apply kle_trans. Qed.

Lemma filter_length_perm {A} (p : A -> bool) (l1 l2 : list A) :
  l1 ≡ₚ l2 -> length (List.filter p l1) = length (List.filter p l2).
Proof.
  induction 1; simpl; [done| | |congruence].
  - case_match; simpl; congruence.
  - by repeat case_match.
Qed.

Lemma sorted_no_adjacent l :
  StronglySorted event_le l -> adjacent_duplicate l = None ->
  StronglySorted klt (key <$> l).
Proof.
  induction l as [|e1 l IH]; intros Hs Hd; [constructor|].
  apply StronglySorted_inv in Hs as [Hs HF].
  destruct l as [|e2 l]; [repeat constructor|].
  simpl in Hd. destruct (keqb (key e1) (key e2)) eqn:E; [done|].
  specialize (IH Hs Hd). constructor; [exact IH|].
  assert (Hlt : klt (key e1) (key e2)).
  { inversion HF as [|? ? Hle ?]. subst. unfold event_le in Hle.
    apply kle_lt_eq in Hle as [?|Heq]; [done|].
    by rewrite (proj2 (keqb_spec _ _) Heq) in E. }
  simpl. constructor; [done|]. simpl in IH.
  apply StronglySorted_inv in IH as [_ HF2]. eapply Forall_impl; [exact HF2|].
  intros k ?. by eapply klt_trans.
Qed.

Lemma adjacent_NoDup l : NoDup (key <$> l) -> adjacent_duplicate l = None.
Proof.
  induction l as [|e1 [|e2 l] IH]; [done..|]. intros Hnd.
  cbn [adjacent_duplicate]. destruct (keqb (key e1) (key e2)) eqn:E.
  - apply keqb_spec in E. inversion Hnd as [|? ? Hn _]. subst. simpl in Hn.
    rewrite E in Hn. set_solver.
  - apply IH. by inversion Hnd.
Qed.

Lemma adjacent_dup_Some l k :
  adjacent_duplicate l = Some k ->
  exists e1 e2 l', k = key e2 /\ key e1 = key e2 /\ l ≡ₚ e1 :: e2 :: l'.
Proof.
  induction l as [|e1 [|e2 l] IH]; [done..|].
  cbn [adjacent_duplicate]. destruct (keqb (key e1) (key e2)) eqn:E.
  - apply keqb_spec in E. intros [= <-]. by exists e1, e2, l.
  - intros (x & y & l' & -> & ? & Hp)%IH. exists x, y, (e1 :: l'). split_and!; [done..|].
    rewrite Hp. apply (Permutation_middle [x; y] l' e1).
Qed.

Lemma klt_sorted_NoDup (l : list EventKey) : StronglySorted klt l -> NoDup l.
Proof.
  induction 1 as [|k l Hs IH HF]; constructor; [|done]. rewrite Forall_forall in HF.
  intros Hin. apply HF in Hin. by eapply klt_irrefl.
Qed.

Lemma NoDup_key_inj (l : list Event) e1 e2 :
  NoDup (key <$> l) -> e1 ∈ l -> e2 ∈ l -> key e1 = key e2 -> e1 = e2.
Proof.
  induction l as [|e l IH]; simpl; [set_solver|].
  intros [Hn Hnd]%NoDup_cons H1 H2 Heq. rewrite elem_of_cons in H1, H2.
  destruct H1 as [->|H1], H2 as [->|H2]; auto.
  - exfalso. apply Hn. rewrite Heq. by apply list_elem_of_fmap_2.
  - exfalso. apply Hn. rewrite <- Heq. by apply list_elem_of_fmap_2.
Qed.

Lemma find_filter_filter {A} (p : A -> bool) (P R : A -> Prop)
    `{!forall x, Decision (P x)} `{!forall x, Decision (R x)} l :
  (forall x, p x = true -> P x) ->
  List.find p (filter R (filter P l)) = List.find p (filter R l).
Proof.
  intros HP. induction l as [|x l IH]; [done|].
  rewrite !filter_cons. case_decide as Hx; [rewrite filter_cons|]; case_decide; simpl; auto.
  - by rewrite IH.
  - destruct (p x) eqn:E; [|done]. by apply HP in E.
Qed.

(** ** The refinement *)

(** The reference: one ordered map for every pending event. *)
Definition map_insert (m : bmap EventKey Event) (e : Event)
  : result ExecutionError (bmap EventKey Event) :=
  match bm_get (key e) m with
  | Some _ => Err (DuplicateEventKey (key e))
  | None => Ok (bm_insert (key e) e m)
  end.
Definition map_count_below (m : bmap EventKey Event) (horizon : Z) : nat :=
  length (List.filter (fun e => time_ns (key e) <? horizon) m.*2).

(** The operations a queue owner performs, and what it observes of them. *)
Inductive FelOp :=
| OpInsert (e : Event)
| OpPeek
| OpPop
| OpRemove (t : SupersededTimer)
| OpCount (horizon : Z).

Inductive FelOut :=
| OutUnit
| OutKey (k : option EventKey)
| OutEvent (e : option Event)
| OutCount (n : nat).

Definition map_step (op : FelOp) (m : bmap EventKey Event)
  : result ExecutionError (FelOut * bmap EventKey Event) :=
  match op with
  | OpInsert e => m' ← map_insert m e; Ok (OutUnit, m')
  | OpPeek => Ok (OutKey (fst <$> bm_first m), m)
  | OpPop => let '(first, rest) := bm_pop_first m in Ok (OutEvent (snd <$> first), rest)
  | OpRemove t => r ← remove_superseded_timer m t; Ok (OutEvent (Some r.1), r.2)
  | OpCount h => Ok (OutCount (map_count_below m h), m)
  end.

Definition map_run (ops : list FelOp) (m : bmap EventKey Event)
  : result ExecutionError (list FelOut * bmap EventKey Event) :=
  try_fold (fun acc op => r ← map_step op acc.2; Ok (acc.1 ++ [r.1], r.2)) ([], m) ops.

Definition map_drain (m : bmap EventKey Event) : list Event := m.*2.

Section refinement.
Context {H : Type} `{HH : BinaryHeap H} `{HL : !BinaryHeapLaws H}.
Implicit Types (q : FutureEvents H) (m : bmap EventKey Event).

Definition fel_step (op : FelOp) q : result ExecutionError (FelOut * FutureEvents H) :=
  match op with
  | OpInsert e => q' ← insert q e; Ok (OutUnit, q')
  | OpPeek => Ok (OutKey (peek_key q), q)
  | OpPop => r ← pop q; Ok (OutEvent r.1, r.2)
  | OpRemove t => r ← fel_remove_superseded_timer q t; Ok (OutEvent (Some r.1), r.2)
  | OpCount h => Ok (OutCount (count_below q h), q)
  end.

Definition fel_run (ops : list FelOp) q
  : result ExecutionError (list FelOut * FutureEvents H) :=
  try_fold (fun acc op => r ← fel_step op acc.2; Ok (acc.1 ++ [r.1], r.2)) ([], q) ops.

Definition fel_events q : list Event := heap_into_vec (heap q) ++ (timers q).*2.

(** The shape of the list: the timers are keyed retransmission timeouts, and
    no timeout is in the heap. *)
Record fel_ok q : Prop := {
  ok_wf : wf (timers q);
  ok_timers : forall k e, (k, e) ∈ timers q -> key e = k /\ kind e = RetransmissionTimeout;
  ok_heap : forall e, e ∈ heap_into_vec (heap q) -> kind e <> RetransmissionTimeout;
}.

Record fel_rel q m : Prop := {
  rel_ok : fel_ok q;
  rel_wf : wf m;
  rel_keyed : forall k e, (k, e) ∈ m -> key e = k;
  rel_perm : m.*2 ≡ₚ fel_events q;
}.

Lemma pending_le e e' : pending_cmp e' e <> Gt <-> kle (key e) (key e').
Proof. done. Qed.

Lemma fel_new_rel : fel_rel fel_new [].
Proof.
  split; [split|..]; simpl; try by constructor.
  - set_solver.
  - intros e. rewrite heap_empty_vec. set_solver.
  - set_solver.
  - unfold fel_events; simpl. by rewrite heap_empty_vec.
Qed.

Lemma timers_elem q e :
  fel_ok q -> e ∈ (timers q).*2 <-> (key e, e) ∈ timers q.
Proof.
  intros Hok. rewrite list_elem_of_fmap. split.
  - intros ([k e'] & -> & Hin). simpl. by destruct (ok_timers _ Hok _ _ Hin) as [-> _].
  - intros Hin. by exists (key e, e).
Qed.

(** The head of the timers is their minimum. *)
Lemma timers_first_min q k e l e' :
  fel_ok q -> timers q = (k, e) :: l -> e' ∈ (timers q).*2 -> kle k (key e').
Proof.
  intros Hok Heq Hin. apply (timers_elem _ _ Hok) in Hin.
  pose proof (ok_wf _ Hok) as Hwf. rewrite Heq in Hwf, Hin.
  exact (bm_first_min _ _ _ _ Hwf Hin).
Qed.

Lemma peek_key_spec q :
  fel_ok q ->
  match peek_key q with
  | None => fel_events q = []
  | Some k => (exists e, e ∈ fel_events q /\ key e = k) /\
      forall e, e ∈ fel_events q -> kle k (key e)
  end.
Proof.
  intros Hok. unfold peek_key, fel_events.
  destruct (timers q) as [|[kt et] l] eqn:Et; simpl.
  - rewrite app_nil_r. destruct (heap_peek (heap q)) as [e|] eqn:Ep; simpl.
    + apply heap_peek_max in Ep as [? ?]. eauto.
    + by apply heap_peek_None.
  - assert (Hmin : forall e', e' ∈ (timers q).*2 -> kle kt (key e')).
    { intros e'. by apply (timers_first_min q kt et l). }
    rewrite Et in Hmin. simpl in Hmin.
    assert (Hke : key et = kt) by (apply (ok_timers _ Hok kt et); rewrite Et; by left).
    destruct (heap_peek (heap q)) as [e|] eqn:Ep; simpl.
    + apply heap_peek_max in Ep as [Hin Hmax]. setoid_rewrite elem_of_app.
      destruct (kmin_spec (key e) kt) as [[-> Hle]|[-> Hlt]]; split.
      * eauto.
      * intros e' [?|?]; [by apply Hmax|]. etrans; [exact Hle|]. by apply Hmin.
      * exists et. split; [right; by left|done].
      * intros e' [He|?]; [|by apply Hmin]. apply Hmax in He.
        etrans; [by apply klt_le|exact He].
    + rewrite (heap_peek_None _ Ep). simpl. split; [|done].
      exists et. split; [by left|done].
Qed.

Lemma pop_timers_ok q x l : fel_ok q -> timers q = x :: l -> fel_ok (mkFel (heap q) l).
Proof.
  intros Hok Et. split; simpl.
  - pose proof (ok_wf _ Hok) as Hwf. rewrite Et in Hwf. destruct x. by apply wf_cons in Hwf as [_ ?].
  - intros k e Hin. apply (ok_timers _ Hok). rewrite Et. by right.
  - apply (ok_heap _ Hok).
Qed.

(** [pop] removes a minimum, then reports the key if it is still pending. *)
Lemma pop_cases q :
  fel_ok q ->
  (fel_events q = [] /\ pop q = Ok (None, q)) \/
  exists e q', fel_events q ≡ₚ e :: fel_events q' /\ fel_ok q' /\
    (forall e', e' ∈ fel_events q -> kle (key e) (key e')) /\
    pop q = if bool_decide (peek_key q' = Some (key e)) then Err (DuplicateEventKey (key e))
            else Ok (Some e, q').
Proof.
  intros Hok.
  assert (Hheap : forall e h, heap_pop (heap q) = Some (e, h) ->
    fel_events q ≡ₚ e :: fel_events (mkFel h (timers q)) /\ fel_ok (mkFel h (timers q))).
  { intros e h (Hp & _)%heap_pop_max. unfold fel_events; simpl. split.
    - rewrite Hp. done.
    - split; simpl; [apply Hok..|]. intros e' He'. apply (ok_heap _ Hok). rewrite Hp. by right. }
  unfold pop. destruct (timers q) as [|[kt et] l] eqn:Et; simpl.
  - destruct (heap_pop (heap q)) as [[e h]|] eqn:Ep.
    + right. exists e, (mkFel h []). destruct (Hheap _ _ eq_refl) as [? ?].
      split_and!; [done..| |done].
      apply heap_pop_max in Ep as [_ Hmax]. unfold fel_events. rewrite Et, app_nil_r. done.
    + left. apply heap_pop_None in Ep. unfold fel_events. by rewrite Ep, Et.
  - assert (Hmin : forall e', e' ∈ (timers q).*2 -> kle kt (key e')).
    { intros e'. by apply (timers_first_min q kt et l). }
    assert (Hke : key et = kt) by (apply (ok_timers _ Hok kt et); rewrite Et; by left).
    right. destruct (heap_peek (heap q)) as [ep|] eqn:Ep; simpl.
    + apply heap_peek_max in Ep as [Hin Hmax].
      destruct (kltb kt (key ep)) eqn:Elt.
      * apply kltb_spec in Elt. exists et, (mkFel (heap q) l). split_and!.
        -- unfold fel_events. rewrite Et. simpl. by rewrite Permutation_middle.
        -- by eapply pop_timers_ok.
        -- intros e'. unfold fel_events. rewrite elem_of_app, Hke. intros [He|?]; [|by apply Hmin].
           apply Hmax in He. etrans; [by apply klt_le|exact He].
        -- done.
      * apply kltb_false in Elt. destruct (heap_pop (heap q)) as [[e h]|] eqn:Eq; simpl.
        2:{ apply heap_pop_None in Eq. rewrite Eq in Hin. set_solver. }
        exists e, (mkFel h ((kt, et) :: l)). destruct (Hheap _ _ eq_refl) as [? ?].
        split_and!; [done..| |done].
        apply heap_pop_max in Eq as [Hp Hm]. intros e'. unfold fel_events.
        rewrite elem_of_app. intros [?|Ht]; [by apply Hm|].
        apply Hmin in Ht. assert (kle (key e) (key ep)) by (by apply Hm).
        etrans; [done|]. by etrans.
    + exists et, (mkFel (heap q) l). split_and!.
      * unfold fel_events. rewrite Et. simpl. by rewrite Permutation_middle.
      * by eapply pop_timers_ok.
      * intros e'. unfold fel_events. rewrite (heap_peek_None _ Ep), Hke. simpl. apply Hmin.
      * done.
Qed.

Lemma rel_elem q m k e : fel_rel q m -> (k, e) ∈ m <-> k = key e /\ e ∈ fel_events q.
Proof.
  intros Hr. rewrite <- (rel_perm _ _ Hr), list_elem_of_fmap. split.
  - intros Hin. split; [symmetry; by apply (rel_keyed _ _ Hr)|]. by exists (k, e).
  - intros [-> ([k' e'] & -> & Hin)]. simpl. by rewrite (rel_keyed _ _ Hr _ _ Hin).
Qed.

Lemma rel_keys q m : fel_rel q m -> m.*1 = key <$> m.*2.
Proof.
  intros Hr. rewrite <- list_fmap_compose. apply list_fmap_ext.
  intros i [k e] Hi. simpl. symmetry. apply (rel_keyed _ _ Hr).
  by eapply list_elem_of_lookup_2.
Qed.

Lemma rel_NoDup q m : fel_rel q m -> NoDup (key <$> fel_events q).
Proof.
  intros Hr. rewrite <- (rel_perm _ _ Hr), <- (rel_keys _ _ Hr). apply wf_NoDup, Hr.
Qed.

Lemma rel_get q m k : fel_rel q m -> bm_get k m = None <-> forall e, e ∈ fel_events q -> key e <> k.
Proof.
  intros Hr. rewrite bm_get_None, (rel_keys _ _ Hr), (rel_perm _ _ Hr), list_elem_of_fmap.
  naive_solver.
Qed.

Lemma rel_timers q m :
  fel_rel q m -> timers q = filter (fun kv => kind kv.2 = RetransmissionTimeout) m.
Proof.
  intros Hr. pose proof (rel_ok _ _ Hr) as Hok.
  apply bm_ext; [apply Hok|apply filter_wf, Hr|]. intros [k e].
  rewrite list_elem_of_filter, (rel_elem _ _ _ _ Hr). unfold fel_events.
  rewrite elem_of_app, (timers_elem _ _ Hok). simpl. split.
  - intros Hin. destruct (ok_timers _ Hok _ _ Hin) as [<- ?]. auto.
  - intros (Hk & -> & [Hh|?]); [|done]. by apply (ok_heap _ Hok) in Hh.
Qed.

Lemma insert_rel q m e m' :
  fel_rel q m -> map_insert m e = Ok m' ->
  exists q', insert q e = Ok q' /\ fel_rel q' m'.
Proof.
  intros Hr. unfold map_insert. destruct (bm_get (key e) m) eqn:Eg; [done|].
  intros [= <-]. pose proof (rel_ok _ _ Hr) as Hok.
  assert (Hm' : wf (bm_insert (key e) e m)) by (apply bm_insert_wf, Hr).
  assert (Hkeyed : forall k e0, (k, e0) ∈ bm_insert (key e) e m -> key e0 = k).
  { intros k e0 [[= -> ->]|?]%bm_insert_elem_of_1; [done|]. by apply (rel_keyed _ _ Hr). }
  assert (Hperm : (bm_insert (key e) e m).*2 ≡ₚ e :: fel_events q).
  { rewrite (bm_insert_perm _ _ _ (rel_wf _ _ Hr) Eg). simpl. by rewrite (rel_perm _ _ Hr). }
  unfold insert. case_bool_decide as Hk.
  - assert (Et : bm_get (key e) (timers q) = None).
    { apply bm_get_None. intros Hin. apply list_elem_of_fmap in Hin as ([k e'] & Hke & Hin).
      simpl in Hke. subst k. rewrite (rel_timers _ _ Hr) in Hin.
      apply list_elem_of_filter in Hin as [_ Hin].
      rewrite bm_get_None in Eg. apply Eg. apply list_elem_of_fmap. by exists (key e, e'). }
    rewrite Et. eexists. split; [done|]. split; [split; simpl|done..|].
    + apply bm_insert_wf, Hok.
    + intros k e0 [[= -> ->]|?]%bm_insert_elem_of_1; [done|]. by apply (ok_timers _ Hok).
    + apply Hok.
    + rewrite Hperm. unfold fel_events. simpl.
      rewrite (bm_insert_perm _ _ _ (ok_wf _ Hok) Et). simpl. by rewrite Permutation_middle.
  - eexists. split; [done|]. split; [split; simpl|done..|].
    + apply Hok.
    + apply Hok.
    + intros e0. rewrite heap_push_vec, elem_of_cons. intros [->|?]; [done|]. by apply (ok_heap _ Hok).
    + rewrite Hperm. unfold fel_events. simpl. by rewrite heap_push_vec.
Qed.

Lemma peek_rel q m : fel_rel q m -> peek_key q = fst <$> bm_first m.
Proof.
  intros Hr. pose proof (peek_key_spec q (rel_ok _ _ Hr)) as Hp.
  destruct (peek_key q) as [k|].
  - destruct Hp as [(e & He & <-) Hmin].
    destruct m as [|[k0 e0] m]; simpl.
    + pose proof (rel_perm _ _ Hr) as HP. simpl in HP. apply Permutation_nil_l in HP.
      rewrite <- HP in He. set_solver.
    + f_equal. apply kle_antisym.
      * assert (Hin : (k0, e0) ∈ (k0, e0) :: m) by by left.
        apply (rel_elem _ _ _ _ Hr) in Hin as [-> ?]. by apply Hmin.
      * apply (bm_first_min k0 e0 m (key e, e)); [apply Hr|].
        by apply (rel_elem _ _ _ _ Hr).
  - destruct m as [|[k0 e0] m]; [done|]. exfalso.
    pose proof (rel_perm _ _ Hr) as HP. rewrite Hp in HP. by apply Permutation_nil_r in HP.
Qed.

Lemma pop_rel q m :
  fel_rel q m ->
  exists q', pop q = Ok (snd <$> bm_first m, q') /\ fel_rel q' (tail m).
Proof.
  intros Hr. destruct (pop_cases q (rel_ok _ _ Hr)) as [[He ->]|(e & q' & HP & Hok' & Hmin & ->)].
  - pose proof (rel_perm _ _ Hr) as HP. rewrite He in HP. apply Permutation_nil_r in HP.
    apply fmap_nil_inv in HP as ->. by exists q.
  - destruct m as [|[k0 e0] m].
    { pose proof (rel_perm _ _ Hr) as HP'. simpl in HP'. rewrite HP in HP'.
      by apply Permutation_nil_l in HP'. }
    assert (Hin0 : k0 = key e0 /\ e0 ∈ fel_events q).
    { apply (rel_elem _ _ _ _ Hr). by left. }
    destruct Hin0 as [-> Hin0].
    assert (Hin : e ∈ fel_events q) by (rewrite HP; by left).
    assert (Heq : e = e0).
    { apply (NoDup_key_inj (fel_events q)); [by eapply rel_NoDup|done..|].
      apply kle_antisym; [by apply Hmin|].
      apply (bm_first_min (key e0) e0 m (key e, e)); [apply Hr|]. by apply (rel_elem _ _ _ _ Hr). }
    subst e0. simpl.
    assert (Hr' : fel_rel q' m).
    { split; [done|..].
      - pose proof (rel_wf _ _ Hr) as Hwf. by apply wf_cons in Hwf as [_ ?].
      - intros k e1 ?. apply (rel_keyed _ _ Hr). by right.
      - apply (Permutation_cons_inv (a := e)). rewrite <- HP, <- (rel_perm _ _ Hr). done. }
    exists q'. split; [|done]. rewrite bool_decide_false; [done|].
    intros Hpk. pose proof (peek_key_spec q' Hok') as Hs. rewrite Hpk in Hs.
    destruct Hs as [(e2 & He2 & Hk) _].
    pose proof (rel_NoDup _ _ Hr) as Hnd. rewrite HP in Hnd. simpl in Hnd.
    apply NoDup_cons in Hnd as [Hn _]. apply Hn. rewrite <- Hk. by apply list_elem_of_fmap_2.
Qed.

Lemma remove_rel q m t :
  fel_rel q m ->
  match remove_superseded_timer m t with
  | Ok (e, m') => exists q', fel_remove_superseded_timer q t = Ok (e, q') /\ fel_rel q' m'
  | Err err => fel_remove_superseded_timer q t = Err err
  end.
Proof.
  intros Hr. pose proof (rel_ok _ _ Hr) as Hok.
  assert (Hfind : forall lo hi,
    List.find (fun kv => timer_matches t kv.2) (bm_range lo hi (timers q)) =
    List.find (fun kv => timer_matches t kv.2) (bm_range lo hi m)).
  { intros lo hi. rewrite (rel_timers _ _ Hr). unfold bm_range.
    apply find_filter_filter.
    intros [k e]. unfold timer_matches. simpl. rewrite !andb_true_iff. intros [[?%bool_decide_eq_true _] _]. done. }
  destruct (remove_superseded_timer m t) as [[e m']|err] eqn:Em.
  - unfold fel_remove_superseded_timer.
    assert (Ht : remove_superseded_timer (timers q) t = Ok (e, bm_remove (key e) (timers q)) /\
      m' = bm_remove (key e) m /\ (key e, e) ∈ m /\ (key e, e) ∈ timers q).
    { unfold remove_superseded_timer in *. destruct (key_bounds t) as [lo hi].
      rewrite Hfind. destruct (List.find _ _) as [[k e0]|] eqn:Ef; simpl in *; [|done].
      apply find_Some_split in Ef as (l1 & l2 & Hl & Hm & _). simpl in Hm.
      assert (Hin : (k, e0) ∈ m).
      { assert (Hx : (k, e0) ∈ bm_range lo hi m) by (rewrite Hl; set_solver).
        by apply list_elem_of_filter in Hx as [_ ?]. }
      pose proof Hin as Hg. apply (bm_get_elem_of _ _ _ (rel_wf _ _ Hr)) in Hg. rewrite Hg in Em.
      simplify_eq/=. pose proof (rel_keyed _ _ Hr _ _ Hin) as ->.
      assert (Hint : (k, e) ∈ timers q).
      { rewrite (rel_timers _ _ Hr), list_elem_of_filter. split; [|done]. simpl.
        unfold timer_matches in Hm. rewrite !andb_true_iff in Hm.
        by destruct Hm as [[?%bool_decide_eq_true _] _]. }
      pose proof Hint as Hgt. apply (bm_get_elem_of _ _ _ (ok_wf _ Hok)) in Hgt. by rewrite Hgt. }
    destruct Ht as (-> & -> & Hin & Hint). simpl. eexists. split; [done|].
    split; [split; simpl|..].
    + apply bm_remove_wf, Hok.
    + intros k e0 ?%bm_remove_elem_of_1. by apply (ok_timers _ Hok).
    + apply Hok.
    + apply bm_remove_wf, Hr.
    + intros k e0 ?%bm_remove_elem_of_1. by apply (rel_keyed _ _ Hr).
    + apply (bm_get_elem_of _ _ _ (rel_wf _ _ Hr)), bm_remove_perm in Hin.
      apply (bm_get_elem_of _ _ _ (ok_wf _ Hok)), bm_remove_perm in Hint.
      apply (Permutation_cons_inv (a := e)).
      change (((key e, e) :: bm_remove (key e) m).*2 ≡ₚ e :: fel_events (mkFel (heap q) (bm_remove (key e) (timers q)))).
      rewrite <- Hin, (rel_perm _ _ Hr). unfold fel_events; simpl.
      rewrite Hint at 1. simpl. by rewrite Permutation_middle.
  - unfold fel_remove_superseded_timer, remove_superseded_timer in *.
    destruct (key_bounds t) as [lo hi]. rewrite Hfind.
    destruct (List.find _ _) as [[k e0]|] eqn:Ef; simpl in *; [|congruence].
    exfalso. apply find_Some_split in Ef as (l1 & l2 & Hl & _ & _).
    assert (Hx : (k, e0) ∈ bm_range lo hi m) by (rewrite Hl; set_solver).
    apply list_elem_of_filter in Hx as [_ Hx].
    apply (bm_get_elem_of _ _ _ (rel_wf _ _ Hr)) in Hx. by rewrite Hx in Em.
Qed.

Lemma count_rel q m h : fel_rel q m -> count_below q h = map_count_below m h.
Proof.
  intros Hr. unfold count_below, map_count_below.
  rewrite (filter_length_perm _ _ _ (rel_perm _ _ Hr)). unfold fel_events.
  rewrite List.filter_app, length_app. f_equal.
  rewrite (take_while_length_filter _ klt); [| |apply Hr].
  - pose proof (rel_ok _ _ Hr) as Hok.
    assert (Hk : (timers q).*1 = key <$> (timers q).*2).
    { rewrite <- list_fmap_compose. apply list_fmap_ext. intros i [k e] Hi. simpl. symmetry.
      apply (ok_timers _ Hok). by eapply list_elem_of_lookup_2. }
    rewrite Hk. generalize ((timers q).*2). intros l.
    induction l as [|e l IH]; csimpl; [done|]. case_match; csimpl; lia.
  - intros x y Hxy%klt_key_time. lia.
Qed.

(** Sorting the events of a map by key gives the map's order. *)
Lemma merge_sort_keyed m l :
  wf m -> (forall k e, (k, e) ∈ m -> key e = k) -> l ≡ₚ m.*2 -> merge_sort event_le l = m.*2.
Proof.
  intros Hwf Hkey Hp.
  assert (Hk : m.*1 = key <$> m.*2).
  { rewrite <- list_fmap_compose. apply list_fmap_ext. intros i [k e] Hi. simpl. symmetry.
    apply Hkey. by eapply list_elem_of_lookup_2. }
  apply (StronglySorted_unique_strong event_le).
  - intros e1 e2 H1 H2 Hle1 Hle2. apply (NoDup_key_inj m.*2); [| |done|by apply kle_antisym].
    + rewrite <- Hk. by apply wf_NoDup.
    + by rewrite merge_sort_Permutation, Hp in H1.
  - apply (StronglySorted_merge_sort event_le).
  - unfold wf in Hwf. rewrite Hk in Hwf. revert Hwf. clear. generalize (m.*2). intros l' Hl.
    induction l' as [|e l' IH]; [constructor|]. simpl in Hl.
    apply StronglySorted_inv in Hl as [Hl HF]. constructor; [by apply IH|].
    rewrite Forall_fmap in HF. eapply Forall_impl; [exact HF|]. intros ? ?. by apply klt_le.
  - by rewrite merge_sort_Permutation.
Qed.

Lemma drain_rel q m : fel_rel q m -> into_sorted_vec q = Ok (map_drain m).
Proof.
  intros Hr. unfold into_sorted_vec, map_drain.
  rewrite (merge_sort_keyed m); [|apply Hr|apply Hr|symmetry; apply Hr].
  rewrite adjacent_NoDup; [done|]. rewrite <- (rel_keys _ _ Hr). apply wf_NoDup, Hr.
Qed.

(** *** Duplicate keys *)

(** How many pending events hold a key. *)
Definition copies (k : EventKey) (l : list Event) : nat :=
  length (filter (fun e => key e = k) l).

Lemma copies_cons k e l : copies k (e :: l) = ((if decide (key e = k) then 1 else 0) + copies k l)%nat.
Proof. unfold copies. rewrite filter_cons. by case_decide. Qed.

#[export] Instance copies_proper k : Proper ((≡ₚ) ==> (=)) (copies k).
Proof. intros l l' Hl. unfold copies. by rewrite Hl. Qed.

Lemma copies_pos k e l : e ∈ l -> key e = k -> (0 < copies k l)%nat.
Proof.
  intros [l1 ->]%elem_of_Permutation Hk. rewrite copies_cons, decide_True by done. lia.
Qed.

Lemma copies_NoDup k l : NoDup (key <$> l) -> (copies k l <= 1)%nat.
Proof.
  induction l as [|e l IH]; [unfold copies; simpl; lia|].
  cbn [fmap list_fmap]. intros [Hn Hl%IH]%NoDup_cons. rewrite copies_cons. case_decide as Hk; [|lia].
  destruct (filter (fun e' => key e' = k) l) as [|x l'] eqn:E; [unfold copies; rewrite E; simpl; lia|].
  exfalso. apply Hn. assert (Hx : x ∈ filter (fun e' => key e' = k) l) by (rewrite E; by left).
  apply list_elem_of_filter in Hx as [Hkx Hx]. rewrite Hk, <- Hkx. by apply list_elem_of_fmap_2.
Qed.

Lemma insert_events q e q' : fel_ok q -> insert q e = Ok q' ->
  fel_ok q' /\ fel_events q' ≡ₚ e :: fel_events q.
Proof.
  intros Hok. unfold insert, fel_events. case_bool_decide as Hk.
  - destruct (bm_get (key e) (timers q)) eqn:Et; [done|]. intros [= <-]. split; [split|]; simpl.
    + apply bm_insert_wf, Hok.
    + intros k e0 [[= -> ->]|?]%bm_insert_elem_of_1; [done|]. by apply (ok_timers _ Hok).
    + apply Hok.
    + rewrite (bm_insert_perm _ _ _ (ok_wf _ Hok) Et). simpl. by rewrite Permutation_middle.
  - intros [= <-]. split; [split|]; simpl; [apply Hok..| |by rewrite heap_push_vec].
    intros e0. rewrite heap_push_vec, elem_of_cons. intros [->|?]; [done|]. by apply (ok_heap _ Hok).
Qed.

Lemma remove_events q t e q' : fel_ok q -> fel_remove_superseded_timer q t = Ok (e, q') ->
  fel_ok q' /\ fel_events q ≡ₚ e :: fel_events q'.
Proof.
  intros Hok. unfold fel_remove_superseded_timer. intros ([e0 m] & Hr & [= <- <-])%bind_Ok.
  destruct (remove_superseded_Ok _ _ _ _ (ok_wf _ Hok) Hr) as (k & Hg & -> & _).
  split; [split|]; simpl; [apply bm_remove_wf, Hok| |apply Hok|].
  - intros k0 e1 ?%bm_remove_elem_of_1. by apply (ok_timers _ Hok).
  - unfold fel_events. simpl. apply bm_remove_perm in Hg. rewrite Hg at 1. simpl.
    by rewrite Permutation_middle.
Qed.

(** A successful [pop] leaves only later keys. *)
Lemma pop_later q e q' : fel_ok q -> pop q = Ok (Some e, q') ->
  fel_ok q' /\ fel_events q ≡ₚ e :: fel_events q' /\
  forall e', e' ∈ fel_events q' -> klt (key e) (key e').
Proof.
  intros Hok. destruct (pop_cases q Hok) as [[_ ->]|(e0 & q0 & HP & Hok' & Hmin & ->)]; [done|].
  case_bool_decide as Hd; [done|]. intros [= -> ->]. split_and!; [done..|]. intros e' He'.
  assert (Hle : kle (key e) (key e')) by (apply Hmin; rewrite HP; by right).
  apply kle_lt_eq in Hle as [?|Heq]; [done|]. exfalso. apply Hd.
  pose proof (peek_key_spec q' Hok') as Hpk.
  destruct (peek_key q') as [k|]; [|by rewrite Hpk in He'; apply not_elem_of_nil in He'].
  destruct Hpk as [(e2 & He2 & <-) Hm]. f_equal. apply kle_antisym.
  - rewrite Heq. by apply Hm.
  - apply Hmin. rewrite HP. by right.
Qed.

Lemma pop_None q q' : fel_ok q -> pop q = Ok (None, q') -> fel_events q = [] /\ q' = q.
Proof.
  intros Hok. destruct (pop_cases q Hok) as [[? ->]|(e0 & q0 & _ & _ & _ & ->)];
    [by intros [= <-]|by case_bool_decide].
Qed.

(** The removals of superseded timers in a trace, with what they returned. *)
Definition removes (k : EventKey) (ops : list FelOp) (outs : list FelOut) : Prop :=
  exists t e, (OpRemove t, OutEvent (Some e)) ∈ zip ops outs /\ key e = k.

(** A key held twice stays held twice, unless a removal takes one of the two. *)
Lemma fel_step_dup op q o q' k :
  fel_ok q -> fel_step op q = Ok (o, q') ->
  fel_ok q' /\ ((2 <= copies k (fel_events q))%nat ->
    (2 <= copies k (fel_events q'))%nat \/ removes k [op] [o]).
Proof.
  intros Hok. destruct op as [e| | |t|h]; simpl.
  - intros (q1 & Hi & [= <- <-])%bind_Ok. destruct (insert_events _ _ _ Hok Hi) as [? Hp].
    split; [done|]. rewrite Hp, copies_cons. lia.
  - intros [= <- <-]. auto.
  - intros ([[e|] q1] & Hi & [= <- <-])%bind_Ok; simpl.
    + destruct (pop_later _ _ _ Hok Hi) as (? & Hp & Hlt). split; [done|].
      rewrite Hp, copies_cons. case_decide as Hk; [|auto].
      intros Hc. exfalso.
      destruct (filter (fun e' => key e' = k) (fel_events q1)) as [|x l] eqn:E;
        [unfold copies in Hc; rewrite E in Hc; simpl in Hc; lia|].
      assert (Hx : x ∈ filter (fun e' => key e' = k) (fel_events q1)) by (rewrite E; by left).
      apply list_elem_of_filter in Hx as [Hkx Hx%Hlt]. rewrite Hk, Hkx in Hx. by eapply klt_irrefl.
    + destruct (pop_None _ _ Hok Hi) as [He ->]. auto.
  - intros ([e q1] & Hi & [= <- <-])%bind_Ok. simpl.
    destruct (remove_events _ _ _ _ Hok Hi) as [? Hp]. split; [done|].
    rewrite Hp, copies_cons. case_decide as Hk; [|auto].
    intros _. right. exists t, e. split; [by left|done].
  - intros [= <- <-]. auto.
Qed.

(** What an operation can fail with. *)
Definition fel_failure (err : ExecutionError) : Prop :=
  match err with
  | DuplicateEventKey _ | SupersededTimerMissing _ _ _ => True
  | _ => False
  end.

Lemma fel_step_Err op q err : fel_ok q -> fel_step op q = Err err -> fel_failure err.
Proof.
  intros Hok. destruct op as [e| | |t|h]; simpl; [| |..|done]; [|done|..].
  - unfold insert. case_bool_decide; [|done]. case_match; by intros [= <-].
  - destruct (pop_cases q Hok) as [[_ ->]|(e0 & q0 & _ & _ & _ & ->)]; [done|].
    case_bool_decide; by intros [= <-].
  - unfold fel_remove_superseded_timer, remove_superseded_timer. destruct (key_bounds t).
    destruct (List.find _ _) as [[k1 e1]|]; simpl; [|by intros [= <-]].
    destruct (bm_get k1 _); simpl; [done|by intros [= <-]].
Qed.
End refinement.

(** ** A heap that keeps the promise: a list, searched for its minimum *)

Definition ListHeap := list Event.

#[export] Instance ListHeap_heap : BinaryHeap ListHeap := {|
  heap_empty := [];
  heap_push e h := e :: h;
  heap_peek h := head (merge_sort event_le h);
  heap_pop h :=
    match merge_sort event_le h with [] => None | e :: h' => Some (e, h') end;
  heap_into_vec h := h;
|}.

Lemma merge_sort_head_min e l h :
  merge_sort event_le h = e :: l ->
  h ≡ₚ e :: l /\ forall e', e' ∈ h -> pending_cmp e' e <> Gt.
Proof.
  intros E.
  assert (Hp : h ≡ₚ e :: l) by (by rewrite <- E, merge_sort_Permutation).
  split; [done|]. intros e'. rewrite Hp, elem_of_cons. intros [->|Hin]; [apply kle_refl|].
  pose proof (StronglySorted_merge_sort event_le h) as Hs. rewrite E in Hs.
  apply StronglySorted_inv in Hs as [_ HF]. rewrite Forall_forall in HF. by apply HF.
Qed.

#[export] Instance ListHeap_laws : BinaryHeapLaws ListHeap.
Proof.
  split; simpl.
  - done.
  - done.
  - intros e h. destruct (merge_sort event_le h) as [|e0 l] eqn:E; simpl; [done|].
    intros [= ->]. apply merge_sort_head_min in E as [Hp ?]. split; [|done]. rewrite Hp. by left.
  - intros h. destruct (merge_sort event_le h) as [|e0 l] eqn:E; simpl; [|done].
    intros _. apply Permutation_nil_r. by rewrite <- E, merge_sort_Permutation.
  - intros e h h'. destruct (merge_sort event_le h) as [|e0 l] eqn:E; [done|].
    intros [= <- <-]. by apply merge_sort_head_min.
  - intros h. destruct (merge_sort event_le h) as [|e0 l] eqn:E; [|done].
    intros _. apply Permutation_nil_r. by rewrite <- E, merge_sort_Permutation.
Qed.

(** ** Properties *)

Lemma fel_step_rel {H} `{HL : BinaryHeapLaws H} op (q : FutureEvents H) m :
  fel_rel q m ->
  match map_step op m with
  | Ok (o, m') => exists q', fel_step op q = Ok (o, q') /\ fel_rel q' m'
  | Err err => fel_step op q = Err err
      \/ exists e, op = OpInsert e /\ err = DuplicateEventKey (key e) /\ is_Some (bm_get (key e) m)
  end.
Proof.
  intros Hr. destruct op as [e| | |t|h]; simpl.
  - destruct (map_insert m e) as [m'|err] eqn:E; simpl.
    + destruct (insert_rel _ _ _ _ Hr E) as (q' & -> & ?). simpl. eauto.
    + right. exists e. unfold map_insert in E. by case_match; simplify_eq.
  - rewrite (peek_rel _ _ Hr). eauto.
  - destruct (pop_rel _ _ Hr) as (q' & -> & ?). simpl. eauto.
  - pose proof (remove_rel _ _ t Hr) as Hrem.
    destruct (remove_superseded_timer m t) as [[e m']|err]; simpl.
    + destruct Hrem as (q' & -> & ?). simpl. eauto.
    + rewrite Hrem. by left.
  - rewrite (count_rel _ _ _ Hr). eauto.
Qed.

Lemma fel_fold_ok {H} `{HL : BinaryHeapLaws H} k ops (q : FutureEvents H) outs :
  fel_ok q ->
  match try_fold (fun acc op => r ← fel_step op acc.2; Ok (acc.1 ++ [r.1], r.2)) (outs, q) ops with
  | Ok (outs', q') => fel_ok q' /\ exists os, outs' = outs ++ os /\ length os = length ops
      /\ ((2 <= copies k (fel_events q))%nat ->
           (2 <= copies k (fel_events q'))%nat \/ removes k ops os)
  | Err err => fel_failure err
  end.
Proof.
  revert q outs. induction ops as [|op ops IH]; intros q outs Hok; simpl.
  { split; [done|]. exists []. rewrite app_nil_r. auto. }
  destruct (fel_step op q) as [[o q1]|err] eqn:Hs; simpl; [|by eapply fel_step_Err].
  destruct (fel_step_dup op q o q1 k Hok Hs) as [Hok1 Hd]. specialize (IH q1 (outs ++ [o]) Hok1).
  destruct (try_fold _ _ ops) as [[outs' q']|]; [|done]. destruct IH as (Hok' & os & -> & Hl & Hd').
  split; [done|]. exists (o :: os). rewrite <- app_assoc. split_and!; [done|simpl; by f_equal|].
  intros [H2|(t & e & Ht & Hk)]%Hd.
  - destruct (Hd' H2) as [?|(t & e & Ht & Hk)]; [by left|right; exists t, e; by split; [right|]].
  - right. exists t, e. split; [|done]. apply list_elem_of_singleton in Ht. injection Ht as <- <-. by left.
Qed.

(** A key held twice is reported by the drain. *)
Lemma drain_reports {H} `{HL : BinaryHeapLaws H} (q : FutureEvents H) k :
  (2 <= copies k (fel_events q))%nat -> exists k', into_sorted_vec q = Err (DuplicateEventKey k').
Proof.
  intros Hc. unfold into_sorted_vec. fold (fel_events q). destruct (adjacent_duplicate _) eqn:E; [eauto|].
  exfalso. apply sorted_no_adjacent, klt_sorted_NoDup, (copies_NoDup k) in E;
    [|apply (StronglySorted_merge_sort event_le)].
  rewrite merge_sort_Permutation in E. lia.
Qed.

(** What becomes of the list when the map refuses the event [e]: two timeouts are
    refused at once; otherwise the list goes on, and cannot end without reporting a
    duplicate unless a removal takes one of the two events. *)
Definition refused_insert (H : Type) `{BinaryHeap H} (e : Event) (before after : list FelOp)
    (outs : list FelOut) : Prop :=
  match fel_run (H := H) (before ++ OpInsert e :: after) fel_new with
  | Err err => fel_failure err
  | Ok (outs', q) => exists os, outs' = outs ++ OutUnit :: os /\ length os = length after
      /\ (removes (key e) after os \/ exists k, into_sorted_vec q = Err (DuplicateEventKey k))
  end.

Lemma fel_fold_rel {H} `{HL : BinaryHeapLaws H} ops (q : FutureEvents H) m outs :
  fel_rel q m ->
  match try_fold (fun acc op => r ← map_step op acc.2; Ok (acc.1 ++ [r.1], r.2)) (outs, m) ops with
  | Ok (os, m') => exists q',
      try_fold (fun acc op => r ← fel_step op acc.2; Ok (acc.1 ++ [r.1], r.2)) (outs, q) ops
        = Ok (os, q') /\ fel_rel q' m'
  | Err e =>
      try_fold (fun acc op => r ← fel_step op acc.2; Ok (acc.1 ++ [r.1], r.2)) (outs, q) ops = Err e
      \/ exists before e0 after os m' q',
        ops = before ++ OpInsert e0 :: after /\ e = DuplicateEventKey (key e0)
        /\ try_fold (fun acc op => r ← map_step op acc.2; Ok (acc.1 ++ [r.1], r.2)) (outs, m) before
             = Ok (os, m')
        /\ try_fold (fun acc op => r ← fel_step op acc.2; Ok (acc.1 ++ [r.1], r.2)) (outs, q) before
             = Ok (os, q')
        /\ fel_rel q' m' /\ is_Some (bm_get (key e0) m')
  end.
Proof.
  revert q m outs. induction ops as [|op ops IH]; intros q m outs Hr; simpl; [eauto|].
  pose proof (fel_step_rel op q m Hr) as Hs.
  destruct (map_step op m) as [[o m']|err] eqn:Hm; simpl.
  - destruct Hs as (q' & Hq & Hr'). rewrite Hq. simpl. specialize (IH q' m' (outs ++ [o]) Hr').
    destruct (try_fold _ (outs ++ [o], m') ops) as [[os m2]|err]; [done|].
    destruct IH as [IH|(before & e0 & after & os & m2 & q2 & -> & -> & H1 & H2 & H3)]; [by left|].
    right. exists (op :: before), e0, after, os, m2, q2. simpl. rewrite Hm, Hq. simpl. auto.
  - destruct Hs as [Hs|(e0 & -> & -> & Hg)]; [left; by rewrite Hs|].
    right. exists [], e0, ops, outs, m, q. auto 10.
Qed.
Lemma refused_cases {H} `{HL : BinaryHeapLaws H} (q : FutureEvents H) m e before after outs :
  fel_rel q m -> is_Some (bm_get (key e) m) -> fel_run before fel_new = Ok (outs, q) ->
  fel_run (before ++ OpInsert e :: after) (fel_new (H := H)) = Err (DuplicateEventKey (key e))
  \/ (kind e <> RetransmissionTimeout
       \/ exists e', bm_get (key e) m = Some e' /\ kind e' <> RetransmissionTimeout)
     /\ refused_insert H e before after outs.
Proof.
  intros Hr [e' He'] Hq. unfold refused_insert, fel_run in *. rewrite try_fold_app, Hq. simpl.
  pose proof (proj1 (bm_get_elem_of _ _ _ (rel_wf _ _ Hr)) He') as Hin.
  pose proof Hin as [Hk Hev]%(rel_elem _ _ _ _ Hr).
  destruct (insert q e) as [q1|err] eqn:Hi; simpl.
  - right. split.
    { destruct (decide (kind e = RetransmissionTimeout)) as [Ht|]; [right|by left].
      exists e'. split; [done|]. intros Ht'. unfold insert in Hi. rewrite bool_decide_true in Hi by done.
      assert (Hget : bm_get (key e) (timers q) = Some e'); [|by rewrite Hget in Hi].
      apply (bm_get_elem_of _ _ _ (ok_wf _ (rel_ok _ _ Hr))).
      rewrite (rel_timers _ _ Hr). apply list_elem_of_filter. done. }
    destruct (insert_events _ _ _ (rel_ok _ _ Hr) Hi) as [Hok1 Hp].
    pose proof (fel_fold_ok (key e) after q1 (outs ++ [OutUnit]) Hok1) as Hf.
    destruct (try_fold _ _ after) as [[outs' q']|]; [|done]. destruct Hf as (_ & os & -> & Hl & Hd).
    exists os. rewrite <- app_assoc. split_and!; [done..|].
    destruct Hd as [?|?]; [|right; by eapply drain_reports|by left].
    rewrite Hp, copies_cons, decide_True by done. apply (copies_pos (key e)) in Hev; [lia|done].
  - left. unfold insert in Hi. case_bool_decide; [|done]. case_match; by simplify_eq.
Qed.

(** C7. The heap-and-map list refines the ordered map it replaces, whatever the
    heap's layout, on every sequence of inserts, peeks, pops, superseded-timer
    removals and counts from the empty queue. While no pending key is inserted
    twice, it makes the same observations as the single ordered map, fails on the
    same missing timer, and drains to the same events in the same order. When the
    map refuses an event whose key is pending, the list has made the same
    observations up to there. It refuses a second retransmission timeout at once;
    any other duplicate it accepts, and it then cannot end the sequence and drain
    without an error, unless a superseded-timer removal took one of the two events. *)
Theorem fel_refines_ordered_map {H} `{HL : BinaryHeapLaws H} ops :
  match map_run ops [] with
  | Ok (outs, m) => exists q : FutureEvents H,
      fel_run ops fel_new = Ok (outs, q) /\ into_sorted_vec q = Ok (map_drain m)
  | Err err => fel_run ops (fel_new (H := H)) = Err err
      \/ exists before e after outs m (q : FutureEvents H),
        ops = before ++ OpInsert e :: after /\ err = DuplicateEventKey (key e)
        /\ map_run before [] = Ok (outs, m) /\ fel_run before fel_new = Ok (outs, q)
        /\ (kind e <> RetransmissionTimeout
             \/ exists e', bm_get (key e) m = Some e' /\ kind e' <> RetransmissionTimeout)
        /\ refused_insert H e before after outs
  end.
Proof.
  pose proof (fel_fold_rel ops (fel_new (H := H)) [] [] fel_new_rel) as Hf.
  unfold map_run, fel_run. destruct (try_fold _ ([], []) ops) as [[outs m]|err].
  { destruct Hf as (q & -> & Hr). exists q. split; [done|]. by apply drain_rel. }
  destruct Hf as [?|(before & e & after & outs & m & q & -> & -> & Hm & Hq & Hr & Hg)]; [by left|].
  destruct (refused_cases q m e before after outs Hr Hg Hq) as [?|[? ?]]; [by left|].
  right. by exists before, e, after, outs, m, q.
Qed.

Definition fel_example_event (t seq : Z) (k : EventKind) : Event :=
  mkEvent (mkKey t (event_phase k) 3 seq) 3 k seq.

Definition fel_example_ops : list FelOp :=
  [OpInsert (fel_example_event 20 2 TxReady);
   OpInsert (fel_example_event 7 3 RetransmissionTimeout);
   OpInsert (fel_example_event 9 4 RetransmissionTimeout);
   OpInsert (fel_example_event 5 5 RemoteArrival);
   OpPeek; OpCount 10; OpRemove (mkSuperseded 3 3 7); OpPop; OpPop].

Lemma fel_refines_ordered_map_witness :
  (exists q : FutureEvents ListHeap,
    fel_run fel_example_ops fel_new =
      Ok ([OutUnit; OutUnit; OutUnit; OutUnit;
           OutKey (Some (mkKey 5 0 3 5)); OutCount 3;
           OutEvent (Some (fel_example_event 7 3 RetransmissionTimeout));
           OutEvent (Some (fel_example_event 5 5 RemoteArrival));
           OutEvent (Some (fel_example_event 9 4 RetransmissionTimeout))], q) /\
    into_sorted_vec q = Ok [fel_example_event 20 2 TxReady]).
Proof. exact (fel_refines_ordered_map (H := ListHeap) fel_example_ops). Defined.

(** C19. A duplicate key is never lost. [pop] fails with [DuplicateEventKey]
    exactly when two pending events share the minimum key, and otherwise returns
    a pending event with the minimum key and leaves the others. *)
Theorem pop_reports_duplicate {H} `{HL : BinaryHeapLaws H} (q : FutureEvents H) :
  fel_ok q ->
  match pop q with
  | Ok (None, q') => fel_events q = [] /\ q' = q
  | Ok (Some e, q') => fel_ok q' /\ fel_events q ≡ₚ e :: fel_events q' /\
      forall e', e' ∈ fel_events q' -> klt (key e) (key e')
  | Err err => exists e1 e2 l, err = DuplicateEventKey (key e1) /\ key e1 = key e2 /\
      fel_events q ≡ₚ e1 :: e2 :: l /\ forall e', e' ∈ l -> kle (key e1) (key e')
  end.
Proof.
  intros Hok. destruct (pop q) as [[[e|] q']|err] eqn:Hpop; [by apply pop_later|by apply pop_None|].
  destruct (pop_cases q Hok) as [[_ Hc]|(e & q' & HP & Hok' & Hmin & Hc)]; [congruence|].
  rewrite Hpop in Hc. case_bool_decide as Hd; [|done]. injection Hc as ->.
  pose proof (peek_key_spec q' Hok') as Hpk. rewrite Hd in Hpk. destruct Hpk as [(e2 & He2 & Hk) _].
  apply elem_of_Permutation in He2 as (l & Hl). exists e, e2, l. split_and!; [done|done|by rewrite HP, Hl|].
  intros e' He'. apply Hmin. rewrite HP, Hl. by do 2 right.
Qed.

Lemma pop_reports_duplicate_witness :
  let q : FutureEvents ListHeap :=
    mkFel [fel_example_event 10 1 PacingTimer]
      [(mkKey 10 1 3 1, fel_example_event 10 1 RetransmissionTimeout)] in
  pop q = Err (DuplicateEventKey (mkKey 10 1 3 1)) /\
  exists e1 e2 l, DuplicateEventKey (mkKey 10 1 3 1) = DuplicateEventKey (key e1) /\
    key e1 = key e2 /\
    fel_events q ≡ₚ e1 :: e2 :: l /\ forall e', e' ∈ l -> kle (key e1) (key e').
Proof.
  intros q. assert (E : pop q = Err (DuplicateEventKey (mkKey 10 1 3 1))) by reflexivity.
  split; [exact E|]. pose proof (pop_reports_duplicate q) as Hp. rewrite E in Hp.
  apply Hp. split; simpl.
  - repeat constructor.
  - intros k e Hin. apply list_elem_of_singleton in Hin. by simplify_eq.
  - intros e ->%list_elem_of_singleton. done.
Defined.

(** The drain returns exactly the pending events, in strictly ascending key
    order, and fails exactly when two of them share a key, naming that key. *)
Theorem drain_sorted_or_duplicate {H} `{HH : BinaryHeap H} (q : FutureEvents H) :
  match into_sorted_vec q with
  | Ok l => l ≡ₚ fel_events q /\ StronglySorted klt (key <$> l)
  | Err err => exists e1 e2 l, err = DuplicateEventKey (key e2) /\ key e1 = key e2 /\
      fel_events q ≡ₚ e1 :: e2 :: l
  end.
Proof.
  unfold into_sorted_vec. fold (fel_events q).
  pose proof (StronglySorted_merge_sort event_le (fel_events q)) as Hs.
  pose proof (merge_sort_Permutation event_le (fel_events q)) as Hp.
  destruct (adjacent_duplicate _) as [k|] eqn:E.
  - apply adjacent_dup_Some in E as (e1 & e2 & l & -> & ? & ?).
    exists e1, e2, l. split_and!; [done..|]. by rewrite <- Hp.
  - split; [done|]. by apply sorted_no_adjacent.
Qed.
