(* ===== verification/EcnRamp.v ===== *)
(** * The ECN ramp and its draw (executor/src/splitmix.rs, executor/src/ecn_ramp.rs)

    SplitMix64's output function, the stateless per-arrival draw, the marking
    decision over the instantaneous byte depth, and the policy check. *)

From S2P Require Import Prelude.

(** ** SplitMix64 *)

Definition mix (value : Z) : Z :=
  let value := wadd value 0x9e3779b97f4a7c15 in
  let value := wmul (Z.lxor value (Z.shiftr value 30)) 0xbf58476d1ce4e5b9 in
  let value := wmul (Z.lxor value (Z.shiftr value 27)) 0x94d049bb133111eb in
  Z.lxor value (Z.shiftr value 31).

(** ** The ramp *)

Record EcnRampPolicy := mkEcnRamp {
  capacity_bytes : Z;
  kmin_bytes : Z;
  kmax_bytes : Z;
  pmax_numerator : Z;
  pmax_denominator : Z;
}.

Definition ECN_RAMP_DOMAIN : Z := 0x45434e5f52414d50.

Inductive EcnRampAction := Enqueue | Mark | Drop.

Definition ecn_queue_key (seed node queue : Z) : Z :=
  mix (Z.lxor (mix (Z.lxor (mix (Z.lxor seed ECN_RAMP_DOMAIN)) node)) queue).

Definition ecn_draw (key payload : Z) : Z := mix (Z.lxor key payload).

Definition ecn_ramp_span (policy : EcnRampPolicy) : option Z :=
  checked_mul (pmax_denominator policy)
    (saturating_sub (kmax_bytes policy) (kmin_bytes policy)).

(** The decision; [draw] is called only inside the ramp. *)
Definition ecn_ramp_decision (policy : EcnRampPolicy) (queued_bytes size_bytes : Z)
    (ecn_capable : bool) (draw : unit -> Z) : EcnRampAction :=
  match checked_add queued_bytes size_bytes with
  | None => Drop
  | Some depth =>
      if capacity_bytes policy <? depth then Drop
      else if negb ecn_capable || (depth <? kmin_bytes policy) then Enqueue
      else if kmax_bytes policy <=? depth then Mark
      else
        let span := pmax_denominator policy * (kmax_bytes policy -w kmin_bytes policy) in
        let bound := pmax_numerator policy * (depth -w kmin_bytes policy) in
        if Z.shiftr ((draw () * span) mod u128_modulus) 64 <? bound then Mark else Enqueue
  end.

(** Euclid's loop. *)
Definition gcd_step (s : Z * Z) : (Z * Z) + Z :=
  let '(l, r) := s in
  if r =? 0 then inr l else inl (r, l mod r).

Definition gcd (l r : Z) : Z := loop_result 0 (wloop gcd_step 64 (l, r)).

Definition ecn_ramp_policy_check (policy : EcnRampPolicy) : result string unit :=
  if capacity_bytes policy =? 0 then Err "needs a positive byte capacity"%string
  else if (kmin_bytes policy =? 0)
       || (kmax_bytes policy <? kmin_bytes policy)
       || (capacity_bytes policy <? kmax_bytes policy)
  then Err "needs 1 <= kmin <= kmax <= capacity bytes"%string
  else
    let numerator := pmax_numerator policy in
    let denominator := pmax_denominator policy in
    if (numerator =? 0) || (denominator <? numerator)
    then Err "needs 0 < pmax <= 1"%string
    else if negb (gcd numerator denominator =? 1)
    then Err "needs pmax in lowest terms"%string
    else if (kmin_bytes policy =? kmax_bytes policy) && negb (numerator =? denominator)
    then Err "step (kmin == kmax) needs pmax = 1"%string
    else match ecn_ramp_span policy with
         | None => Err "span pmax_denominator * (kmax - kmin) exceeds u64"%string
         | Some _ => Ok tt
         end.

(** ** Lemmas: xor-shifts and odd multiplications are invertible *)

Lemma lxor_range n a b :
  0 <= n -> 0 <= a < 2 ^ n -> 0 <= b < 2 ^ n -> 0 <= Z.lxor a b < 2 ^ n.
Proof.
  intros Hn Ha Hb.
  assert (H0 : 0 <= Z.lxor a b) by (apply Z.lxor_nonneg; lia).
  split; [done|]. destruct (Z.eq_dec (Z.lxor a b) 0) as [->|Hne]; [lia|].
  apply Z.log2_lt_pow2; [lia|].
  pose proof (Z.log2_lxor a b ltac:(lia) ltac:(lia)).
  assert (H1 : forall x, 0 <= x < 2 ^ n -> x <> 0 -> Z.log2 x < n)
    by (intros; apply Z.log2_lt_pow2; lia).
  destruct (Z.eq_dec a 0) as [->|?]; [rewrite Z.lxor_0_l in *; by apply H1|].
  destruct (Z.eq_dec b 0) as [->|?]; [rewrite Z.lxor_0_r in *; by apply H1|].
  pose proof (H1 a Ha ltac:(done)). pose proof (H1 b Hb ltac:(done)). lia.
Qed.

Lemma shiftr_range n x s : 0 <= s -> 0 <= x < 2 ^ n -> 0 <= Z.shiftr x s < 2 ^ n.
Proof.
  intros Hs Hx. rewrite Z.shiftr_div_pow2 by done. split.
  - apply Z.div_pos; [lia|]. by apply Z.pow_pos_nonneg.
  - apply Z.le_lt_trans with x; [|lia]. apply Z.div_le_upper_bound.
    + by apply Z.pow_pos_nonneg.
    + assert (0 < 2 ^ s) by (by apply Z.pow_pos_nonneg). nia.
Qed.

(** [x ^ (x >> s)] and its inverse, for a shift of at least a third of the width. *)
Definition xorshift (s x : Z) : Z := Z.lxor x (Z.shiftr x s).
Definition unxorshift (s y : Z) : Z := Z.lxor y (Z.lxor (Z.shiftr y s) (Z.shiftr y (2 * s))).

Lemma xorshift_range s x : 0 <= s -> in_u64 x -> in_u64 (xorshift s x).
Proof.
  intros Hs Hx. unfold in_u64 in *. unfold xorshift.
  pose proof (lxor_range 64 x (Z.shiftr x s) ltac:(lia) ltac:(lia)) as H.
  pose proof (shiftr_range 64 x s Hs ltac:(lia)). lia.
Qed.

Lemma unxorshift_range s x : 0 <= s -> in_u64 x -> in_u64 (unxorshift s x).
Proof.
  intros Hs Hx. unfold in_u64 in *. unfold unxorshift.
  pose proof (shiftr_range 64 x s Hs ltac:(lia)).
  pose proof (shiftr_range 64 x (2 * s) ltac:(lia) ltac:(lia)).
  pose proof (lxor_range 64 (Z.shiftr x s) (Z.shiftr x (2 * s)) ltac:(lia) ltac:(lia) ltac:(lia)).
  pose proof (lxor_range 64 x (Z.lxor (Z.shiftr x s) (Z.shiftr x (2 * s)))
    ltac:(lia) ltac:(lia) ltac:(lia)). lia.
Qed.

Lemma shiftr_out x s : 64 <= s -> in_u64 x -> Z.shiftr x s = 0.
Proof.
  intros Hs Hx. rewrite Z.shiftr_div_pow2 by lia. apply Z.div_small.
  unfold in_u64 in Hx. pose proof (Z.pow_le_mono_r 2 64 s ltac:(lia) Hs). lia.
Qed.

(** Both compositions telescope to the third shift, which is zero. *)
Lemma lxor_telescope a b c d :
  Z.lxor (Z.lxor a b) (Z.lxor (Z.lxor b c) (Z.lxor c d)) = Z.lxor a d.
Proof.
  rewrite (Z.lxor_assoc b c), <- (Z.lxor_assoc c c), Z.lxor_nilpotent, Z.lxor_0_l.
  by rewrite Z.lxor_assoc, <- (Z.lxor_assoc b b), Z.lxor_nilpotent, Z.lxor_0_l.
Qed.

Lemma lxor_telescope' a b c d :
  Z.lxor (Z.lxor a (Z.lxor b c)) (Z.lxor b (Z.lxor c d)) = Z.lxor a d.
Proof.
  rewrite <- (Z.lxor_assoc b c d), Z.lxor_assoc, <- (Z.lxor_assoc (Z.lxor b c)).
  by rewrite Z.lxor_nilpotent, Z.lxor_0_l.
Qed.

Lemma unxorshift_xorshift s x :
  22 <= s -> in_u64 x -> unxorshift s (xorshift s x) = x.
Proof.
  intros Hs Hx. unfold unxorshift, xorshift.
  rewrite !Z.shiftr_lxor, !Z.shiftr_shiftr by lia.
  replace (s + s) with (2 * s) by lia. rewrite lxor_telescope.
  rewrite (shiftr_out x (s + 2 * s)) by (done || lia). apply Z.lxor_0_r.
Qed.

Lemma xorshift_unxorshift s y :
  22 <= s -> in_u64 y -> xorshift s (unxorshift s y) = y.
Proof.
  intros Hs Hy. unfold unxorshift, xorshift.
  rewrite !Z.shiftr_lxor, !Z.shiftr_shiftr by lia.
  replace (s + s) with (2 * s) by lia. rewrite lxor_telescope'.
  rewrite (shiftr_out y (2 * s + s)) by (done || lia). apply Z.lxor_0_r.
Qed.

(** Multiplication by a unit of [Z / 2^64] is invertible. *)
Lemma wmul_inv c c' x : wmul c c' = 1 -> in_u64 x -> wmul (wmul x c) c' = x.
Proof.
  unfold wmul. intros Hc Hx. rewrite Z.mul_mod_idemp_l by lia.
  rewrite <- Z.mul_assoc, <- Z.mul_mod_idemp_r, Hc, Z.mul_1_r by lia.
  apply Z.mod_small. mlia.
Qed.

(** The inverse of [mix]. *)
Definition unmix (value : Z) : Z :=
  let value := unxorshift 31 value in
  let value := unxorshift 27 (wmul value 0x319642b2d24d8ec3) in
  let value := unxorshift 30 (wmul value 0x96de1b173f119089) in
  wsub value 0x9e3779b97f4a7c15.

Lemma mix_range v : in_u64 (mix v).
Proof. apply (xorshift_range 31); [lia|]. apply wmul_range. Qed.

Lemma wadd_wsub v c : in_u64 v -> wsub (wadd v c) c = v.
Proof.
  intros Hv. unfold wsub, wadd. rewrite Zminus_mod_idemp_l.
  replace (v + c - c) with v by lia. apply Z.mod_small. mlia.
Qed.

Lemma wsub_wadd v c : in_u64 v -> wadd (wsub v c) c = v.
Proof.
  intros Hv. unfold wsub, wadd. rewrite Zplus_mod_idemp_l.
  replace (v - c + c) with v by lia. apply Z.mod_small. mlia.
Qed.

Lemma unmix_mix v : in_u64 v -> unmix (mix v) = v.
Proof.
  intros Hv. unfold unmix, mix. cbv zeta.
  fold (xorshift 30 (wadd v 0x9e3779b97f4a7c15)).
  set (a := wmul (xorshift 30 _) _). fold (xorshift 27 a).
  set (b := wmul (xorshift 27 a) _). fold (xorshift 31 b).
  rewrite (unxorshift_xorshift 31) by (apply wmul_range || lia). subst b.
  rewrite wmul_inv, (unxorshift_xorshift 27);
    try first [apply wmul_range | lia | reflexivity].
  2: apply xorshift_range; [lia|apply wmul_range].
  subst a. rewrite wmul_inv, (unxorshift_xorshift 30);
    try first [apply wadd_range | lia | reflexivity].
  2: apply xorshift_range; [lia|apply wadd_range].
  by apply wadd_wsub.
Qed.

Lemma mix_unmix v : in_u64 v -> mix (unmix v) = v.
Proof.
  intros Hv. unfold unmix, mix. cbv zeta.
  set (a := unxorshift 31 v). assert (Ha : in_u64 a) by (apply unxorshift_range; [lia|done]).
  set (b := unxorshift 27 _).
  assert (Hb : in_u64 b) by (apply unxorshift_range; [lia|apply wmul_range]).
  set (c := unxorshift 30 _).
  assert (Hc : in_u64 c) by (apply unxorshift_range; [lia|apply wmul_range]).
  rewrite wsub_wadd by done. fold (xorshift 30 c). subst c.
  rewrite (xorshift_unxorshift 30) by (apply wmul_range || lia).
  rewrite (wmul_inv 0x96de1b173f119089) by (done || reflexivity).
  fold (xorshift 27 b). subst b.
  rewrite (xorshift_unxorshift 27) by (apply wmul_range || lia).
  rewrite (wmul_inv 0x319642b2d24d8ec3) by (done || reflexivity).
  fold (xorshift 31 a). by apply xorshift_unxorshift.
Qed.

(** ** Lemmas: the policy check and the decision *)

Lemma gcd_runs l r :
  0 <= l -> in_u64 r ->
  exists g, wloop gcd_step 64 (l, r) = inr g /\ Runs gcd_step (l, r) g /\ g = Z.gcd l r.
Proof.
  intros Hl Hr.
  apply (wloop_spec gcd_step
    (fun s => 0 <= s.1 /\ in_u64 s.2 /\ Z.gcd s.1 s.2 = Z.gcd l r) (fun s => s.2)); simpl.
  - intros [a b] s' (Ha & Hb & Hg). unfold gcd_step. simpl in *.
    case_match eqn:E; [done|]. intros [= <-]. simpl.
    pose proof (Z.mod_pos_bound a b). unfold in_u64 in *. split_and!; [lia..| |lia|lia].
    rewrite Z.gcd_comm, Z.gcd_mod by lia. by rewrite Z.gcd_comm.
  - intros [a b] g (Ha & _ & Hg). unfold gcd_step. simpl in *. case_match eqn:E; [|done].
    intros [= <-]. apply Z.eqb_eq in E. subst. rewrite <- Hg, Z.gcd_0_r. lia.
  - done.
  - mlia.
Qed.

Lemma gcd_eq l r : 0 <= l -> in_u64 r -> gcd l r = Z.gcd l r.
Proof. intros Hl Hr. unfold gcd. by destruct (gcd_runs l r Hl Hr) as (g & -> & _ & ->). Qed.

(** A policy of machine words. *)
Definition policy_words (p : EcnRampPolicy) : Prop :=
  in_u64 (capacity_bytes p) /\ in_u64 (kmin_bytes p) /\ in_u64 (kmax_bytes p) /\
  in_u64 (pmax_numerator p) /\ in_u64 (pmax_denominator p).

(** What the check accepts. *)
Record policy_ok (p : EcnRampPolicy) : Prop := {
  pk_kmin : 1 <= kmin_bytes p;
  pk_kmax : kmin_bytes p <= kmax_bytes p;
  pk_capacity : kmax_bytes p <= capacity_bytes p;
  pk_pmax : 0 < pmax_numerator p <= pmax_denominator p;
  pk_lowest : Z.gcd (pmax_numerator p) (pmax_denominator p) = 1;
  pk_step : kmin_bytes p = kmax_bytes p -> pmax_numerator p = pmax_denominator p;
  pk_span : pmax_denominator p * (kmax_bytes p - kmin_bytes p) <= u64_max;
}.

(** Inside the ramp, the integer test is the exact comparison of the draw with
    the marking probability. *)
Lemma ramp_test_exact u span bound :
  0 <= u -> 0 < span ->
  (Z.shiftr (u * span) 64 <? bound) = true <-> u * span < bound * 2 ^ 64.
Proof.
  intros Hu Hs. rewrite Z.ltb_lt, Z.shiftr_div_pow2 by lia. split; intros Hlt.
  - pose proof (Z.mul_succ_div_gt (u * span) (2 ^ 64) ltac:(lia)). nia.
  - apply Z.div_lt_upper_bound; lia.
Qed.

(** The product of the draw and the span fits 128 bits. *)
Lemma ramp_product_small p u :
  policy_words p -> policy_ok p -> in_u64 u -> kmin_bytes p <= kmax_bytes p ->
  (u * (pmax_denominator p * (kmax_bytes p - kmin_bytes p))) mod u128_modulus
  = u * (pmax_denominator p * (kmax_bytes p - kmin_bytes p)).
Proof.
  intros (_ & _ & _ & _ & Hden) [] Hu Hk. apply Z.mod_small.
  set (span := pmax_denominator p * (kmax_bytes p - kmin_bytes p)) in *.
  assert (0 <= span <= u64_max) by (subst span; split; [munfold; nia|done]).
  munfold. nia.
Qed.

Lemma decision_in_ramp p q s u :
  policy_words p -> policy_ok p -> 0 <= q -> 0 <= s -> in_u64 u ->
  kmin_bytes p <= q + s < kmax_bytes p ->
  ecn_ramp_decision p q s true (fun _ => u) =
    if Z.shiftr (u * (pmax_denominator p * (kmax_bytes p - kmin_bytes p))) 64
       <? pmax_numerator p * (q + s - kmin_bytes p)
    then Mark else Enqueue.
Proof.
  intros Hw Hok Hq Hs Hu Hd. pose proof (ramp_product_small p u Hw Hok Hu ltac:(lia)) as Hp.
  destruct Hw as (Hc & H1 & H2 & _). destruct Hok. unfold ecn_ramp_decision.
  rewrite (proj2 (checked_add_Some q s (q + s))) by mlia.
  rewrite (proj2 (Z.ltb_ge (capacity_bytes p) (q + s))) by lia. cbn [negb orb].
  rewrite (proj2 (Z.ltb_ge (q + s) (kmin_bytes p))) by lia.
  rewrite (proj2 (Z.leb_gt (kmax_bytes p) (q + s))) by lia.
  rewrite !wsub_small by mlia. by rewrite Hp.
Qed.

Lemma decision_cases p q s ecn u :
  policy_words p -> policy_ok p -> 0 <= q -> 0 <= s -> in_u64 (u ()) ->
  ecn_ramp_decision p q s ecn u =
    if capacity_bytes p <? q + s then Drop
    else if negb ecn || (q + s <? kmin_bytes p) then Enqueue
    else if kmax_bytes p <=? q + s then Mark
    else if Z.shiftr (u () * (pmax_denominator p * (kmax_bytes p - kmin_bytes p))) 64
            <? pmax_numerator p * (q + s - kmin_bytes p)
    then Mark else Enqueue.
Proof.
  intros Hw Hok Hq Hs Hu. assert (Hk : kmin_bytes p <= kmax_bytes p) by (destruct Hok; lia).
  pose proof (ramp_product_small p (u ()) Hw Hok Hu Hk) as Hp.
  destruct Hw as (Hc & H1 & H2 & _). destruct Hok. unfold ecn_ramp_decision.
  destruct (checked_add q s) as [d|] eqn:E.
  - apply checked_add_Some in E as [-> ?].
    case_match eqn:E1; [done|]. case_match eqn:E2; [done|]. case_match eqn:E3; [done|].
    apply orb_false_iff in E2 as [_ ?]. rewrite !wsub_small by mlia. by rewrite Hp.
  - apply checked_add_None in E. by rewrite (proj2 (Z.ltb_lt (capacity_bytes p) (q + s))) by mlia.
Qed.

Lemma ramp_bound_mono p d d' :
  policy_ok p -> kmin_bytes p <= d <= d' ->
  pmax_numerator p * (d - kmin_bytes p) <= pmax_numerator p * (d' - kmin_bytes p).
Proof. intros [] Hd. nia. Qed.

(** ** Properties *)

(** SplitMix64's output function is a bijection on [u64], as its comment
    claims: [unmix] inverts it on both sides, so distinct inputs draw from
    distinct streams. *)
Theorem mix_bijective v :
  in_u64 v -> in_u64 (mix v) /\ unmix (mix v) = v /\ mix (unmix v) = v.
Proof. intros Hv. auto using mix_range, unmix_mix, mix_unmix. Qed.

Lemma mix_bijective_witness :
  in_u64 (mix 42) /\ unmix (mix 42) = 42 /\ mix (unmix 42) = 42.
Proof. apply (mix_bijective 42). mlia. Defined.

(** The policy check accepts exactly the well-formed policies: a positive
    capacity, [1 <= kmin <= kmax <= capacity], [0 < Pmax <= 1] in lowest terms
    (the loop computes the greatest common divisor and terminates), [Pmax = 1]
    for a step, and a span that fits [u64]. *)
Theorem policy_check_exact p :
  policy_words p -> ecn_ramp_policy_check p = Ok tt <-> policy_ok p.
Proof.
  intros (Hc & H1 & H2 & H3 & H4). unfold ecn_ramp_policy_check, ecn_ramp_span.
  rewrite gcd_eq by mlia. unfold in_u64 in *.
  assert (Hm : saturating_sub (kmax_bytes p) (kmin_bytes p) =
    Z.max (kmax_bytes p - kmin_bytes p) 0) by done.
  split.
  - repeat case_match; try done. intros _. unfold checked_mul in *.
    case_match; [|done].
    repeat match goal with
      | H : _ || _ = false |- _ => apply orb_false_iff in H as [? ?]
      | H : _ && _ = false |- _ => apply andb_false_iff in H
      | H : negb _ = false |- _ => apply negb_false_iff in H
      end.
    split; lia.
  - intros []. rewrite Hm, Z.max_l by lia.
    unfold checked_mul. rewrite (proj2 (Z.leb_le _ _) pk_span0).
    rewrite pk_lowest0. simpl.
    repeat (case_match; [exfalso; repeat match goal with
      | H : _ || _ = true |- _ => apply orb_true_iff in H
      | H : _ && _ = true |- _ => apply andb_true_iff in H
      | H : negb _ = true |- _ => apply negb_true_iff in H
      end; lia|]). done.
Qed.

Definition ecn_example_policy : EcnRampPolicy := mkEcnRamp 100000 10000 50000 1 5.

Lemma policy_check_exact_witness :
  ecn_ramp_policy_check ecn_example_policy = Ok tt /\
  (ecn_ramp_policy_check ecn_example_policy = Ok tt <-> policy_ok ecn_example_policy).
Proof.
  split; [vm_compute; reflexivity|]. apply (policy_check_exact ecn_example_policy).
  unfold policy_words, ecn_example_policy; simpl. mlia.
Defined.

(** C30. Marking is exact on the ramp: for an accepted policy and ECN-capable
    data admitted at depth [d] with [kmin <= d < kmax], the packet is marked iff
    [u / 2^64 < Pmax * (d - kmin) / (kmax - kmin)] with no rounding, that is for
    exactly the [ceil(P(d) * 2^64)] smallest draws, a number below [2^64]. *)
Theorem ramp_marks_exactly p q s u :
  policy_words p -> policy_ok p -> 0 <= q -> 0 <= s -> in_u64 u ->
  kmin_bytes p <= q + s < kmax_bytes p ->
  let span := pmax_denominator p * (kmax_bytes p - kmin_bytes p) in
  let bound := pmax_numerator p * (q + s - kmin_bytes p) in
  let draws := div_ceil (bound * 2 ^ 64) span in
  0 <= draws <= 2 ^ 64 /\
  (ecn_ramp_decision p q s true (fun _ => u) = Mark <-> u * span < bound * 2 ^ 64) /\
  (ecn_ramp_decision p q s true (fun _ => u) = Mark <-> u < draws).
Proof.
  intros Hw Hok Hq Hs Hu Hd span bound draws.
  assert (Hspan : 0 < span) by (destruct Hok; subst span; nia).
  assert (Hbound : 0 <= bound <= span) by (destruct Hok; subst bound span; nia).
  pose proof (div_ceil_spec (bound * 2 ^ 64) span Hspan) as [Hc1 Hc2]. fold draws in Hc1, Hc2.
  assert (Hmark : ecn_ramp_decision p q s true (fun _ => u) = Mark <-> u * span < bound * 2 ^ 64).
  { rewrite decision_in_ramp by done. rewrite <- ramp_test_exact by (mlia || done).
    fold span bound. destruct (_ <? bound); naive_solver. }
  split_and!; [nia..|done|]. rewrite Hmark. split; intros; nia.
Qed.

Lemma ramp_marks_exactly_witness :
  let span := 5 * (50000 - 10000) in
  let bound := 1 * (28500 + 1500 - 10000) in
  let draws := div_ceil (bound * 2 ^ 64) span in
  0 <= draws <= 2 ^ 64 /\
  (ecn_ramp_decision ecn_example_policy 28500 1500 true (fun _ => 7) = Mark <->
     7 * span < bound * 2 ^ 64) /\
  (ecn_ramp_decision ecn_example_policy 28500 1500 true (fun _ => 7) = Mark <-> 7 < draws).
Proof.
  apply (ramp_marks_exactly ecn_example_policy 28500 1500 7);
    try (unfold policy_words; simpl; mlia).
  split; simpl; try lia. reflexivity.
Defined.

(** Congestion response is monotone: at an accepted policy, with the same
    packet size and draw, a deeper queue never turns a drop into an admission
    nor a mark into an unmarked admission; with [kmin = kmax = T] the decision
    is the step "mark iff the depth reaches T" and reads no draw. *)
Theorem ramp_monotone_and_step p q q' s ecn u :
  policy_words p -> policy_ok p -> 0 <= q <= q' -> 0 <= s -> in_u64 u ->
  (ecn_ramp_decision p q s ecn (fun _ => u) = Drop ->
   ecn_ramp_decision p q' s ecn (fun _ => u) = Drop) /\
  (ecn_ramp_decision p q s ecn (fun _ => u) = Mark ->
   ecn_ramp_decision p q' s ecn (fun _ => u) <> Enqueue) /\
  (kmin_bytes p = kmax_bytes p ->
   ecn_ramp_decision p q s ecn (fun _ => u) =
     if capacity_bytes p <? q + s then Drop
     else if ecn && (kmax_bytes p <=? q + s) then Mark else Enqueue).
Proof.
  intros Hw Hok Hq Hs Hu.
  rewrite (decision_cases p q s) by (done || lia).
  rewrite (decision_cases p q' s) by (done || lia).
  split_and!.
  - case_match eqn:E; [|repeat case_match; done]. intros _.
    by rewrite (proj2 (Z.ltb_lt (capacity_bytes p) (q' + s))) by lia.
  - destruct (capacity_bytes p <? q + s) eqn:E; [done|].
    destruct (capacity_bytes p <? q' + s) eqn:E'; [done|].
    destruct ecn; [|done]. cbn [negb orb].
    destruct (q + s <? kmin_bytes p) eqn:Ek; [done|].
    rewrite (proj2 (Z.ltb_ge (q' + s) (kmin_bytes p))) by lia.
    destruct (kmax_bytes p <=? q + s) eqn:Ex;
      [by rewrite (proj2 (Z.leb_le (kmax_bytes p) (q' + s))) by lia|].
    case_match eqn:Em; [intros _|done].
    case_match eqn:Ex'; [done|].
    pose proof (ramp_bound_mono p (q + s) (q' + s) Hok ltac:(lia)).
    by rewrite (proj2 (Z.ltb_lt _ (pmax_numerator p * (q' + s - kmin_bytes p)))) by lia.
  - intros Heq. destruct (capacity_bytes p <? q + s); [done|].
    destruct ecn; [|done]. cbn [negb orb andb]. rewrite Heq.
    destruct (q + s <? kmax_bytes p) eqn:Ek.
    + by rewrite (proj2 (Z.leb_gt (kmax_bytes p) (q + s))) by lia.
    + by rewrite (proj2 (Z.leb_le (kmax_bytes p) (q + s))) by lia.
Qed.

Definition ecn_step_policy : EcnRampPolicy := mkEcnRamp 100000 30000 30000 1 1.

Lemma ramp_monotone_and_step_witness :
  (ecn_ramp_decision ecn_step_policy 28500 1500 true (fun _ => 7) = Drop ->
   ecn_ramp_decision ecn_step_policy 40000 1500 true (fun _ => 7) = Drop) /\
  (ecn_ramp_decision ecn_step_policy 28500 1500 true (fun _ => 7) = Mark ->
   ecn_ramp_decision ecn_step_policy 40000 1500 true (fun _ => 7) <> Enqueue) /\
  (kmin_bytes ecn_step_policy = kmax_bytes ecn_step_policy ->
   ecn_ramp_decision ecn_step_policy 28500 1500 true (fun _ => 7) =
     if capacity_bytes ecn_step_policy <? 28500 + 1500 then Drop
     else if true && (kmax_bytes ecn_step_policy <=? 28500 + 1500) then Mark else Enqueue).
Proof.
  apply (ramp_monotone_and_step ecn_step_policy 28500 40000 1500 true 7);
    try (unfold policy_words; simpl; mlia).
  split; simpl; try lia. reflexivity.
Defined.
