(* ===== verification/Dcqcn.v ===== *)
(** * The DCQCN reaction point (executor/src/dcqcn.rs)

    The Mellanox-form controller with lazy timers: its configuration and state,
    the alpha, decrease and increase steps, [materialize], [on_feedback] and
    [settle], and the eager machine the lazy timers stand for. *)

From S2P Require Import Prelude.

Definition DCQCN_ALPHA_ONE : Z := 9223372036854775808.

Record DcqcnControllerConfig := mkDcqcnConfig {
  initial_rate_bps : Z;
  minimum_rate_bps : Z;
  maximum_rate_bps : Z;
  additive_rate_bps : Z;
  hyper_rate_bps : Z;
  g_q63 : Z;
  alpha_interval_ns : Z;
  decrease_interval_ns : Z;
  increase_interval_ns : Z;
  fast_recovery_steps : Z;
  clamp_target_rate : bool;
}.

Record DcqcnController := mkDcqcn {
  config : DcqcnControllerConfig;
  alpha_q63 : Z;
  current_rate_bps : Z;
  target_rate_bps : Z;
  next_alpha_ns : Z;
  next_decrease_ns : Z;
  next_increase_ns : Z;
  stage : Z;
  armed : bool;
  alpha_pending : bool;
  decrease_pending : bool;
  increase_armed : bool;
}.

Record DcqcnAdvance := mkAdvance {
  alpha_ticks : Z;
  increase_fires : Z;
  decrease_cuts : Z;
}.

#[export] Instance DcqcnControllerConfig_eq_dec : EqDecision DcqcnControllerConfig.
Proof. solve_decision. Defined.
#[export] Instance DcqcnController_eq_dec : EqDecision DcqcnController.
Proof. solve_decision. Defined.

Definition advance_default : DcqcnAdvance := mkAdvance 0 0 0.

Definition applied_rate_change (a : DcqcnAdvance) : bool :=
  negb (increase_fires a =? 0) || negb (decrease_cuts a =? 0).

Definition dcqcn_rate_floor_bps (minimum : Z) : Z :=
  2 *w (saturating_sub minimum 1 / 2).

(** [floor(a * b / 2^63)], truncated to [u64]. *)
Definition mul_shr63 (a b : Z) : Z := Z.shiftr (a * b) 63 mod u64_modulus.

(** [DcqcnControllerConfig::validate]. *)
Definition validate (c : DcqcnControllerConfig) : result string unit :=
  if minimum_rate_bps c <? 3
  then Err "DCQCN minimum rate must be at least 3 bit/s: the rate average truncates each half, so the rate can fall to 2 * floor((minimum - 1) / 2)"%string
  else if (initial_rate_bps c <? minimum_rate_bps c) || (maximum_rate_bps c <? initial_rate_bps c)
  then Err "DCQCN rates must satisfy minimum <= initial <= maximum"%string
  else if DCQCN_ALPHA_ONE <? g_q63 c then Err "DCQCN g must be in 0..=1"%string
  else if (alpha_interval_ns c =? 0) || (decrease_interval_ns c =? 0)
          || (increase_interval_ns c =? 0)
  then Err "DCQCN alpha, rate-decrease and rate-increase intervals must be positive"%string
  else if fast_recovery_steps c =? u32_max
  then Err "DCQCN fast recovery times must be below 4294967295"%string
  else Ok tt.

Definition pristine (c : DcqcnControllerConfig) : DcqcnController :=
  mkDcqcn c DCQCN_ALPHA_ONE (initial_rate_bps c) (initial_rate_bps c) 0 0 0 0
    false false false false.

(** [DcqcnController::new]. *)
Definition dcqcn_new (c : DcqcnControllerConfig) : result string DcqcnController :=
  _ ← validate c; Ok (pristine c).

Definition fixed_rate (rate_bps : Z) : DcqcnController :=
  pristine (mkDcqcnConfig rate_bps rate_bps rate_bps 0 0 0 u64_max u64_max u64_max 0 false).

(** The two rate-changing instants, [u64::MAX] when there is none. *)
Definition increase_instant (c : DcqcnController) : Z :=
  if increase_armed c then next_increase_ns c else u64_max.
Definition decrease_instant (c : DcqcnController) : Z :=
  if decrease_pending c then next_decrease_ns c else u64_max.

Definition due_ns (c : DcqcnController) : Z :=
  if increase_instant c <? decrease_instant c then increase_instant c else decrease_instant c.

(** The decay loop: it stops when the ticks or alpha run out. *)
Definition decay_step (retained : Z) (s : Z * Z) : (Z * Z) + Z :=
  let '(alpha, remaining) := s in
  if negb (remaining =? 0) && negb (alpha =? 0)
  then inl (mul_shr63 retained alpha, remaining -w 1)
  else inr alpha.

Definition decay_loop (retained alpha remaining : Z) : Z :=
  loop_result alpha (wloop (decay_step retained) 64 (alpha, remaining)).

(** Applies every alpha tick with time [<= time_ns]; returns how many. *)
Definition alpha_through (c : DcqcnController) (time_ns : Z) : Z * DcqcnController :=
  if (time_ns <? next_alpha_ns c) || (next_alpha_ns c =? u64_max) then (0, c)
  else
    let interval := alpha_interval_ns (config c) in
    let ticks := ((time_ns -w next_alpha_ns c) / interval) +w 1 in
    let retained := DCQCN_ALPHA_ONE -w g_q63 (config c) in
    let alpha := mul_shr63 retained (alpha_q63 c) in
    let alpha := if alpha_pending c then alpha +w g_q63 (config c) else alpha in
    let alpha := decay_loop retained alpha (ticks -w 1) in
    let advanced := ticks * interval + next_alpha_ns c in
    let next := default u64_max (try_u64 advanced) in
    (ticks,
     mkDcqcn (config c) alpha (current_rate_bps c) (target_rate_bps c) next
       (next_decrease_ns c) (next_increase_ns c) (stage c) (armed c) false
       (decrease_pending c) (increase_armed c)).

(** HPCC [CheckRateDecreaseMlx] at an instant where a decrease is pending. *)
Definition decrease_check (c : DcqcnController) (time_ns : Z) : DcqcnController :=
  let cfg := config c in
  let target :=
    if clamp_target_rate cfg || negb (stage c =? 0)
    then current_rate_bps c else target_rate_bps c in
  let rate := current_rate_bps c in
  let product := rate * alpha_q63 c in
  let reduction :=
    (Z.shiftr product 64 mod u64_modulus)
      +w (if product mod u64_modulus =? 0 then 0 else 1) in
  mkDcqcn cfg (alpha_q63 c) (Z.max (rate -w reduction) (minimum_rate_bps cfg)) target
    (next_alpha_ns c) (saturating_add time_ns (decrease_interval_ns cfg))
    (saturating_add time_ns (increase_interval_ns cfg)) 0
    (armed c) (alpha_pending c) false true.

(** HPCC [RateIncEventTimerMlx] and [RateIncEventMlx]. *)
Definition increase_fire (c : DcqcnController) (time_ns : Z) : DcqcnController :=
  let cfg := config c in
  let steps := fast_recovery_steps cfg in
  let target :=
    if stage c =? steps
    then Z.min (saturating_add (target_rate_bps c) (additive_rate_bps cfg)) (maximum_rate_bps cfg)
    else if steps <? stage c
    then Z.min (saturating_add (target_rate_bps c) (hyper_rate_bps cfg)) (maximum_rate_bps cfg)
    else target_rate_bps c in
  mkDcqcn cfg (alpha_q63 c) ((current_rate_bps c / 2) +w (target / 2)) target
    (next_alpha_ns c) (next_decrease_ns c)
    (saturating_add time_ns (increase_interval_ns cfg))
    (if stage c <=? steps then (stage c + 1) mod 4294967296 else stage c)
    (armed c) (alpha_pending c) (decrease_pending c) (increase_armed c).

(** The first instant of the decrease grid at or after [time_ns]. *)
Definition first_decrease_at_or_after (c : DcqcnController) (time_ns : Z) : Z :=
  let anchor := next_decrease_ns c in
  if (time_ns <=? anchor) || (anchor =? u64_max) then anchor
  else
    let interval := decrease_interval_ns (config c) in
    let steps := div_ceil (time_ns -w anchor) interval in
    default u64_max (try_u64 (anchor + steps * interval)).

(** One iteration of [materialize]. *)
Definition materialize_step (bound_ns : Z) (s : DcqcnController * DcqcnAdvance)
  : (DcqcnController * DcqcnAdvance) + (DcqcnController * DcqcnAdvance) :=
  let '(c, adv) := s in
  let increase := increase_instant c in
  let decrease := decrease_instant c in
  let instant := Z.min increase decrease in
  if bound_ns <=? instant then inr (c, adv)
  else if increase <=? decrease
  then inl (increase_fire c increase,
            mkAdvance (alpha_ticks adv) (increase_fires adv +w 1) (decrease_cuts adv))
  else
    let '(ticks, c) := alpha_through c decrease in
    inl (decrease_check c decrease,
         mkAdvance (alpha_ticks adv +w ticks) (increase_fires adv) (decrease_cuts adv +w 1)).

Definition materialize (c : DcqcnController) (bound_ns : Z)
  : DcqcnController * DcqcnAdvance :=
  loop_result (c, advance_default) (wloop (materialize_step bound_ns) 66 (c, advance_default)).

(** The alpha catch-up of a feedback and of the freeze: ticks before [bound_ns]. *)
Definition alpha_before (c : DcqcnController) (bound_ns : Z) (adv : DcqcnAdvance)
  : DcqcnController * DcqcnAdvance :=
  match checked_sub bound_ns 1 with
  | Some last =>
      let '(ticks, c) := alpha_through c last in
      (c, mkAdvance (alpha_ticks adv +w ticks) (increase_fires adv) (decrease_cuts adv))
  | None => (c, adv)
  end.

Definition with_feedback (c : DcqcnController) : DcqcnController :=
  mkDcqcn (config c) (alpha_q63 c) (current_rate_bps c) (target_rate_bps c) (next_alpha_ns c)
    (next_decrease_ns c) (next_increase_ns c) (stage c) (armed c) true true (increase_armed c).

Definition with_next_decrease (c : DcqcnController) (t : Z) : DcqcnController :=
  mkDcqcn (config c) (alpha_q63 c) (current_rate_bps c) (target_rate_bps c) (next_alpha_ns c)
    t (next_increase_ns c) (stage c) (armed c) (alpha_pending c) (decrease_pending c)
    (increase_armed c).

(** One feedback at [now_ns]. *)
Definition on_feedback (c : DcqcnController) (now_ns : Z) : DcqcnController * DcqcnAdvance :=
  if negb (armed c) then
    (mkDcqcn (config c) DCQCN_ALPHA_ONE (current_rate_bps c) (target_rate_bps c)
       (saturating_add now_ns (alpha_interval_ns (config c)))
       (saturating_add (saturating_add now_ns (decrease_interval_ns (config c))) 1)
       (next_increase_ns c) (stage c) true false true (increase_armed c),
     advance_default)
  else
    let '(c, adv) := materialize c now_ns in
    let '(c, adv) := alpha_before c now_ns adv in
    if decrease_pending c then (with_feedback c, adv)
    else (with_feedback (with_next_decrease c (first_decrease_at_or_after c now_ns)), adv).

(** The freeze at the transition that completes the flow. *)
Definition settle (c : DcqcnController) (bound_ns : Z) : DcqcnController * DcqcnAdvance :=
  if negb (armed c) then (c, advance_default)
  else
    let '(c, adv) := materialize c bound_ns in
    let '(c, adv) := alpha_before c bound_ns adv in
    (with_next_decrease c (first_decrease_at_or_after c bound_ns), adv).

(** [DcqcnController::validate_state]. *)
Definition validate_state (c : DcqcnController) : result string unit :=
  match validate (config c) with
  | Err _ => Err "has an invalid DCQCN configuration"%string
  | Ok _ =>
      if DCQCN_ALPHA_ONE <? alpha_q63 c then Err "has a DCQCN alpha above one"%string
      else if (fast_recovery_steps (config c) + 1) mod 4294967296 <? stage c
      then Err "has a DCQCN stage above fast_recovery_times + 1"%string
      else if negb (armed c) && negb (bool_decide (c = pristine (config c)))
      then Err "has a DCQCN controller that moved before its first feedback"%string
      else Ok tt
  end.

(** ** The eager machine

    Every timer owns its instants: alpha ticks, rate increases and decrease
    checks are applied one at a time in time order, alpha first and decrease
    last at equal times. *)

Definition tick_alpha (c : DcqcnController) : Z :=
  let alpha := mul_shr63 (DCQCN_ALPHA_ONE -w g_q63 (config c)) (alpha_q63 c) in
  if alpha_pending c then alpha +w g_q63 (config c) else alpha.

Definition alpha_tick (c : DcqcnController) : DcqcnController :=
  mkDcqcn (config c) (tick_alpha c) (current_rate_bps c) (target_rate_bps c)
    (saturating_add (next_alpha_ns c) (alpha_interval_ns (config c)))
    (next_decrease_ns c) (next_increase_ns c) (stage c) (armed c) false
    (decrease_pending c) (increase_armed c).

Definition decrease_tick (c : DcqcnController) : DcqcnController :=
  if decrease_pending c then decrease_check c (next_decrease_ns c)
  else with_next_decrease c
         (saturating_add (next_decrease_ns c) (decrease_interval_ns (config c))).

(** One instant of the eager machine, if one precedes the bound. *)
Definition eager_step (bound_ns : Z) (c : DcqcnController)
  : DcqcnController + DcqcnController :=
  let instant := Z.min (next_alpha_ns c) (Z.min (increase_instant c) (next_decrease_ns c)) in
  if bound_ns <=? instant then inr c
  else if next_alpha_ns c =? instant then inl (alpha_tick c)
  else if increase_instant c =? instant then inl (increase_fire c (increase_instant c))
  else inl (decrease_tick c).

Definition eager_to (c : DcqcnController) (bound_ns : Z) : DcqcnController :=
  if armed c then loop_result c (wloop (eager_step bound_ns) 130 c) else c.

Definition eager_feedback (c : DcqcnController) (now_ns : Z) : DcqcnController :=
  if armed c then with_feedback (eager_to c now_ns)
  else (on_feedback c now_ns).1.

(** The transitions of a flow that touch its controller: a feedback at a time,
    or any other transition, which applies the instants before its bound. *)
Inductive DcqcnOp := OpFeedback (now_ns : Z) | OpAdvance (bound_ns : Z).

Definition op_time (op : DcqcnOp) : Z :=
  match op with OpFeedback t | OpAdvance t => t end.

Definition lazy_op (c : DcqcnController) (op : DcqcnOp) : DcqcnController :=
  match op with
  | OpFeedback now => (on_feedback c now).1
  | OpAdvance bound => (materialize c bound).1
  end.

Definition eager_op (c : DcqcnController) (op : DcqcnOp) : DcqcnController :=
  match op with
  | OpFeedback now => eager_feedback c now
  | OpAdvance bound => eager_to c bound
  end.

(** ** Invariants *)

(** A configuration of machine words. *)
Definition config_words (c : DcqcnControllerConfig) : Prop :=
  in_u64 (initial_rate_bps c) /\ in_u64 (minimum_rate_bps c) /\ in_u64 (maximum_rate_bps c) /\
  in_u64 (additive_rate_bps c) /\ in_u64 (hyper_rate_bps c) /\ in_u64 (g_q63 c) /\
  in_u64 (alpha_interval_ns c) /\ in_u64 (decrease_interval_ns c) /\
  in_u64 (increase_interval_ns c) /\ in_u32 (fast_recovery_steps c).

Record config_ok (c : DcqcnControllerConfig) : Prop := {
  cfg_min : 3 <= minimum_rate_bps c;
  cfg_init : minimum_rate_bps c <= initial_rate_bps c <= maximum_rate_bps c;
  cfg_max : maximum_rate_bps c <= u64_max;
  cfg_add : in_u64 (additive_rate_bps c);
  cfg_hyper : in_u64 (hyper_rate_bps c);
  cfg_g : 0 <= g_q63 c <= DCQCN_ALPHA_ONE;
  cfg_alpha : 1 <= alpha_interval_ns c <= u64_max;
  cfg_decrease : 1 <= decrease_interval_ns c <= u64_max;
  cfg_increase : 1 <= increase_interval_ns c <= u64_max;
  cfg_steps : 0 <= fast_recovery_steps c < u32_max;
}.

Definition rate_floor (minimum : Z) : Z := 2 * ((minimum - 1) / 2).

Record state_ok (c : DcqcnController) : Prop := {
  st_cfg : config_ok (config c);
  st_alpha : 0 <= alpha_q63 c <= DCQCN_ALPHA_ONE;
  st_current : rate_floor (minimum_rate_bps (config c)) <= current_rate_bps c
      <= maximum_rate_bps (config c);
  st_target_rate : rate_floor (minimum_rate_bps (config c)) <= target_rate_bps c
      <= maximum_rate_bps (config c);
  st_next_alpha : in_u64 (next_alpha_ns c);
  st_next_decrease : in_u64 (next_decrease_ns c);
  st_next_increase : in_u64 (next_increase_ns c);
  st_stage : 0 <= stage c <= fast_recovery_steps (config c) + 1;
  st_pristine : armed c = false -> c = pristine (config c);
}.

Create HintDb dcqcn.

(** Projects the fields of a controller written out, and nothing else. *)
Ltac fields :=
  cbn [fst snd config alpha_q63 current_rate_bps target_rate_bps next_alpha_ns
    next_decrease_ns next_increase_ns stage armed alpha_pending decrease_pending
    increase_armed].

(** Splits a state invariant into arithmetic goals. *)
Ltac state_lia :=
  repeat match goal with H : config_ok _ |- _ => destruct H end;
  unfold DCQCN_ALPHA_ONE, rate_floor in *; dlia.

Lemma validate_ok c : config_words c -> validate c = Ok tt <-> config_ok c.
Proof.
  intros (? & ? & ? & ? & ? & ? & ? & ? & ? & ?). unfold validate. munfold. split.
  - repeat case_match; try done. intros _.
    repeat match goal with H : _ || _ = false |- _ => apply orb_false_iff in H as [? ?] end.
    split; mlia.
  - intros [].
    repeat (case_match; [exfalso; repeat match goal with
      | H : _ || _ = true |- _ => apply orb_true_iff in H end; lia|]). done.
Qed.

Lemma rate_floor_eq m : 3 <= m <= u64_max -> dcqcn_rate_floor_bps m = rate_floor m.
Proof.
  intros Hm. unfold dcqcn_rate_floor_bps, rate_floor, saturating_sub.
  rewrite Z.max_l by lia. apply wmul_small. dlia.
Qed.

Lemma rate_floor_bounds m : 3 <= m -> 2 <= rate_floor m < m.
Proof. unfold rate_floor. intros. dlia. Qed.

(** ** Alpha *)

Lemma mul_shr63_eq a b :
  0 <= a <= DCQCN_ALPHA_ONE -> 0 <= b <= DCQCN_ALPHA_ONE ->
  mul_shr63 a b = a * b / DCQCN_ALPHA_ONE /\ 0 <= mul_shr63 a b <= Z.min a b.
Proof.
  unfold DCQCN_ALPHA_ONE. intros Ha Hb. unfold mul_shr63.
  rewrite Z.shiftr_div_pow2 by lia. change (2 ^ 63) with 9223372036854775808.
  assert (Hq : 0 <= a * b / 9223372036854775808 <= Z.min a b).
  { split; [apply Z.div_pos; nia|]. apply Z.min_glb; apply Z.div_le_upper_bound; nia. }
  rewrite Z.mod_small by lia. done.
Qed.

(** The loop with its early exit at zero is the iterated decay. *)
Lemma decay_loop_eq r a n :
  0 <= r <= DCQCN_ALPHA_ONE -> 0 <= a <= DCQCN_ALPHA_ONE -> in_u64 n ->
  decay_loop r a n = Nat.iter (Z.to_nat n) (mul_shr63 r) a.
Proof.
  intros Hr Ha Hn. unfold decay_loop.
  destruct (wloop_spec (decay_step r)
    (fun s => 0 <= s.1 <= DCQCN_ALPHA_ONE /\ in_u64 s.2 /\
       Nat.iter (Z.to_nat s.2) (mul_shr63 r) s.1 = Nat.iter (Z.to_nat n) (mul_shr63 r) a)
    (fun s => s.2)
    (fun x => x = Nat.iter (Z.to_nat n) (mul_shr63 r) a) 64 (a, n)) as (x & -> & _ & Hx).
  - intros [a' m] s' (Ha' & Hm & Hit). cbn [fst snd] in *. unfold decay_step.
    case_match eqn:E; [|done]. intros [= <-]. cbn [fst snd].
    apply andb_true_iff in E as [E _]. apply negb_true_iff in E.
    pose proof (mul_shr63_eq r a' Hr Ha') as [_ ?].
    rewrite wsub_small by mlia. split_and!; [mlia..| |mlia|mlia].
    rewrite <- Hit. replace (Z.to_nat m) with (S (Z.to_nat (m - 1))) by mlia.
    by rewrite Nat.iter_succ_r.
  - intros [a' m] x (Ha' & Hm & Hit). cbn [fst snd] in *. unfold decay_step.
    case_match eqn:E; [done|]. intros [= <-]. rewrite <- Hit.
    apply andb_false_iff in E as [E|E]; apply negb_false_iff, Z.eqb_eq in E; subst; [done|].
    generalize (Z.to_nat m) as k. induction k as [|k IH]; [done|]. simpl. rewrite <- IH.
    unfold mul_shr63. by rewrite Z.mul_0_r.
  - done.
  - cbn. mlia.
  - done.
Qed.

Lemma tick_alpha_range c :
  config_ok (config c) -> 0 <= alpha_q63 c <= DCQCN_ALPHA_ONE ->
  0 <= tick_alpha c <= DCQCN_ALPHA_ONE.
Proof.
  intros [] Ha. unfold tick_alpha. unfold DCQCN_ALPHA_ONE in *.
  rewrite wsub_small by lia.
  pose proof (mul_shr63_eq (9223372036854775808 - g_q63 (config c)) (alpha_q63 c)) as Hm.
  unfold DCQCN_ALPHA_ONE in Hm. destruct Hm as [_ ?]; [lia..|].
  case_match; [rewrite wadd_small by lia|]; lia.
Qed.

(** [alpha_through] when a tick is due, with the machine arithmetic resolved. *)
Lemma alpha_through_due c t :
  config_ok (config c) -> 0 <= alpha_q63 c <= DCQCN_ALPHA_ONE -> in_u64 (next_alpha_ns c) ->
  next_alpha_ns c <= t < u64_max ->
  let n := (t - next_alpha_ns c) / alpha_interval_ns (config c) in
  alpha_through c t =
    (n + 1,
     mkDcqcn (config c)
       (Nat.iter (Z.to_nat n)
          (mul_shr63 (DCQCN_ALPHA_ONE - g_q63 (config c))) (tick_alpha c))
       (current_rate_bps c) (target_rate_bps c)
       (Z.min (next_alpha_ns c + (n + 1) * alpha_interval_ns (config c)) u64_max)
       (next_decrease_ns c) (next_increase_ns c) (stage c) (armed c) false
       (decrease_pending c) (increase_armed c)).
Proof.
  intros Hcfg Ha Hn Ht n. pose proof (tick_alpha_range c Hcfg Ha) as Htick.
  pose proof Hcfg as []. unfold alpha_through.
  rewrite (proj2 (Z.ltb_ge t (next_alpha_ns c))) by lia.
  rewrite (proj2 (Z.eqb_neq (next_alpha_ns c) u64_max)) by lia. cbn [orb].
  assert (Hn0 : 0 <= n <= t - next_alpha_ns c).
  { subst n. split; [apply Z.div_pos; lia|]. apply Z.div_le_upper_bound; nia. }
  rewrite (wsub_small t) by mlia. fold n. rewrite (wadd_small n) by mlia.
  rewrite (wsub_small (n + 1)) by mlia. replace (n + 1 - 1) with n by lia.
  f_equal. f_equal.
  - fold (tick_alpha c). unfold DCQCN_ALPHA_ONE in *. rewrite (wsub_small _ (g_q63 (config c))) by lia.
    apply decay_loop_eq; unfold DCQCN_ALPHA_ONE; mlia.
  - unfold try_u64. case_match eqn:E; simpl; lia.
Qed.

Lemma alpha_through_early c t : t < next_alpha_ns c -> alpha_through c t = (0, c).
Proof. intros. unfold alpha_through. by rewrite (proj2 (Z.ltb_lt t (next_alpha_ns c))). Qed.

Lemma alpha_tick_range c :
  config_ok (config c) -> in_u64 (next_alpha_ns c) -> in_u64 (next_alpha_ns (alpha_tick c)).
Proof. intros [] ?. simpl. mlia. Qed.

(** Applying the due ticks in one batch is one tick and then the rest. *)
Lemma alpha_through_tick c t :
  config_ok (config c) -> 0 <= alpha_q63 c <= DCQCN_ALPHA_ONE -> in_u64 (next_alpha_ns c) ->
  next_alpha_ns c <= t < u64_max ->
  (alpha_through (alpha_tick c) t).2 = (alpha_through c t).2.
Proof.
  intros Hcfg Ha Hn Ht. pose proof Hcfg as []. rewrite (alpha_through_due c t) by done.
  set (i := alpha_interval_ns (config c)) in *. set (a := next_alpha_ns c) in *.
  destruct (decide (t < a + i)) as [Hlt|Hge].
  - rewrite alpha_through_early by (simpl; fold i a; mlia).
    replace ((t - a) / i) with 0 by (symmetry; apply Z.div_small; lia). simpl.
    unfold alpha_tick. f_equal. fold i a. mlia.
  - assert (Hnext : next_alpha_ns (alpha_tick c) = a + i) by (simpl; fold i a; mlia).
    rewrite (alpha_through_due (alpha_tick c) t);
      [|done|by apply tick_alpha_range|rewrite Hnext; mlia|rewrite Hnext; lia].
    rewrite Hnext. cbn [alpha_tick config snd current_rate_bps target_rate_bps next_decrease_ns
      next_increase_ns stage armed decrease_pending increase_armed]. fold i.
    assert (Hq : (t - a) / i = (t - (a + i)) / i + 1).
    { replace (t - a) with (t - (a + i) + 1 * i) by lia. apply Z.div_add. lia. }
    assert (0 <= (t - (a + i)) / i) by (apply Z.div_pos; lia).
    rewrite Hq. f_equal; [|lia].
    replace (Z.to_nat ((t - (a + i)) / i + 1)) with (S (Z.to_nat ((t - (a + i)) / i))) by lia.
    rewrite Nat.iter_succ_r. f_equal. unfold tick_alpha at 1.
    cbn [alpha_tick alpha_pending config alpha_q63].
    unfold DCQCN_ALPHA_ONE in *. by rewrite wsub_small by lia.
Qed.

(** ** Every step preserves the invariant *)

Lemma iter_shr63_range r a n :
  0 <= r <= DCQCN_ALPHA_ONE -> 0 <= a <= DCQCN_ALPHA_ONE ->
  0 <= Nat.iter n (mul_shr63 r) a <= DCQCN_ALPHA_ONE.
Proof.
  intros Hr Ha. induction n as [|n IH]; [done|]. simpl.
  pose proof (mul_shr63_eq r _ Hr IH). lia.
Qed.

Lemma alpha_through_ok c t :
  state_ok c -> armed c = true -> t < u64_max -> state_ok (alpha_through c t).2.
Proof.
  intros [] Harm Ht. destruct (decide (t < next_alpha_ns c)).
  { by rewrite alpha_through_early. }
  rewrite alpha_through_due by (done || lia). pose proof st_cfg0 as [].
  assert (0 <= (t - next_alpha_ns c) / alpha_interval_ns (config c)) by (apply Z.div_pos; lia).
  split; simpl; try done; [|munfold; nia|congruence].
  apply iter_shr63_range; [lia|]. by apply tick_alpha_range.
Qed.

Lemma alpha_tick_ok c : state_ok c -> armed c = true -> state_ok (alpha_tick c).
Proof.
  intros [] ?. split; simpl; try done; [by apply tick_alpha_range| |congruence].
  by apply alpha_tick_range.
Qed.

(** The cut: [R - ceil(R * alpha / 2^64)] is [floor(R * (1 - alpha / 2))]. *)
Lemma cut_rate_eq rate alpha :
  in_u64 rate -> 0 <= alpha <= DCQCN_ALPHA_ONE ->
  let product := rate * alpha in
  rate -w ((Z.shiftr product 64 mod u64_modulus)
             +w (if product mod u64_modulus =? 0 then 0 else 1))
  = rate * (2 * DCQCN_ALPHA_ONE - alpha) / (2 * DCQCN_ALPHA_ONE).
Proof.
  intros Hr Ha product. unfold DCQCN_ALPHA_ONE in *. munfold.
  rewrite Z.shiftr_div_pow2 by lia. change (2 ^ 64) with u64_modulus.
  change (2 * 9223372036854775808) with u64_modulus.
  replace (rate * (u64_modulus - alpha)) with (rate * u64_modulus - product)
    by (subst product; ring).
  assert (Hp : 0 <= product) by (subst product; nia).
  assert (Hle : 2 * product <= rate * u64_modulus) by (subst product; nia).
  clearbody product. rewrite (Z.mod_small (product / _)) by dlia.
  assert (Hw : forall e, 0 <= e <= 1 -> product / u64_modulus +w e = product / u64_modulus + e).
  { intros. apply wadd_small. dlia. }
  rewrite Hw by (case_match; lia). rewrite wsub_small.
  - case_match; dlia.
  - case_match; dlia.
Qed.

Lemma cut_rate_range rate alpha :
  in_u64 rate -> 0 <= alpha <= DCQCN_ALPHA_ONE ->
  0 <= rate * (2 * DCQCN_ALPHA_ONE - alpha) / (2 * DCQCN_ALPHA_ONE) <= rate.
Proof.
  unfold DCQCN_ALPHA_ONE. intros [] ?. split; [apply Z.div_pos; nia|].
  apply Z.div_le_upper_bound; nia.
Qed.

Lemma st_rate_u64 c :
  state_ok c -> in_u64 (current_rate_bps c) /\ in_u64 (target_rate_bps c).
Proof.
  intros []. destruct st_cfg0. pose proof (rate_floor_bounds _ cfg_min0). mlia.
Qed.

Lemma decrease_check_ok c t : state_ok c -> armed c = true -> in_u64 t ->
  state_ok (decrease_check c t).
Proof.
  intros Hc Harm Ht. pose proof (st_rate_u64 c Hc) as [Hr _]. destruct Hc.
  pose proof (cut_rate_range _ _ Hr st_alpha0). pose proof st_cfg0 as [].
  pose proof (rate_floor_bounds _ cfg_min0).
  split; cbn [decrease_check config alpha_q63 current_rate_bps target_rate_bps next_alpha_ns
    next_decrease_ns next_increase_ns stage armed]; try done;
    [rewrite cut_rate_eq by done; lia|case_match; lia|mlia|mlia|lia|congruence].
Qed.

Lemma half_sum_range f m x y :
  0 <= f -> m <= u64_max -> 2 * f <= x <= m -> 2 * f <= y <= m ->
  2 * f <= x / 2 +w y / 2 <= m.
Proof. intros. rewrite wadd_small; dlia. Qed.

Lemma increase_fire_ok c t : state_ok c -> armed c = true -> in_u64 t ->
  state_ok (increase_fire c t).
Proof.
  intros Hc Harm Ht. pose proof (st_rate_u64 c Hc) as [? ?]. destruct Hc.
  pose proof st_cfg0 as []. pose proof (rate_floor_bounds _ cfg_min0).
  split; cbn [increase_fire config alpha_q63 current_rate_bps target_rate_bps next_alpha_ns
    next_decrease_ns next_increase_ns stage armed]; try done; [| |mlia| |congruence].
  - unfold rate_floor in *. apply half_sum_range; [lia|lia|lia|repeat case_match; mlia].
  - unfold rate_floor in *. repeat case_match; mlia.
  - case_match; [rewrite Z.mod_small by lia|]; lia.
Qed.

Lemma pristine_ok c : config_ok c -> state_ok (pristine c).
Proof.
  intros Hc. pose proof Hc as []. pose proof (rate_floor_bounds _ cfg_min0).
  split; simpl; unfold DCQCN_ALPHA_ONE; try done; try mlia.
Qed.

Lemma with_next_decrease_ok c t :
  state_ok c -> armed c = true -> in_u64 t -> state_ok (with_next_decrease c t).
Proof. intros [] ? ?. split; simpl; try done. congruence. Qed.

Lemma with_feedback_ok c : state_ok c -> armed c = true -> state_ok (with_feedback c).
Proof. intros [] ?. split; simpl; try done. congruence. Qed.

Lemma decrease_tick_ok c : state_ok c -> armed c = true -> state_ok (decrease_tick c).
Proof.
  intros Hc ?. pose proof (st_next_decrease _ Hc). pose proof (st_cfg _ Hc) as [].
  unfold decrease_tick. case_match; [by apply decrease_check_ok|].
  apply with_next_decrease_ok; [done..|mlia].
Qed.

#[export] Hint Resolve alpha_through_ok alpha_tick_ok decrease_check_ok increase_fire_ok
  with_next_decrease_ok with_feedback_ok decrease_tick_ok : dcqcn.
#[export] Hint Extern 1 (in_u64 (next_decrease_ns _)) => by apply st_next_decrease : dcqcn.
#[export] Hint Extern 1 (in_u64 (next_increase_ns _)) => by apply st_next_increase : dcqcn.

Lemma increase_instant_u64 c : state_ok c -> in_u64 (increase_instant c).
Proof. intros Hc. unfold increase_instant. case_match; [by apply st_next_increase|mlia]. Qed.
Lemma decrease_instant_u64 c : state_ok c -> in_u64 (decrease_instant c).
Proof. intros Hc. unfold decrease_instant. case_match; [by apply st_next_decrease|mlia]. Qed.
#[export] Hint Resolve increase_instant_u64 decrease_instant_u64 : dcqcn.

Lemma due_ns_min c : due_ns c = Z.min (increase_instant c) (decrease_instant c).
Proof. unfold due_ns. case_match; lia. Qed.

(** Facts about the fields [alpha_through] leaves alone. *)
Definition alpha_only (c c' : DcqcnController) : Prop :=
  exists a n p, c' = mkDcqcn (config c) a (current_rate_bps c) (target_rate_bps c) n
    (next_decrease_ns c) (next_increase_ns c) (stage c) (armed c) p
    (decrease_pending c) (increase_armed c).

Lemma alpha_through_only c t : alpha_only c (alpha_through c t).2.
Proof.
  unfold alpha_through. case_match; simpl.
  - exists (alpha_q63 c), (next_alpha_ns c), (alpha_pending c). by destruct c.
  - by do 3 eexists.
Qed.

(** ** The loop of [materialize] *)

(** The controller's part of an iteration: the counts never steer the loop. *)
Definition mat_step (b : Z) (c : DcqcnController) : DcqcnController + DcqcnController :=
  if b <=? Z.min (increase_instant c) (decrease_instant c) then inr c
  else if increase_instant c <=? decrease_instant c
  then inl (increase_fire c (increase_instant c))
  else inl (decrease_check (alpha_through c (decrease_instant c)).2 (decrease_instant c)).

Lemma mat_step_eq b c adv :
  match materialize_step b (c, adv), mat_step b c with
  | inl s, inl c' => s.1 = c'
  | inr s, inr c' => s.1 = c'
  | _, _ => False
  end.
Proof.
  unfold materialize_step, mat_step. repeat case_match; simplify_eq/=; try done.
  all: destruct (alpha_through c (decrease_instant c)); simplify_eq/=; done.
Qed.

Lemma materialize_Runs_mat b s r :
  Runs (materialize_step b) s r -> Runs (mat_step b) s.1 r.1.
Proof.
  induction 1 as [[c adv] r Hs|[c adv] s' r Hs _ IH]; simpl;
    pose proof (mat_step_eq b c adv) as He; rewrite Hs in He;
    destruct (mat_step b c) as [c'|c'] eqn:E; try done; subst.
  - by apply Runs_stop.
  - by eapply Runs_step.
Qed.

(** What one iteration does to the two instants. *)
Lemma mat_step_instants b c c' :
  state_ok c -> in_u64 b -> mat_step b c = inl c' ->
  (c' = increase_fire c (increase_instant c) /\
   (increase_instant c < b /\ increase_instant c <= decrease_instant c) /\
   increase_armed c = true /\
   increase_instant c' = saturating_add (increase_instant c) (increase_interval_ns (config c)) /\
   decrease_pending c' = decrease_pending c /\ decrease_instant c' = decrease_instant c) \/
  (decrease_instant c < b /\ decrease_instant c < increase_instant c /\
   decrease_pending c = true /\ decrease_pending c' = false /\
   decrease_instant c = next_decrease_ns c /\
   c' = decrease_check (alpha_through c (decrease_instant c)).2 (decrease_instant c) /\
   increase_instant c' = saturating_add (decrease_instant c) (increase_interval_ns (config c)) /\
   decrease_instant c' = u64_max).
Proof.
  intros Hc Hb. unfold mat_step. repeat case_match; intros [= <-].
  - left. assert (increase_armed c = true).
    { destruct (increase_armed c) eqn:E; [done|]. unfold increase_instant in *.
      rewrite E in *. mlia. }
    split_and!; try done; try lia.
    unfold increase_instant at 1. simpl. by rewrite H1.
  - right. assert (Hd : decrease_pending c = true).
    { destruct (decrease_pending c) eqn:E; [done|]. unfold decrease_instant in *.
      rewrite E in *. mlia. }
    destruct (alpha_through_only c (decrease_instant c)) as (a & n & p & ->).
    unfold decrease_instant at 4. rewrite Hd.
    split_and!; try done; lia.
Qed.

Lemma mat_step_ok b c c' :
  state_ok c -> armed c = true -> in_u64 b -> mat_step b c = inl c' ->
  state_ok c' /\ armed c' = true /\ config c' = config c.
Proof.
  intros Hc Harm Hb Hs.
  destruct (mat_step_instants b c c' Hc Hb Hs)
    as [(-> & ?)|(? & ? & ? & ? & Hd & -> & ?)].
  - split; [|done]. apply increase_fire_ok; auto with dcqcn.
  - destruct (alpha_through_only c (decrease_instant c)) as (a & n & p & Heq).
    split; [|by rewrite Heq].
    apply decrease_check_ok; [|by rewrite Heq|auto with dcqcn].
    apply alpha_through_ok; mlia || done.
Qed.

Definition mat_measure (b : Z) (c : DcqcnController) : Z :=
  Z.max 0 (b - increase_instant c) + (if decrease_pending c then b + 1 else 0).

Lemma mat_measure_step b c c' :
  state_ok c -> in_u64 b -> mat_step b c = inl c' ->
  0 <= mat_measure b c' < mat_measure b c.
Proof.
  intros Hc Hb Hs. pose proof (increase_instant_u64 c Hc). pose proof (decrease_instant_u64 c Hc).
  pose proof (st_cfg c Hc) as [].
  destruct (mat_step_instants b c c' Hc Hb Hs)
    as [(_ & ? & _ & Hi & Hd & _)|(? & ? & Hp & Hp' & ? & _ & Hi & Hd)];
    unfold mat_measure; rewrite Hi.
  - rewrite Hd. case_match; mlia.
  - rewrite Hp, Hp'. mlia.
Qed.

(** Two unarmed instants: an unarmed controller materialises nothing. *)
Lemma unarmed_instants c : state_ok c -> armed c = false ->
  increase_instant c = u64_max /\ decrease_instant c = u64_max.
Proof. intros Hc Ha. rewrite (st_pristine c Hc Ha). done. Qed.

Lemma mat_measure_fuel b c : state_ok c -> in_u64 b -> mat_measure b c < 2 ^ Z.of_nat 66.
Proof.
  intros Hc Hb. pose proof (increase_instant_u64 c Hc).
  change (2 ^ Z.of_nat 66) with 73786976294838206464.
  unfold mat_measure. case_match; mlia.
Qed.

(** [materialize] terminates within its fuel: it is the unbounded loop, it keeps
    the invariant, and afterwards no rate-changing instant precedes the bound. *)
Lemma materialize_spec c b :
  state_ok c -> in_u64 b ->
  Runs (materialize_step b) (c, advance_default) (materialize c b) /\
  state_ok (materialize c b).1 /\ b <= due_ns (materialize c b).1 /\
  armed (materialize c b).1 = armed c /\ config (materialize c b).1 = config c.
Proof.
  intros Hc Hb. unfold materialize.
  destruct (wloop_spec (materialize_step b)
    (fun s => state_ok s.1 /\ armed s.1 = armed c /\ config s.1 = config c)
    (fun s => mat_measure b s.1)
    (fun s => state_ok s.1 /\ b <= due_ns s.1 /\ armed s.1 = armed c /\ config s.1 = config c)
    66 (c, advance_default)) as (r & -> & Hruns & Hr); simpl; auto using mat_measure_fuel.
  - intros [c1 adv] s' (Hok & Ha & Hcfg) Hs. cbn [fst] in *.
    pose proof (mat_step_eq b c1 adv) as He. rewrite Hs in He.
    destruct (mat_step b c1) as [c'|] eqn:E; [|done]. rewrite He.
    split; [|by apply mat_measure_step].
    destruct (armed c1) eqn:Harm.
    + destruct (mat_step_ok b c1 c') as (? & ? & ?); try done. split_and!; congruence.
    + exfalso. destruct (unarmed_instants c1) as [Hi Hd]; [done..|].
      unfold mat_step in E. rewrite Hi, Hd in E.
      rewrite (proj2 (Z.leb_le b (Z.min u64_max u64_max))) in E by mlia. done.
  - intros [c1 adv] s' (Hok & Ha & Hcfg) Hs. cbn [fst] in *. unfold materialize_step in Hs.
    rewrite due_ns_min. repeat case_match; simplify_eq/=. split_and!; done || lia.
Qed.

Lemma materialize_mat c b :
  state_ok c -> in_u64 b -> Runs (mat_step b) c (materialize c b).1.
Proof.
  intros Hc Hb. destruct (materialize_spec c b Hc Hb) as [Hr _].
  by apply materialize_Runs_mat in Hr.
Qed.

Lemma materialize_idle c b : b <= due_ns c -> materialize c b = (c, advance_default).
Proof.
  intros Hb. rewrite due_ns_min in Hb. unfold materialize.
  assert (Hs : materialize_step b (c, advance_default) = inr (c, advance_default)).
  { unfold materialize_step. by rewrite (proj2 (Z.leb_le _ _) Hb). }
  assert (Hw : forall d, wloop (materialize_step b) d (c, advance_default)
                         = inr (c, advance_default)).
  { induction d as [|d IH]; simpl; [done|]. by rewrite IH. }
  by rewrite Hw.
Qed.

(** ** Lazy timers implement the eager machine *)

(** The end of [settle], after the loop. *)
Definition settle_end (b : Z) (c : DcqcnController) : DcqcnController :=
  let c := (alpha_before c b advance_default).1 in
  with_next_decrease c (first_decrease_at_or_after c b).

Lemma alpha_before_fst c b adv :
  (alpha_before c b adv).1 = (alpha_before c b advance_default).1.
Proof. unfold alpha_before. by repeat case_match. Qed.

Lemma settle_eq c b :
  armed c = true -> (settle c b).1 = settle_end b (materialize c b).1.
Proof.
  intros Ha. unfold settle, settle_end. rewrite Ha. simpl.
  destruct (materialize c b) as [c1 adv]. simpl.
  rewrite <- (alpha_before_fst c1 b adv). by destruct (alpha_before c1 b adv).
Qed.

Lemma alpha_before_eq c b :
  0 < b -> (alpha_before c b advance_default).1 = (alpha_through c (b - 1)).2.
Proof.
  intros Hb. unfold alpha_before, checked_sub.
  rewrite (proj2 (Z.leb_le 1 b)) by lia. by destruct (alpha_through c (b - 1)).
Qed.

(** The settled state, as a relation that ignores the fuel. *)
Definition settles (b : Z) (c r : DcqcnController) : Prop :=
  exists c1, Runs (mat_step b) c c1 /\ r = settle_end b c1.

Lemma settles_det b c r1 r2 : settles b c r1 -> settles b c r2 -> r1 = r2.
Proof.
  intros (c1 & H1 & ->) (c2 & H2 & ->). by rewrite (Runs_det _ _ _ _ H1 H2).
Qed.

Lemma settle_settles c b :
  state_ok c -> in_u64 b -> armed c = true -> settles b c (settle c b).1.
Proof.
  intros Hc Hb Ha. exists (materialize c b).1. split; [by apply materialize_mat|].
  by apply settle_eq.
Qed.

(** Two controllers that agree on the rates, and on alpha once it is brought
    forward to [t] or later. *)
Definition alpha_eqv (t : Z) (c c' : DcqcnController) : Prop :=
  alpha_only c c' /\
  forall u, t <= u < u64_max -> (alpha_through c u).2 = (alpha_through c' u).2.

Lemma increase_fire_alpha_through c i u :
  (alpha_through (increase_fire c i) u).2 = increase_fire (alpha_through c u).2 i.
Proof.
  unfold alpha_through, increase_fire.
  fields. destruct (_ || _); fields; reflexivity.
Qed.

Lemma alpha_only_increase_fire c c' i :
  alpha_only c c' -> alpha_only (increase_fire c i) (increase_fire c' i).
Proof. intros (a & n & p & ->). by exists a, n, p. Qed.

Lemma alpha_eqv_increase_fire t c c' i :
  alpha_eqv t c c' -> alpha_eqv t (increase_fire c i) (increase_fire c' i).
Proof.
  intros [Ho Ht]. split; [by apply alpha_only_increase_fire|].
  intros u Hu. rewrite !increase_fire_alpha_through. f_equal. auto.
Qed.

Lemma alpha_only_instants c c' : alpha_only c c' ->
  increase_instant c' = increase_instant c /\ decrease_instant c' = decrease_instant c.
Proof. by intros (a & n & p & ->). Qed.

Lemma alpha_eqv_runs t b c c' r :
  in_u64 b -> alpha_eqv t c c' -> t <= Z.min (increase_instant c) (decrease_instant c) ->
  state_ok c -> armed c = true -> Runs (mat_step b) c r ->
  exists r', Runs (mat_step b) c' r' /\ (r' = r \/ alpha_eqv t r r').
Proof.
  intros Hb Heq Ht Hc Ha Hr. revert c' Heq Ht Hc Ha.
  induction Hr as [c r Hs|c c1 r Hs Hr IH]; intros c' Heq Ht Hc Ha;
    destruct (alpha_only_instants c c') as [Hi Hd]; try apply Heq.
  - exists c'. unfold mat_step in Hs. repeat case_match; simplify_eq. split; [|by right].
    apply Runs_stop. unfold mat_step. by rewrite Hi, Hd, H.
  - destruct (mat_step_ok b c c1) as (Hc1 & Ha1 & _); try done.
    pose proof (st_cfg c Hc) as []. pose proof (increase_instant_u64 c Hc).
    destruct (mat_step_instants b c c1 Hc Hb Hs)
      as [(-> & Hlt & _ & Hi1 & _ & Hd1)|(Hlt & Hlt' & _ & _ & _ & -> & _)].
    + destruct (IH (increase_fire c' (increase_instant c))) as (r' & Hr' & Hor); try done.
      * by apply alpha_eqv_increase_fire.
      * rewrite Hi1, Hd1. mlia.
      * exists r'. split; [|done]. eapply Runs_step; [|exact Hr'].
        unfold mat_step. rewrite Hi, Hd. rewrite (proj2 (Z.leb_gt b _)) by lia.
        by rewrite (proj2 (Z.leb_le (increase_instant c) _)) by lia.
    + exists r. split; [|by left]. eapply Runs_step; [|exact Hr].
      unfold mat_step. rewrite Hi, Hd. rewrite (proj2 (Z.leb_gt b _)) by lia.
      rewrite (proj2 (Z.leb_gt (increase_instant c) _)) by lia.
      destruct Heq as [_ Heq]. rewrite <- Heq by mlia. done.
Qed.

Lemma alpha_tick_eqv c :
  state_ok c -> alpha_eqv (next_alpha_ns c) c (alpha_tick c).
Proof.
  intros []. split.
  - by do 3 eexists.
  - intros u Hu. symmetry. by apply alpha_through_tick.
Qed.

(** Settling commutes with an alpha tick. *)
Lemma settles_alpha_tick b c r :
  state_ok c -> armed c = true -> in_u64 b ->
  next_alpha_ns c < b ->
  next_alpha_ns c <= Z.min (increase_instant c) (decrease_instant c) ->
  settles b c r -> settles b (alpha_tick c) r.
Proof.
  intros Hc Ha Hb Hlt Hle (c1 & Hr & ->).
  destruct (alpha_eqv_runs (next_alpha_ns c) b c (alpha_tick c) c1)
    as (r' & Hr' & Hor); try done; [by apply alpha_tick_eqv|].
  exists r'. split; [done|]. destruct Hor as [->|[_ Heq]]; [done|].
  pose proof (st_next_alpha _ Hc). unfold settle_end.
  rewrite !alpha_before_eq by mlia. rewrite Heq by mlia. done.
Qed.

(** The decrease grid. *)
Lemma first_decrease_step c b :
  config_ok (config c) -> in_u64 b -> in_u64 (next_decrease_ns c) -> next_decrease_ns c < b ->
  first_decrease_at_or_after (with_next_decrease c
    (saturating_add (next_decrease_ns c) (decrease_interval_ns (config c)))) b
  = first_decrease_at_or_after c b.
Proof.
  intros [] Hb Hn Hlt. unfold first_decrease_at_or_after. cbn [with_next_decrease next_decrease_ns config].
  set (a := next_decrease_ns c) in *. set (d := decrease_interval_ns (config c)) in *.
  rewrite (proj2 (Z.leb_gt b a)) by lia. rewrite (proj2 (Z.eqb_neq a u64_max)) by mlia.
  cbn [orb]. rewrite (wsub_small b a) by mlia.
  pose proof (div_ceil_spec (b - a) d ltac:(lia)) as [Hup Hlo].
  destruct (decide (b <= a + d)) as [Hle|Hgt].
  - assert (div_ceil (b - a) d = 1) as -> by nia. rewrite Z.mul_1_l.
    rewrite (proj2 (orb_true_iff _ _)); [|destruct (decide (a + d <= u64_max)); [left|right]; mlia].
    unfold try_u64. case_match; simpl; mlia.
  - assert (Hs : saturating_add a d = a + d) by mlia. rewrite Hs.
    rewrite (proj2 (Z.leb_gt b (a + d))) by lia.
    rewrite (proj2 (Z.eqb_neq (a + d) u64_max)) by mlia. cbn [orb].
    rewrite wsub_small by mlia.
    pose proof (div_ceil_spec (b - (a + d)) d ltac:(lia)) as [Hup' Hlo'].
    assert (div_ceil (b - a) d = div_ceil (b - (a + d)) d + 1) as -> by nia.
    f_equal. f_equal. lia.
Qed.

Lemma alpha_through_with_next_decrease c d u :
  (alpha_through (with_next_decrease c d) u).2 = with_next_decrease (alpha_through c u).2 d.
Proof.
  unfold alpha_through, with_next_decrease. fields. destruct (_ || _); fields; reflexivity.
Qed.

Lemma alpha_before_with_next_decrease c d b :
  (alpha_before (with_next_decrease c d) b advance_default).1
  = with_next_decrease (alpha_before c b advance_default).1 d.
Proof.
  unfold alpha_before. destruct (checked_sub b 1) as [last|]; [|done].
  pose proof (alpha_through_with_next_decrease c d last) as He.
  destruct (alpha_through c last), (alpha_through (with_next_decrease c d) last). exact He.
Qed.

(** While no decrease is pending the grid's anchor plays no part in the loop. *)
Lemma runs_with_next_decrease b c r d :
  in_u64 b -> state_ok c -> armed c = true -> decrease_pending c = false ->
  Runs (mat_step b) c r ->
  Runs (mat_step b) (with_next_decrease c d) (with_next_decrease r d) /\
  next_decrease_ns r = next_decrease_ns c /\ config r = config c.
Proof.
  intros Hb Hc Ha Hp Hr. revert Hc Ha Hp.
  induction Hr as [c r Hs|c c1 r Hs Hr IH]; intros Hc Ha Hp.
  - assert (r = c) as -> by (unfold mat_step in Hs; repeat case_match; congruence).
    split; [|done]. apply Runs_stop. unfold mat_step in *.
    change (increase_instant (with_next_decrease c d)) with (increase_instant c).
    assert (decrease_instant (with_next_decrease c d) = decrease_instant c) as ->
      by (unfold decrease_instant; simpl; by rewrite Hp).
    repeat case_match; congruence.
  - destruct (mat_step_ok b c c1) as (Hc1 & Ha1 & Hcfg); try done.
    destruct (mat_step_instants b c c1 Hc Hb Hs)
      as [(-> & Hlt & _ & _ & Hp1 & _)|(_ & _ & ? & _)]; [|congruence].
    destruct IH as (Hr' & ? & ?); [done..|congruence|].
    split_and!; [|done..]. eapply Runs_step; [|exact Hr'].
    assert (Hd : decrease_instant (with_next_decrease c d) = decrease_instant c)
      by (unfold decrease_instant; simpl; by rewrite Hp).
    unfold mat_step. rewrite Hd.
    change (increase_instant (with_next_decrease c d)) with (increase_instant c).
    rewrite (proj2 (Z.leb_gt b _)) by lia.
    by rewrite (proj2 (Z.leb_le (increase_instant c) _)) by lia.
Qed.

Lemma alpha_before_only c b : alpha_only c (alpha_before c b advance_default).1.
Proof.
  unfold alpha_before. destruct (checked_sub b 1) as [last|].
  - pose proof (alpha_through_only c last). by destruct (alpha_through c last).
  - exists (alpha_q63 c), (next_alpha_ns c), (alpha_pending c). by destruct c.
Qed.

(** Settling commutes with an idle instant of the decrease grid. *)
Lemma settles_idle_decrease b c r :
  state_ok c -> armed c = true -> in_u64 b -> decrease_pending c = false ->
  next_decrease_ns c < b -> settles b c r -> settles b (decrease_tick c) r.
Proof.
  intros Hc Ha Hb Hp Hlt (c1 & Hr & ->). unfold decrease_tick. rewrite Hp.
  set (d := saturating_add _ _).
  destruct (runs_with_next_decrease b c c1 d) as (Hr' & Hn & Hcfg); try done.
  exists (with_next_decrease c1 d). split; [done|]. unfold settle_end.
  rewrite alpha_before_with_next_decrease.
  destruct (alpha_before_only c1 b) as (a & n & p & ->).
  set (c2 := mkDcqcn (config c1) _ _ _ _ _ _ _ _ _ _ _).
  assert (Hd : d = saturating_add (next_decrease_ns c2) (decrease_interval_ns (config c2))).
  { subst d c2. simpl. by rewrite Hn, Hcfg. }
  assert (first_decrease_at_or_after (with_next_decrease c2 d) b
          = first_decrease_at_or_after c2 b) as ->.
  { rewrite Hd. apply first_decrease_step; subst c2; simpl; rewrite ?Hn, ?Hcfg; try done;
      by apply st_cfg || by apply st_next_decrease. }
  done.
Qed.

Lemma decrease_instant_ge c : state_ok c -> next_decrease_ns c <= decrease_instant c.
Proof.
  intros Hc. pose proof (st_next_decrease c Hc). unfold decrease_instant. case_match; mlia.
Qed.

Lemma settles_mat_step b c c' r :
  mat_step b c = inl c' -> settles b c r -> settles b c' r.
Proof.
  intros Hs (c1 & Hr & ->). exists c1. split; [|done].
  inversion Hr as [? ? Hs'|? ? ? Hs' Hr']; subst; rewrite Hs in Hs'; by simplify_eq.
Qed.

(** Every step of the eager machine leaves the settled state unchanged. *)
Lemma settles_eager_step b c c' r :
  state_ok c -> armed c = true -> in_u64 b -> eager_step b c = inl c' ->
  settles b c r -> settles b c' r.
Proof.
  intros Hc Ha Hb Hs. pose proof (decrease_instant_ge c Hc). unfold eager_step in Hs.
  repeat case_match; simplify_eq.
  - apply settles_alpha_tick; try done; lia.
  - apply settles_mat_step. unfold mat_step. rewrite (proj2 (Z.leb_gt b _)) by lia.
    by rewrite (proj2 (Z.leb_le (increase_instant c) _)) by lia.
  - destruct (decrease_pending c) eqn:Hp; [|by apply settles_idle_decrease; try done; lia].
    assert (Hd : decrease_instant c = next_decrease_ns c)
      by (unfold decrease_instant; by rewrite Hp).
    apply settles_mat_step. unfold mat_step, decrease_tick. rewrite Hd, Hp.
    rewrite (proj2 (Z.leb_gt b _)) by lia.
    rewrite (proj2 (Z.leb_gt (increase_instant c) _)) by lia.
    by rewrite alpha_through_early by lia.
Qed.

Lemma with_next_decrease_same c : with_next_decrease c (next_decrease_ns c) = c.
Proof. by destruct c. Qed.

Lemma first_decrease_early c b :
  b <= next_decrease_ns c -> first_decrease_at_or_after c b = next_decrease_ns c.
Proof. intros. unfold first_decrease_at_or_after. by rewrite (proj2 (Z.leb_le b _)). Qed.

Lemma settles_eager_stop b c :
  state_ok c -> in_u64 b -> eager_step b c = inr c -> settles b c c.
Proof.
  intros Hc Hb Hs. pose proof (decrease_instant_ge c Hc). pose proof (st_next_alpha c Hc).
  unfold eager_step in Hs. repeat case_match; simplify_eq. exists c. split.
  - apply Runs_stop. unfold mat_step. by rewrite (proj2 (Z.leb_le b _)) by lia.
  - unfold settle_end. assert ((alpha_before c b advance_default).1 = c) as ->.
    { unfold alpha_before, checked_sub. destruct (1 <=? b); [|done].
      by rewrite alpha_through_early by lia. }
    by rewrite first_decrease_early, with_next_decrease_same by lia.
Qed.

Lemma eager_step_ok b c c' :
  state_ok c -> armed c = true -> in_u64 b -> eager_step b c = inl c' ->
  state_ok c' /\ armed c' = true /\ config c' = config c.
Proof.
  intros Hc Ha Hb Hs. unfold eager_step in Hs. repeat case_match; simplify_eq.
  - split; [by apply alpha_tick_ok|done].
  - split; [apply increase_fire_ok; auto with dcqcn|done].
  - split; [by apply decrease_tick_ok|]. unfold decrease_tick. by case_match.
Qed.

Definition eager_measure (b : Z) (c : DcqcnController) : Z :=
  Z.max 0 (b - next_alpha_ns c) + Z.max 0 (b - increase_instant c)
  + Z.max 0 (b - next_decrease_ns c) * (b + 2).

Lemma weight_drop a p q x y b :
  0 <= b -> 0 <= a -> 0 <= p -> 0 <= q <= b -> 0 <= y < x ->
  0 <= a + q + y * (b + 2) < a + p + x * (b + 2).
Proof. intros. nia. Qed.

Lemma eager_measure_step b c c' :
  state_ok c -> armed c = true -> in_u64 b -> eager_step b c = inl c' ->
  0 <= eager_measure b c' < eager_measure b c.
Proof.
  intros Hc Ha Hb Hs. pose proof (increase_instant_u64 c Hc). pose proof (st_cfg c Hc) as [].
  destruct (eager_step_ok b c c') as (Hc' & _); try done.
  pose proof (increase_instant_u64 c' Hc'). destruct Hc as [_ _ _ _ Hna Hnd Hni _ _].
  unfold eager_step in Hs. unfold eager_measure.
  repeat case_match; simplify_eq.
  - change (increase_instant (alpha_tick c)) with (increase_instant c). simpl. munfold. nia.
  - assert (increase_instant (increase_fire c (increase_instant c))
            = saturating_add (increase_instant c) (increase_interval_ns (config c))) as ->.
    { unfold increase_instant in *. simpl in *. destruct (increase_armed c) eqn:E; [done|]. mlia. }
    simpl. munfold. nia.
  - assert (next_decrease_ns (decrease_tick c)
            = saturating_add (next_decrease_ns c) (decrease_interval_ns (config c))) as ->
      by (unfold decrease_tick; by case_match).
    assert (next_alpha_ns (decrease_tick c) = next_alpha_ns c) as ->
      by (unfold decrease_tick; by case_match).
    apply weight_drop; mlia.
Qed.

Lemma eager_measure_fuel b c : state_ok c -> in_u64 b -> eager_measure b c < 2 ^ Z.of_nat 130.
Proof.
  intros Hc Hb. pose proof (increase_instant_u64 c Hc). destruct Hc as [_ _ _ _ Hna Hnd _ _ _].
  change (2 ^ Z.of_nat 130) with 1361129467683753853853498429727072845824.
  unfold eager_measure. munfold. nia.
Qed.

Lemma eager_runs_settles b c r :
  state_ok c -> armed c = true -> in_u64 b ->
  Runs (eager_step b) c r -> settles b c r /\ state_ok r /\ armed r = true.
Proof.
  intros Hc Ha Hb Hr. revert Hc Ha. induction Hr as [c r Hs|c c' r Hs Hr IH]; intros Hc Ha.
  - assert (r = c) as -> by (unfold eager_step in Hs; repeat case_match; congruence).
    split_and!; [by apply settles_eager_stop|done..].
  - destruct (eager_step_ok b c c') as (Hc' & Ha' & _); try done.
    destruct (IH Hc' Ha') as (Hset & ? & ?). split_and!; try done.
    pose proof (settle_settles c b Hc Hb Ha) as Hset'.
    rewrite (settles_det _ _ _ _ Hset (settles_eager_step b c c' _ Hc Ha Hb Hs Hset')). done.
Qed.

Lemma eager_to_runs c b :
  state_ok c -> in_u64 b -> armed c = true -> Runs (eager_step b) c (eager_to c b).
Proof.
  intros Hc Hb Ha. unfold eager_to. rewrite Ha.
  destruct (wloop_spec (eager_step b) (fun c => state_ok c /\ armed c = true)
    (eager_measure b) (fun _ => True) 130 c) as (r & -> & Hr & _); try done.
  - intros c1 c2 [Hc1 Ha1] Hs. split; [|by apply eager_measure_step].
    by destruct (eager_step_ok b c1 c2) as (? & ? & _).
  - by apply eager_measure_fuel.
Qed.

Lemma eager_to_settle c b : state_ok c -> in_u64 b -> eager_to c b = (settle c b).1.
Proof.
  intros Hc Hb. destruct (armed c) eqn:Ha.
  - destruct (eager_runs_settles b c (eager_to c b)) as (Hs & _); try done.
    { by apply eager_to_runs. }
    eapply settles_det; [exact Hs|by apply settle_settles].
  - unfold eager_to, settle. by rewrite Ha.
Qed.

Lemma eager_to_ok c b : state_ok c -> in_u64 b -> state_ok (eager_to c b).
Proof.
  intros Hc Hb. destruct (armed c) eqn:Ha; [|by unfold eager_to; rewrite Ha].
  by destruct (eager_runs_settles b c (eager_to c b)) as (_ & ? & _); try apply eager_to_runs.
Qed.

Lemma settle_armed c b : state_ok c -> in_u64 b -> armed (settle c b).1 = armed c.
Proof.
  intros Hc Hb. destruct (armed c) eqn:Ha; [|by unfold settle; rewrite Ha].
  rewrite <- eager_to_settle by done.
  by destruct (eager_runs_settles b c (eager_to c b)) as (_ & _ & ?); try apply eager_to_runs.
Qed.

(** A longer bound goes through the shorter one. *)
Lemma eager_step_le b b' c c' : b <= b' -> eager_step b c = inl c' -> eager_step b' c = inl c'.
Proof.
  intros Hle. unfold eager_step. repeat case_match; intros; simplify_eq; done || lia.
Qed.

Lemma mat_step_le b b' c c' : b <= b' -> mat_step b c = inl c' -> mat_step b' c = inl c'.
Proof.
  intros Hle. unfold mat_step. repeat case_match; intros; simplify_eq; done || lia.
Qed.

Lemma Runs_through {S} (f g : S -> S + S) s m r :
  (forall s s', f s = inl s' -> g s = inl s') -> (forall s s', f s = inr s' -> s' = s) ->
  Runs f s m -> Runs g m r -> Runs g s r.
Proof.
  intros Hfg Hstop Hm Hr. induction Hm as [s m Hs|s s' m Hs _ IH].
  - by rewrite <- (Hstop s m Hs).
  - eapply Runs_step; [by apply Hfg|auto].
Qed.

Lemma settle_after_settle c b b' :
  state_ok c -> in_u64 b -> in_u64 b' -> b <= b' ->
  (settle (settle c b).1 b').1 = (settle c b').1.
Proof.
  intros Hc Hb Hb' Hle. pose proof (settle_armed c b Hc Hb) as Harm.
  destruct (armed c) eqn:Ha; [|by unfold settle; rewrite Ha; simpl; rewrite Ha].
  assert (Hok : state_ok (settle c b).1) by (rewrite <- eager_to_settle by done; by apply eager_to_ok).
  rewrite <- !(eager_to_settle _ b') by done.
  apply (Runs_det (eager_step b') c); [|by apply eager_to_runs].
  apply (Runs_through (eager_step b) _ c (settle c b).1).
  - intros s s'. by apply eager_step_le.
  - intros s s'. unfold eager_step. repeat case_match; congruence.
  - rewrite <- eager_to_settle by done. by apply eager_to_runs.
  - by apply eager_to_runs.
Qed.

Lemma settle_after_materialize c b b' :
  state_ok c -> in_u64 b -> in_u64 b' -> b <= b' ->
  (settle (materialize c b).1 b').1 = (settle c b').1.
Proof.
  intros Hc Hb Hb' Hle. destruct (materialize_spec c b Hc Hb) as (_ & Hok & _ & Harm & _).
  destruct (armed c) eqn:Ha.
  - destruct (settle_settles (materialize c b).1 b') as (c1 & Hr & He); try done.
    eapply settles_det; [|by apply settle_settles]. exists c1. split; [|done].
    apply (Runs_through (mat_step b) _ c (materialize c b).1); [| |by apply materialize_mat|done].
    + intros s s'. by apply mat_step_le.
    + intros s s'. unfold mat_step. repeat case_match; congruence.
  - destruct (unarmed_instants c Hc Ha) as [Hi Hd].
    rewrite materialize_idle; [done|]. rewrite due_ns_min, Hi, Hd. mlia.
Qed.

(** A feedback to an armed controller marks the settled state. *)
Lemma on_feedback_settle c t :
  state_ok c -> in_u64 t -> armed c = true ->
  (on_feedback c t).1 = with_feedback (settle c t).1.
Proof.
  intros Hc Ht Ha. destruct (materialize_spec c t Hc Ht) as (_ & Hok & Hdue & _).
  rewrite settle_eq by done. unfold on_feedback, settle_end. rewrite Ha. simpl.
  destruct (materialize c t) as [c1 adv]. simpl in *.
  rewrite <- (alpha_before_fst c1 t adv). pose proof (alpha_before_only c1 t) as Ho.
  rewrite <- (alpha_before_fst c1 t adv) in Ho.
  destruct (alpha_before c1 t adv) as [c2 adv2]. simpl in *.
  destruct (decrease_pending c2) eqn:Hp; [|done].
  rewrite first_decrease_early, with_next_decrease_same; [done|].
  destruct Ho as (a & n & p & ->). simpl in *.
  rewrite due_ns_min in Hdue. unfold decrease_instant in Hdue. rewrite Hp in Hdue. lia.
Qed.

Lemma on_feedback_ok c t : state_ok c -> in_u64 t ->
  state_ok (on_feedback c t).1 /\ armed (on_feedback c t).1 = true.
Proof.
  intros Hc Ht. destruct (armed c) eqn:Ha.
  - rewrite on_feedback_settle by done. pose proof (settle_armed c t Hc Ht).
    split; [|simpl; congruence]. apply with_feedback_ok; [|congruence].
    rewrite <- eager_to_settle by done. by apply eager_to_ok.
  - unfold on_feedback. rewrite Ha. simpl. split; [|done]. destruct Hc. pose proof st_cfg0 as [].
    split; simpl; try done; unfold DCQCN_ALPHA_ONE; mlia.
Qed.

Lemma lazy_op_ok c op : state_ok c -> in_u64 (op_time op) -> state_ok (lazy_op c op).
Proof.
  destruct op; simpl; intros; [by apply on_feedback_ok|by apply materialize_spec].
Qed.

Lemma eager_op_ok c op : state_ok c -> in_u64 (op_time op) -> state_ok (eager_op c op).
Proof.
  destruct op as [t|t]; simpl; intros Hc Ht; [|by apply eager_to_ok].
  unfold eager_feedback. destruct (armed c) eqn:Ha; [|by apply on_feedback_ok].
  apply with_feedback_ok; [by apply eager_to_ok|].
  rewrite eager_to_settle by done. by rewrite settle_armed.
Qed.

(** The simulation between the lazy and the eager controller at time [t]. *)
Definition lazy_sim (t : Z) (l e : DcqcnController) : Prop :=
  state_ok l /\ state_ok e /\ armed l = armed e /\
  forall b, in_u64 b -> t <= b -> (settle l b).1 = (settle e b).1.

Lemma lazy_sim_step t l e op :
  in_u64 t -> in_u64 (op_time op) -> t <= op_time op -> lazy_sim t l e ->
  lazy_sim (op_time op) (lazy_op l op) (eager_op e op).
Proof.
  intros Ht Hop Hle (Hl & He & Ha & Hs).
  split_and!; [by apply lazy_op_ok|by apply eager_op_ok| |]; destruct op as [u|u]; simpl in *.
  - destruct (armed e) eqn:Hae.
    + unfold eager_feedback. rewrite Hae. destruct (on_feedback_ok l u) as [_ ->]; try done.
      simpl. rewrite eager_to_settle by done. by rewrite settle_armed.
    + unfold eager_feedback. rewrite Hae. destruct (on_feedback_ok l u) as [_ ->]; try done.
      by destruct (on_feedback_ok e u) as [_ ->].
  - rewrite eager_to_settle, settle_armed by done.
    by destruct (materialize_spec l u) as (_ & _ & _ & -> & _).
  - intros b Hb Hub. unfold eager_feedback. destruct (armed e) eqn:Hae.
    + rewrite on_feedback_settle by (done || congruence). rewrite eager_to_settle by done.
      by rewrite Hs by done.
    + assert (l = e) as ->; [|done]. specialize (Hs t Ht ltac:(lia)).
      unfold settle in Hs. by rewrite Ha, Hae in Hs.
  - intros b Hb Hub. rewrite eager_to_settle by done.
    rewrite settle_after_materialize, settle_after_settle by done. apply Hs; [done|lia].
Qed.

(** Times of a trace do not decrease and stay in [u64]. *)
Fixpoint trace_ok (t : Z) (ops : list DcqcnOp) : Prop :=
  match ops with
  | [] => True
  | op :: ops => t <= op_time op /\ in_u64 (op_time op) /\ trace_ok (op_time op) ops
  end.

Definition trace_end (t : Z) (ops : list DcqcnOp) : Z :=
  foldl (fun _ op => op_time op) t ops.

Lemma lazy_sim_run ops : forall t l e,
  in_u64 t -> trace_ok t ops -> lazy_sim t l e ->
  lazy_sim (trace_end t ops) (foldl lazy_op l ops) (foldl eager_op e ops).
Proof.
  induction ops as [|op ops IH]; intros t l e Ht Hok Hs; [done|].
  destruct Hok as (? & ? & ?). simpl. apply IH; try done. by apply (lazy_sim_step t).
Qed.

(** The invariant is what [validate_state] checks of a controller in an image. *)
Lemma state_ok_validate_state c :
  config_words (config c) -> state_ok c -> validate_state c = Ok tt.
Proof.
  intros Hw Hc. unfold validate_state.
  rewrite (proj2 (validate_ok (config c) Hw)) by (by apply st_cfg).
  pose proof (st_cfg c Hc) as []. destruct Hc.
  rewrite (proj2 (Z.ltb_ge DCQCN_ALPHA_ONE _)) by lia.
  rewrite Z.mod_small by lia. rewrite (proj2 (Z.ltb_ge _ (stage c))) by lia.
  destruct (armed c) eqn:Ha; [done|]. simpl. by rewrite bool_decide_true by auto.
Qed.

Lemma run_ok cfg ops t :
  config_ok cfg -> trace_ok t ops ->
  state_ok (foldl lazy_op (pristine cfg) ops) /\
  config (foldl lazy_op (pristine cfg) ops) = cfg.
Proof.
  intros Hcfg. pose proof (pristine_ok cfg Hcfg) as Hc.
  assert (Hcc : config (pristine cfg) = cfg) by done.
  revert Hc Hcc. generalize (pristine cfg) as c. revert t.
  induction ops as [|op ops IH]; intros t c Hc Hcc Hok; [done|].
  destruct Hok as (? & ? & ?). simpl. apply (IH (op_time op)); [by apply lazy_op_ok| |done].
  rewrite <- Hcc. destruct op as [u|u]; simpl in *; [|by apply materialize_spec].
  unfold on_feedback. destruct (armed c); [|done]. simpl.
  destruct (materialize_spec c u) as (_ & _ & _ & _ & Hcf); try done.
  destruct (materialize c u) as [c1 adv]. simpl in *.
  pose proof (alpha_before_only c1 u) as Ho. rewrite <- (alpha_before_fst c1 u adv) in Ho.
  destruct (alpha_before c1 u adv) as [c2 adv2]. destruct Ho as (? & ? & ? & Ho). simpl in Ho.
  subst c2. by case_match.
Qed.

Lemma settle_rate c b :
  armed c = true -> current_rate_bps (settle c b).1 = current_rate_bps (materialize c b).1.
Proof.
  intros Ha. rewrite settle_eq by done. unfold settle_end.
  generalize (materialize c b).1 as m. intros m.
  by destruct (alpha_before_only m b) as (a & n & p & ->).
Qed.

Lemma materialize_unarmed c b :
  state_ok c -> in_u64 b -> armed c = false -> materialize c b = (c, advance_default).
Proof.
  intros Hc Hb Ha. destruct (unarmed_instants c Hc Ha) as [Hi Hd].
  apply materialize_idle. rewrite due_ns_min, Hi, Hd. mlia.
Qed.

(** C6. The lazy timers implement the eager machine. For a validated
    configuration and any sequence of feedbacks and other transitions at
    nondecreasing times, freezing the lazy controller at a bound no earlier
    than the last transition gives exactly the state of the machine that
    applies every alpha tick, rate increase and decrease check at its own
    instant, and the rate the pacer reads after [materialize] is that
    machine's rate. *)
Theorem lazy_timers_refine_eager cfg ops b :
  config_words cfg -> validate cfg = Ok tt -> trace_ok 0 ops ->
  in_u64 b -> trace_end 0 ops <= b ->
  (settle (foldl lazy_op (pristine cfg) ops) b).1
    = eager_to (foldl eager_op (pristine cfg) ops) b /\
  current_rate_bps (materialize (foldl lazy_op (pristine cfg) ops) b).1
    = current_rate_bps (eager_to (foldl eager_op (pristine cfg) ops) b).
Proof.
  intros Hw Hv Htr Hb Hend. apply (validate_ok cfg Hw) in Hv.
  pose proof (pristine_ok cfg Hv) as Hp.
  destruct (lazy_sim_run ops 0 (pristine cfg) (pristine cfg)) as (Hl & He & Ha & Hs);
    [munfold; lia|done|by split_and!|].
  rewrite eager_to_settle by done. rewrite <- Hs by done. split; [done|].
  destruct (armed (foldl lazy_op (pristine cfg) ops)) eqn:Harm.
  - by rewrite settle_rate.
  - rewrite materialize_unarmed by done. unfold settle. by rewrite Harm.
Qed.

Definition example_config : DcqcnControllerConfig :=
  mkDcqcnConfig 100000000000 100000000 100000000000 40000000 400000000
    36028797018963968 1000 4000 300000 1 true.

Lemma example_config_words : config_words example_config.
Proof. unfold config_words, example_config. simpl. mlia. Qed.

Lemma lazy_timers_refine_eager_witness :
  let ops := [OpFeedback 500; OpAdvance 3000; OpFeedback 7000; OpAdvance 20001] in
  (settle (foldl lazy_op (pristine example_config) ops) 700000).1
    = eager_to (foldl eager_op (pristine example_config) ops) 700000.
Proof.
  refine (proj1 (lazy_timers_refine_eager example_config
    [OpFeedback 500; OpAdvance 3000; OpFeedback 7000; OpAdvance 20001] 700000
    example_config_words eq_refl _ _ _)).
  - simpl. munfold. lia.
  - munfold. lia.
  - simpl. lia.
Defined.

(** C20. [materialize] always returns: from a valid controller, its loop over the
    instants before any [u64] bound ends within the fuel, in the state the
    unbounded loop reaches, and then no rate-changing instant precedes the
    bound. *)
Theorem materialize_terminates c b :
  state_ok c -> in_u64 b ->
  Runs (materialize_step b) (c, advance_default) (materialize c b) /\
  b <= due_ns (materialize c b).1.
Proof. intros Hc Hb. by destruct (materialize_spec c b Hc Hb) as (? & _ & ? & _). Qed.

Lemma materialize_terminates_witness :
  let c := (on_feedback (pristine example_config) 500).1 in
  900000 <= due_ns (materialize c 900000).1.
Proof.
  refine (proj2 (materialize_terminates (on_feedback (pristine example_config) 500).1 900000 _ _)).
  - apply on_feedback_ok; [|munfold; lia]. apply pristine_ok.
    by apply (validate_ok example_config example_config_words).
  - munfold. lia.
Defined.

(** C21. No sequence of transitions takes a controller out of its domain: the
    current and the target rate stay between the documented floor and the
    maximum, so pacing always progresses, and the state passes the checks
    [validate_state] makes of a controller held in an image. *)
Theorem controller_invariant cfg ops :
  config_words cfg -> validate cfg = Ok tt -> trace_ok 0 ops ->
  let c := foldl lazy_op (pristine cfg) ops in
  0 < dcqcn_rate_floor_bps (minimum_rate_bps cfg) <= current_rate_bps c /\
  current_rate_bps c <= maximum_rate_bps cfg /\
  dcqcn_rate_floor_bps (minimum_rate_bps cfg) <= target_rate_bps c <= maximum_rate_bps cfg /\
  validate_state c = Ok tt.
Proof.
  intros Hw Hv Htr c. apply (validate_ok cfg Hw) in Hv.
  destruct (run_ok cfg ops 0 Hv Htr) as [Hc Hcfg]. fold c in Hc, Hcfg.
  pose proof (state_ok_validate_state c) as Hvs. rewrite Hcfg in Hvs.
  destruct Hv. rewrite rate_floor_eq by lia. pose proof (rate_floor_bounds _ cfg_min0).
  pose proof (st_current c Hc). pose proof (st_target_rate c Hc). rewrite Hcfg in *.
  split_and!; try lia. auto.
Qed.

Lemma controller_invariant_witness :
  let ops := [OpFeedback 500; OpAdvance 5000; OpFeedback 7000] in
  validate_state (foldl lazy_op (pristine example_config) ops) = Ok tt.
Proof.
  refine (proj2 (proj2 (proj2 (controller_invariant example_config
    [OpFeedback 500; OpAdvance 5000; OpFeedback 7000] example_config_words eq_refl _)))).
  simpl. munfold. lia.
Defined.

(** C22. The fixed-point steps compute the real ones, rounded once: a cut sets
    the rate to [floor(R * (1 - alpha / 2))], floored at the minimum, and a
    batch of alpha ticks starts with
    [floor((1 - g) * alpha + g)] when a feedback is pending, [floor((1 - g) *
    alpha)] otherwise, and goes on with the latter. *)
Theorem cut_and_alpha_exact c t :
  state_ok c ->
  current_rate_bps (decrease_check c t)
    = Z.max (current_rate_bps c * (2 * DCQCN_ALPHA_ONE - alpha_q63 c) / (2 * DCQCN_ALPHA_ONE))
        (minimum_rate_bps (config c)) /\
  (next_alpha_ns c <= t < u64_max ->
   let s := DCQCN_ALPHA_ONE in
   let g := g_q63 (config c) in
   let n := (t - next_alpha_ns c) / alpha_interval_ns (config c) in
   (alpha_through c t).1 = n + 1 /\
   alpha_q63 (alpha_through c t).2
     = Nat.iter (Z.to_nat n) (fun a => (s - g) * a / s)
         (((s - g) * alpha_q63 c + (if alpha_pending c then g * s else 0)) / s)).
Proof.
  intros Hc. pose proof (st_rate_u64 c Hc) as [Hr _]. destruct Hc. pose proof st_cfg0 as [].
  split; [simpl; by rewrite cut_rate_eq by done|].
  intros Ht s g n. rewrite alpha_through_due by done. split; [done|]. fields.
  assert (Hfirst : tick_alpha c
     = ((s - g) * alpha_q63 c + (if alpha_pending c then g * s else 0)) / s).
  { unfold tick_alpha. destruct (mul_shr63_eq (s - g) (alpha_q63 c)) as [Hm ?]; [lia|lia|].
    fold s g. subst s g. unfold DCQCN_ALPHA_ONE in *. rewrite wsub_small by lia. rewrite Hm in *.
    case_match; [rewrite wadd_small by lia|]; [by rewrite Z.div_add by lia|by rewrite Z.add_0_r]. }
  rewrite <- Hfirst. pose proof (tick_alpha_range c st_cfg0 st_alpha0) as Hrange.
  assert (Hg : 0 <= s - g <= DCQCN_ALPHA_ONE) by lia. fold n g s.
  generalize (Z.to_nat n) as k. induction k as [|k IH]; [done|]. simpl. rewrite <- IH.
  by destruct (mul_shr63_eq (s - g) _ Hg (iter_shr63_range _ _ k Hg Hrange)) as [-> _].
Qed.

Lemma cut_and_alpha_exact_witness :
  let c := (on_feedback (pristine example_config) 500).1 in
  (alpha_through c 4501).1 = 4 /\ current_rate_bps (decrease_check c 4501) = 50000000000.
Proof.
  intros c.
  destruct (cut_and_alpha_exact c 4501) as [Hcut Halpha].
  - apply on_feedback_ok; [|munfold; lia]. apply pristine_ok.
    by apply (validate_ok example_config example_config_words).
  - destruct Halpha as [Hn _]; [by vm_compute|]. rewrite Hn, Hcut. by vm_compute.
Defined.

(** The inert controller of a queue pair without congestion control: for a
    rate of at least 3 bit/s it passes the checks of [new], has no due instant,
    and neither [materialize] nor [settle] ever changes it. *)
Theorem fixed_rate_inert rate b :
  3 <= rate <= u64_max -> in_u64 b ->
  dcqcn_new (config (fixed_rate rate)) = Ok (fixed_rate rate) /\
  validate_state (fixed_rate rate) = Ok tt /\
  due_ns (fixed_rate rate) = u64_max /\
  materialize (fixed_rate rate) b = (fixed_rate rate, advance_default) /\
  settle (fixed_rate rate) b = (fixed_rate rate, advance_default) /\
  current_rate_bps (fixed_rate rate) = rate.
Proof.
  intros Hr Hb.
  assert (Hw : config_words (config (fixed_rate rate))) by (unfold config_words; simpl; mlia).
  assert (Hok : config_ok (config (fixed_rate rate)))
    by (split; simpl; unfold DCQCN_ALPHA_ONE; mlia).
  assert (Hst : state_ok (fixed_rate rate)) by exact (pristine_ok _ Hok).
  split_and!; try done.
  - unfold dcqcn_new. by rewrite (proj2 (validate_ok _ Hw) Hok).
  - by apply state_ok_validate_state.
  - by apply materialize_unarmed.
Qed.

Lemma fixed_rate_inert_witness :
  validate_state (fixed_rate 400000000000) = Ok tt.
Proof. refine (proj1 (proj2 (fixed_rate_inert 400000000000 1000000 _ _))); munfold; lia. Defined.
