(* ===== verification/Tcp.v ===== *)
(** * TCP congestion control (executor/src/tcp.rs)

    The fixed-width Reno and CUBIC controllers, the integer CUBIC curve with its
    exact cube root, and the RFC 6298 retransmission-timeout estimator. *)

From S2P Require Import Prelude.

Definition CUBIC_WINDOW_SCALE : Z := 1000000000.
Definition CUBIC_MAX_SEGMENTS : Z := 2000000.
Definition CUBIC_MAX_WINDOW_SCALED : Z := CUBIC_MAX_SEGMENTS * CUBIC_WINDOW_SCALE.
Definition INITIAL_SSTHRESH_BYTES : Z := 65535.
Definition MIN_RTO_NS : Z := 1000000000.
Definition MAX_RTO_NS : Z := 60000000000.
Definition RTO_CLOCK_GRANULARITY_NS : Z := 1000000.

Inductive TcpPhase := SlowStart | CongestionAvoidance | FastRecovery.

#[export] Instance TcpPhase_eq_dec : EqDecision TcpPhase.
Proof. solve_decision. Defined.

(** ** Fixed-point helpers *)

Definition nonzero_mss (mss_bytes : Z) : Z := if mss_bytes =? 0 then 1 else mss_bytes.

Definition bytes_to_scaled_const (bytes mss_bytes : Z) : Z :=
  let product := bytes * CUBIC_WINDOW_SCALE in
  let result := product / nonzero_mss mss_bytes in
  if u64_max <? result then u64_max else result.

Definition scaled_to_bytes_const (scaled mss_bytes : Z) : Z :=
  let product := scaled * nonzero_mss mss_bytes in
  let result := product / CUBIC_WINDOW_SCALE in
  if u64_max <? result then u64_max else result.

Definition bytes_to_scaled (bytes mss_bytes : Z) : Z :=
  Z.min (bytes_to_scaled_const bytes mss_bytes) CUBIC_MAX_WINDOW_SCALED.

Definition mul_ratio (value numerator denominator : Z) : Z :=
  Z.min (value * numerator / denominator) u64_max.

(** The one-word digits of a [BigUint], or [u64::MAX] when there are more. *)
Definition big_to_u64_saturating (value : Z) : Z := Z.min value u64_max.

Definition cube (value : Z) : Z := value * value * value.

(** The doubling loop of [floor_cube_root]. *)
Definition double_step (value : Z) (high : Z) : Z + Z :=
  if (cube high <=? value) && (high <=? u64_max / 2)
  then inl (high *w 2) else inr high.

(** The bisection loop of [floor_cube_root]. *)
Definition bisect_step (value : Z) (s : Z * Z) : (Z * Z) + Z :=
  let '(low, high) := s in
  if low +w 1 <? high then
    let middle := low +w (high -w low) / 2 in
    if cube middle <=? value then inl (middle, high) else inl (low, middle)
  else inr low.

Definition floor_cube_root (value : Z) : Z :=
  if value =? 0 then 0
  else
    let high := loop_result 0 (wloop (double_step value) 7 1) in
    if cube high <=? value then u64_max
    else loop_result 0 (wloop (bisect_step value) 64 (0, high)).

Definition cubic_k_ns (w_max_scaled : Z) : Z :=
  if w_max_scaled =? 0 then 0
  else floor_cube_root (w_max_scaled * 3 * 1000000000000000000 / 4).

Definition cubic_window_scaled (w_max_scaled k_ns elapsed_ns : Z) : Z :=
  let negative := elapsed_ns <? k_ns in
  let distance := abs_diff elapsed_ns k_ns in
  let magnitude := big_to_u64_saturating (distance ^ 3 * 2 / 5000000000000000000) in
  if negative
  then Z.max (saturating_sub w_max_scaled magnitude) CUBIC_WINDOW_SCALE
  else clamp (saturating_add w_max_scaled magnitude) CUBIC_WINDOW_SCALE CUBIC_MAX_WINDOW_SCALED.

Definition tcp_friendly_window_scaled (w_max_scaled elapsed_ns rtt_ns : Z) : Z :=
  let base := mul_ratio w_max_scaled 7 10 in
  let growth := CUBIC_WINDOW_SCALE * 9 * elapsed_ns / (17 * Z.max rtt_ns 1) in
  clamp (saturating_add base (big_to_u64_saturating growth))
    CUBIC_WINDOW_SCALE CUBIC_MAX_WINDOW_SCALED.

Definition cubic_ack_step (cwnd_scaled target_scaled : Z) : Z :=
  if cwnd_scaled <=? target_scaled then
    let increment :=
      Z.min ((target_scaled -w cwnd_scaled) * CUBIC_WINDOW_SCALE
             / Z.max cwnd_scaled CUBIC_WINDOW_SCALE) u64_max in
    saturating_add cwnd_scaled increment
  else
    let decrement :=
      Z.min ((cwnd_scaled -w target_scaled) * CUBIC_WINDOW_SCALE
             / Z.max cwnd_scaled CUBIC_WINDOW_SCALE) u64_max in
    saturating_sub cwnd_scaled decrement.

(** [update_rto_ns]: the new estimators and the timeout. *)
Definition update_rto_ns (srtt_ns rtt_var_ns sample_ns : Z) : Z * Z * Z :=
  let sample_ns := Z.max sample_ns 1 in
  let '(srtt_ns, rtt_var_ns) :=
    if srtt_ns =? 0 then (sample_ns, sample_ns / 2)
    else
      let deviation := abs_diff srtt_ns sample_ns in
      (Z.min ((srtt_ns * 7 + sample_ns) / 8) u64_max,
       Z.min ((rtt_var_ns * 3 + deviation) / 4) u64_max) in
  (srtt_ns, rtt_var_ns,
   clamp (saturating_add srtt_ns (Z.max (saturating_mul rtt_var_ns 4) RTO_CLOCK_GRANULARITY_NS))
     MIN_RTO_NS MAX_RTO_NS).

(** ** Reno *)

Module Reno.

Record TcpReno := mk {
  mss_bytes : Z;
  cwnd_bytes : Z;
  ssthresh_bytes : Z;
  phase : TcpPhase;
  duplicate_acks : Z;
  recovery_high_sequence : Z;
  ca_credit : Z;
}.

(** The congestion-avoidance loop over (credit, window). *)
Definition credit_step (mss : Z) (s : Z * Z) : (Z * Z) + (Z * Z) :=
  let '(credit, cwnd) := s in
  if Z.max cwnd 1 <=? credit
  then inl (credit -w Z.max cwnd 1, saturating_add cwnd mss)
  else inr (credit, cwnd).

Definition credit_loop (mss credit cwnd : Z) : Z * Z :=
  loop_result (credit, cwnd) (wloop (credit_step mss) 64 (credit, cwnd)).

Definition on_recovery_exit (s : TcpReno) : TcpReno :=
  mk (mss_bytes s) (Z.max (ssthresh_bytes s) (mss_bytes s)) (ssthresh_bytes s)
    CongestionAvoidance 0 0 0.

Definition on_new_ack (s : TcpReno) (acknowledged_bytes acknowledgment : Z) : TcpReno :=
  let s := mk (mss_bytes s) (cwnd_bytes s) (ssthresh_bytes s) (phase s) 0
             (recovery_high_sequence s) (ca_credit s) in
  match phase s with
  | SlowStart =>
      let cwnd := saturating_add (cwnd_bytes s) (Z.min (mss_bytes s) acknowledged_bytes) in
      if ssthresh_bytes s <=? cwnd
      then mk (mss_bytes s) (ssthresh_bytes s) (ssthresh_bytes s) CongestionAvoidance
             (duplicate_acks s) (recovery_high_sequence s) 0
      else mk (mss_bytes s) cwnd (ssthresh_bytes s) SlowStart
             (duplicate_acks s) (recovery_high_sequence s) (ca_credit s)
  | CongestionAvoidance =>
      let '(credit, cwnd) :=
        credit_loop (mss_bytes s) (saturating_add (ca_credit s) acknowledged_bytes)
          (cwnd_bytes s) in
      mk (mss_bytes s) cwnd (ssthresh_bytes s) CongestionAvoidance
        (duplicate_acks s) (recovery_high_sequence s) credit
  | FastRecovery =>
      if negb (recovery_high_sequence s =? 0) && (recovery_high_sequence s <=? acknowledgment)
      then on_recovery_exit s
      else mk (mss_bytes s) (saturating_add (ssthresh_bytes s) (mss_bytes s)) (ssthresh_bytes s)
             FastRecovery (duplicate_acks s) (recovery_high_sequence s) (ca_credit s)
  end.

Definition on_fast_retransmit (s : TcpReno) (flight_size_bytes : Z) : TcpReno :=
  let minimum := saturating_mul (mss_bytes s) 2 in
  let ssthresh := Z.max (flight_size_bytes / 2) minimum in
  mk (mss_bytes s) (saturating_add ssthresh (saturating_mul (mss_bytes s) 3)) ssthresh
    FastRecovery (duplicate_acks s) (recovery_high_sequence s) 0.

Definition on_more_duplicate_ack (s : TcpReno) : TcpReno :=
  match phase s with
  | FastRecovery =>
      mk (mss_bytes s) (saturating_add (cwnd_bytes s) (mss_bytes s)) (ssthresh_bytes s)
        FastRecovery (duplicate_acks s) (recovery_high_sequence s) (ca_credit s)
  | _ => s
  end.

Definition on_timeout (s : TcpReno) (flight_size_bytes : Z) : TcpReno :=
  let minimum := saturating_mul (mss_bytes s) 2 in
  mk (mss_bytes s) (mss_bytes s) (Z.max (flight_size_bytes / 2) minimum) SlowStart 0 0 0.

Definition with_duplicate_acks (s : TcpReno) (n : Z) : TcpReno :=
  mk (mss_bytes s) (cwnd_bytes s) (ssthresh_bytes s) (phase s) n
    (recovery_high_sequence s) (ca_credit s).

Definition set_recovery_high_sequence (s : TcpReno) (sequence : Z) : TcpReno :=
  mk (mss_bytes s) (cwnd_bytes s) (ssthresh_bytes s) (phase s) (duplicate_acks s)
    sequence (ca_credit s).

End Reno.

(** ** CUBIC *)

Module Cubic.

Record TcpCubic := mk {
  mss_bytes : Z;
  cwnd_scaled : Z;
  ssthresh_scaled : Z;
  phase : TcpPhase;
  duplicate_acks : Z;
  recovery_high_sequence : Z;
  w_max_scaled : Z;
  w_last_max_scaled : Z;
  epoch_start_ns : Z;
  srtt_ns : Z;
  k_ns : Z;
}.

Definition update_srtt (s : TcpCubic) (sample_ns : Z) : TcpCubic :=
  let sample_ns := Z.max sample_ns 1 in
  let srtt :=
    if srtt_ns s =? 0 then sample_ns
    else Z.min ((srtt_ns s * 7 + sample_ns) / 8) u64_max in
  mk (mss_bytes s) (cwnd_scaled s) (ssthresh_scaled s) (phase s) (duplicate_acks s)
    (recovery_high_sequence s) (w_max_scaled s) (w_last_max_scaled s) (epoch_start_ns s)
    srtt (k_ns s).

Definition ensure_epoch (s : TcpCubic) (now_ns : Z) : TcpCubic :=
  if epoch_start_ns s =? u64_max then
    let '(w_max, k) :=
      if w_max_scaled s =? 0 then (cwnd_scaled s, 0)
      else (w_max_scaled s, cubic_k_ns (w_max_scaled s)) in
    mk (mss_bytes s) (cwnd_scaled s) (ssthresh_scaled s) (phase s) (duplicate_acks s)
      (recovery_high_sequence s) w_max (w_last_max_scaled s) now_ns (srtt_ns s) k
  else s.

Definition with_cwnd (s : TcpCubic) (cwnd : Z) : TcpCubic :=
  mk (mss_bytes s) cwnd (ssthresh_scaled s) (phase s) (duplicate_acks s)
    (recovery_high_sequence s) (w_max_scaled s) (w_last_max_scaled s) (epoch_start_ns s)
    (srtt_ns s) (k_ns s).

Definition update_cubic_window (s : TcpCubic) (now_ns : Z) : TcpCubic :=
  let s := ensure_epoch s now_ns in
  let elapsed_ns := saturating_sub now_ns (epoch_start_ns s) in
  let cubic_now := cubic_window_scaled (w_max_scaled s) (k_ns s) elapsed_ns in
  let friendly :=
    tcp_friendly_window_scaled (w_max_scaled s) elapsed_ns (Z.max (srtt_ns s) 1) in
  if cubic_now <? friendly then with_cwnd s (Z.min friendly CUBIC_MAX_WINDOW_SCALED)
  else
    let target :=
      cubic_window_scaled (w_max_scaled s) (k_ns s)
        (saturating_add elapsed_ns (Z.max (srtt_ns s) 1)) in
    with_cwnd s (clamp (cubic_ack_step (cwnd_scaled s) target)
                   CUBIC_WINDOW_SCALE CUBIC_MAX_WINDOW_SCALED).

Definition on_recovery_exit (s : TcpCubic) : TcpCubic :=
  mk (mss_bytes s) (clamp (ssthresh_scaled s) CUBIC_WINDOW_SCALE CUBIC_MAX_WINDOW_SCALED)
    (ssthresh_scaled s) CongestionAvoidance 0 0 (w_max_scaled s) (w_last_max_scaled s)
    (epoch_start_ns s) (srtt_ns s) (k_ns s).

Definition with_duplicate_acks (s : TcpCubic) (n : Z) : TcpCubic :=
  mk (mss_bytes s) (cwnd_scaled s) (ssthresh_scaled s) (phase s) n
    (recovery_high_sequence s) (w_max_scaled s) (w_last_max_scaled s) (epoch_start_ns s)
    (srtt_ns s) (k_ns s).

Definition set_recovery_high_sequence (s : TcpCubic) (sequence : Z) : TcpCubic :=
  mk (mss_bytes s) (cwnd_scaled s) (ssthresh_scaled s) (phase s) (duplicate_acks s)
    sequence (w_max_scaled s) (w_last_max_scaled s) (epoch_start_ns s)
    (srtt_ns s) (k_ns s).

Definition slow_start_ack (s : TcpCubic) (acknowledged_bytes now_ns : Z) : TcpCubic :=
  let acknowledged_segments := div_ceil acknowledged_bytes (mss_bytes s) in
  let cwnd :=
    Z.min (saturating_add (cwnd_scaled s)
             (saturating_mul acknowledged_segments CUBIC_WINDOW_SCALE))
      CUBIC_MAX_WINDOW_SCALED in
  if ssthresh_scaled s <=? cwnd then
    let '(w_max, k) :=
      if w_max_scaled s =? 0 then (cwnd, 0) else (w_max_scaled s, k_ns s) in
    mk (mss_bytes s) cwnd (ssthresh_scaled s) CongestionAvoidance (duplicate_acks s)
      (recovery_high_sequence s) w_max (w_last_max_scaled s) now_ns (srtt_ns s) k
  else with_cwnd s cwnd.

Definition on_new_ack (s : TcpCubic)
    (acknowledged_bytes now_ns rtt_sample_ns flight_size_bytes acknowledgment : Z) : TcpCubic :=
  let s := update_srtt (with_duplicate_acks s 0) rtt_sample_ns in
  match phase s with
  | SlowStart => slow_start_ack s acknowledged_bytes now_ns
  | CongestionAvoidance => update_cubic_window s now_ns
  | FastRecovery =>
      if negb (recovery_high_sequence s =? 0) && (recovery_high_sequence s <=? acknowledgment)
      then on_recovery_exit s else s
  end.

Definition on_fast_retransmit (s : TcpCubic) (flight_size_bytes now_ns : Z) : TcpCubic :=
  let previous_max := w_last_max_scaled s in
  let current := cwnd_scaled s in
  let w_max :=
    if (0 <? previous_max) && (current <? previous_max)
    then mul_ratio current 17 20 else current in
  let flight_scaled := bytes_to_scaled flight_size_bytes (mss_bytes s) in
  let reduced := Z.max (mul_ratio flight_scaled 7 10) CUBIC_WINDOW_SCALE in
  mk (mss_bytes s) (Z.min reduced CUBIC_MAX_WINDOW_SCALED)
    (Z.max reduced (2 * CUBIC_WINDOW_SCALE)) FastRecovery (duplicate_acks s)
    (recovery_high_sequence s) w_max current now_ns (srtt_ns s) (cubic_k_ns w_max).

Definition on_more_duplicate_ack (s : TcpCubic) : TcpCubic :=
  match phase s with
  | FastRecovery =>
      with_cwnd s (Z.min (saturating_add (cwnd_scaled s) CUBIC_WINDOW_SCALE)
                     CUBIC_MAX_WINDOW_SCALED)
  | _ => s
  end.

Definition on_timeout (s : TcpCubic) (flight_size_bytes : Z) : TcpCubic :=
  let flight_scaled := bytes_to_scaled flight_size_bytes (mss_bytes s) in
  mk (mss_bytes s) CUBIC_WINDOW_SCALE
    (clamp (mul_ratio flight_scaled 7 10) (2 * CUBIC_WINDOW_SCALE) CUBIC_MAX_WINDOW_SCALED)
    SlowStart 0 0 0 0 u64_max (srtt_ns s) 0.

End Cubic.

(** ** The controller embedded in an image *)

Inductive TcpCongestionControl :=
| CcReno (state : Reno.TcpReno)
| CcCubic (state : Cubic.TcpCubic).

Definition reno (mss_bytes : Z) : TcpCongestionControl :=
  let mss_bytes := nonzero_mss mss_bytes in
  CcReno (Reno.mk mss_bytes (saturating_mul mss_bytes 2) INITIAL_SSTHRESH_BYTES SlowStart 0 0 0).

Definition cubic (mss_bytes : Z) : TcpCongestionControl :=
  let mss_bytes := nonzero_mss mss_bytes in
  let threshold := bytes_to_scaled_const INITIAL_SSTHRESH_BYTES mss_bytes in
  CcCubic (Cubic.mk mss_bytes CUBIC_WINDOW_SCALE threshold SlowStart 0 0 0 0 u64_max 0 0).

Definition cc_phase (c : TcpCongestionControl) : TcpPhase :=
  match c with CcReno s => Reno.phase s | CcCubic s => Cubic.phase s end.

(** [TcpCongestionControl::cwnd_bytes]; the controller's own MSS is authoritative. *)
Definition cc_cwnd_bytes (c : TcpCongestionControl) (mss_bytes : Z) : Z :=
  match c with
  | CcReno s => Reno.cwnd_bytes s
  | CcCubic s => scaled_to_bytes_const (Cubic.cwnd_scaled s) (Cubic.mss_bytes s)
  end.

Definition cc_ssthresh_bytes (c : TcpCongestionControl) : Z :=
  match c with
  | CcReno s => Reno.ssthresh_bytes s
  | CcCubic s => scaled_to_bytes_const (Cubic.ssthresh_scaled s) (Cubic.mss_bytes s)
  end.

Definition cc_duplicate_acks (c : TcpCongestionControl) : Z :=
  match c with CcReno s => Reno.duplicate_acks s | CcCubic s => Cubic.duplicate_acks s end.

Definition cc_recovery_high_sequence (c : TcpCongestionControl) : Z :=
  match c with
  | CcReno s => Reno.recovery_high_sequence s
  | CcCubic s => Cubic.recovery_high_sequence s
  end.

Definition cc_set_recovery_high_sequence (c : TcpCongestionControl) (sequence : Z)
  : TcpCongestionControl :=
  match c with
  | CcReno s => CcReno (Reno.set_recovery_high_sequence s sequence)
  | CcCubic s => CcCubic (Cubic.set_recovery_high_sequence s sequence)
  end.

Definition cc_on_new_ack (c : TcpCongestionControl)
    (acknowledged_bytes now_ns rtt_sample_ns flight_size_bytes acknowledgment : Z)
  : TcpCongestionControl :=
  match c with
  | CcReno s => CcReno (Reno.on_new_ack s acknowledged_bytes acknowledgment)
  | CcCubic s =>
      CcCubic (Cubic.on_new_ack s acknowledged_bytes now_ns rtt_sample_ns
                 flight_size_bytes acknowledgment)
  end.

Definition cc_on_fast_retransmit (c : TcpCongestionControl) (flight_size_bytes now_ns : Z)
  : TcpCongestionControl :=
  match c with
  | CcReno s => CcReno (Reno.on_fast_retransmit s flight_size_bytes)
  | CcCubic s => CcCubic (Cubic.on_fast_retransmit s flight_size_bytes now_ns)
  end.

Definition cc_on_more_duplicate_ack (c : TcpCongestionControl) : TcpCongestionControl :=
  match c with
  | CcReno s => CcReno (Reno.on_more_duplicate_ack s)
  | CcCubic s => CcCubic (Cubic.on_more_duplicate_ack s)
  end.

(** [TcpCongestionControl::on_duplicate_ack]: the new state and the
    fast-retransmit signal. *)
Definition cc_on_duplicate_ack (c : TcpCongestionControl) (flight_size_bytes now_ns : Z)
  : TcpCongestionControl * bool :=
  let c :=
    match c with
    | CcReno s => CcReno (Reno.with_duplicate_acks s (saturating_add (Reno.duplicate_acks s) 1))
    | CcCubic s =>
        CcCubic (Cubic.with_duplicate_acks s (saturating_add (Cubic.duplicate_acks s) 1))
    end in
  let duplicate_acks := cc_duplicate_acks c in
  if duplicate_acks =? 3 then (cc_on_fast_retransmit c flight_size_bytes now_ns, true)
  else if 3 <? duplicate_acks then (cc_on_more_duplicate_ack c, false)
  else (c, false).

Definition cc_on_recovery_exit (c : TcpCongestionControl) : TcpCongestionControl :=
  match c with
  | CcReno s => CcReno (Reno.on_recovery_exit s)
  | CcCubic s => CcCubic (Cubic.on_recovery_exit s)
  end.

Definition cc_on_timeout (c : TcpCongestionControl) (flight_size_bytes : Z)
  : TcpCongestionControl :=
  match c with
  | CcReno s => CcReno (Reno.on_timeout s flight_size_bytes)
  | CcCubic s => CcCubic (Cubic.on_timeout s flight_size_bytes)
  end.

(** ** The cube root *)

Lemma double_loop_spec v :
  0 < v -> exists high,
    wloop (double_step v) 7 1 = inr high /\
    1 <= high <= 9223372036854775808 /\ (v < cube high \/ high = 9223372036854775808).
Proof.
  intros Hv.
  destruct (wloop_spec (double_step v)
    (fun h => exists k, 0 <= k <= 63 /\ h = 2 ^ k)
    (fun h => 64 - Z.log2 h)
    (fun h => 1 <= h <= 9223372036854775808 /\ (v < cube h \/ h = 9223372036854775808)) 7 1)
    as (h & Hw & _ & Hh); [| | |by vm_compute|by exists h].
  - intros h h' (k & Hk & ->). unfold double_step. case_match eqn:E; [|done]. intros [= <-].
    apply andb_true_iff in E as [_ E].
    change (u64_max / 2) with 9223372036854775807 in E.
    assert (Hlt : 2 ^ k < 2 ^ 63) by (change (2 ^ 63) with 9223372036854775808; lia).
    apply Z.pow_lt_mono_r_iff in Hlt; [|lia..].
    assert (Hp : 2 ^ (k + 1) = 2 ^ k * 2) by (rewrite Z.pow_add_r by lia; done).
    rewrite wmul_small by (pose proof (Z.pow_pos_nonneg 2 k); lia).
    rewrite <- Hp. split; [exists (k + 1); split; [lia|done]|]. rewrite !Z.log2_pow2 by lia. lia.
  - intros h r (k & Hk & ->). unfold double_step. case_match eqn:E; [done|]. intros [= <-].
    pose proof (Z.pow_pos_nonneg 2 k ltac:(lia) ltac:(lia)).
    assert (2 ^ k <= 2 ^ 63) by (apply Z.pow_le_mono_r; lia).
    change (2 ^ 63) with 9223372036854775808 in *.
    apply andb_false_iff in E. change (u64_max / 2) with 9223372036854775807 in E.
    split; [lia|]. destruct E as [E|E]; lia.
  - exists 0. split; [lia|done].
Qed.

Lemma bisect_loop_spec v high :
  0 <= v -> 1 <= high <= 9223372036854775808 -> v < cube high ->
  exists low, wloop (bisect_step v) 64 (0, high) = inr low /\
    0 <= low < high /\ cube low <= v < cube (low + 1).
Proof.
  intros Hv Hh Hc.
  destruct (wloop_spec (bisect_step v)
    (fun s => 0 <= s.1 < s.2 /\ s.2 <= high /\ cube s.1 <= v < cube s.2)
    (fun s => s.2 - s.1)
    (fun low => 0 <= low < high /\ cube low <= v < cube (low + 1)) 64 (0, high))
    as (low & Hw & _ & Hlow); [| | | |by exists low].
  - intros [l h] [l' h']. cbn [fst snd]. intros (Hlh & Hhh & Hl & Hr). unfold bisect_step.
    rewrite wadd_small by lia. case_match eqn:E; [|done].
    rewrite (wsub_small h l) by lia. rewrite wadd_small by dlia.
    case_match eqn:E2; intros [= <- <-]; repeat split; try lia; dlia.
  - intros [l h] r. cbn [fst snd]. intros (Hlh & Hhh & Hl & Hr). unfold bisect_step.
    rewrite wadd_small by lia. case_match eqn:E; [by case_match|]. intros [= <-].
    replace (l + 1) with h by lia. lia.
  - cbn. unfold cube in *. lia.
  - cbn. lia.
Qed.

Lemma floor_cube_root_spec v :
  0 <= v < cube 9223372036854775808 ->
  0 <= floor_cube_root v < 9223372036854775808 /\
  cube (floor_cube_root v) <= v < cube (floor_cube_root v + 1).
Proof.
  intros Hv. unfold floor_cube_root. case_match eqn:E0.
  { apply Z.eqb_eq in E0 as ->. unfold cube. lia. }
  destruct (double_loop_spec v) as (h & -> & Hh & Hor); [lia|]. cbn [loop_result].
  assert (v < cube h) by (destruct Hor as [?| ->]; lia).
  rewrite (proj2 (Z.leb_gt (cube h) v)) by lia.
  destruct (bisect_loop_spec v h) as (l & -> & ? & ?); [lia..|]. cbn [loop_result]. lia.
Qed.

(** The radicand of any [u64] window stays far inside the exact range. *)
Lemma cubic_k_spec w :
  in_u64 w ->
  0 <= cubic_k_ns w < 9223372036854775808 /\
  4 * cube (cubic_k_ns w) <= 3 * 10 ^ 18 * w < 4 * cube (cubic_k_ns w + 1).
Proof.
  change (10 ^ 18) with 1000000000000000000. intros Hw. unfold cubic_k_ns. case_match eqn:E.
  { apply Z.eqb_eq in E as ->. unfold cube. lia. }
  destruct (floor_cube_root_spec (w * 3 * 1000000000000000000 / 4)) as [Hr Hc].
  { unfold cube. munfold. Z.div_mod_to_equations. lia. }
  split; [done|]. revert Hc. generalize (floor_cube_root (w * 3 * 1000000000000000000 / 4)).
  intros r Hc. generalize dependent (cube r). generalize (cube (r + 1)). intros. dlia.
Qed.

(** ** The CUBIC curve *)

Lemma cubic_mag_mono d d' :
  0 <= d <= d' ->
  0 <= big_to_u64_saturating (d ^ 3 * 2 / 5000000000000000000)
    <= big_to_u64_saturating (d' ^ 3 * 2 / 5000000000000000000).
Proof.
  intros Hd. unfold big_to_u64_saturating.
  assert (0 <= d ^ 3 <= d' ^ 3).
  { split; [apply Z.pow_nonneg; lia|]. apply Z.pow_le_mono_l. lia. }
  assert (0 <= d ^ 3 * 2 / 5000000000000000000) by (apply Z.div_pos; lia).
  assert (d ^ 3 * 2 / 5000000000000000000 <= d' ^ 3 * 2 / 5000000000000000000)
    by (apply Z.div_le_mono; lia).
  lia.
Qed.

Lemma cubic_window_mono w k e e' :
  0 <= w <= CUBIC_MAX_WINDOW_SCALED -> 0 <= k -> 0 <= e <= e' ->
  cubic_window_scaled w k e <= cubic_window_scaled w k e'.
Proof.
  unfold CUBIC_MAX_WINDOW_SCALED, CUBIC_MAX_SEGMENTS, CUBIC_WINDOW_SCALE.
  intros Hw Hk He. unfold cubic_window_scaled.
  destruct (Z.ltb_spec e k) as [H1|H1], (Z.ltb_spec e' k) as [H2|H2]; try lia.
  - pose proof (cubic_mag_mono (abs_diff e' k) (abs_diff e k) ltac:(mlia)).
    generalize dependent (big_to_u64_saturating (abs_diff e k ^ 3 * 2 / 5000000000000000000)).
    generalize (big_to_u64_saturating (abs_diff e' k ^ 3 * 2 / 5000000000000000000)).
    unfold CUBIC_WINDOW_SCALE. mlia.
  - pose proof (cubic_mag_mono 0 (abs_diff e k) ltac:(mlia)).
    pose proof (cubic_mag_mono 0 (abs_diff e' k) ltac:(mlia)).
    generalize dependent (big_to_u64_saturating (abs_diff e k ^ 3 * 2 / 5000000000000000000)).
    generalize dependent (big_to_u64_saturating (abs_diff e' k ^ 3 * 2 / 5000000000000000000)).
    unfold CUBIC_WINDOW_SCALE, CUBIC_MAX_WINDOW_SCALED, CUBIC_MAX_SEGMENTS.
    unfold CUBIC_WINDOW_SCALE. mlia.
  - pose proof (cubic_mag_mono (abs_diff e k) (abs_diff e' k) ltac:(mlia)).
    generalize dependent (big_to_u64_saturating (abs_diff e k ^ 3 * 2 / 5000000000000000000)).
    generalize dependent (big_to_u64_saturating (abs_diff e' k ^ 3 * 2 / 5000000000000000000)).
    unfold CUBIC_WINDOW_SCALE, CUBIC_MAX_WINDOW_SCALED, CUBIC_MAX_SEGMENTS.
    unfold CUBIC_WINDOW_SCALE. mlia.
Qed.

Ltac unscale :=
  unfold CUBIC_MAX_WINDOW_SCALED, CUBIC_MAX_SEGMENTS, CUBIC_WINDOW_SCALE in *.

Lemma cubic_ack_step_between c t :
  CUBIC_WINDOW_SCALE <= c <= u64_max -> in_u64 t ->
  Z.min c t <= cubic_ack_step c t <= Z.max c t.
Proof.
  unscale. intros Hc Ht. unfold cubic_ack_step. unscale. munfold.
  rewrite (Z.max_l c) by lia. case_match.
  - rewrite wsub_small by lia.
    assert (0 <= (t - c) * 1000000000 / c <= t - c).
    { split; [apply Z.div_pos; lia|]. apply Z.div_le_upper_bound; nia. }
    lia.
  - rewrite wsub_small by lia.
    assert (0 <= (c - t) * 1000000000 / c <= c - t).
    { split; [apply Z.div_pos; lia|]. apply Z.div_le_upper_bound; nia. }
    lia.
Qed.

Lemma ewma_between s x :
  1 <= s <= u64_max -> 1 <= x <= u64_max ->
  Z.min s x <= Z.min ((s * 7 + x) / 8) u64_max <= Z.max s x.
Proof. intros. dlia. Qed.

Lemma ewma_dev v s x :
  in_u64 v -> in_u64 s -> in_u64 x ->
  0 <= Z.min ((v * 3 + abs_diff s x) / 4) u64_max <= Z.max v (abs_diff s x).
Proof. intros. dlia. Qed.

Lemma rto_clamp s v :
  0 <= s -> 0 <= v ->
  let rto := clamp (saturating_add s (Z.max (saturating_mul v 4) RTO_CLOCK_GRANULARITY_NS))
               MIN_RTO_NS MAX_RTO_NS in
  MIN_RTO_NS <= rto <= MAX_RTO_NS /\
  (s + Z.max (4 * v) RTO_CLOCK_GRANULARITY_NS <= MAX_RTO_NS ->
     rto = Z.max MIN_RTO_NS (s + Z.max (4 * v) RTO_CLOCK_GRANULARITY_NS)).
Proof. unfold MIN_RTO_NS, MAX_RTO_NS, RTO_CLOCK_GRANULARITY_NS. munfold. lia. Qed.

(** ** The Reno credit loop *)

(** The window after [i] additive increases. *)
Definition reno_window (mss cwnd : Z) (i : nat) : Z := Z.min (cwnd + Z.of_nat i * mss) u64_max.

Fixpoint windows_consumed (mss cwnd : Z) (n : nat) : Z :=
  match n with
  | O => 0
  | S n => windows_consumed mss cwnd n + reno_window mss cwnd n
  end.


Lemma credit_loop_spec mss credit cwnd :
  in_u64 mss -> in_u64 credit -> 1 <= cwnd <= u64_max ->
  exists n credit' cwnd',
    Reno.credit_loop mss credit cwnd = (credit', cwnd') /\
    cwnd' = reno_window mss cwnd n /\
    credit = windows_consumed mss cwnd n + credit' /\ 0 <= credit' < cwnd'.
Proof.
  intros Hm Hc Hw. unfold Reno.credit_loop.
  destruct (wloop_spec (Reno.credit_step mss)
    (fun s => 0 <= s.1 <= credit /\ exists n, s.2 = reno_window mss cwnd n /\
       credit = windows_consumed mss cwnd n + s.1)
    (fun s => s.1)
    (fun s => 0 <= s.1 < s.2 /\ exists n, s.2 = reno_window mss cwnd n /\
       credit = windows_consumed mss cwnd n + s.1) 64 (credit, cwnd))
    as ([c' w'] & -> & _ & (Hlt & n & Hn & Hsum)).
  - intros [c w] s'. cbn [fst snd]. intros (Hcr & n & -> & Hsum). unfold Reno.credit_step.
    assert (1 <= reno_window mss cwnd n) by (unfold reno_window; munfold; lia).
    rewrite Z.max_l by lia. case_match; [|done]. intros [= <-]. cbn [fst snd].
    rewrite wsub_small by mlia. split_and!; [lia|lia| |lia..].
    exists (S n). cbn [windows_consumed]. split; [|lia].
    unfold reno_window. munfold. lia.
  - intros [c w] s'. cbn [fst snd]. intros (Hcr & n & Hn & Hsum). unfold Reno.credit_step.
    case_match; [done|]. intros [= <-]. cbn [fst snd].
    assert (1 <= w) by (subst w; unfold reno_window; munfold; lia).
    split; [lia|eauto].
  - cbn. split; [mlia|]. exists O. unfold reno_window. cbn. mlia.
  - cbn. mlia.
  - exists n, c', w'. done.
Qed.

(** ** The window invariant *)

Definition reno_ok (mss : Z) (s : Reno.TcpReno) : Prop :=
  Reno.mss_bytes s = mss /\
  Z.min mss INITIAL_SSTHRESH_BYTES <= Reno.cwnd_bytes s <= u64_max /\
  Z.min mss INITIAL_SSTHRESH_BYTES <= Reno.ssthresh_bytes s <= u64_max /\
  in_u64 (Reno.ca_credit s) /\ in_u64 (Reno.duplicate_acks s) /\
  in_u64 (Reno.recovery_high_sequence s).

Definition cubic_ok (mss : Z) (s : Cubic.TcpCubic) : Prop :=
  Cubic.mss_bytes s = mss /\
  CUBIC_WINDOW_SCALE <= Cubic.cwnd_scaled s <= CUBIC_MAX_WINDOW_SCALED /\
  Z.min (bytes_to_scaled_const INITIAL_SSTHRESH_BYTES mss) (2 * CUBIC_WINDOW_SCALE)
    <= Cubic.ssthresh_scaled s <= CUBIC_MAX_WINDOW_SCALED /\
  0 <= Cubic.w_max_scaled s <= CUBIC_MAX_WINDOW_SCALED /\
  0 <= Cubic.w_last_max_scaled s <= CUBIC_MAX_WINDOW_SCALED /\
  in_u64 (Cubic.srtt_ns s) /\ in_u64 (Cubic.k_ns s) /\ in_u64 (Cubic.epoch_start_ns s) /\
  in_u64 (Cubic.duplicate_acks s) /\ in_u64 (Cubic.recovery_high_sequence s).

Definition cc_ok (mss : Z) (c : TcpCongestionControl) : Prop :=
  match c with CcReno s => reno_ok mss s | CcCubic s => cubic_ok mss s end.

(** What a sender does to its controller. *)
Inductive CcEvent :=
| NewAck (acknowledged_bytes now_ns rtt_sample_ns flight_size_bytes acknowledgment : Z)
| DuplicateAck (flight_size_bytes now_ns : Z)
| RtoExpired (flight_size_bytes : Z)
| SetRecoveryHigh (sequence : Z).

Definition cc_event_ok (e : CcEvent) : Prop :=
  match e with
  | NewAck a n r f k => in_u64 a /\ in_u64 n /\ in_u64 r /\ in_u64 f /\ in_u64 k
  | DuplicateAck f n => in_u64 f /\ in_u64 n
  | RtoExpired f => in_u64 f
  | SetRecoveryHigh s => in_u64 s
  end.

Definition cc_step (c : TcpCongestionControl) (e : CcEvent) : TcpCongestionControl :=
  match e with
  | NewAck a n r f k => cc_on_new_ack c a n r f k
  | DuplicateAck f n => (cc_on_duplicate_ack c f n).1
  | RtoExpired f => cc_on_timeout c f
  | SetRecoveryHigh s => cc_set_recovery_high_sequence c s
  end.

Lemma half_range x : in_u64 x -> 0 <= x / 2 <= u64_max.
Proof. intros. dlia. Qed.

Lemma reno_step_ok mss s :
  1 <= mss <= u64_max -> reno_ok mss s ->
  (forall a k, in_u64 a -> reno_ok mss (Reno.on_new_ack s a k)) /\
  (forall f, in_u64 f -> reno_ok mss (Reno.on_fast_retransmit s f)) /\
  reno_ok mss (Reno.on_more_duplicate_ack s) /\
  (forall f, in_u64 f -> reno_ok mss (Reno.on_timeout s f)).
Proof.
  unfold reno_ok, INITIAL_SSTHRESH_BYTES. intros Hm (<- & Hw & Ht & Hc & Hd). refine (conj _ (conj _ (conj _ _))).
  - intros a k Ha. unfold Reno.on_new_ack. cbn [Reno.phase]. destruct (Reno.phase s).
    + cbn. case_match; cbn; munfold; lia.
    + destruct (credit_loop_spec (Reno.mss_bytes s) (saturating_add (Reno.ca_credit s) a)
        (Reno.cwnd_bytes s)) as (n & c' & w' & Hl & Hw' & Hsum & Hlt); [mlia..|].
      cbn [Reno.mss_bytes Reno.ca_credit Reno.cwnd_bytes]. rewrite Hl. cbn.
      unfold reno_window in Hw'. munfold. nia.
    + cbn. case_match; cbn; munfold; lia.
  - intros f Hf. pose proof (half_range f Hf). cbn. munfold. lia.
  - unfold Reno.on_more_duplicate_ack. case_match; cbn; munfold; lia.
  - intros f Hf. pose proof (half_range f Hf). cbn. munfold. lia.
Qed.

Lemma cubic_window_range w k e :
  0 <= w <= CUBIC_MAX_WINDOW_SCALED ->
  CUBIC_WINDOW_SCALE <= cubic_window_scaled w k e <= CUBIC_MAX_WINDOW_SCALED.
Proof.
  intros Hw. pose proof (cubic_mag_mono 0 (abs_diff e k) ltac:(mlia)) as Hmag.
  unfold cubic_window_scaled. unscale.
  generalize dependent (big_to_u64_saturating (abs_diff e k ^ 3 * 2 / 5000000000000000000)).
  intros. case_match; munfold; lia.
Qed.

Lemma friendly_range w e r :
  CUBIC_WINDOW_SCALE <= tcp_friendly_window_scaled w e r <= CUBIC_MAX_WINDOW_SCALED.
Proof. unfold tcp_friendly_window_scaled. unscale. munfold. lia. Qed.

Lemma mul_ratio_range x n d : 0 <= x -> 0 <= n <= d -> 0 < d -> 0 <= mul_ratio x n d <= x.
Proof.
  intros. unfold mul_ratio. assert (0 <= x * n / d <= x); [|lia].
  split; [apply Z.div_pos; nia|]. apply Z.div_le_upper_bound; nia.
Qed.

Lemma bytes_to_scaled_range b m :
  in_u64 b -> in_u64 m -> 0 <= bytes_to_scaled b m <= CUBIC_MAX_WINDOW_SCALED.
Proof.
  intros Hb Hm. unfold bytes_to_scaled, bytes_to_scaled_const. unscale.
  assert (0 < nonzero_mss m) by (unfold nonzero_mss; munfold; case_match; lia).
  assert (0 <= b * 1000000000 / nonzero_mss m) by (apply Z.div_pos; mlia).
  case_match; lia.
Qed.

Lemma cubic_k_u64 w : in_u64 w -> in_u64 (cubic_k_ns w).
Proof. intros Hw. destruct (cubic_k_spec w Hw). mlia. Qed.

Lemma ensure_epoch_ok mss s n : cubic_ok mss s -> in_u64 n -> cubic_ok mss (Cubic.ensure_epoch s n).
Proof.
  intros H Hn. unfold Cubic.ensure_epoch. case_match; [|done].
  unfold cubic_ok in *. destruct H as (? & ? & ? & ? & ? & ? & ? & ? & ?).
  pose proof (cubic_k_u64 (Cubic.w_max_scaled s)) as Hk. unscale.
  destruct (Cubic.w_max_scaled s =? 0); cbn; split_and!; try done; munfold; lia.
Qed.

Lemma with_cwnd_ok mss s w :
  cubic_ok mss s -> CUBIC_WINDOW_SCALE <= w <= CUBIC_MAX_WINDOW_SCALED ->
  cubic_ok mss (Cubic.with_cwnd s w).
Proof. unfold cubic_ok. cbn. tauto. Qed.

Lemma update_window_ok mss s n :
  cubic_ok mss s -> in_u64 n -> cubic_ok mss (Cubic.update_cubic_window s n).
Proof.
  intros H Hn. unfold Cubic.update_cubic_window.
  pose proof (ensure_epoch_ok mss s n H Hn) as H'. set (s' := Cubic.ensure_epoch s n) in *.
  case_match; apply with_cwnd_ok; try done.
  - pose proof (friendly_range (Cubic.w_max_scaled s')
      (saturating_sub n (Cubic.epoch_start_ns s')) (Z.max (Cubic.srtt_ns s') 1)). unscale. lia.
  - unscale. munfold. lia.
Qed.

Lemma slow_start_ack_ok mss s a n :
  1 <= mss -> in_u64 a -> in_u64 n -> cubic_ok mss s ->
  cubic_ok mss (Cubic.slow_start_ack s a n).
Proof.
  intros Hm Ha Hn H. unfold Cubic.slow_start_ack.
  assert (Hd : 0 <= div_ceil a (Cubic.mss_bytes s)).
  { destruct H as (-> & _). pose proof (div_ceil_spec a mss). munfold. nia. }
  set (w := Z.min (saturating_add _ _) _).
  assert (CUBIC_WINDOW_SCALE <= w <= CUBIC_MAX_WINDOW_SCALED).
  { subst w. destruct H as (_ & ? & _). unscale. munfold. lia. }
  case_match; [|by apply with_cwnd_ok]. unfold cubic_ok in *.
  destruct H as (? & ? & ? & ? & ? & ? & ? & ? & ?). unscale.
  destruct (Cubic.w_max_scaled s =? 0); cbn; split_and!; try done; munfold; lia.
Qed.

Lemma cubic_step_ok mss s :
  1 <= mss <= u64_max -> cubic_ok mss s ->
  (forall a n r f k, in_u64 a -> in_u64 n -> in_u64 r ->
     cubic_ok mss (Cubic.on_new_ack s a n r f k)) /\
  (forall f n, in_u64 f -> in_u64 n -> cubic_ok mss (Cubic.on_fast_retransmit s f n)) /\
  cubic_ok mss (Cubic.on_more_duplicate_ack s) /\
  (forall f, in_u64 f -> cubic_ok mss (Cubic.on_timeout s f)).
Proof.
  intros Hm H. refine (conj _ (conj _ (conj _ _))).
  - intros a n r f k Ha Hn Hr. unfold Cubic.on_new_ack.
    set (s' := Cubic.update_srtt (Cubic.with_duplicate_acks s 0) r).
    assert (H' : cubic_ok mss s').
    { unfold cubic_ok in *. subst s'. cbn. destruct H as (? & ? & ? & ? & ? & ? & ? & ? & ?).
      split_and!; try done; munfold; try lia; case_match; Z.div_mod_to_equations; lia. }
    clearbody s'. destruct (Cubic.phase s').
    + apply slow_start_ack_ok; lia || done.
    + by apply update_window_ok.
    + case_match; [|done]. unfold cubic_ok in *. cbn. unscale. munfold. lia.
  - intros f n Hf Hn. unfold Cubic.on_fast_retransmit, cubic_ok in *. unscale.
    destruct H as (-> & ? & ? & ? & ? & ? & ? & ? & ?).
    pose proof (bytes_to_scaled_range f mss Hf ltac:(mlia)) as Hb. unscale.
    pose proof (mul_ratio_range (bytes_to_scaled f mss) 7 10).
    pose proof (mul_ratio_range (Cubic.cwnd_scaled s) 17 20).
    set (w := if (_ && _) then _ else _).
    assert (0 <= w <= 2000000 * 1000000000) by (subst w; case_match; lia).
    pose proof (cubic_k_u64 w ltac:(mlia)). cbn. unscale. munfold. lia.
  - unfold Cubic.on_more_duplicate_ack. case_match; try done. apply with_cwnd_ok; [done|].
    destruct H as (? & ? & _). unscale. munfold. lia.
  - intros f Hf. unfold Cubic.on_timeout, cubic_ok in *. unscale. cbn. unscale. munfold. lia.
Qed.

Lemma cc_step_ok mss c e :
  1 <= mss <= u64_max -> cc_ok mss c -> cc_event_ok e -> cc_ok mss (cc_step c e).
Proof.
  intros Hm Hc He. destruct c as [s|s]; simpl in Hc.
  - assert (Hdup : reno_ok mss (Reno.with_duplicate_acks s (saturating_add (Reno.duplicate_acks s) 1)))
      by (unfold reno_ok in *; cbn; munfold; lia).
    destruct (reno_step_ok mss s Hm Hc) as (Hna & _ & _ & Hto).
    destruct (reno_step_ok mss _ Hm Hdup) as (_ & Hfr & Hmd & _).
    destruct e; simpl in *; [naive_solver| |naive_solver|unfold reno_ok in *; cbn; tauto].
    unfold cc_on_duplicate_ack. repeat case_match; simpl; naive_solver.
  - assert (Hdup : cubic_ok mss (Cubic.with_duplicate_acks s (saturating_add (Cubic.duplicate_acks s) 1)))
      by (unfold cubic_ok in *; cbn; munfold; lia).
    destruct (cubic_step_ok mss s Hm Hc) as (Hna & _ & _ & Hto).
    destruct (cubic_step_ok mss _ Hm Hdup) as (_ & Hfr & Hmd & _).
    destruct e; simpl in *; [naive_solver| |naive_solver|unfold cubic_ok in *; cbn; tauto].
    unfold cc_on_duplicate_ack. repeat case_match; simpl; naive_solver.
Qed.

Lemma cc_run_ok mss c es :
  1 <= mss <= u64_max -> cc_ok mss c -> Forall cc_event_ok es -> cc_ok mss (foldl cc_step c es).
Proof.
  intros Hm. revert c. induction es as [|e es IH]; intros c Hc He; [done|].
  inversion He; subst. simpl. apply IH; [|done]. by apply cc_step_ok.
Qed.

Lemma nonzero_mss_pos mss : 1 <= mss -> nonzero_mss mss = mss.
Proof. intros. unfold nonzero_mss. case_match; lia. Qed.

Lemma reno_init_ok mss : 1 <= mss <= u64_max -> cc_ok mss (reno mss).
Proof.
  intros Hm. unfold reno. rewrite nonzero_mss_pos by lia. cbn.
  unfold reno_ok, INITIAL_SSTHRESH_BYTES. cbn. munfold. lia.
Qed.

Lemma initial_threshold_range mss :
  1 <= mss ->
  0 <= bytes_to_scaled_const INITIAL_SSTHRESH_BYTES mss <= CUBIC_MAX_WINDOW_SCALED.
Proof.
  intros Hm. unfold bytes_to_scaled_const. rewrite nonzero_mss_pos by lia.
  unfold INITIAL_SSTHRESH_BYTES. unscale.
  assert (0 <= 65535 * 1000000000 / mss <= 65535 * 1000000000).
  { split; [apply Z.div_pos; lia|apply Z.div_le_upper_bound; nia]. }
  munfold. case_match; lia.
Qed.

Lemma cubic_init_ok mss : 1 <= mss <= u64_max -> cc_ok mss (cubic mss).
Proof.
  intros Hm. pose proof (initial_threshold_range mss ltac:(lia)) as Ht.
  unfold cubic. rewrite !nonzero_mss_pos by lia. unfold cc_ok, cubic_ok.
  cbn [Cubic.mss_bytes Cubic.cwnd_scaled Cubic.ssthresh_scaled Cubic.w_max_scaled
    Cubic.w_last_max_scaled Cubic.srtt_ns Cubic.k_ns Cubic.epoch_start_ns
    Cubic.duplicate_acks Cubic.recovery_high_sequence].
  generalize dependent (bytes_to_scaled_const INITIAL_SSTHRESH_BYTES mss). intros t Ht.
  unscale. munfold. lia.
Qed.

Lemma scaled_to_bytes_bounds w mss :
  1 <= mss <= u64_max -> CUBIC_WINDOW_SCALE <= w <= CUBIC_MAX_WINDOW_SCALED ->
  mss <= scaled_to_bytes_const w mss <= CUBIC_MAX_SEGMENTS * mss.
Proof.
  intros Hm Hw. unfold scaled_to_bytes_const. rewrite nonzero_mss_pos by lia. unscale.
  assert (mss <= w * mss / 1000000000 <= 2000000 * mss).
  { split; [apply Z.div_le_lower_bound; nia|apply Z.div_le_upper_bound; nia]. }
  case_match; lia.
Qed.

Lemma scaled_to_bytes_max w mss :
  1 <= mss <= u64_max -> 0 <= w <= CUBIC_MAX_WINDOW_SCALED ->
  0 <= scaled_to_bytes_const w mss <= CUBIC_MAX_SEGMENTS * mss.
Proof.
  intros Hm Hw. unfold scaled_to_bytes_const. rewrite nonzero_mss_pos by lia. unscale.
  assert (0 <= w * mss / 1000000000 <= 2000000 * mss).
  { split; [apply Z.div_pos; nia|apply Z.div_le_upper_bound; nia]. }
  case_match; lia.
Qed.

(** A controller never changes its algorithm. *)
Lemma cc_run_reno s es : exists s', foldl cc_step (CcReno s) es = CcReno s'.
Proof.
  revert s. induction es as [|e es IH]; intros s; [by exists s|].
  simpl. destruct e; simpl; try apply IH.
  unfold cc_on_duplicate_ack. repeat case_match; apply IH.
Qed.

Lemma cc_run_cubic s es : exists s', foldl cc_step (CcCubic s) es = CcCubic s'.
Proof.
  revert s. induction es as [|e es IH]; intros s; [by exists s|].
  simpl. destruct e; simpl; try apply IH.
  unfold cc_on_duplicate_ack. repeat case_match; apply IH.
Qed.

(** C33. Whatever ACKs, duplicate ACKs and timeouts a sender sees, its congestion
    window never closes and never leaves [u64]: Reno keeps at least one MSS (or
    the initial threshold, when the MSS exceeds it), CUBIC between one and two
    million MSS. The slow-start threshold keeps the same floor for Reno; for
    CUBIC it stays between the smaller of its initial value and two segments,
    and the two million segments that also bound the remembered maxima. The
    credit, the duplicate-ACK counter, the recovery point and CUBIC's times
    stay in [u64], and the MSS and the algorithm never change. *)
Theorem congestion_window_bounds mss es :
  1 <= mss <= u64_max -> Forall cc_event_ok es ->
  Z.min mss INITIAL_SSTHRESH_BYTES <= cc_cwnd_bytes (foldl cc_step (reno mss) es) mss <= u64_max /\
  mss <= cc_cwnd_bytes (foldl cc_step (cubic mss) es) mss <= CUBIC_MAX_SEGMENTS * mss /\
  Z.min mss INITIAL_SSTHRESH_BYTES
    <= cc_ssthresh_bytes (foldl cc_step (reno mss) es) <= u64_max /\
  0 <= cc_ssthresh_bytes (foldl cc_step (cubic mss) es) <= CUBIC_MAX_SEGMENTS * mss /\
  (exists s, foldl cc_step (reno mss) es = CcReno s /\ Reno.mss_bytes s = mss /\
     in_u64 (Reno.ca_credit s) /\ in_u64 (Reno.duplicate_acks s) /\
     in_u64 (Reno.recovery_high_sequence s)) /\
  (exists s, foldl cc_step (cubic mss) es = CcCubic s /\ Cubic.mss_bytes s = mss /\
     CUBIC_WINDOW_SCALE <= Cubic.cwnd_scaled s <= CUBIC_MAX_WINDOW_SCALED /\
     Z.min (bytes_to_scaled_const INITIAL_SSTHRESH_BYTES mss) (2 * CUBIC_WINDOW_SCALE)
       <= Cubic.ssthresh_scaled s <= CUBIC_MAX_WINDOW_SCALED /\
     0 <= Cubic.w_max_scaled s <= CUBIC_MAX_WINDOW_SCALED /\
     0 <= Cubic.w_last_max_scaled s <= CUBIC_MAX_WINDOW_SCALED /\
     in_u64 (Cubic.srtt_ns s) /\ in_u64 (Cubic.k_ns s) /\ in_u64 (Cubic.epoch_start_ns s) /\
     in_u64 (Cubic.duplicate_acks s) /\ in_u64 (Cubic.recovery_high_sequence s)).
Proof.
  intros Hm He.
  pose proof (cc_run_ok mss (reno mss) es Hm (reno_init_ok mss Hm) He) as Hr.
  pose proof (cc_run_ok mss (cubic mss) es Hm (cubic_init_ok mss Hm) He) as Hc.
  destruct (cc_run_reno _ es : exists s, foldl cc_step (reno mss) es = CcReno s) as [r Er].
  destruct (cc_run_cubic _ es : exists s, foldl cc_step (cubic mss) es = CcCubic s) as [c Ec].
  rewrite Er, Ec in *. cbn [cc_ok cc_cwnd_bytes cc_ssthresh_bytes] in *.
  unfold reno_ok in Hr. unfold cubic_ok in Hc.
  destruct Hr as (Hmr & Hwr & Htr & Hr). destruct Hc as (Hmc & Hwc & Htc & Hc).
  pose proof (initial_threshold_range mss ltac:(lia)). rewrite Hmc.
  refine (conj Hwr (conj _ (conj Htr (conj _ (conj _ _))))).
  - by apply scaled_to_bytes_bounds.
  - apply scaled_to_bytes_max; [done|]. unscale. lia.
  - exists r. tauto.
  - exists c. tauto.
Qed.

Definition cc_example_events : list CcEvent :=
  [NewAck 3000 5000 1000 4000 3001; DuplicateAck 8000 6000; DuplicateAck 8000 6001;
   DuplicateAck 8000 6002; SetRecoveryHigh 9000; NewAck 9000 9500 700 8000 9000;
   RtoExpired 4000].

Lemma congestion_window_bounds_witness :
  1500 <= cc_cwnd_bytes (foldl cc_step (cubic 1500) cc_example_events) 1500.
Proof.
  refine (proj1 (proj1 (proj2 (congestion_window_bounds 1500 cc_example_events _ _)))); [lia|].
  repeat (apply Forall_cons; split; [simpl; munfold; lia|]). apply Forall_nil_2.
Defined.

(** [K] is the floor of the exact cube root of [W_max * (1 - beta) / C]
    seconds cubed, for every window: the doubling and the bisection terminate
    and the integer radicand loses nothing. *)
Theorem cubic_k_exact w :
  in_u64 w ->
  0 <= cubic_k_ns w /\
  4 * (cubic_k_ns w) ^ 3 <= 3 * 10 ^ 18 * w < 4 * (cubic_k_ns w + 1) ^ 3.
Proof.
  intros Hw. destruct (cubic_k_spec w Hw) as [? Hc]. unfold cube in Hc.
  rewrite !(Z.pow_succ_r _ 2), !(Z.pow_succ_r _ 1), !Z.pow_1_r by lia. lia.
Qed.

Lemma cubic_k_exact_witness :
  4 * (cubic_k_ns 100000000000) ^ 3 <= 3 * 10 ^ 18 * 100000000000
  /\ cubic_k_ns 100000000000 = 4217163326.
Proof.
  split; [|by vm_compute].
  refine (proj1 (proj2 (cubic_k_exact 100000000000 _))). munfold. lia.
Defined.

(** The CUBIC curve: monotone in the elapsed time, equal to [W_max] at [K],
    and starting from at least [beta * W_max]; an ACK moves the window towards
    the target without passing it. *)
Theorem cubic_curve_shape w e e' c t :
  CUBIC_WINDOW_SCALE <= w <= CUBIC_MAX_WINDOW_SCALED -> 0 <= e <= e' ->
  CUBIC_WINDOW_SCALE <= c <= u64_max -> in_u64 t ->
  cubic_window_scaled w (cubic_k_ns w) e <= cubic_window_scaled w (cubic_k_ns w) e' /\
  cubic_window_scaled w (cubic_k_ns w) (cubic_k_ns w) = w /\
  7 * w <= 10 * cubic_window_scaled w (cubic_k_ns w) 0 /\
  Z.min c t <= cubic_ack_step c t <= Z.max c t.
Proof.
  intros Hw He Hc Ht. destruct (cubic_k_spec w) as [Hk [Hlo _]]; [unscale; mlia|].
  split_and!; [|unfold cubic_window_scaled|unfold cubic_window_scaled|by apply cubic_ack_step_between..].
  - apply cubic_window_mono; unscale; lia.
  - rewrite Z.ltb_irrefl. unfold abs_diff. rewrite Z.sub_diag.
    change (big_to_u64_saturating (Z.abs 0 ^ 3 * 2 / 5000000000000000000)) with 0.
    unscale. munfold. lia.
  - unfold big_to_u64_saturating, abs_diff. rewrite Z.abs_neq by lia.
    replace (- (0 - cubic_k_ns w)) with (cubic_k_ns w) by lia.
    assert (Hcube : cubic_k_ns w ^ 3 = cube (cubic_k_ns w)) by (unfold cube; ring).
    rewrite Hcube. change (3 * 10 ^ 18) with 3000000000000000000 in Hlo. unscale.
    assert (0 <= cube (cubic_k_ns w)) by (unfold cube; nia).
    generalize dependent (cube (cubic_k_ns w)). intros q Hq Hlo Hq0.
    case_match; munfold; Z.div_mod_to_equations; lia.
Qed.

Lemma cubic_curve_shape_witness :
  7 * 100000000000 <= 10 * cubic_window_scaled 100000000000 (cubic_k_ns 100000000000) 0.
Proof.
  refine (proj1 (proj2 (proj2 (cubic_curve_shape 100000000000 0 5 2000000000 7000000000 _ _ _ _))));
    unscale; munfold; lia.
Defined.

(** Reno congestion avoidance is exact byte counting: the loop ends, each
    increase of one MSS consumes one current window of acknowledged bytes, every
    byte is accounted for, and less than one window of credit is left. *)
Theorem reno_credit_exact s acked k :
  reno_ok (Reno.mss_bytes s) s -> in_u64 (Reno.mss_bytes s) -> 1 <= Reno.cwnd_bytes s ->
  in_u64 acked -> Reno.phase s = CongestionAvoidance ->
  let s' := Reno.on_new_ack s acked k in
  exists n,
    Reno.cwnd_bytes s' = reno_window (Reno.mss_bytes s) (Reno.cwnd_bytes s) n /\
    saturating_add (Reno.ca_credit s) acked
      = windows_consumed (Reno.mss_bytes s) (Reno.cwnd_bytes s) n + Reno.ca_credit s' /\
    0 <= Reno.ca_credit s' < Reno.cwnd_bytes s' /\ Reno.phase s' = CongestionAvoidance.
Proof.
  intros (_ & Hw & _ & Hc & _) Hm H1 Ha Hp s'. subst s'. unfold Reno.on_new_ack.
  cbn [Reno.phase]. rewrite Hp.
  destruct (credit_loop_spec (Reno.mss_bytes s) (saturating_add (Reno.ca_credit s) acked)
    (Reno.cwnd_bytes s)) as (n & c' & w' & Hl & Hw' & Hsum & Hlt); [mlia..|].
  cbn [Reno.mss_bytes Reno.ca_credit Reno.cwnd_bytes]. rewrite Hl. cbn. by exists n.
Qed.

Lemma reno_credit_exact_witness :
  let s := Reno.mk 1000 4000 4000 CongestionAvoidance 0 0 500 in
  exists n, Reno.cwnd_bytes (Reno.on_new_ack s 9000 0) = reno_window 1000 4000 n /\
    saturating_add 500 9000 = windows_consumed 1000 4000 n + Reno.ca_credit (Reno.on_new_ack s 9000 0).
Proof.
  destruct (reno_credit_exact (Reno.mk 1000 4000 4000 CongestionAvoidance 0 0 500) 9000 0)
    as (n & Hn & Hs & _).
  - unfold reno_ok, INITIAL_SSTHRESH_BYTES. cbn. munfold. lia.
  - cbn. munfold. lia.
  - cbn. lia.
  - munfold. lia.
  - done.
  - by exists n.
Defined.

(** C34. The retransmission timeout stays within its bounds for every sample, the
    smoothed RTT lies between the old value and the sample (so it is never zero
    again, the value that stands for no sample yet), and the variance is bounded
    by its inputs. *)
Theorem rto_estimator_bounds srtt var sample :
  in_u64 srtt -> in_u64 var -> in_u64 sample ->
  let '(srtt', var', rto) := update_rto_ns srtt var sample in
  MIN_RTO_NS <= rto <= MAX_RTO_NS /\ 1 <= srtt' <= u64_max /\ in_u64 var' /\
  (srtt = 0 -> srtt' = Z.max sample 1 /\ var' = srtt' / 2) /\
  (srtt <> 0 ->
     Z.min srtt (Z.max sample 1) <= srtt' <= Z.max srtt (Z.max sample 1) /\
     var' <= Z.max var (abs_diff srtt (Z.max sample 1))) /\
  (srtt' + Z.max (4 * var') RTO_CLOCK_GRANULARITY_NS <= MAX_RTO_NS ->
     rto = Z.max MIN_RTO_NS (srtt' + Z.max (4 * var') RTO_CLOCK_GRANULARITY_NS)).
Proof.
  intros Hs Hv Hx. unfold update_rto_ns. set (x := Z.max sample 1).
  assert (Hx1 : 1 <= x <= u64_max) by (subst x; mlia). clearbody x.
  destruct (Z.eqb_spec srtt 0) as [->|Hne].
  - assert (Hvar : 0 <= x / 2 <= x) by dlia.
    destruct (rto_clamp x (x / 2)) as [Hr He]; [lia..|].
    split_and!; try done; mlia.
  - pose proof (ewma_between srtt x) as Hsr. pose proof (ewma_dev var srtt x) as Hd.
    destruct (rto_clamp (Z.min ((srtt * 7 + x) / 8) u64_max)
      (Z.min ((var * 3 + abs_diff srtt x) / 4) u64_max)) as [Hr He]; [mlia..|].
    split_and!; try done; try mlia.
Qed.

Lemma rto_estimator_bounds_witness :
  let '(srtt', var', rto) := update_rto_ns 2000000 500000 8000000 in
  MIN_RTO_NS <= rto <= MAX_RTO_NS /\ srtt' = 2750000.
Proof.
  pose proof (rto_estimator_bounds 2000000 500000 8000000) as H. vm_compute in H. vm_compute.
  destruct H as [H _]; [split; discriminate..|]. by split.
Defined.

(** The fast-retransmit signals of a run of duplicate ACKs. *)
Fixpoint duplicate_signals (c : TcpCongestionControl) (acks : list (Z * Z))
  : list bool * TcpCongestionControl :=
  match acks with
  | [] => ([], c)
  | (flight, now) :: acks =>
      let '(c, signal) := cc_on_duplicate_ack c flight now in
      let '(signals, c) := duplicate_signals c acks in
      (signal :: signals, c)
  end.

Lemma on_duplicate_ack_count c f n :
  let d := saturating_add (cc_duplicate_acks c) 1 in
  cc_duplicate_acks (cc_on_duplicate_ack c f n).1 = d /\
  (cc_on_duplicate_ack c f n).2 = (d =? 3) /\
  (d = 3 -> cc_phase (cc_on_duplicate_ack c f n).1 = FastRecovery).
Proof.
  unfold cc_on_duplicate_ack. destruct c as [s|s]; cbn.
  - destruct (Z.eqb_spec (saturating_add (Reno.duplicate_acks s) 1) 3); [done|].
    case_match; [|done]. cbn. unfold Reno.on_more_duplicate_ack. by case_match.
  - destruct (Z.eqb_spec (saturating_add (Cubic.duplicate_acks s) 1) 3); [done|].
    case_match; [|done]. cbn. unfold Cubic.on_more_duplicate_ack. by case_match.
Qed.

Lemma duplicate_signals_from acks : forall c,
  0 <= cc_duplicate_acks c -> cc_duplicate_acks c + Z.of_nat (length acks) <= u64_max ->
  (duplicate_signals c acks).1
    = imap (fun i _ => cc_duplicate_acks c + Z.of_nat i + 1 =? 3) acks /\
  cc_duplicate_acks (duplicate_signals c acks).2
    = cc_duplicate_acks c + Z.of_nat (length acks).
Proof.
  induction acks as [|[f n] acks IH]; intros c H0 Hlen; simpl in *; [split; [done|lia]|].
  destruct (on_duplicate_ack_count c f n) as (Hd & Hs & _).
  destruct (cc_on_duplicate_ack c f n) as [c' sg]. simpl in *.
  assert (Hsat : saturating_add (cc_duplicate_acks c) 1 = cc_duplicate_acks c + 1) by mlia.
  rewrite Hsat in Hd, Hs.
  destruct (IH c') as [IH1 IH2]; [lia..|].
  destruct (duplicate_signals c' acks) as [sgs c'']. simpl in *. split; [|lia].
  f_equal; [rewrite Hs; f_equal; lia|]. rewrite IH1.
  apply imap_ext. intros i x _. simpl. f_equal. lia.
Qed.

(** Fast retransmit fires exactly on the third duplicate ACK: in a run of
    duplicate ACKs after an advancing one, the third and only the third signals
    it, and that one enters fast recovery. *)
Theorem fast_retransmit_on_third c acks :
  cc_duplicate_acks c = 0 -> Z.of_nat (length acks) <= u64_max ->
  (duplicate_signals c acks).1 = imap (fun i _ => bool_decide (i = 2%nat)) acks /\
  (length acks = 3%nat -> cc_phase (duplicate_signals c acks).2 = FastRecovery).
Proof.
  intros H0 Hlen. split.
  - rewrite (proj1 (duplicate_signals_from acks c ltac:(lia) ltac:(lia))).
    apply imap_ext. intros i x _. simpl. rewrite H0.
    case_bool_decide; [subst; done|]. apply Z.eqb_neq. lia.
  - destruct acks as [|[f1 n1] [|[f2 n2] [|[f3 n3] [|]]]]; try done. intros _. simpl in *.
    destruct (on_duplicate_ack_count c f1 n1) as (H1 & _). destruct (cc_on_duplicate_ack c f1 n1) as [c1 b1].
    destruct (on_duplicate_ack_count c1 f2 n2) as (H2 & _). destruct (cc_on_duplicate_ack c1 f2 n2) as [c2 b2].
    destruct (on_duplicate_ack_count c2 f3 n3) as (H3 & _ & Hp). destruct (cc_on_duplicate_ack c2 f3 n3).
    simpl in *. apply Hp. mlia.
Qed.

Lemma fast_retransmit_on_third_witness :
  (duplicate_signals (reno 1500) [(9000, 10); (9000, 20); (9000, 30); (9000, 40)]).1
    = [false; false; true; false].
Proof.
  rewrite (proj1 (fast_retransmit_on_third (reno 1500)
    [(9000, 10); (9000, 20); (9000, 30); (9000, 40)] eq_refl ltac:(simpl; lia))).
  reflexivity.
Defined.
