(* ===== verification/Model.v ===== *)
(** * Closed model choices (executor/src/model.rs)

    The scheduling disciplines with the state each one owns, and the admission
    and marking policies. [ExactRational] is [Ratio<BigUint>], the rationals
    kept in lowest terms: it is modelled by [Q] with every result reduced. *)

From Stdlib Require Export QArith Qreduction.
From S2P Require Import Prelude OrdMap Event EcnRamp.
#[global] Close Scope Q_scope.
#[global] Open Scope Z_scope.

Abbreviation ExactRational := Q (only parsing).
#[export] Instance Q_inhabited : Inhabited Q := populate 0%Q.

Record WfqSchedulerState := mkWfq {
  wfq_weights : list Z;
  wfq_virtual_time : ExactRational;
  wfq_last_updated_ns : Z;
  wfq_finish_times : list ExactRational;
  wfq_active_packets : list Z;
  wfq_packet_finish_times : bmap PayloadId ExactRational;
}.

Record DrrSchedulerState := mkDrr {
  drr_quanta_bytes : list Z;
  drr_deficits_bytes : list Z;
  drr_current_class : Z;
}.

Definition drr_new (quanta_bytes : list Z) : DrrSchedulerState :=
  mkDrr quanta_bytes (replicate (length quanta_bytes) 0) 0.

Record WrrSchedulerState := mkWrr {
  wrr_weights : list Z;
  wrr_packets_sent_in_round : list Z;
  wrr_current_class : Z;
}.

Definition wrr_new (weights : list Z) : WrrSchedulerState :=
  mkWrr weights (replicate (length weights) 0) 0.

Definition wfq_new (weights : list Z) : WfqSchedulerState :=
  mkWfq weights 0%Q 0 (replicate (length weights) 0%Q)
    (replicate (length weights) 0) [].

Inductive DropMarkPolicy :=
| TailDrop
| EcnRampMark (policy : EcnRampPolicy).

Inductive SchedulerKind :=
| Fifo
| StaticPriority (priorities : list Z)
| WeightedFairQueue (state : WfqSchedulerState)
| DeficitRoundRobin (state : DrrSchedulerState)
| WeightedRoundRobin (state : WrrSchedulerState).

Definition static_priority (priorities : list Z) : SchedulerKind :=
  StaticPriority priorities.
Definition weighted_fair_queue (weights : list Z) : SchedulerKind :=
  WeightedFairQueue (wfq_new weights).
Definition deficit_round_robin (quanta_bytes : list Z) : SchedulerKind :=
  DeficitRoundRobin (drr_new quanta_bytes).
Definition weighted_round_robin (weights : list Z) : SchedulerKind :=
  WeightedRoundRobin (wrr_new weights).

Definition scheduler_code (s : SchedulerKind) : Z :=
  match s with
  | Fifo => 0
  | StaticPriority _ => 1
  | WeightedFairQueue _ => 2
  | DeficitRoundRobin _ => 3
  | WeightedRoundRobin _ => 4
  end.

Definition scheduler_label (s : SchedulerKind) : string :=
  match s with
  | Fifo => "FIFO"
  | StaticPriority _ => "SP"
  | WeightedFairQueue _ => "WFQ"
  | DeficitRoundRobin _ => "DRR"
  | WeightedRoundRobin _ => "WRR"
  end.

#[export] Instance eta_wfq : RecordEta WfqSchedulerState := fun s =>
  mkWfq (wfq_weights s) (wfq_virtual_time s) (wfq_last_updated_ns s)
    (wfq_finish_times s) (wfq_active_packets s) (wfq_packet_finish_times s).
#[export] Instance eta_drr : RecordEta DrrSchedulerState := fun s =>
  mkDrr (drr_quanta_bytes s) (drr_deficits_bytes s) (drr_current_class s).
#[export] Instance eta_wrr : RecordEta WrrSchedulerState := fun s =>
  mkWrr (wrr_weights s) (wrr_packets_sent_in_round s) (wrr_current_class s).
