(* ===== verification/Image.v ===== *)
(** * Simulation image records (executor/src/image.rs)

    The backend-neutral data every executor reads and writes: packets and their
    headers, flow generators, receivers, stages, host and switch state, links,
    channels and the image itself. A Rust array [[T; 8]] is a list of length
    eight, a [VecDeque] a list with its front at the head. *)

From S2P Require Import Prelude OrdMap Event LinkTime EcnRamp Dcqcn Tcp Model.

Definition default_propagation_ns : Z := 0.

Record NodeDescriptor := mkNode {
  nd_id : NodeId;
  nd_kind : NodeKind;
  nd_state_slot : Z;
}.

(** ** Packets *)

Record PfcHeader := mkPfcHeader {
  pfc_controlled_link : LinkId;
  pfc_priority : Z;
  pfc_pause : bool;
}.

Record DcqcnCnpHeader := mkCnpHeader { cnp_trigger_payload : PayloadId }.

Inductive EcnCodepoint := NotEct | Ect0 | Ce.

Record TcpDataHeader := mkTcpData {
  td_sequence : Z;
  td_sent_time_ns : Z;
  td_retransmission : bool;
}.

Record TcpAckHeader := mkTcpAck {
  ta_acknowledgment : Z;
  ta_acknowledged_bytes : Z;
  ta_echoed_sent_time_ns : Z;
}.

Record RoceDataHeader := mkRoceData {
  rd_psn : Z;
  rd_sent_time_ns : Z;
  rd_retransmission : bool;
}.

Record RoceAckHeader := mkRoceAck {
  ra_acknowledgment : Z;
  ra_echoed_sent_time_ns : Z;
  ra_acknowledged_bytes : Z;
  ra_ce_echo : bool;
}.

Inductive PacketKind :=
| Data
| Feedback
| TcpData (header : TcpDataHeader)
| TcpAck (header : TcpAckHeader)
| Pfc (header : PfcHeader)
| DcqcnCnp (header : DcqcnCnpHeader)
| RoceData (header : RoceDataHeader)
| RoceAck (header : RoceAckHeader)
| RoceNack (header : RoceAckHeader)
| RocePacingTimer
| StageNotify.

Definition is_data (k : PacketKind) : bool :=
  match k with Data | TcpData _ | RoceData _ => true | _ => false end.

Definition is_feedback (k : PacketKind) : bool :=
  match k with
  | Feedback | TcpAck _ | Pfc _ | DcqcnCnp _ | RoceAck _ | RoceNack _ => true
  | _ => false
  end.

Definition is_timer_token (k : PacketKind) : bool :=
  match k with RocePacingTimer => true | _ => false end.

Definition packet_kind_code (k : PacketKind) : Z :=
  match k with
  | Data => 0
  | Feedback => 1
  | TcpData _ => 2
  | TcpAck _ => 3
  | Pfc _ => 4
  | DcqcnCnp _ => 5
  | RoceData _ => 7
  | RoceAck _ => 8
  | RoceNack _ => 9
  | RocePacingTimer => 10
  | StageNotify => 11
  end.

Record PacketDescriptor := mkPacket {
  pk_id : PayloadId;
  pk_flow : FlowId;
  pk_size_bytes : Z;
  pk_ecn_marked : bool;
  pk_kind : PacketKind;
}.

Definition ecn_codepoint (p : PacketDescriptor) : EcnCodepoint :=
  if negb (is_data (pk_kind p)) then NotEct
  else if pk_ecn_marked p then Ce else Ect0.

#[export] Instance eta_packet : RecordEta PacketDescriptor := fun p =>
  mkPacket (pk_id p) (pk_flow p) (pk_size_bytes p) (pk_ecn_marked p) (pk_kind p).
#[export] Instance eta_tcp_data : RecordEta TcpDataHeader := fun h =>
  mkTcpData (td_sequence h) (td_sent_time_ns h) (td_retransmission h).
#[export] Instance eta_roce_data : RecordEta RoceDataHeader := fun h =>
  mkRoceData (rd_psn h) (rd_sent_time_ns h) (rd_retransmission h).

(** Marks a data packet; whether the mark was applied, and the packet. *)
Definition mark_ecn (p : PacketDescriptor) : bool * PacketDescriptor :=
  if is_data (pk_kind p) then (true, p <| pk_ecn_marked := true |>) else (false, p).

(** ** Flows *)

Record FlowDescriptor := mkFlow {
  fd_id : FlowId;
  fd_source : NodeId;
  fd_target : NodeId;
  fd_priority : Z;
  fd_feedback_priority : Z;
  fd_route : list LinkId;
  fd_reverse_route : list LinkId;
}.

Definition packet_priority (f : FlowDescriptor) (k : PacketKind) : Z :=
  match k with
  | DcqcnCnp _ | RoceAck _ | RoceNack _ => fd_feedback_priority f
  | _ => fd_priority f
  end.

(** ** Generators *)

Inductive GeneratorStatus := Scheduled | Blocked | Finished | Stopped.

#[export] Instance GeneratorStatus_eq_dec : EqDecision GeneratorStatus.
Proof. solve_decision. Defined.

Record ScheduledEmission := mkEmission {
  se_status : GeneratorStatus;
  se_departure_time_ns : Z;
  se_payload : PayloadId;
}.

Record GeneratorFeedbackState := mkFeedback {
  fb_arrivals : Z;
  fb_outstanding_bytes : Z;
  fb_unacknowledged_bytes : Z;
}.

Inductive GeneratorTermination :=
| Bytes (bytes : Z)
| DurationNs (duration_ns : Z).

Record ConstantGenerator := mkConstant {
  cg_first_departure_ns : Z;
  cg_interval_ns : Z;
  cg_packet_size_bytes : Z;
  cg_termination : GeneratorTermination;
}.

Record RateGenerator := mkRate {
  rg_first_pacing_time_ns : Z;
  rg_pacing_interval_ns : Z;
  rg_packet_size_bytes : Z;
  rg_total_bytes : Z;
  rg_rate_numerator_bits_per_second : Z;
  rg_rate_denominator : Z;
  rg_credit_quanta : Z;
}.

Record DcqcnGenerator := mkDcqcnGen {
  dg_rate : RateGenerator;
  dg_controller : DcqcnController;
  dg_cnp_size_bytes : Z;
}.

Record RocePacer := mkRocePacer {
  rp_first_pacing_time_ns : Z;
  rp_pacing_interval_ns : Z;
  rp_mtu_bytes : Z;
  rp_total_bytes : Z;
  rp_credit_quanta : Z;
}.

Inductive RoceCongestionControl := RoceDcqcn | RoceNone.

#[export] Instance RoceCongestionControl_eq_dec : EqDecision RoceCongestionControl.
Proof. solve_decision. Defined.

Record RoceGenerator := mkRoce {
  rc_pacer : RocePacer;
  rc_controller : DcqcnController;
  rc_pacing_timer_payload : PayloadId;
  rc_next_psn : Z;
  rc_snd_una : Z;
  rc_rto_deadline_ns : Z;
  rc_rto_ns : Z;
  rc_window_bytes : Z;
  rc_pacer_armed : bool;
  rc_variable_window : bool;
  rc_window_parked : bool;
  rc_congestion_control : RoceCongestionControl;
}.

Record TcpTimerState := mkTcpTimer {
  tt_attempt : PayloadId;
  tt_sequence : Z;
  tt_deadline_ns : Z;
  tt_generation : Z;
  tt_rto_ns : Z;
}.

Record TcpGenerator := mkTcpGen {
  tg_total_bytes : Z;
  tg_mss_bytes : Z;
  tg_ack_size_bytes : Z;
  tg_next_sequence : Z;
  tg_highest_ack : Z;
  tg_bytes_in_flight : Z;
  tg_duplicate_acks : Z;
  tg_recovery_high_sequence : Z;
  tg_last_attempt : PayloadId;
  tg_timer_generation : Z;
  tg_active_timer : option TcpTimerState;
  tg_srtt_ns : Z;
  tg_rtt_var_ns : Z;
  tg_rto_ns : Z;
  tg_control : TcpCongestionControl;
}.

Definition INITIAL_RTO_NS : Z := 1000000000.

Definition tcp_generator_new (total_bytes mss_bytes ack_size_bytes : Z)
    (control : TcpCongestionControl) : TcpGenerator :=
  mkTcpGen total_bytes mss_bytes ack_size_bytes 0 0 0 0 0 0 0 None 0 0
    INITIAL_RTO_NS control.

Inductive FlowGeneratorKind :=
| GenConstant (g : ConstantGenerator)
| GenTcp (g : TcpGenerator)
| GenRate (g : RateGenerator)
| GenDcqcn (g : DcqcnGenerator)
| GenRoce (g : RoceGenerator).

Inductive GeneratorFeedbackAction :=
| FeedbackNone
| FeedbackEmit (flow : FlowId) (size_bytes : Z).

Record FlowGeneratorState := mkGenerator {
  fg_flow : FlowId;
  fg_packets_emitted : Z;
  fg_bytes_emitted : Z;
  fg_next_emission : ScheduledEmission;
  fg_rng_state : Z;
  fg_feedback : GeneratorFeedbackState;
  fg_kind : FlowGeneratorKind;
}.

#[export] Instance eta_emission : RecordEta ScheduledEmission := fun e =>
  mkEmission (se_status e) (se_departure_time_ns e) (se_payload e).
#[export] Instance eta_feedback : RecordEta GeneratorFeedbackState := fun f =>
  mkFeedback (fb_arrivals f) (fb_outstanding_bytes f) (fb_unacknowledged_bytes f).
#[export] Instance eta_rate : RecordEta RateGenerator := fun g =>
  mkRate (rg_first_pacing_time_ns g) (rg_pacing_interval_ns g) (rg_packet_size_bytes g)
    (rg_total_bytes g) (rg_rate_numerator_bits_per_second g) (rg_rate_denominator g)
    (rg_credit_quanta g).
#[export] Instance eta_dcqcn_gen : RecordEta DcqcnGenerator := fun g =>
  mkDcqcnGen (dg_rate g) (dg_controller g) (dg_cnp_size_bytes g).
#[export] Instance eta_roce_pacer : RecordEta RocePacer := fun p =>
  mkRocePacer (rp_first_pacing_time_ns p) (rp_pacing_interval_ns p) (rp_mtu_bytes p)
    (rp_total_bytes p) (rp_credit_quanta p).
#[export] Instance eta_roce : RecordEta RoceGenerator := fun g =>
  mkRoce (rc_pacer g) (rc_controller g) (rc_pacing_timer_payload g) (rc_next_psn g)
    (rc_snd_una g) (rc_rto_deadline_ns g) (rc_rto_ns g) (rc_window_bytes g)
    (rc_pacer_armed g) (rc_variable_window g) (rc_window_parked g)
    (rc_congestion_control g).
#[export] Instance eta_tcp_gen : RecordEta TcpGenerator := fun g =>
  mkTcpGen (tg_total_bytes g) (tg_mss_bytes g) (tg_ack_size_bytes g)
    (tg_next_sequence g) (tg_highest_ack g) (tg_bytes_in_flight g)
    (tg_duplicate_acks g) (tg_recovery_high_sequence g) (tg_last_attempt g)
    (tg_timer_generation g) (tg_active_timer g) (tg_srtt_ns g) (tg_rtt_var_ns g)
    (tg_rto_ns g) (tg_control g).
#[export] Instance eta_generator : RecordEta FlowGeneratorState := fun g =>
  mkGenerator (fg_flow g) (fg_packets_emitted g) (fg_bytes_emitted g)
    (fg_next_emission g) (fg_rng_state g) (fg_feedback g) (fg_kind g).

(** ** Receivers *)

Record TcpReceiveRange := mkRange { rr_start : Z; rr_end : Z }.

Record TcpReceiverState := mkTcpReceiver {
  tr_flow : FlowId;
  tr_ack_size_bytes : Z;
  tr_next_expected_sequence : Z;
  tr_out_of_order : list TcpReceiveRange;
}.

Definition tcp_receiver_new (flow : FlowId) (ack_size_bytes : Z) : TcpReceiverState :=
  mkTcpReceiver flow ack_size_bytes 0 [].

Record DcqcnReceiverState := mkDcqcnReceiver {
  dr_flow : FlowId;
  dr_cnp_interval_ns : Z;
  dr_cnp_size_bytes : Z;
  dr_last_cnp_time_ns : option Z;
}.

Record RoceNackMark := mkNackMark { nm_expected_psn : Z; nm_time_ns : Z }.

Record RoceReceiverState := mkRoceReceiver {
  rv_flow : FlowId;
  rv_total_bytes : Z;
  rv_expected_psn : Z;
  rv_ack_every_packets : Z;
  rv_packets_since_ack : Z;
  rv_ack_size_bytes : Z;
  rv_nack_interval_ns : Z;
  rv_last_nack : option RoceNackMark;
  rv_duplicate_ack : bool;
}.

#[export] Instance eta_tcp_receiver : RecordEta TcpReceiverState := fun r =>
  mkTcpReceiver (tr_flow r) (tr_ack_size_bytes r) (tr_next_expected_sequence r)
    (tr_out_of_order r).
#[export] Instance eta_dcqcn_receiver : RecordEta DcqcnReceiverState := fun r =>
  mkDcqcnReceiver (dr_flow r) (dr_cnp_interval_ns r) (dr_cnp_size_bytes r)
    (dr_last_cnp_time_ns r).
#[export] Instance eta_roce_receiver : RecordEta RoceReceiverState := fun r =>
  mkRoceReceiver (rv_flow r) (rv_total_bytes r) (rv_expected_psn r)
    (rv_ack_every_packets r) (rv_packets_since_ack r) (rv_ack_size_bytes r)
    (rv_nack_interval_ns r) (rv_last_nack r) (rv_duplicate_ack r).

(** ** Stages *)

Inductive CollectiveAlgorithm :=
| RingAllReduce | AllGather | ReduceScatter | AllToAll | SendRecv.

Inductive CollectivePhase :=
| PhaseReduceScatter | PhaseAllGather | PhaseAllToAll | PhaseSendRecv.

Inductive CollectiveChunkPolicy := EqualRemainderLast | UniformFloor | Seeded.

Inductive CollectiveChannelPolicy := RingNext | Channels | AllPairs | Pair.

Inductive StagePredecessors :=
| PredNone
| PredOne (flow : FlowId)
| PredJoin (first count : Z).

Definition pred_count (p : StagePredecessors) : Z :=
  match p with PredNone => 0 | PredOne _ => 1 | PredJoin _ count => count end.

Definition pred_one (p : StagePredecessors) : option FlowId :=
  match p with PredOne flow => Some flow | _ => None end.

(** [joins.get(first..first + count)], empty when the run leaves the table. *)
Definition join_run (p : StagePredecessors) (joins : list FlowId) : list FlowId :=
  match p with
  | PredNone | PredOne _ => []
  | PredJoin first count =>
      if first + count <=? Z.of_nat (length joins)
      then take (Z.to_nat count) (drop (Z.to_nat first) joins) else []
  end.

Definition pred_iter (p : StagePredecessors) (joins : list FlowId) : list FlowId :=
  option_list (pred_one p) ++ join_run p joins.

Record StageDependencies := mkDeps {
  sd_local : StagePredecessors;
  sd_inbound : StagePredecessors;
  sd_inbound_predecessor_bytes : Z;
  sd_inbound_bytes_received : Z;
  sd_local_completed : Z;
}.

Definition local_complete (d : StageDependencies) : bool :=
  sd_local_completed d =? pred_count (sd_local d).
Definition inbound_complete (d : StageDependencies) : bool :=
  sd_inbound_bytes_received d =? sd_inbound_predecessor_bytes d.
Definition prerequisites_complete (d : StageDependencies) : bool :=
  local_complete d && inbound_complete d.

Record CollectiveStageIdentity := mkStageIdentity {
  si_collective_id : Z;
  si_algorithm : CollectiveAlgorithm;
  si_channel : Z;
  si_group_size : Z;
  si_declared_total_bytes : Z;
  si_rank : Z;
  si_phase : CollectivePhase;
  si_step : Z;
  si_chunk_policy : CollectiveChunkPolicy;
  si_channel_policy : CollectiveChannelPolicy;
  si_chunk_offset_bytes : Z;
  si_chunk_bytes : Z;
}.

Record ComputeStage := mkCompute {
  cs_compute_id : Z;
  cs_group_size : Z;
  cs_rank : Z;
  cs_duration_ns : Z;
}.

Inductive StageRole :=
| RoleCollective (identity : CollectiveStageIdentity)
| RoleCompute (compute : ComputeStage).

Record CollectiveStage := mkStage {
  st_role : StageRole;
  st_dependencies : StageDependencies;
  st_activated : bool;
}.

#[export] Instance eta_deps : RecordEta StageDependencies := fun d =>
  mkDeps (sd_local d) (sd_inbound d) (sd_inbound_predecessor_bytes d)
    (sd_inbound_bytes_received d) (sd_local_completed d).
#[export] Instance eta_stage : RecordEta CollectiveStage := fun s =>
  mkStage (st_role s) (st_dependencies s) (st_activated s).

(** ** Hosts *)

Record HostPfcState := mkHostPfc {
  hp_paused_by_controller : list (bset NodeId);
  hp_pause_parked : list (bset Z);
}.

(** [is_paused(priority)]; [None] is the panic of an index beyond the array. *)
Definition host_is_paused (s : HostPfcState) (priority : nat) : option bool :=
  controllers ← hp_paused_by_controller s !! priority;
  Some (negb (bool_decide (controllers = []))).

Record HostState := mkHost {
  hs_egress_link : LinkId;
  hs_queue : list PayloadId;
  hs_in_service : option PayloadId;
  hs_tx_ready_pending : bool;
  hs_generators : list FlowGeneratorState;
  hs_stages : list (option CollectiveStage);
  hs_tcp_receivers : list TcpReceiverState;
  hs_dcqcn_receivers : list DcqcnReceiverState;
  hs_roce_receivers : option (list RoceReceiverState);
  hs_pfc : option HostPfcState;
  hs_next_origin_seq : Z;
  hs_next_payload_seq : Z;
  hs_sourced_packets : Z;
  hs_departed_packets : Z;
  hs_received_packets : Z;
}.

#[export] Instance eta_host_pfc : RecordEta HostPfcState := fun s =>
  mkHostPfc (hp_paused_by_controller s) (hp_pause_parked s).
#[export] Instance eta_host : RecordEta HostState := fun s =>
  mkHost (hs_egress_link s) (hs_queue s) (hs_in_service s) (hs_tx_ready_pending s)
    (hs_generators s) (hs_stages s) (hs_tcp_receivers s) (hs_dcqcn_receivers s)
    (hs_roce_receivers s) (hs_pfc s) (hs_next_origin_seq s) (hs_next_payload_seq s)
    (hs_sourced_packets s) (hs_departed_packets s) (hs_received_packets s).

Definition host_stage (s : HostState) (position : nat) : option CollectiveStage :=
  mjoin (hs_stages s !! position).

Definition stage_dependencies (s : HostState) (position : nat) : option StageDependencies :=
  st_dependencies <$> host_stage s position.

(** [None] is the panic on a generator that is not a stage. *)
Definition set_stage_dependencies (s : HostState) (position : nat)
    (dependencies : StageDependencies) : option HostState :=
  st ← host_stage s position;
  Some (s <| hs_stages ::= <[position := Some (st <| st_dependencies := dependencies |>)]> |>).

Definition generators_with_stages (s : HostState)
  : list (FlowGeneratorState * option CollectiveStage) :=
  imap (fun position generator => (generator, host_stage s position)) (hs_generators s).

Definition stages_are_canonical (s : HostState) : bool :=
  bool_decide (hs_stages s = [])
  || (bool_decide (length (hs_stages s) = length (hs_generators s))
      && existsb (fun st => match st with Some _ => true | None => false end) (hs_stages s)).

(** ** Switches *)

Record PfcIngressState := mkIngress {
  in_controlled_link : LinkId;
  in_control_channel_index : Z;
  in_buffer_capacity_bytes : list Z;
  in_max_frame_bytes : list Z;
  in_xoff_threshold_bytes : list Z;
  in_xon_threshold_bytes : list Z;
  in_occupancy_bytes : list Z;
  in_pause_asserted : list bool;
}.

Record PfcQueueState := mkPfcQueue {
  pq_paused_by_controller : list (bset NodeId);
  pq_ingresses : list PfcIngressState;
}.

(** [is_paused(priority)]; [None] is the panic of an index beyond the array. *)
Definition queue_is_paused (s : PfcQueueState) (priority : nat) : option bool :=
  controllers ← pq_paused_by_controller s !! priority;
  Some (negb (bool_decide (controllers = []))).

Record SwitchQueueState := mkSwitchQueue {
  sq_egress_link : option LinkId;
  sq_scheduler : SchedulerKind;
  sq_queue_capacity_packets : Z;
  sq_drop_mark : DropMarkPolicy;
  sq_pfc : option PfcQueueState;
  sq_queue : list PayloadId;
  sq_in_service : option PayloadId;
  sq_tx_ready_pending : bool;
}.

Record SwitchState := mkSwitch {
  sw_physical_switch : Z;
  sw_queues : list SwitchQueueState;
  sw_next_origin_seq : Z;
  sw_arrived_packets : Z;
  sw_dropped_packets : Z;
  sw_departed_packets : Z;
}.

#[export] Instance eta_ingress : RecordEta PfcIngressState := fun s =>
  mkIngress (in_controlled_link s) (in_control_channel_index s)
    (in_buffer_capacity_bytes s) (in_max_frame_bytes s) (in_xoff_threshold_bytes s)
    (in_xon_threshold_bytes s) (in_occupancy_bytes s) (in_pause_asserted s).
#[export] Instance eta_pfc_queue : RecordEta PfcQueueState := fun s =>
  mkPfcQueue (pq_paused_by_controller s) (pq_ingresses s).
#[export] Instance eta_switch_queue : RecordEta SwitchQueueState := fun s =>
  mkSwitchQueue (sq_egress_link s) (sq_scheduler s) (sq_queue_capacity_packets s)
    (sq_drop_mark s) (sq_pfc s) (sq_queue s) (sq_in_service s) (sq_tx_ready_pending s).
#[export] Instance eta_switch : RecordEta SwitchState := fun s =>
  mkSwitch (sw_physical_switch s) (sw_queues s) (sw_next_origin_seq s)
    (sw_arrived_packets s) (sw_dropped_packets s) (sw_departed_packets s).

(** ** Links and channels *)

Record LinkDescriptor := mkLink {
  lk_id : LinkId;
  lk_source : NodeId;
  lk_target : NodeId;
  lk_rate_bps : Z;
  lk_propagation_ns : Z;
}.

Definition link_delay_ns (l : LinkDescriptor) (bytes : Z) : result TimeError Z :=
  link_arrival_time_ns 0 bytes (lk_rate_bps l) (lk_propagation_ns l).

Definition arrival_time_ns (l : LinkDescriptor) (start_time_ns bytes : Z)
  : result TimeError Z :=
  link_arrival_time_ns start_time_ns bytes (lk_rate_bps l) (lk_propagation_ns l).

Record RemoteChannel := mkChannel {
  ch_source : NodeId;
  ch_target : NodeId;
  ch_link : LinkId;
  ch_event_kind : EventKind;
  ch_min_delay_ns : Z;
}.

Definition for_packet_link_to (link : LinkDescriptor) (target : NodeId)
    (min_packet_size_bytes : Z) : result TimeError RemoteChannel :=
  min_delay_ns ← link_delay_ns link min_packet_size_bytes;
  Ok (mkChannel (lk_source link) target (lk_id link) RemoteArrival min_delay_ns).

Definition for_packet_link (link : LinkDescriptor) (min_packet_size_bytes : Z)
  : result TimeError RemoteChannel :=
  for_packet_link_to link (lk_target link) min_packet_size_bytes.

(** ** The image *)

Inductive RoutingSkew := Uniform | Zipf1.

Record SeededAllToAll := mkSeeded {
  sa_seed : Z;
  sa_matrix : Z;
  sa_group : Z;
  sa_transpose : bool;
  sa_experts : Z;
  sa_topk : Z;
  sa_tokens : Z;
  sa_bytes_per_copy : Z;
  sa_skew : RoutingSkew;
}.

Inductive StageOperation := OpCollective (id : Z) | OpCompute (id : Z).

Record StageStream := mkStream { ss_operation : StageOperation; ss_stream : Z }.

Record SeededCollective := mkSeededCollective {
  sc_collective_id : Z;
  sc_matrix : SeededAllToAll;
}.

Record SimulationImage := mkImage {
  im_stop_time_ns : Z;
  im_nodes : list NodeDescriptor;
  im_host_states : list HostState;
  im_switch_states : list SwitchState;
  im_flows : list FlowDescriptor;
  im_initial_packets : list PacketDescriptor;
  im_links : list LinkDescriptor;
  im_channels : list RemoteChannel;
  im_initial_events : list Event;
  im_seed : Z;
  im_stage_joins : list FlowId;
  im_seeded_all_to_alls : list SeededCollective;
  im_stage_streams : list StageStream;
}.
