(* ===== verification/Roce.v ===== *)
(** * RoCE queue pairs (executor/src/roce.rs)

    The pure Go-back-N rules the transitions apply: the size and cost of a
    packet, the status of a pacing tick, the window, the restart grid point, the
    receiver's decision and the DCQCN notification point. *)

From S2P Require Import Prelude OrdMap Event Dcqcn Image.

Definition roce_packet_size (roce : RoceGenerator) (psn : Z) : Z :=
  let remaining := rp_total_bytes (rc_pacer roce) -w psn in
  if rp_mtu_bytes (rc_pacer roce) <? remaining
  then rp_mtu_bytes (rc_pacer roce) else remaining.

Definition packet_cost (size_bytes : Z) : Z := size_bytes * 8 * 1000000000.

(** The queue pair's window at the current rate, [None] when it is off. *)
Definition window_bytes (roce : RoceGenerator) : option Z :=
  if rc_window_bytes roce =? 0 then None
  else if negb (rc_variable_window roce) then Some (rc_window_bytes roce)
  else
    let scaled := rc_window_bytes roce * current_rate_bps (rc_controller roce)
                  / Z.max (maximum_rate_bps (config (rc_controller roce))) 1 in
    Some (Z.max (default u64_max (try_u64 scaled)) 1).

Definition window_bound (roce : RoceGenerator) : bool :=
  match window_bytes roce with
  | None => false
  | Some window => window <=? saturating_sub (rc_next_psn roce) (rc_snd_una roce)
  end.

Definition armed_status (roce : RoceGenerator) : GeneratorStatus :=
  if (rp_total_bytes (rc_pacer roce) <=? rc_next_psn roce) || window_bound roce
  then Blocked
  else
    let tick := current_rate_bps (rc_controller roce)
                * rp_pacing_interval_ns (rc_pacer roce) in
    match checked_add_128 (rp_credit_quanta (rc_pacer roce)) tick with
    | Some credit =>
        if packet_cost (roce_packet_size roce (rc_next_psn roce)) <=? credit
        then Scheduled else Blocked
    | None => Blocked
    end.

Inductive TickPark := ClassPaused | WindowBlocked.

Definition settled_status (roce : RoceGenerator) (parked_status : GeneratorStatus)
  : GeneratorStatus :=
  if rp_total_bytes (rc_pacer roce) <=? rc_snd_una roce then Finished
  else if rc_pacer_armed roce then armed_status roce
  else parked_status.

(** The first grid point strictly after [now_ns]; [None] on overflow. *)
Definition restart_time_ns (roce : RoceGenerator) (now_ns : Z) : option Z :=
  let first := rp_first_pacing_time_ns (rc_pacer roce) in
  let interval := rp_pacing_interval_ns (rc_pacer roce) in
  if now_ns <? first then Some first
  else
    let elapsed_ticks := (now_ns - first) / interval in
    ticks ← checked_add elapsed_ticks 1;
    offset ← checked_mul ticks interval;
    checked_add offset first.

Inductive RoceReceiverAction :=
| ActAck
| ActDuplicateAck
| ActNack
| ActNackSuppressed
| ActNone.

#[export] Instance RoceReceiverAction_eq_dec : EqDecision RoceReceiverAction.
Proof. solve_decision. Defined.

Definition sends_feedback (a : RoceReceiverAction) : bool :=
  match a with ActAck | ActDuplicateAck | ActNack => true | _ => false end.

(** Whether the rate limit admits a NACK for the frontier at [now_ns]. *)
Definition nack_admitted (receiver : RoceReceiverState) (now_ns : Z) : bool :=
  match rv_last_nack receiver with
  | None => true
  | Some mark =>
      negb (nm_expected_psn mark =? rv_expected_psn receiver)
      || match checked_add (nm_time_ns mark) (rv_nack_interval_ns receiver) with
         | Some earliest => earliest <=? now_ns
         | None => false
         end
  end.

Definition receive_action (receiver : RoceReceiverState) (psn size_bytes now_ns : Z)
  : RoceReceiverState * RoceReceiverAction :=
  if psn =? rv_expected_psn receiver then
    let receiver := receiver <| rv_expected_psn ::= fun e => e +w size_bytes |> in
    let receiver := receiver <| rv_packets_since_ack ::= fun n => n +w 1 |> in
    (receiver,
     if (rv_ack_every_packets receiver <=? rv_packets_since_ack receiver)
        || (rv_expected_psn receiver =? rv_total_bytes receiver)
     then ActAck else ActNone)
  else if psn <? rv_expected_psn receiver then
    (receiver, if rv_duplicate_ack receiver then ActDuplicateAck else ActNone)
  else if nack_admitted receiver now_ns then
    (receiver <| rv_last_nack := Some (mkNackMark (rv_expected_psn receiver) now_ns) |>,
     ActNack)
  else (receiver, ActNackSuppressed).

Definition receive (receiver : RoceReceiverState) (psn size_bytes now_ns : Z)
  : RoceReceiverState * RoceReceiverAction :=
  let '(receiver, action) := receive_action receiver psn size_bytes now_ns in
  (if sends_feedback action then receiver <| rv_packets_since_ack := 0 |> else receiver,
   action).

Definition notification_point_sends_cnp (np : DcqcnReceiverState) (now_ns : Z)
    (congestion_experienced : bool) : DcqcnReceiverState * bool :=
  let interval_open :=
    match dr_last_cnp_time_ns np with
    | None => true
    | Some last =>
        match checked_add last (dr_cnp_interval_ns np) with
        | Some earliest => earliest <=? now_ns
        | None => false
        end
    end in
  if negb congestion_experienced || negb interval_open then (np, false)
  else (np <| dr_last_cnp_time_ns := Some now_ns |>, true).

Inductive RocePacerState := PacerArmed | PacerParked | PacerStopped.

Record RoceSenderView := mkSenderView {
  sv_next_psn : Z;
  sv_snd_una : Z;
  sv_bytes_emitted : Z;
  sv_packets_emitted : Z;
  sv_credit_quanta : Z;
  sv_rto_deadline_ns : option Z;
  sv_pacer : RocePacerState;
  sv_next_tick_ns : option Z;
  sv_status : GeneratorStatus;
}.

Definition sender_view (generator : FlowGeneratorState) (roce : RoceGenerator)
  : RoceSenderView :=
  let pacer :=
    if rc_pacer_armed roce then PacerArmed
    else if bool_decide (se_status (fg_next_emission generator) = Stopped) then PacerStopped
    else PacerParked in
  mkSenderView (rc_next_psn roce) (rc_snd_una roce) (fg_bytes_emitted generator)
    (fg_packets_emitted generator) (rp_credit_quanta (rc_pacer roce))
    (if negb (rc_rto_ns roce =? 0) && (rc_snd_una roce <? fg_bytes_emitted generator)
     then Some (rc_rto_deadline_ns roce) else None)
    pacer
    (match pacer with
     | PacerParked => None
     | _ => Some (se_departure_time_ns (fg_next_emission generator))
     end)
    (se_status (fg_next_emission generator)).

(** ** The receiver against its specification

    A queue pair of [total] bytes is sent as the packets [boundaries]. The
    receiver's contract: its frontier is the end of the longest initial run of
    those packets that the arrivals contain as a subsequence. *)

Section go_back_n.
Context (mtu total : Z).

(** The size of packet [psn]. *)
Definition segment (psn : Z) : Z := Z.min mtu (total - psn).

(** The abstract receiver: how many packets of the message were delivered in
    order, by matching the arrivals against the packets still expected. *)
Fixpoint deliver (delivered : nat) (psns : list Z) : nat :=
  match psns with
  | [] => delivered
  | psn :: psns =>
      deliver (if psn =? Z.of_nat delivered * mtu then S delivered else delivered) psns
  end.

(** The frontier after [n] packets of the message. *)
Definition frontier (n : nat) : Z := Z.min total (Z.of_nat n * mtu).

(** One log entry of the receiver: when the packet came, the frontier it found
    and what the receiver answered. *)
Record Answer := mkAnswer {
  an_now : Z;
  an_frontier : Z;
  an_action : RoceReceiverAction;
}.

(** The receiver run over arrivals [(psn, now_ns)] of well-sized packets. *)
Fixpoint receive_all (receiver : RoceReceiverState) (arrivals : list (Z * Z))
  : RoceReceiverState * list Answer :=
  match arrivals with
  | [] => (receiver, [])
  | (psn, now_ns) :: arrivals =>
      let '(receiver', action) := receive receiver psn (segment psn) now_ns in
      let '(last, answers) := receive_all receiver' arrivals in
      (last, mkAnswer now_ns (rv_expected_psn receiver) action :: answers)
  end.

(** The first [n] packets of the message, by PSN. *)
Definition packets (n : nat) : list Z := (fun i => Z.of_nat i * mtu) <$> seq 0 n.

(** [n] counts packets of the message: the last one starts before [total]. *)
Definition packet_count_ok (n : nat) : Prop := (Z.of_nat n - 1) * mtu < total.

(** The arrivals of a well-behaved sender: packet boundaries of the message. *)
Definition boundary (psn : Z) : Prop :=
  exists i : nat, psn = Z.of_nat i * mtu /\ psn < total.

(** The receiver of this message. *)
Record receiver_ok (r : RoceReceiverState) (n : nat) : Prop := {
  rok_total : rv_total_bytes r = total;
  rok_frontier : rv_expected_psn r = frontier n;
  rok_count : packet_count_ok n;
  rok_every : in_u64 (rv_ack_every_packets r) /\ 0 < rv_ack_every_packets r;
  rok_cadence : 0 <= rv_packets_since_ack r < rv_ack_every_packets r;
}.

Context (Hmtu : 0 < mtu) (Htotal : 0 < total) (Hfits : total <= u64_max).

Lemma frontier_spec n : packet_count_ok n ->
  (frontier n = Z.of_nat n * mtu /\ Z.of_nat n * mtu < total)
  \/ (frontier n = total /\ total <= Z.of_nat n * mtu).
Proof. unfold frontier, packet_count_ok. lia. Qed.

Lemma frontier_hit n psn : packet_count_ok n -> boundary psn ->
  psn = frontier n <-> psn = Z.of_nat n * mtu.
Proof.
  intros Hn (i & -> & Hi). unfold packet_count_ok, frontier in *. split; intros; nia.
Qed.

Lemma frontier_advance n : packet_count_ok n -> Z.of_nat n * mtu < total ->
  frontier n +w segment (frontier n) = frontier (S n) /\ packet_count_ok (S n).
Proof.
  intros Hn Hlt. unfold packet_count_ok, frontier, segment in *.
  rewrite wadd_small by nia. split; nia.
Qed.

(** One arrival moves the receiver as it moves the specification. *)
Lemma receive_simulates r n psn now :
  receiver_ok r n -> boundary psn ->
  receiver_ok (receive r psn (segment psn) now).1
    (if psn =? Z.of_nat n * mtu then S n else n).
Proof.
  intros Hr Hb. destruct Hr as [Ht Hf Hc [He He0] Hp].
  pose proof (frontier_hit n psn Hc Hb) as Hhit.
  unfold receive, receive_action. rewrite Hf.
  destruct (psn =? frontier n) eqn:E1.
  - apply Z.eqb_eq in E1. destruct (Z.eqb_spec psn (Z.of_nat n * mtu)); [|tauto].
    destruct Hb as (i & Hi & Hlt).
    destruct (frontier_advance n Hc ltac:(lia)) as [Ha Hc'].
    rewrite E1. simpl. rewrite Hf, Ha.
    assert (0 <= rv_packets_since_ack r +w 1 <= rv_ack_every_packets r).
    { unfold in_u64 in He. rewrite wadd_small; lia. }
    destruct (_ || _) eqn:E; simpl; split; simpl; auto; [lia|].
    apply orb_false_iff in E as [E _]. lia.
  - apply Z.eqb_neq in E1. destruct (Z.eqb_spec psn (Z.of_nat n * mtu)); [tauto|].
    destruct (psn <? frontier n); [destruct (rv_duplicate_ack r)|destruct (nack_admitted r now)];
      simpl; split; simpl; auto; lia.
Qed.

Lemma receive_all_simulates arrivals : forall r n,
  receiver_ok r n -> Forall boundary arrivals.*1 ->
  receiver_ok (receive_all r arrivals).1 (deliver n arrivals.*1).
Proof.
  induction arrivals as [|[psn now] arrivals IH]; intros r n Hr Hb; simpl; [done|].
  apply Forall_cons in Hb as [Hb1 Hb]. pose proof (receive_simulates r n psn now Hr Hb1) as H1.
  destruct (receive r psn (segment psn) now) as [r' a]. specialize (IH r' _ H1 Hb).
  by destruct (receive_all r' arrivals).
Qed.

Lemma receive_all_every arrivals : forall r,
  rv_ack_every_packets (receive_all r arrivals).1 = rv_ack_every_packets r.
Proof.
  induction arrivals as [|[psn now] arrivals IH]; intros r; simpl; [done|].
  assert (H : rv_ack_every_packets (receive r psn (segment psn) now).1 = rv_ack_every_packets r).
  { unfold receive, receive_action. by repeat case_match; simplify_eq/=. }
  destruct (receive r psn (segment psn) now) as [r' act]. simpl in H. rewrite <- H, <- (IH r').
  by destruct (receive_all r' arrivals).
Qed.

(** The packets matched greedily are a longest matched run. *)
Lemma deliver_sublist psns : forall n k,
  ((fun i => Z.of_nat i * mtu) <$> seq n k) `sublist_of` psns
  <-> (n + k <= deliver n psns)%nat.
Proof.
  assert (Hle : forall psns n, (n <= deliver n psns)%nat).
  { induction psns0 as [|p ps IH]; intros n; simpl; [lia|].
    destruct (p =? _); [pose proof (IH (S n)); lia|apply IH]. }
  induction psns as [|psn psns IH]; intros n k; simpl.
  - destruct k; simpl; [split; [lia|constructor]|].
    split; [by intros ?%sublist_nil_r|lia].
  - destruct k as [|k]; [simpl; split; [|intros; apply sublist_nil_l]|].
    { intros _. destruct (psn =? _); [pose proof (Hle psns (S n))|pose proof (Hle psns n)]; lia. }
    rewrite sublist_cons_r. cbn [seq fmap list_fmap].
    destruct (Z.eqb_spec psn (Z.of_nat n * mtu)) as [->|Hne].
    + rewrite Nat.add_succ_r, <- Nat.add_succ_l, <- IH. split.
      * intros [Hs|(l & [= <-] & Hs)]; [|done]. etrans; [|exact Hs]. by apply sublist_cons.
      * intros Hs. right. eauto.
    + rewrite <- IH. cbn [seq fmap list_fmap]. split; [|tauto].
      intros [Hs|(l & [= Heq _] & _)]; [done|congruence].
Qed.

(** Reaching the end of the message is answered by an ACK. *)
Lemma completion_acked arrivals : forall r n,
  receiver_ok r n -> Forall boundary arrivals.*1 ->
  rv_expected_psn r < total -> rv_expected_psn (receive_all r arrivals).1 = total ->
  exists a, a ∈ (receive_all r arrivals).2 /\ an_action a = ActAck.
Proof.
  induction arrivals as [|[psn now] arrivals IH]; intros r n Hr Hb; simpl; [lia|].
  apply Forall_cons in Hb as [Hb1 Hb]. intros Hlt.
  pose proof (receive_simulates r n psn now Hr Hb1) as H1.
  destruct (receive r psn (segment psn) now) as [r' a] eqn:E. simpl in H1.
  pose proof (IH r' _ H1 Hb) as IH'.
  destruct (receive_all r' arrivals) as [last answers]. simpl in *. intros Hend.
  destruct (Z_lt_le_dec (rv_expected_psn r') total) as [Hlt'|Hge].
  - destruct (IH' Hlt' Hend) as (x & Hx & ?). exists x. split; [by right|done].
  - eexists. split; [left|]. simpl. clear IH' Hend.
    destruct H1 as [Ht Hf _ _ _]. revert E. unfold receive, receive_action.
    destruct (psn =? rv_expected_psn r); [|destruct (psn <? rv_expected_psn r)];
      [|destruct (rv_duplicate_ack r)|destruct (nack_admitted r now)];
      simpl; try (intros [= <- <-]; simpl in Hge; lia).
    destruct (_ || _) eqn:Eo; simpl; intros [= <- <-]; [done|].
    apply orb_false_iff in Eo as [_ Eo]. simpl in *. unfold frontier in Hf. lia.
Qed.

(** ** The NACK rate limit *)

Lemma receive_interval r psn size now :
  rv_nack_interval_ns (receive r psn size now).1 = rv_nack_interval_ns r.
Proof. unfold receive, receive_action. by repeat case_match; simplify_eq/=. Qed.

(** Two NACKs of one frontier are [interval] apart. *)
Definition spaced (interval : Z) (a b : Answer) : Prop :=
  an_action a = ActNack -> an_action b = ActNack ->
  an_frontier a = an_frontier b -> an_now a + interval <= an_now b.

(** What the receiver still knows of an earlier NACK: its frontier has been
    passed, or the last mark is of the same frontier and no earlier. *)
Definition remembered (r : RoceReceiverState) (a : Answer) : Prop :=
  an_action a = ActNack ->
  an_frontier a < rv_expected_psn r
  \/ exists m, rv_last_nack r = Some m /\ nm_expected_psn m = rv_expected_psn r
       /\ an_frontier a = rv_expected_psn r /\ an_now a <= nm_time_ns m.

(** The state after a Go-back-N step, by the branch taken. *)
Lemma receive_cases r n psn now :
  receiver_ok r n -> boundary psn ->
  let r' := (receive r psn (segment psn) now).1 in
  let a := (receive r psn (segment psn) now).2 in
  (rv_expected_psn r < rv_expected_psn r' /\ rv_last_nack r' = rv_last_nack r
     /\ a <> ActNack /\ a <> ActNackSuppressed)
  \/ (rv_expected_psn r' = rv_expected_psn r /\ rv_last_nack r' = rv_last_nack r
     /\ a <> ActNack /\ (a = ActNackSuppressed -> nack_admitted r now = false))
  \/ (rv_expected_psn r' = rv_expected_psn r /\ a = ActNack /\ nack_admitted r now = true
     /\ rv_last_nack r' = Some (mkNackMark (rv_expected_psn r) now)).
Proof.
  intros Hr Hb. pose proof (receive_simulates r n psn now Hr Hb) as H'.
  destruct Hr as [Ht Hf Hc _ _]. destruct H' as [_ Hf' _ _ _]. revert Hf'.
  pose proof (frontier_hit n psn Hc Hb) as Hhit. destruct Hb as (i & Hi & Hlt).
  unfold receive, receive_action. rewrite Hf.
  destruct (Z.eqb_spec psn (frontier n)) as [E|E].
  - destruct (Z.eqb_spec psn (Z.of_nat n * mtu)); [|tauto].
    assert (frontier n < frontier (S n)) by (unfold frontier in *; nia).
    destruct (_ || _); simpl; intros ->; left; done.
  - intros _. right. destruct (psn <? frontier n).
    + destruct (rv_duplicate_ack r); simpl; left; done.
    + destruct (nack_admitted r now) eqn:Ea; simpl; [by right|by left].
Qed.

(** An admitted NACK of a remembered frontier respects the interval. *)
Lemma admitted_spaced r a now :
  remembered r a -> nack_admitted r now = true -> an_action a = ActNack ->
  an_frontier a = rv_expected_psn r -> an_now a + rv_nack_interval_ns r <= now.
Proof.
  unfold remembered, nack_admitted. intros H Ha Hn Hf.
  destruct (H Hn) as [?|(m & Hm & Hp & _ & ?)]; [lia|].
  rewrite Hm, Hp, Z.eqb_refl in Ha. simpl in Ha.
  destruct (checked_add _ _) eqn:E; [|done]. apply checked_add_Some in E. lia.
Qed.

Lemma remembered_step r n psn now a :
  receiver_ok r n -> boundary psn -> 0 <= rv_nack_interval_ns r -> remembered r a ->
  remembered (receive r psn (segment psn) now).1 a
  /\ spaced (rv_nack_interval_ns r) a
       (mkAnswer now (rv_expected_psn r) (receive r psn (segment psn) now).2).
Proof.
  intros Hr Hb Hi Ha. pose proof (receive_cases r n psn now Hr Hb) as Hcase. simpl in Hcase.
  destruct (receive r psn (segment psn) now) as [r' act]. simpl in *.
  pose proof (admitted_spaced r a now Ha) as Hsp. unfold spaced, remembered in *. simpl.
  destruct Hcase as [(H1 & H2 & H3 & _)|[(H1 & H2 & H3 & _)|(H1 & -> & H3 & H4)]].
  - split; [|done]. intros Hn. destruct (Ha Hn) as [?|(m & _ & _ & ? & _)]; left; lia.
  - split; [|done]. by rewrite H1, H2.
  - rewrite H1, H4. split; [|auto]. intros Hn. destruct (Ha Hn) as [?|(m & _ & _ & Hf & _)]; [by left|].
    right. eexists. split_and!; [done|done|done|]. specialize (Hsp H3 Hn Hf). simpl. lia.
Qed.

Lemma remembered_all arrivals : forall r n a,
  receiver_ok r n -> Forall boundary arrivals.*1 -> 0 <= rv_nack_interval_ns r ->
  remembered r a -> Forall (spaced (rv_nack_interval_ns r) a) (receive_all r arrivals).2.
Proof.
  induction arrivals as [|[psn now] arrivals IH]; intros r n a Hr Hb Hi Ha; simpl; [constructor|].
  apply Forall_cons in Hb as [Hb1 Hb]. pose proof (receive_simulates r n psn now Hr Hb1) as H1.
  destruct (remembered_step r n psn now a Hr Hb1 Hi Ha) as [Ha' Hsp].
  pose proof (receive_interval r psn (segment psn) now) as Hiv.
  destruct (receive r psn (segment psn) now) as [r' act]. simpl in *.
  rewrite <- Hiv in Hi. specialize (IH r' _ a H1 Hb Hi Ha'). rewrite Hiv in IH.
  destruct (receive_all r' arrivals). by constructor.
Qed.

Lemma nacks_spaced arrivals : forall r n,
  receiver_ok r n -> Forall boundary arrivals.*1 -> 0 <= rv_nack_interval_ns r ->
  StronglySorted (spaced (rv_nack_interval_ns r)) (receive_all r arrivals).2.
Proof.
  induction arrivals as [|[psn now] arrivals IH]; intros r n Hr Hb Hi; simpl; [constructor|].
  apply Forall_cons in Hb as [Hb1 Hb]. pose proof (receive_simulates r n psn now Hr Hb1) as H1.
  pose proof (receive_cases r n psn now Hr Hb1) as Hcase. simpl in Hcase.
  pose proof (receive_interval r psn (segment psn) now) as Hiv.
  destruct (receive r psn (segment psn) now) as [r' act]. simpl in *.
  rewrite <- Hiv in *. specialize (IH r' _ H1 Hb Hi).
  assert (Ha : remembered r' (mkAnswer now (rv_expected_psn r) act)).
  { intros Hn. simpl in *. subst act.
    destruct Hcase as [(? & _ & ? & _)|[(? & _ & ? & _)|(He & _ & _ & Hm)]]; [done|done|].
    right. eexists. rewrite He. split_and!; [done|done|done|]. simpl. lia. }
  pose proof (remembered_all arrivals r' _ _ H1 Hb Hi Ha).
  destruct (receive_all r' arrivals). by constructor.
Qed.

(** A suppressed NACK was preceded by one of the same frontier that is less than
    the interval old. *)
Lemma suppressed_recent arrivals : forall r n hist l1 b l2,
  receiver_ok r n -> Forall boundary arrivals.*1 -> Forall in_u64 arrivals.*2 ->
  (forall m, rv_last_nack r = Some m -> exists a, a ∈ hist /\ an_action a = ActNack
     /\ an_frontier a = nm_expected_psn m /\ an_now a = nm_time_ns m) ->
  (receive_all r arrivals).2 = l1 ++ b :: l2 -> an_action b = ActNackSuppressed ->
  exists a, a ∈ hist ++ l1 /\ an_action a = ActNack /\ an_frontier a = an_frontier b
    /\ an_now b < an_now a + rv_nack_interval_ns r.
Proof.
  induction arrivals as [|[psn now] arrivals IH]; intros r n hist l1 b l2 Hr Hb Ht Hh; simpl.
  { by destruct l1. }
  apply Forall_cons in Hb as [Hb1 Hb]. apply Forall_cons in Ht as [Ht1 Ht].
  pose proof (receive_simulates r n psn now Hr Hb1) as H1.
  pose proof (receive_cases r n psn now Hr Hb1) as Hcase. simpl in Hcase.
  pose proof (receive_interval r psn (segment psn) now) as Hiv.
  destruct (receive r psn (segment psn) now) as [r' act]. simpl in *.
  destruct (receive_all r' arrivals) as [last answers] eqn:El. simpl. intros Heq Hs.
  destruct l1 as [|c l1]; simplify_eq/=.
  - rewrite app_nil_r. destruct Hcase as [(_ & _ & _ & ?)|[(_ & _ & _ & Had)|(_ & ? & _)]]; [done| |done].
    specialize (Had eq_refl). unfold nack_admitted in Had.
    destruct (rv_last_nack r) as [m|]; [|done]. destruct (Hh m eq_refl) as (a & ? & ? & Hf & Hn).
    apply orb_false_iff in Had as [Hp Ha]. exists a. split_and!; [done|done|lia|].
    rewrite Hn. unfold in_u64 in Ht1. destruct (checked_add _ _) eqn:E.
    + apply checked_add_Some in E. lia.
    + apply checked_add_None in E. lia.
  - pose proof (IH r' _ (hist ++ [mkAnswer now (rv_expected_psn r) act]) l1 b l2 H1 Hb Ht) as Hk.
    rewrite El, Hiv in Hk. simpl in Hk. rewrite <- app_assoc in Hk. apply Hk; [|done|done].
    intros m Hm. destruct Hcase as [(_ & Hl & _)|[(_ & Hl & _)|(_ & -> & _ & Hl)]];
      [rewrite Hl in Hm; destruct (Hh m Hm) as (a & ? & ?); exists a; set_solver ..|].
    rewrite Hl in Hm. simplify_eq/=. eexists. split; [apply elem_of_app; right; left|done].
Qed.
End go_back_n.

(** ** Properties *)

(** The receiver a queue pair starts with. *)
Definition fresh_receiver (total every interval : Z) (duplicate_ack : bool)
  : RoceReceiverState :=
  mkRoceReceiver 0 total 0 every 0 64 interval None duplicate_ack.

Lemma fresh_receiver_ok mtu total every interval dup :
  0 < mtu -> 0 < total -> 0 < every <= u64_max ->
  receiver_ok mtu total (fresh_receiver total every interval dup) 0.
Proof.
  intros. split; simpl; unfold packet_count_ok, frontier, in_u64; try lia.
Qed.

(** C35. The Go-back-N receiver delivers exactly what arrived in order. Whatever
    order, loss and duplication the network applies to the packets of a message,
    the frontier after the arrivals is the end of a run of [n] packets, and a run
    of [m] packets is contained in the arrivals as a subsequence exactly when
    [m <= n]; the ACK cadence is never overrun; and when the message is complete
    an ACK has been sent. *)
Theorem go_back_n_delivery mtu total every interval dup arrivals :
  0 < mtu -> 0 < total <= u64_max -> 0 < every <= u64_max ->
  Forall (boundary mtu total) arrivals.*1 ->
  let '(r, answers) :=
    receive_all mtu total (fresh_receiver total every interval dup) arrivals in
  (exists n, packet_count_ok mtu total n /\ rv_expected_psn r = Z.min total (Z.of_nat n * mtu)
     /\ forall m, packets mtu m `sublist_of` arrivals.*1 <-> (m <= n)%nat)
  /\ rv_packets_since_ack r < every
  /\ (rv_expected_psn r = total -> exists a, a ∈ answers /\ an_action a = ActAck).
Proof.
  intros Hm [Ht Hf] He Hb.
  pose proof (fresh_receiver_ok mtu total every interval dup Hm Ht He) as H0.
  pose proof (receive_all_simulates mtu total Hm Ht Hf arrivals _ _ H0 Hb) as H1.
  pose proof (completion_acked mtu total Hm Ht Hf arrivals _ _ H0 Hb) as H2.
  pose proof (receive_all_every mtu total arrivals (fresh_receiver total every interval dup)) as H3.
  destruct (receive_all _ _ _ arrivals) as [r answers]. simpl in *.
  destruct H1 as [_ Hfr Hc _ Hcad]. split; [|split].
  - exists (deliver mtu 0 arrivals.*1). split; [done|split; [exact Hfr|]].
    intros m. apply (deliver_sublist mtu arrivals.*1 0 m).
  - lia.
  - auto.
Qed.

Lemma go_back_n_delivery_witness :
  let arrivals := [(0, 10); (2000, 20); (1000, 30); (1000, 35); (2000, 40)] in
  let '(r, answers) :=
    receive_all 1000 2500 (fresh_receiver 2500 8 100 true) arrivals in
  rv_expected_psn r = 2500
  /\ exists a, a ∈ answers /\ an_action a = ActAck.
Proof.
  pose proof (go_back_n_delivery 1000 2500 8 100 true
    [(0, 10); (2000, 20); (1000, 30); (1000, 35); (2000, 40)]
    ltac:(lia) ltac:(lia) ltac:(lia)) as H.
  specialize (H ltac:(list_forall;
    [exists 0%nat|exists 2%nat|exists 1%nat|exists 1%nat|exists 2%nat]; simpl; lia)).
  vm_compute receive_all in H |- *. destruct H as (_ & _ & H). split; [reflexivity|].
  apply H. reflexivity.
Defined.

(** The receiver's NACKs are rate limited and never silently lost: two NACKs
    that name the same frontier are at least the NACK interval apart, and an
    out-of-order arrival whose NACK is suppressed comes less than the interval
    after a NACK of the same frontier. *)
Theorem nack_rate_limit mtu total every interval dup arrivals :
  0 < mtu -> 0 < total <= u64_max -> 0 < every <= u64_max -> 0 <= interval ->
  Forall (boundary mtu total) arrivals.*1 -> Forall in_u64 arrivals.*2 ->
  let answers :=
    (receive_all mtu total (fresh_receiver total every interval dup) arrivals).2 in
  (forall l1 a l2 b l3, answers = l1 ++ a :: l2 ++ b :: l3 ->
     an_action a = ActNack -> an_action b = ActNack -> an_frontier a = an_frontier b ->
     an_now a + interval <= an_now b)
  /\ (forall l1 b l2, answers = l1 ++ b :: l2 -> an_action b = ActNackSuppressed ->
        exists a, a ∈ l1 /\ an_action a = ActNack /\ an_frontier a = an_frontier b
          /\ an_now b < an_now a + interval).
Proof.
  intros Hm [Ht Hf] He Hi Hb Hn answers.
  pose proof (fresh_receiver_ok mtu total every interval dup Hm Ht He) as H0.
  split.
  - intros l1 a l2 b l3 Heq.
    pose proof (nacks_spaced mtu total Hm Ht Hf arrivals _ _ H0 Hb Hi) as Hs.
    fold answers in Hs. rewrite Heq in Hs. apply StronglySorted_app_1_r in Hs.
    apply StronglySorted_inv in Hs as [_ Hs]. rewrite Forall_forall in Hs.
    intros. apply (Hs b); [set_solver|done ..].
  - intros l1 b l2 Heq Hs.
    by apply (suppressed_recent mtu total Hm Ht Hf arrivals _ _ [] l1 b l2 H0 Hb Hn).
Qed.

Lemma nack_rate_limit_witness :
  exists a b c, (receive_all 1000 4000 (fresh_receiver 4000 8 100 true)
    [(1000, 10); (2000, 50); (3000, 120)]).2 = [a; b; c]
  /\ an_now a + 100 <= an_now c
  /\ an_action b = ActNackSuppressed.
Proof.
  pose proof (nack_rate_limit 1000 4000 8 100 true [(1000, 10); (2000, 50); (3000, 120)]
    ltac:(lia) ltac:(lia) ltac:(lia) ltac:(lia)) as H.
  specialize (H ltac:(list_forall; [exists 1%nat|exists 2%nat|exists 3%nat]; simpl; lia)
    ltac:(list_forall; simpl; unfold in_u64; lia)).
  destruct H as [H _].
  vm_compute receive_all in H |- *. do 3 eexists. split; [reflexivity|]. split; [|reflexivity].
  exact (H [] _ [_] _ [] eq_refl eq_refl eq_refl eq_refl).
Defined.

(** A parked pacer restarts on its pacing grid at the first point strictly
    after the rewind: the result is [first + k * interval] with no grid point
    between [now_ns] and it, and the overflow is reported exactly when that
    point does not fit a [u64]. *)
Theorem restart_on_grid roce now_ns :
  in_u64 now_ns -> in_u64 (rp_first_pacing_time_ns (rc_pacer roce)) ->
  0 < rp_pacing_interval_ns (rc_pacer roce) ->
  let first := rp_first_pacing_time_ns (rc_pacer roce) in
  let interval := rp_pacing_interval_ns (rc_pacer roce) in
  exists k, 0 <= k /\ now_ns < first + k * interval
    /\ (forall j, 0 <= j -> now_ns < first + j * interval -> k <= j)
    /\ restart_time_ns roce now_ns
       = if first + k * interval <=? u64_max then Some (first + k * interval) else None.
Proof.
  intros Hn Hf Hi first interval. unfold restart_time_ns. fold first interval. fold first in Hf.
  fold interval in Hi. clearbody first interval. unfold in_u64 in *.
  destruct (Z.ltb_spec now_ns first) as [Hlt|Hge].
  - exists 0. split_and!; [lia|lia|auto|]. case_match; [f_equal; lia|lia].
  - pose proof (Z.div_mod (now_ns - first) interval ltac:(lia)) as Hd.
    pose proof (Z.mod_pos_bound (now_ns - first) interval ltac:(lia)) as Hr.
    assert (Hq : 0 <= (now_ns - first) / interval) by (apply Z.div_pos; lia).
    set (q := (now_ns - first) / interval) in *. exists (q + 1). split_and!; [lia|nia| |].
    { intros j Hj Hlt. nia. }
    destruct (Z.leb_spec (first + (q + 1) * interval) u64_max) as [Hle|Hgt]; simpl.
    + assert (E1 : checked_add q 1 = Some (q + 1)) by (apply checked_add_Some; nia).
      rewrite E1. simpl.
      assert (E2 : checked_mul (q + 1) interval = Some ((q + 1) * interval))
        by (apply checked_mul_Some; nia).
      rewrite E2. simpl. apply checked_add_Some. lia.
    + destruct (checked_add q 1) as [t|] eqn:E1; [|done]. apply checked_add_Some in E1 as [-> _]. simpl.
      destruct (checked_mul _ _) as [o|] eqn:E2; [|done]. apply checked_mul_Some in E2 as [-> _]. simpl.
      apply checked_add_None. lia.
Qed.

Definition example_roce : RoceGenerator :=
  mkRoce (mkRocePacer 1000 250 1500 150000 0) (fixed_rate 1000000000) 7 0 0 0 0 0
    false false false RoceNone.

Lemma restart_on_grid_witness : restart_time_ns example_roce 1500 = Some 1750.
Proof.
  destruct (restart_on_grid example_roce 1500) as (k & Hk & Hlt & Hmin & ->);
    [unfold in_u64; lia|unfold in_u64; simpl; lia|simpl; lia|].
  change (rp_first_pacing_time_ns (rc_pacer example_roce)) with 1000 in *.
  change (rp_pacing_interval_ns (rc_pacer example_roce)) with 250 in *.
  assert (k = 3) as -> by (specialize (Hmin 3); lia). reflexivity.
Defined.
