(* ===== verification/TcpReceiver.v ===== *)
(** * TCP reassembly (executor/src/scalar.rs, [tcp_receive_range])

    The receiver's out-of-order ranges: one arriving range is merged into the
    sorted list, then the contiguous prefix is absorbed into the cumulative
    acknowledgment point. *)

From S2P Require Import Prelude OrdMap Event Tcp Image.

Lemma range_inj (a b : TcpReceiveRange) :
  (rr_start a, rr_end a) = (rr_start b, rr_end b) -> a = b.
Proof. destruct a, b. by intros [= -> ->]. Qed.

(** [sort_unstable_by_key(|range| (range.start, range.end))]: the key determines
    the range, so every sort by it gives the same list. *)
#[export] Instance range_ord : OrdKey TcpReceiveRange :=
  ord_by (fun r => (rr_start r, rr_end r)) range_inj.

(** One iteration of the merging loop; [merged.last_mut()] is the last element. *)
Definition merge_step (merged : list TcpReceiveRange) (range : TcpReceiveRange)
  : list TcpReceiveRange :=
  match last merged with
  | Some l =>
      if rr_start range <=? rr_end l
      then removelast merged ++ [mkRange (rr_start l) (Z.max (rr_end l) (rr_end range))]
      else merged ++ [range]
  | None => merged ++ [range]
  end.

(** One iteration of the absorbing loop. *)
Definition absorb_step (s : Z * list TcpReceiveRange) (range : TcpReceiveRange)
  : Z * list TcpReceiveRange :=
  let '(next, keep) := s in
  if rr_start range <=? next then (Z.max next (rr_end range), keep)
  else (next, keep ++ [range]).

Definition tcp_receive_range (receiver : TcpReceiverState) (start end_ : Z)
  : TcpReceiverState :=
  if (end_ <=? start) || (end_ <=? tr_next_expected_sequence receiver) then receiver
  else
    let out_of_order := tr_out_of_order receiver ++ [mkRange start end_] in
    let out_of_order := merge_sort kle out_of_order in
    let merged := foldl merge_step [] out_of_order in
    let '(next, keep) :=
      foldl absorb_step (tr_next_expected_sequence receiver, []) merged in
    receiver <| tr_next_expected_sequence := next |> <| tr_out_of_order := keep |>.

(** ** The set of received bytes *)

Definition covers (l : list TcpReceiveRange) (x : Z) : Prop :=
  exists r, r ∈ l /\ rr_start r <= x < rr_end r.

(** Byte [x] of the stream has been received. *)
Definition received (r : TcpReceiverState) (x : Z) : Prop :=
  x < tr_next_expected_sequence r \/ covers (tr_out_of_order r) x.

(** Nonempty ranges with a gap between any two. *)
Definition separated (l : list TcpReceiveRange) : Prop :=
  Forall (fun r => rr_start r < rr_end r) l
  /\ StronglySorted (fun a b => rr_end a < rr_start b) l.

Record receiver_wf (r : TcpReceiverState) : Prop := {
  rw_separated : separated (tr_out_of_order r);
  rw_beyond : Forall (fun x => tr_next_expected_sequence r < rr_start x) (tr_out_of_order r);
}.

Lemma covers_nil x : covers [] x <-> False.
Proof. unfold covers. set_solver. Qed.

Lemma covers_cons r l x :
  covers (r :: l) x <-> rr_start r <= x < rr_end r \/ covers l x.
Proof. unfold covers. set_solver. Qed.

Lemma covers_app l1 l2 x : covers (l1 ++ l2) x <-> covers l1 x \/ covers l2 x.
Proof. unfold covers. set_solver. Qed.

Lemma covers_perm l1 l2 x : l1 ≡ₚ l2 -> covers l1 x <-> covers l2 x.
Proof. unfold covers. intros H. by setoid_rewrite H. Qed.

Lemma separated_cons r l :
  separated (r :: l) <-> rr_start r < rr_end r
    /\ Forall (fun b => rr_end r < rr_start b) l /\ separated l.
Proof.
  unfold separated. rewrite Forall_cons. split.
  - intros [[? ?] [? ?]%StronglySorted_inv]. done.
  - intros (? & ? & ? & ?). split; [done|by constructor].
Qed.

(** The merging loop after its first range, as a recursion on the rest. *)
Fixpoint merge_from (l : TcpReceiveRange) (rest : list TcpReceiveRange)
  : list TcpReceiveRange :=
  match rest with
  | [] => [l]
  | r :: rest =>
      if rr_start r <=? rr_end l
      then merge_from (mkRange (rr_start l) (Z.max (rr_end l) (rr_end r))) rest
      else l :: merge_from r rest
  end.

Lemma foldl_merge_from rest : forall acc l,
  foldl merge_step (acc ++ [l]) rest = acc ++ merge_from l rest.
Proof.
  induction rest as [|r rest IH]; intros acc l; [done|].
  cbn [foldl merge_from]. unfold merge_step at 2. rewrite last_snoc.
  destruct (rr_start r <=? rr_end l).
  - rewrite removelast_last. apply IH.
  - rewrite IH, <- app_assoc. done.
Qed.

Lemma kle_starts (a b : TcpReceiveRange) : kle a b -> rr_start a <= rr_start b.
Proof.
  unfold kle. simpl. unfold lex_compare. simpl.
  destruct (Z.compare_spec (rr_start a) (rr_start b)); [lia|lia|done].
Qed.

Definition starts_le (a b : TcpReceiveRange) : Prop := rr_start a <= rr_start b.

Lemma merge_from_spec rest : forall l,
  Forall (fun r => rr_start r < rr_end r) (l :: rest) ->
  StronglySorted starts_le (l :: rest) ->
  separated (merge_from l rest)
  /\ Forall (starts_le l) (merge_from l rest)
  /\ (forall x, covers (merge_from l rest) x <-> covers (l :: rest) x).
Proof.
  induction rest as [|r rest IH]; intros l Hf Hs; apply Forall_cons in Hf as [Hl Hf];
    cbn [merge_from].
  - rewrite separated_cons. unfold separated, starts_le.
    repeat (split || constructor || apply Hl); tauto || lia.
  - apply Forall_cons in Hf as [Hr Hf]. apply StronglySorted_inv in Hs as [Hs Hall].
    apply Forall_cons in Hall as [Hlr Hall]. unfold starts_le in Hlr.
    destruct (Z.leb_spec (rr_start r) (rr_end l)) as [Hm|Hm].
    + set (m := mkRange (rr_start l) (Z.max (rr_end l) (rr_end r))).
      apply StronglySorted_inv in Hs as [Hs _].
      destruct (IH m) as (H1 & H2 & H3); [constructor; [simpl; lia|done]|by constructor|].
      split_and!; [done|done|]. intros x. rewrite H3, !covers_cons.
      assert (rr_start m <= x < rr_end m
              <-> rr_start l <= x < rr_end l \/ rr_start r <= x < rr_end r) by (simpl; lia).
      tauto.
    + destruct (IH r) as (H1 & H2 & H3); [by constructor|done|].
      assert (H2' : Forall (fun b => rr_end l < rr_start b) (merge_from r rest)).
      { eapply Forall_impl; [exact H2|]. unfold starts_le. simpl. lia. }
      rewrite separated_cons. split_and!; [done|done|done| |].
      * constructor; [unfold starts_le; lia|]. eapply Forall_impl; [exact H2'|].
        unfold starts_le. simpl. lia.
      * intros x. rewrite covers_cons, H3, (covers_cons l). done.
Qed.

(** Ranges beyond the acknowledgment point are all kept. *)
Lemma absorb_beyond l : forall next keep,
  Forall (fun r => next < rr_start r) l ->
  foldl absorb_step (next, keep) l = (next, keep ++ l).
Proof.
  induction l as [|r l IH]; intros next keep Hl; cbn [foldl]; [by rewrite app_nil_r|].
  apply Forall_cons in Hl as [Hr Hl]. unfold absorb_step at 2.
  destruct (Z.leb_spec (rr_start r) next); [lia|]. rewrite IH by done. by rewrite <- app_assoc.
Qed.

Lemma absorb_spec l : forall next, separated l ->
  let '(next', keep) := foldl absorb_step (next, []) l in
  separated keep /\ Forall (fun r => next' < rr_start r) keep
  /\ next <= next'
  /\ forall x, x < next' \/ covers keep x <-> x < next \/ covers l x.
Proof.
  induction l as [|r l IH]; intros next Hsep; cbn [foldl].
  - split_and!; [done|constructor|lia|done].
  - pose proof Hsep as (Hr & Hb & Hl)%separated_cons. unfold absorb_step at 2.
    destruct (Z.leb_spec (rr_start r) next) as [Hle|Hgt].
    + specialize (IH (Z.max next (rr_end r)) Hl).
      destruct (foldl absorb_step _ l) as [next' keep]. destruct IH as (H1 & H2 & H3 & H4).
      split_and!; [done|done|lia|]. intros x. rewrite H4, covers_cons.
      assert (x < Z.max next (rr_end r) <-> x < next \/ rr_start r <= x < rr_end r) by lia.
      tauto.
    + rewrite absorb_beyond.
      * split_and!; [done|constructor; [done|]|lia|done].
        eapply Forall_impl; [exact Hb|]. simpl. lia.
      * eapply Forall_impl; [exact Hb|]. simpl. lia.
Qed.

(** The merging loop over the sorted list. *)
Lemma merge_spec l :
  Forall (fun r => rr_start r < rr_end r) l ->
  let merged := foldl merge_step [] (merge_sort kle l) in
  separated merged /\ forall x, covers merged x <-> covers l x.
Proof.
  intros Hf merged. pose proof (merge_sort_Permutation kle l) as Hp.
  assert (Hs : StronglySorted starts_le (merge_sort kle l)).
  { eapply StronglySorted_mono; [exact kle_starts|]. apply (StronglySorted_merge_sort _ _). }
  rewrite <- Hp in Hf. pose proof (fun x => covers_perm _ _ x Hp) as Hc. subst merged.
  destruct (merge_sort kle l) as [|r rest]; [split; [split; constructor|done]|].
  cbn [foldl]. change (merge_step [] r) with ([] ++ [r]).
  rewrite (foldl_merge_from rest [] r). simpl.
  destruct (merge_from_spec rest r Hf Hs) as (? & _ & H). split; [done|]. intros x. by rewrite H, Hc.
Qed.

(** C36. Reassembly is exact: one arriving range adds exactly its bytes to the set
    of received bytes, the stored ranges stay sorted, nonempty and separated by
    gaps beyond the acknowledgment point, and so the point acknowledged is the
    first byte not received. *)
Theorem receive_range_exact r start end_ :
  receiver_wf r ->
  let r' := tcp_receive_range r start end_ in
  receiver_wf r'
  /\ tr_next_expected_sequence r <= tr_next_expected_sequence r'
  /\ (forall x, received r' x <-> received r x \/ start <= x < end_)
  /\ (forall x, x < tr_next_expected_sequence r' -> received r' x)
  /\ ~ received r' (tr_next_expected_sequence r').
Proof.
  intros Hr r'.
  assert (Hfirst : forall s, receiver_wf s -> (forall x, x < tr_next_expected_sequence s -> received s x)
                    /\ ~ received s (tr_next_expected_sequence s)).
  { intros s [_ Hb]. split; [by left|]. intros [?|(y & Hy & ?)]; [lia|].
    rewrite Forall_forall in Hb. specialize (Hb y Hy). simpl in Hb. lia. }
  assert (Hmain : receiver_wf r' /\ tr_next_expected_sequence r <= tr_next_expected_sequence r'
            /\ (forall x, received r' x <-> received r x \/ start <= x < end_)).
  2:{ destruct Hmain as (H1 & H2 & H3). split_and!; auto; by apply Hfirst. }
  subst r'. unfold tcp_receive_range. destruct Hr as [[Hne Hss] Hb].
  destruct (_ || _) eqn:E.
  - apply orb_true_iff in E as [?|?]; (split_and!; [by repeat split|lia|]);
      unfold received; intros x;
      (assert (start <= x < end_ -> x < tr_next_expected_sequence r) by lia); tauto.
  - apply orb_false_iff in E as [E1 E2].
    destruct (merge_spec (tr_out_of_order r ++ [mkRange start end_])) as [H1 H2].
    { apply Forall_app. split; [done|]. list_forall. simpl. lia. }
    pose proof (absorb_spec _ (tr_next_expected_sequence r) H1) as H3.
    destruct (foldl absorb_step _ _) as [next keep]. destruct H3 as (H4 & H5 & H6 & H7). simpl.
    split_and!; [by split|done|]. intros x. unfold received at 1. simpl. rewrite H7, H2.
    rewrite covers_app, covers_cons, covers_nil. unfold received. simpl. tauto.
Qed.

Lemma receive_range_exact_witness :
  let r := mkTcpReceiver 0 40 1000 [mkRange 2000 3000; mkRange 5000 6000] in
  tcp_receive_range r 1000 2000 = mkTcpReceiver 0 40 3000 [mkRange 5000 6000]
  /\ ~ received (tcp_receive_range r 1000 2000) 3000.
Proof.
  intros r.
  destruct (receive_range_exact r 1000 2000) as (_ & _ & _ & _ & H).
  - split; [split|]; [list_forall; simpl; lia|repeat constructor; simpl; lia|list_forall; simpl; lia].
  - split; [reflexivity|exact H].
Defined.
