(* ===== verification/PfcOrder.v ===== *)
(** * Class orders of paused FIFO queues (executor/src/scalar.rs, [PfcClassOrder])

    The per-class key sequences that answer which queued packet of a FIFO queue
    is the first whose priority is not paused, without reading the queue. *)

From S2P Require Import Prelude OrdMap Event Model Image.

Record PfcClassOrder := mkOrder {
  po_next_seq : Z;
  po_classes : list (list Z);
}.

#[export] Instance eta_order : RecordEta PfcClassOrder := fun o =>
  mkOrder (po_next_seq o) (po_classes o).

Definition order_new : PfcClassOrder := mkOrder 0 (replicate 8 []).

(** [None] is the panic of a class beyond the array. *)
Definition order_push (o : PfcClassOrder) (class : nat) : option PfcClassOrder :=
  keys ← po_classes o !! class;
  Some (o <| po_classes ::= <[class := keys ++ [po_next_seq o]]> |>
          <| po_next_seq ::= fun n => n +w 1 |>).

Definition order_pop (o : PfcClassOrder) (class : nat)
  : option (option Z * PfcClassOrder) :=
  keys ← po_classes o !! class;
  Some (head keys, o <| po_classes ::= <[class := tail keys]> |>).

(** [partition_point] of a sequence its predicate partitions. *)
Fixpoint partition_point {A} (p : A -> bool) (l : list A) : nat :=
  match l with
  | [] => 0
  | x :: l => if p x then S (partition_point p l) else 0
  end.

(** [Iterator::min] on keys. *)
Definition min_key (l : list Z) : option Z :=
  match l with
  | [] => None
  | x :: l => Some (foldl Z.min x l)
  end.

(** The eight classes are in the bounds of the pause array. *)
Definition class_paused (pfc : PfcQueueState) (class : nat) : bool :=
  default false (queue_is_paused pfc class).

Definition first_unpaused_position (o : PfcClassOrder) (pfc : PfcQueueState)
  : option nat :=
  first ← min_key (omap head
            (imap (fun class keys => if class_paused pfc class then [] else keys)
               (po_classes o)));
  Some (sum_list (partition_point (fun key => key <? first) <$> po_classes o)).

Definition pfc_any_paused (pfc : PfcQueueState) : bool :=
  existsb (fun controllers => negb (bool_decide (controllers = [])))
    (pq_paused_by_controller pfc).

(** The search from the head over the classes of the queued packets. *)
Fixpoint search_position (pfc : PfcQueueState) (queue : list nat) : option nat :=
  match queue with
  | [] => None
  | class :: queue =>
      if class_paused pfc class then S <$> search_position pfc queue else Some 0%nat
  end.

(** ** The order against the queue

    [keyed] is the queue with the key each packet was admitted under. *)

Definition class_keys (keyed : list (Z * nat)) (class : nat) : list Z :=
  (filter (fun kc => kc.2 = class) keyed).*1.

Record represents (keyed : list (Z * nat)) (o : PfcClassOrder) : Prop := {
  rep_sorted : StronglySorted Z.lt keyed.*1;
  rep_below : Forall (fun k => k < po_next_seq o) keyed.*1;
  rep_range : Forall (fun c => (c < 8)%nat) keyed.*2;
  rep_classes : po_classes o = class_keys keyed <$> seq 0 8;
}.

Lemma class_keys_app k1 k2 c : class_keys (k1 ++ k2) c = class_keys k1 c ++ class_keys k2 c.
Proof. unfold class_keys. by rewrite filter_app, fmap_app. Qed.

Lemma class_keys_cons kc keyed c :
  class_keys (kc :: keyed) c
  = if decide (kc.2 = c) then kc.1 :: class_keys keyed c else class_keys keyed c.
Proof. unfold class_keys. rewrite filter_cons. by case_decide. Qed.

Lemma class_keys_elem keyed c k : k ∈ class_keys keyed c <-> (k, c) ∈ keyed.
Proof.
  unfold class_keys. rewrite list_elem_of_fmap. split.
  - intros ([k' c'] & -> & [Hc Hin]%list_elem_of_filter). simpl in *. by subst.
  - intros H. exists (k, c). split; [done|]. by apply list_elem_of_filter.
Qed.

Lemma rep_lookup keyed o c : represents keyed o -> (c < 8)%nat ->
  po_classes o !! c = Some (class_keys keyed c).
Proof.
  intros H Hc. rewrite (rep_classes _ _ H), list_lookup_fmap, lookup_seq_lt by done. done.
Qed.

Lemma rep_insert keyed keyed' o c :
  represents keyed o -> (c < 8)%nat ->
  (forall c', c' <> c -> class_keys keyed' c' = class_keys keyed c') ->
  <[c := class_keys keyed' c]> (po_classes o) = class_keys keyed' <$> seq 0 8.
Proof.
  intros H Hc Hne. rewrite (rep_classes _ _ H). apply list_eq. intros i.
  destruct (decide (i < 8)%nat) as [Hi|Hi].
  - rewrite list_lookup_fmap, lookup_seq_lt by done. cbn [fmap option_fmap option_map Nat.add].
    destruct (decide (c = i)) as [->|Hci].
    + apply list_lookup_insert_eq. by rewrite length_fmap, length_seq.
    + rewrite list_lookup_insert_ne by done.
      rewrite list_lookup_fmap, lookup_seq_lt by done. cbn [fmap option_fmap option_map Nat.add]. by rewrite Hne.
  - etrans; [apply lookup_ge_None_2|symmetry; apply lookup_ge_None_2];
      rewrite ?length_insert, ?length_fmap, ?length_seq; lia.
Qed.

Lemma rep_new : represents [] order_new.
Proof. split; simpl; try constructor. Qed.

(** An admission appends to the order as it appends to the queue. *)
Lemma push_represents keyed o c :
  represents keyed o -> (c < 8)%nat -> 0 <= po_next_seq o < u64_max ->
  exists o', order_push o c = Some o' /\ represents (keyed ++ [(po_next_seq o, c)]) o'
    /\ po_next_seq o' = po_next_seq o + 1.
Proof.
  intros H Hc Hn. unfold order_push. rewrite (rep_lookup _ _ _ H Hc). simpl.
  eexists. split; [done|]. simpl. rewrite wadd_small by lia. split; [|done].
  destruct H as [Hs Hb Hr Hcl]. split; simpl.
  - rewrite fmap_app. apply StronglySorted_app_2; [|done|repeat constructor].
    intros x y Hx Hy. rewrite Forall_forall in Hb. specialize (Hb x Hx). simpl in *. set_solver.
  - rewrite fmap_app. apply Forall_app. split; [eapply Forall_impl; [exact Hb|simpl; lia]|].
    list_forall. simpl. lia.
  - rewrite fmap_app. apply Forall_app. split; [done|by list_forall].
  - assert (Hk : class_keys keyed c ++ [po_next_seq o]
                 = class_keys (keyed ++ [(po_next_seq o, c)]) c).
    { rewrite class_keys_app, (class_keys_cons _ []). by case_decide. }
    rewrite Hk. apply (rep_insert keyed); [by split|done|].
    intros c' Hne. rewrite class_keys_app, (class_keys_cons _ []). case_decide; [done|].
    by rewrite app_nil_r.
Qed.

Lemma class_keys_absent keyed c : c ∉ keyed.*2 -> class_keys keyed c = [].
Proof.
  intros H. apply elem_of_nil_inv. intros k Hk. apply class_keys_elem in Hk.
  apply H, list_elem_of_fmap. by exists (k, c).
Qed.

(** Serving the first packet of a class removes it from the order. *)
Lemma pop_represents k1 k c k2 o :
  represents (k1 ++ (k, c) :: k2) o -> c ∉ k1.*2 ->
  exists o', order_pop o c = Some (Some k, o') /\ represents (k1 ++ k2) o'
    /\ po_next_seq o' = po_next_seq o.
Proof.
  intros H Hc. pose proof (class_keys_absent k1 c Hc) as Habs.
  assert (Hk : class_keys (k1 ++ (k, c) :: k2) c = k :: class_keys k2 c).
  { rewrite class_keys_app, class_keys_cons, Habs. by case_decide. }
  assert (Hr : (c < 8)%nat).
  { pose proof (rep_range _ _ H) as Hr. rewrite Forall_forall in Hr. apply Hr. set_solver. }
  unfold order_pop. rewrite (rep_lookup _ _ _ H Hr), Hk. simpl.
  eexists. split; [done|]. split; [|done]. split; simpl.
  - pose proof (rep_sorted _ _ H) as Hs. rewrite fmap_app in *.
    apply StronglySorted_app in Hs as (Hx & Hs1 & [Hs2 _]%StronglySorted_inv).
    apply StronglySorted_app_2; [|done|done]. intros. apply Hx; [done|by right].
  - pose proof (rep_below _ _ H) as Hb. rewrite fmap_app, Forall_app in *.
    destruct Hb as [? [? ?]%Forall_cons]. done.
  - pose proof (rep_range _ _ H) as Hb. rewrite fmap_app, Forall_app in *.
    destruct Hb as [? [? ?]%Forall_cons]. done.
  - assert (Hk' : class_keys k2 c = class_keys (k1 ++ k2) c) by (by rewrite class_keys_app, Habs).
    rewrite Hk'. apply (rep_insert (k1 ++ (k, c) :: k2)); [done|done|].
    intros c' Hne. rewrite !class_keys_app, class_keys_cons. case_decide; [|done].
    simpl in *. congruence.
Qed.

Lemma foldl_min l : forall x,
  foldl Z.min x l ∈ x :: l /\ Forall (fun y => foldl Z.min x l <= y) (x :: l).
Proof.
  induction l as [|y l IH]; intros x; cbn [foldl].
  - split; [set_solver|list_forall; lia].
  - destruct (IH (Z.min x y)) as [H1 H2]. apply Forall_cons in H2 as [H2 H3]. split.
    + apply elem_of_cons in H1 as [H1|H1]; [|set_solver].
      destruct (Z.min_spec x y) as [[_ E]|[_ E]]; rewrite E in H1 at 2; set_solver.
    + constructor; [lia|]. constructor; [lia|done].
Qed.

Lemma min_key_Some l m : m ∈ l -> (forall x, x ∈ l -> m <= x) -> min_key l = Some m.
Proof.
  destruct l as [|x l]; [by intros ?%elem_of_nil|]. intros Hm Hle. simpl. f_equal.
  destruct (foldl_min l x) as [H1 H2]. rewrite Forall_forall in H2.
  specialize (H2 m Hm). specialize (Hle _ H1). lia.
Qed.

Lemma partition_point_app {A} (p : A -> bool) l1 l2 :
  Forall (fun x => p x = true) l1 -> Forall (fun x => p x = false) l2 ->
  partition_point p (l1 ++ l2) = length l1.
Proof.
  intros H1 H2. induction H1 as [|x l1 Hx _ IH]; simpl; [|by rewrite Hx, IH].
  destruct H2 as [|y l2 Hy _]; simpl; [done|by rewrite Hy].
Qed.

(** Every queued packet is counted by exactly one class. *)
Lemma class_lengths keyed :
  Forall (fun c => (c < 8)%nat) keyed.*2 ->
  sum_list ((fun c => length (class_keys keyed c)) <$> seq 0 8) = length keyed.
Proof.
  induction keyed as [|[k c] keyed IH]; intros Hr; [done|].
  apply Forall_cons in Hr as [Hc Hr]. specialize (IH Hr). cbn [length]. rewrite <- IH. clear IH Hr.
  assert (Hstep : forall c', length (class_keys ((k, c) :: keyed) c')
            = ((if decide (c = c') then 1 else 0) + length (class_keys keyed c'))%nat).
  { intros c'. rewrite class_keys_cons. simpl. by case_decide. }
  simpl. rewrite !Hstep. simpl in Hc.
  do 8 (destruct c as [|c]; [simpl; lia|]). lia.
Qed.

Lemma position_count k1 k c k2 :
  StronglySorted Z.lt (k1 ++ (k, c) :: k2).*1 ->
  Forall (fun c => (c < 8)%nat) k1.*2 ->
  sum_list (partition_point (fun key => key <? k)
    <$> (class_keys (k1 ++ (k, c) :: k2) <$> seq 0 8)) = length k1.
Proof.
  intros Hs Hr. rewrite <- (class_lengths k1 Hr), <- list_fmap_compose. f_equal.
  apply list_fmap_ext. intros i c' _. simpl.
  rewrite fmap_app in Hs. apply StronglySorted_app in Hs as (Hx & _ & [_ Hs]%StronglySorted_inv).
  rewrite class_keys_app. apply partition_point_app; apply Forall_forall; intros x Hin;
    apply class_keys_elem in Hin.
  - apply Z.ltb_lt, Hx; [|left]. apply list_elem_of_fmap. by exists (x, c').
  - apply Z.ltb_ge. apply elem_of_cons in Hin as [[= -> ->]|Hin]; [lia|].
    rewrite Forall_forall in Hs. apply Z.lt_le_incl, Hs.
    apply list_elem_of_fmap. by exists (x, c').
Qed.

(** The fronts among which the smallest key is taken. *)
Lemma fronts_elem keyed pfc k :
  k ∈ omap head (imap (fun class keys => if class_paused pfc class then [] else keys)
                   (class_keys keyed <$> seq 0 8))
  <-> exists c, (c < 8)%nat /\ class_paused pfc c = false
        /\ head (class_keys keyed c) = Some k.
Proof.
  rewrite list_elem_of_omap. split.
  - intros (keys & (i & y & -> & Hy)%elem_of_lookup_imap_1 & Hh).
    apply list_lookup_fmap_Some in Hy as (c & -> & [-> Hc]%lookup_seq).
    exists i. destruct (class_paused pfc i) eqn:E; [done|]. split_and!; [lia|done|done].
  - intros (c & Hc & Hp & Hh). exists (class_keys keyed c). split; [|done].
    apply elem_of_lookup_imap. exists c, (class_keys keyed c). rewrite Hp. split; [done|].
    by rewrite list_lookup_fmap, lookup_seq_lt.
Qed.

Lemma search_spec pfc (keyed : list (Z * nat)) :
  match search_position pfc keyed.*2 with
  | None => Forall (fun c => class_paused pfc c = true) keyed.*2
  | Some i => exists k1 k c k2, keyed = k1 ++ (k, c) :: k2 /\ i = length k1
      /\ Forall (fun c => class_paused pfc c = true) k1.*2 /\ class_paused pfc c = false
  end.
Proof.
  induction keyed as [|[k c] keyed IH]; [constructor|].
  rewrite fmap_cons. cbn [search_position snd]. destruct (class_paused pfc c) eqn:E.
  - destruct (search_position pfc keyed.*2) as [i|]; cbn [fmap option_fmap option_map];
      [|by constructor].
    destruct IH as (k1 & k' & c' & k2 & -> & -> & ? & ?).
    exists ((k, c) :: k1), k', c', k2. split_and!; [done|done|by constructor|done].
  - exists [], k, c, keyed. split_and!; [done|done|constructor|done].
Qed.

(** The smallest front of an unpaused class is the searched packet. *)
Lemma first_position_search keyed o pfc :
  represents keyed o -> first_unpaused_position o pfc = search_position pfc keyed.*2.
Proof.
  intros H. unfold first_unpaused_position. rewrite (rep_classes _ _ H).
  pose proof (search_spec pfc keyed) as Hsearch.
  destruct (search_position pfc keyed.*2) as [i|].
  - destruct Hsearch as (k1 & k & c & k2 & -> & -> & Hp & Hc).
    pose proof (rep_sorted _ _ H) as Hs. pose proof (rep_range _ _ H) as Hr.
    rewrite fmap_app in Hr. apply Forall_app in Hr as [Hr1 [Hr2 _]%Forall_cons].
    assert (Hnot : forall c', class_paused pfc c' = false -> class_keys k1 c' = []).
    { intros c' Hc'. apply class_keys_absent. intros Hin. rewrite Forall_forall in Hp.
      by rewrite (Hp c' Hin) in Hc'. }
    rewrite (min_key_Some _ k); [simpl; f_equal; by apply position_count| |].
    + apply fronts_elem. exists c. split_and!; [done|done|].
      rewrite class_keys_app, (Hnot c Hc), class_keys_cons. by case_decide.
    + intros x (c' & _ & Hc' & Hx)%fronts_elem.
      rewrite class_keys_app, (Hnot c' Hc') in Hx. simpl in Hx.
      apply head_Some_elem_of, class_keys_elem in Hx.
      rewrite fmap_app in Hs. apply StronglySorted_app in Hs as (_ & _ & [_ Hs]%StronglySorted_inv).
      apply elem_of_cons in Hx as [[= -> ->]|Hx]; [lia|]. rewrite Forall_forall in Hs.
      apply Z.lt_le_incl, Hs, list_elem_of_fmap. by exists (x, c').
  - destruct (omap _ _) as [|k l] eqn:E; [done|]. exfalso.
    assert (Hk : k ∈ k :: l) by left. rewrite <- E in Hk.
    apply fronts_elem in Hk as (c & _ & Hc & Hh). apply head_Some_elem_of, class_keys_elem in Hh.
    rewrite Forall_forall in Hsearch. rewrite (Hsearch c) in Hc; [done|].
    apply list_elem_of_fmap. by exists (k, c).
Qed.

(** ** Traces of admissions and services *)

Inductive FifoOp :=
| Admit (class : nat)
| Serve (pfc : PfcQueueState).

(** The queue alone: an admission appends, a service removes the first packet
    whose class is not paused. *)
Definition queue_op (queue : list nat) (op : FifoOp) : list nat :=
  match op with
  | Admit class => queue ++ [class]
  | Serve pfc =>
      match search_position pfc queue with
      | Some position => delete position queue
      | None => queue
      end
  end.

(** The queue with its class order: the order selects the served packet. *)
Definition ordered_op (s : list nat * PfcClassOrder) (op : FifoOp)
  : option (list nat * PfcClassOrder) :=
  let '(queue, o) := s in
  match op with
  | Admit class => o' ← order_push o class; Some (queue ++ [class], o')
  | Serve pfc =>
      match first_unpaused_position o pfc with
      | None => Some (queue, o)
      | Some position =>
          class ← queue !! position;
          served ← order_pop o class;
          Some (delete position queue, served.2)
      end
  end.

Definition admitted (op : FifoOp) : nat :=
  match op with Admit _ => 1 | Serve _ => 0 end.

Definition class_in_range (op : FifoOp) : Prop :=
  match op with Admit class => (class < 8)%nat | Serve _ => True end.

Lemma ordered_op_represents keyed o op :
  represents keyed o -> class_in_range op -> 0 <= po_next_seq o ->
  po_next_seq o + Z.of_nat (admitted op) <= u64_max ->
  exists keyed' o', ordered_op (keyed.*2, o) op = Some (keyed'.*2, o')
    /\ keyed'.*2 = queue_op keyed.*2 op /\ represents keyed' o'
    /\ po_next_seq o' = po_next_seq o + Z.of_nat (admitted op).
Proof.
  intros H Hc H0 Hn. destruct op as [class|pfc]; simpl in *.
  - destruct (push_represents keyed o class H Hc ltac:(lia)) as (o' & -> & H' & Hseq).
    exists (keyed ++ [(po_next_seq o, class)]), o'. simpl. rewrite fmap_app. done.
  - rewrite (first_position_search keyed o pfc H).
    pose proof (search_spec pfc keyed) as Hs.
    destruct (search_position pfc keyed.*2) as [i|].
    + destruct Hs as (k1 & k & c & k2 & -> & -> & Hp & Hf).
      assert (Hnot : c ∉ k1.*2).
      { intros Hin. rewrite Forall_forall in Hp. by rewrite (Hp c Hin) in Hf. }
      destruct (pop_represents k1 k c k2 o H Hnot) as (o' & Ho & H' & Hseq).
      exists (k1 ++ k2), o'. rewrite !fmap_app, fmap_cons. simpl.
      rewrite <- (length_fmap snd k1), list_lookup_middle by done. simpl. rewrite Ho. simpl.
      rewrite delete_middle. split_and!; [done|done|done|lia].
    + exists keyed, o. split_and!; [done|done|done|lia].
Qed.

(** C37. The class order of a paused FIFO queue answers exactly what reading the
    queue would: after any sequence of admissions and services, under any pause
    states, the packets served are those the search from the head serves, the
    operations never fail, and the position the order names for the next service
    is the position of the first packet whose class is not paused. *)
Theorem class_order_equals_search ops :
  Forall class_in_range ops -> Z.of_nat (sum_list (admitted <$> ops)) <= u64_max ->
  exists queue o,
    foldl (fun s op => s ≫= fun s => ordered_op s op) (Some ([], order_new)) ops
      = Some (queue, o)
    /\ queue = foldl queue_op [] ops
    /\ forall pfc, first_unpaused_position o pfc = search_position pfc queue.
Proof.
  intros Hc Hn.
  enough (H : forall keyed o, represents keyed o -> 0 <= po_next_seq o ->
            po_next_seq o + Z.of_nat (sum_list (admitted <$> ops)) <= u64_max ->
            exists keyed' o', foldl (fun s op => s ≫= fun s => ordered_op s op)
                (Some (keyed.*2, o)) ops = Some (keyed'.*2, o')
              /\ keyed'.*2 = foldl queue_op keyed.*2 ops /\ represents keyed' o').
  { destruct (H [] order_new rep_new) as (keyed & o & Hf & Hq & Hr); [simpl; lia|simpl; lia|].
    exists keyed.*2, o. split_and!; [done|done|]. intros pfc. by apply first_position_search. }
  clear Hn. induction Hc as [|op ops Hop _ IH]; intros keyed o Hr H0 Hn; [by exists keyed, o|].
  rewrite fmap_cons in Hn. cbn [sum_list_with] in Hn. unfold id in Hn at 1. cbn [foldl].
  destruct (ordered_op_represents keyed o op Hr Hop H0 ltac:(lia)) as (k' & o' & Heq & Hq & Hr' & Hs).
  change (Some (keyed.*2, o) ≫= _) with (ordered_op (keyed.*2, o) op).
  rewrite Heq, <- Hq. apply IH; [done|lia|lia].
Qed.

Lemma class_order_equals_search_witness :
  let paused := mkPfcQueue ([[5]; []] ++ replicate 6 []) [] in
  let clear := mkPfcQueue (replicate 8 []) [] in
  exists queue o,
    foldl (fun s op => s ≫= fun s => ordered_op s op) (Some ([], order_new))
      [Admit 0; Admit 0; Admit 1; Admit 0; Admit 1; Serve paused; Serve clear]
      = Some (queue, o)
    /\ queue = [0; 0; 1]%nat /\ first_unpaused_position o paused = Some 2%nat.
Proof.
  intros paused clear.
  destruct (class_order_equals_search
    [Admit 0; Admit 0; Admit 1; Admit 0; Admit 1; Serve paused; Serve clear])
    as (queue & o & H1 & H2 & H3).
  - list_forall; simpl; auto; lia.
  - simpl. lia.
  - exists queue, o. split; [exact H1|]. rewrite H2 in *. split; [reflexivity|].
    rewrite H3. reflexivity.
Defined.
