(* ===== verification/Sched.v ===== *)
(** * Queue scheduling and admission (executor/src/scalar.rs)

    The five scheduling disciplines of a switch queue: FIFO, static priority,
    weighted fair queueing with exact rational tags, deficit round robin and
    weighted round robin; and the two admission policies. *)

From S2P Require Import Prelude OrdMap Event LinkTime ExecError EcnRamp Model Image.

(** The class of a flow; [None] for an empty class table. *)
Definition scheduler_class (flow : FlowId) (class_count : nat) : option nat :=
  if (class_count =? 0)%nat then None
  else Some (Z.to_nat (flow mod Z.of_nat class_count)).

Definition scheduler_serves_head (s : SchedulerKind) : bool :=
  match s with
  | Fifo | StaticPriority _ | WeightedFairQueue _ => true
  | DeficitRoundRobin _ | WeightedRoundRobin _ => false
  end.

Definition queue_serves_head (queue : SwitchQueueState) : bool :=
  bool_decide (sq_pfc queue = None) && scheduler_serves_head (sq_scheduler queue).

(** ** Static priority *)

(** The scan for the insertion position; [packet] looks a payload up. *)
Fixpoint sp_scan (packet : PayloadId -> result ExecutionError PacketDescriptor)
    (priorities : list Z) (node : NodeId) (incoming_priority : Z)
    (position : nat) (queue : list PayloadId) : result ExecutionError nat :=
  match queue with
  | [] => Ok position
  | payload :: queue =>
      queued ← packet payload;
      queued_class ← ok_or (scheduler_class (pk_flow queued) (length priorities))
                       (InvalidSchedulerState node);
      if (priorities !!! queued_class) <? incoming_priority then Ok position
      else sp_scan packet priorities node incoming_priority (S position) queue
  end.

Definition switch_sp_insertion_position
    (packet : PayloadId -> result ExecutionError PacketDescriptor)
    (queue : SwitchQueueState) (node : NodeId) (incoming_flow : FlowId)
  : result ExecutionError (option nat) :=
  match sq_scheduler queue with
  | StaticPriority priorities =>
      incoming_class ← ok_or (scheduler_class incoming_flow (length priorities))
                         (InvalidSchedulerState node);
      position ← sp_scan packet priorities node (priorities !!! incoming_class) 0
                   (sq_queue queue);
      Ok (Some position)
  | _ => Ok None
  end.

(** [VecDeque::insert]. *)
Definition insert_at {A} (position : nat) (x : A) (l : list A) : list A :=
  take position l ++ x :: drop position l.

(** ** Weighted fair queueing *)

Definition zero_rational : ExactRational := 0%Q.

(** [Ratio::new] of naturals, reduced. *)
Definition ratio_new (numerator denominator : Z) : ExactRational :=
  Qred (inject_Z numerator / inject_Z denominator)%Q.

(** [Ord::max]. *)
Definition ratio_max (a b : ExactRational) : ExactRational :=
  if Qle_bool a b then b else a.

Definition wfq_active_weight_sum (state : WfqSchedulerState) : Z :=
  foldl (fun sum wa => if wa.2 =? 0 then sum else sum + wa.1) 0
    (zip (wfq_weights state) (wfq_active_packets state)).

Definition wfq_advance_virtual_time (state : WfqSchedulerState)
    (time_ns rate_bps : Z) (node : NodeId) : result ExecutionError WfqSchedulerState :=
  elapsed_ns ← ok_or (checked_sub time_ns (wfq_last_updated_ns state))
                 (NonMonotoneWfqTime node (wfq_last_updated_ns state) time_ns);
  let weight_sum := wfq_active_weight_sum state in
  if weight_sum =? 0 then Err (InvalidSchedulerState node)
  else Ok (if elapsed_ns =? 0 then state
           else state <| wfq_virtual_time :=
             Qred (wfq_virtual_time state
                   + ratio_new (elapsed_ns * rate_bps) (1000000000 * weight_sum))%Q |>).

Definition all_idle (active_packets : list Z) : bool :=
  forallb (fun active => active =? 0) active_packets.

(** The scan for the first queued packet with a later finish tag. *)
Fixpoint wfq_scan (tags : bmap PayloadId ExactRational) (node : NodeId)
    (finish : ExactRational) (position : nat) (queue : list PayloadId)
  : result ExecutionError nat :=
  match queue with
  | [] => Ok position
  | queued :: queue =>
      queued_finish ← ok_or (bm_get queued tags) (MissingWfqFinishTag node queued);
      if negb (Qle_bool queued_finish finish) then Ok position
      else wfq_scan tags node finish (S position) queue
  end.

(** The tables have one entry per class and the class has a weight. *)
Definition wfq_class_ok (state : WfqSchedulerState) (class : nat) : bool :=
  negb ((wfq_weights state !!! class =? 0)
        || negb (length (wfq_finish_times state) =? length (wfq_weights state))%nat
        || negb (length (wfq_active_packets state) =? length (wfq_weights state))%nat).

Definition wfq_enqueue (state : WfqSchedulerState) (queue : list PayloadId)
    (packet : PacketDescriptor) (arrival_time_ns rate_bps : Z) (node : NodeId)
  : result ExecutionError (WfqSchedulerState * list PayloadId) :=
  class ← ok_or (scheduler_class (pk_flow packet) (length (wfq_weights state)))
            (InvalidSchedulerState node);
  if negb (wfq_class_ok state class) then Err (InvalidSchedulerState node)
  else if arrival_time_ns <? wfq_last_updated_ns state then
    Err (NonMonotoneWfqTime node (wfq_last_updated_ns state) arrival_time_ns)
  else
    state ← (if all_idle (wfq_active_packets state) then
               Ok (state <| wfq_virtual_time := zero_rational |>
                         <| wfq_finish_times ::= fmap (fun _ => zero_rational) |>)
             else wfq_advance_virtual_time state arrival_time_ns rate_bps node);
    let virtual_start := ratio_max (wfq_virtual_time state) (wfq_finish_times state !!! class) in
    let service := ratio_new (pk_size_bytes packet * 8) (wfq_weights state !!! class) in
    let finish := Qred (virtual_start + service)%Q in
    let state := state <| wfq_finish_times ::= <[class := finish]> |> in
    position ← wfq_scan (wfq_packet_finish_times state) node finish 0 queue;
    match bm_get (pk_id packet) (wfq_packet_finish_times state) with
    | Some _ => Err (InvalidSchedulerState node)
    | None =>
        let state := state <| wfq_packet_finish_times ::= bm_insert (pk_id packet) finish |> in
        let queue := insert_at position (pk_id packet) queue in
        active ← ok_or (checked_add (wfq_active_packets state !!! class) 1)
                   (CounterOverflow node);
        Ok (state <| wfq_active_packets ::= <[class := active]> |>
                  <| wfq_last_updated_ns := arrival_time_ns |>, queue)
    end.

Definition wfq_complete (state : WfqSchedulerState) (packet : PacketDescriptor)
    (departure_time_ns rate_bps : Z) (node : NodeId)
  : result ExecutionError WfqSchedulerState :=
  class ← ok_or (scheduler_class (pk_flow packet) (length (wfq_weights state)))
            (InvalidSchedulerState node);
  if negb (wfq_class_ok state class) || (wfq_active_packets state !!! class =? 0)
  then Err (InvalidSchedulerState node)
  else
    state ← wfq_advance_virtual_time state departure_time_ns rate_bps node;
    _ ← ok_or (bm_get (pk_id packet) (wfq_packet_finish_times state))
          (MissingWfqFinishTag node (pk_id packet));
    let state := state <| wfq_packet_finish_times ::= bm_remove (pk_id packet) |> in
    let state := state <| wfq_active_packets ::= alter (fun n => n -w 1) class |> in
    let state :=
      if all_idle (wfq_active_packets state) then
        state <| wfq_virtual_time := zero_rational |>
              <| wfq_finish_times ::= <[class := zero_rational]> |>
      else state in
    Ok (state <| wfq_last_updated_ns := departure_time_ns |>).

(** ** Deficit round robin *)

Definition in_class (class_count class : nat) (packet : PacketDescriptor) : bool :=
  bool_decide (scheduler_class (pk_flow packet) class_count = Some class).

(** [Iterator::position]. *)
Fixpoint find_position {A} (p : A -> bool) (l : list A) : option nat :=
  match l with
  | [] => None
  | x :: l => if p x then Some 0%nat else S <$> find_position p l
  end.

(** One class of the refill at the end of a round. *)
Definition drr_refill_class (quanta_bytes : list Z) (packets : list PacketDescriptor)
    (node : NodeId) (deficits : list Z) (class : nat) : result ExecutionError (list Z) :=
  if existsb (in_class (length quanta_bytes) class) packets then
    deficit ← ok_or (checked_add (deficits !!! class) (quanta_bytes !!! class))
                (InvalidSchedulerState node);
    Ok (<[class := deficit]> deficits)
  else Ok (<[class := 0]> deficits).

(** One iteration of the selection loop on [(deficits, current, scan_steps)]; it
    returns the position, the scan steps and the state. *)
Definition drr_step (quanta_bytes : list Z) (packets : list PacketDescriptor)
    (node : NodeId) (s : list Z * nat * Z)
  : (list Z * nat * Z) + result ExecutionError (nat * Z * list Z * nat) :=
  let '(deficits, current, scan_steps) := s in
  let class_count := length quanta_bytes in
  let advance :=
    let current := S current in
    if (current =? class_count)%nat then
      match try_fold (drr_refill_class quanta_bytes packets node) deficits
              (seq 0 class_count) with
      | Ok deficits => inl (deficits, 0%nat, scan_steps + 1)
      | Err e => inr (Err e)
      end
    else inl (deficits, current, scan_steps + 1) in
  match find_position (in_class class_count current) packets with
  | Some position =>
      let size := from_option pk_size_bytes 0 (packets !! position) in
      if (0 <? deficits !!! current) && (size <=? deficits !!! current)
      then inr (Ok (position, scan_steps,
                    <[current := deficits !!! current - size]> deficits, current))
      else advance
  | None => advance
  end.

Definition drr_fuel : nat := 140.

Definition drr_select (state : DrrSchedulerState) (packets : list PacketDescriptor)
    (node : NodeId) : result ExecutionError (DrrSchedulerState * (nat * Z)) :=
  let class_count := length (drr_quanta_bytes state) in
  if (class_count =? 0)%nat
     || negb (length (drr_deficits_bytes state) =? class_count)%nat
     || existsb (fun q => q =? 0) (drr_quanta_bytes state)
  then Err (InvalidSchedulerState node)
  else if negb (drr_current_class state <? Z.of_nat class_count)
  then Err (InvalidSchedulerState node)
  else
    '(position, scan_steps, deficits, current) ←
      loop_result (Err (InvalidSchedulerState node))
        (wloop (drr_step (drr_quanta_bytes state) packets node) drr_fuel
           (drr_deficits_bytes state, Z.to_nat (drr_current_class state), 0));
    Ok (mkDrr (drr_quanta_bytes state) deficits (Z.of_nat current),
        (position, scan_steps)).

(** ** Weighted round robin *)

Definition wrr_step (weights : list Z) (packets : list PacketDescriptor)
    (s : list Z * nat) : (list Z * nat) + (nat * list Z * nat) :=
  let '(sent, current) := s in
  let class_count := length weights in
  let advance := inl (<[current := 0]> sent, (S current mod class_count)%nat) in
  if (sent !!! current) <? (weights !!! current) then
    match find_position (in_class class_count current) packets with
    | Some position => inr (position, <[current := (sent !!! current) +w 1]> sent, current)
    | None => advance
    end
  else advance.

Definition wrr_fuel : nat := 70.

Definition wrr_select (state : WrrSchedulerState) (packets : list PacketDescriptor)
    (node : NodeId) : result ExecutionError (WrrSchedulerState * (nat * Z)) :=
  let class_count := length (wrr_weights state) in
  if (class_count =? 0)%nat
     || negb (length (wrr_packets_sent_in_round state) =? class_count)%nat
     || existsb (fun w => w =? 0) (wrr_weights state)
  then Err (InvalidSchedulerState node)
  else if negb (wrr_current_class state <? Z.of_nat class_count)
  then Err (InvalidSchedulerState node)
  else
    match wloop (wrr_step (wrr_weights state) packets) wrr_fuel
            (wrr_packets_sent_in_round state, Z.to_nat (wrr_current_class state)) with
    | inr (position, sent, current) =>
        Ok (mkWrr (wrr_weights state) sent (Z.of_nat current), (position, 0))
    | inl _ => Err (InvalidSchedulerState node)
    end.

(** The position served among the eligible packets, with the scheduler's state. *)
Definition scheduler_select_position (scheduler : SchedulerKind)
    (packets : list PacketDescriptor) (node : NodeId)
  : result ExecutionError (SchedulerKind * option (nat * Z)) :=
  if bool_decide (packets = []) then Ok (scheduler, None)
  else
    match scheduler with
    | Fifo | StaticPriority _ | WeightedFairQueue _ => Ok (scheduler, Some (0%nat, 0))
    | DeficitRoundRobin state =>
        '(state, selected) ← drr_select state packets node;
        Ok (DeficitRoundRobin state, Some selected)
    | WeightedRoundRobin state =>
        '(state, selected) ← wrr_select state packets node;
        Ok (WeightedRoundRobin state, Some selected)
    end.

(** ** Admission *)

Inductive QueueAdmissionAction := AdmitEnqueue | AdmitMark | AdmitDrop.

Definition ecn_ramp_action (policy : EcnRampPolicy) (queued_bytes : Z)
    (packet : PacketDescriptor) (seed : Z) (node : NodeId) (queue_id : Z)
    (payload : PayloadId) : QueueAdmissionAction :=
  match ecn_ramp_decision policy queued_bytes (pk_size_bytes packet)
          (is_data (pk_kind packet))
          (fun _ => ecn_draw (ecn_queue_key seed node queue_id) payload) with
  | Enqueue => AdmitEnqueue
  | Mark => AdmitMark
  | Drop => AdmitDrop
  end.

Definition taildrop_action (capacity_packets queued_packets queued_bytes
    packet_size_bytes : Z) (node : NodeId) : result ExecutionError QueueAdmissionAction :=
  post_packets ← ok_or (checked_add queued_packets 1) (CounterOverflow node);
  Ok (if bool_decide (checked_add queued_bytes packet_size_bytes = None)
         || (negb (capacity_packets =? 0) && (capacity_packets <? post_packets))
      then AdmitDrop else AdmitEnqueue).

(** ** Lemmas on positions and classes *)

Lemma find_position_None {A} (p : A -> bool) l :
  find_position p l = None <-> existsb p l = false.
Proof.
  induction l as [|x l IH]; cbn [find_position existsb]; [done|].
  destruct (p x); [done|]. rewrite <- IH. by destruct (find_position p l).
Qed.

Lemma find_position_Some {A} (p : A -> bool) l i :
  find_position p l = Some i -> exists x, l !! i = Some x /\ p x = true.
Proof.
  revert i. induction l as [|x l IH]; cbn [find_position]; intros i; [done|].
  destruct (p x) eqn:E; [intros [= <-]; by exists x|].
  destruct (find_position p l) as [j|]; [|done]. intros [= <-]. by apply IH.
Qed.

Lemma find_position_first {A} (p : A -> bool) l i j x :
  find_position p l = Some i -> (j < i)%nat -> l !! j = Some x -> p x = false.
Proof.
  revert i j. induction l as [|y l IH]; cbn [find_position]; intros i j; [done|].
  destruct (p y) eqn:E; [intros [= <-]; lia|].
  destruct (find_position p l) as [i'|] eqn:Ei; [|done]. intros [= <-] Hj.
  destruct j as [|j]; simpl; [congruence|]. intros Hx.
  apply (IH i' j); [done|lia|done].
Qed.

Lemma scheduler_class_lt flow n c : scheduler_class flow n = Some c -> (c < n)%nat.
Proof.
  unfold scheduler_class. destruct (Nat.eqb_spec n 0); [done|]. intros [= <-].
  pose proof (Z.mod_pos_bound flow (Z.of_nat n)). lia.
Qed.

Lemma scheduler_class_total flow n : (0 < n)%nat -> exists c, scheduler_class flow n = Some c.
Proof. unfold scheduler_class. destruct (Nat.eqb_spec n 0); [lia|eauto]. Qed.

(** A nonempty queue has a class with a packet. *)
Lemma some_class_active n packets : (0 < n)%nat -> packets <> [] ->
  exists c, (c < n)%nat /\ existsb (in_class n c) packets = true.
Proof.
  intros Hn Hp. destruct packets as [|p ps]; [done|].
  destruct (scheduler_class_total (pk_flow p) n Hn) as [c Hc]. exists c.
  split; [by eapply scheduler_class_lt|]. cbn [existsb]. unfold in_class at 1.
  by rewrite bool_decide_true.
Qed.

(** ** Deficit round robin serves the first packet that fits *)

Section drr.
Context (quanta deficits : list Z) (packets : list PacketDescriptor) (node : NodeId)
  (start : nat).
Let n := length quanta.

Definition active (c : nat) : bool := existsb (in_class n c) packets.

(** The deficit of class [c] after [k] refills. *)
Definition deficit_after (k : Z) (c : nat) : Z :=
  if active c then deficits !!! c + k * (quanta !!! c)
  else if k =? 0 then deficits !!! c else 0.

(** The size of the first packet of class [c]. *)
Definition front_size (c : nat) : Z :=
  match find_position (in_class n c) packets with
  | Some position => from_option pk_size_bytes 0 (packets !! position)
  | None => 0
  end.

(** Class [c] can be served in round [k]. *)
Definition fits (k : Z) (c : nat) : Prop :=
  active c = true /\ 0 < deficit_after k c /\ front_size c <= deficit_after k c.

(** [(k, c)] is visited: round zero starts at [start]. *)
Definition visited (k : Z) (c : nat) : Prop :=
  0 <= k /\ (c < n)%nat /\ (k = 0 -> (start <= c)%nat).

(** Nothing visited before class [c] of round [k] can be served. *)
Definition none_before (k : Z) (c : nat) : Prop :=
  forall k' c', visited k' c' -> k' < k \/ (k' = k /\ (c' < c)%nat) -> ~ fits k' c'.

Record drr_ok : Prop := {
  drr_start : (start < n)%nat;
  drr_length : length deficits = n;
  drr_count : Z.of_nat n <= u64_max;
  drr_packets : packets <> [];
  drr_sizes : Forall (fun p => in_u64 (pk_size_bytes p)) packets;
  drr_quanta : Forall (fun q => 0 < q <= u64_max) quanta;
  drr_deficits : Forall in_u64 deficits;
}.

Context (Hok : drr_ok).

Lemma quantum_pos c : (c < n)%nat -> 0 < quanta !!! c <= u64_max.
Proof.
  intros Hc. pose proof (drr_quanta Hok) as H. rewrite Forall_lookup in H.
  eapply H. by apply list_lookup_lookup_total_lt.
Qed.

Lemma deficit_word c : (c < n)%nat -> 0 <= deficits !!! c <= u64_max.
Proof.
  intros Hc. pose proof (drr_deficits Hok) as H. rewrite Forall_lookup in H.
  eapply H. apply list_lookup_lookup_total_lt. by rewrite (drr_length Hok).
Qed.

Lemma front_size_word c : 0 <= front_size c <= u64_max.
Proof.
  unfold front_size. destruct (find_position _ packets) as [i|]; [|lia].
  destruct (packets !! i) as [p|] eqn:E; simpl; [|lia].
  pose proof (drr_sizes Hok) as H. rewrite Forall_lookup in H. by specialize (H i p E).
Qed.

(** Only finitely many rounds can pass without service. *)
Lemma rounds_bounded k c : 0 <= k -> none_before k c -> k <= u64_max + 1.
Proof.
  intros Hk Hn. destruct (Z_le_gt_dec k 1); [lia|].
  pose proof (drr_start Hok) as Hs.
  destruct (some_class_active n packets ltac:(lia) (drr_packets Hok)) as (a & Ha & Hact).
  destruct (Z_le_gt_dec k (u64_max + 1)) as [|Hgt]; [done|]. exfalso.
  apply (Hn (k - 1) a); [unfold visited; lia|lia|].
  pose proof (quantum_pos a Ha). pose proof (deficit_word a Ha). pose proof (front_size_word a).
  assert (Hact' : active a = true) by done.
  unfold fits, deficit_after. rewrite Hact'. split_and!; [done|nia|nia].
Qed.

(** The refill of one class. *)
Lemma refill_class_spec k f i : 0 <= k -> (i < n)%nat -> f i = deficit_after k i ->
  match drr_refill_class quanta packets node (f <$> seq 0 n) i with
  | Ok ds => ds = (fun c => if decide (c = i) then deficit_after (k + 1) i else f c) <$> seq 0 n
  | Err e => e = InvalidSchedulerState node
      /\ active i = true /\ u64_max < deficit_after (k + 1) i
  end.
Proof.
  intros Hk Hi Hf. unfold drr_refill_class. fold n. fold (active i).
  rewrite lookup_total_table, Hf by done. unfold deficit_after.
  destruct (active i) eqn:Ea.
  - destruct (checked_add _ _) as [y|] eqn:Ec; cbn [ok_or mbind result_bind].
    + apply checked_add_Some in Ec as [-> _]. rewrite insert_table by done.
      apply table_ext. intros c _. destruct (decide (c = i)); [lia|done].
    + apply checked_add_None in Ec. split_and!; [done|done|lia].
  - rewrite insert_table by done. destruct (Z.eqb_spec (k + 1) 0); [lia|done].
Qed.

(** The refill of the classes from [i] on. *)
Lemma refill_from k m : forall i, (i + m = n)%nat -> 0 <= k ->
  match try_fold (drr_refill_class quanta packets node)
          ((fun c => if (c <? i)%nat then deficit_after (k + 1) c else deficit_after k c)
             <$> seq 0 n) (seq i m) with
  | Ok ds => ds = deficit_after (k + 1) <$> seq 0 n
  | Err e => e = InvalidSchedulerState node
      /\ exists c, (c < n)%nat /\ active c = true /\ u64_max < deficit_after (k + 1) c
  end.
Proof.
  induction m as [|m IH]; intros i Him Hk; cbn [seq try_fold].
  - apply table_ext. intros c Hc. destruct (Nat.ltb_spec c i); [done|lia].
  - pose proof (refill_class_spec k (fun c => if (c <? i)%nat then deficit_after (k + 1) c
      else deficit_after k c) i Hk ltac:(lia)) as Hc. simpl in Hc. rewrite Nat.ltb_irrefl in Hc.
    specialize (Hc eq_refl).
    destruct (drr_refill_class _ _ _ _ _) as [ds|e]; cbn [mbind result_bind].
    + rewrite Hc. erewrite table_ext; [apply IH; lia|]. intros c Hcn. simpl.
      destruct (decide (c = i)) as [Heq|Hne], (Nat.ltb_spec c i), (Nat.ltb_spec c (S i));
        subst; done || lia.
    + destruct Hc as (-> & ? & ?). split; [done|]. exists i. split_and!; [lia|done|done].
Qed.

Lemma refill_spec k : 0 <= k ->
  match try_fold (drr_refill_class quanta packets node) (deficit_after k <$> seq 0 n)
          (seq 0 n) with
  | Ok ds => ds = deficit_after (k + 1) <$> seq 0 n
  | Err e => e = InvalidSchedulerState node
      /\ exists c, (c < n)%nat /\ active c = true /\ u64_max < deficit_after (k + 1) c
  end.
Proof. intros Hk. by apply (refill_from k n 0). Qed.

(** What the selection returns. *)
Definition drr_result (r : result ExecutionError (nat * Z * list Z * nat)) : Prop :=
  match r with
  | Ok (position, scan_steps, deficits', c) =>
      exists k, visited k c /\ fits k c /\ none_before k c
        /\ find_position (in_class n c) packets = Some position
        /\ scan_steps = k * Z.of_nat n + Z.of_nat c - Z.of_nat start
        /\ deficits' = <[c := deficit_after k c - front_size c]> (deficit_after k <$> seq 0 n)
  | Err e => e = InvalidSchedulerState node
      /\ exists k c, (c < n)%nat /\ active c = true /\ u64_max < deficit_after k c
        /\ none_before k 0
  end.

Definition drr_inv (s : list Z * nat * Z) : Prop :=
  exists k current, s = (deficit_after k <$> seq 0 n, current,
                         k * Z.of_nat n + Z.of_nat current - Z.of_nat start)
    /\ visited k current /\ none_before k current.

Definition drr_measure (s : list Z * nat * Z) : Z := (u64_max + 3) * Z.of_nat n - s.2.

Lemma none_before_next k c : none_before k c -> ~ fits k c ->
  none_before k (S c) /\ (S c = n -> none_before (k + 1) 0).
Proof.
  intros Hn Hf. assert (H1 : none_before k (S c)).
  { intros k' c' Hv Hlt. destruct (decide (k' = k /\ c' = c)) as [[-> ->]|Hne]; [done|].
    apply Hn; [done|lia]. }
  split; [done|]. intros Hc k' c' Hv Hlt. apply H1; [done|]. unfold visited in Hv. lia.
Qed.

(** The test of one iteration decides [fits]. *)
Lemma drr_step_served k current t :
  (current < n)%nat -> fits k current ->
  exists position, find_position (in_class n current) packets = Some position
    /\ drr_step quanta packets node (deficit_after k <$> seq 0 n, current, t)
       = inr (Ok (position, t,
           <[current := deficit_after k current - front_size current]>
             (deficit_after k <$> seq 0 n), current)).
Proof.
  intros Hc (Ha & Hp & Hle). unfold drr_step. fold n. unfold active in Ha.
  unfold front_size in *.
  destruct (find_position _ packets) as [i|] eqn:E;
    [|apply find_position_None in E; congruence].
  exists i. split; [done|]. rewrite lookup_total_table by done.
  destruct (Z.ltb_spec 0 (deficit_after k current)); [|lia].
  destruct (Z.leb_spec (from_option pk_size_bytes 0 (packets !! i)) (deficit_after k current));
    [done|lia].
Qed.

Lemma drr_step_advances k current t :
  (current < n)%nat -> ~ fits k current ->
  drr_step quanta packets node (deficit_after k <$> seq 0 n, current, t)
  = if (S current =? n)%nat then
      match try_fold (drr_refill_class quanta packets node) (deficit_after k <$> seq 0 n)
              (seq 0 n) with
      | Ok ds => inl (ds, 0%nat, t + 1)
      | Err e => inr (Err e)
      end
    else inl (deficit_after k <$> seq 0 n, S current, t + 1).
Proof.
  intros Hc Hf. unfold drr_step. fold n.
  destruct (find_position _ packets) as [i|] eqn:E; [|done].
  rewrite lookup_total_table by done.
  destruct ((0 <? deficit_after k current) && _) eqn:Et; [|done]. exfalso. apply Hf.
  apply andb_true_iff in Et as [E1 E2]. unfold fits, front_size. rewrite E.
  split_and!; [|lia|lia]. unfold active. apply not_false_iff_true.
  rewrite <- find_position_None. congruence.
Qed.

Lemma fits_dec k c : fits k c \/ ~ fits k c.
Proof.
  unfold fits. destruct (active c); [|right; naive_solver].
  destruct (Z_lt_ge_dec 0 (deficit_after k c)), (Z_le_gt_dec (front_size c) (deficit_after k c));
    [by left|right; lia ..].
Qed.

Lemma drr_loop_spec :
  exists r, wloop (drr_step quanta packets node) drr_fuel (deficits, start, 0) = inr r
    /\ drr_result r.
Proof.
  pose proof (drr_start Hok) as Hs. pose proof (drr_count Hok) as Hcount.
  destruct (wloop_spec (drr_step quanta packets node) drr_inv drr_measure drr_result
    drr_fuel (deficits, start, 0)) as (r & Hr & _ & HQ); [| | | |by exists r].
  - intros s s' (k & current & -> & Hv & Hn) Hstep.
    pose proof Hv as (Hk & Hc & Hst).
    destruct (fits_dec k current) as [Hf|Hf].
    { destruct (drr_step_served k current (k * Z.of_nat n + Z.of_nat current - Z.of_nat start)
        Hc Hf) as (i & _ & E). rewrite E in Hstep. done. }
    rewrite drr_step_advances in Hstep by done.
    destruct (none_before_next k current Hn Hf) as [Hn1 Hn2].
    destruct (Nat.eqb_spec (S current) n) as [Hwrap|Hwrap].
    + pose proof (refill_spec k Hk) as Hrefill.
      destruct (try_fold _ _ _) as [ds|e]; [|done]. injection Hstep as <-. subst ds.
      specialize (Hn2 Hwrap). pose proof (rounds_bounded (k + 1) 0 ltac:(lia) Hn2).
      split; [exists (k + 1), 0%nat; split_and!; [repeat f_equal; lia|unfold visited; lia|done]|].
      unfold drr_measure. simpl. nia.
    + injection Hstep as <-. pose proof (rounds_bounded k (S current) Hk Hn1).
      split; [exists k, (S current); split_and!; [repeat f_equal; lia|unfold visited; lia|done]|].
      unfold drr_measure. simpl. nia.
  - intros s r (k & current & -> & Hv & Hn) Hstep. pose proof Hv as (Hk & Hc & Hst).
    destruct (fits_dec k current) as [Hf|Hf].
    + destruct (drr_step_served k current (k * Z.of_nat n + Z.of_nat current - Z.of_nat start)
        Hc Hf) as (i & Hi & E). rewrite E in Hstep. injection Hstep as <-.
      exists k. split_and!; done.
    + rewrite drr_step_advances in Hstep by done.
      destruct (none_before_next k current Hn Hf) as [Hn1 Hn2].
      destruct (Nat.eqb_spec (S current) n) as [Hwrap|Hwrap]; [|done].
      pose proof (refill_spec k Hk) as Hrefill.
      destruct (try_fold _ _ _) as [ds|e]; [done|]. injection Hstep as <-.
      destruct Hrefill as (-> & c & Hcn & Ha & Hov). split; [done|].
      exists (k + 1), c. split_and!; auto.
  - exists 0, start. split_and!.
    + repeat f_equal; [|lia]. rewrite (table_of_list deficits) at 1. rewrite (drr_length Hok).
      apply table_ext. intros c _. unfold deficit_after. by destruct (active c); [lia|].
    + unfold visited. lia.
    + unfold none_before, visited. intros k' c' Hv Hlt. lia.
  - unfold drr_measure, drr_fuel. simpl (_.2). change (2 ^ Z.of_nat 140) with (2 ^ 140). lia.
Qed.
End drr.

(** ** Weighted round robin serves the next class that may send *)

Section wrr.
Context (weights sent : list Z) (packets : list PacketDescriptor) (start : nat).
Let n := length weights.

(** The class visited at step [i]. *)
Definition turn (i : nat) : nat := ((start + i) mod n)%nat.

(** The packet counts when step [i] begins: the classes passed are reset. *)
Definition counts (i c : nat) : Z :=
  if existsb (fun j => turn j =? c)%nat (seq 0 i) then 0 else sent !!! c.

(** The class of step [i] is served. *)
Definition may_send (i : nat) : Prop :=
  existsb (in_class n (turn i)) packets = true /\ counts i (turn i) < weights !!! turn i.

Record wrr_ok : Prop := {
  wrr_start : (start < n)%nat;
  wrr_length : length sent = n;
  wrr_count : Z.of_nat n <= u64_max;
  wrr_packets : packets <> [];
  wrr_weight : Forall (fun w => 0 < w <= u64_max) weights;
  wrr_sent : Forall in_u64 sent;
}.

Context (Hok : wrr_ok).

Definition wrr_result (r : nat * list Z * nat) : Prop :=
  let '(position, sent', c) := r in
  exists j, c = turn j /\ may_send j /\ (forall i, (i < j)%nat -> ~ may_send i)
    /\ find_position (in_class n c) packets = Some position
    /\ sent' = <[c := counts j c + 1]> (counts j <$> seq 0 n).

Definition wrr_inv (s : list Z * nat) : Prop :=
  exists i, s = (counts i <$> seq 0 n, turn i) /\ forall j, (j < i)%nat -> ~ may_send j.

(** Steps to class [a], plus a whole round when [a] must first be reset. *)
Definition wrr_measure (a : nat) (s : list Z * nat) : Z :=
  (Z.of_nat a - Z.of_nat s.2) mod Z.of_nat n
  + (if (s.1 !!! a) <? (weights !!! a) then 0 else Z.of_nat n).

Lemma weight_pos c : (c < n)%nat -> 0 < weights !!! c <= u64_max.
Proof.
  intros Hc. pose proof (wrr_weight Hok) as H. rewrite Forall_lookup in H.
  eapply H. by apply list_lookup_lookup_total_lt.
Qed.

Lemma turn_lt i : (turn i < n)%nat.
Proof. pose proof (wrr_start Hok). unfold turn. apply Nat.mod_upper_bound. lia. Qed.

Lemma turn_next i : (S (turn i) mod n)%nat = turn (S i).
Proof.
  pose proof (wrr_start Hok). unfold turn.
  rewrite <- Nat.add_1_r, Nat.Div0.add_mod_idemp_l. f_equal. lia.
Qed.

Lemma counts_next i : <[turn i := 0]> (counts i <$> seq 0 n) = counts (S i) <$> seq 0 n.
Proof.
  rewrite insert_table by apply turn_lt. apply table_ext. intros c Hc.
  unfold counts. rewrite seq_S, existsb_app. simpl.
  destruct (decide (c = turn i)) as [->|Hne].
  - by rewrite Nat.eqb_refl, orb_true_r.
  - destruct (Nat.eqb_spec (turn i) c); [congruence|]. rewrite ?orb_false_r. done.
Qed.

Lemma counts_word i c : (c < n)%nat -> 0 <= counts i c <= u64_max.
Proof.
  intros Hc. unfold counts. destruct (existsb _ _); [lia|].
  pose proof (wrr_sent Hok) as H. rewrite Forall_lookup in H.
  eapply H. apply list_lookup_lookup_total_lt. by rewrite (wrr_length Hok).
Qed.

Lemma wrr_step_cases i :
  (may_send i /\ exists position,
     find_position (in_class n (turn i)) packets = Some position
     /\ wrr_step weights packets (counts i <$> seq 0 n, turn i)
        = inr (position, <[turn i := counts i (turn i) + 1]> (counts i <$> seq 0 n), turn i))
  \/ (~ may_send i
      /\ wrr_step weights packets (counts i <$> seq 0 n, turn i)
         = inl (counts (S i) <$> seq 0 n, turn (S i))).
Proof.
  pose proof (turn_lt i) as Ht. pose proof (weight_pos _ Ht). pose proof (counts_word i _ Ht).
  unfold wrr_step, may_send. fold n. rewrite lookup_total_table by done.
  rewrite counts_next, turn_next.
  destruct (Z.ltb_spec (counts i (turn i)) (weights !!! turn i)); [|right; split; [lia|done]].
  destruct (find_position _ packets) as [p|] eqn:E.
  - left. split; [split; [|done]|exists p; split; [done|by rewrite wadd_small by lia]].
    apply not_false_iff_true. rewrite <- find_position_None. congruence.
  - right. apply find_position_None in E. split; [by rewrite E; intros [? _]|done].
Qed.

(** A class with packets is reached within two rounds. *)
Lemma wrr_measure_step a i : (a < n)%nat -> existsb (in_class n a) packets = true ->
  ~ may_send i ->
  0 <= wrr_measure a (counts (S i) <$> seq 0 n, turn (S i))
     < wrr_measure a (counts i <$> seq 0 n, turn i).
Proof.
  intros Ha Hact Hm. unfold wrr_measure. simpl (_.1). simpl (_.2).
  rewrite !lookup_total_table by done. pose proof (turn_lt i) as Ht.
  pose proof (weight_pos a Ha) as Hw.
  assert (Hnext : Z.of_nat (turn (S i)) = (Z.of_nat (turn i) + 1) mod Z.of_nat n).
  { rewrite <- turn_next, Nat2Z.inj_mod. f_equal. lia. }
  rewrite Hnext, Zminus_mod_idemp_r.
  pose proof (Z.mod_pos_bound (Z.of_nat a - (Z.of_nat (turn i) + 1)) (Z.of_nat n) ltac:(lia)).
  assert (Hcounts : counts (S i) a = if decide (a = turn i) then 0 else counts i a).
  { rewrite <- (lookup_total_table (counts (S i)) n a), <- counts_next, insert_table by done.
    by rewrite lookup_total_table. }
  rewrite Hcounts. destruct (decide (a = turn i)) as [->|Hne].
  - rewrite Z.sub_diag, Z.mod_0_l by lia.
    destruct (Z.ltb_spec 0 (weights !!! turn i)); [|lia].
    destruct (Z.ltb_spec (counts i (turn i)) (weights !!! turn i)); [|lia].
    exfalso. by apply Hm.
  - destruct (_ <? _); [|].
    all: assert (Hd : (Z.of_nat a - (Z.of_nat (turn i) + 1)) mod Z.of_nat n
        = (Z.of_nat a - Z.of_nat (turn i)) mod Z.of_nat n - 1); [|lia].
    all: destruct (Z_lt_le_dec (Z.of_nat a) (Z.of_nat (turn i))).
    all: first [ rewrite <- (Z.mod_unique _ _ (-1) (Z.of_nat a - (Z.of_nat (turn i) + 1) + Z.of_nat n)),
                   <- (Z.mod_unique _ _ (-1) (Z.of_nat a - Z.of_nat (turn i) + Z.of_nat n)); lia
               | rewrite !Z.mod_small; lia ].
Qed.

Lemma wrr_loop_spec :
  exists r, wloop (wrr_step weights packets) wrr_fuel (sent, start) = inr r /\ wrr_result r.
Proof.
  pose proof (wrr_start Hok) as Hs. pose proof (wrr_count Hok) as Hcount.
  destruct (some_class_active n packets ltac:(lia) (wrr_packets Hok)) as (a & Ha & Hact).
  destruct (wloop_spec (wrr_step weights packets) wrr_inv (wrr_measure a) wrr_result
    wrr_fuel (sent, start)) as (r & Hr & _ & HQ); [| | | |by exists r].
  - intros s s' (i & -> & Hn) Hstep.
    destruct (wrr_step_cases i) as [(_ & p & _ & E)|(Hm & E)]; rewrite E in Hstep; [done|].
    injection Hstep as <-. split; [|by apply wrr_measure_step].
    exists (S i). split; [done|]. intros j Hj. destruct (decide (j = i)) as [->|]; [done|].
    apply Hn. lia.
  - intros s r (i & -> & Hn) Hstep.
    destruct (wrr_step_cases i) as [(Hm & p & Hp & E)|(Hm & E)]; rewrite E in Hstep; [|done].
    injection Hstep as <-. exists i. split_and!; done.
  - exists 0%nat. split; [|lia]. f_equal.
    + rewrite (table_of_list sent) at 1. rewrite (wrr_length Hok). by apply table_ext.
    + unfold turn. rewrite Nat.add_0_r, Nat.mod_small; done.
  - unfold wrr_measure, wrr_fuel. change (2 ^ Z.of_nat 70) with (2 ^ 70).
    pose proof (Z.mod_pos_bound (Z.of_nat a - Z.of_nat start) (Z.of_nat n) ltac:(lia)).
    simpl (_.2). destruct (_ <? _); lia.
Qed.
End wrr.

(** ** Weighted fair queueing keeps its queue in finish-tag order *)

Section wfq.
Context (tags : bmap PayloadId ExactRational).

Definition tag_le (p q : PayloadId) : Prop :=
  match bm_get p tags, bm_get q tags with
  | Some x, Some y => (x <= y)%Q
  | _, _ => False
  end.

(** Every waiting packet has a tag, and the tags increase along the queue. *)
Definition tag_ordered (queue : list PayloadId) : Prop :=
  Forall (fun p => is_Some (bm_get p tags)) queue /\ StronglySorted tag_le queue.

Lemma wfq_scan_spec node finish queue : forall i,
  Forall (fun p => is_Some (bm_get p tags)) queue ->
  exists q1 q2, queue = q1 ++ q2
    /\ wfq_scan tags node finish i queue = Ok (i + length q1)%nat
    /\ Forall (fun p => exists x, bm_get p tags = Some x /\ (x <= finish)%Q) q1
    /\ match q2 with
       | [] => True
       | p :: _ => exists x, bm_get p tags = Some x /\ (finish < x)%Q
       end.
Proof.
  induction queue as [|p queue IH]; intros i H; cbn [wfq_scan].
  - exists [], []. rewrite Nat.add_0_r. split_and!; done || constructor.
  - apply Forall_cons in H as [[x Hx] H]. rewrite Hx. cbn [ok_or mbind result_bind].
    destruct (Qle_bool x finish) eqn:E; simpl.
    + apply Qle_bool_iff in E. destruct (IH (S i) H) as (q1 & q2 & -> & -> & H1 & H2).
      exists (p :: q1), q2. split_and!; [done|f_equal; simpl; lia|constructor; eauto|done].
    + exists [], (p :: queue). rewrite Nat.add_0_r.
      split_and!; [done|done|constructor|]. exists x. split; [done|].
      apply Qnot_le_lt. rewrite <- Qle_bool_iff. by rewrite E.
Qed.
End wfq.

Lemma tag_le_insert tags k v p q : p <> k -> q <> k ->
  tag_le tags p q -> tag_le (bm_insert k v tags) p q.
Proof. intros Hp Hq. unfold tag_le. by rewrite !bm_get_insert_ne. Qed.

(** Inserting at the scanned position keeps the order. *)
Lemma tag_ordered_insert tags k v q1 q2 :
  tag_ordered tags (q1 ++ q2) -> bm_get k tags = None ->
  Forall (fun p => exists x, bm_get p tags = Some x /\ (x <= v)%Q) q1 ->
  match q2 with
  | [] => True
  | p :: _ => exists x, bm_get p tags = Some x /\ (v < x)%Q
  end ->
  tag_ordered (bm_insert k v tags) (q1 ++ k :: q2)
  /\ Forall (fun p => exists x, bm_get p tags = Some x /\ (v < x)%Q) q2.
Proof.
  intros [Ht Hs] Hk H1 H2. rewrite Forall_forall in Ht, H1.
  assert (Hne : forall p, p ∈ q1 ++ q2 -> p <> k).
  { intros p Hp ->. destruct (Ht k Hp). congruence. }
  assert (Hnew : forall p, p ∈ q1 ++ q2 -> bm_get p (bm_insert k v tags) = bm_get p tags).
  { intros p Hp. apply bm_get_insert_ne, not_eq_sym, Hne, Hp. }
  apply StronglySorted_app in Hs as (Hx & Hs1 & Hs2).
  assert (Hq2 : forall p, p ∈ q2 -> exists x, bm_get p tags = Some x /\ (v < x)%Q).
  { destruct q2 as [|p0 q2]; [by intros ? ?%elem_of_nil|]. destruct H2 as (x0 & Hp0 & Hlt).
    apply StronglySorted_inv in Hs2 as [_ Hall]. rewrite Forall_forall in Hall.
    intros p [->|Hp]%elem_of_cons; [eauto|]. specialize (Hall p Hp). unfold tag_le in Hall.
    rewrite Hp0 in Hall. destruct (bm_get p tags) as [y|]; [|done].
    exists y. split; [done|]. eapply Qlt_le_trans; eauto. }
  assert (Hin : forall l, (forall p, p ∈ l -> p ∈ q1 ++ q2) ->
            StronglySorted (tag_le tags) l -> StronglySorted (tag_le (bm_insert k v tags)) l).
  { intros l Hl. induction 1 as [|p l _ IH Hall]; constructor; [apply IH; set_solver|].
    rewrite Forall_forall in *. intros q Hq. apply tag_le_insert; [| |by apply Hall];
      apply Hne, Hl; set_solver. }
  split; [split|by apply Forall_forall].
  - apply Forall_forall. intros p Hp. destruct (decide (p = k)) as [->|Hpk].
    + rewrite bm_get_insert_eq. eauto.
    + rewrite Hnew by set_solver. apply Ht. set_solver.
  - apply StronglySorted_app_2; [|apply Hin; set_solver|constructor; [apply Hin; set_solver|]].
    + intros p q Hp [->|Hq]%elem_of_cons.
      * unfold tag_le. rewrite bm_get_insert_eq, Hnew by set_solver.
        destruct (H1 p Hp) as (x & -> & ?). done.
      * apply tag_le_insert; [apply Hne; set_solver|apply Hne; set_solver|by apply Hx].
    + apply Forall_forall. intros q Hq. unfold tag_le.
      rewrite bm_get_insert_eq, Hnew by set_solver.
      destruct (Hq2 q Hq) as (x & -> & ?). by apply Qlt_le_weak.
Qed.

(** The state of a configured queue. *)
Record wfq_ok (state : WfqSchedulerState) (queue : list PayloadId) : Prop := {
  wok_classes : wfq_weights state <> [];
  wok_weights : Forall (fun w => 0 < w) (wfq_weights state);
  wok_finish : length (wfq_finish_times state) = length (wfq_weights state);
  wok_active : length (wfq_active_packets state) = length (wfq_weights state);
  wok_counts : Forall in_u64 (wfq_active_packets state);
  wok_order : tag_ordered (wfq_packet_finish_times state) queue;
}.

Lemma active_weight_pos ws : forall acts acc,
  Forall (fun w => 0 < w) ws -> length acts = length ws ->
  let sum := foldl (fun sum wa => if wa.2 =? 0 then sum else sum + wa.1) acc (zip ws acts) in
  acc <= sum /\ (all_idle acts = false -> acc < sum).
Proof.
  induction ws as [|w ws IH]; intros [|a acts] acc Hw Hl; simplify_eq/=; [split; [lia|done]|].
  apply Forall_cons in Hw as [Hw Hws].
  destruct (IH acts (if a =? 0 then acc else acc + w) Hws Hl) as [H1 H2]. simpl in *.
  unfold all_idle in *. simpl. destruct (a =? 0); simpl; split; auto; intros; lia.
Qed.

(** The virtual clock of a busy queue runs at the link rate over the active
    weights; an idle queue restarts it. *)
Definition fluid_clock (state : WfqSchedulerState) (time_ns rate_bps : Z) : Q :=
  if all_idle (wfq_active_packets state) then 0%Q
  else (wfq_virtual_time state
        + inject_Z ((time_ns - wfq_last_updated_ns state) * rate_bps)
          / inject_Z (1000000000 * wfq_active_weight_sum state))%Q.

Lemma advance_spec state queue time_ns rate_bps node :
  wfq_ok state queue -> all_idle (wfq_active_packets state) = false ->
  wfq_last_updated_ns state <= time_ns ->
  exists v, wfq_advance_virtual_time state time_ns rate_bps node
      = Ok (state <| wfq_virtual_time := v |>)
    /\ (v == fluid_clock state time_ns rate_bps)%Q.
Proof.
  intros H Hidle Ht. unfold wfq_advance_virtual_time, fluid_clock. rewrite Hidle.
  assert (E : checked_sub time_ns (wfq_last_updated_ns state)
              = Some (time_ns - wfq_last_updated_ns state)) by (apply checked_sub_Some; lia).
  rewrite E. cbn [ok_or mbind result_bind].
  destruct (active_weight_pos (wfq_weights state) (wfq_active_packets state) 0
    (wok_weights _ _ H) (wok_active _ _ H)) as [_ Hpos]. specialize (Hpos Hidle).
  fold (wfq_active_weight_sum state) in Hpos.
  destruct (Z.eqb_spec (wfq_active_weight_sum state) 0); [lia|].
  destruct (Z.eqb_spec (time_ns - wfq_last_updated_ns state) 0) as [E0|E0].
  - exists (wfq_virtual_time state). split; [by destruct state|]. rewrite E0, Z.mul_0_l.
    unfold Qdiv. rewrite Qmult_0_l, Qplus_0_r. reflexivity.
  - eexists. split; [reflexivity|]. rewrite Qred_correct. unfold ratio_new.
    rewrite Qred_correct. reflexivity.
Qed.

#[export] Instance ratio_max_proper : Proper (Qeq ==> Qeq ==> Qeq) ratio_max.
Proof.
  intros a a' Ha b b' Hb. unfold ratio_max.
  destruct (Qle_bool a b) eqn:E, (Qle_bool a' b') eqn:E'; auto.
  - exfalso. apply not_true_iff_false in E'. apply E'. apply Qle_bool_iff in E.
    apply Qle_bool_iff. by rewrite <- Ha, <- Hb.
  - exfalso. apply not_true_iff_false in E. apply E. apply Qle_bool_iff in E'.
    apply Qle_bool_iff. by rewrite Ha, Hb.
Qed.

(** The finish history of a class, forgotten while the queue is idle. *)
Definition class_finish (state : WfqSchedulerState) (c : nat) : Q :=
  if all_idle (wfq_active_packets state) then 0%Q else wfq_finish_times state !!! c.

(** The clock step an arrival begins with. *)
Lemma arrival_clock state queue time_ns rate_bps node c :
  wfq_ok state queue -> wfq_last_updated_ns state <= time_ns ->
  (c < length (wfq_weights state))%nat ->
  exists v fs, (if all_idle (wfq_active_packets state) then
       Ok (state <| wfq_virtual_time := zero_rational |>
                 <| wfq_finish_times ::= fmap (fun _ => zero_rational) |>)
     else wfq_advance_virtual_time state time_ns rate_bps node)
    = Ok (mkWfq (wfq_weights state) v (wfq_last_updated_ns state) fs
            (wfq_active_packets state) (wfq_packet_finish_times state))
    /\ (v == fluid_clock state time_ns rate_bps)%Q
    /\ length fs = length (wfq_weights state) /\ fs !!! c = class_finish state c.
Proof.
  intros H Ht Hc. destruct (all_idle (wfq_active_packets state)) eqn:E.
  - eexists _, _. split; [reflexivity|]. unfold fluid_clock, class_finish. rewrite E.
    simpl. split_and!; [reflexivity|by rewrite length_fmap, (wok_finish _ _ H)|].
    apply list_lookup_total_correct.
    rewrite list_lookup_fmap, list_lookup_lookup_total_lt by (by rewrite (wok_finish _ _ H)). done.
  - destruct (advance_spec state queue time_ns rate_bps node H E Ht) as (v & -> & Hv).
    exists v, (wfq_finish_times state). unfold class_finish. rewrite E.
    split_and!; [by destruct state|done|by apply (wok_finish _ _ H)|done].
Qed.

Lemma wfq_class_ok_true state queue c : wfq_ok state queue ->
  (c < length (wfq_weights state))%nat ->
  wfq_class_ok state c = true /\ 0 < wfq_weights state !!! c.
Proof.
  intros H Hc. pose proof (wok_weights _ _ H) as Hw. rewrite Forall_lookup in Hw.
  specialize (Hw c _ (list_lookup_lookup_total_lt _ _ Hc)). split; [|done].
  unfold wfq_class_ok. rewrite (wok_finish _ _ H), (wok_active _ _ H), Nat.eqb_refl.
  destruct (Z.eqb_spec (wfq_weights state !!! c) 0); [lia|done].
Qed.

Lemma insert_at_app {A} (q1 q2 : list A) x : insert_at (length q1) x (q1 ++ q2) = q1 ++ x :: q2.
Proof. unfold insert_at. by rewrite take_app_length, drop_app_length. Qed.

(** C38. Weighted fair queueing computes its tags exactly and serves in tag order.
    On a well-formed queue an arrival is always accepted; its finish tag is
    [max(V, F_class) + 8 * size / weight] in exact rational arithmetic, where the
    virtual clock [V] ran at the link rate over the weights of the active classes;
    it is placed after every packet whose tag is not later and before every packet
    whose tag is, and the queue stays well formed. *)
Theorem wfq_enqueue_exact state queue packet time_ns rate_bps node :
  wfq_ok state queue -> wfq_last_updated_ns state <= time_ns ->
  bm_get (pk_id packet) (wfq_packet_finish_times state) = None ->
  Forall (fun a => a < u64_max) (wfq_active_packets state) ->
  exists state' q1 q2 c finish,
    scheduler_class (pk_flow packet) (length (wfq_weights state)) = Some c
    /\ wfq_enqueue state queue packet time_ns rate_bps node
       = Ok (state', q1 ++ pk_id packet :: q2)
    /\ queue = q1 ++ q2
    /\ bm_get (pk_id packet) (wfq_packet_finish_times state') = Some finish
    /\ (finish == ratio_max (fluid_clock state time_ns rate_bps) (class_finish state c)
          + inject_Z (pk_size_bytes packet * 8) / inject_Z (wfq_weights state !!! c))%Q
    /\ Forall (fun p => exists x, bm_get p (wfq_packet_finish_times state) = Some x
                          /\ (x <= finish)%Q) q1
    /\ Forall (fun p => exists x, bm_get p (wfq_packet_finish_times state) = Some x
                          /\ (finish < x)%Q) q2
    /\ wfq_ok state' (q1 ++ pk_id packet :: q2).
Proof.
  intros H Ht Hnew Hroom. unfold wfq_enqueue.
  destruct (scheduler_class_total (pk_flow packet) (length (wfq_weights state))) as [c Hc].
  { pose proof (wok_classes _ _ H). by destruct (wfq_weights state); simpl; [|lia]. }
  pose proof (scheduler_class_lt _ _ _ Hc) as Hlt. rewrite Hc.
  destruct (wfq_class_ok_true state queue c H Hlt) as [Hcls _].
  cbn [ok_or mbind result_bind]. rewrite Hcls. simpl (negb true). cbv iota.
  destruct (Z.ltb_spec time_ns (wfq_last_updated_ns state)); [lia|].
  destruct (arrival_clock state queue time_ns rate_bps node c H Ht Hlt)
    as (v & fs & -> & Hv & Hfs & Hfc).
  cbn [mbind result_bind wfq_virtual_time wfq_finish_times wfq_weights wfq_packet_finish_times
    field_update wfq_active_packets wfq_last_updated_ns]. rewrite Hfc.
  set (finish := Qred _).
  destruct (wfq_scan_spec (wfq_packet_finish_times state) node finish queue 0
    (proj1 (wok_order _ _ H))) as (q1 & q2 & Hq & Hscan & H1 & H2).
  rewrite Hscan, Hnew. cbn [mbind result_bind Nat.add].
  assert (Ha : 0 <= wfq_active_packets state !!! c < u64_max).
  { rewrite Forall_lookup in Hroom. pose proof (wok_counts _ _ H) as Hw. rewrite Forall_lookup in Hw.
    rewrite <- (wok_active _ _ H) in Hlt. apply list_lookup_lookup_total_lt in Hlt.
    specialize (Hroom _ _ Hlt). specialize (Hw _ _ Hlt). unfold in_u64 in Hw. lia. }
  assert (E : checked_add (wfq_active_packets state !!! c) 1
              = Some (wfq_active_packets state !!! c + 1)) by (apply checked_add_Some; lia).
  rewrite E. cbn [ok_or mbind result_bind]. rewrite Hq, insert_at_app.
  pose proof (wok_order _ _ H) as Hord. rewrite Hq in Hord.
  destruct (tag_ordered_insert _ (pk_id packet) finish q1 q2 Hord Hnew H1 H2) as [Hord' H2'].
  eexists _, q1, q2, c, finish. split_and!; [done|reflexivity|done| | |done|done|].
  - simpl. apply bm_get_insert_eq.
  - subst finish. rewrite Qred_correct. unfold ratio_new. by rewrite Qred_correct, Hv.
  - destruct H as [K1 K2 K3 K4 K5 K6]. split; simpl; auto.
    + by rewrite length_insert.
    + by rewrite length_insert.
    + apply Forall_insert; [done|]. unfold in_u64. lia.
Qed.

Definition wfq_example : WfqSchedulerState :=
  mkWfq [1; 3] (5 # 2)%Q 100 [8000 # 1; 0]%Q [1; 0] [(7, (8000 # 1)%Q)].

Lemma wfq_enqueue_exact_witness :
  exists state' q1 q2 c finish,
    wfq_enqueue wfq_example [7] (mkPacket 9 1 1500 false Data) 200 1000000000 0
      = Ok (state', q1 ++ 9 :: q2)
    /\ [7] = q1 ++ q2 /\ c = 1%nat
    /\ (finish == ratio_max (fluid_clock wfq_example 200 1000000000) (class_finish wfq_example c)
          + inject_Z 12000 / inject_Z (wfq_weights wfq_example !!! c))%Q.
Proof.
  destruct (wfq_enqueue_exact wfq_example [7] (mkPacket 9 1 1500 false Data) 200 1000000000 0)
    as (s & q1 & q2 & c & f & Hc & He & Hq & _ & Hf & _).
  - split; [done|list_forall; lia|done|done|list_forall; unfold in_u64; lia|].
    split; [list_forall; by eexists|repeat constructor].
  - simpl. lia.
  - reflexivity.
  - list_forall; lia.
  - exists s, q1, q2, c, f. vm_compute in Hc. injection Hc as <-.
    split_and!; [exact He|exact Hq|reflexivity|exact Hf].
Defined.

(** C39. The deficit round robin loop ends, and serves the first packet that fits.
    Deficits after [k] refills are [d + k * quantum] for classes with packets and
    zero for the others; the class served is the first, in the order round by round
    and class by class from the current one, whose deficit covers its first packet,
    which is the one served; the count of scan steps is exact. The only failure is a
    deficit that would leave the 64-bit range before any class fits. *)
Theorem drr_first_fit state packets node :
  let quanta := drr_quanta_bytes state in
  let deficits := drr_deficits_bytes state in
  let start := Z.to_nat (drr_current_class state) in
  0 <= drr_current_class state -> drr_ok quanta deficits packets start ->
  match drr_select state packets node with
  | Ok (state', (position, scan_steps)) => exists k c,
      visited quanta start k c
      /\ fits quanta deficits packets k c
      /\ none_before quanta deficits packets start k c
      /\ find_position (in_class (length quanta) c) packets = Some position
      /\ scan_steps = k * Z.of_nat (length quanta) + Z.of_nat c - Z.of_nat start
      /\ state' = mkDrr quanta
           (<[c := deficit_after quanta deficits packets k c - front_size quanta packets c]>
              (deficit_after quanta deficits packets k <$> seq 0 (length quanta)))
           (Z.of_nat c)
  | Err e => e = InvalidSchedulerState node /\ exists k c,
      active quanta packets c = true
      /\ u64_max < deficit_after quanta deficits packets k c
      /\ none_before quanta deficits packets start k 0
  end.
Proof.
  intros quanta deficits start Hc0 Hok. unfold drr_select. fold quanta deficits start.
  pose proof (drr_start _ _ _ _ Hok) as Hs. rewrite (drr_length _ _ _ _ Hok), Nat.eqb_refl.
  destruct (Nat.eqb_spec (length quanta) 0); [lia|]. simpl (_ || _).
  destruct (existsb _ quanta) eqn:E.
  { apply existsb_exists in E as (q & Hq & Hz). pose proof (drr_quanta _ _ _ _ Hok) as Hall.
    rewrite Forall_forall in Hall. specialize (Hall q). rewrite list_elem_of_In in Hall.
    specialize (Hall Hq). simpl in Hall. lia. }
  simpl (negb _ || _). cbv iota.
  destruct (Z.ltb_spec (drr_current_class state) (Z.of_nat (length quanta))); [|subst start; lia].
  simpl (negb _). cbv iota.
  destruct (drr_loop_spec quanta deficits packets node start Hok) as (r & -> & Hr).
  cbn [loop_result]. destruct r as [[[[position steps] ds] c]|e]; cbn [mbind result_bind].
  - destruct Hr as (k & H1 & H2 & H3 & H4 & H5 & ->). exists k, c. split_and!; done.
  - destruct Hr as (-> & k & c & _ & H1 & H2 & H3). split; [done|]. by exists k, c.
Qed.

Definition drr_packets_example : list PacketDescriptor :=
  [mkPacket 1 0 1500 false Data; mkPacket 2 1 700 false Data; mkPacket 3 1 200 false Data].

Lemma drr_first_fit_witness :
  match drr_select (mkDrr [500; 300] [0; 200] 0) drr_packets_example 7 with
  | Ok (state', (position, scan_steps)) =>
      drr_deficits_bytes state' = [1000; 100] /\ position = 1%nat /\ scan_steps = 5
      /\ exists k c, fits [500; 300] [0; 200] drr_packets_example k c
           /\ scan_steps = k * 2 + Z.of_nat c - 0
  | Err _ => False
  end.
Proof.
  pose proof (drr_first_fit (mkDrr [500; 300] [0; 200] 0) drr_packets_example 7) as H.
  specialize (H ltac:(simpl; lia)).
  assert (Hok : drr_ok [500; 300] [0; 200] drr_packets_example 0).
  { split; simpl; try lia; try done; list_forall; unfold in_u64; simpl; lia. }
  specialize (H Hok). clear Hok. vm_compute drr_select in H |- *.
  destruct H as (k & c & _ & Hf & _ & _ & Hs & _).
  split; [reflexivity|]. split; [reflexivity|]. split; [reflexivity|].
  exists k, c. split; [exact Hf|exact Hs].
Defined.

(** C40. The weighted round robin loop ends, and serves the next class that may
    send: the first class in cyclic order from the current one that has a packet
    and has not used up its weight, where classes passed over are reset, so a
    class with packets is always found. The packet is the first of its class, and
    no class ever exceeds its weight. *)
Theorem wrr_next_class state packets node :
  let weights := wrr_weights state in
  let sent := wrr_packets_sent_in_round state in
  let start := Z.to_nat (wrr_current_class state) in
  0 <= wrr_current_class state -> wrr_ok weights sent packets start ->
  exists position j,
    let c := turn weights start j in
    may_send weights sent packets start j
    /\ (forall i, (i < j)%nat -> ~ may_send weights sent packets start i)
    /\ find_position (in_class (length weights) c) packets = Some position
    /\ wrr_select state packets node
       = Ok (mkWrr weights (<[c := counts weights sent start j c + 1]>
               (counts weights sent start j <$> seq 0 (length weights))) (Z.of_nat c),
             (position, 0))
    /\ counts weights sent start j c + 1 <= weights !!! c.
Proof.
  intros weights sent start Hc0 Hok. unfold wrr_select. fold weights sent start.
  pose proof (wrr_start _ _ _ _ Hok) as Hs. rewrite (wrr_length _ _ _ _ Hok), Nat.eqb_refl.
  destruct (Nat.eqb_spec (length weights) 0); [lia|]. simpl (_ || _).
  destruct (existsb _ weights) eqn:E.
  { apply existsb_exists in E as (q & Hq & Hz). pose proof (wrr_weight _ _ _ _ Hok) as Hall.
    rewrite Forall_forall in Hall. specialize (Hall q). rewrite list_elem_of_In in Hall.
    specialize (Hall Hq). simpl in Hall. lia. }
  simpl (negb _ || _). cbv iota.
  destruct (Z.ltb_spec (wrr_current_class state) (Z.of_nat (length weights))); [|subst start; lia].
  simpl (negb _). cbv iota.
  destruct (wrr_loop_spec weights sent packets start Hok) as ([[position sent'] c] & -> & Hr).
  destruct Hr as (j & -> & H1 & H2 & H3 & ->). exists position, j.
  split_and!; [done|done|done|done|]. destruct H1 as [_ H1]. lia.
Qed.

Lemma wrr_next_class_witness :
  exists position j,
    let c := turn [2; 1; 3] 0 j in
    wrr_select (mkWrr [2; 1; 3] [2; 0; 1] 0)
      [mkPacket 1 0 1500 false Data; mkPacket 2 3 700 false Data] 7
      = Ok (mkWrr [2; 1; 3] (<[c := counts [2; 1; 3] [2; 0; 1] 0 j c + 1]>
              (counts [2; 1; 3] [2; 0; 1] 0 j <$> seq 0 3)) (Z.of_nat c), (position, 0))
    /\ counts [2; 1; 3] [2; 0; 1] 0 j c + 1 <= [2; 1; 3] !!! c.
Proof.
  destruct (wrr_next_class (mkWrr [2; 1; 3] [2; 0; 1] 0)
    [mkPacket 1 0 1500 false Data; mkPacket 2 3 700 false Data] 7) as (p & j & _ & _ & _ & H1 & H2).
  - simpl. lia.
  - split; simpl; try lia; try done; list_forall; unfold in_u64; simpl; lia.
  - exists p, j. split; [exact H1|exact H2].
Defined.
