(* ===== verification/PacketStore.v ===== *)
(** * The packet store (executor/src/packet_store.rs)

    Packets by payload identity: a short unsorted vector that becomes a slab
    behind an open-addressing index with linear probing and backward-shift
    deletion. Operations return [None] where the Rust code would panic (an
    index out of bounds, an [unreachable!], the [expect] of [insert]) or loop
    for ever; the refinement theorem shows that none of these happens. *)

From S2P Require Import Prelude OrdMap Event.

Definition SMALL_LIMIT : nat := 16.
Definition FIRST_BUCKETS : nat := 64.
Definition EMPTY : Z := u32_max.
Definition NO_SLOT : Z := u32_max.
Definition FIBONACCI : Z := 0x9e3779b97f4a7c15.

Record Bucket := mkBucket { bk_payload : Z; bk_slot : Z }.

Definition EMPTY_BUCKET : Bucket := mkBucket 0 EMPTY.

(** The home bucket of a payload: the top bits of the product. *)
Definition bucket_of (payload shift : Z) : nat :=
  Z.to_nat (Z.shiftr (payload *w FIBONACCI) shift).

(** [64 - buckets.trailing_zeros()] of a power of two. *)
Definition shift_of (buckets : nat) : Z := 64 - Z.log2 (Z.of_nat buckets).

Section index.
Context (shift : Z).

Definition mask (buckets : list Bucket) : nat := length buckets - 1.

(** The probing loop; at most every bucket is read. *)
Fixpoint find_from (fuel : nat) (buckets : list Bucket) (payload : Z) (index : nat)
  : option (option nat) :=
  match fuel with
  | O => None
  | S fuel =>
      bucket ← buckets !! index;
      if bk_slot bucket =? EMPTY then Some None
      else if bk_payload bucket =? payload then Some (Some index)
      else find_from fuel buckets payload (Nat.land (index + 1) (mask buckets))
  end.

Definition find (buckets : list Bucket) (payload : Z) : option (option nat) :=
  find_from (length buckets) buckets payload (bucket_of payload shift).

Fixpoint place_from (fuel : nat) (buckets : list Bucket) (payload slot : Z) (index : nat)
  : option (list Bucket) :=
  match fuel with
  | O => None
  | S fuel =>
      bucket ← buckets !! index;
      if negb (bk_slot bucket =? EMPTY)
      then place_from fuel buckets payload slot (Nat.land (index + 1) (mask buckets))
      else Some (<[index := mkBucket payload slot]> buckets)
  end.

Definition place (buckets : list Bucket) (payload slot : Z) : option (list Bucket) :=
  place_from (length buckets) buckets payload slot (bucket_of payload shift).

(** The member at [next] must stay: its home lies cyclically in [(hole, next]]. *)
Definition stays (hole next home : nat) : bool :=
  if (hole <=? next)%nat then (hole <? home)%nat && (home <=? next)%nat
  else (hole <? home)%nat || (home <=? next)%nat.

(** The loop of the backward-shift deletion. *)
Fixpoint shift_back (fuel : nat) (buckets : list Bucket) (hole next : nat)
  : option (list Bucket) :=
  match fuel with
  | O => None
  | S fuel =>
      bucket ← buckets !! next;
      if negb (bk_slot bucket =? EMPTY) then
        let home := bucket_of (bk_payload bucket) shift in
        let next' := Nat.land (next + 1) (mask buckets) in
        if stays hole next home then shift_back fuel buckets hole next'
        else shift_back fuel (<[hole := bucket]> buckets) next next'
      else Some (<[hole := EMPTY_BUCKET]> buckets)
  end.
End index.

Inductive Slot (V : Type) :=
| Full (value : V)
| Vacant (next : Z).
Arguments Full {V} value.
Arguments Vacant {V} next.

Record Slab (V : Type) := mkSlab {
  sl_buckets : list Bucket;
  sl_shift : Z;
  sl_len : nat;
  sl_slots : list (Slot V);
  sl_free : Z;
}.
Arguments mkSlab {V}.
Arguments sl_buckets {V}.
Arguments sl_shift {V}.
Arguments sl_len {V}.
Arguments sl_slots {V}.
Arguments sl_free {V}.

#[export] Instance eta_slab V : RecordEta (Slab V) := fun s =>
  mkSlab (sl_buckets s) (sl_shift s) (sl_len s) (sl_slots s) (sl_free s).

Inductive Repr (V : Type) :=
| Small (packets : list V)
| Large (slab : Slab V).
Arguments Small {V} packets.
Arguments Large {V} slab.

Section store.
Context {V : Type} (payload_of : V -> Z).

Definition with_buckets (buckets : nat) : Slab V :=
  mkSlab (replicate buckets EMPTY_BUCKET) (shift_of buckets) 0 [] NO_SLOT.

(** Doubles the index and places every full bucket again. *)
Definition grow (s : Slab V) : option (Slab V) :=
  let buckets := (length (sl_buckets s) * 2)%nat in
  let shift := shift_of buckets in
  new ← foldl (fun acc bucket =>
          acc ← acc;
          if bk_slot bucket =? EMPTY then Some acc
          else place shift acc (bk_payload bucket) (bk_slot bucket))
        (Some (replicate buckets EMPTY_BUCKET)) (sl_buckets s);
  Some (s <| sl_buckets := new |> <| sl_shift := shift |>).

(** [full]: [None] is the [unreachable!]. *)
Definition full (slot : Slot V) : option V :=
  match slot with Full value => Some value | Vacant _ => None end.

Definition slab_get (s : Slab V) (payload : Z) : option (option V) :=
  found ← find (sl_shift s) (sl_buckets s) payload;
  match found with
  | None => Some None
  | Some index =>
      bucket ← sl_buckets s !! index;
      slot ← sl_slots s !! Z.to_nat (bk_slot bucket);
      value ← full slot;
      Some (Some value)
  end.

(** [get_mut] followed by the write of [f]; whether the packet was there. *)
Definition slab_get_mut (s : Slab V) (payload : Z) (f : V -> V)
  : option (option V * Slab V) :=
  found ← find (sl_shift s) (sl_buckets s) payload;
  match found with
  | None => Some (None, s)
  | Some index =>
      bucket ← sl_buckets s !! index;
      slot ← sl_slots s !! Z.to_nat (bk_slot bucket);
      value ← full slot;
      Some (Some value, s <| sl_slots ::= <[Z.to_nat (bk_slot bucket) := Full (f value)]> |>)
  end.

(** The slot a new packet takes: the head of the free list, or a new one. *)
Definition take_slot (s : Slab V) (value : V) : option (Z * Slab V) :=
  if sl_free s =? NO_SLOT then
    let slot := Z.of_nat (length (sl_slots s)) in
    if slot <? EMPTY then Some (slot, s <| sl_slots ::= fun l => l ++ [Full value] |>)
    else None
  else
    let slot := sl_free s in
    match sl_slots s !! Z.to_nat slot with
    | Some (Vacant next) =>
        Some (slot, s <| sl_slots ::= <[Z.to_nat slot := Full value]> |> <| sl_free := next |>)
    | _ => None
    end.

Definition slab_insert (s : Slab V) (payload : Z) (value : V)
  : option (option V * Slab V) :=
  found ← find (sl_shift s) (sl_buckets s) payload;
  match found with
  | Some index =>
      bucket ← sl_buckets s !! index;
      slot ← sl_slots s !! Z.to_nat (bk_slot bucket);
      old ← full slot;
      Some (Some old, s <| sl_slots ::= <[Z.to_nat (bk_slot bucket) := Full value]> |>)
  | None =>
      s ← (if (length (sl_buckets s) * 7 <? (sl_len s + 1) * 8)%nat then grow s else Some s);
      '(slot, s) ← take_slot s value;
      buckets ← place (sl_shift s) (sl_buckets s) payload slot;
      Some (None, s <| sl_buckets := buckets |> <| sl_len ::= S |>)
  end.

Definition slab_remove (s : Slab V) (payload : Z) : option (option V * Slab V) :=
  found ← find (sl_shift s) (sl_buckets s) payload;
  match found with
  | None => Some (None, s)
  | Some hole =>
      bucket ← sl_buckets s !! hole;
      let slot := bk_slot bucket in
      old ← sl_slots s !! Z.to_nat slot;
      value ← full old;
      let s := s <| sl_slots ::= <[Z.to_nat slot := Vacant (sl_free s)]> |> in
      let s := s <| sl_free := slot |> <| sl_len ::= pred |> in
      buckets ← shift_back (sl_shift s) (length (sl_buckets s)) (sl_buckets s) hole
                  (Nat.land (hole + 1) (mask (sl_buckets s)));
      Some (Some value, s <| sl_buckets := buckets |>)
  end.

Abbreviation PacketStore := (Repr V) (only parsing).

Definition store_new : PacketStore := Small [].

Definition holds_payload (payload : Z) (packet : V) : bool := payload_of packet =? payload.

(** [iter().position(..)]. *)
Fixpoint position_of (payload : Z) (packets : list V) : option nat :=
  match packets with
  | [] => None
  | packet :: packets =>
      if holds_payload payload packet then Some 0%nat else S <$> position_of payload packets
  end.

Definition store_get (s : PacketStore) (payload : Z) : option (option V) :=
  match s with
  | Small packets => Some (position_of payload packets ≫= fun i => packets !! i)
  | Large slab => slab_get slab payload
  end.

Definition store_get_mut (s : PacketStore) (payload : Z) (f : V -> V)
  : option (option V * PacketStore) :=
  match s with
  | Small packets =>
      Some (match position_of payload packets with
            | Some i => (packets !! i, Small (alter f i packets))
            | None => (None, s)
            end)
  | Large slab => '(old, slab) ← slab_get_mut slab payload f; Some (old, Large slab)
  end.

Definition store_contains_key (s : PacketStore) (payload : Z) : option bool :=
  found ← store_get s payload;
  Some (match found with Some _ => true | None => false end).

Definition store_insert (s : PacketStore) (packet : V) : option (option V * PacketStore) :=
  let payload := payload_of packet in
  match s with
  | Small packets =>
      match position_of payload packets with
      | Some i => Some (packets !! i, Small (<[i := packet]> packets))
      | None =>
          if (length packets <? SMALL_LIMIT)%nat then Some (None, Small (packets ++ [packet]))
          else
            slab ← foldl (fun acc old =>
                     acc ← acc; '(_, acc) ← slab_insert acc (payload_of old) old; Some acc)
                   (Some (with_buckets FIRST_BUCKETS)) packets;
            '(_, slab) ← slab_insert slab payload packet;
            Some (None, Large slab)
      end
  | Large slab => '(old, slab) ← slab_insert slab payload packet; Some (old, Large slab)
  end.

(** [Vec::swap_remove]. *)
Definition swap_remove (position : nat) (l : list V) : list V :=
  match last l with
  | Some z => removelast (<[position := z]> l)
  | None => l
  end.

Definition store_remove (s : PacketStore) (payload : Z) : option (option V * PacketStore) :=
  match s with
  | Small packets =>
      Some (match position_of payload packets with
            | Some i => (packets !! i, Small (swap_remove i packets))
            | None => (None, s)
            end)
  | Large slab =>
      '(removed, slab) ← slab_remove slab payload;
      Some (removed, if (sl_len slab =? 0)%nat then Small [] else Large slab)
  end.

Definition payload_le (a b : V) : Prop := payload_of a <= payload_of b.
#[global] Instance payload_le_dec a b : Decision (payload_le a b).
Proof. unfold payload_le. apply _. Defined.

(** [sort_unstable_by_key(payload)]: payloads are distinct. *)
Definition into_sorted (s : PacketStore) : list V :=
  merge_sort payload_le
    (match s with Small packets => packets | Large slab => omap full (sl_slots slab) end).
End store.

(** ** The index as a probe table

    [m] buckets in a circle; [dist a b] is the number of steps from [a] to [b]. *)

Definition is_full (b : Bucket) : Prop := bk_slot b <> EMPTY.

#[export] Instance is_full_dec b : Decision (is_full b).
Proof. unfold is_full. apply _. Defined.

Definition full_at (T : list Bucket) (x : nat) : Prop :=
  exists b, T !! x = Some b /\ is_full b.

Definition dist (m a b : nat) : nat := if (a <=? b)%nat then (b - a)%nat else (b + m - a)%nat.

Ltac circle := unfold dist in *;
  repeat match goal with
  | |- context [(?a <=? ?b)%nat] => destruct (Nat.leb_spec a b)
  | H : context [(?a <=? ?b)%nat] |- _ => destruct (Nat.leb_spec a b)
  end; lia.

Lemma dist_inj m a x y : (a < m)%nat -> (x < m)%nat -> (y < m)%nat ->
  dist m a x = dist m a y -> x = y.
Proof. intros. circle. Qed.

Lemma dist_lt m a b : (a < m)%nat -> (b < m)%nat -> (dist m a b < m)%nat.
Proof. intros. circle. Qed.

(** Distances are invariant under rotation. *)
Lemma dist_rotate m o a b : (o < m)%nat -> (a < m)%nat -> (b < m)%nat ->
  dist m (dist m o a) (dist m o b) = dist m a b.
Proof. intros. circle. Qed.

(** The bucket after [i]. *)
Definition after (m i : nat) : nat := if (S i =? m)%nat then 0%nat else S i.

Lemma after_lt m i : (i < m)%nat -> (after m i < m)%nat.
Proof. unfold after. destruct (Nat.eqb_spec (S i) m); lia. Qed.

Lemma land_mask m e i : m = (2 ^ e)%nat -> (i < m)%nat -> Nat.land (i + 1) (m - 1) = after m i.
Proof.
  intros -> Hi. rewrite Nat.sub_1_r, <- Nat.ones_equiv, Nat.land_ones, Nat.add_1_r. unfold after.
  destruct (Nat.eqb_spec (S i) (2 ^ e)) as [->|Hne]; [apply Nat.Div0.mod_same|].
  apply Nat.mod_small. lia.
Qed.

Lemma dist_after m a i : (a < m)%nat -> (i < m)%nat -> (S (dist m a i) < m)%nat ->
  dist m a (after m i) = S (dist m a i).
Proof. unfold after. intros. destruct (Nat.eqb_spec (S i) m); circle. Qed.

(** A table of [2 ^ e] buckets whose hash takes the top [e] bits. *)
Record geometry (shift : Z) (m e : nat) : Prop := {
  geo_pow : m = (2 ^ e)%nat;
  geo_bits : (1 <= e <= 64)%nat;
  geo_shift : shift = 64 - Z.of_nat e;
}.

Lemma bucket_of_lt shift m e p : geometry shift m e -> (bucket_of p shift < m)%nat.
Proof.
  intros [-> He ->]. unfold bucket_of. rewrite Z.shiftr_div_pow2 by lia.
  pose proof (wmul_range p FIBONACCI) as Hr. unfold in_u64 in Hr.
  assert (H2 : 2 ^ 64 = 2 ^ (64 - Z.of_nat e) * 2 ^ Z.of_nat e).
  { rewrite <- Z.pow_add_r by lia. f_equal. lia. }
  assert (Hp : 0 < 2 ^ (64 - Z.of_nat e)) by (apply Z.pow_pos_nonneg; lia).
  assert (Hlt : (p *w FIBONACCI) / 2 ^ (64 - Z.of_nat e) < 2 ^ Z.of_nat e).
  { apply Z.div_lt_upper_bound; lia. }
  assert (0 <= (p *w FIBONACCI) / 2 ^ (64 - Z.of_nat e)) by (apply Z.div_pos; lia).
  apply Nat2Z.inj_lt. rewrite Z2Nat.id, Nat2Z.inj_pow by done. done.
Qed.

Lemma geometry_pow e : (1 <= e <= 64)%nat -> geometry (shift_of (2 ^ e)) (2 ^ e) e.
Proof.
  intros He. split; [done|done|]. unfold shift_of. rewrite Nat2Z.inj_pow, Z.log2_pow2; lia.
Qed.

Section probe.
Context (shift : Z) (m e : nat) (Hgeo : geometry shift m e).

Abbreviation home p := (bucket_of p shift) (only parsing).

Record table_ok (T : list Bucket) : Prop := {
  tok_length : length T = m;
  tok_probe : forall i b, T !! i = Some b -> is_full b -> forall x, (x < m)%nat ->
    (dist m (home (bk_payload b)) x < dist m (home (bk_payload b)) i)%nat -> full_at T x;
  tok_unique : forall i j b c, T !! i = Some b -> T !! j = Some c ->
    is_full b -> is_full c -> bk_payload b = bk_payload c -> i = j;
}.

Definition room (T : list Bucket) : Prop := exists x, (x < m)%nat /\ ~ full_at T x.

Lemma home_lt p : (home p < m)%nat.
Proof. by eapply bucket_of_lt. Qed.

Lemma mask_after T i : length T = m -> (i < m)%nat -> Nat.land (i + 1) (mask T) = after m i.
Proof. intros HT Hi. unfold mask. rewrite HT. by eapply land_mask, Hi; apply Hgeo. Qed.

Lemma lookup_bucket (T : list Bucket) i : length T = m -> (i < m)%nat -> exists b, T !! i = Some b.
Proof. intros HT Hi. apply lookup_lt_is_Some. lia. Qed.

Lemma full_at_iff (T : list Bucket) i b : T !! i = Some b -> full_at T i <-> is_full b.
Proof. intros H. unfold full_at. rewrite H. naive_solver. Qed.

Lemma full_bool b : (bk_slot b =? EMPTY) = false <-> is_full b.
Proof. unfold is_full. apply Z.eqb_neq. Qed.

(** Probing from [home p] with the first [k] buckets already passed. *)
Lemma find_from_spec T p : table_ok T -> room T -> forall fuel k index,
  (fuel + k = m)%nat -> (index < m)%nat -> (k < m -> dist m (home p) index = k)%nat ->
  (forall x b, T !! x = Some b -> (dist m (home p) x < k)%nat -> is_full b /\ bk_payload b <> p) ->
  exists r, find_from fuel T p index = Some r
    /\ match r with
       | Some i => exists b, T !! i = Some b /\ is_full b /\ bk_payload b = p
       | None => forall i b, T !! i = Some b -> is_full b -> bk_payload b <> p
       end.
Proof.
  intros [Hlen Hprobe Huniq] (z & Hz & Hempty). pose proof (home_lt p) as Hh.
  assert (Hstop : forall k, (k <= m)%nat ->
    (forall x b, T !! x = Some b -> (dist m (home p) x < k)%nat -> is_full b /\ bk_payload b <> p) ->
    (k < m)%nat).
  { intros k Hk Hpast. destruct (decide (k < m)%nat); [done|]. exfalso. apply Hempty.
    destruct (lookup_bucket T z Hlen Hz) as [b Hb]. exists b. split; [done|].
    pose proof (dist_lt m (home p) z Hh Hz). by apply (Hpast z b Hb); lia. }
  induction fuel as [|fuel IH]; intros k index Hk Hi Hd Hpast.
  { pose proof (Hstop k ltac:(lia) Hpast). lia. }
  pose proof (Hstop k ltac:(lia) Hpast) as Hkm. specialize (Hd Hkm).
  destruct (lookup_bucket T index Hlen Hi) as [b Hb]. simpl. rewrite Hb. simpl.
  destruct (bk_slot b =? EMPTY) eqn:E.
  { exists None. split; [done|]. intros i c Hc Hfc Hp.
    assert (Hin : (i < m)%nat) by (rewrite <- Hlen; by eapply lookup_lt_Some).
    destruct (decide (dist m (home p) i < k)%nat) as [Hlt|Hge]; [by apply (Hpast i c Hc Hlt)|].
    destruct (decide (i = index)) as [->|Hne].
    - rewrite Hb in Hc. injection Hc as ->. apply full_bool in Hfc. congruence.
    - assert (Hf : full_at T index).
      { apply (Hprobe i c Hc Hfc); [done|]. rewrite Hp.
        destruct (decide (dist m (home p) i = dist m (home p) index)) as [Heq|]; [|lia].
        by apply dist_inj in Heq. }
      apply (full_at_iff _ _ _ Hb), full_bool in Hf. congruence. }
  apply full_bool in E. destruct (Z.eqb_spec (bk_payload b) p) as [Hp|Hp].
  { exists (Some index). split; [done|]. by exists b. }
  rewrite mask_after by done.
  assert (Hpast' : forall x c, T !! x = Some c -> (dist m (home p) x < S k)%nat ->
            is_full c /\ bk_payload c <> p).
  { intros x c Hc Hx. destruct (decide (dist m (home p) x < k)%nat); [by apply (Hpast x c)|].
    assert (Hxm : (x < m)%nat) by (rewrite <- Hlen; by eapply lookup_lt_Some).
    assert (x = index) as -> by (apply (dist_inj m (home p)); lia).
    rewrite Hb in Hc. by injection Hc as ->. }
  apply (IH (S k)); [lia|by apply after_lt| |done].
  intros Hlt. rewrite dist_after; lia.
Qed.

Lemma find_spec T p : table_ok T -> room T ->
  exists r, find shift T p = Some r
    /\ match r with
       | Some i => exists b, T !! i = Some b /\ is_full b /\ bk_payload b = p
       | None => forall i b, T !! i = Some b -> is_full b -> bk_payload b <> p
       end.
Proof.
  intros HT Hroom. unfold find. rewrite (tok_length T HT). pose proof (home_lt p).
  apply (find_from_spec T p HT Hroom m 0); [lia|done| |lia].
  intros _. unfold dist. rewrite Nat.leb_refl. lia.
Qed.

(** Placing takes the first empty bucket of the probe run. *)
Lemma place_from_spec T p s : length T = m -> room T -> forall fuel k index,
  (fuel + k = m)%nat -> (index < m)%nat -> (k < m -> dist m (home p) index = k)%nat ->
  (forall x, (x < m)%nat -> (dist m (home p) x < k)%nat -> full_at T x) ->
  exists i, place_from fuel T p s index = Some (<[i := mkBucket p s]> T)
    /\ (i < m)%nat /\ ~ full_at T i
    /\ forall x, (x < m)%nat -> (dist m (home p) x < dist m (home p) i)%nat -> full_at T x.
Proof.
  intros Hlen (z & Hz & Hempty). pose proof (home_lt p) as Hh.
  induction fuel as [|fuel IH]; intros k index Hk Hi Hd Hpast.
  { exfalso. apply Hempty, Hpast; [done|]. pose proof (dist_lt m (home p) z Hh Hz). lia. }
  assert (Hkm : (k < m)%nat) by lia. specialize (Hd Hkm).
  destruct (lookup_bucket T index Hlen Hi) as [b Hb]. simpl. rewrite Hb. simpl.
  destruct (bk_slot b =? EMPTY) eqn:E; simpl.
  - exists index. split_and!; [done|done| |].
    + intros Hf. apply (full_at_iff _ _ _ Hb), full_bool in Hf. congruence.
    + intros x Hx Hdx. apply Hpast; [done|lia].
  - apply full_bool in E. rewrite mask_after by done.
    apply (IH (S k)); [lia|by apply after_lt| |].
    + intros Hlt. rewrite dist_after; lia.
    + intros x Hx Hdx. destruct (decide (dist m (home p) x < k)%nat); [by apply Hpast|].
      assert (x = index) as -> by (apply (dist_inj m (home p)); lia).
      by apply (full_at_iff _ _ _ Hb).
Qed.

Lemma place_spec T p s : table_ok T -> room T -> s <> EMPTY ->
  (forall i b, T !! i = Some b -> is_full b -> bk_payload b <> p) ->
  exists i, place shift T p s = Some (<[i := mkBucket p s]> T)
    /\ (i < m)%nat /\ ~ full_at T i /\ table_ok (<[i := mkBucket p s]> T).
Proof.
  intros HT Hroom Hs Hnew. pose proof HT as [Hlen Hprobe Huniq].
  unfold place. rewrite Hlen. pose proof (home_lt p) as Hh.
  destruct (place_from_spec T p s Hlen Hroom m 0 (home p)) as (i & Hi & Him & Hne & Hpath);
    [lia|done|intros _; unfold dist; rewrite Nat.leb_refl; lia|lia|].
  exists i. split_and!; [done|done|done|].
  assert (Hkeep : forall x, full_at T x -> full_at (<[i := mkBucket p s]> T) x).
  { intros x (b & Hb & Hf). exists b. split; [|done]. rewrite list_lookup_insert_ne; [done|].
    intros ->. apply Hne. by exists b. }
  split.
  - by rewrite length_insert.
  - intros j b Hj Hf x Hx Hd. apply Hkeep. destruct (decide (j = i)) as [->|Hji].
    + rewrite list_lookup_insert_eq in Hj by lia. injection Hj as <-. by apply Hpath.
    + rewrite list_lookup_insert_ne in Hj by done. by apply (Hprobe j b Hj Hf).
  - intros j k b c Hj Hk Hb Hc Hp.
    destruct (decide (j = i)) as [->|Hji], (decide (k = i)) as [->|Hki]; [done|..].
    + rewrite list_lookup_insert_eq in Hj by lia. rewrite list_lookup_insert_ne in Hk by done.
      injection Hj as <-. exfalso. by apply (Hnew k c Hk Hc).
    + rewrite list_lookup_insert_eq in Hk by lia. rewrite list_lookup_insert_ne in Hj by done.
      injection Hk as <-. exfalso. by apply (Hnew j b Hj Hb).
    + rewrite list_lookup_insert_ne in Hj, Hk by done. by apply (Huniq j k b c).
Qed.

(** *** Counting full buckets *)

Lemma empty_not_full : ~ is_full EMPTY_BUCKET.
Proof. intros H. by apply H. Qed.

Definition weigh (b : Bucket) : nat := if decide (is_full b) then 1 else 0.
Definition nfull (T : list Bucket) : nat := sum_list (weigh <$> T).

Lemma nfull_insert T i b c : T !! i = Some c ->
  (nfull (<[i := b]> T) + weigh c = nfull T + weigh b)%nat.
Proof.
  intros H. apply take_drop_middle in H as Hs. pose proof (lookup_lt_Some _ _ _ H) as Hl.
  rewrite <- Hs at 2. rewrite insert_take_drop by done. unfold nfull.
  rewrite !fmap_app, !fmap_cons, !sum_list_with_app. cbn [sum_list_with]. unfold id. lia.
Qed.

Lemma nfull_room T : length T = m -> (nfull T < m)%nat -> room T.
Proof.
  intros Hlen Hlt. assert (Hex : exists x b, T !! x = Some b /\ ~ is_full b).
  { rewrite <- Hlen in Hlt. clear Hlen. unfold nfull in Hlt.
    induction T as [|b T IH]; [simpl in Hlt; lia|].
    rewrite fmap_cons in Hlt. cbn [sum_list_with length] in Hlt. unfold weigh at 1, id at 1 in Hlt.
    destruct (decide (is_full b)) as [Hf|Hf]; [|by exists 0%nat, b].
    destruct IH as (x & c & Hx & Hc); [lia|]. by exists (S x), c. }
  destruct Hex as (x & b & Hx & Hb). exists x.
  split; [rewrite <- Hlen; by eapply lookup_lt_Some|]. by rewrite (full_at_iff _ _ _ Hx).
Qed.

Lemma nfull_pos T i b : T !! i = Some b -> is_full b -> (0 < nfull T)%nat.
Proof.
  intros Hi Hb. pose proof (nfull_insert T i EMPTY_BUCKET b Hi) as H.
  unfold weigh in H. rewrite (decide_True _ _ Hb), (decide_False _ _ empty_not_full) in H. lia.
Qed.

(** *** Backward-shift deletion *)

Lemma stays_spec h t a : (h < m)%nat -> (t < m)%nat -> (a < m)%nat -> h <> t ->
  stays h t a = true <-> ~ (dist m a h < dist m a t)%nat.
Proof.
  intros. unfold stays. destruct (Nat.leb_spec h t); rewrite ?andb_true_iff, ?orb_true_iff;
    destruct (Nat.ltb_spec h a), (Nat.leb_spec a t); split; circle || (intros; exfalso; circle)
    || (intros; split; done) || naive_solver.
Qed.

(** If [h] is on the path to [i] and [t] lies between them, so is [t]. *)
Lemma path_between o a h t i : (o < m)%nat -> (a < m)%nat -> (h < m)%nat -> (t < m)%nat ->
  (i < m)%nat -> (dist m o h < dist m o t < dist m o i)%nat ->
  (dist m a h < dist m a i)%nat -> (dist m a t < dist m a i)%nat.
Proof. intros. circle. Qed.

(** A path through [t] to a bucket before it wraps around past [z]. *)
Lemma path_wraps o a t z i : (o < m)%nat -> (a < m)%nat -> (t < m)%nat -> (z < m)%nat ->
  (i < m)%nat -> (dist m o i < dist m o t < dist m o z)%nat ->
  (dist m a t < dist m a i)%nat -> (dist m a z < dist m a i)%nat.
Proof. intros. circle. Qed.

(** The state of the loop: the table without the bucket at the hole holds what
    the table held without the removed bucket, and a probe path is broken only
    at the hole, and only for members not examined yet. *)
Record shifting (T0 : list Bucket) (o z : nat) (T : list Bucket) (h t : nat) : Prop := {
  sh_length : length T = m;
  sh_hole : (h < m)%nat;
  sh_next : (t < m)%nat;
  sh_order : (dist m o h < dist m o t <= dist m o z)%nat;
  sh_end : ~ full_at T z;
  sh_probe : forall i b, i <> h -> T !! i = Some b -> is_full b -> forall x, (x < m)%nat ->
    (dist m (home (bk_payload b)) x < dist m (home (bk_payload b)) i)%nat ->
    (x = h /\ (dist m o t <= dist m o i)%nat) \/ (x <> h /\ full_at T x);
  sh_unique : forall i j b c, i <> h -> j <> h -> T !! i = Some b -> T !! j = Some c ->
    is_full b -> is_full c -> bk_payload b = bk_payload c -> i = j;
  sh_content : forall b, is_full b ->
    (exists i, i <> h /\ T !! i = Some b) <-> (exists i, i <> o /\ T0 !! i = Some b);
  sh_count : nfull (<[h := EMPTY_BUCKET]> T) = nfull (<[o := EMPTY_BUCKET]> T0);
}.

(** At the end of the probe run the table is whole again. *)
Lemma shifting_done T0 o z T h t b :
  (o < m)%nat -> shifting T0 o z T h t -> T !! t = Some b -> ~ is_full b ->
  table_ok (<[h := EMPTY_BUCKET]> T).
Proof.
  intros Ho [Hlen Hh Ht Hord Hend Hprobe Huniq Hcont Hcount] Hb Hnf.
  assert (Hin : forall i c, (<[h := EMPTY_BUCKET]> T) !! i = Some c -> is_full c ->
            i <> h /\ T !! i = Some c).
  { intros i c Hi Hc. destruct (decide (i = h)) as [->|Hne].
    - rewrite list_lookup_insert_eq in Hi by lia. injection Hi as <-. by apply empty_not_full in Hc.
    - by rewrite list_lookup_insert_ne in Hi by done. }
  split; [by rewrite length_insert| |].
  - intros i c Hi Hc x Hx Hd. destruct (Hin i c Hi Hc) as [Hne Hi'].
    assert (Him : (i < m)%nat) by (rewrite <- Hlen; by eapply lookup_lt_Some).
    destruct (Hprobe i c Hne Hi' Hc x Hx Hd) as [[-> Hle]|[Hxh (d & Hdx & Hfd)]].
    + exfalso. pose proof (home_lt (bk_payload c)) as Hhc.
      assert (Hti : dist m o t <> dist m o i).
      { intros Heq. apply dist_inj in Heq as ->; [|done..].
        rewrite Hb in Hi'. by injection Hi' as ->. }
      destruct (Hprobe i c Hne Hi' Hc t Ht) as [[-> _]|[_ Hf]]; [|lia|].
      * apply (path_between o _ h t i); auto; lia.
      * by apply (full_at_iff _ _ _ Hb) in Hf.
    + exists d. by rewrite list_lookup_insert_ne.
  - intros i j c d Hi Hj Hc Hd Hp. destruct (Hin i c Hi Hc), (Hin j d Hj Hd).
    by apply (Huniq i j c d).
Qed.

(** A member whose path does not cross the hole stays. *)
Lemma shifting_stays T0 o z T h t b :
  (o < m)%nat -> (z < m)%nat -> shifting T0 o z T h t -> T !! t = Some b -> is_full b ->
  ~ (dist m (home (bk_payload b)) h < dist m (home (bk_payload b)) t)%nat ->
  shifting T0 o z T h (after m t).
Proof.
  intros Ho Hz [Hlen Hh Ht Hord Hend Hprobe Huniq Hcont Hcount] Hb Hf Hst.
  assert (Htz : dist m o t <> dist m o z).
  { intros Heq. apply dist_inj in Heq as ->; [|done..]. apply Hend. by exists b. }
  pose proof (dist_lt m o z Ho Hz). pose proof (dist_after m o t Ho Ht ltac:(lia)) as Ha.
  split; auto; [by apply after_lt|lia|].
  intros i c Hi Hc Hfc x Hx Hd. destruct (Hprobe i c Hi Hc Hfc x Hx Hd) as [[-> Hle]|?]; [|by right].
  left. split; [done|]. destruct (decide (i = t)) as [->|Hit].
  - rewrite Hb in Hc. by injection Hc as ->.
  - assert (Him : (i < m)%nat) by (rewrite <- Hlen; by eapply lookup_lt_Some).
    assert (dist m o t <> dist m o i); [|lia].
    intros Heq. by apply dist_inj in Heq.
Qed.

(** The others move into the hole, which advances. *)
Lemma shifting_moves_probe T0 o z T h t b :
  (o < m)%nat -> (z < m)%nat -> shifting T0 o z T h t -> T !! t = Some b -> is_full b ->
  (dist m o t < dist m o z)%nat ->
  (dist m (home (bk_payload b)) h < dist m (home (bk_payload b)) t)%nat ->
  forall i c, i <> t -> (<[h := b]> T) !! i = Some c -> is_full c -> forall x, (x < m)%nat ->
    (dist m (home (bk_payload c)) x < dist m (home (bk_payload c)) i)%nat ->
    (x = t /\ (S (dist m o t) <= dist m o i)%nat) \/ (x <> t /\ full_at (<[h := b]> T) x).
Proof.
  intros Ho Hz [Hlen Hh Ht Hord Hend Hprobe _ _ _] Hb Hf Htz Hmv i c Hit Hi Hc x Hx Hd.
  assert (Hht : h <> t) by (intros ->; lia).
  assert (Hkeep : forall y, y <> h -> full_at T y -> full_at (<[h := b]> T) y).
  { intros y Hy (d & Hdy & Hfd). exists d. by rewrite list_lookup_insert_ne. }
  pose proof (home_lt (bk_payload c)) as Hhc.
  destruct (decide (i = h)) as [->|Hih].
  - rewrite list_lookup_insert_eq in Hi by lia. injection Hi as <-. right.
    destruct (Hprobe t b (not_eq_sym Hht) Hb Hf x Hx ltac:(lia)) as [[-> _]|[Hxh Hfx]]; [lia|].
    split; [intros ->; lia|by apply Hkeep].
  - rewrite list_lookup_insert_ne in Hi by done.
    assert (Him : (i < m)%nat) by (rewrite <- Hlen; by eapply lookup_lt_Some).
    destruct (decide (x = t)) as [->|Hxt].
    + left. split; [done|]. destruct (decide (dist m o t < dist m o i)%nat); [lia|]. exfalso.
      assert (Hne : dist m o i <> dist m o t) by (intros Heq; by apply dist_inj in Heq).
      destruct (Hprobe i c Hih Hi Hc z Hz) as [[-> _]|[_ ?]]; [|lia|done].
      apply (path_wraps o _ t z i); auto; lia.
    + right. split; [done|]. destruct (Hprobe i c Hih Hi Hc x Hx Hd) as [[-> _]|[Hxh Hfx]].
      * exists b. by rewrite list_lookup_insert_eq by lia.
      * by apply Hkeep.
Qed.

Lemma shifting_moves T0 o z T h t b :
  (o < m)%nat -> (z < m)%nat -> shifting T0 o z T h t -> T !! t = Some b -> is_full b ->
  (dist m (home (bk_payload b)) h < dist m (home (bk_payload b)) t)%nat ->
  shifting T0 o z (<[h := b]> T) t (after m t).
Proof.
  intros Ho Hz HS Hb Hf Hmv. pose proof HS as [Hlen Hh Ht Hord Hend Hprobe Huniq Hcont Hcount].
  assert (Hht : h <> t) by (intros ->; lia).
  assert (Htz : dist m o t <> dist m o z).
  { intros Heq. apply dist_inj in Heq as ->; [|done..]. apply Hend. by exists b. }
  pose proof (dist_lt m o z Ho Hz). pose proof (dist_after m o t Ho Ht ltac:(lia)) as Ha.
  destruct (lookup_bucket T h Hlen Hh) as [d Hd].
  split; [by rewrite length_insert|done|by apply after_lt|lia| | | | |].
  - intros (c & Hc & Hfc). rewrite list_lookup_insert_ne in Hc.
    + apply Hend. by exists c.
    + intros ->. lia.
  - rewrite Ha. apply (shifting_moves_probe T0 o z T h t b); auto. lia.
  - intros i j c c' Hi Hj Hci Hcj Hc Hc' Hp.
    destruct (decide (i = h)) as [->|Hih], (decide (j = h)) as [->|Hjh]; [done|..].
    + rewrite list_lookup_insert_eq in Hci by lia. rewrite list_lookup_insert_ne in Hcj by done.
      injection Hci as <-. exfalso. apply Hj. by apply (Huniq j t c' b).
    + rewrite list_lookup_insert_eq in Hcj by lia. rewrite list_lookup_insert_ne in Hci by done.
      injection Hcj as <-. exfalso. apply Hi. by apply (Huniq i t c b).
    + rewrite list_lookup_insert_ne in Hci, Hcj by done. by apply (Huniq i j c c').
  - intros c Hc. rewrite <- (Hcont c Hc). split.
    + intros (i & Hi & Hci). destruct (decide (i = h)) as [->|Hih].
      * rewrite list_lookup_insert_eq in Hci by lia. injection Hci as <-. by exists t.
      * rewrite list_lookup_insert_ne in Hci by done. by exists i.
    + intros (i & Hi & Hci). destruct (decide (i = t)) as [->|Hit].
      * rewrite Hb in Hci. injection Hci as ->. exists h. by rewrite list_lookup_insert_eq by lia.
      * exists i. by rewrite list_lookup_insert_ne.
  - rewrite <- Hcount. assert (Ht' : (<[h := b]> T) !! t = Some b) by (by rewrite list_lookup_insert_ne).
    pose proof (nfull_insert _ t EMPTY_BUCKET b Ht'). pose proof (nfull_insert _ h b d Hd).
    pose proof (nfull_insert _ h EMPTY_BUCKET d Hd). lia.
Qed.

(** The deletion loop ends and leaves a well-formed table without the bucket. *)
Lemma shift_back_spec T0 o z fuel : forall T h t,
  (o < m)%nat -> (z < m)%nat -> shifting T0 o z T h t -> (m < fuel + dist m o t)%nat ->
  exists T', shift_back shift fuel T h t = Some T' /\ table_ok T'
    /\ (forall b, is_full b -> (exists i, T' !! i = Some b)
          <-> (exists i, i <> o /\ T0 !! i = Some b))
    /\ nfull T' = nfull (<[o := EMPTY_BUCKET]> T0).
Proof.
  induction fuel as [|fuel IH]; intros T h t Ho Hz HS Hfuel.
  { pose proof (dist_lt m o t Ho (sh_next _ _ _ _ _ _ HS)). lia. }
  pose proof HS as [Hlen Hh Ht Hord _ _ _ Hcont Hcount].
  destruct (lookup_bucket T t Hlen Ht) as [b Hb]. cbn [shift_back]. rewrite Hb. cbn [mbind option_bind].
  destruct (bk_slot b =? EMPTY) eqn:E; simpl (negb _); cbv iota.
  - assert (Hnf : ~ is_full b) by (rewrite <- full_bool; congruence).
    eexists. split; [reflexivity|]. split; [exact (shifting_done T0 o z T h t b Ho HS Hb Hnf)|].
    split; [|done].
    intros c Hc. rewrite <- (Hcont c Hc). split.
    + intros (i & Hi). exists i. destruct (decide (i = h)) as [->|Hne].
      * rewrite list_lookup_insert_eq in Hi by lia. injection Hi as <-. by apply empty_not_full in Hc.
      * by rewrite list_lookup_insert_ne in Hi by done.
    + intros (i & Hne & Hi). exists i. by rewrite list_lookup_insert_ne.
  - apply full_bool in E. rewrite mask_after by done.
    assert (Htz : dist m o t <> dist m o z).
    { intros Heq. apply dist_inj in Heq as ->; [|done..]. apply (sh_end _ _ _ _ _ _ HS). by exists b. }
    pose proof (dist_lt m o z Ho Hz). pose proof (dist_after m o t Ho Ht ltac:(lia)) as Ha.
    pose proof (home_lt (bk_payload b)) as Hhb.
    pose proof (stays_spec h t (home (bk_payload b)) Hh Ht Hhb ltac:(intros ->; lia)) as Hst.
    destruct (stays h t (home (bk_payload b))).
    + apply IH; auto; [|lia]. eapply shifting_stays; eauto. by apply Hst.
    + apply IH; auto; [|lia]. eapply shifting_moves; eauto.
      destruct (decide (dist m (home (bk_payload b)) h < dist m (home (bk_payload b)) t)%nat); [done|].
      by destruct Hst as [_ Hst]; specialize (Hst n).
Qed.

(** Removing a full bucket. *)
Lemma delete_spec T o b : table_ok T -> room T -> T !! o = Some b -> is_full b ->
  exists T', shift_back shift m T o (after m o) = Some T' /\ table_ok T'
    /\ (forall c, is_full c -> (exists i, T' !! i = Some c)
          <-> (exists i, i <> o /\ T !! i = Some c))
    /\ (nfull T' + 1 = nfull T)%nat.
Proof.
  intros HT (z & Hz & Hne) Hb Hf. pose proof HT as [Hlen Hprobe Huniq].
  assert (Ho : (o < m)%nat) by (rewrite <- Hlen; by eapply lookup_lt_Some).
  assert (Hzo : z <> o) by (intros ->; apply Hne; by exists b).
  assert (H0 : dist m o o = 0%nat) by (unfold dist; rewrite Nat.leb_refl; lia).
  assert (Hoz : (0 < dist m o z)%nat).
  { destruct (decide (dist m o z = 0)%nat) as [E|]; [|lia]. rewrite <- H0 in E.
    apply dist_inj in E; done || lia. }
  pose proof (dist_lt m o z Ho Hz). pose proof (dist_after m o o Ho Ho ltac:(lia)) as Ha.
  destruct (shift_back_spec T o z m T o (after m o) Ho Hz) as (T' & H1 & H2 & H3 & H4).
  - split; auto; [by apply after_lt|lia| |eauto].
    intros i c Hi Hc Hfc x Hx Hd. destruct (decide (x = o)) as [->|Hxo].
    + left. split; [done|]. rewrite Ha, H0.
      assert (Him : (i < m)%nat) by (rewrite <- Hlen; by eapply lookup_lt_Some).
      destruct (decide (dist m o i = 0)%nat) as [E|]; [|lia]. rewrite <- H0 in E.
      apply dist_inj in E; done || lia.
    + right. split; [done|]. by apply (Hprobe i c).
  - lia.
  - exists T'. split_and!; [done|done|done|]. rewrite H4.
    pose proof (nfull_insert T o EMPTY_BUCKET b Hb) as Hc. unfold weigh in Hc.
    rewrite (decide_True _ _ Hf), (decide_False _ _ empty_not_full) in Hc. lia.
Qed.
End probe.

(** ** The store as an ordered map *)

Section refinement.
Context {V : Type} (payload_of : V -> Z).

(** The packets of [l], in any order, are the values of the map [M]. *)
Record packs (l : list V) (M : bmap Z V) : Prop := {
  pk_wf : wf M;
  pk_keys : Forall (fun kv => kv.1 = payload_of kv.2) M;
  pk_values : l ≡ₚ M.*2;
}.

Lemma packs_perm l l' M : l ≡ₚ l' -> packs l M -> packs l' M.
Proof. intros Hl [? ? ?]. split; [done|done|]. by rewrite <- Hl. Qed.

Lemma packs_elem l M p v : packs l M -> bm_get p M = Some v <-> v ∈ l /\ payload_of v = p.
Proof.
  intros [Hwf Hk Hv]. rewrite bm_get_elem_of, Hv by done. rewrite Forall_forall in Hk. split.
  - intros Hin. specialize (Hk _ Hin). simpl in Hk. split; [|done].
    apply list_elem_of_fmap. by exists (p, v).
  - intros [((k & v') & -> & Hin)%list_elem_of_fmap Hp]. specialize (Hk _ Hin). simpl in *. by subst.
Qed.

Lemma packs_absent l M p : packs l M ->
  bm_get p M = None <-> (forall v, v ∈ l -> payload_of v <> p).
Proof.
  intros H. pose proof (fun v => packs_elem l M p v H) as He. split.
  - intros Hn v Hv Hp. destruct (He v) as [_ Hi]. rewrite Hn in Hi. by discriminate Hi.
  - intros Hall. destruct (bm_get p M) as [v|]; [|done]. destruct (He v) as [Hi _].
    destruct (Hi eq_refl) as [Hin Hp]. by destruct (Hall v Hin).
Qed.

Lemma packs_nil : packs [] [].
Proof. split; [apply wf_nil|constructor|done]. Qed.

Lemma keys_insert v M : wf M -> Forall (fun kv => kv.1 = payload_of kv.2) M ->
  Forall (fun kv => kv.1 = payload_of kv.2) (bm_insert (payload_of v) v M).
Proof.
  intros Hwf Hk. rewrite Forall_forall in *. intros x.
  rewrite bm_insert_elem_of by done. intros [->|[? _]]; [done|auto].
Qed.

Lemma packs_add l M v : packs l M -> bm_get (payload_of v) M = None ->
  packs (v :: l) (bm_insert (payload_of v) v M).
Proof.
  intros [Hwf Hk Hv] Hn. split; [by apply bm_insert_wf|by apply keys_insert|].
  rewrite bm_insert_perm by done. simpl. by rewrite Hv.
Qed.

Lemma packs_head_get l M v : packs (v :: l) M -> bm_get (payload_of v) M = Some v.
Proof. intros H. apply (packs_elem _ _ _ _ H). split; [left|done]. Qed.

Lemma packs_remove l M v : packs (v :: l) M -> packs l (bm_remove (payload_of v) M).
Proof.
  intros H. pose proof (packs_head_get l M v H) as Hg. destruct H as [Hwf Hk Hv]. split.
  - by apply bm_remove_wf.
  - rewrite Forall_forall in *. intros x Hx. apply Hk. by eapply bm_remove_elem_of_1.
  - rewrite (bm_remove_perm _ _ _ Hg) in Hv. simpl in Hv. by apply Permutation_cons_inv in Hv.
Qed.

Lemma packs_replace l M old v : packs (old :: l) M -> payload_of old = payload_of v ->
  packs (v :: l) (bm_insert (payload_of v) v M).
Proof.
  intros H Hp. apply packs_remove in H as Hr. rewrite Hp in Hr.
  destruct H as [Hwf Hk _]. destruct Hr as [Hwf' _ Hv'].
  split; [by apply bm_insert_wf|by apply keys_insert|].
  rewrite bm_insert_perm_remove by done. simpl. by rewrite Hv'.
Qed.

Lemma packs_length l M : packs l M -> length l = length M.
Proof. intros H. rewrite (pk_values _ _ H). apply length_fmap. Qed.

(** Sorting by payload gives the values in key order. *)
Lemma packs_sorted l M : packs l M -> merge_sort (payload_le payload_of) l = M.*2.
Proof.
  intros H. pose proof H as [Hwf Hk Hv].
  assert (Hs : StronglySorted (payload_le payload_of) M.*2).
  { clear H Hv. induction M as [|[k v] M IH]; [constructor|].
    apply wf_cons in Hwf as [HF Hwf]. apply Forall_cons in Hk as [Hk1 Hk].
    rewrite fmap_cons. constructor; [by apply IH|]. apply Forall_forall.
    intros x ((k' & v') & -> & Hin)%list_elem_of_fmap.
    eapply Forall_forall in HF; [|exact Hin]. eapply Forall_forall in Hk; [|exact Hin].
    rewrite klt_Z in HF. unfold payload_le. simpl in *. lia. }
  assert (Htot : Total (payload_le payload_of)) by (intros a b; unfold payload_le; lia).
  assert (Htr : Transitive (payload_le payload_of)) by (intros a b c; unfold payload_le; lia).
  pose proof (StronglySorted_merge_sort (payload_le payload_of) l) as Hs'.
  pose proof (merge_sort_Permutation (payload_le payload_of) l) as Hp.
  apply (StronglySorted_unique_strong (payload_le payload_of)); [|done|done|by rewrite Hp].
  intros a b Ha Hb Hab Hba. rewrite Hp in Ha. unfold payload_le in *.
  assert (Hpa : bm_get (payload_of a) M = Some a) by (by apply (packs_elem _ _ _ _ H)).
  assert (Hpb : bm_get (payload_of b) M = Some b).
  { apply (packs_elem _ _ _ _ H). split; [|done]. rewrite Hv. done. }
  assert (Heq : payload_of a = payload_of b) by lia. rewrite Heq in Hpa. congruence.
Qed.

(** ** The slab *)

(** The free list: the vacant slots from [free] on. *)
Fixpoint free_chain (slots : list (Slot V)) (free : Z) (l : list nat) : Prop :=
  match l with
  | [] => free = NO_SLOT
  | k :: l => free = Z.of_nat k
      /\ exists next, slots !! k = Some (Vacant next) /\ free_chain slots next l
  end.

(** The chain runs through every vacant slot once. *)
Definition free_ok (slots : list (Slot V)) (free : Z) : Prop :=
  exists l, free_chain slots free l /\ NoDup l
    /\ forall k next, slots !! k = Some (Vacant next) -> k ∈ l.

Lemma free_chain_insert slots k x l : k ∉ l -> forall free,
  free_chain slots free l -> free_chain (<[k := x]> slots) free l.
Proof.
  induction l as [|j l IH]; intros Hk free; simpl; [done|].
  intros (-> & next & Hj & Hc). split; [done|]. exists next. split; [|apply IH; set_solver].
  rewrite list_lookup_insert_ne; [done|]. set_solver.
Qed.

Lemma free_chain_vacant slots l : forall free, free_chain slots free l ->
  forall k, k ∈ l -> exists next, slots !! k = Some (Vacant next).
Proof.
  induction l as [|j l IH]; intros free; simpl; [by intros _ ? ?%elem_of_nil|].
  intros (_ & next & Hj & Hc) k [->|Hk]%elem_of_cons; eauto.
Qed.

(** A full slot is not on the chain, so rewriting it keeps the chain. *)
Lemma free_ok_update slots free k old v : slots !! k = Some (Full old) ->
  free_ok slots free -> free_ok (<[k := Full v]> slots) free.
Proof.
  intros Hk (l & Hc & Hnd & Hall). pose proof (lookup_lt_Some _ _ _ Hk) as Hl.
  exists l. split_and!; [|done|].
  - apply free_chain_insert; [|done]. intros Hin.
    destruct (free_chain_vacant _ _ _ Hc k Hin). congruence.
  - intros j next Hj. destruct (decide (j = k)) as [->|Hne].
    + by rewrite list_lookup_insert_eq in Hj by done.
    + rewrite list_lookup_insert_ne in Hj by done. eauto.
Qed.

(** Freeing a slot puts it at the head of the chain. *)
Lemma free_ok_release slots free k old : slots !! k = Some (Full old) ->
  free_ok slots free -> free_ok (<[k := Vacant free]> slots) (Z.of_nat k).
Proof.
  intros Hk (l & Hc & Hnd & Hall). pose proof (lookup_lt_Some _ _ _ Hk) as Hl.
  assert (Hkl : k ∉ l).
  { intros Hin. destruct (free_chain_vacant _ _ _ Hc k Hin). congruence. }
  exists (k :: l). split_and!.
  - split; [done|]. exists free. rewrite list_lookup_insert_eq by done.
    split; [done|]. by apply free_chain_insert.
  - by constructor.
  - intros j next Hj. destruct (decide (j = k)) as [->|Hne]; [by left|].
    rewrite list_lookup_insert_ne in Hj by done. right. eauto.
Qed.

Record slab_ok (s : Slab V) (e : nat) : Prop := {
  so_geometry : geometry (sl_shift s) (length (sl_buckets s)) e;
  so_table : table_ok (sl_shift s) (length (sl_buckets s)) (sl_buckets s);
  so_count : nfull (sl_buckets s) = sl_len s;
  so_load : (sl_len s * 8 <= length (sl_buckets s) * 7)%nat;
  so_index : forall b, b ∈ sl_buckets s -> is_full b -> exists k v,
    bk_slot b = Z.of_nat k /\ sl_slots s !! k = Some (Full v) /\ payload_of v = bk_payload b;
  so_slots : forall k v, sl_slots s !! k = Some (Full v) ->
    mkBucket (payload_of v) (Z.of_nat k) ∈ sl_buckets s;
  so_size : Z.of_nat (length (sl_slots s)) <= EMPTY;
  so_free : free_ok (sl_slots s) (sl_free s);
  so_packets : length (omap full (sl_slots s)) = sl_len s;
}.

Lemma slab_room s e : slab_ok s e -> room (length (sl_buckets s)) (sl_buckets s).
Proof.
  intros H. apply nfull_room; [done|]. rewrite (so_count _ _ H). pose proof (so_load _ _ H).
  destruct (so_geometry _ _ H) as [Hm He _].
  assert (0 < 2 ^ e)%nat by (apply Nat.neq_0_lt_0, Nat.pow_nonzero; lia). lia.
Qed.

Lemma slot_full s e k v : slab_ok s e -> sl_slots s !! k = Some (Full v) ->
  is_full (mkBucket (payload_of v) (Z.of_nat k)).
Proof.
  intros H Hk. apply lookup_lt_Some in Hk. pose proof (so_size _ _ H).
  unfold is_full. simpl. lia.
Qed.

Lemma elem_omap_full (slots : list (Slot V)) v : v ∈ omap full slots <-> exists k, slots !! k = Some (Full v).
Proof.
  rewrite list_elem_of_omap. split.
  - intros (x & Hx & Hf). destruct x; [|done]. injection Hf as ->.
    by apply list_elem_of_lookup_1.
  - intros (k & Hk). exists (Full v). split; [by eapply list_elem_of_lookup_2|done].
Qed.

(** Changing one slot changes the packets by that slot's. *)
Lemma omap_full_insert (slots : list (Slot V)) k x y : slots !! k = Some x ->
  exists rest, omap full slots ≡ₚ option_list (full x) ++ rest
    /\ omap full (<[k := y]> slots) ≡ₚ option_list (full y) ++ rest.
Proof.
  intros H. pose proof (lookup_lt_Some _ _ _ H) as Hl. apply take_drop_middle in H as Hs.
  exists (omap full (take k slots) ++ omap full (drop (S k) slots)). split.
  - rewrite <- Hs at 1. rewrite omap_app. destruct x; simpl; [|done]. by rewrite <- Permutation_middle.
  - rewrite insert_take_drop by done. rewrite omap_app.
    destruct y; simpl; [|done]. by rewrite <- Permutation_middle.
Qed.

(** Looking a payload up in the index finds its packet. *)
Lemma slab_find_spec s e M p : slab_ok s e -> packs (omap full (sl_slots s)) M ->
  exists r, find (sl_shift s) (sl_buckets s) p = Some r
    /\ match r with
       | Some i => exists k v, sl_buckets s !! i = Some (mkBucket p (Z.of_nat k))
           /\ sl_slots s !! k = Some (Full v) /\ payload_of v = p /\ bm_get p M = Some v
       | None => bm_get p M = None
           /\ forall i b, sl_buckets s !! i = Some b -> is_full b -> bk_payload b <> p
       end.
Proof.
  intros H HM. destruct (find_spec _ _ _ (so_geometry _ _ H) _ p (so_table _ _ H) (slab_room _ _ H))
    as (r & Hr & Hspec).
  exists r. split; [done|]. destruct r as [i|].
  - destruct Hspec as (b & Hb & Hf & Hp). pose proof (list_elem_of_lookup_2 _ _ _ Hb) as Hin.
    destruct (so_index _ _ H b Hin Hf) as (k & v & Hk & Hv & Hpv). exists k, v.
    destruct b as [p' s']. simpl in *. subst. split_and!; [done|done|done|].
    apply (packs_elem _ _ _ _ HM). split; [|done]. apply elem_omap_full. eauto.
  - split; [|done]. apply (packs_absent _ _ _ HM). intros v (k & Hk)%elem_omap_full Hp.
    destruct (list_elem_of_lookup_1 _ _ (so_slots _ _ H k v Hk)) as [i Hi].
    apply (Hspec i _ Hi); [by eapply slot_full|done].
Qed.

Lemma slab_get_spec s e M p : slab_ok s e -> packs (omap full (sl_slots s)) M ->
  slab_get s p = Some (bm_get p M).
Proof.
  intros H HM. destruct (slab_find_spec s e M p H HM) as (r & Hr & Hspec).
  unfold slab_get. rewrite Hr. simpl. destruct r as [i|].
  - destruct Hspec as (k & v & Hb & Hk & _ & ->). rewrite Hb. simpl. by rewrite Nat2Z.id, Hk.
  - by destruct Hspec as [-> _].
Qed.

(** Rewriting the packet of a slot under the same payload. *)
Lemma slab_update_spec s e M k old v : slab_ok s e -> packs (omap full (sl_slots s)) M ->
  sl_slots s !! k = Some (Full old) -> payload_of old = payload_of v ->
  slab_ok (s <| sl_slots ::= <[k := Full v]> |>) e
  /\ packs (omap full (<[k := Full v]> (sl_slots s))) (bm_insert (payload_of v) v M).
Proof.
  intros H HM Hk Hp. pose proof (lookup_lt_Some _ _ _ Hk) as Hl. split.
  - destruct H as [H1 H2 H3 H4 H5 H6 H7 H8 H9]. split; simpl; auto.
    + intros b Hb Hf. destruct (H5 b Hb Hf) as (j & w & Hj & Hw & Hpw).
      exists j. destruct (decide (j = k)) as [->|Hne].
      * exists v. rewrite list_lookup_insert_eq by done. rewrite Hk in Hw. injection Hw as ->.
        split_and!; [done|done|congruence].
      * exists w. by rewrite list_lookup_insert_ne.
    + intros j w Hj. destruct (decide (j = k)) as [->|Hne].
      * rewrite list_lookup_insert_eq in Hj by done. injection Hj as ->.
        rewrite <- Hp. by apply H6.
      * rewrite list_lookup_insert_ne in Hj by done. by apply H6.
    + by rewrite length_insert.
    + by eapply free_ok_update.
    + destruct (omap_full_insert (sl_slots s) k _ (Full v) Hk) as (rest & Hr1 & Hr2).
      rewrite Hr2, <- H9, Hr1. done.
  - destruct (omap_full_insert (sl_slots s) k _ (Full v) Hk) as (rest & Hr1 & Hr2).
    apply (packs_perm _ _ _ (symmetry Hr2)). simpl in *.
    apply (packs_replace rest M old v); [|done]. by apply (packs_perm _ _ _ Hr1).
Qed.

Lemma slab_get_mut_spec s e M p f : slab_ok s e -> packs (omap full (sl_slots s)) M ->
  (forall v, payload_of (f v) = payload_of v) ->
  exists s', slab_get_mut s p f = Some (bm_get p M, s') /\ slab_ok s' e
    /\ sl_len s' = sl_len s
    /\ packs (omap full (sl_slots s'))
         (match bm_get p M with Some v => bm_insert p (f v) M | None => M end).
Proof.
  intros H HM Hf. destruct (slab_find_spec s e M p H HM) as (r & Hr & Hspec).
  unfold slab_get_mut. rewrite Hr. simpl. destruct r as [i|].
  - destruct Hspec as (k & v & Hb & Hk & Hp & ->). rewrite Hb. simpl. rewrite Nat2Z.id, Hk. simpl.
    destruct (slab_update_spec s e M k v (f v) H HM Hk (symmetry (Hf v))) as [Hs' HM'].
    eexists. split; [reflexivity|]. split; [done|]. split; [done|]. by rewrite Hf, Hp in HM'.
  - destruct Hspec as [-> _]. exists s. done.
Qed.

(** Placing every full bucket of a table into a larger empty one. *)
Lemma nfull_le T : (nfull T <= length T)%nat.
Proof.
  induction T as [|c T IHT]; [done|]. unfold nfull in *. rewrite fmap_cons. cbn [sum_list_with length].
  unfold weigh at 1, id at 1. destruct (decide (is_full c)); lia.
Qed.

(** Filling an empty bucket adds it to the content. *)
Lemma fill_content (N : list Bucket) i b : (i < length N)%nat -> ~ full_at N i -> is_full b ->
  nfull (<[i := b]> N) = S (nfull N)
  /\ forall c, is_full c -> c ∈ <[i := b]> N <-> c ∈ N \/ c = b.
Proof.
  intros Hi Hne Hb. destruct (lookup_lt_is_Some_2 N i Hi) as [d Hd].
  assert (Hd' : ~ is_full d) by (by rewrite <- (full_at_iff _ _ _ Hd)). split.
  - pose proof (nfull_insert N i b d Hd) as Hw. unfold weigh in Hw.
    rewrite (decide_False _ _ Hd'), (decide_True _ _ Hb) in Hw. lia.
  - intros c Hfc. split.
    + intros (j & Hj)%list_elem_of_lookup_1. destruct (decide (j = i)) as [->|Hji].
      * rewrite list_lookup_insert_eq in Hj by done. injection Hj as ->. by right.
      * rewrite list_lookup_insert_ne in Hj by done. left. by eapply list_elem_of_lookup_2.
    + intros [(j & Hj)%list_elem_of_lookup_1| ->].
      * apply (list_elem_of_lookup_2 _ j). rewrite list_lookup_insert_ne; [done|]. intros ->.
        rewrite Hd in Hj. by injection Hj as ->.
      * apply (list_elem_of_lookup_2 _ i). by apply list_lookup_insert_eq.
Qed.

Lemma replace_all shift m e T2 : geometry shift m e -> forall T1 N,
  (forall i j b c, (T1 ++ T2) !! i = Some b -> (T1 ++ T2) !! j = Some c ->
     is_full b -> is_full c -> bk_payload b = bk_payload c -> i = j) ->
  (length (T1 ++ T2) < m)%nat -> table_ok shift m N -> nfull N = nfull T1 ->
  (forall b, is_full b -> b ∈ N <-> b ∈ T1) ->
  exists N', foldl (fun acc bucket =>
      acc ← acc;
      if bk_slot bucket =? EMPTY then Some acc
      else place shift acc (bk_payload bucket) (bk_slot bucket)) (Some N) T2 = Some N'
    /\ table_ok shift m N' /\ nfull N' = nfull (T1 ++ T2)
    /\ (forall b, is_full b -> b ∈ N' <-> b ∈ T1 ++ T2).
Proof.
  intros Hgeo. induction T2 as [|b T2 IH]; intros T1 N Hu Hlen HN Hc Hin.
  { exists N. rewrite app_nil_r. done. }
  cbn [foldl mbind option_bind].
  assert (Happ : T1 ++ b :: T2 = (T1 ++ [b]) ++ T2) by (by rewrite <- app_assoc).
  assert (Hn1 : nfull (T1 ++ [b]) = (nfull T1 + weigh b)%nat).
  { unfold nfull. rewrite fmap_app, sum_list_with_app. simpl. unfold id. lia. }
  destruct (bk_slot b =? EMPTY) eqn:E.
  - assert (Hnb : ~ is_full b) by (rewrite <- full_bool; congruence).
    rewrite Happ in Hu, Hlen |- *. apply IH; auto.
    + rewrite Hn1. unfold weigh. rewrite (decide_False _ _ Hnb). lia.
    + intros c Hfc. rewrite (Hin c Hfc), elem_of_app, list_elem_of_singleton. naive_solver.
  - apply full_bool in E.
    assert (Hroom : room m N).
    { apply nfull_room; [by apply (tok_length _ _ _ HN)|]. rewrite Hc, length_app in *.
      pose proof (nfull_le T1). simpl in Hlen. lia. }
    destruct (place_spec shift m e Hgeo N (bk_payload b) (bk_slot b) HN Hroom E) as (i & Hp & Hi & Hne & HN').
    { intros j c Hj Hfc Hpay. assert (Hc1 : c ∈ T1) by (apply (Hin c Hfc); by eapply list_elem_of_lookup_2).
      apply list_elem_of_lookup_1 in Hc1 as [j' Hj']. pose proof (lookup_lt_Some _ _ _ Hj').
      assert (j' = length T1); [|lia]. apply (Hu j' (length T1) c b); auto.
      - by rewrite lookup_app_l.
      - by apply list_lookup_middle. }
    rewrite Hp. assert (Hb : mkBucket (bk_payload b) (bk_slot b) = b) by (by destruct b).
    rewrite Hb in *. rewrite Happ in Hu, Hlen |- *.
    destruct (fill_content N i b) as [Hf1 Hf2]; [by rewrite (tok_length _ _ _ HN)|done|done|].
    apply IH; auto.
    + rewrite Hf1, Hn1, Hc. unfold weigh. rewrite (decide_True _ _ E). lia.
    + intros c Hfc. by rewrite elem_of_app, list_elem_of_singleton, <- (Hin c Hfc), Hf2.
Qed.

Lemma empty_table shift m e : geometry shift m e ->
  table_ok shift m (replicate m EMPTY_BUCKET) /\ nfull (replicate m EMPTY_BUCKET) = 0%nat
  /\ forall b, is_full b -> b ∉ replicate m EMPTY_BUCKET.
Proof.
  intros _. assert (Hno : forall b, is_full b -> b ∉ replicate m EMPTY_BUCKET).
  { intros b Hb [-> _]%elem_of_replicate. by apply empty_not_full in Hb. }
  split; [|split; [|done]].
  - split; [apply length_replicate| |];
      intros i; intros; exfalso; (eapply Hno; [eassumption|by eapply list_elem_of_lookup_2]).
  - induction m as [|m IH]; [done|]. unfold nfull in *. rewrite replicate_S, fmap_cons.
    cbn [sum_list_with]. unfold weigh at 1, id at 1.
    rewrite (decide_False _ _ empty_not_full). rewrite IH; [done|].
    intros b Hb Hin. apply (Hno b Hb). rewrite replicate_S. by right.
Qed.

Lemma grow_spec s e : slab_ok s e -> (e < 64)%nat ->
  exists s', grow s = Some s' /\ slab_ok s' (S e) /\ sl_slots s' = sl_slots s
    /\ sl_free s' = sl_free s /\ sl_len s' = sl_len s
    /\ length (sl_buckets s') = (length (sl_buckets s) * 2)%nat.
Proof.
  intros H He. pose proof H as [[Hm Hb Hsh] [Hlen Hprobe Huniq] H3 H4 H5 H6 H7 H8 H9].
  unfold grow. assert (Hm' : (length (sl_buckets s) * 2 = 2 ^ S e)%nat) by (simpl; lia).
  rewrite Hm'. pose proof (geometry_pow (S e) ltac:(lia)) as Hgeo.
  destruct (empty_table _ _ _ Hgeo) as (Ht0 & Hn0 & Hno).
  assert (Hpos : (0 < 2 ^ e)%nat) by (apply Nat.neq_0_lt_0, Nat.pow_nonzero; lia).
  destruct (replace_all _ _ _ (sl_buckets s) Hgeo [] (replicate (2 ^ S e) EMPTY_BUCKET))
    as (N' & HN & Ht & Hn & Hin); auto.
  { simpl. lia. }
  { intros b Hfb. split; [by intros ?%(Hno b Hfb)|by intros ?%elem_of_nil]. }
  rewrite HN. cbn [mbind option_bind]. eexists. split; [reflexivity|].
  pose proof (tok_length _ _ _ Ht) as HlN. simpl in Hin, Hn. simpl.
  split_and!; [|done|done|done|by rewrite HlN].
  split; simpl; rewrite ?HlN; auto.
  - lia.
  - lia.
  - intros b Hbin Hf. apply H5; [|done]. by apply Hin.
  - intros k v Hk. apply Hin; [by eapply slot_full|]. by apply H6.
Qed.

(** A new packet gets a slot that held none. *)
Lemma take_slot_spec s e M v : slab_ok s e -> packs (omap full (sl_slots s)) M ->
  Z.of_nat (length M) < EMPTY ->
  exists k s', take_slot s v = Some (Z.of_nat k, s') /\ Z.of_nat k < EMPTY
    /\ sl_buckets s' = sl_buckets s /\ sl_shift s' = sl_shift s /\ sl_len s' = sl_len s
    /\ sl_slots s' !! k = Some (Full v)
    /\ (forall j, j <> k -> sl_slots s' !! j = sl_slots s !! j)
    /\ (forall w, sl_slots s !! k <> Some (Full w))
    /\ omap full (sl_slots s') ≡ₚ v :: omap full (sl_slots s)
    /\ Z.of_nat (length (sl_slots s')) <= EMPTY /\ free_ok (sl_slots s') (sl_free s').
Proof.
  intros H HM Hsz. pose proof (so_size _ _ H) as Hs7.
  destruct (so_free _ _ H) as (l & Hc & Hnd & Hall). unfold take_slot.
  destruct l as [|k l].
  - simpl in Hc. rewrite Hc. change (NO_SLOT =? NO_SLOT) with true. cbv iota.
    assert (Hfull : length (omap full (sl_slots s)) = length (sl_slots s)).
    { clear - Hall. induction (sl_slots s) as [|x slots IH]; [done|].
      destruct x as [w|next]; [|pose proof (Hall 0%nat next eq_refl) as Hf; by apply elem_of_nil in Hf].
      simpl. f_equal. apply IH. intros k next Hk.
      pose proof (Hall (S k) next Hk) as Hf. by apply elem_of_nil in Hf. }
    rewrite (packs_length _ _ HM) in Hfull.
    destruct (Z.ltb_spec (Z.of_nat (length (sl_slots s))) EMPTY); [|lia].
    eexists _, _. split; [reflexivity|]. simpl. split_and!; auto.
    + by apply list_lookup_middle.
    + intros j Hj. destruct (decide (j < length (sl_slots s))%nat); [by apply lookup_app_l|].
      rewrite !lookup_ge_None_2; [done|lia|]. rewrite length_app. simpl. lia.
    + intros w Hw. apply lookup_lt_Some in Hw. lia.
    + rewrite omap_app. simpl. by rewrite Permutation_app_comm.
    + rewrite length_app. simpl. lia.
    + exists []. split_and!; [done|constructor|]. intros k next Hk.
      apply lookup_app_Some in Hk as [Hk|[_ Hk]]; [by apply (Hall k next)|].
      by apply list_lookup_singleton_Some in Hk as [_ ?].
  - destruct Hc as (-> & next & Hk & Hc). pose proof (lookup_lt_Some _ _ _ Hk) as Hl.
    destruct (Z.eqb_spec (Z.of_nat k) NO_SLOT); [unfold NO_SLOT, EMPTY in *; lia|].
    rewrite Nat2Z.id, Hk. apply NoDup_cons in Hnd as [Hkl Hnd].
    eexists _, _. split; [reflexivity|]. simpl. split_and!; auto; [lia|..].
    + by apply list_lookup_insert_eq.
    + intros j Hj. by rewrite list_lookup_insert_ne.
    + congruence.
    + destruct (omap_full_insert _ k _ (Full v) Hk) as (rest & Hr1 & Hr2). simpl in *.
      by rewrite Hr1, Hr2.
    + by rewrite length_insert.
    + exists l. split_and!; [by apply free_chain_insert|done|].
      intros j nx Hj. destruct (decide (j = k)) as [->|Hne].
      * by rewrite list_lookup_insert_eq in Hj by done.
      * rewrite list_lookup_insert_ne in Hj by done. apply Hall in Hj. set_solver.
Qed.

(** Indexing a packet that already has its slot. *)
Lemma index_slot_spec s0 s e k v : slab_ok s0 e ->
  sl_buckets s = sl_buckets s0 -> sl_shift s = sl_shift s0 -> sl_len s = sl_len s0 ->
  ((sl_len s0 + 1) * 8 <= length (sl_buckets s0) * 7)%nat -> Z.of_nat k < EMPTY ->
  sl_slots s !! k = Some (Full v) ->
  (forall j, j <> k -> sl_slots s !! j = sl_slots s0 !! j) ->
  (forall w, sl_slots s0 !! k <> Some (Full w)) ->
  Z.of_nat (length (sl_slots s)) <= EMPTY -> free_ok (sl_slots s) (sl_free s) ->
  omap full (sl_slots s) ≡ₚ v :: omap full (sl_slots s0) ->
  (forall b, b ∈ sl_buckets s0 -> is_full b -> bk_payload b <> payload_of v) ->
  exists buckets, place (sl_shift s) (sl_buckets s) (payload_of v) (Z.of_nat k) = Some buckets
    /\ slab_ok (s <| sl_buckets := buckets |> <| sl_len ::= S |>) e.
Proof.
  intros H Hbk Hsh Hln Hload Hk Hsk Hsj Hs0 Hsz Hfree Hperm Hnew. rewrite Hbk, Hsh.
  pose proof H as [Hgeo Ht Hc _ Hix Hsl _ _ Hpk].
  assert (Hne : Z.of_nat k <> EMPTY) by lia.
  destruct (place_spec _ _ _ Hgeo (sl_buckets s0) (payload_of v) (Z.of_nat k) Ht
    (slab_room _ _ H) Hne) as (i & Hp & Hi & Hemp & Ht').
  { intros i b Hb. apply Hnew. by eapply list_elem_of_lookup_2. }
  destruct (fill_content (sl_buckets s0) i (mkBucket (payload_of v) (Z.of_nat k)) Hi Hemp Hne)
    as [Hn Hin].
  eexists. split; [exact Hp|]. split; simpl; rewrite ?length_insert, ?Hsh, ?Hln; auto; [lia|lia| | |].
  - intros b Hb Hf. apply Hin in Hb as [Hb| ->]; [|by exists k, v|done].
    destruct (Hix b Hb Hf) as (j & w & Hj & Hw & Hpw). exists j, w. split_and!; [done| |done].
    rewrite Hsj; [done|]. intros ->. by apply (Hs0 w).
  - intros j w Hj. destruct (decide (j = k)) as [->|Hjk].
    + rewrite Hsk in Hj. injection Hj as ->. apply Hin; [done|by right].
    + rewrite Hsj in Hj by done. apply Hin; [by eapply slot_full|]. left. by apply Hsl.
  - rewrite Hperm. simpl. by rewrite Hpk.
Qed.

(** The index grows when its load would pass seven eighths. *)
Lemma make_room_spec s e M : slab_ok s e -> packs (omap full (sl_slots s)) M ->
  Z.of_nat (length M) < EMPTY ->
  exists s1 e1, (if (length (sl_buckets s) * 7 <? (sl_len s + 1) * 8)%nat then grow s else Some s)
      = Some s1
    /\ slab_ok s1 e1 /\ sl_slots s1 = sl_slots s
    /\ ((sl_len s1 + 1) * 8 <= length (sl_buckets s1) * 7)%nat
    /\ forall b, is_full b -> b ∈ sl_buckets s1 -> b ∈ sl_buckets s.
Proof.
  intros H HM Hsz. pose proof (so_load _ _ H) as Hl. pose proof (so_geometry _ _ H) as [Hm He _].
  pose proof (so_packets _ _ H) as Hpk. rewrite (packs_length _ _ HM) in Hpk.
  destruct (Nat.ltb_spec (length (sl_buckets s) * 7) ((sl_len s + 1) * 8)) as [Hlt|Hge];
    [|by exists s, e; split_and!; auto; lia].
  assert (He2 : (2 <= 2 ^ e)%nat) by (apply (Nat.pow_le_mono_r 2 1 e); lia).
  assert (He64 : (e < 64)%nat).
  { destruct (decide (e < 64)%nat) as [|Hge]; [done|]. exfalso.
    assert (HZ : Z.of_nat (length (sl_buckets s)) = 2 ^ Z.of_nat e) by (by rewrite Hm, Nat2Z.inj_pow).
    assert (2 ^ 64 <= 2 ^ Z.of_nat e) by (apply Z.pow_le_mono_r; lia).
    unfold EMPTY in Hsz. lia. }
  destruct (grow_spec s e H He64) as (s1 & Hg & Hs1 & Hsl & _ & Hlen & Hbk).
  exists s1, (S e). split_and!; [done|done|done|rewrite Hlen, Hbk; lia|].
  intros b Hf Hb. destruct (so_index _ _ Hs1 b Hb Hf) as (k & v & Hk & Hv & Hp).
  rewrite Hsl in Hv. destruct b as [p x]. simpl in *. subst. by apply (so_slots _ _ H).
Qed.

Lemma slab_insert_spec s e M v : slab_ok s e -> packs (omap full (sl_slots s)) M ->
  Z.of_nat (length M) < EMPTY ->
  exists s' e', slab_insert s (payload_of v) v = Some (bm_get (payload_of v) M, s')
    /\ slab_ok s' e' /\ packs (omap full (sl_slots s')) (bm_insert (payload_of v) v M)
    /\ (0 < sl_len s')%nat.
Proof.
  intros H HM Hsz. destruct (slab_find_spec s e M (payload_of v) H HM) as (r & Hr & Hspec).
  unfold slab_insert. rewrite Hr. cbn [mbind option_bind]. destruct r as [i|].
  - destruct Hspec as (k & old & Hb & Hk & Hp & ->). rewrite Hb. cbn [mbind option_bind bk_slot].
    rewrite Nat2Z.id, Hk. cbn [mbind option_bind full].
    destruct (slab_update_spec s e M k old v H HM Hk Hp) as [Hs' HM'].
    eexists _, e. split; [reflexivity|]. split; [done|]. split; [done|]. simpl.
    rewrite <- (so_count _ _ H). eapply nfull_pos; [exact Hb|].
    rewrite <- Hp. exact (slot_full s e k old H Hk).
  - destruct Hspec as [Hnone Habs]. rewrite Hnone.
    destruct (make_room_spec s e M H HM Hsz) as (s1 & e1 & -> & Hs1 & Hsl1 & Hload & Hbk1).
    cbn [mbind option_bind]. rewrite <- Hsl1 in HM.
    destruct (take_slot_spec s1 e1 M v Hs1 HM Hsz)
      as (k & s2 & -> & Hk & Hb2 & Hsh2 & Hl2 & Hs2k & Hs2j & Hs1k & Hp2 & Hsz2 & Hf2).
    cbn [mbind option_bind].
    destruct (index_slot_spec s1 s2 e1 k v Hs1) as (buckets & -> & Hok); auto.
    { intros b Hb Hf. apply Hbk1 in Hb; [|done]. apply list_elem_of_lookup_1 in Hb as [i Hi].
      by apply (Habs i b). }
    cbn [mbind option_bind]. eexists _, e1. split; [reflexivity|]. split; [exact Hok|].
    split; [|simpl; lia]. simpl. apply (packs_perm _ _ _ (symmetry Hp2)). by apply packs_add.
Qed.

Lemma packs_unique l l' M M' : packs l M -> packs l' M' -> l ≡ₚ l' -> M = M'.
Proof.
  intros H H' Hl. apply bm_ext; [apply H|apply H'|]. intros [p v].
  rewrite <- !bm_get_elem_of by (apply H || apply H').
  rewrite (packs_elem _ _ _ _ H), (packs_elem _ _ _ _ H'). by rewrite Hl.
Qed.

Lemma packs_payloads l M : packs l M -> NoDup (payload_of <$> l).
Proof.
  intros [Hwf Hk Hv]. rewrite Hv.
  assert (Heq : payload_of <$> M.*2 = M.*1).
  { clear - Hk. induction Hk as [|[k v] M Hkv _ IH]; [done|]. rewrite !fmap_cons. f_equal; [done|exact IH]. }
  rewrite Heq. by apply wf_NoDup.
Qed.

(** Deleting a bucket and releasing its slot. *)
Lemma slab_remove_spec s e M p : slab_ok s e -> packs (omap full (sl_slots s)) M ->
  exists s', slab_remove s p = Some (bm_get p M, s') /\ slab_ok s' e
    /\ packs (omap full (sl_slots s')) (bm_remove p M).
Proof.
  intros H HM. destruct (slab_find_spec s e M p H HM) as (r & Hr & Hspec).
  unfold slab_remove. rewrite Hr. cbn [mbind option_bind]. destruct r as [o|];
    [|destruct Hspec as [Hn _]; rewrite Hn, bm_remove_absent by done; by exists s].
  destruct Hspec as (k & v & Hb & Hk & Hp & ->). rewrite Hb. cbn [mbind option_bind bk_slot].
  rewrite Nat2Z.id, Hk. cbn [mbind option_bind full].
  pose proof H as [Hgeo Ht Hc Hl Hix Hsl Hsz Hfr Hpk].
  assert (Hf : is_full (mkBucket p (Z.of_nat k))) by (rewrite <- Hp; by eapply slot_full).
  assert (Ho : (o < length (sl_buckets s))%nat) by (by eapply lookup_lt_Some).
  destruct (delete_spec _ _ _ Hgeo (sl_buckets s) o _ Ht (slab_room _ _ H) Hb Hf)
    as (T' & Hd & Ht' & Hin & Hn).
  simpl (sl_shift _). simpl (sl_buckets _). rewrite (mask_after _ _ _ Hgeo) by done. rewrite Hd.
  cbn [mbind option_bind]. eexists. split; [reflexivity|].
  pose proof (tok_length _ _ _ Ht') as HlT. pose proof (lookup_lt_Some _ _ _ Hk) as Hkl.
  destruct (omap_full_insert (sl_slots s) k _ (Vacant (sl_free s)) Hk) as (rest & Hr1 & Hr2).
  simpl in Hr1, Hr2. rewrite Hr1 in Hpk. simpl in Hpk.
  assert (Hslot : forall b, is_full b -> b ∈ T' -> bk_slot b <> Z.of_nat k /\ b ∈ sl_buckets s).
  { intros b Hfb (i & Hi)%list_elem_of_lookup_1. destruct (proj1 (Hin b Hfb) (ex_intro _ i Hi)) as (j & Hj & Hbj).
    pose proof (list_elem_of_lookup_2 _ _ _ Hbj) as Hbin. split; [|done]. intros Heq.
    destruct (Hix b Hbin Hfb) as (k' & w & Hk' & Hw & Hpw).
    assert (k' = k) as -> by lia. rewrite Hk in Hw. injection Hw as <-.
    apply Hj. apply (tok_unique _ _ _ Ht j o b _ Hbj Hb Hfb Hf). simpl. congruence. }
  split; [|simpl; apply (packs_perm _ _ _ (symmetry Hr2)); rewrite <- Hp; apply packs_remove;
    by apply (packs_perm _ _ _ Hr1)].
  split; simpl; rewrite ?HlT; auto; [lia|lia| | | | |].
  - intros b Hbin Hfb. destruct (Hslot b Hfb Hbin) as [Hne Hbs].
    destruct (Hix b Hbs Hfb) as (j & w & Hj & Hw & Hpw). exists j, w.
    split_and!; [done| |done]. rewrite list_lookup_insert_ne; [done|]. intros ->. by apply Hne.
  - intros j w Hj. destruct (decide (j = k)) as [->|Hne].
    + by rewrite list_lookup_insert_eq in Hj by done.
    + rewrite list_lookup_insert_ne in Hj by done.
      assert (Hfw : is_full (mkBucket (payload_of w) (Z.of_nat j))) by (by eapply slot_full).
      destruct (proj2 (Hin _ Hfw)) as [i Hi]; [|by eapply list_elem_of_lookup_2].
      destruct (list_elem_of_lookup_1 _ _ (Hsl j w Hj)) as [i Hi]. exists i. split; [|done].
      intros ->. rewrite Hb in Hi. injection Hi as _ Hjk. lia.
  - by rewrite length_insert.
  - by eapply free_ok_release.
  - rewrite Hr2. lia.
Qed.

(** ** The small store *)

Lemma position_of_spec p l :
  match position_of payload_of p l with
  | Some i => exists v, l !! i = Some v /\ payload_of v = p
  | None => forall v, v ∈ l -> payload_of v <> p
  end.
Proof.
  induction l as [|v l IH]; cbn [position_of]; [by intros v ?%elem_of_nil|].
  unfold holds_payload. destruct (Z.eqb_spec (payload_of v) p) as [Hp|Hp]; [by exists v|].
  destruct (position_of payload_of p l) as [i|]; cbn [fmap option_fmap option_map]; [done|].
  intros w [->|Hw]%elem_of_cons; [done|by apply IH].
Qed.

Lemma insert_perm (l : list V) i x y : l !! i = Some x ->
  l ≡ₚ x :: delete i l /\ <[i := y]> l ≡ₚ y :: delete i l.
Proof.
  intros H. split; [by apply delete_Permutation|].
  rewrite insert_take_drop by (by eapply lookup_lt_Some).
  rewrite delete_take_drop. by rewrite Permutation_middle.
Qed.

Lemma swap_remove_perm (l : list V) i x : l !! i = Some x -> swap_remove i l ≡ₚ delete i l.
Proof.
  intros H. pose proof (lookup_lt_Some _ _ _ H) as Hl. unfold swap_remove.
  destruct l as [|z l _] using rev_ind; [done|]. rewrite last_snoc.
  rewrite length_app in Hl. simpl in Hl.
  destruct (decide (i < length l)%nat) as [Hi|Hi].
  - rewrite insert_app_l, removelast_last, delete_take_drop by done.
    rewrite take_app_le, drop_app_le by lia.
    rewrite insert_take_drop by done. rewrite app_assoc.
    rewrite <- Permutation_cons_append, <- Permutation_middle. done.
  - assert (i = length l) as -> by lia.
    rewrite (insert_app_r_alt l [z]), Nat.sub_diag by lia. simpl. rewrite removelast_last.
    by rewrite delete_middle, app_nil_r.
Qed.

(** The relation between a store and the map it stands for. *)
Definition store_rel (s : Repr V) (M : bmap Z V) : Prop :=
  match s with
  | Small l => packs l M
  | Large slab => (exists e, slab_ok slab e) /\ packs (omap full (sl_slots slab)) M
  end.

Lemma store_new_rel : store_rel store_new [].
Proof. apply packs_nil. Qed.

Lemma store_get_spec s M p : store_rel s M -> store_get payload_of s p = Some (bm_get p M).
Proof.
  destruct s as [l|slab]; simpl; [|intros [[e He] HM]; by eapply slab_get_spec].
  intros HM. f_equal. pose proof (position_of_spec p l) as Hp.
  destruct (position_of payload_of p l) as [i|]; simpl.
  - destruct Hp as (v & Hi & Hv). rewrite Hi. symmetry. apply (packs_elem _ _ _ _ HM).
    split; [by eapply list_elem_of_lookup_2|done].
  - symmetry. by apply (packs_absent _ _ _ HM).
Qed.

Lemma store_get_mut_spec s M p f : store_rel s M ->
  (forall v, payload_of (f v) = payload_of v) ->
  exists s', store_get_mut payload_of s p f = Some (bm_get p M, s')
    /\ store_rel s' (match bm_get p M with Some v => bm_insert p (f v) M | None => M end).
Proof.
  intros HR Hf. destruct s as [l|slab]; simpl in *.
  - pose proof (store_get_spec (Small l) M p HR) as Hg. simpl in Hg.
    pose proof (position_of_spec p l) as Hp.
    destruct (position_of payload_of p l) as [i|]; simpl in Hg; injection Hg as <-.
    + destruct Hp as (v & Hi & Hv). rewrite Hi. eexists. split; [reflexivity|].
      destruct (insert_perm l i v (f v) Hi) as [H1 H2].
      assert (Halt : alter f i l = <[i := f v]> l).
      { apply list_eq. intros j. destruct (decide (j = i)) as [->|Hne].
        - rewrite list_lookup_alter_eq, Hi, list_lookup_insert_eq; [done|by eapply lookup_lt_Some].
        - by rewrite list_lookup_alter_ne, list_lookup_insert_ne. }
      simpl. rewrite Halt, <- Hv, <- Hf. apply (packs_perm _ _ _ (symmetry H2)).
      apply (packs_replace (delete i l) M v); [by apply (packs_perm _ _ _ H1)|done].
    + by eexists.
  - destruct HR as [[e He] HM].
    destruct (slab_get_mut_spec slab e M p f He HM Hf) as (s' & -> & Hs' & _ & HM').
    eexists. split; [reflexivity|]. split; eauto.
Qed.

(** Moving the packets of a full small store into a slab. *)
Lemma promote_spec l : forall slab e M,
  slab_ok slab e -> packs (omap full (sl_slots slab)) M ->
  Z.of_nat (length M + length l) < EMPTY ->
  NoDup (payload_of <$> l) -> (forall v, v ∈ l -> bm_get (payload_of v) M = None) ->
  exists slab' e' M', foldl (fun acc old =>
      acc ← acc; '(_, acc) ← slab_insert acc (payload_of old) old; Some acc) (Some slab) l
      = Some slab'
    /\ slab_ok slab' e' /\ packs (omap full (sl_slots slab')) M'
    /\ packs (omap full (sl_slots slab) ++ l) M' /\ length M' = (length M + length l)%nat.
Proof.
  induction l as [|v l IH]; intros slab e M Hs HM Hsz Hnd Hnew.
  { exists slab, e, M. rewrite app_nil_r. split_and!; [done|done|done|done|simpl; lia]. }
  cbn [foldl mbind option_bind]. rewrite fmap_cons in Hnd. apply NoDup_cons in Hnd as [Hv Hnd].
  simpl (length (v :: l)) in *.
  destruct (slab_insert_spec slab e M v Hs HM ltac:(lia)) as (s1 & e1 & -> & Hs1 & HM1 & _).
  cbn [mbind option_bind]. assert (Hvn : bm_get (payload_of v) M = None) by (apply Hnew; left).
  pose proof (packs_add _ _ _ HM Hvn) as Hadd.
  assert (Hlen : length (bm_insert (payload_of v) v M) = S (length M)).
  { rewrite bm_insert_perm; [done|apply HM|done]. }
  destruct (IH s1 e1 _ Hs1 HM1) as (s' & e' & M' & Hf & Hs' & HM' & Hp & Hl).
  - rewrite Hlen. lia.
  - done.
  - intros w Hw. rewrite bm_get_insert_ne; [apply Hnew; by right|]. intros Heq.
    apply Hv. rewrite Heq. by apply list_elem_of_fmap_2.
  - exists s', e', M'. split_and!; [done|done|done| |lia].
    eapply packs_perm; [|exact Hp].
    assert (Hperm : omap full (sl_slots s1) ≡ₚ v :: omap full (sl_slots slab)).
    { rewrite (pk_values _ _ HM1), (pk_values _ _ Hadd). done. }
    rewrite Hperm. simpl. by rewrite Permutation_middle.
Qed.

Lemma with_buckets_ok : slab_ok (with_buckets FIRST_BUCKETS) 6.
Proof.
  pose proof (geometry_pow 6 ltac:(lia)) as Hgeo. change (2 ^ 6)%nat with 64%nat in Hgeo.
  destruct (empty_table _ _ _ Hgeo) as (Ht & Hn & Hno).
  split; simpl sl_buckets; simpl sl_shift; simpl sl_slots; simpl sl_len;
    change FIRST_BUCKETS with 64%nat; rewrite ?length_replicate; auto.
  - lia.
  - intros b Hb Hf. exfalso. by apply (Hno b Hf).
  - intros k v Hk. by rewrite lookup_nil in Hk.
  - unfold EMPTY. simpl. lia.
  - exists []. split_and!; [done|constructor|]. intros k next Hk. by rewrite lookup_nil in Hk.
Qed.

Lemma store_insert_spec s M v : store_rel s M -> Z.of_nat (length M) + 1 < EMPTY ->
  exists s', store_insert payload_of s v = Some (bm_get (payload_of v) M, s')
    /\ store_rel s' (bm_insert (payload_of v) v M).
Proof.
  intros HR Hsz. destruct s as [l|slab]; simpl in *.
  - pose proof (store_get_spec (Small l) M (payload_of v) HR) as Hg. simpl in Hg.
    pose proof (position_of_spec (payload_of v) l) as Hp.
    destruct (position_of payload_of (payload_of v) l) as [i|]; simpl in Hg; injection Hg as Hg.
    + destruct Hp as (old & Hi & Hv). rewrite <- Hg, Hi. eexists. split; [reflexivity|].
      destruct (insert_perm l i old v Hi) as [H1 H2]. simpl.
      apply (packs_perm _ _ _ (symmetry H2)).
      apply (packs_replace (delete i l) M old); [by apply (packs_perm _ _ _ H1)|done].
    + rewrite <- Hg. destruct (Nat.ltb_spec (length l) SMALL_LIMIT) as [Hlt|Hge].
      * eexists. split; [reflexivity|]. simpl.
        eapply packs_perm; [apply Permutation_cons_append|]. by apply packs_add.
      * pose proof (packs_length _ _ HR) as Hlen.
        destruct (promote_spec l (with_buckets FIRST_BUCKETS) 6 [] with_buckets_ok packs_nil)
          as (slab & e & M' & -> & Hs & HM' & Hp' & Hl'); [simpl; lia|by eapply packs_payloads|done|].
        simpl in Hp'. assert (M' = M) as -> by (by eapply packs_unique).
        cbn [mbind option_bind].
        destruct (slab_insert_spec slab e M v Hs HM' ltac:(lia)) as (s' & e' & -> & Hs' & HM'' & _).
        cbn [mbind option_bind]. eexists. split; [reflexivity|]. split; eauto.
  - destruct HR as [[e He] HM].
    destruct (slab_insert_spec slab e M v He HM ltac:(lia)) as (s' & e' & -> & Hs' & HM' & _).
    eexists. split; [reflexivity|]. split; eauto.
Qed.

Lemma store_remove_spec s M p : store_rel s M ->
  exists s', store_remove payload_of s p = Some (bm_get p M, s')
    /\ store_rel s' (bm_remove p M).
Proof.
  intros HR. destruct s as [l|slab]; simpl in *.
  - pose proof (store_get_spec (Small l) M p HR) as Hg. simpl in Hg.
    pose proof (position_of_spec p l) as Hp.
    destruct (position_of payload_of p l) as [i|]; simpl in Hg; injection Hg as Hg.
    + destruct Hp as (v & Hi & Hv). rewrite <- Hg, Hi. eexists. split; [reflexivity|]. simpl.
      eapply packs_perm; [symmetry; by eapply swap_remove_perm|]. rewrite <- Hv.
      apply packs_remove. eapply packs_perm; [|exact HR]. by apply delete_Permutation.
    + rewrite <- Hg, bm_remove_absent by done. by eexists.
  - destruct HR as [[e He] HM].
    destruct (slab_remove_spec slab e M p He HM) as (s' & -> & Hs' & HM').
    cbn [mbind option_bind]. eexists. split; [reflexivity|].
    destruct (Nat.eqb_spec (sl_len s') 0) as [H0|H0]; [|split; eauto].
    simpl. eapply packs_perm; [|exact HM']. pose proof (so_packets _ _ Hs') as Hlen.
    rewrite H0 in Hlen. apply nil_length_inv in Hlen. by rewrite Hlen.
Qed.

Lemma into_sorted_spec s M : store_rel s M -> into_sorted payload_of s = M.*2.
Proof. destruct s as [l|slab]; [|intros [_ HM]]; unfold into_sorted; by apply packs_sorted. Qed.

(** ** Traces of operations *)

Inductive StoreOp :=
| OpGet (payload : Z)
| OpGetMut (payload : Z) (f : V -> V)
| OpInsert (packet : V)
| OpRemove (payload : Z).

(** A mutation through [get_mut] leaves the packet's identity alone. *)
Definition op_ok (op : StoreOp) : Prop :=
  match op with OpGetMut _ f => forall v, payload_of (f v) = payload_of v | _ => True end.

Definition store_op (s : Repr V) (op : StoreOp) : option (option V * Repr V) :=
  match op with
  | OpGet p => found ← store_get payload_of s p; Some (found, s)
  | OpGetMut p f => store_get_mut payload_of s p f
  | OpInsert v => store_insert payload_of s v
  | OpRemove p => store_remove payload_of s p
  end.

Definition map_op (M : bmap Z V) (op : StoreOp) : option V * bmap Z V :=
  match op with
  | OpGet p => (bm_get p M, M)
  | OpGetMut p f => (bm_get p M, match bm_get p M with Some v => bm_insert p (f v) M | None => M end)
  | OpInsert v => (bm_get (payload_of v) M, bm_insert (payload_of v) v M)
  | OpRemove p => (bm_get p M, bm_remove p M)
  end.

Fixpoint store_run (s : Repr V) (ops : list StoreOp) : option (list (option V) * Repr V) :=
  match ops with
  | [] => Some ([], s)
  | op :: ops =>
      '(answer, s) ← store_op s op;
      '(answers, s) ← store_run s ops;
      Some (answer :: answers, s)
  end.

Fixpoint map_run (M : bmap Z V) (ops : list StoreOp) : list (option V) * bmap Z V :=
  match ops with
  | [] => ([], M)
  | op :: ops =>
      let '(answer, M) := map_op M op in
      let '(answers, M) := map_run M ops in
      (answer :: answers, M)
  end.

Lemma bm_insert_length (k : Z) (v : V) M : wf M ->
  (length (bm_insert k v M) <= S (length M))%nat.
Proof.
  intros Hwf. rewrite (bm_insert_perm_remove k v M Hwf). simpl.
  destruct (bm_get k M) as [w|] eqn:E; [|by rewrite bm_remove_absent].
  rewrite (bm_remove_perm k w M E) at 2. simpl. lia.
Qed.

Lemma store_op_spec s M op : store_rel s M -> op_ok op -> Z.of_nat (length M) + 1 < EMPTY ->
  exists s', store_op s op = Some ((map_op M op).1, s') /\ store_rel s' (map_op M op).2
    /\ (length (map_op M op).2 <= S (length M))%nat.
Proof.
  intros HR Hop Hsz. assert (Hwf : wf M) by (destruct s; [|destruct HR as [_ HR]]; apply HR).
  destruct op as [p|p f|v|p]; simpl in *.
  - rewrite (store_get_spec s M p HR). simpl. exists s. split_and!; [done|done|lia].
  - destruct (store_get_mut_spec s M p f HR Hop) as (s' & -> & HR'). exists s'.
    split_and!; [done|done|]. destruct (bm_get p M); [by apply bm_insert_length|lia].
  - destruct (store_insert_spec s M v HR Hsz) as (s' & -> & HR'). exists s'.
    split_and!; [done|done|by apply bm_insert_length].
  - destruct (store_remove_spec s M p HR) as (s' & -> & HR'). exists s'. split_and!; [done|done|].
    destruct (bm_get p M) as [w|] eqn:E; [|rewrite bm_remove_absent by done; lia].
    rewrite (bm_remove_perm p w M E) at 2. simpl. lia.
Qed.

Lemma store_run_spec ops : forall s M, store_rel s M -> Forall op_ok ops ->
  Z.of_nat (length M + length ops) < EMPTY ->
  exists s', store_run s ops = Some ((map_run M ops).1, s') /\ store_rel s' (map_run M ops).2.
Proof.
  induction ops as [|op ops IH]; intros s M HR Hops Hsz; cbn [store_run map_run]; [by exists s|].
  apply Forall_cons in Hops as [Hop Hops]. simpl in Hsz.
  destruct (store_op_spec s M op HR Hop ltac:(lia)) as (s1 & -> & HR1 & Hl1).
  destruct (map_op M op) as [answer M1]. simpl in *.
  destruct (IH s1 M1 HR1 Hops ltac:(lia)) as (s2 & -> & HR2). simpl.
  destruct (map_run M1 ops) as [answers M2]. simpl. by exists s2.
Qed.
End refinement.

(** C8. The packet store is an ordered map. Through any sequence of lookups,
    mutations, insertions and removals (below the slot limit), across the
    conversion to a slab, index growth, slot reuse and backward-shift deletion, the
    store never panics and its probing always ends, every answer is the answer of
    the ordered map it replaces, and the packets come out in ascending payload
    order. *)
Theorem packet_store_refines_map {V} (payload_of : V -> Z) (ops : list (StoreOp (V := V))) :
  Forall (op_ok payload_of) ops -> Z.of_nat (length ops) < EMPTY ->
  exists s, store_run payload_of store_new ops = Some ((map_run payload_of [] ops).1, s)
    /\ into_sorted payload_of s = (map_run payload_of [] ops).2.*2
    /\ forall p, store_get payload_of s p = Some (bm_get p (map_run payload_of [] ops).2).
Proof.
  intros Hops Hsz.
  destruct (store_run_spec payload_of ops store_new [] (store_new_rel payload_of) Hops Hsz)
    as (s & -> & HR).
  exists s. split_and!; [done|by apply into_sorted_spec|]. intros p. by apply store_get_spec.
Qed.

(** Seventy packets: the store is promoted and its index grows, then packets leave. *)
Definition store_example : list (StoreOp (V := Z * Z)) :=
  ((fun i => OpInsert (Z.of_nat i * 37, Z.of_nat i)) <$> seq 0 70)
  ++ ((fun i => OpRemove (Z.of_nat i * 74)) <$> seq 0 30)
  ++ [OpGetMut 37 (fun v => (v.1, 100)); OpGet 37; OpGet 74].

Lemma packet_store_refines_map_witness :
  exists s, store_run fst store_new store_example
      = Some ((map_run fst [] store_example).1, s)
    /\ into_sorted fst s = (map_run fst [] store_example).2.*2
    /\ store_get fst s 37 = Some (Some (37, 100)) /\ store_get fst s 74 = Some None.
Proof.
  destruct (packet_store_refines_map fst store_example) as (s & H1 & H2 & H3).
  - unfold store_example. rewrite !Forall_app. split_and!;
      [apply Forall_fmap, Forall_true; done..|list_forall; done].
  - vm_compute. reflexivity.
  - exists s. split; [exact H1|]. split; [exact H2|]. rewrite !H3. split; vm_compute; reflexivity.
Defined.
