(* ===== verification/Radix.v ===== *)
(** * The remote-event radix sort (executor/src/safe_horizon.rs)

    The least-significant-digit radix sort that orders the events exchanged at
    the end of a safe-horizon round by target and event key, with the passes on
    bytes that do not vary skipped. *)

From S2P Require Import Prelude OrdMap Event.

Definition REMOTE_ORDER_BYTES : nat := 34.

Definition remote_order_byte (event : Event) (pass : nat) : nat :=
  let '(value, byte) :=
    if (pass <=? 7)%nat then (origin_seq (key event), pass)
    else if (pass <=? 15)%nat then (origin_node (key event), (pass - 8)%nat)
    else if (pass <=? 17)%nat then (phase (key event), (pass - 16)%nat)
    else if (pass <=? 25)%nat then (time_ns (key event), (pass - 18)%nat)
    else if (pass <=? 33)%nat then (target event, (pass - 26)%nat)
    else (0, 0%nat) in
  Z.to_nat (Z.land (Z.shiftr value (Z.of_nat byte * 8)) 255).

Definition varying_byte_mask (value : Z) (first_pass : nat) : Z :=
  foldl (fun mask byte =>
    if Z.land value (Z.shiftl 255 (Z.of_nat byte * 8)) =? 0 then mask
    else Z.lor mask (Z.shiftl 1 (Z.of_nat (first_pass + byte)))) 0 (seq 0 8).

(** The bits in which some event differs from the first, by key field. *)
Definition remote_event_varying_bytes (first : Event) (rest : list Event) : Z :=
  let differs (field : Event -> Z) : Z :=
    foldl (fun acc event => Z.lor acc (Z.lxor (field first) (field event))) 0 rest in
  Z.lor (Z.lor (Z.lor (Z.lor
    (varying_byte_mask (differs (fun e => origin_seq (key e))) 0)
    (varying_byte_mask (differs (fun e => origin_node (key e))) 8))
    (varying_byte_mask (differs (fun e => phase (key e))) 16))
    (varying_byte_mask (differs (fun e => time_ns (key e))) 18))
    (varying_byte_mask (differs target) 26).

(** One counting-sort pass: count the bytes, turn the counts into offsets, and
    scatter the events into [scratch]. *)
Definition count_bytes (events : list Event) (pass : nat) : list nat :=
  foldl (fun counts event => alter S (remote_order_byte event pass) counts)
    (replicate 256 0%nat) events.

Definition offsets_of (counts : list nat) : list nat :=
  (foldl (fun '(offsets, offset) count => (offsets ++ [offset], offset + count)%nat)
     ([], 0%nat) counts).1.

Definition scatter (events : list Event) (pass : nat) (offsets : list nat)
    (scratch : list Event) : list Event :=
  (foldl (fun '(scratch, offsets) event =>
     let byte := remote_order_byte event pass in
     (<[offsets !!! byte := event]> scratch, alter S byte offsets))
   (scratch, offsets) events).1.

Definition radix_pass (varying_bytes : Z) (s : list Event * list Event) (pass : nat)
  : list Event * list Event :=
  let '(events, scratch) := s in
  if Z.land varying_bytes (Z.shiftl 1 (Z.of_nat pass)) =? 0 then (events, scratch)
  else (scatter events pass (offsets_of (count_bytes events pass)) scratch, events).

Definition radix_sort_remote_events (events : list Event) : list Event :=
  match events with
  | first :: (_ :: _) as rest =>
      (foldl (radix_pass (remote_event_varying_bytes first rest))
         (events, replicate (length events) first) (seq 0 REMOTE_ORDER_BYTES)).1
  | _ => events
  end.

(** ** A pass is a stable distribution by its byte *)

(** The events by byte, in increasing order of the byte. *)
Definition distribute {A} (f : A -> nat) (l : list A) : list A :=
  flat_map (fun b => filter (fun x => f x = b) l) (seq 0 256).

Section distribute.
Context {A : Type} (f : A -> nat) (Hf : forall x, (f x < 256)%nat).

Lemma flat_map_perm_aux l bs : NoDup bs ->
  flat_map (fun b => filter (fun x => f x = b) l) bs ≡ₚ filter (fun x => f x ∈ bs) l.
Proof.
  induction bs as [|b bs IH]; intros Hnd; simpl.
  - induction l as [|x l IHl]; [done|]. rewrite filter_cons. case_decide; set_solver.
  - apply NoDup_cons in Hnd as [Hb Hnd]. rewrite (IH Hnd). clear IH.
    induction l as [|x l IHl]; [done|]. rewrite !filter_cons.
    destruct (decide (f x = b)) as [E|E], (decide (f x ∈ bs)) as [E'|E'],
      (decide (f x ∈ b :: bs)) as [E''|E'']; try set_solver.
    rewrite <- Permutation_middle. by rewrite IHl.
Qed.

Lemma distribute_perm l : distribute f l ≡ₚ l.
Proof.
  unfold distribute. rewrite flat_map_perm_aux by apply NoDup_seq.
  rewrite filter_all; [done|]. intros x _. apply elem_of_seq. split; [lia|]. apply Hf.
Qed.

(** Distribution keeps the relative order of elements with equal bytes. *)
Lemma distribute_stable (P : A -> Prop) `{!forall x, Decision (P x)} b l :
  (forall x, P x -> f x = b) -> filter P (distribute f l) = filter P l.
Proof.
  intros HP. unfold distribute.
  assert (Hone : forall b', filter P (filter (fun x => f x = b') l)
            = if decide (b' = b) then filter P l else []).
  { intros b'. rewrite list_filter_filter. destruct (decide (b' = b)) as [->|Hne].
    - apply list_filter_iff. intros x. split; [by intros [? _]|]. auto.
    - apply filter_none. intros x _ [Px Hx]. apply Hne. rewrite <- Hx. by apply HP. }
  assert (Hall : forall bs, NoDup bs -> filter P (flat_map (fun b' => filter (fun x => f x = b') l) bs)
            = if decide (b ∈ bs) then filter P l else []).
  { induction bs as [|b' bs IH]; intros Hnd; simpl; [by destruct (decide (b ∈ [])) as [?%elem_of_nil|]|].
    apply NoDup_cons in Hnd as [Hb' Hnd]. rewrite filter_app, Hone, (IH Hnd).
    destruct (decide (b' = b)) as [->|Hne], (decide (b ∈ bs)), (decide (b ∈ _ :: bs)); try set_solver.
    all: by rewrite app_nil_r. }
  rewrite Hall by apply NoDup_seq. destruct (decide (b ∈ seq 0 256)) as [|Hb]; [done|].
  destruct (filter P l) as [|x l'] eqn:E; [done|]. exfalso. apply Hb.
  assert (Hx : x ∈ filter P l) by (rewrite E; left). apply list_elem_of_filter in Hx as [Px _].
  apply elem_of_seq. pose proof (Hf x). rewrite (HP x Px) in *. lia.
Qed.
End distribute.

(** ** The counting pass computes the distribution *)

Section counting.
Context (pass : nat).

Abbreviation byte e := (remote_order_byte e pass) (only parsing).

(** How many events have byte [b]. *)
Definition count (l : list Event) (b : nat) : nat := length (filter (fun e => byte e = b) l).

(** Where the events of byte [b] start. *)
Definition start (l : list Event) (b : nat) : nat := sum_list (count l <$> seq 0 b).

Lemma count_cons e l b :
  count (e :: l) b = ((if decide (byte e = b) then 1 else 0) + count l b)%nat.
Proof. unfold count. rewrite filter_cons. by case_decide. Qed.

Lemma count_app l1 l2 b : count (l1 ++ l2) b = (count l1 b + count l2 b)%nat.
Proof. unfold count. by rewrite filter_app, length_app. Qed.

Lemma count_bytes_spec l : count_bytes l pass = count l <$> seq 0 256.
Proof.
  unfold count_bytes.
  enough (H : forall f, foldl (fun counts event => alter S (byte event) counts) (f <$> seq 0 256) l
            = (fun b => f b + count l b)%nat <$> seq 0 256).
  { change (replicate 256 0%nat) with ((fun _ => 0%nat) <$> seq 0 256). apply H. }
  induction l as [|e l IH]; intros f; cbn [foldl].
  - apply table_ext. intros c _. unfold count. simpl. lia.
  - rewrite alter_table, IH. apply table_ext. intros c _. rewrite count_cons.
    destruct (decide (c = byte e)), (decide (byte e = c)); congruence || lia.
Qed.

Lemma start_S l b : start l (S b) = (start l b + count l b)%nat.
Proof.
  unfold start. rewrite seq_S, fmap_app, sum_list_with_app. simpl. unfold id. lia.
Qed.

Lemma start_mono l b b' : (b < b')%nat -> (start l b + count l b <= start l b')%nat.
Proof.
  intros H. induction b' as [|b' IH]; [lia|]. rewrite start_S.
  destruct (decide (b = b')) as [->|Hne]; [lia|]. specialize (IH ltac:(lia)). lia.
Qed.

Lemma offsets_spec l : offsets_of (count l <$> seq 0 256) = start l <$> seq 0 256.
Proof.
  unfold offsets_of.
  enough (H : forall n, foldl (fun '(offsets, offset) count => (offsets ++ [offset], offset + count)%nat)
             ([], 0%nat) (count l <$> seq 0 n) = (start l <$> seq 0 n, start l n)).
  { by rewrite H. }
  induction n as [|n IH]; [done|].
  rewrite !seq_S, !fmap_app, foldl_app, IH. simpl. by rewrite start_S.
Qed.

Lemma flat_map_start l n :
  length (flat_map (fun b => filter (fun e => byte e = b) l) (seq 0 n)) = start l n.
Proof.
  induction n as [|n IH]; [done|].
  rewrite seq_S, flat_map_app, length_app, IH, start_S. simpl. by rewrite app_nil_r.
Qed.

(** Positions in the distribution: the [i]-th event of byte [b]. *)
Lemma distribute_lookup l b i : (b < 256)%nat -> (i < count l b)%nat ->
  distribute (fun e => byte e) l !! (start l b + i)%nat
  = filter (fun e => byte e = b) l !! i.
Proof.
  intros Hb Hi. unfold distribute.
  assert (H256 : 256%nat = (b + S (255 - b))%nat) by lia. rewrite H256.
  rewrite seq_app, flat_map_app, lookup_app_r by (rewrite flat_map_start; lia).
  rewrite flat_map_start. cbn [seq flat_map Nat.add].
  rewrite lookup_app_l by (fold (count l b); lia). f_equal. lia.
Qed.

Lemma start_cover l n p : (p < start l n)%nat ->
  exists b i, (b < n)%nat /\ (i < count l b)%nat /\ p = (start l b + i)%nat.
Proof.
  induction n as [|n IH]; [unfold start; simpl; lia|]. rewrite start_S. intros Hp.
  destruct (decide (p < start l n)%nat) as [Hlt|Hge].
  - destruct (IH Hlt) as (b & i & ? & ? & ->). exists b, i. lia.
  - exists n, (p - start l n)%nat. lia.
Qed.

Lemma byte_lt e : (byte e < 256)%nat.
Proof.
  unfold remote_order_byte. destruct (if (pass <=? 7)%nat then _ else _) as [value k].
  change 255 with (Z.ones 8). rewrite Z.land_ones by lia.
  pose proof (Z.mod_pos_bound (Z.shiftr value (Z.of_nat k * 8)) (2 ^ 8) ltac:(lia)).
  change (2 ^ 8) with 256 in *. lia.
Qed.

Lemma start_total l : start l 256 = length l.
Proof.
  rewrite <- flat_map_start. fold (distribute (fun e => byte e) l).
  by rewrite (distribute_perm (fun e => byte e) byte_lt l).
Qed.

Lemma start_slot l b i : (b < 256)%nat -> (i < count l b)%nat -> (start l b + i < length l)%nat.
Proof.
  intros Hb Hi. rewrite <- (start_total l). pose proof (start_mono l b 256 Hb). lia.
Qed.

(** Distinct events go to distinct slots. *)
Lemma start_inj l b i b' i' : (i < count l b)%nat -> (i' < count l b')%nat ->
  (start l b + i = start l b' + i')%nat -> b = b' /\ i = i'.
Proof.
  intros Hi Hi' Heq. destruct (Nat.lt_trichotomy b b') as [Hlt|[->|Hgt]]; [|lia|].
  - pose proof (start_mono l b b' Hlt). lia.
  - pose proof (start_mono l b' b Hgt). lia.
Qed.

(** [s] holds the events [l1] of [l1 ++ l2] at their slots. *)
Definition placed (l1 l : list Event) (s : list Event) : Prop :=
  length s = length l /\
  forall b i, (b < 256)%nat -> (i < count l1 b)%nat ->
    s !! (start l b + i)%nat = filter (fun e => byte e = b) l1 !! i.

Lemma placed_step l1 e l2 s : let l := l1 ++ e :: l2 in
  placed l1 l s -> placed (l1 ++ [e]) l (<[(start l (byte e) + count l1 (byte e))%nat := e]> s).
Proof.
  intros l [Hlen Hs]. split; [by rewrite length_insert|]. intros b i Hb Hi.
  assert (Hle : forall b, (count l1 b <= count l b)%nat) by (intros; subst l; rewrite count_app; lia).
  assert (Hlast : (count l1 (byte e) < count l (byte e))%nat).
  { subst l. rewrite count_app, count_cons. rewrite decide_True by done. lia. }
  rewrite filter_app. rewrite count_app in Hi.
  destruct (decide (b = byte e /\ i = count l1 b)) as [[-> ->]|Hne].
  - rewrite list_lookup_insert_eq by (rewrite Hlen; apply start_slot; [apply byte_lt|done]).
    rewrite lookup_app_r by done. fold (count l1 (byte e)). rewrite Nat.sub_diag.
    by rewrite filter_cons_True.
  - assert (Hi1 : (i < count l1 b)%nat).
    { unfold count in Hi at 2. rewrite filter_cons in Hi. destruct (decide (byte e = b)); simpl in Hi; [|lia].
      destruct (decide (i = count l1 b)); [|lia]. exfalso. by apply Hne. }
    rewrite list_lookup_insert_ne.
    + rewrite lookup_app_l by done. by apply Hs.
    + intros Heq. pose proof (Hle b). apply start_inj in Heq; [|done|lia]. destruct Heq as [<- <-]. lia.
Qed.

Lemma scatter_placed l2 : forall l1 s, placed l1 (l1 ++ l2) s ->
  placed (l1 ++ l2) (l1 ++ l2)
    (foldl (fun '(scratch, offsets) event =>
       (<[offsets !!! byte event := event]> scratch, alter S (byte event) offsets))
     (s, (fun b => start (l1 ++ l2) b + count l1 b)%nat <$> seq 0 256) l2).1.
Proof.
  induction l2 as [|e l2 IH]; intros l1 s Hs; [by rewrite app_nil_r in *|].
  cbn [foldl]. rewrite lookup_total_table by apply byte_lt. rewrite alter_table.
  apply placed_step in Hs.
  assert (Happ : l1 ++ e :: l2 = (l1 ++ [e]) ++ l2) by (by rewrite <- app_assoc).
  rewrite Happ in *. erewrite table_ext; [apply IH; exact Hs|].
  intros c _. simpl. rewrite (count_app l1 [e]), (count_cons e []).
  destruct (decide (c = byte e)), (decide (byte e = c)); try congruence; unfold count; simpl; lia.
Qed.

(** One pass is the stable distribution by its byte. *)
Lemma scatter_spec l s : length s = length l ->
  scatter l pass (offsets_of (count_bytes l pass)) s = distribute (fun e => byte e) l.
Proof.
  intros Hlen. rewrite count_bytes_spec, offsets_spec. unfold scatter.
  assert (H0 : placed [] ([] ++ l) s).
  { split; [done|]. intros b i _ Hi. unfold count in Hi. simpl in Hi. lia. }
  apply scatter_placed in H0. simpl ([] ++ l) in H0.
  rewrite (table_ext (fun b => start l b + count [] b)%nat (start l)) in H0
    by (intros; unfold count; simpl; lia).
  destruct H0 as [Hl Hp]. apply list_eq. intros p.
  pose proof (distribute_perm (fun e => byte e) byte_lt l) as Hperm.
  destruct (decide (p < length l)%nat) as [Hlt|Hge].
  - rewrite <- start_total in Hlt. destruct (start_cover l 256 p Hlt) as (b & i & Hb & Hi & ->).
    by rewrite Hp, distribute_lookup.
  - etrans; [apply lookup_ge_None_2|symmetry; apply lookup_ge_None_2]; [lia|].
    rewrite Hperm. lia.
Qed.
End counting.

(** ** Skipped passes *)

Lemma bit_clear x n : 0 <= n -> (Z.land x (Z.shiftl 1 n) =? 0) = negb (Z.testbit x n).
Proof.
  intros Hn. rewrite Z.shiftl_1_l. destruct (Z.testbit x n) eqn:E; simpl.
  - apply Z.eqb_neq. intros H. assert (Hb : Z.testbit (Z.land x (2 ^ n)) n = false) by (rewrite H; apply Z.bits_0).
    rewrite Z.land_spec, E, Z.pow2_bits_true in Hb by done. done.
  - apply Z.eqb_eq. apply Z.bits_inj'. intros k Hk. rewrite Z.land_spec, Z.bits_0.
    destruct (decide (k = n)) as [->|Hne]; [by rewrite E|].
    rewrite Z.pow2_bits_false by done. apply andb_false_r.
Qed.

(** A clear bit of the mask says its byte is zero. *)
Lemma mask_clear value first_pass k :
  (k < 8)%nat -> Z.testbit (varying_byte_mask value first_pass) (Z.of_nat (first_pass + k)) = false ->
  Z.land value (Z.shiftl 255 (Z.of_nat k * 8)) = 0.
Proof.
  intros Hk. unfold varying_byte_mask.
  enough (H : forall bytes mask, k ∈ bytes ->
    Z.testbit (foldl (fun mask byte =>
      if Z.land value (Z.shiftl 255 (Z.of_nat byte * 8)) =? 0 then mask
      else Z.lor mask (Z.shiftl 1 (Z.of_nat (first_pass + byte)))) mask bytes)
      (Z.of_nat (first_pass + k)) = false ->
    Z.land value (Z.shiftl 255 (Z.of_nat k * 8)) = 0).
  { apply H. apply elem_of_seq. lia. }
  assert (Hkeep : forall bytes mask n,
    Z.testbit (foldl (fun mask byte =>
      if Z.land value (Z.shiftl 255 (Z.of_nat byte * 8)) =? 0 then mask
      else Z.lor mask (Z.shiftl 1 (Z.of_nat (first_pass + byte)))) mask bytes) n = false ->
    Z.testbit mask n = false).
  { induction bytes as [|b bytes IH]; intros mask n; cbn [foldl]; [done|]. intros H%IH.
    destruct (_ =? 0); [done|]. rewrite Z.lor_spec in H. by apply orb_false_iff in H as [? _]. }
  induction bytes as [|b bytes IH]; intros mask; [by intros ?%elem_of_nil|]. cbn [foldl].
  intros [<-|Hin]%elem_of_cons; [|by apply IH]. intros H%Hkeep.
  destruct (Z.eqb_spec (Z.land value (Z.shiftl 255 (Z.of_nat k * 8))) 0) as [E|E]; [done|].
  rewrite Z.lor_spec, Z.shiftl_1_l, Z.pow2_bits_true, orb_true_r in H by lia. done.
Qed.

Lemma differs_clear {A} (field : A -> Z) a M rest : forall acc,
  Z.land (foldl (fun acc x => Z.lor acc (Z.lxor a (field x))) acc rest) M = 0 ->
  Z.land acc M = 0 /\ forall x, x ∈ rest -> Z.land (Z.lxor a (field x)) M = 0.
Proof.
  induction rest as [|y rest IH]; intros acc; cbn [foldl].
  - intros H. split; [done|]. by intros x ?%elem_of_nil.
  - intros [H Hall]%IH. rewrite Z.land_lor_distr_l in H. apply Z.lor_eq_0_iff in H as [H1 H2].
    split; [done|]. intros x [->|Hx]%elem_of_cons; auto.
Qed.

Lemma byte_equal a b n : 0 <= n -> Z.land (Z.lxor a b) (Z.shiftl 255 n) = 0 ->
  Z.land (Z.shiftr a n) 255 = Z.land (Z.shiftr b n) 255.
Proof.
  intros Hn H. apply Z.bits_inj'. intros k Hk.
  assert (Hb : Z.testbit (Z.land (Z.lxor a b) (Z.shiftl 255 n)) (k + n) = false) by (rewrite H; apply Z.bits_0).
  rewrite Z.land_spec, Z.lxor_spec, Z.shiftl_spec in Hb by lia.
  rewrite Z.add_simpl_r in Hb.
  rewrite !Z.land_spec, !Z.shiftr_spec by done.
  destruct (Z.testbit 255 k); [|by rewrite !andb_false_r]. rewrite !andb_true_r.
  rewrite andb_true_r in Hb. by destruct (Z.testbit a (k + n)), (Z.testbit b (k + n)).
Qed.

(** A clear bit of the mask of one field says the field's byte is the same. *)
Lemma field_clear (field : Event -> Z) first rest first_pass k e :
  (k < 8)%nat -> e ∈ rest ->
  Z.testbit (varying_byte_mask
    (foldl (fun acc event => Z.lor acc (Z.lxor (field first) (field event))) 0 rest) first_pass)
    (Z.of_nat (first_pass + k)) = false ->
  Z.land (Z.shiftr (field e) (Z.of_nat k * 8)) 255
  = Z.land (Z.shiftr (field first) (Z.of_nat k * 8)) 255.
Proof.
  intros Hk He H%mask_clear; [|done]. apply differs_clear in H as [_ H].
  symmetry. apply byte_equal; [lia|]. by apply H.
Qed.

(** A skipped pass is on a byte all events share. *)
Lemma skipped_byte first rest pass e : (pass < 34)%nat -> e ∈ rest ->
  Z.testbit (remote_event_varying_bytes first rest) (Z.of_nat pass) = false ->
  remote_order_byte e pass = remote_order_byte first pass.
Proof.
  intros Hp He. unfold remote_event_varying_bytes. rewrite !Z.lor_spec, !orb_false_iff.
  intros ((((H1 & H2) & H3) & H4) & H5). unfold remote_order_byte.
  destruct (Nat.leb_spec pass 7); 
    [f_equal; by apply (field_clear (fun e => origin_seq (key e)) first rest 0); [lia|..]|].
  destruct (Nat.leb_spec pass 15).
  { f_equal. apply (field_clear (fun e => origin_node (key e)) first rest 8); [lia|done|].
    by replace (8 + (pass - 8))%nat with pass by lia. }
  destruct (Nat.leb_spec pass 17).
  { f_equal. apply (field_clear (fun e => phase (key e)) first rest 16); [lia|done|].
    by replace (16 + (pass - 16))%nat with pass by lia. }
  destruct (Nat.leb_spec pass 25).
  { f_equal. apply (field_clear (fun e => time_ns (key e)) first rest 18); [lia|done|].
    by replace (18 + (pass - 18))%nat with pass by lia. }
  destruct (Nat.leb_spec pass 33); [|lia].
  f_equal. apply (field_clear target first rest 26); [lia|done|].
  by replace (26 + (pass - 26))%nat with pass by lia.
Qed.

Lemma distribute_constant {A} (f : A -> nat) (Hf : forall x, (f x < 256)%nat) b l :
  (forall x, x ∈ l -> f x = b) -> distribute f l = l.
Proof.
  intros Hb. pose proof (distribute_stable f Hf (fun x => f x = b) b l (fun x H => H)) as H.
  rewrite (filter_all _ l) in H by done. rewrite <- H at 2. symmetry. apply filter_all.
  intros x. rewrite (distribute_perm f Hf l). apply Hb.
Qed.

(** ** The value of the low bytes *)

Fixpoint low (n : nat) (e : Event) : Z :=
  match n with
  | O => 0
  | S n => low n e + Z.of_nat (remote_order_byte e n) * 256 ^ Z.of_nat n
  end.

Lemma low_range n e : 0 <= low n e < 256 ^ Z.of_nat n.
Proof.
  induction n as [|n IH]; cbn [low]; [done|]. pose proof (byte_lt n e).
  rewrite Nat2Z.inj_succ, Z.pow_succ_r by lia. nia.
Qed.

Definition low_le (n : nat) (a b : Event) : Prop := low n a <= low n b.

Lemma StronglySorted_mono_on {A} (R R' : A -> A -> Prop) l :
  (forall x y, x ∈ l -> y ∈ l -> R x y -> R' x y) -> StronglySorted R l -> StronglySorted R' l.
Proof.
  intros HR. induction 1 as [|x l _ IH Hall]; [constructor|].
  constructor; [apply IH; intros; apply HR; set_solver|].
  rewrite Forall_forall in Hall |- *. intros y Hy. apply HR; [set_solver..|]. auto.
Qed.

(** Distributing by the next byte sorts by one byte more. *)
Lemma distribute_sorted n l : StronglySorted (low_le n) l ->
  StronglySorted (low_le (S n)) (distribute (fun e => remote_order_byte e n) l).
Proof.
  intros Hs. unfold distribute. generalize 256%nat. generalize 0%nat. intros s0 c.
  revert s0. induction c as [|c IH]; intros s0; cbn [seq flat_map]; [constructor|].
  apply StronglySorted_app_2; [|eapply StronglySorted_mono_on; [|by apply filter_sorted]|apply IH].
  - intros x y [Hx _]%list_elem_of_filter Hy.
    apply list_elem_of_In, in_flat_map in Hy as (b & Hb & Hy).
    apply in_seq in Hb. apply list_elem_of_In, list_elem_of_filter in Hy as [Hy _].
    unfold low_le. cbn [low]. rewrite Hx, Hy.
    pose proof (low_range n x). pose proof (low_range n y). nia.
  - intros x y [Hx _]%list_elem_of_filter [Hy _]%list_elem_of_filter.
    unfold low_le. cbn [low]. rewrite Hx, Hy. lia.
Qed.

(** ** The order the bytes encode *)

(** The fields are machine integers. *)
Record event_words (e : Event) : Prop := {
  ew_target : in_u64 (target e);
  ew_time : in_u64 (time_ns (key e));
  ew_phase : in_u16 (phase (key e));
  ew_node : in_u64 (origin_node (key e));
  ew_seq : in_u64 (origin_seq (key e));
}.

(** The low [k] bytes of a value. *)
Fixpoint value_bytes (v : Z) (k : nat) : Z :=
  match k with
  | O => 0
  | S k => value_bytes v k + Z.of_nat (Z.to_nat (Z.land (Z.shiftr v (Z.of_nat k * 8)) 255))
                             * 256 ^ Z.of_nat k
  end.

Lemma value_bytes_mod v k : value_bytes v k = v mod 256 ^ Z.of_nat k.
Proof.
  induction k as [|k IH]; cbn [value_bytes]; [by rewrite Z.mod_1_r|].
  change 255 with (Z.ones 8). rewrite Z.land_ones, Z.shiftr_div_pow2 by lia.
  rewrite Z2Nat.id by (apply Z.mod_pos_bound; lia). rewrite IH.
  assert (Hp : 2 ^ (Z.of_nat k * 8) = 256 ^ Z.of_nat k).
  { change 256 with (2 ^ 8). rewrite <- Z.pow_mul_r by lia. f_equal. lia. }
  rewrite Hp. change (2 ^ 8) with 256.
  assert (0 < 256 ^ Z.of_nat k) by (apply Z.pow_pos_nonneg; lia).
  rewrite Nat2Z.inj_succ, Z.pow_succ_r by lia.
  rewrite (Z.mul_comm 256), Z.rem_mul_r by lia. lia.
Qed.

(** The bytes of one field, from pass [p] on. *)
Lemma low_field (field : Event -> Z) e p k :
  (forall j, (j < k)%nat -> remote_order_byte e (p + j)
     = Z.to_nat (Z.land (Z.shiftr (field e) (Z.of_nat j * 8)) 255)) ->
  low (p + k) e = low p e + 256 ^ Z.of_nat p * (field e mod 256 ^ Z.of_nat k).
Proof.
  intros H. rewrite <- value_bytes_mod. induction k as [|k IH].
  - rewrite Nat.add_0_r. simpl (value_bytes _ _). lia.
  - rewrite Nat.add_succ_r. cbn [low value_bytes]. rewrite IH by (intros; apply H; lia).
    rewrite H by lia. rewrite Nat2Z.inj_add, Z.pow_add_r by lia. lia.
Qed.

Ltac each_byte := intros j Hj; do 8 (destruct j as [|j]; [reflexivity || lia|]); lia.

Lemma low_value e : event_words e ->
  low 34 e = origin_seq (key e) + 2 ^ 64 * (origin_node (key e)
    + 2 ^ 64 * (phase (key e) + 2 ^ 16 * (time_ns (key e) + 2 ^ 64 * target e))).
Proof.
  intros [H1 H2 H3 H4 H5]. unfold in_u64, in_u16 in *.
  assert (L1 := low_field target e 26 8 ltac:(each_byte)).
  assert (L2 := low_field (fun e => time_ns (key e)) e 18 8 ltac:(each_byte)).
  assert (L3 := low_field (fun e => phase (key e)) e 16 2 ltac:(each_byte)).
  assert (L4 := low_field (fun e => origin_node (key e)) e 8 8 ltac:(each_byte)).
  assert (L5 := low_field (fun e => origin_seq (key e)) e 0 8 ltac:(each_byte)).
  change (26 + 8)%nat with 34%nat in L1. change (18 + 8)%nat with 26%nat in L2.
  change (16 + 2)%nat with 18%nat in L3. change (8 + 8)%nat with 16%nat in L4.
  change (0 + 8)%nat with 8%nat in L5. rewrite L1, L2, L3, L4, L5. clear L1 L2 L3 L4 L5.
  change (low 0 e) with 0.
  change (256 ^ Z.of_nat 0) with 1. change (256 ^ Z.of_nat 8) with (2 ^ 64).
  change (256 ^ Z.of_nat 2) with (2 ^ 16). change (256 ^ Z.of_nat 16) with (2 ^ 128).
  change (256 ^ Z.of_nat 18) with (2 ^ 144). change (256 ^ Z.of_nat 26) with (2 ^ 208).
  rewrite !Z.mod_small by lia. lia.
Qed.

(** The exchange order: target, then event key. *)
Definition remote_order (e : Event) : Z * EventKey := (target e, key e).
Definition remote_le (a b : Event) : Prop := kle (remote_order a) (remote_order b).

Lemma low_remote_le a b : event_words a -> event_words b -> low_le 34 a b -> remote_le a b.
Proof.
  intros Ha Hb. unfold low_le. rewrite !low_value by done. intros Hle.
  unfold remote_le. apply kle_not_lt. rewrite klt_pair. simpl. rewrite klt_Z, klt_key.
  destruct Ha as [A1 A2 A3 A4 A5], Hb as [B1 B2 B3 B4 B5]. unfold in_u64, in_u16 in *. lia.
Qed.

(** What holds after the passes on the low [n] bytes. *)
Record sorted_by_low (events : list Event) (n : nat) (s : list Event * list Event) : Prop := {
  sbl_perm : s.1 ≡ₚ events;
  sbl_scratch : length s.2 = length events;
  sbl_sorted : StronglySorted (low_le n) s.1;
  sbl_stable : forall k, filter (fun e => remote_order e = k) s.1
                       = filter (fun e => remote_order e = k) events;
}.

Lemma radix_pass_spec first rest n s : (n < 34)%nat ->
  sorted_by_low (first :: rest) n s ->
  sorted_by_low (first :: rest) (S n) (radix_pass (remote_event_varying_bytes first rest) s n).
Proof.
  intros Hn [Hp Hl Hs Hst]. destruct s as [events scratch]. simpl in *.
  set (f e := remote_order_byte e n). assert (Hf : forall e, (f e < 256)%nat) by apply byte_lt.
  assert (Hd : forall scratch', length scratch' = S (length rest) ->
            sorted_by_low (first :: rest) (S n) (distribute f events, scratch')).
  { intros scratch' Hl'. split; simpl; [by rewrite (distribute_perm f Hf)|done|by apply distribute_sorted|].
    intros k. rewrite <- Hst.
    apply (distribute_stable f Hf _ (f (mkEvent k.2 k.1 PacketArrival 0))).
    intros x <-. done. }
  unfold radix_pass. rewrite bit_clear by lia.
  destruct (Z.testbit (remote_event_varying_bytes first rest) (Z.of_nat n)) eqn:E; simpl.
  - rewrite scatter_spec by (by rewrite Hl, Hp). apply Hd. by rewrite Hp.
  - rewrite (distribute_constant f Hf (f first)) in Hd; [by apply Hd|].
    intros x Hx. rewrite Hp in Hx. apply elem_of_cons in Hx as [->|Hx]; [done|].
    by apply (skipped_byte first rest n x).
Qed.

Lemma radix_passes_spec first rest n : (n <= 34)%nat ->
  sorted_by_low (first :: rest) n
    (foldl (radix_pass (remote_event_varying_bytes first rest))
       (first :: rest, replicate (S (length rest)) first) (seq 0 n)).
Proof.
  induction n as [|n IH]; intros Hn.
  - split; simpl; [done|by rewrite length_replicate| |done].
    generalize (first :: rest). induction l as [|e l IHl]; constructor; [done|].
    apply Forall_forall. intros x _. unfold low_le. simpl. lia.
  - rewrite seq_S, foldl_app. cbn [foldl]. apply radix_pass_spec; [lia|]. apply IH. lia.
Qed.

Lemma radix_sort_passes first second rest :
  exists sorted scratch, radix_sort_remote_events (first :: second :: rest) = sorted
    /\ sorted_by_low (first :: second :: rest) 34 (sorted, scratch).
Proof.
  pose proof (radix_passes_spec first (second :: rest) 34 (le_n _)) as H.
  unfold radix_sort_remote_events. fold REMOTE_ORDER_BYTES in *.
  cbn [length] in *. revert H.
  generalize (foldl (radix_pass (remote_event_varying_bytes first (second :: rest)))
    (first :: second :: rest, replicate (S (S (length rest))) first) (seq 0 REMOTE_ORDER_BYTES)).
  intros [sorted scratch] H. exists sorted, scratch. split; [done|exact H].
Qed.

Lemma radix_sort_perm events : radix_sort_remote_events events ≡ₚ events.
Proof.
  destruct events as [|first [|second rest]]; [done..|].
  by destruct (radix_sort_passes first second rest) as (sorted & scratch & -> & [Hp _ _ _]).
Qed.

Lemma radix_sort_sorted events :
  Forall event_words events -> StronglySorted remote_le (radix_sort_remote_events events).
Proof.
  intros Hw. destruct events as [|first [|second rest]]; [repeat constructor..|].
  destruct (radix_sort_passes first second rest) as (sorted & scratch & -> & [Hp _ Hs _]).
  eapply StronglySorted_mono_on; [|exact Hs]. intros x y Hx Hy. rewrite Hp in Hx, Hy.
  rewrite Forall_forall in Hw. apply low_remote_le; auto.
Qed.

(** C18. The radix sort of the exchange is a stable sort by target and event key:
    its result is a permutation of the outgoing events, sorted by (target, key),
    with events of equal target and key in their original order. The passes it
    skips and the counting of the others never change that. *)
Theorem radix_sort_stable events :
  Forall event_words events ->
  let sorted := radix_sort_remote_events events in
  sorted ≡ₚ events
  /\ StronglySorted remote_le sorted
  /\ forall k, filter (fun e => remote_order e = k) sorted
             = filter (fun e => remote_order e = k) events.
Proof.
  intros Hw sorted. subst sorted.
  split; [apply radix_sort_perm|]. split; [by apply radix_sort_sorted|].
  destruct events as [|first [|second rest]]; [done..|].
  by destruct (radix_sort_passes first second rest) as (sorted & scratch & -> & [_ _ _ Hst]).
Qed.

Lemma radix_sort_stable_witness :
  let ev t ns ph nd sq := mkEvent (mkKey ns ph nd sq) t RemoteArrival sq in
  let events := [ev 2 9 1 4 7; ev 1 10 0 2 0; ev 1 9 2 3 1; ev 1 9 2 3 0; ev 1 9 0 9 5] in
  radix_sort_remote_events events
    = [ev 1 9 0 9 5; ev 1 9 2 3 0; ev 1 9 2 3 1; ev 1 10 0 2 0; ev 2 9 1 4 7]
  /\ StronglySorted remote_le (radix_sort_remote_events events).
Proof.
  intros ev events. destruct (radix_sort_stable events) as (_ & Hs & _).
  - list_forall; split; unfold in_u64, in_u16; simpl; lia.
  - split; [vm_compute; reflexivity|exact Hs].
Defined.
