(* ===== verification/Machine.v ===== *)
(** * The transition machine and its schedules (executor/src/scalar.rs, safe_horizon.rs)

    Both executors drive the same [TransitionState]: they choose a pending
    event, dispatch it, drop the timers it superseded and index the children it
    emitted. They differ in the choice: the scalar executor takes the least
    pending key, the round executor drains one logical process (LP, the node an
    event targets) after the other up to a horizon. This file states what the
    transition machine promises to its drivers ([Machine], [MachineLaws]), what
    one dispatch does to the pending events ([fire]), and proves that below a
    safe horizon the choice does not matter ([drains_first]). *)

From S2P Require Import Prelude OrdMap Event ExecError Fel Image Radix.

Abbreviation pending := (bmap EventKey Event) (only parsing).

(** ** The interface

    [m_new] is [TransitionState::new], [m_finish] is [TransitionState::finish],
    and [m_dispatch] is [TransitionState::dispatch] followed by
    [take_superseded_timers], as both drivers call them. *)
Class Machine (M R : Type) := {
  m_new : SimulationImage -> fueled ExecutionError M;
  m_dispatch : Event -> M -> fueled ExecutionError (list Event * list SupersededTimer * M);
  m_finish : M -> list Event -> R;
}.

(** The node a safe-horizon executor runs an event on. *)
Definition node_slot (image : SimulationImage) (node : NodeId) : option nat :=
  match im_nodes image !! Z.to_nat node with
  | Some entry => if nd_id entry =? node then Some (Z.to_nat node) else None
  | None => None
  end.

(** ** One dispatch on the pending events *)

Definition remove_timers (P : pending) (ts : list SupersededTimer)
  : result ExecutionError (pending) :=
  try_fold (fun P t => r ← remove_superseded_timer P t; Ok r.2) P ts.

Definition insert_children (P : pending) (cs : list Event) : result ExecutionError (pending) :=
  try_fold map_insert P cs.

Definition fire {M R} `{Machine M R} (e : Event) (c : M * pending)
  : fueled ExecutionError (M * pending) :=
  r ← m_dispatch e c.1;
  P1 ← lift_result (remove_timers (bm_remove (key e) c.2) r.1.2);
  P2 ← lift_result (insert_children P1 r.1.1);
  Some (Ok (r.2, P2)).

(** An event is pending under its own key. *)
Definition pends (e : Event) (P : pending) : Prop := (key e, e) ∈ P.

(** The event is the next of its LP, and no other pending event can reach that
    LP before it: every channel delays what crosses it. *)
Record safe (image : SimulationImage) (e : Event) (P : pending) : Prop := {
  safe_pends : pends e P;
  safe_first : forall e', pends e' P -> target e' = target e -> kle (key e) (key e');
  safe_window : forall e' ch, pends e' P -> ch ∈ im_channels image ->
    time_ns (key e) < time_ns (key e') + ch_min_delay_ns ch;
}.

(** The pending events are indexed by their keys. *)
Record indexed (P : pending) : Prop := {
  ix_wf : wf P;
  ix_key : forall k e, (k, e) ∈ P -> k = key e;
}.

(** The image's initial events, as the pending events of a run. *)
Definition initial_pending (image : SimulationImage) : result ExecutionError (pending) :=
  try_fold map_insert [] (im_initial_events image).

(** What the transition machine promises. States are compared up to an
    equivalence that [m_finish] does not see. *)
Class MachineLaws (M R : Type) `{Machine M R} (image : SimulationImage) := {
  m_equiv :: Equiv M;
  m_equivalence :: Equivalence (≡@{M});
  (** the next origin sequence number of a node *)
  m_next_seq : M -> NodeId -> Z;
  (** the machine's own invariant, of its state and the pending events *)
  m_ok : M -> pending -> Prop;
  m_next_seq_proper s1 s2 n : s1 ≡ s2 -> m_next_seq s1 n = m_next_seq s2 n;
  m_ok_proper s1 s2 P : s1 ≡ s2 -> m_ok s1 P -> m_ok s2 P;
  m_finish_proper s1 s2 l : s1 ≡ s2 -> m_finish s1 l = m_finish s2 l;
  m_dispatch_proper e s1 s2 cs ts s1' :
    s1 ≡ s2 -> m_dispatch e s1 = Some (Ok (cs, ts, s1')) ->
    exists s2', m_dispatch e s2 = Some (Ok (cs, ts, s2')) /\ s1' ≡ s2';
  (** a new machine has numbered the events the image supplies *)
  m_new_ok s P : m_new image = Some (Ok s) -> initial_pending image = Ok P -> m_ok s P;
  m_new_fresh s e : m_new image = Some (Ok s) -> e ∈ im_initial_events image ->
    origin_seq (key e) < m_next_seq s (origin_node (key e));
  m_ok_fire e s P s' P' :
    m_ok s P -> safe image e P -> fire e (s, P) = Some (Ok (s', P')) -> m_ok s' P';
  (** children are numbered from the sequence of the node that emits them *)
  m_next_seq_range s P n : m_ok s P -> 0 <= m_next_seq s n <= u64_max;
  m_children_seq e s P cs ts s' :
    m_ok s P -> safe image e P -> m_dispatch e s = Some (Ok (cs, ts, s')) ->
    (origin_node ∘ key) <$> cs = replicate (length cs) (target e)
    /\ (origin_seq ∘ key) <$> cs = seqZ (m_next_seq s (target e)) (Z.of_nat (length cs))
    /\ forall n, m_next_seq s' n =
         m_next_seq s n + (if n =? target e then Z.of_nat (length cs) else 0);
  (** children follow their parent; those of another LP cross a channel *)
  m_children_after e s P cs ts s' c :
    m_ok s P -> safe image e P -> m_dispatch e s = Some (Ok (cs, ts, s')) -> c ∈ cs ->
    klt (key e) (key c)
    /\ (target c = target e
        \/ kind c <> RetransmissionTimeout
           /\ is_Some (node_slot image (target c))
           /\ exists ch, ch ∈ im_channels image /\
                time_ns (key e) + ch_min_delay_ns ch <= time_ns (key c));
  (** children are machine words *)
  m_children_words e s P cs ts s' c :
    m_ok s P -> safe image e P -> m_dispatch e s = Some (Ok (cs, ts, s')) -> c ∈ cs -> event_words c;
  (** superseded timers are the LP's own *)
  m_timers_local e s P cs ts s' t :
    m_ok s P -> safe image e P -> m_dispatch e s = Some (Ok (cs, ts, s')) -> t ∈ ts ->
    st_target t = target e;
  (** transitions of different LPs do not see each other *)
  m_diamond a b s P ca ta sa cb tb sab :
    m_ok s P -> safe image a P -> safe image b P -> target a <> target b ->
    m_dispatch a s = Some (Ok (ca, ta, sa)) -> m_dispatch b sa = Some (Ok (cb, tb, sab)) ->
    exists sb sba, m_dispatch b s = Some (Ok (cb, tb, sb))
      /\ m_dispatch a sb = Some (Ok (ca, ta, sba)) /\ sab ≡ sba;
}.

(** ** Dispatching, as a change of the set of pending events *)

Lemma indexed_pends P k e : indexed P -> (k, e) ∈ P <-> k = key e /\ pends e P.
Proof.
  intros HP. unfold pends. split; [|by intros [-> ?]].
  intros Hin. pose proof (ix_key _ HP _ _ Hin) as ->. done.
Qed.

Lemma indexed_ext P1 P2 : indexed P1 -> indexed P2 ->
  (forall e, pends e P1 <-> pends e P2) -> P1 = P2.
Proof.
  intros H1 H2 He. apply bm_ext; [apply H1|apply H2|]. intros [k e].
  rewrite !indexed_pends by done. by rewrite He.
Qed.

(** At most one pending event has a given key. *)
Lemma pends_inj P e1 e2 : indexed P -> pends e1 P -> pends e2 P -> key e1 = key e2 -> e1 = e2.
Proof.
  intros HP H1 H2 Hk. apply (bm_get_elem_of _ _ _ (ix_wf _ HP)) in H1, H2. congruence.
Qed.

Lemma pends_remove P e e' : indexed P -> pends e P ->
  pends e' (bm_remove (key e) P) <-> pends e' P /\ e' <> e.
Proof.
  intros HP He. unfold pends. rewrite bm_remove_elem_of by apply HP. simpl.
  split; intros [Hin Hne]; (split; [done|]); [by intros ->|].
  intros Hk. by apply Hne, (pends_inj P).
Qed.

Lemma indexed_remove P k : indexed P -> indexed (bm_remove k P).
Proof.
  intros HP. split; [apply bm_remove_wf, HP|].
  intros k' e Hin%bm_remove_elem_of_1. by apply (ix_key _ HP).
Qed.

Lemma pends_insert P e e' : indexed P -> bm_get (key e) P = None ->
  pends e' (bm_insert (key e) e P) <-> e' = e \/ pends e' P.
Proof.
  intros HP Hn. unfold pends. rewrite bm_insert_elem_of by apply HP. simpl. split.
  - intros [[= _ ->]|[? ?]]; auto.
  - intros [->|Hin]; [by left|]. right. split; [done|]. intros Hk.
    apply bm_get_None in Hn. apply Hn. rewrite <- Hk. by apply (list_elem_of_fmap_2 fst) in Hin.
Qed.

Lemma indexed_insert P e : indexed P -> indexed (bm_insert (key e) e P).
Proof.
  intros HP. split; [apply bm_insert_wf, HP|].
  intros k e' [[= -> ->]|Hin]%bm_insert_elem_of_1; [done|]. by apply (ix_key _ HP).
Qed.

Lemma get_None_pends P k : indexed P ->
  bm_get k P = None <-> forall e, pends e P -> key e <> k.
Proof.
  intros HP. rewrite bm_get_None. split.
  - intros Hn e He <-. apply Hn. by apply (list_elem_of_fmap_2 fst) in He.
  - intros Hn ([k' e] & -> & Hin)%list_elem_of_fmap.
    apply indexed_pends in Hin as [-> He]; [|done]. by apply (Hn e).
Qed.

(** *** Superseded timers

    A removal looks only at the retransmission timeouts of the timer's node. *)

Definition timeout_of (n : NodeId) (e : Event) : Prop :=
  kind e = RetransmissionTimeout /\ target e = n.

Definition agree (n : NodeId) (P P' : pending) : Prop :=
  forall e, timeout_of n e -> pends e P <-> pends e P'.

Lemma find_timer_local P P' t :
  indexed P -> indexed P' -> agree (st_target t) P P' -> forall lo hi,
  List.find (fun kv => timer_matches t kv.2) (bm_range lo hi P)
  = List.find (fun kv => timer_matches t kv.2) (bm_range lo hi P').
Proof.
  intros HP HP' Ha lo hi. unfold bm_range.
  set (Q := fun kv : EventKey * Event =>
              kind kv.2 = RetransmissionTimeout /\ target kv.2 = st_target t).
  assert (HQ : forall kv, timer_matches t kv.2 = true -> Q kv).
  { intros kv. unfold timer_matches, Q. rewrite !andb_true_iff, bool_decide_eq_true.
    intros [[? ?] _]. split; [done|lia]. }
  rewrite <- (find_filter_filter _ Q _ P HQ), <- (find_filter_filter _ Q _ P' HQ).
  f_equal. f_equal. apply bm_ext; [apply filter_wf, HP|apply filter_wf, HP'|].
  intros [k e]. rewrite !list_elem_of_filter, !indexed_pends by done.
  unfold Q. simpl. pose proof (Ha e). unfold timeout_of in *. naive_solver.
Qed.

Lemma superseded_local P P' t :
  indexed P -> indexed P' -> agree (st_target t) P P' ->
  match remove_superseded_timer P t with
  | Ok (e, P1) => pends e P /\ timeout_of (st_target t) e /\ P1 = bm_remove (key e) P
      /\ remove_superseded_timer P' t = Ok (e, bm_remove (key e) P')
  | Err err => remove_superseded_timer P' t = Err err
  end.
Proof.
  intros HP HP' Ha. unfold remove_superseded_timer. destruct (key_bounds t) as [lo hi].
  rewrite <- (find_timer_local P P' t HP HP' Ha lo hi).
  destruct (List.find _ (bm_range lo hi P)) as [[k e]|] eqn:Ef; simpl; [|done].
  apply find_Some_split in Ef as (l1 & l2 & Hl & Hm & _). simpl in Hm.
  assert (Hin : (k, e) ∈ bm_range lo hi P) by (rewrite Hl; set_solver).
  apply list_elem_of_filter in Hin as [_ Hin]. apply indexed_pends in Hin as [-> He]; [|done].
  assert (Ht : timeout_of (st_target t) e).
  { unfold timer_matches in Hm. rewrite !andb_true_iff, bool_decide_eq_true in Hm.
    split; [apply Hm|lia]. }
  pose proof He as Hg. apply (bm_get_elem_of _ _ _ (ix_wf _ HP)) in Hg. rewrite Hg. simpl.
  split_and!; [done..|]. apply Ha in He; [|done].
  apply (bm_get_elem_of _ _ _ (ix_wf _ HP')) in He. by rewrite He.
Qed.

(** What the removals of one dispatch take out of the pending events, and that
    they take out the same from any pending events with the same timeouts. *)
Definition removed (n : NodeId) (out : list Event) (P P1 : pending) : Prop :=
  indexed P1 /\ (forall r, r ∈ out -> pends r P /\ timeout_of n r)
  /\ forall e, pends e P1 <-> pends e P /\ e ∉ out.

Lemma remove_timers_local n P P' ts :
  indexed P -> indexed P' -> agree n P P' -> (forall t, t ∈ ts -> st_target t = n) ->
  match remove_timers P ts with
  | Ok P1 => exists out P1', removed n out P P1
      /\ remove_timers P' ts = Ok P1' /\ removed n out P' P1'
  | Err err => remove_timers P' ts = Err err
  end.
Proof.
  revert P P'. induction ts as [|t ts IH]; intros P P' HP HP' Ha Ht.
  { exists [], P'. unfold removed. set_solver. }
  unfold remove_timers. cbn [try_fold].
  assert (Htn : st_target t = n) by (apply Ht; left).
  pose proof (superseded_local P P' t HP HP' ltac:(by rewrite Htn)) as Hs.
  destruct (remove_superseded_timer P t) as [[e P1]|err]; [|by rewrite Hs].
  destruct Hs as (He & Hte & -> & ->). simpl. rewrite Htn in Hte.
  assert (He' : pends e P') by (by apply Ha).
  assert (Ha' : agree n (bm_remove (key e) P) (bm_remove (key e) P')).
  { intros x Hx. rewrite !pends_remove by done. by rewrite (Ha x Hx). }
  specialize (IH _ _ (indexed_remove _ _ HP) (indexed_remove _ _ HP') Ha'
                (fun t Hin => Ht t ltac:(by right))). unfold remove_timers in IH.
  destruct (try_fold _ (bm_remove (key e) P) ts) as [P2|err]; [|done].
  destruct IH as (out & P2' & (Hi & Ho & Hp) & -> & Hi' & Ho' & Hp').
  exists (e :: out), P2'. unfold removed.
  split_and!; [done| |intros x; rewrite Hp, pends_remove by done; set_solver|done|done|
    |intros x; rewrite Hp', pends_remove by done; set_solver].
  - intros r [->|Hr]%elem_of_cons; [done|]. apply Ho in Hr as [Hr ?].
    by apply pends_remove in Hr as [? _].
  - intros r [->|Hr]%elem_of_cons; [done|]. apply Ho' in Hr as [Hr ?].
    by apply pends_remove in Hr as [? _].
Qed.

(** *** Children *)

Lemma insert_children_spec P cs :
  indexed P -> NoDup (key <$> cs) -> (forall c e, c ∈ cs -> pends e P -> key e <> key c) ->
  exists P', insert_children P cs = Ok P' /\ indexed P'
    /\ forall e, pends e P' <-> pends e P \/ e ∈ cs.
Proof.
  revert P. induction cs as [|c cs IH]; intros P HP Hnd Hf; unfold insert_children; cbn [try_fold].
  { exists P. set_solver. }
  csimpl in Hnd. apply NoDup_cons in Hnd as [Hc Hnd].
  assert (Hn : bm_get (key c) P = None).
  { apply get_None_pends; [done|]. intros e He. apply Hf; [by left|done]. }
  assert (Hm : map_insert P c = Ok (bm_insert (key c) c P)) by (unfold map_insert; by rewrite Hn).
  rewrite Hm. cbn [mbind result_bind].
  destruct (IH (bm_insert (key c) c P)) as (P' & HP' & Hi & He);
    [by apply indexed_insert|done| |].
  - intros c' e Hc' He Hk. apply pends_insert in He as [->|He]; [| |done..].
    + apply Hc. rewrite Hk. by apply list_elem_of_fmap_2.
    + apply (Hf c' e); [by right|done..].
  - exists P'. split; [exact HP'|]. split; [done|]. intros e. rewrite He, pends_insert by done.
    rewrite elem_of_cons. tauto.
Qed.

(** ** Configurations and what a dispatch changes *)

Section machine.
Context {M R : Type} `{HM : Machine M R} (image : SimulationImage) `{HL : !MachineLaws M R image}.
Implicit Types (c : M * pending) (e x : Event).

Record config_ok c : Prop := {
  co_ok : m_ok c.1 c.2;
  co_indexed : indexed c.2;
  co_fresh : forall e, pends e c.2 ->
    origin_seq (key e) < m_next_seq c.1 (origin_node (key e));
  co_slot : forall e, pends e c.2 -> is_Some (node_slot image (target e));
}.

(** Two configurations the rest of a run cannot tell apart. *)
Definition config_equiv c1 c2 : Prop := c1.1 ≡ c2.1 /\ c1.2 = c2.2.

#[local] Instance config_equiv_equivalence : Equivalence config_equiv.
Proof.
  split.
  - intros c. by split.
  - intros c1 c2 [H1 H2]. by split.
  - intros c1 c2 c3 [H1 H2] [H3 H4]. split; [by etrans|congruence].
Qed.

Lemma config_equiv_ok c1 c2 : config_equiv c1 c2 -> config_ok c1 -> config_ok c2.
Proof.
  destruct c1 as [s1 P], c2 as [s2 P2]. intros [Hs Heq] [H1 H2 H3 H4]. simpl in *. subst P2.
  split; simpl; [by eapply m_ok_proper|done| |done].
  intros e He. rewrite <- (m_next_seq_proper s1 s2) by done. by apply H3.
Qed.

Record fired e c (cs : list Event) (ts : list SupersededTimer) (out : list Event)
    (c' : M * pending) : Prop := {
  fd_dispatch : m_dispatch e c.1 = Some (Ok (cs, ts, c'.1));
  fd_timers : exists P1, remove_timers (bm_remove (key e) c.2) ts = Ok P1
    /\ removed (target e) out (bm_remove (key e) c.2) P1;
  fd_indexed : indexed c'.2;
  fd_pends : forall x, pends x c'.2 <-> (pends x c.2 /\ x <> e /\ x ∉ out) \/ x ∈ cs;
}.

(** The children of a dispatch carry fresh keys. *)
Lemma children_seq e c cs ts s' i x :
  config_ok c -> safe image e c.2 -> m_dispatch e c.1 = Some (Ok (cs, ts, s')) -> cs !! i = Some x ->
  origin_node (key x) = target e
  /\ origin_seq (key x) = m_next_seq c.1 (target e) + Z.of_nat i.
Proof.
  intros Hok Hs Hd Hi.
  destruct (m_children_seq e _ _ _ _ _ (co_ok _ Hok) Hs Hd) as (Hn & Hq & _). split.
  - assert (H1 : ((origin_node ∘ key) <$> cs) !! i = Some (origin_node (key x)))
      by (by rewrite list_lookup_fmap, Hi).
    rewrite Hn in H1. by apply lookup_replicate in H1 as [-> _].
  - assert (H1 : ((origin_seq ∘ key) <$> cs) !! i = Some (origin_seq (key x)))
      by (by rewrite list_lookup_fmap, Hi).
    rewrite Hq in H1. apply lookup_seqZ in H1 as [-> _]. done.
Qed.

Lemma children_fresh e c cs ts s' :
  config_ok c -> safe image e c.2 -> m_dispatch e c.1 = Some (Ok (cs, ts, s')) ->
  NoDup (key <$> cs) /\ forall x y, x ∈ cs -> pends y c.2 -> key y <> key x.
Proof.
  intros Hok Hs Hd. split.
  - apply NoDup_alt. intros i j k Hi Hj. rewrite list_lookup_fmap in Hi, Hj.
    destruct (cs !! i) as [a|] eqn:Ea, (cs !! j) as [b|] eqn:Eb; [|done..].
    injection Hi as Hi. injection Hj as Hj.
    apply (children_seq _ _ _ _ _ _ _ Hok Hs Hd) in Ea as [_ Ea], Eb as [_ Eb].
    rewrite Hi in Ea. rewrite Hj in Eb. lia.
  - intros x y [i Hi]%list_elem_of_lookup_1 Hy Hk.
    apply (children_seq _ _ _ _ _ _ _ Hok Hs Hd) in Hi as [H1 H2].
    apply (co_fresh _ Hok) in Hy. rewrite Hk, H1, H2 in Hy. lia.
Qed.

(** A dispatch whose timers can be removed succeeds. *)
Lemma fired_intro e c cs ts s' P1 out :
  config_ok c -> safe image e c.2 -> m_dispatch e c.1 = Some (Ok (cs, ts, s')) ->
  remove_timers (bm_remove (key e) c.2) ts = Ok P1 ->
  removed (target e) out (bm_remove (key e) c.2) P1 ->
  exists P', fire e c = Some (Ok (s', P')) /\ fired e c cs ts out (s', P').
Proof.
  intros Hok Hs Hd Ht Ho. pose proof (co_indexed _ Hok) as Hix.
  destruct (children_fresh _ _ _ _ _ Hok Hs Hd) as [Hnd Hf].
  pose proof Ho as (Hi1 & _ & Hp1).
  destruct (insert_children_spec P1 cs) as (P' & HP' & Hi' & Hp'); [done|done| |].
  { intros x y Hx [Hy _]%Hp1. apply pends_remove in Hy as [Hy _]; [|done|apply Hs]. by apply Hf. }
  exists P'. split.
  - unfold fire. rewrite Hd. simpl. rewrite Ht. simpl. by rewrite HP'.
  - split; simpl; [done|by exists P1|done|]. intros x.
    rewrite Hp', Hp1, pends_remove by first [done|apply Hs]. tauto.
Qed.

Lemma fire_Ok e c c' :
  config_ok c -> safe image e c.2 -> fire e c = Some (Ok c') -> exists cs ts out, fired e c cs ts out c'.
Proof.
  intros Hok Hs Hf. pose proof Hf as Hf'. unfold fire in Hf'.
  apply fueled_bind_Ok in Hf' as ([[cs ts] s'] & Hd & Hf').
  apply fueled_bind_Ok in Hf' as (P1 & [= Ht] & _). simpl in Ht.
  pose proof (indexed_remove _ (key e) (co_indexed _ Hok)) as Hi.
  pose proof (remove_timers_local (target e) _ _ ts Hi Hi (fun _ _ => iff_refl _)
    (fun t => m_timers_local e _ _ _ _ _ t (co_ok _ Hok) Hs Hd)) as Hr.
  rewrite Ht in Hr. destruct Hr as (out & _ & Ho & _).
  destruct (fired_intro e c cs ts s' P1 out Hok Hs Hd Ht Ho) as (P' & HP' & Hfd).
  rewrite HP' in Hf. injection Hf as <-. eauto.
Qed.

(** Only the dispatch and the removals of a dispatch can fail. *)
Lemma fire_dispatch e c cs ts s' :
  config_ok c -> safe image e c.2 -> m_dispatch e c.1 = Some (Ok (cs, ts, s')) ->
  match remove_timers (bm_remove (key e) c.2) ts with
  | Ok P1 => exists P', insert_children P1 cs = Ok P' /\ fire e c = Some (Ok (s', P'))
  | Err err => fire e c = Some (Err err)
  end.
Proof.
  intros Hok Hs Hd. unfold fire. rewrite Hd. simpl.
  pose proof (indexed_remove _ (key e) (co_indexed _ Hok)) as Hi.
  pose proof (remove_timers_local (target e) _ _ ts Hi Hi (fun _ _ => iff_refl _)
    (fun t => m_timers_local e _ _ _ _ _ t (co_ok _ Hok) Hs Hd)) as Hr.
  destruct (remove_timers _ ts) as [P1|err] eqn:Ht; simpl; [|done].
  destruct Hr as (out & _ & Ho & _).
  destruct (fired_intro e c cs ts s' P1 out Hok Hs Hd Ht Ho) as (P' & Hf & _).
  unfold fire in Hf. rewrite Hd in Hf. simpl in Hf. rewrite Ht in Hf. simpl in Hf.
  destruct (insert_children P1 cs) as [P2|err] eqn:Hc; simpl in Hf; [|done].
  injection Hf as <-. by exists P2.
Qed.

Lemma fired_config_ok e c cs ts out c' :
  config_ok c -> safe image e c.2 -> fire e c = Some (Ok c') -> fired e c cs ts out c' -> config_ok c'.
Proof.
  intros Hok Hs Hf Hfd. destruct c as [s P], c' as [s' P'].
  pose proof (fd_dispatch _ _ _ _ _ _ Hfd) as Hd. simpl in Hd.
  destruct (m_children_seq e _ _ _ _ _ (co_ok _ Hok) Hs Hd) as (_ & _ & Hn).
  split; simpl.
  - eapply m_ok_fire; [apply Hok|done..].
  - apply Hfd.
  - intros x [(Hx & _)|Hx]%(fd_pends _ _ _ _ _ _ Hfd); simpl in *.
    + apply (co_fresh _ Hok) in Hx. simpl in Hx. rewrite Hn. case_match; lia.
    + apply list_elem_of_lookup_1 in Hx as [i Hi]. pose proof (lookup_lt_Some _ _ _ Hi).
      apply (children_seq _ _ _ _ _ _ _ Hok Hs Hd) in Hi as [-> ->]. simpl.
      rewrite Hn, Z.eqb_refl. lia.
  - intros x [(Hx & _)|Hx]%(fd_pends _ _ _ _ _ _ Hfd); simpl in *.
    + by apply (co_slot _ Hok).
    + destruct (m_children_after e _ _ _ _ _ x (co_ok _ Hok) Hs Hd Hx) as [_ [->|(_ & ? & _)]];
        [|done]. by apply (co_slot _ Hok), Hs.
Qed.

(** A child that reaches another LP is no timeout, and later than any event
    safe there. *)
Lemma remote_child e c cs ts s' y :
  config_ok c -> safe image e c.2 -> m_dispatch e c.1 = Some (Ok (cs, ts, s')) -> y ∈ cs ->
  target y <> target e ->
  kind y <> RetransmissionTimeout
  /\ forall x, safe image x c.2 -> time_ns (key x) < time_ns (key y).
Proof.
  intros Hok Hs Hd Hy Hne.
  destruct (m_children_after e _ _ _ _ _ y (co_ok _ Hok) Hs Hd Hy)
    as [_ [?|(Hk & _ & ch & Hch & Ht)]]; [done|].
  split; [done|]. intros x Hx. pose proof (safe_window _ _ _ Hx e ch (safe_pends _ _ _ Hs) Hch). lia.
Qed.

(** Events of other LPs stay pending and safe. *)
Lemma safe_fired e x c cs ts out c' :
  config_ok c -> safe image e c.2 -> fired e c cs ts out c' -> safe image x c.2 ->
  target x <> target e -> safe image x c'.2.
Proof.
  intros Hok Hs Hfd Hx Hne. pose proof (fd_dispatch _ _ _ _ _ _ Hfd) as Hd.
  destruct (fd_timers _ _ _ _ _ _ Hfd) as (P1 & _ & _ & Ho & _). split.
  - apply (fd_pends _ _ _ _ _ _ Hfd). left. split_and!; [apply Hx|by intros ->|].
    intros [_ [_ ?]]%Ho. done.
  - intros y [(Hy & _)|Hy]%(fd_pends _ _ _ _ _ _ Hfd) Ht; [by apply Hx|].
    apply klt_le, key_time_lt. eapply remote_child; [exact Hok|exact Hs|exact Hd|exact Hy| |done].
    by rewrite Ht.
  - intros y ch [(Hy & _)|Hy]%(fd_pends _ _ _ _ _ _ Hfd) Hch; [by apply (safe_window _ _ _ Hx)|].
    destruct (m_children_after e _ _ _ _ _ y (co_ok _ Hok) Hs Hd Hy) as [Hk%klt_key_time _].
    pose proof (safe_window _ _ _ Hx e ch (safe_pends _ _ _ Hs) Hch). lia.
Qed.

(** The timeouts of another LP are the same before and after. *)
Lemma agree_fired n e c cs ts out c' :
  config_ok c -> safe image e c.2 -> fired e c cs ts out c' -> n <> target e ->
  agree n c.2 c'.2.
Proof.
  intros Hok Hs Hfd Hne x [Hk Ht]. rewrite (fd_pends _ _ _ _ _ _ Hfd x).
  destruct (fd_timers _ _ _ _ _ _ Hfd) as (P1 & _ & _ & Ho & _). split.
  - intros Hx. left. split_and!; [done|by intros ->|]. intros [_ [_ ?]]%Ho. congruence.
  - intros [[? _]|Hx]; [done|]. exfalso.
    destruct (remote_child e c cs ts c'.1 x Hok Hs (fd_dispatch _ _ _ _ _ _ Hfd) Hx) as [? _];
      congruence.
Qed.

Lemma agree_remove n P P' x : indexed P -> indexed P' -> pends x P -> pends x P' ->
  agree n P P' -> agree n (bm_remove (key x) P) (bm_remove (key x) P').
Proof. intros ???? Ha y Hy. rewrite !pends_remove by done. by rewrite (Ha y Hy). Qed.

(** A dispatch that succeeds after one of another LP succeeds before it. *)
Lemma fired_transfer x c c' cs ts out c2 s2 :
  config_ok c -> config_ok c' -> safe image x c.2 -> safe image x c'.2 ->
  agree (target x) c.2 c'.2 -> fired x c cs ts out c2 ->
  m_dispatch x c'.1 = Some (Ok (cs, ts, s2)) ->
  exists P', fire x c' = Some (Ok (s2, P')) /\ fired x c' cs ts out (s2, P').
Proof.
  intros Hok Hok' Hs Hs' Ha Hfd Hd.
  assert (Hl : forall t, t ∈ ts -> st_target t = target x).
  { intros t. eapply m_timers_local; [apply Hok|exact Hs|apply Hfd]. }
  pose proof (remove_timers_local (target x) (bm_remove (key x) c.2) (bm_remove (key x) c'.2) ts
    (indexed_remove _ _ (co_indexed _ Hok)) (indexed_remove _ _ (co_indexed _ Hok'))
    (agree_remove _ _ _ x (co_indexed _ Hok) (co_indexed _ Hok')
       (safe_pends _ _ _ Hs) (safe_pends _ _ _ Hs') Ha) Hl) as Hr.
  destruct (fd_timers _ _ _ _ _ _ Hfd) as (P1 & HP1 & Hi1 & Ho1 & Hp1). rewrite HP1 in Hr.
  destruct Hr as (out' & P1' & (_ & Ho & Hp) & HP1' & Hi' & Ho' & Hp').
  assert (Heq : forall y, y ∈ out <-> y ∈ out').
  { intros y. split; intros Hy.
    - destruct (Ho1 y Hy) as [Hq _]. destruct (decide (y ∈ out')) as [|Hn]; [done|].
      exfalso. assert (Hx : pends y P1) by (by apply Hp). by apply Hp1 in Hx as [_ ?].
    - destruct (Ho y Hy) as [Hq _]. destruct (decide (y ∈ out)) as [|Hn]; [done|].
      exfalso. assert (Hx : pends y P1) by (by apply Hp1). by apply Hp in Hx as [_ ?]. }
  apply (fired_intro x c' cs ts s2 P1' out Hok' Hs' Hd HP1'). split_and!; [done| |].
  - intros r. rewrite Heq. apply Ho'.
  - intros y. rewrite Hp', Heq. done.
Qed.

(** Two safe dispatches of different LPs commute. *)
Lemma fire_diamond e x c c1 c2 :
  config_ok c -> safe image e c.2 -> safe image x c.2 -> target e <> target x ->
  fire e c = Some (Ok c1) -> fire x c1 = Some (Ok c2) ->
  exists d1 d2, fire x c = Some (Ok d1) /\ fire e d1 = Some (Ok d2) /\ config_equiv c2 d2
    /\ safe image x c1.2 /\ safe image e d1.2.
Proof.
  intros Hok He Hx Hne He1 Hx2.
  destruct (fire_Ok _ _ _ Hok He He1) as (cse & tse & oe & Hfe).
  pose proof (fired_config_ok _ _ _ _ _ _ Hok He He1 Hfe) as Hok1.
  pose proof (safe_fired _ _ _ _ _ _ _ Hok He Hfe Hx ltac:(done)) as Hx1.
  destruct (fire_Ok _ _ _ Hok1 Hx1 Hx2) as (csx & tsx & ox & Hfx).
  destruct (m_diamond e x _ _ _ _ _ _ _ _ (co_ok _ Hok) He Hx Hne
              (fd_dispatch _ _ _ _ _ _ Hfe) (fd_dispatch _ _ _ _ _ _ Hfx))
    as (sx & sxe & Hdx & Hde & Heq).
  assert (Ha : agree (target x) c1.2 c.2).
  { intros y Hy. symmetry. eapply (agree_fired (target x) e); eauto. }
  destruct (fired_transfer x c1 c csx tsx ox c2 sx) as (Px & Hx1' & Hfx'); [done..|].
  assert (Hok1' : config_ok (sx, Px)) by exact (fired_config_ok _ _ _ _ _ _ Hok Hx Hx1' Hfx').
  assert (He1' : safe image e Px) by exact (safe_fired _ _ _ _ _ _ _ Hok Hx Hfx' He Hne).
  destruct (fired_transfer e c (sx, Px) cse tse oe c1 sxe) as (P2 & Hd2 & Hfe'); [done..| |done|done|].
  { exact (agree_fired _ _ _ _ _ _ _ Hok Hx Hfx' Hne). }
  exists (sx, Px), (sxe, P2). split_and!; [done..| |done|done]. split; [done|]. simpl.
  apply indexed_ext; [apply Hfx|apply Hfe'|]. intros y.
  rewrite (fd_pends _ _ _ _ _ _ Hfx), (fd_pends _ _ _ _ _ _ Hfe),
    (fd_pends _ _ _ _ _ _ Hfe'), (fd_pends _ _ _ _ _ _ Hfx').
  destruct (fd_timers _ _ _ _ _ _ Hfe) as (? & _ & _ & Hoe & _).
  destruct (fd_timers _ _ _ _ _ _ Hfx) as (? & _ & _ & Hox & _).
  assert (Hce : y ∈ cse -> y <> x /\ y ∉ ox).
  { intros Hy. split.
    - intros ->. eapply (children_fresh e c); [done..|apply Hfe|exact Hy|apply Hx|done].
    - intros [_ [Hk Ht]]%Hox.
      destruct (remote_child e c _ _ _ y Hok He (fd_dispatch _ _ _ _ _ _ Hfe) Hy); congruence. }
  assert (Hcx : y ∈ csx -> y <> e /\ y ∉ oe).
  { intros Hy. split.
    - intros ->. eapply (children_fresh x c); [done..|apply Hfx'|exact Hy|apply He|done].
    - intros [_ [Hk Ht]]%Hoe.
      destruct (remote_child x c _ _ _ y Hok Hx (fd_dispatch _ _ _ _ _ _ Hfx') Hy); congruence. }
  tauto.
Qed.

(** Equivalent configurations fire alike. *)
Lemma fire_equiv e c d c' : config_equiv c d -> fire e c = Some (Ok c') ->
  exists d', fire e d = Some (Ok d') /\ config_equiv c' d'.
Proof.
  destruct c as [s P], d as [s2 P2]. intros [Hs Heq]. simpl in *. subst P2. unfold fire.
  rewrite fueled_bind_Ok.
  intros ([[cs ts] s'] & Hd & (P1 & [= Ht] & (P2 & [= Hc] & [= <-])%fueled_bind_Ok)%fueled_bind_Ok).
  simpl in *. destruct (m_dispatch_proper _ _ _ _ _ _ Hs Hd) as (s2' & -> & Hs'). simpl.
  rewrite Ht. simpl. rewrite Hc. exists (s2', P2). by repeat split.
Qed.

(** ** Schedules

    [H] is an exclusive horizon: [steps H n] is any [n] safe dispatches below
    it, and [drains H n] is [n] dispatches that leave nothing below it. *)

Inductive steps (H : Z) : nat -> M * pending -> M * pending -> Prop :=
| steps_O c : steps H O c c
| steps_S n e c c1 c' :
    safe image e c.2 -> time_ns (key e) < H -> fire e c = Some (Ok c1) -> steps H n c1 c' ->
    steps H (S n) c c'.

Definition drained (H : Z) c : Prop := forall e, pends e c.2 -> H <= time_ns (key e).

Definition drains (H : Z) (n : nat) c c' : Prop := steps H n c c' /\ drained H c'.

Lemma fire_config_ok e c c' :
  config_ok c -> safe image e c.2 -> fire e c = Some (Ok c') -> config_ok c'.
Proof.
  intros Hok Hs Hf. destruct (fire_Ok _ _ _ Hok Hs Hf) as (cs & ts & out & Hfd).
  by eapply fired_config_ok.
Qed.

Lemma steps_config_ok H n c c' : config_ok c -> steps H n c c' -> config_ok c'.
Proof. intros Hok Hst. induction Hst; eauto using fire_config_ok. Qed.

Lemma steps_trans H n m c1 c2 c3 : steps H n c1 c2 -> steps H m c2 c3 -> steps H (n + m) c1 c3.
Proof. induction 1; simpl; [done|]. intros. econstructor; eauto. Qed.

Lemma steps_mono H H' n c c' : H <= H' -> steps H n c c' -> steps H' n c c'.
Proof. intros HH. induction 1; econstructor; eauto with lia. Qed.

Lemma steps_equiv H n c d c' : config_equiv c d -> steps H n c c' ->
  exists d', steps H n d d' /\ config_equiv c' d'.
Proof.
  intros Heq Hst. revert d Heq. induction Hst as [c|n e c c1 c' Hs Ht Hf Hst IH]; intros d Heq.
  - exists d. split; [constructor|done].
  - destruct (fire_equiv _ _ _ _ Heq Hf) as (d1 & Hf1 & Heq1).
    destruct (IH d1 Heq1) as (d' & Hst' & Heq'). exists d'. split; [|done].
    econstructor; [|exact Ht|exact Hf1|exact Hst']. by destruct Heq as [_ <-].
Qed.

Lemma drained_equiv H c d : config_equiv c d -> drained H c -> drained H d.
Proof. intros [_ Heq] Hd. unfold drained. by rewrite <- Heq. Qed.

(** The choice of the first dispatch does not matter: from a configuration that
    drains in [n] dispatches, any safe event below the horizon can go first, and
    the rest drains in [n - 1] to an equivalent configuration. *)
Lemma drains_first H n c c' x :
  config_ok c -> drains H n c c' -> safe image x c.2 -> time_ns (key x) < H ->
  exists m d c'', n = S m /\ fire x c = Some (Ok d) /\ drains H m d c'' /\ config_equiv c' c''.
Proof.
  intros Hok [Hst Hd] Hx Ht. revert Hok Hx.
  induction Hst as [c|n e c c1 c' He Hte Hf Hst IH]; intros Hok Hx.
  { pose proof (Hd x (safe_pends _ _ _ Hx)). lia. }
  destruct (decide (target e = target x)) as [Heq|Hne].
  - assert (e = x) as ->.
    { apply (pends_inj c.2); [apply Hok|apply He|apply Hx|].
      apply kle_antisym; [apply He; [apply Hx|done]|apply Hx; [apply He|done]]. }
    exists n, c1, c'. split_and!; [done..|]. reflexivity.
  - destruct (fire_Ok _ _ _ Hok He Hf) as (cs & ts & out & Hfd).
    destruct (IH Hd (fire_config_ok _ _ _ Hok He Hf)) as (m & c2 & c'' & -> & Hx2 & [Hst2 Hd2] & Heq2).
    { exact (safe_fired _ _ _ _ _ _ _ Hok He Hfd Hx ltac:(done)). }
    destruct (fire_diamond e x c c1 c2) as (d1 & d2 & Hd1 & He2 & Heqd & _ & Hs2); [done..|].
    destruct (steps_equiv _ _ _ _ _ Heqd Hst2) as (d' & Hst' & Heq').
    exists (S m), d1, d'. split_and!; [done|done| |by etrans].
    split; [|by eapply drained_equiv]. econstructor; eauto.
Qed.

(** So the number of dispatches and the result of a drain do not depend on the
    schedule: what any schedule has done is a part of the drain. *)
Lemma drains_steps H n c c' k d :
  config_ok c -> drains H n c c' -> steps H k c d ->
  exists m c'', n = (k + m)%nat /\ drains H m d c'' /\ config_equiv c' c''.
Proof.
  intros Hok Hdr Hst. revert n c' Hok Hdr.
  induction Hst as [c|k e c c1 d He Ht Hf Hst IH]; intros n c' Hok Hdr.
  { exists n, c'. split_and!; [done..|]. reflexivity. }
  destruct (drains_first _ _ _ _ _ Hok Hdr He Ht) as (m & d1 & c1' & -> & Hf1 & Hdr1 & Heq1).
  rewrite Hf in Hf1. injection Hf1 as <-.
  destruct (IH _ _ (fire_config_ok _ _ _ Hok He Hf) Hdr1) as (m' & c'' & -> & Hdr' & Heq').
  exists m', c''. split_and!; [lia|done|by etrans].
Qed.

Lemma drains_unique H n m c c1 c2 :
  config_ok c -> drains H n c c1 -> drains H m c c2 -> n = m /\ config_equiv c1 c2.
Proof.
  intros Hok H1 [Hst Hd2].
  destruct (drains_steps _ _ _ _ _ _ Hok H1 Hst) as (k & c3 & -> & [Hst3 _] & Heq).
  destruct k as [|k]; inversion Hst3 as [|? e ? ? ? Hs Ht]; subst; [split; [lia|done]|].
  pose proof (Hd2 e (safe_pends _ _ _ Hs)). lia.
Qed.

(** *** The scalar schedule: the least pending key first *)

Inductive sruns (E : Z) : nat -> M * pending -> M * pending -> Prop :=
| sruns_stop c :
    (forall k e, bm_first c.2 = Some (k, e) -> E <= time_ns k) -> sruns E O c c
| sruns_next n k e c c1 c' :
    bm_first c.2 = Some (k, e) -> time_ns k < E -> fire e c = Some (Ok c1) -> sruns E n c1 c' ->
    sruns E (S n) c c'.

Hypothesis positive_lookahead : forall ch, ch ∈ im_channels image -> 0 < ch_min_delay_ns ch.

Lemma first_safe c k e : config_ok c -> bm_first c.2 = Some (k, e) -> k = key e /\ safe image e c.2.
Proof.
  destruct c as [s P]. intros Hok Hf. destruct P as [|kv P]; [done|]. injection Hf as ->.
  pose proof (co_indexed _ Hok) as Hix. simpl in *.
  assert (k = key e) as -> by (apply (ix_key _ Hix); left).
  assert (Hmin : forall e', pends e' ((key e, e) :: P) -> kle (key e) (key e')).
  { intros e' He'. exact (bm_first_min _ _ _ _ (ix_wf _ Hix) He'). }
  split; [done|]. split.
  - left.
  - intros e' He' _. by apply Hmin.
  - intros e' ch He'%Hmin%kle_key_time Hch%positive_lookahead. lia.
Qed.

Lemma first_drained E c : config_ok c ->
  (forall k e, bm_first c.2 = Some (k, e) -> E <= time_ns k) <-> drained E c.
Proof.
  destruct c as [s P]. intros Hok. pose proof (co_indexed _ Hok) as Hix. simpl in *.
  destruct P as [|[k e] P]; simpl; split.
  - intros _ e He. by apply not_elem_of_nil in He.
  - done.
  - intros Hf e' He'. specialize (Hf k e eq_refl).
    pose proof (kle_key_time _ _ (bm_first_min _ _ _ _ (ix_wf _ Hix) He')). simpl in *. lia.
  - intros Hd k' e' [= -> ->]. assert (k' = key e') as -> by (apply (ix_key _ Hix); left). apply Hd. left.
Qed.

Lemma sruns_drains E n c c' : config_ok c -> sruns E n c c' -> drains E n c c'.
Proof.
  intros Hok Hr. induction Hr as [c Hf|n k e c c1 c' Hf Ht Hfe Hr IH].
  - split; [constructor|]. by apply first_drained.
  - destruct (first_safe _ _ _ Hok Hf) as [-> Hs].
    destruct (IH (fire_config_ok _ _ _ Hok Hs Hfe)). split; [|done]. econstructor; eauto.
Qed.

(** Whatever safe schedule drains below [E], the scalar one does too, in as many
    dispatches, to an equivalent configuration. *)
Lemma drains_sruns E n c c' : config_ok c -> drains E n c c' ->
  exists c'', sruns E n c c'' /\ config_equiv c' c''.
Proof.
  revert c c'. induction n as [|n IH]; intros c c' Hok Hdr.
  - destruct Hdr as [Hst Hd]. inversion Hst; subst. exists c'. split; [|reflexivity].
    constructor. by apply first_drained.
  - assert (Hfirst : exists k e, bm_first c.2 = Some (k, e) /\ time_ns k < E).
    { destruct Hdr as [Hst _]. inversion Hst as [|? e ? ? ? He Ht]; subst.
      destruct c as [s [|[k e'] P]]; simpl in *.
      - pose proof (safe_pends _ _ _ He) as Hp. by apply not_elem_of_nil in Hp.
      - exists k, e'. split; [done|].
        pose proof (kle_key_time _ _ (bm_first_min _ _ _ _ (ix_wf _ (co_indexed _ Hok))
          (safe_pends _ _ _ He))). simpl in *. lia. }
    destruct Hfirst as (k & e & Hf & Ht). destruct (first_safe _ _ _ Hok Hf) as [-> Hs].
    destruct (drains_first _ _ _ _ _ Hok Hdr Hs Ht) as (m & d & c1 & [= <-] & Hfe & Hdr' & Heq).
    destruct (IH _ _ (fire_config_ok _ _ _ Hok Hs Hfe) Hdr') as (c2 & Hr & Heq2).
    exists c2. split; [|by etrans]. econstructor; eauto.
Qed.

(** The initial configuration. *)
Lemma initial_config_ok s P :
  m_new image = Some (Ok s) -> initial_pending image = Ok P ->
  (forall e, e ∈ im_initial_events image -> is_Some (node_slot image (target e))) ->
  config_ok (s, P).
Proof.
  intros Hn Hi Hslot.
  assert (Hp : indexed P /\ forall e, pends e P -> e ∈ im_initial_events image).
  { revert Hi. unfold initial_pending.
    apply (try_fold_ind (fun P => indexed P /\ forall e, pends e P -> e ∈ im_initial_events image)).
    - intros P1 e P2 He [Hix Hin]. unfold map_insert.
      destruct (bm_get (key e) P1) eqn:Eg; [done|]. intros [= <-].
      split; [by apply indexed_insert|]. intros e' [->|?]%pends_insert; auto.
    - split; [split; [constructor|]|]; intros; by apply not_elem_of_nil in H. }
  destruct Hp as [Hix Hin]. split; simpl.
  - by apply m_new_ok.
  - done.
  - intros e He. apply m_new_fresh; auto.
  - auto.
Qed.
End machine.
