(* ===== verification/ScalarLoop.v ===== *)
(** * The scalar event loop (executor/src/scalar.rs)

    [run_scalar] pops the least pending event of the future-event list,
    dispatches it, removes the timers it superseded and inserts its children,
    until the least key passes the stop. The loop runs on any transition machine
    and any heap; its fuel bounds the number of events it dispatches. *)

From S2P Require Import Prelude OrdMap Event ExecError Fel Image Machine.

Section loop.
Context {M R H : Type} `{HM : Machine M R} `{HH : BinaryHeap H}.

(** The image's initial events as the run's future-event list. *)
Definition initial_event_queue (image : SimulationImage)
  : result ExecutionError (FutureEvents H) :=
  r ← try_fold (fun '(keys, events) event =>
        let '(fresh, keys) := bs_insert (key event) keys in
        if negb fresh then Err (DuplicateEventKey (key event))
        else events ← insert events event; Ok (keys, events))
      ([], fel_new) (im_initial_events image);
  Ok r.2.

(** The loop's condition: the next event is inside the run. *)
Definition scalar_continues (stop_time_ns : Z) (exclusive_horizon_ns : option Z)
    (events : FutureEvents H) : bool :=
  match peek_key events with
  | Some key =>
      (time_ns key <=? stop_time_ns)
      && match exclusive_horizon_ns with
         | None => true
         | Some horizon_ns => time_ns key <? horizon_ns
         end
  | None => false
  end.

(** The loop's body after the pop. *)
Definition scalar_event (event : Event) (transitions : M) (events : FutureEvents H)
  : fueled ExecutionError (M * FutureEvents H) :=
  r ← m_dispatch event transitions;
  let '(children, superseded, transitions) := r in
  events ← lift_result (try_fold (fun events timer =>
             r ← fel_remove_superseded_timer events timer; Ok r.2) events superseded);
  events ← lift_result (try_fold insert events children);
  Some (Ok (transitions, events)).

Fixpoint scalar_loop (fuel : nat) (stop_time_ns : Z) (exclusive_horizon_ns : option Z)
    (s : M * FutureEvents H) : fueled ExecutionError (M * FutureEvents H) :=
  if scalar_continues stop_time_ns exclusive_horizon_ns s.2 then
    match fuel with
    | O => None
    | S fuel =>
        r ← lift_result (pop s.2);
        event ← or_panic r.1;
        s ← scalar_event event s.1 r.2;
        scalar_loop fuel stop_time_ns exclusive_horizon_ns s
    end
  else Some (Ok s).

Definition run_scalar_events (fuel : nat) (image : SimulationImage)
    (exclusive_horizon_ns : option Z) : fueled ExecutionError (M * list Event) :=
  transitions ← m_new image;
  events ← lift_result (initial_event_queue image);
  r ← scalar_loop fuel (im_stop_time_ns image) exclusive_horizon_ns (transitions, events);
  pending_events ← lift_result (into_sorted_vec r.2);
  Some (Ok (r.1, pending_events)).

Definition run_scalar (fuel : nat) (image : SimulationImage) (exclusive_horizon_ns : option Z)
  : fueled ExecutionError R :=
  r ← run_scalar_events fuel image exclusive_horizon_ns;
  Some (Ok (m_finish r.1 r.2)).
End loop.

(** The run's exclusive end: the stop is inclusive, the horizon exclusive. *)
Definition run_end (image : SimulationImage) (exclusive_horizon_ns : option Z) : Z :=
  let configured_stop := im_stop_time_ns image + 1 in
  match exclusive_horizon_ns with
  | None => configured_stop
  | Some horizon_ns => Z.min horizon_ns configured_stop
  end.

(** ** The loop follows the scalar schedule of the machine *)

Section spec.
Context {M R H : Type} `{HM : Machine M R} (image : SimulationImage)
  `{HL : !MachineLaws M R image} `{HH : BinaryHeap H} `{HHL : !BinaryHeapLaws H}.
Hypothesis positive_lookahead : forall ch, ch ∈ im_channels image -> 0 < ch_min_delay_ns ch.
Implicit Types (q : FutureEvents H) (P : pending) (c : M * pending).

Lemma removals_rel q P ts : fel_rel q P ->
  match remove_timers P ts with
  | Ok P' => exists q', try_fold (fun q t => r ← fel_remove_superseded_timer q t; Ok r.2) q ts
      = Ok q' /\ fel_rel q' P'
  | Err err => try_fold (fun q t => r ← fel_remove_superseded_timer q t; Ok r.2) q ts = Err err
  end.
Proof.
  revert q P. induction ts as [|t ts IH]; intros q P Hr; unfold remove_timers; simpl; [eauto|].
  pose proof (remove_rel _ _ t Hr) as Hs.
  destruct (remove_superseded_timer P t) as [[e P1]|err]; simpl.
  - destruct Hs as (q1 & -> & Hr1). simpl. exact (IH _ _ Hr1).
  - by rewrite Hs.
Qed.

Lemma inserts_rel q P cs P' : fel_rel q P -> insert_children P cs = Ok P' ->
  exists q', try_fold insert q cs = Ok q' /\ fel_rel q' P'.
Proof.
  revert q P. induction cs as [|e cs IH]; intros q P Hr Hi; unfold insert_children in Hi;
    cbn [try_fold] in *.
  - injection Hi as <-. eauto.
  - apply bind_Ok in Hi as (P1 & H1 & Hi).
    destruct (insert_rel _ _ _ _ Hr H1) as (q1 & -> & Hr1). simpl. exact (IH _ _ Hr1 Hi).
Qed.

(** The body of the loop is the dispatch on the pending events. *)
Lemma scalar_event_rel e s P q :
  config_ok image (s, P) -> safe image e P -> fel_rel q (bm_remove (key e) P) ->
  match fire e (s, P) with
  | Some (Ok (s', P')) => exists q', scalar_event e s q = Some (Ok (s', q')) /\ fel_rel q' P'
  | Some (Err _) => exists err, scalar_event e s q = Some (Err err)
  | None => scalar_event e s q = None
  end.
Proof.
  intros Hok Hs Hr. unfold scalar_event.
  destruct (m_dispatch e s) as [[[[cs ts] s1]|err]|] eqn:Hd;
    [|unfold fire; simpl; rewrite Hd; simpl; eauto..].
  pose proof (fire_dispatch image e (s, P) cs ts s1 Hok Hs Hd) as Hf. simpl in Hf.
  pose proof (removals_rel _ _ ts Hr) as Hq. simpl.
  destruct (remove_timers (bm_remove (key e) P) ts) as [P1|err].
  - destruct Hf as (P' & Hi & ->). destruct Hq as (q1 & -> & Hr1). simpl.
    destruct (inserts_rel _ _ _ _ Hr1 Hi) as (q2 & -> & Hr2). simpl. eauto.
  - rewrite Hf, Hq. simpl. eauto.
Qed.

Lemma scalar_continues_rel h q P : fel_rel q P ->
  scalar_continues (im_stop_time_ns image) h q = true
  <-> exists k e, bm_first P = Some (k, e) /\ time_ns k < run_end image h.
Proof.
  intros Hr. unfold scalar_continues, run_end. rewrite (peek_rel _ _ Hr).
  destruct P as [|[k e] P]; simpl; [split; [done|by intros (? & ? & ? & _)]|].
  rewrite andb_true_iff. split.
  - intros [H1 H2]. exists k, e. split; [done|]. case_match; lia.
  - intros (? & ? & [= <- <-] & Hlt). case_match; [split; lia|split; [lia|done]].
Qed.

Lemma scalar_loop_stop fuel h s q P : fel_rel q P ->
  (forall k e, bm_first P = Some (k, e) -> run_end image h <= time_ns k) ->
  scalar_loop fuel (im_stop_time_ns image) h (s, q) = Some (Ok (s, q)).
Proof.
  intros Hr Hf.
  assert (Hc : scalar_continues (im_stop_time_ns image) h q = false).
  { apply not_true_is_false. intros (k & e & Hk & Hlt)%(scalar_continues_rel h q P Hr).
    apply Hf in Hk. lia. }
  destruct fuel; simpl; by rewrite Hc.
Qed.

Lemma scalar_loop_next fuel h s q P k e :
  config_ok image (s, P) -> fel_rel q P -> bm_first P = Some (k, e) ->
  time_ns k < run_end image h ->
  match fire e (s, P) with
  | Some (Ok (s1, P1)) => exists q1, fel_rel q1 P1
      /\ scalar_loop (S fuel) (im_stop_time_ns image) h (s, q)
         = scalar_loop fuel (im_stop_time_ns image) h (s1, q1)
  | Some (Err _) =>
      exists err, scalar_loop (S fuel) (im_stop_time_ns image) h (s, q) = Some (Err err)
  | None => scalar_loop (S fuel) (im_stop_time_ns image) h (s, q) = None
  end.
Proof.
  intros Hok Hr Hf Hlt. cbn [scalar_loop fst snd].
  rewrite (proj2 (scalar_continues_rel h q P Hr)) by eauto.
  destruct (first_safe image positive_lookahead (s, P) k e Hok Hf) as [-> Hs].
  destruct (pop_rel _ _ Hr) as (q1 & Hp & Hr1). simpl in *. rewrite Hp, Hf. simpl.
  assert (Ht : tail P = bm_remove (key e) P).
  { destruct P as [|kv P]; [done|]. injection Hf as ->. simpl.
    by rewrite (proj2 (keqb_spec (key e) (key e)) eq_refl). }
  rewrite Ht in Hr1. pose proof (scalar_event_rel e s P q1 Hok Hs Hr1) as Hev.
  destruct (fire e (s, P)) as [[[s3 P3]|err]|].
  - destruct Hev as (q3 & Hq3 & Hr3). exists q3. split; [done|]. by rewrite Hq3.
  - destruct Hev as (err' & ->). simpl. eauto.
  - by rewrite Hev.
Qed.

Lemma first_cases E P :
  (exists k e, bm_first P = Some (k, e) /\ time_ns k < E)
  \/ forall k e, bm_first P = Some (k, e) -> E <= time_ns k.
Proof.
  destruct (bm_first P) as [[k e]|]; [|by right].
  destruct (decide (time_ns k < E)); [left; eauto|right]. intros ? ? [= <- <-]. lia.
Qed.

(** A scalar run that returns has followed the scalar schedule. *)
Lemma scalar_loop_sruns fuel h s q P s' q' :
  config_ok image (s, P) -> fel_rel q P ->
  scalar_loop fuel (im_stop_time_ns image) h (s, q) = Some (Ok (s', q')) ->
  exists n P', (n <= fuel)%nat /\ sruns (run_end image h) n (s, P) (s', P') /\ fel_rel q' P'.
Proof.
  revert s q P. induction fuel as [|fuel IH]; intros s q P Hok Hr Hl;
    (destruct (first_cases (run_end image h) P) as [(k & e & Hf & Hlt)|Hn];
     [|rewrite (scalar_loop_stop _ _ _ _ P) in Hl by done; injection Hl as <- <-;
       exists O, P; split_and!; [lia|by constructor|done]]).
  - simpl in Hl. by rewrite (proj2 (scalar_continues_rel h q P Hr)) in Hl by eauto.
  - destruct (first_safe image positive_lookahead (s, P) k e Hok Hf) as [_ Hs].
    pose proof (scalar_loop_next fuel h s q P k e Hok Hr Hf Hlt) as Hx.
    destruct (fire e (s, P)) as [[[s1 P1]|err]|] eqn:Hfire.
    + destruct Hx as (q1 & Hr1 & Hx). rewrite Hx in Hl.
      destruct (IH s1 q1 P1) as (n & P' & Hn & Hrun & Hr'); [|done..|].
      { exact (fire_config_ok image e (s, P) (s1, P1) Hok Hs Hfire). }
      exists (S n), P'. split_and!; [lia| |done]. econstructor; [exact Hf|done|exact Hfire|done].
    + destruct Hx as (err' & Hx). rewrite Hx in Hl. done.
    + rewrite Hx in Hl. done.
Qed.

(** And the scalar schedule is a run that returns, within its number of
    dispatches. *)
Lemma sruns_scalar_loop n h s q P c' fuel :
  config_ok image (s, P) -> fel_rel q P -> sruns (run_end image h) n (s, P) c' ->
  (n <= fuel)%nat ->
  exists q', scalar_loop fuel (im_stop_time_ns image) h (s, q) = Some (Ok (c'.1, q'))
    /\ fel_rel q' c'.2.
Proof.
  intros Hok Hr Hrun. remember (s, P) as c eqn:Ec. revert s P q fuel Ec Hok Hr.
  induction Hrun as [c Hf|n k e c c1 c' Hf Hlt Hfire Hrun IH]; intros s P q fuel -> Hok Hr Hn.
  - exists q. split; [|done]. by apply (scalar_loop_stop _ _ _ _ P).
  - destruct fuel as [|fuel]; [lia|].
    destruct (first_safe image positive_lookahead (s, P) k e Hok Hf) as [_ Hs].
    pose proof (scalar_loop_next fuel h s q P k e Hok Hr Hf Hlt) as Hx. rewrite Hfire in Hx.
    destruct c1 as [s1 P1]. destruct Hx as (q1 & Hr1 & ->).
    apply (IH s1 P1); [done| |done|lia].
    exact (fire_config_ok image e (s, P) (s1, P1) Hok Hs Hfire).
Qed.

(** ** The initial events *)

Lemma initial_queue_rel l keys q P :
  fel_rel q P -> (forall k, k ∈ keys <-> k ∈ P.*1) ->
  match try_fold map_insert P l with
  | Ok P' => exists keys' q',
      try_fold (fun '(keys, events) event =>
        let '(fresh, keys) := bs_insert (key event) keys in
        if negb fresh then Err (DuplicateEventKey (key event))
        else events ← insert events event; Ok (keys, events)) (keys, q) l
      = Ok (keys', q') /\ fel_rel q' P'
  | Err err =>
      try_fold (fun '(keys, events) event =>
        let '(fresh, keys) := bs_insert (key event) keys in
        if negb fresh then Err (DuplicateEventKey (key event))
        else events ← insert events event; Ok (keys, events)) (keys, q) l = Err err
  end.
Proof.
  revert keys q P. induction l as [|e l IH]; intros keys q P Hr Hk; cbn [try_fold]; [eauto|].
  unfold bs_insert. cbn [fst snd].
  destruct (bm_get (key e) P) eqn:Eg.
  - assert (Hm : map_insert P e = Err (DuplicateEventKey (key e)))
      by (unfold map_insert; by rewrite Eg).
    rewrite Hm. simpl. replace (bs_contains (key e) keys) with true; [done|]. symmetry.
    apply bs_contains_spec, Hk. apply bm_get_elem_of in Eg; [|apply Hr].
    by apply (list_elem_of_fmap_2 fst) in Eg.
  - assert (Hm : map_insert P e = Ok (bm_insert (key e) e P)) by (unfold map_insert; by rewrite Eg).
    rewrite Hm. replace (bs_contains (key e) keys) with false.
    2:{ symmetry. apply not_true_is_false. intros Hc%bs_contains_spec.
        apply bm_get_None in Eg. by apply Eg, Hk. }
    destruct (insert_rel _ _ _ _ Hr Hm) as (q1 & Hq1 & Hr1). simpl. rewrite Hq1. simpl.
    apply IH; [done|]. intros k. rewrite bs_add_elem_of, Hk. rewrite !list_elem_of_fmap. split.
    + intros [->|([k' e'] & -> & Hin)].
      * exists (key e, e). split; [done|]. apply bm_insert_elem_of; [apply Hr|]. by left.
      * destruct (decide (k' = key e)) as [->|Hne].
        { apply bm_get_None in Eg. exfalso. apply Eg. by apply (list_elem_of_fmap_2 fst) in Hin. }
        exists (k', e'). split; [done|]. apply bm_insert_elem_of; [apply Hr|]. by right.
    + intros ([k' e'] & -> & [Heq|Hin]%bm_insert_elem_of_1);
        [left; by injection Heq as -> ->|right; eauto].
Qed.

Lemma initial_event_queue_rel :
  match initial_pending image with
  | Ok P => exists q, initial_event_queue image = Ok q /\ fel_rel q P
  | Err err => initial_event_queue (H := H) image = Err err
  end.
Proof.
  unfold initial_pending, initial_event_queue.
  pose proof (initial_queue_rel (im_initial_events image) [] fel_new [] fel_new_rel) as Hi.
  destruct (try_fold map_insert [] _) as [P|err].
  - destruct Hi as (keys & q & -> & Hr); [done|]. simpl. eauto.
  - by rewrite Hi.
Qed.

(** ** The whole run *)

Hypothesis initial_targets : forall e, e ∈ im_initial_events image -> is_Some (node_slot image (target e)).

(** A scalar run returns exactly the result of the scalar schedule. *)
Lemma run_scalar_Ok fuel h (r : R) :
  run_scalar (H := H) fuel image h = Some (Ok r) <->
  exists s P n c', m_new image = Some (Ok s) /\ initial_pending image = Ok P /\ (n <= fuel)%nat
    /\ sruns (run_end image h) n (s, P) c' /\ r = m_finish c'.1 c'.2.*2.
Proof.
  unfold run_scalar, run_scalar_events. pose proof initial_event_queue_rel as Hq.
  destruct (m_new image) as [[s|err]|] eqn:Hm;
    [|split; [done|by intros (? & ? & ? & ? & ? & _)]..].
  destruct (initial_pending image) as [P|err] eqn:HP.
  2:{ rewrite Hq. split; [done|by intros (? & ? & ? & ? & _ & ? & _)]. }
  destruct Hq as (q & -> & Hr). pose proof (initial_config_ok image s P Hm HP initial_targets) as Hok.
  cbn [lift_result mbind fueled_bind]. split.
  - intros Hrun. apply fueled_bind_Ok in Hrun as ([s' l] & Hrun & [= <-]).
    apply fueled_bind_Ok in Hrun as ([s1 q1] & Hloop & Hrun).
    simpl in Hrun. destruct (into_sorted_vec q1) as [l'|] eqn:Hl'; [|done]. injection Hrun as <- <-.
    destruct (scalar_loop_sruns fuel h s q P s1 q1 Hok Hr Hloop) as (n & P' & Hn & Hsr & Hr').
    rewrite (drain_rel _ _ Hr') in Hl'. injection Hl' as <-. exists s, P, n, (s1, P').
    by split_and!.
  - intros (? & ? & n & c' & [= <-] & [= <-] & Hn & Hsr & ->).
    destruct (sruns_scalar_loop n h s q P c' fuel Hok Hr Hsr Hn) as (q' & -> & Hr').
    cbn [mbind fueled_bind fst snd]. by rewrite (drain_rel _ _ Hr').
Qed.
End spec.
