(* ===== verification/Rounds.v ===== *)
(** * The safe-horizon round executor (executor/src/safe_horizon.rs)

    [RoundExecutor] keeps one ordered map of future events per LP and a lazy
    heap of LP frontiers. A round takes the least frontier, adds the smallest
    channel delay, drains every LP whose frontier lies below that horizon, and
    then exchanges the events the LPs sent each other. The main theorem: it
    returns the result of the scalar event loop. *)

From Stdlib Require Import QArith.
From S2P Require Import Prelude OrdMap Event ExecError Fel Image Radix Machine ScalarLoop.
#[local] Open Scope Z_scope.

Definition TIME_AFTER_U64_MAX : Z := u64_modulus.

Record LpRoundWork := mkLpRoundWork {
  lw_node : NodeId;
  lw_events_processed : Z;
  lw_same_time_continuations : Z;
  lw_fallback_classified_pushes : Z;
}.

(** The exact quotient stands for the [f64] of [parallel_efficiency]. *)
Record RoundMetrics := mkRoundMetrics {
  rm_frontier_ns : Z;
  rm_exclusive_horizon_ns : Z;
  rm_horizon_advance_ns : Z;
  rm_events_processed : Z;
  rm_active_lp_count : nat;
  rm_lp_work : list LpRoundWork;
  rm_parallel_efficiency : Q;
  rm_messages_exchanged : Z;
  rm_frontier_updates : Z;
  rm_frontier_heap_pops : Z;
  rm_physical_lp_probes : Z;
}.

(** ** The frontier index *)

Record FrontierEntry := mkFrontier {
  fe_time_ns : Z;
  fe_node : NodeId;
  fe_generation : Z;
  fe_lp_slot : nat;
}.

(** The derived [Ord]. *)
Definition frontier_tuple (e : FrontierEntry) : Z * (Z * (Z * Z)) :=
  (fe_time_ns e, (fe_node e, (fe_generation e, Z.of_nat (fe_lp_slot e)))).

Lemma frontier_tuple_inj a b : frontier_tuple a = frontier_tuple b -> a = b.
Proof. destruct a, b. unfold frontier_tuple. simpl. intros [= -> -> -> ?%Nat2Z.inj]. by subst. Qed.

#[export] Instance FrontierEntry_ord : OrdKey FrontierEntry :=
  ord_by frontier_tuple frontier_tuple_inj.

(** [BinaryHeap<Reverse<FrontierEntry>>] as the list of its pops: the order is
    total, so the least entry is determined. *)
Fixpoint frontier_push (entry : FrontierEntry) (heap : list FrontierEntry)
  : list FrontierEntry :=
  match heap with
  | [] => [entry]
  | least :: rest =>
      if kleb entry least then entry :: heap else least :: frontier_push entry rest
  end.

Record OwnerFrontierIndex := mkFrontierIndex {
  fi_heap : list FrontierEntry;
  fi_generations : list Z;
}.

Definition frontier_new (lp_count : nat) : OwnerFrontierIndex :=
  mkFrontierIndex [] (replicate lp_count 0).

(** The counters [physical_lp_probes] and [heap_pops] are passed in and out. *)
Definition frontier_update (index : OwnerFrontierIndex) (lp_slot : nat) (node : NodeId)
    (next : option EventKey) (physical_lp_probes : Z)
  : fueled ExecutionError (OwnerFrontierIndex * Z) :=
  let physical_lp_probes := saturating_add physical_lp_probes 1 in
  current ← or_panic (fi_generations index !! lp_slot);
  generation ← lift_result (ok_or (checked_add current 1) (CounterOverflow node));
  let generations := <[lp_slot := generation]> (fi_generations index) in
  let heap :=
    match next with
    | Some key => frontier_push (mkFrontier (time_ns key) node generation lp_slot) (fi_heap index)
    | None => fi_heap index
    end in
  Some (Ok (mkFrontierIndex heap generations, physical_lp_probes)).

(** The loop of [peek_min] on the heap's pops. *)
Fixpoint peek_min_from (generations : list Z) (heap : list FrontierEntry)
    (heap_pops physical_lp_probes : Z)
  : fueled ExecutionError (option FrontierEntry * list FrontierEntry * Z * Z) :=
  match heap with
  | [] => Some (Ok (None, [], heap_pops, physical_lp_probes))
  | entry :: rest =>
      let physical_lp_probes := saturating_add physical_lp_probes 1 in
      generation ← or_panic (generations !! fe_lp_slot entry);
      if generation =? fe_generation entry then
        Some (Ok (Some entry, heap, heap_pops, physical_lp_probes))
      else peek_min_from generations rest (saturating_add heap_pops 1) physical_lp_probes
  end.

Definition peek_min (index : OwnerFrontierIndex) (heap_pops physical_lp_probes : Z)
  : fueled ExecutionError (option FrontierEntry * OwnerFrontierIndex * Z * Z) :=
  r ← peek_min_from (fi_generations index) (fi_heap index) heap_pops physical_lp_probes;
  let '(entry, heap, heap_pops, physical_lp_probes) := r in
  Some (Ok (entry, mkFrontierIndex heap (fi_generations index), heap_pops, physical_lp_probes)).

Definition pop_before (index : OwnerFrontierIndex) (exclusive_horizon_ns : Z)
    (heap_pops physical_lp_probes : Z)
  : fueled ExecutionError (option FrontierEntry * OwnerFrontierIndex * Z * Z) :=
  r ← peek_min index heap_pops physical_lp_probes;
  let '(entry, index, heap_pops, physical_lp_probes) := r in
  match entry with
  | None => Some (Ok (None, index, heap_pops, physical_lp_probes))
  | Some entry =>
      if exclusive_horizon_ns <=? fe_time_ns entry then
        Some (Ok (None, index, heap_pops, physical_lp_probes))
      else
        popped ← or_panic (head (fi_heap index));
        Some (Ok (Some popped, mkFrontierIndex (tail (fi_heap index)) (fi_generations index),
                  saturating_add heap_pops 1, physical_lp_probes))
  end.

(** The loop that collects the round's active entries; every iteration pops an
    entry, so the heap's length is enough fuel. *)
Fixpoint collect_active (fuel : nat) (index : OwnerFrontierIndex) (exclusive_horizon_ns : Z)
    (heap_pops physical_lp_probes : Z)
  : fueled ExecutionError (list FrontierEntry * OwnerFrontierIndex * Z * Z) :=
  r ← pop_before index exclusive_horizon_ns heap_pops physical_lp_probes;
  let '(entry, index, heap_pops, physical_lp_probes) := r in
  match entry, fuel with
  | None, _ => Some (Ok ([], index, heap_pops, physical_lp_probes))
  | Some _, O => None
  | Some entry, S fuel =>
      r ← collect_active fuel index exclusive_horizon_ns heap_pops physical_lp_probes;
      let '(active, index, heap_pops, physical_lp_probes) := r in
      Some (Ok (entry :: active, index, heap_pops, physical_lp_probes))
  end.

(** ** The executor *)

Record RoundExecutor (M : Type) := mkExecutor {
  ex_transitions : M;
  ex_futures : list (bmap EventKey Event);
  ex_pending_keys : bset EventKey;
  ex_frontier : OwnerFrontierIndex;
  ex_minimum_lookahead_ns : option Z;
}.
Arguments mkExecutor {M} _ _ _ _ _.
Arguments ex_transitions {M} _.
Arguments ex_futures {M} _.
Arguments ex_pending_keys {M} _.
Arguments ex_frontier {M} _.
Arguments ex_minimum_lookahead_ns {M} _.

#[export] Instance eta_executor M : RecordEta (RoundExecutor M) := fun ex =>
  mkExecutor (ex_transitions ex) (ex_futures ex) (ex_pending_keys ex) (ex_frontier ex)
    (ex_minimum_lookahead_ns ex).

(** The locals of [drain_lp]. *)
Record Drain (M : Type) := mkDrain {
  dn_executor : RoundExecutor M;
  dn_continuation : option Event;
  dn_events_processed : Z;
  dn_same_time_continuations : Z;
  dn_fallback_classified_pushes : Z;
  dn_outbox : list Event;
}.
Arguments mkDrain {M} _ _ _ _ _ _.
Arguments dn_executor {M} _.
Arguments dn_continuation {M} _.
Arguments dn_events_processed {M} _.
Arguments dn_same_time_continuations {M} _.
Arguments dn_fallback_classified_pushes {M} _.
Arguments dn_outbox {M} _.

#[export] Instance eta_drain M : RecordEta (Drain M) := fun d =>
  mkDrain (dn_executor d) (dn_continuation d) (dn_events_processed d)
    (dn_same_time_continuations d) (dn_fallback_classified_pushes d) (dn_outbox d).

Record DrainedLp := mkDrained { dl_work : LpRoundWork; dl_outbox : list Event }.

(** [BTreeMap::first_key_value().map(|(key, _)| *key)]. *)
Definition first_key (future : bmap EventKey Event) : option EventKey := fst <$> bm_first future.

(** [Iterator::min]. *)
Definition list_min (l : list Z) : option Z :=
  match l with
  | [] => None
  | x :: l => Some (foldl Z.min x l)
  end.

Section executor.
Context {M R : Type} `{HM : Machine M R} (image : SimulationImage).
Implicit Types (ex : RoundExecutor M) (d : Drain M).

Definition update_frontier ex (lp_slot : nat) (physical_lp_probes : Z)
  : fueled ExecutionError (RoundExecutor M * Z) :=
  let physical_lp_probes := saturating_add physical_lp_probes 1 in
  node ← or_panic (im_nodes image !! lp_slot);
  future ← or_panic (ex_futures ex !! lp_slot);
  r ← frontier_update (ex_frontier ex) lp_slot (nd_id node) (first_key future) physical_lp_probes;
  Some (Ok (ex <| ex_frontier := r.1 |>, r.2)).

(** [RoundExecutor::new]: the loop over the initial events. *)
Definition index_initial_event
    (s : list (bmap EventKey Event) * bset EventKey * bset Z) (event : Event)
  : fueled ExecutionError (list (bmap EventKey Event) * bset EventKey * bset Z) :=
  let '(futures, pending_keys, touched) := s in
  let '(fresh, pending_keys) := bs_insert (key event) pending_keys in
  if negb fresh then Some (Err (DuplicateEventKey (key event))) else
  lp_slot ← lift_result (ok_or (node_slot image (target event)) (UnknownNode (target event)));
  future ← or_panic (futures !! lp_slot);
  match bm_get (key event) future with
  | Some _ => Some (Err (DuplicateEventKey (key event)))
  | None => Some (Ok (<[lp_slot := bm_insert (key event) event future]> futures, pending_keys,
                      bs_add (Z.of_nat lp_slot) touched))
  end.

Definition executor_new : fueled ExecutionError (RoundExecutor M) :=
  transitions ← m_new image;
  r ← fueled_fold index_initial_event
        (replicate (length (im_nodes image)) [], [], []) (im_initial_events image);
  let '(futures, pending_keys, touched) := r in
  let minimum_lookahead_ns := list_min (ch_min_delay_ns <$> im_channels image) in
  if bool_decide (minimum_lookahead_ns = Some 0) then Some (Err NonPositiveLookahead) else
  r ← fueled_fold (fun '(frontier, setup_physical_lp_probes) lp_slot =>
        node ← or_panic (im_nodes image !! lp_slot);
        future ← or_panic (futures !! lp_slot);
        frontier_update frontier lp_slot (nd_id node) (first_key future) setup_physical_lp_probes)
      (frontier_new (length (im_nodes image)), 0) (Z.to_nat <$> touched);
  Some (Ok (mkExecutor transitions futures pending_keys r.1 minimum_lookahead_ns)).

(** *** Draining one LP *)

(** One superseded timer leaves the LP's map and the pending keys. *)
Definition drain_timer (lp_slot : nat) ex (timer : SupersededTimer)
  : fueled ExecutionError (RoundExecutor M) :=
  future ← or_panic (ex_futures ex !! lp_slot);
  r ← lift_result (remove_superseded_timer future timer);
  Some (Ok (ex <| ex_futures ::= <[lp_slot := r.2]> |>
               <| ex_pending_keys ::= fun keys => (bs_remove (key r.1) keys).2 |>)).

(** One child is continued with, put in the LP's map, or put in the outbox. *)
Definition drain_child (lp_slot : nat) (node : NodeId) (direct_child : option Event)
    d (child : Event) : fueled ExecutionError (Drain M) :=
  let '(fresh, pending_keys) := bs_insert (key child) (ex_pending_keys (dn_executor d)) in
  if negb fresh then Some (Err (DuplicateEventKey (key child))) else
  let d := d <| dn_executor ::= fun ex => ex <| ex_pending_keys := pending_keys |> |> in
  if target child =? node then
    if bool_decide (direct_child = Some child) then
      Some (Ok (d <| dn_continuation := Some child |>
                  <| dn_same_time_continuations ::= fun n => saturating_add n 1 |>))
    else
      future ← or_panic (ex_futures (dn_executor d) !! lp_slot);
      match bm_get (key child) future with
      | Some _ => Some (Err (DuplicateEventKey (key child)))
      | None =>
          let d := d <| dn_executor ::= fun ex =>
            ex <| ex_futures ::= <[lp_slot := bm_insert (key child) child future]> |> |> in
          if bool_decide (event_fel_class (kind child) = FallbackHeap) then
            n ← lift_result (ok_or (checked_add (dn_fallback_classified_pushes d) 1)
                               (CounterOverflow node));
            Some (Ok (d <| dn_fallback_classified_pushes := n |>))
          else Some (Ok d)
      end
  else Some (Ok (d <| dn_outbox ::= fun outbox => outbox ++ [child] |>)).

(** The body of the drain loop, once its event is chosen. *)
Definition drain_event (lp_slot : nat) (node : NodeId) (event : Event) d
  : fueled ExecutionError (Drain M) :=
  let ex := dn_executor d <| ex_pending_keys ::= fun keys => (bs_remove (key event) keys).2 |> in
  r ← m_dispatch event (ex_transitions ex);
  let '(children, superseded, transitions) := r in
  ex ← fueled_fold (drain_timer lp_slot) (ex <| ex_transitions := transitions |>) superseded;
  future ← or_panic (ex_futures ex !! lp_slot);
  let direct_child :=
    match children with
    | [child] =>
        if is_same_time_tx_ready_continuation event child node (first_key future)
        then Some child else None
    | _ => None
    end in
  d ← fueled_fold (drain_child lp_slot node direct_child) (d <| dn_executor := ex |>) children;
  Some (Ok (d <| dn_events_processed ::= fun n => saturating_add n 1 |>)).

(** The event the loop takes next: the continuation, or the LP's first event
    below the horizon. *)
Definition drain_next (lp_slot : nat) (exclusive_horizon_ns : Z) d
  : fueled ExecutionError (option (Event * Drain M)) :=
  match dn_continuation d with
  | Some event => Some (Ok (Some (event, d <| dn_continuation := None |>)))
  | None =>
      future ← or_panic (ex_futures (dn_executor d) !! lp_slot);
      match future with
      | (key, event) :: rest =>
          if time_ns key <? exclusive_horizon_ns then
            Some (Ok (Some (event, d <| dn_executor ::= fun ex =>
                                    ex <| ex_futures ::= <[lp_slot := rest]> |> |>)))
          else Some (Ok None)
      | [] => Some (Ok None)
      end
  end.

Fixpoint drain_loop (fuel lp_slot : nat) (node : NodeId) (exclusive_horizon_ns : Z) d
  : fueled ExecutionError (Drain M) :=
  next ← drain_next lp_slot exclusive_horizon_ns d;
  match next, fuel with
  | None, _ => Some (Ok d)
  | Some _, O => None
  | Some (event, d), S fuel =>
      d ← drain_event lp_slot node event d;
      drain_loop fuel lp_slot node exclusive_horizon_ns d
  end.

Definition drain_lp (fuel : nat) ex (lp_slot : nat) (exclusive_horizon_ns : Z)
  : fueled ExecutionError (RoundExecutor M * DrainedLp) :=
  node ← or_panic (im_nodes image !! lp_slot);
  d ← drain_loop fuel lp_slot (nd_id node) exclusive_horizon_ns (mkDrain ex None 0 0 0 []);
  Some (Ok (dn_executor d,
    mkDrained (mkLpRoundWork (nd_id node) (dn_events_processed d)
                 (dn_same_time_continuations d) (dn_fallback_classified_pushes d))
      (dn_outbox d))).

(** *** One round *)

(** The locals of a round that its loops update. *)
Record RoundState := mkRoundState {
  rs_executor : RoundExecutor M;
  rs_outboxes : list (list Event);
  rs_lp_work : list LpRoundWork;
  rs_events_processed : Z;
  rs_frontier_updates : Z;
  rs_physical_lp_probes : Z;
}.

(** Only nonempty outboxes are kept. *)
Definition push_outbox (outboxes : list (list Event)) (outbox : list Event) : list (list Event) :=
  match outbox with
  | [] => outboxes
  | _ => outboxes ++ [outbox]
  end.

Definition drain_entry (fuel : nat) (horizon : Z) (s : RoundState) (entry : FrontierEntry)
  : fueled ExecutionError RoundState :=
  let physical_lp_probes := saturating_add (rs_physical_lp_probes s) 1 in
  r ← drain_lp fuel (rs_executor s) (fe_lp_slot entry) horizon;
  let '(ex, drained) := r in
  let events_processed :=
    saturating_add (rs_events_processed s) (lw_events_processed (dl_work drained)) in
  let outboxes := push_outbox (rs_outboxes s) (dl_outbox drained) in
  r ← update_frontier ex (fe_lp_slot entry) physical_lp_probes;
  let '(ex, physical_lp_probes) := r in
  Some (Ok (mkRoundState ex outboxes (rs_lp_work s ++ [dl_work drained]) events_processed
              (saturating_add (rs_frontier_updates s) 1) physical_lp_probes)).

(** One event of an exchanged group enters its LP's map. *)
Definition exchange_event (horizon : Z) (lp_slot : nat) ex (event : Event)
  : fueled ExecutionError (RoundExecutor M) :=
  if time_ns (key event) <? horizon then
    Some (Err (RemoteEventBeforeHorizon (key event) horizon))
  else
    future ← or_panic (ex_futures ex !! lp_slot);
    match bm_get (key event) future with
    | Some _ => Some (Err (DuplicateEventKey (key event)))
    | None =>
        Some (Ok (ex <| ex_futures ::= <[lp_slot := bm_insert (key event) event future]> |>))
    end.

(** The exchange loop: one group of equal targets per iteration; every
    iteration consumes an event, so their number is enough fuel. *)
Fixpoint exchange (fuel : nat) (horizon : Z) (remote_events : list Event) ex
    (frontier_updates physical_lp_probes : Z)
  : fueled ExecutionError (RoundExecutor M * Z * Z) :=
  match remote_events, fuel with
  | [], _ => Some (Ok (ex, frontier_updates, physical_lp_probes))
  | _, O => None
  | first :: _, S fuel =>
      lp_slot ← lift_result (ok_or (node_slot image (target first)) (UnknownNode (target first)));
      let physical_lp_probes := saturating_add physical_lp_probes 1 in
      let group := take_while (fun event => target event =? target first) remote_events in
      ex ← fueled_fold (exchange_event horizon lp_slot) ex group;
      r ← update_frontier ex lp_slot physical_lp_probes;
      let '(ex, physical_lp_probes) := r in
      exchange fuel horizon (drop (length group) remote_events) ex
        (saturating_add frontier_updates 1) physical_lp_probes
  end.

Definition round_horizon (run_end frontier_ns : Z) (minimum_lookahead_ns : option Z) : Z :=
  let lookahead_end :=
    match minimum_lookahead_ns with
    | None => TIME_AFTER_U64_MAX
    | Some delay => Z.min (frontier_ns + delay) TIME_AFTER_U64_MAX
    end in
  Z.min run_end lookahead_end.

(** No LP may be left below the horizon. *)
Definition check_drained (horizon : Z) (entry : option FrontierEntry) ex
  : fueled ExecutionError unit :=
  match entry with
  | Some entry =>
      if fe_time_ns entry <? horizon then
        future ← or_panic (ex_futures ex !! fe_lp_slot entry);
        key ← or_panic (first_key future);
        Some (Err (EventBelowHorizonAfterDrain key horizon))
      else Some (Ok tt)
  | None => Some (Ok tt)
  end.

Definition parallel_efficiency (events_processed : Z) (lp_work : list LpRoundWork) : Q :=
  let active_lp_count := Z.of_nat (length lp_work) in
  let max_work := foldl Z.max 0 (lw_events_processed <$> lp_work) in
  if (active_lp_count =? 0) || (max_work =? 0) then 1%Q
  else Qdiv (inject_Z events_processed) (inject_Z active_lp_count * inject_Z max_work).

(** One iteration of the loop of [execute_rounds]; [None] when it breaks. *)
Definition execute_round (fuel : nat) (run_end : Z) (previous_horizon : option Z) ex
  : fueled ExecutionError (option (RoundExecutor M * Z * RoundMetrics)) :=
  r ← peek_min (ex_frontier ex) 0 0;
  let '(entry, frontier, heap_pops, probes) := r in
  match entry with
  | None => Some (Ok None)
  | Some frontier_entry =>
      let frontier_ns := fe_time_ns frontier_entry in
      if run_end <=? frontier_ns then Some (Ok None) else
      let horizon := round_horizon run_end frontier_ns (ex_minimum_lookahead_ns ex) in
      let horizon_advance_ns :=
        saturating_sub horizon (default frontier_ns previous_horizon) in
      r ← collect_active (length (fi_heap frontier)) frontier horizon heap_pops probes;
      let '(active, frontier, heap_pops, probes) := r in
      s ← fueled_fold (drain_entry fuel horizon)
            (mkRoundState (ex <| ex_frontier := frontier |>) [] [] 0 0 probes) active;
      r ← peek_min (ex_frontier (rs_executor s)) heap_pops (rs_physical_lp_probes s);
      let '(entry, frontier, heap_pops, probes) := r in
      let ex := rs_executor s <| ex_frontier := frontier |> in
      _ ← check_drained horizon entry ex;
      let remote_events := concat (rs_outboxes s) in
      let messages_exchanged := Z.min (Z.of_nat (length remote_events)) u64_max in
      let remote_events := radix_sort_remote_events remote_events in
      r ← exchange (length remote_events) horizon remote_events ex (rs_frontier_updates s) probes;
      let '(ex, frontier_updates, probes) := r in
      let metrics :=
        mkRoundMetrics frontier_ns horizon horizon_advance_ns (rs_events_processed s)
          (length (rs_lp_work s)) (rs_lp_work s)
          (parallel_efficiency (rs_events_processed s) (rs_lp_work s))
          messages_exchanged frontier_updates heap_pops probes in
      Some (Ok (Some (ex, horizon, metrics)))
  end.

Fixpoint execute_rounds (fuel : nat) (run_end : Z) (previous_horizon : option Z)
    (rounds : list RoundMetrics) (total_rounds : Z) ex
  : fueled ExecutionError (RoundExecutor M * list RoundMetrics) :=
  match fuel with
  | O => None
  | S fuel' =>
      r ← execute_round fuel run_end previous_horizon ex;
      match r with
      | None => Some (Ok (ex, rounds))
      | Some (ex, horizon, metrics) =>
          total_rounds ← lift_result (ok_or (checked_add total_rounds 1) (CounterOverflow 0));
          execute_rounds fuel' run_end (Some horizon) (rounds ++ [metrics]) total_rounds ex
      end
  end.

(** [finish_result]. *)
Definition finish_result ex : R :=
  m_finish (ex_transitions ex)
    (merge_sort event_le (concat ((fun future : bmap EventKey Event => future.*2) <$> ex_futures ex))).

(** [run_scalar_rounds]: the result and the metrics of every round. *)
Definition run_scalar_rounds (fuel : nat) (exclusive_horizon_ns : option Z)
  : fueled ExecutionError (R * list RoundMetrics) :=
  ex ← executor_new;
  let configured_stop := im_stop_time_ns image + 1 in
  let run_end := Z.min (default TIME_AFTER_U64_MAX exclusive_horizon_ns) configured_stop in
  r ← execute_rounds fuel run_end None [] 0 ex;
  Some (Ok (finish_result r.1, r.2)).
End executor.

(** ** The executor's state as a set of pending events

    The pending events of a run are those of the LP maps and those in flight:
    the outboxes, the continuation and the event being dispatched. *)

Section relation.
Context {M R : Type} `{HM : Machine M R} (image : SimulationImage).
Implicit Types (ex : RoundExecutor M) (P : pending) (extra : list Event).

Definition in_futures (e : Event) ex : Prop :=
  exists slot future, ex_futures ex !! slot = Some future /\ pends e future.

Record rel ex extra P : Prop := {
  rl_length : length (ex_futures ex) = length (im_nodes image);
  rl_indexed : forall slot future, ex_futures ex !! slot = Some future -> indexed future;
  rl_slot : forall slot future e, ex_futures ex !! slot = Some future -> pends e future ->
    node_slot image (target e) = Some slot;
  rl_pends : forall e, pends e P <-> in_futures e ex \/ e ∈ extra;
  rl_extra : forall e, e ∈ extra -> ~ in_futures e ex;
  rl_nodup : NoDup extra;
  rl_keys : forall k, k ∈ ex_pending_keys ex <-> exists e, pends e P /\ key e = k;
  rl_pending : indexed P;
}.

Lemma node_slot_Some node slot : node_slot image node = Some slot <->
  slot = Z.to_nat node /\ exists nd, im_nodes image !! slot = Some nd /\ nd_id nd = node.
Proof.
  unfold node_slot. split.
  - destruct (im_nodes image !! Z.to_nat node) as [nd|] eqn:E; [|done]. case_match; [|done].
    intros [= <-]. split; [done|]. exists nd. split; [done|lia].
  - intros (-> & nd & -> & <-). by rewrite Z.eqb_refl.
Qed.

Lemma node_slot_inj n1 n2 slot :
  node_slot image n1 = Some slot -> node_slot image n2 = Some slot -> n1 = n2.
Proof.
  rewrite !node_slot_Some. intros (_ & nd1 & H1 & <-) (_ & nd2 & H2 & <-). congruence.
Qed.

Lemma node_slot_lt n slot : node_slot image n = Some slot -> (slot < length (im_nodes image))%nat.
Proof. intros (_ & nd & Hl & _)%node_slot_Some. by apply lookup_lt_Some in Hl. Qed.

Lemma rel_future ex extra P n slot :
  rel ex extra P -> node_slot image n = Some slot ->
  exists future, ex_futures ex !! slot = Some future.
Proof.
  intros Hr Hs%node_slot_lt. apply lookup_lt_is_Some. by rewrite (rl_length _ _ _ Hr).
Qed.

(** Only the set of the events in flight matters. *)
Lemma rel_permutation ex extra extra' P : extra ≡ₚ extra' -> rel ex extra P -> rel ex extra' P.
Proof.
  intros Hp [H1 H2 H3 H4 H5 H6 H7 H8].
  split; [done..| | |by rewrite <- Hp|done|done].
  - intros e. by rewrite <- Hp.
  - intros e. rewrite <- Hp. apply H5.
Qed.

(** Changing the frontier or the machine changes no pending event. *)
Lemma rel_frame ex ex' extra P :
  ex_futures ex' = ex_futures ex -> ex_pending_keys ex' = ex_pending_keys ex ->
  rel ex extra P -> rel ex' extra P.
Proof.
  intros Hf Hk [H1 H2 H3 H4 H5 H6 H7 H8]. unfold in_futures in *.
  split; unfold in_futures; rewrite ?Hf, ?Hk; auto.
Qed.

Lemma in_futures_insert e ex slot future future' :
  ex_futures ex !! slot = Some future ->
  in_futures e (ex <| ex_futures ::= <[slot := future']> |>)
  <-> pends e future' \/ exists s f, s <> slot /\ ex_futures ex !! s = Some f /\ pends e f.
Proof.
  intros Hs. pose proof (lookup_lt_Some _ _ _ Hs). unfold in_futures. simpl. split.
  - intros (s & f & Hl & He). destruct (decide (s = slot)) as [->|Hne].
    + rewrite list_lookup_insert_eq in Hl by done. left. congruence.
    + rewrite list_lookup_insert_ne in Hl by done. eauto 10.
  - intros [He|(s & f & Hne & Hl & He)].
    + exists slot, future'. by rewrite list_lookup_insert_eq.
    + exists s, f. by rewrite list_lookup_insert_ne.
Qed.

(** An event leaves its LP's map and is in flight. *)
Lemma rel_take ex extra P slot future e :
  rel ex extra P -> ex_futures ex !! slot = Some future -> pends e future ->
  rel (ex <| ex_futures ::= <[slot := bm_remove (key e) future]> |>) (e :: extra) P.
Proof.
  intros Hr Hs He. pose proof (rl_indexed _ _ _ Hr _ _ Hs) as Hix.
  pose proof (rl_slot _ _ _ Hr _ _ _ Hs He) as Hes.
  assert (Hin : forall x, in_futures x (ex <| ex_futures ::= <[slot := bm_remove (key e) future]> |>)
                 <-> in_futures x ex /\ x <> e).
  { intros x. rewrite (in_futures_insert x ex slot future) by done.
    rewrite pends_remove by done. split.
    - intros [[Hx Hne]|(s & f & Hne & Hl & Hx)]; [split; [by exists slot, future|done]|].
      split; [by exists s, f|]. intros ->. pose proof (rl_slot _ _ _ Hr _ _ _ Hl Hx). congruence.
    - intros [(s & f & Hl & Hx) Hne]. destruct (decide (s = slot)) as [->|Hns];
        [|by right; exists s, f]. left. split; [|done]. congruence. }
  split; simpl.
  - by rewrite length_insert, (rl_length _ _ _ Hr).
  - intros s f Hl. destruct (decide (s = slot)) as [->|Hne].
    + rewrite list_lookup_insert_eq in Hl by (by eapply lookup_lt_Some). injection Hl as <-.
      by apply indexed_remove.
    + rewrite list_lookup_insert_ne in Hl by done. by apply (rl_indexed _ _ _ Hr s).
  - intros s f x Hl Hx. destruct (decide (s = slot)) as [->|Hne].
    + rewrite list_lookup_insert_eq in Hl by (by eapply lookup_lt_Some). injection Hl as <-.
      apply pends_remove in Hx as [Hx _]; [|done..]. by apply (rl_slot _ _ _ Hr slot future).
    + rewrite list_lookup_insert_ne in Hl by done. by apply (rl_slot _ _ _ Hr s f).
  - intros x. rewrite (rl_pends _ _ _ Hr), Hin, elem_of_cons.
    destruct (decide (x = e)) as [->|]; [|tauto]. split; [tauto|].
    intros _. left. by exists slot, future.
  - intros x [->|Hx]%elem_of_cons; rewrite Hin; [tauto|]. intros [? _].
    by apply (rl_extra _ _ _ Hr x).
  - constructor; [|apply Hr]. intros Hx. apply (rl_extra _ _ _ Hr e); [done|by exists slot, future].
  - apply Hr.
  - apply Hr.
Qed.

(** An event in flight enters its LP's map. *)
Lemma rel_put ex extra P slot future e :
  rel ex (e :: extra) P -> ex_futures ex !! slot = Some future ->
  node_slot image (target e) = Some slot ->
  bm_get (key e) future = None
  /\ rel (ex <| ex_futures ::= <[slot := bm_insert (key e) e future]> |>) extra P.
Proof.
  intros Hr Hs Hes. pose proof (rl_indexed _ _ _ Hr _ _ Hs) as Hix.
  assert (Hne : ~ in_futures e ex) by (apply (rl_extra _ _ _ Hr); left).
  pose proof (rl_nodup _ _ _ Hr) as [Hn Hnd]%NoDup_cons.
  assert (Hg : bm_get (key e) future = None).
  { apply get_None_pends; [done|]. intros x Hx Hk. apply Hne. exists slot, future.
    split; [done|]. assert (x = e) as <-; [|done]. apply (pends_inj P); [apply Hr|..|done].
    - apply (rl_pends _ _ _ Hr). left. by exists slot, future.
    - apply (rl_pends _ _ _ Hr). right. left. }
  split; [done|].
  assert (Hin : forall x, in_futures x (ex <| ex_futures ::= <[slot := bm_insert (key e) e future]> |>)
                 <-> in_futures x ex \/ x = e).
  { intros x. rewrite (in_futures_insert x ex slot future), pends_insert by done. split.
    - intros [[->|Hx]|(s & f & _ & Hl & Hx)]; [by right|left; by exists slot, future|left; by exists s, f].
    - intros [(s & f & Hl & Hx)| ->]; [|by left; left].
      destruct (decide (s = slot)) as [->|Hns]; [|by right; exists s, f]. left. right. congruence. }
  split; simpl.
  - by rewrite length_insert, (rl_length _ _ _ Hr).
  - intros s f Hl. destruct (decide (s = slot)) as [->|Hns].
    + rewrite list_lookup_insert_eq in Hl by (by eapply lookup_lt_Some). injection Hl as <-.
      by apply indexed_insert.
    + rewrite list_lookup_insert_ne in Hl by done. by apply (rl_indexed _ _ _ Hr s).
  - intros s f x Hl Hx. destruct (decide (s = slot)) as [->|Hns].
    + rewrite list_lookup_insert_eq in Hl by (by eapply lookup_lt_Some). injection Hl as <-.
      apply pends_insert in Hx as [->|Hx]; [done| |done..]. by apply (rl_slot _ _ _ Hr slot future).
    + rewrite list_lookup_insert_ne in Hl by done. by apply (rl_slot _ _ _ Hr s f).
  - intros x. rewrite (rl_pends _ _ _ Hr), Hin, elem_of_cons. tauto.
  - intros x Hx. rewrite Hin. intros [Hf| ->]; [|done].
    by apply (rl_extra _ _ _ Hr x); [right|].
  - done.
  - apply Hr.
  - apply Hr.
Qed.

(** An event in flight is dispatched or removed. *)
Lemma rel_forget ex extra P e :
  rel ex (e :: extra) P ->
  rel (ex <| ex_pending_keys ::= fun keys => (bs_remove (key e) keys).2 |>) extra
    (bm_remove (key e) P).
Proof.
  intros Hr. pose proof (rl_nodup _ _ _ Hr) as [Hn Hnd]%NoDup_cons.
  assert (He : pends e P) by (apply (rl_pends _ _ _ Hr); right; left).
  assert (Hne : ~ in_futures e ex) by (apply (rl_extra _ _ _ Hr); left).
  split; [apply Hr..| | |done| |].
  - intros x. change (in_futures x _) with (in_futures x ex).
    rewrite pends_remove, (rl_pends _ _ _ Hr), elem_of_cons by first [done|apply Hr]. split; [tauto|].
    intros [Hx|Hx]; (split; [tauto|by intros ->]).
  - intros x Hx. apply (rl_extra _ _ _ Hr x). by right.
  - intros k. simpl. rewrite list_elem_of_filter, (rl_keys _ _ _ Hr). split.
    + intros [Hk (x & Hx & <-)]. exists x. split; [|done]. apply pends_remove; [apply Hr|done|].
      split; [done|]. by intros ->.
    + intros (x & Hx & <-). apply pends_remove in Hx as [Hx Hxe]; [|apply Hr|done].
      split; [|by exists x]. intros Hk. apply Hxe, (pends_inj P); [apply Hr|done..].
  - apply indexed_remove, Hr.
Qed.

(** A new event is in flight. *)
Lemma rel_new ex extra P c :
  rel ex extra P -> (forall e, pends e P -> key e <> key c) ->
  bs_contains (key c) (ex_pending_keys ex) = false
  /\ map_insert P c = Ok (bm_insert (key c) c P)
  /\ rel (ex <| ex_pending_keys := bs_add (key c) (ex_pending_keys ex) |>) (c :: extra)
       (bm_insert (key c) c P).
Proof.
  intros Hr Hf.
  assert (Hg : bm_get (key c) P = None) by (apply get_None_pends; [apply Hr|done]).
  assert (Hc : ~ pends c P) by (intros Hc; by apply Hf in Hc).
  split_and!.
  - apply not_true_is_false. intros (e & He & Hk)%bs_contains_spec%(rl_keys _ _ _ Hr).
    by apply (Hf e).
  - unfold map_insert. by rewrite Hg.
  - rewrite (rl_pends _ _ _ Hr) in Hc. split; [apply Hr..| | | | |].
    + intros x. change (in_futures x _) with (in_futures x ex).
      rewrite pends_insert, (rl_pends _ _ _ Hr), elem_of_cons by first [done|apply Hr]. tauto.
    + intros x [->|Hx]%elem_of_cons; change (in_futures ?y _) with (in_futures y ex); [tauto|].
      by apply (rl_extra _ _ _ Hr).
    + constructor; [tauto|apply Hr].
    + intros k. simpl. rewrite bs_add_elem_of, (rl_keys _ _ _ Hr). split.
      * intros [->|(e & He & <-)]; [exists c|exists e]; (split; [|done]);
          apply pends_insert; first [apply Hr|done|auto].
      * intros (e & He & <-). apply pends_insert in He as [->|He]; [by left|right; eauto|apply Hr|done].
    + apply indexed_insert, Hr.
Qed.
End relation.
