(* ===== verification/RoundsSpec.v ===== *)
(** * The round executor implements the scalar schedule (executor/src/safe_horizon.rs)

    Every dispatch of a round is a safe dispatch of the transition machine
    ([Machine.fire]); the frontier index names the least pending time; a round
    leaves nothing below its horizon. With the confluence of safe dispatches
    this gives the equality of the two executors. *)

From S2P Require Import Prelude OrdMap Event ExecError Fel Image Radix Machine ScalarLoop Rounds.

(** ** Draining one LP *)

Section drain.
Context {M R : Type} `{HM : Machine M R} (image : SimulationImage)
  `{HL : !MachineLaws M R image}.
Implicit Types (ex : RoundExecutor M) (d : Drain M) (P : pending) (extra : list Event).

(** What draining an LP leaves alone. *)
Record framed (slot : nat) ex ex' : Prop := {
  fr_frontier : ex_frontier ex' = ex_frontier ex;
  fr_lookahead : ex_minimum_lookahead_ns ex' = ex_minimum_lookahead_ns ex;
  fr_futures : forall s, s <> slot -> ex_futures ex' !! s = ex_futures ex !! s;
}.

Lemma framed_refl slot ex : framed slot ex ex.
Proof. by split. Qed.

Lemma framed_trans slot ex1 ex2 ex3 : framed slot ex1 ex2 -> framed slot ex2 ex3 -> framed slot ex1 ex3.
Proof. intros [H1 H2 H3] [H4 H5 H6]. split; [congruence..|]. intros s Hs. rewrite H6, H3; done. Qed.

(** Assigning the slot's own future, the keys or the machine. *)
Lemma framed_insert slot ex f : framed slot ex (ex <| ex_futures ::= <[slot := f]> |>).
Proof. split; simpl; [done..|]. intros s Hs. by rewrite list_lookup_insert_ne. Qed.

Lemma framed_keys slot ex g : framed slot ex (ex <| ex_pending_keys ::= g |>).
Proof. by split. Qed.

Lemma framed_machine slot ex s : framed slot ex (ex <| ex_transitions := s |>).
Proof. by split. Qed.

#[local] Hint Resolve framed_refl framed_insert framed_keys framed_machine : days.

(** The timeouts of an LP are in its map. *)
Lemma futures_agree slot node ex extra P future :
  rel image ex extra P -> node_slot image node = Some slot ->
  (forall e, e ∈ extra -> kind e <> RetransmissionTimeout) ->
  ex_futures ex !! slot = Some future -> agree node P future.
Proof.
  intros Hr Hn Hx Hf e [Hk Ht]. rewrite (rl_pends _ _ _ _ Hr). split.
  - intros [(s & f & Hl & He)|He]; [|by apply Hx in He].
    pose proof (rl_slot _ _ _ _ Hr _ _ _ Hl He) as Hs. rewrite Ht in Hs. congruence.
  - intros He. left. by exists slot, future.
Qed.

Lemma drain_timer_rel slot node ex extra P t :
  rel image ex extra P -> node_slot image node = Some slot ->
  (forall e, e ∈ extra -> kind e <> RetransmissionTimeout) -> st_target t = node ->
  match remove_superseded_timer P t with
  | Ok (e, P') => exists ex', drain_timer slot ex t = Some (Ok ex')
      /\ rel image ex' extra P' /\ framed slot ex ex' /\ ex_transitions ex' = ex_transitions ex
  | Err err => drain_timer slot ex t = Some (Err err)
  end.
Proof.
  intros Hr Hn Hx Ht. destruct (rel_future image _ _ _ _ _ Hr Hn) as [future Hf].
  assert (Ha : agree (st_target t) P future) by (rewrite Ht; by eapply futures_agree).
  pose proof (superseded_local P future t (rl_pending _ _ _ _ Hr) (rl_indexed _ _ _ _ Hr _ _ Hf) Ha) as Hs.
  unfold drain_timer. rewrite Hf. cbn [or_panic mbind fueled_bind].
  destruct (remove_superseded_timer P t) as [[e P1]|err].
  - destruct Hs as (He & Hte & -> & ->). cbn [lift_result mbind fueled_bind fst snd].
    eexists. split; [done|]. apply Ha in He; [|done]. split_and!; [|eapply framed_trans; [apply framed_insert|apply framed_keys]|done].
    by apply rel_forget, rel_take.
  - by rewrite Hs.
Qed.

Lemma drain_timers_rel slot node ex extra P ts :
  rel image ex extra P -> node_slot image node = Some slot ->
  (forall e, e ∈ extra -> kind e <> RetransmissionTimeout) ->
  (forall t, t ∈ ts -> st_target t = node) ->
  match remove_timers P ts with
  | Ok P' => exists ex', fueled_fold (drain_timer slot) ex ts = Some (Ok ex')
      /\ rel image ex' extra P' /\ framed slot ex ex' /\ ex_transitions ex' = ex_transitions ex
  | Err err => fueled_fold (drain_timer slot) ex ts = Some (Err err)
  end.
Proof.
  intros Hr Hn Hx Ht. revert ex P Hr. induction ts as [|t ts IH]; intros ex P Hr.
  { exists ex. by auto with days. }
  unfold remove_timers. cbn [try_fold fueled_fold].
  pose proof (drain_timer_rel slot node ex extra P t Hr Hn Hx ltac:(apply Ht; left)) as Hs.
  destruct (remove_superseded_timer P t) as [[e P1]|err].
  - destruct Hs as (ex1 & -> & Hr1 & Hf1 & Hm1). cbn [mbind fueled_bind result_bind fst snd].
    specialize (IH (fun t Hin => Ht t ltac:(by right)) _ _ Hr1). unfold remove_timers in IH.
    destruct (try_fold _ P1 ts) as [P2|err]; [|done].
    destruct IH as (ex2 & -> & Hr2 & Hf2 & Hm2). exists ex2. split_and!; [done..| |congruence].
    by eapply framed_trans.
  - by rewrite Hs.
Qed.

(** The events a drain holds in flight. *)
Definition flight d : list Event := dn_outbox d ++ option_list (dn_continuation d).

(** What indexing children changes besides the pending events. *)
Record indexes (slot : nat) (node : NodeId) (n : nat) d d' : Prop := {
  in_framed : framed slot (dn_executor d) (dn_executor d');
  in_machine : ex_transitions (dn_executor d') = ex_transitions (dn_executor d);
  in_events : dn_events_processed d' = dn_events_processed d;
  in_pushes : dn_fallback_classified_pushes d <= dn_fallback_classified_pushes d'
    <= dn_fallback_classified_pushes d + Z.of_nat n;
}.

Lemma drain_child_rel slot node direct d base P child :
  rel image (dn_executor d) (base ++ flight d) P -> node_slot image node = Some slot ->
  (forall e, pends e P -> key e <> key child) ->
  (direct = Some child -> dn_continuation d = None /\ target child = node) ->
  dn_fallback_classified_pushes d + 1 <= u64_max ->
  exists d', drain_child slot node direct d child = Some (Ok d')
    /\ map_insert P child = Ok (bm_insert (key child) child P)
    /\ rel image (dn_executor d') (base ++ flight d') (bm_insert (key child) child P)
    /\ indexes slot node 1 d d'
    /\ dn_outbox d' = dn_outbox d ++ (if target child =? node then [] else [child])
    /\ dn_continuation d' = (if bool_decide (direct = Some child) then Some child
                             else dn_continuation d)
    /\ (direct = Some child -> ex_futures (dn_executor d') = ex_futures (dn_executor d)).
Proof.
  intros Hr Hn Hfresh Hdir Hb.
  destruct (rel_new image _ _ _ _ Hr Hfresh) as (Hc & Hm & Hr').
  unfold drain_child, bs_insert. rewrite Hc. cbn [negb].
  destruct (target child =? node) eqn:Et.
  - apply Z.eqb_eq in Et. case_bool_decide as Hd.
    + destruct (Hdir Hd) as [Hdc _]. eexists. split; [done|]. split_and!; [done| | |by rewrite app_nil_r|done|done].
      * eapply rel_permutation; [|exact Hr']. unfold flight. simpl. rewrite Hdc. simpl.
        rewrite app_nil_r. solve_Permutation.
      * split; simpl; [apply framed_keys|done..|lia].
    + cbn [dn_executor]. destruct (rel_future image _ _ _ _ _ Hr' Hn) as [future Hf].
      simpl in Hf |- *. rewrite Hf. cbn [or_panic mbind fueled_bind].
      destruct (rel_put image _ _ _ slot future child Hr') as [Hg Hp];
        [done|by rewrite Et|]. rewrite Hg.
      case_bool_decide as Hk.
      * simpl. rewrite (proj2 (checked_add_Some _ _ _) (conj eq_refl Hb)). simpl. eexists. split; [done|].
        split_and!; [done|exact Hp| |by rewrite app_nil_r|done|done].
        split; simpl; [|done..|lia]. split; simpl; [done..|]. intros ? ?. by rewrite list_lookup_insert_ne.
      * eexists. split; [done|]. split_and!; [done|exact Hp| |by rewrite app_nil_r|done|done].
        split; simpl; [|done..|lia]. split; simpl; [done..|]. intros ? ?. by rewrite list_lookup_insert_ne.
  - assert (Hnd : direct <> Some child) by (intros Hd; apply Hdir in Hd as [_ ?]; lia).
    rewrite bool_decide_eq_false_2 by done. eexists. split; [done|]. split_and!; [done| | |done|done|done].
    + eapply rel_permutation; [|exact Hr']. unfold flight. simpl. solve_Permutation.
    + split; simpl; [apply framed_keys|done..|lia].
Qed.

Lemma indexes_trans slot node n m d1 d2 d3 :
  indexes slot node n d1 d2 -> indexes slot node m d2 d3 -> indexes slot node (n + m) d1 d3.
Proof.
  intros [H1 H2 H3 H4] [H5 H6 H7 H8]. split; [by eapply framed_trans|congruence..|lia].
Qed.

(** The children of a dispatch that is not continued. *)
Lemma drain_children_rel slot node d base P cs P' :
  rel image (dn_executor d) (base ++ flight d) P -> node_slot image node = Some slot ->
  insert_children P cs = Ok P' ->
  dn_fallback_classified_pushes d + Z.of_nat (length cs) <= u64_max ->
  exists d', fueled_fold (drain_child slot node None) d cs = Some (Ok d')
    /\ rel image (dn_executor d') (base ++ flight d') P'
    /\ indexes slot node (length cs) d d'
    /\ dn_outbox d' = dn_outbox d ++ filter (fun c => target c <> node) cs
    /\ dn_continuation d' = dn_continuation d.
Proof.
  intros Hr Hn. revert d P Hr. induction cs as [|c cs IH]; intros d P Hr Hi Hb;
    unfold insert_children in Hi; cbn [try_fold fueled_fold length] in *.
  - injection Hi as <-. exists d. split_and!; [done..| |by rewrite app_nil_r|done].
    split; [apply framed_refl|done..|lia].
  - apply bind_Ok in Hi as (P1 & H1 & Hi).
    assert (Hfresh : forall e, pends e P -> key e <> key c).
    { unfold map_insert in H1. destruct (bm_get (key c) P) eqn:Eg; [done|].
      apply get_None_pends; [apply Hr|done]. }
    destruct (drain_child_rel slot node None d base P c) as (d1 & -> & H1' & Hr1 & Hi1 & Ho1 & Hc1 & _);
      [done..|lia|]. rewrite H1 in H1'. injection H1' as ->.
    destruct (IH d1 _ Hr1 Hi) as (d2 & Hd2 & Hr2 & Hi2 & Ho2 & Hc2).
    { pose proof (in_pushes _ _ _ _ _ Hi1). lia. }
    cbn [mbind fueled_bind]. exists d2. split_and!; [done..| | |].
    + exact (indexes_trans _ _ _ _ _ _ _ Hi1 Hi2).
    + rewrite Ho2, Ho1, <- app_assoc. f_equal. rewrite filter_cons.
      destruct (Z.eqb_spec (target c) node) as [->|Hne]; [by rewrite decide_False by auto|].
      by rewrite decide_True.
    + by rewrite Hc2, Hc1, bool_decide_eq_false_2.
Qed.

(** The children of any dispatch. *)
Lemma drain_all_children_rel slot node direct d base P cs P' :
  rel image (dn_executor d) (base ++ flight d) P -> node_slot image node = Some slot ->
  insert_children P cs = Ok P' -> dn_continuation d = None ->
  (forall c, direct = Some c -> cs = [c] /\ target c = node) ->
  dn_fallback_classified_pushes d + Z.of_nat (length cs) <= u64_max ->
  exists d', fueled_fold (drain_child slot node direct) d cs = Some (Ok d')
    /\ rel image (dn_executor d') (base ++ flight d') P'
    /\ indexes slot node (length cs) d d'
    /\ dn_outbox d' = dn_outbox d ++ filter (fun c => target c <> node) cs
    /\ dn_continuation d' = direct
    /\ (is_Some direct -> ex_futures (dn_executor d') = ex_futures (dn_executor d)).
Proof.
  intros Hr Hn Hi Hc Hdir Hb. destruct direct as [c|].
  - destruct (Hdir c eq_refl) as [-> Ht]. unfold insert_children in Hi. cbn [try_fold] in Hi.
    apply bind_Ok in Hi as (P1 & H1 & [= <-]).
    assert (Hfresh : forall e, pends e P -> key e <> key c).
    { unfold map_insert in H1. destruct (bm_get (key c) P) eqn:Eg; [done|].
      apply get_None_pends; [apply Hr|done]. }
    destruct (drain_child_rel slot node (Some c) d base P c)
      as (d1 & Hd1 & H1' & Hr1 & Hi1 & Ho1 & Hc1 & Hf1); [done..|].
    rewrite H1 in H1'. injection H1' as ->.
    cbn [fueled_fold]. rewrite Hd1. exists d1. split_and!; [done..| | |by auto].
    + rewrite Ho1, filter_cons, decide_False by auto. by rewrite (proj2 (Z.eqb_eq _ _) Ht).
    + by rewrite Hc1, bool_decide_eq_true_2.
  - destruct (drain_children_rel slot node d base P cs P') as (d' & H1 & H2 & H3 & H4 & H5); [done..|].
    exists d'. split_and!; [done..|congruence|]. by intros [? ?].
Qed.

(** *** The drain loop, inside one round

    [F] is the least pending time at the start of the round and [Hz] its
    horizon: no channel delivers earlier than [Hz] what is sent at or after
    [F]. *)
Context (F Hz : Z).
Hypothesis window : forall ch, ch ∈ im_channels image -> Hz <= F + ch_min_delay_ns ch.

(** An event the round exchanges at its end. *)
Definition late (e : Event) : Prop :=
  Hz <= time_ns (key e) /\ kind e <> RetransmissionTimeout /\ event_words e.

Record draining (base : list Event) (slot : nat) (node : NodeId) d P : Prop := {
  dg_slot : node_slot image node = Some slot;
  dg_config : config_ok image (ex_transitions (dn_executor d), P);
  dg_lower : forall e, pends e P -> F <= time_ns (key e);
  dg_rel : rel image (dn_executor d) (base ++ flight d) P;
  dg_late : forall e, e ∈ base ++ dn_outbox d -> late e;
  dg_next : forall c, dn_continuation d = Some c ->
    time_ns (key c) < Hz /\ target c = node
    /\ forall future e, ex_futures (dn_executor d) !! slot = Some future -> pends e future ->
         klt (key c) (key e);
  dg_pushes : 0 <= dn_fallback_classified_pushes d
    <= m_next_seq (ex_transitions (dn_executor d)) node;
}.

(** The event [drain_next] hands to the loop's body. *)
Record taken (base : list Event) (slot : nat) (node : NodeId) d P (ev : Event) d1 : Prop := {
  tk_safe : safe image ev P;
  tk_time : time_ns (key ev) < Hz;
  tk_target : target ev = node;
  tk_rel : rel image (dn_executor d1) (ev :: base ++ dn_outbox d1) P;
  tk_continuation : dn_continuation d1 = None;
  tk_outbox : dn_outbox d1 = dn_outbox d;
  tk_indexes : indexes slot node 0 d d1;
}.

(** The next event of the LP is safe. *)
Lemma draining_safe base slot node d P ev :
  draining base slot node d P -> pends ev P -> time_ns (key ev) < Hz -> target ev = node ->
  (forall e, e ∈ option_list (dn_continuation d) -> e = ev) ->
  (forall future e, ex_futures (dn_executor d) !! slot = Some future -> pends e future ->
     kle (key ev) (key e)) ->
  safe image ev P.
Proof.
  intros Hd He Ht Hn Hc Hf. split; [done|..].
  - intros x [(s & f & Hl & Hx)|Hx]%(rl_pends _ _ _ _ (dg_rel _ _ _ _ _ Hd)) Htx.
    + pose proof (rl_slot _ _ _ _ (dg_rel _ _ _ _ _ Hd) _ _ _ Hl Hx) as Hs.
      rewrite Htx, Hn, (dg_slot _ _ _ _ _ Hd) in Hs. injection Hs as <-. by eapply Hf.
    + unfold flight in Hx. rewrite app_assoc in Hx. apply elem_of_app in Hx as [Hx|Hx].
      * apply (dg_late _ _ _ _ _ Hd) in Hx as [Hx _]. apply klt_le, key_time_lt. lia.
      * apply Hc in Hx as ->. apply kle_refl.
  - intros x ch Hx Hch%window. apply (dg_lower _ _ _ _ _ Hd) in Hx. lia.
Qed.

Lemma drain_next_spec base slot node d P :
  draining base slot node d P ->
  (drain_next slot Hz d = Some (Ok None) /\ dn_continuation d = None
   /\ forall future e, ex_futures (dn_executor d) !! slot = Some future -> pends e future ->
        Hz <= time_ns (key e))
  \/ exists ev d1, drain_next slot Hz d = Some (Ok (Some (ev, d1))) /\ taken base slot node d P ev d1.
Proof.
  intros Hd. pose proof (dg_rel _ _ _ _ _ Hd) as Hr. unfold drain_next.
  destruct (dn_continuation d) as [c|] eqn:Ec.
  - right. destruct (dg_next _ _ _ _ _ Hd c Ec) as (Ht & Hn & Hk).
    eexists _, _. split; [done|]. unfold flight in Hr. rewrite Ec in Hr. simpl in Hr.
    split; simpl; [|done..| |done|done|split; simpl; [apply framed_refl|done..|lia]].
    + eapply draining_safe; [exact Hd| |done..| |].
      * apply (rl_pends _ _ _ _ Hr). right. set_solver.
      * rewrite Ec. simpl. set_solver.
      * intros. eapply klt_le, Hk; eauto.
    + eapply rel_permutation; [|exact Hr]. solve_Permutation.
  - destruct (rel_future image _ _ _ _ _ Hr (dg_slot _ _ _ _ _ Hd)) as [future Hf].
    rewrite Hf. cbn [or_panic mbind fueled_bind].
    pose proof (rl_indexed _ _ _ _ Hr _ _ Hf) as Hix.
    destruct future as [|[k ev] rest].
    { left. split_and!; [done..|]. intros ? e [= <-] He. by apply not_elem_of_nil in He. }
    assert (k = key ev) as -> by (apply (ix_key _ Hix); left).
    assert (He : pends ev ((key ev, ev) :: rest)) by left.
    assert (Hmin : forall e, pends e ((key ev, ev) :: rest) -> kle (key ev) (key e)).
    { intros e Hx. exact (bm_first_min _ _ _ _ (ix_wf _ Hix) Hx). }
    destruct (time_ns (key ev) <? Hz) eqn:Et; [right|left].
    + apply Z.ltb_lt in Et. eexists _, _. split; [done|].
      assert (Hn : target ev = node).
      { eapply node_slot_inj; [|apply Hd]. by eapply rl_slot. }
      split; simpl; [|done..| |done|done|split; simpl; [apply framed_insert|done..|lia]].
      * eapply draining_safe; [exact Hd| |done..| |].
        -- apply (rl_pends _ _ _ _ Hr). left. by exists slot, ((key ev, ev) :: rest).
        -- rewrite Ec. simpl. set_solver.
        -- intros f e Hl Hx. rewrite Hf in Hl. injection Hl as <-. by apply Hmin.
      * pose proof (rel_take image _ _ _ _ _ _ Hr Hf He) as Ht. unfold flight in Ht.
        rewrite Ec in Ht. simpl in Ht. rewrite app_nil_r in Ht.
        by rewrite (proj2 (keqb_spec (key ev) (key ev)) eq_refl) in Ht.
    + apply Z.ltb_ge in Et. split_and!; [done..|]. intros f e [= <-] Hx.
      apply Hmin, kle_key_time in Hx. lia.
Qed.

(** A child of a safe event is not earlier than the round, nor, if it leaves
    the LP, than its horizon. *)
Lemma child_times s P ev cs ts s' c :
  config_ok image (s, P) -> safe image ev P -> F <= time_ns (key ev) ->
  m_dispatch ev s = Some (Ok (cs, ts, s')) -> c ∈ cs ->
  F <= time_ns (key c)
  /\ (target c <> target ev -> late c).
Proof.
  intros Hok Hs HF Hd Hc.
  destruct (m_children_after ev _ _ _ _ _ c (co_ok _ _ Hok) Hs Hd Hc) as [Hk%klt_key_time Hor].
  split; [lia|]. intros Hne. destruct Hor as [?|(? & _ & ch & Hch & Ht)]; [done|].
  apply window in Hch. split_and!; [lia|done|]. by eapply m_children_words; [apply Hok|..].
Qed.

Definition direct_child_of (ev : Event) (node : NodeId) (next : option EventKey) (cs : list Event)
  : option Event :=
  match cs with
  | [child] => if is_same_time_tx_ready_continuation ev child node next then Some child else None
  | _ => None
  end.

Lemma direct_child_spec ev node next cs c :
  direct_child_of ev node next cs = Some c ->
  cs = [c] /\ target c = node /\ time_ns (key c) = time_ns (key ev)
  /\ forall k, next = Some k -> klt (key c) k.
Proof.
  unfold direct_child_of. destruct cs as [|c0 [|]]; try done.
  destruct (is_same_time_tx_ready_continuation ev c0 node next) eqn:E; [|done]. intros [= ->].
  unfold is_same_time_tx_ready_continuation in E. rewrite !andb_true_iff in E.
  destruct E as [[[[[_ E1] _] E2] _] E3]. split_and!; [done|lia|lia|].
  intros k ->. by apply kltb_spec.
Qed.

(** The continuation precedes the rest of the LP's map. *)
Lemma next_key_min future e c :
  indexed future -> (forall k, first_key future = Some k -> klt (key c) k) -> pends e future ->
  klt (key c) (key e).
Proof.
  intros Hix Hk He. destruct future as [|[k e'] rest]; [by apply not_elem_of_nil in He|].
  eapply klt_le_trans; [by apply Hk|]. exact (bm_first_min _ _ _ _ (ix_wf _ Hix) He).
Qed.

(** The state of the drain after the dispatch and its superseded timers. *)
Lemma drain_dispatch_rel base slot node d P ev d1 s' ts :
  draining base slot node d P -> taken base slot node d P ev d1 ->
  (forall t, t ∈ ts -> st_target t = node) ->
  let ex := dn_executor d1 <| ex_pending_keys ::= fun keys => (bs_remove (key ev) keys).2 |>
              <| ex_transitions := s' |> in
  match remove_timers (bm_remove (key ev) P) ts with
  | Ok P1 => exists ex1 future, fueled_fold (drain_timer slot) ex ts = Some (Ok ex1)
      /\ rel image ex1 (base ++ dn_outbox d1) P1 /\ ex_futures ex1 !! slot = Some future
      /\ framed slot (dn_executor d) ex1 /\ ex_transitions ex1 = s'
  | Err err => fueled_fold (drain_timer slot) ex ts = Some (Err err)
  end.
Proof.
  intros Hd Ht Hts ex.
  assert (Hr : rel image ex (base ++ dn_outbox d1) (bm_remove (key ev) P)).
  { eapply rel_frame; [..|exact (rel_forget image _ _ _ _ (tk_rel _ _ _ _ _ _ _ Ht))]; done. }
  assert (Hf : framed slot (dn_executor d) ex).
  { eapply framed_trans; [apply (in_framed _ _ _ _ _ (tk_indexes _ _ _ _ _ _ _ Ht))|]. by split. }
  assert (Hx : forall e, e ∈ base ++ dn_outbox d1 -> kind e <> RetransmissionTimeout).
  { intros e. rewrite (tk_outbox _ _ _ _ _ _ _ Ht). apply (dg_late _ _ _ _ _ Hd). }
  pose proof (drain_timers_rel slot node ex _ _ ts Hr (dg_slot _ _ _ _ _ Hd) Hx Hts) as Htm.
  destruct (remove_timers (bm_remove (key ev) P) ts) as [P1|err]; [|done].
  destruct Htm as (ex1 & Hex1 & Hr1 & Hf1 & Hm1).
  destruct (rel_future image _ _ _ _ _ Hr1 (dg_slot _ _ _ _ _ Hd)) as [future Hfu].
  exists ex1, future. split_and!; [done..| |done]. by eapply framed_trans.
Qed.

(** The invariant holds again once the children are indexed. *)
Lemma draining_after base slot node d P ev d1 cs ts P' direct d2 :
  draining base slot node d P -> taken base slot node d P ev d1 ->
  m_dispatch ev (ex_transitions (dn_executor d))
  = Some (Ok (cs, ts, ex_transitions (dn_executor d2))) ->
  fire ev (ex_transitions (dn_executor d), P) = Some (Ok (ex_transitions (dn_executor d2), P')) ->
  rel image (dn_executor d2) (base ++ flight d2) P' ->
  dn_outbox d2 = dn_outbox d1 ++ filter (fun c => target c <> node) cs ->
  dn_continuation d2 = direct ->
  (forall c, direct = Some c -> target c = node /\ time_ns (key c) = time_ns (key ev)
     /\ forall future e, ex_futures (dn_executor d2) !! slot = Some future -> pends e future ->
          klt (key c) (key e)) ->
  0 <= dn_fallback_classified_pushes d2 <= m_next_seq (ex_transitions (dn_executor d2)) node ->
  draining base slot node d2 P'.
Proof.
  intros Hd Ht Hdis Hf Hr Ho Hc Hdir Hp.
  pose proof (dg_config _ _ _ _ _ Hd) as Hok. pose proof (tk_safe _ _ _ _ _ _ _ Ht) as Hs.
  assert (HF : F <= time_ns (key ev)) by (apply (dg_lower _ _ _ _ _ Hd), Hs).
  pose proof (fun c => child_times _ _ _ _ _ _ c Hok Hs HF Hdis) as Hct.
  split; [apply Hd| | |done| | |done].
  - exact (fire_config_ok image ev (_, P) (_, P') Hok Hs Hf).
  - destruct (fire_Ok image ev (_, P) (_, P') Hok Hs Hf) as (cs' & ts' & out & Hfd).
    pose proof (fd_dispatch _ _ _ _ _ _ Hfd) as Hd'. simpl in Hd'. rewrite Hdis in Hd'.
    injection Hd' as <- <-. intros e [(Hx & _)|Hx]%(fd_pends _ _ _ _ _ _ Hfd);
      [by apply (dg_lower _ _ _ _ _ Hd)|]. by apply Hct.
  - intros e. rewrite Ho, (tk_outbox _ _ _ _ _ _ _ Ht), app_assoc, elem_of_app, list_elem_of_filter.
    intros [Hx|[Hne Hx]]; [by apply (dg_late _ _ _ _ _ Hd)|].
    apply Hct; [done|]. by rewrite (tk_target _ _ _ _ _ _ _ Ht).
  - intros c Hcc. rewrite Hc in Hcc. destruct (Hdir c Hcc) as (? & Htm & ?).
    split_and!; [|done..]. rewrite Htm. apply Ht.
Qed.

(** The body of the drain loop is one dispatch of the machine. *)
Lemma drain_event_rel base slot node d P ev d1 :
  draining base slot node d P -> taken base slot node d P ev d1 ->
  match fire ev (ex_transitions (dn_executor d), P) with
  | Some (Ok (s', P')) => exists d', drain_event slot node ev d1 = Some (Ok d')
      /\ draining base slot node d' P' /\ ex_transitions (dn_executor d') = s'
      /\ framed slot (dn_executor d) (dn_executor d')
      /\ dn_events_processed d' = saturating_add (dn_events_processed d) 1
  | Some (Err _) => exists err, drain_event slot node ev d1 = Some (Err err)
  | None => drain_event slot node ev d1 = None
  end.
Proof.
  intros Hd Ht. pose proof (tk_indexes _ _ _ _ _ _ _ Ht) as [_ Hm He Hp].
  pose proof (dg_config _ _ _ _ _ Hd) as Hok. pose proof (tk_safe _ _ _ _ _ _ _ Ht) as Hs.
  pose proof (tk_target _ _ _ _ _ _ _ Ht) as Htg. pose proof (dg_pushes _ _ _ _ _ Hd) as Hpush.
  unfold drain_event. cbn zeta.
  change (ex_transitions (dn_executor d1 <| ex_pending_keys ::= ?g |>))
    with (ex_transitions (dn_executor d1)). rewrite Hm.
  destruct (m_dispatch ev (ex_transitions (dn_executor d))) as [[[[cs ts] s']|err]|] eqn:Hdis;
    [|unfold fire; simpl; rewrite Hdis; simpl; eauto..].
  cbn [lift_result mbind fueled_bind].
  assert (Hts : forall t, t ∈ ts -> st_target t = node).
  { intros t. rewrite <- Htg. eapply m_timers_local; [apply Hok|done..]. }
  pose proof (drain_dispatch_rel base slot node d P ev d1 s' ts Hd Ht Hts) as Hex. cbn zeta in Hex.
  pose proof (fire_dispatch image ev (_, P) cs ts s' Hok Hs Hdis) as Hf. simpl in Hf.
  destruct (remove_timers (bm_remove (key ev) P) ts) as [P1|err1] eqn:Htm.
  2:{ rewrite Hf, Hex. simpl. eauto. }
  destruct Hex as (ex1 & future & -> & Hr1 & Hfu & Hfr & Hm1). destruct Hf as (P' & Hi & Hf).
  rewrite Hf. cbn [mbind fueled_bind]. rewrite Hfu. cbn [or_panic mbind fueled_bind].
  change (match cs with [child] => _ | _ => None end)
    with (direct_child_of ev node (first_key future) cs).
  pose proof (direct_child_spec ev node (first_key future) cs) as Hdc.
  set (direct := direct_child_of ev node (first_key future) cs) in *.
  destruct (m_children_seq ev _ _ _ _ _ (co_ok _ _ Hok) Hs Hdis) as (_ & _ & Hseq).
  specialize (Hseq node). rewrite (proj2 (Z.eqb_eq node (target ev)) (eq_sym Htg)) in Hseq.
  cbn [fst] in Hseq.
  pose proof (m_next_seq_range _ _ node
    (co_ok _ _ (fire_config_ok image ev (_, P) (_, P') Hok Hs Hf))) as Hrange. cbn [fst] in Hrange.
  destruct (drain_all_children_rel slot node direct (d1 <| dn_executor := ex1 |>) base P1 cs P')
    as (d2 & -> & Hr2 & [Hfr2 Hm2 Hev2 Hp2] & Ho2 & Hc2 & Hfu2); simpl in *.
  { unfold flight. simpl. rewrite (tk_continuation _ _ _ _ _ _ _ Ht). simpl. by rewrite app_nil_r. }
  { apply Hd. }
  { done. }
  { apply Ht. }
  { intros c Hc. apply Hdc in Hc. tauto. }
  { lia. }
  eexists. split; [done|]. simpl. split_and!; [|congruence|by eapply framed_trans|by rewrite Hev2, He].
  apply (draining_after base slot node d P ev d1 cs ts P' direct);
    simpl; rewrite ?Hm2, ?Hm1; try done; [|lia].
  intros c Hc. destruct (Hdc c Hc) as (_ & ? & ? & Hk). split_and!; [done..|].
  rewrite Hfu2 by eauto. intros f e Hl Hx. rewrite Hfu in Hl. injection Hl as <-.
  eapply next_key_min; [exact (rl_indexed _ _ _ _ Hr1 _ _ Hfu)|done..].
Qed.

(** The LP holds nothing below the horizon. *)
Definition slot_drained (slot : nat) ex : Prop :=
  forall future e, ex_futures ex !! slot = Some future -> pends e future -> Hz <= time_ns (key e).

(** A drain that returns has made safe dispatches, and counted them. *)
Lemma drain_loop_steps fuel base slot node d P d' :
  draining base slot node d P -> 0 <= dn_events_processed d <= u64_max ->
  drain_loop fuel slot node Hz d = Some (Ok d') ->
  exists k P', steps image Hz k (ex_transitions (dn_executor d), P)
                 (ex_transitions (dn_executor d'), P')
    /\ draining base slot node d' P' /\ dn_continuation d' = None
    /\ slot_drained slot (dn_executor d') /\ framed slot (dn_executor d) (dn_executor d')
    /\ dn_events_processed d' = saturating_add (dn_events_processed d) (Z.of_nat k)
    /\ (slot_drained slot (dn_executor d) \/ (0 < k)%nat).
Proof.
  revert d P. induction fuel as [|fuel IH]; intros d P Hd Hev Hl; cbn [drain_loop] in Hl;
    (destruct (drain_next_spec base slot node d P Hd)
       as [(Hn & Hc & Hdr)|(ev & d1 & Hn & Ht)]; rewrite Hn in Hl; cbn [mbind fueled_bind] in Hl;
     [injection Hl as <-; exists O, P; split_and!;
        [constructor|done|done|done|apply framed_refl|mlia|by left]|]).
  - done.
  - apply fueled_bind_Ok in Hl as (d2 & Hev2 & Hl).
    pose proof (drain_event_rel _ _ _ _ _ _ _ Hd Ht) as Hr.
    destruct (fire ev _) as [[[s2 P2]|err]|] eqn:Hf;
      [|destruct Hr as (? & Hr); congruence|congruence].
    destruct Hr as (d3 & Hd3 & Hd2 & Hm & Hfr & Hcnt). rewrite Hd3 in Hev2. injection Hev2 as <-.
    destruct (IH _ _ Hd2) as (k & P' & Hst & Hdn & Hcn & Hsd & Hfr' & Hcnt' & _); [mlia|done|].
    exists (S k), P'. split_and!; [|done|done|done|by eapply framed_trans|mlia|right; lia].
    econstructor; [apply Ht|apply Ht|exact Hf|]. by rewrite <- Hm.
Qed.

(** And a drain inside a run that ends returns. *)
Lemma drain_loop_returns fuel base slot node d P E n c' :
  draining base slot node d P -> Hz <= E ->
  drains image E n (ex_transitions (dn_executor d), P) c' -> (n <= fuel)%nat ->
  exists d', drain_loop fuel slot node Hz d = Some (Ok d').
Proof.
  revert d P n c'. induction fuel as [|fuel IH]; intros d P n c' Hd HE Hdr Hn; cbn [drain_loop];
    (destruct (drain_next_spec base slot node d P Hd)
       as [(-> & _)|(ev & d1 & -> & Ht)]; cbn [mbind fueled_bind]; [by eexists|]);
    destruct (drains_first image E n _ _ ev (dg_config _ _ _ _ _ Hd) Hdr)
      as (m & [s2 P2] & c'' & -> & Hf & Hdr' & _);
    [apply Ht|pose proof (tk_time _ _ _ _ _ _ _ Ht); lia| |apply Ht|
     pose proof (tk_time _ _ _ _ _ _ _ Ht); lia|].
  - lia.
  - pose proof (drain_event_rel _ _ _ _ _ _ _ Hd Ht) as Hr. rewrite Hf in Hr.
    destruct Hr as (d3 & -> & Hd2 & Hm & _). cbn [mbind fueled_bind].
    apply (IH d3 P2 m c''); [done..| |lia]. by rewrite Hm.
Qed.
End drain.
