(* ===== verification/RoundsFrontier.v ===== *)
(** * The lazy frontier index (executor/src/safe_horizon.rs, [OwnerFrontierIndex])

    The heap keeps superseded entries; an entry is live when it carries its LP's
    current generation. The live entries are exactly the LP frontiers, so
    [peek_min] finds the least pending time and [collect_active] the LPs below
    the horizon. *)

From S2P Require Import Prelude OrdMap Event ExecError Fel Image Machine Rounds.

Lemma frontier_push_perm entry heap : frontier_push entry heap ≡ₚ entry :: heap.
Proof.
  induction heap as [|e heap IH]; simpl; [done|]. case_match; [done|]. rewrite IH. constructor.
Qed.

Lemma frontier_push_sorted entry heap :
  StronglySorted kle heap -> StronglySorted kle (frontier_push entry heap).
Proof.
  induction heap as [|e heap IH]; intros Hs; simpl; [repeat constructor|].
  pose proof Hs as [Hs' HF]%StronglySorted_inv. destruct (kleb entry e) eqn:E.
  - apply kleb_spec in E. constructor; [done|]. constructor; [done|].
    eapply Forall_impl; [exact HF|]. intros x Hx. by etrans.
  - apply kleb_false in E. constructor; [by apply IH|]. rewrite frontier_push_perm.
    constructor; [by apply klt_le|done].
Qed.

Lemma kle_frontier_time (a b : FrontierEntry) : kle a b -> fe_time_ns a <= fe_time_ns b.
Proof.
  change (kle a b) with (kle (frontier_tuple a) (frontier_tuple b)).
  unfold frontier_tuple. rewrite kle_lt_eq, klt_pair, klt_Z. simpl. intros [[?|[? _]]|[= ? _]]; lia.
Qed.

Section frontier.
Context {M : Type} (image : SimulationImage).
Implicit Types (ex : RoundExecutor M) (index : OwnerFrontierIndex) (entry : FrontierEntry).

Definition live index entry : Prop :=
  fi_generations index !! fe_lp_slot entry = Some (fe_generation entry).

(** The entry an LP's frontier is published as. *)
Definition publishes (futures : list (bmap EventKey Event)) entry : Prop :=
  exists nd future k, im_nodes image !! fe_lp_slot entry = Some nd /\ fe_node entry = nd_id nd
    /\ futures !! fe_lp_slot entry = Some future /\ first_key future = Some k
    /\ fe_time_ns entry = time_ns k.

(** The index is correct but for the LPs in [skip], whose frontier is yet to be
    published again. *)
Record frontier_ok (skip : nat -> Prop) (futures : list (bmap EventKey Event)) index : Prop := {
  fo_sorted : StronglySorted kle (fi_heap index);
  fo_nodup : NoDup (fi_heap index);
  fo_length : length (fi_generations index) = length (im_nodes image);
  fo_generation : forall entry, entry ∈ fi_heap index ->
    exists g, fi_generations index !! fe_lp_slot entry = Some g /\ fe_generation entry <= g;
  fo_live : forall entry, entry ∈ fi_heap index -> live index entry -> ~ skip (fe_lp_slot entry) ->
    publishes futures entry;
  fo_all : forall slot future k, ~ skip slot -> futures !! slot = Some future ->
    first_key future = Some k ->
    exists entry, entry ∈ fi_heap index /\ fe_lp_slot entry = slot /\ live index entry;
}.

(** At most one live entry per LP. *)
Lemma publishes_unique futures index e1 e2 :
  live index e1 -> live index e2 -> publishes futures e1 -> publishes futures e2 ->
  fe_lp_slot e1 = fe_lp_slot e2 -> e1 = e2.
Proof.
  destruct e1, e2. unfold live, publishes. simpl. intros H1 H2
    (nd1 & f1 & k1 & Hn1 & -> & Hf1 & Hk1 & ->) (nd2 & f2 & k2 & Hn2 & -> & Hf2 & Hk2 & ->) ->.
  simplify_eq. done.
Qed.

Lemma frontier_update_spec skip futures index slot nd future probes :
  frontier_ok skip futures index -> im_nodes image !! slot = Some nd ->
  futures !! slot = Some future ->
  exists g, fi_generations index !! slot = Some g /\
    ((g + 1 <= u64_max /\
      exists index' probes', frontier_update index slot (nd_id nd) (first_key future) probes
          = Some (Ok (index', probes'))
        /\ frontier_ok (fun s => skip s /\ s <> slot) futures index'
        /\ fi_generations index' = <[slot := g + 1]> (fi_generations index))
     \/ (u64_max < g + 1 /\
         frontier_update index slot (nd_id nd) (first_key future) probes
         = Some (Err (CounterOverflow (nd_id nd))))).
Proof.
  intros Hok Hnd Hf.
  assert (Hlt : (slot < length (fi_generations index))%nat).
  { rewrite (fo_length _ _ _ Hok). by eapply lookup_lt_Some. }
  destruct (lookup_lt_is_Some_2 _ _ Hlt) as [g Hg]. exists g. split; [done|].
  unfold frontier_update. rewrite Hg. cbn [or_panic mbind fueled_bind].
  destruct (decide (g + 1 <= u64_max)) as [Hb|Hb].
  2:{ right. split; [lia|]. rewrite (proj2 (checked_add_None g 1)) by lia. done. }
  left. split; [done|]. rewrite (proj2 (checked_add_Some g 1 (g + 1))) by done.
  cbn [ok_or lift_result mbind fueled_bind]. eexists _, _. split; [done|]. split; [|done].
  set (heap' := match first_key future with Some _ => _ | None => _ end).
  assert (Hin : forall x, x ∈ heap' <-> x ∈ fi_heap index \/
            exists k, first_key future = Some k /\ x = mkFrontier (time_ns k) (nd_id nd) (g + 1) slot).
  { intros x. unfold heap'. destruct (first_key future) as [k|].
    - rewrite frontier_push_perm, elem_of_cons. naive_solver.
    - naive_solver. }
  assert (Hold : forall x, x ∈ fi_heap index -> fe_lp_slot x = slot -> fe_generation x <= g).
  { intros x Hx Hs. destruct (fo_generation _ _ _ Hok x Hx) as (g' & Hg' & ?).
    rewrite Hs, Hg in Hg'. injection Hg' as <-. done. }
  assert (Hlive : forall x, x ∈ fi_heap index ->
            live (mkFrontierIndex heap' (<[slot := g + 1]> (fi_generations index))) x ->
            fe_lp_slot x <> slot /\ live index x).
  { intros x Hx Hl. unfold live in *. simpl in Hl. destruct (decide (fe_lp_slot x = slot)) as [Hs|Hs].
    - rewrite Hs, list_lookup_insert_eq in Hl by done. pose proof (Hold x Hx Hs). simplify_eq. lia.
    - by rewrite list_lookup_insert_ne in Hl by done. }
  split; simpl.
  - unfold heap'. destruct (first_key future); [apply frontier_push_sorted|]; apply Hok.
  - unfold heap'. destruct (first_key future); [|apply Hok]. rewrite frontier_push_perm.
    constructor; [|apply Hok]. intros Hx. apply Hold in Hx; simpl in *; lia.
  - by rewrite length_insert, (fo_length _ _ _ Hok).
  - intros x [Hx|(k & _ & ->)]%Hin; simpl.
    + destruct (fo_generation _ _ _ Hok x Hx) as (g' & Hg' & ?).
      destruct (decide (fe_lp_slot x = slot)) as [Hs|Hs].
      * exists (g + 1). rewrite Hs, list_lookup_insert_eq by done. split; [done|].
        pose proof (Hold x Hx Hs). lia.
      * exists g'. by rewrite list_lookup_insert_ne by done.
    + exists (g + 1). rewrite list_lookup_insert_eq by done. split; [done|lia].
  - intros x [Hx|(k & Hk & ->)]%Hin Hl Hs; simpl in *.
    + destruct (Hlive x Hx Hl) as [Hne Hl']. apply (fo_live _ _ _ Hok); [done..|]. tauto.
    + exists nd, future, k. done.
  - intros s f k Hs Hl Hk. destruct (decide (s = slot)) as [->|Hne].
    + assert (f = future) as -> by congruence.
      exists (mkFrontier (time_ns k) (nd_id nd) (g + 1) slot). split_and!; [|done|].
      * apply Hin. right. by exists k.
      * unfold live. simpl. by rewrite list_lookup_insert_eq.
    + destruct (fo_all _ _ _ Hok s f k) as (x & Hx & Hxs & Hxl); [tauto|done..|].
      exists x. split_and!; [apply Hin; by left|done|]. unfold live. simpl.
      by rewrite list_lookup_insert_ne by congruence.
Qed.

Lemma frontier_ok_mono (skip skip' : nat -> Prop) futures index :
  (forall s, skip s -> skip' s) -> frontier_ok skip futures index -> frontier_ok skip' futures index.
Proof.
  intros Hs [H1 H2 H3 H4 H5 H6]. split; [done..| |].
  - intros x Hx Hl Hn. apply H5; auto.
  - intros s f k Hn. apply H6. auto.
Qed.

(** Only the maps of the LPs that are not skipped matter. *)
Lemma frontier_ok_futures skip futures futures' index :
  (forall s, ~ skip s -> futures' !! s = futures !! s) ->
  frontier_ok skip futures index -> frontier_ok skip futures' index.
Proof.
  intros Hs [H1 H2 H3 H4 H5 H6]. split; [done..| |].
  - intros x Hx Hl Hn. destruct (H5 x Hx Hl Hn) as (nd & f & k & ? & ? & Hf & ?).
    exists nd, f, k. by rewrite Hs.
  - intros s f k Hn Hf. rewrite Hs in Hf by done. by eapply H6.
Qed.

(** Popping the least entry: its LP is skipped, unless the entry is stale. *)
Lemma frontier_ok_tail skip futures x heap gens :
  frontier_ok skip futures (mkFrontierIndex (x :: heap) gens) ->
  frontier_ok (fun s => skip s \/ (live (mkFrontierIndex (x :: heap) gens) x /\ s = fe_lp_slot x))
    futures (mkFrontierIndex heap gens).
Proof.
  intros [H1 H2 H3 H4 H5 H6]. simpl in *. apply StronglySorted_inv in H1 as [H1 _].
  apply NoDup_cons in H2 as [_ H2]. split; simpl; [done..| | |].
  - intros y Hy. apply H4. by right.
  - intros y Hy Hl Hn. apply H5; [by right|done|]. tauto.
  - intros s f k Hn Hf Hk. destruct (H6 s f k) as (y & Hy & Hys & Hyl); [tauto|done..|].
    apply elem_of_cons in Hy as [->|Hy]; [|by exists y]. exfalso. apply Hn. by right.
Qed.

(** No popped entry's LP is still in the heap. *)
Definition unpopped (skip : nat -> Prop) index : Prop :=
  forall x, x ∈ fi_heap index -> live index x -> ~ skip (fe_lp_slot x).

Lemma peek_min_spec skip futures index pops probes :
  frontier_ok skip futures index -> unpopped skip index ->
  exists e index' pops' probes',
    peek_min index pops probes = Some (Ok (e, index', pops', probes'))
    /\ frontier_ok skip futures index' /\ unpopped skip index'
    /\ fi_generations index' = fi_generations index
    /\ (length (fi_heap index') <= length (fi_heap index))%nat
    /\ match e with
       | None => fi_heap index' = []
       | Some e => live index' e /\ exists rest, fi_heap index' = e :: rest
       end.
Proof.
  destruct index as [heap gens]. unfold peek_min. cbn [fi_heap fi_generations].
  revert pops probes. induction heap as [|x heap IH]; intros pops probes Hok Hu; cbn [peek_min_from].
  { eexists None, _, _, _. split; [done|]. by split_and!. }
  destruct (fo_generation _ _ _ Hok x) as (g & Hg & _); [left|]. simpl in Hg. rewrite Hg.
  cbn [or_panic mbind fueled_bind]. destruct (Z.eqb_spec g (fe_generation x)) as [->|Hne].
  { eexists (Some x), _, _, _. split; [done|]. split_and!; [done..|by eexists]. }
  destruct (IH (saturating_add pops 1) (saturating_add probes 1))
    as (e & index' & p1 & p2 & Hp & Hok' & Hu' & Hg' & Hl' & He).
  - eapply frontier_ok_mono; [|by apply frontier_ok_tail]. intros s [?|[Hl _]]; [done|].
    unfold live in Hl. simpl in Hl. congruence.
  - intros y Hy. apply Hu. by right.
  - exists e, index', p1, p2. split_and!; [done..|simpl in *; lia|done].
Qed.

(** The least live entry is the least frontier. *)
Lemma peek_min_least skip futures index e rest :
  frontier_ok skip futures index -> fi_heap index = e :: rest ->
  forall slot future k, ~ skip slot -> futures !! slot = Some future -> first_key future = Some k ->
  fe_time_ns e <= time_ns k.
Proof.
  intros Hok Hh slot future k Hs Hf Hk.
  destruct (fo_all _ _ _ Hok slot future k Hs Hf Hk) as (x & Hx & Hxs & Hl).
  destruct (fo_live _ _ _ Hok x Hx Hl) as (nd & f & k' & _ & _ & Hf' & Hk' & Ht);
    [by rewrite Hxs|]. rewrite Hxs, Hf in Hf'. simplify_eq. rewrite <- Ht.
  apply kle_frontier_time. rewrite Hh in Hx. apply elem_of_cons in Hx as [->|Hx]; [apply kle_refl|].
  pose proof (fo_sorted _ _ _ Hok) as Hsorted. rewrite Hh in Hsorted.
  apply StronglySorted_inv in Hsorted as [_ HF]. rewrite Forall_forall in HF. by apply HF.
Qed.

Lemma peek_min_empty skip futures index slot future :
  frontier_ok skip futures index -> fi_heap index = [] -> ~ skip slot ->
  futures !! slot = Some future -> future = [].
Proof.
  intros Hok Hh Hs Hf. destruct future as [|[k e] future]; [done|].
  destruct (fo_all _ _ _ Hok slot _ k Hs Hf eq_refl) as (x & Hx & _). rewrite Hh in Hx.
  by apply not_elem_of_nil in Hx.
Qed.

Lemma pop_before_spec skip futures index hz pops probes :
  frontier_ok skip futures index -> unpopped skip index ->
  exists e index' pops' probes',
    pop_before index hz pops probes = Some (Ok (e, index', pops', probes'))
    /\ fi_generations index' = fi_generations index
    /\ match e with
       | None => frontier_ok skip futures index'
           /\ forall slot future k, ~ skip slot -> futures !! slot = Some future ->
                first_key future = Some k -> hz <= time_ns k
       | Some e => frontier_ok (fun s => skip s \/ s = fe_lp_slot e) futures index'
           /\ unpopped (fun s => skip s \/ s = fe_lp_slot e) index'
           /\ ~ skip (fe_lp_slot e) /\ publishes futures e /\ fe_time_ns e < hz
           /\ (length (fi_heap index') < length (fi_heap index))%nat
       end.
Proof.
  intros Hok Hu. unfold pop_before.
  destruct (peek_min_spec skip futures index pops probes Hok Hu)
    as (e & index1 & p1 & p2 & -> & Hok1 & Hu1 & Hg1 & Hl1 & He). cbn [mbind fueled_bind].
  destruct e as [e|].
  2:{ eexists None, _, _, _. split; [done|]. split_and!; [done..|].
      intros slot future k Hs Hf Hk. by rewrite (peek_min_empty _ _ _ _ _ Hok1 He Hs Hf) in Hk. }
  destruct He as (Hlive & rest & Hh). destruct (Z.leb_spec hz (fe_time_ns e)) as [Hle|Hlt].
  { eexists None, _, _, _. split; [done|]. split_and!; [done..|]. intros slot future k Hs Hf Hk.
    pose proof (peek_min_least _ _ _ _ _ Hok1 Hh _ _ _ Hs Hf Hk). lia. }
  destruct index1 as [heap gens]. simpl in *. subst heap. simpl. eexists (Some e), _, _, _.
  assert (Hns : ~ skip (fe_lp_slot e)) by (apply Hu1; [left|done]).
  assert (Hpub : publishes futures e) by (apply (fo_live _ _ _ Hok1); [left|done..]).
  split; [done|]. split_and!; [done| | |done..|simpl in *; lia].
  - eapply frontier_ok_mono; [|by apply frontier_ok_tail]. simpl. tauto.
  - intros x Hx Hl Hor. simpl in *. destruct Hor as [Hs|Hs].
    + apply (Hu1 x); [by right|done..].
    + assert (x = e) as ->.
      { eapply publishes_unique; [exact Hl|exact Hlive| |exact Hpub|done].
        apply (fo_live _ _ _ Hok1); [by right|done|by rewrite Hs]. }
      pose proof (fo_nodup _ _ _ Hok1) as [Hn _]%NoDup_cons. done.
Qed.

(** The active LPs are the LPs with an event below the horizon, each once. *)
Lemma collect_active_spec fuel skip futures index hz pops probes :
  frontier_ok skip futures index -> unpopped skip index -> (length (fi_heap index) <= fuel)%nat ->
  exists active index' pops' probes',
    collect_active fuel index hz pops probes = Some (Ok (active, index', pops', probes'))
    /\ fi_generations index' = fi_generations index
    /\ frontier_ok (fun s => skip s \/ s ∈ fe_lp_slot <$> active) futures index'
    /\ NoDup (fe_lp_slot <$> active)
    /\ (forall e, e ∈ active ->
         ~ skip (fe_lp_slot e) /\ publishes futures e /\ fe_time_ns e < hz)
    /\ (forall slot future k, ~ skip slot -> slot ∉ fe_lp_slot <$> active ->
         futures !! slot = Some future -> first_key future = Some k -> hz <= time_ns k).
Proof.
  revert skip index pops probes. induction fuel as [|fuel IH]; intros skip index pops probes Hok Hu Hl;
    cbn [collect_active];
    (destruct (pop_before_spec skip futures index hz pops probes Hok Hu)
       as (e & index1 & p1 & p2 & -> & Hg1 & He); cbn [mbind fueled_bind]; destruct e as [e|];
     [|destruct He as [Hok1 Hall]; eexists [], _, _, _; split; [done|]; split_and!;
       [done|by eapply frontier_ok_mono; [|exact Hok1]; auto|constructor|by intros ? ?%not_elem_of_nil|
        intros; by eapply Hall]]);
    destruct He as (Hok1 & Hu1 & Hns & Hpub & Ht & Hlt); [lia|].
  destruct (IH _ index1 p1 p2 Hok1 Hu1) as (active & index2 & p3 & p4 & -> & Hg2 & Hok2 & Hnd & Ha & Hall);
    [lia|]. cbn [mbind fueled_bind]. eexists (e :: active), _, _, _. split; [done|].
  split_and!; [congruence| |constructor; [|done]| |].
  - eapply frontier_ok_mono; [|exact Hok2]. intros s. csimpl. rewrite elem_of_cons. tauto.
  - intros (x & Hx & Hin)%list_elem_of_fmap. destruct (Ha x Hin) as [Hn _]. apply Hn. by right.
  - intros x [->|Hx]%elem_of_cons; [done|]. destruct (Ha x Hx) as (Hn & ? & ?). split; [tauto|done].
  - intros slot future k Hs Hna. csimpl in Hna. rewrite elem_of_cons in Hna. apply Hall; tauto.
Qed.
End frontier.
