(* ===== verification/RoundsMain.v ===== *)
(** * Rounds and the scalar run agree (executor/src/safe_horizon.rs, scalar.rs)

    One round makes safe dispatches, exchanges what they sent and keeps the
    frontier index; the executor returns exactly when the scalar event loop
    does, with the same result. *)

From S2P Require Import Prelude OrdMap Event ExecError Fel Image Radix Machine ScalarLoop.
From S2P Require Import Rounds RoundsSpec RoundsFrontier.

Section round.
Context {M R : Type} `{HM : Machine M R} (image : SimulationImage)
  `{HL : !MachineLaws M R image}.
Implicit Types (ex : RoundExecutor M) (P : pending).

(** The generations stay below a bound, by LP. *)
Definition generations_below (bound : nat -> Z) ex : Prop :=
  forall s g, fi_generations (ex_frontier ex) !! s = Some g -> g <= bound s.

Lemma update_frontier_spec (skip : nat -> Prop) ex slot node probes :
  frontier_ok image skip (ex_futures ex) (ex_frontier ex) ->
  length (ex_futures ex) = length (im_nodes image) -> node_slot image node = Some slot ->
  (exists ex' probes', update_frontier image ex slot probes = Some (Ok (ex', probes'))
     /\ frontier_ok image (fun s => skip s /\ s <> slot) (ex_futures ex') (ex_frontier ex')
     /\ ex_futures ex' = ex_futures ex /\ ex_pending_keys ex' = ex_pending_keys ex
     /\ ex_transitions ex' = ex_transitions ex
     /\ ex_minimum_lookahead_ns ex' = ex_minimum_lookahead_ns ex
     /\ forall bound, generations_below bound ex ->
          generations_below (fun s => bound s + (if decide (s = slot) then 1 else 0)) ex')
  \/ (exists node', update_frontier image ex slot probes = Some (Err (CounterOverflow node'))
      /\ forall bound, generations_below bound ex -> u64_max <= bound slot).
Proof.
  intros Hok Hlen (_ & nd & Hnd & Hid)%node_slot_Some.
  destruct (lookup_lt_is_Some_2 (ex_futures ex) slot) as [future Hf].
  { rewrite Hlen. by eapply lookup_lt_Some. }
  unfold update_frontier. rewrite Hnd, Hf. cbn [or_panic mbind fueled_bind].
  destruct (frontier_update_spec image skip (ex_futures ex) (ex_frontier ex) slot nd future
              (saturating_add probes 1) Hok Hnd Hf)
    as (g & Hg & [(Hb & index' & probes' & -> & Hok' & Hgens)|(Hb & ->)]);
    cbn [mbind fueled_bind fst snd]; [left|right].
  - eexists _, _. split; [done|]. simpl. split_and!; [done..|].
    intros bound Hbd s g'. unfold generations_below in *. simpl. rewrite Hgens.
    destruct (decide (s = slot)) as [->|Hne].
    + rewrite list_lookup_insert_eq by (by eapply lookup_lt_Some). intros [= <-].
      apply Hbd in Hg. lia.
    + rewrite list_lookup_insert_ne by done. intros Hs. apply Hbd in Hs. lia.
  - eexists. split; [done|]. intros bound Hbd. apply Hbd in Hg. lia.
Qed.

(** ** The exchange *)

(** A group of events for one LP enters its map. *)
Lemma exchange_group_rel hz slot group rest ex P :
  rel image ex (group ++ rest) P ->
  (forall e, e ∈ group -> hz <= time_ns (key e) /\ node_slot image (target e) = Some slot) ->
  exists ex', fueled_fold (exchange_event hz slot) ex group = Some (Ok ex')
    /\ rel image ex' rest P /\ framed slot ex ex' /\ ex_transitions ex' = ex_transitions ex.
Proof.
  revert ex. induction group as [|e group IH]; intros ex Hr Hg; cbn [fueled_fold].
  { exists ex. split_and!; [done..|apply framed_refl|done]. }
  destruct (Hg e) as [Ht Hs]; [left|].
  destruct (rel_future image _ _ _ _ _ Hr Hs) as [future Hf].
  destruct (rel_put image _ _ _ _ _ _ Hr Hf Hs) as [Hget Hr'].
  assert (He : exchange_event hz slot ex e
    = Some (Ok (ex <| ex_futures ::= <[slot := bm_insert (key e) e future]> |>))).
  { unfold exchange_event. rewrite (proj2 (Z.ltb_ge _ _) Ht), Hf. cbn [or_panic mbind fueled_bind].
    by rewrite Hget. }
  rewrite He. cbn [mbind fueled_bind].
  destruct (IH _ Hr') as (ex' & -> & Hr2 & Hfr & Hm).
  { intros x Hx. apply Hg. by right. }
  exists ex'. split_and!; [done..| |done]. eapply framed_trans; [apply framed_insert|done].
Qed.

Lemma take_while_split {A} (p : A -> bool) (l : list A) :
  l = take_while p l ++ drop (length (take_while p l)) l
  /\ Forall (fun x => p x = true) (take_while p l)
  /\ match drop (length (take_while p l)) l with [] => True | x :: _ => p x = false end.
Proof.
  induction l as [|x l (H1 & H2 & H3)]; simpl; [by split_and!; [|constructor|]|].
  destruct (p x) eqn:E; simpl; [|split_and!; [done|constructor|done]].
  split_and!; [by f_equal|by constructor|done].
Qed.

(** The targets after a group of sorted events are other LPs. *)
Lemma sorted_group (events : list Event) first rest :
  StronglySorted remote_le events -> events = first :: rest ->
  let group := take_while (fun e => target e =? target first) events in
  let later := drop (length group) events in
  events = group ++ later /\ group <> []
  /\ (forall e, e ∈ group -> target e = target first)
  /\ (forall e, e ∈ later -> target e <> target first)
  /\ StronglySorted remote_le later.
Proof.
  intros Hs Heq group later.
  destruct (take_while_split (fun e => target e =? target first) events) as (H1 & H2 & H3).
  fold group in H1, H2, H3. fold later in H1, H3.
  assert (Hl : StronglySorted remote_le later).
  { rewrite H1 in Hs. by apply StronglySorted_app_1_r in Hs. }
  assert (Hg : group <> []) by (unfold group; rewrite Heq; simpl; by rewrite Z.eqb_refl).
  clearbody later group. split_and!; [done|done| | |done].
  - intros e He. rewrite Forall_forall in H2. apply H2 in He. lia.
  - intros e He Ht. destruct later as [|x later]; [by apply not_elem_of_nil in He|].
    assert (Hle : forall a b, remote_le a b -> target a <= target b).
    { intros a b. unfold remote_le, remote_order. rewrite kle_lt_eq, klt_pair, klt_Z. simpl.
      intros [[?|[? _]]|[= ? _]]; lia. }
    assert (Hx : target first <= target x).
    { rewrite Heq in H1, Hs. destruct group as [|g group]; [done|].
      injection H1 as -> ->. apply StronglySorted_inv in Hs as [_ HF]. rewrite Forall_forall in HF.
      apply Hle, HF. set_solver. }
    assert (Hxe : target x <= target e).
    { apply elem_of_cons in He as [->|He]; [lia|]. apply StronglySorted_inv in Hl as [_ HF].
      rewrite Forall_forall in HF. by apply Hle, HF. }
    lia.
Qed.

(** Publishing the frontier of [slot], whose generation is at most [b]. *)
Lemma bound_step (bound : nat -> Z) b slot s :
  bound slot <= b -> (forall s, bound s <= b + 1) ->
  bound s + (if decide (s = slot) then 1 else 0) <= b + 1.
Proof. intros H1 H2. case_decide as Hs; [subst; lia|]. specialize (H2 s). lia. Qed.

(** The exchange puts every event in its LP's map and publishes the frontier of
    each receiver once. *)
Lemma exchange_spec fuel hz events ex updates probes P bound b :
  rel image ex events P -> StronglySorted remote_le events ->
  (forall e, e ∈ events -> hz <= time_ns (key e) /\ is_Some (node_slot image (target e))) ->
  frontier_ok image (fun _ => False) (ex_futures ex) (ex_frontier ex) ->
  generations_below bound ex -> (forall s, bound s <= b + 1) ->
  (forall e s, e ∈ events -> node_slot image (target e) = Some s -> bound s <= b) ->
  (length events <= fuel)%nat ->
  (exists ex' updates' probes',
     exchange image fuel hz events ex updates probes = Some (Ok (ex', updates', probes'))
     /\ rel image ex' [] P
     /\ frontier_ok image (fun _ => False) (ex_futures ex') (ex_frontier ex')
     /\ ex_transitions ex' = ex_transitions ex
     /\ ex_minimum_lookahead_ns ex' = ex_minimum_lookahead_ns ex
     /\ generations_below (fun _ => b + 1) ex')
  \/ (u64_max <= b /\ exists node,
       exchange image fuel hz events ex updates probes = Some (Err (CounterOverflow node))).
Proof.
  revert events ex updates probes bound.
  induction fuel as [|fuel IH]; intros events ex updates probes bound Hr Hs He Hok Hbd Hb1 Hb Hlen;
    (destruct events as [|first rest];
     [left; eexists _, _, _; split; [done|]; split_and!; try done; intros s g Hg;
      specialize (Hb1 s); apply Hbd in Hg; lia|]); [simpl in Hlen; lia|].
  cbn [exchange]. destruct (He first) as [_ [slot Hslot]]; [left|]. rewrite Hslot.
  cbn [ok_or lift_result mbind fueled_bind].
  destruct (sorted_group _ first rest Hs eq_refl) as (Hsplit & Hne & Hg & Hlater & Hsl).
  set (group := take_while _ _) in *. set (later := drop _ _) in *.
  destruct (exchange_group_rel hz slot group later ex P) as (ex1 & -> & Hr1 & Hfr1 & Hm1).
  { by rewrite <- Hsplit. }
  { intros e Hin. rewrite (Hg e Hin). split; [|done]. apply He. rewrite Hsplit. set_solver. }
  cbn [mbind fueled_bind].
  destruct (update_frontier_spec (fun s => s = slot) ex1 slot (target first)
              (saturating_add probes 1)) as [(ex2 & p2 & -> & Hok2 & Hf2 & Hk2 & Hm2 & Hl2 & Hgn2)|
                                             (node & -> & Hov)].
  { eapply frontier_ok_futures; [apply (fr_futures _ _ _ Hfr1)|].
    rewrite (fr_frontier _ _ _ Hfr1). eapply frontier_ok_mono; [|exact Hok]. done. }
  { apply Hr1. }
  { done. }
  2:{ right. split; [|by eexists]. transitivity (bound slot); [apply Hov|].
      - intros s g. rewrite (fr_frontier _ _ _ Hfr1). apply Hbd.
      - apply (Hb first); [left|done]. }
  cbn [mbind fueled_bind].
  assert (Hbd1 : generations_below bound ex1).
  { intros s g. rewrite (fr_frontier _ _ _ Hfr1). apply Hbd. }
  assert (Hbs : bound slot <= b) by (apply (Hb first); [left|done]).
  destruct (IH later ex2 (saturating_add updates 1) p2
              (fun s => bound s + (if decide (s = slot) then 1 else 0)))
    as [(ex3 & u3 & p3 & -> & Hr3 & Hok3 & Hm3 & Hl3 & Hgn3)|[Hov Herr]].
  - by eapply rel_frame.
  - done.
  - intros e Hin. apply He. rewrite Hsplit. set_solver.
  - eapply frontier_ok_mono; [|exact Hok2]. intros s [-> ?]. done.
  - by apply Hgn2.
  - intros s. by apply bound_step.
  - intros e s Hin Hes. rewrite decide_False; [|].
    + rewrite Z.add_0_r. apply (Hb e s); [rewrite Hsplit; set_solver|done].
    + intros ->. apply (Hlater e Hin). by eapply node_slot_inj.
  - assert (length group <> 0%nat) by (by destruct group).
    rewrite Hsplit, length_app in Hlen. simpl in *. lia.
  - left. eexists _, _, _. split; [done|]. split_and!; [done..| | |done].
    + congruence.
    + rewrite Hl3, Hl2. apply Hfr1.
  - right. done.
Qed.

(** ** The drain phase of a round *)

Context (F Hz : Z).
Hypothesis window : forall ch, ch ∈ im_channels image -> Hz <= F + ch_min_delay_ns ch.
Implicit Types (st : RoundState (M := M)).

(** The round's state while the LPs in [remaining] are still to be drained. *)
Record rounding (b : Z) (remaining : list nat) st P : Prop := {
  rg_config : config_ok image (ex_transitions (rs_executor st), P);
  rg_lower : forall e, pends e P -> F <= time_ns (key e);
  rg_rel : rel image (rs_executor st) (concat (rs_outboxes st)) P;
  rg_late : forall e, e ∈ concat (rs_outboxes st) -> late Hz e;
  rg_frontier : frontier_ok image (fun s => s ∈ remaining)
    (ex_futures (rs_executor st)) (ex_frontier (rs_executor st));
  rg_nodup : NoDup remaining;
  rg_slots : forall s, s ∈ remaining -> exists node, node_slot image node = Some s;
  rg_drained : forall s, s ∉ remaining -> slot_drained Hz s (rs_executor st);
  rg_bound : exists bound, generations_below bound (rs_executor st)
    /\ (forall s, bound s <= b + 1) /\ forall s, s ∈ remaining -> bound s <= b;
}.

Lemma rounding_draining b slot remaining st P node :
  rounding b (slot :: remaining) st P -> node_slot image node = Some slot ->
  draining image F Hz (concat (rs_outboxes st)) slot node (mkDrain (rs_executor st) None 0 0 0 []) P.
Proof.
  intros Hr Hn. split; simpl; [done|apply Hr|apply Hr| | |done|].
  - rewrite app_nil_r. apply Hr.
  - rewrite app_nil_r. apply Hr.
  - pose proof (m_next_seq_range _ _ node (co_ok _ _ (rg_config _ _ _ _ Hr))). simpl in *. lia.
Qed.

(** What the drain of one LP gives the round. *)
Record entry_drained (slot : nat) (node : NodeId) st P d (s' : M) (P' : pending) (k : nat) : Prop := {
  ed_steps : steps image Hz k (ex_transitions (rs_executor st), P) (s', P');
  ed_draining : draining image F Hz (concat (rs_outboxes st)) slot node d P';
  ed_framed : framed slot (rs_executor st) (dn_executor d);
  ed_slot : slot_drained Hz slot (dn_executor d);
  ed_continuation : dn_continuation d = None;
  ed_machine : ex_transitions (dn_executor d) = s';
}.

Lemma concat_outboxes (outboxes : list (list Event)) outbox :
  concat (push_outbox outboxes outbox) = concat outboxes ++ outbox.
Proof.
  unfold push_outbox. destruct outbox; [by rewrite app_nil_r|]. rewrite concat_app. simpl. by rewrite app_nil_r.
Qed.

(** Publishing the drained LP's frontier re-establishes the round's state. *)
Lemma rounding_publish b slot node remaining st P d P' k s' work n u ex' probes :
  rounding b (slot :: remaining) st P -> entry_drained slot node st P d s' P' k ->
  frontier_ok image (fun s => s ∈ slot :: remaining /\ s <> slot) (ex_futures ex') (ex_frontier ex') ->
  ex_futures ex' = ex_futures (dn_executor d) -> ex_pending_keys ex' = ex_pending_keys (dn_executor d) ->
  ex_transitions ex' = ex_transitions (dn_executor d) ->
  (forall bound, generations_below bound (dn_executor d) ->
     generations_below (fun s => bound s + (if decide (s = slot) then 1 else 0)) ex') ->
  rounding b remaining
    (mkRoundState ex' (push_outbox (rs_outboxes st) (dn_outbox d)) work n u probes) P'.
Proof.
  intros Hr [Hst Hd Hfr Hsd Hc Hm] Hok Hf Hk Hm' Hgn.
  pose proof (rg_nodup _ _ _ _ Hr) as [Hns Hnd]%NoDup_cons.
  split; cbn [rs_executor rs_outboxes]; rewrite ?concat_outboxes.
  - rewrite Hm'. apply Hd.
  - apply Hd.
  - eapply rel_frame; [exact Hf|exact Hk|]. pose proof (dg_rel _ _ _ _ _ _ _ _ Hd) as Hrel.
    unfold flight in Hrel. rewrite Hc in Hrel. simpl in Hrel. by rewrite app_nil_r in Hrel.
  - apply Hd.
  - eapply frontier_ok_mono; [|exact Hok]. intros s [[->|?]%elem_of_cons ?]; done.
  - done.
  - intros s Hs. apply (rg_slots _ _ _ _ Hr). by right.
  - intros s Hs. unfold slot_drained. rewrite Hf. destruct (decide (s = slot)) as [->|Hne]; [done|].
    rewrite (fr_futures _ _ _ Hfr) by done. apply (rg_drained _ _ _ _ Hr). set_solver.
  - destruct (rg_bound _ _ _ _ Hr) as (bound & Hb1 & Hb2 & Hb3).
    assert (Hbs : bound slot <= b) by (apply Hb3; left).
    eexists. split; [apply (Hgn bound)|].
    + intros s g. rewrite (fr_frontier _ _ _ Hfr). apply Hb1.
    + split; [intros s; by apply bound_step|]. intros s Hs. rewrite decide_False by (by intros ->).
      rewrite Z.add_0_r. apply Hb3. by right.
Qed.

(** Publishing after the drain fails only when a generation is exhausted. *)
Lemma update_after_drain b slot node remaining st P d s' P' k probes :
  rounding b (slot :: remaining) st P -> entry_drained slot node st P d s' P' k ->
  (exists ex' probes', update_frontier image (dn_executor d) slot probes = Some (Ok (ex', probes'))
     /\ ex_transitions ex' = s'
     /\ ex_minimum_lookahead_ns ex' = ex_minimum_lookahead_ns (rs_executor st)
     /\ forall work n u p, rounding b remaining
          (mkRoundState ex' (push_outbox (rs_outboxes st) (dn_outbox d)) work n u p) P')
  \/ (u64_max <= b /\ exists node',
       update_frontier image (dn_executor d) slot probes = Some (Err (CounterOverflow node'))).
Proof.
  intros Hr Hed. pose proof (ed_framed _ _ _ _ _ _ _ _ Hed) as Hfr.
  destruct (update_frontier_spec (fun s => s ∈ slot :: remaining) (dn_executor d) slot node probes)
    as [(ex' & p' & -> & Hok & Hf & Hk & Hm & Hl & Hgn)|(node' & -> & Hov)].
  - eapply frontier_ok_futures; [|rewrite (fr_frontier _ _ _ Hfr); apply Hr].
    intros s Hs. apply (fr_futures _ _ _ Hfr). set_solver.
  - exact (rl_length _ _ _ _ (dg_rel _ _ _ _ _ _ _ _ (ed_draining _ _ _ _ _ _ _ _ Hed))).
  - exact (dg_slot _ _ _ _ _ _ _ _ (ed_draining _ _ _ _ _ _ _ _ Hed)).
  - left. exists ex', p'. split_and!; [done| | |].
    + rewrite Hm. apply Hed.
    + rewrite Hl. apply Hfr.
    + intros. by eapply rounding_publish.
  - right. split; [|by eexists]. destruct (rg_bound _ _ _ _ Hr) as (bound & Hb1 & _ & Hb3).
    transitivity (bound slot); [apply Hov|apply Hb3; left].
    intros s g. rewrite (fr_frontier _ _ _ Hfr). apply Hb1.
Qed.

Lemma rounding_node b slot remaining st P : rounding b (slot :: remaining) st P ->
  exists nd, im_nodes image !! slot = Some nd /\ node_slot image (nd_id nd) = Some slot.
Proof.
  intros Hr. destruct (rg_slots _ _ _ _ Hr slot) as [node Hn]; [left|]. pose proof Hn as Hn'.
  apply node_slot_Some in Hn as (_ & nd & Hnd & <-). eauto.
Qed.

Lemma drain_entry_steps b slot remaining st P fuel entry st' :
  rounding b (slot :: remaining) st P -> fe_lp_slot entry = slot ->
  drain_entry image fuel Hz st entry = Some (Ok st') ->
  exists k P', steps image Hz k (ex_transitions (rs_executor st), P)
                 (ex_transitions (rs_executor st'), P')
    /\ rounding b remaining st' P'
    /\ ex_minimum_lookahead_ns (rs_executor st') = ex_minimum_lookahead_ns (rs_executor st)
    /\ (slot_drained Hz slot (rs_executor st) \/ (0 < k)%nat).
Proof.
  intros Hr Hsl He. destruct (rounding_node _ _ _ _ _ Hr) as (nd & Hnd & Hn).
  unfold drain_entry, drain_lp in He. rewrite Hsl, Hnd in He. cbn [or_panic mbind fueled_bind] in He.
  destruct (drain_loop fuel slot (nd_id nd) Hz _) as [[d|]|] eqn:Hl; [|done..].
  cbn [mbind fueled_bind dl_outbox dl_work] in He.
  destruct (drain_loop_steps image F Hz window _ _ _ _ _ _ _ (rounding_draining _ _ _ _ _ _ Hr Hn)
              ltac:(simpl; lia) Hl) as (k & P' & Hst & Hd & Hc & Hsd & Hfr & _ & Hprog).
  simpl in Hst, Hfr, Hprog.
  assert (Hed : entry_drained slot (nd_id nd) st P d (ex_transitions (dn_executor d)) P' k) by by split.
  destruct (update_after_drain _ _ _ _ _ _ _ _ _ _ (saturating_add (rs_physical_lp_probes st) 1) Hr Hed)
    as [(ex' & p' & Hu & Hm & Hla & Hrd)|(_ & node' & Hu)]; rewrite Hu in He; [|done].
  cbn [mbind fueled_bind] in He. injection He as <-. exists k, P'. cbn [rs_executor].
  split_and!; [by rewrite Hm|apply Hrd|done|done].
Qed.

Lemma drain_entry_returns b slot remaining st P fuel entry E n c' :
  rounding b (slot :: remaining) st P -> fe_lp_slot entry = slot -> Hz <= E ->
  drains image E n (ex_transitions (rs_executor st), P) c' -> (n <= fuel)%nat -> b < u64_max ->
  exists st', drain_entry image fuel Hz st entry = Some (Ok st').
Proof.
  intros Hr Hsl HE Hdr Hn Hb. destruct (rounding_node _ _ _ _ _ Hr) as (nd & Hnd & Hns).
  pose proof (rounding_draining _ _ _ _ _ _ Hr Hns) as Hdd.
  destruct (drain_loop_returns image F Hz window fuel _ _ _ _ _ E n c' Hdd HE Hdr Hn) as [d Hl].
  destruct (drain_loop_steps image F Hz window _ _ _ _ _ _ _ Hdd ltac:(simpl; lia) Hl)
    as (k & P' & Hst & Hd & Hc & Hsd & Hfr & _ & _). simpl in Hst, Hfr.
  assert (Hed : entry_drained slot (nd_id nd) st P d (ex_transitions (dn_executor d)) P' k) by by split.
  unfold drain_entry, drain_lp. rewrite Hsl, Hnd. cbn [or_panic mbind fueled_bind]. rewrite Hl.
  cbn [mbind fueled_bind dl_outbox dl_work].
  destruct (update_after_drain _ _ _ _ _ _ _ _ _ _ (saturating_add (rs_physical_lp_probes st) 1) Hr Hed)
    as [(ex' & p' & -> & _)|(? & _)]; [|lia]. cbn [mbind fueled_bind]. by eexists.
Qed.

Lemma drain_entries_steps b active fuel st P st' :
  rounding b (fe_lp_slot <$> active) st P ->
  fueled_fold (drain_entry image fuel Hz) st active = Some (Ok st') ->
  exists k P', steps image Hz k (ex_transitions (rs_executor st), P)
                 (ex_transitions (rs_executor st'), P')
    /\ rounding b [] st' P'
    /\ ex_minimum_lookahead_ns (rs_executor st') = ex_minimum_lookahead_ns (rs_executor st)
    /\ forall e, head active = Some e ->
         slot_drained Hz (fe_lp_slot e) (rs_executor st) \/ (0 < k)%nat.
Proof.
  revert st P. induction active as [|e active IH]; intros st P Hr Hf; cbn [fueled_fold] in Hf.
  { injection Hf as <-. exists O, P. split_and!; [constructor|done..]. }
  csimpl in Hr. apply fueled_bind_Ok in Hf as (st1 & He & Hf).
  destruct (drain_entry_steps _ _ _ _ _ _ _ _ Hr eq_refl He) as (k1 & P1 & Hst1 & Hr1 & Hl1 & Hp1).
  destruct (IH _ _ Hr1 Hf) as (k2 & P2 & Hst2 & Hr2 & Hl2 & _).
  exists (k1 + k2)%nat, P2. split_and!; [by eapply steps_trans|done|congruence|].
  intros ? [= <-]. destruct Hp1; [by left|right; lia].
Qed.

Lemma drain_entries_returns b active fuel st P E n c' :
  rounding b (fe_lp_slot <$> active) st P -> Hz <= E -> b < u64_max ->
  drains image E n (ex_transitions (rs_executor st), P) c' -> (n <= fuel)%nat ->
  exists st', fueled_fold (drain_entry image fuel Hz) st active = Some (Ok st').
Proof.
  revert st P n c'. induction active as [|e active IH]; intros st P n c' Hr HE Hb Hdr Hn;
    cbn [fueled_fold]; [by eexists|]. csimpl in Hr.
  destruct (drain_entry_returns _ _ _ _ _ _ e _ _ _ Hr eq_refl HE Hdr Hn Hb) as [st1 Hst1].
  rewrite Hst1. cbn [mbind fueled_bind].
  destruct (drain_entry_steps _ _ _ _ _ _ _ _ Hr eq_refl Hst1) as (k1 & P1 & Hk1 & Hr1 & _).
  destruct (drains_steps image E n _ _ _ _ (rg_config _ _ _ _ Hr) Hdr
              (steps_mono image _ _ _ _ _ HE Hk1)) as (m & c'' & -> & Hdr' & _).
  apply (IH st1 P1 m c''); [done..|lia].
Qed.
End round.

(** ** Whole rounds *)

Section rounds.
Context {M R : Type} `{HM : Machine M R} (image : SimulationImage)
  `{HL : !MachineLaws M R image}.
Hypothesis positive_lookahead : forall ch, ch ∈ im_channels image -> 0 < ch_min_delay_ns ch.
Implicit Types (ex : RoundExecutor M) (P : pending).

(** The executor between two rounds. *)
Record ready (b : Z) ex P : Prop := {
  rd_config : config_ok image (ex_transitions ex, P);
  rd_rel : rel image ex [] P;
  rd_frontier : frontier_ok image (fun _ => False) (ex_futures ex) (ex_frontier ex);
  rd_bound : generations_below (fun _ => b) ex;
  rd_lookahead : ex_minimum_lookahead_ns ex = list_min (ch_min_delay_ns <$> im_channels image);
}.

Lemma foldl_min_le (l : list Z) x y : y ∈ x :: l -> foldl Z.min x l <= y.
Proof.
  revert x y. induction l as [|z l IH]; intros x y Hy; simpl.
  - apply list_elem_of_singleton in Hy. lia.
  - assert (Hm : foldl Z.min (Z.min x z) l <= Z.min x z) by (apply IH; left).
    rewrite !elem_of_cons in Hy. destruct Hy as [->|[->|Hy]]; [lia|lia|].
    apply IH. by right.
Qed.

Lemma list_min_Some l m : list_min l = Some m -> m ∈ l /\ forall y, y ∈ l -> m <= y.
Proof.
  destruct l as [|x l]; [done|]. cbn [list_min]. intros [= <-]. split.
  - revert x. induction l as [|z l IH]; intros x; simpl; [left|].
    specialize (IH (Z.min x z)). rewrite !elem_of_cons in *.
    destruct IH as [->|?]; [|tauto]. destruct (Z.min_spec x z) as [[_ ->]|[_ ->]]; tauto.
  - intros y Hy. by apply foldl_min_le.
Qed.

(** The horizon lies beyond the frontier and within the lookahead. *)
Lemma round_horizon_spec E frontier_ns :
  frontier_ns < E -> E <= TIME_AFTER_U64_MAX ->
  let hz := round_horizon E frontier_ns (list_min (ch_min_delay_ns <$> im_channels image)) in
  frontier_ns < hz <= E
  /\ forall ch, ch ∈ im_channels image -> hz <= frontier_ns + ch_min_delay_ns ch.
Proof.
  intros Hf HE. unfold round_horizon.
  destruct (list_min (ch_min_delay_ns <$> im_channels image)) as [m|] eqn:Em.
  - apply list_min_Some in Em as [Hin Hmin]. split.
    + apply list_elem_of_fmap in Hin as (ch & -> & Hch). apply positive_lookahead in Hch. lia.
    + intros ch Hch. apply (list_elem_of_fmap_2 ch_min_delay_ns), Hmin in Hch. lia.
  - destruct (im_channels image) as [|ch l]; [|done]. split; [lia|].
    by intros ch ?%not_elem_of_nil.
Qed.

(** Every pending event is at or after its LP's frontier. *)
Lemma ready_first b ex P e : ready b ex P -> pends e P ->
  exists slot future k, ex_futures ex !! slot = Some future /\ first_key future = Some k
    /\ time_ns k <= time_ns (key e).
Proof.
  intros Hr [(s & f & Hl & He)|He]%(rl_pends _ _ _ _ (rd_rel _ _ _ Hr)); [|by apply not_elem_of_nil in He].
  pose proof (rl_indexed _ _ _ _ (rd_rel _ _ _ Hr) _ _ Hl) as Hix.
  destruct f as [|[k e'] f]; [by apply not_elem_of_nil in He|]. exists s, ((k, e') :: f), k.
  split_and!; [done..|]. apply kle_key_time. exact (bm_first_min _ _ _ _ (ix_wf _ Hix) He).
Qed.

Lemma publishes_first ex entry :
  publishes image (ex_futures ex) entry -> (forall slot future, ex_futures ex !! slot = Some future -> indexed future) ->
  exists future e, ex_futures ex !! fe_lp_slot entry = Some future /\ pends e future
    /\ first_key future = Some (key e) /\ time_ns (key e) = fe_time_ns entry.
Proof.
  intros (nd & f & k & _ & _ & Hf & Hk & Ht) Hix. exists f. specialize (Hix _ _ Hf).
  destruct f as [|[k' e] f]; [done|]. injection Hk as ->.
  assert (k = key e) as -> by (apply (ix_key _ Hix); left). exists e. split_and!; [done|left|done..].
Qed.

(** The round's start: the least frontier, or nothing pending. *)
Lemma round_peek b ex P pops probes :
  ready b ex P ->
  exists e frontier pops' probes',
    peek_min (ex_frontier ex) pops probes = Some (Ok (e, frontier, pops', probes'))
    /\ frontier_ok image (fun _ => False) (ex_futures ex) frontier
    /\ fi_generations frontier = fi_generations (ex_frontier ex)
    /\ match e with
       | None => forall x, ~ pends x P
       | Some e => publishes image (ex_futures ex) e
           /\ forall x, pends x P -> fe_time_ns e <= time_ns (key x)
       end.
Proof.
  intros Hr. destruct (peek_min_spec image (fun _ => False) (ex_futures ex) (ex_frontier ex) pops probes)
    as (e & frontier & p1 & p2 & -> & Hok & _ & Hg & _ & He); [apply Hr|by intros ? _ _ []|].
  exists e, frontier, p1, p2. split_and!; [done..|]. destruct e as [e|].
  - destruct He as (Hlive & rest & Hh). split.
    + apply (fo_live _ _ _ _ Hok); [rewrite Hh; left|done|tauto].
    + intros x Hx. destruct (ready_first _ _ _ _ Hr Hx) as (s & f & k & Hf & Hk & Hle).
      pose proof (peek_min_least image _ _ _ _ _ Hok Hh s f k ltac:(tauto) Hf Hk). lia.
  - intros x Hx. destruct (ready_first _ _ _ _ Hr Hx) as (s & f & k & Hf & Hk & _).
    by rewrite (peek_min_empty image _ _ _ _ _ Hok He ltac:(tauto) Hf) in Hk.
Qed.

(** The drain phase starts with the LPs below the horizon. *)
Lemma round_collect b ex P frontier e hz pops probes :
  ready b ex P -> frontier_ok image (fun _ => False) (ex_futures ex) frontier ->
  fi_generations frontier = fi_generations (ex_frontier ex) ->
  publishes image (ex_futures ex) e -> fe_time_ns e < hz ->
  (forall x, pends x P -> fe_time_ns e <= time_ns (key x)) ->
  exists active frontier' pops' probes',
    collect_active (length (fi_heap frontier)) frontier hz pops probes
      = Some (Ok (active, frontier', pops', probes'))
    /\ rounding image (fe_time_ns e) hz b (fe_lp_slot <$> active)
         (mkRoundState (ex <| ex_frontier := frontier' |>) [] [] 0 0 probes') P
    /\ exists e', head active = Some e'
         /\ ~ slot_drained hz (fe_lp_slot e') (ex <| ex_frontier := frontier' |>).
Proof.
  intros Hr Hok Hg Hpub Ht HF.
  pose proof (rl_indexed _ _ _ _ (rd_rel _ _ _ Hr)) as Hix.
  destruct (collect_active_spec image (length (fi_heap frontier)) (fun _ => False) (ex_futures ex)
              frontier hz pops probes Hok)
    as (active & f' & p1 & p2 & -> & Hg' & Hok' & Hnd & Ha & Hrest); [by intros ? _ _ []|done|].
  exists active, f', p1, p2. split; [done|]. split; [split; cbn [rs_executor rs_outboxes]|].
  - apply Hr.
  - done.
  - eapply rel_frame; [..|apply Hr]; done.
  - by intros x ?%not_elem_of_nil.
  - eapply frontier_ok_mono; [|exact Hok']. intros s [[]|?]. done.
  - done.
  - intros s (x & -> & Hx)%list_elem_of_fmap. destruct (Ha x Hx) as (_ & Hp & _).
    destruct (publishes_first ex x Hp Hix) as (f & y & Hf & Hy & _). exists (target y).
    by apply (rl_slot _ _ _ _ (rd_rel _ _ _ Hr) _ f).
  - intros s Hs f y Hf Hy. simpl in Hf. specialize (Hix _ _ Hf).
    destruct f as [|[k y'] f]; [by apply not_elem_of_nil in Hy|].
    pose proof (Hrest s _ k ltac:(tauto) Hs Hf eq_refl).
    pose proof (kle_key_time _ _ (bm_first_min _ _ _ _ (ix_wf _ Hix) Hy)). simpl in *. lia.
  - exists (fun _ => b). split; [|split; [intros; lia|done]].
    intros s g. simpl. rewrite Hg', Hg. apply (rd_bound _ _ _ Hr).
  - destruct (publishes_first ex e Hpub Hix) as (f & y & Hf & _ & Hk & Hty).
    destruct active as [|e' active].
    { pose proof (Hrest _ _ _ ltac:(tauto) (not_elem_of_nil _) Hf Hk). lia. }
    exists e'. split; [done|]. destruct (Ha e') as (_ & Hp & Ht'); [left|].
    destruct (publishes_first ex e' Hp Hix) as (f2 & y2 & Hf2 & Hy2 & _ & Hty2).
    intros Hsd. specialize (Hsd f2 y2 Hf2 Hy2). lia.
Qed.

(** The round's end: nothing is left below the horizon, and the exchange fails
    only when a generation is exhausted. *)
Lemma round_exchange F hz b st P pops u :
  rounding image F hz b [] st P ->
  ex_minimum_lookahead_ns (rs_executor st) = list_min (ch_min_delay_ns <$> im_channels image) ->
  exists entry frontier pops' probes',
    let ex := rs_executor st <| ex_frontier := frontier |> in
    let events := radix_sort_remote_events (concat (rs_outboxes st)) in
    peek_min (ex_frontier (rs_executor st)) pops (rs_physical_lp_probes st)
      = Some (Ok (entry, frontier, pops', probes'))
    /\ check_drained hz entry ex = Some (Ok tt)
    /\ ((exists ex' updates' p',
            exchange image (length events) hz events ex u probes' = Some (Ok (ex', updates', p'))
            /\ ready (b + 2) ex' P /\ ex_transitions ex' = ex_transitions (rs_executor st))
        \/ (u64_max <= b + 1 /\ exists node,
             exchange image (length events) hz events ex u probes'
             = Some (Err (CounterOverflow node)))).
Proof.
  intros Hr Hla. set (sk := fun s => s ∈ ([] : list nat)).
  assert (Hno : forall s, ~ sk s) by (intros s; apply not_elem_of_nil).
  destruct (peek_min_spec image sk (ex_futures (rs_executor st)) (ex_frontier (rs_executor st)) pops
              (rs_physical_lp_probes st))
    as (entry & frontier & p1 & p2 & -> & Hok & _ & Hg & _ & He); [apply Hr|intros ? _ _; apply Hno|].
  exists entry, frontier, p1, p2. cbn zeta. split; [done|]. split.
  { destruct entry as [e|]; [|done]. destruct He as (Hlive & rest & Hh). unfold check_drained.
    destruct (publishes_first (rs_executor st) e) as (f & y & Hf & Hy & _ & Hty).
    - apply (fo_live _ _ _ _ Hok); [rewrite Hh; left|done|apply Hno].
    - apply (rl_indexed _ _ _ _ (rg_rel _ _ _ _ _ _ _ Hr)).
    - pose proof (rg_drained _ _ _ _ _ _ _ Hr _ (not_elem_of_nil _) f y Hf Hy).
      rewrite (proj2 (Z.ltb_ge _ _)) by lia. done. }
  destruct (rg_bound _ _ _ _ _ _ _ Hr) as (bound & Hb1 & Hb2 & _).
  set (events := radix_sort_remote_events (concat (rs_outboxes st))).
  assert (Hperm : events ≡ₚ concat (rs_outboxes st)) by apply radix_sort_perm.
  destruct (exchange_spec image (length events) hz events (rs_executor st <| ex_frontier := frontier |>)
              u p2 P bound (b + 1))
    as [(ex' & u' & p' & -> & Hr' & Hok' & Hm' & Hl' & Hgn)|[Hov Herr]].
  - eapply rel_permutation; [symmetry; exact Hperm|].
    eapply rel_frame; [..|exact (rg_rel _ _ _ _ _ _ _ Hr)]; done.
  - apply radix_sort_sorted, Forall_forall. intros x Hx. apply (rg_late _ _ _ _ _ _ _ Hr x Hx).
  - intros x Hx. rewrite Hperm in Hx. split; [apply (rg_late _ _ _ _ _ _ _ Hr x Hx)|].
    apply (co_slot _ _ (rg_config _ _ _ _ _ _ _ Hr)), (rl_pends _ _ _ _ (rg_rel _ _ _ _ _ _ _ Hr)).
    by right.
  - eapply frontier_ok_mono; [|exact Hok]. intros s Hs. by apply (Hno s).
  - intros s g. simpl. rewrite Hg. apply Hb1.
  - intros s. specialize (Hb2 s). lia.
  - intros x s _ _. apply Hb2.
  - done.
  - left. exists ex', u', p'. split_and!; [done| |done]. split.
    + rewrite Hm'. apply Hr.
    + done.
    + done.
    + intros s g Hs. apply Hgn in Hs. lia.
    + by rewrite Hl'.
  - right. done.
Qed.

(** A round that returns has broken off because nothing is left to run, or has
    made at least one safe dispatch. *)
Lemma execute_round_steps b ex P fuel E prev r :
  ready b ex P -> E <= TIME_AFTER_U64_MAX ->
  execute_round image fuel E prev ex = Some (Ok r) ->
  match r with
  | None => drained E (ex_transitions ex, P)
  | Some (ex', hz, metrics) => exists k P',
      steps image E k (ex_transitions ex, P) (ex_transitions ex', P')
      /\ (0 < k)%nat /\ ready (b + 2) ex' P'
  end.
Proof.
  intros Hr HE Hx. unfold execute_round in Hx.
  destruct (round_peek b ex P 0 0 Hr) as (e & frontier & p1 & p2 & Hp & Hok & Hg & He).
  rewrite Hp in Hx. cbn [mbind fueled_bind] in Hx. destruct e as [e|].
  2:{ injection Hx as <-. intros x Hx. by apply He in Hx. }
  destruct He as [Hpub HF]. destruct (Z.leb_spec E (fe_time_ns e)) as [Hle|Hlt].
  { injection Hx as <-. intros x Hx. apply HF in Hx. lia. }
  rewrite (rd_lookahead _ _ _ Hr) in Hx.
  destruct (round_horizon_spec E (fe_time_ns e) Hlt HE) as [Hhz Hwin]. cbn zeta in Hhz, Hwin.
  set (hz := round_horizon _ _ _) in *.
  destruct (round_collect b ex P frontier e hz p1 p2 Hr Hok Hg Hpub (proj1 Hhz) HF)
    as (active & f' & p3 & p4 & Hc & Hrd & e' & Hhead & Hnd).
  rewrite Hc in Hx. cbn [mbind fueled_bind] in Hx. apply fueled_bind_Ok in Hx as (st & Hst & Hx).
  destruct (drain_entries_steps image (fe_time_ns e) hz Hwin b active fuel _ _ _ Hrd Hst)
    as (k & P' & Hk & Hrd' & Hla & Hprog).
  destruct (round_exchange (fe_time_ns e) hz b st P' p3 (rs_frontier_updates st) Hrd')
    as (entry & f2 & p5 & p6 & Hpk & Hcd & Hexc); [rewrite Hla; apply Hr|].
  rewrite Hpk in Hx. cbn [mbind fueled_bind] in Hx. rewrite Hcd in Hx. cbn [mbind fueled_bind] in Hx.
  destruct Hexc as [(ex' & u' & p' & Hex & Hrd2 & Hm2)|(_ & node & Hex)]; cbn zeta in Hex;
    rewrite Hex in Hx; cbn [mbind fueled_bind] in Hx; [|done].
  injection Hx as <-. exists k, P'. rewrite Hm2. split_and!; [|by destruct (Hprog e' Hhead)|done].
  eapply steps_mono; [|exact Hk]. lia.
Qed.

(** A round inside a run that ends returns. *)
Lemma execute_round_returns b ex P fuel E prev n c' :
  ready b ex P -> E <= TIME_AFTER_U64_MAX -> b + 2 <= u64_max ->
  drains image E n (ex_transitions ex, P) c' -> (n <= fuel)%nat ->
  exists r, execute_round image fuel E prev ex = Some (Ok r).
Proof.
  intros Hr HE Hb Hdr Hn. unfold execute_round.
  destruct (round_peek b ex P 0 0 Hr) as (e & frontier & p1 & p2 & -> & Hok & Hg & He).
  cbn [mbind fueled_bind]. destruct e as [e|]; [|by eexists].
  destruct He as [Hpub HF]. destruct (Z.leb_spec E (fe_time_ns e)) as [Hle|Hlt]; [by eexists|].
  rewrite (rd_lookahead _ _ _ Hr).
  destruct (round_horizon_spec E (fe_time_ns e) Hlt HE) as [Hhz Hwin]. cbn zeta in Hhz, Hwin.
  set (hz := round_horizon _ _ _) in *.
  destruct (round_collect b ex P frontier e hz p1 p2 Hr Hok Hg Hpub (proj1 Hhz) HF)
    as (active & f' & p3 & p4 & -> & Hrd & _). cbn [mbind fueled_bind].
  destruct (drain_entries_returns image (fe_time_ns e) hz Hwin b active fuel _ P E n c' Hrd)
    as [st Hst]; [lia|lia|done..|]. rewrite Hst. cbn [mbind fueled_bind].
  destruct (drain_entries_steps image (fe_time_ns e) hz Hwin b active fuel _ _ _ Hrd Hst)
    as (k & P' & Hk & Hrd' & Hla & _).
  destruct (round_exchange (fe_time_ns e) hz b st P' p3 (rs_frontier_updates st) Hrd')
    as (entry & f2 & p5 & p6 & -> & Hcd & Hexc); [rewrite Hla; apply Hr|].
  cbn [mbind fueled_bind]. rewrite Hcd. cbn [mbind fueled_bind].
  destruct Hexc as [(ex' & u' & p' & Hex & _)|(? & _)]; [|lia]; cbn zeta in Hex; rewrite Hex.
  cbn [mbind fueled_bind]. by eexists.
Qed.

Lemma execute_rounds_steps fuel b ex P E prev rounds total ex' rounds' :
  ready b ex P -> E <= TIME_AFTER_U64_MAX ->
  execute_rounds image fuel E prev rounds total ex = Some (Ok (ex', rounds')) ->
  exists n b' P', drains image E n (ex_transitions ex, P) (ex_transitions ex', P') /\ ready b' ex' P'.
Proof.
  revert b ex P prev rounds total. induction fuel as [|fuel IH]; intros b ex P prev rounds total Hr HE Hx;
    cbn [execute_rounds] in Hx; [done|]. apply fueled_bind_Ok in Hx as (r & Hrd & Hx).
  pose proof (execute_round_steps _ _ _ _ _ _ _ Hr HE Hrd) as Hs.
  destruct r as [[[ex1 hz] metrics]|].
  - destruct Hs as (k & P1 & Hk & _ & Hr1).
    apply fueled_bind_Ok in Hx as (total' & _ & Hx).
    destruct (IH _ _ _ _ _ _ Hr1 HE Hx) as (n & b' & P' & [Hst Hd] & Hr').
    exists (k + n)%nat, b', P'. split; [|done]. split; [by eapply steps_trans|done].
  - injection Hx as <- <-. exists O, b, P. split; [|done]. split; [constructor|done].
Qed.

Lemma execute_rounds_returns fuel b ex P E prev rounds total n c' :
  ready b ex P -> E <= TIME_AFTER_U64_MAX -> drains image E n (ex_transitions ex, P) c' ->
  (n < fuel)%nat -> b + 2 * (Z.of_nat n + 1) <= u64_max -> total + Z.of_nat n <= u64_max ->
  exists r, execute_rounds image fuel E prev rounds total ex = Some (Ok r).
Proof.
  revert b ex P prev rounds total n c'.
  induction fuel as [|fuel IH]; intros b ex P prev rounds total n c' Hr HE Hdr Hn Hb Ht; [lia|].
  cbn [execute_rounds].
  destruct (execute_round_returns b ex P (S fuel) E prev n c' Hr HE) as [r Hrd]; [lia|done|lia|].
  rewrite Hrd. cbn [mbind fueled_bind].
  pose proof (execute_round_steps _ _ _ _ _ _ _ Hr HE Hrd) as Hs.
  destruct r as [[[ex1 hz] metrics]|]; [|by eexists]. destruct Hs as (k & P1 & Hk & Hk0 & Hr1).
  destruct (drains_steps image E n _ _ _ _ (rd_config _ _ _ Hr) Hdr Hk) as (m & c'' & -> & Hdr' & _).
  rewrite (proj2 (checked_add_Some total 1 (total + 1))) by lia.
  cbn [ok_or lift_result mbind fueled_bind].
  apply (IH (b + 2) ex1 P1 (Some hz) _ _ m c'' Hr1 HE Hdr'); lia.
Qed.

(** ** The end of a run *)

Lemma concat_bind {A B} (f : A -> list B) (l : list A) : concat (f <$> l) = l ≫= f.
Proof. induction l as [|x l IH]; csimpl; [done|]. by rewrite IH. Qed.

Lemma futures_perm ex P : rel image ex [] P ->
  concat ((fun future : bmap EventKey Event => future.*2) <$> ex_futures ex) ≡ₚ P.*2.
Proof.
  intros Hr. pose proof (rl_pending _ _ _ _ Hr) as HP.
  assert (Hmem : forall Q : pending, indexed Q -> NoDup Q.*2 /\ forall e, e ∈ Q.*2 <-> pends e Q).
  { intros Q HQ. split.
    - apply (NoDup_fmap_1 key). rewrite <- list_fmap_compose.
      replace ((key ∘ snd) <$> Q) with Q.*1; [apply wf_NoDup, HQ|].
      apply list_fmap_ext. intros i [k e] Hi. simpl. apply (ix_key _ HQ).
      by eapply list_elem_of_lookup_2.
    - intros e. rewrite list_elem_of_fmap. split.
      + intros ([k e'] & -> & Hin). by apply indexed_pends in Hin as [-> ?].
      + intros He. by exists (key e, e). }
  apply NoDup_Permutation; [|by apply Hmem|].
  - rewrite (table_of_list (ex_futures ex)), <- list_fmap_compose, concat_bind.
    apply NoDup_bind; [| |apply NoDup_seq].
    + intros i j e Hi Hj Hei Hej. unfold compose in Hei, Hej. rewrite elem_of_seq in Hi, Hj.
      pose proof (list_lookup_lookup_total_lt (ex_futures ex) i ltac:(lia)) as Hfi.
      pose proof (list_lookup_lookup_total_lt (ex_futures ex) j ltac:(lia)) as Hfj.
      apply Hmem in Hei; [|by eapply rl_indexed]. apply Hmem in Hej; [|by eapply rl_indexed].
      pose proof (rl_slot _ _ _ _ Hr _ _ _ Hfi Hei). pose proof (rl_slot _ _ _ _ Hr _ _ _ Hfj Hej).
      congruence.
    + intros i Hi%elem_of_seq. unfold compose. apply Hmem. eapply rl_indexed; [exact Hr|].
      apply list_lookup_lookup_total_lt. lia.
  - intros e. rewrite (proj2 (Hmem P HP)), (rl_pends _ _ _ _ Hr), concat_bind, list_elem_of_bind.
    split.
    + intros (future & He & [i Hi]%list_elem_of_lookup_1). left. exists i, future. split; [done|].
      apply Hmem in He; [done|]. by eapply rl_indexed.
    + intros [(i & future & Hi & He)|?%not_elem_of_nil]; [|done]. exists future. split.
      * apply Hmem; [by eapply rl_indexed|done].
      * by eapply list_elem_of_lookup_2.
Qed.

Lemma finish_result_spec ex P : rel image ex [] P ->
  finish_result ex = m_finish (ex_transitions ex) P.*2.
Proof.
  intros Hr. unfold finish_result. rewrite (merge_sort_keyed P); [done|apply Hr| |].
  - intros k e Hin. symmetry. by apply (ix_key _ (rl_pending _ _ _ _ Hr)).
  - by apply futures_perm.
Qed.

(** ** The start of a run *)

(** The executor's maps as [RoundExecutor::new] fills them. *)
Definition filling (t : M) (s : list (bmap EventKey Event) * bset EventKey * bset Z)
  : RoundExecutor M :=
  mkExecutor t s.1.1 s.1.2 (frontier_new (length (im_nodes image))) None.

(** [touched] lists the LPs that have an event. *)
Definition touched_ok (s : list (bmap EventKey Event) * bset EventKey * bset Z) : Prop :=
  StronglySorted klt s.2
  /\ (forall z, z ∈ s.2 -> 0 <= z < Z.of_nat (length (im_nodes image)))
  /\ forall slot future, s.1.1 !! slot = Some future -> future <> [] -> Z.of_nat slot ∈ s.2.

Lemma index_initial_rel t s P e :
  rel image (filling t s) [] P -> touched_ok s -> is_Some (node_slot image (target e)) ->
  match map_insert P e with
  | Ok P' => exists s', index_initial_event image s e = Some (Ok s')
      /\ rel image (filling t s') [] P' /\ touched_ok s'
  | Err err => index_initial_event image s e = Some (Err err)
  end.
Proof.
  intros Hr (Ht1 & Ht2 & Ht3) [slot Hslot]. destruct s as [[futures keys] touched].
  unfold index_initial_event, bs_insert. cbn [fst snd].
  destruct (bm_get (key e) P) as [e'|] eqn:Eg.
  - unfold map_insert. rewrite Eg. replace (bs_contains (key e) keys) with true; [done|].
    symmetry. apply bs_contains_spec, (rl_keys _ _ _ _ Hr).
    apply (bm_get_elem_of _ _ _ (ix_wf _ (rl_pending _ _ _ _ Hr))) in Eg.
    apply indexed_pends in Eg as [Hk ?]; [|apply Hr]. by exists e'.
  - destruct (rel_new image _ _ _ e Hr) as (Hc & -> & Hr1).
    { apply get_None_pends; [apply Hr|done]. }
    cbn [filling ex_pending_keys fst snd] in Hc. rewrite Hc. cbn [negb]. rewrite Hslot.
    cbn [ok_or lift_result mbind fueled_bind].
    destruct (rel_future image _ _ _ _ _ Hr1 Hslot) as [future Hf]. simpl in Hf. rewrite Hf.
    cbn [or_panic mbind fueled_bind].
    destruct (rel_put image _ _ _ slot future e Hr1 Hf Hslot) as [Hg Hr2]. rewrite Hg.
    eexists. split; [done|]. split; [exact Hr2|]. split_and!; cbn [fst snd].
    + by apply bs_add_sorted.
    + intros z [->|Hz]%bs_add_elem_of; [|by apply Ht2]. apply node_slot_lt in Hslot. lia.
    + intros sl f Hl Hne. apply bs_add_elem_of. destruct (decide (sl = slot)) as [->|Hn]; [by left|].
      right. rewrite list_lookup_insert_ne in Hl by done. by apply (Ht3 sl f).
Qed.

Lemma index_initials_rel t s P l :
  rel image (filling t s) [] P -> touched_ok s ->
  (forall e, e ∈ l -> is_Some (node_slot image (target e))) ->
  match try_fold map_insert P l with
  | Ok P' => exists s', fueled_fold (index_initial_event image) s l = Some (Ok s')
      /\ rel image (filling t s') [] P' /\ touched_ok s'
  | Err err => fueled_fold (index_initial_event image) s l = Some (Err err)
  end.
Proof.
  revert s P. induction l as [|e l IH]; intros s P Hr Ht Hl; cbn [try_fold fueled_fold]; [eauto|].
  pose proof (index_initial_rel t s P e Hr Ht ltac:(apply Hl; left)) as Hs.
  destruct (map_insert P e) as [P1|err]; cbn [mbind result_bind].
  - destruct Hs as (s1 & -> & Hr1 & Ht1). cbn [mbind fueled_bind]. apply IH; [done..|].
    intros x Hx. apply Hl. by right.
  - by rewrite Hs.
Qed.

(** Publishing the first frontiers. *)
Lemma publish_initial_spec futures slots index probes bound :
  frontier_ok image (fun s => s ∈ slots) futures index ->
  length futures = length (im_nodes image) ->
  NoDup slots -> (forall s, s ∈ slots -> (s < length (im_nodes image))%nat) ->
  (forall s g, fi_generations index !! s = Some g -> g <= bound s) ->
  (forall s, bound s <= 1) -> (forall s, s ∈ slots -> bound s <= 0) ->
  exists index' probes', fueled_fold (fun '(frontier, setup_physical_lp_probes) lp_slot =>
        node ← or_panic (im_nodes image !! lp_slot);
        future ← or_panic (futures !! lp_slot);
        frontier_update frontier lp_slot (nd_id node) (first_key future) setup_physical_lp_probes)
      (index, probes) slots = Some (Ok (index', probes'))
    /\ frontier_ok image (fun _ => False) futures index'
    /\ forall s g, fi_generations index' !! s = Some g -> g <= 1.
Proof.
  revert index probes bound. induction slots as [|slot slots IH];
    intros index probes bound Hok Hlen Hnd Hlt Hgn Hb1 Hb0; cbn [fueled_fold].
  { exists index, probes. split_and!; [done| |].
    - eapply frontier_ok_mono; [|exact Hok]. intros s ?%not_elem_of_nil. done.
    - intros s g Hs. apply Hgn in Hs. specialize (Hb1 s). lia. }
  apply NoDup_cons in Hnd as [Hns Hnd].
  assert (Hs : (slot < length (im_nodes image))%nat) by (apply Hlt; left).
  destruct (lookup_lt_is_Some_2 _ _ Hs) as [nd Hn]. rewrite <- Hlen in Hs.
  destruct (lookup_lt_is_Some_2 _ _ Hs) as [future Hf]. rewrite Hn, Hf.
  cbn [or_panic mbind fueled_bind].
  assert (Hb : bound slot <= 0) by (apply Hb0; left).
  destruct (frontier_update_spec image _ futures index slot nd future probes Hok Hn Hf)
    as (g & Hg & [(_ & index1 & p1 & -> & Hok1 & Hg1)|[Hov _]]); [|apply Hgn in Hg; lia].
  cbn [mbind fueled_bind].
  apply (IH index1 p1 (fun s => bound s + (if decide (s = slot) then 1 else 0)));
    [|done|done| | | |].
  - eapply frontier_ok_mono; [|exact Hok1]. intros s [[->|?]%elem_of_cons ?]; done.
  - intros s Hin. apply Hlt. by right.
  - intros s g'. rewrite Hg1. destruct (decide (s = slot)) as [->|Hne].
    + rewrite list_lookup_insert_eq by (by eapply lookup_lt_Some). intros [= <-]. apply Hgn in Hg. lia.
    + rewrite list_lookup_insert_ne by done. intros Hs'. apply Hgn in Hs'. lia.
  - intros s. case_decide as Hd; [subst; lia|]. specialize (Hb1 s). lia.
  - intros s Hin. rewrite decide_False by (by intros ->). rewrite Z.add_0_r. apply Hb0. by right.
Qed.

Hypothesis initial_targets : forall e, e ∈ im_initial_events image -> is_Some (node_slot image (target e)).

Lemma executor_new_spec :
  match m_new image, initial_pending image with
  | Some (Ok s), Ok P => exists ex, executor_new image = Some (Ok ex) /\ ready 1 ex P
      /\ ex_transitions ex = s
  | _, _ => forall ex, executor_new (M := M) image <> Some (Ok ex)
  end.
Proof.
  unfold executor_new.
  destruct (m_new image) as [[t|err]|] eqn:Hm; cbn [lift_result mbind fueled_bind]; [|done..].
  set (s0 := (replicate (length (im_nodes image)) [], [], []) :
    list (bmap EventKey Event) * bset EventKey * bset Z).
  assert (Hrel0 : rel image (filling t s0) [] []).
  { split; simpl; try done.
    - by rewrite length_replicate.
    - intros s f [-> _]%lookup_replicate. split; [constructor|by intros ? ? ?%not_elem_of_nil].
    - intros s f e [-> _]%lookup_replicate He. by apply not_elem_of_nil in He.
    - intros e. split; [by intros ?%not_elem_of_nil|].
      intros [(s & f & [-> _]%lookup_replicate & He)|He]; by apply not_elem_of_nil in He.
    - by intros e ?%not_elem_of_nil.
    - constructor.
    - intros k. split; [by intros ?%not_elem_of_nil|]. by intros (e & ?%not_elem_of_nil & _).
    - split; [constructor|by intros ? ? ?%not_elem_of_nil]. }
  assert (Ht0 : touched_ok s0).
  { split_and!; simpl; [constructor|by intros z ?%not_elem_of_nil|].
    intros s f [-> _]%lookup_replicate ?. done. }
  pose proof (index_initials_rel t s0 [] (im_initial_events image) Hrel0 Ht0 initial_targets) as Hi.
  fold (initial_pending image) in Hi. destruct (initial_pending image) as [P|err] eqn:HP.
  2:{ by rewrite Hi. }
  destruct Hi as ([[futures keys] touched] & -> & Hrel & Ht1 & Ht2 & Ht3).
  cbn [mbind fueled_bind fst snd] in *. rewrite bool_decide_eq_false_2.
  2:{ intros Hz%list_min_Some. destruct Hz as [Hin _]. apply list_elem_of_fmap in Hin as (ch & Hc & Hin).
      apply positive_lookahead in Hin. lia. }
  assert (Hslots : forall s, s ∈ Z.to_nat <$> touched <-> Z.of_nat s ∈ touched).
  { intros s. rewrite list_elem_of_fmap. split.
    - intros (z & -> & Hz). pose proof (Ht2 z Hz). by rewrite Z2Nat.id by lia.
    - intros Hs. exists (Z.of_nat s). by rewrite Nat2Z.id. }
  destruct (publish_initial_spec futures (Z.to_nat <$> touched)
              (frontier_new (length (im_nodes image))) 0 (fun _ => 0)) as (index & p & -> & Hok & Hgn).
  - split; simpl; [constructor|constructor|by rewrite length_replicate|
      by intros ? ?%not_elem_of_nil|by intros ? ?%not_elem_of_nil|].
    intros s f k Hs Hf Hk. exfalso. apply Hs, Hslots, (Ht3 s f Hf). by intros ->.
  - exact (rl_length _ _ _ _ Hrel).
  - apply NoDup_fmap_2_strong; [|].
    + intros x y Hx%Ht2 Hy%Ht2 Hxy. lia.
    + clear -Ht1. induction Ht1 as [|z l Hl IH HF]; constructor; [|done].
      intros Hz. rewrite Forall_forall in HF. apply HF in Hz. rewrite klt_Z in Hz. lia.
  - intros s Hs%Hslots%Ht2. lia.
  - intros s g. unfold frontier_new. simpl. intros [-> _]%lookup_replicate. lia.
  - intros. lia.
  - intros. lia.
  - cbn [mbind fueled_bind fst snd]. eexists. split; [done|]. split; [split; simpl|done].
    + by apply initial_config_ok.
    + eapply rel_frame; [..|exact Hrel]; done.
    + done.
    + exact Hgn.
    + done.
Qed.

Hypothesis stop_u64 : im_stop_time_ns image <= u64_max.

Lemma run_end_eq h :
  Z.min (default TIME_AFTER_U64_MAX h) (im_stop_time_ns image + 1) = run_end image h
  /\ run_end image h <= TIME_AFTER_U64_MAX.
Proof. unfold run_end, TIME_AFTER_U64_MAX. destruct h; simpl; lia. Qed.

(** The round executor's run is some safe schedule. *)
Lemma run_rounds_drains fuel h (r : R) rounds :
  run_scalar_rounds image fuel h = Some (Ok (r, rounds)) ->
  exists s P n c', m_new image = Some (Ok s) /\ initial_pending image = Ok P
    /\ drains image (run_end image h) n (s, P) c' /\ r = m_finish c'.1 c'.2.*2.
Proof.
  destruct (run_end_eq h) as [HEq HEle]. unfold run_scalar_rounds. cbn zeta. rewrite HEq.
  pose proof executor_new_spec as Hnew.
  intros (ex & Hex0 & Hrun)%fueled_bind_Ok.
  apply fueled_bind_Ok in Hrun as ([ex' rounds'] & Hx & [= <- <-]).
  destruct (m_new image) as [[s|err]|] eqn:Hm; [|by destruct (Hnew ex)..].
  destruct (initial_pending image) as [P|err] eqn:HP; [|by destruct (Hnew ex)].
  destruct Hnew as (ex1 & Hex1 & Hrd & Hex). rewrite Hex1 in Hex0. injection Hex0 as <-.
  destruct (execute_rounds_steps _ _ _ _ _ _ _ _ _ _ Hrd HEle Hx) as (n & b & P2 & Hdr & Hrd2).
  rewrite Hex in Hdr. exists s, P, n, (ex_transitions ex', P2). split_and!; [done..|].
  simpl. apply finish_result_spec, Hrd2.
Qed.

Lemma drains_run_rounds fuel h s P n c' :
  m_new image = Some (Ok s) -> initial_pending image = Ok P ->
  drains image (run_end image h) n (s, P) c' -> (n < fuel)%nat -> 2 * Z.of_nat n + 3 <= u64_max ->
  exists (r : R) rounds, run_scalar_rounds image fuel h = Some (Ok (r, rounds)).
Proof.
  intros Hm HP Hdr Hn Hb.
  destruct (run_end_eq h) as [HEq HEle]. unfold run_scalar_rounds. cbn zeta. rewrite HEq.
  pose proof executor_new_spec as Hnew. rewrite Hm, HP in Hnew.
  destruct Hnew as (ex & -> & Hrd & Hex). cbn [mbind fueled_bind]. rewrite <- Hex in Hdr.
  destruct (execute_rounds_returns fuel 1 ex P _ None [] 0 n _ Hrd HEle Hdr) as [[ex' rounds] ->];
    [lia..|]. cbn [mbind fueled_bind]. by eexists _, _.
Qed.
End rounds.

(** ** The theorem *)

(** What the executor relies on of an image: channels delay, initial events
    target nodes, and the stop is a [u64]. *)
Record image_ok (image : SimulationImage) : Prop := {
  io_lookahead : forall ch, ch ∈ im_channels image -> 0 < ch_min_delay_ns ch;
  io_targets : forall e, e ∈ im_initial_events image -> is_Some (node_slot image (target e));
  io_stop : im_stop_time_ns image <= u64_max;
}.

(** C1. The safe-horizon round executor and the scalar event loop compute the
    same result. Whenever the scalar loop returns a result within its fuel, the
    round executor returns the same result, with one more unit of fuel; and
    whenever the round executor returns a result, so does the scalar loop. This
    holds for every transition machine that keeps its promise, every heap, and
    every image whose channels delay what crosses them; the generation counters
    of the frontier must have room for the run. *)
Theorem rounds_equal_scalar {M R H : Type} `{HM : Machine M R} (image : SimulationImage)
    `{HL : !MachineLaws M R image} `{HH : BinaryHeap H} `{HHL : !BinaryHeapLaws H}
    (horizon : option Z) (fuel : nat) :
  image_ok image ->
  (forall r : R, 2 * Z.of_nat fuel + 3 <= u64_max ->
     run_scalar (H := H) fuel image horizon = Some (Ok r) ->
     exists rounds, run_scalar_rounds image (S fuel) horizon = Some (Ok (r, rounds)))
  /\ (forall (r : R) rounds,
     run_scalar_rounds image fuel horizon = Some (Ok (r, rounds)) ->
     exists fuel', run_scalar (H := H) fuel' image horizon = Some (Ok r)).
Proof.
  intros [Hla Htg Hst]. split.
  - intros r Hfuel Hrun. apply (run_scalar_Ok image Hla Htg) in Hrun as (s & P & n & c' & Hm & HP & Hn & Hsr & ->).
    pose proof (initial_config_ok image s P Hm HP Htg) as Hok.
    pose proof (sruns_drains image Hla _ _ _ _ Hok Hsr) as Hdr.
    destruct (drains_run_rounds image Hla Htg Hst (S fuel) horizon s P n c' Hm HP Hdr)
      as (r & rounds & Hr); [lia..|]. exists rounds. rewrite Hr.
    apply (run_rounds_drains image Hla Htg Hst) in Hr as (s2 & P2 & n2 & c2 & Hm2 & HP2 & Hdr2 & ->).
    rewrite Hm in Hm2. rewrite HP in HP2. injection Hm2 as <-. injection HP2 as <-.
    destruct (drains_unique image _ _ _ _ _ _ Hok Hdr Hdr2) as [_ [Heq1 Heq2]].
    by rewrite Heq2, (m_finish_proper _ _ _ Heq1).
  - intros r rounds Hr.
    apply (run_rounds_drains image Hla Htg Hst) in Hr as (s & P & n & c' & Hm & HP & Hdr & ->).
    pose proof (initial_config_ok image s P Hm HP Htg) as Hok.
    destruct (drains_sruns image Hla _ _ _ _ Hok Hdr) as (c2 & Hsr & Heq1 & Heq2).
    exists n. apply (run_scalar_Ok image Hla Htg). exists s, P, n, c2. split_and!; [done..|].
    by rewrite Heq2, (m_finish_proper _ _ _ Heq1).
Qed.

(** ** A machine that keeps the promise: two nodes that relay packets

    A packet with hops left is forwarded to the other node over a channel of
    delay 5. The state is the next origin sequence of each node. *)

Definition relay_node (n : NodeId) : bool := (n =? 0) || (n =? 1).

Definition relay_dispatch (e : Event) (s : Z * Z)
  : result ExecutionError (list Event * list SupersededTimer * (Z * Z)) :=
  if negb (relay_node (target e)) then Err (UnknownNode (target e))
  else if payload e <=? 0 then Ok ([], [], s)
  else
    let seq := if target e =? 0 then s.1 else s.2 in
    next ← ok_or (checked_add seq 1) (OriginSequenceOverflow (target e));
    time ← ok_or (checked_add (time_ns (key e)) 5) (CounterOverflow (target e));
    let child := mkEvent (mkKey time (event_phase RemoteArrival) (target e) seq)
                   (1 - target e) RemoteArrival (payload e - 1) in
    Ok ([child], [], if target e =? 0 then (next, s.2) else (s.1, next)).

#[local] Instance relay_machine : Machine (Z * Z) ((Z * Z) * list Event) := {|
  m_new _ := Some (Ok (1, 1));
  m_dispatch e s := Some (relay_dispatch e s);
  m_finish s l := (s, l);
|}.

Definition relay_event (t seq node hops : Z) : Event :=
  mkEvent (mkKey t (event_phase RemoteArrival) node seq) node RemoteArrival hops.

Definition relay_image : SimulationImage :=
  mkImage 40 [mkNode 0 Host 0; mkNode 1 Host 1] [] [] [] [] []
    [mkChannel 0 1 0 RemoteArrival 5; mkChannel 1 0 1 RemoteArrival 5]
    [relay_event 3 0 0 6; relay_event 4 0 1 9] 0 [] [] [].

Definition relay_seq (s : Z * Z) (n : NodeId) : Z :=
  if n =? 0 then s.1 else if n =? 1 then s.2 else 1.

(** Sequences and the pending times are machine words. *)
Definition relay_ok (s : Z * Z) (P : pending) : Prop :=
  0 <= s.1 <= u64_max /\ 0 <= s.2 <= u64_max /\ forall e, pends e P -> 0 <= time_ns (key e).

Lemma relay_dispatch_Ok e s cs ts s' :
  relay_dispatch e s = Ok (cs, ts, s') ->
  (target e = 0 \/ target e = 1) /\ ts = [] /\
  ((cs = [] /\ s' = s)
   \/ exists c, cs = [c] /\ key c = mkKey (time_ns (key e) + 5) 0 (target e) (relay_seq s (target e))
        /\ target c = 1 - target e /\ kind c = RemoteArrival /\ time_ns (key e) + 5 <= u64_max
        /\ relay_seq s (target e) + 1 <= u64_max
        /\ s' = if target e =? 0 then (s.1 + 1, s.2) else (s.1, s.2 + 1)).
Proof.
  unfold relay_dispatch, relay_node, relay_seq.
  destruct (Z.eqb_spec (target e) 0) as [H0|H0], (Z.eqb_spec (target e) 1) as [H1|H1];
    try lia; simpl; [| |done]; (case_match; [intros [= <- <- <-]; split; [auto|]; split; [done|by left]|]);
    intros Hb; apply bind_Ok in Hb as (next & [-> Hn]%ok_or_Ok%checked_add_Some & Hb);
    apply bind_Ok in Hb as (time & [-> Ht]%ok_or_Ok%checked_add_Some & Hb);
    injection Hb as <- <- <-; (split; [auto|]; split; [done|]; right; eexists;
      split_and!; [done|..]; simpl; done).
Qed.

Lemma relay_fire e s P s' P' :
  fire e (s, P) = Some (Ok (s', P')) -> exists cs, relay_dispatch e s = Ok (cs, [], s')
    /\ forall x, pends x P' -> pends x P \/ x ∈ cs.
Proof.
  unfold fire. intros Hf. apply fueled_bind_Ok in Hf as ([[cs ts] s1] & [= Hd] & Hf).
  simpl in Hd.
  pose proof (relay_dispatch_Ok _ _ _ _ _ Hd) as (_ & -> & Hcs).
  destruct Hcs as [[-> ->]|(c & -> & _)].
  - injection Hf as <- <-. exists []. split; [done|]. intros x Hx%bm_remove_elem_of_1. by left.
  - apply fueled_bind_Ok in Hf as (P1 & [= <-] & (P2 & [= Hi] & [= <- <-])%fueled_bind_Ok). unfold insert_children, map_insert in Hi. simpl in Hi.
    destruct (bm_get (key c) (bm_remove (key e) P)); simpl in Hi; [done|]. injection Hi as <-.
    exists [c]. split; [done|].
    intros x [[= _ ->]|Hx%bm_remove_elem_of_1]%bm_insert_elem_of_1; [right; left|by left].
Qed.

(** A dispatch reads and writes the sequence of its own node. *)
Lemma relay_local e s s2 cs ts s' :
  relay_dispatch e s = Ok (cs, ts, s') -> relay_seq s2 (target e) = relay_seq s (target e) ->
  relay_dispatch e s2 = Ok (cs, ts, if target e =? 0 then (s'.1, s2.2) else (s2.1, s'.2))
  /\ (if target e =? 0 then s'.2 = s.2 else s'.1 = s.1).
Proof.
  destruct s as [a b], s2 as [a2 b2]. unfold relay_dispatch, relay_node, relay_seq. simpl.
  destruct (Z.eqb_spec (target e) 0) as [H0|H0], (Z.eqb_spec (target e) 1) as [H1|H1];
    try lia; simpl; try done; intros Hd ->; (case_match; [by injection Hd as <- <- <-|]);
    apply bind_Ok in Hd as (next & -> & Hd); simpl;
    apply bind_Ok in Hd as (time & -> & Hd); simpl; by injection Hd as <- <- <-.
Qed.

Lemma relay_diamond a b s ca ta sa cb tb sab :
  target a <> target b -> relay_dispatch a s = Ok (ca, ta, sa) -> relay_dispatch b sa = Ok (cb, tb, sab) ->
  exists sb, relay_dispatch b s = Ok (cb, tb, sb) /\ relay_dispatch a sb = Ok (ca, ta, sab).
Proof.
  intros Hne Ha Hb.
  pose proof (relay_dispatch_Ok _ _ _ _ _ Ha) as (Hta & _ & _).
  pose proof (relay_dispatch_Ok _ _ _ _ _ Hb) as (Htb & _ & _).
  pose proof (relay_local a s s _ _ _ Ha eq_refl) as [_ Hla].
  assert (Hsb : relay_seq s (target b) = relay_seq sa (target b)).
  { unfold relay_seq. destruct Hta as [Hta|Hta], Htb as [Htb|Htb]; try congruence;
      rewrite Hta in Hla; rewrite Htb; simpl in *; congruence. }
  destruct (relay_local b sa s _ _ _ Hb Hsb) as [Hb' Hlb]. eexists. split; [exact Hb'|].
  destruct (relay_local a s (if target b =? 0 then (sab.1, s.2) else (s.1, sab.2)) _ _ _ Ha) as [Ha' _].
  - unfold relay_seq. destruct Hta as [Hta|Hta], Htb as [Htb|Htb]; try congruence;
      rewrite Hta, Htb; done.
  - rewrite Ha'. do 2 f_equal.
    destruct sab, Hta as [Hta|Hta], Htb as [Htb|Htb]; try congruence;
      rewrite Hta in *; rewrite Htb in *; simpl in *; congruence.
Qed.

#[local] Instance relay_laws : MachineLaws (Z * Z) ((Z * Z) * list Event) relay_image.
Proof.
  refine {| m_equiv := eq; m_next_seq := relay_seq; m_ok := relay_ok |}.
  - by intros s1 s2 n ->.
  - by intros s1 s2 P ->.
  - by intros s1 s2 l ->.
  - intros e s1 s2 cs ts s1' -> ?. eauto.
  - intros s P [= <-] HP. vm_compute in HP. injection HP as <-. split; [simpl; lia|split; [simpl; lia|]].
    intros e He. unfold pends in He. rewrite !elem_of_cons in He.
    destruct He as [[= _ ->]|[[= _ ->]|?%not_elem_of_nil]]; simpl; [lia|lia|done].
  - intros s e [= <-]. simpl. rewrite !elem_of_cons.
    intros [->|[->|?%not_elem_of_nil]]; unfold relay_seq; simpl; [lia|lia|done].
  - intros e s P s' P' (H1 & H2 & H3) Hs (cs & Hd & Hp)%relay_fire.
    pose proof (relay_dispatch_Ok _ _ _ _ _ Hd) as (Ht & _ & Hc). unfold relay_ok.
    destruct Hc as [[-> ->]|(c & -> & Hk & _ & _ & _ & Hq & ->)].
    + split; [lia|split; [lia|]]. intros x [?|[]%not_elem_of_nil]%Hp; auto.
    + pose proof (H3 e (safe_pends _ _ _ Hs)). unfold relay_seq in Hq.
      split; [|split]; [destruct Ht as [Ht|Ht]; rewrite Ht in *; simpl in *; lia..|].
      intros x [?| ->%list_elem_of_singleton]%Hp; [auto|]. rewrite Hk. simpl. lia.
  - intros s P n (H1 & H2 & _). unfold relay_seq. repeat case_match; lia.
  - intros e s P cs ts s' _ _ [= Hd].
    pose proof (relay_dispatch_Ok _ _ _ _ _ Hd) as (Ht & _ & [[-> ->]|(c & -> & Hk & _ & _ & _ & _ & ->)]).
    + split_and!; [done..|]. intros n. case_match; simpl; lia.
    + split_and!.
      * simpl. by rewrite Hk.
      * simpl. by rewrite Hk.
      * intros n. unfold relay_seq. simpl length.
        destruct Ht as [Ht|Ht]; rewrite Ht; simpl;
          destruct (Z.eqb_spec n 0), (Z.eqb_spec n 1); simpl; lia.
  - intros e s P cs ts s' c _ _ [= Hd] Hc.
    pose proof (relay_dispatch_Ok _ _ _ _ _ Hd) as (Ht & _ & [[-> _]|(c' & -> & Hk & Htc & Hkc & _)]);
      [by apply not_elem_of_nil in Hc|]. apply list_elem_of_singleton in Hc as ->. split.
    + apply key_time_lt. rewrite Hk. simpl. lia.
    + right. split_and!; [by rewrite Hkc| |].
      * rewrite Htc. destruct Ht as [-> | ->]; by eexists.
      * exists (mkChannel 0 1 0 RemoteArrival 5). split; [left|]. rewrite Hk. simpl. lia.
  - intros e s P cs ts s' c (H1 & H2 & H3) Hs [= Hd] Hc.
    pose proof (relay_dispatch_Ok _ _ _ _ _ Hd) as (Ht & _ & [[-> _]|(c' & -> & Hk & Htc & _ & Hb & _)]);
      [by apply not_elem_of_nil in Hc|]. apply list_elem_of_singleton in Hc as ->.
    pose proof (H3 e (safe_pends _ _ _ Hs)).
    split; rewrite ?Htc, ?Hk; unfold in_u64, in_u16; simpl; [lia|lia|lia|lia|].
    unfold relay_seq. repeat case_match; lia.
  - intros e s P cs ts s' t _ _ [= Hd] Hin.
    pose proof (relay_dispatch_Ok _ _ _ _ _ Hd) as (_ & -> & _). by apply not_elem_of_nil in Hin.
  - intros a b s P ca ta sa cb tb sab _ _ _ Hne [= Ha] [= Hb].
    destruct (relay_diamond _ _ _ _ _ _ _ _ _ Hne Ha Hb) as (sb & Hb' & Ha'). exists sb, sab.
    simpl. by rewrite Hb', Ha'.
Qed.

Lemma relay_image_ok : image_ok relay_image.
Proof.
  split.
  - intros ch. simpl. rewrite !elem_of_cons. intros [->|[->|?%not_elem_of_nil]]; simpl; [lia|lia|done].
  - intros e. simpl. rewrite !elem_of_cons.
    intros [->|[->|?%not_elem_of_nil]]; [by eexists|by eexists|done].
  - simpl. lia.
Qed.

Lemma rounds_equal_scalar_witness :
  let r := ((8, 8), [mkEvent (mkKey 44 0 0 7) 1 RemoteArrival 1]) in
  run_scalar (H := ListHeap) 40 relay_image None = Some (Ok r)
  /\ exists rounds, run_scalar_rounds relay_image 41 None = Some (Ok (r, rounds)).
Proof.
  intros r. assert (Hr : run_scalar (H := ListHeap) 40 relay_image None = Some (Ok r))
    by (vm_compute; reflexivity).
  split; [exact Hr|].
  apply (rounds_equal_scalar (H := ListHeap) relay_image None 40 relay_image_ok); [lia|exact Hr].
Defined.
