(* ===== verification/TcpLedger.v ===== *)
(** * The TCP segment ledger (executor/src/tcp_ledger.rs)

    Per flow, the descriptor last sent for every unacknowledged segment, keyed
    by its first sequence number. A retransmission looks its segment up here, so
    the ledger must hold exactly the bytes the sender has in flight. *)

From S2P Require Import Prelude OrdMap Event Tcp Model Image.

Definition TcpSegmentLedger : Type := bmap FlowId (bmap Z PacketDescriptor).

Record TcpSegmentConflict := mkConflict {
  cf_flow : FlowId;
  cf_sequence : Z;
  cf_original_size_bytes : Z;
  cf_replacement_size_bytes : Z;
}.

(** [collect::<BTreeSet<_>>()]. *)
Definition bs_collect {K} `{OrdKey K} (l : list K) : bset K := foldl (fun s k => bs_add k s) [] l.

Definition initial_live_payloads (image : SimulationImage) : bset PayloadId :=
  bs_collect
    ((payload <$>
        filter (fun event => kind event <> RetransmissionTimeout) (im_initial_events image))
     ++ mjoin ((fun state => hs_queue state ++ option_list (hs_in_service state))
                 <$> im_host_states image)
     ++ mjoin ((fun state =>
                  mjoin ((fun queue => sq_queue queue ++ option_list (sq_in_service queue))
                           <$> sw_queues state))
                 <$> im_switch_states image)).

Definition seed_segment (segments : TcpSegmentLedger) (packet : PacketDescriptor)
  : result TcpSegmentConflict TcpSegmentLedger :=
  match pk_kind packet with
  | TcpData header =>
      let flow_segments := default [] (bm_get (pk_flow packet) segments) in
      let original := bm_get (td_sequence header) flow_segments in
      let segments :=
        bm_insert (pk_flow packet) (bm_insert (td_sequence header) packet flow_segments)
          segments in
      match original with
      | Some original =>
          if negb (pk_size_bytes original =? pk_size_bytes packet) then
            Err (mkConflict (pk_flow packet) (td_sequence header) (pk_size_bytes original)
                   (pk_size_bytes packet))
          else Ok segments
      | None => Ok segments
      end
  | _ => Ok segments
  end.

(** What is left of one flow's segments at or above [acknowledgment]; [None] is
    the panic on an entry that is not TCP data. *)
Definition unacknowledged_segments (flow : FlowId) (flow_segments : bmap Z PacketDescriptor)
    (acknowledgment : Z) : fueled TcpSegmentConflict (bmap Z PacketDescriptor) :=
  let '(flow_segments, unacknowledged) := bm_split_off acknowledgment flow_segments in
  match bm_last flow_segments with
  | Some (sequence, packet) =>
      let acknowledged_bytes := acknowledgment -w sequence in
      if acknowledged_bytes <? pk_size_bytes packet then
        match pk_kind packet with
        | TcpData header =>
            let packet :=
              packet <| pk_size_bytes ::= fun bytes => bytes -w acknowledged_bytes |>
                     <| pk_kind := TcpData (header <| td_sequence := acknowledgment |>) |> in
            match bm_get acknowledgment unacknowledged with
            | Some original =>
                if negb (pk_size_bytes original =? pk_size_bytes packet) then
                  lift_result (Err (mkConflict flow acknowledgment (pk_size_bytes original)
                                      (pk_size_bytes packet)))
                else lift_result (Ok unacknowledged)
            | None => lift_result (Ok (bm_insert acknowledgment packet unacknowledged))
            end
        | _ => None
        end
      else lift_result (Ok unacknowledged)
  | None => lift_result (Ok unacknowledged)
  end.

Definition acknowledge_segments (segments : TcpSegmentLedger) (flow : FlowId)
    (acknowledgment : Z) : fueled TcpSegmentConflict TcpSegmentLedger :=
  match bm_get flow segments with
  | None => lift_result (Ok segments)
  | Some flow_segments =>
      unacknowledged ← unacknowledged_segments flow flow_segments acknowledgment;
      lift_result (Ok (match unacknowledged with
                       | [] => bm_remove flow segments
                       | _ => bm_insert flow unacknowledged segments
                       end))
  end.

Definition normalize_image (segments : TcpSegmentLedger) (image : SimulationImage)
  : fueled TcpSegmentConflict TcpSegmentLedger :=
  match segments with
  | [] => lift_result (Ok segments)
  | _ =>
      fueled_fold (fun segments generator =>
        match fg_kind generator with
        | GenTcp tcp => acknowledge_segments segments (fg_flow generator) (tg_highest_ack tcp)
        | _ => lift_result (Ok segments)
        end) segments (mjoin (hs_generators <$> im_host_states image))
  end.

Definition seed_packets (image : SimulationImage) (packets : list PacketDescriptor)
  : fueled TcpSegmentConflict TcpSegmentLedger :=
  segments ← lift_result (try_fold seed_segment [] packets);
  normalize_image segments image.

Definition seed_image (image : SimulationImage) : fueled TcpSegmentConflict TcpSegmentLedger :=
  segments ← lift_result (try_fold seed_segment [] (im_initial_packets image));
  normalize_image segments image.

(** ** What a ledger holds *)

(** A segment starts at its key, is TCP data of the flow and fits 64 bits. *)
Record segment_ok (flow : FlowId) (sequence : Z) (packet : PacketDescriptor) : Prop := {
  seg_flow : pk_flow packet = flow;
  seg_kind : exists header, pk_kind packet = TcpData header /\ td_sequence header = sequence;
  seg_low : 0 <= sequence;
  seg_size : 0 < pk_size_bytes packet;
  seg_high : sequence + pk_size_bytes packet <= u64_max;
}.

Definition segment_end (entry : Z * PacketDescriptor) : Z :=
  entry.1 + pk_size_bytes entry.2.

(** Segments are kept in sequence order and do not overlap. *)
Record segments_ok (flow : FlowId) (segments : bmap Z PacketDescriptor) : Prop := {
  segs_wf : wf segments;
  segs_each : forall entry, entry ∈ segments -> segment_ok flow entry.1 entry.2;
  segs_apart : forall a b, a ∈ segments -> b ∈ segments -> a.1 < b.1 -> segment_end a <= b.1;
}.

Record ledger_ok (ledger : TcpSegmentLedger) : Prop := {
  ledger_wf : wf ledger;
  ledger_each : forall flow segments, bm_get flow ledger = Some segments ->
    segments <> [] /\ segments_ok flow segments;
}.

Definition covered (segments : bmap Z PacketDescriptor) (byte : Z) : Prop :=
  exists entry, entry ∈ segments /\ entry.1 <= byte < segment_end entry.

(** The bytes of [flow] the ledger can retransmit. *)
Definition flow_covered (ledger : TcpSegmentLedger) (flow : FlowId) (byte : Z) : Prop :=
  covered (default [] (bm_get flow ledger)) byte.

Lemma last_sorted {V} (m : bmap Z V) x : wf m -> last m = Some x ->
  x ∈ m /\ forall y, y ∈ m -> y = x \/ y.1 < x.1.
Proof.
  induction m as [|[k v] m IH]; [done|]. intros [Hk Hm]%wf_cons Hl.
  destruct m as [|b m].
  - injection Hl as <-. set_solver.
  - destruct (IH Hm Hl) as [Hx Hall]. split; [set_solver|].
    intros y [->|Hy]%elem_of_cons; [|by apply Hall].
    right. apply klt_Z. rewrite Forall_forall in Hk. by apply (Hk x).
Qed.

Lemma segments_default flow ledger : ledger_ok ledger ->
  segments_ok flow (default [] (bm_get flow ledger)).
Proof.
  intros [_ H]. destruct (bm_get flow ledger) as [segments|] eqn:E; simpl.
  - by apply H.
  - split; [constructor|set_solver|set_solver].
Qed.

Section acknowledge.
Context (flow : FlowId) (segments : bmap Z PacketDescriptor) (ack : Z).
Hypothesis Hok : segments_ok flow segments.

Definition kept : bmap Z PacketDescriptor := (bm_split_off ack segments).2.

Lemma kept_elem entry : entry ∈ kept <-> entry ∈ segments /\ ack <= entry.1.
Proof. unfold kept, bm_split_off. simpl. rewrite list_elem_of_filter, kle_Z. tauto. Qed.

Lemma kept_ok : segments_ok flow kept.
Proof.
  destruct Hok as [Hwf Heach Hapart]. split.
  - by apply filter_wf.
  - intros entry [H _]%kept_elem. auto.
  - intros a b [Ha _]%kept_elem [Hb _]%kept_elem. auto.
Qed.

(** The segment that straddles the acknowledgment, when there is one. *)
Definition straddles (entry : Z * PacketDescriptor) : Prop :=
  entry ∈ segments /\ entry.1 < ack < segment_end entry.

Lemma kept_covers byte :
  covered kept byte <->
  covered segments byte /\ ack <= byte /\
  ~ exists entry, straddles entry /\ byte < segment_end entry.
Proof.
  destruct Hok as [Hwf Heach Hapart]. split.
  - intros (e & [He Hack]%kept_elem & Hb). split_and!; [by exists e|lia|].
    intros (x & [Hx Hs] & Hxb). pose proof (Hapart x e Hx He). lia.
  - intros ((e & He & Hb) & Hack & Hno). exists e. split; [|done]. apply kept_elem.
    split; [done|]. destruct (Z.le_gt_cases ack e.1) as [|Hlt]; [done|]. exfalso. apply Hno.
    exists e. unfold straddles. split; [split; [done|]|]; lia.
Qed.

Lemma straddles_unique a b : straddles a -> straddles b -> a = b.
Proof.
  destruct Hok as [Hwf Heach Hapart]. intros [Ha Ha'] [Hb Hb'].
  destruct (Z.lt_trichotomy a.1 b.1) as [H|[H|H]].
  - pose proof (Hapart a b Ha Hb H). lia.
  - destruct a as [k v], b as [k' v']. simpl in H. subst k'. f_equal.
    apply (bm_get_elem_of _ _ _ Hwf) in Ha, Hb. congruence.
  - pose proof (Hapart b a Hb Ha H). lia.
Qed.

(** No segment starts at the acknowledgment when one straddles it. *)
Lemma straddled_start entry : straddles entry -> bm_get ack kept = None.
Proof.
  destruct Hok as [Hwf Heach Hapart]. intros [He Hs].
  destruct (bm_get ack kept) as [p|] eqn:E; [|done]. exfalso.
  apply bm_get_elem_of, kept_elem in E as [E _]; [|apply kept_ok].
  pose proof (Hapart entry (ack, p) He E). simpl in *. lia.
Qed.

Definition truncate (entry : Z * PacketDescriptor) (header : TcpDataHeader) : PacketDescriptor :=
  entry.2 <| pk_size_bytes ::= fun bytes => bytes -w (ack -w entry.1) |>
          <| pk_kind := TcpData (header <| td_sequence := ack |>) |>.

(** Either a segment straddles the acknowledgment and its rest is filed at it,
    or the segments from the acknowledgment on are kept as they are. *)
Lemma unacknowledged_cases : in_u64 ack ->
  (exists entry header, straddles entry /\ pk_kind entry.2 = TcpData header /\
     unacknowledged_segments flow segments ack
       = Some (Ok (bm_insert ack (truncate entry header) kept))) \/
  ((forall entry, ~ straddles entry) /\
     unacknowledged_segments flow segments ack = Some (Ok kept)).
Proof.
  intros Hack. destruct Hok as [Hwf Heach Hapart].
  unfold unacknowledged_segments, bm_split_off. cbn iota beta.
  assert (Hin : forall e, e ∈ filter (fun kv : Z * _ => klt kv.1 ack) segments <->
    e ∈ segments /\ e.1 < ack).
  { intros e. rewrite list_elem_of_filter, klt_Z. tauto. }
  unfold bm_last. destruct (last _) as [[sequence p]|] eqn:El.
  - apply last_sorted in El as [Hx Hmax]; [|by apply filter_wf].
    apply Hin in Hx as [Hx Hlt]. simpl in Hlt.
    pose proof (Heach _ Hx) as [_ (h & Hk & Hseq) Hlow Hsize Hhigh]. simpl in *.
    assert (Hw : ack -w sequence = ack - sequence) by (apply wsub_small; mlia).
    rewrite Hw, Hk. destruct (Z.ltb_spec (ack - sequence) (pk_size_bytes p)) as [Hlt'|Hge].
    + assert (Hst : straddles (sequence, p)) by (split; [done|]; unfold segment_end; simpl; lia).
      pose proof (straddled_start _ Hst) as Hnone. unfold kept, bm_split_off in Hnone.
      simpl in Hnone. left. exists (sequence, p), h. split_and!; [done|done|].
      rewrite Hnone. unfold truncate. simpl. by rewrite Hw.
    + right. split; [|done]. intros e [He Hs].
      destruct (Hmax e) as [->|Hm]; [apply Hin; split; [done|lia]| |];
        unfold segment_end in Hs; simpl in *; [lia|].
      pose proof (Hapart e (sequence, p) He Hx Hm). unfold segment_end in *. simpl in *. lia.
  - right. split; [|done]. intros e [He Hs].
    apply last_None in El. assert (e ∈ filter (fun kv : Z * _ => klt kv.1 ack) segments)
      as Hf by (apply Hin; split; [done|lia]). rewrite El in Hf. by apply not_elem_of_nil in Hf.
Qed.

Lemma truncate_ok entry header : in_u64 ack -> straddles entry ->
  pk_kind entry.2 = TcpData header ->
  segment_ok flow ack (truncate entry header) /\
  segment_end (ack, truncate entry header) = segment_end entry.
Proof.
  intros Hack [He Hs] Hk. pose proof (segs_each _ _ Hok _ He) as [Hf _ Hlow Hsize Hhigh].
  unfold truncate, segment_end in *. simpl.
  rewrite !wsub_small by (rewrite ?wsub_small; mlia).
  split; [|lia]. split; simpl; [done|by eexists|mlia|lia|lia].
Qed.

(** The rest of a straddling segment fits in front of the kept ones. *)
Lemma insert_rest_ok entry header : in_u64 ack -> straddles entry ->
  pk_kind entry.2 = TcpData header ->
  segments_ok flow (bm_insert ack (truncate entry header) kept).
Proof.
  intros Hack Hst Hk. destruct (truncate_ok _ _ Hack Hst Hk) as [Htr Hend].
  pose proof kept_ok as [Hwf Heach Hapart]. destruct Hst as [He Hs]. split.
  - by apply bm_insert_wf.
  - intros e [->|He']%bm_insert_elem_of_1; [done|by apply Heach].
  - intros a b [->|Ha]%bm_insert_elem_of_1 [->|Hb]%bm_insert_elem_of_1.
    + simpl. lia.
    + intros _. rewrite Hend.
      apply kept_elem in Hb as [Hb Hlow]. apply (segs_apart _ _ Hok); [done|done|lia].
    + apply kept_elem in Ha as [_ Hlow]. simpl. lia.
    + by apply Hapart.
Qed.

Lemma insert_rest_covers entry header byte : in_u64 ack -> straddles entry ->
  pk_kind entry.2 = TcpData header ->
  covered (bm_insert ack (truncate entry header) kept) byte <->
  ack <= byte < segment_end entry \/ covered kept byte.
Proof.
  intros Hack Hst Hk. destruct (truncate_ok _ _ Hack Hst Hk) as [_ Hend].
  pose proof (straddled_start _ Hst) as Hnone. unfold covered. split.
  - intros (e & [->|He]%bm_insert_elem_of_1 & Hb); [left|right; by exists e].
    rewrite Hend in Hb. exact Hb.
  - intros [Hb|(e & He & Hb)].
    + exists (ack, truncate entry header). split; [apply bm_insert_elem_of; [apply kept_ok|by left]|].
      rewrite Hend. exact Hb.
    + exists e. split; [|done]. apply bm_insert_elem_of; [apply kept_ok|]. right.
      split; [done|]. intros Hk'. destruct e as [k v]. simpl in *. subst k.
      apply bm_get_elem_of in He; [congruence|apply kept_ok].
Qed.

(** The bytes from the acknowledgment on are kept, and the first of them starts
    a segment. *)
Lemma unacknowledged_exact : in_u64 ack ->
  exists rest, unacknowledged_segments flow segments ack = Some (Ok rest) /\
    segments_ok flow rest /\
    (forall byte, covered rest byte <-> covered segments byte /\ ack <= byte) /\
    (covered segments ack -> is_Some (bm_get ack rest)).
Proof.
  intros Hack. destruct (unacknowledged_cases Hack) as [(e & h & Hst & Hk & ->)|[Hno ->]].
  - eexists. split; [done|]. split; [by apply insert_rest_ok|]. split.
    + intros byte. rewrite insert_rest_covers, kept_covers by done. split.
      * intros [Hb|(? & ? & _)]; [|tauto]. split; [|lia]. exists e. destruct Hst. split; [done|lia].
      * intros [Hc Hb]. destruct (Z.lt_ge_cases byte (segment_end e)) as [|Hge]; [left; lia|right].
        split_and!; [done..|]. intros (x & Hx & Hlt). pose proof (straddles_unique _ _ Hx Hst). subst. lia.
    + intros _. rewrite bm_get_insert_eq. by eexists.
  - eexists. split; [done|]. split; [apply kept_ok|]. split.
    + intros byte. rewrite kept_covers. split; [tauto|]. intros [Hc Hb]. split_and!; [done..|].
      intros (x & Hx & _). by apply (Hno x).
    + intros (e & He & Hb). destruct (decide (e.1 = ack)) as [Heq|Hne].
      * exists e.2. apply bm_get_elem_of; [apply kept_ok|]. apply kept_elem.
        rewrite <- Heq at 1. rewrite <- surjective_pairing. split; [done|simpl; lia].
      * exfalso. apply (Hno e). split; [done|lia].
Qed.
End acknowledge.

(** Filing a flow's segments, or dropping the flow when none is left. *)
Lemma ledger_put_get (ledger : TcpSegmentLedger) flow segments other : wf ledger ->
  default [] (bm_get other (match segments with
                            | [] => bm_remove flow ledger
                            | _ => bm_insert flow segments ledger
                            end))
  = if decide (other = flow) then segments else default [] (bm_get other ledger).
Proof.
  intros Hwf. destruct segments as [|x segments]; case_decide as Hd; subst.
  - destruct (bm_get flow (bm_remove flow ledger)) as [v|] eqn:E; [|done].
    apply bm_get_elem_of in E; [|by apply bm_remove_wf]. by apply bm_remove_elem_of in E as [? ?].
  - f_equal. apply option_eq. intros v.
    rewrite !bm_get_elem_of, bm_remove_elem_of by (done || by apply bm_remove_wf).
    simpl. naive_solver.
  - by rewrite bm_get_insert_eq.
  - by rewrite bm_get_insert_ne.
Qed.

Lemma ledger_put_ok ledger flow segments : ledger_ok ledger -> segments_ok flow segments ->
  ledger_ok (match segments with
             | [] => bm_remove flow ledger
             | _ => bm_insert flow segments ledger
             end).
Proof.
  intros [Hwf Heach] Hs. destruct segments as [|x segments]; split.
  - by apply bm_remove_wf.
  - intros f v [Hv _]%bm_get_elem_of%bm_remove_elem_of; [|done|by apply bm_remove_wf].
    apply Heach. by apply bm_get_elem_of.
  - by apply bm_insert_wf.
  - intros f v Hv. destruct (decide (flow = f)) as [<-|Hne].
    + rewrite bm_get_insert_eq in Hv. injection Hv as <-. done.
    + rewrite bm_get_insert_ne in Hv by done. by apply Heach.
Qed.

(** C25. Acknowledging on a ledger of non-overlapping segments never fails: it keeps
    exactly the flow's bytes at or above the acknowledgment, leaves every other
    flow alone and keeps the ledger well formed; and when the acknowledged byte
    itself is in flight, a segment starts at it, so a retransmission from there
    finds its segment. *)
Theorem acknowledge_exact (ledger : TcpSegmentLedger) (flow : FlowId) (ack : Z) :
  ledger_ok ledger -> in_u64 ack ->
  exists ledger', acknowledge_segments ledger flow ack = Some (Ok ledger') /\
    ledger_ok ledger' /\
    (forall other byte, flow_covered ledger' other byte <->
       flow_covered ledger other byte /\ (other = flow -> ack <= byte)) /\
    (flow_covered ledger flow ack ->
       exists segments, bm_get flow ledger' = Some segments /\ is_Some (bm_get ack segments)).
Proof.
  intros Hok Hack. unfold acknowledge_segments, flow_covered.
  destruct (bm_get flow ledger) as [segments|] eqn:E.
  - destruct (ledger_each _ Hok _ _ E) as [Hne Hs].
    destruct (unacknowledged_exact _ _ _ Hs Hack) as (rest & -> & Hrest & Hcov & Hfirst).
    eexists. split; [reflexivity|]. split; [by apply ledger_put_ok|]. split.
    + intros other byte. rewrite ledger_put_get by apply Hok. case_decide as Hd.
      * subst. rewrite E. simpl. rewrite Hcov. naive_solver.
      * naive_solver.
    + simpl. intros Hc. destruct (Hfirst Hc) as [p Hp]. exists rest. split; [|by eexists].
      destruct rest; [done|]. by rewrite bm_get_insert_eq.
  - eexists. split; [reflexivity|]. split_and!; [done| |].
    + intros other byte. split; [|tauto]. intros Hc. split; [done|].
      intros ->. rewrite E in Hc. destruct Hc as (? & []%not_elem_of_nil & _).
    + simpl. by intros (? & []%not_elem_of_nil & _).
Qed.

Definition tcp_packet_example (id sequence size : Z) : PacketDescriptor :=
  mkPacket id 7 size false (TcpData (mkTcpData sequence 0 false)).

Definition ledger_example : TcpSegmentLedger :=
  [(7, [(1000, tcp_packet_example 1 1000 500); (1500, tcp_packet_example 2 1500 500)])].

Lemma segment_ok_example id sequence size : 0 <= sequence -> 0 < size ->
  sequence + size <= u64_max -> segment_ok 7 sequence (tcp_packet_example id sequence size).
Proof. intros. split; simpl; [done|by eexists|done..]. Qed.

Lemma ledger_example_ok : ledger_ok ledger_example.
Proof.
  split; [by repeat constructor|]. intros flow segments.
  unfold ledger_example. simpl. destruct (keqb flow 7) eqn:E; [|done].
  apply keqb_spec in E. intros [= <-]. subst. split; [done|]. split.
  - by repeat constructor.
  - intros e He. repeat (apply elem_of_cons in He as [->|He];
      [apply segment_ok_example; mlia|]). by apply not_elem_of_nil in He.
  - intros a b Ha Hb. repeat (apply elem_of_cons in Ha as [->|Ha];
      [repeat (apply elem_of_cons in Hb as [->|Hb]; [unfold segment_end; simpl; lia|])|]);
      by apply not_elem_of_nil in Ha || by apply not_elem_of_nil in Hb.
Qed.

Lemma acknowledge_exact_witness :
  exists ledger', acknowledge_segments ledger_example 7 1200 = Some (Ok ledger') /\
    flow_covered ledger' 7 1200 /\ ~ flow_covered ledger' 7 1199.
Proof.
  destruct (acknowledge_exact ledger_example 7 1200 ledger_example_ok) as (l & E & _ & H & _);
    [mlia|].
  exists l. split; [exact E|]. split; [|intros [_ Hc]%H; specialize (Hc eq_refl); lia].
  apply H. split; [|lia]. exists (1000, tcp_packet_example 1 1000 500).
  split; [by left|]. unfold segment_end. simpl. lia.
Defined.

(** ** Seeding *)

(** A segment may be filed when it repeats a filed one or touches no filed byte. *)
Definition may_seed (ledger : TcpSegmentLedger) (flow : FlowId) (sequence size : Z) : Prop :=
  (exists original, bm_get sequence (default [] (bm_get flow ledger)) = Some original /\
     pk_size_bytes original = size) \/
  (forall byte, sequence <= byte < sequence + size -> ~ flow_covered ledger flow byte).

Lemma segments_insert_ok flow segments sequence packet :
  segments_ok flow segments -> segment_ok flow sequence packet ->
  (exists original, bm_get sequence segments = Some original /\
     pk_size_bytes original = pk_size_bytes packet) \/
  (forall byte, sequence <= byte < sequence + pk_size_bytes packet -> ~ covered segments byte) ->
  segments_ok flow (bm_insert sequence packet segments) /\
  forall byte, covered (bm_insert sequence packet segments) byte <->
    covered segments byte \/ sequence <= byte < sequence + pk_size_bytes packet.
Proof.
  intros [Hwf Heach Hapart] Hp Hfit.
  assert (Hin : forall e, e ∈ bm_insert sequence packet segments <->
    e = (sequence, packet) \/ (e ∈ segments /\ e.1 <> sequence))
    by (intros e; by apply bm_insert_elem_of).
  assert (Hout : forall e, e ∈ segments -> e.1 <> sequence ->
    segment_end e <= sequence \/ sequence + pk_size_bytes packet <= e.1).
  { intros e He Hne. pose proof (Heach e He) as [_ _ Hl Hs _]. destruct Hp as [_ _ Hl' Hs' _].
    destruct Hfit as [(p & Hg & Hsz)|Hno].
    - apply bm_get_elem_of in Hg; [|done].
      destruct (Z.lt_ge_cases e.1 sequence) as [Hlt|Hge].
      + left. by apply (Hapart e (sequence, p)).
      + right. pose proof (Hapart (sequence, p) e Hg He). unfold segment_end in *. simpl in *. lia.
    - assert (~ (e.1 <= sequence < segment_end e)) as Hn1
        by (intros Hb; apply (Hno sequence); [lia|by exists e]).
      assert (~ (sequence <= e.1 < sequence + pk_size_bytes packet)) as Hn2
        by (intros Hb; apply (Hno e.1); [lia|exists e; unfold segment_end; split; [done|lia]]).
      unfold segment_end in *. lia. }
  split.
  - split; [by apply bm_insert_wf| |].
    + intros e [->|[He _]]%Hin; [done|by apply Heach].
    + intros a b Ha Hb. destruct Hp as [_ _ Hl' Hs' _].
      apply Hin in Ha as [->|[Ha Hna]], Hb as [->|[Hb Hnb]]; [lia| | |by apply Hapart].
      * destruct (Hout b Hb Hnb); unfold segment_end in *; simpl; pose proof (Heach b Hb) as [_ _ _ ? _]; lia.
      * destruct (Hout a Ha Hna); unfold segment_end in *; simpl; lia.
  - intros byte. split.
    + intros (e & [->|[He _]]%Hin & Hb); [right; exact Hb|left; by exists e].
    + intros [(e & He & Hb)|Hb].
      * destruct (decide (e.1 = sequence)) as [Heq|Hne]; [|exists e; rewrite Hin; tauto].
        exists (sequence, packet). split; [apply Hin; by left|].
        destruct Hfit as [(p & Hg & Hsz)|Hno].
        -- apply bm_get_elem_of in Hg; [|done]. destruct e as [k v]. simpl in *. subst k.
           apply (bm_get_elem_of _ _ _ Hwf) in He, Hg.
           assert (v = p) as -> by congruence. unfold segment_end in *. simpl in *. lia.
        -- exfalso. destruct Hp as [_ _ Hl' Hs' _]. apply (Hno sequence); [lia|]. exists e.
           split; [done|]. lia.
      * exists (sequence, packet). split; [apply Hin; by left|exact Hb].
Qed.

(** C26. Seeding a TCP segment that repeats a filed one, or whose bytes are not filed
    yet, succeeds: the ledger then holds the packet at its sequence, covers exactly
    the old bytes and the segment's, and stays well formed. *)
Theorem seed_exact (ledger : TcpSegmentLedger) (packet : PacketDescriptor) (sequence : Z) :
  ledger_ok ledger -> segment_ok (pk_flow packet) sequence packet ->
  may_seed ledger (pk_flow packet) sequence (pk_size_bytes packet) ->
  exists ledger', seed_segment ledger packet = Ok ledger' /\ ledger_ok ledger' /\
    bm_get sequence (default [] (bm_get (pk_flow packet) ledger')) = Some packet /\
    forall flow byte, flow_covered ledger' flow byte <->
      flow_covered ledger flow byte \/
      (flow = pk_flow packet /\ sequence <= byte < sequence + pk_size_bytes packet).
Proof.
  intros Hok Hp Hfit. pose proof (segments_default (pk_flow packet) _ Hok) as Hs.
  destruct (segments_insert_ok _ _ _ _ Hs Hp Hfit) as [Hs' Hcov].
  pose proof (seg_kind _ _ _ Hp) as (h & Hk & Hseq). unfold seed_segment. rewrite Hk, Hseq.
  set (old := default [] (bm_get (pk_flow packet) ledger)) in *.
  exists (bm_insert (pk_flow packet) (bm_insert sequence packet old) ledger).
  split; [|split; [|split]].
  - destruct (bm_get sequence old) as [o|] eqn:E; [|done].
    destruct Hfit as [(p & Hg & Hsz)|Hno].
    + fold old in Hg. assert (p = o) as -> by congruence. by rewrite (proj2 (Z.eqb_eq _ _) Hsz).
    + exfalso. destruct Hp as [_ _ Hl Hsz _]. apply (Hno sequence); [lia|].
      apply bm_get_elem_of in E; [|apply Hs]. exists (sequence, o). split; [exact E|].
      pose proof (segs_each _ _ Hs _ E) as [_ _ _ ? _]. unfold segment_end. simpl in *. lia.
  - pose proof (ledger_put_ok _ _ _ Hok Hs') as Hput.
    destruct (bm_insert sequence packet old) eqn:Ei; [|exact Hput].
    assert (bm_get sequence [] = Some packet) as Hbad by (rewrite <- Ei; apply bm_get_insert_eq).
    done.
  - by rewrite bm_get_insert_eq; simpl; rewrite bm_get_insert_eq.
  - intros flow byte. unfold flow_covered. destruct (decide (flow = pk_flow packet)) as [->|Hne].
    + rewrite bm_get_insert_eq. simpl. rewrite Hcov. tauto.
    + rewrite bm_get_insert_ne by done. tauto.
Qed.

Lemma seed_exact_witness :
  exists ledger', seed_segment ledger_example (tcp_packet_example 3 2000 400) = Ok ledger' /\
    flow_covered ledger' 7 2399.
Proof.
  destruct (seed_exact ledger_example (tcp_packet_example 3 2000 400) 2000)
    as (l & E & _ & _ & H).
  - exact ledger_example_ok.
  - apply segment_ok_example; mlia.
  - right. intros byte Hb (e & He & Hb'). unfold ledger_example in He. simpl in *.
    repeat (apply elem_of_cons in He as [->|He]; [unfold segment_end in Hb'; simpl in *; lia|]).
    by apply not_elem_of_nil in He.
  - exists l. split; [exact E|]. apply H. right. simpl. split; [done|lia].
Defined.
