(* ===== verification/TcpRing.v ===== *)
(** * The device TCP ledger ring (executor/src/tcp_ledger_ring.rs)

    On a device, one flow's unacknowledged segments are a ring of five-word
    records behind six metadata words. The file keeps two host transliterations
    of the kernels, compiled for its tests only: the ring, and the shifting array it
    replaced. Both are modelled on the word array itself, where an index out of range
    panics, and both are proved to keep a sender's segments as the executor's own
    ledger (TcpLedger.v) does, word for word. The kernels that run on a device are
    not Rust code and are not modelled.

    Positions in the word array are naturals: they are bounded by its length, so
    the machine's address arithmetic does not wrap. *)

From S2P Require Import Prelude Words OrdMap Event Tcp Model Image TcpLedger.

Definition TCP_LEDGER_META_WORDS : nat := 6.
Definition TCP_LEDGER_RECORD_WORDS : nat := 5.
Definition LEDGER_META_OFFSET : nat := 0.
Definition LEDGER_META_CAPACITY : nat := 1.
Definition LEDGER_META_COUNT : nat := 2.
Definition LEDGER_META_HEAD : nat := 4.
Definition LEDGER_META_HIGH_WATER : nat := 5.

(** The word of logical record [logical] of a ring. *)
Definition ledger_record_slot (offset capacity head logical : nat) : nat :=
  let span := Nat.max capacity 1 in
  (offset + ((head + logical) mod span) * TCP_LEDGER_RECORD_WORDS)%nat.

(** [u32] high-water marks of [flows] flows. *)
Definition ledger_high_water_vector (meta : list Z) (meta_offset flows : nat) : list Z :=
  (fun flow =>
     let mark := default 0
       (meta !! (meta_offset + flow * TCP_LEDGER_META_WORDS + LEDGER_META_HIGH_WATER)%nat) in
     if mark <=? u32_max then mark else u32_max) <$> seq 0 flows.

(** ** Planes of words *)

Inductive LedgerOp :=
  | Insert (id size sequence sent_ns : Z) (retransmission : bool)
  | Acknowledge (acknowledgment : Z).

Inductive LedgerOutcome :=
  | Applied
  | CapacityExceeded (capacity demand : nat)
  | SizeConflict.

Record LedgerPlane := mkPlane { lp_words : list Z }.

(** [for word in 0..5 { words[target + word] = words[source + word] }]. *)
Definition copy_record (target source : nat) (words : list Z) : option (list Z) :=
  option_fold (fun words word =>
    value ← words !! (source + word)%nat; write_word (target + word) value words)
    words (seq 0 TCP_LEDGER_RECORD_WORDS).

Definition plane_seed (capacity : nat) (records : list (list Z)) : option LedgerPlane :=
  let offset := TCP_LEDGER_META_WORDS in
  let words := replicate (offset + Nat.max capacity 1 * TCP_LEDGER_RECORD_WORDS)%nat 0 in
  let words :=
    <[LEDGER_META_HIGH_WATER := Z.of_nat (length records)]>
    (<[LEDGER_META_HEAD := 0]>
    (<[LEDGER_META_COUNT := Z.of_nat (length records)]>
    (<[LEDGER_META_CAPACITY := Z.of_nat capacity]>
    (<[LEDGER_META_OFFSET := Z.of_nat offset]> words)))) in
  words ← option_fold (fun words indexed =>
      write_record (offset + indexed.1 * TCP_LEDGER_RECORD_WORDS)%nat indexed.2 words)
    words (imap pair records);
  Some (mkPlane words).

Definition plane_meta (plane : LedgerPlane) (word : nat) : option nat :=
  Z.to_nat <$> lp_words plane !! word.

(** [u64::to_le_bytes]. *)
Definition to_le_bytes (word : Z) : list Z :=
  (fun i => Z.shiftr word (8 * Z.of_nat i) mod 256) <$> seq 0 8.

(** The canonical decode: the records in logical order. *)
Definition canonical_bytes (plane : LedgerPlane) (ring : bool) : option (list Z) :=
  offset ← plane_meta plane LEDGER_META_OFFSET;
  capacity ← plane_meta plane LEDGER_META_CAPACITY;
  count ← plane_meta plane LEDGER_META_COUNT;
  head ← (if ring then plane_meta plane LEDGER_META_HEAD else Some 0%nat);
  option_fold (fun bytes logical =>
    let slot :=
      if ring then ledger_record_slot offset capacity head logical
      else (offset + logical * TCP_LEDGER_RECORD_WORDS)%nat in
    option_fold (fun bytes word =>
      value ← lp_words plane !! (slot + word)%nat;
      Some (bytes ++ to_le_bytes value)) bytes (seq 0 TCP_LEDGER_RECORD_WORDS))
    [] (seq 0 count).

Definition record_words (id size sequence sent_ns : Z) (retransmission : bool) : list Z :=
  [id; size; sequence; sent_ns; Z.b2z retransmission].

(** ** The loops the two algorithms share, over the slots of each *)

(** [while insertion < count && words[slot + 2] < sequence { insertion += 1 }]. *)
Fixpoint scan_below (slot : nat -> nat) (words : list Z) (sequence : Z) (insertion n : nat)
  : option nat :=
  match n with
  | O => Some insertion
  | S n =>
      value ← words !! (slot insertion + 2)%nat;
      if value <? sequence then scan_below slot words sequence (S insertion) n
      else Some insertion
  end.

(** [while keep < count { if words[record + 2] + words[record + 1] > ack { break } .. }]. *)
Fixpoint scan_acknowledged (slot : nat -> nat) (words : list Z) (acknowledgment : Z)
    (keep n : nat) : option nat :=
  match n with
  | O => Some keep
  | S n =>
      sequence ← words !! (slot keep + 2)%nat;
      size ← words !! (slot keep + 1)%nat;
      if acknowledgment <? sequence +w size then Some keep
      else scan_acknowledged slot words acknowledgment (S keep) n
  end.

(** The partial acknowledgment of the first record kept. *)
Definition trim_first (slot : nat -> nat) (words : list Z) (acknowledgment : Z)
    (keep count : nat) : option (list Z * nat) :=
  if (keep <? count)%nat then
    let first := slot keep in
    sequence ← words !! (first + 2)%nat;
    if sequence <? acknowledgment then
      let acknowledged := acknowledgment -w sequence in
      size ← words !! (first + 1)%nat;
      if acknowledged <? size then
        words ← write_word (first + 1) (size -w acknowledged) words;
        words ← write_word (first + 2) acknowledgment words;
        Some (words, keep)
      else Some (words, S keep)
    else Some (words, keep)
  else Some (words, keep).

(** [for index in (insertion + 1..=count).rev()], moving each record up one. *)
Definition shift_up (slot : nat -> nat) (words : list Z) (insertion count : nat)
  : option (list Z) :=
  option_fold (fun words index => copy_record (slot index) (slot (index - 1)%nat) words)
    words (rev (seq (S insertion) (count - insertion))).

(** ** The shifting array *)

Definition array_slot (offset index : nat) : nat :=
  (offset + index * TCP_LEDGER_RECORD_WORDS)%nat.

Definition array_insert (offset capacity count : nat) (size sequence : Z) (record : list Z)
    (words : list Z) : option (LedgerOutcome * list Z) :=
  let slot := array_slot offset in
  insertion ← scan_below slot words sequence 0 count;
  found ← (if (insertion <? count)%nat
           then value ← words !! (slot insertion + 2)%nat; Some (value =? sequence)
           else Some false);
  if (found : bool) then
    resident ← words !! (slot insertion + 1)%nat;
    if negb (resident =? size) then Some (SizeConflict, words)
    else words ← write_record (slot insertion) record words; Some (Applied, words)
  else if (capacity <=? count)%nat then Some (CapacityExceeded capacity (S count), words)
  else
    words ← shift_up slot words insertion count;
    words ← write_record (slot insertion) record words;
    words ← write_word LEDGER_META_COUNT (Z.of_nat (S count)) words;
    Some (Applied, words).

Definition array_acknowledge (offset count : nat) (acknowledgment : Z) (words : list Z)
  : option (LedgerOutcome * list Z) :=
  let slot := array_slot offset in
  keep ← scan_acknowledged slot words acknowledgment 0 count;
  '(words, keep) ← trim_first slot words acknowledgment keep count;
  let remaining := (count - keep)%nat in
  words ← option_fold (fun words index => copy_record (slot index) (slot (keep + index)%nat) words)
            words (seq 0 remaining);
  words ← write_word LEDGER_META_COUNT (Z.of_nat remaining) words;
  Some (Applied, words).

Definition apply_array (plane : LedgerPlane) (op : LedgerOp)
  : option (LedgerOutcome * LedgerPlane) :=
  offset ← plane_meta plane LEDGER_META_OFFSET;
  capacity ← plane_meta plane LEDGER_META_CAPACITY;
  count ← plane_meta plane LEDGER_META_COUNT;
  '(outcome, words) ←
    match op with
    | Insert id size sequence sent_ns retransmission =>
        array_insert offset capacity count size sequence
          (record_words id size sequence sent_ns retransmission) (lp_words plane)
    | Acknowledge acknowledgment =>
        array_acknowledge offset count acknowledgment (lp_words plane)
    end;
  Some (outcome, mkPlane words).

(** ** The ring *)

(** The binary search; each round at least halves [high - low]. *)
Fixpoint lower_bound_loop (fuel : nat) (slot : nat -> nat) (words : list Z) (sequence : Z)
    (low high : nat) : option nat :=
  if (low <? high)%nat then
    match fuel with
    | O => None
    | S fuel =>
        let mid := (low + (high - low) / 2)%nat in
        value ← words !! (slot mid + 2)%nat;
        if value <? sequence then lower_bound_loop fuel slot words sequence (S mid) high
        else lower_bound_loop fuel slot words sequence low mid
    end
  else Some low.

Definition lower_bound (slot : nat -> nat) (words : list Z) (count : nat) (sequence : Z)
  : option nat := lower_bound_loop count slot words sequence 0 count.

(** Where a new record goes: appended, in front of the head, or between. *)
Definition ring_place (offset capacity head count insertion : nat) (words : list Z)
  : option (nat * list Z) :=
  let slot := ledger_record_slot offset capacity head in
  if (insertion =? count)%nat then Some (slot count, words)
  else if (insertion =? 0)%nat then
    let retreated := ((if (head =? 0)%nat then capacity else head) - 1)%nat in
    words ← write_word LEDGER_META_HEAD (Z.of_nat retreated) words;
    Some ((offset + retreated * TCP_LEDGER_RECORD_WORDS)%nat, words)
  else
    words ← shift_up slot words insertion count;
    Some (slot insertion, words).

Definition ring_insert (offset capacity head count : nat) (size sequence : Z) (record : list Z)
    (words : list Z) : option (LedgerOutcome * list Z) :=
  let slot := ledger_record_slot offset capacity head in
  insertion ← lower_bound slot words count sequence;
  found ← (if (insertion <? count)%nat
           then value ← words !! (slot insertion + 2)%nat; Some (value =? sequence)
           else Some false);
  if (found : bool) then
    resident ← words !! (slot insertion + 1)%nat;
    if negb (resident =? size) then Some (SizeConflict, words)
    else words ← write_record (slot insertion) record words; Some (Applied, words)
  else if (capacity <=? count)%nat then Some (CapacityExceeded capacity (S count), words)
  else
    '(place, words) ← ring_place offset capacity head count insertion words;
    words ← write_record place record words;
    let grown := Z.of_nat (S count) in
    words ← write_word LEDGER_META_COUNT grown words;
    high_water ← words !! LEDGER_META_HIGH_WATER;
    words ← (if high_water <? grown then write_word LEDGER_META_HIGH_WATER grown words
             else Some words);
    Some (Applied, words).

Definition ring_acknowledge (offset capacity head count : nat) (acknowledgment : Z)
    (words : list Z) : option (LedgerOutcome * list Z) :=
  let slot := ledger_record_slot offset capacity head in
  keep ← scan_acknowledged slot words acknowledgment 0 count;
  '(words, keep) ← trim_first slot words acknowledgment keep count;
  let span := Nat.max capacity 1 in
  words ← write_word LEDGER_META_HEAD (Z.of_nat ((head + keep) mod span)) words;
  words ← write_word LEDGER_META_COUNT (Z.of_nat (count - keep)) words;
  Some (Applied, words).

Definition apply_ring (plane : LedgerPlane) (op : LedgerOp)
  : option (LedgerOutcome * LedgerPlane) :=
  offset ← plane_meta plane LEDGER_META_OFFSET;
  capacity ← plane_meta plane LEDGER_META_CAPACITY;
  count ← plane_meta plane LEDGER_META_COUNT;
  head ← plane_meta plane LEDGER_META_HEAD;
  '(outcome, words) ←
    match op with
    | Insert id size sequence sent_ns retransmission =>
        ring_insert offset capacity head count size sequence
          (record_words id size sequence sent_ns retransmission) (lp_words plane)
    | Acknowledge acknowledgment =>
        ring_acknowledge offset capacity head count acknowledgment (lp_words plane)
    end;
  Some (outcome, mkPlane words).

(** ** The word array as rows

    A plane is its metadata and the rows of its arena; its logical rows start at
    the head. *)

Definition layout (capacity count head : nat) (timer high_water : Z) (rows : list (list Z))
  : list Z :=
  [6; Z.of_nat capacity; Z.of_nat count; timer; Z.of_nat head; high_water] ++ mjoin rows.

Definition uniform (rows : list (list Z)) : Prop :=
  Forall (fun row => length row = TCP_LEDGER_RECORD_WORDS) rows.

Lemma rows_lookup rows i row w : uniform rows -> rows !! i = Some row -> (w < 5)%nat ->
  mjoin rows !! (i * 5 + w)%nat = row !! w.
Proof.
  intros Hu Hi Hw. destruct (row !! w) as [x|] eqn:E.
  - apply (join_lookup_Some_same_length' 5); eauto.
  - pose proof (Forall_lookup_1 _ _ _ _ Hu Hi) as Hl. simpl in Hl.
    apply lookup_ge_None in E. unfold TCP_LEDGER_RECORD_WORDS in Hl. lia.
Qed.

Lemma rows_split rows i row : uniform rows -> rows !! i = Some row ->
  mjoin rows = mjoin (take i rows) ++ row ++ mjoin (drop (S i) rows)
  /\ length (mjoin (take i rows)) = (i * 5)%nat /\ length row = 5%nat.
Proof. apply (table_split 5). Qed.

Lemma rows_insert rows i row w v : uniform rows -> rows !! i = Some row -> (w < 5)%nat ->
  <[(i * 5 + w)%nat := v]> (mjoin rows) = mjoin (<[i := <[w := v]> row]> rows).
Proof.
  intros Hu Hi Hw. pose proof (lookup_lt_Some _ _ _ Hi) as Hlt.
  destruct (rows_split _ _ _ Hu Hi) as (-> & Hl & Hr).
  rewrite insert_app_r_alt by lia. rewrite Hl.
  replace (i * 5 + w - i * 5)%nat with w by lia. rewrite insert_app_l by lia.
  rewrite (insert_take_drop rows) by lia. rewrite join_app. done.
Qed.

Lemma rows_write rows i row record : uniform rows -> rows !! i = Some row ->
  length record = 5%nat ->
  take (i * 5) (mjoin rows) ++ record ++ drop (i * 5 + 5) (mjoin rows)
  = mjoin (<[i := record]> rows).
Proof.
  intros Hu Hi Hn. pose proof (lookup_lt_Some _ _ _ Hi) as Hlt.
  destruct (rows_split _ _ _ Hu Hi) as (-> & Hl & Hr).
  rewrite take_app_length', (app_assoc _ row), drop_app_length' by (rewrite ?length_app; lia).
  rewrite (insert_take_drop rows) by lia. rewrite join_app. done.
Qed.

(** The words hold the logical rows [l] of a ring that starts at [head]. *)
Inductive view (words : list Z) (capacity count head : nat) (high_water : Z)
    (l : list (list Z)) : Prop :=
  | view_intro timer rows :
      words = layout capacity count head timer high_water rows ->
      uniform rows -> length rows = Nat.max capacity 1 -> (head < Nat.max capacity 1)%nat ->
      l = rotate head rows -> view words capacity count head high_water l.

(** A slot function of the ring. *)
Definition slots_of (slot : nat -> nat) (capacity head : nat) : Prop :=
  forall i, (i < Nat.max capacity 1)%nat -> slot i = ledger_record_slot 6 capacity head i.

Lemma ring_slots capacity head : slots_of (ledger_record_slot 6 capacity head) capacity head.
Proof. done. Qed.

Lemma array_slots capacity : slots_of (array_slot 6) capacity 0.
Proof.
  intros i Hi. unfold array_slot, ledger_record_slot. simpl.
  by rewrite Nat.mod_small by lia.
Qed.

Lemma rotate_add_nat (base i len : nat) : (0 < len)%nat ->
  rotate_nat_add base i len = ((base + i) mod len)%nat.
Proof. intros ?. unfold rotate_nat_add. rewrite <- Nat2Z.inj_add, <- Nat2Z.inj_mod. lia. Qed.

Section view.
Context (slot : nat -> nat) (words : list Z) (capacity count head : nat) (high_water : Z).
Context (l : list (list Z)).
Hypothesis (Hslot : slots_of slot capacity head).
Hypothesis (Hview : view words capacity count head high_water l).

Lemma view_length : length l = Nat.max capacity 1.
Proof. destruct Hview as [? ? ? ? ? ? ->]. by rewrite length_rotate. Qed.

Lemma view_uniform : uniform l.
Proof.
  destruct Hview as [timer rows _ Hu _ _ ->]. apply Forall_forall. intros r Hr.
  apply elem_of_rotate in Hr. by apply (proj1 (Forall_forall _ _) Hu).
Qed.

(** A logical row is the row its slot names. *)
Lemma view_row i : (i < Nat.max capacity 1)%nat -> exists timer rows k,
  words = layout capacity count head timer high_water rows /\ uniform rows
  /\ length rows = Nat.max capacity 1 /\ l = rotate head rows
  /\ k = rotate_nat_add head i (length rows) /\ (k < length rows)%nat
  /\ slot i = (6 + k * 5)%nat /\ rows !! k = l !! i.
Proof.
  intros Hi. rewrite (Hslot i Hi). destruct Hview as [timer rows -> Hu Hn Hh ->].
  exists timer, rows, (rotate_nat_add head i (length rows)).
  assert (0 < length rows)%nat by lia. split_and!; try done.
  - by apply rotate_nat_add_lt.
  - rewrite rotate_add_nat by done. unfold ledger_record_slot. by rewrite Hn.
  - by rewrite lookup_rotate_r by lia.
Qed.

Lemma view_read i row w : l !! i = Some row -> (w < 5)%nat ->
  words !! (slot i + w)%nat = row !! w.
Proof.
  intros Hi Hw. pose proof (lookup_lt_Some _ _ _ Hi) as Hlt. rewrite view_length in Hlt.
  destruct (view_row i Hlt) as (timer & rows & k & -> & Hu & Hn & -> & _ & Hk & -> & Hr).
  rewrite Hi in Hr. rewrite <- Nat.add_assoc. simpl. by apply rows_lookup.
Qed.

Lemma view_write_word i row w v : l !! i = Some row -> (w < 5)%nat ->
  exists words', write_word (slot i + w) v words = Some words'
    /\ view words' capacity count head high_water (<[i := <[w := v]> row]> l).
Proof.
  intros Hi Hw. pose proof (lookup_lt_Some _ _ _ Hi) as Hlt. rewrite view_length in Hlt.
  destruct (view_row i Hlt) as (timer & rows & k & -> & Hu & Hn & El & Ek & Hk & -> & Hr).
  rewrite Hi in Hr. unfold layout. rewrite <- Nat.add_assoc.
  destruct (rows_split _ _ _ Hu Hr) as (Ej & Hp & Hrow).
  eexists. split; [apply (write_word_app [_; _; _; _; _; _])|].
  { rewrite Ej, !length_app. lia. }
  destruct Hview as [_ _ _ _ _ Hh _].
  rewrite (rows_insert _ _ row) by done. eapply view_intro; [reflexivity| | |done|].
  - apply Forall_insert; [done|]. by rewrite length_insert.
  - by rewrite length_insert.
  - subst l k. symmetry. apply rotate_insert_l. lia.
Qed.

Lemma view_write_record i record : (i < Nat.max capacity 1)%nat -> length record = 5%nat ->
  exists words', write_record (slot i) record words = Some words'
    /\ view words' capacity count head high_water (<[i := record]> l).
Proof.
  intros Hlt Hl.
  destruct (view_row i Hlt) as (timer & rows & k & -> & Hu & Hn & El & Ek & Hk & -> & Hr).
  destruct (lookup_lt_is_Some_2 rows k Hk) as [row Erow].
  destruct (rows_split _ _ _ Hu Erow) as (Ej & Hp & Hrow).
  eexists. split.
  { unfold write_record, layout. rewrite Hl.
    rewrite (proj2 (Nat.leb_le _ _)); [reflexivity|]. rewrite length_app, Ej, !length_app. simpl. lia. }
  destruct Hview as [_ _ _ _ _ Hh _]. simpl. rewrite (rows_write _ _ row) by done.
  apply (view_intro _ _ _ _ _ _ timer (<[k := record]> rows)); [reflexivity| | |done|].
  - by apply Forall_insert.
  - by rewrite length_insert.
  - subst l k. symmetry. apply rotate_insert_l. lia.
Qed.
End view.

Lemma copied_step {A} (row old : list A) k v : length old = length row -> row !! k = Some v ->
  <[k := v]> (take k row ++ drop k old) = take (S k) row ++ drop (S k) old.
Proof.
  intros Hl Hv. pose proof (lookup_lt_Some _ _ _ Hv) as Hk.
  rewrite insert_app_r_alt by (rewrite length_take; lia).
  rewrite length_take, Nat.min_l, Nat.sub_diag by lia.
  rewrite (take_S_r _ _ v) by done. rewrite <- app_assoc. f_equal.
  destruct (lookup_lt_is_Some_2 old k) as [o Ho]; [lia|].
  by rewrite (drop_S _ _ _ Ho).
Qed.

Lemma view_copy slot words capacity count head high_water l i j row :
  slots_of slot capacity head -> view words capacity count head high_water l ->
  (i < Nat.max capacity 1)%nat -> l !! j = Some row ->
  exists words', copy_record (slot i) (slot j) words = Some words'
    /\ view words' capacity count head high_water (<[i := row]> l).
Proof.
  intros Hs Hv Hi Hj. pose proof (view_length _ _ _ _ _ _ Hv) as Hlen.
  destruct (lookup_lt_is_Some_2 l i) as [old Hold]; [lia|].
  pose proof (Forall_lookup_1 _ _ _ _ (view_uniform _ _ _ _ _ _ Hv) Hj) as Lrow.
  pose proof (Forall_lookup_1 _ _ _ _ (view_uniform _ _ _ _ _ _ Hv) Hold) as Lold.
  simpl in Lrow, Lold. unfold TCP_LEDGER_RECORD_WORDS in Lrow, Lold.
  unfold copy_record. change TCP_LEDGER_RECORD_WORDS with 5%nat.
  assert (Hgo : forall n k words, (k + n = 5)%nat ->
    view words capacity count head high_water (<[i := take k row ++ drop k old]> l) ->
    exists words', option_fold (fun words word =>
        value ← words !! (slot j + word)%nat; write_word (slot i + word) value words)
        words (seq k n) = Some words'
      /\ view words' capacity count head high_water (<[i := row]> l)); last first.
  { apply (Hgo 5%nat 0%nat); [done|]. simpl. by rewrite list_insert_id. }
  clear words Hv. induction n as [|n IH]; intros k words Hk Hv; simpl.
  { exists words. split; [done|].
    by rewrite take_ge, drop_ge, app_nil_r in Hv by lia. }
  destruct (lookup_lt_is_Some_2 row k) as [v Ev]; [lia|].
  set (mid := take k row ++ drop k old) in *.
  assert (Hmid : <[i := mid]> l !! i = Some mid) by (apply list_lookup_insert_eq; lia).
  assert (Hread : words !! (slot j + k)%nat = Some v).
  { destruct (decide (i = j)) as [->|Hne].
    - rewrite (view_read _ _ _ _ _ _ _ Hs Hv j mid) by (done || lia).
      assert (old = row) as -> by congruence. unfold mid. by rewrite take_drop.
    - rewrite (view_read _ _ _ _ _ _ _ Hs Hv j row k); [done| |lia].
      by rewrite list_lookup_insert_ne. }
  rewrite Hread. simpl.
  destruct (view_write_word _ _ _ _ _ _ _ Hs Hv i mid k v) as (words1 & -> & Hv1); [done|lia|].
  simpl. rewrite list_insert_insert_eq in Hv1. unfold mid in Hv1.
  rewrite copied_step in Hv1 by (done || lia). apply (IH (S k)); [lia|exact Hv1].
Qed.

(** ** What the loops compute on the logical rows *)

Definition rec_size (row : list Z) : Z := default 0 (row !! 1%nat).
Definition rec_sequence (row : list Z) : Z := default 0 (row !! 2%nat).

(** The rows before the first whose sequence is not below [sequence]. *)
Fixpoint below (sequence : Z) (l : list (list Z)) : nat :=
  match l with
  | [] => O
  | row :: l => if rec_sequence row <? sequence then S (below sequence l) else O
  end.

(** The leading rows that end at or before [ack]. *)
Fixpoint acked (ack : Z) (l : list (list Z)) : nat :=
  match l with
  | [] => O
  | row :: l => if ack <? rec_sequence row +w rec_size row then O else S (acked ack l)
  end.

Lemma below_le sequence l : (below sequence l <= length l)%nat.
Proof. induction l; simpl; [done|]. case_match; lia. Qed.

Lemma acked_le ack l : (acked ack l <= length l)%nat.
Proof. induction l; simpl; [done|]. case_match; lia. Qed.

Section loops.
Context (slot : nat -> nat) (words : list Z) (capacity count head : nat) (high_water : Z).
Context (l : list (list Z)).
Hypothesis (Hslot : slots_of slot capacity head).
Hypothesis (Hview : view words capacity count head high_water l).

Lemma view_fields i row : l !! i = Some row ->
  words !! (slot i + 2)%nat = Some (rec_sequence row)
  /\ words !! (slot i + 1)%nat = Some (rec_size row).
Proof using Hslot Hview.
  intros Hi. pose proof (Forall_lookup_1 _ _ _ _ (view_uniform _ _ _ _ _ _ Hview) Hi) as Hl.
  simpl in Hl. unfold TCP_LEDGER_RECORD_WORDS in Hl.
  rewrite !(view_read _ _ _ _ _ _ _ Hslot Hview i row) by (done || lia).
  unfold rec_sequence, rec_size.
  destruct (lookup_lt_is_Some_2 row 2) as [? ->]; [lia|].
  destruct (lookup_lt_is_Some_2 row 1) as [? ->]; [lia|]. done.
Qed.

Lemma scan_below_eq sequence n k : (k + n <= length l)%nat ->
  scan_below slot words sequence k n = Some (k + below sequence (take n (drop k l)))%nat.
Proof using Hslot Hview.
  revert k. induction n as [|n IH]; intros k Hk; simpl; [by rewrite Nat.add_0_r|].
  destruct (lookup_lt_is_Some_2 l k) as [row Hrow]; [lia|].
  destruct (view_fields k row Hrow) as [-> _]. simpl.
  rewrite (drop_S _ _ _ Hrow). simpl. case_match; [|by rewrite Nat.add_0_r].
  rewrite IH by lia. f_equal. lia.
Qed.

Lemma scan_acknowledged_eq ack n k : (k + n <= length l)%nat ->
  scan_acknowledged slot words ack k n = Some (k + acked ack (take n (drop k l)))%nat.
Proof using Hslot Hview.
  revert k. induction n as [|n IH]; intros k Hk; simpl; [by rewrite Nat.add_0_r|].
  destruct (lookup_lt_is_Some_2 l k) as [row Hrow]; [lia|].
  destruct (view_fields k row Hrow) as [-> ->]. simpl.
  rewrite (drop_S _ _ _ Hrow). simpl. case_match; [by rewrite Nat.add_0_r|].
  rewrite IH by lia. f_equal. lia.
Qed.

Lemma shift_up_eq ins n : (ins + n < length l)%nat -> exists words' l',
  shift_up slot words ins (ins + n) = Some words'
  /\ view words' capacity count head high_water l'
  /\ forall i, l' !! i = if decide (ins < i <= ins + n)%nat then l !! (i - 1)%nat else l !! i.
Proof using Hslot Hview.
  unfold shift_up. replace (ins + n - ins)%nat with n by lia.
  revert words l Hview. induction n as [|n IH]; intros ws r Hv Hn.
  { exists ws, r. split_and!; [done..|]. intros i. by rewrite decide_False by lia. }
  rewrite seq_S, rev_app_distr. simpl.
  destruct (lookup_lt_is_Some_2 r (ins + n)) as [row Hrow]; [lia|].
  pose proof (view_length _ _ _ _ _ _ Hv) as Hlen.
  destruct (view_copy slot ws capacity count head high_water r (S (ins + n)) (ins + n) row)
    as (ws1 & Hc & Hv1); [done..|lia|done|].
  replace (ins + n - 0)%nat with (ins + n)%nat by lia. rewrite Hc. simpl.
  destruct (IH ws1 _ Hv1) as (ws2 & l2 & -> & Hv2 & H2); [by rewrite length_insert; lia|].
  exists ws2, l2. split_and!; [done..|]. intros i. rewrite H2.
  destruct (decide (i = S (ins + n))) as [->|Hne].
  - rewrite decide_False, decide_True by lia. rewrite list_lookup_insert_eq by lia.
    rewrite <- Hrow. f_equal. lia.
  - repeat case_decide; rewrite ?list_lookup_insert_ne by lia; (done || lia).
Qed.

Lemma compact_eq keep n : (keep + n <= length l)%nat -> exists words' l',
  option_fold (fun words index => copy_record (slot index) (slot (keep + index)%nat) words)
    words (seq 0 n) = Some words'
  /\ view words' capacity count head high_water l'
  /\ forall i, l' !! i = if decide (i < n)%nat then l !! (keep + i)%nat else l !! i.
Proof using Hslot Hview.
  intros Hn. assert (Hgo : forall m k ws r, (k + m = n)%nat ->
    view ws capacity count head high_water r ->
    (forall i, r !! i = if decide (i < k)%nat then l !! (keep + i)%nat else l !! i) ->
    exists words' l',
      option_fold (fun words index => copy_record (slot index) (slot (keep + index)%nat) words)
        ws (seq k m) = Some words'
      /\ view words' capacity count head high_water l'
      /\ forall i, l' !! i = if decide (i < n)%nat then l !! (keep + i)%nat else l !! i).
  2: { apply (Hgo n 0%nat words l); [done..|]. intros i. by rewrite decide_False by lia. }
  induction m as [|m IH]; intros k ws r Hk Hv Hr; simpl.
  { exists ws, r. split_and!; [done..|]. by replace n with k by lia. }
  pose proof (view_length _ _ _ _ _ _ Hview) as Hlen.
  destruct (lookup_lt_is_Some_2 l (keep + k)) as [row Hrow]; [lia|].
  destruct (view_copy slot ws capacity count head high_water r k (keep + k) row)
    as (ws1 & -> & Hv1); [done..|lia| |].
  { by rewrite Hr, decide_False by lia. }
  simpl. apply (IH (S k) ws1 (<[k := row]> r)); [lia|done|]. intros i.
  destruct (decide (i = k)) as [->|Hne].
  - rewrite decide_True by lia. rewrite Hrow. apply list_lookup_insert_eq.
    rewrite (view_length _ _ _ _ _ _ Hv). lia.
  - rewrite list_lookup_insert_ne, Hr by lia. repeat case_decide; (done || lia).
Qed.
End loops.

(** *** Metadata *)

Lemma view_set_count words capacity count head high_water l n :
  view words capacity count head high_water l ->
  exists words', write_word LEDGER_META_COUNT (Z.of_nat n) words = Some words'
    /\ view words' capacity n head high_water l.
Proof. intros [timer rows -> ? ? ? ?]. eexists. split; [reflexivity|]. by econstructor. Qed.

Lemma view_set_high_water words capacity count head high_water l v :
  view words capacity count head high_water l ->
  exists words', write_word LEDGER_META_HIGH_WATER v words = Some words'
    /\ view words' capacity count head v l.
Proof. intros [timer rows -> ? ? ? ?]. eexists. split; [reflexivity|]. by econstructor. Qed.

Lemma view_set_head words capacity count head high_water l head' :
  view words capacity count head high_water l -> (head' < Nat.max capacity 1)%nat ->
  exists words' l', write_word LEDGER_META_HEAD (Z.of_nat head') words = Some words'
    /\ view words' capacity count head' high_water l'
    /\ forall i, (i < Nat.max capacity 1)%nat ->
         l' !! i = l !! ((Nat.max capacity 1 + head' - head + i) mod Nat.max capacity 1)%nat.
Proof.
  intros [timer rows -> Hu Hn Hh ->] Hh'. eexists _, (rotate head' rows).
  split; [reflexivity|]. split; [by econstructor|]. intros i Hi.
  pose proof (Nat.mod_upper_bound (Nat.max capacity 1 + head' - head + i) (Nat.max capacity 1)).
  rewrite !lookup_rotate_r, !rotate_add_nat, Hn by lia. f_equal.
  rewrite Nat.Div0.add_mod_idemp_r.
  replace (head + (Nat.max capacity 1 + head' - head + i))%nat
    with (head' + i + 1 * Nat.max capacity 1)%nat by lia.
  by rewrite Nat.Div0.mod_add.
Qed.

(** The words hold the live rows. *)
Definition holds (words : list Z) (capacity head : nat) (high_water : Z)
    (live : list (list Z)) : Prop :=
  (length live <= capacity)%nat /\
  exists l, view words capacity (length live) head high_water l /\ take (length live) l = live.

Definition ascending (live : list (list Z)) : Prop :=
  StronglySorted (fun a b => rec_sequence a < rec_sequence b) live.

Lemma below_ascending sequence live i row : ascending live -> live !! i = Some row ->
  rec_sequence row < sequence <-> (i < below sequence live)%nat.
Proof.
  intros Hs. revert i. induction Hs as [|a live Hs IH Ha]; intros i Hi; [done|].
  simpl. destruct (Z.ltb_spec (rec_sequence a) sequence) as [Hlt|Hge].
  - destruct i as [|i]; simpl in Hi; [injection Hi as ->; lia|].
    rewrite (IH i Hi). lia.
  - split; [|lia]. intros Hr. destruct i as [|i]; simpl in Hi; [injection Hi as ->; lia|].
    pose proof (Forall_lookup_1 _ _ _ _ Ha Hi) as H. simpl in H. lia.
Qed.

Lemma lower_bound_eq slot words capacity head high_water live sequence :
  slots_of slot capacity head -> holds words capacity head high_water live -> ascending live ->
  lower_bound slot words (length live) sequence = Some (below sequence live).
Proof.
  intros Hs (Hcap & l & Hv & Hlive) Hasc. pose proof (view_length _ _ _ _ _ _ Hv) as Hlen.
  pose proof (below_le sequence live) as Hb. unfold lower_bound.
  assert (Hgo : forall fuel low high, (low <= below sequence live <= high)%nat ->
    (high <= length live)%nat -> (high - low <= fuel)%nat ->
    lower_bound_loop fuel slot words sequence low high = Some (below sequence live)).
  2: { apply Hgo; lia. }
  induction fuel as [|fuel IH]; intros low high Hin Hhigh Hf; cbn [lower_bound_loop].
  { rewrite (proj2 (Nat.ltb_ge _ _)) by lia. f_equal. lia. }
  destruct (Nat.ltb_spec low high) as [Hlt|Hge]; [|f_equal; lia].
  pose proof (Nat.div_lt (high - low) 2). set (mid := (low + (high - low) / 2)%nat) in *.
  destruct (lookup_lt_is_Some_2 live mid) as [row Hrow]; [unfold mid; lia|].
  assert (Hl : l !! mid = Some row).
  { rewrite <- Hlive in Hrow. rewrite lookup_take_lt in Hrow; [done|].
    apply lookup_lt_Some in Hrow. rewrite length_take in Hrow. lia. }
  destruct (view_fields _ _ _ _ _ _ _ Hs Hv mid row Hl) as [-> _]. simpl.
  pose proof (below_ascending sequence live mid row Hasc Hrow) as Hm.
  destruct (Z.ltb_spec (rec_sequence row) sequence); apply IH; unfold mid in *; lia.
Qed.

(** ** The ledger of one flow as a list of records *)

Definition resident (sequence : Z) (live : list (list Z)) : option (list Z) :=
  row ← live !! below sequence live;
  if rec_sequence row =? sequence then Some row else None.

Definition rows_insert_record (capacity : nat) (size sequence : Z) (record : list Z)
    (live : list (list Z)) : LedgerOutcome * list (list Z) :=
  let i := below sequence live in
  match resident sequence live with
  | Some row =>
      if negb (rec_size row =? size) then (SizeConflict, live)
      else (Applied, <[i := record]> live)
  | None =>
      if (capacity <=? length live)%nat then (CapacityExceeded capacity (S (length live)), live)
      else (Applied, take i live ++ record :: drop i live)
  end.

Lemma holds_lookup words capacity head high_water live l i row :
  view words capacity (length live) head high_water l -> take (length live) l = live ->
  live !! i = Some row -> l !! i = Some row.
Proof.
  intros Hv Hl Hi. rewrite <- Hl in Hi. rewrite lookup_take_lt in Hi; [done|].
  apply lookup_lt_Some in Hi. rewrite length_take in Hi. lia.
Qed.

Section insertion.
Context (slot : nat -> nat) (words : list Z) (capacity head : nat) (high_water : Z).
Context (live : list (list Z)) (size sequence : Z) (record : list Z).
Hypothesis (Hslot : slots_of slot capacity head).
Hypothesis (Hholds : holds words capacity head high_water live).
Hypothesis (Hrecord : length record = 5%nat).

Lemma found_eq :
  (if (below sequence live <? length live)%nat
   then value ← words !! (slot (below sequence live) + 2)%nat; Some (value =? sequence)
   else Some false)
  = Some (match resident sequence live with Some _ => true | None => false end).
Proof using Hslot Hholds.
  destruct Hholds as (Hcap & l & Hv & Hl). unfold resident.
  destruct (live !! below sequence live) as [row|] eqn:E; simpl.
  - rewrite (proj2 (Nat.ltb_lt _ _)) by by eapply lookup_lt_Some.
    destruct (view_fields _ _ _ _ _ _ _ Hslot Hv _ row (holds_lookup _ _ _ _ _ _ _ _ Hv Hl E))
      as [-> _]. simpl. by destruct (rec_sequence row =? sequence).
  - apply lookup_ge_None in E. by rewrite (proj2 (Nat.ltb_ge _ _)).
Qed.

Lemma replace_eq row : resident sequence live = Some row -> exists words',
  (resident ← words !! (slot (below sequence live) + 1)%nat;
   if negb (resident =? size) then Some (SizeConflict, words)
   else words ← write_record (slot (below sequence live)) record words; Some (Applied, words))
  = Some ((rows_insert_record capacity size sequence record live).1, words')
  /\ holds words' capacity head high_water
       (rows_insert_record capacity size sequence record live).2.
Proof using Hslot Hholds Hrecord.
  intros Hres. unfold rows_insert_record. rewrite Hres. unfold resident in Hres.
  destruct (live !! below sequence live) as [r|] eqn:E; [|done]. simpl in Hres.
  destruct (rec_sequence r =? sequence); [|done]. injection Hres as ->. pose proof Hholds as (Hcap & l & Hv & Hl).
  pose proof (holds_lookup _ _ _ _ _ _ _ _ Hv Hl E) as El.
  destruct (view_fields _ _ _ _ _ _ _ Hslot Hv _ row El) as [_ ->]. simpl.
  destruct (negb (rec_size row =? size)); [by exists words|].
  pose proof (lookup_lt_Some _ _ _ El) as Hlt. rewrite (view_length _ _ _ _ _ _ Hv) in Hlt.
  destruct (view_write_record _ _ _ _ _ _ _ Hslot Hv (below sequence live) record)
    as (words' & -> & Hv'); [done..|].
  exists words'. simpl. split; [done|]. split; [by rewrite length_insert|].
  eexists. rewrite length_insert. split; [exact Hv'|]. rewrite take_insert.
  rewrite decide_True by by eapply lookup_lt_Some. by rewrite Hl.
Qed.

(** The new record in a gap the shift opened. *)
Lemma opened_eq l l' i : (i <= length live)%nat -> (length live < length l)%nat ->
  length l' = length l -> take (length live) l = live ->
  (forall k, (k < i)%nat -> l' !! k = l !! k) ->
  (forall k, (i < k <= length live)%nat -> l' !! k = l !! (k - 1)%nat) ->
  take (S (length live)) (<[i := record]> l') = take i live ++ record :: drop i live.
Proof using.
  clear Hslot Hholds Hrecord. intros Hi Hlt Hlen Hl Hlo Hhi. apply list_eq. intros k.
  assert (Hlive : forall j, (j < length live)%nat -> l !! j = live !! j).
  { intros j Hj. rewrite <- (lookup_take_lt l (length live) j) by done. by rewrite Hl. }
  destruct (decide (k < S (length live))%nat) as [Hs|Hs].
  - rewrite lookup_take_lt by done. destruct (decide (k < i)%nat) as [?|?].
    + rewrite list_lookup_insert_ne, Hlo, lookup_app_l by (rewrite ?length_take; lia). rewrite lookup_take_lt by lia. apply Hlive. lia.
    + rewrite lookup_app_r by (rewrite length_take; lia). rewrite length_take, Nat.min_l by lia.
      destruct (decide (k = i)) as [->|?].
      * rewrite list_lookup_insert_eq, Nat.sub_diag by lia. done.
      * rewrite list_lookup_insert_ne, Hhi by lia. rewrite Hlive by lia.
        destruct (k - i)%nat as [|m] eqn:Em; [lia|]. simpl. rewrite lookup_drop.
        f_equal. lia.
  - rewrite lookup_take_ge by lia. symmetry. apply lookup_ge_None_2.
    rewrite length_app. simpl. rewrite length_take, length_drop. lia.
Qed.

Lemma inserted_length i : (i <= length live)%nat ->
  length (take i live ++ record :: drop i live) = S (length live).
Proof using. clear Hslot Hholds Hrecord. intros Hi. rewrite length_app. simpl. rewrite length_take, length_drop. lia. Qed.

(** The shift and the write of an insertion inside the live rows. *)
Lemma shifted_insert i : (i <= length live)%nat -> (length live < capacity)%nat ->
  exists words1 words2,
    shift_up slot words i (length live) = Some words1
    /\ write_record (slot i) record words1 = Some words2
    /\ exists l, view words2 capacity (length live) head high_water l
         /\ take (S (length live)) l = take i live ++ record :: drop i live.
Proof using Hslot Hholds Hrecord.
  intros Hi Hcap. destruct Hholds as (_ & l & Hv & Hl).
  pose proof (view_length _ _ _ _ _ _ Hv) as Hlen.
  destruct (shift_up_eq _ _ _ _ _ _ _ Hslot Hv i (length live - i)) as (w1 & l1 & Hs & Hv1 & H1);
    [lia|].
  replace (i + (length live - i))%nat with (length live) in * by lia.
  destruct (view_write_record _ _ _ _ _ _ _ Hslot Hv1 i record) as (w2 & Hw & Hv2); [lia|done|].
  exists w1, w2. split_and!; [done..|]. eexists. split; [exact Hv2|].
  apply (opened_eq l); try done; [lia|by rewrite (view_length _ _ _ _ _ _ Hv1)| |];
    intros k Hk; rewrite H1; [rewrite decide_False|rewrite decide_True]; (done || lia).
Qed.
End insertion.

Lemma array_insert_ok words capacity high_water live size sequence record :
  holds words capacity 0 high_water live -> length record = 5%nat ->
  exists words',
    array_insert 6 capacity (length live) size sequence record words
    = Some ((rows_insert_record capacity size sequence record live).1, words')
    /\ holds words' capacity 0 high_water
         (rows_insert_record capacity size sequence record live).2.
Proof.
  intros Hh Hr. pose proof (array_slots capacity) as Hs. unfold array_insert.
  pose proof Hh as (Hcap & l & Hv & Hl). pose proof (view_length _ _ _ _ _ _ Hv) as Hlen.
  rewrite (scan_below_eq _ _ _ _ _ _ _ Hs Hv) by (simpl; lia). cbn [mbind option_bind].
  rewrite drop_0, Hl, Nat.add_0_l, (found_eq _ _ _ _ _ _ _ Hs Hh). cbn [mbind option_bind].
  destruct (resident sequence live) as [row|] eqn:E.
  { by apply (replace_eq _ _ _ _ _ _ _ _ _ Hs Hh Hr row). }
  unfold rows_insert_record. rewrite E.
  destruct (Nat.leb_spec capacity (length live)) as [?|Hlt]; [by exists words|].
  pose proof (below_le sequence live) as Hb.
  destruct (shifted_insert _ _ _ _ _ _ _ Hs Hh Hr _ Hb Hlt) as (w1 & w2 & -> & Hw & l2 & Hv2 & H2).
  cbn [mbind option_bind]. rewrite Hw. cbn [mbind option_bind].
  destruct (view_set_count _ _ _ _ _ _ (S (length live)) Hv2) as (w3 & -> & Hv3).
  exists w3. split; [done|]. simpl. split; rewrite inserted_length by done; [lia|].
  by exists l2.
Qed.

(** Where the ring puts a new record, and the rows it then holds. *)
Lemma ring_place_ok words capacity head high_water live i record :
  holds words capacity head high_water live -> length record = 5%nat ->
  (i <= length live)%nat -> (length live < capacity)%nat ->
  exists place words1 words2 head' l,
    ring_place 6 capacity head (length live) i words = Some (place, words1)
    /\ write_record place record words1 = Some words2
    /\ view words2 capacity (length live) head' high_water l
    /\ take (S (length live)) l = take i live ++ record :: drop i live.
Proof.
  intros Hh Hr Hi Hcap. pose proof (ring_slots capacity head) as Hs. unfold ring_place.
  pose proof Hh as (_ & l & Hv & Hl). pose proof (view_length _ _ _ _ _ _ Hv) as Hlen.
  destruct (Nat.eqb_spec i (length live)) as [->|Hne].
  { destruct (view_write_record _ _ _ _ _ _ _ Hs Hv (length live) record)
      as (w & Hw & Hv'); [lia|done|].
    eexists _, words, w, head, _. split_and!; [done|exact Hw|exact Hv'|].
    apply (opened_eq live record l l); try done; lia. }
  destruct (Nat.eqb_spec i 0) as [->|Hne0].
  - set (head' := ((if (head =? 0)%nat then capacity else head) - 1)%nat).
    assert (Hhead : (head < Nat.max capacity 1)%nat) by by destruct Hv.
    assert (Hh' : (head' < Nat.max capacity 1)%nat).
    { unfold head'. destruct (Nat.eqb_spec head 0); lia. }
    destruct (view_set_head _ _ _ _ _ _ head' Hv Hh') as (w1 & l1 & -> & Hv1 & H1).
    pose proof (view_length _ _ _ _ _ _ Hv1) as Hlen1.
    destruct (view_write_record _ _ _ _ _ _ _ (ring_slots capacity head') Hv1 0%nat record)
      as (w2 & Hw2 & Hv2); [lia|done|].
    eexists _, w1, w2, head', _. split_and!; [done| |exact Hv2|].
    { rewrite <- Hw2. f_equal. unfold ledger_record_slot.
      by rewrite Nat.add_0_r, Nat.mod_small by done. }
    apply (opened_eq live record l); try done; [lia..|]. intros k Hk. rewrite H1 by lia. f_equal.
    replace (Nat.max capacity 1 + head' - head + k)%nat
      with (k - 1 + (if (head =? 0)%nat then 2 else 1) * Nat.max capacity 1)%nat.
    { rewrite Nat.Div0.mod_add. apply Nat.mod_small. lia. }
    unfold head'. destruct (Nat.eqb_spec head 0); lia.
  - destruct (shifted_insert _ _ _ _ _ _ _ Hs Hh Hr i Hi Hcap)
      as (w1 & w2 & -> & Hw & l2 & Hv2 & H2).
    cbn [mbind option_bind]. by eexists _, w1, w2, head, l2.
Qed.

Lemma ring_insert_ok words capacity head high_water live size sequence record :
  holds words capacity head high_water live -> ascending live -> length record = 5%nat ->
  Z.of_nat (length live) <= high_water ->
  exists words' head',
    ring_insert 6 capacity head (length live) size sequence record words
    = Some ((rows_insert_record capacity size sequence record live).1, words')
    /\ holds words' capacity head'
         (Z.max high_water
            (Z.of_nat (length (rows_insert_record capacity size sequence record live).2)))
         (rows_insert_record capacity size sequence record live).2.
Proof.
  intros Hh Hasc Hr Hw. pose proof (ring_slots capacity head) as Hs. unfold ring_insert.
  rewrite (lower_bound_eq _ _ _ _ _ _ _ Hs Hh Hasc). cbn [mbind option_bind].
  rewrite (found_eq _ _ _ _ _ _ _ Hs Hh). cbn [mbind option_bind].
  destruct (resident sequence live) as [row|] eqn:E.
  { destruct (replace_eq _ _ _ _ _ _ size _ _ Hs Hh Hr row E) as (w & -> & Hh').
    exists w, head. split; [done|].
    assert (Hlen : length (rows_insert_record capacity size sequence record live).2
                   = length live).
    { unfold rows_insert_record. rewrite E. case_match; simpl; by rewrite ?length_insert. }
    by rewrite Hlen, Z.max_l by done. }
  unfold rows_insert_record. rewrite E.
  destruct (Nat.leb_spec capacity (length live)) as [?|Hlt].
  { exists words, head. simpl. by rewrite Z.max_l by done. }
  pose proof (below_le sequence live) as Hb.
  destruct (ring_place_ok _ _ _ _ _ _ _ Hh Hr Hb Hlt)
    as (place & w1 & w2 & head' & l & -> & Hw2 & Hv & Hl).
  cbn [mbind option_bind]. rewrite Hw2. cbn [mbind option_bind fst snd].
  destruct (view_set_count _ _ _ _ _ _ (S (length live)) Hv) as (w3 & -> & Hv3).
  cbn [mbind option_bind].
  assert (w3 !! LEDGER_META_HIGH_WATER = Some high_water) as ->.
  { by destruct Hv3 as [timer rows -> _ _ _ _]. }
  cbn [mbind option_bind].
  destruct (Z.ltb_spec high_water (Z.of_nat (S (length live)))) as [Hg|Hg].
  - destruct (view_set_high_water _ _ _ _ _ _ (Z.of_nat (S (length live))) Hv3)
      as (w4 & -> & Hv4).
    exists w4, head'. split; [done|]. simpl. rewrite inserted_length, Z.max_r by (done || lia).
    split; rewrite inserted_length by done; [lia|]. by exists l.
  - exists w3, head'. split; [done|]. simpl. rewrite inserted_length, Z.max_l by (done || lia).
    split; rewrite inserted_length by done; [lia|]. by exists l.
Qed.

Definition rows_acknowledge (ack : Z) (live : list (list Z)) : list (list Z) :=
  match drop (acked ack live) live with
  | [] => []
  | row :: rest =>
      if rec_sequence row <? ack then
        let acknowledged := ack -w rec_sequence row in
        if acknowledged <? rec_size row
        then <[2%nat := ack]> (<[1%nat := rec_size row -w acknowledged]> row) :: rest
        else rest
      else row :: rest
  end.

Lemma trim_first_ok slot words capacity head high_water live ack :
  slots_of slot capacity head -> holds words capacity head high_water live ->
  exists words' keep l,
    trim_first slot words ack (acked ack live) (length live) = Some (words', keep)
    /\ view words' capacity (length live) head high_water l
    /\ (keep <= length live)%nat
    /\ drop keep (take (length live) l) = rows_acknowledge ack live.
Proof.
  intros Hs (Hcap & l & Hv & Hl). unfold trim_first, rows_acknowledge.
  destruct (live !! acked ack live) as [row|] eqn:E; last first.
  { apply lookup_ge_None in E. rewrite (proj2 (Nat.ltb_ge _ _)), drop_ge by done.
    exists words, (acked ack live), l. split_and!; [done..|apply acked_le|].
    by rewrite Hl, drop_ge. }
  pose proof (lookup_lt_Some _ _ _ E) as Hlt. rewrite (proj2 (Nat.ltb_lt _ _)) by done.
  rewrite (drop_S _ _ _ E). pose proof (holds_lookup _ _ _ _ _ _ _ _ Hv Hl E) as El.
  destruct (view_fields _ _ _ _ _ _ _ Hs Hv _ _ El) as [-> Hsize]. cbn [mbind option_bind].
  destruct (rec_sequence row <? ack); last first.
  { exists words, (acked ack live), l. split_and!; [done..|lia|].
    by rewrite Hl, (drop_S _ _ _ E). }
  rewrite Hsize. cbn [mbind option_bind].
  destruct (ack -w rec_sequence row <? rec_size row); last first.
  { exists words, (S (acked ack live)), l. split_and!; [done..|lia|]. by rewrite Hl. }
  destruct (view_write_word _ _ _ _ _ _ _ Hs Hv _ _ 1
    (rec_size row -w (ack -w rec_sequence row)) El) as (w1 & -> & Hv1); [lia|].
  cbn [mbind option_bind].
  assert (El1 : <[acked ack live := <[1%nat := rec_size row -w (ack -w rec_sequence row)]> row]> l
                !! acked ack live = Some (<[1%nat := rec_size row -w (ack -w rec_sequence row)]> row)).
  { apply list_lookup_insert_eq. by eapply lookup_lt_Some. }
  destruct (view_write_word _ _ _ _ _ _ _ Hs Hv1 _ _ 2 ack El1) as (w2 & -> & Hv2); [lia|].
  cbn [mbind option_bind]. rewrite list_insert_insert_eq in Hv2.
  eexists w2, (acked ack live), _. split_and!; [done|exact Hv2|lia|].
  rewrite take_insert, decide_True, Hl by done.
  erewrite drop_S by (by apply list_lookup_insert_eq). by rewrite drop_insert, decide_False by lia.
Qed.

Lemma rows_acknowledge_length ack live : (length (rows_acknowledge ack live) <= length live)%nat.
Proof.
  unfold rows_acknowledge. pose proof (length_drop live (acked ack live)) as H.
  destruct (drop _ live) as [|row rest]; simpl in *; [lia|]. repeat case_match; simpl; lia.
Qed.

(** The rows kept, where the algorithm leaves them. *)
Lemma kept_rows words capacity head high_water (l live : list (list Z)) n :
  view words capacity n head high_water l -> take n l = live -> length live = n ->
  (n <= capacity)%nat -> holds words capacity head high_water live.
Proof. intros Hv Hl <- Hn. split; [done|]. by exists l. Qed.

Lemma array_acknowledge_ok words capacity high_water live ack :
  holds words capacity 0 high_water live ->
  exists words', array_acknowledge 6 (length live) ack words = Some (Applied, words')
    /\ holds words' capacity 0 high_water (rows_acknowledge ack live).
Proof.
  intros Hh. pose proof (array_slots capacity) as Hs. unfold array_acknowledge.
  pose proof Hh as (Hcap & l & Hv & Hl). pose proof (view_length _ _ _ _ _ _ Hv) as Hlen.
  rewrite (scan_acknowledged_eq _ _ _ _ _ _ _ Hs Hv) by (simpl; lia). cbn [mbind option_bind].
  rewrite drop_0, Hl, Nat.add_0_l.
  destruct (trim_first_ok _ _ _ _ _ _ ack Hs Hh) as (w1 & keep & l1 & -> & Hv1 & Hk & H1).
  cbn [mbind option_bind]. pose proof (view_length _ _ _ _ _ _ Hv1) as Hlen1.
  destruct (compact_eq _ _ _ _ _ _ _ Hs Hv1 keep (length live - keep)) as (w2 & l2 & -> & Hv2 & H2);
    [lia|].
  cbn [mbind option_bind].
  destruct (view_set_count _ _ _ _ _ _ (length live - keep) Hv2) as (w3 & -> & Hv3).
  exists w3. split; [done|].
  assert (Hlen2 : length (rows_acknowledge ack live) = (length live - keep)%nat).
  { rewrite <- H1, length_drop, length_take. lia. }
  eapply kept_rows; [exact Hv3| |done|lia]. rewrite <- H1. apply list_eq. intros i.
  rewrite lookup_drop. destruct (decide (i < length live - keep)%nat) as [Hi|Hi].
  - rewrite !lookup_take_lt by lia. by rewrite H2, decide_True by done.
  - by rewrite !lookup_take_ge by lia.
Qed.

Lemma ring_acknowledge_ok words capacity head high_water live ack :
  holds words capacity head high_water live ->
  exists words' head',
    ring_acknowledge 6 capacity head (length live) ack words = Some (Applied, words')
    /\ holds words' capacity head' high_water (rows_acknowledge ack live).
Proof.
  intros Hh. pose proof (ring_slots capacity head) as Hs. unfold ring_acknowledge.
  pose proof Hh as (Hcap & l & Hv & Hl). pose proof (view_length _ _ _ _ _ _ Hv) as Hlen.
  rewrite (scan_acknowledged_eq _ _ _ _ _ _ _ Hs Hv) by (simpl; lia). cbn [mbind option_bind].
  rewrite drop_0, Hl, Nat.add_0_l.
  destruct (trim_first_ok _ _ _ _ _ _ ack Hs Hh) as (w1 & keep & l1 & -> & Hv1 & Hk & H1).
  cbn [mbind option_bind]. set (span := Nat.max capacity 1).
  assert (Hhead : (head < span)%nat) by by destruct Hv1.
  pose proof (Nat.mod_upper_bound (head + keep) span) as Hm.
  destruct (view_set_head _ _ _ _ _ _ ((head + keep) mod span)%nat Hv1)
    as (w2 & l2 & -> & Hv2 & H2); [unfold span in *; lia|].
  cbn [mbind option_bind].
  destruct (view_set_count _ _ _ _ _ _ (length live - keep) Hv2) as (w3 & -> & Hv3).
  exists w3, ((head + keep) mod span)%nat. split; [done|].
  assert (Hlen2 : length (rows_acknowledge ack live) = (length live - keep)%nat).
  { rewrite <- H1, length_drop, length_take, (view_length _ _ _ _ _ _ Hv1). unfold span in *. lia. }
  eapply kept_rows; [exact Hv3| |done|lia]. rewrite <- H1. apply list_eq. intros i.
  rewrite lookup_drop. destruct (decide (i < length live - keep)%nat) as [Hi|Hi].
  - rewrite !lookup_take_lt by lia. rewrite H2 by (unfold span in *; lia). f_equal. fold span.
    replace (span + (head + keep) mod span - head + i)%nat
      with (keep + i + (1 - (head + keep) / span) * span)%nat.
    { rewrite Nat.Div0.mod_add. apply Nat.mod_small. unfold span in *. lia. }
    pose proof (Nat.div_mod_eq (head + keep) span) as Hd.
    assert ((head + keep) / span < 2)%nat.
    { apply Nat.Div0.div_lt_upper_bound; unfold span in *; lia. }
    assert ((head + keep) / span = 0 \/ (head + keep) / span = 1)%nat as [E|E] by lia;
      rewrite E in *; lia.
  - by rewrite !lookup_take_ge by lia.
Qed.

(** ** One operation on a plane *)

Definition rows_apply (capacity : nat) (op : LedgerOp) (live : list (list Z))
  : LedgerOutcome * list (list Z) :=
  match op with
  | Insert id size sequence sent_ns retransmission =>
      rows_insert_record capacity size sequence
        (record_words id size sequence sent_ns retransmission) live
  | Acknowledge ack => (Applied, rows_acknowledge ack live)
  end.

(** What the metadata of a plane says. *)
Lemma holds_meta words capacity head high_water live :
  holds words capacity head high_water live ->
  let plane := mkPlane words in
  plane_meta plane LEDGER_META_OFFSET = Some 6%nat
  /\ plane_meta plane LEDGER_META_CAPACITY = Some capacity
  /\ plane_meta plane LEDGER_META_COUNT = Some (length live)
  /\ plane_meta plane LEDGER_META_HEAD = Some head
  /\ plane_meta plane LEDGER_META_HIGH_WATER = Some (Z.to_nat high_water).
Proof.
  intros (_ & l & [timer rows -> _ _ _ _] & _). unfold plane_meta, layout. cbn.
  by rewrite !Nat2Z.id.
Qed.

Lemma apply_array_ok words capacity high_water live op :
  holds words capacity 0 high_water live ->
  exists words', apply_array (mkPlane words) op
    = Some ((rows_apply capacity op live).1, mkPlane words')
    /\ holds words' capacity 0 high_water (rows_apply capacity op live).2.
Proof.
  intros Hh. destruct (holds_meta _ _ _ _ _ Hh) as (Ho & Hc & Hn & _). unfold apply_array.
  rewrite Ho, Hc, Hn. cbn [mbind option_bind lp_words].
  destruct op as [id size sequence sent r|ack]; simpl rows_apply.
  - destruct (array_insert_ok _ _ _ _ size sequence (record_words id size sequence sent r) Hh)
      as (w & -> & Hw); [done|]. by exists w.
  - destruct (array_acknowledge_ok _ _ _ _ ack Hh) as (w & -> & Hw). by exists w.
Qed.

Lemma apply_ring_ok words capacity head high_water live op :
  holds words capacity head high_water live -> ascending live ->
  Z.of_nat (length live) <= high_water ->
  exists words' head', apply_ring (mkPlane words) op
    = Some ((rows_apply capacity op live).1, mkPlane words')
    /\ holds words' capacity head'
         (Z.max high_water (Z.of_nat (length (rows_apply capacity op live).2)))
         (rows_apply capacity op live).2.
Proof.
  intros Hh Ha Hw. destruct (holds_meta _ _ _ _ _ Hh) as (Ho & Hc & Hn & Hhd & _).
  unfold apply_ring. rewrite Ho, Hc, Hn, Hhd. cbn [mbind option_bind lp_words].
  destruct op as [id size sequence sent r|ack]; simpl rows_apply.
  - destruct (ring_insert_ok _ _ _ _ _ size sequence (record_words id size sequence sent r) Hh)
      as (w & head' & -> & Hw'); [done..|]. by exists w, head'.
  - destruct (ring_acknowledge_ok _ _ _ _ _ ack Hh) as (w & head' & -> & Hw').
    pose proof (rows_acknowledge_length ack live). exists w, head'. split; [done|].
    simpl. by rewrite Z.max_l by lia.
Qed.

(** The decode of a record, word by word. *)
Definition record_bytes (row : list Z) : list Z := mjoin (to_le_bytes <$> row).

Lemma read_record_bytes slot words capacity count head high_water l i row bytes :
  slots_of slot capacity head -> view words capacity count head high_water l ->
  l !! i = Some row ->
  option_fold (fun bytes word =>
      value ← words !! (slot i + word)%nat; Some (bytes ++ to_le_bytes value))
    bytes (seq 0 TCP_LEDGER_RECORD_WORDS) = Some (bytes ++ record_bytes row).
Proof.
  intros Hs Hv Hi. pose proof (Forall_lookup_1 _ _ _ _ (view_uniform _ _ _ _ _ _ Hv) Hi) as Hl.
  simpl in Hl. unfold TCP_LEDGER_RECORD_WORDS in *.
  assert (Hr : forall w, (w < 5)%nat -> words !! (slot i + w)%nat = row !! w).
  { intros w Hw. by apply (view_read _ _ _ _ _ _ _ Hs Hv). }
  destruct row as [|a [|b [|c [|d [|e [|]]]]]]; try done.
  cbn [seq option_fold]. rewrite !Hr by lia. cbn [lookup list_lookup mbind option_bind].
  rewrite <- !app_assoc. unfold record_bytes. simpl. by rewrite ?app_nil_r.
Qed.

Lemma canonical_bytes_ok words capacity head high_water live ring :
  holds words capacity head high_water live -> (ring = false -> head = 0%nat) ->
  canonical_bytes (mkPlane words) ring = Some (mjoin (record_bytes <$> live)).
Proof.
  intros Hh Hring. destruct (holds_meta _ _ _ _ _ Hh) as (Ho & Hc & Hn & Hhd & _).
  destruct Hh as (Hcap & l & Hv & Hl). unfold canonical_bytes. rewrite Ho, Hc, Hn.
  cbn [mbind option_bind lp_words].
  set (slot := fun logical => if ring then ledger_record_slot 6 capacity head logical
                              else (6 + logical * TCP_LEDGER_RECORD_WORDS)%nat).
  assert (Hs : slots_of slot capacity head).
  { unfold slot. destruct ring; [done|]. rewrite (Hring eq_refl). apply array_slots. }
  assert ((if ring then plane_meta (mkPlane words) LEDGER_META_HEAD else Some 0%nat)
          = Some head) as ->.
  { destruct ring; [done|]. by rewrite Hring. }
  cbn [mbind option_bind].
  assert (Hgo : forall n k bytes, (k + n = length live)%nat ->
    option_fold (fun bytes logical =>
      option_fold (fun bytes word =>
        value ← words !! (slot logical + word)%nat; Some (bytes ++ to_le_bytes value))
        bytes (seq 0 TCP_LEDGER_RECORD_WORDS)) bytes (seq k n)
    = Some (bytes ++ mjoin (record_bytes <$> drop k live))).
  2: { apply (Hgo (length live) 0%nat []). done. }
  induction n as [|n IH]; intros k bytes Hk; cbn [seq option_fold].
  { by rewrite drop_ge, app_nil_r by lia. }
  destruct (lookup_lt_is_Some_2 live k) as [row Hrow]; [lia|].
  rewrite (read_record_bytes _ _ _ _ _ _ _ k row) by
    (done || by eapply (holds_lookup _ _ _ _ _ _ _ _ Hv Hl Hrow)).
  cbn [mbind option_bind]. rewrite IH by lia. rewrite (drop_S _ _ _ Hrow). simpl.
  by rewrite <- app_assoc.
Qed.

Lemma replicate_rows n : mjoin (replicate n (replicate 5 0)) = replicate (n * 5) 0.
Proof.
  induction n as [|n IH]; [done|].
  change (replicate 5 0 ++ mjoin (replicate n (replicate 5 0)) = replicate (S n * 5) 0).
  by rewrite IH, <- replicate_add.
Qed.

Lemma plane_seed_ok capacity records :
  uniform records -> (length records <= capacity)%nat ->
  exists words, plane_seed capacity records = Some (mkPlane words)
    /\ holds words capacity 0 (Z.of_nat (length records)) records.
Proof.
  intros Hu Hcap. unfold plane_seed. set (words0 := <[_ := _]> _).
  assert (Hv0 : view words0 capacity (length records) 0 (Z.of_nat (length records))
                  (replicate (Nat.max capacity 1) (replicate 5 0))).
  { apply (view_intro _ _ _ _ _ _ 0 (replicate (Nat.max capacity 1) (replicate 5 0))).
    - unfold words0, layout. by rewrite replicate_rows.
    - by apply Forall_replicate.
    - by rewrite length_replicate.
    - lia.
    - by rewrite rotate_replicate. }
  assert (Hgo : forall todo filled words l, records = filled ++ todo ->
    view words capacity (length records) 0 (Z.of_nat (length records)) l ->
    take (length filled) l = filled ->
    exists words' l', option_fold (fun words indexed =>
        write_record (TCP_LEDGER_META_WORDS + indexed.1 * TCP_LEDGER_RECORD_WORDS)%nat indexed.2
          words) words (imap (fun i r => ((length filled + i)%nat, r)) todo) = Some words'
      /\ view words' capacity (length records) 0 (Z.of_nat (length records)) l'
      /\ take (length records) l' = records).
  { induction todo as [|r todo IH]; intros filled words l He Hv Hl.
    { exists words, l. rewrite app_nil_r in He. by subst. }
    assert (Hlen : (length filled < length records)%nat) by (rewrite He, length_app; simpl; lia).
    destruct (view_write_record _ _ _ _ _ _ _ (array_slots capacity) Hv (length filled) r)
      as (w & Hw & Hv'); [lia| |].
    { apply (proj1 (Forall_forall _ _) Hu). rewrite He. set_solver. }
    cbn [imap option_fold]. unfold array_slot in Hw. rewrite Nat.add_0_r. cbn [fst snd].
    change TCP_LEDGER_META_WORDS with 6%nat. rewrite Hw. cbn [mbind option_bind].
    destruct (IH (filled ++ [r]) w (<[length filled := r]> l)) as (w' & l' & Hf & Hv'' & Hl'); [| exact Hv'| |].
    - by rewrite <- app_assoc.
    - rewrite length_app. simpl. rewrite Nat.add_1_r. rewrite <- Hl at 3.
      rewrite (take_S_r _ _ r).
      + by rewrite take_insert, decide_False by lia.
      + apply list_lookup_insert_eq. rewrite (view_length _ _ _ _ _ _ Hv). lia.
    - exists w', l'. split; [|done]. rewrite <- Hf. f_equal. apply imap_ext.
      intros i x _. rewrite length_app. simpl. f_equal. lia. }
  destruct (Hgo records [] words0 _ eq_refl Hv0) as (w & l & Hf & Hv & Hl); [done|].
  exists w. split; [|split; [done|by exists l]].
  replace (imap pair records) with (imap (fun i r => ((length (@nil (list Z)) + i)%nat, r)) records)
    by (by apply imap_ext).
  by rewrite Hf.
Qed.
