(* ===== verification/Compaction.v ===== *)
(** * Device readback compaction (executor/src/device_compaction.rs)

    After a device run only the live records of each arena are read back. A plan
    lists the live region of every entity, linear or a ring, and where its records
    go in one dense buffer; the gather kernel follows it. The plan is modelled with
    its refusals, and the host mirror of the gather with its panics. *)

From S2P Require Import Prelude Words TcpRing.

Inductive CompactionShape := Linear | Ring.

#[export] Instance CompactionShape_eq_dec : EqDecision CompactionShape.
Proof. solve_decision. Defined.

Record CompactionEntity := mkEntity {
  ce_source_words : Z;
  ce_capacity : Z;
  ce_head : Z;
  ce_count : Z;
}.

(** The source words of an entity's live records, in decode order. *)
Definition live_record_slots (entity : CompactionEntity) (shape : CompactionShape)
    (record_words : Z) : list Z :=
  (fun index =>
     let physical :=
       match shape with
       | Linear => index
       | Ring => (ce_head entity +w index) mod Z.max (ce_capacity entity) 1
       end in
     ce_source_words entity +w (physical *w record_words)) <$> seqZ 0 (ce_count entity).

(** The messages of [CompactionError], with what they report. *)
Inductive CompactionError :=
  | RegionOverflows (start : Z)
  | RegionPastPlane (start finish plane_words : Z)
  | ZeroRecordWidth
  | RingOverfull (count capacity : Z)
  | RingHeadOutside (head capacity : Z)
  | LiveRegionOverflows
  | LiveRegionPastPlane (finish plane_words : Z)
  | RecordCountOverflows
  | BufferOverflows.

Definition metadata_region (plane_words start len : Z) : result CompactionError (Z * Z) :=
  finish ← ok_or (checked_add start len) (RegionOverflows start);
  if plane_words <? finish then Err (RegionPastPlane start finish plane_words)
  else Ok (start, finish).

Record CompactionPlan := mkPlan {
  cp_shape : CompactionShape;
  cp_record_words : Z;
  cp_entities : list CompactionEntity;
  cp_destinations : list Z;
  cp_total_records : Z;
}.

(** One entity: its checks, its destination and the records counted so far. *)
Definition plan_entity (shape : CompactionShape) (record_words source_plane_words : Z)
    (acc : list Z * Z) (entity : CompactionEntity) : result CompactionError (list Z * Z) :=
  let '(destinations, total_records) := acc in
  if bool_decide (shape = Ring) && (Z.max (ce_capacity entity) 1 <? ce_count entity)
  then Err (RingOverfull (ce_count entity) (ce_capacity entity))
  else if bool_decide (shape = Ring) && (Z.max (ce_capacity entity) 1 <=? ce_head entity)
  then Err (RingHeadOutside (ce_head entity) (ce_capacity entity))
  else
    let span :=
      match shape with
      | Linear => ce_count entity
      | Ring => Z.max (ce_capacity entity) (ce_count entity)
      end in
    finish ← ok_or (words ← checked_mul span record_words;
                    checked_add words (ce_source_words entity)) LiveRegionOverflows;
    if source_plane_words <? finish then Err (LiveRegionPastPlane finish source_plane_words)
    else
      total ← ok_or (checked_add total_records (ce_count entity)) RecordCountOverflows;
      Ok (destinations ++ [total_records], total).

Definition plan_new (shape : CompactionShape) (record_words : Z)
    (entities : list CompactionEntity) (source_plane_words : Z)
  : result CompactionError CompactionPlan :=
  if record_words =? 0 then Err ZeroRecordWidth
  else
    '(destinations, total_records) ←
      try_fold (plan_entity shape record_words source_plane_words) ([], 0) entities;
    _ ← ok_or (checked_mul total_records record_words) BufferOverflows;
    Ok (mkPlan shape record_words entities destinations total_records).

Definition total_words (plan : CompactionPlan) : Z :=
  saturating_mul (cp_total_records plan) (cp_record_words plan).

Definition destination (plan : CompactionPlan) (index : nat) : Z :=
  default (cp_total_records plan) (cp_destinations plan !! index).

Definition plan_count (plan : CompactionPlan) (index : nat) : Z :=
  default 0 (ce_count <$> cp_entities plan !! index).

(** The rows uploaded beside the plan. *)
Definition plan_words (plan : CompactionPlan) : list Z :=
  mjoin ((fun '(entity, destination) =>
            [ce_source_words entity; ce_capacity entity; ce_head entity; ce_count entity;
             destination *w cp_record_words plan])
           <$> zip (cp_entities plan) (cp_destinations plan)).

Definition argument_words (plan : CompactionPlan) : list Z :=
  [Z.of_nat (length (cp_entities plan)); cp_record_words plan;
   Z.b2z (bool_decide (cp_shape plan = Ring))].

Definition gather_entity (plan : CompactionPlan) (source : list Z)
    (buffer : list Z) (entry : CompactionEntity * Z) : option (list Z) :=
  let '(entity, base) := entry in
  let width := Z.to_nat (cp_record_words plan) in
  option_fold (fun buffer (indexed : nat * Z) =>
      let from := Z.to_nat indexed.2 in
      let to := ((Z.to_nat base + indexed.1) * width)%nat in
      record ← read_slice source from width;
      write_record to record buffer)
    buffer (imap pair (live_record_slots entity (cp_shape plan) (cp_record_words plan))).

(** The host mirror of the gather. *)
Definition gather (plan : CompactionPlan) (source : list Z) : option (list Z) :=
  option_fold (gather_entity plan source) (replicate (Z.to_nat (total_words plan)) 0)
    (zip (cp_entities plan) (cp_destinations plan)).

(** ** What a plan accepts *)

Record entity_words (entity : CompactionEntity) : Prop := {
  ew_source : in_u64 (ce_source_words entity);
  ew_capacity : in_u64 (ce_capacity entity);
  ew_head : in_u64 (ce_head entity);
  ew_count : in_u64 (ce_count entity);
}.

(** The records an entity's region spans. *)
Definition span_records (shape : CompactionShape) (entity : CompactionEntity) : Z :=
  match shape with
  | Linear => ce_count entity
  | Ring => Z.max (ce_capacity entity) (ce_count entity)
  end.

(** A region the source plane holds; a ring's head is inside it. *)
Record region_ok (shape : CompactionShape) (record_words plane_words : Z)
    (entity : CompactionEntity) : Prop := {
  re_count : shape = Ring -> ce_count entity <= Z.max (ce_capacity entity) 1;
  re_head : shape = Ring -> ce_head entity < Z.max (ce_capacity entity) 1;
  re_end : span_records shape entity * record_words + ce_source_words entity <= plane_words;
}.

Definition live_total (entities : list CompactionEntity) : Z :=
  foldr (fun entity total => ce_count entity + total) 0 entities.

(** The exclusive prefix sums of the counts. *)
Fixpoint offsets (total : Z) (entities : list CompactionEntity) : list Z :=
  match entities with
  | [] => []
  | entity :: entities => total :: offsets (total + ce_count entity) entities
  end.

Section plan.
Context (shape : CompactionShape) (record_words plane_words : Z).
Hypothesis Hwidth : 0 < record_words <= u64_max.
Hypothesis Hplane : in_u64 plane_words.

Lemma plan_entity_Ok acc entity r : entity_words entity -> 0 <= acc.2 ->
  plan_entity shape record_words plane_words acc entity = Ok r <->
  region_ok shape record_words plane_words entity /\ acc.2 + ce_count entity <= u64_max
  /\ r = (acc.1 ++ [acc.2], acc.2 + ce_count entity).
Proof using Hwidth Hplane.
  intros [Hs Hc Hh Hn] Hacc. destruct acc as [ds total]. simpl in *. unfold plan_entity.
  unfold in_u64 in *.
  destruct (bool_decide (shape = Ring) && _) eqn:E1.
  { apply andb_true_iff in E1 as [Er%bool_decide_eq_true El%Z.ltb_lt].
    split; [done|]. intros [[H _ _] _]. specialize (H Er). lia. }
  destruct (bool_decide (shape = Ring) && (_ <=? _)) eqn:E2.
  { apply andb_true_iff in E2 as [Er%bool_decide_eq_true El%Z.leb_le].
    split; [done|]. intros [[_ H _] _]. specialize (H Er). lia. }
  fold (span_records shape entity). unfold checked_mul, checked_add, ok_or.
  assert (0 <= span_records shape entity) by (destruct shape; simpl; lia).
  assert (0 <= span_records shape entity * record_words) by nia.
  destruct (Z.leb_spec (span_records shape entity * record_words) u64_max) as [Hm|Hm]; last first.
  { split; [done|]. intros [[_ _ H'] _]. lia. }
  simpl. destruct (Z.leb_spec (span_records shape entity * record_words + ce_source_words entity)
    u64_max) as [Ha|Ha]; simpl; last first.
  { split; [done|]. intros [[_ _ H'] _]. lia. }
  destruct (Z.ltb_spec plane_words
    (span_records shape entity * record_words + ce_source_words entity)) as [Hp|Hp].
  { split; [done|]. intros [[_ _ H'] _]. lia. }
  assert (Hr : region_ok shape record_words plane_words entity).
  { split; [intros ->..|done].
    - apply andb_false_iff in E1 as [E1|E1%Z.ltb_ge]; [discriminate|lia].
    - apply andb_false_iff in E2 as [E2|E2%Z.leb_gt]; [discriminate|lia]. }
  destruct (Z.leb_spec (total + ce_count entity) u64_max) as [Ht|Ht]; simpl.
  - split; [intros [= <-]|intros (_ & _ & ->)]; done.
  - split; [done|]. intros (_ & ? & _). lia.
Qed.

Lemma live_total_nonneg entities : Forall entity_words entities -> 0 <= live_total entities.
Proof.
  induction 1 as [|entity entities He _ IH]; simpl; [done|].
  destruct He as [_ _ _ Hn]. unfold in_u64 in Hn. lia.
Qed.

Lemma plan_fold_Ok entities ds total r : Forall entity_words entities -> 0 <= total <= u64_max ->
  try_fold (plan_entity shape record_words plane_words) (ds, total) entities = Ok r <->
  Forall (region_ok shape record_words plane_words) entities
  /\ total + live_total entities <= u64_max
  /\ r = (ds ++ offsets total entities, total + live_total entities).
Proof using Hwidth Hplane.
  intros Hall. revert ds total. induction Hall as [|entity entities He Hall IH]; intros ds total Ht.
  { simpl. rewrite app_nil_r, Z.add_0_r. split; [intros [= <-]|by intros (_ & _ & ->)].
    split_and!; [constructor|lia|done]. }
  cbn [try_fold]. pose proof (live_total_nonneg _ Hall) as Hnn.
  pose proof (ew_count _ He) as Hn. unfold in_u64 in Hn. rewrite bind_Ok. cbn [live_total foldr].
  fold (live_total entities). split.
  - intros (acc & (Hr & Hle & ->)%plan_entity_Ok & H); [|done|simpl; lia].
    apply IH in H as (Hrs & Ht' & ->); [|simpl in *; lia]. simpl in *.
    rewrite <- app_assoc, <- Z.add_assoc in *. split_and!; try done. by constructor.
  - intros ([Hr Hrs]%Forall_cons & Hle & ->). exists (ds ++ [total], total + ce_count entity).
    split; [apply plan_entity_Ok; simpl; (done || lia || split_and!; (done || lia))|].
    apply IH; [lia|]. rewrite <- app_assoc, <- Z.add_assoc. done.
Qed.

Lemma plan_new_Ok entities plan : Forall entity_words entities ->
  plan_new shape record_words entities plane_words = Ok plan <->
  Forall (region_ok shape record_words plane_words) entities
  /\ live_total entities * record_words <= u64_max
  /\ plan = mkPlan shape record_words entities (offsets 0 entities) (live_total entities).
Proof using Hwidth Hplane.
  intros Hall. unfold plan_new. rewrite (proj2 (Z.eqb_neq _ _)) by lia.
  pose proof (live_total_nonneg _ Hall) as Hnn.
  destruct (try_fold _ _ _) as [[ds total]|e] eqn:E; simpl.
  - apply plan_fold_Ok in E as (Hr & Hle & [= -> ->]); [|done|lia]. simpl.
    rewrite !Z.add_0_l. unfold checked_mul, ok_or. destruct (Z.leb_spec (live_total entities * record_words) u64_max);
      simpl.
    + split; [intros [= <-]|intros (_ & _ & ->)]; done.
    + split; [done|]. intros (_ & ? & _). lia.
  - split; [done|]. intros (Hr & Hle & ->).
    assert (Hok : try_fold (plan_entity shape record_words plane_words) ([], 0) entities
                  = Ok ([] ++ offsets 0 entities, 0 + live_total entities)).
    { apply plan_fold_Ok; [done|lia|]. split_and!; try done. nia. }
    congruence.
Qed.
End plan.

(** ** What a gather moves *)

(** The physical place of a logical record. *)
Definition physical (shape : CompactionShape) (entity : CompactionEntity) (index : Z) : Z :=
  match shape with
  | Linear => index
  | Ring => (ce_head entity + index) mod Z.max (ce_capacity entity) 1
  end.

(** An entity's live records in logical order. *)
Definition entity_records (shape : CompactionShape) (record_words : Z) (source : list Z)
    (entity : CompactionEntity) : list (list Z) :=
  (fun index =>
     take (Z.to_nat record_words)
       (drop (Z.to_nat (ce_source_words entity + physical shape entity index * record_words))
          source)) <$> seqZ 0 (ce_count entity).

Section gather.
Context (shape : CompactionShape) (record_words : Z) (source : list Z).
Hypothesis Hwidth : 0 < record_words <= u64_max.
(** A slice has at most [isize::MAX] bytes. *)
Hypothesis Hsource : 8 * Z.of_nat (length source) < 9223372036854775808.

Abbreviation width := (Z.to_nat record_words).
Abbreviation plane := (Z.of_nat (length source)).

Lemma physical_range entity index : entity_words entity ->
  region_ok shape record_words plane entity -> 0 <= index < ce_count entity ->
  0 <= physical shape entity index < span_records shape entity.
Proof using.
  intros [Hs Hc Hh Hn] [Hcount Hhead _] Hi. unfold physical, span_records, in_u64 in *.
  destruct shape; [lia|]. specialize (Hcount eq_refl). specialize (Hhead eq_refl).
  pose proof (Z.mod_pos_bound (ce_head entity + index) (Z.max (ce_capacity entity) 1)). lia.
Qed.

Lemma slot_exact entity index : entity_words entity ->
  region_ok shape record_words plane entity -> 0 <= index < ce_count entity ->
  let slot := ce_source_words entity + physical shape entity index * record_words in
  ce_source_words entity +w
    ((match shape with
      | Linear => index
      | Ring => (ce_head entity +w index) mod Z.max (ce_capacity entity) 1
      end) *w record_words) = slot
  /\ 0 <= slot /\ slot + record_words <= plane.
Proof using Hwidth Hsource.
  intros He Hr Hi slot. pose proof (physical_range _ _ He Hr Hi) as Hp.
  destruct He as [Hs Hc Hh Hn], Hr as [Hcount Hhead Hend]. unfold in_u64 in *.
  assert (Hslot : 0 <= slot /\ slot + record_words <= plane) by (unfold slot; nia).
  split; [|done].
  assert (Hm : match shape with
               | Linear => index
               | Ring => (ce_head entity +w index) mod Z.max (ce_capacity entity) 1
               end = physical shape entity index).
  { unfold physical, span_records in *. destruct shape; [done|]. specialize (Hhead eq_refl).
    rewrite wadd_small; [done|]. nia. }
  rewrite Hm. unfold slot in *. rewrite wmul_small by nia. by rewrite wadd_small by nia.
Qed.

Lemma entity_records_length entity :
  length (entity_records shape record_words source entity) = Z.to_nat (ce_count entity).
Proof. unfold entity_records. by rewrite length_fmap, length_seqZ. Qed.

(** Records read at [slots] land one after the other. *)
Lemma gather_slots slots (base offset : nat) filled k :
  Forall (fun slot => 0 <= slot /\ slot + record_words <= plane) slots ->
  length filled = ((base + offset) * width)%nat ->
  option_fold (fun buffer (indexed : nat * Z) =>
      let from := Z.to_nat indexed.2 in
      let to := ((base + indexed.1) * width)%nat in
      record ← read_slice source from width;
      write_record to record buffer)
    (filled ++ replicate (length slots * width + k) 0)
    (imap (fun i slot => ((offset + i)%nat, slot)) slots)
  = Some ((filled ++ mjoin ((fun slot => take width (drop (Z.to_nat slot) source)) <$> slots))
            ++ replicate k 0).
Proof using Hwidth.
  intros Hall. revert offset filled.
  induction Hall as [|slot slots [Hlo Hhi] _ IH]; intros offset filled Hlen.
  { simpl. by rewrite app_nil_r. }
  set (record := take width (drop (Z.to_nat slot) source)).
  assert (Hrec : length record = width) by (unfold record; rewrite length_take, length_drop; lia).
  assert (Hread : read_slice source (Z.to_nat slot) width = Some record).
  { unfold read_slice. by rewrite (proj2 (Nat.leb_le _ _)) by lia. }
  cbn [imap option_fold fst snd length]. rewrite Hread. cbn [mbind option_bind].
  replace ((base + (offset + 0)) * width)%nat with (length filled) by lia.
  replace (S (length slots) * width + k)%nat with (length record + (length slots * width + k))%nat
    by lia.
  rewrite write_next. cbn [mbind option_bind].
  specialize (IH (S offset) (filled ++ record)). rewrite length_app in IH.
  cbn [fmap list_fmap mjoin list_join]. fold record. rewrite (app_assoc filled record).
  etrans; [|apply IH; lia]. f_equal. apply imap_ext. intros i x _. simpl. f_equal. lia.
Qed.

(** The gather of one entity appends its records. *)
Lemma gather_entity_eq plan entity base filled k :
  cp_shape plan = shape -> cp_record_words plan = record_words ->
  entity_words entity -> region_ok shape record_words plane entity -> 0 <= base ->
  length filled = (Z.to_nat base * width)%nat ->
  gather_entity plan source (filled ++ replicate (Z.to_nat (ce_count entity) * width + k) 0)
    (entity, base)
  = Some ((filled ++ mjoin (entity_records shape record_words source entity)) ++ replicate k 0).
Proof using Hwidth Hsource.
  intros Hshape Hrw He Hr Hbase Hfilled. unfold gather_entity. rewrite Hshape, Hrw.
  assert (Hslots : live_record_slots entity shape record_words
    = (fun index => ce_source_words entity + physical shape entity index * record_words)
        <$> seqZ 0 (ce_count entity)).
  { unfold live_record_slots. apply list_fmap_ext. intros i index Hi.
    apply lookup_seqZ in Hi as [-> Hi]. apply slot_exact; [done..|lia]. }
  rewrite Hslots. set (slots := _ <$> seqZ 0 _).
  assert (Hlen : length slots = Z.to_nat (ce_count entity)).
  { unfold slots. by rewrite length_fmap, length_seqZ. }
  rewrite <- Hlen.
  assert (Hrecs : entity_records shape record_words source entity
    = (fun slot => take width (drop (Z.to_nat slot) source)) <$> slots).
  { unfold entity_records, slots. by rewrite <- list_fmap_compose. }
  rewrite Hrecs, <- (gather_slots slots (Z.to_nat base) 0 filled k); [done| |].
  - unfold slots. rewrite Forall_fmap. apply Forall_forall. intros index Hi%elem_of_seqZ. simpl.
    apply slot_exact; [done..|lia].
  - by rewrite Nat.add_0_r.
Qed.

Lemma entity_words_length entity : entity_words entity ->
  region_ok shape record_words plane entity ->
  length (mjoin (entity_records shape record_words source entity))
  = (Z.to_nat (ce_count entity) * width)%nat.
Proof using Hwidth Hsource.
  intros He Hr. pose proof (ew_count _ He) as Hn. unfold in_u64 in Hn. rewrite length_join.
  assert (Hl : length <$> entity_records shape record_words source entity
               = replicate (Z.to_nat (ce_count entity)) width).
  { apply list_eq_same_length with (Z.to_nat (ce_count entity));
      [by rewrite length_replicate|by rewrite length_fmap, entity_records_length|].
    intros i x y Hi Hx Hy. rewrite lookup_replicate_2 in Hy by done. injection Hy as <-.
    rewrite list_lookup_fmap in Hx. apply fmap_Some in Hx as (r & Hx & ->).
    unfold entity_records in Hx. rewrite list_lookup_fmap in Hx.
    apply fmap_Some in Hx as (index & Hx & ->). apply lookup_seqZ in Hx as [-> Hi'].
    destruct (slot_exact entity (0 + Z.of_nat i) He Hr) as (_ & Hlo & Hhi); [lia|].
    rewrite length_take, length_drop. lia. }
  by rewrite Hl, sum_list_replicate.
Qed.

Lemma gather_fold plan entities total filled :
  cp_shape plan = shape -> cp_record_words plan = record_words ->
  Forall entity_words entities -> Forall (region_ok shape record_words plane) entities ->
  0 <= total -> length filled = (Z.to_nat total * width)%nat ->
  option_fold (gather_entity plan source)
    (filled ++ replicate (Z.to_nat (live_total entities) * width) 0)
    (zip entities (offsets total entities))
  = Some (filled ++ mjoin (mjoin (entity_records shape record_words source <$> entities))).
Proof using Hwidth Hsource.
  intros Hshape Hrw Hall Hr. revert total filled.
  induction Hr as [|entity entities Hr _ IH]; intros total filled Ht Hlen.
  { simpl. by rewrite app_nil_r. }
  apply Forall_cons in Hall as [He Hall]. pose proof (live_total_nonneg _ Hall) as Hnn.
  pose proof (ew_count _ He) as Hn. unfold in_u64 in Hn.
  cbn [live_total foldr offsets zip zip_with option_fold]. fold (live_total entities).
  rewrite Z2Nat.inj_add, Nat.mul_add_distr_r by lia.
  rewrite gather_entity_eq by done. cbn [mbind option_bind].
  rewrite IH; [|done|lia|].
  - by rewrite <- app_assoc, <- join_app.
  - rewrite length_app, Hlen.
    rewrite entity_words_length by done. lia.
Qed.

(** Where an entity's records are in the gathered buffer. *)
Lemma gathered_slice entities total i entity :
  Forall entity_words entities -> Forall (region_ok shape record_words plane) entities ->
  0 <= total -> entities !! i = Some entity ->
  exists base, offsets total entities !! i = Some base /\ total <= base /\
    let buffer := mjoin (mjoin (entity_records shape record_words source <$> entities)) in
    take (Z.to_nat (ce_count entity) * width) (drop (Z.to_nat (base - total) * width) buffer)
    = mjoin (entity_records shape record_words source entity).
Proof using Hwidth Hsource.
  intros Hall Hr. revert total i.
  induction Hr as [|e entities Hr Hrs IH]; intros total i Ht Hi; [done|].
  apply Forall_cons in Hall as [He Hall]. pose proof (ew_count _ He) as Hn. unfold in_u64 in Hn.
  cbn [fmap list_fmap mjoin list_join offsets]. rewrite join_app.
  destruct i as [|i]; simpl in Hi.
  - injection Hi as ->. exists total. split_and!; [done|lia|]. rewrite Z.sub_diag, Z2Nat.inj_0, Nat.mul_0_l, drop_0.
    rewrite take_app_le, take_ge by (rewrite entity_words_length by done; lia). done.
  - destruct (IH Hall (total + ce_count e) i) as (base & Hb & Hle & Hs); [lia|done|].
    exists base. split_and!; [done|lia|]. simpl in Hs. rewrite <- Hs. f_equal.
    rewrite drop_app_ge; rewrite entity_words_length by done; [f_equal|]; nia.
Qed.
End gather.

(** An accepted plan gathers every entity's records. *)
Lemma gather_plan shape record_words entities source plan :
  Forall entity_words entities -> 0 < record_words <= u64_max ->
  8 * Z.of_nat (length source) < 9223372036854775808 ->
  plan_new shape record_words entities (Z.of_nat (length source)) = Ok plan ->
  gather plan source
  = Some (mjoin (mjoin (entity_records shape record_words source <$> entities))).
Proof.
  intros Hall Hwidth Hsource.
  intros (Hr & Hle & ->)%(plan_new_Ok shape record_words _ Hwidth); [|unfold in_u64; lia|done].
  pose proof (live_total_nonneg _ Hall) as Hnn.
  unfold gather, total_words. simpl. unfold saturating_mul. rewrite Z.min_l by done.
  rewrite Z2Nat.inj_mul by lia.
  by apply (gather_fold shape record_words source Hwidth Hsource _ entities 0 []).
Qed.

(** C29. Readback compaction loses nothing and invents nothing. A plan is refused
    exactly when the record width is zero, a region does not fit the source plane,
    a ring is overfull or its head is outside it, or the buffer would overflow. A
    plan that is accepted gathers, without a panic, the live records of every
    entity in logical order, one entity after the other, and each entity's records
    are where [destination] and [count] say. *)
Theorem gather_exact (shape : CompactionShape) (record_words : Z)
    (entities : list CompactionEntity) (source : list Z) :
  Forall entity_words entities -> in_u64 record_words ->
  8 * Z.of_nat (length source) < 9223372036854775808 ->
  let plane := Z.of_nat (length source) in
  ((exists plan, plan_new shape record_words entities plane = Ok plan) <->
   0 < record_words /\ Forall (region_ok shape record_words plane) entities /\
   live_total entities * record_words <= u64_max)
  /\ forall plan, plan_new shape record_words entities plane = Ok plan ->
     let buffer := mjoin (mjoin (entity_records shape record_words source <$> entities)) in
     gather plan source = Some buffer
     /\ forall i entity, entities !! i = Some entity ->
          plan_count plan i = ce_count entity
          /\ take (Z.to_nat (plan_count plan i) * Z.to_nat record_words)
               (drop (Z.to_nat (destination plan i) * Z.to_nat record_words) buffer)
             = mjoin (entity_records shape record_words source entity).
Proof.
  intros Hall Hw Hsource plane. destruct (decide (record_words = 0)) as [->|Hne].
  { unfold plan_new. simpl. split; [|done]. split; [by intros [? ?]|]. lia. }
  assert (Hwidth : 0 < record_words <= u64_max) by (unfold in_u64 in Hw; lia).
  assert (Hplane : in_u64 plane) by (unfold in_u64, plane; lia).
  split.
  { split.
    - intros [plan H]. apply (plan_new_Ok shape record_words plane Hwidth Hplane) in H; [|done].
      destruct H as (Hr & Hle & _). split_and!; [lia|done..].
    - intros (_ & Hr & Hle). eexists.
      by apply (plan_new_Ok shape record_words plane Hwidth Hplane). }
  intros plan Hplan. split; [by apply gather_plan|].
  apply (plan_new_Ok shape record_words plane Hwidth Hplane) in Hplan as (Hr & Hle & ->); [|done].
  intros i entity Hi. unfold plan_count, destination. simpl. rewrite Hi. simpl.
  destruct (gathered_slice shape record_words source Hwidth Hsource entities 0 i entity)
    as (base & -> & _ & Hs); [done..|]. simpl in *. by rewrite Z.sub_0_r in Hs.
Qed.

(** A ring of three one-word records that starts at its last one, and a linear
    region of two. *)
Lemma gather_exact_witness :
  let entities := [mkEntity 0 3 2 2; mkEntity 3 3 0 1] in
  let source := [10; 11; 12; 13; 14; 15] in
  (exists plan, plan_new Ring 1 entities 6 = Ok plan /\ gather plan source = Some [12; 10; 13])
  /\ exists plan, plan_new Ring 1 entities (Z.of_nat (length source)) = Ok plan
     /\ gather plan source
        = Some (mjoin (mjoin (entity_records Ring 1 source <$> entities))).
Proof.
  split; [eexists; split; [vm_compute; reflexivity|]; vm_compute; reflexivity|].
  destruct (gather_exact Ring 1 [mkEntity 0 3 2 2; mkEntity 3 3 0 1] [10; 11; 12; 13; 14; 15])
    as [_ Hplan].
  - repeat constructor; simpl; unfold in_u64; lia.
  - unfold in_u64. lia.
  - simpl. lia.
  - eexists. split; [vm_compute; reflexivity|]. apply Hplan. vm_compute. reflexivity.
Defined.

Lemma view_words_length words capacity count head high_water l :
  view words capacity count head high_water l ->
  length words = (6 + Nat.max capacity 1 * 5)%nat.
Proof.
  intros [timer rows -> Hu Hn _ _]. unfold layout. rewrite length_app, (table_length 5), Hn by done.
  simpl. lia.
Qed.

Lemma view_record words capacity count head high_water l i row :
  view words capacity count head high_water l -> l !! i = Some row ->
  take 5 (drop (ledger_record_slot 6 capacity head i) words) = row.
Proof.
  intros Hv Hi. pose proof (lookup_lt_Some _ _ _ Hi) as Hlt.
  rewrite (view_length _ _ _ _ _ _ Hv) in Hlt.
  destruct (view_row _ _ _ _ _ _ _ (ring_slots capacity head) Hv i Hlt)
    as (timer & rows & k & -> & Hu & Hn & _ & _ & _ & -> & Hr).
  rewrite Hi in Hr. destruct (rows_split _ _ _ Hu Hr) as (Hj & Hp & Hl).
  unfold layout. rewrite <- drop_drop. simpl. rewrite drop_0, Hj, drop_app_length', take_app_length' by lia.
  done.
Qed.

(** The readback of one flow's ring is its live records in order. *)
Lemma gather_ring_plane words capacity head high_water live :
  holds words capacity head high_water live ->
  8 * Z.of_nat (length words) < 9223372036854775808 ->
  exists plan,
    plan_new Ring 5 [mkEntity 6 (Z.of_nat capacity) (Z.of_nat head) (Z.of_nat (length live))]
      (Z.of_nat (length words)) = Ok plan
    /\ gather plan words = Some (mjoin live).
Proof.
  intros (Hcap & l & Hv & Hl) Hwords. pose proof (view_words_length _ _ _ _ _ _ Hv) as Hlen.
  set (entity := mkEntity 6 (Z.of_nat capacity) (Z.of_nat head) (Z.of_nat (length live))).
  assert (Hhead : (head < Nat.max capacity 1)%nat) by by destruct Hv.
  assert (He : Forall entity_words [entity]).
  { constructor; [|constructor]. split; simpl; unfold in_u64; lia. }
  assert (Hplan : plan_new Ring 5 [entity] (Z.of_nat (length words))
    = Ok (mkPlan Ring 5 [entity] (offsets 0 [entity]) (live_total [entity]))).
  { apply plan_new_Ok; [lia|unfold in_u64; lia|done|]. split; [|split; [simpl; lia|done]].
    constructor; [|constructor]. split; simpl; lia. }
  eexists. split; [exact Hplan|]. rewrite (gather_plan Ring 5 _ _ _ He ltac:(lia) Hwords Hplan).
  simpl. rewrite app_nil_r. do 2 f_equal. unfold entity_records, entity. simpl.
  apply list_eq. intros i. rewrite list_lookup_fmap.
  destruct (live !! i) as [row|] eqn:E.
  - pose proof (lookup_lt_Some _ _ _ E) as Hi. rewrite lookup_seqZ_lt by lia. simpl.
    rewrite <- (view_record _ _ _ _ _ _ i row Hv) by by eapply holds_lookup.
    do 2 f_equal. unfold ledger_record_slot.
    rewrite <- (Nat2Z.id (6 + _)). f_equal. rewrite Nat2Z.inj_add, Nat2Z.inj_mul, Nat2Z.inj_mod.
    rewrite Nat2Z.inj_add. rewrite Nat2Z.inj_max. done.
  - apply lookup_ge_None in E. by rewrite lookup_seqZ_ge by lia.
Qed.
