(* ===== verification/TcpRingLedger.v ===== *)
(** * The ring keeps the executor's ledger

    The records of TcpRing.v against the segment ledger of TcpLedger.v: on every
    trace of a sender's insertions, none of which overlaps bytes filed under another
    sequence, and of cumulative acknowledgments, the ring of the mirror, the
    shifting array it replaced and the executor's [BTreeMap] agree, outcome by
    outcome and byte by byte. On a trace with an overlapping insertion they do not
    ([overlapping_insert_diverges]). *)

From S2P Require Import Prelude Words OrdMap Event Tcp Model Image TcpLedger TcpRing.

(** ** Segments as records *)

(** The five words the planners write for a segment. *)
Definition segment_record (packet : PacketDescriptor) : list Z :=
  match pk_kind packet with
  | TcpData header =>
      record_words (pk_id packet) (pk_size_bytes packet) (td_sequence header)
        (td_sent_time_ns header) (td_retransmission header)
  | _ => []
  end.

Definition segment_rows (segments : bmap Z PacketDescriptor) : list (list Z) :=
  segment_record <$> segments.*2.

Lemma segment_record_fields flow sequence packet : segment_ok flow sequence packet ->
  rec_sequence (segment_record packet) = sequence
  /\ rec_size (segment_record packet) = pk_size_bytes packet
  /\ length (segment_record packet) = 5%nat.
Proof. intros [_ (h & Hk & <-) _ _ _]. unfold segment_record. by rewrite Hk. Qed.

Lemma segments_ok_cons flow k p segments : segments_ok flow ((k, p) :: segments) ->
  segment_ok flow k p /\ segments_ok flow segments
  /\ forall e, e ∈ segments -> k + pk_size_bytes p <= e.1.
Proof.
  intros [Hwf Heach Hapart]. apply wf_cons in Hwf as [Hk Hwf].
  assert (Hlt : forall e, e ∈ segments -> k < e.1).
  { intros e He. apply klt_Z. by apply (proj1 (Forall_forall _ _) Hk). }
  split_and!.
  - apply (Heach (k, p)). by left.
  - split; [done| |].
    + intros e He. apply Heach. by right.
    + intros a b Ha Hb. apply Hapart; by right.
  - intros e He. apply (Hapart (k, p) e); [by left|by right|]. by apply Hlt.
Qed.

Lemma segment_rows_uniform flow segments : segments_ok flow segments ->
  uniform (segment_rows segments).
Proof.
  intros [_ Heach _]. unfold uniform, segment_rows. rewrite !Forall_fmap. apply Forall_forall.
  intros e He. apply (segment_record_fields flow e.1 e.2), Heach, He.
Qed.

Lemma segment_rows_ascending flow segments : segments_ok flow segments ->
  ascending (segment_rows segments).
Proof.
  intros Hok. induction segments as [|[k p] segments IH]; [constructor|].
  apply segments_ok_cons in Hok as (Hp & Hok & Hlt).
  change (segment_rows ((k, p) :: segments)) with (segment_record p :: segment_rows segments).
  constructor; [by apply IH|].
  unfold segment_rows. rewrite !Forall_fmap. apply Forall_forall. intros e He. simpl.
  destruct (segment_record_fields _ _ _ Hp) as [-> _].
  destruct (segment_record_fields _ _ _ (segs_each _ _ Hok _ He)) as [-> _].
  pose proof (Hlt _ He). destruct Hp. lia.
Qed.

(** *** Insertion *)

Lemma rows_resident flow segments sequence : segments_ok flow segments ->
  resident sequence (segment_rows segments) = segment_record <$> bm_get sequence segments.
Proof.
  intros Hok. unfold resident. induction segments as [|[k p] segments IH]; [done|].
  apply segments_ok_cons in Hok as (Hp & Hok & Hlt). specialize (IH Hok).
  cbn [segment_rows fmap list_fmap below bm_get fst snd].
  destruct (segment_record_fields _ _ _ Hp) as [Hs _]. rewrite Hs.
  destruct (Z.ltb_spec k sequence) as [Hk|Hk].
  - destruct (keqb sequence k) eqn:E; [apply keqb_spec in E; lia|].
    cbn [lookup list_lookup]. exact IH.
  - cbn [lookup list_lookup mbind option_bind]. rewrite Hs.
    destruct (Z.eqb_spec k sequence) as [->|Hne].
    + by rewrite (proj2 (keqb_spec sequence sequence)).
    + destruct (keqb sequence k) eqn:E; [apply keqb_spec in E; lia|].
      destruct (bm_get sequence segments) as [q|] eqn:Eq; [|done].
      apply bm_get_elem_of in Eq; [|apply Hok]. apply Hlt in Eq. simpl in Eq.
      destruct Hp. lia.
Qed.

Lemma rows_bm_insert flow segments sequence packet : segments_ok flow segments ->
  segment_rows (bm_insert sequence packet segments)
  = let rows := segment_rows segments in
    let i := below sequence rows in
    match bm_get sequence segments with
    | Some _ => <[i := segment_record packet]> rows
    | None => take i rows ++ segment_record packet :: drop i rows
    end.
Proof.
  intros Hok. induction segments as [|[k p] segments IH]; [done|].
  apply segments_ok_cons in Hok as (Hp & Hok & Hlt). specialize (IH Hok). simpl in IH.
  cbn [segment_rows fmap list_fmap below bm_get bm_insert fst snd].
  destruct (segment_record_fields _ _ _ Hp) as [Hs _]. rewrite Hs.
  destruct (Z.ltb_spec k sequence) as [Hk|Hk].
  - assert (kcmp sequence k = Gt) as -> by (apply kcmp_gt, klt_Z; lia).
    destruct (keqb sequence k) eqn:E; [apply keqb_spec in E; lia|].
    cbn [fmap list_fmap fst snd]. fold (segment_rows (bm_insert sequence packet segments)).
    fold (segment_rows segments). rewrite IH. by destruct (bm_get sequence segments).
  - destruct (decide (sequence = k)) as [->|Hne].
    + rewrite kcmp_refl, (proj2 (keqb_spec k k)) by done. done.
    + assert (kcmp sequence k = Lt) as -> by (apply klt_Z; lia).
      destruct (keqb sequence k) eqn:E; [apply keqb_spec in E; lia|].
      destruct (bm_get sequence segments) as [q|] eqn:Eq; [|done].
      apply bm_get_elem_of in Eq; [|apply Hok]. apply Hlt in Eq. simpl in Eq.
      destruct Hp. lia.
Qed.

(** *** Acknowledgment *)

(** A leading segment that is wholly acknowledged is dropped. *)
Lemma unacknowledged_drop flow k p segments ack : segments_ok flow ((k, p) :: segments) ->
  in_u64 ack -> k + pk_size_bytes p <= ack ->
  unacknowledged_segments flow ((k, p) :: segments) ack
  = unacknowledged_segments flow segments ack.
Proof.
  intros (Hp & Hok & Hlt)%segments_ok_cons Hack Hle. unfold unacknowledged_segments, bm_split_off.
  assert (Hk : klt k ack) by (destruct Hp; apply klt_Z; lia).
  rewrite filter_cons_True by done. rewrite filter_cons_False by (simpl; by rewrite kle_not_lt; tauto).
  unfold bm_last. destruct (filter (fun kv => klt kv.1 ack) segments) as [|e low]; [|done].
  simpl. destruct Hp. rewrite wsub_small by (unfold in_u64 in *; lia).
  by rewrite (proj2 (Z.ltb_ge _ _)) by lia.
Qed.

(** A leading segment that is not is trimmed, and nothing after it changes. *)
Lemma unacknowledged_trim flow k p segments ack header :
  segments_ok flow ((k, p) :: segments) -> in_u64 ack -> pk_kind p = TcpData header ->
  k < ack < k + pk_size_bytes p ->
  unacknowledged_segments flow ((k, p) :: segments) ack
  = Some (Ok ((ack, p <| pk_size_bytes ::= fun bytes => bytes -w (ack -w k) |>
                      <| pk_kind := TcpData (header <| td_sequence := ack |>) |>) :: segments)).
Proof.
  intros (Hp & Hok & Hlt)%segments_ok_cons Hack Hkind Hin.
  unfold unacknowledged_segments, bm_split_off.
  assert (Hafter : Forall (fun kv => klt ack kv.1) segments).
  { apply Forall_forall. intros e He. apply klt_Z. pose proof (Hlt _ He). lia. }
  rewrite filter_cons_True by (by apply klt_Z; simpl; lia).
  rewrite filter_cons_False by (simpl; rewrite kle_Z; lia).
  rewrite (filter_none _ segments) by
    (apply Forall_forall; eapply Forall_impl; [exact Hafter|]; intros e; simpl; rewrite !klt_Z; lia).
  rewrite (filter_all _ segments) by
    (apply Forall_forall; eapply Forall_impl; [exact Hafter|]; intros e; simpl; rewrite klt_Z, kle_Z; lia).
  simpl. destruct Hp. rewrite !wsub_small by (unfold in_u64 in *; lia).
  rewrite (proj2 (Z.ltb_lt _ _)) by lia. rewrite Hkind.
  destruct (bm_get ack segments) as [q|] eqn:E.
  { apply bm_get_elem_of in E; [|apply Hok]. pose proof (Hlt _ E) as H. simpl in H. lia. }
  simpl. do 2 f_equal. destruct segments as [|[k' q] segments]; [done|].
  simpl. apply Forall_cons in Hafter as [Ha _]. unfold klt in Ha. simpl in Ha. by rewrite Ha.
Qed.

(** Nothing below the acknowledgment: nothing to do. *)
Lemma unacknowledged_all flow segments ack :
  Forall (fun kv => ack <= kv.1) segments ->
  unacknowledged_segments flow segments ack = Some (Ok segments).
Proof.
  intros Hall. unfold unacknowledged_segments, bm_split_off.
  rewrite filter_none, filter_all; [done|..];
    (apply Forall_forall; eapply Forall_impl; [exact Hall|]; intros e; simpl; rewrite ?klt_Z, ?kle_Z; lia).
Qed.

Lemma rows_unacknowledged flow segments ack rest : segments_ok flow segments -> in_u64 ack ->
  unacknowledged_segments flow segments ack = Some (Ok rest) ->
  segment_rows rest = rows_acknowledge ack (segment_rows segments).
Proof.
  intros Hok Hack. induction segments as [|[k p] segments IH]; [by intros [= <-]|].
  pose proof (segments_ok_cons _ _ _ _ Hok) as (Hp & Hok' & Hlt).
  destruct (segment_record_fields _ _ _ Hp) as (Hs & Hz & _).
  pose proof Hp as [_ (h & Hkind & Hseq) Hlo Hsz Hhi].
  change (segment_rows ((k, p) :: segments)) with (segment_record p :: segment_rows segments).
  unfold rows_acknowledge. cbn [acked]. rewrite Hs, Hz, wadd_small by lia.
  destruct (Z.ltb_spec ack (k + pk_size_bytes p)) as [Hin|Hout].
  - cbn [drop]. rewrite Hs, Hz. destruct (Z.ltb_spec k ack) as [Hk|Hk].
    + rewrite (unacknowledged_trim _ _ _ _ _ h) by (done || lia). intros [= <-].
      rewrite (wsub_small ack k) by (unfold in_u64 in *; lia).
      rewrite (proj2 (Z.ltb_lt _ _)) by lia.
      cbn [segment_rows fmap list_fmap snd]. f_equal. unfold segment_record. by rewrite Hkind.
    + rewrite unacknowledged_all; [by intros [= <-]|]. constructor; [done|].
      apply Forall_forall. intros e He. pose proof (Hlt _ He). lia.
  - rewrite unacknowledged_drop by done. cbn [drop]. intros Hr. by rewrite (IH Hok' Hr).
Qed.

(** ** Traces *)

Definition flow_segments (flow : FlowId) (ledger : TcpSegmentLedger) : bmap Z PacketDescriptor :=
  default [] (bm_get flow ledger).

(** The packet an insertion files. *)
Definition op_packet (flow : FlowId) (id size sequence sent_ns : Z) (retransmission : bool)
  : PacketDescriptor :=
  mkPacket id flow size false (TcpData (mkTcpData sequence sent_ns retransmission)).

(** The same operation on the executor's ledger, which has no capacity of its
    own: an insertion that would need more than [capacity] records is refused. *)
Definition ledger_apply (flow : FlowId) (capacity : nat) (ledger : TcpSegmentLedger)
    (op : LedgerOp) : option (LedgerOutcome * TcpSegmentLedger) :=
  match op with
  | Insert id size sequence sent_ns retransmission =>
      match seed_segment ledger (op_packet flow id size sequence sent_ns retransmission) with
      | Err _ => Some (SizeConflict, ledger)
      | Ok ledger' =>
          let demand := length (flow_segments flow ledger') in
          if (capacity <? demand)%nat then Some (CapacityExceeded capacity demand, ledger)
          else Some (Applied, ledger')
      end
  | Acknowledge ack =>
      match acknowledge_segments ledger flow ack with
      | Some (Ok ledger') => Some (Applied, ledger')
      | _ => None
      end
  end.

(** A trace of operations, collecting the outcomes. *)
Fixpoint run_ops {S} (apply : S -> LedgerOp -> option (LedgerOutcome * S)) (s : S)
    (ops : list LedgerOp) : option (list LedgerOutcome * S) :=
  match ops with
  | [] => Some ([], s)
  | op :: ops =>
      '(outcome, s) ← apply s op;
      '(outcomes, s) ← run_ops apply s ops;
      Some (outcome :: outcomes, s)
  end.

(** A sender's operation: it files a segment at a filed sequence, or one whose
    bytes are not filed yet; it acknowledges a sequence number. *)
Definition op_fits (flow : FlowId) (ledger : TcpSegmentLedger) (op : LedgerOp) : Prop :=
  match op with
  | Insert id size sequence sent_ns retransmission =>
      0 <= sequence /\ 0 < size /\ sequence + size <= u64_max /\
      (is_Some (bm_get sequence (flow_segments flow ledger)) \/
       forall byte, sequence <= byte < sequence + size -> ~ flow_covered ledger flow byte)
  | Acknowledge ack => in_u64 ack
  end.

Fixpoint trace_fits (flow : FlowId) (capacity : nat) (ledger : TcpSegmentLedger)
    (ops : list LedgerOp) : Prop :=
  match ops with
  | [] => True
  | op :: ops =>
      op_fits flow ledger op /\
      forall outcome ledger', ledger_apply flow capacity ledger op = Some (outcome, ledger') ->
        trace_fits flow capacity ledger' ops
  end.

(** The most records the flow has held along a trace. *)
Fixpoint peak (flow : FlowId) (capacity : nat) (ledger : TcpSegmentLedger) (ops : list LedgerOp)
  : nat :=
  let here := length (flow_segments flow ledger) in
  match ops with
  | [] => here
  | op :: ops =>
      match ledger_apply flow capacity ledger op with
      | Some (_, ledger') => Nat.max here (peak flow capacity ledger' ops)
      | None => here
      end
  end.

Lemma segment_rows_length segments : length (segment_rows segments) = length segments.
Proof. unfold segment_rows. by rewrite !length_fmap. Qed.

(** Filing a segment list whose rows are known. *)
Lemma file_segments flow capacity (ledger : TcpSegmentLedger) segments packet :
  ledger_ok ledger -> segments_ok flow segments -> segments <> [] ->
  (length segments <= capacity)%nat -> segment_rows segments = packet ->
  let ledger' := bm_insert flow segments ledger in
  ledger_ok ledger' /\ (length (flow_segments flow ledger') <= capacity)%nat
  /\ segment_rows (flow_segments flow ledger') = packet.
Proof.
  intros Hok Hs Hne Hc Hr. simpl. unfold flow_segments. rewrite bm_get_insert_eq. simpl.
  split_and!; [|done..]. pose proof (ledger_put_ok _ _ _ Hok Hs) as H. by destruct segments.
Qed.

(** One insertion: the ledger and the records move together. *)
Lemma ledger_insert_rows flow capacity ledger id size sequence sent r :
  let op := Insert id size sequence sent r in
  let segs := flow_segments flow ledger in
  ledger_ok ledger -> op_fits flow ledger op -> (length segs <= capacity)%nat ->
  exists ledger',
    ledger_apply flow capacity ledger op
    = Some ((rows_apply capacity op (segment_rows segs)).1, ledger')
    /\ ledger_ok ledger' /\ (length (flow_segments flow ledger') <= capacity)%nat
    /\ segment_rows (flow_segments flow ledger') = (rows_apply capacity op (segment_rows segs)).2.
Proof.
  intros op segs Hok (Hlo & Hsz & Hhi & Hfit) Hcap.
  pose proof (segments_default flow _ Hok) as Hs. fold (flow_segments flow ledger) in Hs.
  set (packet := op_packet flow id size sequence sent r). fold segs in Hs, Hfit.
  assert (Hp : segment_ok flow sequence packet) by (split; simpl; eauto).
  pose proof (rows_bm_insert flow segs sequence packet Hs) as Hrows. simpl in Hrows.
  simpl. unfold seed_segment. simpl. fold (flow_segments flow ledger). fold segs packet.
  unfold rows_insert_record. rewrite (rows_resident flow) by done.
  change (record_words id size sequence sent r) with (segment_record packet).
  assert (Hnil : bm_insert sequence packet segs <> []).
  { intros H%(f_equal (bm_get sequence)). by rewrite bm_get_insert_eq in H. }
  assert (Hfl : forall x, flow_segments flow (bm_insert flow x ledger) = x).
  { intros x. unfold flow_segments. by rewrite bm_get_insert_eq. }
  destruct (bm_get sequence segs) as [original|] eqn:E; simpl.
  - assert (Ho : segment_ok flow sequence original).
    { apply (segs_each _ _ Hs (sequence, original)), bm_get_elem_of; [apply Hs|done]. }
    destruct (segment_record_fields _ _ _ Ho) as (_ & -> & _).
    destruct (Z.eqb_spec (pk_size_bytes original) size) as [He|He]; simpl; [|by exists ledger].
    assert (Hlen : length (bm_insert sequence packet segs) = length segs).
    { rewrite <- !segment_rows_length, Hrows. by rewrite length_insert. }
    rewrite Hfl, Hlen, (proj2 (Nat.ltb_ge _ _)) by done. eexists. split; [done|].
    apply file_segments; [done| |done|by rewrite Hlen|done].
    apply segments_insert_ok; [done..|]. left. eauto.
  - assert (Hlen : length (bm_insert sequence packet segs) = S (length segs)).
    { rewrite <- !segment_rows_length, Hrows. rewrite inserted_length; [done|]. apply below_le. }
    rewrite Hfl, Hlen, segment_rows_length.
    destruct (Nat.ltb_spec capacity (S (length segs))) as [Hc|Hc].
    { rewrite (proj2 (Nat.leb_le _ _)) by lia. by exists ledger. }
    rewrite (proj2 (Nat.leb_gt _ _)) by lia. eexists. split; [done|].
    apply file_segments; [done| |done|by rewrite Hlen|done].
    apply segments_insert_ok; [done..|]. right. by destruct Hfit as [[q ?]|?].
Qed.

Lemma ledger_apply_rows flow capacity ledger op :
  let segs := flow_segments flow ledger in
  ledger_ok ledger -> op_fits flow ledger op -> (length segs <= capacity)%nat ->
  exists ledger',
    ledger_apply flow capacity ledger op
    = Some ((rows_apply capacity op (segment_rows segs)).1, ledger')
    /\ ledger_ok ledger' /\ (length (flow_segments flow ledger') <= capacity)%nat
    /\ segment_rows (flow_segments flow ledger') = (rows_apply capacity op (segment_rows segs)).2.
Proof.
  intros segs Hok Hfit Hcap. destruct op as [id size sequence sent r|ack].
  { by apply ledger_insert_rows. }
  pose proof (segments_default flow _ Hok) as Hs. simpl in *. unfold acknowledge_segments.
  unfold segs, flow_segments in *. destruct (bm_get flow ledger) as [s|] eqn:E; simpl in *.
  - destruct (unacknowledged_exact flow s ack Hs Hfit) as (rest & Hr & Hrest & _).
    rewrite Hr. simpl. eexists. split; [done|]. rewrite ledger_put_get by apply Hok.
    rewrite decide_True by done.
    pose proof (rows_unacknowledged _ _ _ _ Hs Hfit Hr) as Hrows. split_and!; [|..|done].
    + by apply ledger_put_ok.
    + rewrite <- segment_rows_length, Hrows. etrans; [apply rows_acknowledge_length|].
      by rewrite segment_rows_length.
  - exists ledger. by rewrite E.
Qed.

Lemma peak_ge flow capacity ledger ops :
  (length (flow_segments flow ledger) <= peak flow capacity ledger ops)%nat.
Proof. destruct ops; simpl; [done|]. destruct (ledger_apply _ _ _ _) as [[? ?]|]; lia. Qed.

(** Along a trace the three representations step together. *)
Lemma trace_agrees flow capacity ops ledger array_words ring_words head marks high_water :
  let segs := flow_segments flow ledger in
  ledger_ok ledger -> (length segs <= capacity)%nat -> trace_fits flow capacity ledger ops ->
  holds array_words capacity 0 marks (segment_rows segs) ->
  holds ring_words capacity head high_water (segment_rows segs) ->
  Z.of_nat (length segs) <= high_water ->
  exists outcomes ledger' array_words' ring_words' head',
    run_ops (ledger_apply flow capacity) ledger ops = Some (outcomes, ledger')
    /\ run_ops apply_array (mkPlane array_words) ops = Some (outcomes, mkPlane array_words')
    /\ run_ops apply_ring (mkPlane ring_words) ops = Some (outcomes, mkPlane ring_words')
    /\ ledger_ok ledger'
    /\ holds array_words' capacity 0 marks (segment_rows (flow_segments flow ledger'))
    /\ holds ring_words' capacity head'
         (Z.max high_water (Z.of_nat (peak flow capacity ledger ops)))
         (segment_rows (flow_segments flow ledger')).
Proof.
  revert ledger array_words ring_words head high_water.
  induction ops as [|op ops IH]; intros ledger aw rw head hw segs Hok Hcap Hfit Ha Hr Hw;
    subst segs.
  { exists [], ledger, aw, rw, head. simpl. by rewrite Z.max_l by done. }
  destruct Hfit as [Hop Hfit].
  destruct (ledger_apply_rows flow capacity ledger op Hok Hop Hcap)
    as (ledger' & Hl & Hok' & Hcap' & Hrows).
  pose proof (segments_default flow _ Hok) as Hs.
  destruct (apply_array_ok _ _ _ _ op Ha) as (aw' & Haw & Ha').
  destruct (apply_ring_ok _ _ _ _ _ op Hr) as (rw' & head' & Hrw & Hr').
  { by apply (segment_rows_ascending flow). }
  { by rewrite segment_rows_length. }
  rewrite <- Hrows in Ha', Hr'. rewrite segment_rows_length in Hr'.
  destruct (IH ledger' aw' rw' head' _ Hok' Hcap' (Hfit _ _ Hl) Ha' Hr')
    as (outcomes & lg & aw2 & rw2 & head2 & E1 & E2 & E3 & Hlg & Ha2 & Hr2); [lia|].
  eexists (_ :: outcomes), lg, aw2, rw2, head2. cbn [run_ops].
  rewrite Hl, Haw, Hrw. cbn [mbind option_bind]. rewrite E1, E2, E3. cbn [mbind option_bind].
  split_and!; [done..|]. cbn [peak]. rewrite Hl.
  replace (Z.max hw (Z.of_nat (Nat.max (length (flow_segments flow ledger))
                                 (peak flow capacity ledger' ops))))
    with (Z.max (Z.max hw (Z.of_nat (length (flow_segments flow ledger'))))
            (Z.of_nat (peak flow capacity ledger' ops))); [done|].
  pose proof (peak_ge flow capacity ledger' ops).
  lia.
Qed.

(** C27. The mirror of the device's TCP ledger keeps the executor's ledger. Seed a plane
    of [capacity] records with the segments of a flow and replay a trace of a sender's
    operations ([trace_fits]: every insertion repeats a filed sequence or covers bytes
    that are not filed, and no number leaves the 64-bit range) on the ring, on the
    shifting array it replaced and on the executor's ledger: all three run to the end
    without a panic, with the same outcomes (applied, over capacity, or conflicting
    size); ring and array decode to the same bytes, those of the ledger's segments in
    sequence order; and the ring's high-water word is the most segments the flow ever
    held. *)
Theorem ring_refines_ledger flow capacity ledger ops :
  ledger_ok ledger -> (length (flow_segments flow ledger) <= capacity)%nat ->
  trace_fits flow capacity ledger ops ->
  exists plane outcomes ledger' array ring,
    plane_seed capacity (segment_rows (flow_segments flow ledger)) = Some plane
    /\ run_ops (ledger_apply flow capacity) ledger ops = Some (outcomes, ledger')
    /\ run_ops apply_array plane ops = Some (outcomes, array)
    /\ run_ops apply_ring plane ops = Some (outcomes, ring)
    /\ canonical_bytes ring true
       = Some (mjoin (record_bytes <$> segment_rows (flow_segments flow ledger')))
    /\ canonical_bytes array false = canonical_bytes ring true
    /\ plane_meta ring LEDGER_META_COUNT = Some (length (flow_segments flow ledger'))
    /\ plane_meta ring LEDGER_META_HIGH_WATER = Some (peak flow capacity ledger ops).
Proof.
  intros Hok Hcap Hfit. pose proof (segments_default flow _ Hok) as Hs.
  destruct (plane_seed_ok capacity (segment_rows (flow_segments flow ledger)))
    as (words & Hseed & Hh).
  { by apply (segment_rows_uniform flow). }
  { by rewrite segment_rows_length. }
  rewrite segment_rows_length in Hh.
  destruct (trace_agrees flow capacity ops ledger words words 0 _ _ Hok Hcap Hfit Hh Hh)
    as (outcomes & ledger' & aw & rw & head & E1 & E2 & E3 & _ & Ha & Hr); [lia|].
  exists (mkPlane words), outcomes, ledger', (mkPlane aw), (mkPlane rw).
  rewrite (canonical_bytes_ok _ _ _ _ _ true Hr) by done.
  rewrite (canonical_bytes_ok _ _ _ _ _ false Ha) by done.
  destruct (holds_meta _ _ _ _ _ Hr) as (_ & _ & Hc & _ & Hwm).
  rewrite Hc, Hwm, segment_rows_length. split_and!; try done. f_equal.
  pose proof (peak_ge flow capacity ledger ops).
  lia.
Qed.

(** A sender that fills a two-record ring, is refused, is acknowledged inside its
    second segment, sends on and then repeats a sequence with another size. *)
Definition ring_example_ops : list LedgerOp :=
  [Insert 1 100 0 5 false; Insert 2 100 100 6 false; Insert 3 100 200 7 false;
   Acknowledge 150; Insert 3 100 200 8 false; Insert 4 60 200 9 true].

Lemma ring_example_fits : trace_fits 7 2 [] ring_example_ops.
Proof.
  unfold ring_example_ops.
  repeat (split; [|intros outcome ledger' H; vm_compute in H; injection H as <- <-]); [..|done];
    unfold op_fits, in_u64; repeat match goal with |- _ /\ _ => split end; try lia.
  all: try (left; vm_compute; by eexists).
  all: right; intros byte Hb (e & He & Hin); vm_compute in He;
    repeat (inversion He as [|? ? ? He']; clear He; [subst; unfold segment_end in Hin; simpl in Hin; lia|];
            subst; rename He' into He);
    inversion He.
Qed.

Lemma ring_refines_ledger_witness :
  (exists plane outcomes ledger' array ring,
    plane_seed 2 [] = Some plane
    /\ run_ops (ledger_apply 7 2) [] ring_example_ops = Some (outcomes, ledger')
    /\ run_ops apply_array plane ring_example_ops = Some (outcomes, array)
    /\ run_ops apply_ring plane ring_example_ops = Some (outcomes, ring)
    /\ canonical_bytes ring true
       = Some (mjoin (record_bytes <$> segment_rows (flow_segments 7 ledger')))
    /\ canonical_bytes array false = canonical_bytes ring true
    /\ plane_meta ring LEDGER_META_COUNT = Some (length (flow_segments 7 ledger'))
    /\ plane_meta ring LEDGER_META_HIGH_WATER = Some (peak 7 2 [] ring_example_ops))
  /\ fst <$> run_ops (ledger_apply 7 2) [] ring_example_ops
     = Some [Applied; Applied; CapacityExceeded 2 3; Applied; Applied; SizeConflict]
  /\ peak 7 2 [] ring_example_ops = 2%nat.
Proof.
  split; [|split; vm_compute; reflexivity].
  apply (ring_refines_ledger 7 2 [] ring_example_ops).
  - split; [constructor|]. intros flow segments H. discriminate H.
  - simpl. lia.
  - apply ring_example_fits.
Defined.

(** An insertion that overlaps a segment filed under another sequence is outside the
    contract: after its acknowledgment the ledger holds nothing, and the ring two
    records that are not in sequence order. *)
Theorem overlapping_insert_diverges :
  let ops := [Insert 1 200 0 5 false; Insert 2 20 50 6 false; Acknowledge 120] in
  exists plane ledger' ring,
    plane_seed 4 [] = Some plane
    /\ run_ops (ledger_apply 7 4) [] ops = Some ([Applied; Applied; Applied], ledger')
    /\ run_ops apply_ring plane ops = Some ([Applied; Applied; Applied], ring)
    /\ flow_segments 7 ledger' = []
    /\ canonical_bytes ring true
       = Some (mjoin (record_bytes <$> [record_words 1 80 120 5 false; record_words 2 20 50 6 false])).
Proof.
  intros ops. destruct (plane_seed 4 []) as [plane|] eqn:Ep; [|vm_compute in Ep; discriminate Ep].
  vm_compute in Ep. injection Ep as <-.
  destruct (run_ops (ledger_apply 7 4) [] ops) as [[outs ledger']|] eqn:El;
    [|vm_compute in El; discriminate El].
  match goal with |- context [Some ?plane = Some _] => destruct (run_ops apply_ring plane ops)
    as [[outs' ring]|] eqn:Er; [|vm_compute in Er; discriminate Er]; exists plane, ledger', ring end.
  vm_compute in El, Er. injection El as <- <-. injection Er as <- <-.
  split_and!; vm_compute; reflexivity.
Qed.
