(* ===== verification/DeviceScheduler.v ===== *)
(** * The device scheduler plane (executor/src/device_scheduler.rs)

    The planners write every switch queue's discipline and marking policy into a
    plane of words: 29 words per node, then an arena of marking records, class rows
    and finish tags that the node words point into. After a run the readback checks
    the immutable words and restores the rest. Both directions are modelled on the
    words, with their errors and with [None] for the panic of an index out of
    range. [usize] has 64 bits, so the conversions from [u64] do not fail.

    An exact rational is its reduced numerator and denominator; their base-[2^64]
    digits are those of [BigUint::to_u64_digits]. *)

From S2P Require Import Prelude Words OrdMap Event EcnRamp Model Image.

Definition RATIONAL_LIMBS : nat := 5.
Definition RATIONAL_WORDS : nat := 10.
Definition QUEUE_META_WORDS : nat := 5.

Definition SCHEDULER_NODE_WORDS : nat := 29.
Definition SCHEDULER_KIND : nat := 0.
Definition SCHEDULER_CLASS_COUNT : nat := 1.
Definition SCHEDULER_CLASS_OFFSET : nat := 2.
Definition SCHEDULER_QUEUE_TAG_OFFSET : nat := 3.
Definition SCHEDULER_LAST_UPDATED : nat := 4.
Definition SCHEDULER_VIRTUAL_TIME : nat := 5.
Definition SCHEDULER_IN_SERVICE_TAG : nat := 15.
Definition SCHEDULER_AQM_KIND : nat := 25.
Definition SCHEDULER_AQM_RECORD : nat := 26.
Definition SCHEDULER_AQM_CAPACITY : nat := 27.
Definition SCHEDULER_AQM_KMIN : nat := 28.

Definition AQM_RECORD_WORDS : nat := 4.

Definition SCHEDULER_CLASS_WORDS : nat := 12.
Definition SCHEDULER_CLASS_VALUE : nat := 0.
Definition SCHEDULER_CLASS_ACTIVE : nat := 1.
Definition SCHEDULER_CLASS_FINISH : nat := 2.

Definition NONE : Z := u64_max.

(** The messages of the codec's errors. *)
Inductive SchedulerPlaneError :=
  | MetadataSizeOverflows
  | ClassStateSizeOverflows
  | TagSizeOverflows
  | TagArenaOverflows
  | RationalTooLarge
  | RationalZeroDenominator
  | EcnSpanTooLarge
  | MissingFinishTag (payload : PayloadId)
  | MissingServiceTag (payload : PayloadId)
  | NodeOffsetOverflows
  | MetadataTruncated
  | KindDisagrees (encoded checkpoint : Z)
  | AdmissionPolicyChanged
  | EcnConfigurationChanged
  | ClassCountChanged
  | ClassOffsetOverflows
  | ClassValueChanged (class : nat)
  | TagOffsetOverflows.

Abbreviation plane_result := (fueled SchedulerPlaneError) (only parsing).

(** ** Rationals *)

(** The base-[2^64] digits of a natural number, least first, no leading zero. *)
Fixpoint digits_from (fuel : nat) (n : Z) : list Z :=
  match fuel with
  | O => []
  | S fuel => if n <=? 0 then [] else n mod u64_modulus :: digits_from fuel (n / u64_modulus)
  end.

Definition to_u64_digits (n : Z) : list Z := digits_from (Z.to_nat (Z.log2 n / 64 + 1)) n.

(** [BigUint::new]: base-[2^32] digits, least first. *)
Definition from_u32_digits (digits : list Z) : Z :=
  foldr (fun digit rest => digit + 4294967296 * rest) 0 digits.

Definition write_zero (words : list Z) (offset : nat) : option (list Z) :=
  words ← write_record offset (replicate RATIONAL_WORDS 0) words;
  write_word (offset + RATIONAL_LIMBS) 1 words.

Definition write_rational (words : list Z) (offset : nat) (value : ExactRational)
  : plane_result (list Z) :=
  words ← or_panic (write_record offset (replicate RATIONAL_WORDS 0) words);
  let numerator := to_u64_digits (Qnum value) in
  let denominator := to_u64_digits (Zpos (Qden value)) in
  if (RATIONAL_LIMBS <? length numerator)%nat || (RATIONAL_LIMBS <? length denominator)%nat
  then lift_result (Err RationalTooLarge)
  else
    words ← or_panic (write_record offset numerator words);
    or_panic (write_record (offset + RATIONAL_LIMBS) denominator words).

Definition read_limbs (words : list Z) (offset : nat) : option Z :=
  limbs ← read_slice words offset RATIONAL_LIMBS;
  Some (from_u32_digits
    (mjoin ((fun word => [word mod 4294967296; Z.shiftr word 32 mod 4294967296]) <$> limbs))).

Definition read_rational (words : list Z) (offset : nat) : plane_result ExactRational :=
  numerator ← or_panic (read_limbs words offset);
  denominator ← or_panic (read_limbs words (offset + RATIONAL_LIMBS));
  match denominator with
  | Zpos denominator => lift_result (Ok (Qmake numerator denominator))
  | _ => lift_result (Err RationalZeroDenominator)
  end.

(** The marking record of a switch. *)
Definition ecn_record (policy : EcnRampPolicy) (seed node : Z)
  : result SchedulerPlaneError (list Z) :=
  span ← ok_or (ecn_ramp_span policy) EcnSpanTooLarge;
  Ok [kmax_bytes policy; pmax_numerator policy; span; ecn_queue_key seed node 0].

(** ** Planning *)

(** [words.resize(base + 12, 0)] and a zero finish time; the row's position. *)
Definition append_class (words : list Z) : plane_result (nat * list Z) :=
  let base := length words in
  _ ← lift_result (ok_or (checked_add (Z.of_nat base) (Z.of_nat SCHEDULER_CLASS_WORDS))
                     ClassStateSizeOverflows);
  words ← or_panic (write_zero (words ++ replicate SCHEDULER_CLASS_WORDS 0)
                      (base + SCHEDULER_CLASS_FINISH));
  lift_result (Ok (base, words)).

Definition prepare_drop_mark (image : SimulationImage) (node : NodeDescriptor) (node_base : nat)
    (queue : SwitchQueueState) (words : list Z) : plane_result (list Z) :=
  match sq_drop_mark queue with
  | TailDrop => lift_result (Ok words)
  | EcnRampMark policy =>
      words ← or_panic (write_word (node_base + SCHEDULER_AQM_KIND) 1 words);
      words ← or_panic (write_word (node_base + SCHEDULER_AQM_RECORD)
                          (Z.of_nat (length words)) words);
      words ← or_panic (write_word (node_base + SCHEDULER_AQM_CAPACITY)
                          (capacity_bytes policy) words);
      words ← or_panic (write_word (node_base + SCHEDULER_AQM_KMIN) (kmin_bytes policy) words);
      record ← lift_result (ecn_record policy (im_seed image) (nd_id node));
      lift_result (Ok (words ++ record))
  end.

(** A class row with its value and its second word. *)
Definition prepare_class (words : list Z) (row : Z * Z) : plane_result (list Z) :=
  '(class_base, words) ← append_class words;
  words ← or_panic (write_word (class_base + SCHEDULER_CLASS_VALUE) row.1 words);
  or_panic (write_word (class_base + SCHEDULER_CLASS_ACTIVE) row.2 words).

Definition prepare_priority (words : list Z) (priority : Z) : plane_result (list Z) :=
  '(class_base, words) ← append_class words;
  or_panic (write_word (class_base + SCHEDULER_CLASS_VALUE) priority words).

Definition prepare_wfq_class (state : WfqSchedulerState) (words : list Z) (indexed : nat * Z)
  : plane_result (list Z) :=
  let '(class, weight) := indexed in
  '(class_base, words) ← append_class words;
  words ← or_panic (write_word (class_base + SCHEDULER_CLASS_VALUE) weight words);
  active ← or_panic (wfq_active_packets state !! class);
  words ← or_panic (write_word (class_base + SCHEDULER_CLASS_ACTIVE) active words);
  finish ← or_panic (wfq_finish_times state !! class);
  write_rational words (class_base + SCHEDULER_CLASS_FINISH) finish.

(** The finish tags of the queued packets, in the ring slots of the queue. *)
Definition prepare_tags (state : WfqSchedulerState) (queue : SwitchQueueState)
    (capacity head tag_offset : nat) (words : list Z) : plane_result (list Z) :=
  words ← or_panic (option_fold (fun words physical =>
            write_zero words (tag_offset + physical * RATIONAL_WORDS)) words (seq 0 capacity));
  fueled_fold (fun words (indexed : nat * PayloadId) =>
      let '(logical, payload) := indexed in
      let physical := ((head + logical) mod Nat.max capacity 1)%nat in
      finish ← lift_result (ok_or (bm_get payload (wfq_packet_finish_times state))
                              (MissingFinishTag payload));
      write_rational words (tag_offset + physical * RATIONAL_WORDS) finish)
    words (imap pair (sq_queue queue)).

Definition prepare_wfq (queue_meta : list Z) (slot node_base : nat) (queue : SwitchQueueState)
    (state : WfqSchedulerState) (words : list Z) : plane_result (list Z) :=
  words ← or_panic (write_word (node_base + SCHEDULER_CLASS_COUNT)
                      (Z.of_nat (length (wfq_weights state))) words);
  words ← or_panic (write_word (node_base + SCHEDULER_CLASS_OFFSET)
                      (Z.of_nat (length words)) words);
  words ← or_panic (write_word (node_base + SCHEDULER_LAST_UPDATED)
                      (wfq_last_updated_ns state) words);
  words ← write_rational words (node_base + SCHEDULER_VIRTUAL_TIME) (wfq_virtual_time state);
  words ← fueled_fold (prepare_wfq_class state) words (imap pair (wfq_weights state));
  let queue_base := (slot * QUEUE_META_WORDS)%nat in
  capacity ← or_panic (Z.to_nat <$> queue_meta !! (queue_base + 1)%nat);
  head ← or_panic (Z.to_nat <$> queue_meta !! (queue_base + 2)%nat);
  let tag_offset := length words in
  words ← or_panic (write_word (node_base + SCHEDULER_QUEUE_TAG_OFFSET)
                      (Z.of_nat tag_offset) words);
  tag_words ← lift_result (ok_or (checked_mul (Z.of_nat capacity) (Z.of_nat RATIONAL_WORDS))
                             TagSizeOverflows);
  _ ← lift_result (ok_or (checked_add (Z.of_nat (length words)) tag_words) TagArenaOverflows);
  words ← prepare_tags state queue capacity head tag_offset
            (words ++ replicate (Z.to_nat tag_words) 0);
  match sq_in_service queue with
  | Some payload =>
      finish ← lift_result (ok_or (bm_get payload (wfq_packet_finish_times state))
                              (MissingServiceTag payload));
      write_rational words (node_base + SCHEDULER_IN_SERVICE_TAG) finish
  | None => lift_result (Ok words)
  end.

(** DRR and WRR: a class cursor, and a value with a counter per class. *)
Definition prepare_round_robin (node_base : nat) (values counters : list Z) (current : Z)
    (words : list Z) : plane_result (list Z) :=
  words ← or_panic (write_word (node_base + SCHEDULER_CLASS_COUNT)
                      (Z.of_nat (length values)) words);
  words ← or_panic (write_word (node_base + SCHEDULER_CLASS_OFFSET)
                      (Z.of_nat (length words)) words);
  words ← or_panic (write_word (node_base + SCHEDULER_LAST_UPDATED) current words);
  fueled_fold prepare_class words (zip values counters).

Definition prepare_scheduler (queue_meta : list Z) (slot node_base : nat)
    (queue : SwitchQueueState) (words : list Z) : plane_result (list Z) :=
  match sq_scheduler queue with
  | Fifo => lift_result (Ok words)
  | StaticPriority priorities =>
      words ← or_panic (write_word (node_base + SCHEDULER_CLASS_COUNT)
                          (Z.of_nat (length priorities)) words);
      words ← or_panic (write_word (node_base + SCHEDULER_CLASS_OFFSET)
                          (Z.of_nat (length words)) words);
      fueled_fold prepare_priority words priorities
  | WeightedFairQueue state => prepare_wfq queue_meta slot node_base queue state words
  | DeficitRoundRobin state =>
      prepare_round_robin node_base (drr_quanta_bytes state) (drr_deficits_bytes state)
        (drr_current_class state) words
  | WeightedRoundRobin state =>
      prepare_round_robin node_base (wrr_weights state) (wrr_packets_sent_in_round state)
        (wrr_current_class state) words
  end.

Definition prepare_node (image : SimulationImage) (queue_meta : list Z) (words : list Z)
    (node : NodeDescriptor) : plane_result (list Z) :=
  let slot := Z.to_nat (nd_id node) in
  let node_base := (slot * SCHEDULER_NODE_WORDS)%nat in
  words ← or_panic (write_word (node_base + SCHEDULER_CLASS_OFFSET) NONE words);
  words ← or_panic (write_word (node_base + SCHEDULER_QUEUE_TAG_OFFSET) NONE words);
  words ← or_panic (write_zero words (node_base + SCHEDULER_VIRTUAL_TIME));
  words ← or_panic (write_zero words (node_base + SCHEDULER_IN_SERVICE_TAG));
  match nd_kind node with
  | Host => lift_result (Ok words)
  | Switch =>
      state ← or_panic (im_switch_states image !! Z.to_nat (nd_state_slot node));
      match sw_queues state with
      | [] => lift_result (Ok words)
      | queue :: _ =>
          words ← prepare_drop_mark image node node_base queue words;
          words ← or_panic (write_word (node_base + SCHEDULER_KIND)
                              (scheduler_code (sq_scheduler queue)) words);
          prepare_scheduler queue_meta slot node_base queue words
      end
  end.

Definition prepare_device_schedulers (image : SimulationImage) (queue_meta : list Z)
  : plane_result (list Z) :=
  fixed_words ← lift_result (ok_or (checked_mul (Z.of_nat (length (im_nodes image)))
                                      (Z.of_nat SCHEDULER_NODE_WORDS)) MetadataSizeOverflows);
  fueled_fold (prepare_node image queue_meta) (replicate (Z.to_nat fixed_words) 0) (im_nodes image).

(** ** Readback *)

(** The marking policy is image data: it is checked, not restored. *)
Definition check_drop_mark (node_base node : nat) (seed : Z) (words : list Z)
    (queue : SwitchQueueState) : plane_result unit :=
  match sq_drop_mark queue with
  | TailDrop =>
      aqm_kind ← or_panic (words !! (node_base + SCHEDULER_AQM_KIND)%nat);
      if negb (aqm_kind =? 0) then lift_result (Err AdmissionPolicyChanged)
      else lift_result (Ok tt)
  | EcnRampMark policy =>
      record ← or_panic (words !! (node_base + SCHEDULER_AQM_RECORD)%nat);
      expected ← lift_result (ecn_record policy seed (Z.of_nat node));
      aqm_kind ← or_panic (words !! (node_base + SCHEDULER_AQM_KIND)%nat);
      capacity ← or_panic (words !! (node_base + SCHEDULER_AQM_CAPACITY)%nat);
      kmin ← or_panic (words !! (node_base + SCHEDULER_AQM_KMIN)%nat);
      if negb (aqm_kind =? 1) || negb (capacity =? capacity_bytes policy)
         || negb (kmin =? kmin_bytes policy)
         || negb (bool_decide
                    (read_slice words (Z.to_nat record) AQM_RECORD_WORDS = Some expected))
      then lift_result (Err EcnConfigurationChanged) else lift_result (Ok tt)
  end.

(** The class count and the position of the class rows. *)
Definition read_class_table (node_base : nat) (words : list Z) (classes : nat)
  : plane_result nat :=
  class_count ← or_panic (words !! (node_base + SCHEDULER_CLASS_COUNT)%nat);
  if negb (class_count =? Z.of_nat classes) then lift_result (Err ClassCountChanged)
  else or_panic (Z.to_nat <$> words !! (node_base + SCHEDULER_CLASS_OFFSET)%nat).

(** The position of a class row, after its immutable word is checked. *)
Definition check_class (class_offset : nat) (words : list Z) (class : nat) (value : Z)
  : plane_result nat :=
  class_base ← lift_result (ok_or (checked_add (Z.of_nat class_offset)
                                     (Z.of_nat (class * SCHEDULER_CLASS_WORDS)))
                              ClassOffsetOverflows);
  encoded ← or_panic (words !! (Z.to_nat class_base + SCHEDULER_CLASS_VALUE)%nat);
  if negb (encoded =? value) then lift_result (Err (ClassValueChanged class))
  else lift_result (Ok (Z.to_nat class_base)).

(** DRR's deficits and WRR's counts of the round. *)
Definition restore_counter (class_offset : nat) (words : list Z) (counters : list Z)
    (indexed : nat * Z) : plane_result (list Z) :=
  let '(class, value) := indexed in
  class_base ← check_class class_offset words class value;
  counter ← or_panic (words !! (class_base + SCHEDULER_CLASS_ACTIVE)%nat);
  or_panic (write_word class counter counters).

Definition restore_round_robin (node_base : nat) (words : list Z) (values counters : list Z)
  : plane_result (Z * list Z) :=
  class_offset ← read_class_table node_base words (length values);
  current ← or_panic (words !! (node_base + SCHEDULER_LAST_UPDATED)%nat);
  counters ← fueled_fold (restore_counter class_offset words) counters (imap pair values);
  lift_result (Ok (current, counters)).

Definition restore_wfq_class (class_offset : nat) (words : list Z) (state : WfqSchedulerState)
    (indexed : nat * Z) : plane_result WfqSchedulerState :=
  let '(class, weight) := indexed in
  class_base ← check_class class_offset words class weight;
  active ← or_panic (words !! (class_base + SCHEDULER_CLASS_ACTIVE)%nat);
  active_packets ← or_panic (write_word class active (wfq_active_packets state));
  finish ← read_rational words (class_base + SCHEDULER_CLASS_FINISH);
  if (class <? length (wfq_finish_times state))%nat
  then lift_result (Ok (state <| wfq_active_packets := active_packets |>
                              <| wfq_finish_times ::= <[class := finish]> |>))
  else None.

Definition restore_tag (capacity head tag_offset : nat) (words : list Z)
    (state : WfqSchedulerState) (indexed : nat * PayloadId) : plane_result WfqSchedulerState :=
  let '(logical, payload) := indexed in
  let physical := ((head + logical) mod Nat.max capacity 1)%nat in
  offset ← lift_result (ok_or (checked_add (Z.of_nat tag_offset)
                                 (Z.of_nat (physical * RATIONAL_WORDS))) TagOffsetOverflows);
  finish ← read_rational words (Z.to_nat offset);
  lift_result (Ok (state <| wfq_packet_finish_times ::= bm_insert payload finish |>)).

Definition restore_wfq (node_base node : nat) (queue_meta words : list Z)
    (queue : SwitchQueueState) (state : WfqSchedulerState) : plane_result WfqSchedulerState :=
  class_offset ← read_class_table node_base words (length (wfq_weights state));
  virtual_time ← read_rational words (node_base + SCHEDULER_VIRTUAL_TIME);
  last_updated ← or_panic (words !! (node_base + SCHEDULER_LAST_UPDATED)%nat);
  state ← fueled_fold (restore_wfq_class class_offset words)
            (state <| wfq_virtual_time := virtual_time |> <| wfq_last_updated_ns := last_updated |>)
            (imap pair (wfq_weights state));
  let state := state <| wfq_packet_finish_times := [] |> in
  let queue_base := (node * QUEUE_META_WORDS)%nat in
  capacity ← or_panic (Z.to_nat <$> queue_meta !! (queue_base + 1)%nat);
  head ← or_panic (Z.to_nat <$> queue_meta !! (queue_base + 2)%nat);
  tag_offset ← or_panic (Z.to_nat <$> words !! (node_base + SCHEDULER_QUEUE_TAG_OFFSET)%nat);
  state ← fueled_fold (restore_tag capacity head tag_offset words) state
            (imap pair (sq_queue queue));
  match sq_in_service queue with
  | Some payload =>
      finish ← read_rational words (node_base + SCHEDULER_IN_SERVICE_TAG);
      lift_result (Ok (state <| wfq_packet_finish_times ::= bm_insert payload finish |>))
  | None => lift_result (Ok state)
  end.

Definition restore_scheduler (node_base node : nat) (queue_meta words : list Z)
    (queue : SwitchQueueState) : plane_result SchedulerKind :=
  match sq_scheduler queue with
  | Fifo => lift_result (Ok Fifo)
  | StaticPriority priorities => lift_result (Ok (StaticPriority priorities))
  | WeightedFairQueue state =>
      state ← restore_wfq node_base node queue_meta words queue state;
      lift_result (Ok (WeightedFairQueue state))
  | DeficitRoundRobin state =>
      '(current, deficits) ←
        restore_round_robin node_base words (drr_quanta_bytes state) (drr_deficits_bytes state);
      lift_result (Ok (DeficitRoundRobin (state <| drr_current_class := current |>
                                                <| drr_deficits_bytes := deficits |>)))
  | WeightedRoundRobin state =>
      '(current, sent) ←
        restore_round_robin node_base words (wrr_weights state) (wrr_packets_sent_in_round state);
      lift_result (Ok (WeightedRoundRobin (state <| wrr_current_class := current |>
                                                 <| wrr_packets_sent_in_round := sent |>)))
  end.

Definition restore_device_scheduler (node : nat) (seed : Z) (queue_meta words : list Z)
    (queue : SwitchQueueState) : plane_result SwitchQueueState :=
  node_base ← lift_result (ok_or (checked_mul (Z.of_nat node) (Z.of_nat SCHEDULER_NODE_WORDS))
                             NodeOffsetOverflows);
  let node_base := Z.to_nat node_base in
  encoded_kind ← lift_result (ok_or (words !! (node_base + SCHEDULER_KIND)%nat) MetadataTruncated);
  if negb (encoded_kind =? scheduler_code (sq_scheduler queue))
  then lift_result (Err (KindDisagrees encoded_kind (scheduler_code (sq_scheduler queue))))
  else
    _ ← check_drop_mark node_base node seed words queue;
    scheduler ← restore_scheduler node_base node queue_meta words queue;
    lift_result (Ok (queue <| sq_scheduler := scheduler |>)).

(** ** Digits *)

Definition limbs_value (limbs : list Z) : Z :=
  foldr (fun limb rest => limb + u64_modulus * rest) 0 limbs.

Lemma digits_from_spec fuel n : 0 <= n < 2 ^ (64 * Z.of_nat fuel) ->
  limbs_value (digits_from fuel n) = n /\ Forall (fun d => 0 <= d < u64_modulus) (digits_from fuel n).
Proof.
  revert n. induction fuel as [|fuel IH]; intros n Hn.
  { simpl in *. split; [lia|constructor]. }
  cbn [digits_from]. destruct (Z.leb_spec n 0) as [Hz|Hz]; [split; [simpl; lia|constructor]|].
  pose proof (Z.div_mod n u64_modulus ltac:(lia)) as Hd.
  pose proof (Z.mod_pos_bound n u64_modulus ltac:(lia)) as Hm.
  replace (64 * Z.of_nat (S fuel)) with (64 + 64 * Z.of_nat fuel) in Hn by lia.
  rewrite Z.pow_add_r in Hn by lia. change (2 ^ 64) with u64_modulus in Hn.
  destruct (IH (n / u64_modulus)) as [Hv Hf].
  { split; [apply Z.div_pos; lia|]. apply Z.div_lt_upper_bound; lia. }
  split; [|by constructor]. cbn [limbs_value foldr]. fold (limbs_value (digits_from fuel (n / u64_modulus))).
  rewrite Hv. lia.
Qed.

Lemma to_u64_digits_spec n : 0 <= n ->
  limbs_value (to_u64_digits n) = n /\ Forall (fun d => 0 <= d < u64_modulus) (to_u64_digits n).
Proof.
  intros Hn. apply digits_from_spec. split; [done|].
  pose proof (Z.log2_nonneg n). assert (0 <= Z.log2 n / 64) by (apply Z.div_pos; lia).
  rewrite Z2Nat.id by lia. destruct (decide (n = 0)) as [->|Hne]; [by vm_compute|].
  pose proof (Z.log2_spec n ltac:(lia)) as [_ Hlt]. eapply Z.lt_le_trans; [exact Hlt|].
  apply Z.pow_le_mono_r; [lia|]. pose proof (Z.div_mod (Z.log2 n) 64 ltac:(lia)).
  pose proof (Z.mod_pos_bound (Z.log2 n) 64 ltac:(lia)). lia.
Qed.

(** Zero limbs above a number do not change it. *)
Definition padded (limbs : list Z) : list Z :=
  limbs ++ replicate (RATIONAL_LIMBS - length limbs) 0.

Lemma limbs_value_padded limbs : limbs_value (padded limbs) = limbs_value limbs.
Proof.
  unfold padded. generalize (RATIONAL_LIMBS - length limbs)%nat as k. intros k.
  induction limbs as [|d limbs IH]; simpl; [|by rewrite IH].
  induction k as [|k IH]; simpl; [done|]. rewrite IH. lia.
Qed.

(** The halves of 64-bit limbs are the 32-bit digits. *)
Lemma from_halves limbs : Forall (fun d => 0 <= d < u64_modulus) limbs ->
  from_u32_digits
    (mjoin ((fun word => [word mod 4294967296; Z.shiftr word 32 mod 4294967296]) <$> limbs))
  = limbs_value limbs.
Proof.
  induction 1 as [|d limbs Hd _ IH]; [done|].
  change (d mod 4294967296 + 4294967296 * (Z.shiftr d 32 mod 4294967296 + 4294967296 *
    from_u32_digits
      (mjoin ((fun word => [word mod 4294967296; Z.shiftr word 32 mod 4294967296]) <$> limbs)))
    = d + u64_modulus * limbs_value limbs).
  rewrite IH.
  rewrite Z.shiftr_div_pow2 by lia. change (2 ^ 32) with 4294967296.
  rewrite (Z.mod_small (d / 4294967296)).
  - pose proof (Z.div_mod d 4294967296 ltac:(lia)). lia.
  - split; [apply Z.div_pos; lia|]. apply Z.div_lt_upper_bound; lia.
Qed.

(** A rational of at most 320 bits over 320 bits. *)
Record rational_fits (value : ExactRational) : Prop := {
  rf_nonneg : 0 <= Qnum value;
  rf_numerator : (length (to_u64_digits (Qnum value)) <= RATIONAL_LIMBS)%nat;
  rf_denominator : (length (to_u64_digits (Zpos (Qden value))) <= RATIONAL_LIMBS)%nat;
}.

Definition rational_words (value : ExactRational) : list Z :=
  padded (to_u64_digits (Qnum value)) ++ padded (to_u64_digits (Zpos (Qden value))).

Definition zero_words : list Z := [0; 0; 0; 0; 0; 1; 0; 0; 0; 0].

Lemma padded_length limbs : (length limbs <= RATIONAL_LIMBS)%nat -> length (padded limbs) = 5%nat.
Proof. intros H. unfold padded, RATIONAL_LIMBS in *. rewrite length_app, length_replicate. lia. Qed.

Lemma rational_words_length value : rational_fits value -> length (rational_words value) = 10%nat.
Proof.
  intros [_ Hn Hd]. unfold rational_words. by rewrite length_app, !padded_length.
Qed.

Lemma write_zero_window pre mid post k : (k + 10 <= length mid)%nat ->
  write_zero (pre ++ mid ++ post) (length pre + k)
  = Some (pre ++ splice k zero_words mid ++ post).
Proof.
  intros Hk. unfold write_zero. rewrite window_write_record by (rewrite length_replicate; done).
  cbn [mbind option_bind]. rewrite <- Nat.add_assoc.
  rewrite window_write_word; [|rewrite splice_length; [unfold RATIONAL_LIMBS; lia|done]].
  rewrite splice_insert by (rewrite ?length_replicate; unfold RATIONAL_LIMBS, RATIONAL_WORDS; lia).
  done.
Qed.

Lemma write_rational_window pre mid post k value : rational_fits value -> (k + 10 <= length mid)%nat ->
  write_rational (pre ++ mid ++ post) (length pre + k) value
  = Some (Ok (pre ++ splice k (rational_words value) mid ++ post)).
Proof.
  intros [Hnn Hn Hd] Hk. unfold write_rational.
  rewrite window_write_record by (rewrite length_replicate; done). cbn [or_panic mbind fueled_bind].
  rewrite (proj2 (Nat.ltb_ge _ _)), (proj2 (Nat.ltb_ge _ _)) by done. cbn [orb].
  unfold RATIONAL_LIMBS, RATIONAL_WORDS in *.
  set (num := to_u64_digits (Qnum value)) in *. set (den := to_u64_digits (Zpos (Qden value))) in *.
  rewrite window_write_record by (rewrite splice_length; [lia|rewrite length_replicate; lia]).
  cbn [or_panic mbind fueled_bind].
  rewrite splice_over by (rewrite ?length_replicate; lia).
  assert (H10 : length (splice 0 num (replicate 10 0)) = 10%nat).
  { rewrite splice_length; rewrite length_replicate; [done|lia]. }
  rewrite <- Nat.add_assoc. rewrite window_write_record by (rewrite splice_length; lia).
  rewrite splice_splice by lia. cbn [or_panic]. do 5 f_equal.
  unfold rational_words, padded, splice, RATIONAL_LIMBS. fold num den.
  rewrite take_0, app_nil_l, Nat.add_0_l, drop_replicate, take_app_ge, take_replicate by done.
  rewrite drop_app_ge, drop_replicate by lia. rewrite <- !app_assoc.
  do 2 f_equal; [f_equal; lia|]. do 2 f_equal. lia.
Qed.

Lemma read_rational_window pre mid post k value : rational_fits value -> (k + 10 <= length mid)%nat ->
  take 10 (drop k mid) = rational_words value ->
  read_rational (pre ++ mid ++ post) (length pre + k) = Some (Ok value).
Proof.
  intros Hfit Hk Hm. pose proof Hfit as [Hnn Hn Hd]. unfold read_rational, read_limbs.
  rewrite <- Nat.add_assoc. unfold RATIONAL_LIMBS. rewrite !window_read_slice by lia.
  assert (H1 : take 5 (drop k mid) = padded (to_u64_digits (Qnum value))).
  { replace (take 5 (drop k mid)) with (take 5 (take 10 (drop k mid))) by (by rewrite take_take).
    rewrite Hm. unfold rational_words. by rewrite take_app_length' by by rewrite padded_length. }
  assert (H2 : take 5 (drop (k + 5) mid) = padded (to_u64_digits (Zpos (Qden value)))).
  { rewrite <- drop_drop. replace (take 5 (drop 5 (drop k mid)))
      with (drop 5 (take 10 (drop k mid))) by (by rewrite (take_drop_commute (drop k mid) 5 5)).
    rewrite Hm. unfold rational_words. by rewrite drop_app_length' by by rewrite padded_length. }
  rewrite H1, H2. cbn [mbind option_bind or_panic fueled_bind].
  destruct (to_u64_digits_spec (Qnum value) Hnn) as [Vn Fn].
  destruct (to_u64_digits_spec (Zpos (Qden value)) ltac:(lia)) as [Vd Fd].
  assert (Hpad : forall l, Forall (fun d => 0 <= d < u64_modulus) l ->
            Forall (fun d => 0 <= d < u64_modulus) (padded l)).
  { intros l Hl. unfold padded. apply Forall_app. split; [done|]. apply Forall_replicate. lia. }
  rewrite !from_halves, !limbs_value_padded, Vn, Vd by auto. by destruct value.
Qed.
