(* ===== verification/DevicePlane.v ===== *)
(** * The scheduler plane restores what it was planned from

    The words DeviceScheduler.v plans have a closed form: one block of 29 words per
    node, then every node's arena in node order. On that form the readback returns
    each queue as it was. *)

From S2P Require Import Prelude Words OrdMap Event EcnRamp Model Image DeviceScheduler.

(** ** Rows and blocks *)

Definition class_row (value active : Z) (finish : list Z) : list Z := [value; active] ++ finish.

Lemma append_class_eq words : Z.of_nat (length words) + 12 <= u64_max ->
  append_class words = Some (Ok (length words, words ++ class_row 0 0 zero_words)).
Proof.
  intros Hl. unfold append_class, checked_add. change (Z.of_nat SCHEDULER_CLASS_WORDS) with 12.
  rewrite (proj2 (Z.leb_le _ _)) by done. cbn [ok_or lift_result mbind fueled_bind].
  pose proof (write_zero_window words (replicate SCHEDULER_CLASS_WORDS 0) [] 2 ltac:(simpl; lia)) as H.
  rewrite app_nil_r in H. unfold SCHEDULER_CLASS_FINISH. rewrite H. cbn [or_panic mbind fueled_bind].
  simpl. done.
Qed.

(** Writing into the row just appended. *)
Lemma last_row_write words (row : list Z) k v : (k < length row)%nat ->
  write_word (length words + k) v (words ++ row) = Some (words ++ <[k := v]> row).
Proof.
  intros Hk. pose proof (window_write_word words row [] k v Hk) as H. by rewrite !app_nil_r in H.
Qed.

Lemma prepare_class_eq words row : Z.of_nat (length words) + 12 <= u64_max ->
  prepare_class words row = Some (Ok (words ++ class_row row.1 row.2 zero_words)).
Proof.
  intros Hl. unfold prepare_class. rewrite append_class_eq by done. cbn [mbind fueled_bind].
  rewrite last_row_write by (cbv; lia). cbn [or_panic mbind fueled_bind].
  rewrite last_row_write by (cbv; lia). done.
Qed.

Lemma prepare_priority_eq words priority : Z.of_nat (length words) + 12 <= u64_max ->
  prepare_priority words priority = Some (Ok (words ++ class_row priority 0 zero_words)).
Proof.
  intros Hl. unfold prepare_priority. rewrite append_class_eq by done. cbn [mbind fueled_bind].
  by rewrite last_row_write by (cbv; lia).
Qed.

Lemma prepare_wfq_class_eq state words class weight active finish :
  Z.of_nat (length words) + 12 <= u64_max ->
  wfq_active_packets state !! class = Some active -> wfq_finish_times state !! class = Some finish ->
  rational_fits finish ->
  prepare_wfq_class state words (class, weight)
  = Some (Ok (words ++ class_row weight active (rational_words finish))).
Proof.
  intros Hl Ha Hf Hfit. unfold prepare_wfq_class. rewrite append_class_eq by done.
  cbn [mbind fueled_bind]. rewrite last_row_write by (cbv; lia). cbn [or_panic mbind fueled_bind].
  rewrite Ha. cbn [or_panic mbind fueled_bind]. rewrite last_row_write by (cbv; lia).
  rewrite Hf. cbn [or_panic mbind fueled_bind].
  pose proof (write_rational_window words (class_row weight active zero_words) [] 2 finish Hfit
    ltac:(simpl; lia)) as H.
  rewrite !app_nil_r in H. etrans; [exact H|]. do 3 f_equal. unfold splice.
  rewrite rational_words_length by done. simpl. by rewrite app_nil_r.
Qed.

(** A loop that appends one piece per element. *)
Lemma append_fold {B} (f : list Z -> B -> fueled SchedulerPlaneError (list Z)) (g : B -> list Z)
    (l : list B) words :
  (forall words x, x ∈ l -> Z.of_nat (length words) + Z.of_nat (length (g x)) <= u64_max ->
     f words x = Some (Ok (words ++ g x))) ->
  Z.of_nat (length words) + Z.of_nat (length (mjoin (g <$> l))) <= u64_max ->
  fueled_fold f words l = Some (Ok (words ++ mjoin (g <$> l))).
Proof.
  revert words. induction l as [|x l IH]; intros words Hf Hl; [simpl; by rewrite app_nil_r|].
  change (mjoin (g <$> x :: l)) with (g x ++ mjoin (g <$> l)) in *. rewrite length_app in Hl.
  cbn [fueled_fold]. rewrite Hf; [|by left|lia]. cbn [mbind fueled_bind]. rewrite IH.
  - by rewrite app_assoc.
  - intros ws y Hy. apply Hf. by right.
  - rewrite length_app. lia.
Qed.

(** ** Tags *)

Definition physical_slot (capacity head logical : nat) : nat :=
  ((head + logical) mod Nat.max capacity 1)%nat.

Definition tag_of (state : WfqSchedulerState) (payload : PayloadId) : ExactRational :=
  default 0%Q (bm_get payload (wfq_packet_finish_times state)).

Definition tag_rows (state : WfqSchedulerState) (queue : list PayloadId) (capacity head : nat)
  : list (list Z) :=
  foldl (fun rows (indexed : nat * PayloadId) =>
      <[physical_slot capacity head indexed.1 := rational_words (tag_of state indexed.2)]> rows)
    (replicate capacity zero_words) (imap pair queue).

Lemma imap_pair_snoc {A} (l : list A) x : imap pair (l ++ [x]) = imap pair l ++ [(length l, x)].
Proof. rewrite imap_app. simpl. by rewrite Nat.add_0_r. Qed.

Lemma tag_rows_snoc state queue payload capacity head :
  tag_rows state (queue ++ [payload]) capacity head
  = <[physical_slot capacity head (length queue) := rational_words (tag_of state payload)]>
      (tag_rows state queue capacity head).
Proof. unfold tag_rows. rewrite imap_pair_snoc, foldl_app. done. Qed.

Lemma tag_rows_length state queue capacity head :
  length (tag_rows state queue capacity head) = capacity.
Proof.
  induction queue as [|p queue IH] using rev_ind; [apply length_replicate|].
  by rewrite tag_rows_snoc, length_insert.
Qed.

(** Logical positions of a queue that fits its ring have their own slots. *)
Lemma physical_slot_inj capacity head i j : (i < capacity)%nat -> (j < capacity)%nat ->
  physical_slot capacity head i = physical_slot capacity head j -> i = j.
Proof.
  unfold physical_slot. intros Hi Hj He. rewrite Nat.max_l in He by lia.
  pose proof (Nat.div_mod_eq (head + i) capacity). pose proof (Nat.div_mod_eq (head + j) capacity).
  assert ((head + i) / capacity = (head + j) / capacity)%nat; [|nia].
  destruct (Nat.lt_trichotomy ((head + i) / capacity) ((head + j) / capacity)) as [?|[?|?]];
    [|done|]; nia.
Qed.

Lemma physical_slot_lt capacity head i : (0 < capacity)%nat ->
  (physical_slot capacity head i < capacity)%nat.
Proof. intros H. unfold physical_slot. rewrite Nat.max_l by lia. apply Nat.mod_upper_bound. lia. Qed.

Lemma tag_rows_lookup state queue capacity head i payload : (length queue <= capacity)%nat ->
  queue !! i = Some payload ->
  tag_rows state queue capacity head !! physical_slot capacity head i
  = Some (rational_words (tag_of state payload)).
Proof.
  induction queue as [|p queue IH] using rev_ind; [done|]. rewrite length_app. simpl. intros Hc Hi.
  rewrite tag_rows_snoc. apply lookup_app_Some in Hi as [Hi|[Hge Hi]].
  - pose proof (lookup_lt_Some _ _ _ Hi). rewrite list_lookup_insert_ne; [apply IH; [lia|done]|].
    intros He%physical_slot_inj; lia.
  - apply list_lookup_singleton_Some in Hi as [Hz <-].
    replace i with (length queue) by lia. apply list_lookup_insert_eq.
    rewrite tag_rows_length. apply physical_slot_lt. lia.
Qed.

Definition tags_fit (state : WfqSchedulerState) (payloads : list PayloadId) : Prop :=
  forall payload, payload ∈ payloads ->
    exists finish, bm_get payload (wfq_packet_finish_times state) = Some finish
      /\ rational_fits finish.

Lemma tag_rows_uniform state queue capacity head : tags_fit state queue ->
  Forall (fun row => length row = 10%nat) (tag_rows state queue capacity head).
Proof.
  induction queue as [|p queue IH] using rev_ind; intros Hfit; [by apply Forall_replicate|].
  rewrite tag_rows_snoc. apply Forall_insert.
  - apply IH. intros q Hq. apply Hfit. set_solver.
  - unfold tag_of. destruct (Hfit p) as (finish & -> & Hf); [set_solver|].
    by apply rational_words_length.
Qed.

Abbreviation tabled rows := (Forall (fun row : list Z => length row = 10%nat) rows).

Lemma write_zero_row words rows i : tabled rows -> (i < length rows)%nat ->
  write_zero (words ++ mjoin rows) (length words + i * 10)
  = Some (words ++ mjoin (<[i := zero_words]> rows)).
Proof.
  intros Hu Hi. destruct (lookup_lt_is_Some_2 rows i Hi) as [row Hrow].
  destruct (table_split 10 rows i row Hu Hrow) as (Hj & Hp & Hl).
  rewrite table_insert by done. rewrite Hj, !(app_assoc words), <- Hp, <- length_app.
  rewrite <- (Nat.add_0_r (length _)). rewrite write_zero_window by lia.
  by rewrite splice_all by done.
Qed.

Lemma write_rational_row words rows i value : tabled rows -> (i < length rows)%nat ->
  rational_fits value ->
  write_rational (words ++ mjoin rows) (length words + i * 10) value
  = Some (Ok (words ++ mjoin (<[i := rational_words value]> rows))).
Proof.
  intros Hu Hi Hfit. destruct (lookup_lt_is_Some_2 rows i Hi) as [row Hrow].
  destruct (table_split 10 rows i row Hu Hrow) as (Hj & Hp & Hl).
  rewrite table_insert by done. rewrite Hj, !(app_assoc words), <- Hp, <- length_app.
  rewrite <- (Nat.add_0_r (length _)). rewrite write_rational_window by (done || lia).
  by rewrite splice_all by (rewrite rational_words_length; done).
Qed.

Lemma zero_rows words capacity :
  option_fold (fun words' physical => write_zero words' (length words + physical * RATIONAL_WORDS))
    (words ++ replicate (capacity * 10) 0) (seq 0 capacity)
  = Some (words ++ mjoin (replicate capacity zero_words)).
Proof.
  assert (Hz : forall n, replicate (n * 10) 0 = mjoin (replicate n (replicate 10 0))).
  { induction n as [|n IH]; [done|].
    change (replicate (10 + n * 10) 0 = replicate 10 0 ++ mjoin (replicate n (replicate 10 0))).
    by rewrite replicate_add, IH. }
  assert (Hgo : forall n k, option_fold
      (fun words' physical => write_zero words' (length words + physical * RATIONAL_WORDS))
      (words ++ mjoin (replicate k zero_words ++ replicate n (replicate 10 0))) (seq k n)
    = Some (words ++ mjoin (replicate (k + n) zero_words))).
  { induction n as [|n IH]; intros k; [by rewrite app_nil_r, Nat.add_0_r|].
    cbn [seq option_fold]. change RATIONAL_WORDS with 10%nat in *. rewrite write_zero_row.
    - cbn [mbind option_bind]. rewrite insert_app_r_alt by (by rewrite length_replicate).
      rewrite length_replicate, Nat.sub_diag. cbn [replicate insert list_insert].
      rewrite (cons_middle zero_words), app_assoc, <- (replicate_S_end k zero_words).
      rewrite IH. do 4 f_equal. lia.
    - apply Forall_app. split; by apply Forall_replicate.
    - rewrite length_app, !length_replicate. lia. }
  rewrite Hz. apply (Hgo capacity 0%nat).
Qed.

Lemma prepare_tags_eq state queue capacity head offset words : offset = length words ->
  (length (sq_queue queue) <= capacity)%nat -> tags_fit state (sq_queue queue) ->
  prepare_tags state queue capacity head offset (words ++ replicate (capacity * 10) 0)
  = Some (Ok (words ++ mjoin (tag_rows state (sq_queue queue) capacity head))).
Proof.
  intros -> Hc Hfit. unfold prepare_tags. rewrite zero_rows. cbn [or_panic mbind fueled_bind].
  revert Hc Hfit. induction (sq_queue queue) as [|p q IH] using rev_ind; [done|].
  rewrite length_app. cbn [length]. intros Hc Hfit. rewrite imap_pair_snoc, fueled_fold_snoc.
  rewrite IH; [|lia|intros x Hx; apply Hfit; set_solver]. cbn [mbind fueled_bind].
  destruct (Hfit p) as (finish & Hf & Hr); [set_solver|]. rewrite Hf.
  cbn [ok_or lift_result mbind fueled_bind]. fold (physical_slot capacity head (length q)).
  change RATIONAL_WORDS with 10%nat. rewrite write_rational_row; [| |rewrite tag_rows_length; apply physical_slot_lt; lia|done].
  - rewrite tag_rows_snoc. unfold tag_of. by rewrite Hf.
  - apply tag_rows_uniform. intros x Hx. apply Hfit. set_solver.
Qed.

(** ** Node blocks *)

(** Five header words, the virtual time, the in-service tag, the marking words. *)
Definition node_block (h v t d : list Z) : list Z := h ++ v ++ t ++ d.

Record block_shape (h v t d : list Z) : Prop := {
  bs_h : length h = 5%nat;
  bs_v : length v = 10%nat;
  bs_t : length t = 10%nat;
  bs_d : length d = 4%nat;
}.

Section block.
Context (pre post h v t d : list Z) (Hb : block_shape h v t d).

Lemma node_block_length : length (node_block h v t d) = 29%nat.
Proof using Hb. destruct Hb. unfold node_block. rewrite !length_app. lia. Qed.

Lemma block_length :
  length (pre ++ node_block h v t d ++ post) = (length pre + 29 + length post)%nat.
Proof using Hb. rewrite !length_app, node_block_length. lia. Qed.

Lemma block_head k x : (k < 5)%nat ->
  write_word (length pre + k) x (pre ++ node_block h v t d ++ post)
  = Some (pre ++ node_block (<[k := x]> h) v t d ++ post).
Proof using Hb.
  intros Hk. rewrite window_write_word by (rewrite node_block_length; lia).
  unfold node_block. destruct Hb. by rewrite insert_app_l by lia.
Qed.

Lemma block_mark k x : (k < 4)%nat ->
  write_word (length pre + (25 + k)) x (pre ++ node_block h v t d ++ post)
  = Some (pre ++ node_block h v t (<[k := x]> d) ++ post).
Proof using Hb.
  intros Hk. rewrite window_write_word by (rewrite node_block_length; lia).
  unfold node_block. destruct Hb. rewrite !insert_app_r_alt by lia.
  do 6 f_equal. f_equal. lia.
Qed.

Lemma splice_virtual_time x : length x = 10%nat ->
  splice 5 x (node_block h v t d) = node_block h x t d.
Proof using Hb.
  intros Hx. destruct Hb. unfold splice, node_block.
  rewrite take_app_length' by lia. rewrite (app_assoc h v), drop_app_length' by (rewrite length_app; lia).
  done.
Qed.

Lemma splice_service_tag x : length x = 10%nat ->
  splice 15 x (node_block h v t d) = node_block h v x d.
Proof using Hb.
  intros Hx. destruct Hb. unfold splice, node_block.
  rewrite (app_assoc h v), take_app_length' by (rewrite length_app; lia).
  rewrite (app_assoc (h ++ v) t), drop_app_length' by (rewrite !length_app; lia).
  by rewrite <- app_assoc.
Qed.

Lemma block_rational_time value : rational_fits value ->
  write_rational (pre ++ node_block h v t d ++ post) (length pre + 5) value
  = Some (Ok (pre ++ node_block h (rational_words value) t d ++ post)).
Proof using Hb.
  intros Hf. rewrite write_rational_window by (done || rewrite node_block_length; lia).
  by rewrite splice_virtual_time by by apply rational_words_length.
Qed.

Lemma block_rational_tag value : rational_fits value ->
  write_rational (pre ++ node_block h v t d ++ post) (length pre + 15) value
  = Some (Ok (pre ++ node_block h v (rational_words value) d ++ post)).
Proof using Hb.
  intros Hf. rewrite write_rational_window by (done || rewrite node_block_length; lia).
  by rewrite splice_service_tag by by apply rational_words_length.
Qed.
End block.

(** ** What each queue is encoded as *)

Definition mark_arena (image : SimulationImage) (node : Z) (queue : SwitchQueueState) : list Z :=
  match sq_drop_mark queue with
  | TailDrop => []
  | EcnRampMark policy =>
      match ecn_record policy (im_seed image) node with Ok record => record | Err _ => [] end
  end.

Definition mark_words (offset : nat) (queue : SwitchQueueState) : list Z :=
  match sq_drop_mark queue with
  | TailDrop => [0; 0; 0; 0]
  | EcnRampMark policy => [1; Z.of_nat offset; capacity_bytes policy; kmin_bytes policy]
  end.

Definition wfq_rows (state : WfqSchedulerState) : list (list Z) :=
  imap (fun class weight =>
          class_row weight (default 0 (wfq_active_packets state !! class))
            (rational_words (default 0%Q (wfq_finish_times state !! class)))) (wfq_weights state).

Definition scheduler_rows (scheduler : SchedulerKind) : list (list Z) :=
  match scheduler with
  | Fifo => []
  | StaticPriority priorities => (fun priority => class_row priority 0 zero_words) <$> priorities
  | WeightedFairQueue state => wfq_rows state
  | DeficitRoundRobin state =>
      (fun row => class_row row.1 row.2 zero_words)
        <$> zip (drr_quanta_bytes state) (drr_deficits_bytes state)
  | WeightedRoundRobin state =>
      (fun row => class_row row.1 row.2 zero_words)
        <$> zip (wrr_weights state) (wrr_packets_sent_in_round state)
  end.

Definition queue_tags (capacity head : nat) (queue : SwitchQueueState) : list (list Z) :=
  match sq_scheduler queue with
  | WeightedFairQueue state => tag_rows state (sq_queue queue) capacity head
  | _ => []
  end.

Definition queue_arena (image : SimulationImage) (node : Z) (capacity head : nat)
    (queue : SwitchQueueState) : list Z :=
  mark_arena image node queue ++ mjoin (scheduler_rows (sq_scheduler queue))
    ++ mjoin (queue_tags capacity head queue).

(** The header words, given where the class rows start. *)
Definition header_words (classes : nat) (scheduler : SchedulerKind) : list Z :=
  let count := Z.of_nat (length (scheduler_rows scheduler)) in
  match scheduler with
  | Fifo => [0; 0; NONE; NONE; 0]
  | StaticPriority _ => [1; count; Z.of_nat classes; NONE; 0]
  | WeightedFairQueue state =>
      [2; count; Z.of_nat classes;
       Z.of_nat (classes + 12 * length (scheduler_rows scheduler)); wfq_last_updated_ns state]
  | DeficitRoundRobin state => [3; count; Z.of_nat classes; NONE; drr_current_class state]
  | WeightedRoundRobin state => [4; count; Z.of_nat classes; NONE; wrr_current_class state]
  end.

Definition time_words (scheduler : SchedulerKind) : list Z :=
  match scheduler with
  | WeightedFairQueue state => rational_words (wfq_virtual_time state)
  | _ => zero_words
  end.

Definition service_words (queue : SwitchQueueState) : list Z :=
  match sq_scheduler queue, sq_in_service queue with
  | WeightedFairQueue state, Some payload => rational_words (tag_of state payload)
  | _, _ => zero_words
  end.

Definition queue_block (image : SimulationImage) (node : Z) (offset : nat)
    (queue : SwitchQueueState) : list Z :=
  node_block
    (header_words (offset + length (mark_arena image node queue)) (sq_scheduler queue))
    (time_words (sq_scheduler queue)) (service_words queue) (mark_words offset queue).

(** The block of a node that has no queue to encode. *)
Definition idle_block : list Z := node_block [0; 0; NONE; NONE; 0] zero_words zero_words [0; 0; 0; 0].

(** ** The encoder's equations *)

(** What a WFQ state must satisfy to fit the plane: a counter and a finish time
    per class, every rational within 320 bits, a tag per waiting packet. *)
Record wfq_ready (queue : SwitchQueueState) (state : WfqSchedulerState) : Prop := {
  wr_active : length (wfq_active_packets state) = length (wfq_weights state);
  wr_finish : length (wfq_finish_times state) = length (wfq_weights state);
  wr_finish_fit : Forall rational_fits (wfq_finish_times state);
  wr_time_fit : rational_fits (wfq_virtual_time state);
  wr_tags : tags_fit state (sq_queue queue ++ option_list (sq_in_service queue));
}.

Definition scheduler_ready (queue : SwitchQueueState) : Prop :=
  match sq_scheduler queue with
  | WeightedFairQueue state => wfq_ready queue state
  | DeficitRoundRobin state =>
      length (drr_deficits_bytes state) = length (drr_quanta_bytes state)
  | WeightedRoundRobin state =>
      length (wrr_packets_sent_in_round state) = length (wrr_weights state)
  | Fifo | StaticPriority _ => True
  end.

Lemma zero_words_length : length zero_words = 10%nat.
Proof. done. Qed.

Lemma wfq_rows_eq queue state words : wfq_ready queue state ->
  Z.of_nat (length words) + Z.of_nat (length (mjoin (wfq_rows state))) <= u64_max ->
  fueled_fold (prepare_wfq_class state) words (imap pair (wfq_weights state))
  = Some (Ok (words ++ mjoin (wfq_rows state))).
Proof.
  intros Hw Hl.
  assert (He : wfq_rows state = (fun row : nat * Z =>
      class_row row.2 (default 0 (wfq_active_packets state !! row.1))
        (rational_words (default 0%Q (wfq_finish_times state !! row.1))))
      <$> imap pair (wfq_weights state)).
  { unfold wfq_rows. by rewrite fmap_imap. }
  rewrite He in *. apply append_fold; [|done].
  intros ws [class weight] Hin Hle. apply elem_of_lookup_imap in Hin as (i & x & [= -> ->] & Hi).
  apply lookup_lt_Some in Hi. destruct Hw.
  destruct (lookup_lt_is_Some_2 (wfq_active_packets state) i) as [active Ha]; [lia|].
  destruct (lookup_lt_is_Some_2 (wfq_finish_times state) i) as [finish Hf]; [lia|].
  cbn [fst snd] in *. rewrite Ha, Hf in *. cbn [default from_option] in *.
  pose proof (Forall_lookup_1 _ _ _ _ wr_finish_fit0 Hf) as Hfit.
  apply prepare_wfq_class_eq; try done.
  unfold class_row in Hle. rewrite length_app, rational_words_length in Hle by done. simpl in Hle. lia.
Qed.

Lemma wfq_rows_uniform queue state : wfq_ready queue state ->
  Forall (fun row => length row = 12%nat) (wfq_rows state).
Proof.
  intros []. apply Forall_lookup_2. intros i row Hr. unfold wfq_rows in Hr.
  rewrite list_lookup_imap in Hr. destruct (wfq_weights state !! i) as [w|] eqn:Hw; [|done].
  simpl in Hr. injection Hr as <-. apply lookup_lt_Some in Hw.
  destruct (lookup_lt_is_Some_2 (wfq_finish_times state) i) as [finish Hf]; [lia|].
  unfold class_row. rewrite Hf, length_app. cbn [default from_option].
  rewrite rational_words_length; [done|]. by eapply Forall_lookup_1.
Qed.

Lemma scheduler_rows_uniform queue : scheduler_ready queue ->
  Forall (fun row => length row = 12%nat) (scheduler_rows (sq_scheduler queue)).
Proof.
  unfold scheduler_ready. destruct (sq_scheduler queue); intros H; [constructor| |by eapply wfq_rows_uniform| |];
    apply Forall_fmap, Forall_true; done.
Qed.

(** The shape side conditions of the block lemmas. *)
Ltac shape := first [lia | constructor; first [apply rational_words_length; done | done]].

(** Writing one header word of the node's block. *)
Ltac block_step k :=
  rewrite (fun pre post h v t d Hb => block_head pre post h v t d Hb k)
    by shape; cbn [insert list_insert or_panic mbind fueled_bind].

Section scheduler.
Context (pre post d : list Z) (queue_meta : list Z) (slot : nat) (queue : SwitchQueueState).
Context (Hpre : length pre = (slot * SCHEDULER_NODE_WORDS)%nat) (Hd : length d = 4%nat).

Abbreviation start code := (pre ++ node_block [code; 0; NONE; NONE; 0] zero_words zero_words d ++ post).

Lemma prepare_round_robin_eq code values counters current :
  length counters = length values ->
  Z.of_nat (length (start code))
    + Z.of_nat (length (mjoin ((fun row : Z * Z => class_row row.1 row.2 zero_words)
                                 <$> zip values counters))) <= u64_max ->
  prepare_round_robin (slot * SCHEDULER_NODE_WORDS) values counters current (start code)
  = Some (Ok (pre ++ node_block [code; Z.of_nat (length values);
                                 Z.of_nat (length (start code)); NONE; current]
                       zero_words zero_words d
              ++ post ++ mjoin ((fun row : Z * Z => class_row row.1 row.2 zero_words)
                                  <$> zip values counters))).
Proof using Hpre Hd.
  intros Hc Hl. rewrite block_length in * by shape. unfold prepare_round_robin. rewrite <- Hpre.
  change SCHEDULER_CLASS_COUNT with 1%nat. change SCHEDULER_CLASS_OFFSET with 2%nat.
  change SCHEDULER_LAST_UPDATED with 4%nat. block_step 1%nat.
  rewrite block_length by shape. block_step 2%nat. block_step 4%nat.
  rewrite (append_fold _ (fun row : Z * Z => class_row row.1 row.2 zero_words)).
  - by rewrite <- !app_assoc.
  - intros ws row _ Hle. apply prepare_class_eq. done.
  - by rewrite block_length by shape.
Qed.
Context (capacity head : nat).
Context (Hcapacity : Z.to_nat <$> queue_meta !! (slot * QUEUE_META_WORDS + 1)%nat = Some capacity).
Context (Hhead : Z.to_nat <$> queue_meta !! (slot * QUEUE_META_WORDS + 2)%nat = Some head).
Context (Hring : (length (sq_queue queue) <= capacity)%nat).

Lemma prepare_wfq_eq state : wfq_ready queue state ->
  Z.of_nat (length (start 2)) + Z.of_nat (length (mjoin (wfq_rows state)))
    + Z.of_nat capacity * 10 <= u64_max ->
  prepare_wfq queue_meta slot (slot * SCHEDULER_NODE_WORDS) queue state (start 2)
  = Some (Ok (pre ++ node_block
        [2; Z.of_nat (length (wfq_rows state)); Z.of_nat (length (start 2));
         Z.of_nat (length (start 2) + 12 * length (wfq_rows state)); wfq_last_updated_ns state]
        (rational_words (wfq_virtual_time state))
        (from_option (fun payload => rational_words (tag_of state payload)) zero_words
           (sq_in_service queue)) d
      ++ post ++ mjoin (wfq_rows state) ++ mjoin (tag_rows state (sq_queue queue) capacity head))).
Proof using Hpre Hd Hcapacity Hhead Hring.
  intros Hw Hl. pose proof (wfq_rows_uniform _ _ Hw) as Hu. pose proof (table_length 12 _ Hu) as Ht.
  assert (Hn : length (wfq_rows state) = length (wfq_weights state)) by apply length_imap.
  assert (Hfit := wr_time_fit _ _ Hw).
  rewrite block_length in * by shape. unfold prepare_wfq. rewrite <- Hpre.
  change SCHEDULER_CLASS_COUNT with 1%nat. change SCHEDULER_CLASS_OFFSET with 2%nat.
  change SCHEDULER_LAST_UPDATED with 4%nat. change SCHEDULER_VIRTUAL_TIME with 5%nat.
  change SCHEDULER_QUEUE_TAG_OFFSET with 3%nat. change SCHEDULER_IN_SERVICE_TAG with 15%nat.
  block_step 1%nat. rewrite block_length by shape. block_step 2%nat. block_step 4%nat.
  rewrite block_rational_time by (done || shape). cbn [mbind fueled_bind].
  rewrite (wfq_rows_eq queue) by (done || rewrite block_length by shape; lia).
  cbn [mbind fueled_bind]. rewrite Hcapacity. cbn [or_panic mbind fueled_bind].
  rewrite Hhead. cbn [or_panic mbind fueled_bind]. rewrite <- !app_assoc.
  block_step 3%nat. rewrite !block_length by shape. rewrite length_app, Ht in *.
  replace (length pre + 29 + (length post + length (wfq_rows state) * 12))%nat
    with (length pre + 29 + length post + 12 * length (wfq_rows state))%nat by lia.
  change (Z.of_nat RATIONAL_WORDS) with 10.
  rewrite (proj2 (checked_mul_Some (Z.of_nat capacity) 10 (Z.of_nat capacity * 10))) by lia.
  cbn [ok_or lift_result mbind fueled_bind].
  match goal with |- context [checked_add ?x ?y] =>
    rewrite (proj2 (checked_add_Some x y (x + y))) by lia end.
  cbn [ok_or lift_result mbind fueled_bind].
  replace (Z.to_nat (Z.of_nat capacity * 10)) with (capacity * 10)%nat by lia.
  assert (Htags : tags_fit state (sq_queue queue)).
  { intros p Hp. apply (wr_tags _ _ Hw). set_solver. }
  rewrite prepare_tags_eq by (done || rewrite block_length by shape; rewrite length_app; lia).
  cbn [mbind fueled_bind]. rewrite <- !app_assoc, <- Hn.
  destruct (sq_in_service queue) as [payload|] eqn:Hs; cbn [from_option].
  - destruct (wr_tags _ _ Hw payload) as (finish & Hf & Hr); [rewrite Hs; set_solver|].
    unfold tag_of. rewrite Hf. cbn [ok_or lift_result mbind fueled_bind].
    by rewrite block_rational_tag by (done || shape).
  - done.
Qed.
Lemma prepare_scheduler_eq :
  let words := start (scheduler_code (sq_scheduler queue)) in
  scheduler_ready queue ->
  Z.of_nat (length words) + Z.of_nat (length (mjoin (scheduler_rows (sq_scheduler queue))))
    + Z.of_nat (length (mjoin (queue_tags capacity head queue))) <= u64_max ->
  prepare_scheduler queue_meta slot (slot * SCHEDULER_NODE_WORDS) queue words
  = Some (Ok (pre ++ node_block (header_words (length words) (sq_scheduler queue))
                       (time_words (sq_scheduler queue)) (service_words queue) d
              ++ post ++ mjoin (scheduler_rows (sq_scheduler queue))
              ++ mjoin (queue_tags capacity head queue))).
Proof using Hpre Hd Hcapacity Hhead Hring.
  intros words Hready Hl. subst words.
  unfold prepare_scheduler, queue_tags, service_words, scheduler_ready in *.
  destruct (sq_scheduler queue) as [|priorities|state|state|state];
    cbn [scheduler_rows header_words time_words scheduler_code] in *.
  - simpl. by rewrite !app_nil_r.
  - rewrite block_length in * by shape. rewrite <- Hpre, !app_nil_r.
    change SCHEDULER_CLASS_COUNT with 1%nat. change SCHEDULER_CLASS_OFFSET with 2%nat.
    block_step 1%nat. rewrite block_length by shape. block_step 2%nat.
    rewrite (append_fold _ (fun priority => class_row priority 0 zero_words)).
    + by rewrite <- !app_assoc, length_fmap.
    + intros ws x _ Hle. by apply prepare_priority_eq.
    + rewrite block_length by shape. simpl in Hl |- *. lia.
  - rewrite prepare_wfq_eq; [by destruct (sq_in_service queue)|done|].
    rewrite (table_length 10 (tag_rows _ _ _ _)), tag_rows_length in Hl; [lia|].
    apply tag_rows_uniform. intros p Hp. apply (wr_tags _ _ Hready). set_solver.
  - rewrite prepare_round_robin_eq by (done || simpl in Hl |- *; lia).
    rewrite length_fmap, length_zip, Hready, Nat.min_id. simpl. by rewrite app_nil_r.
  - rewrite prepare_round_robin_eq by (done || simpl in Hl |- *; lia).
    rewrite length_fmap, length_zip, Hready, Nat.min_id. simpl. by rewrite app_nil_r.
Qed.
End scheduler.

(** ** Nodes *)

(** The queue of a node that the plane encodes: a switch's first. *)
Definition node_queue (image : SimulationImage) (node : NodeDescriptor) : option SwitchQueueState :=
  match nd_kind node with
  | Host => None
  | Switch =>
      state ← im_switch_states image !! Z.to_nat (nd_state_slot node);
      head (sw_queues state)
  end.

Definition ring_capacity (queue_meta : list Z) (node : NodeDescriptor) : nat :=
  Z.to_nat (default 0 (queue_meta !! (Z.to_nat (nd_id node) * QUEUE_META_WORDS + 1)%nat)).

Definition ring_head (queue_meta : list Z) (node : NodeDescriptor) : nat :=
  Z.to_nat (default 0 (queue_meta !! (Z.to_nat (nd_id node) * QUEUE_META_WORDS + 2)%nat)).

Record queue_ready (queue_meta : list Z) (node : NodeDescriptor) (queue : SwitchQueueState)
  : Prop := {
  qr_capacity : is_Some (queue_meta !! (Z.to_nat (nd_id node) * QUEUE_META_WORDS + 1)%nat);
  qr_head : is_Some (queue_meta !! (Z.to_nat (nd_id node) * QUEUE_META_WORDS + 2)%nat);
  qr_ring : (length (sq_queue queue) <= ring_capacity queue_meta node)%nat;
  qr_mark : match sq_drop_mark queue with
            | TailDrop => True
            | EcnRampMark policy => is_Some (ecn_ramp_span policy)
            end;
  qr_scheduler : scheduler_ready queue;
}.

Record node_ready (image : SimulationImage) (queue_meta : list Z) (node : NodeDescriptor) : Prop := {
  nr_state : nd_kind node = Switch ->
    is_Some (im_switch_states image !! Z.to_nat (nd_state_slot node));
  nr_queue : forall queue, node_queue image node = Some queue -> queue_ready queue_meta node queue;
}.

Definition plane_block (image : SimulationImage) (node : NodeDescriptor) (offset : nat) : list Z :=
  match node_queue image node with
  | Some queue => queue_block image (nd_id node) offset queue
  | None => idle_block
  end.

Definition node_arena (image : SimulationImage) (queue_meta : list Z) (node : NodeDescriptor)
  : list Z :=
  match node_queue image node with
  | Some queue => queue_arena image (nd_id node) (ring_capacity queue_meta node)
                    (ring_head queue_meta node) queue
  | None => []
  end.

Section node.
Context (image : SimulationImage) (queue_meta pre post : list Z) (node : NodeDescriptor).

Lemma prepare_drop_mark_eq queue : queue_ready queue_meta node queue ->
  prepare_drop_mark image node (length pre) queue (pre ++ idle_block ++ post)
  = Some (Ok (pre ++ node_block [0; 0; NONE; NONE; 0] zero_words zero_words
                       (mark_words (length pre + 29 + length post) queue)
              ++ post ++ mark_arena image (nd_id node) queue)).
Proof using Type.
  intros Hq. pose proof (qr_mark _ _ _ Hq) as Hm.
  unfold prepare_drop_mark, mark_words, mark_arena, idle_block.
  destruct (sq_drop_mark queue) as [|policy]; [by rewrite !app_nil_r|].
  destruct Hm as [span Hs].
  change SCHEDULER_AQM_KIND with (25 + 0)%nat. change SCHEDULER_AQM_RECORD with (25 + 1)%nat.
  change SCHEDULER_AQM_CAPACITY with (25 + 2)%nat. change SCHEDULER_AQM_KMIN with (25 + 3)%nat.
  do 4 (rewrite block_mark by shape; cbn [insert list_insert or_panic mbind fueled_bind];
        rewrite ?block_length by shape).
  unfold ecn_record. rewrite Hs. cbn [ok_or mbind result_bind lift_result fueled_bind].
  by rewrite <- !app_assoc.
Qed.

Lemma mark_words_length offset queue : length (mark_words offset queue) = 4%nat.
Proof using Type. unfold mark_words. by destruct (sq_drop_mark queue). Qed.

Lemma prepare_queue_eq queue :
  length pre = (Z.to_nat (nd_id node) * SCHEDULER_NODE_WORDS)%nat ->
  queue_ready queue_meta node queue ->
  let arena := queue_arena image (nd_id node) (ring_capacity queue_meta node)
                 (ring_head queue_meta node) queue in
  Z.of_nat (length pre + 29 + length post + length arena) <= u64_max ->
  (words ← prepare_drop_mark image node (length pre) queue (pre ++ idle_block ++ post);
   words ← or_panic (write_word (length pre + 0) (scheduler_code (sq_scheduler queue)) words);
   prepare_scheduler queue_meta (Z.to_nat (nd_id node)) (length pre) queue words)
  = Some (Ok (pre ++ queue_block image (nd_id node) (length pre + 29 + length post) queue
              ++ post ++ arena)).
Proof using Type.
  intros Hpre Hq arena Hl. subst arena. unfold queue_arena in *.
  destruct (qr_capacity _ _ _ Hq) as [c Hc]. destruct (qr_head _ _ _ Hq) as [h Hh].
  assert (Hm := mark_words_length (length pre + 29 + length post) queue).
  rewrite prepare_drop_mark_eq by done. cbn [mbind fueled_bind].
  block_step 0%nat.
  pose proof (prepare_scheduler_eq pre (post ++ mark_arena image (nd_id node) queue) _ queue_meta _
    queue Hpre Hm (ring_capacity queue_meta node) (ring_head queue_meta node)) as Hs.
  cbv zeta in Hs. rewrite <- Hpre in Hs. rewrite Hs.
  - rewrite block_length by shape. rewrite length_app, <- !app_assoc. unfold queue_block.
    by rewrite Nat.add_assoc.
  - unfold ring_capacity. by rewrite Hc.
  - unfold ring_head. by rewrite Hh.
  - by apply qr_ring.
  - by eapply qr_scheduler.
  - rewrite block_length by shape. rewrite !length_app in *. lia.
Qed.

Lemma prepare_node_eq : length pre = (Z.to_nat (nd_id node) * SCHEDULER_NODE_WORDS)%nat ->
  node_ready image queue_meta node ->
  Z.of_nat (length pre + 29 + length post + length (node_arena image queue_meta node)) <= u64_max ->
  prepare_node image queue_meta (pre ++ replicate 29 0 ++ post) node
  = Some (Ok (pre ++ plane_block image node (length pre + 29 + length post)
              ++ post ++ node_arena image queue_meta node)).
Proof using Type.
  intros Hpre [Hstate Hqueue] Hl.
  unfold prepare_node, plane_block, node_arena, node_queue in *. rewrite <- Hpre.
  change (replicate 29 0)
    with (node_block (replicate 5 0) (replicate 10 0) (replicate 10 0) (replicate 4 0)).
  change SCHEDULER_CLASS_OFFSET with 2%nat. change SCHEDULER_QUEUE_TAG_OFFSET with 3%nat.
  change SCHEDULER_VIRTUAL_TIME with 5%nat. change SCHEDULER_IN_SERVICE_TAG with 15%nat.
  change SCHEDULER_KIND with 0%nat.
  block_step 2%nat. block_step 3%nat.
  rewrite write_zero_window by (rewrite node_block_length by shape; lia).
  rewrite splice_virtual_time by (done || shape). cbn [or_panic mbind fueled_bind].
  rewrite write_zero_window by (rewrite node_block_length by shape; lia).
  rewrite splice_service_tag by (done || shape). cbn [or_panic mbind fueled_bind].
  destruct (nd_kind node) eqn:Hkind; [by rewrite !app_nil_r|].
  destruct Hstate as [state Hs]; [done|]. rewrite Hs in *. cbn [or_panic mbind fueled_bind option_bind] in *.
  destruct (sw_queues state) as [|queue queues]; cbn [hd_error] in *; [by rewrite !app_nil_r|].
  by apply prepare_queue_eq; [|apply Hqueue|].
Qed.
End node.

(** ** The plane *)

Section plane.
Context (image : SimulationImage) (queue_meta : list Z).

(** The node blocks, given where the next arena starts. *)
Fixpoint plane_blocks (offset : nat) (nodes : list NodeDescriptor) : list (list Z) :=
  match nodes with
  | [] => []
  | node :: nodes =>
      plane_block image node offset
        :: plane_blocks (offset + length (node_arena image queue_meta node)) nodes
  end.

Definition dense_from (start : nat) (nodes : list NodeDescriptor) : Prop :=
  forall i node, nodes !! i = Some node -> nd_id node = Z.of_nat (start + i).

Definition plane_words (nodes : list NodeDescriptor) : list Z :=
  mjoin (plane_blocks (29 * length nodes) nodes) ++ mjoin (node_arena image queue_meta <$> nodes).

Record plane_ready (nodes : list NodeDescriptor) : Prop := {
  pr_dense : dense_from 0 nodes;
  pr_nodes : Forall (node_ready image queue_meta) nodes;
  pr_size : Z.of_nat (29 * length nodes
              + length (mjoin (node_arena image queue_meta <$> nodes))) <= u64_max;
}.

Lemma header_words_length classes scheduler : length (header_words classes scheduler) = 5%nat.
Proof using Type. by destruct scheduler. Qed.

Lemma time_words_length queue : scheduler_ready queue ->
  length (time_words (sq_scheduler queue)) = 10%nat.
Proof using Type.
  unfold scheduler_ready. destruct (sq_scheduler queue); try done.
  intros Hw. apply rational_words_length, (wr_time_fit _ _ Hw).
Qed.

Lemma service_words_length queue : scheduler_ready queue ->
  length (service_words queue) = 10%nat.
Proof using Type.
  unfold scheduler_ready, service_words. destruct (sq_scheduler queue) as [| |state| |]; try done.
  intros Hw. destruct (sq_in_service queue) as [payload|] eqn:Hs; [|done].
  destruct (wr_tags _ _ Hw payload) as (finish & Hf & Hr); [rewrite Hs; set_solver|].
  unfold tag_of. rewrite Hf. by apply rational_words_length.
Qed.

Lemma queue_block_shape classes offset queue : scheduler_ready queue ->
  block_shape (header_words classes (sq_scheduler queue)) (time_words (sq_scheduler queue))
    (service_words queue) (mark_words offset queue).
Proof using Type.
  intros H. constructor.
  - apply header_words_length.
  - by apply time_words_length.
  - by apply service_words_length.
  - apply mark_words_length.
Qed.

Lemma plane_block_length node offset : node_ready image queue_meta node ->
  length (plane_block image node offset) = 29%nat.
Proof using Type.
  intros [_ Hq]. unfold plane_block. destruct (node_queue image node) as [queue|]; [|done].
  apply node_block_length, queue_block_shape. by eapply qr_scheduler, Hq.
Qed.

Lemma plane_fold nodes k pre post : length pre = (29 * k)%nat -> dense_from k nodes ->
  Forall (node_ready image queue_meta) nodes ->
  Z.of_nat (length pre + 29 * length nodes + length post
            + length (mjoin (node_arena image queue_meta <$> nodes))) <= u64_max ->
  fueled_fold (prepare_node image queue_meta) (pre ++ replicate (29 * length nodes) 0 ++ post) nodes
  = Some (Ok (pre ++ mjoin (plane_blocks (length pre + 29 * length nodes + length post) nodes)
              ++ post ++ mjoin (node_arena image queue_meta <$> nodes))).
Proof using Type.
  revert k pre post. induction nodes as [|node nodes IH]; intros k pre post Hpre Hd Hr Hl.
  { simpl. by rewrite app_nil_r. }
  apply Forall_cons in Hr as [Hn Hr]. cbn [fmap list_fmap] in *. cbn [fueled_fold plane_blocks].
  change (mjoin (?x :: ?l)) with (x ++ mjoin l) in *.
  replace (29 * length (node :: nodes))%nat with (29 + 29 * length nodes)%nat in * by (simpl; lia).
  rewrite replicate_add, <- app_assoc. rewrite length_app in Hl.
  pose proof (Hd 0%nat node eq_refl) as Hid.
  rewrite prepare_node_eq; [| |done|rewrite length_app, length_replicate; lia].
  2:{ rewrite Hid, Nat2Z.id. change SCHEDULER_NODE_WORDS with 29%nat. lia. }
  cbn [mbind fueled_bind]. rewrite length_app, length_replicate.
  replace (length pre + 29 + (29 * length nodes + length post))%nat
    with (length pre + (29 + 29 * length nodes) + length post)%nat by lia.
  set (offset := (length pre + (29 + 29 * length nodes) + length post)%nat).
  pose proof (plane_block_length node offset Hn) as Hb.
  rewrite <- (app_assoc (replicate _ _)), (app_assoc pre), (IH (S k)).
  - rewrite <- !app_assoc. do 5 f_equal. rewrite !length_app, Hb. subst offset. f_equal. f_equal. lia.
  - rewrite length_app, Hb. lia.
  - intros i node' Hi. rewrite (Hd (S i) node' Hi). lia.
  - done.
  - rewrite !length_app, Hb. lia.
Qed.

Lemma prepare_plane : plane_ready (im_nodes image) ->
  prepare_device_schedulers image queue_meta = Some (Ok (plane_words (im_nodes image))).
Proof using Type.
  intros [Hd Hr Hl]. unfold prepare_device_schedulers, plane_words.
  change (Z.of_nat SCHEDULER_NODE_WORDS) with 29.
  rewrite (proj2 (checked_mul_Some _ 29 (Z.of_nat (29 * length (im_nodes image))))) by lia.
  cbn [ok_or lift_result mbind fueled_bind]. rewrite Nat2Z.id.
  pose proof (plane_fold (im_nodes image) 0 [] [] eq_refl Hd Hr ltac:(simpl; lia)) as H.
  rewrite app_nil_r in H. etrans; [exact H|]. cbn [app length].
  by rewrite Nat.add_0_l, Nat.add_0_r.
Qed.
End plane.
