(* ===== verification/DeviceRestore.v ===== *)
(** * Reading the scheduler plane back

    [restore_device_scheduler] is given the queue the image had and the words of the
    plane; the theorem is that it returns the queue the words were planned from,
    whatever the scheduler state of the given queue was. *)

From S2P Require Import Prelude Words OrdMap Event EcnRamp Model Image DeviceScheduler DevicePlane.

(** ** Loops that restore one element at a time *)

Lemma indexed_fold {S A E} (f : S -> nat * A -> fueled E S) (g : nat -> S) (l : list A) :
  (forall i x, l !! i = Some x -> f (g i) (i, x) = Some (Ok (g (i + 1)%nat))) ->
  fueled_fold f (g 0%nat) (imap pair l) = Some (Ok (g (length l))).
Proof.
  induction l as [|x l IH] using rev_ind; intros Hf; [done|].
  rewrite imap_pair_snoc, fueled_fold_snoc, IH.
  - cbn [mbind fueled_bind]. rewrite length_app. apply Hf.
    by rewrite lookup_app_r, Nat.sub_diag by lia.
  - intros i y Hi. apply Hf. by apply lookup_app_l_Some.
Qed.

(** A list whose first [i] elements have been restored. *)
Definition patched {A} (final initial : list A) (i : nat) : list A := take i final ++ drop i initial.

Arguments patched : simpl never.

Lemma patched_0 {A} (final initial : list A) : patched final initial 0 = initial.
Proof. done. Qed.

Lemma patched_step {A} (final initial : list A) i x : length final = length initial ->
  final !! i = Some x ->
  (i < length (patched final initial i))%nat
  /\ <[i := x]> (patched final initial i) = patched final initial (i + 1).
Proof.
  intros Hl Hx. pose proof (lookup_lt_Some _ _ _ Hx) as Hi. unfold patched.
  rewrite length_app, length_take, length_drop. split; [lia|].
  destruct (lookup_lt_is_Some_2 initial i) as [y Hy]; [lia|].
  rewrite (drop_S initial y i) by done. rewrite Nat.add_1_r.
  rewrite (take_S_r final i x) by done.
  rewrite insert_app_r_alt by (rewrite length_take; lia).
  rewrite length_take, Nat.min_l, Nat.sub_diag by lia. simpl. by rewrite <- app_assoc.
Qed.

Lemma patched_all {A} (final initial : list A) n : length final = length initial ->
  n = length final -> patched final initial n = final.
Proof. intros Hl ->. unfold patched. by rewrite Hl, drop_all, <- Hl, take_ge, app_nil_r by lia. Qed.

(** One word of one row of a table. *)
Lemma row_lookup {A} n (pre post : list A) rows i row k :
  Forall (fun row => length row = n) rows -> rows !! i = Some row -> (k < n)%nat ->
  (pre ++ mjoin rows ++ post) !! (length pre + i * n + k)%nat = row !! k.
Proof.
  intros Hu Hi Hk. destruct (table_split n rows i row Hu Hi) as (-> & Hp & Hl).
  rewrite <- Hp, <- !app_assoc, (app_assoc pre), <- length_app. apply window_lookup. lia.
Qed.

Lemma read_rational_row n (pre post : list Z) rows i row k value :
  Forall (fun row => length row = n) rows -> rows !! i = Some row -> (k + 10 <= n)%nat ->
  rational_fits value -> take 10 (drop k row) = rational_words value ->
  read_rational (pre ++ mjoin rows ++ post) (length pre + i * n + k) = Some (Ok value).
Proof.
  intros Hu Hi Hk Hf Ht. destruct (table_split n rows i row Hu Hi) as (-> & Hp & Hl).
  rewrite <- Hp, <- !app_assoc, (app_assoc pre), <- length_app.
  apply read_rational_window; [done|lia|done].
Qed.

(** ** Finish tags *)

Definition tags_map (state : WfqSchedulerState) (payloads : list PayloadId)
  : bmap PayloadId ExactRational :=
  foldl (fun tags payload => bm_insert payload (tag_of state payload) tags) [] payloads.

Lemma tags_map_snoc state payloads payload :
  tags_map state (payloads ++ [payload])
  = bm_insert payload (tag_of state payload) (tags_map state payloads).
Proof. unfold tags_map. by rewrite foldl_app. Qed.

Lemma tags_map_wf state payloads : wf (tags_map state payloads).
Proof.
  induction payloads as [|p l IH] using rev_ind; [apply wf_nil|].
  rewrite tags_map_snoc. by apply bm_insert_wf.
Qed.

Lemma tags_map_elem_of state payloads x :
  x ∈ tags_map state payloads <-> x.1 ∈ payloads /\ x.2 = tag_of state x.1.
Proof.
  induction payloads as [|p l IH] using rev_ind; [set_solver|].
  rewrite tags_map_snoc, bm_insert_elem_of by apply tags_map_wf. rewrite IH.
  destruct x as [k v]. simpl. rewrite elem_of_app, list_elem_of_singleton.
  destruct (decide (k = p)) as [->|]; naive_solver.
Qed.

(** A map of tags for exactly these packets is rebuilt from the packets. *)
Lemma tags_map_exact state payloads : wf (wfq_packet_finish_times state) ->
  tags_fit state payloads ->
  (forall payload, payload ∈ (wfq_packet_finish_times state).*1 -> payload ∈ payloads) ->
  tags_map state payloads = wfq_packet_finish_times state.
Proof.
  intros Hwf Hfit Hdom. apply bm_ext; [apply tags_map_wf|done|]. intros [k v].
  rewrite tags_map_elem_of, <- bm_get_elem_of by done. cbn [fst snd]. unfold tag_of. split.
  - intros [Hk ->]. by destruct (Hfit k Hk) as (finish & -> & _).
  - intros Hg. rewrite Hg. split; [|done]. apply Hdom.
    apply bm_get_elem_of in Hg; [|done]. apply list_elem_of_fmap. by exists (k, v).
Qed.

(** ** Readback of one queue *)

(** Two queues that differ at most in the scheduler's state. *)
Definition same_scheduler_shape (given encoded : SchedulerKind) : Prop :=
  match given, encoded with
  | Fifo, Fifo => True
  | StaticPriority priorities, StaticPriority priorities' => priorities = priorities'
  | WeightedFairQueue state, WeightedFairQueue state' =>
      wfq_weights state = wfq_weights state'
      /\ length (wfq_active_packets state) = length (wfq_weights state)
      /\ length (wfq_finish_times state) = length (wfq_weights state)
  | DeficitRoundRobin state, DeficitRoundRobin state' =>
      drr_quanta_bytes state = drr_quanta_bytes state'
      /\ length (drr_deficits_bytes state) = length (drr_quanta_bytes state)
  | WeightedRoundRobin state, WeightedRoundRobin state' =>
      wrr_weights state = wrr_weights state'
      /\ length (wrr_packets_sent_in_round state) = length (wrr_weights state)
  | _, _ => False
  end.

Record same_queue_shape (given encoded : SwitchQueueState) : Prop := {
  sqs_rest : given <| sq_scheduler := sq_scheduler encoded |> = encoded;
  sqs_scheduler : same_scheduler_shape (sq_scheduler given) (sq_scheduler encoded);
}.

(** The tags a WFQ state holds are those of the packets that wait or are in service. *)
Definition tags_exact (queue : SwitchQueueState) : Prop :=
  match sq_scheduler queue with
  | WeightedFairQueue state =>
      wf (wfq_packet_finish_times state)
      /\ forall payload, payload ∈ (wfq_packet_finish_times state).*1 ->
           payload ∈ sq_queue queue ++ option_list (sq_in_service queue)
  | _ => True
  end.

Lemma header_words_kind classes scheduler :
  header_words classes scheduler !! 0%nat = Some (scheduler_code scheduler).
Proof. by destruct scheduler. Qed.

Lemma same_shape_code given encoded : same_scheduler_shape given encoded ->
  scheduler_code given = scheduler_code encoded.
Proof. by destruct given, encoded. Qed.

Section restore.
Context (image : SimulationImage) (queue_meta words : list Z) (node : NodeDescriptor).
Context (encoded : SwitchQueueState).
Abbreviation slot := (Z.to_nat (nd_id node)).
Abbreviation capacity := (ring_capacity queue_meta node).
Abbreviation first := (ring_head queue_meta node).
Context (Hid : nd_id node = Z.of_nat slot).
Context (Hready : queue_ready queue_meta node encoded).
Context (pre post pre' post' : list Z).
Context (Hblock : words = pre ++ queue_block image (nd_id node) (length pre') encoded ++ post).
Context (Hpre : length pre = (slot * 29)%nat).
Context (Harena : words = pre' ++ queue_arena image (nd_id node) capacity first encoded ++ post').
Context (Hsize : Z.of_nat (length words) <= u64_max).
Abbreviation classes := (length pre' + length (mark_arena image (nd_id node) encoded))%nat.

Lemma block_shaped :
  block_shape (header_words classes (sq_scheduler encoded)) (time_words (sq_scheduler encoded))
    (service_words encoded) (mark_words (length pre') encoded).
Proof using All. by eapply queue_block_shape, qr_scheduler. Qed.

Lemma read_header k : (k < 5)%nat ->
  words !! (slot * 29 + k)%nat = header_words classes (sq_scheduler encoded) !! k.
Proof using All.
  intros Hk. pose proof block_shaped as Hs. rewrite Hblock, <- Hpre.
  rewrite window_lookup by (unfold queue_block; rewrite node_block_length by done; lia).
  unfold queue_block, node_block. by rewrite lookup_app_l by (rewrite (bs_h _ _ _ _ Hs); lia).
Qed.

Lemma read_mark k : (k < 4)%nat ->
  words !! (slot * 29 + (25 + k))%nat = mark_words (length pre') encoded !! k.
Proof using All.
  intros Hk. pose proof block_shaped as Hs. rewrite Hblock, <- Hpre.
  rewrite window_lookup by (unfold queue_block; rewrite node_block_length by done; lia).
  unfold queue_block, node_block. destruct Hs.
  rewrite !lookup_app_r by lia. f_equal. lia.
Qed.
Lemma read_virtual_time state : sq_scheduler encoded = WeightedFairQueue state ->
  read_rational words (slot * 29 + 5) = Some (Ok (wfq_virtual_time state)).
Proof using All.
  intros Hs. pose proof block_shaped as Hb. pose proof (qr_scheduler _ _ _ Hready) as Hw.
  unfold scheduler_ready in Hw. rewrite Hs in Hw. rewrite Hblock, <- Hpre. unfold queue_block.
  apply read_rational_window; [apply (wr_time_fit _ _ Hw)|rewrite node_block_length by done; lia|].
  destruct Hb. unfold node_block. rewrite drop_app_length', take_app_length' by done.
  by rewrite Hs.
Qed.

Lemma read_service_tag state payload : sq_scheduler encoded = WeightedFairQueue state ->
  sq_in_service encoded = Some payload ->
  read_rational words (slot * 29 + 15) = Some (Ok (tag_of state payload)).
Proof using All.
  intros Hs Hp. pose proof block_shaped as Hb. pose proof (qr_scheduler _ _ _ Hready) as Hw.
  unfold scheduler_ready in Hw. rewrite Hs in Hw. rewrite Hblock, <- Hpre. unfold queue_block.
  destruct (wr_tags _ _ Hw payload) as (finish & Hf & Hr); [rewrite Hp; set_solver|].
  apply read_rational_window;
    [unfold tag_of; by rewrite Hf|rewrite node_block_length by done; lia|].
  destruct Hb. unfold node_block.
  rewrite app_assoc, drop_app_length', take_app_length' by (rewrite ?length_app; lia).
  unfold service_words. by rewrite Hs, Hp.
Qed.

(** The class rows and the tag rows as tables of the words. *)
Lemma class_table :
  words = (pre' ++ mark_arena image (nd_id node) encoded)
          ++ mjoin (scheduler_rows (sq_scheduler encoded))
          ++ mjoin (queue_tags capacity first encoded) ++ post'.
Proof using All. rewrite Harena. unfold queue_arena. by rewrite <- !app_assoc. Qed.

Lemma read_class i row k : scheduler_rows (sq_scheduler encoded) !! i = Some row -> (k < 12)%nat ->
  words !! (classes + i * 12 + k)%nat = row !! k.
Proof using All.
  intros Hr Hk. rewrite class_table, <- length_app. apply row_lookup; [|done|done].
  by eapply scheduler_rows_uniform, qr_scheduler.
Qed.
Lemma read_class_finish i state finish : sq_scheduler encoded = WeightedFairQueue state ->
  wfq_finish_times state !! i = Some finish ->
  read_rational words (classes + i * 12 + 2) = Some (Ok finish).
Proof using All.
  intros Hs Hf. pose proof (qr_scheduler _ _ _ Hready) as Hw. unfold scheduler_ready in Hw.
  rewrite Hs in Hw. pose proof class_table as Ht. rewrite Hs in Ht. cbn [scheduler_rows] in Ht.
  pose proof (lookup_lt_Some _ _ _ Hf) as Hi. rewrite (wr_finish _ _ Hw) in Hi.
  destruct (lookup_lt_is_Some_2 (wfq_weights state) i Hi) as [weight Hweight].
  assert (Hrow : wfq_rows state !! i = Some (class_row weight
      (default 0 (wfq_active_packets state !! i)) (rational_words finish))).
  { unfold wfq_rows. by rewrite list_lookup_imap, Hweight, Hf. }
  rewrite Ht, <- length_app.
  eapply read_rational_row; [by eapply wfq_rows_uniform|exact Hrow|lia| |].
  - exact (Forall_lookup_1 _ _ _ _ (wr_finish_fit _ _ Hw) Hf).
  - unfold class_row. simpl. apply take_ge. rewrite rational_words_length; [done|].
    exact (Forall_lookup_1 _ _ _ _ (wr_finish_fit _ _ Hw) Hf).
Qed.

Lemma check_class_ok i row value : scheduler_rows (sq_scheduler encoded) !! i = Some row ->
  row !! 0%nat = Some value ->
  check_class classes words i value = Some (Ok (classes + i * 12)%nat).
Proof using All.
  intros Hr Hv. unfold check_class.
  pose proof (read_class i row 0 Hr ltac:(lia)) as Hw. rewrite Hv, Nat.add_0_r in Hw.
  pose proof (lookup_lt_Some _ _ _ Hw) as Hlt. change SCHEDULER_CLASS_WORDS with 12%nat.
  rewrite (proj2 (checked_add_Some _ _ (Z.of_nat (classes + i * 12)))) by lia.
  cbn [ok_or lift_result mbind fueled_bind]. rewrite Nat2Z.id, Nat.add_0_r, Hw.
  cbn [or_panic mbind fueled_bind]. by rewrite Z.eqb_refl.
Qed.

Lemma read_class_table_ok : sq_scheduler encoded <> Fifo ->
  read_class_table (slot * 29) words (length (scheduler_rows (sq_scheduler encoded)))
  = Some (Ok classes).
Proof using All.
  intros Hf. unfold read_class_table. change SCHEDULER_CLASS_COUNT with 1%nat.
  change SCHEDULER_CLASS_OFFSET with 2%nat. rewrite !read_header by lia.
  by destruct (sq_scheduler encoded); [done|..]; cbn [header_words lookup list_lookup or_panic mbind
    fueled_bind fmap option_fmap option_map]; rewrite Z.eqb_refl, Nat2Z.id.
Qed.
Lemma read_tag i payload state : sq_scheduler encoded = WeightedFairQueue state ->
  sq_queue encoded !! i = Some payload ->
  let offset := (classes + 12 * length (scheduler_rows (sq_scheduler encoded))
                 + physical_slot capacity first i * 10)%nat in
  read_rational words offset = Some (Ok (tag_of state payload))
  /\ Z.of_nat offset <= u64_max.
Proof using All.
  intros Hs Hi offset. subst offset. pose proof (qr_scheduler _ _ _ Hready) as Hw.
  pose proof (scheduler_rows_uniform encoded Hw) as Hu. apply table_length in Hu.
  unfold scheduler_ready in Hw. rewrite Hs in Hw.
  destruct (wr_tags _ _ Hw payload) as (finish & Hf & Hr).
  { apply elem_of_app. left. by eapply list_elem_of_lookup_2. }
  pose proof (tag_rows_lookup state _ _ first i payload (qr_ring _ _ _ Hready) Hi) as Hrow.
  assert (Htu : tabled (tag_rows state (sq_queue encoded) capacity first)).
  { apply tag_rows_uniform. intros p Hp. apply (wr_tags _ _ Hw). set_solver. }
  pose proof class_table as Ht. rewrite (app_assoc _ (mjoin _)) in Ht. unfold queue_tags in Ht.
  rewrite Hs in Ht. rewrite Hs in Hu.
  replace (classes + 12 * length (scheduler_rows (sq_scheduler encoded)))%nat
    with (length ((pre' ++ mark_arena image (nd_id node) encoded)
                  ++ mjoin (scheduler_rows (WeightedFairQueue state))))
    by (rewrite !length_app, Hu, Hs; lia).
  split.
  - rewrite Ht, <- (Nat.add_0_r (_ + _ * 10)). eapply read_rational_row; [done|exact Hrow|lia| |].
    + unfold tag_of. by rewrite Hf.
    + rewrite drop_0. apply take_ge. unfold tag_of. by rewrite Hf, rational_words_length.
  - rewrite Ht, !length_app, (table_length 10 (tag_rows _ _ _ _) Htu) in Hsize.
    apply lookup_lt_Some in Hrow. rewrite !length_app. lia.
Qed.
Lemma restore_round_robin_ok values counters counters' current :
  sq_scheduler encoded <> Fifo ->
  scheduler_rows (sq_scheduler encoded)
  = (fun row : Z * Z => class_row row.1 row.2 zero_words) <$> zip values counters' ->
  header_words classes (sq_scheduler encoded) !! 4%nat = Some current ->
  length counters = length values -> length counters' = length values ->
  restore_round_robin (slot * 29) words values counters = Some (Ok (current, counters')).
Proof using All.
  intros Hf Hrows Hcur Hl Hl'. unfold restore_round_robin.
  pose proof (read_class_table_ok Hf) as Ht.
  rewrite Hrows, length_fmap, length_zip, Hl', Nat.min_id in Ht. rewrite Ht.
  cbn [mbind fueled_bind]. change SCHEDULER_LAST_UPDATED with 4%nat.
  rewrite read_header, Hcur by lia. cbn [or_panic mbind fueled_bind].
  pose proof (indexed_fold (restore_counter classes words) (patched counters' counters) values) as Hfold.
  rewrite patched_0 in Hfold.
  rewrite Hfold; [cbn [mbind fueled_bind]; by rewrite patched_all by lia|]. clear Hfold.
  intros i value Hi. destruct (lookup_lt_is_Some_2 counters' i) as [counter Hc].
  { apply lookup_lt_Some in Hi. lia. }
  assert (Hrow : scheduler_rows (sq_scheduler encoded) !! i = Some (class_row value counter zero_words)).
  { rewrite Hrows, list_lookup_fmap, (proj2 (lookup_zip_with_Some pair values counters' i (value, counter))) by naive_solver.
    done. }
  unfold restore_counter. rewrite (check_class_ok i _ value Hrow) by done. cbn [mbind fueled_bind].
  change SCHEDULER_CLASS_ACTIVE with 1%nat. rewrite (read_class i _ 1 Hrow) by lia.
  cbn [class_row app lookup list_lookup or_panic mbind fueled_bind].
  destruct (patched_step counters' counters i counter ltac:(lia) Hc) as [Hlt Hstep].
  unfold write_word. rewrite (proj2 (Nat.ltb_lt _ _) Hlt). by rewrite Hstep.
Qed.
Section restore_wfq.
Context (state : WfqSchedulerState) (Hs : sq_scheduler encoded = WeightedFairQueue state).

Lemma restore_wfq_classes given : wfq_weights given = wfq_weights state ->
  length (wfq_active_packets given) = length (wfq_weights given) ->
  length (wfq_finish_times given) = length (wfq_weights given) ->
  fueled_fold (restore_wfq_class classes words) given (imap pair (wfq_weights given))
  = Some (Ok (given <| wfq_active_packets := wfq_active_packets state |>
                    <| wfq_finish_times := wfq_finish_times state |>)).
Proof using All.
  intros Hw Ha Hf. pose proof (qr_scheduler _ _ _ Hready) as Hwfq. unfold scheduler_ready in Hwfq.
  rewrite Hs in Hwfq. destruct Hwfq as [Ha' Hf' _ _ _]. rewrite <- Hw in Ha', Hf'.
  pose proof (indexed_fold (restore_wfq_class classes words) (fun i =>
    given <| wfq_active_packets := patched (wfq_active_packets state) (wfq_active_packets given) i |>
          <| wfq_finish_times := patched (wfq_finish_times state) (wfq_finish_times given) i |>)
    (wfq_weights given)) as Hfold.
  cbv beta in Hfold. rewrite !patched_0 in Hfold.
  assert (He : given <| wfq_active_packets := wfq_active_packets given |>
                     <| wfq_finish_times := wfq_finish_times given |> = given) by by destruct given.
  rewrite He in Hfold. rewrite Hfold.
  { by rewrite !patched_all by lia. }
  clear Hfold. intros i weight Hi. pose proof (lookup_lt_Some _ _ _ Hi) as Hlt. rewrite Hw in Hi.
  destruct (lookup_lt_is_Some_2 (wfq_active_packets state) i) as [active Hact]; [lia|].
  destruct (lookup_lt_is_Some_2 (wfq_finish_times state) i) as [finish Hfin]; [lia|].
  assert (Hrow : scheduler_rows (sq_scheduler encoded) !! i
    = Some (class_row weight active (rational_words finish))).
  { rewrite Hs. cbn [scheduler_rows]. unfold wfq_rows. by rewrite list_lookup_imap, Hi, Hact, Hfin. }
  unfold restore_wfq_class. rewrite (check_class_ok i _ weight Hrow) by done.
  cbn [mbind fueled_bind]. change SCHEDULER_CLASS_ACTIVE with 1%nat.
  change SCHEDULER_CLASS_FINISH with 2%nat. rewrite (read_class i _ 1 Hrow) by lia.
  cbn [class_row app lookup list_lookup or_panic mbind fueled_bind].
  destruct (patched_step (wfq_active_packets state) (wfq_active_packets given) i active ltac:(lia) Hact) as [Hla Hsa].
  destruct (patched_step (wfq_finish_times state) (wfq_finish_times given) i finish ltac:(lia) Hfin) as [Hlf Hsf].
  set (a := patched (wfq_active_packets state) _ i) in *.
  set (f := patched (wfq_finish_times state) _ i) in *.
  change (wfq_active_packets (given <| wfq_active_packets := a |> <| wfq_finish_times := f |>)) with a.
  change (wfq_finish_times (given <| wfq_active_packets := a |> <| wfq_finish_times := f |>)) with f.
  unfold write_word. rewrite (proj2 (Nat.ltb_lt _ _) Hla), Hsa. cbn [or_panic mbind fueled_bind].
  rewrite (read_class_finish i state finish Hs Hfin). cbn [or_panic mbind fueled_bind].
  rewrite (proj2 (Nat.ltb_lt _ _) Hlf), <- Hsf. by destruct given.
Qed.

Lemma restore_tags_ok given :
  fueled_fold (restore_tag capacity first
                 (classes + 12 * length (scheduler_rows (sq_scheduler encoded))) words)
    (given <| wfq_packet_finish_times := [] |>) (imap pair (sq_queue encoded))
  = Some (Ok (given <| wfq_packet_finish_times := tags_map state (sq_queue encoded) |>)).
Proof using All.
  pose proof (indexed_fold (restore_tag capacity first
      (classes + 12 * length (scheduler_rows (sq_scheduler encoded))) words)
    (fun i => given <| wfq_packet_finish_times := tags_map state (take i (sq_queue encoded)) |>)
    (sq_queue encoded)) as Hfold.
  cbv beta in Hfold. rewrite firstn_all in Hfold. apply Hfold. clear Hfold. intros i payload Hi.
  destruct (read_tag i payload state Hs Hi) as [Hread Hle]. unfold restore_tag.
  fold (physical_slot capacity first i). change RATIONAL_WORDS with 10%nat.
  rewrite (proj2 (checked_add_Some _ _ (Z.of_nat (classes
    + 12 * length (scheduler_rows (sq_scheduler encoded)) + physical_slot capacity first i * 10))))
    by lia.
  cbn [ok_or lift_result mbind fueled_bind]. rewrite Nat2Z.id, Hread. cbn [mbind fueled_bind].
  rewrite Nat.add_1_r, (take_S_r _ _ _ Hi), tags_map_snoc. by destruct given.
Qed.

Lemma restore_wfq_ok queue given : sq_queue queue = sq_queue encoded ->
  sq_in_service queue = sq_in_service encoded -> wfq_weights given = wfq_weights state ->
  length (wfq_active_packets given) = length (wfq_weights given) ->
  length (wfq_finish_times given) = length (wfq_weights given) -> tags_exact encoded ->
  restore_wfq (slot * 29) slot queue_meta words queue given = Some (Ok state).
Proof using All.
  intros Hq Hserv Hw Ha Hf Hexact. unfold tags_exact in Hexact. rewrite Hs in Hexact.
  destruct Hexact as [Hwf Hdom]. pose proof (qr_scheduler _ _ _ Hready) as Hwfq.
  unfold scheduler_ready in Hwfq. rewrite Hs in Hwfq.
  pose proof (tags_map_exact state _ Hwf (wr_tags _ _ Hwfq) Hdom) as Htags.
  unfold restore_wfq. pose proof read_class_table_ok as Ht. rewrite Hs in Ht.
  specialize (Ht ltac:(done)). cbn [scheduler_rows] in Ht. unfold wfq_rows in Ht.
  rewrite length_imap, <- Hw in Ht. rewrite Ht. cbn [mbind fueled_bind].
  change SCHEDULER_VIRTUAL_TIME with 5%nat. change SCHEDULER_LAST_UPDATED with 4%nat.
  change SCHEDULER_QUEUE_TAG_OFFSET with 3%nat. change SCHEDULER_IN_SERVICE_TAG with 15%nat.
  rewrite (read_virtual_time state Hs). cbn [mbind fueled_bind].
  rewrite !read_header by lia. rewrite Hs. cbn [header_words lookup list_lookup or_panic mbind fueled_bind].
  match goal with |- context [fueled_fold _ ?g (imap pair (wfq_weights given))] =>
    change (wfq_weights given) with (wfq_weights g); rewrite (restore_wfq_classes g) by done end.
  cbn [mbind fueled_bind].
  destruct (qr_capacity _ _ _ Hready) as [c Hc]. destruct (qr_head _ _ _ Hready) as [h Hh].
  rewrite Hc, Hh. cbn [fmap option_fmap option_map or_panic mbind fueled_bind]. rewrite Nat2Z.id.
  replace (Z.to_nat c) with capacity by (unfold ring_capacity; by rewrite Hc).
  replace (Z.to_nat h) with first by (unfold ring_head; by rewrite Hh).
  rewrite Hq, <- Hs, restore_tags_ok, Hserv. cbn [mbind fueled_bind].
  destruct (sq_in_service encoded) as [payload|] eqn:Hp.
  - rewrite (read_service_tag state payload Hs Hp). cbn [mbind fueled_bind lift_result].
    change (option_list (Some payload)) with [payload] in Htags. rewrite tags_map_snoc in Htags.
    destruct given, state. cbn in *. subst. by rewrite Htags.
  - change (option_list None) with (@nil PayloadId) in Htags. rewrite app_nil_r in Htags.
    destruct given, state. cbn in *. subst. by rewrite Htags.
Qed.
End restore_wfq.

Lemma check_drop_mark_ok : check_drop_mark (slot * 29) slot (im_seed image) words encoded = Some (Ok tt).
Proof using All.
  pose proof (qr_mark _ _ _ Hready) as Hm. unfold check_drop_mark.
  change SCHEDULER_AQM_KIND with (25 + 0)%nat. change SCHEDULER_AQM_RECORD with (25 + 1)%nat.
  change SCHEDULER_AQM_CAPACITY with (25 + 2)%nat. change SCHEDULER_AQM_KMIN with (25 + 3)%nat.
  rewrite !read_mark by lia. unfold mark_words.
  destruct (sq_drop_mark encoded) as [|policy] eqn:Hd; [done|]. destruct Hm as [span Hspan].
  cbn [lookup list_lookup or_panic mbind fueled_bind]. rewrite <- Hid, Nat2Z.id.
  assert (Hr : exists record, ecn_record policy (im_seed image) (nd_id node) = Ok record
    /\ length record = 4%nat).
  { unfold ecn_record. rewrite Hspan. by eexists. }
  destruct Hr as (record & Hr & Hl). rewrite Hr. cbn [lift_result mbind fueled_bind].
  rewrite !Z.eqb_refl. cbn [negb orb]. rewrite bool_decide_true; [done|].
  rewrite Harena. unfold queue_arena, mark_arena. rewrite Hd, Hr, <- !app_assoc.
  rewrite <- (Nat.add_0_r (length pre')). rewrite window_read_slice by (rewrite Hl; done).
  rewrite drop_0, take_ge by (rewrite Hl; done). done.
Qed.

Lemma restore_scheduler_ok given : same_queue_shape given encoded -> tags_exact encoded ->
  restore_scheduler (slot * 29) slot queue_meta words given = Some (Ok (sq_scheduler encoded)).
Proof using All.
  intros [Hrest Hshape] Hexact. unfold restore_scheduler, same_scheduler_shape in *.
  pose proof (qr_scheduler _ _ _ Hready) as Hsched. unfold scheduler_ready in Hsched.
  destruct (sq_scheduler given) as [|ps|state|state|state] eqn:Hg,
    (sq_scheduler encoded) as [|ps'|state'|state'|state'] eqn:He; try done.
  - by subst.
  - destruct Hshape as (Hw & Ha & Hf).
    rewrite (restore_wfq_ok state' He given state); try done; by rewrite <- Hrest.
  - destruct Hshape as (Hw & Hl).
    rewrite (restore_round_robin_ok _ _ (drr_deficits_bytes state') (drr_current_class state'));
      rewrite ?He; try done; [|by rewrite Hw..].
    destruct state, state'. cbn in *. by subst.
  - destruct Hshape as (Hw & Hl).
    rewrite (restore_round_robin_ok _ _ (wrr_packets_sent_in_round state') (wrr_current_class state'));
      rewrite ?He; try done; [|by rewrite Hw..].
    destruct state, state'. cbn in *. by subst.
Qed.

Lemma restore_queue given : same_queue_shape given encoded -> tags_exact encoded ->
  restore_device_scheduler slot (im_seed image) queue_meta words given = Some (Ok encoded).
Proof using All.
  intros Hshape Hexact. unfold restore_device_scheduler.
  pose proof (read_header 0 ltac:(lia)) as Hk. pose proof (eq_sym (block_length pre post _ _ _ _ block_shaped)) as Hlen.
  fold (queue_block image (nd_id node) (length pre') encoded) in Hlen. rewrite <- Hblock in Hlen.
  change (Z.of_nat SCHEDULER_NODE_WORDS) with 29.
  rewrite (proj2 (checked_mul_Some _ 29 (Z.of_nat (slot * 29)))) by lia.
  cbn [ok_or lift_result mbind fueled_bind]. rewrite Nat2Z.id. change SCHEDULER_KIND with 0%nat.
  rewrite Hk, header_words_kind. cbn [ok_or lift_result mbind fueled_bind].
  rewrite (same_shape_code _ _ (sqs_scheduler _ _ Hshape)), Z.eqb_refl. cbn [negb].
  assert (Hmark : check_drop_mark (slot * 29) slot (im_seed image) words given = Some (Ok tt)).
  { rewrite <- check_drop_mark_ok. unfold check_drop_mark. by rewrite <- (sqs_rest _ _ Hshape). }
  rewrite Hmark. cbn [mbind fueled_bind]. rewrite restore_scheduler_ok by done.
  cbn [mbind fueled_bind]. by rewrite (sqs_rest _ _ Hshape).
Qed.
End restore.

(** ** The whole plane *)

Section plane.
Context (image : SimulationImage) (queue_meta : list Z).
Abbreviation arenas nodes := (mjoin (node_arena image queue_meta <$> nodes)).

Lemma plane_blocks_app offset before after :
  plane_blocks image queue_meta offset (before ++ after)
  = plane_blocks image queue_meta offset before
    ++ plane_blocks image queue_meta (offset + length (arenas before)) after.
Proof using Type.
  revert offset. induction before as [|node before IH]; intros offset; [by rewrite Nat.add_0_r|].
  cbn [app plane_blocks]. rewrite IH. cbn [app]. do 3 f_equal.
  change (arenas (node :: before)) with (node_arena image queue_meta node ++ arenas before).
  rewrite length_app. lia.
Qed.

Lemma plane_blocks_length offset nodes : Forall (node_ready image queue_meta) nodes ->
  length (mjoin (plane_blocks image queue_meta offset nodes)) = (length nodes * 29)%nat.
Proof using Type.
  intros Hr. revert offset. induction Hr as [|node nodes Hn _ IH]; intros offset; [done|].
  cbn [plane_blocks]. change (mjoin (?x :: ?l)) with (x ++ mjoin l).
  rewrite length_app, (plane_block_length image queue_meta), IH by done. simpl. lia.
Qed.

Lemma restore_plane node queue given : plane_ready image queue_meta (im_nodes image) ->
  node ∈ im_nodes image -> node_queue image node = Some queue ->
  tags_exact queue -> same_queue_shape given queue ->
  restore_device_scheduler (Z.to_nat (nd_id node)) (im_seed image) queue_meta
    (plane_words image queue_meta (im_nodes image)) given = Some (Ok queue).
Proof using Type.
  intros [Hd Hr Hl] Hin Hq Hexact Hshape.
  apply list_elem_of_lookup in Hin as [i Hi]. pose proof (Hd i node Hi) as Hid.
  pose proof (lookup_lt_Some _ _ _ Hi) as Hlt.
  pose proof (Forall_lookup_1 _ _ _ _ Hr Hi) as Hn.
  set (before := take i (im_nodes image)). set (after := drop (S i) (im_nodes image)).
  assert (Hsplit : im_nodes image = before ++ node :: after) by (symmetry; by apply take_drop_middle).
  assert (Hb : Forall (node_ready image queue_meta) before) by by apply Forall_take.
  pose proof (plane_blocks_length (29 * length (im_nodes image)) _ Hr) as Hblocks.
  eapply (restore_queue image queue_meta _ node queue) with
    (pre := mjoin (plane_blocks image queue_meta (29 * length (im_nodes image)) before))
    (pre' := mjoin (plane_blocks image queue_meta (29 * length (im_nodes image)) (im_nodes image))
             ++ arenas before); try done.
  - lia.
  - by apply (nr_queue _ _ _ Hn).
  - unfold plane_words. rewrite length_app, Hblocks.
    rewrite Hsplit at 2 3. rewrite plane_blocks_app, join_app. cbn [plane_blocks].
    change (mjoin (?x :: ?l)) with (x ++ mjoin l). rewrite <- !app_assoc. f_equal.
    unfold plane_block. rewrite Hq, Nat.mul_comm. reflexivity.
  - rewrite plane_blocks_length by done. unfold before. rewrite length_take. lia.
  - unfold plane_words. rewrite Hsplit at 3. rewrite fmap_app, join_app, fmap_cons.
    change (mjoin (?x :: ?l)) with (x ++ mjoin l). rewrite <- !app_assoc. do 2 f_equal.
    unfold node_arena at 1. by rewrite Hq.
  - unfold plane_words. rewrite length_app, Hblocks. lia.
Qed.
End plane.

(** C28. The device scheduler plane restores what it was planned from. For an image
    whose nodes are numbered densely, whose switch queues fit their rings and whose
    WFQ rationals fit 320 bits, [prepare_device_schedulers] succeeds, and reading any
    node's block back with [restore_device_scheduler] returns exactly the queue that was
    encoded: cursors, deficits, counts, virtual time, finish times and the finish tag of
    every waiting packet. The queue handed to the readback may hold any earlier
    scheduler state of the same shape; none of it survives. *)
Theorem scheduler_plane_round_trip image queue_meta
    (Hready : plane_ready image queue_meta (im_nodes image)) :
  exists words,
    prepare_device_schedulers image queue_meta = Some (Ok words)
    /\ forall node queue given,
         node ∈ im_nodes image -> node_queue image node = Some queue -> tags_exact queue ->
         same_queue_shape given queue ->
         restore_device_scheduler (Z.to_nat (nd_id node)) (im_seed image) queue_meta words given
         = Some (Ok queue).
Proof.
  exists (plane_words image queue_meta (im_nodes image)). split; [by apply prepare_plane|].
  intros node queue given Hin Hq Hexact Hshape. by apply restore_plane.
Qed.

(** A host, then a switch that fair-queues two classes with a marking ramp. *)
Definition sample_wfq : WfqSchedulerState :=
  mkWfq [1; 3] (7 # 2) 40 [(9 # 2)%Q; (5 # 1)%Q] [1; 2] [(4, (9 # 2)%Q); (6, (4 # 1)%Q); (9, (5 # 1)%Q)].

Definition sample_queue (state : WfqSchedulerState) : SwitchQueueState :=
  mkSwitchQueue None (WeightedFairQueue state) 4 (EcnRampMark (mkEcnRamp 4000 1000 3000 1 2)) None
    [4; 9] (Some 6) false.

Definition sample_image : SimulationImage :=
  mkImage 1000 [mkNode 0 Host 0; mkNode 1 Switch 0] []
    [mkSwitch 1 [sample_queue sample_wfq] 0 0 0 0] [] [] [] [] [] 17 [] [] [].

(** The switch's ring: four slots, the first packet in the last one. *)
Definition sample_meta : list Z := [0; 0; 0; 0; 0; 0; 4; 3; 2; 0].

Lemma scheduler_plane_round_trip_witness :
  exists words,
    prepare_device_schedulers sample_image sample_meta = Some (Ok words)
    /\ restore_device_scheduler 1 17 sample_meta words
         (sample_queue (mkWfq [1; 3] 0 0 [0%Q; 0%Q] [0; 0] []))
       = Some (Ok (sample_queue sample_wfq)).
Proof.
  assert (Hfit : forall payload, payload ∈ [4; 9; 6] -> exists finish,
      bm_get payload (wfq_packet_finish_times sample_wfq) = Some finish /\ rational_fits finish).
  { intros payload Hp. rewrite !elem_of_cons in Hp.
    destruct Hp as [->|[->|[->|Hp]]]; [| | |by apply not_elem_of_nil in Hp];
      (eexists; split; [reflexivity|constructor; [done|by apply Nat.leb_le..]]). }
  destruct (scheduler_plane_round_trip sample_image sample_meta) as (words & Hw & Hr).
  - constructor; [| |by vm_compute].
    + intros [|[|i]] node Hi; by simplify_eq/=.
    + apply Forall_cons. split; [by constructor|]. apply Forall_cons. split; [|constructor].
      constructor; [by eexists|]. intros queue [= <-].
      constructor; [by eexists|by eexists|by apply Nat.leb_le|by eexists|].
      constructor; [done|done|apply Forall_cons; split; [|apply Forall_cons; split; [|constructor]];
          (constructor; [done|by apply Nat.leb_le..])
        |constructor; [done|by apply Nat.leb_le..]|exact Hfit].
  - exists words. split; [exact Hw|].
    apply (Hr (mkNode 1 Switch 0) (sample_queue sample_wfq));
      [by apply (list_elem_of_lookup_2 _ 1)|reflexivity| |].
    + split; [repeat constructor|]. change ((wfq_packet_finish_times sample_wfq).*1) with [4; 6; 9].
      change (forall payload, payload ∈ [4; 6; 9] -> payload ∈ [4; 9; 6]). clear. set_solver.
    + constructor; [reflexivity|]. by split_and!.
Defined.
