(* ===== verification/StageIndex.v ===== *)
(** * The per-host stage index (executor/src/stage_index.rs)

    Keyed views of a host's generator, receiver and stage tables. The index that
    [build] makes, and the one that is left when a stage is written and its place
    in the releasable set refreshed, give to each lookup the answer, in the order,
    of the table scan it replaces; [IndexRuns] shows that the handlers keep it so.
    The read counters of the test builds are not modelled. *)

From S2P Require Import Prelude OrdMap Event Tcp Model Image PfcOrder Sched.

#[export] Instance nat_ord : OrdKey nat := ord_by Z.of_nat Nat2Z.inj.

Lemma klt_nat (a b : nat) : klt a b <-> (a < b)%nat.
Proof. unfold klt. change (kcmp a b) with (Z.of_nat a ?= Z.of_nat b). rewrite Z.compare_lt_iff. lia. Qed.

(** [ReleasableStages]. *)
Definition ReleasableStages : Type := bset nat.

(** A stage its prerequisites have released but that has not activated. *)
Definition releasable (stage : option CollectiveStage) : bool :=
  match stage with
  | Some stage => negb (st_activated stage) && prerequisites_complete (st_dependencies stage)
  | None => false
  end.

Definition refresh (s : ReleasableStages) (position : nat) (stage : option CollectiveStage)
  : ReleasableStages :=
  if releasable stage then (bs_insert position s).2 else (bs_remove position s).2.

Definition stage_at (stages : list (option CollectiveStage)) (position : nat)
  : option CollectiveStage := mjoin (stages !! position).

(** The scan that [first_ready] replaces. *)
Definition first_ready_by_scan (generators : list FlowGeneratorState)
    (stages : list (option CollectiveStage)) : option nat :=
  find_position id
    (imap (fun position generator =>
       bool_decide (se_status (fg_next_emission generator) = Blocked)
       && releasable (stage_at stages position)) generators).

(** The entries of [flow] in a list sorted by flow and then position. *)
Definition entries_of (entries : list (FlowId * nat)) (flow : FlowId) : list (FlowId * nat) :=
  let start := partition_point (fun e => e.1 <? flow) entries in
  let rest := drop start entries in
  take (partition_point (fun e => e.1 =? flow) rest) rest.

Inductive KeyedList :=
| One (entry : FlowId * nat)
| Many (entries : list (FlowId * nat)).

(** [Deref]: both representations present the same slice. *)
Definition keyed_slice (l : KeyedList) : list (FlowId * nat) :=
  match l with One entry => [entry] | Many entries => entries end.

Definition by_flow (flows : list FlowId) : KeyedList :=
  let entries := imap (fun position flow => (flow, position)) flows in
  match entries with
  | [] => Many []
  | [entry] => One entry
  | _ => Many (merge_sort kle entries)
  end.

Record StageViews := mkViews {
  vw_local_successors : bmap FlowId (list nat);
  vw_inbound_successors : bmap FlowId (list nat);
  vw_releasable : ReleasableStages;
}.

Record HostStageIndex := mkIndex {
  ix_generators_by_flow : KeyedList;
  ix_receivers_by_flow : KeyedList;
  ix_stage_views : option StageViews;
}.

#[export] Instance eta_views : RecordEta StageViews := fun v =>
  mkViews (vw_local_successors v) (vw_inbound_successors v) (vw_releasable v).
#[export] Instance eta_index : RecordEta HostStageIndex := fun i =>
  mkIndex (ix_generators_by_flow i) (ix_receivers_by_flow i) (ix_stage_views i).

(** [entry(predecessor).or_default().push(position)] for each predecessor. *)
Definition add_successor (position : nat) (m : bmap FlowId (list nat)) (predecessor : FlowId)
  : bmap FlowId (list nat) :=
  bm_insert predecessor (default [] (bm_get predecessor m) ++ [position]) m.

Definition build_position (state : HostState) (joins : list FlowId)
    (stage_views : option StageViews) (position : nat) : option StageViews :=
  match stage_dependencies state position with
  | None => stage_views
  | Some dependencies =>
      let views := default (mkViews [] [] []) stage_views in
      Some (mkViews
        (foldl (add_successor position) (vw_local_successors views)
           (pred_iter (sd_local dependencies) joins))
        (foldl (add_successor position) (vw_inbound_successors views)
           (pred_iter (sd_inbound dependencies) joins))
        (refresh (vw_releasable views) position (host_stage state position)))
  end.

Definition build (state : HostState) (joins : list FlowId) : HostStageIndex :=
  mkIndex (by_flow (fg_flow <$> hs_generators state))
    (by_flow (tr_flow <$> hs_tcp_receivers state))
    (foldl (build_position state joins) None (seq 0 (length (hs_generators state)))).

Definition generators_of (index : HostStageIndex) (flow : FlowId) : list (FlowId * nat) :=
  entries_of (keyed_slice (ix_generators_by_flow index)) flow.

Definition first_generator (index : HostStageIndex) (flow : FlowId) : option nat :=
  snd <$> head (entries_of (keyed_slice (ix_generators_by_flow index)) flow).

Definition first_receiver (index : HostStageIndex) (flow : FlowId) : option nat :=
  snd <$> head (entries_of (keyed_slice (ix_receivers_by_flow index)) flow).

Definition local_successors_of (index : HostStageIndex) (completed : FlowId)
  : option (list nat * ReleasableStages) :=
  views ← ix_stage_views index;
  Some (default [] (bm_get completed (vw_local_successors views)), vw_releasable views).

Definition inbound_successors_of (index : HostStageIndex) (inbound : FlowId)
  : option (list nat * ReleasableStages) :=
  views ← ix_stage_views index;
  Some (default [] (bm_get inbound (vw_inbound_successors views)), vw_releasable views).

(** The first of [positions] whose generator is blocked; [None] is the panic of
    a position beyond the table. *)
Fixpoint find_blocked (generators : list FlowGeneratorState) (positions : list nat)
  : option (option nat) :=
  match positions with
  | [] => Some None
  | position :: positions =>
      generator ← generators !! position;
      if bool_decide (se_status (fg_next_emission generator) = Blocked)
      then Some (Some position) else find_blocked generators positions
  end.

Definition first_ready (index : HostStageIndex) (generators : list FlowGeneratorState)
  : option (option nat) :=
  match ix_stage_views index with
  | Some views => find_blocked generators (vw_releasable views)
  | None => Some None
  end.

Definition set_releasable (index : HostStageIndex) (s : ReleasableStages) : HostStageIndex :=
  index <| ix_stage_views ::= fmap (fun views => views <| vw_releasable := s |>) |>.

Definition refresh_releasable (index : HostStageIndex) (position : nat)
    (stage : option CollectiveStage) : HostStageIndex :=
  index <| ix_stage_views ::=
    fmap (fun views => views <| vw_releasable ::= fun s => refresh s position stage |>) |>.

(** ** Keyed lists *)

Lemma kle_fst (a b : FlowId * nat) : kle a b -> a.1 <= b.1.
Proof.
  rewrite kle_lt_eq, klt_pair, klt_Z. intros [[H|[H _]]| ->]; lia.
Qed.

Lemma entries_of_sorted l flow : StronglySorted kle l ->
  entries_of l flow = filter (fun e => e.1 = flow) l.
Proof.
  unfold entries_of. induction l as [|e l IH]; intros Hs; [done|].
  apply StronglySorted_inv in Hs as [Hs He]. rewrite filter_cons. simpl.
  destruct (Z.ltb_spec e.1 flow) as [Hlt|Hge].
  - simpl. rewrite decide_False by lia. auto.
  - cbn [drop]. simpl. destruct (Z.eqb_spec e.1 flow) as [Heq|Hne].
    + rewrite decide_True by done. f_equal. specialize (IH Hs).
      destruct l as [|x l]; [done|]. rewrite <- IH. simpl.
      rewrite Forall_forall in He. assert (flow <= x.1) by (subst; apply kle_fst, He; set_solver).
      by rewrite (proj2 (Z.ltb_ge _ _)).
    + rewrite decide_False by done. symmetry. clear IH. induction l as [|x l IHl]; [done|].
      apply StronglySorted_inv in Hs as [Hs _]. apply Forall_cons in He as [Hx He].
      apply kle_fst in Hx. rewrite filter_cons_False by lia. auto.
Qed.

Section keyed.
Context {A : Type} (f : A -> FlowId).

Definition table_entries (k : nat) (l : list A) : list (FlowId * nat) :=
  imap (fun position x => (f x, k + position)%nat) l.

Lemma table_entries_cons k x l :
  table_entries k (x :: l) = (f x, k) :: table_entries (S k) l.
Proof.
  unfold table_entries. simpl. f_equal; [by rewrite Nat.add_0_r|].
  apply imap_ext. intros i y _. simpl. by rewrite Nat.add_succ_r.
Qed.

Lemma table_entries_above k l e : e ∈ table_entries k l -> (k <= e.2)%nat.
Proof.
  revert k. induction l as [|x l IH]; intros k; [by intros ?%not_elem_of_nil|].
  rewrite table_entries_cons, elem_of_cons. intros [->|H]; [done|]. apply IH in H. lia.
Qed.

Lemma table_entries_sorted k l flow :
  StronglySorted kle (filter (fun e => e.1 = flow) (table_entries k l)).
Proof.
  revert k. induction l as [|x l IH]; intros k; [constructor|].
  rewrite table_entries_cons, filter_cons. case_decide as Hd; [|apply IH].
  constructor; [apply IH|]. apply Forall_forall. intros e [He Hin]%list_elem_of_filter.
  apply table_entries_above in Hin. apply klt_le, klt_pair. right.
  simpl in *. split; [congruence|]. apply klt_nat. lia.
Qed.

Lemma keyed_perm (l : list A) :
  keyed_slice (by_flow (f <$> l)) ≡ₚ table_entries 0 l /\
  StronglySorted kle (keyed_slice (by_flow (f <$> l))).
Proof.
  assert (Heq : imap (fun position flow => (flow, position)) (f <$> l) = table_entries 0 l)
    by (unfold table_entries; by rewrite imap_fmap).
  unfold by_flow. rewrite Heq. destruct (table_entries 0 l) as [|a [|b t]]; simpl.
  - split; [done|constructor].
  - split; [done|repeat constructor].
  - split; [apply merge_sort_Permutation|]. apply StronglySorted_merge_sort; apply _.
Qed.

Lemma keyed_entries (l : list A) flow :
  entries_of (keyed_slice (by_flow (f <$> l))) flow
  = filter (fun e => e.1 = flow) (table_entries 0 l).
Proof.
  destruct (keyed_perm l) as [Hp Hs]. rewrite entries_of_sorted by done.
  apply (StronglySorted_unique (kle (K := FlowId * nat))); [by apply filter_sorted|apply table_entries_sorted|].
  by rewrite Hp.
Qed.

Lemma table_first k (l : list A) flow :
  snd <$> head (filter (fun e => e.1 = flow) (table_entries k l))
  = (fun p => k + p)%nat <$> find_position (fun x => f x =? flow) l.
Proof.
  revert k. induction l as [|x l IH]; intros k; [done|].
  rewrite table_entries_cons, filter_cons. simpl.
  destruct (Z.eqb_spec (f x) flow) as [He|He].
  - rewrite decide_True by done. simpl. by rewrite Nat.add_0_r.
  - rewrite decide_False by done. rewrite IH. destruct (find_position _ l); simpl; [|done].
    by rewrite Nat.add_succ_r.
Qed.
End keyed.

(** ** The index of a host *)

(** The positions of the stages naming [flow] as a predecessor, in table order,
    once for every time they name it. *)
Definition successors (preds : StageDependencies -> StagePredecessors) (state : HostState)
    (joins : list FlowId) (n : nat) (flow : FlowId) : list nat :=
  mjoin ((fun position =>
    match stage_dependencies state position with
    | Some dependencies =>
        (fun _ => position) <$> filter (fun p => p = flow) (pred_iter (preds dependencies) joins)
    | None => []
    end) <$> seq 0 n).

Definition releasable_positions (state : HostState) (n : nat) : list nat :=
  filter (fun position => releasable (host_stage state position) = true) (seq 0 n).

Record views_ok (state : HostState) (joins : list FlowId) (n : nat)
    (views : option StageViews) : Prop := {
  vok_none : views = None -> forall position, (position < n)%nat ->
    host_stage state position = None;
  vok_local v flow : views = Some v ->
    default [] (bm_get flow (vw_local_successors v)) = successors sd_local state joins n flow;
  vok_inbound v flow : views = Some v ->
    default [] (bm_get flow (vw_inbound_successors v)) = successors sd_inbound state joins n flow;
  vok_releasable v : views = Some v -> vw_releasable v = releasable_positions state n;
}.

(** The index answers for [state]: its keyed lists are those of the tables and
    its stage views those of the stages. *)
Record index_ok (state : HostState) (joins : list FlowId) (index : HostStageIndex) : Prop := {
  iok_generators : ix_generators_by_flow index = by_flow (fg_flow <$> hs_generators state);
  iok_receivers : ix_receivers_by_flow index = by_flow (tr_flow <$> hs_tcp_receivers state);
  iok_views : views_ok state joins (length (hs_generators state)) (ix_stage_views index);
}.

Lemma add_successor_get position preds m flow :
  default [] (bm_get flow (foldl (add_successor position) m preds))
  = default [] (bm_get flow m) ++ ((fun _ => position) <$> filter (fun p => p = flow) preds).
Proof.
  revert m. induction preds as [|p preds IH]; intros m; simpl; [by rewrite app_nil_r|].
  rewrite IH, filter_cons. unfold add_successor. case_decide as Hd.
  - subst. rewrite bm_get_insert_eq. simpl. by rewrite <- app_assoc.
  - by rewrite bm_get_insert_ne.
Qed.

Lemma successors_S preds state joins n flow :
  successors preds state joins (S n) flow
  = successors preds state joins n flow ++
    match stage_dependencies state n with
    | Some dependencies =>
        (fun _ => n) <$> filter (fun p => p = flow) (pred_iter (preds dependencies) joins)
    | None => []
    end.
Proof.
  unfold successors. rewrite seq_S, fmap_app, join_app. simpl. by rewrite app_nil_r.
Qed.

Lemma releasable_positions_S state n :
  releasable_positions state (S n)
  = releasable_positions state n ++ (if releasable (host_stage state n) then [n] else []).
Proof.
  unfold releasable_positions. rewrite seq_S, filter_app, filter_cons, filter_nil. simpl.
  destruct (releasable _); [by rewrite decide_True|by rewrite decide_False].
Qed.

Lemma releasable_positions_elem state n p :
  p ∈ releasable_positions state n <-> (p < n)%nat /\ releasable (host_stage state p) = true.
Proof. unfold releasable_positions. rewrite list_elem_of_filter, elem_of_seq. naive_solver lia. Qed.

Lemma seq_sorted a n : StronglySorted klt (seq a n).
Proof.
  revert a. induction n as [|n IH]; intros a; simpl; constructor; [done|].
  apply Forall_forall. intros x Hx%elem_of_seq. apply klt_nat. lia.
Qed.

Lemma releasable_positions_sorted state n : StronglySorted klt (releasable_positions state n).
Proof. apply filter_sorted, seq_sorted. Qed.

Lemma sorted_ext (l1 l2 : list nat) : StronglySorted klt l1 -> StronglySorted klt l2 ->
  (forall x, x ∈ l1 <-> x ∈ l2) -> l1 = l2.
Proof.
  intros H1 H2 Hx.
  assert (HN : forall l : list nat, StronglySorted klt l -> NoDup l).
  { induction 1 as [|x l _ IH Hall]; constructor; [|done]. intros Hin.
    rewrite Forall_forall in Hall. by apply (klt_irrefl x), Hall. }
  apply (StronglySorted_unique (kle (K := nat))).
  - eapply StronglySorted_mono; [|done]. intros. by apply klt_le.
  - eapply StronglySorted_mono; [|done]. intros. by apply klt_le.
  - apply NoDup_Permutation; auto.
Qed.

Lemma bs_remove_elem (k : nat) s x : x ∈ (bs_remove k s).2 <-> x ∈ s /\ x <> k.
Proof. unfold bs_remove. simpl. rewrite list_elem_of_filter. tauto. Qed.

Lemma refresh_elem s position stage x : x ∈ refresh s position stage <->
  if decide (x = position) then releasable stage = true else x ∈ s.
Proof.
  unfold refresh. destruct (releasable stage) eqn:E; case_decide as Hd; subst; simpl.
  - unfold bs_insert. simpl. rewrite bs_add_elem_of. tauto.
  - rewrite bs_add_elem_of. tauto.
  - rewrite list_elem_of_filter. naive_solver.
  - rewrite list_elem_of_filter. tauto.
Qed.

Lemma refresh_sorted s position stage : StronglySorted klt s ->
  StronglySorted klt (refresh s position stage).
Proof.
  intros Hs. unfold refresh. destruct (releasable stage); simpl.
  - by apply bs_add_sorted.
  - by apply filter_sorted.
Qed.

Lemma no_stage_views state joins n :
  (forall position, (position < n)%nat -> host_stage state position = None) ->
  (forall preds flow, successors preds state joins n flow = []) /\
  releasable_positions state n = [].
Proof.
  intros Hno. split.
  - intros preds flow. induction n as [|n IH]; [done|].
    rewrite successors_S, IH by (intros; apply Hno; lia). unfold stage_dependencies.
    by rewrite Hno by lia.
  - induction n as [|n IH]; [done|].
    rewrite releasable_positions_S, IH by (intros; apply Hno; lia). by rewrite Hno by lia.
Qed.

(** An index without stage views answers as one whose views are empty. *)
Lemma views_ok_default state joins n views : views_ok state joins n views ->
  let v := default (mkViews [] [] []) views in
  (forall flow, default [] (bm_get flow (vw_local_successors v))
                = successors sd_local state joins n flow) /\
  (forall flow, default [] (bm_get flow (vw_inbound_successors v))
                = successors sd_inbound state joins n flow) /\
  vw_releasable v = releasable_positions state n.
Proof.
  intros [Hnone Hl Hi Hr]. destruct views as [v|]; simpl.
  - split_and!; auto.
  - destruct (no_stage_views state joins n (Hnone eq_refl)) as [Hs Hp].
    split_and!; [intros; by rewrite Hs..|done].
Qed.

Lemma build_position_ok state joins n views : views_ok state joins n views ->
  views_ok state joins (S n) (build_position state joins views n).
Proof.
  intros Hok. destruct (views_ok_default _ _ _ _ Hok) as (Hl & Hi & Hr).
  unfold build_position. destruct (stage_dependencies state n) as [d|] eqn:Ed.
  - split; [done|intros v flow [= <-]; simpl..|intros v [= <-]; simpl].
    + by rewrite add_successor_get, Hl, successors_S, Ed.
    + by rewrite add_successor_get, Hi, successors_S, Ed.
    + rewrite Hr. apply sorted_ext.
      * apply refresh_sorted, releasable_positions_sorted.
      * apply releasable_positions_sorted.
      * intros x. rewrite refresh_elem, !releasable_positions_elem.
        case_decide; subst; rewrite ?releasable_positions_elem;
          [|assert ((x < S n)%nat <-> (x < n)%nat) by lia; tauto].
        assert (n < S n)%nat by lia. tauto.
  - assert (Hst : host_stage state n = None)
      by (unfold stage_dependencies in Ed; by destruct (host_stage state n)).
    destruct Hok as [Hnone Hl' Hi' Hr']. split.
    + intros Hv p Hp. destruct (decide (p = n)) as [->|]; [done|]. apply Hnone; [done|lia].
    + intros v flow Hv. by rewrite (Hl' v flow Hv), successors_S, Ed, app_nil_r.
    + intros v flow Hv. by rewrite (Hi' v flow Hv), successors_S, Ed, app_nil_r.
    + intros v Hv. by rewrite (Hr' v Hv), releasable_positions_S, Hst, app_nil_r.
Qed.

Lemma build_ok state joins : index_ok state joins (build state joins).
Proof.
  split; [done|done|]. simpl. generalize (length (hs_generators state)) as n.
  induction n as [|n IH].
  - split; [intros; lia|done..].
  - rewrite seq_S, foldl_app. by apply build_position_ok.
Qed.

(** What a lookup reads of a host does not change when its generators keep their
    flows and its receivers and stages stay. *)
Lemma views_ok_stages state state' joins n views :
  hs_stages state' = hs_stages state -> views_ok state joins n views ->
  views_ok state' joins n views.
Proof.
  intros Hs. assert (Hst : forall p, host_stage state' p = host_stage state p)
    by (intros p; unfold host_stage; by rewrite Hs).
  assert (Hd : forall p, stage_dependencies state' p = stage_dependencies state p)
    by (intros p; unfold stage_dependencies; by rewrite Hst).
  assert (Hsu : forall preds flow,
    successors preds state' joins n flow = successors preds state joins n flow)
    by (intros; unfold successors; f_equal; apply list_fmap_ext; intros; by rewrite Hd).
  assert (Hre : releasable_positions state' n = releasable_positions state n).
  { apply sorted_ext; [apply releasable_positions_sorted..|].
    intros x. rewrite !releasable_positions_elem. by rewrite Hst. }
  intros [Hn Hl Hi Hr]. split; intros.
  - rewrite Hst. by apply Hn.
  - rewrite Hsu. by apply Hl.
  - rewrite Hsu. by apply Hi.
  - rewrite Hre. by apply Hr.
Qed.

Lemma index_ok_tables state state' joins index :
  fg_flow <$> hs_generators state' = fg_flow <$> hs_generators state ->
  tr_flow <$> hs_tcp_receivers state' = tr_flow <$> hs_tcp_receivers state ->
  hs_stages state' = hs_stages state ->
  index_ok state joins index -> index_ok state' joins index.
Proof.
  intros Hg Hr Hs [H1 H2 H3]. split; [by rewrite Hg|by rewrite Hr|].
  assert (length (hs_generators state') = length (hs_generators state)) as ->
    by (by rewrite <- (length_fmap fg_flow), Hg, length_fmap).
  by apply (views_ok_stages state).
Qed.

(** A stage's dependencies or release flag are written and its membership is
    refreshed; its predecessors stay. *)
Lemma refresh_ok state joins index position stage stage' :
  index_ok state joins index -> host_stage state position = Some stage ->
  (position < length (hs_generators state))%nat ->
  sd_local (st_dependencies stage') = sd_local (st_dependencies stage) ->
  sd_inbound (st_dependencies stage') = sd_inbound (st_dependencies stage) ->
  index_ok (state <| hs_stages ::= <[position := Some stage']> |>) joins
    (refresh_releasable index position (Some stage')).
Proof.
  intros [H1 H2 [Hn Hl Hi Hr]] Hst Hp El Ei.
  set (state' := state <| hs_stages ::= <[position := Some stage']> |>).
  assert (Hlen : (position < length (hs_stages state))%nat).
  { apply lookup_lt_is_Some. unfold host_stage in Hst.
    by destruct (hs_stages state !! position); [eexists|]. }
  assert (Hst' : forall p, host_stage state' p
    = if decide (p = position) then Some stage' else host_stage state p).
  { intros p. unfold host_stage, state'. simpl. case_decide as Hd; subst.
    - by rewrite list_lookup_insert_eq.
    - by rewrite list_lookup_insert_ne. }
  assert (Hsu : forall preds n flow, preds (st_dependencies stage') = preds (st_dependencies stage) ->
    successors preds state' joins n flow = successors preds state joins n flow).
  { intros preds n flow Hpr. unfold successors. f_equal. apply list_fmap_ext. intros i p _.
    unfold stage_dependencies. rewrite Hst'. case_decide; [|done]. subst. rewrite Hst. simpl.
    by rewrite Hpr. }
  split; [exact H1|exact H2|]. simpl.
  destruct (ix_stage_views index) as [v|] eqn:Ev; simpl.
  - split; [done|intros v' flow [= <-]; simpl..|intros v' [= <-]; simpl].
    + rewrite Hsu by done. by apply Hl.
    + rewrite Hsu by done. by apply Hi.
    + rewrite (Hr v eq_refl). apply sorted_ext; [apply refresh_sorted|..];
        [apply releasable_positions_sorted..|].
      intros x. rewrite refresh_elem, !releasable_positions_elem, Hst'.
      case_decide; rewrite ?releasable_positions_elem; [subst; tauto|done].
  - by rewrite Hn in Hst.
Qed.

(** The first released stage in position order whose generator is blocked is the
    first the scan finds. *)
Lemma find_blocked_scan generators (P : nat -> bool) k :
  find_blocked generators
    (filter (fun p => P p = true) (seq k (length generators - k)))
  = Some ((fun p => k + p)%nat <$>
      find_position id
        (imap (fun i generator => bool_decide (se_status (fg_next_emission generator) = Blocked)
                                  && P (k + i)%nat) (drop k generators))).
Proof.
  remember (length generators - k)%nat as n eqn:En. revert k En.
  induction n as [|n IH]; intros k En.
  - rewrite drop_ge by lia. done.
  - destruct (lookup_lt_is_Some_2 generators k) as [g Hg]; [lia|].
    rewrite (drop_S _ g) by done. simpl. rewrite filter_cons, Nat.add_0_r.
    assert (Hext : imap ((fun i generator => bool_decide (se_status (fg_next_emission generator) = Blocked)
        && P (k + i)%nat) ∘ S) (drop (S k) generators)
      = imap (fun i generator => bool_decide (se_status (fg_next_emission generator) = Blocked)
        && P (S k + i)%nat) (drop (S k) generators)).
    { apply imap_ext. intros i x _. simpl. by rewrite Nat.add_succ_r. }
    specialize (IH (S k)). rewrite Hext.
    assert (Hrest : find_blocked generators (filter (fun p => P p = true) (seq (S k) n))
      = Some ((fun p => k + p)%nat <$> (S <$> find_position id
          (imap (fun i generator => bool_decide (se_status (fg_next_emission generator) = Blocked)
             && P (S k + i)%nat) (drop (S k) generators))))).
    { rewrite IH by lia. f_equal. destruct (find_position _ _); simpl; [|done].
      f_equal. lia. }
    destruct (P k) eqn:EP.
    + rewrite decide_True by done. cbn [find_blocked]. rewrite Hg. cbn [mbind option_bind].
      case_bool_decide; simpl; [by rewrite Nat.add_0_r|exact Hrest].
    + rewrite decide_False by done. rewrite andb_false_r. simpl. exact Hrest.
Qed.

(** An index that answers for a host gives, to every lookup, the answer of the scan. *)
Lemma index_answers (state : HostState) (joins : list FlowId) (index : HostStageIndex) :
  index_ok state joins index ->
  (forall flow, first_generator index flow
     = find_position (fun g => fg_flow g =? flow) (hs_generators state)) /\
  (forall flow, first_receiver index flow
     = find_position (fun r => tr_flow r =? flow) (hs_tcp_receivers state)) /\
  (forall flow, generators_of index flow
     = filter (fun e => e.1 = flow) (imap (fun p g => (fg_flow g, p)) (hs_generators state))) /\
  (forall flow, default [] (fst <$> local_successors_of index flow)
     = successors sd_local state joins (length (hs_generators state)) flow) /\
  (forall flow, default [] (fst <$> inbound_successors_of index flow)
     = successors sd_inbound state joins (length (hs_generators state)) flow) /\
  first_ready index (hs_generators state)
    = Some (first_ready_by_scan (hs_generators state) (hs_stages state)).
Proof.
  intros [Hg Hr Hv]. destruct (views_ok_default _ _ _ _ Hv) as (Hl & Hi & Hs).
  split_and!.
  - intros flow. unfold first_generator. rewrite Hg, keyed_entries, table_first.
    by destruct (find_position _ _).
  - intros flow. unfold first_receiver. rewrite Hr, keyed_entries, table_first.
    by destruct (find_position _ _).
  - intros flow. unfold generators_of. by rewrite Hg, keyed_entries.
  - intros flow. rewrite <- Hl. unfold local_successors_of. by destruct (ix_stage_views index).
  - intros flow. rewrite <- Hi. unfold inbound_successors_of. by destruct (ix_stage_views index).
  - pose proof (find_blocked_scan (hs_generators state)
      (fun p => releasable (host_stage state p)) 0) as Hscan.
    rewrite Nat.sub_0_r in Hscan.
    assert (Hmap : forall o : option nat, (fun p => 0 + p)%nat <$> o = o) by (by intros []).
    rewrite Hmap in Hscan. unfold first_ready_by_scan. rewrite drop_0 in Hscan.
    etrans; [|exact Hscan]. unfold first_ready. unfold releasable_positions in Hs.
    destruct (ix_stage_views index) as [v|]; simpl in Hs; [by rewrite Hs|by rewrite <- Hs].
Qed.
