(* ===== verification/Transition.v ===== *)
(** * Transition state (executor/src/scalar.rs, [TransitionState])

    The state one executor's transitions run on and the operations every
    transition handler is made of: lookups, child emission, the resident packets'
    life cycle, the run summary and the PFC class orders. A run keeps the
    [Summary] observation: the per-packet observations and diagnostic records of
    the [Full] mode are not modelled. The packet store is used as the map that
    [PacketStore] is proved to implement. *)

From S2P Require Import Prelude OrdMap Event LinkTime ExecError Fel EcnRamp Tcp Model Image.
From S2P Require Import PfcOrder Sched TcpLedger StageIndex.

#[export] Instance NodeDescriptor_eq_dec : EqDecision NodeDescriptor.
Proof. solve_decision. Defined.

#[export] Instance PfcHeader_eq_dec : EqDecision PfcHeader.
Proof. solve_decision. Defined.
#[export] Instance DcqcnCnpHeader_eq_dec : EqDecision DcqcnCnpHeader.
Proof. solve_decision. Defined.
#[export] Instance TcpDataHeader_eq_dec : EqDecision TcpDataHeader.
Proof. solve_decision. Defined.
#[export] Instance TcpAckHeader_eq_dec : EqDecision TcpAckHeader.
Proof. solve_decision. Defined.
#[export] Instance RoceDataHeader_eq_dec : EqDecision RoceDataHeader.
Proof. solve_decision. Defined.
#[export] Instance RoceAckHeader_eq_dec : EqDecision RoceAckHeader.
Proof. solve_decision. Defined.
#[export] Instance PacketKind_eq_dec : EqDecision PacketKind.
Proof. solve_decision. Defined.
#[export] Instance PacketDescriptor_eq_dec : EqDecision PacketDescriptor.
Proof. solve_decision. Defined.

Inductive ArrivalDisposition := AdmittedArrival | Dropped | Delivered | FeedbackArrival.

Record RunSummary := mkSummary {
  rn_sourced_packets : Z;
  rn_sourced_bytes : Z;
  rn_departed_packets : Z;
  rn_departed_bytes : Z;
  rn_admitted_packets : Z;
  rn_admitted_bytes : Z;
  rn_received_packets : Z;
  rn_received_bytes : Z;
  rn_dropped_packets : Z;
  rn_dropped_bytes : Z;
  rn_feedback_packets : Z;
  rn_feedback_bytes : Z;
}.

#[export] Instance eta_summary : RecordEta RunSummary := fun r =>
  mkSummary (rn_sourced_packets r) (rn_sourced_bytes r) (rn_departed_packets r)
    (rn_departed_bytes r) (rn_admitted_packets r) (rn_admitted_bytes r)
    (rn_received_packets r) (rn_received_bytes r) (rn_dropped_packets r)
    (rn_dropped_bytes r) (rn_feedback_packets r) (rn_feedback_bytes r).

Definition empty_summary : RunSummary := mkSummary 0 0 0 0 0 0 0 0 0 0 0 0.

Record ResidentPacket := mkResident {
  rs_descriptor : PacketDescriptor;
  rs_source_time_ns : option Z;
  rs_transmitters : Z;
  rs_terminal : bool;
}.

#[export] Instance eta_resident : RecordEta ResidentPacket := fun r =>
  mkResident (rs_descriptor r) (rs_source_time_ns r) (rs_transmitters r) (rs_terminal r).

(** [hosts] and [host_indices] are the parallel slices of the [HostStore]. *)
Record TransitionState := mkTransition {
  ts_image : SimulationImage;
  ts_hosts : list HostState;
  ts_host_indices : list HostStageIndex;
  ts_switch_states : list SwitchState;
  ts_switch_queue_bytes : list (list Z);
  ts_switch_pfc_orders : bmap (nat * nat) PfcClassOrder;
  ts_local_node : option NodeDescriptor;
  ts_packets : bmap PayloadId ResidentPacket;
  ts_summary : RunSummary;
  ts_tcp_sent_segments : TcpSegmentLedger;
  ts_superseded_timers : list SupersededTimer;
}.

#[export] Instance eta_transition : RecordEta TransitionState := fun s =>
  mkTransition (ts_image s) (ts_hosts s) (ts_host_indices s) (ts_switch_states s)
    (ts_switch_queue_bytes s) (ts_switch_pfc_orders s) (ts_local_node s) (ts_packets s)
    (ts_summary s) (ts_tcp_sent_segments s) (ts_superseded_timers s).

Record ChildEmission := mkChild {
  ce_target : NodeId;
  ce_kind : EventKind;
  ce_payload : PayloadId;
  ce_time_ns : Z;
}.

Record PfcFramePlan := mkFramePlan {
  fp_channel_index : Z;
  fp_flow : FlowId;
  fp_header : PfcHeader;
}.

(** ** The transition monad

    A handler mutates the state and pushes children; it returns, fails with an
    [ExecutionError], which ends the run, or panics ([None]). *)

Record Ctx := mkCtx {
  cx_state : TransitionState;
  cx_children : list Event;
}.

Definition transition (A : Type) : Type := Ctx -> fueled ExecutionError (A * Ctx).

#[export] Instance transition_ret : MRet transition := fun A a c => Some (Ok (a, c)).
#[export] Instance transition_bind : MBind transition := fun A B f m c =>
  match m c with
  | Some (Ok (a, c')) => f a c'
  | Some (Err e) => Some (Err e)
  | None => None
  end.

Definition done_with {A} (a : A) : transition A := fun c => Some (Ok (a, c)).
Definition unit_done : transition unit := done_with tt.
Definition gets {A} (f : TransitionState -> A) : transition A :=
  fun c => Some (Ok (f (cx_state c), c)).
Definition modify (f : TransitionState -> TransitionState) : transition unit :=
  fun c => Some (Ok (tt, mkCtx (f (cx_state c)) (cx_children c))).
Definition push_child (child : Event) : transition unit :=
  fun c => Some (Ok (tt, mkCtx (cx_state c) (cx_children c ++ [child]))).
(** The [?] operator on a result. *)
Definition attempt {A} (r : result ExecutionError A) : transition A :=
  fun c => match r with Ok a => Some (Ok (a, c)) | Err e => Some (Err e) end.
(** [ok_or(e)?]. *)
Definition some_or {A} (o : option A) (e : ExecutionError) : transition A :=
  attempt (ok_or o e).
Definition fail {A} (e : ExecutionError) : transition A := attempt (Err e).
(** [expect], [unwrap] and indexing. *)
Definition unwrap {A} (o : option A) : transition A :=
  fun c => match o with Some a => Some (Ok (a, c)) | None => None end.
(** A component's own fallible code. *)
Definition run {A} (m : fueled ExecutionError A) : transition A :=
  fun c => match m with
           | Some (Ok a) => Some (Ok (a, c))
           | Some (Err e) => Some (Err e)
           | None => None
           end.

Definition when (b : bool) (m : transition unit) : transition unit :=
  if b then m else unit_done.
Definition when_some {A} (o : option A) (m : A -> transition unit) : transition unit :=
  match o with Some a => m a | None => unit_done end.

(** A [for] loop over [l] for its effects. *)
Fixpoint for_each {A} (l : list A) (body : A -> transition unit) : transition unit :=
  match l with
  | [] => unit_done
  | x :: l => _ ← body x; for_each l body
  end.

(** ** Lookups in the image *)

(** [indexed_lookup]: the entry at the identifier, else the first that matches. *)
Definition indexed_lookup {A} (table : list A) (id : Z) (matches_id : A -> bool) : option A :=
  match table !! Z.to_nat id with
  | Some descriptor =>
      if matches_id descriptor then Some descriptor else List.find matches_id table
  | None => List.find matches_id table
  end.

Definition image_node (image : SimulationImage) (id : NodeId)
  : result ExecutionError NodeDescriptor :=
  ok_or (indexed_lookup (im_nodes image) id (fun node => nd_id node =? id)) (UnknownNode id).

Definition image_link (image : SimulationImage) (id : LinkId)
  : result ExecutionError LinkDescriptor :=
  ok_or (indexed_lookup (im_links image) id (fun link => lk_id link =? id)) (UnknownLink id).

Definition image_flow (image : SimulationImage) (id : FlowId)
  : result ExecutionError FlowDescriptor :=
  ok_or (indexed_lookup (im_flows image) id (fun flow => fd_id flow =? id)) (UnknownFlow id).

Definition image_flow_priority (image : SimulationImage) (id : FlowId)
  : result ExecutionError Z :=
  flow ← image_flow image id;
  Ok (fd_priority flow).

Definition node (id : NodeId) : transition NodeDescriptor :=
  image ← gets ts_image;
  attempt (image_node image id).

Definition link (id : LinkId) : transition LinkDescriptor :=
  image ← gets ts_image;
  attempt (image_link image id).

Definition flow (id : FlowId) : transition FlowDescriptor :=
  image ← gets ts_image;
  attempt (image_flow image id).

Definition node_count : transition Z :=
  image ← gets ts_image;
  done_with (Z.of_nat (length (im_nodes image))).

Definition packet_pfc_class (packet : PacketDescriptor) : transition nat :=
  flow ← flow (pk_flow packet);
  done_with (Z.to_nat (packet_priority flow (pk_kind packet))).

(** The route a packet of [kind] takes, and the node it ends at. *)
Definition packet_route (flow : FlowDescriptor) (kind : PacketKind) : list LinkId :=
  if is_data kind then fd_route flow else fd_reverse_route flow.
Definition packet_terminal (flow : FlowDescriptor) (kind : PacketKind) : NodeId :=
  if is_data kind then fd_target flow else fd_source flow.

Fixpoint egress_on (image : SimulationImage) (node : NodeId) (route : list LinkId)
  : result ExecutionError (option LinkId) :=
  match route with
  | [] => Ok None
  | link_id :: route =>
      link ← image_link image link_id;
      if lk_source link =? node then Ok (Some (lk_id link)) else egress_on image node route
  end.

Definition packet_egress_at (packet : PacketDescriptor) (node : NodeId)
  : transition (option LinkId) :=
  image ← gets ts_image;
  flow ← flow (pk_flow packet);
  found ← attempt (egress_on image node (packet_route flow (pk_kind packet)));
  match found with
  | Some link => done_with (Some link)
  | None =>
      if packet_terminal flow (pk_kind packet) =? node then done_with None
      else fail (FlowRouteMiss (fd_id flow) node)
  end.

(** The node the link in front of [rest] delivers to. *)
Definition remote_target_of (image : SimulationImage) (terminal : NodeId) (rest : list LinkId)
  : result ExecutionError NodeId :=
  match rest with
  | next :: _ => link ← image_link image next; Ok (lk_source link)
  | [] => Ok terminal
  end.

Fixpoint incoming_on (image : SimulationImage) (terminal node : NodeId) (route : list LinkId)
  : result ExecutionError (option LinkId) :=
  match route with
  | [] => Ok None
  | link_id :: route =>
      remote_target ← remote_target_of image terminal route;
      if remote_target =? node then Ok (Some link_id)
      else incoming_on image terminal node route
  end.

Definition packet_incoming_link_at (packet : PacketDescriptor) (node : NodeId)
  : transition (option LinkId) :=
  image ← gets ts_image;
  flow ← flow (pk_flow packet);
  attempt (incoming_on image (packet_terminal flow (pk_kind packet)) node
             (packet_route flow (pk_kind packet))).

Definition packet_remote_target_for (packet : PacketDescriptor) (egress : LinkId)
  : transition NodeId :=
  image ← gets ts_image;
  flow ← flow (pk_flow packet);
  let route := packet_route flow (pk_kind packet) in
  match find_position (fun link => link =? egress) route with
  | None =>
      link ← link egress;
      fail (FlowRouteMiss (fd_id flow) (lk_source link))
  | Some index =>
      attempt (remote_target_of image (packet_terminal flow (pk_kind packet))
                 (drop (S index) route))
  end.

(** ** Node states *)

Definition local_state_slot (node : NodeDescriptor) : transition nat :=
  local ← gets ts_local_node;
  match local with
  | Some local =>
      if bool_decide (local = node) then done_with 0%nat else fail (UnknownNode (nd_id node))
  | None => done_with (Z.to_nat (nd_state_slot node))
  end.

Definition invalid_slot (node : NodeDescriptor) : ExecutionError :=
  InvalidStateSlot (nd_id node) (nd_kind node) (nd_state_slot node).

Definition host_state (node : NodeDescriptor) : transition HostState :=
  slot ← local_state_slot node;
  hosts ← gets ts_hosts;
  some_or (hosts !! slot) (invalid_slot node).

(** The write through [host_state_mut]. *)
Definition set_host (node : NodeDescriptor) (state : HostState) : transition unit :=
  slot ← local_state_slot node;
  modify (fun s => s <| ts_hosts ::= <[slot := state]> |>).

(** [host_parts_mut]: the host and its stage index. *)
Definition host_parts (node : NodeDescriptor) : transition (HostState * HostStageIndex) :=
  slot ← local_state_slot node;
  hosts ← gets ts_hosts;
  indices ← gets ts_host_indices;
  state ← some_or (hosts !! slot) (invalid_slot node);
  index ← some_or (indices !! slot) (invalid_slot node);
  done_with (state, index).

Definition set_index (node : NodeDescriptor) (index : HostStageIndex) : transition unit :=
  slot ← local_state_slot node;
  modify (fun s => s <| ts_host_indices ::= <[slot := index]> |>).

Definition switch_state (node : NodeDescriptor) : transition SwitchState :=
  slot ← local_state_slot node;
  switches ← gets ts_switch_states;
  some_or (switches !! slot) (invalid_slot node).

Definition set_switch (node : NodeDescriptor) (state : SwitchState) : transition unit :=
  slot ← local_state_slot node;
  modify (fun s => s <| ts_switch_states ::= <[slot := state]> |>).

(** ** Children *)

Definition insert_child (parent child : Event) : transition unit :=
  if kleb (key child) (key parent) then fail (NonMonotoneChild (key parent) (key child))
  else push_child child.

Definition child_event (origin : NodeDescriptor) (origin_seq : Z) (emission : ChildEmission)
  : Event :=
  mkEvent
    (mkKey (ce_time_ns emission) (event_phase (ce_kind emission)) (nd_id origin) origin_seq)
    (ce_target emission) (ce_kind emission) (ce_payload emission).

Definition emit_from_host (origin : NodeDescriptor) (parent : Event)
    (emission : ChildEmission) : transition unit :=
  state ← host_state origin;
  let origin_seq := hs_next_origin_seq state in
  next ← some_or (checked_add origin_seq 1) (OriginSequenceOverflow (nd_id origin));
  _ ← set_host origin (state <| hs_next_origin_seq := next |>);
  insert_child parent (child_event origin origin_seq emission).

Definition emit_from_switch (origin : NodeDescriptor) (parent : Event)
    (emission : ChildEmission) : transition unit :=
  state ← switch_state origin;
  let origin_seq := sw_next_origin_seq state in
  next ← some_or (checked_add origin_seq 1) (OriginSequenceOverflow (nd_id origin));
  _ ← set_switch origin (state <| sw_next_origin_seq := next |>);
  insert_child parent (child_event origin origin_seq emission).

Definition cancel_superseded_timer (node : NodeId) (payload : PayloadId) (deadline_ns : Z)
  : transition unit :=
  modify (fun s => s <| ts_superseded_timers ::=
    fun timers => timers ++ [mkSuperseded node payload deadline_ns] |>).

(** ** Resident packets *)

Definition resident (id : PayloadId) : transition ResidentPacket :=
  packets ← gets ts_packets;
  some_or (bm_get id packets) (UnknownPacket id).

Definition packet (id : PayloadId) : transition PacketDescriptor :=
  resident ← resident id;
  done_with (rs_descriptor resident).

Definition packet_remote_target (id : PayloadId) (egress : LinkId) : transition NodeId :=
  packet ← packet id;
  packet_remote_target_for packet egress.

Definition put_resident (r : ResidentPacket) : transition unit :=
  modify (fun s => s <| ts_packets ::= bm_insert (pk_id (rs_descriptor r)) r |>).

(** The write through [packets.get_mut(&payload)]. *)
Definition update_resident (id : PayloadId) (r : ResidentPacket) : transition unit :=
  modify (fun s => s <| ts_packets ::= bm_insert id r |>).

Definition remove_resident (id : PayloadId) : transition unit :=
  modify (fun s => s <| ts_packets ::= bm_remove id |>).

Definition insert_packet (packet : PacketDescriptor) (source_time_ns : option Z)
  : transition unit :=
  packets ← gets ts_packets;
  match bm_get (pk_id packet) packets with
  | Some _ => fail (DuplicatePayload (pk_id packet))
  | None => put_resident (mkResident packet source_time_ns 0 false)
  end.

(** A CPU LP installs the descriptor that arrives with a remote message. *)
Definition install_packet (descriptor : PacketDescriptor) : transition unit :=
  packets ← gets ts_packets;
  match bm_get (pk_id descriptor) packets with
  | Some existing =>
      if bool_decide (rs_descriptor existing = descriptor) then unit_done
      else fail (DuplicatePayload (pk_id descriptor))
  | None => put_resident (mkResident descriptor None 0 false)
  end.

Definition set_source_time (id : PayloadId) (time_ns : Z) : transition unit :=
  r ← resident id;
  update_resident id (r <| rs_source_time_ns := Some time_ns |>).

Definition set_packet_marked (id : PayloadId) : transition unit :=
  r ← resident id;
  update_resident id (r <| rs_descriptor ::= fun d => d <| pk_ecn_marked := true |> |>).

Definition start_transmission (node : NodeId) (id : PayloadId) : transition unit :=
  r ← resident id;
  transmitters ← some_or (checked_add (rs_transmitters r) 1) (CounterOverflow node);
  update_resident id (r <| rs_transmitters := transmitters |>).

Definition finish_transmission (node : NodeId) (id : PayloadId) : transition unit :=
  r ← resident id;
  transmitters ← some_or (checked_sub (rs_transmitters r) 1)
                   (UnexpectedTxComplete node None id);
  _ ← update_resident id (r <| rs_transmitters := transmitters |>);
  local ← gets ts_local_node;
  when ((transmitters =? 0) && (rs_terminal r || bool_decide (is_Some local)))
    (remove_resident id).

Definition mark_terminal (id : PayloadId) : transition unit :=
  r ← resident id;
  _ ← update_resident id (r <| rs_terminal := true |>);
  when (rs_transmitters r =? 0) (remove_resident id).

(** [Iterator::rposition]. *)
Fixpoint rposition {A} (p : A -> bool) (l : list A) : option nat :=
  match l with
  | [] => None
  | x :: l =>
      match rposition p l with
      | Some i => Some (S i)
      | None => if p x then Some 0%nat else None
      end
  end.

(** The order a host's queue is kept in: packets without a source time first,
    then by source time, flow and identity. *)
Definition source_rank (r : ResidentPacket) : Z * (Z * (FlowId * PayloadId)) :=
  (match rs_source_time_ns r with Some _ => 1 | None => 0 end,
   (default 0 (rs_source_time_ns r),
    (pk_flow (rs_descriptor r), pk_id (rs_descriptor r)))).

Definition enqueue_position (packets : bmap PayloadId ResidentPacket) (queue : list PayloadId)
    (source_time_ns : Z) (packet : PacketDescriptor) : nat :=
  match rposition (fun queued =>
          match bm_get queued packets with
          | Some r => kleb (source_rank r) (1, (source_time_ns, (pk_flow packet, pk_id packet)))
          | None => false
          end) queue with
  | Some position => S position
  | None => 0
  end.

Definition enqueue_source_packet (node : NodeDescriptor) (id : PayloadId) : transition unit :=
  r ← resident id;
  source_time_ns ← some_or (rs_source_time_ns r) (UnknownPacket id);
  packets ← gets ts_packets;
  state ← host_state node;
  let position := enqueue_position packets (hs_queue state) source_time_ns (rs_descriptor r) in
  set_host node (state <| hs_queue ::= insert_at position id |>).

(** ** The run summary *)

Definition add_summary (total value : Z) (node : NodeId) : transition Z :=
  some_or (checked_add_128 total value) (CounterOverflow node).

Definition set_summary (summary : RunSummary) : transition unit :=
  modify (fun s => s <| ts_summary := summary |>).

Definition record_sourced (node : NodeId) (packet : PacketDescriptor) : transition unit :=
  summary ← gets ts_summary;
  packets ← add_summary (rn_sourced_packets summary) 1 node;
  bytes ← add_summary (rn_sourced_bytes summary) (pk_size_bytes packet) node;
  set_summary (summary <| rn_sourced_packets := packets |> <| rn_sourced_bytes := bytes |>).

Definition record_departure (node : NodeId) (packet : PacketDescriptor) : transition unit :=
  summary ← gets ts_summary;
  packets ← add_summary (rn_departed_packets summary) 1 node;
  bytes ← add_summary (rn_departed_bytes summary) (pk_size_bytes packet) node;
  set_summary (summary <| rn_departed_packets := packets |> <| rn_departed_bytes := bytes |>).

Definition record_arrival (node : NodeId) (packet : PacketDescriptor)
    (disposition : ArrivalDisposition) : transition unit :=
  summary ← gets ts_summary;
  let '(packets, bytes) :=
    match disposition with
    | AdmittedArrival => (rn_admitted_packets summary, rn_admitted_bytes summary)
    | Dropped => (rn_dropped_packets summary, rn_dropped_bytes summary)
    | Delivered => (rn_received_packets summary, rn_received_bytes summary)
    | FeedbackArrival => (rn_feedback_packets summary, rn_feedback_bytes summary)
    end in
  packets ← add_summary packets 1 node;
  bytes ← add_summary bytes (pk_size_bytes packet) node;
  set_summary
    match disposition with
    | AdmittedArrival => summary <| rn_admitted_packets := packets |> <| rn_admitted_bytes := bytes |>
    | Dropped => summary <| rn_dropped_packets := packets |> <| rn_dropped_bytes := bytes |>
    | Delivered => summary <| rn_received_packets := packets |> <| rn_received_bytes := bytes |>
    | FeedbackArrival =>
        summary <| rn_feedback_packets := packets |> <| rn_feedback_bytes := bytes |>
    end.

(** ** Steps the handlers share *)

(** A new packet identity from the host's payload sequence. *)
Definition allocate_payload (node : NodeDescriptor) (node_count : Z) (state : HostState)
  : result ExecutionError (PayloadId * HostState) :=
  id ← ok_or (from_node_sequence (nd_id node) node_count (hs_next_payload_seq state))
         (PayloadSequenceOverflow (nd_id node));
  next ← ok_or (checked_add (hs_next_payload_seq state) 1) (PayloadSequenceOverflow (nd_id node));
  Ok (id, state <| hs_next_payload_seq := next |>).

Definition count_sourced (node : NodeDescriptor) (packets : Z) (state : HostState)
  : result ExecutionError HostState :=
  sourced ← ok_or (checked_add (hs_sourced_packets state) packets) (CounterOverflow (nd_id node));
  Ok (state <| hs_sourced_packets := sourced |>).

Definition count_received (node : NodeDescriptor) (state : HostState)
  : result ExecutionError HostState :=
  received ← ok_or (checked_add (hs_received_packets state) 1) (CounterOverflow (nd_id node));
  Ok (state <| hs_received_packets := received |>).

(** Owns a [TxReady] when the egress is idle and none is pending. *)
Definition claim_ready (state : HostState) : bool * HostState :=
  if bool_decide (hs_in_service state = None) && negb (hs_tx_ready_pending state)
  then (true, state <| hs_tx_ready_pending := true |>)
  else (false, state).

Definition emit_host_ready (node : NodeDescriptor) (parent : Event) (id : PayloadId)
  : transition unit :=
  emit_from_host node parent (mkChild (nd_id node) TxReady id (time_ns (key parent))).

Definition emit_switch_ready (node : NodeDescriptor) (parent : Event) (id : PayloadId)
  : transition unit :=
  emit_from_switch node parent (mkChild (nd_id node) TxReady id (time_ns (key parent))).

Definition schedule_host_ready (node : NodeDescriptor) (parent : Event) (id : PayloadId)
  : transition unit :=
  state ← host_state node;
  let '(ready, state) := claim_ready state in
  _ ← set_host node state;
  when ready (emit_host_ready node parent id).

(** A packet the host sources now joins its queue. *)
Definition source_packet (node : NodeDescriptor) (packet : PacketDescriptor) (now_ns : Z)
  : transition unit :=
  _ ← insert_packet packet (Some now_ns);
  _ ← enqueue_source_packet node (pk_id packet);
  record_sourced (nd_id node) packet.

(** ** PFC class orders *)

Definition pfc_order (state_slot queue_slot : nat) : transition (option PfcClassOrder) :=
  gets (fun s => bm_get (state_slot, queue_slot) (ts_switch_pfc_orders s)).

Definition set_pfc_order (state_slot queue_slot : nat) (order : PfcClassOrder)
  : transition unit :=
  modify (fun s => s <| ts_switch_pfc_orders ::= bm_insert (state_slot, queue_slot) order |>).

(** The first queued packet whose class is not paused, read from the head. *)
Fixpoint pfc_search (pfc : PfcQueueState) (position : nat) (queue : list PayloadId)
  : transition (option (nat * PayloadId)) :=
  match queue with
  | [] => done_with None
  | id :: queue =>
      packet ← packet id;
      class ← packet_pfc_class packet;
      paused ← unwrap (queue_is_paused pfc class);
      if (paused : bool) then pfc_search pfc (S position) queue
      else done_with (Some (position, id))
  end.

Definition pfc_first_eligible_by_search (queue : SwitchQueueState) (pfc : PfcQueueState)
  : transition (option (nat * PayloadId)) :=
  pfc_search pfc 0 (sq_queue queue).

Definition pfc_first_eligible (node : NodeDescriptor) (queue : SwitchQueueState)
    (pfc : PfcQueueState) (order : option PfcClassOrder)
  : transition (option (nat * PayloadId)) :=
  match head (sq_queue queue) with
  | None => done_with None
  | Some head =>
      if negb (pfc_any_paused pfc) then done_with (Some (0%nat, head))
      else
        match order with
        | None => pfc_first_eligible_by_search queue pfc
        | Some order =>
            match first_unpaused_position order pfc with
            | None => done_with None
            | Some position =>
                id ← some_or (sq_queue queue !! position) (InvalidSchedulerState (nd_id node));
                done_with (Some (position, id))
            end
        end
  end.

(** The order of the queue's classes, pushed from the head. *)
Fixpoint build_pfc_order (order : PfcClassOrder) (queue : list PayloadId)
  : transition PfcClassOrder :=
  match queue with
  | [] => done_with order
  | id :: queue =>
      packet ← packet id;
      class ← packet_pfc_class packet;
      order ← unwrap (order_push order class);
      build_pfc_order order queue
  end.

Definition is_fifo (scheduler : SchedulerKind) : bool :=
  match scheduler with Fifo => true | _ => false end.

Definition ensure_pfc_order (state_slot queue_slot : nat) : transition unit :=
  switches ← gets ts_switch_states;
  match switches !! state_slot ≫= fun state => sw_queues state !! queue_slot with
  | None => unit_done
  | Some queue =>
      existing ← pfc_order state_slot queue_slot;
      if bool_decide (sq_pfc queue = None) || negb (is_fifo (sq_scheduler queue))
         || bool_decide (is_Some existing)
      then unit_done
      else
        order ← build_pfc_order order_new (sq_queue queue);
        set_pfc_order state_slot queue_slot order
  end.

Definition emit_pfc_frame (origin : NodeDescriptor) (parent : Event) (plan : PfcFramePlan)
  : transition unit :=
  image ← gets ts_image;
  channel ← some_or (im_channels image !! Z.to_nat (fp_channel_index plan))
              (UnknownLink (pfc_controlled_link (fp_header plan)));
  state ← switch_state origin;
  let sequence := sw_next_origin_seq state in
  count ← node_count;
  id ← some_or (from_node_sequence (nd_id origin) count sequence)
         (PayloadSequenceOverflow (nd_id origin));
  _ ← insert_packet (mkPacket id (fp_flow plan) 64 false (Pfc (fp_header plan)))
        (Some (time_ns (key parent)));
  arrival_time_ns ← some_or (checked_add (time_ns (key parent)) (ch_min_delay_ns channel))
                      (Time ArrivalOverflow);
  emit_from_switch origin parent
    (mkChild (ch_target channel) RemoteArrival id arrival_time_ns).

(** ** Construction and result *)

(** The transmissions in progress of the image hold their packets. *)
Definition hold_in_service (node : NodeId) (packets : bmap PayloadId ResidentPacket)
    (id : PayloadId) : result ExecutionError (bmap PayloadId ResidentPacket) :=
  r ← ok_or (bm_get id packets) (UnknownPacket id);
  transmitters ← ok_or (checked_add (rs_transmitters r) 1) (CounterOverflow node);
  Ok (bm_insert id (r <| rs_transmitters := transmitters |>) packets).

Definition insert_initial (packets : bmap PayloadId ResidentPacket)
    (descriptor : PacketDescriptor) : result ExecutionError (bmap PayloadId ResidentPacket) :=
  match bm_get (pk_id descriptor) packets with
  | Some _ => Err (DuplicatePayload (pk_id descriptor))
  | None => Ok (bm_insert (pk_id descriptor) (mkResident descriptor None 0 false) packets)
  end.

Definition is_tcp_data (kind : PacketKind) : bool :=
  match kind with TcpData _ => true | _ => false end.

(** The bytes of one queue. *)
Definition queue_bytes (packets : bmap PayloadId ResidentPacket) (node : NodeId)
    (queue : list PayloadId) : result ExecutionError Z :=
  try_fold (fun total id =>
    r ← ok_or (bm_get id packets) (UnknownPacket id);
    ok_or (checked_add total (pk_size_bytes (rs_descriptor r))) (CounterOverflow node)) 0 queue.

(** [iter.map(f).collect::<Result<Vec<_>, _>>()]. *)
Fixpoint try_map {E A B} (f : A -> result E B) (l : list A) : result E (list B) :=
  match l with
  | [] => Ok []
  | x :: l => y ← f x; ys ← try_map f l; Ok (y :: ys)
  end.

(** The node of each switch state slot: the last that names it. *)
Definition switch_node_ids (image : SimulationImage) (local_node : option NodeDescriptor)
    (slots : nat) : list (option NodeId) :=
  match local_node with
  | Some node =>
      match nd_kind node with
      | Switch => <[0%nat := Some (nd_id node)]> (replicate slots None)
      | Host => replicate slots None
      end
  | None =>
      foldl (fun ids node =>
        match nd_kind node with
        | Switch => <[Z.to_nat (nd_state_slot node) := Some (nd_id node)]> ids
        | Host => ids
        end) (replicate slots None) (im_nodes image)
  end.

Definition paused_fifo (queue : SwitchQueueState) : bool :=
  is_fifo (sq_scheduler queue)
  && match sq_pfc queue with Some pfc => pfc_any_paused pfc | None => false end.

(** The byte counter of every queue, and the FIFO queues that start paused. *)
Definition derive_switch_queue_bytes (image : SimulationImage) (switch_states : list SwitchState)
    (local_node : option NodeDescriptor) (packets : bmap PayloadId ResidentPacket)
  : result ExecutionError (list (list Z) * list (nat * nat)) :=
  let node_ids := switch_node_ids image local_node (length switch_states) in
  bytes ← try_map (fun '(state_slot, state) =>
      node ← ok_or (mjoin (node_ids !! state_slot)) (UnknownNode (Z.of_nat state_slot));
      try_map (fun queue => queue_bytes packets node (sq_queue queue)) (sw_queues state))
    (imap pair switch_states);
  Ok (bytes,
      mjoin (imap (fun state_slot state =>
        omap (fun '(queue_slot, queue) =>
          if paused_fifo queue then Some (state_slot, queue_slot) else None)
          (imap pair (sw_queues state))) switch_states)).

Definition tcp_segment_conflict_error (conflict : TcpSegmentConflict) : ExecutionError :=
  InconsistentTcpSegment (cf_flow conflict) (cf_sequence conflict)
    (cf_original_size_bytes conflict) (cf_replacement_size_bytes conflict).

Definition ledger_result {A} (m : fueled TcpSegmentConflict A) : fueled ExecutionError A :=
  map_err tcp_segment_conflict_error <$> m.

(** The packets resident at the start: TCP data only where an initial position
    references it. *)
Definition initial_residents (image : SimulationImage)
  : result ExecutionError (bmap PayloadId ResidentPacket) :=
  let live := initial_live_payloads image in
  packets ← try_fold (fun packets descriptor =>
      if is_tcp_data (pk_kind descriptor) && negb (bs_contains (pk_id descriptor) live)
      then Ok packets else insert_initial packets descriptor)
    [] (im_initial_packets image);
  try_fold (hold_in_service 0) packets
    (omap hs_in_service (im_host_states image)
     ++ mjoin ((fun state => omap sq_in_service (sw_queues state)) <$> im_switch_states image)).

(** Gives every queue that starts paused its class order. *)
Definition ensure_pfc_orders (queues : list (nat * nat)) : transition unit :=
  for_each queues (fun '(state_slot, queue_slot) => ensure_pfc_order state_slot queue_slot).

(** [TransitionState::new]. *)
Definition transition_new (image : SimulationImage) : fueled ExecutionError TransitionState :=
  tcp_sent_segments ← ledger_result (seed_image image);
  packets ← lift_result (initial_residents image);
  derived ← lift_result (derive_switch_queue_bytes image (im_switch_states image) None packets);
  c ← ensure_pfc_orders derived.2
        (mkCtx
           (mkTransition image (im_host_states image)
              ((fun state => build state (im_stage_joins image)) <$> im_host_states image)
              (im_switch_states image) derived.1 [] None packets empty_summary
              tcp_sent_segments []) []);
  lift_result (Ok (cx_state c.2)).

Record RunResult := mkRunResult {
  rr_host_states : list HostState;
  rr_switch_states : list SwitchState;
  rr_summary : RunSummary;
  rr_resident_packets : list PacketDescriptor;
  rr_pending_events : list Event;
}.

Definition resumable_packets (packets : bmap PayloadId ResidentPacket)
    (tcp_sent_segments : TcpSegmentLedger) : list PacketDescriptor :=
  let descriptors := (fun kv => (kv.1, rs_descriptor kv.2)) <$> packets in
  let descriptors :=
    foldl (fun (descriptors : bmap PayloadId PacketDescriptor) packet =>
      match bm_get (pk_id packet) descriptors with
      | Some _ => descriptors
      | None => bm_insert (pk_id packet) packet descriptors
      end) descriptors
      (mjoin ((fun flow : FlowId * bmap Z PacketDescriptor => flow.2.*2) <$> tcp_sent_segments)) in
  descriptors.*2.

(** [finish] of a [Summary] run. *)
Definition transition_finish (s : TransitionState) (pending_events : list Event) : RunResult :=
  mkRunResult (ts_hosts s) (ts_switch_states s) (ts_summary s)
    (resumable_packets (ts_packets s) (ts_tcp_sent_segments s)) pending_events.
