(* ===== verification/Orphans.v ===== *)
(** * Orphan packets of a device readback (src/executor/src/tcp_ledger.rs)

    A device retains the initial descriptors that its readback could not find again.
    They are resident in the state a run starts from ([orphans_resident]). *)

From S2P Require Import Prelude OrdMap Event Model Image ExecError TcpLedger Transition.

(** The payloads of the initial events of some kinds. *)
Definition payloads_of_kinds (image : SimulationImage) (p : EventKind -> bool) : bset PayloadId :=
  bs_collect (payload <$> filter (fun event => p (kind event) = true) (im_initial_events image)).

(** Non-TCP packets that no arrival or pacing event carries, no queue holds, and that are
    not in service or complete their service. *)
Definition initial_non_tcp_orphan_packets (image : SimulationImage) : list PacketDescriptor :=
  let meaningful_event_payloads := payloads_of_kinds image (fun k =>
    match k with PacketArrival | RemoteArrival | PacingTimer => true | _ => false end) in
  let completion_payloads := payloads_of_kinds image (fun k =>
    match k with TxComplete => true | _ => false end) in
  let queued_payloads := bs_collect
    (mjoin (hs_queue <$> im_host_states image)
     ++ mjoin ((fun state => mjoin (sq_queue <$> sw_queues state)) <$> im_switch_states image)) in
  let in_service_payloads := bs_collect
    (omap hs_in_service (im_host_states image)
     ++ mjoin ((fun state => omap sq_in_service (sw_queues state)) <$> im_switch_states image)) in
  filter (fun packet =>
      negb (is_tcp_data (pk_kind packet))
      && negb (bs_contains (pk_id packet) meaningful_event_payloads)
      && negb (bs_contains (pk_id packet) queued_payloads)
      && (negb (bs_contains (pk_id packet) in_service_payloads)
          || bs_contains (pk_id packet) completion_payloads) = true)
    (im_initial_packets image).

(** ** Orphans are resident *)

(** A packet is in the store with its own descriptor. *)
Definition stored (packets : bmap PayloadId ResidentPacket) (packet : PacketDescriptor) : Prop :=
  exists r, bm_get (pk_id packet) packets = Some r /\ rs_descriptor r = packet.

Lemma insert_initial_stored packets descriptor packets' : insert_initial packets descriptor = Ok packets' ->
  stored packets' descriptor /\ forall packet, stored packets packet -> stored packets' packet.
Proof.
  unfold insert_initial. destruct (bm_get (pk_id descriptor) packets) eqn:E; [done|]. intros [= <-]. split.
  - eexists. by rewrite bm_get_insert_eq.
  - intros packet (r & Hr & Hd). exists r. split; [|done]. rewrite bm_get_insert_ne; [done|]. congruence.
Qed.

Lemma hold_in_service_stored node packets id packets' packet : hold_in_service node packets id = Ok packets' ->
  stored packets packet -> stored packets' packet.
Proof.
  unfold hold_in_service. intros (r & Hr & (n & Hn & [= <-])%bind_Ok)%bind_Ok (r' & Hr' & Hd).
  apply ok_or_Ok in Hr. destruct (decide (id = pk_id packet)) as [->|Hne].
  - eexists. rewrite bm_get_insert_eq. split; [done|]. rewrite Hr in Hr'. by injection Hr' as <-.
  - exists r'. by rewrite bm_get_insert_ne.
Qed.

(** Every initial packet that is not TCP data is resident at the start. *)
Lemma initial_residents_stored image packets packet : initial_residents image = Ok packets ->
  packet ∈ im_initial_packets image -> is_tcp_data (pk_kind packet) = false -> stored packets packet.
Proof.
  unfold initial_residents. intros (mid & Hmid & Hhold)%bind_Ok Hin Hk.
  assert (Hs : stored mid packet); [|].
  { clear Hhold. revert Hmid. generalize (@nil (PayloadId * ResidentPacket)).
    induction (im_initial_packets image) as [|d l IH]; intros acc Hf; [by apply not_elem_of_nil in Hin|].
    cbn [try_fold] in Hf. apply bind_Ok in Hf as (acc' & Hd & Hf). apply elem_of_cons in Hin as [<-|Hin]; [|by eapply IH].
    rewrite Hk in Hd. cbn [andb] in Hd. destruct (insert_initial_stored _ _ _ Hd) as [Hst _].
    refine (try_fold_ind (fun m => stored m packet) _ _ _ acc' mid Hst Hf).
    intros m x m' _ Hm Hx. destruct (_ && _); [by injection Hx as <-|].
    by apply (insert_initial_stored _ _ _ Hx). }
  refine (try_fold_ind (fun m => stored m packet) _ _ _ mid packets Hs Hhold).
  intros m x m' _ Hm Hx. by eapply hold_in_service_stored.
Qed.

(** Every packet the device retains as an orphan is an initial packet that is not TCP
    data, and the state a run starts from holds it with the same descriptor. *)
Theorem orphans_resident image packets packet :
  initial_residents image = Ok packets -> packet ∈ initial_non_tcp_orphan_packets image ->
  is_tcp_data (pk_kind packet) = false /\ stored packets packet.
Proof.
  intros Hres [Ho Hin]%list_elem_of_filter. rewrite !andb_true_iff in Ho. destruct Ho as [[[Hk _] _] _].
  apply negb_true_iff in Hk. split; [done|]. by eapply initial_residents_stored.
Qed.
