(* ===== verification/TcpSend.v ===== *)
(** * TCP transmission (executor/src/scalar.rs)

    [prepare_tcp_attempts] plans what a sender transmits now: the segment loss
    recovery asks for, then new segments while the congestion window has room,
    and the retransmission timer when none is armed. [install_tcp_attempts] puts
    the planned packets in the host's queue. *)

From S2P Require Import Prelude OrdMap Event ExecError Fel Tcp Model Image Sched TcpLedger.
From S2P Require Import StageIndex Transition.

Record TcpSendPlan := mkSendPlan {
  pl_packets : list PacketDescriptor;
  pl_timer : option TcpTimerState;
}.

Definition tcp_segment_packet (id : PayloadId) (flow : FlowId) (size_bytes sequence now_ns : Z)
    (retransmission : bool) : PacketDescriptor :=
  mkPacket id flow size_bytes false (TcpData (mkTcpData sequence now_ns retransmission)).

(** What the planning mutates: the host's payload sequence, the generator, the
    sender and the planned packets. *)
Record FillState := mkFill {
  fl_host : HostState;
  fl_generator : FlowGeneratorState;
  fl_tcp : TcpGenerator;
  fl_packets : list PacketDescriptor;
}.

Definition retransmit_segment (segments : TcpSegmentLedger) (flow : FlowId)
    (retransmit_sequence : option Z) : result ExecutionError (option (Z * Z)) :=
  match retransmit_sequence with
  | None => Ok None
  | Some sequence =>
      packet ← ok_or (segments ← bm_get flow segments; bm_get sequence segments)
                 (MissingTcpSegment flow sequence);
      Ok (Some (sequence, pk_size_bytes packet))
  end.

(** The retransmission, unless everything is sent. *)
Definition plan_retransmission (node : NodeDescriptor) (count : Z) (flow : FlowId) (now_ns : Z)
    (segment : option (Z * Z)) (s : FillState) : result ExecutionError FillState :=
  match segment with
  | Some (sequence, size_bytes) =>
      if sequence <? tg_total_bytes (fl_tcp s) then
        '(id, host) ← allocate_payload node count (fl_host s);
        Ok (mkFill host (fl_generator s) (fl_tcp s <| tg_last_attempt := id |>)
              (fl_packets s ++ [tcp_segment_packet id flow size_bytes sequence now_ns true]))
      else Ok s
  | None => Ok s
  end.

(** The next new segment's size; zero when the window or the flow is used up. *)
Definition next_segment_size (tcp : TcpGenerator) : Z :=
  let cwnd := cc_cwnd_bytes (tg_control tcp) (tg_mss_bytes tcp) in
  let allowance := saturating_sub cwnd (tg_bytes_in_flight tcp) in
  if (allowance =? 0) || (tg_total_bytes tcp <=? tg_next_sequence tcp) then 0
  else Z.min (Z.min (tg_mss_bytes tcp) (tg_total_bytes tcp -w tg_next_sequence tcp)) allowance.

Definition send_segment (node : NodeDescriptor) (count : Z) (flow : FlowId) (now_ns : Z)
    (size_bytes : Z) (s : FillState) : result ExecutionError FillState :=
  '(id, host) ← allocate_payload node count (fl_host s);
  let tcp := fl_tcp s in
  let sequence := tg_next_sequence tcp in
  let overflow := CounterOverflow (nd_id node) in
  next_sequence ← ok_or (checked_add (tg_next_sequence tcp) size_bytes) overflow;
  bytes_in_flight ← ok_or (checked_add (tg_bytes_in_flight tcp) size_bytes) overflow;
  packets_emitted ← ok_or (checked_add (fg_packets_emitted (fl_generator s)) 1) overflow;
  bytes_emitted ← ok_or (checked_add (fg_bytes_emitted (fl_generator s)) size_bytes) overflow;
  Ok (mkFill host
        (fl_generator s <| fg_packets_emitted := packets_emitted |>
                        <| fg_bytes_emitted := bytes_emitted |>)
        (tcp <| tg_next_sequence := next_sequence |> <| tg_bytes_in_flight := bytes_in_flight |>
             <| tg_last_attempt := id |>)
        (fl_packets s ++ [tcp_segment_packet id flow size_bytes sequence now_ns false])).

Definition fill_step (node : NodeDescriptor) (count : Z) (flow : FlowId) (now_ns : Z)
    (s : FillState) : FillState + result ExecutionError FillState :=
  let size_bytes := next_segment_size (fl_tcp s) in
  if size_bytes =? 0 then inr (Ok s)
  else
    match send_segment node count flow now_ns size_bytes s with
    | Ok s => inl s
    | Err e => inr (Err e)
    end.

(** Every iteration sends at least one of at most [2 ^ 64] bytes. *)
Definition fill_window (node : NodeDescriptor) (count : Z) (flow : FlowId) (now_ns : Z)
    (fill : bool) (s : FillState) : fueled ExecutionError FillState :=
  if fill then
    match wloop (fill_step node count flow now_ns) 64 s with
    | inr r => Some r
    | inl _ => None
    end
  else Some (Ok s).

(** Arms the retransmission timer of a sender with bytes in flight. *)
Definition arm_timer (node : NodeDescriptor) (flow : FlowId) (now_ns : Z)
    (preserve_scheduled_send : bool) (tcp : TcpGenerator)
  : result ExecutionError (option TcpTimerState * TcpGenerator) :=
  if negb preserve_scheduled_send && bool_decide (tg_active_timer tcp = None)
     && negb (tg_bytes_in_flight tcp =? 0)
  then
    generation ← ok_or (checked_add (tg_timer_generation tcp) 1) (CounterOverflow (nd_id node));
    deadline_ns ← ok_or (checked_add now_ns (tg_rto_ns tcp)) (GeneratorTimeOverflow flow);
    let timer := mkTcpTimer (tg_last_attempt tcp) (tg_highest_ack tcp) deadline_ns generation
                   (tg_rto_ns tcp) in
    Ok (Some timer, tcp <| tg_timer_generation := generation |>
                        <| tg_active_timer := Some timer |>)
  else Ok (None, tcp).

(** The sender's mirrors in its generator. *)
Definition mirror_in_flight (tcp : TcpGenerator) (generator : FlowGeneratorState)
  : FlowGeneratorState :=
  generator <| fg_feedback ::= fun feedback =>
    feedback <| fb_outstanding_bytes := tg_bytes_in_flight tcp |>
             <| fb_unacknowledged_bytes := tg_bytes_in_flight tcp |> |>
            <| fg_kind := GenTcp tcp |>.

Definition settle_tcp_status (preserve_scheduled_send : bool) (tcp : TcpGenerator)
    (generator : FlowGeneratorState) : FlowGeneratorState :=
  if preserve_scheduled_send then generator
  else generator <| fg_next_emission ::= fun emission =>
    emission <| se_status :=
      if tg_total_bytes tcp <=? tg_highest_ack tcp then Finished else Blocked |> |>.

Definition seed_tcp_segments (packets : list PacketDescriptor) : transition unit :=
  for_each packets (fun packet =>
    segments ← gets ts_tcp_sent_segments;
    segments ← attempt (map_err tcp_segment_conflict_error (seed_segment segments packet));
    modify (fun s => s <| ts_tcp_sent_segments := segments |>)).

Definition prepare_tcp_attempts (node : NodeDescriptor) (flow : FlowId) (now_ns : Z)
    (retransmit_sequence : option Z) (fill preserve_scheduled_send : bool)
  : transition TcpSendPlan :=
  count ← node_count;
  segments ← gets ts_tcp_sent_segments;
  segment ← attempt (retransmit_segment segments flow retransmit_sequence);
  '(state, index) ← host_parts node;
  let unknown := UnknownGenerator (nd_id node) flow in
  position ← some_or (first_generator index flow) unknown;
  generator ← unwrap (hs_generators state !! position);
  match fg_kind generator with
  | GenTcp tcp =>
      s ← attempt (plan_retransmission node count flow now_ns segment
                     (mkFill state generator tcp []));
      s ← run (fill_window node count flow now_ns fill s);
      '(timer, tcp) ← attempt (arm_timer node flow now_ns preserve_scheduled_send (fl_tcp s));
      let generator :=
        settle_tcp_status preserve_scheduled_send tcp (mirror_in_flight tcp (fl_generator s)) in
      state ← attempt (count_sourced node (Z.of_nat (length (fl_packets s)))
                         (fl_host s <| hs_generators ::= <[position := generator]> |>));
      _ ← set_host node state;
      _ ← seed_tcp_segments (fl_packets s);
      done_with (mkSendPlan (fl_packets s) timer)
  | _ => fail unknown
  end.

Definition install_tcp_attempts (node : NodeDescriptor) (parent : Event) (plan : TcpSendPlan)
  : transition unit :=
  _ ← for_each (pl_packets plan) (fun packet => source_packet node packet (time_ns (key parent)));
  state ← host_state node;
  ready ←
    (if bool_decide (hs_in_service state = None) && negb (hs_tx_ready_pending state) then
       match head (hs_queue state) with
       | Some id =>
           _ ← set_host node (state <| hs_tx_ready_pending := true |>);
           done_with (Some id)
       | None => done_with None
       end
     else done_with None);
  _ ← when_some (pl_timer plan) (fun timer =>
        emit_from_host node parent
          (mkChild (nd_id node) RetransmissionTimeout (tt_attempt timer) (tt_deadline_ns timer)));
  when_some ready (emit_host_ready node parent).
