(* ===== verification/Stages.v ===== *)
(** * Dependency-gated stages (executor/src/scalar.rs)

    The progress one event produces for the stages of a host ([PendingCauses]),
    the two dependency writers, and the release of the stages that became ready:
    TCP and RoCE stages start sending, compute stages and stage notifies arm a
    timer. *)

From S2P Require Import Prelude OrdMap Event LinkTime ExecError Fel Tcp Model Image.
From S2P Require Import PfcOrder Sched Roce TcpLedger StageIndex Transition TcpSend.

Inductive CollectiveActivationCause := LocalCompletion | InboundArrival.

Record CompletionSignal := mkSignal {
  sg_ack_number : Z;
  sg_origin_ns : Z;
  sg_delay_ns : Z;
}.

Record PendingCollectiveProgress := mkProgress {
  pg_flow : FlowId;
  pg_cause : CollectiveActivationCause;
  pg_cause_flow : FlowId;
  pg_arrival_bytes : Z;
  pg_before_local_completed : Z;
  pg_before_inbound_complete : bool;
  pg_before_inbound_bytes : Z;
  pg_segment_sequence : Z;
  pg_segment_bytes : Z;
  pg_completion : CompletionSignal;
}.

(** ** Pending causes *)

Record PendingCauses := mkCauses {
  pc_causes : list (option PendingCollectiveProgress);
  pc_by_flow : list (FlowId * nat);
  pc_sorted : bool;
}.

Definition causes_default : PendingCauses := mkCauses [] [] false.

Definition causes_push (c : PendingCauses) (cause : PendingCollectiveProgress) : PendingCauses :=
  mkCauses (pc_causes c ++ [Some cause])
    (pc_by_flow c ++ [(pg_flow cause, length (pc_causes c))]) false.

Definition causes_is_empty (c : PendingCauses) : bool := bool_decide (pc_causes c = []).

(** The first cause not yet taken among the entries of [flow]; the outer [None]
    is the panic of a position beyond the causes. *)
Fixpoint take_from (causes : list (option PendingCollectiveProgress)) (flow : FlowId)
    (entries : list (FlowId * nat))
  : option (option PendingCollectiveProgress * list (option PendingCollectiveProgress)) :=
  match entries with
  | [] => Some (None, causes)
  | (key, position) :: entries =>
      if negb (key =? flow) then Some (None, causes)
      else
        cause ← causes !! position;
        match cause with
        | Some cause => Some (Some cause, <[position := None]> causes)
        | None => take_from causes flow entries
        end
  end.

Definition causes_take (c : PendingCauses) (flow : FlowId)
  : option (option PendingCollectiveProgress * PendingCauses) :=
  let by_flow := if pc_sorted c then pc_by_flow c else merge_sort kle (pc_by_flow c) in
  let start := partition_point (fun e => e.1 <? flow) by_flow in
  '(cause, causes) ← take_from (pc_causes c) flow (drop start by_flow);
  Some (cause, mkCauses causes by_flow true).

Definition causes_into_remaining (c : PendingCauses) : list PendingCollectiveProgress :=
  omap id (pc_causes c).

(** ** Dependency writers *)

(** What the writers of a stage pass mutate. *)
Record StagePass := mkPass {
  sp_state : HostState;
  sp_releasable : ReleasableStages;
  sp_causes : PendingCauses;
}.

Definition write_stage (s : StagePass) (position : nat) (stage : CollectiveStage)
    (cause : PendingCollectiveProgress) : StagePass :=
  mkPass (sp_state s <| hs_stages ::= <[position := Some stage]> |>)
    (refresh (sp_releasable s) position (Some stage)) (causes_push (sp_causes s) cause).

Definition complete_local_successor (completed : FlowId) (completion : CompletionSignal)
    (s : StagePass) (position : nat) : option StagePass :=
  successor ← hs_generators (sp_state s) !! position;
  match host_stage (sp_state s) position with
  | None => Some s
  | Some stage =>
      let dependencies := st_dependencies stage in
      if local_complete dependencies then Some s
      else
        Some (write_stage s position
          (stage <| st_dependencies := dependencies <| sd_local_completed ::=
             fun n => (n + 1) mod (u32_max + 1) |> |>)
          (mkProgress (fg_flow successor) LocalCompletion completed 0
             (sd_local_completed dependencies) (inbound_complete dependencies)
             (sd_inbound_bytes_received dependencies) 0 0 completion))
  end.

(** A [for] loop whose body may panic. *)
Fixpoint panic_fold {A B} (f : A -> B -> option A) (a : A) (l : list B) : option A :=
  match l with
  | [] => Some a
  | x :: l => a ← f a x; panic_fold f a l
  end.

Lemma panic_fold_ind {A B} (P : A -> Prop) (f : A -> B -> option A) l :
  (forall a x a', x ∈ l -> P a -> f a x = Some a' -> P a') ->
  forall a a', P a -> panic_fold f a l = Some a' -> P a'.
Proof.
  induction l as [|x l IH]; simpl; intros Hf a a' Ha Hr; [naive_solver|].
  apply bind_Some in Hr as (b & Hb & Hr).
  eapply IH; [| |exact Hr].
  - intros c y c' Hy. apply Hf. set_solver.
  - eapply Hf; [|exact Ha|exact Hb]. set_solver.
Qed.

Definition complete_local_successors (state : HostState) (index : HostStageIndex)
    (completed : FlowId) (completion : CompletionSignal) (causes : PendingCauses)
  : option (HostState * HostStageIndex * PendingCauses) :=
  match local_successors_of index completed with
  | None => Some (state, index, causes)
  | Some (successors, releasable) =>
      s ← panic_fold (complete_local_successor completed completion)
            (mkPass state releasable causes) successors;
      Some (sp_state s, set_releasable index (sp_releasable s), sp_causes s)
  end.

Record InboundProgress := mkInbound {
  ip_sequence : Z;
  ip_bytes : Z;
  ip_advance : Z;
}.

Definition signal_default : CompletionSignal := mkSignal 0 0 0.

Definition record_inbound_successor (inbound : FlowId) (progress : InboundProgress)
    (node : NodeId) (s : StagePass) (position : nat) : fueled ExecutionError StagePass :=
  generator ← or_panic (hs_generators (sp_state s) !! position);
  match host_stage (sp_state s) position with
  | None => Some (Ok s)
  | Some stage =>
      let dependencies := st_dependencies stage in
      if inbound_complete dependencies then Some (Ok s)
      else
        received ← lift_result (ok_or (checked_add (sd_inbound_bytes_received dependencies)
                                         (ip_advance progress)) (CounterOverflow node));
        if sd_inbound_predecessor_bytes dependencies <? received
        then Some (Err (CounterOverflow node))
        else
          Some (Ok (write_stage s position
            (stage <| st_dependencies := dependencies <| sd_inbound_bytes_received := received |> |>)
            (mkProgress (fg_flow generator) InboundArrival inbound (ip_advance progress)
               (sd_local_completed dependencies) false (sd_inbound_bytes_received dependencies)
               (ip_sequence progress) (ip_bytes progress) signal_default)))
  end.

Definition record_inbound_progress (state : HostState) (index : HostStageIndex)
    (inbound : FlowId) (progress : InboundProgress) (node : NodeId) (causes : PendingCauses)
  : fueled ExecutionError (HostState * HostStageIndex * PendingCauses) :=
  match inbound_successors_of index inbound with
  | None => Some (Ok (state, index, causes))
  | Some (successors, releasable) =>
      s ← fueled_fold (record_inbound_successor inbound progress node)
            (mkPass state releasable causes) successors;
      Some (Ok (sp_state s, set_releasable index (sp_releasable s), sp_causes s))
  end.

(** ** Releases *)

Definition unexpected_emission (node : NodeDescriptor) (flow : FlowId) (id : PayloadId)
  : ExecutionError := UnexpectedGeneratorEmission (nd_id node) flow id.

(** The host, its index and the position and record of a flow's generator. *)
Definition generator_parts (node : NodeDescriptor) (flow : FlowId) (e : ExecutionError)
  : transition (HostState * HostStageIndex * nat * FlowGeneratorState) :=
  '(state, index) ← host_parts node;
  position ← some_or (first_generator index flow) e;
  generator ← unwrap (hs_generators state !! position);
  done_with (state, index, position, generator).

Definition set_generator (node : NodeDescriptor) (state : HostState) (position : nat)
    (generator : FlowGeneratorState) : transition unit :=
  set_host node (state <| hs_generators ::= <[position := generator]> |>).

Definition start_roce_stage (node : NodeDescriptor) (parent : Event) (flow : FlowId)
  : transition unit :=
  let now := time_ns (key parent) in
  '(state, index, position, generator) ←
    generator_parts node flow (UnknownGenerator (nd_id node) flow);
  match fg_kind generator with
  | GenRoce roce =>
      let roce := roce <| rc_pacer ::= fun pacer => pacer <| rp_first_pacing_time_ns := now |> |>
                       <| rc_pacer_armed := true |> in
      _ ← set_generator node state position
            (generator <| fg_next_emission :=
                            mkEmission (armed_status roce) now (rc_pacing_timer_payload roce) |>
                       <| fg_kind := GenRoce roce |>);
      emit_from_host node parent
        (mkChild (nd_id node) PacingTimer (rc_pacing_timer_payload roce) now)
  | _ => fail (unexpected_emission node flow (payload parent))
  end.

Definition start_compute_stage (node : NodeDescriptor) (parent : Event) (flow : FlowId)
    (duration_ns token_size_bytes : Z) (token_kind : PacketKind) : transition unit :=
  image ← gets ts_image;
  count ← node_count;
  deadline_ns ← some_or (checked_add (time_ns (key parent)) duration_ns)
                  (GeneratorTimeOverflow flow);
  '(state, index) ← host_parts node;
  '(token, state) ←
    (if deadline_ns <=? im_stop_time_ns image then
       '(id, state) ← attempt (allocate_payload node count state);
       done_with (Some id, state)
     else done_with (None, state));
  position ← some_or (first_generator index flow) (UnknownGenerator (nd_id node) flow);
  generator ← unwrap (hs_generators state !! position);
  _ ← set_generator node state position
        (generator <| fg_next_emission :=
           mkEmission (match token with Some _ => Scheduled | None => Stopped end)
             deadline_ns (default 0 token) |>);
  when_some token (fun id =>
    _ ← insert_packet (mkPacket id flow token_size_bytes false token_kind)
          (Some (time_ns (key parent)));
    emit_from_host node parent (mkChild (nd_id node) PacingTimer id deadline_ns)).

Definition compute_duration (stage : option CollectiveStage) : option Z :=
  match stage with
  | Some stage =>
      match st_role stage with
      | RoleCompute compute => Some (cs_duration_ns compute)
      | RoleCollective _ => None
      end
  | None => None
  end.

Definition activate_wrapped_stage (node : NodeDescriptor) (parent : Event) (flow : FlowId)
  : transition unit :=
  '(state, index, position, generator) ←
    generator_parts node flow (UnknownGenerator (nd_id node) flow);
  match fg_kind generator with
  | GenConstant constant =>
      match compute_duration (host_stage state position) with
      | Some duration_ns => start_compute_stage node parent flow duration_ns 0 Data
      | None =>
          start_compute_stage node parent flow (cg_interval_ns constant)
            (cg_packet_size_bytes constant) StageNotify
      end
  | GenRoce _ => start_roce_stage node parent flow
  | GenTcp _ =>
      plan ← prepare_tcp_attempts node flow (time_ns (key parent)) None true false;
      install_tcp_attempts node parent plan
  | _ => fail (unexpected_emission node flow (payload parent))
  end.

Fixpoint activate_loop (fuel : nat) (node : NodeDescriptor) (parent : Event)
    (causes : PendingCauses) (ordinal : Z) : transition (PendingCauses * Z) :=
  match fuel with
  | O => unwrap None
  | S fuel =>
      '(state, index) ← host_parts node;
      ready ← unwrap (first_ready index (hs_generators state));
      match ready with
      | None => done_with (causes, ordinal)
      | Some position =>
          stage ← unwrap (host_stage state position);
          let stage := stage <| st_activated := true |> in
          generator ← unwrap (hs_generators state !! position);
          let flow := fg_flow generator in
          _ ← set_host node (state <| hs_stages ::= <[position := Some stage]> |>);
          _ ← set_index node (refresh_releasable index position (Some stage));
          '(cause, causes) ← unwrap (causes_take causes flow);
          match cause with
          | None => fail (unexpected_emission node flow (payload parent))
          | Some _ =>
              _ ← activate_wrapped_stage node parent flow;
              ordinal ← some_or (checked_add ordinal 1) (CounterOverflow (nd_id node));
              activate_loop fuel node parent causes ordinal
          end
      end
  end.

(** Every iteration activates a stage, so one more than the stages is enough. *)
Definition activate_ready_collectives (node : NodeDescriptor) (parent : Event)
    (causes : PendingCauses) : transition unit :=
  '(state, index) ← host_parts node;
  '(causes, ordinal) ← activate_loop (S (length (hs_stages state))) node parent causes 0;
  _ ← attempt (try_fold (fun ordinal _ =>
        ok_or (checked_add ordinal 1) (CounterOverflow (nd_id node))) ordinal
        (causes_into_remaining causes));
  unit_done.

Definition release_stages (node : NodeDescriptor) (parent : Event) (causes : PendingCauses)
  : transition unit :=
  when (negb (causes_is_empty causes)) (activate_ready_collectives node parent causes).
