(* ===== verification/HostSend.v ===== *)
(** * Host transmission handlers (executor/src/scalar.rs)

    Packet arrivals at a source host (preloaded packets, constant generators and
    the first segment of a TCP flow), the host's egress ([TxReady] and
    [TxComplete], with host-link PFC), and the timers of compute stages and stage
    notifies. *)

From S2P Require Import Prelude OrdMap Event LinkTime ExecError Fel Tcp Model Image.
From S2P Require Import Sched TcpLedger StageIndex Transition TcpSend Stages.

(** ** Packet arrivals *)

Definition host_preloaded_packet_arrival (node : NodeDescriptor) (event : Event)
  : transition unit :=
  packet ← packet (payload event);
  _ ← set_source_time (payload event) (time_ns (key event));
  state ← host_state node;
  state ← attempt (count_sourced node 1 state);
  let '(schedule_ready, state) := claim_ready state in
  _ ← set_host node state;
  _ ← enqueue_source_packet node (payload event);
  _ ← record_sourced (nd_id node) packet;
  when schedule_ready (emit_host_ready node event (payload event)).

Definition host_tcp_initial_send (node : NodeDescriptor) (event : Event)
    (packet : PacketDescriptor) (header : TcpDataHeader) : transition unit :=
  _ ← set_source_time (payload event) (time_ns (key event));
  '(state, index, position, generator) ←
    generator_parts node (pk_flow packet) (UnknownGenerator (nd_id node) (pk_flow packet));
  let unexpected := unexpected_emission node (pk_flow packet) (pk_id packet) in
  let overflow := CounterOverflow (nd_id node) in
  match fg_kind generator with
  | GenTcp tcp =>
      let emission := fg_next_emission generator in
      if negb (bool_decide (se_status emission = Scheduled))
         || negb (se_payload emission =? pk_id packet)
         || negb (se_departure_time_ns emission =? time_ns (key event))
         || negb (td_sequence header =? tg_next_sequence tcp)
         || negb (td_sent_time_ns header =? time_ns (key event))
         || td_retransmission header
      then fail unexpected
      else
        let size := pk_size_bytes packet in
        packets_emitted ← some_or (checked_add (fg_packets_emitted generator) 1) overflow;
        bytes_emitted ← some_or (checked_add (fg_bytes_emitted generator) size) overflow;
        next_sequence ← some_or (checked_add (tg_next_sequence tcp) size) overflow;
        bytes_in_flight ← some_or (checked_add (tg_bytes_in_flight tcp) size) overflow;
        let tcp := tcp <| tg_next_sequence := next_sequence |>
                       <| tg_bytes_in_flight := bytes_in_flight |>
                       <| tg_last_attempt := pk_id packet |> in
        let generator :=
          mirror_in_flight tcp generator
            <| fg_packets_emitted := packets_emitted |>
            <| fg_bytes_emitted := bytes_emitted |>
            <| fg_next_emission ::= fun emission => emission <| se_status := Blocked |> |> in
        state ← attempt (count_sourced node 1
                           (state <| hs_generators ::= <[position := generator]> |>));
        _ ← set_host node state;
        _ ← seed_tcp_segments [packet];
        _ ← enqueue_source_packet node (pk_id packet);
        _ ← record_sourced (nd_id node) packet;
        plan ← prepare_tcp_attempts node (pk_flow packet) (time_ns (key event)) None true false;
        install_tcp_attempts node event plan
  | _ => fail unexpected
  end.

(** When a constant generator next departs, after an emission at [now_ns]. *)
Definition constant_next_departure (constant : ConstantGenerator) (flow : FlowId)
    (bytes_emitted now_ns : Z) : result ExecutionError (option Z) :=
  let overflow := GeneratorTimeOverflow flow in
  match cg_termination constant with
  | Bytes bytes =>
      if bytes_emitted <? bytes then
        next ← ok_or (checked_add now_ns (cg_interval_ns constant)) overflow;
        Ok (Some next)
      else Ok None
  | DurationNs duration_ns =>
      end_time_ns ← ok_or (checked_add (cg_first_departure_ns constant) duration_ns) overflow;
      candidate ← ok_or (checked_add now_ns (cg_interval_ns constant)) overflow;
      Ok (if candidate <? end_time_ns then Some candidate else None)
  end.

(** [Option::filter(|time| *time <= bound)]. *)
Definition option_guard_le (time : option Z) (bound : Z) : option Z :=
  match time with
  | Some time => if time <=? bound then Some time else None
  | None => None
  end.

(** The constant generator of a departing packet: the host, its packet to come
    and whether it owns the next [TxReady]. *)
Definition constant_emission (node : NodeDescriptor) (count stop_time_ns : Z) (event : Event)
    (packet : PacketDescriptor) (state : HostState) (position : nat)
    (generator : FlowGeneratorState)
  : fueled ExecutionError (HostState * option (PacketDescriptor * Z) * bool) :=
  let emission := fg_next_emission generator in
  let now := time_ns (key event) in
  let overflow := CounterOverflow (nd_id node) in
  if negb (bool_decide (se_status emission = Scheduled))
     || negb (se_departure_time_ns emission =? now)
     || negb (se_payload emission =? payload event)
  then Some (Err (unexpected_emission node (pk_flow packet) (payload event)))
  else
    packets_emitted ← lift_result (ok_or (checked_add (fg_packets_emitted generator) 1) overflow);
    bytes_emitted ← lift_result (ok_or (checked_add (fg_bytes_emitted generator)
                                          (pk_size_bytes packet)) overflow);
    constant ← or_panic (match fg_kind generator with
                         | GenConstant constant => Some constant
                         | _ => None
                         end);
    candidate ← lift_result (constant_next_departure constant (pk_flow packet) bytes_emitted now);
    let generator := generator <| fg_packets_emitted := packets_emitted |>
                               <| fg_bytes_emitted := bytes_emitted |> in
    let produced := option_guard_le candidate stop_time_ns in
    '(state, next_packet) ←
      match produced with
      | Some next_departure_ns =>
          '(id, state) ← lift_result (allocate_payload node count state);
          let generator := generator <| fg_next_emission :=
                             mkEmission Scheduled next_departure_ns id |> in
          Some (Ok (state <| hs_generators ::= <[position := generator]> |>,
                    Some (mkPacket id (pk_flow packet) (cg_packet_size_bytes constant) false Data,
                          next_departure_ns)))
      | None =>
          let emission := emission <| se_status :=
                            match candidate with Some _ => Stopped | None => Finished end |> in
          let emission :=
            match candidate with
            | Some candidate => emission <| se_departure_time_ns := candidate |>
            | None => emission
            end in
          Some (Ok (state <| hs_generators ::=
                       <[position := generator <| fg_next_emission := emission |>]> |>, None))
      end;
    state ← lift_result (count_sourced node 1 state);
    let '(schedule_ready, state) := claim_ready state in
    Some (Ok (state, next_packet, schedule_ready)).

Definition host_packet_arrival (node : NodeDescriptor) (event : Event) : transition unit :=
  packet ← packet (payload event);
  '(state, index) ← host_parts node;
  match first_generator index (pk_flow packet), pk_kind packet with
  | None, _ => host_preloaded_packet_arrival node event
  | Some _, TcpData header => host_tcp_initial_send node event packet header
  | Some position, _ =>
      _ ← set_source_time (payload event) (time_ns (key event));
      image ← gets ts_image;
      count ← node_count;
      generator ← unwrap (hs_generators state !! position);
      '(state, next, schedule_ready) ←
        run (constant_emission node count (im_stop_time_ns image) event packet state position
               generator);
      _ ← set_host node state;
      _ ← enqueue_source_packet node (payload event);
      _ ← record_sourced (nd_id node) packet;
      _ ← when_some next (fun '(next_packet, next_departure_ns) =>
            _ ← insert_packet next_packet (Some next_departure_ns);
            emit_from_host node event
              (mkChild (nd_id node) PacketArrival (pk_id next_packet) next_departure_ns));
      when schedule_ready (emit_host_ready node event (payload event))
  end.

(** ** Stage timers *)

Definition emission_due (generator : FlowGeneratorState) (event : Event) : bool :=
  let emission := fg_next_emission generator in
  bool_decide (se_status emission = Scheduled) && (se_payload emission =? payload event)
  && (se_departure_time_ns emission =? time_ns (key event)).

Definition host_compute_timer (node : NodeDescriptor) (event : Event) (flow : FlowId)
  : transition unit :=
  let unexpected := unexpected_emission node flow (payload event) in
  '(state, index, position, generator) ←
    generator_parts node flow (UnknownGenerator (nd_id node) flow);
  if negb (emission_due generator event) then fail unexpected
  else
    let generator := generator <| fg_next_emission ::= fun emission =>
                       emission <| se_status := Finished |> |> in
    duration_ns ← some_or (compute_duration (host_stage state position)) unexpected;
    let completion := mkSignal 0 (time_ns (key event) -w duration_ns) duration_ns in
    '(state, index, causes) ←
      unwrap (complete_local_successors
                (state <| hs_generators ::= <[position := generator]> |>) index flow completion
                causes_default);
    _ ← set_host node state;
    _ ← set_index node index;
    _ ← mark_terminal (payload event);
    release_stages node event causes.

Definition host_notify_timer (node : NodeDescriptor) (event : Event) (flow_id : FlowId)
  : transition unit :=
  let unexpected := unexpected_emission node flow_id (payload event) in
  '(state, index, position, generator) ←
    generator_parts node flow_id (UnknownGenerator (nd_id node) flow_id);
  match fg_kind generator with
  | GenConstant constant =>
      if negb (emission_due generator event) then fail unexpected
      else
        let generator :=
          generator <| fg_next_emission ::= fun emission => emission <| se_status := Finished |> |>
                    <| fg_packets_emitted := 1 |>
                    <| fg_bytes_emitted := cg_packet_size_bytes constant |> in
        let completion := mkSignal 0 (time_ns (key event) -w cg_interval_ns constant)
                            (cg_interval_ns constant) in
        '(state, index, causes) ←
          unwrap (complete_local_successors
                    (state <| hs_generators ::= <[position := generator]> |>) index flow_id
                    completion causes_default);
        _ ← set_host node state;
        _ ← set_index node index;
        descriptor ← flow flow_id;
        arrival_ns ← some_or (checked_add (time_ns (key event)) (cg_first_departure_ns constant))
                       (Time ArrivalOverflow);
        _ ← emit_from_host node event
              (mkChild (fd_target descriptor) RemoteArrival (payload event) arrival_ns);
        release_stages node event causes
  | _ => fail unexpected
  end.

Definition host_notify_arrival (node : NodeDescriptor) (event : Event)
    (packet : PacketDescriptor) : transition unit :=
  '(state, index) ← host_parts node;
  '(state, index, causes) ←
    run (record_inbound_progress state index (pk_flow packet)
           (mkInbound 0 (pk_size_bytes packet) (pk_size_bytes packet)) (nd_id node)
           causes_default);
  _ ← set_host node state;
  _ ← set_index node index;
  _ ← mark_terminal (payload event);
  release_stages node event causes.

(** ** The host's egress *)

(** The search for the first queued packet whose class is not paused. *)
Fixpoint host_pfc_search (pfc : HostPfcState) (position : nat) (queue : list PayloadId)
  : transition (option nat) :=
  match queue with
  | [] => done_with None
  | id :: queue =>
      packet ← packet id;
      class ← packet_pfc_class packet;
      paused ← unwrap (host_is_paused pfc class);
      if (paused : bool) then host_pfc_search pfc (S position) queue
      else done_with (Some position)
  end.

Definition host_pfc_first_eligible (node : NodeDescriptor) : transition (option nat) :=
  state ← host_state node;
  match hs_pfc state with
  | None => done_with (match hs_queue state with [] => None | _ => Some 0%nat end)
  | Some pfc => host_pfc_search pfc 0 (hs_queue state)
  end.

Definition host_pfc_start_eligible (node : NodeDescriptor)
  : transition (option (LinkId * PayloadId)) :=
  first ← host_pfc_first_eligible node;
  match first with
  | None => done_with None
  | Some position =>
      state ← host_state node;
      id ← some_or (hs_queue state !! position) (InvalidSchedulerState (nd_id node));
      _ ← set_host node (state <| hs_queue ::= delete position |> <| hs_in_service := Some id |>);
      done_with (Some (hs_egress_link state, id))
  end.

Definition host_pfc_claim_ready (node : NodeDescriptor) : transition bool :=
  first ← host_pfc_first_eligible node;
  state ← host_state node;
  if bool_decide (is_Some first) && negb (hs_tx_ready_pending state) then
    _ ← set_host node (state <| hs_tx_ready_pending := true |>);
    done_with true
  else done_with false.

(** What [TxReady] serves: without PFC the head of the queue. *)
Definition host_start_service (node : NodeDescriptor)
  : transition (option (LinkId * PayloadId)) :=
  state ← host_state node;
  let state := state <| hs_tx_ready_pending := false |> in
  _ ← set_host node state;
  match hs_in_service state, hs_pfc state with
  | Some _, _ => fail (HostAlreadyTransmitting (nd_id node))
  | None, Some _ => host_pfc_start_eligible node
  | None, None =>
      match hs_queue state with
      | [] => done_with None
      | id :: queue =>
          _ ← set_host node (state <| hs_queue := queue |> <| hs_in_service := Some id |>);
          done_with (Some (hs_egress_link state, id))
      end
  end.

Definition time_result {A} (m : result TimeError A) : result ExecutionError A :=
  map_err Time m.

Definition host_tx_ready (node : NodeDescriptor) (event : Event) : transition unit :=
  served ← host_start_service node;
  when_some served (fun '(egress_link, id) =>
    link ← link egress_link;
    if negb (lk_source link =? nd_id node)
    then fail (LinkSourceMismatch (lk_id link) (nd_id node) (lk_source link))
    else
      _ ← start_transmission (nd_id node) id;
      packet ← packet id;
      arrival_time_ns ← attempt (time_result
                          (arrival_time_ns link (time_ns (key event)) (pk_size_bytes packet)));
      departure_time_ns ← some_or (checked_sub arrival_time_ns (lk_propagation_ns link))
                            (Time ArrivalOverflow);
      _ ← emit_from_host node event
            (mkChild (nd_id node) TxComplete id departure_time_ns);
      remote ← packet_remote_target id (lk_id link);
      emit_from_host node event (mkChild remote RemoteArrival id arrival_time_ns)).

Definition host_tx_complete (node : NodeDescriptor) (event : Event) : transition unit :=
  state ← host_state node;
  if negb (bool_decide (hs_in_service state = Some (payload event)))
  then fail (UnexpectedTxComplete (nd_id node) (hs_in_service state) (payload event))
  else
    departed ← some_or (checked_add (hs_departed_packets state) 1) (CounterOverflow (nd_id node));
    let state := state <| hs_in_service := None |> <| hs_departed_packets := departed |> in
    schedule_ready ←
      match hs_pfc state with
      | Some _ =>
          _ ← set_host node state;
          host_pfc_claim_ready node
      | None =>
          if negb (bool_decide (hs_queue state = [])) && negb (hs_tx_ready_pending state) then
            _ ← set_host node (state <| hs_tx_ready_pending := true |>);
            done_with true
          else
            _ ← set_host node state;
            done_with false
      end;
    packet ← packet (payload event);
    _ ← record_departure (nd_id node) packet;
    _ ← finish_transmission (nd_id node) (payload event);
    when schedule_ready (emit_host_ready node event (payload event)).
