(* ===== verification/HostTcp.v ===== *)
(** * TCP handlers (executor/src/scalar.rs)

    A data segment at its receiver, an acknowledgment at its sender and the
    sender's retransmission timeout. *)

From S2P Require Import Prelude OrdMap Event LinkTime ExecError Fel Tcp Model Image TcpReceiver.
From S2P Require Import Sched TcpLedger StageIndex Transition TcpSend Stages HostSend.

(** ** Data at the receiver *)

Definition host_tcp_data_arrival (node : NodeDescriptor) (event : Event)
    (packet : PacketDescriptor) (header : TcpDataHeader) : transition unit :=
  descriptor ← flow (pk_flow packet);
  if negb (fd_target descriptor =? nd_id node)
  then fail (FlowRouteMiss (fd_id descriptor) (nd_id node))
  else
    count ← node_count;
    '(state, index) ← host_parts node;
    position ← some_or (first_receiver index (pk_flow packet))
                 (UnknownGenerator (nd_id node) (pk_flow packet));
    receiver ← unwrap (hs_tcp_receivers state !! position);
    end_ ← some_or (checked_add (td_sequence header) (pk_size_bytes packet))
             (CounterOverflow (nd_id node));
    let frontier_before := tr_next_expected_sequence receiver in
    let receiver := tcp_receive_range receiver (td_sequence header) end_ in
    let advanced := tr_next_expected_sequence receiver -w frontier_before in
    let state := state <| hs_tcp_receivers ::= <[position := receiver]> |> in
    '(state, index, stage_causes) ←
      run (record_inbound_progress state index (pk_flow packet)
             (mkInbound (td_sequence header) (pk_size_bytes packet) advanced) (nd_id node)
             causes_default);
    '(ack_payload, state) ← attempt (allocate_payload node count state);
    state ← attempt (count_received node state);
    state ← attempt (count_sourced node 1 state);
    _ ← set_host node state;
    _ ← set_index node index;
    _ ← record_arrival (nd_id node) packet Delivered;
    _ ← mark_terminal (pk_id packet);
    let ack := mkPacket ack_payload (pk_flow packet) (tr_ack_size_bytes receiver) false
                 (TcpAck (mkTcpAck (tr_next_expected_sequence receiver) (pk_size_bytes packet)
                            (td_sent_time_ns header))) in
    _ ← source_packet node ack (time_ns (key event));
    _ ← schedule_host_ready node event (pk_id ack);
    release_stages node event stage_causes.

(** ** Acknowledgments at the sender *)

Definition apply_generator_feedback (generator : FlowGeneratorState) (node : NodeId)
  : result ExecutionError (FlowGeneratorState * GeneratorFeedbackAction) :=
  arrivals ← ok_or (checked_add (fb_arrivals (fg_feedback generator)) 1) (CounterOverflow node);
  Ok (generator <| fg_feedback ::= fun feedback => feedback <| fb_arrivals := arrivals |> |>,
      FeedbackNone).

(** What an acknowledgment makes the sender do. *)
Record AckOutcome := mkAckOutcome {
  ao_tcp : TcpGenerator;
  ao_input : bool;
  ao_retransmit : option Z;
  ao_fill : bool;
  ao_acknowledged_through : option Z;
  ao_superseded : option TcpTimerState;
}.

Definition on_fresh_ack (tcp : TcpGenerator) (header : TcpAckHeader) (acknowledgment now_ns : Z)
  : AckOutcome :=
  let acknowledged_bytes := acknowledgment -w tg_highest_ack tcp in
  let flight_before := tg_bytes_in_flight tcp in
  let rtt_sample := Z.max (saturating_sub now_ns (ta_echoed_sent_time_ns header)) 1 in
  let '(srtt_ns, rtt_var_ns, rto_ns) :=
    update_rto_ns (tg_srtt_ns tcp) (tg_rtt_var_ns tcp) rtt_sample in
  let control := cc_on_new_ack (tg_control tcp) acknowledged_bytes now_ns rtt_sample
                   flight_before acknowledgment in
  let superseded := tg_active_timer tcp in
  let tcp := tcp <| tg_srtt_ns := srtt_ns |> <| tg_rtt_var_ns := rtt_var_ns |>
                 <| tg_rto_ns := rto_ns |> <| tg_control := control |>
                 <| tg_bytes_in_flight ::= fun flight => saturating_sub flight acknowledged_bytes |>
                 <| tg_highest_ack := acknowledgment |> <| tg_duplicate_acks := 0 |>
                 <| tg_active_timer := None |> in
  mkAckOutcome tcp true
    (if bool_decide (cc_phase control = FastRecovery)
        && (acknowledgment <? tg_recovery_high_sequence tcp)
     then Some acknowledgment else None)
    (acknowledgment <? tg_total_bytes tcp) (Some acknowledgment) superseded.

Definition on_repeated_ack (tcp : TcpGenerator) (now_ns : Z) : AckOutcome :=
  let '(control, fast_retransmit) :=
    cc_on_duplicate_ack (tg_control tcp) (tg_bytes_in_flight tcp) now_ns in
  let tcp := tcp <| tg_control := control |> <| tg_duplicate_acks := cc_duplicate_acks control |> in
  if fast_retransmit then
    let control := cc_set_recovery_high_sequence control (tg_next_sequence tcp) in
    mkAckOutcome
      (tcp <| tg_recovery_high_sequence := tg_next_sequence tcp |> <| tg_control := control |>
           <| tg_active_timer := None |>)
      true (Some (tg_highest_ack tcp)) false None (tg_active_timer tcp)
  else mkAckOutcome tcp true None (3 <? tg_duplicate_acks tcp) None None.

Definition on_ack (tcp : TcpGenerator) (header : TcpAckHeader) (now_ns : Z) : AckOutcome :=
  let acknowledgment := Z.min (ta_acknowledgment header) (tg_next_sequence tcp) in
  if tg_highest_ack tcp <? acknowledgment then on_fresh_ack tcp header acknowledgment now_ns
  else if (acknowledgment =? tg_highest_ack tcp)
          && (tg_highest_ack tcp <? tg_total_bytes tcp)
          && negb (tg_bytes_in_flight tcp =? 0)
  then on_repeated_ack tcp now_ns
  else mkAckOutcome tcp false None false None None.

(** The delays of the links of a route, added to [total]. *)
Definition add_route_delay (image : SimulationImage) (flow : FlowId) (bytes total : Z)
    (route : list LinkId) : result ExecutionError Z :=
  try_fold (fun total id =>
    link ← image_link image id;
    delay ← map_err (fun _ => GeneratorTimeOverflow flow) (link_delay_ns link bytes);
    ok_or (checked_add total delay) (GeneratorTimeOverflow flow)) total route.

Definition unloaded_round_trip_ns (image : SimulationImage) (flow : FlowId)
    (data_bytes ack_bytes : Z) : result ExecutionError Z :=
  descriptor ← image_flow image flow;
  total ← add_route_delay image flow data_bytes 0 (fd_route descriptor);
  add_route_delay image flow ack_bytes total (fd_reverse_route descriptor).

(** A completed stage releases the stages that wait for it. *)
Definition complete_stage (node : NodeDescriptor) (flow : FlowId) (ack_number origin_ns : Z)
    (data_bytes ack_bytes : Z) : transition PendingCauses :=
  image ← gets ts_image;
  delay_ns ← attempt (unloaded_round_trip_ns image flow data_bytes ack_bytes);
  '(state, index) ← host_parts node;
  '(state, index, causes) ←
    unwrap (complete_local_successors state index flow (mkSignal ack_number origin_ns delay_ns)
              causes_default);
  _ ← set_host node state;
  _ ← set_index node index;
  done_with causes.

Definition acknowledge_tcp_segments (flow : FlowId) (acknowledgment : Z) : transition unit :=
  segments ← gets ts_tcp_sent_segments;
  segments ← run (ledger_result (acknowledge_segments segments flow acknowledgment));
  modify (fun s => s <| ts_tcp_sent_segments := segments |>).

Definition host_tcp_ack_arrival (node : NodeDescriptor) (event : Event)
    (packet : PacketDescriptor) (header : TcpAckHeader) : transition unit :=
  descriptor ← flow (pk_flow packet);
  if negb (fd_source descriptor =? nd_id node)
  then fail (FlowRouteMiss (fd_id descriptor) (nd_id node))
  else
    _ ← record_arrival (nd_id node) packet FeedbackArrival;
    _ ← mark_terminal (pk_id packet);
    let unknown := UnknownGenerator (nd_id node) (pk_flow packet) in
    '(state, index, position, generator) ← generator_parts node (pk_flow packet) unknown;
    match fg_kind generator with
    | GenTcp tcp =>
        '(generator, _) ← attempt (apply_generator_feedback generator (nd_id node));
        let outcome := on_ack tcp header (time_ns (key event)) in
        let tcp := ao_tcp outcome in
        let generator := mirror_in_flight tcp generator in
        _ ← set_generator node state position generator;
        let scheduled_send_pending :=
          bool_decide (se_status (fg_next_emission generator) = Scheduled) in
        stage_causes ←
          match host_stage state position, ao_acknowledged_through outcome with
          | Some _, Some acknowledged =>
              if tg_total_bytes tcp <=? acknowledged then
                complete_stage node (pk_flow packet) acknowledged (ta_echoed_sent_time_ns header)
                  (ta_acknowledged_bytes header) (pk_size_bytes packet)
              else done_with causes_default
          | _, _ => done_with causes_default
          end;
        _ ← when_some (ao_superseded outcome) (fun timer =>
              cancel_superseded_timer (nd_id node) (tt_attempt timer) (tt_deadline_ns timer));
        _ ← when_some (ao_acknowledged_through outcome)
              (acknowledge_tcp_segments (pk_flow packet));
        _ ← when (ao_input outcome
                  && negb (scheduled_send_pending
                           && bool_decide (ao_retransmit outcome = None)))
              (plan ← prepare_tcp_attempts node (pk_flow packet) (time_ns (key event))
                        (ao_retransmit outcome) (ao_fill outcome && negb scheduled_send_pending)
                        scheduled_send_pending;
               install_tcp_attempts node event plan);
        release_stages node event stage_causes
    | _ => fail unknown
    end.

(** ** Retransmission timeouts *)

(** The generator whose armed timer the event is, its position and the timer. *)
Fixpoint timed_out_generator (event : Event) (position : nat)
    (generators : list FlowGeneratorState)
  : option (nat * FlowGeneratorState * TcpGenerator * TcpTimerState) :=
  match generators with
  | [] => None
  | generator :: generators =>
      match fg_kind generator with
      | GenTcp tcp =>
          match tg_active_timer tcp with
          | Some timer =>
              if (tt_attempt timer =? payload event)
                 && (tt_deadline_ns timer =? time_ns (key event))
              then Some (position, generator, tcp, timer)
              else timed_out_generator event (S position) generators
          | None => timed_out_generator event (S position) generators
          end
      | _ => timed_out_generator event (S position) generators
      end
  end.

Definition on_rto (tcp : TcpGenerator) (timer : TcpTimerState) : TcpGenerator :=
  tcp <| tg_active_timer := None |>
      <| tg_control := cc_on_timeout (tg_control tcp) (tg_bytes_in_flight tcp) |>
      <| tg_rto_ns := Z.min (saturating_mul (tt_rto_ns timer) 2) 60000000000 |>.

Definition tcp_retransmission_timeout (node : NodeDescriptor) (event : Event)
    (state : HostState) (position : nat) (generator : FlowGeneratorState)
    (tcp : TcpGenerator) (timer : TcpTimerState) : transition unit :=
  let tcp := on_rto tcp timer in
  _ ← set_generator node state position (generator <| fg_kind := GenTcp tcp |>);
  plan ← prepare_tcp_attempts node (fg_flow generator) (time_ns (key event))
           (Some (tg_highest_ack tcp)) false false;
  install_tcp_attempts node event plan.
