(* ===== verification/Pacing.v ===== *)
(** * Rate-paced and DCQCN handlers (executor/src/scalar.rs)

    The pacing ticks of a rate generator and of an unreliable DCQCN flow, the
    DCQCN notification point at the receiver and its congestion notifications at
    the sender. *)

From S2P Require Import Prelude OrdMap Event LinkTime ExecError Fel Dcqcn Tcp Model Image Roce.
From S2P Require Import Sched TcpLedger StageIndex Transition TcpSend Stages HostSend.

Definition pacing_credit_scale (rate_denominator : Z) : option Z :=
  checked_mul_128 rate_denominator 1000000000.

Definition pacing_tick_credit (rate_bps pacing_interval_ns : Z) : option Z :=
  checked_mul_128 rate_bps pacing_interval_ns.

Definition paced_packet_cost (size_bytes scale : Z) : option Z :=
  bits ← checked_mul_128 size_bytes 8;
  checked_mul_128 bits scale.

(** ** One tick *)

Record PacingOutcome := mkPacing {
  pt_state : HostState;
  pt_generator : FlowGeneratorState;
  pt_credit_quanta : Z;
  pt_emitted : bool;
  pt_next_packet : option PacketDescriptor;
  pt_next_timer : option (PayloadId * Z);
}.

(** The tick's credit pays for the packet, or accumulates. *)
Definition pace_packet (node : NodeDescriptor) (packet : PacketDescriptor) (state : HostState)
    (generator : FlowGeneratorState) (credit_quanta packet_cost : Z)
  : result ExecutionError (HostState * FlowGeneratorState * Z * bool) :=
  let overflow := CounterOverflow (nd_id node) in
  if packet_cost <=? credit_quanta then
    packets_emitted ← ok_or (checked_add (fg_packets_emitted generator) 1) overflow;
    bytes_emitted ← ok_or (checked_add (fg_bytes_emitted generator) (pk_size_bytes packet))
                      overflow;
    state ← count_sourced node 1 state;
    Ok (state, generator <| fg_packets_emitted := packets_emitted |>
                         <| fg_bytes_emitted := bytes_emitted |>,
        credit_quanta - packet_cost, true)
  else Ok (state, generator, credit_quanta, false).

(** One tick of [rate], whose credit and rate the caller has brought up to date. *)
Definition pace_tick (node : NodeDescriptor) (count stop_time_ns now_ns : Z)
    (packet : PacketDescriptor) (state : HostState) (generator : FlowGeneratorState)
    (rate : RateGenerator) (rate_bps : Z) : result ExecutionError PacingOutcome :=
  let overflow := CounterOverflow (nd_id node) in
  scale ← ok_or (pacing_credit_scale (rg_rate_denominator rate)) overflow;
  tick_credit ← ok_or (pacing_tick_credit rate_bps (rg_pacing_interval_ns rate)) overflow;
  packet_cost ← ok_or (paced_packet_cost (pk_size_bytes packet) scale) overflow;
  credit ← ok_or (checked_add_128 (rg_credit_quanta rate) tick_credit) overflow;
  '(state, generator, credit, emitted) ← pace_packet node packet state generator credit packet_cost;
  if rg_total_bytes rate <=? fg_bytes_emitted generator then
    Ok (mkPacing state
          (generator <| fg_next_emission ::= fun emission => emission <| se_status := Finished |> |>)
          credit emitted None None)
  else
    candidate_time ← ok_or (checked_add now_ns (rg_pacing_interval_ns rate))
                       (GeneratorTimeOverflow (pk_flow packet));
    if candidate_time <=? stop_time_ns then
      '(id, size_bytes, state) ←
        (if (emitted : bool) then
           '(id, state) ← allocate_payload node count state;
           Ok (id, Z.min (rg_packet_size_bytes rate)
                     (rg_total_bytes rate -w fg_bytes_emitted generator), state)
         else Ok (pk_id packet, pk_size_bytes packet, state));
      next_cost ← ok_or (paced_packet_cost size_bytes scale) overflow;
      let status :=
        match checked_add_128 credit tick_credit with
        | Some next_credit => if next_cost <=? next_credit then Scheduled else Blocked
        | None => Blocked
        end in
      Ok (mkPacing state (generator <| fg_next_emission := mkEmission status candidate_time id |>)
            credit emitted
            (if emitted then Some (mkPacket id (pk_flow packet) size_bytes false Data) else None)
            (Some (id, candidate_time)))
    else
      Ok (mkPacing state
            (generator <| fg_next_emission ::= fun emission =>
               emission <| se_status := Stopped |> <| se_departure_time_ns := candidate_time |> |>)
            credit emitted None None).

(** What a tick leaves to do once the generator is written. *)
Definition finish_tick (node : NodeDescriptor) (event : Event) (packet : PacketDescriptor)
    (tick : PacingOutcome) : transition unit :=
  _ ← (if pt_emitted tick then
         _ ← set_source_time (pk_id packet) (time_ns (key event));
         _ ← enqueue_source_packet node (pk_id packet);
         record_sourced (nd_id node) packet
       else when (bool_decide (pt_next_timer tick = None)) (mark_terminal (pk_id packet)));
  _ ← when_some (pt_next_packet tick) (fun next => insert_packet next None);
  _ ← when_some (pt_next_timer tick) (fun '(id, time_ns) =>
        emit_from_host node event (mkChild (nd_id node) PacingTimer id time_ns));
  when (pt_emitted tick) (schedule_host_ready node event (pk_id packet)).

(** The event is the tick the generator waits for. *)
Definition tick_due (generator : FlowGeneratorState) (event : Event) : bool :=
  let emission := fg_next_emission generator in
  match se_status emission with
  | Scheduled | Blocked =>
      (se_payload emission =? payload event)
      && (se_departure_time_ns emission =? time_ns (key event))
  | _ => false
  end.

Definition host_rate_timer (node : NodeDescriptor) (event : Event) (packet : PacketDescriptor)
  : transition unit :=
  image ← gets ts_image;
  count ← node_count;
  '(state, index) ← host_parts node;
  when_some (first_generator index (pk_flow packet)) (fun position =>
    generator ← unwrap (hs_generators state !! position);
    match fg_kind generator with
    | GenRate rate =>
        if negb (tick_due generator event) then unit_done
        else
          tick ← attempt (pace_tick node count (im_stop_time_ns image) (time_ns (key event))
                            packet state generator rate (rg_rate_numerator_bits_per_second rate));
          let rate := rate <| rg_credit_quanta := pt_credit_quanta tick |> in
          _ ← set_generator node (pt_state tick) position
                (pt_generator tick <| fg_kind := GenRate rate |>);
          finish_tick node event packet tick
    | _ => unit_done
    end).

(** ** DCQCN *)

Definition dcqcn_materialize (controller : DcqcnController) (frozen : bool) (bound : Z)
  : DcqcnController :=
  if frozen || (bound <=? due_ns controller) then controller
  else (materialize controller bound).1.

Definition host_dcqcn_pacing_timer (node : NodeDescriptor) (event : Event)
    (packet : PacketDescriptor) : transition unit :=
  image ← gets ts_image;
  count ← node_count;
  state ← host_state node;
  position ← some_or (find_position (fun generator => fg_flow generator =? pk_flow packet)
                        (hs_generators state))
               (UnknownGenerator (nd_id node) (pk_flow packet));
  generator ← unwrap (hs_generators state !! position);
  match fg_kind generator with
  | GenDcqcn dcqcn =>
      if negb (tick_due generator event) then unit_done
      else
        let bound := saturating_add (time_ns (key event)) 1 in
        let controller := dcqcn_materialize (dg_controller dcqcn) false bound in
        tick ← attempt (pace_tick node count (im_stop_time_ns image) (time_ns (key event))
                          packet state generator (dg_rate dcqcn) (current_rate_bps controller));
        let controller :=
          match pt_next_timer tick with
          | Some _ => controller
          | None => (settle controller bound).1
          end in
        let rate := dg_rate dcqcn <| rg_credit_quanta := pt_credit_quanta tick |>
                      <| rg_rate_numerator_bits_per_second := current_rate_bps controller |> in
        let dcqcn := dcqcn <| dg_rate := rate |> <| dg_controller := controller |> in
        _ ← set_generator node (pt_state tick) position
              (pt_generator tick <| fg_kind := GenDcqcn dcqcn |>);
        finish_tick node event packet tick
  | _ => unit_done
  end.

(** Data at the notification point: a marked packet answers with a CNP. *)
Definition host_dcqcn_data_arrival (node : NodeDescriptor) (event : Event)
    (packet : PacketDescriptor) : transition unit :=
  descriptor ← flow (pk_flow packet);
  if negb (fd_target descriptor =? nd_id node)
  then fail (FlowRouteMiss (fd_id descriptor) (nd_id node))
  else
    count ← node_count;
    state ← host_state node;
    position ← some_or (find_position (fun r => dr_flow r =? pk_flow packet)
                          (hs_dcqcn_receivers state))
                 (UnknownGenerator (nd_id node) (pk_flow packet));
    receiver ← unwrap (hs_dcqcn_receivers state !! position);
    state ← attempt (count_received node state);
    let '(receiver, sends) :=
      notification_point_sends_cnp receiver (time_ns (key event))
        (match ecn_codepoint packet with Ce => true | _ => false end) in
    let state := state <| hs_dcqcn_receivers ::= <[position := receiver]> |> in
    '(cnp, state) ←
      (if (sends : bool) then
         '(id, state) ← attempt (allocate_payload node count state);
         state ← attempt (count_sourced node 1 state);
         let '(schedule_ready, state) := claim_ready state in
         done_with (Some (id, schedule_ready), state)
       else done_with (None, state));
    _ ← set_host node state;
    _ ← record_arrival (nd_id node) packet Delivered;
    _ ← mark_terminal (pk_id packet);
    when_some cnp (fun '(id, schedule_ready) =>
      let cnp := mkPacket id (pk_flow packet) (dr_cnp_size_bytes receiver) false
                   (DcqcnCnp (mkCnpHeader (pk_id packet))) in
      _ ← source_packet node cnp (time_ns (key event));
      when schedule_ready (emit_host_ready node event id)).

Definition settle_roce_sender (generator : FlowGeneratorState) (roce : RoceGenerator)
    (parked_status : GeneratorStatus) : FlowGeneratorState :=
  let outstanding := fg_bytes_emitted generator -w rc_snd_una roce in
  generator
    <| fg_next_emission ::= fun emission =>
         emission <| se_status := settled_status roce parked_status |> |>
    <| fg_feedback ::= fun feedback =>
         feedback <| fb_outstanding_bytes := outstanding |>
                  <| fb_unacknowledged_bytes := outstanding |> |>.

(** A congestion notification at its sender's controller; [None] when the
    generator has no controller. *)
Definition cnp_feedback (generator : FlowGeneratorState) (now_ns : Z)
  : option FlowGeneratorState :=
  match fg_kind generator with
  | GenDcqcn dcqcn =>
      match se_status (fg_next_emission generator) with
      | Scheduled | Blocked =>
          let controller := (on_feedback (dg_controller dcqcn) now_ns).1 in
          let dcqcn := dcqcn <| dg_controller := controller |>
                         <| dg_rate ::= fun rate => rate <| rg_rate_numerator_bits_per_second :=
                              current_rate_bps controller |> |> in
          Some (generator <| fg_kind := GenDcqcn dcqcn |>)
      | _ => Some generator
      end
  | GenRoce roce =>
      if rp_total_bytes (rc_pacer roce) <=? rc_snd_una roce then Some generator
      else
        let roce := roce <| rc_controller := (on_feedback (rc_controller roce) now_ns).1 |> in
        Some (settle_roce_sender generator roce (se_status (fg_next_emission generator))
                <| fg_kind := GenRoce roce |>)
  | _ => None
  end.

Definition host_dcqcn_cnp_arrival (node : NodeDescriptor) (event : Event)
    (packet : PacketDescriptor) : transition unit :=
  descriptor ← flow (pk_flow packet);
  if negb (fd_source descriptor =? nd_id node)
  then fail (FlowRouteMiss (fd_id descriptor) (nd_id node))
  else
    let unknown := UnknownGenerator (nd_id node) (pk_flow packet) in
    '(state, index, position, generator) ← generator_parts node (pk_flow packet) unknown;
    arrivals ← some_or (checked_add (fb_arrivals (fg_feedback generator)) 1)
                 (CounterOverflow (nd_id node));
    let generator := generator <| fg_feedback ::= fun feedback =>
                       feedback <| fb_arrivals := arrivals |> |> in
    generator ← some_or (cnp_feedback generator (time_ns (key event))) unknown;
    _ ← set_generator node state position generator;
    _ ← record_arrival (nd_id node) packet FeedbackArrival;
    mark_terminal (pk_id packet).
