(* ===== verification/HostRoce.v ===== *)
(** * RoCE queue-pair handlers (executor/src/scalar.rs)

    The pacing tick of a queue pair's sender, its feedback and its timeout, and a
    data packet at the Go-back-N receiver. *)

From S2P Require Import Prelude OrdMap Event LinkTime ExecError Fel Dcqcn Tcp Model Image Roce.
From S2P Require Import Sched TcpLedger StageIndex Transition TcpSend Stages HostSend HostTcp.
From S2P Require Import Pacing.

(** ** The sender's parts *)

(** Restarts a parked pacer that has packets to send again. *)
Definition restart_roce_pacer (generator : FlowGeneratorState) (roce : RoceGenerator)
    (now_ns stop_time_ns : Z)
  : result ExecutionError (option Z * FlowGeneratorState * RoceGenerator) :=
  let roce := roce <| rc_window_parked := false |> in
  let total := rp_total_bytes (rc_pacer roce) in
  if rc_pacer_armed roce || (total <=? rc_next_psn roce) || (total <=? rc_snd_una roce)
  then Ok (None, generator, roce)
  else
    time_ns ← ok_or (restart_time_ns roce now_ns) (GeneratorTimeOverflow (fg_flow generator));
    let generator := generator <| fg_next_emission ::= fun emission =>
                       emission <| se_departure_time_ns := time_ns |> |> in
    if time_ns <=? stop_time_ns then
      Ok (Some time_ns, generator, roce <| rc_pacer_armed := true |>)
    else
      Ok (None, generator <| fg_next_emission ::= fun emission =>
                  emission <| se_status := Stopped |> |>, roce).

(** Whether the pair's pacer is parked, not stopped, with packets left. *)
Definition restartable (generator : FlowGeneratorState) (roce : RoceGenerator) : bool :=
  negb (rc_pacer_armed roce)
  && negb (bool_decide (se_status (fg_next_emission generator) = Stopped))
  && (rc_next_psn roce <? rp_total_bytes (rc_pacer roce))
  && (rc_snd_una roce <? rp_total_bytes (rc_pacer roce)).

(** Keeps the parked list exact; the outer [None] is the panic of a class beyond
    the array. *)
Definition leave_parked_list (pfc : option HostPfcState) (data_class : Z) (position : nat)
    (generator : FlowGeneratorState) (roce : RoceGenerator) : option (option HostPfcState) :=
  match pfc with
  | None => Some None
  | Some pfc =>
      if restartable generator roce then Some (Some pfc)
      else
        parked ← hp_pause_parked pfc !! Z.to_nat data_class;
        Some (Some (pfc <| hp_pause_parked ::=
          <[Z.to_nat data_class := (bs_remove (Z.of_nat position) parked).2]> |>))
  end.

(** Emits a restarted pacing tick, then a re-armed timeout. *)
Definition emit_roce_timers (node : NodeDescriptor) (parent : Event) (token : PayloadId)
    (tick_ns timer_ns : option Z) : transition unit :=
  _ ← when_some tick_ns (fun time_ns =>
        emit_from_host node parent (mkChild (nd_id node) PacingTimer token time_ns));
  when_some timer_ns (fun time_ns =>
    emit_from_host node parent (mkChild (nd_id node) RetransmissionTimeout token time_ns)).

(** ** Pacing ticks *)

Record RoceEmission := mkRoceEmission {
  re_psn : Z;
  re_bytes : Z;
  re_retransmission : bool;
  re_payload : PayloadId;
}.

(** What a tick leaves to do: the packet, the next tick and a timeout to arm. *)
Record RoceTick := mkRoceTick {
  rt_state : HostState;
  rt_emission : option RoceEmission;
  rt_next_tick_ns : option Z;
  rt_timer_ns : option Z;
}.

(** A tick that finds the pair unable to send parks it. *)
Definition park_tick (state : HostState) (position : nat) (generator : FlowGeneratorState)
    (roce : RoceGenerator) : RoceTick :=
  mkRoceTick
    (state <| hs_generators ::=
       <[position := settle_roce_sender generator roce Blocked <| fg_kind := GenRoce roce |>]> |>)
    None None None.

(** The packet at [next_psn], when the tick's credit covers it. *)
Definition roce_send (node : NodeDescriptor) (count now_ns : Z) (flow : FlowId)
    (state : HostState) (generator : FlowGeneratorState) (roce : RoceGenerator)
  : result ExecutionError
      (HostState * FlowGeneratorState * RoceGenerator * option RoceEmission * option Z) :=
  let overflow := CounterOverflow (nd_id node) in
  scale ← ok_or (pacing_credit_scale 1) overflow;
  tick ← ok_or (pacing_tick_credit (current_rate_bps (rc_controller roce))
                  (rp_pacing_interval_ns (rc_pacer roce))) overflow;
  credit ← ok_or (checked_add_128 (rp_credit_quanta (rc_pacer roce)) tick) overflow;
  let psn := rc_next_psn roce in
  let size := roce_packet_size roce psn in
  cost ← ok_or (paced_packet_cost size scale) overflow;
  if cost <=? credit then
    let roce := roce <| rc_pacer ::= fun pacer => pacer <| rp_credit_quanta := credit - cost |> |> in
    let retransmission := psn <? fg_bytes_emitted generator in
    let outstanding_before := rc_snd_una roce <? fg_bytes_emitted generator in
    '(id, state) ← allocate_payload node count state;
    state ← count_sourced node 1 state;
    let roce := roce <| rc_next_psn := psn +w size |> in
    generator ←
      (if (retransmission : bool) then Ok generator
       else
         packets_emitted ← ok_or (checked_add (fg_packets_emitted generator) 1) overflow;
         Ok (generator <| fg_bytes_emitted := rc_next_psn roce |>
                       <| fg_packets_emitted := packets_emitted |>));
    '(roce, timer_ns) ←
      (if negb (rc_rto_ns roce =? 0) && negb outstanding_before then
         deadline ← ok_or (checked_add now_ns (rc_rto_ns roce)) (GeneratorTimeOverflow flow);
         Ok (roce <| rc_rto_deadline_ns := deadline |>, Some deadline)
       else Ok (roce, None));
    Ok (state, generator, roce, Some (mkRoceEmission psn size retransmission id), timer_ns)
  else
    Ok (state, generator,
        roce <| rc_pacer ::= fun pacer => pacer <| rp_credit_quanta := credit |> |>, None, None).

(** Re-arms the pacer one interval later while packets remain. *)
Definition roce_rearm (now_ns stop_time_ns : Z) (flow : FlowId) (generator : FlowGeneratorState)
    (roce : RoceGenerator)
  : result ExecutionError (FlowGeneratorState * RoceGenerator * GeneratorStatus) :=
  if rc_next_psn roce <? rp_total_bytes (rc_pacer roce) then
    next ← ok_or (checked_add now_ns (rp_pacing_interval_ns (rc_pacer roce)))
             (GeneratorTimeOverflow flow);
    let generator := generator <| fg_next_emission ::= fun emission =>
                       emission <| se_departure_time_ns := next |> |> in
    Ok (if next <=? stop_time_ns
        then (generator, roce <| rc_pacer_armed := true |>, Blocked)
        else (generator, roce, Stopped))
  else Ok (generator, roce, Blocked).

(** A tick that may send. *)
Definition roce_open_tick (node : NodeDescriptor) (count now_ns stop_time_ns : Z) (flow : FlowId)
    (state : HostState) (position : nat) (generator : FlowGeneratorState) (roce : RoceGenerator)
  : result ExecutionError RoceTick :=
  '(state, generator, roce, emission, timer_ns) ←
    (if rc_next_psn roce <? rp_total_bytes (rc_pacer roce)
     then roce_send node count now_ns flow state generator roce
     else Ok (state, generator, roce, None, None));
  '(generator, roce, parked_status) ← roce_rearm now_ns stop_time_ns flow generator roce;
  let generator := settle_roce_sender generator roce parked_status
                     <| fg_kind := GenRoce roce |> in
  Ok (mkRoceTick (state <| hs_generators ::= <[position := generator]> |>) emission
        (if rc_pacer_armed roce
         then Some (se_departure_time_ns (fg_next_emission generator)) else None)
        timer_ns).

(** The pair joins its class's parked list; [None] is the panic of a class
    beyond the array. *)
Definition join_parked (state : HostState) (pfc : HostPfcState) (class position : nat)
  : option HostState :=
  parked ← hp_pause_parked pfc !! class;
  Some (state <| hs_pfc := Some (pfc <| hp_pause_parked ::=
    <[class := bs_add (Z.of_nat position) parked]> |>) |>).

(** The class of the pair when its host has paused it. *)
Definition paused_class (image : SimulationImage) (flow : FlowId) (pfc : option HostPfcState)
  : fueled ExecutionError (option (HostPfcState * nat)) :=
  match pfc with
  | None => Some (Ok None)
  | Some pfc =>
      class ← lift_result (image_flow_priority image flow);
      paused ← or_panic (host_is_paused pfc (Z.to_nat class));
      Some (Ok (if (paused : bool) then Some (pfc, Z.to_nat class) else None))
  end.

Definition roce_tick (node : NodeDescriptor) (image : SimulationImage) (count : Z)
    (event : Event) (flow : FlowId) (state : HostState) (position : nat)
    (generator : FlowGeneratorState) (roce : RoceGenerator) : fueled ExecutionError RoceTick :=
  let now := time_ns (key event) in
  let unexpected := unexpected_emission node flow (payload event) in
  if negb (rc_pacer_armed roce) || negb (rc_pacing_timer_payload roce =? payload event)
     || negb (se_departure_time_ns (fg_next_emission generator) =? now)
  then Some (Err unexpected)
  else
    let total := rp_total_bytes (rc_pacer roce) in
    let complete := total <=? rc_snd_una roce in
    let roce := roce <| rc_pacer_armed := false |>
                     <| rc_controller ::= fun controller =>
                          dcqcn_materialize controller complete (saturating_add now 1) |> in
    paused ← paused_class image flow (hs_pfc state);
    match paused with
    | Some (pfc, class) =>
        state ← or_panic (if (rc_next_psn roce <? total) && (rc_snd_una roce <? total)
                          then join_parked state pfc class position else Some state);
        Some (Ok (park_tick state position generator roce))
    | None =>
        if negb (rc_window_bytes roce =? 0) && (rc_next_psn roce <? total) && window_bound roce
        then
          let roce := roce <| rc_window_parked := true |> in
          _ ← lift_result (image_flow_priority image flow);
          Some (Ok (park_tick state position generator roce))
        else
          lift_result (roce_open_tick node count now (im_stop_time_ns image) flow state position
                         generator roce)
    end.

Definition host_roce_pacing_timer (node : NodeDescriptor) (event : Event)
    (packet : PacketDescriptor) : transition unit :=
  let now := time_ns (key event) in
  let unexpected := unexpected_emission node (pk_flow packet) (payload event) in
  image ← gets ts_image;
  count ← node_count;
  '(state, index, position, generator) ← generator_parts node (pk_flow packet) unexpected;
  match fg_kind generator with
  | GenRoce roce =>
      tick ← run (roce_tick node image count event (pk_flow packet) state position generator roce);
      _ ← set_host node (rt_state tick);
      _ ← emit_roce_timers node event (payload event) (rt_next_tick_ns tick) (rt_timer_ns tick);
      when_some (rt_emission tick) (fun emission =>
        let data := mkPacket (re_payload emission) (pk_flow packet) (re_bytes emission) false
                      (RoceData (mkRoceData (re_psn emission) now (re_retransmission emission))) in
        _ ← source_packet node data now;
        schedule_host_ready node event (pk_id data))
  | _ => fail unexpected
  end.

(** ** Feedback *)

(** A fresh ACK or NACK moves the acknowledgment, rewinds on a NACK and restarts
    the timeout; the superseded and the new deadline. *)
Definition roce_acknowledge (flow : FlowId) (bytes_emitted now_ns acknowledgment : Z)
    (nack : bool) (roce : RoceGenerator)
  : result ExecutionError (RoceGenerator * option Z * option Z) :=
  let outstanding_before := rc_snd_una roce <? bytes_emitted in
  let snd_una := Z.max (rc_snd_una roce) acknowledgment in
  let next_psn := if nack then snd_una else Z.max (rc_next_psn roce) snd_una in
  let superseded_deadline := rc_rto_deadline_ns roce in
  let roce := roce <| rc_snd_una := snd_una |> <| rc_next_psn := next_psn |> in
  if rc_rto_ns roce =? 0 then Ok (roce, None, None)
  else
    let superseded_ns := if outstanding_before then Some superseded_deadline else None in
    if snd_una <? bytes_emitted then
      deadline ← ok_or (checked_add now_ns (rc_rto_ns roce)) (GeneratorTimeOverflow flow);
      Ok (roce <| rc_rto_deadline_ns := deadline |>, superseded_ns, Some deadline)
    else Ok (roce <| rc_rto_deadline_ns := 0 |>, superseded_ns, None).

(** The controller at a feedback: it freezes when the pair completes, else an ECN
    echo feeds it. *)
Definition roce_congestion (now_ns snd_una_before : Z) (ce_echo : bool) (roce : RoceGenerator)
  : RoceGenerator :=
  let total := rp_total_bytes (rc_pacer roce) in
  let dcqcn := bool_decide (rc_congestion_control roce = RoceDcqcn) in
  let froze := (snd_una_before <? total) && (total <=? rc_snd_una roce) && dcqcn in
  let roce :=
    if froze then roce <| rc_controller ::= fun controller => (settle controller now_ns).1 |>
    else roce in
  let feedback := ce_echo && (rc_snd_una roce <? total) && dcqcn in
  if feedback then roce <| rc_controller ::= fun controller => (on_feedback controller now_ns).1 |>
  else roce.

Record RoceFeedback := mkRoceFeedback {
  rf_generator : FlowGeneratorState;
  rf_roce : RoceGenerator;
  rf_superseded_ns : option Z;
  rf_timer_ns : option Z;
  rf_tick_ns : option Z;
}.

Definition roce_feedback (flow : FlowId) (id : PayloadId) (now_ns stop_time_ns : Z)
    (header : RoceAckHeader) (nack : bool) (generator : FlowGeneratorState)
    (roce : RoceGenerator) : result ExecutionError RoceFeedback :=
  let total := rp_total_bytes (rc_pacer roce) in
  let roce := roce <| rc_controller ::= fun controller =>
                dcqcn_materialize controller (total <=? rc_snd_una roce) now_ns |> in
  let acknowledgment := ra_acknowledgment header in
  if fg_bytes_emitted generator <? acknowledgment then Err (InconsistentRocePacket flow id)
  else
    let stale := if nack then acknowledgment <? rc_snd_una roce
                 else acknowledgment <=? rc_snd_una roce in
    let snd_una_before := rc_snd_una roce in
    '(generator, roce, superseded_ns, timer_ns, tick_ns) ←
      (if stale then Ok (generator, roce, None, None, None)
       else
         '(roce, superseded_ns, timer_ns) ←
           roce_acknowledge flow (fg_bytes_emitted generator) now_ns acknowledgment nack roce;
         '(tick_ns, generator, roce) ← restart_roce_pacer generator roce now_ns stop_time_ns;
         Ok (generator, roce, superseded_ns, timer_ns, tick_ns));
    let roce := roce_congestion now_ns snd_una_before (ra_ce_echo header) roce in
    let generator :=
      settle_roce_sender generator roce (se_status (fg_next_emission generator))
        <| fg_kind := GenRoce roce |> in
    Ok (mkRoceFeedback generator roce superseded_ns timer_ns tick_ns).

Definition host_roce_feedback_arrival (node : NodeDescriptor) (event : Event)
    (packet : PacketDescriptor) (header : RoceAckHeader) (nack : bool) : transition unit :=
  descriptor ← flow (pk_flow packet);
  if negb (fd_source descriptor =? nd_id node)
  then fail (FlowRouteMiss (fd_id descriptor) (nd_id node))
  else
    _ ← record_arrival (nd_id node) packet FeedbackArrival;
    _ ← mark_terminal (pk_id packet);
    image ← gets ts_image;
    let unknown := UnknownGenerator (nd_id node) (pk_flow packet) in
    '(state, index, position, generator) ← generator_parts node (pk_flow packet) unknown;
    match fg_kind generator with
    | GenRoce roce =>
        arrivals ← some_or (checked_add (fb_arrivals (fg_feedback generator)) 1)
                     (CounterOverflow (nd_id node));
        let generator := generator <| fg_feedback ::= fun feedback =>
                           feedback <| fb_arrivals := arrivals |> |> in
        let snd_una_before := rc_snd_una roce in
        result ← attempt (roce_feedback (pk_flow packet) (pk_id packet) (time_ns (key event))
                            (im_stop_time_ns image) header nack generator roce);
        pfc ← unwrap (leave_parked_list (hs_pfc state) (fd_priority descriptor) position
                        (rf_generator result) (rf_roce result));
        let total := rp_total_bytes (rc_pacer roce) in
        let token := rc_pacing_timer_payload roce in
        _ ← set_generator node (state <| hs_pfc := pfc |>) position (rf_generator result);
        _ ← when_some (rf_superseded_ns result)
              (cancel_superseded_timer (nd_id node) token);
        _ ← emit_roce_timers node event token (rf_tick_ns result) (rf_timer_ns result);
        when ((snd_una_before <? total) && (total <=? rc_snd_una (rf_roce result))
              && bool_decide (is_Some (host_stage state position)))
          (causes ← complete_stage node (pk_flow packet) (ra_acknowledgment header)
                      (ra_echoed_sent_time_ns header) (ra_acknowledged_bytes header)
                      (pk_size_bytes packet);
           release_stages node event causes)
    | _ => fail unknown
    end.

(** ** Timeouts *)

Definition roce_timeout (flow : FlowId) (now_ns stop_time_ns : Z)
    (generator : FlowGeneratorState) (roce : RoceGenerator)
  : result ExecutionError RoceFeedback :=
  let roce := roce <| rc_controller ::= fun controller =>
                dcqcn_materialize controller false (saturating_add now_ns 1) |>
                   <| rc_next_psn := rc_snd_una roce |> in
  deadline ← ok_or (checked_add now_ns (rc_rto_ns roce)) (GeneratorTimeOverflow flow);
  let roce := roce <| rc_rto_deadline_ns := deadline |> in
  '(tick_ns, generator, roce) ← restart_roce_pacer generator roce now_ns stop_time_ns;
  let generator :=
    settle_roce_sender generator roce (se_status (fg_next_emission generator))
      <| fg_kind := GenRoce roce |> in
  Ok (mkRoceFeedback generator roce None (Some deadline) tick_ns).

Definition host_roce_timeout (node : NodeDescriptor) (event : Event) : transition unit :=
  packet ← packet (payload event);
  let flow := pk_flow packet in
  image ← gets ts_image;
  data_class ← attempt (image_flow_priority image flow);
  let unknown := UnknownGenerator (nd_id node) flow in
  '(state, index, position, generator) ← generator_parts node flow unknown;
  match fg_kind generator with
  | GenRoce roce =>
      if negb (rc_rto_ns roce =? 0) && (rc_snd_una roce <? fg_bytes_emitted generator)
         && (rc_rto_deadline_ns roce =? time_ns (key event))
         && (rc_pacing_timer_payload roce =? payload event)
      then
        result ← attempt (roce_timeout flow (time_ns (key event)) (im_stop_time_ns image)
                            generator roce);
        pfc ← unwrap (leave_parked_list (hs_pfc state) data_class position
                        (rf_generator result) (rf_roce result));
        _ ← set_generator node (state <| hs_pfc := pfc |>) position (rf_generator result);
        emit_roce_timers node event (payload event) (rf_tick_ns result) (rf_timer_ns result)
      else unit_done
  | _ => fail unknown
  end.
