(* ===== verification/HostReceive.v ===== *)
(** * Host arrivals and timers (executor/src/scalar.rs)

    A RoCE data packet at its receiver, a PFC frame at a host's egress, and the
    handlers that route an arrival or a timer to its mechanism. *)

From S2P Require Import Prelude OrdMap Event LinkTime ExecError Fel Dcqcn Tcp Model Image Roce.
From S2P Require Import Sched TcpLedger StageIndex Transition TcpSend Stages HostSend HostTcp.
From S2P Require Import Pacing HostRoce.

(** ** RoCE data at the receiver *)

(** [binary_search_by_key] on the receivers, which are sorted by flow. *)
Definition roce_receiver_position (receivers : list RoceReceiverState) (flow : FlowId)
  : option nat :=
  find_position (fun receiver => rv_flow receiver =? flow) receivers.

(** The reply to a data packet; [None] for a size beyond 32 bits. *)
Definition roce_reply (id : PayloadId) (packet : PacketDescriptor) (header : RoceDataHeader)
    (receiver : RoceReceiverState) (action : RoceReceiverAction) : option PacketDescriptor :=
  if pk_size_bytes packet <=? u32_max then
    let ack := mkRoceAck (rv_expected_psn receiver) (rd_sent_time_ns header)
                 (pk_size_bytes packet)
                 (match ecn_codepoint packet with Ce => true | _ => false end) in
    Some (mkPacket id (pk_flow packet) (rv_ack_size_bytes receiver) false
            (if bool_decide (action = ActNack) then RoceNack ack else RoceAck ack))
  else None.

Definition host_roce_data_arrival (node : NodeDescriptor) (event : Event)
    (packet : PacketDescriptor) (header : RoceDataHeader) : transition unit :=
  descriptor ← flow (pk_flow packet);
  if negb (fd_target descriptor =? nd_id node)
  then fail (FlowRouteMiss (fd_id descriptor) (nd_id node))
  else
    let now := time_ns (key event) in
    count ← node_count;
    '(state, index) ← host_parts node;
    let unknown := UnknownGenerator (nd_id node) (pk_flow packet) in
    let inconsistent := InconsistentRocePacket (pk_flow packet) (pk_id packet) in
    receivers ← some_or (hs_roce_receivers state) unknown;
    position ← some_or (roce_receiver_position receivers (pk_flow packet)) unknown;
    before ← unwrap (receivers !! position);
    end_ ← some_or (checked_add (rd_psn header) (pk_size_bytes packet)) inconsistent;
    if rv_total_bytes before <? end_ then fail inconsistent
    else
      let '(receiver, action) := receive before (rd_psn header) (pk_size_bytes packet) now in
      let state := state <| hs_roce_receivers := Some (<[position := receiver]> receivers) |> in
      '(state, index, stage_causes) ←
        run (record_inbound_progress state index (pk_flow packet)
               (mkInbound (rd_psn header) (pk_size_bytes packet)
                  (rv_expected_psn receiver -w rv_expected_psn before)) (nd_id node)
               causes_default);
      state ← attempt (count_received node state);
      '(feedback, schedule_ready, state) ←
        (if sends_feedback action then
           '(id, state) ← attempt (allocate_payload node count state);
           state ← attempt (count_sourced node 1 state);
           let '(schedule_ready, state) := claim_ready state in
           done_with (Some id, schedule_ready, state)
         else done_with (None, false, state));
      _ ← set_host node state;
      _ ← set_index node index;
      _ ← record_arrival (nd_id node) packet Delivered;
      _ ← mark_terminal (pk_id packet);
      _ ← when_some feedback (fun id =>
            reply ← some_or (roce_reply id packet header receiver action) inconsistent;
            _ ← source_packet node reply now;
            when schedule_ready (emit_host_ready node event id));
      release_stages node event stage_causes.

(** ** PFC frames *)

(** Applies a frame to the controllers that pause a class; whether the last of
    them resumed it. [None] is the panic of a class beyond the array. *)
Definition apply_pause (paused_by : list (bset NodeId)) (priority : nat) (controller : NodeId)
    (pause : bool) : option (list (bset NodeId) * bool) :=
  controllers ← paused_by !! priority;
  if (pause : bool) then Some (<[priority := bs_add controller controllers]> paused_by, false)
  else
    let '(removed, controllers) := bs_remove controller controllers in
    Some (<[priority := controllers]> paused_by, removed && bool_decide (controllers = [])).

(** Restarts a parked queue pair of the resumed class. *)
Definition restart_parked (node : NodeDescriptor) (image : SimulationImage) (now_ns : Z)
    (s : HostState * list (PayloadId * Z)) (position : Z)
  : fueled ExecutionError (HostState * list (PayloadId * Z)) :=
  let '(state, restarts) := s in
  generator ← or_panic (hs_generators state !! Z.to_nat position);
  match fg_kind generator with
  | GenRoce roce =>
      let total := rp_total_bytes (rc_pacer roce) in
      let roce := roce <| rc_controller ::= fun controller =>
                    dcqcn_materialize controller (total <=? rc_snd_una roce) now_ns |> in
      '(tick_ns, generator, roce) ←
        lift_result (restart_roce_pacer generator roce now_ns (im_stop_time_ns image));
      let generator :=
        settle_roce_sender generator roce (se_status (fg_next_emission generator))
          <| fg_kind := GenRoce roce |> in
      _ ← lift_result (image_flow_priority image (fg_flow generator));
      Some (Ok (state <| hs_generators ::= <[Z.to_nat position := generator]> |>,
                restarts ++ match tick_ns with
                            | Some time_ns => [(rc_pacing_timer_payload roce, time_ns)]
                            | None => []
                            end))
  | _ => Some (Err (InvalidSchedulerState (nd_id node)))
  end.

(** Takes a class's parked list and restarts its queue pairs in position order. *)
Definition restart_parked_class (node : NodeDescriptor) (image : SimulationImage) (now_ns : Z)
    (priority : nat) (state : HostState)
  : fueled ExecutionError (HostState * list (PayloadId * Z)) :=
  match hs_pfc state with
  | None => Some (Err (InvalidSchedulerState (nd_id node)))
  | Some pfc =>
      parked ← or_panic (hp_pause_parked pfc !! priority);
      fueled_fold (restart_parked node image now_ns)
        (state <| hs_pfc := Some (pfc <| hp_pause_parked ::= <[priority := []]> |>) |>, []) parked
  end.

(** The eligible packet an idle host serves once a class resumes. *)
Definition host_pfc_ready (node : NodeDescriptor) : transition (option PayloadId) :=
  first ← host_pfc_first_eligible node;
  match first with
  | None => done_with None
  | Some position =>
      state ← host_state node;
      let '(ready, state) := claim_ready state in
      if ready then
        _ ← set_host node state;
        id ← unwrap (hs_queue state !! position);
        done_with (Some id)
      else done_with None
  end.

Definition host_pfc_remote_arrival (node : NodeDescriptor) (event : Event) (header : PfcHeader)
  : transition unit :=
  let priority := Z.to_nat (pfc_priority header) in
  let now := time_ns (key event) in
  image ← gets ts_image;
  state ← host_state node;
  pfc ← some_or (hs_pfc state) (InvalidSchedulerState (nd_id node));
  '(paused_by, unpaused) ← unwrap (apply_pause (hp_paused_by_controller pfc) priority
                                     (origin_node (key event)) (pfc_pause header));
  _ ← set_host node (state <| hs_pfc := Some (pfc <| hp_paused_by_controller := paused_by |>) |>);
  _ ← mark_terminal (payload event);
  when unpaused
    (ready_payload ← host_pfc_ready node;
     state ← host_state node;
     '(state, restarts) ← run (restart_parked_class node image now priority state);
     _ ← set_host node state;
     _ ← when_some ready_payload (emit_host_ready node event);
     for_each restarts (fun '(id, time_ns) =>
       emit_from_host node event (mkChild (nd_id node) PacingTimer id time_ns))).

(** ** Routing *)

Definition emit_feedback_driven_packet (node : NodeDescriptor) (parent : Event) (flow : FlowId)
    (size_bytes : Z) : transition unit :=
  count ← node_count;
  state ← host_state node;
  '(id, state) ← attempt (allocate_payload node count state);
  state ← attempt (count_sourced node 1 state);
  let '(schedule_ready, state) := claim_ready state in
  _ ← set_host node state;
  _ ← source_packet node (mkPacket id flow size_bytes false Data) (time_ns (key parent));
  when schedule_ready (emit_host_ready node parent id).

(** An arrival with no transition of its own: feedback for a generator of the
    host, or a delivery. *)
Definition host_plain_arrival (node : NodeDescriptor) (event : Event)
    (packet : PacketDescriptor) (descriptor : FlowDescriptor) : transition unit :=
  state ← host_state node;
  let feedback_generator :=
    if is_feedback (pk_kind packet)
    then find_position (fun generator => fg_flow generator =? pk_flow packet) (hs_generators state)
    else None in
  '(disposition, action) ←
    match feedback_generator with
    | Some position =>
        generator ← unwrap (hs_generators state !! position);
        '(generator, action) ← attempt (apply_generator_feedback generator (nd_id node));
        _ ← set_generator node state position generator;
        done_with (FeedbackArrival, action)
    | None =>
        if negb (packet_terminal descriptor (pk_kind packet) =? nd_id node)
        then fail (FlowRouteMiss (fd_id descriptor) (nd_id node))
        else
          state ← attempt (count_received node state);
          _ ← set_host node state;
          done_with (Delivered, FeedbackNone)
    end;
  _ ← record_arrival (nd_id node) packet disposition;
  _ ← mark_terminal (payload event);
  match action with
  | FeedbackEmit flow size_bytes => emit_feedback_driven_packet node event flow size_bytes
  | FeedbackNone => unit_done
  end.

Definition host_remote_arrival (node : NodeDescriptor) (event : Event) : transition unit :=
  packet ← packet (payload event);
  descriptor ← flow (pk_flow packet);
  match pk_kind packet with
  | TcpData header => host_tcp_data_arrival node event packet header
  | TcpAck header => host_tcp_ack_arrival node event packet header
  | DcqcnCnp _ => host_dcqcn_cnp_arrival node event packet
  | RoceData header => host_roce_data_arrival node event packet header
  | RoceAck header => host_roce_feedback_arrival node event packet header false
  | RoceNack header => host_roce_feedback_arrival node event packet header true
  | Pfc header => host_pfc_remote_arrival node event header
  | StageNotify => host_notify_arrival node event packet
  | Data =>
      state ← host_state node;
      if existsb (fun receiver => dr_flow receiver =? pk_flow packet) (hs_dcqcn_receivers state)
      then host_dcqcn_data_arrival node event packet
      else host_plain_arrival node event packet descriptor
  | _ => host_plain_arrival node event packet descriptor
  end.

Definition is_compute_stage (stage : option CollectiveStage) : bool :=
  match stage with
  | Some stage => match st_role stage with RoleCompute _ => true | RoleCollective _ => false end
  | None => false
  end.

Definition is_dcqcn (kind : FlowGeneratorKind) : bool :=
  match kind with GenDcqcn _ => true | _ => false end.

(** Whether some entry satisfies [f]; [None] is the panic of a bad position. *)
Fixpoint any_entry (f : nat -> option bool) (entries : list (FlowId * nat)) : option bool :=
  match entries with
  | [] => Some false
  | (_, position) :: entries =>
      holds ← f position;
      if (holds : bool) then Some true else any_entry f entries
  end.

Definition host_pacing_timer (node : NodeDescriptor) (event : Event) : transition unit :=
  packet ← packet (payload event);
  match pk_kind packet with
  | RocePacingTimer => host_roce_pacing_timer node event packet
  | StageNotify => host_notify_timer node event (pk_flow packet)
  | _ =>
      '(state, index) ← host_parts node;
      if existsb (fun entry => is_compute_stage (host_stage state entry.2))
           (generators_of index (pk_flow packet))
      then host_compute_timer node event (pk_flow packet)
      else
        dcqcn_owns ← unwrap (any_entry (fun position =>
                         generator ← hs_generators state !! position;
                         Some (is_dcqcn (fg_kind generator)))
                       (generators_of index (pk_flow packet)));
        if (dcqcn_owns : bool) then host_dcqcn_pacing_timer node event packet
        else host_rate_timer node event packet
  end.

Definition host_retransmission_timeout (node : NodeDescriptor) (event : Event)
  : transition unit :=
  state ← host_state node;
  match timed_out_generator event 0 (hs_generators state) with
  | Some (position, generator, tcp, timer) =>
      tcp_retransmission_timeout node event state position generator tcp timer
  | None =>
      packets ← gets ts_packets;
      match bm_get (payload event) packets with
      | Some resident =>
          if bool_decide (pk_kind (rs_descriptor resident) = RocePacingTimer)
          then host_roce_timeout node event
          else unit_done
      | None => unit_done
      end
  end.
