(* ===== verification/SwitchHandlers.v ===== *)
(** * Switch handlers (executor/src/scalar.rs)

    Admission of an arriving packet (tail drop or ECN ramp, the scheduler's
    insertion and the PFC ingress monitor), PFC frames at a switch queue, the
    service decision of [TxReady] and the end of a transmission. *)

From S2P Require Import Prelude OrdMap Event LinkTime ExecError Fel EcnRamp Tcp Model Image.
From S2P Require Import PfcOrder Sched TcpLedger StageIndex Transition TcpSend Stages HostSend.
From S2P Require Import HostReceive.

(** ** Queues of a switch *)

Definition egress_is (egress_link : option LinkId) (queue : SwitchQueueState) : bool :=
  bool_decide (sq_egress_link queue = egress_link).

(** The first queue of [egress_link], with its slot. *)
Definition switch_queue (node : NodeDescriptor) (state : SwitchState)
    (egress_link : option LinkId) : transition (nat * SwitchQueueState) :=
  slot ← some_or (find_position (egress_is egress_link) (sw_queues state))
           (MissingSwitchQueue (nd_id node) egress_link);
  queue ← unwrap (sw_queues state !! slot);
  done_with (slot, queue).

Definition set_queue (slot : nat) (queue : SwitchQueueState) (state : SwitchState)
  : SwitchState := state <| sw_queues ::= <[slot := queue]> |>.

(** [find(|ingress| Some(ingress.controlled_link) == incoming_link)]. *)
Definition ingress_position (pfc : PfcQueueState) (incoming_link : option LinkId)
  : option nat :=
  find_position (fun ingress => bool_decide (Some (in_controlled_link ingress) = incoming_link))
    (pq_ingresses pfc).

Definition find_ingress (pfc : option PfcQueueState) (incoming_link : option LinkId)
  : option (PfcQueueState * nat * PfcIngressState) :=
  pfc ← pfc;
  position ← ingress_position pfc incoming_link;
  ingress ← pq_ingresses pfc !! position;
  Some (pfc, position, ingress).

(** The threshold words of one class; [None] is the panic of a class beyond the
    arrays. *)
Record IngressClass := mkIngressClass {
  ic_xoff : Z;
  ic_xon : Z;
  ic_capacity : Z;
  ic_occupancy : Z;
  ic_asserted : bool;
}.

Definition ingress_class (ingress : PfcIngressState) (priority : nat) : option IngressClass :=
  xoff ← in_xoff_threshold_bytes ingress !! priority;
  xon ← in_xon_threshold_bytes ingress !! priority;
  capacity ← in_buffer_capacity_bytes ingress !! priority;
  occupancy ← in_occupancy_bytes ingress !! priority;
  asserted ← in_pause_asserted ingress !! priority;
  Some (mkIngressClass xoff xon capacity occupancy asserted).

Definition set_ingress_class (pfc : PfcQueueState) (position : nat) (ingress : PfcIngressState)
    (priority : nat) (occupancy : Z) (asserted : bool) : PfcQueueState :=
  pfc <| pq_ingresses ::= <[position :=
    ingress <| in_occupancy_bytes ::= <[priority := occupancy]> |>
            <| in_pause_asserted ::= <[priority := asserted]> |>]> |>.

Definition frame_plan (ingress : PfcIngressState) (flow : FlowId) (priority : nat)
    (pause : bool) : PfcFramePlan :=
  mkFramePlan (in_control_channel_index ingress) flow
    (mkPfcHeader (in_controlled_link ingress) (Z.of_nat priority) pause).

(** ** Arrivals *)

(** Whether the arrival would overflow its ingress's buffer. *)
Definition pfc_overflow (pfc : option PfcQueueState) (incoming_link : option LinkId)
    (priority : nat) (size_bytes : Z) : transition bool :=
  match find_ingress pfc incoming_link with
  | None => done_with false
  | Some (_, _, ingress) =>
      class ← unwrap (ingress_class ingress priority);
      done_with (negb (ic_xoff class =? 0)
        && match checked_add (ic_occupancy class) size_bytes with
           | None => true
           | Some depth => ic_capacity class <? depth
           end)
  end.

Definition admission_action (node : NodeDescriptor) (seed : Z) (queue : SwitchQueueState)
    (queue_slot : nat) (queue_bytes : Z) (packet : PacketDescriptor) (id : PayloadId)
    (overflow : bool) : result ExecutionError QueueAdmissionAction :=
  if overflow then Ok AdmitDrop
  else
    match sq_drop_mark queue with
    | TailDrop =>
        taildrop_action (sq_queue_capacity_packets queue) (Z.of_nat (length (sq_queue queue)))
          queue_bytes (pk_size_bytes packet) (nd_id node)
    | EcnRampMark policy =>
        Ok (ecn_ramp_action policy queue_bytes packet seed (nd_id node) (Z.of_nat queue_slot) id)
    end.

(** The scheduler's insertion of an admitted packet. *)
Definition enqueue_admitted (node : NodeDescriptor) (queue : SwitchQueueState)
    (packet : PacketDescriptor) (id : PayloadId) (now_ns : Z) (rate_bps : option Z)
    (sp_position : option nat) : result ExecutionError SwitchQueueState :=
  match sq_scheduler queue with
  | Fifo | DeficitRoundRobin _ | WeightedRoundRobin _ =>
      Ok (queue <| sq_queue ::= fun q => q ++ [id] |>)
  | StaticPriority _ =>
      position ← ok_or sp_position (InvalidSchedulerState (nd_id node));
      Ok (queue <| sq_queue ::= insert_at position id |>)
  | WeightedFairQueue wfq =>
      rate_bps ← ok_or rate_bps (InvalidSchedulerState (nd_id node));
      '(wfq, q) ← wfq_enqueue wfq (sq_queue queue) packet now_ns rate_bps (nd_id node);
      Ok (queue <| sq_scheduler := WeightedFairQueue wfq |> <| sq_queue := q |>)
  end.

(** The ingress counts the packet; above XOFF it asserts a pause. *)
Definition ingress_admit (node : NodeDescriptor) (queue : SwitchQueueState)
    (incoming_link : option LinkId) (priority : nat) (packet : PacketDescriptor)
  : transition (option PfcFramePlan * SwitchQueueState) :=
  match find_ingress (sq_pfc queue) incoming_link with
  | None => done_with (None, queue)
  | Some (pfc, position, ingress) =>
      class ← unwrap (ingress_class ingress priority);
      if ic_xoff class =? 0 then done_with (None, queue)
      else
        depth ← some_or (checked_add (ic_occupancy class) (pk_size_bytes packet))
                  (CounterOverflow (nd_id node));
        let asserts := negb ((depth <? ic_xoff class) || ic_asserted class) in
        done_with
          (if asserts then Some (frame_plan ingress (pk_flow packet) priority true) else None,
           queue <| sq_pfc := Some (set_ingress_class pfc position ingress priority depth
                                      (asserts || ic_asserted class)) |>)
  end.

(** Whether the class of a packet is paused at the queue. *)
Definition queue_class_paused (queue : SwitchQueueState) (priority : nat) : transition bool :=
  match sq_pfc queue with
  | None => done_with false
  | Some pfc => unwrap (queue_is_paused pfc priority)
  end.

Definition switch_sp_position (node : NodeDescriptor) (egress_link : option LinkId)
    (flow : FlowId) : transition (option nat) :=
  state ← switch_state node;
  '(_, queue) ← switch_queue node state egress_link;
  packets ← gets ts_packets;
  attempt (switch_sp_insertion_position
             (fun id => ok_or (rs_descriptor <$> bm_get id packets) (UnknownPacket id))
             queue (nd_id node) flow).

(** The admitted packet's effects on its queue: the frame to emit and whether
    the queue owns a [TxReady]. *)
Definition admit_packet (node : NodeDescriptor) (event : Event) (packet : PacketDescriptor)
    (queue : SwitchQueueState) (rate_bps : option Z) (sp_position : option nat)
    (incoming_link : option LinkId) (priority : nat)
  : transition (option PfcFramePlan * bool * SwitchQueueState) :=
  queue ← attempt (enqueue_admitted node queue packet (payload event) (time_ns (key event))
                     rate_bps sp_position);
  paused ← queue_class_paused queue priority;
  let schedule_ready :=
    bool_decide (is_Some (sq_egress_link queue)) && bool_decide (sq_in_service queue = None)
    && negb (sq_tx_ready_pending queue) && negb paused in
  let queue := if schedule_ready then queue <| sq_tx_ready_pending := true |> else queue in
  '(plan, queue) ← ingress_admit node queue incoming_link priority packet;
  done_with (plan, schedule_ready, queue).

(** The queue's byte counter and, for a FIFO PFC queue that keeps one, its class
    order after an admission. *)
Definition count_admitted (node : NodeDescriptor) (state_slot queue_slot : nat)
    (packet : PacketDescriptor) (has_pfc : bool) (priority : nat) : transition unit :=
  counters ← gets ts_switch_queue_bytes;
  row ← unwrap (counters !! state_slot);
  counter ← unwrap (row !! queue_slot);
  counter ← some_or (checked_add counter (pk_size_bytes packet)) (CounterOverflow (nd_id node));
  _ ← modify (fun s => s <| ts_switch_queue_bytes ::=
        <[state_slot := <[queue_slot := counter]> row]> |>);
  when has_pfc
    (order ← pfc_order state_slot queue_slot;
     when_some order (fun order =>
       order ← unwrap (order_push order priority);
       set_pfc_order state_slot queue_slot order)).

(** A PFC frame at a switch queue. *)
Definition switch_pfc_remote_arrival (node : NodeDescriptor) (event : Event)
    (header : PfcHeader) : transition unit :=
  let priority := Z.to_nat (pfc_priority header) in
  state_slot ← local_state_slot node;
  state ← switch_state node;
  '(queue_slot, queue) ← switch_queue node state (Some (pfc_controlled_link header));
  pfc ← some_or (sq_pfc queue) (InvalidSchedulerState (nd_id node));
  '(paused_by, resumed) ← unwrap (apply_pause (pq_paused_by_controller pfc) priority
                                    (origin_node (key event)) (pfc_pause header));
  let pfc := pfc <| pq_paused_by_controller := paused_by |> in
  let queue := queue <| sq_pfc := Some pfc |> in
  let state := set_queue queue_slot queue state in
  _ ← set_switch node state;
  let may_schedule :=
    resumed && bool_decide (sq_in_service queue = None) && negb (sq_tx_ready_pending queue) in
  _ ← when (pfc_pause header) (ensure_pfc_order state_slot queue_slot);
  schedule_payload ←
    (if may_schedule then
       order ← pfc_order state_slot queue_slot;
       first ← pfc_first_eligible node queue pfc order;
       match first with
       | Some (_, id) =>
           _ ← set_switch node
                 (set_queue queue_slot (queue <| sq_tx_ready_pending := true |>) state);
           done_with (Some id)
       | None => done_with None
       end
     else done_with None);
  _ ← mark_terminal (payload event);
  when_some schedule_payload (emit_switch_ready node event).

Definition switch_data_arrival (node : NodeDescriptor) (event : Event)
    (packet : PacketDescriptor) : transition unit :=
  egress_link ← packet_egress_at packet (nd_id node);
  rate_bps ←
    match egress_link with
    | None => done_with None
    | Some id => link ← link id; done_with (Some (lk_rate_bps link))
    end;
  sp_position ← switch_sp_position node egress_link (pk_flow packet);
  state_slot ← local_state_slot node;
  state ← switch_state node;
  '(queue_slot, queue) ← switch_queue node state egress_link;
  counters ← gets ts_switch_queue_bytes;
  row ← unwrap (counters !! state_slot);
  queue_bytes ← unwrap (row !! queue_slot);
  let queue_has_pfc := bool_decide (is_Some (sq_pfc queue)) in
  priority ← (if queue_has_pfc then packet_pfc_class packet else done_with 0%nat);
  incoming_link ← (if queue_has_pfc then packet_incoming_link_at packet (nd_id node)
                   else done_with None);
  image ← gets ts_image;
  arrived ← some_or (checked_add (sw_arrived_packets state) 1) (CounterOverflow (nd_id node));
  let state := state <| sw_arrived_packets := arrived |> in
  overflow ← pfc_overflow (sq_pfc queue) incoming_link priority (pk_size_bytes packet);
  action ← attempt (admission_action node (im_seed image) queue queue_slot queue_bytes packet
                      (payload event) overflow);
  match action with
  | AdmitDrop =>
      dropped ← some_or (checked_add (sw_dropped_packets state) 1) (CounterOverflow (nd_id node));
      _ ← set_switch node (state <| sw_dropped_packets := dropped |>);
      _ ← record_arrival (nd_id node) packet Dropped;
      mark_terminal (payload event)
  | AdmitEnqueue | AdmitMark =>
      '(plan, schedule_ready, queue) ←
        admit_packet node event packet queue rate_bps sp_position incoming_link priority;
      _ ← set_switch node (set_queue queue_slot queue state);
      _ ← count_admitted node state_slot queue_slot packet queue_has_pfc priority;
      packet ←
        match action with
        | AdmitMark =>
            _ ← set_packet_marked (payload event);
            done_with (packet <| pk_ecn_marked := true |>)
        | _ => done_with packet
        end;
      _ ← record_arrival (nd_id node) packet AdmittedArrival;
      _ ← when_some plan (emit_pfc_frame node event);
      when schedule_ready (emit_switch_ready node event (payload event))
  end.

Definition switch_remote_arrival (node : NodeDescriptor) (event : Event) : transition unit :=
  packet ← packet (payload event);
  match pk_kind packet with
  | Pfc header => switch_pfc_remote_arrival node event header
  | _ => switch_data_arrival node event packet
  end.

(** ** Service *)

Record PfcSelection := mkSelection {
  sl_position : nat;
  sl_packet : PacketDescriptor;
  sl_priority : nat;
  sl_incoming_link : option LinkId;
}.

Inductive SwitchServicePlan :=
| PlanHead (head : option PacketDescriptor)
| PlanPfcFirst (selection : option PfcSelection)
| PlanEligible (eligible : list PfcSelection).

(** The eligible packets of a queue, in queue order. *)
Fixpoint eligible_packets (node : NodeId) (pfc : option PfcQueueState) (position : nat)
    (queue : list PayloadId) : transition (list PfcSelection) :=
  match queue with
  | [] => done_with []
  | id :: queue =>
      packet ← packet id;
      class ← packet_pfc_class packet;
      paused ← match pfc with
               | None => done_with false
               | Some pfc => unwrap (queue_is_paused pfc class)
               end;
      if (paused : bool) then eligible_packets node pfc (S position) queue
      else
        incoming_link ← packet_incoming_link_at packet node;
        rest ← eligible_packets node pfc (S position) queue;
        done_with (mkSelection position packet class incoming_link :: rest)
  end.

Definition service_plan (node : NodeDescriptor) (state_slot queue_slot : nat)
    (queue : SwitchQueueState) : transition SwitchServicePlan :=
  if queue_serves_head queue then
    match head (sq_queue queue) with
    | Some id => packet ← packet id; done_with (PlanHead (Some packet))
    | None => done_with (PlanHead None)
    end
  else
    match sq_pfc queue, scheduler_serves_head (sq_scheduler queue) with
    | Some pfc, true =>
        order ← pfc_order state_slot queue_slot;
        first ← pfc_first_eligible node queue pfc order;
        match first with
        | Some (position, id) =>
            packet ← packet id;
            class ← packet_pfc_class packet;
            incoming_link ← packet_incoming_link_at packet (nd_id node);
            done_with (PlanPfcFirst (Some (mkSelection position packet class incoming_link)))
        | None => done_with (PlanPfcFirst None)
        end
    | _, _ =>
        eligible ← eligible_packets (nd_id node) (sq_pfc queue) 0 (sq_queue queue);
        done_with (PlanEligible eligible)
    end.

(** The ingress forgets the served packet; at XON it withdraws its pause. *)
Definition ingress_drain (node : NodeDescriptor) (queue : SwitchQueueState)
    (incoming_link : option LinkId) (priority : nat) (packet : PacketDescriptor)
  : transition (option PfcFramePlan * SwitchQueueState) :=
  match find_ingress (sq_pfc queue) incoming_link with
  | None => done_with (None, queue)
  | Some (pfc, position, ingress) =>
      class ← unwrap (ingress_class ingress priority);
      if ic_xoff class =? 0 then done_with (None, queue)
      else
        depth ← some_or (checked_sub (ic_occupancy class) (pk_size_bytes packet))
                  (CounterOverflow (nd_id node));
        let resumes := ic_asserted class && negb (ic_xon class <? depth) in
        done_with
          (if resumes then Some (frame_plan ingress (pk_flow packet) priority false) else None,
           queue <| sq_pfc := Some (set_ingress_class pfc position ingress priority depth
                                      (ic_asserted class && negb resumes)) |>)
  end.

(** A WFQ packet in service keeps its finish tag until it completes. *)
Definition check_finish_tag (node : NodeDescriptor) (scheduler : SchedulerKind) (id : PayloadId)
  : result ExecutionError unit :=
  match scheduler with
  | WeightedFairQueue wfq =>
      _ ← ok_or (bm_get id (wfq_packet_finish_times wfq)) (MissingWfqFinishTag (nd_id node) id);
      Ok tt
  | _ => Ok tt
  end.

(** What a plan serves: its payload and packet, its class where one was read, a
    frame to emit, and the queue after it. *)
Record Service := mkService {
  sv_payload : PayloadId;
  sv_packet : PacketDescriptor;
  sv_priority : option nat;
  sv_plan : option PfcFramePlan;
  sv_queue : SwitchQueueState;
}.

(** Serves the packet at a position of the queue. *)
Definition serve_at (node : NodeDescriptor) (queue : SwitchQueueState)
    (selection : PfcSelection) : transition Service :=
  id ← some_or (sq_queue queue !! sl_position selection) (InvalidSchedulerState (nd_id node));
  let queue := queue <| sq_queue ::= delete (sl_position selection) |> in
  _ ← attempt (check_finish_tag node (sq_scheduler queue) id);
  let queue := queue <| sq_in_service := Some id |> in
  '(plan, queue) ← ingress_drain node queue (sl_incoming_link selection) (sl_priority selection)
                     (sl_packet selection);
  done_with (mkService id (sl_packet selection) (Some (sl_priority selection)) plan queue).

Definition serve (node : NodeDescriptor) (queue : SwitchQueueState) (plan : SwitchServicePlan)
  : transition (option Service) :=
  match plan with
  | PlanHead None => done_with None
  | PlanHead (Some packet) =>
      id ← some_or (head (sq_queue queue)) (InvalidSchedulerState (nd_id node));
      _ ← attempt (check_finish_tag node (sq_scheduler queue) id);
      done_with (Some (mkService id packet None None
        (queue <| sq_queue ::= tail |> <| sq_in_service := Some id |>)))
  | PlanPfcFirst None => done_with None
  | PlanPfcFirst (Some selection) =>
      service ← serve_at node queue selection;
      done_with (Some service)
  | PlanEligible eligible =>
      '(scheduler, selected) ←
        attempt (scheduler_select_position (sq_scheduler queue) (sl_packet <$> eligible)
                   (nd_id node));
      match selected with
      | None => done_with None
      | Some (position, _) =>
          selection ← unwrap (eligible !! position);
          service ← serve_at node (queue <| sq_scheduler := scheduler |>) selection;
          done_with (Some service)
      end
  end.

(** The queue's byte counter and class order after a service. *)
Definition count_served (node : NodeDescriptor) (state_slot queue_slot : nat)
    (service : Service) : transition unit :=
  counters ← gets ts_switch_queue_bytes;
  row ← unwrap (counters !! state_slot);
  counter ← unwrap (row !! queue_slot);
  counter ← some_or (checked_sub counter (pk_size_bytes (sv_packet service)))
              (CounterOverflow (nd_id node));
  _ ← modify (fun s => s <| ts_switch_queue_bytes ::=
        <[state_slot := <[queue_slot := counter]> row]> |>);
  when_some (sv_priority service) (fun priority =>
    order ← pfc_order state_slot queue_slot;
    when_some order (fun order =>
      '(_, order) ← unwrap (order_pop order priority);
      set_pfc_order state_slot queue_slot order)).

(** The transmission of the served packet. *)
Definition transmit (node : NodeDescriptor) (event : Event) (egress_link : LinkId)
    (service : Service) : transition unit :=
  link ← link egress_link;
  if negb (lk_source link =? nd_id node)
  then fail (LinkSourceMismatch (lk_id link) (nd_id node) (lk_source link))
  else
    _ ← start_transmission (nd_id node) (sv_payload service);
    arrival_time_ns ← attempt (time_result
                        (arrival_time_ns link (time_ns (key event))
                           (pk_size_bytes (sv_packet service))));
    departure_time_ns ← some_or (checked_sub arrival_time_ns (lk_propagation_ns link))
                          (Time ArrivalOverflow);
    _ ← when_some (sv_plan service) (emit_pfc_frame node event);
    _ ← emit_from_switch node event
          (mkChild (nd_id node) TxComplete (sv_payload service) departure_time_ns);
    remote ← packet_remote_target_for (sv_packet service) (lk_id link);
    emit_from_switch node event
      (mkChild remote RemoteArrival (sv_payload service) arrival_time_ns).

(** The egress link of the packet an event names, at this switch. *)
Definition switch_egress (node : NodeDescriptor) (packet : PacketDescriptor)
  : transition LinkId :=
  egress_link ← packet_egress_at packet (nd_id node);
  some_or egress_link (MissingSwitchQueue (nd_id node) None).

Definition switch_tx_ready (node : NodeDescriptor) (event : Event) : transition unit :=
  ready_packet ← packet (payload event);
  egress_link ← switch_egress node ready_packet;
  state_slot ← local_state_slot node;
  state ← switch_state node;
  '(queue_slot, queue) ← switch_queue node state (Some egress_link);
  plan ← service_plan node state_slot queue_slot queue;
  let queue := queue <| sq_tx_ready_pending := false |> in
  if bool_decide (is_Some (sq_in_service queue))
  then fail (SwitchAlreadyTransmitting (nd_id node) egress_link)
  else
    service ← serve node queue plan;
    match service with
    | None => set_switch node (set_queue queue_slot queue state)
    | Some service =>
        _ ← set_switch node (set_queue queue_slot (sv_queue service) state);
        _ ← count_served node state_slot queue_slot service;
        transmit node event egress_link service
    end.

(** The first packet the queue may serve after a transmission. *)
Definition eligible_next (node : NodeDescriptor) (state_slot queue_slot : nat)
    (queue : SwitchQueueState) : transition (option PayloadId) :=
  match sq_pfc queue with
  | None => done_with (head (sq_queue queue))
  | Some pfc =>
      order ← pfc_order state_slot queue_slot;
      first ← pfc_first_eligible node queue pfc order;
      done_with (snd <$> first)
  end.

(** A weighted fair queue accounts for the departure. *)
Definition complete_scheduler (node : NodeDescriptor) (scheduler : SchedulerKind)
    (packet : PacketDescriptor) (time_ns rate_bps : Z) : result ExecutionError SchedulerKind :=
  match scheduler with
  | WeightedFairQueue wfq =>
      wfq ← wfq_complete wfq packet time_ns rate_bps (nd_id node);
      Ok (WeightedFairQueue wfq)
  | scheduler => Ok scheduler
  end.

Definition switch_tx_complete (node : NodeDescriptor) (event : Event) : transition unit :=
  packet ← packet (payload event);
  egress_link ← switch_egress node packet;
  link ← link egress_link;
  state ← switch_state node;
  '(queue_slot, queue) ← switch_queue node state (Some egress_link);
  state_slot ← local_state_slot node;
  eligible_next_payload ← eligible_next node state_slot queue_slot queue;
  if negb (bool_decide (sq_in_service queue = Some (payload event)))
  then fail (UnexpectedTxComplete (nd_id node) (sq_in_service queue) (payload event))
  else
    scheduler ← attempt (complete_scheduler node (sq_scheduler queue) packet
                          (time_ns (key event)) (lk_rate_bps link));
    let schedules :=
      bool_decide (is_Some eligible_next_payload) && negb (sq_tx_ready_pending queue) in
    let queue := queue <| sq_scheduler := scheduler |> <| sq_in_service := None |> in
    let queue := if schedules then queue <| sq_tx_ready_pending := true |> else queue in
    departed ← some_or (checked_add (sw_departed_packets state) 1) (CounterOverflow (nd_id node));
    _ ← set_switch node (set_queue queue_slot queue state <| sw_departed_packets := departed |>);
    _ ← record_departure (nd_id node) packet;
    _ ← finish_transmission (nd_id node) (payload event);
    when_some (if schedules then eligible_next_payload else None) (emit_switch_ready node event).
