(* ===== verification/Dispatch.v ===== *)
(** * Dispatch (executor/src/scalar.rs, [TransitionState::dispatch])

    The handler of a role and event kind, and what every dispatch promises its
    driver: it touches the state of the target node only, and it numbers the
    children it emits from that node's sequence, each after its parent. *)

From S2P Require Import Prelude OrdMap Event LinkTime ExecError Fel Tcp Model Image.
From S2P Require Import PfcOrder Sched TcpLedger StageIndex Transition TcpSend Stages HostSend.
From S2P Require Import HostTcp Pacing HostRoce HostReceive SwitchHandlers.

Definition run_handler (handler : TransitionHandler) (node : NodeDescriptor) (event : Event)
  : transition unit :=
  match handler with
  | HostPacketArrival => host_packet_arrival node event
  | HostTxReady => host_tx_ready node event
  | HostTxComplete => host_tx_complete node event
  | HostRemoteArrival => host_remote_arrival node event
  | SwitchTxReady => switch_tx_ready node event
  | SwitchTxComplete => switch_tx_complete node event
  | SwitchRemoteArrival => switch_remote_arrival node event
  | HostRetransmissionTimeout => host_retransmission_timeout node event
  | HostPacingTimer => host_pacing_timer node event
  end.

Definition dispatch (event : Event) : transition unit :=
  node ← node (target event);
  handler ← some_or (resolve_transition (nd_kind node) (kind event))
              (UnsupportedTransition (nd_id node) (nd_kind node) (kind event));
  run_handler handler node event.

(** [take_superseded_timers]. *)
Definition take_superseded_timers : transition (list SupersededTimer) :=
  timers ← gets ts_superseded_timers;
  _ ← modify (fun s => s <| ts_superseded_timers := [] |>);
  done_with timers.

(** One step of an executor: dispatch, then take the superseded timers. *)
Definition step (event : Event) (s : TransitionState)
  : fueled ExecutionError (list Event * list SupersededTimer * TransitionState) :=
  '(timers, c) ← (_ ← dispatch event; take_superseded_timers) (mkCtx s []);
  Some (Ok (cx_children c, timers, cx_state c)).
