(* ===== verification/Effects.v ===== *)
(** * Effects of transitions on a node

    What a handler of one node may do: change that node's state and what every
    node shares, and push children numbered from the node's own sequence. The
    rules below derive the effect of a handler from the effects of its steps;
    [solve_effect] applies them. *)

From Stdlib Require Import List.
From S2P Require Import Prelude OrdMap Event ExecError Fel Image StageIndex Transition.

(** ** The effect of a handler *)

Section effects.
Context (nd : NodeDescriptor) (parent : Event).

(** The slot of the node in its table. *)
Definition slot_of (s : TransitionState) : option nat :=
  match ts_local_node s with
  | Some local => if bool_decide (local = nd) then Some 0%nat else None
  | None => Some (Z.to_nat (nd_state_slot nd))
  end.

(** The node's next origin sequence number. *)
Definition next_seq (s : TransitionState) : option Z :=
  slot ← slot_of s;
  match nd_kind nd with
  | Host => hs_next_origin_seq <$> ts_hosts s !! slot
  | Switch => sw_next_origin_seq <$> ts_switch_states s !! slot
  end.

(** A child carries the node's number, follows its parent and, unless it is an
    arrival at another node, is the node's own. *)
Record child_ok (child : Event) : Prop := {
  co_origin : origin_node (key child) = nd_id nd;
  co_phase : phase (key child) = event_phase (kind child);
  co_after : klt (key parent) (key child);
  co_target : target child = nd_id nd \/ kind child = RemoteArrival;
}.

(** Only the slot of the node differs between two tables. *)
Definition same_outside {A} (k : NodeKind) (slot : option nat) (old new : list A) : Prop :=
  length new = length old /\
  forall i, (nd_kind nd = k -> slot <> Some i) -> new !! i = old !! i.

Record framed (s s' : TransitionState) : Prop := {
  fr_image : ts_image s' = ts_image s;
  fr_local : ts_local_node s' = ts_local_node s;
  fr_hosts : same_outside Host (slot_of s) (ts_hosts s) (ts_hosts s');
  fr_indices : same_outside Host (slot_of s) (ts_host_indices s) (ts_host_indices s');
  fr_switches : same_outside Switch (slot_of s) (ts_switch_states s) (ts_switch_states s');
  fr_bytes : same_outside Switch (slot_of s) (ts_switch_queue_bytes s) (ts_switch_queue_bytes s');
  fr_orders : forall i q, (nd_kind nd = Switch -> slot_of s <> Some i) ->
    bm_get (i, q) (ts_switch_pfc_orders s') = bm_get (i, q) (ts_switch_pfc_orders s);
  fr_timers : exists new, ts_superseded_timers s' = ts_superseded_timers s ++ new /\
    Forall (fun t => st_target t = nd_id nd) new;
}.

(** The children pushed are numbered from the node's sequence. *)
Definition numbered (n : option Z) (n' : option Z) (new : list Event) : Prop :=
  n' = (fun k => k + Z.of_nat (length new)) <$> n /\
  (forall k, n = Some k -> (origin_seq ∘ key) <$> new = seqZ k (Z.of_nat (length new))) /\
  (n = None -> new = []).

Record effect (c c' : Ctx) : Prop := {
  ef_framed : framed (cx_state c) (cx_state c');
  ef_children : exists new, cx_children c' = cx_children c ++ new /\ Forall child_ok new /\
    numbered (next_seq (cx_state c)) (next_seq (cx_state c')) new;
}.

(** A step that pushes nothing. *)
Record quiet (c c' : Ctx) : Prop := {
  qu_framed : framed (cx_state c) (cx_state c');
  qu_children : cx_children c' = cx_children c;
  qu_seq : next_seq (cx_state c') = next_seq (cx_state c);
}.

Lemma slot_of_framed s s' : framed s s' -> slot_of s' = slot_of s.
Proof. intros Hf. unfold slot_of. by rewrite (fr_local _ _ Hf). Qed.

Lemma same_outside_refl {A} k slot (l : list A) : same_outside k slot l l.
Proof. done. Qed.

Lemma same_outside_trans {A} k slot (l1 l2 l3 : list A) :
  same_outside k slot l1 l2 -> same_outside k slot l2 l3 -> same_outside k slot l1 l3.
Proof.
  intros [H1 H1'] [H2 H2']. split; [congruence|]. intros i Hi. rewrite H2' by done. auto.
Qed.

Lemma frame_refl s : framed s s.
Proof. split; try done. exists []. by rewrite app_nil_r. Qed.

Lemma frame_trans s1 s2 s3 : framed s1 s2 -> framed s2 s3 -> framed s1 s3.
Proof.
  intros H12 H23. pose proof (slot_of_framed _ _ H12) as Hs.
  destruct H12 as [Hi Hl Hh Hx Hw Hb Ho (t1 & Ht1 & Hf1)].
  destruct H23 as [Hi' Hl' Hh' Hx' Hw' Hb' Ho' (t2 & Ht2 & Hf2)].
  rewrite Hs in *. split; [congruence|congruence|by eapply same_outside_trans..| |].
  { intros i q Hq. rewrite Ho' by done. auto. }
  exists (t1 ++ t2). rewrite Ht2, Ht1, app_assoc. split; [done|]. by apply Forall_app.
Qed.

Lemma numbered_trans n1 n2 n3 l1 l2 : numbered n1 n2 l1 -> numbered n2 n3 l2 ->
  numbered n1 n3 (l1 ++ l2).
Proof.
  intros (E1 & H1 & N1) (E2 & H2 & N2). unfold numbered. rewrite length_app, Nat2Z.inj_add.
  destruct n1 as [k|]; simpl in *; subst; simpl.
  - split_and!; [f_equal; lia| |done]. intros ? [= <-].
    rewrite fmap_app, (H1 k), (H2 (k + Z.of_nat (length l1))) by done.
    rewrite <- seqZ_app by lia. done.
  - split_and!; [done|done|]. intros _. by rewrite N1, N2.
Qed.

Lemma quiet_effect c c' : quiet c c' -> effect c c'.
Proof.
  intros [Hf Hc Hn]. split; [done|]. exists []. rewrite app_nil_r. split_and!; [done|done|].
  rewrite Hn. split_and!; [|by intros k _; rewrite seqZ_nil by (simpl; lia)|done].
  destruct (next_seq (cx_state c)); simpl; [f_equal; lia|done].
Qed.

Lemma effect_refl c : effect c c.
Proof. apply quiet_effect. by split; [apply frame_refl|..]. Qed.

Lemma effect_trans c1 c2 c3 : effect c1 c2 -> effect c2 c3 -> effect c1 c3.
Proof.
  intros [Hf (l1 & E1 & F1 & N1)] [Hf' (l2 & E2 & F2 & N2)].
  split; [by eapply frame_trans|]. exists (l1 ++ l2). rewrite E2, E1, app_assoc.
  split_and!; [done|by apply Forall_app|by eapply numbered_trans].
Qed.

Lemma quiet_trans c1 c2 c3 : quiet c1 c2 -> quiet c2 c3 -> quiet c1 c3.
Proof. intros [? ? ?] [? ? ?]. split; [by eapply frame_trans|congruence..]. Qed.
End effects.

(** ** Steps and their rules *)

Section rules.
Context (nd : NodeDescriptor) (slot : option nat) (parent : Event).

(** The node's slot and its next number. *)
Definition stands (n : option Z) (c : Ctx) : Prop :=
  slot_of nd (cx_state c) = slot /\ next_seq nd (cx_state c) = n.

(** From a state whose next number is [n], [m] is quiet and returns [Φ]. *)
Definition keeps {A} (n : option Z) (m : transition A) (Φ : A -> Prop) : Prop :=
  forall c a c', stands n c -> m c = Some (Ok (a, c')) -> quiet nd c c' /\ Φ a.

(** From a state whose next number is [n], [m] has the node's effect. *)
Definition emits {A} (n : option Z) (m : transition A) : Prop :=
  forall c a c', stands n c -> m c = Some (Ok (a, c')) -> effect nd parent c c'.

Lemma stands_quiet n c c' : quiet nd c c' -> stands n c -> stands n c'.
Proof. intros [Hf _ Hq] [Hs Hn]. split; [by rewrite (slot_of_framed _ _ _ Hf)|congruence]. Qed.

Lemma stands_effect n c c' : effect nd parent c c' -> stands n c ->
  stands (next_seq nd (cx_state c')) c'.
Proof. intros [Hf _] [Hs _]. split; [by rewrite (slot_of_framed _ _ _ Hf)|done]. Qed.

Lemma bind_inv {A B} (m : transition A) (f : A -> transition B) c b c' :
  (m ≫= f) c = Some (Ok (b, c')) ->
  exists a c1, m c = Some (Ok (a, c1)) /\ f a c1 = Some (Ok (b, c')).
Proof.
  unfold mbind, transition_bind. destruct (m c) as [[[a c1]|]|]; [|done..]. eauto.
Qed.

Lemma keeps_weaken {A} n (m : transition A) (Φ Ψ : A -> Prop) :
  keeps n m Φ -> (forall a, Φ a -> Ψ a) -> keeps n m Ψ.
Proof. intros Hm HΦ c a c' Hn Hr. destruct (Hm _ _ _ Hn Hr). auto. Qed.

Lemma keeps_emits {A} n (m : transition A) Φ : keeps n m Φ -> emits n m.
Proof. intros Hm c a c' Hn Hr. destruct (Hm _ _ _ Hn Hr). by apply quiet_effect. Qed.

Lemma keeps_bind {A B} n (m : transition A) (f : A -> transition B) Φ Ψ :
  keeps n m Φ -> (forall a, Φ a -> keeps n (f a) Ψ) -> keeps n (m ≫= f) Ψ.
Proof.
  intros Hm Hf c b c' Hn Hr. apply bind_inv in Hr as (a & c1 & H1 & H2).
  destruct (Hm _ _ _ Hn H1) as [Hq Ha].
  destruct (Hf _ Ha _ _ _ (stands_quiet _ _ _ Hq Hn) H2) as [Hq' Hb].
  split; [by eapply quiet_trans|done].
Qed.

Lemma emits_bind_quiet {A B} n (m : transition A) (f : A -> transition B) Φ :
  keeps n m Φ -> (forall a, Φ a -> emits n (f a)) -> emits n (m ≫= f).
Proof.
  intros Hm Hf c b c' Hn Hr. apply bind_inv in Hr as (a & c1 & H1 & H2).
  destruct (Hm _ _ _ Hn H1) as [Hq Ha]. eapply effect_trans; [by apply quiet_effect|].
  eapply Hf; [done|by eapply stands_quiet|done].
Qed.

Lemma emits_bind {A B} n (m : transition A) (f : A -> transition B) :
  emits n m -> (forall n' a, emits n' (f a)) -> emits n (m ≫= f).
Proof.
  intros Hm Hf c b c' Hn Hr. apply bind_inv in Hr as (a & c1 & H1 & H2).
  eapply effect_trans; [by eapply Hm|]. eapply Hf; [|done]. eapply stands_effect; [by eapply Hm|done].
Qed.

Lemma bind_assoc {A B C} (m : transition A) (f : A -> transition B) (g : B -> transition C) c :
  ((m ≫= f) ≫= g) c = (m ≫= fun x => f x ≫= g) c.
Proof.
  unfold mbind, transition_bind. by destruct (m c) as [[[a c1]|]|].
Qed.

Lemma keeps_assoc {A B C} n (m : transition A) (f : A -> transition B) (g : B -> transition C) Ψ :
  keeps n (m ≫= fun x => f x ≫= g) Ψ -> keeps n ((m ≫= f) ≫= g) Ψ.
Proof. intros H c a c' Hn Hr. rewrite bind_assoc in Hr. by eapply H. Qed.

Lemma emits_assoc {A B C} n (m : transition A) (f : A -> transition B) (g : B -> transition C) :
  emits n (m ≫= fun x => f x ≫= g) -> emits n ((m ≫= f) ≫= g).
Proof. intros H c a c' Hn Hr. rewrite bind_assoc in Hr. by eapply H. Qed.

Lemma keeps_done_bind {A B} n (a : A) (f : A -> transition B) Ψ :
  keeps n (f a) Ψ -> keeps n (done_with a ≫= f) Ψ.
Proof. done. Qed.

Lemma emits_done_bind {A B} n (a : A) (f : A -> transition B) :
  emits n (f a) -> emits n (done_with a ≫= f).
Proof. done. Qed.

Lemma keeps_done {A} n (a : A) (Φ : A -> Prop) : Φ a -> keeps n (done_with a) Φ.
Proof. intros Ha c b c' _ [= <- <-]. split; [|done]. by split; [apply frame_refl|..]. Qed.

Lemma emits_done {A} n (a : A) : emits n (done_with a).
Proof. by eapply keeps_emits, (keeps_done _ _ (fun _ => True)). Qed.

(** A step that only reads. *)
Lemma keeps_read {A} n (m : transition A) (Φ : A -> Prop) :
  (forall c a c', m c = Some (Ok (a, c')) -> c' = c /\ (stands n c -> Φ a)) ->
  keeps n m Φ.
Proof.
  intros Hm c a c' Hn Hr. destruct (Hm _ _ _ Hr) as [-> HΦ]. split; [|auto].
  by split; [apply frame_refl|..].
Qed.

Lemma keeps_gets {A} n (f : TransitionState -> A) : keeps n (gets f) (fun _ => True).
Proof. apply keeps_read. by intros c a c' [= <- <-]. Qed.

Lemma keeps_attempt {A} n (r : result ExecutionError A) :
  keeps n (attempt r) (fun a => r = Ok a).
Proof. apply keeps_read. intros c a c'. unfold attempt. by destruct r; intros [= <- <-]. Qed.

Lemma keeps_some_or {A} n (o : option A) e : keeps n (some_or o e) (fun a => o = Some a).
Proof. apply keeps_read. intros c a c'. unfold some_or. by destruct o; intros [= <- <-]. Qed.

Lemma keeps_unwrap {A} n (o : option A) : keeps n (unwrap o) (fun a => o = Some a).
Proof. apply keeps_read. intros c a c'. unfold unwrap. by destruct o; intros [= <- <-]. Qed.

Lemma keeps_run {A} n (m : fueled ExecutionError A) : keeps n (run m) (fun a => m = Some (Ok a)).
Proof. apply keeps_read. intros c a c'. unfold run. by destruct m as [[]|]; intros [= <- <-]. Qed.

Lemma keeps_fail {A} n e (Φ : A -> Prop) : keeps n (fail e) Φ.
Proof. intros c a c' _ Hr. done. Qed.

Lemma emits_fail {A} n e : emits n (@fail A e).
Proof. intros c a c' _ Hr. done. Qed.

(** A write of what the nodes share. *)
Lemma keeps_modify n f :
  (forall s, ts_image (f s) = ts_image s /\ ts_local_node (f s) = ts_local_node s /\
     ts_hosts (f s) = ts_hosts s /\ ts_host_indices (f s) = ts_host_indices s /\
     ts_switch_states (f s) = ts_switch_states s /\
     ts_switch_queue_bytes (f s) = ts_switch_queue_bytes s /\
     ts_switch_pfc_orders (f s) = ts_switch_pfc_orders s /\
     exists new, ts_superseded_timers (f s) = ts_superseded_timers s ++ new /\
       Forall (fun t => st_target t = nd_id nd) new) ->
  keeps n (modify f) (fun _ => True).
Proof.
  intros Hf c a c' _ [= <- <-]. split; [|done]. simpl.
  destruct (Hf (cx_state c)) as (Hi & Hl & Hh & Hx & Hw & Hb & Ho & Ht). split; [|done|].
  - split; simpl; rewrite ?Hh, ?Hx, ?Hw, ?Hb, ?Ho; done.
  - simpl. unfold next_seq, slot_of. by rewrite Hl, Hh, Hw.
Qed.

Lemma keeps_when n b m : keeps n m (fun _ => True) -> keeps n (when b m) (fun _ => True).
Proof. intros Hm. destruct b; [done|]. by apply keeps_done. Qed.

Lemma keeps_when_some {A} n (o : option A) m :
  (forall a, o = Some a -> keeps n (m a) (fun _ => True)) ->
  keeps n (when_some o m) (fun _ => True).
Proof. intros Hm. destruct o; [by apply Hm|]. by apply keeps_done. Qed.

Lemma emits_when n b m : emits n m -> emits n (when b m).
Proof. intros Hm. destruct b; [done|]. apply emits_done. Qed.

Lemma emits_when_some {A} n (o : option A) m :
  (forall a, o = Some a -> emits n (m a)) -> emits n (when_some o m).
Proof. intros Hm. destruct o; [by apply Hm|]. apply emits_done. Qed.

Lemma emits_for_each {A} n (l : list A) body :
  (forall n x, x ∈ l -> emits n (body x)) -> emits n (for_each l body).
Proof.
  revert n. induction l as [|x l IH]; intros n Hb; simpl.
  - apply emits_done.
  - apply emits_bind; [apply Hb; set_solver|]. intros n' _. apply IH.
    intros ? y Hy. apply Hb. set_solver.
Qed.

Lemma keeps_for_each {A} n (l : list A) body :
  (forall x, x ∈ l -> keeps n (body x) (fun _ => True)) ->
  keeps n (for_each l body) (fun _ => True).
Proof.
  induction l as [|x l IH]; intros Hb; simpl; [by apply keeps_done|].
  eapply keeps_bind; [apply Hb; set_solver|]. intros _ _. apply IH.
  intros y Hy. apply Hb. set_solver.
Qed.
End rules.

(** ** The node's own state *)

Section node_state.
Context (nd : NodeDescriptor) (at_slot : option nat) (parent : Event).

Lemma local_state_slot_inv c slot c' : local_state_slot nd c = Some (Ok (slot, c')) ->
  c' = c /\ slot_of nd (cx_state c) = Some slot.
Proof.
  unfold local_state_slot, slot_of, gets, mbind, transition_bind. simpl.
  destruct (ts_local_node (cx_state c)) as [l|]; [case_bool_decide|]; by intros [= <- <-].
Qed.

Lemma keeps_local_state_slot n : keeps nd at_slot n (local_state_slot nd) (fun slot => at_slot = Some slot).
Proof. apply keeps_read. by intros c a c' [-> <-]%local_state_slot_inv; split; [|intros [<- _]]. Qed.

Lemma host_state_inv c h c' : host_state nd c = Some (Ok (h, c')) ->
  c' = c /\ exists slot, slot_of nd (cx_state c) = Some slot /\ ts_hosts (cx_state c) !! slot = Some h.
Proof.
  intros (slot & c1 & [-> Hs]%local_state_slot_inv & Hr)%bind_inv. revert Hr.
  unfold gets, mbind, transition_bind, some_or, attempt. simpl.
  destruct (_ !! slot) as [h'|] eqn:E; [|done]. simpl. intros [= <- <-]. eauto.
Qed.

Lemma switch_state_inv c h c' : switch_state nd c = Some (Ok (h, c')) ->
  c' = c /\ exists slot, slot_of nd (cx_state c) = Some slot
    /\ ts_switch_states (cx_state c) !! slot = Some h.
Proof.
  intros (slot & c1 & [-> Hs]%local_state_slot_inv & Hr)%bind_inv. revert Hr.
  unfold gets, mbind, transition_bind, some_or, attempt. simpl.
  destruct (_ !! slot) as [h'|] eqn:E; [|done]. simpl. intros [= <- <-]. eauto.
Qed.

Lemma host_parts_inv c h i c' : host_parts nd c = Some (Ok ((h, i), c')) ->
  c' = c /\ exists slot, slot_of nd (cx_state c) = Some slot
    /\ ts_hosts (cx_state c) !! slot = Some h /\ ts_host_indices (cx_state c) !! slot = Some i.
Proof.
  intros (slot & c1 & [-> Hs]%local_state_slot_inv & Hr)%bind_inv. revert Hr.
  unfold gets, mbind, transition_bind, some_or, attempt, done_with. simpl.
  destruct (ts_hosts _ !! slot) as [h'|] eqn:E; [|done]. simpl.
  destruct (ts_host_indices _ !! slot) as [i'|] eqn:E'; [|done]. simpl.
  intros [= <- <- <-]. eauto.
Qed.

Lemma keeps_host_state n : nd_kind nd = Host ->
  keeps nd at_slot n (host_state nd) (fun h => n = Some (hs_next_origin_seq h)).
Proof.
  intros Hk. apply keeps_read. intros c h c' (-> & slot & Hs & Hh)%host_state_inv. split; [done|].
  intros [_ <-]. unfold next_seq. by rewrite Hs, Hk; simpl; rewrite Hh.
Qed.

Lemma keeps_host_parts n : nd_kind nd = Host ->
  keeps nd at_slot n (host_parts nd) (fun p => n = Some (hs_next_origin_seq p.1)).
Proof.
  intros Hk. apply keeps_read. intros c [h i] c' (-> & slot & Hs & Hh & _)%host_parts_inv.
  split; [done|]. intros [_ <-]. unfold next_seq. by rewrite Hs, Hk; simpl; rewrite Hh.
Qed.

Lemma keeps_switch_state n : nd_kind nd = Switch ->
  keeps nd at_slot n (switch_state nd) (fun h => n = Some (sw_next_origin_seq h)).
Proof.
  intros Hk. apply keeps_read. intros c h c' (-> & slot & Hs & Hh)%switch_state_inv.
  split; [done|]. intros [_ <-]. unfold next_seq. by rewrite Hs, Hk; simpl; rewrite Hh.
Qed.

Lemma same_outside_insert {A} k (slot : nat) (l : list A) x : nd_kind nd = k ->
  same_outside nd k (Some slot) l (<[slot := x]> l).
Proof.
  intros Hk. split; [by rewrite length_insert|]. intros i Hi.
  rewrite list_lookup_insert_ne; [done|]. intros ->. by apply (Hi Hk).
Qed.

(** The write of a node's slot. *)
Lemma set_host_framed s slot h : nd_kind nd = Host -> slot_of nd s = Some slot ->
  framed nd s (s <| ts_hosts ::= <[slot := h]> |>).
Proof.
  intros Hk Hs. split; simpl; [done|done| |done|done|done|done|].
  - rewrite Hs. by apply same_outside_insert.
  - exists []. by rewrite app_nil_r.
Qed.

Lemma set_switch_framed s slot h : nd_kind nd = Switch -> slot_of nd s = Some slot ->
  framed nd s (s <| ts_switch_states ::= <[slot := h]> |>).
Proof.
  intros Hk Hs. split; simpl; [done|done|done|done| |done|done|].
  - rewrite Hs. by apply same_outside_insert.
  - exists []. by rewrite app_nil_r.
Qed.

Lemma set_host_seq s slot h h' : nd_kind nd = Host -> slot_of nd s = Some slot ->
  ts_hosts s !! slot = Some h' ->
  next_seq nd (s <| ts_hosts ::= <[slot := h]> |>) = Some (hs_next_origin_seq h).
Proof.
  intros Hk Hs Hl. unfold next_seq. change (slot_of nd (s <| ts_hosts ::= _ |>)) with (slot_of nd s).
  rewrite Hs, Hk. simpl. by rewrite list_lookup_insert_eq by (by eapply lookup_lt_Some).
Qed.

Lemma set_switch_seq s slot h h' : nd_kind nd = Switch -> slot_of nd s = Some slot ->
  ts_switch_states s !! slot = Some h' ->
  next_seq nd (s <| ts_switch_states ::= <[slot := h]> |>) = Some (sw_next_origin_seq h).
Proof.
  intros Hk Hs Hl. unfold next_seq.
  change (slot_of nd (s <| ts_switch_states ::= _ |>)) with (slot_of nd s).
  rewrite Hs, Hk. simpl. by rewrite list_lookup_insert_eq by (by eapply lookup_lt_Some).
Qed.

Lemma keeps_set_host n h : nd_kind nd = Host -> n = Some (hs_next_origin_seq h) ->
  keeps nd at_slot n (set_host nd h) (fun _ => True).
Proof.
  intros Hk -> c [] c' [_ Hn] (slot & c1 & [-> Hs]%local_state_slot_inv & Hr)%bind_inv.
  injection Hr as <-. split; [|done]. split; [by apply set_host_framed|done|].
  unfold next_seq in Hn. rewrite Hs, Hk in Hn. simpl in Hn.
  destruct (ts_hosts (cx_state c) !! slot) as [h'|] eqn:E; [|done].
  etrans; [by apply (set_host_seq _ _ _ h')|]. unfold next_seq. rewrite Hs, Hk. simpl. by rewrite E.
Qed.

Lemma keeps_set_switch n h : nd_kind nd = Switch -> n = Some (sw_next_origin_seq h) ->
  keeps nd at_slot n (set_switch nd h) (fun _ => True).
Proof.
  intros Hk -> c [] c' [_ Hn] (slot & c1 & [-> Hs]%local_state_slot_inv & Hr)%bind_inv.
  injection Hr as <-. split; [|done]. split; [by apply set_switch_framed|done|].
  unfold next_seq in Hn. rewrite Hs, Hk in Hn. simpl in Hn.
  destruct (ts_switch_states (cx_state c) !! slot) as [h'|] eqn:E; [|done].
  etrans; [by apply (set_switch_seq _ _ _ h')|]. unfold next_seq. rewrite Hs, Hk. simpl. by rewrite E.
Qed.

Lemma keeps_set_index n i : nd_kind nd = Host -> keeps nd at_slot n (set_index nd i) (fun _ => True).
Proof.
  intros Hk c [] c' [_ Hn] (slot & c1 & [-> Hs]%local_state_slot_inv & Hr)%bind_inv.
  injection Hr as <-. split; [|done]. split; [|done|].
  - split; simpl; [done|done|done| |done|done|done|exists []; by rewrite app_nil_r].
    rewrite Hs. by apply same_outside_insert.
  - done.
Qed.

(** ** Emission *)

Lemma push_effect s s' cs child k :
  framed nd s s' -> next_seq nd s = Some k -> next_seq nd s' = Some (k + 1) ->
  origin_seq (key child) = k -> child_ok nd parent child ->
  effect nd parent (mkCtx s cs) (mkCtx s' (cs ++ [child])).
Proof.
  intros Hf Hk Hk' Ho Hc. split; [done|]. exists [child]. simpl. rewrite Hk, Hk'.
  split_and!; [done|by constructor|]. split_and!; [done| |done].
  intros ? [= <-]. simpl. by rewrite Ho.
Qed.

Lemma insert_child_inv child c a c' : insert_child parent child c = Some (Ok (a, c')) ->
  klt (key parent) (key child) /\ c' = mkCtx (cx_state c) (cx_children c ++ [child]).
Proof.
  unfold insert_child. destruct (kleb _ _) eqn:E; [done|].
  apply kleb_false in E. by intros [= <- <-].
Qed.

Lemma emits_from_host n emission : nd_kind nd = Host ->
  (ce_target emission = nd_id nd \/ ce_kind emission = RemoteArrival) ->
  emits nd at_slot parent n (emit_from_host nd parent emission).
Proof.
  intros Hk Ht c a c' _ (h & c1 & (-> & slot & Hs & Hh)%host_state_inv & Hr)%bind_inv.
  apply bind_inv in Hr as (next & c1 & Hnext & Hr).
  unfold some_or, attempt in Hnext. destruct (checked_add _ 1) eqn:E; [|done].
  injection Hnext as <- <-. apply bind_inv in Hr as ([] & c1 & Hset & Hr).
  apply bind_inv in Hset as (slot' & c2 & [-> Hs']%local_state_slot_inv & Hset).
  assert (slot' = slot) as -> by congruence. injection Hset as <-.
  apply insert_child_inv in Hr as [Hlt ->]. simpl. destruct c as [s cs]. simpl in *.
  apply checked_add_Some in E as [-> _]. eapply push_effect.
  - by apply set_host_framed.
  - unfold next_seq. rewrite Hs, Hk. simpl. by rewrite Hh.
  - etrans; [by apply (set_host_seq _ _ _ h)|done].
  - done.
  - by split.
Qed.

Lemma emits_from_switch n emission : nd_kind nd = Switch ->
  (ce_target emission = nd_id nd \/ ce_kind emission = RemoteArrival) ->
  emits nd at_slot parent n (emit_from_switch nd parent emission).
Proof.
  intros Hk Ht c a c' _ (h & c1 & (-> & slot & Hs & Hh)%switch_state_inv & Hr)%bind_inv.
  apply bind_inv in Hr as (next & c1 & Hnext & Hr).
  unfold some_or, attempt in Hnext. destruct (checked_add _ 1) eqn:E; [|done].
  injection Hnext as <- <-. apply bind_inv in Hr as ([] & c1 & Hset & Hr).
  apply bind_inv in Hset as (slot' & c2 & [-> Hs']%local_state_slot_inv & Hset).
  assert (slot' = slot) as -> by congruence. injection Hset as <-.
  apply insert_child_inv in Hr as [Hlt ->]. simpl. destruct c as [s cs]. simpl in *.
  apply checked_add_Some in E as [-> _]. eapply push_effect.
  - by apply set_switch_framed.
  - unfold next_seq. rewrite Hs, Hk. simpl. by rewrite Hh.
  - etrans; [by apply (set_switch_seq _ _ _ h)|done].
  - done.
  - by split.
Qed.
End node_state.

(** ** Automation

    [effects] splits a handler into its steps; a step's lemma comes from the
    database [effects]. [seq_fact] is the hook for what pure helpers do to the
    sequence number. *)

Create HintDb effects discriminated.

Ltac seq_fact := fail.

Ltac solve_seq := repeat seq_fact; cbn in *; congruence.

Ltac solve_target := cbn; first [by left | by right | by eauto].

Ltac destruct_match x := first [is_var x; destruct x | destruct x eqn:?].

Ltac intro_post :=
  let H := fresh in
  intros ? H; cbn beta in H; lazymatch type of H with True => clear H | _ => idtac end.

Ltac leaf := solve [eauto 5 with effects].

Ltac effects := repeat (effect_step; cbn beta)
with effect_step :=
  lazymatch goal with
  | H : ?slot = Some _ |- emits _ ?slot _ _ _ => subst slot
  | H : ?slot = Some _ |- keeps _ ?slot _ _ _ => subst slot
  | |- emits _ _ _ _ (let _ := _ in _) => cbv zeta
  | |- keeps _ _ _ (let _ := _ in _) _ => cbv zeta
  | |- emits _ _ _ _ (match ?x with _ => _ end) => destruct_match x
  | |- keeps _ _ _ (match ?x with _ => _ end) _ => destruct_match x
  | |- emits _ _ _ _ (mbind _ ?m) =>
      lazymatch m with
      | mbind _ _ => apply emits_assoc
      | done_with _ => apply emits_done_bind
      | unit_done => apply emits_done_bind
      | fail _ => eapply (emits_bind_quiet _ _ _ _ _ _ (fun _ => False)); [apply keeps_fail|intros ? []]
      | match ?x with _ => _ end => destruct_match x
      | _ =>
          first
            [ eapply emits_bind_quiet; [leaf|intro_post]
            | eapply emits_bind; [leaf|intros ? ?]
            | eapply (emits_bind_quiet _ _ _ _ _ _ (fun _ => True)); [by effects|intros ? _]
            | eapply emits_bind; [by effects|intros ? ?] ]
      end
  | |- keeps _ _ _ (mbind _ ?m) _ =>
      lazymatch m with
      | mbind _ _ => apply keeps_assoc
      | done_with _ => apply keeps_done_bind
      | unit_done => apply keeps_done_bind
      | fail _ => eapply (keeps_bind _ _ _ _ _ (fun _ => False)); [apply keeps_fail|intros ? []]
      | match ?x with _ => _ end => destruct_match x
      | _ =>
          first
            [ eapply keeps_bind; [leaf|intro_post]
            | eapply (keeps_bind _ _ _ _ _ (fun _ => True)); [by effects|intros ? _] ]
      end
  | |- emits _ _ _ _ (when _ _) => apply emits_when
  | |- emits _ _ _ _ (when_some _ _) => apply emits_when_some; intros ? ?
  | |- emits _ _ _ _ (for_each _ _) => apply emits_for_each; intros ? ? ?
  | |- keeps _ _ _ (when _ _) _ => apply keeps_when
  | |- keeps _ _ _ (when_some _ _) _ => apply keeps_when_some; intros ? ?
  | |- keeps _ _ _ (for_each _ _) _ => apply keeps_for_each; intros ? ?
  | |- emits _ _ _ _ (done_with _) => apply emits_done
  | |- emits _ _ _ _ unit_done => apply emits_done
  | |- keeps _ _ _ (done_with _) _ => apply keeps_done
  | |- keeps _ _ _ unit_done _ => apply keeps_done
  | |- keeps _ _ _ (fail _) _ => apply keeps_fail
  | |- emits _ _ _ _ (fail _) => apply emits_fail
  | |- keeps _ _ _ _ _ => first [leaf | eapply keeps_weaken; [leaf|intro_post]]
  | |- emits _ _ _ _ _ => first [leaf | eapply keeps_emits; leaf]
  end.

Ltac solve_modify :=
  apply keeps_modify; intros s; cbn; split_and!; try done; exists []; by rewrite app_nil_r.

#[export] Hint Resolve keeps_gets keeps_attempt keeps_some_or keeps_unwrap keeps_run
  keeps_local_state_slot keeps_host_state keeps_host_parts keeps_switch_state
  keeps_set_host keeps_set_switch keeps_set_index emits_from_host emits_from_switch : effects.
#[export] Hint Extern 1 (_ = Some (hs_next_origin_seq _)) => solve_seq : effects.
#[export] Hint Extern 1 (_ = Some (sw_next_origin_seq _)) => solve_seq : effects.
#[export] Hint Extern 1 (_ = nd_id _ \/ _ = RemoteArrival) => solve_target : effects.

(** ** The steps the handlers share *)

Section primitives.
Context (nd : NodeDescriptor) (slot : option nat) (parent : Event).

Lemma keeps_node n id : keeps nd slot n (node id) (fun _ => True).
Proof. unfold node. by effects. Qed.
Lemma keeps_link n id : keeps nd slot n (link id) (fun _ => True).
Proof. unfold link. by effects. Qed.
Lemma keeps_flow n id : keeps nd slot n (flow id) (fun _ => True).
Proof. unfold flow. by effects. Qed.
Lemma keeps_node_count n : keeps nd slot n node_count (fun _ => True).
Proof. unfold node_count. by effects. Qed.
#[local] Hint Resolve keeps_node keeps_link keeps_flow keeps_node_count : effects.

Lemma keeps_packet_pfc_class n pk : keeps nd slot n (packet_pfc_class pk) (fun _ => True).
Proof. unfold packet_pfc_class. by effects. Qed.
Lemma keeps_packet_egress_at n pk id : keeps nd slot n (packet_egress_at pk id) (fun _ => True).
Proof. unfold packet_egress_at. by effects. Qed.
Lemma keeps_packet_incoming_link_at n pk id :
  keeps nd slot n (packet_incoming_link_at pk id) (fun _ => True).
Proof. unfold packet_incoming_link_at. by effects. Qed.
Lemma keeps_packet_remote_target_for n pk id :
  keeps nd slot n (packet_remote_target_for pk id) (fun _ => True).
Proof. unfold packet_remote_target_for. by effects. Qed.

Lemma keeps_cancel_superseded_timer n payload deadline :
  keeps nd slot n (cancel_superseded_timer (nd_id nd) payload deadline) (fun _ => True).
Proof.
  apply keeps_modify. intros s. cbn. split_and!; try done. eexists [_]. split; [done|].
  by repeat constructor.
Qed.

Lemma keeps_resident n id : keeps nd slot n (resident id) (fun _ => True).
Proof. unfold resident. by effects. Qed.
Lemma keeps_put_resident n r : keeps nd slot n (put_resident r) (fun _ => True).
Proof. solve_modify. Qed.
Lemma keeps_update_resident n id r : keeps nd slot n (update_resident id r) (fun _ => True).
Proof. solve_modify. Qed.
Lemma keeps_remove_resident n id : keeps nd slot n (remove_resident id) (fun _ => True).
Proof. solve_modify. Qed.
Lemma keeps_set_summary n r : keeps nd slot n (set_summary r) (fun _ => True).
Proof. solve_modify. Qed.
Lemma keeps_add_summary n x y id : keeps nd slot n (add_summary x y id) (fun _ => True).
Proof. unfold add_summary. by effects. Qed.
#[local] Hint Resolve keeps_resident keeps_put_resident keeps_update_resident
  keeps_remove_resident keeps_packet_remote_target_for keeps_set_summary
  keeps_add_summary keeps_packet_pfc_class : effects.

Lemma keeps_packet n id : keeps nd slot n (packet id) (fun _ => True).
Proof. unfold packet. by effects. Qed.
#[local] Hint Resolve keeps_packet : effects.

Lemma keeps_packet_remote_target n id link :
  keeps nd slot n (packet_remote_target id link) (fun _ => True).
Proof. unfold packet_remote_target. by effects. Qed.
Lemma keeps_insert_packet n pk t : keeps nd slot n (insert_packet pk t) (fun _ => True).
Proof. unfold insert_packet. by effects. Qed.
Lemma keeps_set_source_time n id t : keeps nd slot n (set_source_time id t) (fun _ => True).
Proof. unfold set_source_time. by effects. Qed.
Lemma keeps_set_packet_marked n id : keeps nd slot n (set_packet_marked id) (fun _ => True).
Proof. unfold set_packet_marked. by effects. Qed.
Lemma keeps_start_transmission n nid id :
  keeps nd slot n (start_transmission nid id) (fun _ => True).
Proof. unfold start_transmission. by effects. Qed.
Lemma keeps_finish_transmission n nid id :
  keeps nd slot n (finish_transmission nid id) (fun _ => True).
Proof. unfold finish_transmission. by effects. Qed.
Lemma keeps_mark_terminal n id : keeps nd slot n (mark_terminal id) (fun _ => True).
Proof. unfold mark_terminal. by effects. Qed.
Lemma keeps_record_sourced n nid pk : keeps nd slot n (record_sourced nid pk) (fun _ => True).
Proof. unfold record_sourced. by effects. Qed.
Lemma keeps_record_departure n nid pk :
  keeps nd slot n (record_departure nid pk) (fun _ => True).
Proof. unfold record_departure. by effects. Qed.
Lemma keeps_record_arrival n nid pk d :
  keeps nd slot n (record_arrival nid pk d) (fun _ => True).
Proof. unfold record_arrival. by effects. Qed.
Lemma keeps_enqueue_source_packet n id : nd_kind nd = Host ->
  keeps nd slot n (enqueue_source_packet nd id) (fun _ => True).
Proof. intros Hk. unfold enqueue_source_packet. by effects. Qed.
#[local] Hint Resolve keeps_insert_packet keeps_record_sourced
  keeps_enqueue_source_packet : effects.

Lemma keeps_source_packet n pk t : nd_kind nd = Host ->
  keeps nd slot n (source_packet nd pk t) (fun _ => True).
Proof. intros Hk. unfold source_packet. by effects. Qed.
Lemma emits_host_ready n id : nd_kind nd = Host ->
  emits nd slot parent n (emit_host_ready nd parent id).
Proof. intros Hk. unfold emit_host_ready. by effects. Qed.
Lemma emits_switch_ready n id : nd_kind nd = Switch ->
  emits nd slot parent n (emit_switch_ready nd parent id).
Proof. intros Hk. unfold emit_switch_ready. by effects. Qed.
End primitives.

#[export] Hint Resolve keeps_node keeps_link keeps_flow keeps_node_count keeps_packet_pfc_class
  keeps_packet_egress_at keeps_packet_incoming_link_at keeps_packet_remote_target_for
  keeps_cancel_superseded_timer keeps_resident keeps_put_resident keeps_update_resident
  keeps_remove_resident keeps_packet keeps_packet_remote_target keeps_insert_packet
  keeps_set_source_time keeps_set_packet_marked keeps_start_transmission
  keeps_finish_transmission keeps_mark_terminal keeps_record_sourced keeps_record_departure
  keeps_record_arrival keeps_enqueue_source_packet keeps_source_packet emits_host_ready
  emits_switch_ready : effects.

(** ** PFC class orders *)

Section orders.
Context (nd : NodeDescriptor) (slot : nat) (parent : Event).

Lemma keeps_pfc_order n s q : keeps nd (Some slot) n (pfc_order s q) (fun _ => True).
Proof. unfold pfc_order. by effects. Qed.

Lemma keeps_set_pfc_order n q order : nd_kind nd = Switch ->
  keeps nd (Some slot) n (set_pfc_order slot q order) (fun _ => True).
Proof.
  intros Hk c [] c' [Hs Hn] [= <-]. split; [|done]. split; [|done|done].
  split; simpl; try done; [|exists []; by rewrite app_nil_r].
  intros i q' Hi. rewrite bm_get_insert_ne; [done|]. intros [= -> ->]. by destruct (Hi Hk).
Qed.

(** The write of a switch's row of byte counters. *)
Lemma keeps_set_queue_bytes n row : nd_kind nd = Switch ->
  keeps nd (Some slot) n
    (modify (fun s => s <| ts_switch_queue_bytes ::= <[slot := row]> |>)) (fun _ => True).
Proof.
  intros Hk c [] c' [Hs Hn] [= <-]. split; [|done]. split; [|done|done].
  split; simpl; try done; [|exists []; by rewrite app_nil_r].
  rewrite Hs. by apply same_outside_insert.
Qed.

Lemma keeps_pfc_search n pfc position queue :
  keeps nd (Some slot) n (pfc_search pfc position queue) (fun _ => True).
Proof. revert position. induction queue as [|id queue IH]; intros position; simpl; by effects. Qed.

Lemma keeps_build_pfc_order n order queue :
  keeps nd (Some slot) n (build_pfc_order order queue) (fun _ => True).
Proof. revert order. induction queue as [|id queue IH]; intros order; simpl; by effects. Qed.
#[local] Hint Resolve keeps_pfc_order keeps_set_pfc_order keeps_pfc_search
  keeps_build_pfc_order : effects.

Lemma keeps_pfc_first_eligible n queue pfc order :
  keeps nd (Some slot) n (pfc_first_eligible nd queue pfc order) (fun _ => True).
Proof. unfold pfc_first_eligible, pfc_first_eligible_by_search. by effects. Qed.

Lemma keeps_ensure_pfc_order n q : nd_kind nd = Switch ->
  keeps nd (Some slot) n (ensure_pfc_order slot q) (fun _ => True).
Proof. intros Hk. unfold ensure_pfc_order. by effects. Qed.

Lemma emits_pfc_frame n plan : nd_kind nd = Switch ->
  emits nd (Some slot) parent n (emit_pfc_frame nd parent plan).
Proof. intros Hk. unfold emit_pfc_frame. by effects. Qed.
End orders.

#[export] Hint Resolve keeps_pfc_order keeps_set_pfc_order keeps_set_queue_bytes
  keeps_pfc_first_eligible keeps_ensure_pfc_order emits_pfc_frame : effects.
