(* ===== verification/SwitchLocality.v ===== *)
(** * Effects of the switch handlers

    Each switch handler has the effect of its node: [SwitchHandlers] read with
    the rules of [Effects]. *)

From S2P Require Import Prelude OrdMap Event LinkTime ExecError Fel EcnRamp Tcp Model Image.
From S2P Require Import PfcOrder Sched TcpLedger StageIndex Transition TcpSend Stages HostSend.
From S2P Require Import HostReceive SwitchHandlers Effects.

Section switch_locality.
Context (nd : NodeDescriptor) (parent : Event) (Hk : nd_kind nd = Switch).

Lemma keeps_switch_queue slot n state egress :
  keeps nd slot n (switch_queue nd state egress) (fun _ => True).
Proof. unfold switch_queue. by effects. Qed.

Lemma keeps_pfc_overflow slot n pfc incoming priority size :
  keeps nd slot n (pfc_overflow pfc incoming priority size) (fun _ => True).
Proof. unfold pfc_overflow. by effects. Qed.

Lemma keeps_ingress_admit slot n queue incoming priority pk :
  keeps nd slot n (ingress_admit nd queue incoming priority pk) (fun _ => True).
Proof. unfold ingress_admit. by effects. Qed.

Lemma keeps_ingress_drain slot n queue incoming priority pk :
  keeps nd slot n (ingress_drain nd queue incoming priority pk) (fun _ => True).
Proof. unfold ingress_drain. by effects. Qed.

Lemma keeps_queue_class_paused slot n queue priority :
  keeps nd slot n (queue_class_paused queue priority) (fun _ => True).
Proof. unfold queue_class_paused. by effects. Qed.
#[local] Hint Resolve keeps_switch_queue keeps_pfc_overflow keeps_ingress_admit
  keeps_ingress_drain keeps_queue_class_paused : effects.

Lemma keeps_switch_sp_position slot n egress flow :
  keeps nd slot n (switch_sp_position nd egress flow) (fun _ => True).
Proof. unfold switch_sp_position. by effects. Qed.

Lemma keeps_admit_packet slot n event pk queue rate position incoming priority :
  keeps nd slot n (admit_packet nd event pk queue rate position incoming priority)
    (fun _ => True).
Proof. unfold admit_packet. by effects. Qed.

Lemma keeps_count_admitted slot n queue pk has_pfc priority :
  keeps nd (Some slot) n (count_admitted nd slot queue pk has_pfc priority) (fun _ => True).
Proof. unfold count_admitted. by effects. Qed.
#[local] Hint Resolve keeps_switch_sp_position keeps_admit_packet keeps_count_admitted : effects.

Lemma emits_switch_pfc_remote_arrival slot n header :
  emits nd slot parent n (switch_pfc_remote_arrival nd parent header).
Proof. unfold switch_pfc_remote_arrival, set_queue. by effects. Qed.

Lemma emits_switch_data_arrival slot n pk :
  emits nd slot parent n (switch_data_arrival nd parent pk).
Proof. unfold switch_data_arrival, set_queue. by effects. Qed.
#[local] Hint Resolve emits_switch_pfc_remote_arrival emits_switch_data_arrival : effects.

Lemma emits_switch_remote_arrival slot n :
  emits nd slot parent n (switch_remote_arrival nd parent).
Proof. unfold switch_remote_arrival. by effects. Qed.

Lemma keeps_eligible_packets slot n id pfc position queue :
  keeps nd slot n (eligible_packets id pfc position queue) (fun _ => True).
Proof. revert position. induction queue as [|x queue IH]; intros position; simpl; by effects. Qed.

Lemma keeps_serve_at slot n queue selection :
  keeps nd slot n (serve_at nd queue selection) (fun _ => True).
Proof. unfold serve_at. by effects. Qed.
#[local] Hint Resolve keeps_eligible_packets keeps_serve_at : effects.

Lemma keeps_service_plan slot n queue_slot queue :
  keeps nd (Some slot) n (service_plan nd slot queue_slot queue) (fun _ => True).
Proof. unfold service_plan. by effects. Qed.

Lemma keeps_serve slot n queue plan : keeps nd slot n (serve nd queue plan) (fun _ => True).
Proof. unfold serve. by effects. Qed.

Lemma keeps_count_served slot n queue service :
  keeps nd (Some slot) n (count_served nd slot queue service) (fun _ => True).
Proof. unfold count_served. by effects. Qed.

Lemma emits_transmit slot n egress service :
  emits nd (Some slot) parent n (transmit nd parent egress service).
Proof. unfold transmit. by effects. Qed.

Lemma keeps_switch_egress slot n pk : keeps nd slot n (switch_egress nd pk) (fun _ => True).
Proof. unfold switch_egress. by effects. Qed.

Lemma keeps_eligible_next slot n queue_slot queue :
  keeps nd (Some slot) n (eligible_next nd slot queue_slot queue) (fun _ => True).
Proof. unfold eligible_next. by effects. Qed.
#[local] Hint Resolve keeps_service_plan keeps_serve keeps_count_served emits_transmit
  keeps_switch_egress keeps_eligible_next : effects.

Lemma emits_switch_tx_ready slot n : emits nd slot parent n (switch_tx_ready nd parent).
Proof. unfold switch_tx_ready, set_queue. by effects. Qed.

Lemma emits_switch_tx_complete slot n : emits nd slot parent n (switch_tx_complete nd parent).
Proof. unfold switch_tx_complete, set_queue. by effects. Qed.
End switch_locality.
