(* ===== verification/HostLocality.v ===== *)
(** * Effects of the host handlers

    Each host handler has the effect of its node. The pure helpers of the
    handlers keep the host's sequence number; the handlers are then read with the
    rules of [Effects]. *)

From S2P Require Import Prelude OrdMap Event LinkTime ExecError Fel Dcqcn Tcp Model Image Roce.
From S2P Require Import TcpReceiver Sched TcpLedger StageIndex Transition TcpSend Stages HostSend.
From S2P Require Import HostTcp Pacing HostRoce HostReceive Effects.

(** ** What the pure helpers do to the sequence number *)

(** Two states of a host with the same next number. *)
Definition same_seq (state state' : HostState) : Prop :=
  hs_next_origin_seq state' = hs_next_origin_seq state.

Section pure.
Context (nd : NodeDescriptor).

Lemma allocate_payload_seq count state id state' :
  allocate_payload nd count state = Ok (id, state') -> same_seq state state'.
Proof. unfold allocate_payload. intros H. by invert_ok. Qed.

Lemma count_sourced_seq k state state' :
  count_sourced nd k state = Ok state' -> same_seq state state'.
Proof. unfold count_sourced. intros H. by invert_ok. Qed.

Lemma count_received_seq state state' :
  count_received nd state = Ok state' -> same_seq state state'.
Proof. unfold count_received. intros H. by invert_ok. Qed.

Lemma claim_ready_seq state ready state' :
  claim_ready state = (ready, state') -> same_seq state state'.
Proof. unfold claim_ready. intros H. by case_match; simplify_eq. Qed.

Lemma plan_retransmission_seq count flow now segment s s' :
  plan_retransmission nd count flow now segment s = Ok s' -> same_seq (fl_host s) (fl_host s').
Proof. unfold plan_retransmission. intros H. invert_ok; [by eapply allocate_payload_seq|done..]. Qed.

Lemma send_segment_seq count flow now size s s' :
  send_segment nd count flow now size s = Ok s' -> same_seq (fl_host s) (fl_host s').
Proof. unfold send_segment. intros H. invert_ok. by eapply allocate_payload_seq. Qed.

Lemma fill_window_seq count flow now fill s s' :
  fill_window nd count flow now fill s = Some (Ok s') -> same_seq (fl_host s) (fl_host s').
Proof.
  unfold fill_window. destruct fill; [|by intros [= <-]].
  destruct (wloop _ _ s) as [|r] eqn:E; intros [= ->].
  apply wloop_inr in E. remember (Ok s') as r eqn:Hr. revert Hr.
  induction E as [s r Hs|s s1 r Hs _ IH]; intros ->; unfold fill_step in Hs; case_match; simplify_eq.
  - done.
  - by case_match; simplify_eq.
  - case_match; simplify_eq. etrans; [by apply IH|]. by eapply send_segment_seq.
Qed.

Lemma complete_local_successors_seq state index completed completion causes r :
  complete_local_successors state index completed completion causes = Some r ->
  same_seq state r.1.1.
Proof.
  unfold complete_local_successors. intros H. invert_ok; [|done]. simpl.
  match goal with H : panic_fold _ _ _ = _ |- _ => revert H end.
  apply (panic_fold_ind (fun s => same_seq state (sp_state s))); [|done].
  intros s y s2 _ Hs. unfold complete_local_successor. intros Hx. invert_ok; done.
Qed.

Lemma record_inbound_progress_seq state index inbound progress id causes r :
  record_inbound_progress state index inbound progress id causes = Some (Ok r) ->
  same_seq state r.1.1.
Proof.
  unfold record_inbound_progress. intros H. invert_ok; [|done]. simpl.
  match goal with H : fueled_fold _ _ _ = _ |- _ => revert H end.
  apply (fueled_fold_ind (fun s => same_seq state (sp_state s))); [|done].
  intros s y s2 _ Hs. unfold record_inbound_successor. intros Hx. invert_ok; done.
Qed.
End pure.

(** Replaces a run of a pure helper by what it does to the sequence number. *)
Ltac pure_fact :=
  match goal with
  | H : allocate_payload _ _ _ = Ok _ |- _ => apply allocate_payload_seq in H
  | H : count_sourced _ _ _ = Ok _ |- _ => apply count_sourced_seq in H
  | H : count_received _ _ = Ok _ |- _ => apply count_received_seq in H
  | H : claim_ready _ = _ |- _ => apply claim_ready_seq in H
  | H : plan_retransmission _ _ _ _ _ _ = Ok _ |- _ => apply plan_retransmission_seq in H
  | H : fill_window _ _ _ _ _ _ = Some (Ok _) |- _ => apply fill_window_seq in H
  | H : complete_local_successors _ _ _ _ _ = Some _ |- _ =>
      apply complete_local_successors_seq in H
  | H : record_inbound_progress _ _ _ _ _ _ = Some (Ok _) |- _ =>
      apply record_inbound_progress_seq in H
  end.

Ltac pure_seq := repeat pure_fact; unfold same_seq in *; cbn in *; congruence.

Section pure_ticks.
Context (nd : NodeDescriptor).

Lemma constant_emission_seq count stop event pk state position generator r :
  constant_emission nd count stop event pk state position generator = Some (Ok r) ->
  same_seq state r.1.1.
Proof. unfold constant_emission. intros H. invert_ok; pure_seq. Qed.

Lemma pace_packet_seq pk state generator credit cost r :
  pace_packet nd pk state generator credit cost = Ok r -> same_seq state r.1.1.1.
Proof. unfold pace_packet. intros H. invert_ok; pure_seq. Qed.

Lemma pace_tick_seq count stop now pk state generator rate bps r :
  pace_tick nd count stop now pk state generator rate bps = Ok r -> same_seq state (pt_state r).
Proof.
  unfold pace_tick. intros H. invert_ok;
    match goal with H : pace_packet _ _ _ _ _ _ = _ |- _ => apply pace_packet_seq in H end;
    pure_seq.
Qed.

Lemma roce_send_seq count now flow state generator roce r :
  roce_send nd count now flow state generator roce = Ok r -> same_seq state r.1.1.1.1.
Proof. unfold roce_send. intros H. invert_ok; pure_seq. Qed.

Lemma roce_open_tick_seq count now stop flow state position generator roce r :
  roce_open_tick nd count now stop flow state position generator roce = Ok r ->
  same_seq state (rt_state r).
Proof.
  unfold roce_open_tick. intros H. invert_ok; cbn;
    try match goal with H : roce_send _ _ _ _ _ _ _ = _ |- _ => apply roce_send_seq in H end;
    pure_seq.
Qed.

Lemma roce_tick_seq image count event flow state position generator roce r :
  roce_tick nd image count event flow state position generator roce = Some (Ok r) ->
  same_seq state (rt_state r).
Proof.
  unfold roce_tick, join_parked. intros H. invert_ok; try done. by eapply roce_open_tick_seq.
Qed.

Lemma restart_parked_class_seq image now priority state r :
  restart_parked_class nd image now priority state = Some (Ok r) -> same_seq state r.1.
Proof.
  unfold restart_parked_class. intros H. destruct (hs_pfc state) as [pfc|]; [|done]. revert H.
  rewrite fueled_bind_Ok. intros (parked & _ & H). revert H.
  apply (fueled_fold_ind (fun s => same_seq state s.1)); [|done].
  intros s y s2 _ Hs. unfold restart_parked. intros Hx. invert_ok. done.
Qed.
End pure_ticks.

Ltac tick_fact :=
  match goal with
  | H : constant_emission _ _ _ _ _ _ _ _ = Some (Ok _) |- _ => apply constant_emission_seq in H
  | H : pace_tick _ _ _ _ _ _ _ _ _ = Ok _ |- _ => apply pace_tick_seq in H
  | H : roce_tick _ _ _ _ _ _ _ _ _ = Some (Ok _) |- _ => apply roce_tick_seq in H
  | H : restart_parked_class _ _ _ _ _ = Some (Ok _) |- _ => apply restart_parked_class_seq in H
  end.

Ltac seq_fact ::= (first [pure_fact | tick_fact]); unfold same_seq in *.

(** ** The host handlers *)

Section host_locality.
Context (nd : NodeDescriptor) (parent : Event) (Hk : nd_kind nd = Host).

Lemma emits_schedule_host_ready slot n id :
  emits nd slot parent n (schedule_host_ready nd parent id).
Proof. unfold schedule_host_ready. by effects. Qed.

Lemma keeps_set_segments slot n segments :
  keeps nd slot n (modify (fun s => s <| ts_tcp_sent_segments := segments |>)) (fun _ => True).
Proof. solve_modify. Qed.
#[local] Hint Resolve emits_schedule_host_ready keeps_set_segments : effects.

Lemma keeps_seed_tcp_segments slot n packets :
  keeps nd slot n (seed_tcp_segments packets) (fun _ => True).
Proof. unfold seed_tcp_segments. by effects. Qed.
#[local] Hint Resolve keeps_seed_tcp_segments : effects.

Lemma keeps_prepare_tcp_attempts slot n flow now retransmit fill preserve :
  keeps nd slot n (prepare_tcp_attempts nd flow now retransmit fill preserve) (fun _ => True).
Proof. unfold prepare_tcp_attempts. by effects. Qed.

Lemma emits_install_tcp_attempts slot n plan :
  emits nd slot parent n (install_tcp_attempts nd parent plan).
Proof. unfold install_tcp_attempts. by effects. Qed.

Lemma keeps_generator_parts slot n flow e :
  keeps nd slot n (generator_parts nd flow e)
    (fun p => n = Some (hs_next_origin_seq p.1.1.1)).
Proof. unfold generator_parts. by effects. Qed.

Lemma keeps_set_generator slot n state position generator :
  n = Some (hs_next_origin_seq state) ->
  keeps nd slot n (set_generator nd state position generator) (fun _ => True).
Proof. intros Hn. unfold set_generator. by effects. Qed.
#[local] Hint Resolve keeps_prepare_tcp_attempts emits_install_tcp_attempts
  keeps_generator_parts keeps_set_generator : effects.

(** *** Stages *)

Lemma emits_start_roce_stage slot n flow :
  emits nd slot parent n (start_roce_stage nd parent flow).
Proof. unfold start_roce_stage. by effects. Qed.

Lemma emits_start_compute_stage slot n flow duration size kind :
  emits nd slot parent n (start_compute_stage nd parent flow duration size kind).
Proof. unfold start_compute_stage. by effects. Qed.
#[local] Hint Resolve emits_start_roce_stage emits_start_compute_stage : effects.

Lemma emits_activate_wrapped_stage slot n flow :
  emits nd slot parent n (activate_wrapped_stage nd parent flow).
Proof. unfold activate_wrapped_stage. by effects. Qed.
#[local] Hint Resolve emits_activate_wrapped_stage : effects.

Lemma emits_activate_loop slot n fuel causes ordinal :
  emits nd slot parent n (activate_loop fuel nd parent causes ordinal).
Proof.
  revert n causes ordinal. induction fuel as [|fuel IH]; intros n causes ordinal; simpl;
    [intros c a c' _ Hr; done|]. by effects.
Qed.
#[local] Hint Resolve emits_activate_loop : effects.

Lemma emits_release_stages slot n causes :
  emits nd slot parent n (release_stages nd parent causes).
Proof. unfold release_stages, activate_ready_collectives. by effects. Qed.
#[local] Hint Resolve emits_release_stages : effects.

Lemma keeps_complete_stage slot n flow ack origin data_bytes ack_bytes :
  keeps nd slot n (complete_stage nd flow ack origin data_bytes ack_bytes) (fun _ => True).
Proof. unfold complete_stage. by effects. Qed.
#[local] Hint Resolve keeps_complete_stage : effects.

(** *** Sends *)

Lemma emits_host_preloaded_packet_arrival slot n :
  emits nd slot parent n (host_preloaded_packet_arrival nd parent).
Proof. unfold host_preloaded_packet_arrival. by effects. Qed.

Lemma emits_host_tcp_initial_send slot n pk header :
  emits nd slot parent n (host_tcp_initial_send nd parent pk header).
Proof. unfold host_tcp_initial_send. by effects. Qed.
#[local] Hint Resolve emits_host_preloaded_packet_arrival emits_host_tcp_initial_send : effects.

Lemma emits_host_packet_arrival slot n :
  emits nd slot parent n (host_packet_arrival nd parent).
Proof. unfold host_packet_arrival. by effects. Qed.

Lemma emits_host_compute_timer slot n flow :
  emits nd slot parent n (host_compute_timer nd parent flow).
Proof. unfold host_compute_timer. by effects. Qed.

Lemma emits_host_notify_timer slot n flow :
  emits nd slot parent n (host_notify_timer nd parent flow).
Proof. unfold host_notify_timer. by effects. Qed.

Lemma emits_host_notify_arrival slot n pk :
  emits nd slot parent n (host_notify_arrival nd parent pk).
Proof. unfold host_notify_arrival. by effects. Qed.

Lemma keeps_host_pfc_search slot n pfc position queue :
  keeps nd slot n (host_pfc_search pfc position queue) (fun _ => True).
Proof. revert position. induction queue as [|id queue IH]; intros position; simpl; by effects. Qed.
#[local] Hint Resolve keeps_host_pfc_search : effects.

Lemma keeps_host_pfc_first_eligible slot n :
  keeps nd slot n (host_pfc_first_eligible nd) (fun _ => True).
Proof. unfold host_pfc_first_eligible. by effects. Qed.
#[local] Hint Resolve keeps_host_pfc_first_eligible : effects.

Lemma keeps_host_pfc_start_eligible slot n :
  keeps nd slot n (host_pfc_start_eligible nd) (fun _ => True).
Proof. unfold host_pfc_start_eligible. by effects. Qed.

Lemma keeps_host_pfc_claim_ready slot n :
  keeps nd slot n (host_pfc_claim_ready nd) (fun _ => True).
Proof. unfold host_pfc_claim_ready. by effects. Qed.
#[local] Hint Resolve keeps_host_pfc_start_eligible keeps_host_pfc_claim_ready : effects.

Lemma keeps_host_start_service slot n :
  keeps nd slot n (host_start_service nd) (fun _ => True).
Proof. unfold host_start_service. by effects. Qed.
#[local] Hint Resolve keeps_host_start_service : effects.

Lemma emits_host_tx_ready slot n : emits nd slot parent n (host_tx_ready nd parent).
Proof. unfold host_tx_ready. by effects. Qed.

Lemma emits_host_tx_complete slot n : emits nd slot parent n (host_tx_complete nd parent).
Proof. unfold host_tx_complete. by effects. Qed.
#[local] Hint Resolve emits_host_compute_timer emits_host_notify_timer
  emits_host_notify_arrival : effects.

(** *** TCP *)

Lemma emits_host_tcp_data_arrival slot n pk header :
  emits nd slot parent n (host_tcp_data_arrival nd parent pk header).
Proof. unfold host_tcp_data_arrival. by effects. Qed.

Lemma keeps_acknowledge_tcp_segments slot n flow ack :
  keeps nd slot n (acknowledge_tcp_segments flow ack) (fun _ => True).
Proof. unfold acknowledge_tcp_segments. by effects. Qed.
#[local] Hint Resolve keeps_acknowledge_tcp_segments : effects.

Lemma emits_host_tcp_ack_arrival slot n pk header :
  emits nd slot parent n (host_tcp_ack_arrival nd parent pk header).
Proof. unfold host_tcp_ack_arrival. by effects. Qed.

Lemma emits_tcp_retransmission_timeout slot n state position generator tcp timer :
  n = Some (hs_next_origin_seq state) ->
  emits nd slot parent n
    (tcp_retransmission_timeout nd parent state position generator tcp timer).
Proof. intros Hn. unfold tcp_retransmission_timeout. by effects. Qed.
#[local] Hint Resolve emits_host_tcp_data_arrival emits_host_tcp_ack_arrival
  emits_tcp_retransmission_timeout : effects.

(** *** Rates and DCQCN *)

Lemma emits_finish_tick slot n pk tick : emits nd slot parent n (finish_tick nd parent pk tick).
Proof. unfold finish_tick. by effects. Qed.
#[local] Hint Resolve emits_finish_tick : effects.

Lemma emits_host_rate_timer slot n pk : emits nd slot parent n (host_rate_timer nd parent pk).
Proof. unfold host_rate_timer. by effects. Qed.

Lemma emits_host_dcqcn_pacing_timer slot n pk :
  emits nd slot parent n (host_dcqcn_pacing_timer nd parent pk).
Proof. unfold host_dcqcn_pacing_timer. by effects. Qed.

Lemma emits_host_dcqcn_data_arrival slot n pk :
  emits nd slot parent n (host_dcqcn_data_arrival nd parent pk).
Proof. unfold host_dcqcn_data_arrival. by effects. Qed.

Lemma emits_host_dcqcn_cnp_arrival slot n pk :
  emits nd slot parent n (host_dcqcn_cnp_arrival nd parent pk).
Proof. unfold host_dcqcn_cnp_arrival. by effects. Qed.
#[local] Hint Resolve emits_host_rate_timer emits_host_dcqcn_pacing_timer
  emits_host_dcqcn_data_arrival emits_host_dcqcn_cnp_arrival : effects.

(** *** RoCE *)

Lemma emits_roce_timers slot n token tick timer :
  emits nd slot parent n (emit_roce_timers nd parent token tick timer).
Proof. unfold emit_roce_timers. by effects. Qed.
#[local] Hint Resolve emits_roce_timers : effects.

Lemma emits_host_roce_pacing_timer slot n pk :
  emits nd slot parent n (host_roce_pacing_timer nd parent pk).
Proof. unfold host_roce_pacing_timer. by effects. Qed.

Lemma emits_host_roce_feedback_arrival slot n pk header nack :
  emits nd slot parent n (host_roce_feedback_arrival nd parent pk header nack).
Proof. unfold host_roce_feedback_arrival. by effects. Qed.

Lemma emits_host_roce_timeout slot n : emits nd slot parent n (host_roce_timeout nd parent).
Proof. unfold host_roce_timeout. by effects. Qed.

Lemma emits_host_roce_data_arrival slot n pk header :
  emits nd slot parent n (host_roce_data_arrival nd parent pk header).
Proof. unfold host_roce_data_arrival. by effects. Qed.
#[local] Hint Resolve emits_host_roce_pacing_timer emits_host_roce_feedback_arrival
  emits_host_roce_timeout emits_host_roce_data_arrival : effects.

(** *** Routing *)

Lemma keeps_host_pfc_ready slot n : keeps nd slot n (host_pfc_ready nd) (fun _ => True).
Proof. unfold host_pfc_ready. by effects. Qed.
#[local] Hint Resolve keeps_host_pfc_ready : effects.

Lemma emits_host_pfc_remote_arrival slot n header :
  emits nd slot parent n (host_pfc_remote_arrival nd parent header).
Proof. unfold host_pfc_remote_arrival. by effects. Qed.

Lemma emits_feedback_driven_packet slot n flow size :
  emits nd slot parent n (emit_feedback_driven_packet nd parent flow size).
Proof. unfold emit_feedback_driven_packet. by effects. Qed.
#[local] Hint Resolve emits_host_pfc_remote_arrival emits_feedback_driven_packet : effects.

Lemma emits_host_plain_arrival slot n pk descriptor :
  emits nd slot parent n (host_plain_arrival nd parent pk descriptor).
Proof. unfold host_plain_arrival. by effects. Qed.
#[local] Hint Resolve emits_host_plain_arrival : effects.

Lemma emits_host_remote_arrival slot n : emits nd slot parent n (host_remote_arrival nd parent).
Proof. unfold host_remote_arrival. by effects. Qed.

Lemma emits_host_pacing_timer slot n : emits nd slot parent n (host_pacing_timer nd parent).
Proof. unfold host_pacing_timer. by effects. Qed.

Lemma emits_host_retransmission_timeout slot n :
  emits nd slot parent n (host_retransmission_timeout nd parent).
Proof. unfold host_retransmission_timeout. by effects. Qed.
End host_locality.
