(* ===== verification/Validate.v ===== *)
(** * Structural image validation (executor/src/validate.rs)

    The checks [validate] makes first: dense node, link and flow tables,
    ascending packet identities, canonical stage tables, one owner per node
    state, and links between known nodes; and the check that every node's
    sequence is past the events it has already numbered. An error carries what
    its message prints. *)

From S2P Require Import Prelude OrdMap Event Model Image Sched.

(** What the checks of a switch queue find. *)
Inductive QueueFault :=
| ByteDepthOverflow
| RampPolicy (reason : string)
| RampDepth (queued_bytes capacity : Z)
| SpNoClass
| SpNotDescending (payload : PayloadId)
| WfqNoClass
| WfqZeroWeight (class : nat)
| WfqLengths (classes : nat)
| WfqPastFrontier (last_updated_ns frontier : Z)
| WfqTagsNotActive
| WfqActiveOverflow (class : nat)
| WfqActiveMismatch (active expected : list Z)
| WfqIdleClock
| WfqTagNotPositive (payload : PayloadId)
| WfqTagBeyondClass (payload : PayloadId) (class : nat)
| WfqNotOrdered (payload : PayloadId)
| WfqClassNotMaximum (class : nat)
| WfqClassNotInService (class : nat) (payload : PayloadId)
| WfqTotalWeight (total : Z)
| WfqRationalBits (bits : Z)
| WfqNotReduced
| DrrShape
| DrrDeficitOverflow (class : nat) (maximum_frame : Z)
| WrrShape
| CapacityBeyondBackend (capacity limit : Z)
| QueueBeyondCapacity (length capacity : Z)
| QueueWithoutEgress
| QueueDuplicateEgress (egress : LinkId)
| QueueEgressOwnedBy (first : NodeId) (egress : LinkId)
| QueueUnknownEgress (egress : LinkId)
| QueueEgressSource (egress : LinkId) (source : NodeId)
| QueueServiceAndReady
| QueueReadyEmpty
| QueueNotWoken.

(** What the checks of a host's egress find. *)
Inductive HostFault :=
| HostUnknownEgress (egress : LinkId)
| HostEgressSource (egress : LinkId) (source : NodeId)
| HostServiceAndReady
| HostReadyEmpty
| HostNotWoken.

Inductive ValidationError :=
| DuplicateNodeId (id : NodeId) (index : nat)
| NodeIdOutsideRange (id : NodeId) (index : nat)
| NodeIdMismatch (id : NodeId) (index : nat)
| DuplicateLinkId (id : LinkId) (index : nat)
| LinkIdOutsideRange (id : LinkId) (index : nat)
| LinkIdMismatch (id : LinkId) (index : nat)
| DuplicateFlowId (id : FlowId) (index : nat)
| FlowIdOutsideRange (id : FlowId) (index : nat)
| FlowIdMismatch (id : FlowId) (index : nat)
| DuplicatePacketId (id : PayloadId) (index : nat)
| PacketIdNotAdvancing (id : PayloadId) (index : nat) (previous : PayloadId)
| StageTableWithoutStage (slot : nat)
| StageTableLength (slot : nat) (stages generators : nat)
| InvalidSlot (node : NodeDescriptor) (arena_len : nat)
| SlotOwnedTwice (kind : NodeKind) (slot : Z) (first second : NodeId)
| SlotWithoutOwner (kind : NodeKind) (slot : nat)
| LinkUnknownSource (id : LinkId) (source : NodeId)
| LinkUnknownTarget (id : LinkId) (target : NodeId)
| LinkZeroRate (id : LinkId)
| SequenceNotAdvancing (node : NodeId) (next existing : Z)
| DuplicateInitialKey (key : EventKey) (index : nat)
| InitialKeyNotAdvancing (key : EventKey) (index : nat) (previous : EventKey)
| UnknownOrigin (index : nat) (origin : NodeId)
| UnknownTarget (index : nat) (target : NodeId)
| NoncanonicalPhase (index : nat) (phase : Z) (kind : EventKind)
| UnsupportedEvent (index : nat) (target : NodeDescriptor) (kind : EventKind)
| TimeoutNotOwned (index : nat)
| InQueue (owner : NodeId) (queue_index : nat) (fault : QueueFault)
| InHost (owner : NodeId) (fault : HostFault)
| TooManyQueues (owner : NodeId) (queues : nat)
| UnknownServicePacket (owner : NodeId) (payload : PayloadId)
| WrongServiceEgress (owner : NodeId) (payload : PayloadId) (actual : option LinkId)
    (expected : LinkId)
| EmissionNotOwned (owner : NodeId) (link : LinkId)
| GeneratorBytes (flow : FlowId) (bytes_emitted : Z)
| GeneratorOverflow (flow : FlowId)
| ReadyCount (owner : NodeId) (egress : option LinkId) (pending : bool) (ready_count : Z)
| CompletionMismatch (owner : NodeId) (egress : option LinkId) (in_service : option PayloadId)
    (completions : list PayloadId)
| PayloadOwnedTwice (payload : PayloadId) (first second : NodeId)
| ArrivalIsMutable (payload : PayloadId) (owner : NodeId)
| EventUnknownPacket (index : nat) (payload : PayloadId)
| ServiceOrigin (index : nat) (origin target : NodeId)
| ServiceNotOwned (index : nat) (target : NodeId) (payload : PayloadId)
| StartNotOnRoute (index : nat) (payload : PayloadId) (start : NodeId)
| RouteTimeOverflow (index : nat) (payload : PayloadId) (time_ns remaining : Z).

(** A loop over a table with the positions of its entries. *)
Fixpoint each_indexed {A} (check : nat -> A -> result ValidationError unit) (index : nat)
    (l : list A) : result ValidationError unit :=
  match l with
  | [] => Ok tt
  | x :: l => _ ← check index x; each_indexed check (S index) l
  end.

(** ** Identifiers *)

Definition check_node_id (count : Z) (index : nat) (node : NodeDescriptor)
  : result ValidationError unit :=
  if nd_id node <? Z.of_nat index then Err (DuplicateNodeId (nd_id node) index)
  else if count <=? nd_id node then Err (NodeIdOutsideRange (nd_id node) index)
  else if negb (nd_id node =? Z.of_nat index) then Err (NodeIdMismatch (nd_id node) index)
  else Ok tt.

Definition validate_node_ids (image : SimulationImage) : result ValidationError unit :=
  each_indexed (check_node_id (Z.of_nat (length (im_nodes image)))) 0 (im_nodes image).

(** The body of the loops over the links and the flows, which keep the
    identifiers seen; the errors are those of the table. *)
Definition check_dense_id (duplicate outside mismatch : Z -> nat -> ValidationError) (count : Z)
    (seen : bset Z) (index : nat) (id : Z) : result ValidationError (bset Z) :=
  let '(fresh, seen) := bs_insert id seen in
  if negb fresh then Err (duplicate id index)
  else if count <=? id then Err (outside id index)
  else if negb (id =? Z.of_nat index) then Err (mismatch id index)
  else Ok seen.

Definition validate_dense_ids (duplicate outside mismatch : Z -> nat -> ValidationError)
    (ids : list Z) : result ValidationError unit :=
  _ ← try_fold (fun seen '(index, id) =>
        check_dense_id duplicate outside mismatch (Z.of_nat (length ids)) seen index id)
      [] (imap pair ids);
  Ok tt.

Definition validate_link_ids (image : SimulationImage) : result ValidationError unit :=
  validate_dense_ids DuplicateLinkId LinkIdOutsideRange LinkIdMismatch (lk_id <$> im_links image).

Definition validate_flow_ids (image : SimulationImage) : result ValidationError unit :=
  validate_dense_ids DuplicateFlowId FlowIdOutsideRange FlowIdMismatch (fd_id <$> im_flows image).

(** The identifiers seen, and the previous one. *)
Definition check_packet_id (s : bset PayloadId * option PayloadId) (entry : nat * PacketDescriptor)
  : result ValidationError (bset PayloadId * option PayloadId) :=
  let '(seen, previous) := s in
  let '(index, packet) := entry in
  let '(fresh, seen) := bs_insert (pk_id packet) seen in
  if negb fresh then Err (DuplicatePacketId (pk_id packet) index)
  else
    match previous with
    | Some previous =>
        if pk_id packet <=? previous then Err (PacketIdNotAdvancing (pk_id packet) index previous)
        else Ok (seen, Some (pk_id packet))
    | None => Ok (seen, Some (pk_id packet))
    end.

Definition validate_packet_ids (image : SimulationImage) : result ValidationError unit :=
  _ ← try_fold check_packet_id ([], None) (imap pair (im_initial_packets image));
  Ok tt.

(** ** Stage tables *)

Definition stages_are_canonical (state : HostState) : bool :=
  bool_decide (hs_stages state = [])
  || ((length (hs_stages state) =? length (hs_generators state))%nat
      && existsb (fun stage => bool_decide (is_Some stage)) (hs_stages state)).

Definition check_stage_table (slot : nat) (state : HostState) : result ValidationError unit :=
  if stages_are_canonical state then Ok tt
  else if (length (hs_stages state) =? length (hs_generators state))%nat
  then Err (StageTableWithoutStage slot)
  else Err (StageTableLength slot (length (hs_stages state)) (length (hs_generators state))).

Definition validate_stage_tables (image : SimulationImage) : result ValidationError unit :=
  each_indexed check_stage_table 0 (im_host_states image).

(** ** Ownership of node states *)

(** The owners of the host and of the switch states. *)
Record Owners := mkOwners {
  ow_hosts : list (option NodeId);
  ow_switches : list (option NodeId);
}.

Definition owners_of (kind : NodeKind) (o : Owners) : list (option NodeId) :=
  match kind with Host => ow_hosts o | Switch => ow_switches o end.

Definition set_owner (node : NodeDescriptor) (o : Owners) : Owners :=
  let slot := Z.to_nat (nd_state_slot node) in
  match nd_kind node with
  | Host => mkOwners (<[slot := Some (nd_id node)]> (ow_hosts o)) (ow_switches o)
  | Switch => mkOwners (ow_hosts o) (<[slot := Some (nd_id node)]> (ow_switches o))
  end.

Definition own_slot (o : Owners) (node : NodeDescriptor) : result ValidationError Owners :=
  let owners := owners_of (nd_kind node) o in
  match owners !! Z.to_nat (nd_state_slot node) with
  | None => Err (InvalidSlot node (length owners))
  | Some (Some first) =>
      Err (SlotOwnedTwice (nd_kind node) (nd_state_slot node) first (nd_id node))
  | Some None => Ok (set_owner node o)
  end.

(** [iter().position(Option::is_none)]. *)
Definition unowned (owners : list (option NodeId)) : option nat :=
  find_position (fun owner => bool_decide (owner = None)) owners.

Definition validate_state_ownership (image : SimulationImage) : result ValidationError unit :=
  o ← try_fold own_slot
        (mkOwners (replicate (length (im_host_states image)) None)
                  (replicate (length (im_switch_states image)) None)) (im_nodes image);
  match unowned (ow_hosts o) with
  | Some slot => Err (SlotWithoutOwner Host slot)
  | None =>
      match unowned (ow_switches o) with
      | Some slot => Err (SlotWithoutOwner Switch slot)
      | None => Ok tt
      end
  end.

(** ** Links *)

(** A node by its dense identifier. *)
Definition validated_node (image : SimulationImage) (id : NodeId) : option NodeDescriptor :=
  node ← im_nodes image !! Z.to_nat id;
  if nd_id node =? id then Some node else None.

Definition check_link (image : SimulationImage) (link : LinkDescriptor)
  : result ValidationError unit :=
  if bool_decide (validated_node image (lk_source link) = None)
  then Err (LinkUnknownSource (lk_id link) (lk_source link))
  else if bool_decide (validated_node image (lk_target link) = None)
  then Err (LinkUnknownTarget (lk_id link) (lk_target link))
  else if lk_rate_bps link =? 0 then Err (LinkZeroRate (lk_id link))
  else Ok tt.

Definition validate_links (image : SimulationImage) : result ValidationError unit :=
  each_indexed (fun _ => check_link image) 0 (im_links image).

(** The structural checks, in the order [validate] makes them. *)
Definition validate_structure (image : SimulationImage) : result ValidationError unit :=
  _ ← validate_node_ids image;
  _ ← validate_link_ids image;
  _ ← validate_flow_ids image;
  _ ← validate_packet_ids image;
  _ ← validate_stage_tables image;
  _ ← validate_state_ownership image;
  validate_links image.

(** ** Origin sequences *)

(** The largest number each node has given to an initial event. *)
Definition maximum_sequences (events : list Event) : bmap NodeId Z :=
  foldl (fun maximum event =>
    let value := match bm_get (origin_node (key event)) maximum with
                 | Some value => Z.max value (origin_seq (key event))
                 | None => origin_seq (key event)
                 end in
    bm_insert (origin_node (key event)) value maximum) [] events.

(** The node's next number; [None] is the panic of a slot outside its table. *)
Definition next_origin_seq (image : SimulationImage) (node : NodeDescriptor) : option Z :=
  match nd_kind node with
  | Host => hs_next_origin_seq <$> im_host_states image !! Z.to_nat (nd_state_slot node)
  | Switch => sw_next_origin_seq <$> im_switch_states image !! Z.to_nat (nd_state_slot node)
  end.

(** The first check [validate_origin_sequences] makes of each node: its next
    number is past its initial events. *)
Definition sequence_advances (image : SimulationImage) (maximum : bmap NodeId Z)
    (node : NodeDescriptor) : fueled ValidationError unit :=
  next ← or_panic (next_origin_seq image node);
  match bm_get (nd_id node) maximum with
  | Some existing =>
      if next <=? existing then Some (Err (SequenceNotAdvancing (nd_id node) next existing))
      else Some (Ok tt)
  | None => Some (Ok tt)
  end.

Definition validate_sequences_advance (image : SimulationImage) : fueled ValidationError unit :=
  fueled_fold (fun _ node =>
    sequence_advances image (maximum_sequences (im_initial_events image)) node) tt
    (im_nodes image).

(** ** Initial events *)

(** What [validate_events] checks of every initial event before it looks at the
    event's packet: keys ascend, origin and target are nodes, the phase is the
    kind's, the target handles the kind, and a timeout is its host's own. *)
Definition check_event_owner (image : SimulationImage) (index : nat) (event : Event)
  : result ValidationError unit :=
  origin ← ok_or (validated_node image (origin_node (key event)))
             (UnknownOrigin index (origin_node (key event)));
  target ← ok_or (validated_node image (target event)) (UnknownTarget index (target event));
  if negb (phase (key event) =? event_phase (kind event))
  then Err (NoncanonicalPhase index (phase (key event)) (kind event))
  else if bool_decide (resolve_transition (nd_kind target) (kind event) = None)
  then Err (UnsupportedEvent index target (kind event))
  else if bool_decide (kind event = RetransmissionTimeout)
          && (negb (nd_id origin =? nd_id target) || negb (bool_decide (nd_kind target = Host)))
  then Err (TimeoutNotOwned index)
  else Ok tt.

(** The keys seen, and the previous one. *)
Definition check_event (image : SimulationImage) (s : bset EventKey * option EventKey)
    (entry : nat * Event) : result ValidationError (bset EventKey * option EventKey) :=
  let '(keys, previous) := s in
  let '(index, event) := entry in
  let '(fresh, keys) := bs_insert (key event) keys in
  if negb fresh then Err (DuplicateInitialKey (key event) index)
  else
    _ ← match previous with
        | Some previous =>
            if kleb (key event) previous
            then Err (InitialKeyNotAdvancing (key event) index previous) else Ok tt
        | None => Ok tt
        end;
    _ ← check_event_owner image index event;
    Ok (keys, Some (key event)).

Definition validate_event_owners (image : SimulationImage) : result ValidationError unit :=
  _ ← try_fold (check_event image) ([], None) (imap pair (im_initial_events image));
  Ok tt.

(** ** What the checks establish *)

(** The state slots of the nodes of a kind. *)
Definition slots_of (kind : NodeKind) (nodes : list NodeDescriptor) : list nat :=
  (Z.to_nat ∘ nd_state_slot) <$> filter (fun node => nd_kind node = kind) nodes.

Record structure_ok (image : SimulationImage) : Prop := {
  so_nodes : forall i node, im_nodes image !! i = Some node -> nd_id node = Z.of_nat i;
  so_links : forall i link, im_links image !! i = Some link -> lk_id link = Z.of_nat i;
  so_flows : forall i flow, im_flows image !! i = Some flow -> fd_id flow = Z.of_nat i;
  so_packets : StronglySorted Z.lt (pk_id <$> im_initial_packets image);
  so_stages : forall state, state ∈ im_host_states image ->
    hs_stages state = [] \/ length (hs_stages state) = length (hs_generators state)
      /\ exists stage, Some stage ∈ hs_stages state;
  so_hosts : slots_of Host (im_nodes image) ≡ₚ seq 0 (length (im_host_states image));
  so_switches : slots_of Switch (im_nodes image) ≡ₚ seq 0 (length (im_switch_states image));
  so_ends : forall link, link ∈ im_links image ->
    (exists node, node ∈ im_nodes image /\ nd_id node = lk_source link)
    /\ (exists node, node ∈ im_nodes image /\ nd_id node = lk_target link)
    /\ lk_rate_bps link <> 0;
}.

Lemma each_indexed_Ok {A} (check : nat -> A -> result ValidationError unit) index l :
  each_indexed check index l = Ok tt
  <-> forall i x, l !! i = Some x -> check (index + i)%nat x = Ok tt.
Proof.
  revert index. induction l as [|x l IH]; intros index; simpl; [done|].
  rewrite bind_Ok. split.
  - intros ([] & Hx & Hl) [|i] y Hy; simpl in Hy.
    + injection Hy as <-. by rewrite Nat.add_0_r.
    + replace (index + S i)%nat with (S index + i)%nat by lia. by apply (proj1 (IH (S index))).
  - intros Hall. exists tt. split.
    + specialize (Hall 0%nat x eq_refl). by rewrite Nat.add_0_r in Hall.
    + apply IH. intros i y Hy. replace (S index + i)%nat with (index + S i)%nat by lia. by apply Hall.
Qed.

Lemma validate_node_ids_Ok image : validate_node_ids image = Ok tt
  <-> forall i node, im_nodes image !! i = Some node -> nd_id node = Z.of_nat i.
Proof.
  unfold validate_node_ids. rewrite each_indexed_Ok. simpl.
  split; intros H i node Hi; specialize (H i node Hi); pose proof (lookup_lt_Some _ _ _ Hi);
    unfold check_node_id in *.
  - repeat case_match; try done; lia.
  - rewrite H. repeat case_match; try done; lia.
Qed.

(** The identifiers seen are those of the positions before. *)
Lemma dense_ids_fold duplicate outside mismatch count seen (k : nat) (ids : list Z) :
  (forall x, x ∈ seen -> x < Z.of_nat k) -> Z.of_nat k + Z.of_nat (length ids) <= count ->
  (exists r, try_fold (fun seen '(index, id) =>
       check_dense_id duplicate outside mismatch count seen index id) seen
       (imap (fun i id => (k + i, id)%nat) ids) = Ok r)
  <-> forall i id, ids !! i = Some id -> id = Z.of_nat (k + i).
Proof.
  revert k seen. induction ids as [|id ids IH]; intros k seen Hseen Hc; simpl; [split; [done|eauto]|].
  assert (Himap : imap ((fun i id => (k + i, id)%nat) ∘ S) ids
                  = imap (fun i id => (S k + i, id)%nat) ids).
  { apply imap_ext. intros i x _. simpl. f_equal. lia. }
  rewrite Himap. rewrite Nat.add_0_r. simpl in Hc.
  assert (Hstep : forall r, check_dense_id duplicate outside mismatch count seen k id = Ok r
            <-> id = Z.of_nat k /\ r = bs_add id seen).
  { intros r. unfold check_dense_id, bs_insert. rewrite negb_involutive.
    destruct (bs_contains id seen) eqn:Hin.
    - split; [done|]. intros [-> _]. apply bs_contains_spec, Hseen in Hin. lia.
    - repeat case_match; split; try done; try (intros [? ?]; lia); [intros [= <-]; split; [lia|done]|].
      by intros [_ ->]. }
  assert (Hnext : forall x, x ∈ bs_add (Z.of_nat k) seen -> x < Z.of_nat (S k)).
  { intros x [->|Hx%Hseen]%bs_add_elem_of; lia. }
  split.
  - intros (r & (seen' & [-> ->]%Hstep & Hr)%bind_Ok) [|i] x Hx; simpl in Hx; [naive_solver lia|].
    replace (k + S i)%nat with (S k + i)%nat by lia.
    apply (proj1 (IH (S k) _ Hnext ltac:(lia))); [by exists r|done].
  - intros Hall. pose proof (Hall 0%nat id eq_refl) as Hid. rewrite Nat.add_0_r in Hid.
    destruct (proj2 (IH (S k) _ Hnext ltac:(lia))) as [r Hr].
    { intros i x Hx. replace (S k + i)%nat with (k + S i)%nat by lia. by apply Hall. }
    exists r. apply bind_Ok. eexists. split; [apply Hstep; split; [done|reflexivity]|].
    by rewrite Hid.
Qed.

Lemma validate_dense_ids_Ok duplicate outside mismatch ids :
  validate_dense_ids duplicate outside mismatch ids = Ok tt
  <-> forall i id, ids !! i = Some id -> id = Z.of_nat i.
Proof.
  unfold validate_dense_ids. rewrite bind_Ok.
  pose proof (dense_ids_fold duplicate outside mismatch (Z.of_nat (length ids)) [] 0 ids) as H.
  rewrite <- H by (simpl; first [lia|set_solver]). naive_solver.
Qed.

Lemma packet_ids_fold seen previous (entries : list (nat * PacketDescriptor)) :
  (forall x, x ∈ seen -> exists p, previous = Some p /\ x <= p) ->
  (exists r, try_fold check_packet_id (seen, previous) entries = Ok r)
  <-> StronglySorted Z.lt ((pk_id ∘ snd) <$> entries)
      /\ forall p x, previous = Some p -> x ∈ (pk_id ∘ snd) <$> entries -> p < x.
Proof.
  revert seen previous. induction entries as [|[index packet] entries IH];
    intros seen previous Hseen; simpl.
  { split; [|eauto]. split; [constructor|by intros ? ? ? ?%not_elem_of_nil]. }
  set (id := pk_id packet).
  assert (Hstep : forall r, check_packet_id (seen, previous) (index, packet) = Ok r
            <-> (forall p, previous = Some p -> p < id) /\ r = (bs_add id seen, Some id)).
  { intros r. unfold check_packet_id, bs_insert. rewrite negb_involutive. fold id.
    destruct (bs_contains id seen) eqn:Hin.
    - split; [done|]. intros [Hp _]. apply bs_contains_spec, Hseen in Hin as (p & -> & ?).
      specialize (Hp p eq_refl). lia.
    - destruct previous as [p|]; [case_match|]; split; try done.
      + intros [Hp _]. specialize (Hp p eq_refl). lia.
      + intros [= <-]. split; [|done]. intros ? [= <-]. lia.
      + by intros [_ ->].
      + by intros [= <-].
      + by intros [_ ->]. }
  assert (Hnext : (forall p, previous = Some p -> p < id) ->
            forall x, x ∈ bs_add id seen -> exists p, Some id = Some p /\ x <= p).
  { intros Hp x [->|(p & -> & ?)%Hseen]%bs_add_elem_of; exists id; split; [done|lia|done|].
    specialize (Hp p eq_refl). lia. }
  split.
  - intros (r & (s' & [Hp ->]%Hstep & Hr)%bind_Ok).
    destruct (proj1 (IH _ _ (Hnext Hp)) (ex_intro _ r Hr)) as [Hs Ha]. split.
    + constructor; [done|]. apply Forall_forall. intros x Hx. by apply (Ha id).
    + intros p x Hpx [->|Hx]%elem_of_cons; [by apply Hp|].
      specialize (Hp p Hpx). specialize (Ha id x eq_refl Hx). lia.
  - intros [[Hs Hall]%StronglySorted_inv Ha]. rewrite Forall_forall in Hall.
    assert (Hp : forall p, previous = Some p -> p < id) by (intros; apply Ha; [done|left]).
    destruct (proj2 (IH _ _ (Hnext Hp))) as [r Hr].
    { split; [done|]. intros p x [= <-] Hx. by apply Hall. }
    exists r. apply bind_Ok. eexists. split; [by apply Hstep|exact Hr].
Qed.

Lemma validate_packet_ids_Ok image : validate_packet_ids image = Ok tt
  <-> StronglySorted Z.lt (pk_id <$> im_initial_packets image).
Proof.
  unfold validate_packet_ids. rewrite bind_Ok.
  pose proof (packet_ids_fold [] None (imap pair (im_initial_packets image))) as H.
  assert (Hids : (pk_id ∘ snd) <$> imap pair (im_initial_packets image)
                 = pk_id <$> im_initial_packets image).
  { rewrite fmap_imap. apply imap_const. }
  rewrite Hids in H.
  naive_solver set_solver.
Qed.

(** Stage tables *)
Lemma validate_stage_tables_Ok image : validate_stage_tables image = Ok tt
  <-> forall state, state ∈ im_host_states image ->
        hs_stages state = [] \/ length (hs_stages state) = length (hs_generators state)
          /\ exists stage, Some stage ∈ hs_stages state.
Proof.
  unfold validate_stage_tables. rewrite each_indexed_Ok.
  assert (Hs : forall slot state, check_stage_table slot state = Ok tt <->
    hs_stages state = [] \/ length (hs_stages state) = length (hs_generators state)
      /\ exists stage, Some stage ∈ hs_stages state).
  { intros slot state. unfold check_stage_table, stages_are_canonical.
    assert (He : existsb (fun stage => bool_decide (is_Some stage)) (hs_stages state) = true
      <-> exists stage, Some stage ∈ hs_stages state).
    { rewrite existsb_exists. setoid_rewrite bool_decide_eq_true. setoid_rewrite <- list_elem_of_In.
      split; [intros (? & ? & [? ->]); eauto|intros [? ?]; eauto]. }
    rewrite <- He. case_bool_decide as Hn; simpl; [by split; [left|]|].
    destruct (Nat.eqb_spec (length (hs_stages state)) (length (hs_generators state))) as [Hl|Hl];
      simpl; [|split; [done|tauto]].
    destruct (existsb _ _); simpl; split; try done; [auto|]. intros [?|[_ ?]]; done. }
  setoid_rewrite Hs. setoid_rewrite list_elem_of_lookup. naive_solver.
Qed.

(** *** Ownership *)

Lemma owners_set_owner kind node o : nd_kind node = kind ->
  owners_of kind (set_owner node o) = <[Z.to_nat (nd_state_slot node) := Some (nd_id node)]>
    (owners_of kind o).
Proof. intros <-. unfold owners_of, set_owner. by destruct (nd_kind node). Qed.

Lemma owners_set_owner_ne kind node o :
  nd_kind node <> kind -> owners_of kind (set_owner node o) = owners_of kind o.
Proof. unfold owners_of, set_owner. by destruct kind, (nd_kind node). Qed.

Lemma NoDup_fmap_inj {A B} (f : A -> B) l x y :
  NoDup (f <$> l) -> x ∈ l -> y ∈ l -> f x = f y -> x = y.
Proof.
  intros Hnd [i Hi]%list_elem_of_lookup [j Hj]%list_elem_of_lookup Hf.
  assert (Hij : i = j).
  { apply (NoDup_lookup (f <$> l) i j (f x) Hnd); rewrite list_lookup_fmap.
    - by rewrite Hi.
    - by rewrite Hj, Hf. }
  subst j. congruence.
Qed.

Lemma slots_of_app kind l1 l2 : slots_of kind (l1 ++ l2) = slots_of kind l1 ++ slots_of kind l2.
Proof. unfold slots_of. by rewrite filter_app, fmap_app. Qed.

Lemma slots_of_one kind node : slots_of kind [node]
  = if decide (nd_kind node = kind) then [Z.to_nat (nd_state_slot node)] else [].
Proof. unfold slots_of. rewrite filter_cons, filter_nil. by case_decide. Qed.

(** Distinct slots inside a table of [n]. *)
Definition slots_ok (kind : NodeKind) (n : nat) (nodes : list NodeDescriptor) : Prop :=
  NoDup (slots_of kind nodes) /\ forall i, i ∈ slots_of kind nodes -> (i < n)%nat.

(** The owners after [nodes]: the slots that have none are those no node names. *)
Record owned (kind : NodeKind) (n : nat) (nodes : list NodeDescriptor) (o : Owners) : Prop := {
  od_length : length (owners_of kind o) = n;
  od_slots : slots_ok kind n nodes;
  od_free : forall i, (i < n)%nat ->
    owners_of kind o !! i = Some None <-> i ∉ slots_of kind nodes;
}.

Section ownership.
Context (n : NodeKind -> nat).

Lemma owned_step nodes node o :
  (forall k, owned k (n k) nodes o) ->
  owners_of (nd_kind node) o !! Z.to_nat (nd_state_slot node) = Some None ->
  forall k, owned k (n k) (nodes ++ [node]) (set_owner node o).
Proof.
  intros Ho Hfree k. destruct (Ho k) as [Hl [Hnd Hb] Hf].
  destruct (decide (nd_kind node = k)) as [Hk|Hk].
  - rewrite Hk in Hfree. pose proof (lookup_lt_Some _ _ _ Hfree) as Hlt. rewrite Hl in Hlt.
    pose proof (proj1 (Hf _ Hlt) Hfree) as Hni.
    assert (Hs : slots_of k (nodes ++ [node]) = slots_of k nodes ++ [Z.to_nat (nd_state_slot node)])
      by (by rewrite slots_of_app, slots_of_one, decide_True).
    split; [by rewrite owners_set_owner, length_insert|split; rewrite Hs|rewrite Hs].
    + apply NoDup_app. split_and!; [done| |apply NoDup_singleton].
      intros i Hi ->%list_elem_of_singleton. done.
    + intros i [Hi| ->%list_elem_of_singleton]%elem_of_app; auto.
    + intros i Hi. rewrite owners_set_owner by done.
      destruct (decide (i = Z.to_nat (nd_state_slot node))) as [->|Hne].
      * rewrite list_lookup_insert_eq by lia. set_solver.
      * rewrite list_lookup_insert_ne, Hf by done. set_solver.
  - assert (Hs : slots_of k (nodes ++ [node]) = slots_of k nodes)
      by (by rewrite slots_of_app, slots_of_one, decide_False, app_nil_r).
    split; unfold slots_ok; rewrite ?Hs, ?owners_set_owner_ne by done; auto.
Qed.

Lemma own_slot_Ok o node o' : own_slot o node = Ok o'
  <-> owners_of (nd_kind node) o !! Z.to_nat (nd_state_slot node) = Some None
      /\ o' = set_owner node o.
Proof. unfold own_slot. repeat case_match; naive_solver. Qed.

Lemma own_fold_owned nodes seen o o' :
  (forall k, owned k (n k) seen o) -> try_fold own_slot o nodes = Ok o' ->
  forall k, owned k (n k) (seen ++ nodes) o'.
Proof.
  revert seen o. induction nodes as [|node nodes IH]; intros seen o Ho; simpl.
  { intros [= <-] k. by rewrite app_nil_r. }
  intros (o1 & [Hf ->]%own_slot_Ok & Hr)%bind_Ok k.
  rewrite cons_middle, app_assoc. eapply IH; [|exact Hr]. by apply owned_step.
Qed.

Lemma own_fold_Ok nodes seen o :
  (forall k, owned k (n k) seen o) -> (forall k, slots_ok k (n k) (seen ++ nodes)) ->
  exists o', try_fold own_slot o nodes = Ok o'.
Proof.
  revert seen o. induction nodes as [|node nodes IH]; intros seen o Ho Hall; simpl; [eauto|].
  assert (Hf : owners_of (nd_kind node) o !! Z.to_nat (nd_state_slot node) = Some None).
  { destruct (Hall (nd_kind node)) as [Hnd Hb].
    rewrite cons_middle, !slots_of_app, slots_of_one, decide_True in Hnd, Hb by done.
    apply (od_free _ _ _ _ (Ho _)); [apply Hb; set_solver|].
    apply NoDup_app in Hnd as (_ & Hd & _). intros Hin. apply (Hd _ Hin). set_solver. }
  rewrite (proj2 (own_slot_Ok _ _ _) (conj Hf eq_refl)). simpl.
  apply (IH (seen ++ [node])); [by apply owned_step|]. intros k.
  specialize (Hall k). by rewrite cons_middle, app_assoc in Hall.
Qed.
End ownership.

Lemma unowned_None owners :
  unowned owners = None <-> forall i, owners !! i <> Some None.
Proof.
  unfold unowned. rewrite find_position_None, <- not_true_iff_false, existsb_exists. split.
  - intros Hn i Hi. apply Hn. exists None. split; [|done].
    by apply list_elem_of_In, list_elem_of_lookup_2 with i.
  - intros Hn (x & Hx & ->%bool_decide_eq_true). apply list_elem_of_In, list_elem_of_lookup in Hx.
    destruct Hx as [i Hi]. by apply (Hn i).
Qed.

(** A table whose every slot has one owner. *)
Lemma owned_all kind n nodes o : owned kind n nodes o ->
  unowned (owners_of kind o) = None <-> slots_of kind nodes ≡ₚ seq 0 n.
Proof.
  intros [Hl [Hnd Hb] Hf]. rewrite unowned_None. split.
  - intros Hn. apply NoDup_Permutation; [done|apply NoDup_seq|]. intros i. rewrite elem_of_seq.
    split; [intros ?%Hb; lia|]. intros Hi. apply dec_stable. rewrite <- Hf by lia. apply Hn.
  - intros Hp i Hi. pose proof (lookup_lt_Some _ _ _ Hi) as Hlt. rewrite Hl in Hlt.
    apply Hf in Hi; [|done]. apply Hi. rewrite Hp, elem_of_seq. lia.
Qed.

Lemma validate_state_ownership_Ok image : validate_state_ownership image = Ok tt
  <-> slots_of Host (im_nodes image) ≡ₚ seq 0 (length (im_host_states image))
      /\ slots_of Switch (im_nodes image) ≡ₚ seq 0 (length (im_switch_states image)).
Proof.
  unfold validate_state_ownership.
  set (o0 := mkOwners _ _). set (n := fun k => length (owners_of k o0)).
  assert (H0 : forall k, owned k (n k) [] o0).
  { intros k. split; [done|split; [constructor|by intros ? ?%not_elem_of_nil]|].
    intros i Hi. split; [by intros _ ?%not_elem_of_nil|]. intros _. unfold n, owners_of in *.
    destruct k; simpl in *; rewrite length_replicate in Hi; by apply lookup_replicate_2. }
  assert (Hn : n Host = length (im_host_states image) /\ n Switch = length (im_switch_states image))
    by (split; apply length_replicate). destruct Hn as [<- <-].
  rewrite bind_Ok. split.
  - intros (o & Hr & Hm). pose proof (own_fold_owned n _ [] _ _ H0 Hr) as Ho.
    rewrite <- (owned_all _ _ _ _ (Ho Host)), <- (owned_all _ _ _ _ (Ho Switch)). simpl.
    by destruct (unowned (ow_hosts o)), (unowned (ow_switches o)).
  - intros [Hh Hs]. destruct (own_fold_Ok n (im_nodes image) [] o0 H0) as [o Hr].
    { assert (Hok : forall l m, l ≡ₚ seq 0 m -> NoDup l /\ forall i, i ∈ l -> (i < m)%nat).
      { intros l m Hl. split; [rewrite Hl; apply NoDup_seq|].
        intros i. rewrite Hl, elem_of_seq. lia. }
      intros []; unfold slots_ok; by apply Hok. }
    exists o. split; [done|]. pose proof (own_fold_owned n _ [] _ _ H0 Hr) as Ho.
    rewrite <- (owned_all _ _ _ _ (Ho Host)) in Hh. rewrite <- (owned_all _ _ _ _ (Ho Switch)) in Hs.
    simpl in Hh, Hs. by rewrite Hh, Hs.
Qed.

(** *** Links *)

Lemma validated_node_Some image id :
  (forall i node, im_nodes image !! i = Some node -> nd_id node = Z.of_nat i) ->
  validated_node image id <> None <-> exists node, node ∈ im_nodes image /\ nd_id node = id.
Proof.
  intros Hd. unfold validated_node. split.
  - destruct (im_nodes image !! Z.to_nat id) as [node|] eqn:E; simpl; [|done].
    destruct (Z.eqb_spec (nd_id node) id); [|done]. intros _. exists node.
    split; [by eapply list_elem_of_lookup_2|done].
  - intros (node & [i Hi]%list_elem_of_lookup & <-). rewrite (Hd _ _ Hi), Nat2Z.id, Hi. simpl.
    by rewrite (Hd _ _ Hi), Z.eqb_refl.
Qed.

Lemma validate_links_Ok image :
  (forall i node, im_nodes image !! i = Some node -> nd_id node = Z.of_nat i) ->
  validate_links image = Ok tt
  <-> forall link, link ∈ im_links image ->
        (exists node, node ∈ im_nodes image /\ nd_id node = lk_source link)
        /\ (exists node, node ∈ im_nodes image /\ nd_id node = lk_target link)
        /\ lk_rate_bps link <> 0.
Proof.
  intros Hd. unfold validate_links. rewrite each_indexed_Ok.
  assert (Hs : forall link, check_link image link = Ok tt <->
    (exists node, node ∈ im_nodes image /\ nd_id node = lk_source link)
    /\ (exists node, node ∈ im_nodes image /\ nd_id node = lk_target link)
    /\ lk_rate_bps link <> 0).
  { intros link. rewrite <- !(validated_node_Some image) by done. unfold check_link.
    repeat case_bool_decide; try naive_solver.
    destruct (Z.eqb_spec (lk_rate_bps link) 0); naive_solver. }
  setoid_rewrite Hs. setoid_rewrite list_elem_of_lookup. naive_solver.
Qed.

Lemma validate_structure_ok image :
  validate_structure image = Ok tt <-> structure_ok image.
Proof.
  assert (Hb : forall (m1 m2 : result ValidationError unit),
            (_ ← m1; m2) = Ok tt <-> m1 = Ok tt /\ m2 = Ok tt).
  { intros m1 m2. rewrite bind_Ok. split; [by intros ([] & ? & ?)|eauto]. }
  unfold validate_structure, validate_link_ids, validate_flow_ids.
  rewrite !Hb, !validate_dense_ids_Ok, validate_node_ids_Ok, validate_packet_ids_Ok,
    validate_stage_tables_Ok, validate_state_ownership_Ok.
  setoid_rewrite list_lookup_fmap.
  assert (Hf : forall {A} (f : A -> Z) (l : list A),
            (forall i id, f <$> l !! i = Some id -> id = Z.of_nat i)
            <-> forall i x, l !! i = Some x -> f x = Z.of_nat i).
  { intros A f l. split; [intros H i x Hx; apply H; by rewrite Hx|].
    intros H i id. destruct (l !! i) eqn:E; simpl; [|done]. intros [= <-]. by apply H. }
  rewrite !Hf. split.
  - intros (Hn & Hl & Hfl & Hp & Hs & [Hh Hw] & He). split; try done.
    by apply validate_links_Ok.
  - intros [Hn Hl Hfl Hp Hs Hh Hw He]. split_and!; try done. by apply validate_links_Ok.
Qed.

(** C23. The structural checks are exact: [validate] passes them if and only if the
    node, link and flow tables are dense (each identifier is its position), the
    initial packets ascend strictly, every stage table is empty or matches its
    generators with at least one stage, the nodes of each kind own every state of
    their table exactly once, and every link joins two nodes at a positive rate. *)
Theorem validate_structure_exact image :
  validate_structure image = Ok tt <-> structure_ok image.
Proof. apply validate_structure_ok. Qed.

(** *** Origin sequences *)

Lemma maximum_sequences_spec events e : e ∈ events ->
  exists existing, bm_get (origin_node (key e)) (maximum_sequences events) = Some existing
    /\ origin_seq (key e) <= existing.
Proof.
  unfold maximum_sequences. induction events as [|x events IH] using rev_ind; [set_solver|].
  rewrite foldl_app. simpl. set (m := foldl _ [] events) in *. intros Hin.
  destruct (decide (origin_node (key x) = origin_node (key e))) as [Heq|Hne].
  - rewrite <- Heq, bm_get_insert_eq. eexists. split; [done|].
    apply elem_of_app in Hin as [(v & Hv & Hle)%IH| ->%list_elem_of_singleton].
    + rewrite Heq, Hv. lia.
    + destruct (bm_get (origin_node (key x)) m); lia.
  - rewrite bm_get_insert_ne by done. apply IH. set_solver.
Qed.

Lemma validate_sequences_advance_Ok image e node :
  validate_sequences_advance image = Some (Ok tt) ->
  e ∈ im_initial_events image -> node ∈ im_nodes image -> nd_id node = origin_node (key e) ->
  exists next, next_origin_seq image node = Some next /\ origin_seq (key e) < next.
Proof.
  unfold validate_sequences_advance. intros Hv He Hn Hid. revert Hv Hn.
  induction (im_nodes image) as [|x nodes IH]; simpl; [set_solver|].
  intros ([] & Hx & Hr)%fueled_bind_Ok [<-|Hn]%elem_of_cons; [|by apply IH].
  unfold sequence_advances in Hx. apply fueled_bind_Ok in Hx as (next & Hnext & Hx).
  apply (proj1 (or_panic_Ok _ _)) in Hnext. exists next. split; [done|].
  destruct (maximum_sequences_spec _ _ He) as (existing & Hex & Hle).
  rewrite <- Hid in Hex. rewrite Hex in Hx. case_match; [done|]. lia.
Qed.

(** *** Initial events *)

Lemma check_events_owners image s entries r :
  try_fold (check_event image) s entries = Ok r ->
  forall index event, (index, event) ∈ entries -> check_event_owner image index event = Ok tt.
Proof.
  revert s. induction entries as [|[i x] entries IH]; intros s Hr index event; [set_solver|].
  apply bind_Ok in Hr as (s' & Hx & Hr).
  intros [[= -> ->]|Hin]%elem_of_cons; [|by eapply IH].
  destruct s as [keys previous]. unfold check_event in Hx. simpl in Hx.
  case_match; [done|]. apply bind_Ok in Hx as (_ & _ & Hx). by apply bind_Ok in Hx as ([] & ? & _).
Qed.

Lemma validated_node_elem image id node :
  validated_node image id = Some node -> node ∈ im_nodes image /\ nd_id node = id.
Proof.
  unfold validated_node. destruct (im_nodes image !! Z.to_nat id) as [x|] eqn:E; simpl; [|done].
  destruct (Z.eqb_spec (nd_id x) id); [|done]. intros [= <-].
  split; [by eapply list_elem_of_lookup_2|done].
Qed.

(** Every initial event has an origin and a target. *)
Lemma validate_event_owners_Ok image e :
  validate_event_owners image = Ok tt -> e ∈ im_initial_events image ->
  (exists node, node ∈ im_nodes image /\ nd_id node = origin_node (key e))
  /\ (exists node, validated_node image (target e) = Some node).
Proof.
  unfold validate_event_owners. intros (r & Hr & _)%bind_Ok [i Hi]%list_elem_of_lookup.
  assert (Hin : (i, e) ∈ imap pair (im_initial_events image)).
  { apply list_elem_of_lookup. exists i. by rewrite list_lookup_imap, Hi. }
  pose proof (check_events_owners _ _ _ _ Hr _ _ Hin) as Hc. unfold check_event_owner in Hc.
  apply bind_Ok in Hc as (origin & Ho%ok_or_Ok & Hc). apply bind_Ok in Hc as (node & Ht%ok_or_Ok & _).
  split; [|by exists node]. exists origin. by apply validated_node_elem.
Qed.
