(* ===== verification/SchedulerChecks.v ===== *)
(** * Checks of a queue's scheduler (executor/src/validate.rs)

    [validate_scheduler_state] and the checks beside it: the drop and mark policy,
    the shape and the tags of each discipline's state, and the limits of the device
    backends. [None] is a panic of an [expect] or of an index; an [ExactRational] of
    the model has a positive denominator, so the three zero-denominator checks of the
    source pass here. *)

From S2P Require Import Prelude OrdMap Event ExecError EcnRamp Model Image Sched Validate.

Abbreviation check := (fueled ValidationError).
Definition passed : check unit := Some (Ok tt).
Definition reject {A} (e : ValidationError) : check A := Some (Err e).
Definition require (b : bool) (e : ValidationError) : check unit := if b then passed else reject e.

Lemma require_iff b e : require b e = Some (Ok tt) <-> b = true.
Proof. by destruct b. Qed.

(** A check of each element passes when it passes on every one. *)
Lemma fueled_units {E B} (f : B -> fueled E unit) l :
  fueled_fold (fun _ => f) tt l = Some (Ok tt) <-> Forall (fun x => f x = Some (Ok tt)) l.
Proof.
  induction l as [|x l IH]; cbn [fueled_fold]; [done|]. rewrite fueled_bind_Ok, Forall_cons, <- IH.
  split; [by intros ([] & ? & ?)|intros [? ?]; by exists tt].
Qed.

(** The elements of a collected [BTreeSet]. *)
Lemma foldr_bs_add_elem {K} `{OrdKey K} (l : list K) x : x ∈ foldr bs_add [] l <-> x ∈ l.
Proof. induction l as [|y l IH]; simpl; [done|]. rewrite bs_add_elem_of, IH. set_solver. Qed.

(** ** Backends *)

Inductive Backend := Scalar | Cpu (workers : Z) | Metal | Cuda.

Definition capacity_limit (backend : Backend) : option Z :=
  match backend with
  | Scalar | Cpu _ => None
  | Metal | Cuda => Some u32_max
  end.

Definition DEVICE_WFQ_BITS : Z := 320.
Definition DEVICE_WFQ_MAX_TOTAL_WEIGHT : Z := u64_max / 1000000000.

(** ** Lookups *)

Definition validated_link (image : SimulationImage) (id : LinkId) : option LinkDescriptor :=
  link ← im_links image !! Z.to_nat id;
  if lk_id link =? id then Some link else None.

Definition validated_flow (image : SimulationImage) (id : FlowId) : option FlowDescriptor :=
  flow ← im_flows image !! Z.to_nat id;
  if fd_id flow =? id then Some flow else None.

(** The binary search of the packets, whose identities ascend. *)
Definition validated_packet (image : SimulationImage) (id : PayloadId)
  : option PacketDescriptor :=
  List.find (fun packet => pk_id packet =? id) (im_initial_packets image).

(** ** The drop and mark policy

    The checks of a queue look its packets up in the image: [packet_of] is
    [validated_packet] of the image. *)

Section queue_checks.
Context (packet_of : PayloadId -> option PacketDescriptor) (owner : NodeId) (queue_index : nat).

(** The class of a queued packet; [None] also stands for the remainder by zero. *)
Definition payload_class (payload : PayloadId) (class_count : nat) : option nat :=
  packet ← packet_of payload;
  scheduler_class (pk_flow packet) class_count.

Definition scheduler_class_value (payload : PayloadId) (values : list Z) : option Z :=
  class ← payload_class payload (length values);
  values !! class.

Definition queue_fault (fault : QueueFault) : ValidationError := InQueue owner queue_index fault.

Definition queued_bytes (queue : list PayloadId) : check Z :=
  fueled_fold (fun total payload =>
    packet ← or_panic (packet_of payload);
    lift_result (ok_or (checked_add total (pk_size_bytes packet)) (queue_fault ByteDepthOverflow)))
    0 queue.

Definition validate_drop_mark_policy (queue : SwitchQueueState) : check unit :=
  bytes ← queued_bytes (sq_queue queue);
  match sq_drop_mark queue with
  | TailDrop => passed
  | EcnRampMark policy =>
      _ ← lift_result (map_err (fun reason => queue_fault (RampPolicy reason))
                         (ecn_ramp_policy_check policy));
      require (negb (capacity_bytes policy <? bytes))
        (queue_fault (RampDepth bytes (capacity_bytes policy)))
  end.

(** ** Static priority *)

(** The waiting packets are in descending priority; [previous] is the last one read. *)
Fixpoint sp_descending (priorities : list Z) (previous : option Z) (queue : list PayloadId)
  : check unit :=
  match queue with
  | [] => passed
  | payload :: queue =>
      priority ← or_panic (scheduler_class_value payload priorities);
      if match previous with Some previous => previous <? priority | None => false end
      then reject (queue_fault (SpNotDescending payload))
      else sp_descending priorities (Some priority) queue
  end.

Definition check_sp (priorities : list Z) (queue : SwitchQueueState) : check unit :=
  if bool_decide (priorities = []) then reject (queue_fault SpNoClass)
  else sp_descending priorities None (sq_queue queue).

(** ** Weighted fair queueing *)

Definition active_payloads (queue : SwitchQueueState) : list PayloadId :=
  sq_queue queue ++ option_list (sq_in_service queue).

Definition check_wfq_shape (state : WfqSchedulerState) (frontier : option Z) : check unit :=
  if bool_decide (wfq_weights state = []) then reject (queue_fault WfqNoClass)
  else
    match find_position (fun weight => weight =? 0) (wfq_weights state) with
    | Some class => reject (queue_fault (WfqZeroWeight class))
    | None =>
        if negb ((length (wfq_finish_times state) =? length (wfq_weights state))%nat
                 && (length (wfq_active_packets state) =? length (wfq_weights state))%nat)
        then reject (queue_fault (WfqLengths (length (wfq_weights state))))
        else
          match frontier with
          | Some frontier =>
              if frontier <? wfq_last_updated_ns state
              then reject (queue_fault (WfqPastFrontier (wfq_last_updated_ns state) frontier))
              else passed
          | None => passed
          end
    end.

(** The packets of each class, waiting or in service. *)
Definition expected_active (class_count : nat) (payloads : list PayloadId) : check (list Z) :=
  fueled_fold (fun expected payload =>
    class ← or_panic (payload_class payload class_count);
    count ← or_panic (expected !! class);
    count ← lift_result (ok_or (checked_add count 1) (queue_fault (WfqActiveOverflow class)));
    Some (Ok (<[class := count]> expected)))
    (replicate class_count 0) payloads.

Definition check_wfq_active (state : WfqSchedulerState) (queue : SwitchQueueState) : check unit :=
  if negb (bool_decide (foldr bs_add [] (active_payloads queue)
                        = (wfq_packet_finish_times state).*1))
  then reject (queue_fault WfqTagsNotActive)
  else
    expected ← expected_active (length (wfq_weights state)) (active_payloads queue);
    if negb (bool_decide (wfq_active_packets state = expected))
    then reject (queue_fault (WfqActiveMismatch (wfq_active_packets state) expected))
    else if forallb (fun active => active =? 0) (wfq_active_packets state)
            && negb (Qnum (wfq_virtual_time state) =? 0)
    then reject (queue_fault WfqIdleClock)
    else passed.

(** One waiting packet: the tag read last, and the last tag of each class. *)
Definition check_wfq_waiting (state : WfqSchedulerState)
    (s : option ExactRational * list (option ExactRational)) (payload : PayloadId)
  : check (option ExactRational * list (option ExactRational)) :=
  let '(previous, maximum) := s in
  finish ← or_panic (bm_get payload (wfq_packet_finish_times state));
  class ← or_panic (payload_class payload (length (wfq_weights state)));
  if Qnum finish =? 0 then reject (queue_fault (WfqTagNotPositive payload))
  else
    class_finish ← or_panic (wfq_finish_times state !! class);
    if negb (Qle_bool finish class_finish)
    then reject (queue_fault (WfqTagBeyondClass payload class))
    else if match previous with Some previous => negb (Qle_bool previous finish) | None => false end
    then reject (queue_fault (WfqNotOrdered payload))
    else Some (Ok (Some finish, <[class := Some finish]> maximum)).

Definition check_wfq_in_service (state : WfqSchedulerState) (in_service : option PayloadId)
  : check unit :=
  match in_service with
  | None => passed
  | Some payload =>
      finish ← or_panic (bm_get payload (wfq_packet_finish_times state));
      if Qnum finish =? 0 then reject (queue_fault (WfqTagNotPositive payload)) else passed
  end.

(** A class ends at the tag of its last waiting packet or, without one, at the tag
    of its packet in service. *)
Definition check_wfq_class (state : WfqSchedulerState) (in_service : option PayloadId)
    (entry : nat * option ExactRational) : check unit :=
  let '(class, maximum) := entry in
  match maximum, in_service with
  | Some maximum, _ =>
      class_finish ← or_panic (wfq_finish_times state !! class);
      require (Qeq_bool maximum class_finish) (queue_fault (WfqClassNotMaximum class))
  | None, Some payload =>
      in_service_class ← or_panic (payload_class payload (length (wfq_weights state)));
      if (class =? in_service_class)%nat then
        finish ← or_panic (bm_get payload (wfq_packet_finish_times state));
        class_finish ← or_panic (wfq_finish_times state !! class);
        require (Qeq_bool finish class_finish) (queue_fault (WfqClassNotInService class payload))
      else passed
  | None, None => passed
  end.

Definition check_wfq (state : WfqSchedulerState) (queue : SwitchQueueState)
    (frontier : option Z) : check unit :=
  _ ← check_wfq_shape state frontier;
  _ ← check_wfq_active state queue;
  waiting ← fueled_fold (check_wfq_waiting state)
              (None, replicate (length (wfq_weights state)) None) (sq_queue queue);
  _ ← check_wfq_in_service state (sq_in_service queue);
  fueled_fold (fun _ => check_wfq_class state (sq_in_service queue)) tt (imap pair waiting.2).

(** ** Round robin *)

Definition drr_shape_ok (state : DrrSchedulerState) : bool :=
  negb (bool_decide (drr_quanta_bytes state = [])
        || existsb (fun quantum => quantum =? 0) (drr_quanta_bytes state)
        || negb (length (drr_deficits_bytes state) =? length (drr_quanta_bytes state))%nat
        || negb (drr_current_class state <? Z.of_nat (length (drr_quanta_bytes state)))).

(** The largest frame of a class that can still leave through an egress, of the
    egress, the number of classes and the class. It depends on the whole image:
    [maximum_drr_frame_bytes] of ServiceChecks, which [validate_owned_service_state]
    passes here. *)
Definition check_drr (maximum_drr_frame_bytes : LinkId -> nat -> nat -> check Z)
    (state : DrrSchedulerState) (egress : option LinkId) : check unit :=
  if negb (drr_shape_ok state) then reject (queue_fault DrrShape)
  else
    fueled_fold (fun _ (entry : nat * Z) =>
      let '(class, quantum) := entry in
      maximum_frame ← match egress with
                      | Some egress =>
                          maximum_drr_frame_bytes egress (length (drr_quanta_bytes state)) class
                      | None => Some (Ok 0)
                      end;
      if maximum_frame =? 0 then passed
      else require (bool_decide (is_Some (checked_add quantum (maximum_frame - 1))))
             (queue_fault (DrrDeficitOverflow class maximum_frame)))
      tt (imap pair (drr_quanta_bytes state)).

Definition wrr_shape_ok (state : WrrSchedulerState) : bool :=
  negb (bool_decide (wrr_weights state = [])
        || existsb (fun weight => weight =? 0) (wrr_weights state)
        || negb (length (wrr_packets_sent_in_round state) =? length (wrr_weights state))%nat
        || existsb (fun sw => sw.2 <? sw.1) (zip (wrr_packets_sent_in_round state) (wrr_weights state))
        || negb (wrr_current_class state <? Z.of_nat (length (wrr_weights state)))).

Definition check_wrr (state : WrrSchedulerState) : check unit :=
  require (wrr_shape_ok state) (queue_fault WrrShape).

(** The discipline's own checks. *)
Definition check_scheduler (maximum_drr_frame_bytes : LinkId -> nat -> nat -> check Z)
    (queue : SwitchQueueState) (pending_event_frontier : option Z) : check unit :=
  match sq_scheduler queue with
  | Fifo => passed
  | StaticPriority priorities => check_sp priorities queue
  | WeightedFairQueue state => check_wfq state queue pending_event_frontier
  | DeficitRoundRobin state => check_drr maximum_drr_frame_bytes state (sq_egress_link queue)
  | WeightedRoundRobin state => check_wrr state
  end.

Definition validate_scheduler_state
    (maximum_drr_frame_bytes : LinkId -> nat -> nat -> check Z) (queue : SwitchQueueState)
    (pending_event_frontier : option Z) : check unit :=
  _ ← validate_drop_mark_policy queue;
  check_scheduler maximum_drr_frame_bytes queue pending_event_frontier.

(** ** Device limits *)

(** [BigUint::bits]. *)
Definition biguint_bits (n : Z) : Z := if n =? 0 then 0 else Z.log2 n + 1.

Definition validate_device_rational (value : ExactRational) : check unit :=
  if DEVICE_WFQ_BITS <? biguint_bits (Qnum value)
  then reject (queue_fault (WfqRationalBits (biguint_bits (Qnum value))))
  else if DEVICE_WFQ_BITS <? biguint_bits (Zpos (Qden value))
  then reject (queue_fault (WfqRationalBits (biguint_bits (Zpos (Qden value)))))
  else
    let canonical := Qred value in
    require ((Qnum canonical =? Qnum value) && (Qden canonical =? Qden value)%positive)
      (queue_fault WfqNotReduced).

Definition validate_device_scheduler_capability (queue : SwitchQueueState) (backend : Backend)
  : check unit :=
  match backend, sq_scheduler queue with
  | (Metal | Cuda), WeightedFairQueue state =>
      let total_weight := foldl Z.add 0 (wfq_weights state) in
      if DEVICE_WFQ_MAX_TOTAL_WEIGHT <? total_weight
      then reject (queue_fault (WfqTotalWeight total_weight))
      else
        _ ← validate_device_rational (wfq_virtual_time state);
        _ ← fueled_fold (fun _ => validate_device_rational) tt (wfq_finish_times state);
        fueled_fold (fun _ => validate_device_rational) tt (wfq_packet_finish_times state).*2
  | _, _ => passed
  end.
End queue_checks.
