(* ===== verification/WfqCheckpoint.v ===== *)
(** * What the checks of a weighted fair queue accept

    [check_wfq] passes exactly on the states related to their queue by [wfq_rep]: the
    tags are those of the waiting packets and of the packet in service, they increase
    along the queue, the counters count the packets of each class, and a class's
    finish history is the tag of its last packet. Arrivals, services from the head
    and completions keep it. *)

From Stdlib Require Import List.
From S2P Require Import Prelude OrdMap Event ExecError EcnRamp Model Image Sched Validate.
From S2P Require Import SchedulerChecks SwitchHandlers.

(** Strictly ascending lists with the same elements are equal. *)
Lemma ascending_ext {K} `{OrdKey K} (l1 l2 : list K) : StronglySorted klt l1 -> StronglySorted klt l2 ->
  (forall x, x ∈ l1 <-> x ∈ l2) -> l1 = l2.
Proof.
  intros H1 H2 Hx. assert (Hwf : forall l : list K, StronglySorted klt l -> wf ((fun k => (k, tt)) <$> l)).
  { intros l Hl. unfold wf. by rewrite <- list_fmap_compose, list_fmap_id. }
  assert (Heq : (fun k => (k, tt)) <$> l1 = (fun k => (k, tt)) <$> l2).
  { apply bm_ext; [by apply Hwf..|]. intros [k []]. rewrite !list_elem_of_fmap.
    split; intros (y & Hy & Hin); exists y; (split; [done|]); by apply Hx. }
  apply (f_equal (fmap fst)) in Heq. by rewrite <- !list_fmap_compose, !list_fmap_id in Heq.
Qed.

Lemma foldr_bs_add_sorted {K} `{OrdKey K} (l : list K) : StronglySorted klt (foldr bs_add [] l).
Proof. induction l as [|x l IH]; simpl; [constructor|]. by apply bs_add_sorted. Qed.

Lemma StronglySorted_impl_in {A} (R R' : A -> A -> Prop) l :
  (forall x y, x ∈ l -> y ∈ l -> R x y -> R' x y) -> StronglySorted R l -> StronglySorted R' l.
Proof.
  intros HR Hs. induction Hs as [|x l Hs IH Hx]; constructor.
  - apply IH. intros ?? H1 H2. apply HR; by right.
  - rewrite Forall_forall in *. intros y Hy. apply HR; [left|by right|by apply Hx].
Qed.

Lemma bm_get_remove {V} (k k' : PayloadId) (m : bmap PayloadId V) : wf m ->
  bm_get k' (bm_remove k m) = if decide (k' = k) then None else bm_get k' m.
Proof.
  intros Hwf. apply option_eq. intros v.
  rewrite (bm_get_elem_of _ _ _ (bm_remove_wf _ _ Hwf)), (bm_remove_elem_of _ _ _ Hwf). simpl.
  case_decide; [naive_solver|]. rewrite (bm_get_elem_of _ _ _ Hwf). naive_solver.
Qed.

Section wfq.
Context (packet_of : PayloadId -> option PacketDescriptor) (owner : NodeId) (queue_index : nat).

(** ** Classes *)

Section classes.
Context (n : nat).

Definition in_class_of (class : nat) (id : PayloadId) : Prop :=
  payload_class packet_of id n = Some class.

#[local] Instance in_class_of_dec class id : Decision (in_class_of class id).
Proof. unfold in_class_of. apply _. Defined.

Definition class_count (class : nat) (l : list PayloadId) : nat :=
  length (filter (in_class_of class) l).

Definition class_counts (l : list PayloadId) : list Z :=
  (fun class => Z.of_nat (class_count class l)) <$> seq 0 n.

Lemma payload_class_lt id class : payload_class packet_of id n = Some class -> (class < n)%nat.
Proof. unfold payload_class. intros (pk & _ & H)%bind_Some. by eapply scheduler_class_lt. Qed.

Lemma class_counts_lookup l class : (class < n)%nat ->
  class_counts l !! class = Some (Z.of_nat (class_count class l)).
Proof. intros H. unfold class_counts. rewrite list_lookup_fmap, lookup_seq_lt by done. done. Qed.

Lemma class_counts_length l : length (class_counts l) = n.
Proof. unfold class_counts. by rewrite length_fmap, length_seq. Qed.

Lemma class_count_snoc class l id : class_count class (l ++ [id])
  = (class_count class l + if decide (in_class_of class id) then 1 else 0)%nat.
Proof.
  unfold class_count. rewrite filter_app, length_app, filter_cons, filter_nil. by case_decide.
Qed.

Lemma class_counts_snoc l id class : payload_class packet_of id n = Some class ->
  class_counts (l ++ [id]) = <[class := Z.of_nat (class_count class l) + 1]> (class_counts l).
Proof.
  intros Hc. pose proof (payload_class_lt _ _ Hc) as Hlt. apply list_eq. intros c.
  destruct (decide (c < n)%nat) as [Hcn|Hcn].
  - rewrite class_counts_lookup, class_count_snoc by done. destruct (decide (c = class)) as [->|Hne].
    + rewrite list_lookup_insert_eq by (by rewrite class_counts_length).
      rewrite decide_True by done. f_equal. lia.
    + rewrite list_lookup_insert_ne, class_counts_lookup by done.
      rewrite decide_False by (unfold in_class_of; congruence). f_equal. lia.
  - rewrite !lookup_ge_None_2; [done|rewrite length_insert|]; rewrite class_counts_length; lia.
Qed.

Lemma class_counts_nil : class_counts [] = replicate n 0.
Proof.
  apply list_eq. intros c. destruct (decide (c < n)%nat).
  - by rewrite class_counts_lookup, lookup_replicate_2.
  - rewrite !lookup_ge_None_2; [done|rewrite length_replicate; lia|rewrite class_counts_length; lia].
Qed.

Lemma class_counts_perm l l' : l ≡ₚ l' -> class_counts l = class_counts l'.
Proof.
  intros Hp. unfold class_counts, class_count. apply list_fmap_ext. intros i class _. by rewrite Hp.
Qed.

Lemma class_count_le class l l' : (class_count class l <= class_count class (l ++ l'))%nat.
Proof. unfold class_count. rewrite filter_app, length_app. lia. Qed.

(** The counters the validator derives. *)
Lemma expected_active_spec l r :
  expected_active packet_of owner queue_index n l = Some (Ok r)
  <-> Forall (fun id => is_Some (payload_class packet_of id n)) l /\ r = class_counts l
      /\ Forall (fun count => count <= u64_max) r.
Proof.
  unfold expected_active. revert r. induction l as [|id l IH] using rev_ind; intros r.
  { rewrite class_counts_nil. simpl. split.
    - intros [= <-]. split_and!; [done|done|]. apply Forall_replicate. done.
    - by intros (_ & -> & _). }
  rewrite fueled_fold_snoc, fueled_bind_Ok. setoid_rewrite IH. rewrite Forall_app, Forall_singleton. split.
  - intros (expected & (Hl & -> & Hmax) & H).
    apply fueled_bind_Ok in H as (class & Hc%(proj1 (or_panic_Ok _ _)) & H).
    pose proof (payload_class_lt _ _ Hc) as Hlt. rewrite class_counts_lookup in H by done.
    cbn [or_panic mbind fueled_bind] in H. apply fueled_bind_Ok in H as (count & Hn & [= <-]).
    apply (proj1 (lift_result_Ok _ _)), ok_or_Ok, checked_add_Some in Hn as [-> Hn].
    rewrite (class_counts_snoc _ _ _ Hc). split_and!; [done|by rewrite Hc|done|].
    apply Forall_insert; [done|]. lia.
  - intros ((Hl & [class Hc]) & -> & Hmax). pose proof (payload_class_lt _ _ Hc) as Hlt.
    exists (class_counts l). rewrite (class_counts_snoc _ _ _ Hc) in Hmax |- *. split.
    + split_and!; [done|done|]. rewrite Forall_lookup in Hmax |- *. intros c x Hx.
      destruct (decide (c = class)) as [->|Hne].
      * rewrite class_counts_lookup in Hx by done. injection Hx as <-.
        specialize (Hmax class (Z.of_nat (class_count class l) + 1)).
        rewrite list_lookup_insert_eq in Hmax by (by rewrite class_counts_length).
        specialize (Hmax eq_refl). lia.
      * apply (Hmax c). by rewrite list_lookup_insert_ne.
    + rewrite Hc. cbn [or_panic mbind fueled_bind]. rewrite class_counts_lookup by done.
      cbn [or_panic mbind fueled_bind]. rewrite Forall_lookup in Hmax.
      specialize (Hmax class (Z.of_nat (class_count class l) + 1)).
      rewrite list_lookup_insert_eq in Hmax by (by rewrite class_counts_length).
      specialize (Hmax eq_refl).
      rewrite (proj2 (checked_add_Some _ _ _)) by (split; [reflexivity|lia]). done.
Qed.
End classes.

(** ** The waiting packets *)

Section waiting.
Context (state : WfqSchedulerState).
#[local] Abbreviation tags := (wfq_packet_finish_times state).
#[local] Abbreviation n := (length (wfq_weights state)).
#[local] Existing Instance in_class_of_dec.

(** The tags of a class, in queue order. *)
Definition class_tags (class : nat) (queue : list PayloadId) : list ExactRational :=
  omap (fun id => if decide (in_class_of n class id) then bm_get id tags else None) queue.

(** A waiting packet has a positive tag, not past its class. *)
Definition waiting_one (id : PayloadId) : Prop :=
  exists tag class finish, bm_get id tags = Some tag /\ payload_class packet_of id n = Some class
    /\ wfq_finish_times state !! class = Some finish /\ Qnum tag <> 0 /\ (tag <= finish)%Q.

(** The tag read last, and the last tag of each class. *)
Definition waiting_read (queue : list PayloadId)
  : option ExactRational * list (option ExactRational) :=
  (last queue ≫= fun id => bm_get id tags,
   (fun class => last (class_tags class queue)) <$> seq 0 n).

Lemma class_tags_snoc class queue id tag : bm_get id tags = Some tag ->
  last (class_tags class (queue ++ [id]))
  = if decide (in_class_of n class id) then Some tag else last (class_tags class queue).
Proof.
  intros Ht. unfold class_tags. rewrite omap_app. simpl. case_decide.
  - rewrite Ht, last_snoc. done.
  - by rewrite app_nil_r.
Qed.

Lemma waiting_read_snoc queue id tag class : bm_get id tags = Some tag ->
  payload_class packet_of id n = Some class ->
  waiting_read (queue ++ [id]) = (Some tag, <[class := Some tag]> (waiting_read queue).2).
Proof.
  intros Ht Hc. unfold waiting_read. rewrite last_snoc. simpl. rewrite Ht. f_equal.
  pose proof (payload_class_lt _ _ _ Hc) as Hlt. apply list_eq. intros c.
  destruct (decide (c < n)%nat) as [Hcn|Hcn].
  - rewrite list_lookup_fmap, lookup_seq_lt by done. simpl. rewrite (class_tags_snoc _ _ _ _ Ht).
    destruct (decide (c = class)) as [->|Hne].
    + by rewrite decide_True, list_lookup_insert_eq by (done || by rewrite length_fmap, length_seq).
    + rewrite decide_False by (unfold in_class_of; congruence).
      by rewrite list_lookup_insert_ne, list_lookup_fmap, lookup_seq_lt by done.
  - rewrite !lookup_ge_None_2; [done|rewrite length_insert|]; rewrite length_fmap, length_seq; lia.
Qed.

Lemma tag_le_trans p q r : tag_le tags p q -> tag_le tags q r -> tag_le tags p r.
Proof.
  unfold tag_le. destruct (bm_get p tags), (bm_get q tags), (bm_get r tags); try done.
  apply Qle_trans.
Qed.

(** A packet may follow an ordered queue when it may follow its last packet. *)
Lemma tag_sorted_snoc queue id : is_Some (bm_get id tags) ->
  StronglySorted (tag_le tags) (queue ++ [id])
  <-> StronglySorted (tag_le tags) queue /\ (forall x, last queue = Some x -> tag_le tags x id).
Proof.
  intros Hid. split.
  - intros (Hx & Hs & _)%StronglySorted_app. split; [done|]. intros x Hl.
    apply Hx; [by apply last_Some_elem_of|by left].
  - intros [Hs Hl]. apply StronglySorted_app_2; [|done|by repeat constructor].
    intros x y Hx ->%list_elem_of_singleton.
    destruct (last queue) as [z|] eqn:Hz; [|by apply last_None in Hz; subst; apply not_elem_of_nil in Hx].
    specialize (Hl z eq_refl). apply last_Some in Hz as [l ->].
    apply elem_of_app in Hx as [Hx| ->%list_elem_of_singleton]; [|done].
    apply StronglySorted_app in Hs as (Hs & _). eapply tag_le_trans; [|done]. apply Hs; [done|by left].
Qed.

Lemma waiting_read_nil : waiting_read [] = (None, replicate n None).
Proof.
  unfold waiting_read. f_equal. apply list_eq. intros c. destruct (decide (c < n)%nat).
  - by rewrite list_lookup_fmap, lookup_seq_lt, lookup_replicate_2 by done.
  - rewrite !lookup_ge_None_2; [done|rewrite length_replicate; lia|rewrite length_fmap, length_seq; lia].
Qed.

Lemma waiting_fold queue r :
  fueled_fold (check_wfq_waiting packet_of owner queue_index state) (None, replicate n None) queue
    = Some (Ok r)
  <-> Forall waiting_one queue /\ StronglySorted (tag_le tags) queue /\ r = waiting_read queue.
Proof.
  revert r. induction queue as [|id queue IH] using rev_ind; intros r.
  { rewrite waiting_read_nil. cbn [fueled_fold].
    split; [intros [= <-]; split_and!; [done|constructor|done]|by intros (_ & _ & ->)]. }
  rewrite fueled_fold_snoc, fueled_bind_Ok. setoid_rewrite IH. rewrite Forall_app, Forall_singleton. split.
  - intros (s & (Hw & Hs & ->) & H). unfold check_wfq_waiting in H. cbn [waiting_read] in H.
    apply fueled_bind_Ok in H as (tag & Ht%(proj1 (or_panic_Ok _ _)) & H).
    apply fueled_bind_Ok in H as (class & Hc%(proj1 (or_panic_Ok _ _)) & H).
    destruct (Z.eqb_spec (Qnum tag) 0); [done|].
    apply fueled_bind_Ok in H as (finish & Hf%(proj1 (or_panic_Ok _ _)) & H).
    destruct (Qle_bool tag finish) eqn:Hle; [|done]. cbn [negb] in H.
    apply Qle_bool_iff in Hle.
    destruct (match last queue ≫= _ with Some _ => _ | None => _ end) eqn:Hp; [done|]. injection H as <-.
    split_and!; [done|by exists tag, class, finish| |by rewrite (waiting_read_snoc _ _ _ _ Ht Hc)].
    apply tag_sorted_snoc; [by rewrite Ht|]. split; [done|]. intros x Hx. rewrite Hx in Hp. simpl in Hp.
    rewrite Forall_forall in Hw. destruct (Hw x) as (tx & cx & fx & Htx & _); [by apply last_Some_elem_of|].
    unfold tag_le. rewrite Htx, Ht in *. apply negb_false_iff in Hp. by apply Qle_bool_iff.
  - intros ((Hw & Hone) & Hs & ->). destruct Hone as (tag & class & finish & Ht & Hc & Hf & Hn & Hle).
    apply tag_sorted_snoc in Hs as [Hs Hl]; [|by rewrite Ht]. exists (waiting_read queue).
    split; [done|]. unfold check_wfq_waiting. rewrite (waiting_read_snoc _ _ _ _ Ht Hc), Ht, Hc.
    cbn [waiting_read or_panic mbind fueled_bind]. destruct (Z.eqb_spec (Qnum tag) 0); [done|].
    rewrite Hf. cbn [or_panic mbind fueled_bind]. rewrite (proj2 (Qle_bool_iff _ _) Hle). cbn [negb].
    destruct (last queue) as [x|] eqn:Hx; [|done]. specialize (Hl x eq_refl). unfold tag_le in Hl.
    rewrite Ht in Hl. simpl. destruct (bm_get x tags) as [tx|]; [|done].
    by rewrite (proj2 (Qle_bool_iff _ _) Hl).
Qed.

(** ** What the checks accept *)

Context (queue : SwitchQueueState) (frontier : option Z).

Record wfq_rep : Prop := {
  wr_some_class : wfq_weights state <> [];
  wr_weights : Forall (fun weight => weight <> 0) (wfq_weights state);
  wr_finish : length (wfq_finish_times state) = n;
  wr_active : length (wfq_active_packets state) = n;
  wr_time : match frontier with Some time => wfq_last_updated_ns state <= time | None => True end;
  wr_tags : forall id, is_Some (bm_get id tags) <-> id ∈ active_payloads queue;
  wr_classes : Forall (fun id => is_Some (payload_class packet_of id n)) (active_payloads queue);
  wr_counts : wfq_active_packets state = class_counts n (active_payloads queue);
  wr_bounds : Forall (fun count => count <= u64_max) (wfq_active_packets state);
  wr_idle : all_idle (wfq_active_packets state) = true -> Qnum (wfq_virtual_time state) = 0;
  wr_waiting : Forall waiting_one (sq_queue queue);
  wr_order : StronglySorted (tag_le tags) (sq_queue queue);
  wr_service : forall id, sq_in_service queue = Some id ->
    exists tag, bm_get id tags = Some tag /\ Qnum tag <> 0;
  wr_last : forall class tag, last (class_tags class (sq_queue queue)) = Some tag ->
    exists finish, wfq_finish_times state !! class = Some finish /\ (tag == finish)%Q;
  wr_last_service : forall id class, sq_in_service queue = Some id ->
    payload_class packet_of id n = Some class -> class_tags class (sq_queue queue) = [] ->
    exists tag finish, bm_get id tags = Some tag /\ wfq_finish_times state !! class = Some finish
      /\ (tag == finish)%Q;
}.

Lemma check_wfq_shape_iff :
  check_wfq_shape owner queue_index state frontier = Some (Ok tt)
  <-> wfq_weights state <> [] /\ Forall (fun weight => weight <> 0) (wfq_weights state)
      /\ length (wfq_finish_times state) = n /\ length (wfq_active_packets state) = n
      /\ match frontier with Some time => wfq_last_updated_ns state <= time | None => True end.
Proof.
  unfold check_wfq_shape. case_bool_decide as Hne; [split; [done|tauto]|].
  destruct (find_position _ _) as [class|] eqn:Hf.
  { split; [done|]. intros (_ & Hw & _). apply find_position_Some in Hf as (x & Hx & Hz).
    rewrite Forall_lookup in Hw. apply Hw in Hx. lia. }
  apply find_position_None in Hf.
  assert (Hw : Forall (fun weight => weight <> 0) (wfq_weights state)).
  { apply Forall_forall. intros w Hw Hz. apply not_true_iff_false in Hf. apply Hf.
    apply existsb_exists. exists w. split; [by apply list_elem_of_In|lia]. }
  destruct (Nat.eqb_spec (length (wfq_finish_times state)) n) as [H1|H1];
    destruct (Nat.eqb_spec (length (wfq_active_packets state)) n) as [H2|H2];
    simpl; try (split; [done|tauto]).
  destruct frontier as [time|]; [|split; [done|]; done].
  destruct (Z.ltb_spec time (wfq_last_updated_ns state)) as [Ht|Ht]; [split; [done|]|done].
  intros (_ & _ & _ & _ & Hle). lia.
Qed.

Lemma check_wfq_active_iff : wf tags ->
  check_wfq_active packet_of owner queue_index state queue = Some (Ok tt)
  <-> (forall id, is_Some (bm_get id tags) <-> id ∈ active_payloads queue)
      /\ Forall (fun id => is_Some (payload_class packet_of id n)) (active_payloads queue)
      /\ wfq_active_packets state = class_counts n (active_payloads queue)
      /\ Forall (fun count => count <= u64_max) (wfq_active_packets state)
      /\ (all_idle (wfq_active_packets state) = true -> Qnum (wfq_virtual_time state) = 0).
Proof.
  intros Hwf. unfold check_wfq_active.
  assert (Hkeys : foldr bs_add [] (active_payloads queue) = tags.*1
    <-> forall id, is_Some (bm_get id tags) <-> id ∈ active_payloads queue).
  { assert (Hget : forall id, is_Some (bm_get id tags) <-> id ∈ tags.*1).
    { intros id. destruct (bm_get id tags) eqn:E.
      - split; [intros _|by eauto]. apply (bm_get_elem_of _ _ _ Hwf) in E.
        by apply (list_elem_of_fmap_2 fst) in E.
      - split; [by intros [? ?]|]. intros Hin. by apply bm_get_None in E. }
    split.
    - intros Heq id. rewrite Hget, <- Heq. apply foldr_bs_add_elem.
    - intros Heq. apply ascending_ext; [apply foldr_bs_add_sorted|apply Hwf|].
      intros id. rewrite foldr_bs_add_elem, <- Heq. apply Hget. }
  case_bool_decide as Hk; simpl; [|split; [done|]; intros [Ht _]; by apply (proj2 Hkeys) in Ht].
  pose proof (proj1 Hkeys Hk) as Ht. rewrite fueled_bind_Ok. setoid_rewrite expected_active_spec. split.
  - intros (r & (Hc & -> & Hm) & H). case_bool_decide as Ha; [|done]. simpl in H.
    split_and!; [done..|by rewrite Ha|]. intros Hidle. unfold all_idle in Hidle. rewrite Hidle in H.
    destruct (Z.eqb_spec (Qnum (wfq_virtual_time state)) 0); done.
  - intros (_ & Hc & Ha & Hm & Hi). exists (wfq_active_packets state). split; [done|].
    rewrite bool_decide_true by done. simpl. unfold all_idle in Hi.
    destruct (forallb _ (wfq_active_packets state)); [|done]. by rewrite Hi.
Qed.

Lemma check_wfq_in_service_iff service :
  check_wfq_in_service owner queue_index state service = Some (Ok tt)
  <-> forall id, service = Some id -> exists tag, bm_get id tags = Some tag /\ Qnum tag <> 0.
Proof.
  unfold check_wfq_in_service. destruct service as [id|]; [|done]. split.
  - intros H x [= <-]. apply fueled_bind_Ok in H as (tag & Ht%(proj1 (or_panic_Ok _ _)) & H).
    exists tag. split; [done|]. by destruct (Z.eqb_spec (Qnum tag) 0).
  - intros H. destruct (H id eq_refl) as (tag & Ht & Hz). rewrite Ht.
    cbn [or_panic mbind fueled_bind]. by destruct (Z.eqb_spec (Qnum tag) 0).
Qed.

Lemma class_tags_nonempty class l tag : last (class_tags class l) = Some tag -> (class < n)%nat.
Proof.
  intros H%last_Some_elem_of. unfold class_tags in H. apply list_elem_of_omap in H as (id & _ & H).
  case_decide as Hc; [|done]. by eapply payload_class_lt.
Qed.

Lemma check_wfq_classes_iff service :
  (forall id, service = Some id -> is_Some (payload_class packet_of id n)) ->
  fueled_fold (fun _ => check_wfq_class packet_of owner queue_index state service) tt
    (imap pair (waiting_read (sq_queue queue)).2) = Some (Ok tt)
  <-> (forall class tag, last (class_tags class (sq_queue queue)) = Some tag ->
         exists finish, wfq_finish_times state !! class = Some finish /\ (tag == finish)%Q)
      /\ (forall id class, service = Some id -> payload_class packet_of id n = Some class ->
           class_tags class (sq_queue queue) = [] ->
           exists tag finish, bm_get id tags = Some tag /\ wfq_finish_times state !! class = Some finish
             /\ (tag == finish)%Q).
Proof.
  intros Hsv. rewrite fueled_units, Forall_lookup.
  assert (Hat : forall class e, imap pair (waiting_read (sq_queue queue)).2 !! class = Some e
    <-> (class < n)%nat /\ e = (class, last (class_tags class (sq_queue queue)))).
  { intros class e. rewrite list_lookup_imap. cbn [waiting_read snd]. rewrite list_lookup_fmap.
    destruct (decide (class < n)%nat) as [Hlt|Hge].
    - rewrite lookup_seq_lt by done. simpl. naive_solver.
    - rewrite lookup_seq_ge by lia. simpl. naive_solver lia. }
  setoid_rewrite Hat. split.
  - intros Hall. split.
    + intros class tag Hl. specialize (Hall class _ (conj (class_tags_nonempty _ _ _ Hl) eq_refl)).
      rewrite Hl in Hall. unfold check_wfq_class in Hall.
      apply fueled_bind_Ok in Hall as (finish & Hf%(proj1 (or_panic_Ok _ _)) & Hq%require_iff).
      exists finish. split; [done|]. by apply Qeq_bool_iff.
    + intros id class -> Hc Hnil. specialize (Hall class _ (conj (payload_class_lt _ _ _ Hc) eq_refl)).
      rewrite Hnil in Hall. cbn [last check_wfq_class] in Hall. rewrite Hc in Hall.
      cbn [or_panic mbind fueled_bind] in Hall. rewrite Nat.eqb_refl in Hall.
      apply fueled_bind_Ok in Hall as (tag & Ht%(proj1 (or_panic_Ok _ _)) & Hall).
      apply fueled_bind_Ok in Hall as (finish & Hf%(proj1 (or_panic_Ok _ _)) & Hq%require_iff).
      exists tag, finish. split_and!; [done..|]. by apply Qeq_bool_iff.
  - intros [H1 H2] class e [Hlt ->]. unfold check_wfq_class.
    destruct (last (class_tags class (sq_queue queue))) as [tag|] eqn:Hl.
    + destruct (H1 class tag Hl) as (finish & -> & Hq). cbn [or_panic mbind fueled_bind].
      by apply require_iff, Qeq_bool_iff.
    + destruct service as [id|]; [|done]. destruct (Hsv id eq_refl) as [c Hc]. rewrite Hc.
      cbn [or_panic mbind fueled_bind]. destruct (Nat.eqb_spec class c) as [->|]; [|done].
      apply last_None in Hl. destruct (H2 id c eq_refl Hc Hl) as (tag & finish & -> & -> & Hq).
      cbn [or_panic mbind fueled_bind]. by apply require_iff, Qeq_bool_iff.
Qed.

(** The checks accept exactly the representable states. *)
Lemma check_wfq_iff : wf tags ->
  check_wfq packet_of owner queue_index state queue frontier = Some (Ok tt) <-> wfq_rep.
Proof.
  intros Hwf. unfold check_wfq. rewrite fueled_bind_Ok.
  assert (Hsv : Forall (fun id => is_Some (payload_class packet_of id n)) (active_payloads queue) ->
    forall id, sq_in_service queue = Some id -> is_Some (payload_class packet_of id n)).
  { intros Hall id Hid. rewrite Forall_forall in Hall. apply Hall. unfold active_payloads.
    rewrite Hid. set_solver. }
  split.
  - intros ([] & (H1 & H2 & H3 & H4 & H5)%check_wfq_shape_iff & H).
    apply fueled_bind_Ok in H as ([] & H6 & H).
    apply (check_wfq_active_iff Hwf) in H6 as (H6 & H7 & H8 & H9 & H10).
    apply fueled_bind_Ok in H as (r & (H11 & H12 & ->)%waiting_fold & H).
    apply fueled_bind_Ok in H as ([] & H13 & H). rewrite check_wfq_in_service_iff in H13.
    apply check_wfq_classes_iff in H as [H14 H15]; [|by apply Hsv]. by split.
  - intros [H1 H2 H3 H4 H5 H6 H7 H8 H9 H10 H11 H12 H13 H14 H15]. exists tt.
    split; [by apply check_wfq_shape_iff|]. rewrite fueled_bind_Ok. exists tt.
    split; [by apply check_wfq_active_iff|]. rewrite fueled_bind_Ok. eexists.
    split; [by apply waiting_fold|]. rewrite fueled_bind_Ok. exists tt.
    split; [by apply check_wfq_in_service_iff|]. apply check_wfq_classes_iff; [by apply Hsv|done].
Qed.
End waiting.

(** ** Arrivals *)

Section arrival.
#[local] Existing Instance in_class_of_dec.

(** Words: the unsigned fields. *)
Record wfq_words (state : WfqSchedulerState) : Prop := {
  ww_weights : Forall (fun weight => 0 <= weight) (wfq_weights state);
  ww_clock : (0 <= wfq_virtual_time state)%Q;
  ww_finish : Forall (fun finish => (0 <= finish)%Q) (wfq_finish_times state);
  ww_tags : wf (wfq_packet_finish_times state);
}.

(** Only an empty queue counts no packet. *)
Lemma counts_idle n l : Forall (fun id => is_Some (payload_class packet_of id n)) l ->
  all_idle (class_counts n l) = true -> l = [].
Proof.
  intros Hc Hidle. destruct l as [|id l]; [done|]. apply Forall_cons in Hc as [[class Hc] _].
  pose proof (payload_class_lt _ _ _ Hc) as Hlt. unfold all_idle in Hidle. rewrite forallb_forall in Hidle.
  pose proof (class_counts_lookup n (id :: l) class Hlt) as Hl.
  apply list_elem_of_lookup_2, list_elem_of_In, Hidle in Hl.
  unfold class_count in Hl. rewrite filter_cons_True in Hl by done. simpl in Hl. lia.
Qed.

(** An idle queue holds nothing. *)
Lemma idle_empty state queue frontier : wfq_rep state queue frontier ->
  all_idle (wfq_active_packets state) = true -> active_payloads queue = [].
Proof. intros H Hidle. rewrite (wr_counts _ _ _ H) in Hidle. by eapply counts_idle, Hidle; apply H. Qed.

Lemma rep_ok state queue frontier : wfq_words state -> wfq_rep state queue frontier ->
  wfq_ok state (sq_queue queue).
Proof.
  intros Hw H. split; [apply H| |apply H|apply H| |].
  - pose proof (ww_weights _ Hw) as H1. pose proof (wr_weights _ _ _ H) as H2.
    rewrite Forall_forall in *. intros w Hin. specialize (H1 w Hin). specialize (H2 w Hin). lia.
  - pose proof (wr_bounds _ _ _ H) as Hb. pose proof (wr_counts _ _ _ H) as Hc. rewrite Forall_forall in *.
    intros x Hx. specialize (Hb x Hx). rewrite Hc in Hx. unfold class_counts in Hx.
    apply list_elem_of_fmap in Hx as (c & -> & _). unfold in_u64. lia.
  - split; [|apply H]. eapply Forall_impl; [apply H|]. intros id (tag & _ & _ & Ht & _). by rewrite Ht.
Qed.

(** The clock step an arrival begins with. *)
Lemma clock_rep state queue frontier time_ns rate_bps node state1 :
  wfq_words state -> wfq_rep state queue frontier -> wfq_last_updated_ns state <= time_ns ->
  0 <= rate_bps ->
  (if all_idle (wfq_active_packets state) then
     Ok (state <| wfq_virtual_time := zero_rational |>
               <| wfq_finish_times ::= fmap (fun _ => zero_rational) |>)
   else wfq_advance_virtual_time state time_ns rate_bps node) = Ok state1 ->
  wfq_words state1 /\ wfq_rep state1 queue (Some time_ns)
  /\ wfq_packet_finish_times state1 = wfq_packet_finish_times state
  /\ wfq_active_packets state1 = wfq_active_packets state
  /\ wfq_weights state1 = wfq_weights state.
Proof.
  intros Hw H Ht Hr Hs. destruct (all_idle (wfq_active_packets state)) eqn:Hidle.
  - injection Hs as <-. pose proof (idle_empty _ _ _ H Hidle) as Hempty.
    unfold active_payloads in Hempty. apply app_nil in Hempty as [Hq Hsv].
    destruct Hw as [W1 W2 W3 W4]. destruct H as [H1 H2 H3 H4 H5 H6 H7 H8 H9 H10 H11 H12 H13 H14 H15].
    split_and!; [|split|done..]; cbn in *; try done; rewrite ?Hq; try done.
    + split; cbn; [done|done| |done]. rewrite Forall_fmap. by apply Forall_forall.
    + by rewrite length_fmap.
    + intros id class Hid. by rewrite Hid in Hsv.
  - destruct (advance_spec state (sq_queue queue) time_ns rate_bps node (rep_ok _ _ _ Hw H) Hidle Ht)
      as (v & Hv & Hq). rewrite Hv in Hs. injection Hs as <-.
    assert (Hv0 : (0 <= v)%Q).
    { rewrite Hq. unfold fluid_clock. rewrite Hidle. pose proof (ww_clock _ Hw).
      assert (0 <= inject_Z ((time_ns - wfq_last_updated_ns state) * rate_bps)
                / inject_Z (1000000000 * wfq_active_weight_sum state))%Q; [|by apply (Qplus_le_compat 0 _ 0)].
      destruct (active_weight_pos (wfq_weights state) (wfq_active_packets state) 0) as [Hsum _];
        [apply (rep_ok _ _ _ Hw H)|apply H|]. fold (wfq_active_weight_sum state) in Hsum.
      apply Qmult_le_0_compat; [unfold Qle; simpl; nia|]. apply Qinv_le_0_compat. unfold Qle. simpl. lia. }
    destruct Hw as [W1 W2 W3 W4]. destruct H as [H1 H2 H3 H4 H5 H6 H7 H8 H9 H10 H11 H12 H13 H14 H15].
    split_and!; [by split|split|done..]; cbn in *; try done. unfold all_idle in *. congruence.
Qed.

(** A tag past the class and every packet before it. *)
Definition placed (state : WfqSchedulerState) (finish : ExactRational) (class : nat)
    (q1 q2 : list PayloadId) : Prop :=
  (0 < finish)%Q
  /\ (forall old, wfq_finish_times state !! class = Some old -> (old <= finish)%Q)
  /\ Forall (fun p => exists x, bm_get p (wfq_packet_finish_times state) = Some x /\ (x <= finish)%Q) q1
  /\ match q2 with
     | [] => True
     | p :: _ => exists x, bm_get p (wfq_packet_finish_times state) = Some x /\ (finish < x)%Q
     end.

Lemma positive_num q : (0 < q)%Q -> Qnum q <> 0.
Proof. unfold Qlt. simpl. lia. Qed.

Lemma class_tags_cons state class id l : class_tags state class (id :: l)
  = option_list (if decide (in_class_of (length (wfq_weights state)) class id)
                 then bm_get id (wfq_packet_finish_times state) else None) ++ class_tags state class l.
Proof. unfold class_tags. simpl. case_decide; [|done]. by destruct (bm_get _ _). Qed.

(** The tags of a class are read from the tags of its packets. *)
Lemma class_tags_ext state state' class l :
  length (wfq_weights state') = length (wfq_weights state) ->
  (forall id, id ∈ l -> bm_get id (wfq_packet_finish_times state')
                        = bm_get id (wfq_packet_finish_times state)) ->
  class_tags state' class l = class_tags state class l.
Proof.
  intros Hn Hl. induction l as [|id l IH]; [done|]. rewrite !class_tags_cons, Hn.
  rewrite (Hl id) by set_solver. rewrite IH by (intros; apply Hl; set_solver). done.
Qed.

Section insertion.
Context (state : WfqSchedulerState) (queue : SwitchQueueState) (frontier : option Z).
Context (id : PayloadId) (class : nat) (finish : ExactRational) (q1 q2 : list PayloadId) (now : Z).
Context (H : wfq_rep state queue frontier) (Hq : sq_queue queue = q1 ++ q2).
Context (Hc : payload_class packet_of id (length (wfq_weights state)) = Some class).
Context (Hnew : bm_get id (wfq_packet_finish_times state) = None).
Context (Hp : placed state finish class q1 q2).
Context (Hroom : wfq_active_packets state !!! class + 1 <= u64_max).
#[local] Abbreviation tags := (wfq_packet_finish_times state).

#[local] Definition inserted : WfqSchedulerState :=
  mkWfq (wfq_weights state) (wfq_virtual_time state) now
    (<[class := finish]> (wfq_finish_times state))
    (<[class := wfq_active_packets state !!! class + 1]> (wfq_active_packets state))
    (bm_insert id finish tags).

#[local] Definition longer : SwitchQueueState := queue <| sq_queue := q1 ++ id :: q2 |>.

Lemma longer_active : active_payloads longer ≡ₚ active_payloads queue ++ [id].
Proof using All.
  unfold active_payloads. cbn. rewrite Hq, <- !app_assoc. apply Permutation_app_head. simpl.
  rewrite app_assoc. by rewrite Permutation_cons_append.
Qed.

Lemma old_tag x : x ∈ active_payloads queue -> bm_get x (bm_insert id finish tags) = bm_get x tags.
Proof using All.
  intros Hx. apply bm_get_insert_ne. intros <-. apply (wr_tags _ _ _ H) in Hx.
  rewrite Hnew in Hx. by destruct Hx.
Qed.

Lemma queue_active x : x ∈ q1 ++ q2 -> x ∈ active_payloads queue.
Proof using All. intros Hx. unfold active_payloads. rewrite Hq. apply elem_of_app. by left. Qed.

Lemma inserted_counts : wfq_active_packets inserted
  = class_counts (length (wfq_weights state)) (active_payloads longer).
Proof using All.
  rewrite (class_counts_perm _ _ _ longer_active), (class_counts_snoc _ _ _ _ Hc). cbn.
  pose proof (payload_class_lt _ _ _ Hc) as Hlt. rewrite (wr_counts _ _ _ H). f_equal. f_equal.
  apply list_lookup_total_correct. by apply class_counts_lookup.
Qed.

Lemma inserted_waiting : Forall (waiting_one inserted) (q1 ++ id :: q2).
Proof using All.
  pose proof (payload_class_lt _ _ _ Hc) as Hlt.
  assert (Hfl : (class < length (wfq_finish_times state))%nat) by (by rewrite (wr_finish _ _ _ H)).
  apply Forall_forall. intros x Hx. destruct (decide (x = id)) as [->|Hne].
  - exists finish, class, finish. cbn. rewrite bm_get_insert_eq, list_lookup_insert_eq by done.
    split_and!; [done..|by apply positive_num, Hp|apply Qle_refl].
  - assert (Hx' : x ∈ q1 ++ q2) by set_solver.
    pose proof (wr_waiting _ _ _ H) as Hw. rewrite Hq, Forall_forall in Hw.
    destruct (Hw x Hx') as (t & c & f & Ht & Hcx & Hf & Hn & Hle).
    destruct (decide (c = class)) as [->|Hcc].
    + exists t, class, finish. cbn. rewrite old_tag, list_lookup_insert_eq by (done || by apply queue_active).
      split_and!; [done..|]. eapply Qle_trans; [done|]. destruct Hp as (_ & Hmax & _). by apply Hmax.
    + exists t, c, f. cbn. rewrite old_tag, list_lookup_insert_ne by (done || by apply queue_active). done.
Qed.

(** No packet behind the new one is of its class. *)
Lemma none_behind : class_tags state class q2 = [].
Proof using All.
  destruct Hp as (_ & Hmax & H1 & H2).
  assert (Hord : tag_ordered tags (q1 ++ q2)).
  { rewrite <- Hq. split; [|apply H]. eapply Forall_impl; [apply H|].
    intros x (tag & _ & _ & Ht & _). by rewrite Ht. }
  destruct (tag_ordered_insert tags id finish q1 q2 Hord Hnew H1 H2) as [_ Hbehind].
  pose proof (wr_waiting _ _ _ H) as Hw. rewrite Hq, Forall_app in Hw. destruct Hw as [_ Hw].
  clear - Hbehind Hw Hmax. induction q2 as [|x l IH]; [done|].
  apply Forall_cons in Hbehind as [(y & Hy & Hlt) Hbehind].
  apply Forall_cons in Hw as [(t & c & f & Ht & Hcx & Hf & _ & Hle) Hw].
  rewrite class_tags_cons, IH by done. case_decide as Hin; [|done]. exfalso.
  unfold in_class_of in Hin. rewrite Hin in Hcx. injection Hcx as <-. rewrite Ht in Hy. injection Hy as <-.
  apply (Qlt_irrefl finish). eapply Qlt_le_trans; [done|]. eapply Qle_trans; [done|]. by apply Hmax.
Qed.

Lemma class_tags_app s c l l' : class_tags s c (l ++ l') = class_tags s c l ++ class_tags s c l'.
Proof using Type. unfold class_tags. apply omap_app. Qed.

(** The tags of a class after the insertion. *)
Lemma inserted_tags c : class_tags inserted c (q1 ++ id :: q2)
  = if decide (c = class) then class_tags state class q1 ++ [finish]
    else class_tags state c (q1 ++ q2).
Proof using All.
  assert (Hold : forall l, (forall x, x ∈ l -> x ∈ q1 ++ q2) ->
    class_tags inserted c l = class_tags state c l).
  { intros l Hl. apply class_tags_ext; [done|]. intros x Hx. cbn. by apply old_tag, queue_active, Hl. }
  rewrite class_tags_app, class_tags_cons, !Hold by set_solver.
  cbn [inserted wfq_weights wfq_packet_finish_times]. rewrite bm_get_insert_eq.
  destruct (decide (c = class)) as [->|Hcc].
  - rewrite decide_True by done. simpl. by rewrite none_behind.
  - rewrite decide_False by (unfold in_class_of; congruence). simpl. by rewrite class_tags_app.
Qed.

Lemma inserted_rep : wfq_rep inserted longer (Some now).
Proof using All.
  pose proof (payload_class_lt _ _ _ Hc) as Hlt.
  assert (Hord : tag_ordered tags (q1 ++ q2)).
  { rewrite <- Hq. split; [|apply H]. eapply Forall_impl; [apply H|].
    intros x (tag & _ & _ & Ht & _). by rewrite Ht. }
  assert (Hfl : (class < length (wfq_finish_times state))%nat) by (by rewrite (wr_finish _ _ _ H)).
  destruct (tag_ordered_insert tags id finish q1 q2 Hord Hnew ltac:(apply Hp) ltac:(apply Hp)) as [[_ Hs] _].
  split; cbn [inserted longer wfq_weights wfq_finish_times wfq_active_packets wfq_packet_finish_times
    sq_queue sq_in_service wfq_last_updated_ns wfq_virtual_time].
  - apply H.
  - apply H.
  - rewrite length_insert. apply H.
  - rewrite length_insert. apply H.
  - lia.
  - intros x. rewrite longer_active, elem_of_app, list_elem_of_singleton. destruct (decide (x = id)) as [->|Hne].
    + rewrite bm_get_insert_eq. split; [by right|by eauto].
    + rewrite bm_get_insert_ne, (wr_tags _ _ _ H) by done. naive_solver.
  - rewrite longer_active. apply Forall_app. split; [apply H|]. apply Forall_singleton. by rewrite Hc.
  - apply inserted_counts.
  - apply Forall_insert; [apply H|done].
  - intros Hidle. exfalso. unfold all_idle in Hidle. rewrite forallb_forall in Hidle.
    assert (Hl : wfq_active_packets inserted !! class = Some (wfq_active_packets state !!! class + 1)).
    { cbn. apply list_lookup_insert_eq. by rewrite (wr_active _ _ _ H). }
    pose proof (list_elem_of_lookup_2 _ _ _ Hl) as Hin. apply list_elem_of_In, Hidle in Hin.
    assert (0 <= wfq_active_packets state !!! class); [|lia].
    rewrite (wr_counts _ _ _ H), (list_lookup_total_correct _ _ _ (class_counts_lookup _ _ _ Hlt)). lia.
  - apply inserted_waiting.
  - done.
  - intros x Hx. destruct (wr_service _ _ _ H x Hx) as (t & Ht & Hn). exists t. split; [|done].
    rewrite old_tag; [done|]. apply (wr_tags _ _ _ H). by rewrite Ht.
  - intros c t. rewrite inserted_tags. case_decide as Hcc.
    + subst. rewrite last_snoc. intros [= <-]. exists finish. by rewrite list_lookup_insert_eq by done.
    + rewrite <- Hq. intros (f & Hf & He)%(wr_last _ _ _ H). exists f.
      by rewrite list_lookup_insert_ne by done.
  - intros x c Hx Hcx. rewrite inserted_tags. case_decide as Hcc; [by intros [_ ?]%app_nil|].
    rewrite <- Hq. intros Hnil. destruct (wr_last_service _ _ _ H x c Hx Hcx Hnil) as (t & f & Ht & Hf & He).
    exists t, f. rewrite old_tag, list_lookup_insert_ne by (done || (apply (wr_tags _ _ _ H); by rewrite Ht)).
    done.
Qed.
End insertion.

(** The checks read the waiting packets and the packet in service. *)
Lemma rep_ext state queue queue' frontier : sq_queue queue' = sq_queue queue ->
  sq_in_service queue' = sq_in_service queue -> wfq_rep state queue frontier ->
  wfq_rep state queue' frontier.
Proof.
  intros E1 E2 [H1 H2 H3 H4 H5 H6 H7 H8 H9 H10 H11 H12 H13 H14 H15].
  assert (Ha : active_payloads queue' = active_payloads queue) by (unfold active_payloads; congruence).
  split; rewrite ?E1, ?E2, ?Ha; done.
Qed.

Lemma ratio_max_r a b : (b <= ratio_max a b)%Q.
Proof.
  unfold ratio_max. destruct (Qle_bool a b) eqn:E; [apply Qle_refl|].
  apply Qlt_le_weak, Qnot_le_lt. rewrite <- Qle_bool_iff. by rewrite E.
Qed.

Lemma ratio_new_pos a b : 0 < a -> 0 < b -> (0 < ratio_new a b)%Q.
Proof.
  intros Ha Hb. unfold ratio_new. rewrite Qred_correct. apply Qlt_shift_div_l; [unfold Qlt; simpl; lia|].
  rewrite Qmult_0_l. unfold Qlt. simpl. lia.
Qed.

(** A tag lies strictly past the class's history, which is not negative. *)
Lemma tag_past v old service : (0 <= old)%Q -> (0 < service)%Q ->
  let finish := Qred (ratio_max v old + service) in (0 < finish)%Q /\ (old <= finish)%Q.
Proof.
  intros Hold Hs finish. unfold finish. rewrite Qred_correct. pose proof (ratio_max_r v old) as Hm.
  assert (old < ratio_max v old + service)%Q.
  { rewrite <- (Qplus_0_r old) at 1. rewrite (Qplus_comm old), (Qplus_comm _ service).
    by apply Qplus_lt_le_compat. }
  split; [by eapply Qle_lt_trans|by apply Qlt_le_weak].
Qed.

Lemma wfq_enqueue_rep state queue frontier packet now rate node state' q' :
  wfq_words state -> wfq_rep state queue frontier -> packet_of (pk_id packet) = Some packet ->
  0 < pk_size_bytes packet -> 0 <= rate ->
  wfq_enqueue state (sq_queue queue) packet now rate node = Ok (state', q') ->
  wfq_words state' /\ wfq_rep state' (queue <| sq_queue := q' |>) (Some now)
  /\ q' ≡ₚ pk_id packet :: sq_queue queue /\ pk_id packet ∉ active_payloads queue.
Proof.
  intros Hw H Hpk Hsize Hrate He. unfold wfq_enqueue in He.
  destruct (scheduler_class _ _) as [class|] eqn:Hclass; [|done]. cbn [ok_or mbind result_bind] in He.
  destruct (wfq_class_ok state class); [|done]. cbn [negb] in He.
  destruct (Z.ltb_spec now (wfq_last_updated_ns state)) as [|Ht]; [done|].
  match type of He with (?s ≫= _) = _ => destruct s as [state1|] eqn:Hs; [|done] end.
  cbn [mbind result_bind] in He.
  destruct (clock_rep _ _ _ _ _ _ _ Hw H Ht Hrate Hs) as (Hw1 & H1 & E1 & E2 & E3).
  clear Hs H Hw Ht. rewrite <- E3 in Hclass.
  assert (Hpc : payload_class packet_of (pk_id packet) (length (wfq_weights state1)) = Some class).
  { unfold payload_class. by rewrite Hpk. }
  pose proof (payload_class_lt _ _ _ Hpc) as Hlt.
  cbn [wfq_packet_finish_times wfq_active_packets] in He.
  set (finish := Qred _) in He. set (old := wfq_finish_times state1 !!! class) in finish.
  assert (Hold : wfq_finish_times state1 !! class = Some old).
  { apply list_lookup_lookup_total_lt. by rewrite (wr_finish _ _ _ H1). }
  pose proof (rep_ok _ _ _ Hw1 H1) as Hok. destruct (wfq_class_ok_true _ _ _ Hok Hlt) as [_ Hweight].
  destruct (tag_past (wfq_virtual_time state1) old
    (ratio_new (pk_size_bytes packet * 8) (wfq_weights state1 !!! class))) as [Hpos Hpast].
  { pose proof (ww_finish _ Hw1) as Hf. rewrite Forall_lookup in Hf. by eapply Hf. }
  { apply ratio_new_pos; lia. }
  fold finish in Hpos, Hpast.
  destruct (wfq_scan_spec (wfq_packet_finish_times state1) node finish (sq_queue queue) 0)
    as (q1 & q2 & Hq & Hscan & Hq1 & Hq2); [apply (wok_order _ _ Hok)|].
  simpl in Hscan. cbn in He. rewrite Hscan in He. cbn [mbind result_bind] in He.
  destruct (bm_get (pk_id packet) (wfq_packet_finish_times state1)) as [|] eqn:Hnew; [done|].
  destruct (checked_add _ _) as [active|] eqn:Ha; [|done]. apply checked_add_Some in Ha as [-> Hroom].
  cbn [ok_or mbind result_bind] in He. rewrite Hq, insert_at_app in He. injection He as <- <-.
  assert (Hplaced : placed state1 finish class q1 q2).
  { split_and!; [done| |done|done]. intros old' Ho. rewrite Hold in Ho. by injection Ho as <-. }
  split_and!.
  - destruct Hw1 as [W1 W2 W3 W4]. split; cbn; [done|done| |by apply bm_insert_wf].
    apply Forall_insert; [done|by apply Qlt_le_weak].
  - by apply (inserted_rep state1 queue (Some now) (pk_id packet) class finish q1 q2 now).
  - rewrite Hq. symmetry. apply Permutation_middle.
  - rewrite <- (wr_tags _ _ _ H1), Hnew. by intros [? ?].
Qed.

(** ** Service and completion *)

(** The head of the queue goes into service with its tag. *)
Lemma served_rep state queue frontier id rest : wfq_rep state queue frontier ->
  sq_queue queue = id :: rest -> sq_in_service queue = None ->
  wfq_rep state (queue <| sq_queue := rest |> <| sq_in_service := Some id |>) frontier.
Proof.
  intros [H1 H2 H3 H4 H5 H6 H7 H8 H9 H10 H11 H12 H13 H14 H15] Hq Hs.
  assert (Ha : active_payloads (queue <| sq_queue := rest |> <| sq_in_service := Some id |>)
               ≡ₚ active_payloads queue).
  { unfold active_payloads. cbn. rewrite Hq, Hs, app_nil_r. symmetry. apply Permutation_cons_append. }
  rewrite Hq in H11, H12, H14. apply Forall_cons in H11 as [(tag & class & f & Ht & Hc & Hf & Hn & Hle) H11].
  split; cbn -[class_tags active_payloads class_counts]; try done.
  - intros x. by rewrite Ha.
  - by rewrite Ha.
  - by rewrite H8, (class_counts_perm _ _ _ Ha).
  - by apply StronglySorted_inv in H12 as [? _].
  - intros x [= <-]. by exists tag.
  - intros c t Hlast. apply H14. rewrite class_tags_cons. by rewrite last_app, Hlast.
  - intros x c [= <-] Hcx Hnil. rewrite Hc in Hcx. injection Hcx as <-. exists tag.
    destruct (H14 class tag) as (f' & Hf' & He); [|by eauto].
    rewrite class_tags_cons, Hnil, decide_True by done. by rewrite Ht.
Qed.

Lemma counts_completed n l id class : payload_class packet_of id n = Some class ->
  Forall (fun count => count <= u64_max) (class_counts n (l ++ [id])) ->
  alter (fun n => n -w 1) class (class_counts n (l ++ [id])) = class_counts n l.
Proof.
  intros Hc Hmax. pose proof (payload_class_lt _ _ _ Hc) as Hlt.
  assert (Hl : (class < length (class_counts n l))%nat) by (by rewrite class_counts_length).
  rewrite (class_counts_snoc _ _ _ _ Hc) in Hmax |- *. rewrite Forall_lookup in Hmax.
  specialize (Hmax class _ (list_lookup_insert_eq _ _ _ Hl)).
  apply list_eq. intros c. destruct (decide (c = class)) as [->|Hne].
  - rewrite list_lookup_alter_eq, list_lookup_insert_eq, class_counts_lookup by done. simpl. f_equal.
    rewrite wsub_small; lia.
  - by rewrite list_lookup_alter_ne, list_lookup_insert_ne by done.
Qed.

Section completion.
Context (state : WfqSchedulerState) (queue : SwitchQueueState) (now : Z).
Context (id : PayloadId) (class : nat).
Context (Hw : wfq_words state) (H : wfq_rep state queue (Some now)) (Hnd : NoDup (active_payloads queue)).
Context (Hs : sq_in_service queue = Some id).
Context (Hc : payload_class packet_of id (length (wfq_weights state)) = Some class).

#[local] Definition completed (clock : ExactRational) (finish_times : list ExactRational)
  : WfqSchedulerState :=
  mkWfq (wfq_weights state) clock now finish_times
    (alter (fun n => n -w 1) class (wfq_active_packets state))
    (bm_remove id (wfq_packet_finish_times state)).

#[local] Definition vacated : SwitchQueueState := queue <| sq_in_service := None |>.

Lemma vacated_active : active_payloads vacated = sq_queue queue.
Proof using Type. unfold active_payloads, vacated. cbn. apply app_nil_r. Qed.

Lemma service_active : active_payloads queue = sq_queue queue ++ [id].
Proof using Hs. unfold active_payloads. by rewrite Hs. Qed.

Lemma remaining_ne x : x ∈ sq_queue queue -> x <> id.
Proof using All.
  rewrite service_active in Hnd. apply NoDup_app in Hnd as (_ & Hd & _). intros Hx ->.
  apply (Hd id Hx). set_solver.
Qed.

Lemma remaining_tag x : x <> id ->
  bm_get x (bm_remove id (wfq_packet_finish_times state)) = bm_get x (wfq_packet_finish_times state).
Proof using All.
  intros Hne. by rewrite bm_get_remove, decide_False by (done || apply Hw).
Qed.

Lemma completed_counts clock finish_times :
  wfq_active_packets (completed clock finish_times)
  = class_counts (length (wfq_weights state)) (sq_queue queue).
Proof using All.
  cbn. pose proof (wr_bounds _ _ _ H) as Hb. rewrite (wr_counts _ _ _ H), service_active in Hb |- *.
  by apply counts_completed.
Qed.

Lemma completed_tags c clock finish_times :
  class_tags (completed clock finish_times) c (sq_queue queue) = class_tags state c (sq_queue queue).
Proof using All.
  apply class_tags_ext; [done|]. intros x Hx. by apply remaining_tag, remaining_ne.
Qed.

(** A completion that leaves packets behind keeps the class histories; one that
    empties the queue restarts the clock. *)
Lemma completed_rep clock finish_times :
  length finish_times = length (wfq_weights state) ->
  (if all_idle (wfq_active_packets (completed clock finish_times))
   then Qnum clock = 0 else finish_times = wfq_finish_times state) ->
  wfq_rep (completed clock finish_times) vacated (Some now).
Proof using All.
  intros Hlen Hcase. pose proof completed_counts as Hcounts.
  assert (Hcl : Forall (fun x => is_Some (payload_class packet_of x (length (wfq_weights state))))
                  (sq_queue queue)).
  { pose proof (wr_classes _ _ _ H) as Hcl. rewrite service_active in Hcl. by apply Forall_app in Hcl as [? _]. }
  assert (Hkeep : sq_queue queue = [] \/ finish_times = wfq_finish_times state).
  { destruct (all_idle _) eqn:Hidle; [left|by right]. rewrite Hcounts in Hidle. by eapply counts_idle. }
  split; rewrite ?vacated_active, ?Hcounts; cbn -[class_tags class_counts completed]; try done; try apply H.
  - by rewrite class_counts_length.
  - intros x. cbn. rewrite bm_get_remove by apply Hw. case_decide as Hx.
    + subst. split; [by intros [? ?]|]. by intros ?%remaining_ne.
    + rewrite (wr_tags _ _ _ H), service_active. set_solver.
  - apply Forall_forall. intros count Hin. unfold class_counts in Hin.
    apply list_elem_of_fmap in Hin as (c & -> & Hin). apply elem_of_seq in Hin. simpl in Hin.
    pose proof (wr_bounds _ _ _ H) as Hb. rewrite (wr_counts _ _ _ H), Forall_lookup in Hb.
    specialize (Hb c _ (class_counts_lookup _ _ _ (proj2 Hin))). revert Hb. rewrite service_active.
    unfold class_count. rewrite filter_app, length_app. intros Hb. lia.
  - intros Hidle. rewrite Hcounts, Hidle in Hcase. done.
  - destruct Hkeep as [->| ->]; [done|]. apply Forall_forall. intros x Hx.
    pose proof (wr_waiting _ _ _ H) as Hf. rewrite Forall_forall in Hf.
    destruct (Hf x Hx) as (t & c & f & Ht & Hrest). exists t, c, f. split; [|done].
    cbn. by rewrite remaining_tag by (by apply remaining_ne).
  - eapply StronglySorted_impl_in, H. intros x y Hx Hy. unfold tag_le. cbn.
    by rewrite !remaining_tag by (by apply remaining_ne).
  - intros c t. rewrite completed_tags. intros Hl. destruct Hkeep as [Hnil| ->]; [by rewrite Hnil in Hl|].
    by apply H in Hl.
Qed.
End completion.

Lemma wfq_complete_rep state queue frontier packet now rate node state' :
  wfq_words state -> wfq_rep state queue frontier -> NoDup (active_payloads queue) ->
  sq_in_service queue = Some (pk_id packet) -> packet_of (pk_id packet) = Some packet -> 0 <= rate ->
  wfq_complete state packet now rate node = Ok state' ->
  wfq_words state' /\ wfq_rep state' (vacated queue) (Some now).
Proof.
  intros Hw H Hnd Hs Hpk Hrate He. unfold wfq_complete in He.
  destruct (scheduler_class _ _) as [class|] eqn:Hclass; [|done]. cbn [ok_or mbind result_bind] in He.
  destruct (_ || _); [done|].
  destruct (wfq_advance_virtual_time _ _ _ _) as [state1|] eqn:Hadv; [|done].
  assert (Hidle : all_idle (wfq_active_packets state) = false).
  { apply not_true_iff_false. intros Hi%(idle_empty _ _ _ H). unfold active_payloads in Hi.
    rewrite Hs in Hi. by apply app_nil in Hi as [_ ?]. }
  assert (Ht : wfq_last_updated_ns state <= now).
  { unfold wfq_advance_virtual_time in Hadv. destruct (checked_sub _ _) eqn:E; [|done].
    apply checked_sub_Some in E. lia. }
  destruct (clock_rep state queue frontier now rate node state1 Hw H Ht Hrate) as (Hw1 & H1 & E1 & E2 & E3);
    [by rewrite Hidle|]. clear Hadv H Hw. rewrite <- E3 in Hclass. cbn [ok_or mbind result_bind] in He.
  destruct (bm_get _ _) as [tag|]; [|done]. cbn [ok_or mbind result_bind] in He.
  assert (Hpc : payload_class packet_of (pk_id packet) (length (wfq_weights state1)) = Some class).
  { unfold payload_class. by rewrite Hpk. }
  set (clear := all_idle _) in He. 
  pose (finish := if clear then <[class := zero_rational]> (wfq_finish_times state1) else wfq_finish_times state1).
  pose (clock := if clear then zero_rational else wfq_virtual_time state1).
  assert (Hs' : state' = completed state1 now (pk_id packet) class clock finish).
  { unfold finish, clock. destruct clear; by injection He as <-. }
  assert (Hcl : forall v fs, all_idle (wfq_active_packets
    (completed state1 now (pk_id packet) class v fs)) = clear) by done.
  subst state'. clear He. clearbody clear. split.
  - destruct Hw1 as [W1 W2 W3 W4]. unfold finish, clock. split; cbn; [done| | |by apply bm_remove_wf].
    + destruct clear; [apply Qle_refl|done].
    + destruct clear; [|done]. apply Forall_insert; [done|apply Qle_refl].
  - apply completed_rep; try done.
    + unfold finish. destruct clear; rewrite ?length_insert; apply H1.
    + rewrite Hcl. unfold clock, finish. by destruct clear.
Qed.
End arrival.
End wfq.
