(* ===== verification/Checkpoint.v ===== *)
(** * The operations of a queue keep its checkpoint valid

    A run can be stopped and its state taken as the image of another run, so a queue
    that passes [validate_scheduler_state] should pass it again after every operation
    of its scheduler: the arrival of a packet, the start of its service and its
    completion. The file proves it for every discipline, with one exception that it
    shows on an example: a weighted fair queue behind priority flow control. *)

From Stdlib Require Import List.
From S2P Require Import Prelude OrdMap Event ExecError EcnRamp Model Image Sched Validate.
From S2P Require Import Transition SwitchHandlers Effects SchedulerChecks WfqCheckpoint.

(** An invariant of a loop's body holds of what the loop returns. *)
Lemma wloop_result {S R} (step : S -> S + R) (I : S -> Prop) (Q : R -> Prop) d s r :
  (forall s s', I s -> step s = inl s' -> I s') -> (forall s r, I s -> step s = inr r -> Q r) ->
  I s -> wloop step d s = inr r -> Q r.
Proof.
  intros HI HQ Hs Hr%wloop_inr. induction Hr as [s r Hr|s s' r Hr _ IH]; [eauto|]. apply IH. by eapply HI.
Qed.

(** ** Round robin *)

Lemma drr_shape_iff state : drr_shape_ok state = true
  <-> drr_quanta_bytes state <> [] /\ existsb (fun quantum => quantum =? 0) (drr_quanta_bytes state) = false
      /\ length (drr_deficits_bytes state) = length (drr_quanta_bytes state)
      /\ drr_current_class state < Z.of_nat (length (drr_quanta_bytes state)).
Proof.
  unfold drr_shape_ok. rewrite negb_true_iff, !orb_false_iff, !negb_false_iff, bool_decide_eq_false,
    Nat.eqb_eq, Z.ltb_lt. tauto.
Qed.

Lemma drr_refill_length quanta packets node deficits classes deficits' :
  try_fold (drr_refill_class quanta packets node) deficits classes = Ok deficits' ->
  length deficits' = length deficits.
Proof.
  apply (try_fold_ind (fun l => length l = length deficits)); [|done]. intros l class l' _ Hl.
  unfold drr_refill_class. destruct (existsb _ _); [|intros [= <-]; by rewrite length_insert].
  intros (d & _ & [= <-])%bind_Ok. by rewrite length_insert.
Qed.

#[local] Definition drr_fits (n : nat) (deficits : list Z) (current : nat) : Prop :=
  length deficits = n /\ (current < n)%nat.

Lemma drr_step_fits quanta packets node deficits current steps :
  drr_fits (length quanta) deficits current ->
  match drr_step quanta packets node (deficits, current, steps) with
  | inl (deficits, current, _) => drr_fits (length quanta) deficits current
  | inr (Ok (_, _, deficits, current)) => drr_fits (length quanta) deficits current
  | inr (Err _) => True
  end.
Proof.
  intros [Hl Hc]. unfold drr_step.
  assert (Hadv : match (if (S current =? length quanta)%nat then
       match try_fold (drr_refill_class quanta packets node) deficits (seq 0 (length quanta)) with
       | Ok deficits => inl (deficits, 0%nat, steps + 1)
       | Err e => inr (Err e)
       end
     else inl (deficits, S current, steps + 1) : _ + result ExecutionError (nat * Z * list Z * nat)) with
    | inl (deficits, current, _) => drr_fits (length quanta) deficits current
    | inr (Ok (_, _, deficits, current)) => drr_fits (length quanta) deficits current
    | inr (Err _) => True
    end).
  { destruct (Nat.eqb_spec (S current) (length quanta)) as [E|E]; [|split; [done|lia]].
    destruct (try_fold _ _ _) eqn:Hf; [|done]. apply drr_refill_length in Hf. split; [by rewrite Hf|lia]. }
  destruct (find_position _ _); [|done]. destruct (_ && _); [|done]. split; [by rewrite length_insert|done].
Qed.

(** A deficit round robin keeps its quanta and the shape of its tables. *)
Lemma drr_select_shape state packets node state' selected :
  drr_select state packets node = Ok (state', selected) ->
  drr_shape_ok state' = true /\ drr_quanta_bytes state' = drr_quanta_bytes state.
Proof.
  unfold drr_select. destruct (_ || _ || _) eqn:Hb; [done|]. apply orb_false_iff in Hb as [[H1 H2]%orb_false_iff H3].
  apply Nat.eqb_neq in H1. apply negb_false_iff, Nat.eqb_eq in H2.
  destruct (Z.ltb_spec (drr_current_class state) (Z.of_nat (length (drr_quanta_bytes state)))) as [Hc|]; [|done].
  cbn [negb]. intros ([[[position steps] deficits] current] & Hr & [= <- _])%bind_Ok.
  destruct (wloop _ _ _) as [|r] eqn:Hl; simpl in Hr; [done|]. subst r.
  apply (wloop_result _ (fun s => drr_fits (length (drr_quanta_bytes state)) s.1.1 s.1.2)
    (fun r => match r with
              | Ok (_, _, deficits, current) => drr_fits (length (drr_quanta_bytes state)) deficits current
              | Err _ => True
              end)) in Hl.
  - destruct Hl as [Hl Hcur]. split; [|done]. apply drr_shape_iff. simpl. split_and!; [|done|done|lia].
    by intros E; rewrite E in H1.
  - intros [[d c] t] s' Hs Hstep. pose proof (drr_step_fits _ packets node d c t Hs) as H. rewrite Hstep in H.
    by destruct s' as [[? ?] ?].
  - intros [[d c] t] r Hs Hstep. pose proof (drr_step_fits _ packets node d c t Hs) as H. by rewrite Hstep in H.
  - split; simpl; [done|lia].
Qed.

(** A weighted round robin has not sent more than a class's weight in a round. *)
Definition wrr_rep (weights sent : list Z) (current : nat) : Prop :=
  length sent = length weights /\ (current < length weights)%nat
  /\ Forall2 (fun s w => 0 <= s <= w) sent weights.

Lemma wrr_step_rep weights packets sent current :
  Forall (fun w => 0 <= w <= u64_max) weights -> wrr_rep weights sent current ->
  match wrr_step weights packets (sent, current) with
  | inl (sent, current) | inr (_, sent, current) => wrr_rep weights sent current
  end.
Proof.
  intros Hw (Hl & Hc & H). destruct (lookup_lt_is_Some_2 _ _ Hc) as [w Hwc].
  destruct (Forall2_lookup_r _ _ _ _ _ H Hwc) as (x & Hx & Hxw).
  rewrite Forall_lookup in Hw. specialize (Hw _ _ Hwc).
  assert (Hset : forall y, 0 <= y <= w -> Forall2 (fun s w => 0 <= s <= w) (<[current := y]> sent) weights).
  { intros y Hy. rewrite <- (list_insert_id _ _ _ Hwc). by apply Forall2_insert. }
  assert (Hadv : wrr_rep weights (<[current := 0]> sent) (S current mod length weights)%nat).
  { split_and!; [by rewrite length_insert|apply Nat.mod_upper_bound; lia|apply Hset; lia]. }
  unfold wrr_step. rewrite (list_lookup_total_correct _ _ _ Hx), (list_lookup_total_correct _ _ _ Hwc).
  destruct (Z.ltb_spec x w); [|done]. destruct (find_position _ _); [|done].
  split_and!; [by rewrite length_insert|done|]. apply Hset. rewrite wadd_small; lia.
Qed.

Lemma wrr_shape_iff state : Forall (fun s => 0 <= s) (wrr_packets_sent_in_round state) ->
  wrr_shape_ok state = true
  <-> wrr_weights state <> [] /\ existsb (fun weight => weight =? 0) (wrr_weights state) = false
      /\ wrr_current_class state < Z.of_nat (length (wrr_weights state))
      /\ Forall2 (fun s w => 0 <= s <= w) (wrr_packets_sent_in_round state) (wrr_weights state).
Proof.
  intros Hpos. unfold wrr_shape_ok. rewrite negb_true_iff, !orb_false_iff, !negb_false_iff, bool_decide_eq_false,
    Nat.eqb_eq, Z.ltb_lt.
  assert (Hz : length (wrr_packets_sent_in_round state) = length (wrr_weights state) ->
    existsb (fun sw => sw.2 <? sw.1) (zip (wrr_packets_sent_in_round state) (wrr_weights state)) = false
    <-> Forall2 (fun s w => 0 <= s <= w) (wrr_packets_sent_in_round state) (wrr_weights state)).
  { generalize (wrr_weights state) as weights. revert Hpos. generalize (wrr_packets_sent_in_round state) as sent.
    clear. intros sent Hpos. induction Hpos as [|s sent Hs Hpos IH]; intros [|w weights] Hl; try done.
    injection Hl as Hl. simpl. rewrite orb_false_iff, IH, Forall2_cons, Z.ltb_ge by done.
    split; intros [? ?]; (split; [lia|done]). }
  split; [intros ((((? & ?) & Hl) & ?) & ?); rewrite Hz in * by done; tauto|].
  intros (? & ? & ? & H). pose proof (Forall2_length _ _ _ H) as Hl. rewrite Hz by done. tauto.
Qed.

Definition wrr_words (state : WrrSchedulerState) : Prop :=
  Forall (fun w => 0 <= w <= u64_max) (wrr_weights state)
  /\ Forall (fun s => 0 <= s) (wrr_packets_sent_in_round state).

Lemma wrr_select_shape state packets node state' selected : wrr_words state -> wrr_shape_ok state = true ->
  wrr_select state packets node = Ok (state', selected) -> wrr_words state' /\ wrr_shape_ok state' = true.
Proof.
  intros [Hw Hs] (Hne & Hnz & Hc & Hf)%wrr_shape_iff; [|done]. unfold wrr_select.
  destruct (_ || _ || _); [done|]. destruct (negb _); [done|].
  destruct (wloop _ _ _) as [|[[position sent] current]] eqn:Hl; [done|]. intros [= <- _].
  apply (wloop_result _ (fun s => wrr_rep (wrr_weights state) s.1 s.2)
    (fun r => wrr_rep (wrr_weights state) r.1.2 r.2)) in Hl.
  - destruct Hl as (Hl & Hcur & Hf'). simpl in *.
    assert (Hs' : Forall (fun s => 0 <= s) sent).
    { apply Forall_lookup. intros i x Hx. destruct (Forall2_lookup_l _ _ _ _ _ Hf' Hx) as (w & _ & ?). lia. }
    split; [by split|]. apply wrr_shape_iff; simpl; [done|]. split_and!; [done|done|lia|done].
  - intros [s c] s' H Hstep. pose proof (wrr_step_rep _ packets s c Hw H) as H'. rewrite Hstep in H'. by destruct s' as [? ?].
  - intros [s c] r H Hstep. pose proof (wrr_step_rep _ packets s c Hw H) as H'. rewrite Hstep in H'.
    by destruct r as [[? ?] ?].
  - split_and!; simpl; [by eapply Forall2_length| |done].
    assert (0 < length (wrr_weights state))%nat by (destruct (wrr_weights state); [done|simpl; lia]). lia.
Qed.

Section queue.
Context (packet_of : PayloadId -> option PacketDescriptor) (owner : NodeId) (queue_index : nat).
Context (maximum_drr_frame_bytes : LinkId -> nat -> nat -> check Z).

(** ** Static priority *)

Section static_priority.
Context (priorities : list Z).
#[local] Abbreviation value id := (scheduler_class_value packet_of id priorities).

Definition sp_ge (x y : PayloadId) : Prop :=
  match value x, value y with Some a, Some b => b <= a | _, _ => False end.

Lemma sp_descending_iff queue : forall previous,
  sp_descending packet_of owner queue_index priorities previous queue = Some (Ok tt)
  <-> Forall (fun id => exists v, value id = Some v /\ forall p, previous = Some p -> v <= p) queue
      /\ StronglySorted sp_ge queue.
Proof.
  induction queue as [|id queue IH]; intros previous; cbn [sp_descending].
  { split; [intros _; by split; constructor|done]. }
  rewrite Forall_cons. split.
  - intros (v & Hv & H)%fueled_bind_Ok. apply (proj1 (or_panic_Ok _ _)) in Hv.
    assert (Hp : forall p, previous = Some p -> v <= p).
    { intros p ->. destruct (Z.ltb_spec p v); [done|lia]. }
    destruct (match previous with Some _ => _ | None => _ end); [done|].
    apply IH in H as [Hf Hs]. split; [split; [exists v; by split|]|constructor; [done|]].
    + eapply Forall_impl; [exact Hf|]. intros x (w & Hw & Hle). exists w. split; [done|].
      intros p Hpp. specialize (Hp p Hpp). specialize (Hle v eq_refl). lia.
    + eapply Forall_impl; [exact Hf|]. intros x (w & Hw & Hle). unfold sp_ge. rewrite Hv, Hw. by apply Hle.
  - intros [[(v & Hv & Hp) Hf] [Hs Hd]%StronglySorted_inv]. rewrite Hv. cbn [or_panic mbind fueled_bind].
    assert (E : match previous with Some p => p <? v | None => false end = false).
    { destruct previous as [p|]; [|done]. specialize (Hp p eq_refl). by apply Z.ltb_ge. }
    rewrite E. apply IH. split; [|done]. rewrite Forall_forall in *. intros x Hx.
    destruct (Hf x Hx) as (w & Hw & _). exists w. split; [done|]. intros p [= <-].
    specialize (Hd x Hx). unfold sp_ge in Hd. by rewrite Hv, Hw in Hd.
Qed.

Definition sp_rep (queue : list PayloadId) : Prop :=
  priorities <> [] /\ Forall (fun id => is_Some (value id)) queue /\ StronglySorted sp_ge queue.

Lemma check_sp_iff queue :
  check_sp packet_of owner queue_index priorities queue = Some (Ok tt) <-> sp_rep (sq_queue queue).
Proof.
  unfold check_sp, sp_rep. case_bool_decide; [split; [done|by intros [? _]]|].
  rewrite sp_descending_iff. split.
  - intros [Hf Hs]. split_and!; [done| |done]. eapply Forall_impl; [exact Hf|]. intros x (v & Hv & _). by exists v.
  - intros (_ & Hf & Hs). split; [|done]. eapply Forall_impl; [exact Hf|]. intros x [v Hv]. by exists v.
Qed.

(** Service at any position keeps the order. *)
Lemma sp_delete queue i : sp_rep queue -> sp_rep (delete i queue).
Proof.
  intros (Hp & Hf & Hs). split_and!; [done|by apply Forall_delete|].
  revert i. induction Hs as [|x l Hs IH Hx]; intros [|i]; simpl; [constructor..|done|].
  apply Forall_cons in Hf as [_ Hf]. constructor; [by apply IH|by apply Forall_delete].
Qed.

(** The insertion position is behind every packet of at least the new priority. *)
Lemma sp_scan_spec node incoming queue : forall i position,
  Forall (fun id => is_Some (value id)) queue ->
  sp_scan (fun id => ok_or (packet_of id) (UnknownPacket id)) priorities node incoming i queue = Ok position ->
  exists q1 q2, queue = q1 ++ q2 /\ position = (i + length q1)%nat
    /\ Forall (fun id => exists v, value id = Some v /\ incoming <= v) q1
    /\ match q2 with
       | [] => True
       | id :: _ => exists v, value id = Some v /\ v < incoming
       end.
Proof.
  induction queue as [|id queue IH]; intros i position Hf; cbn [sp_scan].
  { intros [= <-]. exists [], []. split_and!; [done|simpl; lia|constructor|done]. }
  apply Forall_cons in Hf as [[v Hv] Hf]. pose proof Hv as Hv'. unfold scheduler_class_value, payload_class in Hv'.
  apply bind_Some in Hv' as (c & (pk & Hpk & Hc)%bind_Some & Hl).
  rewrite Hpk. cbn [ok_or mbind result_bind]. rewrite Hc. cbn [ok_or mbind result_bind].
  rewrite (list_lookup_total_correct _ _ _ Hl). destruct (Z.ltb_spec v incoming) as [Hlt|Hge].
  - intros [= <-]. exists [], (id :: queue). split_and!; [done|simpl; lia|constructor|by exists v].
  - intros H. destruct (IH _ _ Hf H) as (q1 & q2 & -> & -> & H1 & H2). exists (id :: q1), q2.
    split_and!; [done|simpl; lia| |done]. constructor; [by exists v|done].
Qed.

Lemma sp_insert id v q1 q2 : value id = Some v ->
  Forall (fun id => exists w, value id = Some w /\ v <= w) q1 ->
  match q2 with [] => True | id :: _ => exists w, value id = Some w /\ w < v end ->
  sp_rep (q1 ++ q2) -> sp_rep (q1 ++ id :: q2).
Proof.
  intros Hv H1 H2 (Hp & Hf & Hs). split_and!; [done| |].
  { apply Forall_app in Hf as [Hf1 Hf2]. apply Forall_app. split; [done|]. constructor; [by exists v|done]. }
  apply StronglySorted_app in Hs as (Hc & Hs1 & Hs2). apply StronglySorted_app. split_and!; [|done|].
  - intros x y Hx [->|Hy]%elem_of_cons; [|by apply Hc]. rewrite Forall_forall in H1.
    destruct (H1 x Hx) as (w & Hw & Hle). unfold sp_ge. by rewrite Hw, Hv.
  - constructor; [done|]. apply Forall_forall. intros y Hy. unfold sp_ge. rewrite Hv.
    destruct q2 as [|z q2]; [by apply not_elem_of_nil in Hy|]. destruct H2 as (w & Hw & Hlt).
    apply StronglySorted_inv in Hs2 as [_ Hz]. apply elem_of_cons in Hy as [->|Hy]; [rewrite Hw; lia|].
    rewrite Forall_forall in Hz. specialize (Hz y Hy). unfold sp_ge in Hz. rewrite Hw in Hz.
    destruct (value y); [lia|done].
Qed.
End static_priority.

(** ** Accepted queues *)

(** The unsigned fields of the scheduler. *)
Definition scheduler_words (scheduler : SchedulerKind) : Prop :=
  match scheduler with
  | WeightedFairQueue state => wfq_words state
  | WeightedRoundRobin state => wrr_words state
  | _ => True
  end.

(** A queue that passes the checks of its discipline; the payloads of a weighted
    fair queue are distinct, which [validate_unique_mutable_payloads] checks. *)
Record accepted (queue : SwitchQueueState) (frontier : option Z) : Prop := {
  acc_words : scheduler_words (sq_scheduler queue);
  acc_distinct : match sq_scheduler queue with
                 | WeightedFairQueue _ => NoDup (active_payloads queue)
                 | _ => True
                 end;
  acc_check : check_scheduler packet_of owner queue_index maximum_drr_frame_bytes queue frontier = Some (Ok tt);
}.

Lemma accepted_wfq queue frontier state : sq_scheduler queue = WeightedFairQueue state ->
  accepted queue frontier
  <-> wfq_words state /\ NoDup (active_payloads queue) /\ wfq_rep packet_of state queue frontier.
Proof.
  intros Hs. split.
  - intros [H1 H2 H3]. rewrite Hs in H1, H2. unfold check_scheduler in H3. rewrite Hs in H3.
    split_and!; [done|done|]. by apply check_wfq_iff in H3; [|apply H1].
  - intros (H1 & H2 & H3). split; [by rewrite Hs|by rewrite Hs|]. unfold check_scheduler. rewrite Hs.
    apply check_wfq_iff; [apply H1|done].
Qed.

Lemma accepted_other queue frontier : 
  match sq_scheduler queue with WeightedFairQueue _ => False | _ => True end ->
  accepted queue frontier
  <-> scheduler_words (sq_scheduler queue)
      /\ check_scheduler packet_of owner queue_index maximum_drr_frame_bytes queue None = Some (Ok tt).
Proof.
  intros Hs. split.
  - intros [H1 _ H3]. split; [done|]. unfold check_scheduler in *. by destruct (sq_scheduler queue).
  - intros [H1 H3]. split; [done|by destruct (sq_scheduler queue)|].
    unfold check_scheduler in *. by destruct (sq_scheduler queue).
Qed.

(** ** Arrivals *)

Context (node : NodeDescriptor).

Lemma arrival_accepted queue frontier packet now rate position queue' :
  accepted queue frontier -> packet_of (pk_id packet) = Some packet -> 0 < pk_size_bytes packet ->
  0 <= rate ->
  switch_sp_insertion_position (fun id => ok_or (packet_of id) (UnknownPacket id)) queue (nd_id node)
    (pk_flow packet) = Ok position ->
  enqueue_admitted node queue packet (pk_id packet) now (Some rate) position = Ok queue' ->
  accepted queue' (Some now).
Proof.
  intros Ha Hpk Hsize Hrate Hpos He. unfold enqueue_admitted in He.
  destruct (sq_scheduler queue) as [|priorities|state|state|state] eqn:Hs.
  1, 4, 5: injection He as <-; apply accepted_other; [by cbn; rewrite Hs|];
    apply accepted_other in Ha as [Hw Hc]; [|by rewrite Hs]; split; [done|];
    unfold check_scheduler in Hc |- *; cbn in *; by rewrite Hs in *.
  - apply bind_Ok in He as (i & Hi & [= <-]). apply ok_or_Ok in Hi as ->.
    unfold switch_sp_insertion_position in Hpos. rewrite Hs in Hpos.
    apply bind_Ok in Hpos as (c & Hc%ok_or_Ok & Hpos). apply bind_Ok in Hpos as (p & Hscan & [= <-]).
    apply accepted_other in Ha as [Hw Hchk]; [|by rewrite Hs].
    unfold check_scheduler in Hchk. rewrite Hs in Hchk. apply check_sp_iff in Hchk.
    destruct (sp_scan_spec _ _ _ _ _ _ (proj1 (proj2 Hchk)) Hscan) as (q1 & q2 & Hq & -> & H1 & H2).
    apply accepted_other; [by cbn; rewrite Hs|]. split; [done|].
    unfold check_scheduler. cbn -[insert_at]. rewrite Hs. apply check_sp_iff. cbn -[insert_at].
    rewrite Hq in Hchk |- *. rewrite insert_at_app.
    eapply sp_insert; [|exact H1|exact H2|done]. unfold scheduler_class_value, payload_class. rewrite Hpk. simpl.
    rewrite Hc. simpl. apply list_lookup_lookup_total_lt. by eapply scheduler_class_lt.
  - apply bind_Ok in He as (r & Hr%ok_or_Ok & He). injection Hr as <-.
    apply bind_Ok in He as ([state' q'] & He & [= <-]). apply (accepted_wfq _ _ _ Hs) in Ha as (Hw & Hnd & Hrep).
    eapply wfq_enqueue_rep in He as (Hw' & Hrep' & Hperm & Hnew); [|done..].
    apply (accepted_wfq _ _ state'); [done|]. split_and!; [done| |by eapply rep_ext, Hrep'].
    unfold active_payloads in *. cbn. rewrite Hperm. simpl. by constructor.
Qed.

(** ** Services *)

(** The fields the checks of a discipline read. *)
Definition same_queue (q q' : SwitchQueueState) : Prop :=
  sq_egress_link q' = sq_egress_link q /\ sq_scheduler q' = sq_scheduler q
  /\ sq_queue q' = sq_queue q /\ sq_in_service q' = sq_in_service q.

Lemma accepted_same q q' frontier : same_queue q q' -> accepted q frontier -> accepted q' frontier.
Proof.
  intros (E1 & E2 & E3 & E4) [H1 H2 H3].
  assert (Ha : active_payloads q' = active_payloads q) by (unfold active_payloads; congruence).
  split; [congruence|by rewrite E2, Ha|]. revert H3. unfold check_scheduler, check_sp. rewrite E1, E2.
  destruct (sq_scheduler q); rewrite ?E3; try done. unfold check_wfq, check_wfq_active.
  by rewrite Ha, E3, E4.
Qed.

(** What a service does to the queue: the discipline chooses a position, the head
    where it serves its head. *)
Lemma serve_at_inv queue selection ctx service ctx' :
  serve_at node queue selection ctx = Some (Ok (service, ctx')) ->
  exists id, sq_queue queue !! sl_position selection = Some id
    /\ same_queue (queue <| sq_queue ::= delete (sl_position selection) |> <| sq_in_service := Some id |>)
         (sv_queue service).
Proof.
  unfold serve_at. intros (id & c1 & Hid & H)%bind_inv. unfold some_or in Hid.
  destruct (sq_queue queue !! _) as [x|] eqn:Hx; [|done]. injection Hid as -> <-.
  apply bind_inv in H as ([] & c2 & _ & H). apply bind_inv in H as ([plan q] & c3 & Hd & H).
  injection H as <- _. exists id. split; [done|]. cbn [sv_queue]. revert Hd. unfold ingress_drain.
  destruct (find_ingress _ _) as [[[pfc position] ingress]|]; [|by intros [= _ <- _]].
  intros (class & c4 & _ & Hd)%bind_inv. destruct (_ =? 0); [by injection Hd as _ <- _|].
  apply bind_inv in Hd as (depth & c5 & _ & Hd). by injection Hd as _ <- _.
Qed.

(** The states a discipline may be in after it chose a position. *)
Definition selects (queue : SwitchQueueState) (i : nat) (scheduler : SchedulerKind) : Prop :=
  match sq_scheduler queue, scheduler with
  | Fifo, Fifo => True
  | StaticPriority priorities, StaticPriority priorities' => priorities' = priorities
  | WeightedFairQueue state, WeightedFairQueue state' => state' = state /\ i = 0%nat
  | DeficitRoundRobin state, DeficitRoundRobin state' =>
      drr_shape_ok state' = true /\ drr_quanta_bytes state' = drr_quanta_bytes state
  | WeightedRoundRobin _, WeightedRoundRobin state' => wrr_words state' /\ wrr_shape_ok state' = true
  | _, _ => False
  end.

Lemma selects_refl queue frontier i : accepted queue frontier ->
  match sq_scheduler queue with WeightedFairQueue _ => i = 0%nat | _ => True end ->
  selects queue i (sq_scheduler queue).
Proof.
  intros [Hw _ Hc] Hi. unfold selects, check_scheduler in *. destruct (sq_scheduler queue) as [| |state|state|state]; try done.
  - unfold check_drr in Hc. by destruct (drr_shape_ok state).
  - split; [done|]. unfold check_wrr in Hc. by apply require_iff in Hc.
Qed.

Lemma served_accepted queue frontier i id scheduler q' : accepted queue frontier ->
  sq_in_service queue = None -> sq_queue queue !! i = Some id -> selects queue i scheduler ->
  same_queue (queue <| sq_scheduler := scheduler |> <| sq_queue ::= delete i |>
                    <| sq_in_service := Some id |>) q' ->
  accepted q' frontier.
Proof.
  intros Ha Hidle Hi Hsel Hsame. eapply accepted_same; [exact Hsame|]. unfold selects in Hsel.
  destruct (sq_scheduler queue) as [|priorities|state|state|state] eqn:Hs, scheduler as [|p'|s'|s'|s']; try done.
  - subst p'. apply accepted_other in Ha as [Hw Hc]; [|by rewrite Hs]. apply accepted_other; [done|].
    split; [done|]. unfold check_scheduler in *. rewrite Hs in Hc. cbn. rewrite check_sp_iff in *. by apply sp_delete.
  - destruct Hsel as [-> ->]. apply (accepted_wfq _ _ _ Hs) in Ha as (Hw & Hnd & Hr).
    apply (accepted_wfq _ _ state); [done|]. destruct (sq_queue queue) as [|x rest] eqn:Hq; [done|].
    injection Hi as ->. split_and!; [done| |].
    + unfold active_payloads in *. cbn. rewrite Hq, Hidle, app_nil_r in *. simpl.
      by rewrite <- Permutation_cons_append.
    + eapply rep_ext; [| |by eapply served_rep]; cbn; [by rewrite Hq|done].
  - destruct Hsel as [Hshape Hq]. apply accepted_other in Ha as [Hw Hc]; [|by rewrite Hs].
    apply accepted_other; [done|]. split; [done|]. unfold check_scheduler, check_drr in *. rewrite Hs in Hc. cbn.
    rewrite Hshape, Hq. by destruct (drr_shape_ok state).
  - destruct Hsel as [Hw Hshape]. apply accepted_other; [done|]. split; [done|].
    unfold check_scheduler, check_wrr. cbn. by rewrite Hshape.
Qed.

(** Without PFC a weighted fair queue serves its head. *)
Definition serves_in_order (queue : SwitchQueueState) : Prop :=
  match sq_scheduler queue with WeightedFairQueue _ => sq_pfc queue = None | _ => True end.

Lemma select_position_selects queue frontier packets i scheduler position steps :
  accepted queue frontier -> scheduler_serves_head (sq_scheduler queue) = false ->
  scheduler_select_position (sq_scheduler queue) packets (nd_id node)
    = Ok (scheduler, Some (position, steps)) ->
  selects queue i scheduler.
Proof.
  intros [Hw _ Hc] Hh Hsel. unfold scheduler_select_position, selects, check_scheduler in *.
  case_bool_decide; [done|]. destruct (sq_scheduler queue) as [| |state|state|state]; try done.
  - apply bind_Ok in Hsel as ([s' [? ?]] & Hsel & [= <- _ _]). by eapply drr_select_shape.
  - apply bind_Ok in Hsel as ([s' [? ?]] & Hsel & [= <- _ _]). apply require_iff in Hc.
    by eapply wrr_select_shape.
Qed.

Lemma service_plan_shape queue state_slot queue_slot c plan c' :
  service_plan node state_slot queue_slot queue c = Some (Ok (plan, c')) ->
  match plan with
  | PlanHead _ => True
  | PlanPfcFirst _ => is_Some (sq_pfc queue)
  | PlanEligible _ => scheduler_serves_head (sq_scheduler queue) = false
  end.
Proof.
  unfold service_plan, queue_serves_head. destruct (sq_pfc queue) as [pfc|]; simpl.
  - destruct (scheduler_serves_head _).
    + intros (order & c1 & _ & H)%bind_inv. apply bind_inv in H as ([[i id]|] & c2 & _ & H).
      * do 3 (apply bind_inv in H as (? & ? & _ & H)). by injection H as <- _.
      * by injection H as <- _.
    + intros (eligible & c1 & _ & H)%bind_inv. by injection H as <- _.
  - destruct (scheduler_serves_head _).
    + destruct (head _); [intros (pk & c1 & _ & H)%bind_inv|intros H]; by injection H as <- _.
    + intros (eligible & c1 & _ & H)%bind_inv. by injection H as <- _.
Qed.

Lemma service_accepted queue frontier state_slot queue_slot c1 plan c2 c3 service c4 :
  accepted queue frontier -> sq_in_service queue = None -> serves_in_order queue ->
  service_plan node state_slot queue_slot queue c1 = Some (Ok (plan, c2)) ->
  serve node (queue <| sq_tx_ready_pending := false |>) plan c3 = Some (Ok (Some service, c4)) ->
  accepted (sv_queue service) frontier.
Proof.
  intros Ha Hidle Hord Hplan Hserve. set (calm := queue <| sq_tx_ready_pending := false |>) in Hserve.
  assert (Hcalm : accepted calm frontier) by (by eapply accepted_same; [|exact Ha]).
  unfold serve in Hserve. destruct plan as [[pk|]|[sel|]|eligible]; [|done| |done|].
  - apply bind_inv in Hserve as (id & c5 & Hid & Hserve). unfold some_or in Hid.
    destruct (head (sq_queue calm)) as [x|] eqn:Hh; [|done]. injection Hid as -> <-.
    apply bind_inv in Hserve as ([] & c6 & _ & Hserve). injection Hserve as <- _.
    eapply (served_accepted calm _ 0 id); [done|done| |by eapply selects_refl; [exact Hcalm|destruct (sq_scheduler _)]|].
    + cbn in *. by destruct (sq_queue queue).
    + cbn. by destruct (sq_queue queue).
  - apply bind_inv in Hserve as (sv & c5 & Hat & Hserve). injection Hserve as -> _.
    apply serve_at_inv in Hat as (id & Hid & Hsame).
    eapply (served_accepted calm _ _ id (sq_scheduler calm)); [done|done|exact Hid| |done].
    eapply selects_refl; [done|]. unfold serves_in_order in Hord. apply service_plan_shape in Hplan. cbn in *.
    destruct (sq_scheduler queue); try done. rewrite Hord in Hplan. by destruct Hplan.
  - apply bind_inv in Hserve as ([scheduler [[position steps]|]] & c5 & Hsel & Hserve); [|done].
    unfold attempt in Hsel. destruct (scheduler_select_position _ _ _) as [[s' r']|] eqn:Hp; [|done].
    injection Hsel as -> -> _. apply bind_inv in Hserve as (sel & c6 & _ & Hserve).
    apply bind_inv in Hserve as (sv & c7 & Hat & Hserve). injection Hserve as -> _.
    apply serve_at_inv in Hat as (id & Hid & Hsame).
    eapply (served_accepted calm _ _ id scheduler); [done|done|exact Hid| |exact Hsame].
    eapply select_position_selects; [done| |exact Hp]. by apply service_plan_shape in Hplan.
Qed.

(** ** Completions *)

Lemma completion_accepted queue frontier packet now rate scheduler :
  accepted queue frontier -> sq_in_service queue = Some (pk_id packet) ->
  packet_of (pk_id packet) = Some packet -> 0 <= rate ->
  complete_scheduler node (sq_scheduler queue) packet now rate = Ok scheduler ->
  accepted (queue <| sq_scheduler := scheduler |> <| sq_in_service := None |>) (Some now).
Proof.
  intros Ha Hs Hpk Hrate Hc. unfold complete_scheduler in Hc.
  destruct (sq_scheduler queue) as [| |state|state|state] eqn:Hk.
  1, 2, 4, 5: injection Hc as <-; apply accepted_other; [done|];
    apply accepted_other in Ha as [Hw Hc]; [|by rewrite Hk]; unfold check_scheduler, check_sp in *;
    rewrite Hk in *; done.
  apply bind_Ok in Hc as (state' & Hc & [= <-]). apply (accepted_wfq _ _ _ Hk) in Ha as (Hw & Hnd & Hr).
  apply (accepted_wfq _ _ state'); [done|].
  eapply wfq_complete_rep in Hc as [Hw' Hr']; [|done..]. split_and!; [done| |by eapply rep_ext, Hr'].
  unfold active_payloads in *. cbn. rewrite app_nil_r. by apply NoDup_app in Hnd as [? _].
Qed.

(** ** Runs of a queue *)

(** The operations of the switch handlers on one queue, with the time of the last one:
    the insertion of an admitted packet ([switch_data_arrival]), a service
    ([switch_tx_ready]), a completion ([switch_tx_complete]), and the changes of the
    ready flag and of the PFC counters around them. *)
Inductive queue_step : SwitchQueueState * Z -> SwitchQueueState * Z -> Prop :=
| step_arrival queue time packet now rate position queue' :
    packet_of (pk_id packet) = Some packet -> 0 < pk_size_bytes packet -> 0 <= rate ->
    switch_sp_insertion_position (fun id => ok_or (packet_of id) (UnknownPacket id)) queue
      (nd_id node) (pk_flow packet) = Ok position ->
    enqueue_admitted node queue packet (pk_id packet) now (Some rate) position = Ok queue' ->
    queue_step (queue, time) (queue', now)
| step_service queue time state_slot queue_slot c1 plan c2 c3 service c4 :
    sq_in_service queue = None -> serves_in_order queue ->
    service_plan node state_slot queue_slot queue c1 = Some (Ok (plan, c2)) ->
    serve node (queue <| sq_tx_ready_pending := false |>) plan c3 = Some (Ok (Some service, c4)) ->
    queue_step (queue, time) (sv_queue service, time)
| step_completion queue time packet now rate scheduler :
    sq_in_service queue = Some (pk_id packet) -> packet_of (pk_id packet) = Some packet -> 0 <= rate ->
    complete_scheduler node (sq_scheduler queue) packet now rate = Ok scheduler ->
    queue_step (queue, time)
      (queue <| sq_scheduler := scheduler |> <| sq_in_service := None |>, now)
| step_control queue time pfc ready :
    queue_step (queue, time) (queue <| sq_pfc := pfc |> <| sq_tx_ready_pending := ready |>, time).

Lemma queue_step_accepted s s' : queue_step s s' -> accepted s.1 (Some s.2) -> accepted s'.1 (Some s'.2).
Proof.
  intros Hstep Ha. destruct Hstep; simpl in *.
  - by eapply arrival_accepted.
  - by eapply service_accepted.
  - by eapply completion_accepted.
  - by eapply accepted_same; [|exact Ha].
Qed.

Lemma queue_steps_accepted s s' : rtc queue_step s s' -> accepted s.1 (Some s.2) -> accepted s'.1 (Some s'.2).
Proof. induction 1 as [|x y z Hxy _ IH]; [done|]. intros Ha. by eapply IH, queue_step_accepted. Qed.
End queue.

(** C5. Checkpoints stay valid. A queue that passes the checks validation makes of its
    scheduler passes them again after any sequence of admitted arrivals, services and
    completions, in every discipline: static priority stays descending, the tags,
    counters and class histories of weighted fair queueing still describe its packets,
    and the round robins keep the shape of their tables. A weighted fair queue is taken
    without PFC, where it serves its head. *)
Theorem checkpoint_stays_valid packet_of owner queue_index frames node queue time queue' time' :
  accepted packet_of owner queue_index frames queue (Some time) ->
  rtc (queue_step packet_of node) (queue, time) (queue', time') ->
  accepted packet_of owner queue_index frames queue' (Some time').
Proof. intros Ha Hr. exact (queue_steps_accepted _ _ _ _ _ _ _ Hr Ha). Qed.

(** ** Examples: two flows through a switch *)

Definition crossing_flow (id priority : Z) : FlowDescriptor :=
  mkFlow id 0 2 priority 0 [0; 1] [2; 3].

(** Host 0, switch 1 and host 2 in a line; flow [i] has priority [i]. *)
Definition crossing_image : SimulationImage :=
  mkImage 1000 [mkNode 0 Host 0; mkNode 1 Switch 0; mkNode 2 Host 1] [] []
    [crossing_flow 0 0; crossing_flow 1 1] []
    [mkLink 0 0 1 8000000000 5; mkLink 1 1 2 8000000000 5;
     mkLink 2 2 1 8000000000 5; mkLink 3 1 0 8000000000 5] [] [] 0 [] [] [].

(** The switch itself, and packets of 1000 bytes: even identities are of flow 0. *)
Definition crossing_switch : NodeDescriptor := mkNode 1 Switch 0.

Definition crossing_packet (id : PayloadId) : PacketDescriptor :=
  mkPacket id (id mod 2) 1000 false Data.

Definition crossing_ctx : Ctx :=
  mkCtx (mkTransition crossing_image [] [] [] [] [] None
    ((fun id => (id, mkResident (crossing_packet id) None 0 false)) <$> [4; 5; 6])
    empty_summary [] []) [].

Definition crossing_queue (scheduler : SchedulerKind) (pfc : option PfcQueueState)
    (queue : list PayloadId) (in_service : option PayloadId) : SwitchQueueState :=
  mkSwitchQueue (Some 1) scheduler 0 TailDrop pfc queue in_service false.

Definition idle_wfq (weights : list Z) : WfqSchedulerState :=
  mkWfq weights 0%Q 0 ((fun _ => 0%Q) <$> weights) ((fun _ => 0) <$> weights) [].

Lemma checkpoint_stays_valid_witness :
  exists queue', rtc (queue_step (fun id => Some (crossing_packet id)) crossing_switch)
      (crossing_queue (WeightedFairQueue (idle_wfq [1; 3])) None [] None, 0) (queue', 700)
    /\ sq_queue queue' = [4; 6] /\ sq_in_service queue' = None
    /\ accepted (fun id => Some (crossing_packet id)) 1 0 (fun _ _ _ => Some (Ok 0)) queue' (Some 700).
Proof.
  assert (Ha : accepted (fun id => Some (crossing_packet id)) 1 0 (fun _ _ _ => Some (Ok 0))
      (crossing_queue (WeightedFairQueue (idle_wfq [1; 3])) None [] None) (Some 0)).
  { split; [|constructor|vm_compute; reflexivity].
    split; cbn; [list_forall; lia|apply Qle_refl|list_forall; apply Qle_refl|apply wf_nil]. }
  assert (Hr : exists queue', rtc (queue_step (fun id => Some (crossing_packet id)) crossing_switch)
      (crossing_queue (WeightedFairQueue (idle_wfq [1; 3])) None [] None, 0) (queue', 700)
    /\ sq_queue queue' = [4; 6] /\ sq_in_service queue' = None).
  { eexists. split.
    - eapply rtc_l; [eapply (step_arrival _ _ _ _ (crossing_packet 4) 10 8000000000 None);
        [done|done|done|reflexivity|vm_compute; reflexivity]|].
      eapply rtc_l; [eapply (step_arrival _ _ _ _ (crossing_packet 5) 20 8000000000 None);
        [done|done|done|reflexivity|vm_compute; reflexivity]|].
      eapply rtc_l; [eapply (step_service _ _ _ _ 0 0 crossing_ctx _ _ crossing_ctx);
        [done|done|vm_compute; reflexivity|vm_compute; reflexivity]|].
      eapply rtc_l; [eapply (step_arrival _ _ _ _ (crossing_packet 6) 30 8000000000 None);
        [done|done|done|reflexivity|vm_compute; reflexivity]|].
      eapply rtc_l; [eapply (step_completion _ _ _ _ (crossing_packet 5) 700 8000000000);
        [reflexivity|done|done|vm_compute; reflexivity]|].
      apply rtc_refl.
    - by split. }
  destruct Hr as (queue' & Hr & Hq & Hs). exists queue'. split_and!; [done..|].
  exact (checkpoint_stays_valid _ _ _ _ _ _ _ _ _ Ha Hr).
Defined.

(** ** Weighted fair queueing behind PFC *)

(** Two packets of one class wait; the controller has paused the priority of the first. *)
Definition paused_queue : SwitchQueueState :=
  crossing_queue
    (WeightedFairQueue (mkWfq [1] 0%Q 0 [(16000 # 1)%Q] [2] [(4, (8000 # 1)%Q); (5, (16000 # 1)%Q)]))
    (Some (mkPfcQueue [[2]; []; []; []; []; []; []; []] [])) [4; 5] None.

(** A weighted fair queue behind PFC serves around a paused head. The packet it serves
    may be the last one of its class, so the class's finish history is no longer the
    tag of a waiting packet: the queue passed the checks, and the state after the
    service does not. *)
Theorem pfc_checkpoint_rejected :
  accepted (fun id => Some (crossing_packet id)) 1 0 (fun _ _ _ => Some (Ok 0)) paused_queue (Some 0)
  /\ exists plan c service c',
       service_plan crossing_switch 0 0 paused_queue crossing_ctx = Some (Ok (plan, c))
       /\ serve crossing_switch paused_queue plan c = Some (Ok (Some service, c'))
       /\ sq_queue (sv_queue service) = [4] /\ sq_in_service (sv_queue service) = Some 5
       /\ validate_scheduler_state (fun id => Some (crossing_packet id)) 1 0 (fun _ _ _ => Some (Ok 0))
            (sv_queue service) (Some 0)
          = Some (Err (InQueue 1 0 (WfqClassNotMaximum 0))).
Proof.
  split.
  - split; [|vm_compute; repeat constructor; set_solver|vm_compute; reflexivity].
    split; cbn; [list_forall; lia|apply Qle_refl|list_forall; by vm_compute|]. unfold wf. simpl. repeat constructor; unfold klt; simpl; lia.
  - eexists _, _, _, _. split; [vm_compute; reflexivity|]. split; [vm_compute; reflexivity|].
    split_and!; [reflexivity..|vm_compute; reflexivity].
Qed.
