(* ===== verification/ServiceChecks.v ===== *)
(** * Checks of the service state (executor/src/validate.rs)

    What [validate] checks of the packets the nodes hold: queues and packets in
    service are on routes that leave through their egress, the deficit of a DRR class
    has room for the largest frame that can still reach it, a queue with a packet it
    may send is being served or has its [TxReady], every possible emission has its
    queue, and the initial [TxReady] and [TxComplete] events are those the flags and
    the packets in service call for. *)

From S2P Require Import Prelude OrdMap Event ExecError EcnRamp Dcqcn Model Image Sched Validate.
From S2P Require Import SchedulerChecks.

(** [Option]'s order: [None] first. *)
Definition option_compare {K} `{OrdKey K} (a b : option K) : comparison :=
  match a, b with
  | None, None => Eq
  | None, Some _ => Lt
  | Some _, None => Gt
  | Some a, Some b => kcmp a b
  end.

#[export] Instance option_ord {K} `{OrdKey K} : OrdKey (option K).
Proof.
  refine {| kcmp := option_compare |}.
  - intros [a|] [b|]; simpl; rewrite ?kcmp_eq; naive_solver.
  - intros [a|] [b|]; simpl; [apply kcmp_opp|done..].
  - intros [a|] [b|] [c|]; simpl; try done. apply kcmp_trans.
Defined.

(** ** Routes *)

Definition validated_route (flow : FlowDescriptor) (kind : PacketKind) : list LinkId :=
  match kind with
  | Data | TcpData _ | RoceData _ => fd_route flow
  | Feedback | TcpAck _ | Pfc _ | DcqcnCnp _ | RoceAck _ | RoceNack _ => fd_reverse_route flow
  | RocePacingTimer | StageNotify => []
  end.

(** The first link of the packet's route that leaves [source]. *)
Definition flow_egress_at (image : SimulationImage) (flow : FlowDescriptor) (kind : PacketKind)
    (source : NodeId) : option LinkId :=
  List.find (fun id =>
    match validated_link image id with Some link => lk_source link =? source | None => false end)
    (validated_route flow kind).

Definition event_egress (image : SimulationImage) (event : Event) : option LinkId :=
  packet ← validated_packet image (payload event);
  flow ← validated_flow image (pk_flow packet);
  flow_egress_at image flow (pk_kind packet) (target event).

Definition validate_payload_egress (image : SimulationImage) (owner : NodeId)
    (expected_egress : LinkId) (payloads : list PayloadId) : check unit :=
  fueled_fold (fun _ payload =>
    packet ← lift_result (ok_or (validated_packet image payload)
                            (UnknownServicePacket owner payload));
    flow ← or_panic (validated_flow image (pk_flow packet));
    let actual_egress := flow_egress_at image flow (pk_kind packet) owner in
    require (bool_decide (actual_egress = Some expected_egress))
      (WrongServiceEgress owner payload actual_egress expected_egress)) tt payloads.

(** ** Generators *)

Definition StagedGenerator : Type := FlowGeneratorState * option CollectiveStage.

(** The generators with their stage records, which may be fewer. *)
Definition staged_generators (state : HostState) : list StagedGenerator :=
  imap (fun position generator => (generator, mjoin (hs_stages state !! position)))
    (hs_generators state).

Definition is_compute_generator (generator : StagedGenerator) : bool :=
  match generator.2 with
  | Some stage => match st_role stage with RoleCompute _ => true | _ => false end
  | None => false
  end.

(** [div_ceil]; [None] is the panic of a division by zero. *)
Definition div_ceil (a b : Z) : option Z :=
  if b =? 0 then None else Some (if a mod b =? 0 then a / b else a / b + 1).

(** The packets left of [total_bytes] sent in [size]-byte packets: the bytes
    emitted must be those of the packets emitted. *)
Definition remaining_paced (generator : FlowGeneratorState) (total_bytes size : Z) : check Z :=
  if total_bytes <? fg_bytes_emitted generator
  then reject (GeneratorBytes (fg_flow generator) (fg_bytes_emitted generator))
  else
    bytes ← lift_result (ok_or (checked_mul_128 (fg_packets_emitted generator) size)
                           (GeneratorOverflow (fg_flow generator)));
    if negb (fg_bytes_emitted generator =? Z.min bytes total_bytes)
    then reject (GeneratorBytes (fg_flow generator) (fg_bytes_emitted generator))
    else or_panic (div_ceil (total_bytes - fg_bytes_emitted generator) size).

Definition remaining_tcp (generator : FlowGeneratorState) (tcp : TcpGenerator) : check Z :=
  if (tg_total_bytes tcp <? fg_bytes_emitted generator)
     || (tg_total_bytes tcp <? tg_next_sequence tcp)
     || negb (fg_bytes_emitted generator =? tg_next_sequence tcp)
  then reject (GeneratorBytes (fg_flow generator) (fg_bytes_emitted generator))
  else
    let remaining := tg_total_bytes tcp - tg_next_sequence tcp in
    if remaining =? 0 then Some (Ok 0)
    else if tg_mss_bytes tcp =? 0 then None
    else Some (Ok (1 + (remaining - 1) / tg_mss_bytes tcp)).

(** The packets of a constant generator. *)
Definition constant_total (constant : ConstantGenerator) : check Z :=
  let '(amount, unit_amount) :=
    match cg_termination constant with
    | Bytes bytes => (bytes, cg_packet_size_bytes constant)
    | DurationNs duration_ns => (duration_ns, cg_interval_ns constant)
    end in
  if amount =? 0 then Some (Ok 0)
  else if unit_amount =? 0 then None
  else Some (Ok (1 + (amount - 1) / unit_amount)).

Definition remaining_constant (generator : FlowGeneratorState) (constant : ConstantGenerator)
  : check Z :=
  total ← constant_total constant;
  _ ← lift_result (ok_or (checked_mul total (cg_packet_size_bytes constant))
                     (GeneratorOverflow (fg_flow generator)));
  expected ← lift_result (ok_or (checked_mul (fg_packets_emitted generator)
                                   (cg_packet_size_bytes constant))
                            (GeneratorOverflow (fg_flow generator)));
  if negb (fg_bytes_emitted generator =? expected)
  then reject (GeneratorBytes (fg_flow generator) (fg_bytes_emitted generator))
  else lift_result (ok_or (checked_sub total (fg_packets_emitted generator))
                      (GeneratorOverflow (fg_flow generator))).

Definition remaining_generator_packets (generator : StagedGenerator) : check Z :=
  if is_compute_generator generator then Some (Ok 0)
  else
    match fg_kind generator.1 with
    | GenRate rate => remaining_paced generator.1 (rg_total_bytes rate) (rg_packet_size_bytes rate)
    | GenDcqcn dcqcn =>
        remaining_paced generator.1 (rg_total_bytes (dg_rate dcqcn))
          (rg_packet_size_bytes (dg_rate dcqcn))
    | GenRoce roce =>
        remaining_paced generator.1 (rp_total_bytes (rc_pacer roce)) (rp_mtu_bytes (rc_pacer roce))
    | GenTcp tcp => remaining_tcp generator.1 tcp
    | GenConstant constant => remaining_constant generator.1 constant
    end.

Definition is_pfc (kind : PacketKind) : bool :=
  match kind with Pfc _ => true | _ => false end.

(** The links a packet of the image, or one still to be generated, can cross; [None]
    is a panic. *)
Definition possible_emission_links (image : SimulationImage) : option (bset LinkId) :=
  let resident :=
    flat_map (fun packet =>
      match validated_flow image (pk_flow packet) with
      | Some flow => validated_route flow (pk_kind packet)
      | None => []
      end)
      (filter (fun packet => is_pfc (pk_kind packet) = false) (im_initial_packets image)) in
  generated ←
    foldr (fun generator links =>
      remaining ← remaining_generator_packets generator;
      links ← links;
      Some (match remaining, validated_flow image (fg_flow generator.1) with
            | Ok count, Some flow => if 0 <? count then fd_route flow ++ links else links
            | _, _ => links
            end))
      (Some []) (flat_map staged_generators (im_host_states image));
  Some (foldr bs_add [] (resident ++ generated)).

(** ** Packets a generator can still send *)

(** [None] is the panic of a division by zero. *)
Definition divide_rounding_up (numerator denominator : Z) : option Z :=
  if numerator =? 0 then Some 0
  else if denominator =? 0 then None
  else Some ((numerator + denominator - 1) / denominator).

(** [None] is the [unreachable!] of a generator that is not paced by a rate. *)
Definition pacing_rate (generator : FlowGeneratorState) : option RateGenerator :=
  match fg_kind generator with
  | GenRate rate => Some rate
  | GenDcqcn dcqcn => Some (dg_rate dcqcn)
  | _ => None
  end.

Definition with_rate_numerator (generator : FlowGeneratorState) (numerator : Z)
  : option FlowGeneratorState :=
  match fg_kind generator with
  | GenRate rate =>
      Some (generator <| fg_kind := GenRate
              (rate <| rg_rate_numerator_bits_per_second := numerator |>) |>)
  | GenDcqcn dcqcn =>
      Some (generator <| fg_kind := GenDcqcn
              (dcqcn <| dg_rate := dg_rate dcqcn
                         <| rg_rate_numerator_bits_per_second := numerator |> |>) |>)
  | _ => None
  end.

(** The pacing ticks that send the bytes left, a full packet at most per tick; the
    credit is exact, so nothing wraps. [None] is a panic. *)
Definition remaining_rate_pacing_ticks (generator : FlowGeneratorState) : option Z :=
  rate ← pacing_rate generator;
  let remaining_bytes := rg_total_bytes rate -w fg_bytes_emitted generator in
  let packet_size := rg_packet_size_bytes rate in
  if packet_size =? 0 then None
  else
    let full_packets := remaining_bytes / packet_size in
    let partial_bytes := remaining_bytes mod packet_size in
    let scale := rg_rate_denominator rate * 1000000000 in
    let tick_credit := rg_rate_numerator_bits_per_second rate * rg_pacing_interval_ns rate in
    let ticks_for (cost credit : Z) :=
      if credit <? cost then divide_rounding_up (cost - credit) tick_credit else Some 0 in
    '(credit, ticks) ←
      (if full_packets =? 0 then Some (rg_credit_quanta rate, 0)
       else
         let required_credit := full_packets * (packet_size * 8 * scale) in
         credit_ticks ← ticks_for required_credit (rg_credit_quanta rate);
         let full_ticks := Z.max full_packets credit_ticks in
         Some (rg_credit_quanta rate + full_ticks * tick_credit - required_credit, full_ticks));
    if partial_bytes =? 0 then Some ticks
    else
      credit_ticks ← ticks_for (partial_bytes * 8 * scale) credit;
      Some (ticks + Z.max credit_ticks 1).

Definition can_still_pace (status : GeneratorStatus) : bool :=
  match status with Scheduled | Blocked => true | Finished | Stopped => false end.

Definition executable_rate_pacing_ticks (image : SimulationImage) (generator : StagedGenerator)
  : check Z :=
  let emission := fg_next_emission generator.1 in
  if negb (can_still_pace (se_status emission))
     || (im_stop_time_ns image <? se_departure_time_ns emission)
  then Some (Ok 0)
  else
    _ ← remaining_generator_packets generator;
    rate ← or_panic (pacing_rate generator.1);
    if rg_pacing_interval_ns rate =? 0 then None
    else
      let available_ticks :=
        (im_stop_time_ns image - se_departure_time_ns emission) / rg_pacing_interval_ns rate + 1 in
      ticks ← or_panic (remaining_rate_pacing_ticks generator.1);
      Some (Ok (Z.min ticks available_ticks)).

Definition rate_packets_within_ticks (generator : StagedGenerator) (ticks : Z) : check Z :=
  remaining_packets ← remaining_generator_packets generator;
  if (ticks =? 0) || (remaining_packets =? 0) then Some (Ok 0)
  else
    rate ← or_panic (pacing_rate generator.1);
    let overflow := GeneratorOverflow (fg_flow generator.1) in
    let remaining_bytes := rg_total_bytes rate -w fg_bytes_emitted generator.1 in
    let packet_size := rg_packet_size_bytes rate in
    let tick_credit := rg_rate_numerator_bits_per_second rate * rg_pacing_interval_ns rate in
    let full_packet_cost := packet_size * 8 * (rg_rate_denominator rate * 1000000000) in
    if (packet_size =? 0) || (full_packet_cost =? 0) then None
    else
      let full_packets := remaining_bytes / packet_size in
      let partial_packet := negb (remaining_bytes mod packet_size =? 0) in
      let credit_limited := (rg_credit_quanta rate + ticks * tick_credit) / full_packet_cost in
      let emitted_full := Z.min (Z.min full_packets ticks) credit_limited in
      emitted ← (if emitted_full <=? u64_max then Some (Ok emitted_full) else reject overflow);
      if partial_packet && (emitted_full =? full_packets) then
        needed ← or_panic (remaining_rate_pacing_ticks generator.1);
        if needed <=? ticks then lift_result (ok_or (checked_add emitted 1) overflow)
        else Some (Ok emitted)
      else Some (Ok emitted).

Definition executable_rate_packets (image : SimulationImage) (generator : StagedGenerator)
  : check Z :=
  ticks ← executable_rate_pacing_ticks image generator;
  rate_packets_within_ticks generator ticks.

(** A DCQCN pair is bounded by its fastest rate; [None] also stands for the
    [unreachable!] of another generator. *)
Definition executable_dcqcn_packets (image : SimulationImage) (generator : StagedGenerator)
  : check Z :=
  match fg_kind generator.1 with
  | GenDcqcn dcqcn =>
      fastest ← or_panic (with_rate_numerator generator.1
                            (maximum_rate_bps (config (dg_controller dcqcn))));
      executable_rate_packets image (fastest, generator.2)
  | _ => None
  end.

Definition roce_grid_ticks (image : SimulationImage) (generator : FlowGeneratorState)
    (roce : RoceGenerator) : Z :=
  let ticks_from (start : Z) :=
    if (im_stop_time_ns image <? start) || (rp_pacing_interval_ns (rc_pacer roce) =? 0) then 0
    else ((im_stop_time_ns image - start) / rp_pacing_interval_ns (rc_pacer roce)) +w 1 in
  if rc_pacer_armed roce then ticks_from (se_departure_time_ns (fg_next_emission generator))
  else
    match se_status (fg_next_emission generator) with
    | Blocked => ticks_from (rp_first_pacing_time_ns (rc_pacer roce))
    | _ => 0
    end.

Definition executable_generator_packets (image : SimulationImage) (generator : StagedGenerator)
  : check Z :=
  let status := se_status (fg_next_emission generator.1) in
  match fg_kind generator.1 with
  | GenRate _ =>
      if can_still_pace status then executable_rate_packets image generator else Some (Ok 0)
  | GenDcqcn _ =>
      if can_still_pace status then executable_dcqcn_packets image generator else Some (Ok 0)
  | GenRoce roce =>
      _ ← remaining_generator_packets generator;
      Some (Ok (roce_grid_ticks image generator.1 roce))
  | GenTcp _ =>
      if can_still_pace status then remaining_generator_packets generator else Some (Ok 0)
  | GenConstant _ =>
      match status with
      | Scheduled => remaining_generator_packets generator
      | _ => Some (Ok 0)
      end
  end.

(** ** The largest frame of a class *)

(** The position on a route of the first link that leaves a node. *)
Definition route_outgoing_index (image : SimulationImage) (route : list LinkId) (source : NodeId)
  : option nat :=
  find_position (fun id =>
    match validated_link image id with Some link => lk_source link =? source | None => false end)
    route.

(** Whether a node queues a packet, and whether it serves it; [None] is the panic of
    an index beyond the states. *)
Definition packet_at_node (image : SimulationImage) (node : NodeDescriptor) (id : PayloadId)
  : option (bool * bool) :=
  let slot := Z.to_nat (nd_state_slot node) in
  match nd_kind node with
  | Host =>
      state ← im_host_states image !! slot;
      Some (bool_decide (id ∈ hs_queue state), bool_decide (hs_in_service state = Some id))
  | Switch =>
      state ← im_switch_states image !! slot;
      Some (existsb (fun queue => bool_decide (id ∈ sq_queue queue)) (sw_queues state),
            existsb (fun queue => bool_decide (sq_in_service queue = Some id)) (sw_queues state))
  end.

(** Some node holds the packet at or before the egress at [egress_index]. *)
Fixpoint held_before_egress (image : SimulationImage) (route : list LinkId) (egress_index : nat)
    (id : PayloadId) (nodes : list NodeDescriptor) : option bool :=
  match nodes with
  | [] => Some false
  | node :: nodes =>
      '(waiting, in_service) ← packet_at_node image node id;
      let ahead :=
        match route_outgoing_index image route (nd_id node) with
        | Some outgoing =>
            waiting && (outgoing <=? egress_index)%nat
            || in_service && (outgoing <? egress_index)%nat
        | None => false
        end in
      if ahead then Some true else held_before_egress image route egress_index id nodes
  end.

Definition event_before_egress (image : SimulationImage) (route : list LinkId)
    (egress_index : nat) (id : PayloadId) (event : Event) : bool :=
  (payload event =? id) &&
  match route_outgoing_index image route (target event) with
  | Some outgoing =>
      match kind event with
      | PacketArrival | TxReady | RemoteArrival => (outgoing <=? egress_index)%nat
      | TxComplete => (outgoing <? egress_index)%nat
      | PacingTimer | RetransmissionTimeout => false
      end
  | None => false
  end.

Definition packet_can_still_reach_egress (image : SimulationImage) (packet : PacketDescriptor)
    (egress : LinkId) : option bool :=
  if is_pfc (pk_kind packet) then Some false
  else
    match validated_flow image (pk_flow packet) with
    | None => Some false
    | Some flow =>
        let route := validated_route flow (pk_kind packet) in
        match find_position (fun id => id =? egress) route with
        | None => Some false
        | Some egress_index =>
            held ← held_before_egress image route egress_index (pk_id packet) (im_nodes image);
            Some (held || existsb (event_before_egress image route egress_index (pk_id packet))
                            (im_initial_events image))
        end
    end.

(** The largest data frame a TCP sender can still send: a fresh segment, or the
    unacknowledged part of one sent before. *)
Definition tcp_future_data_max_frame (image : SimulationImage) (generator : FlowGeneratorState)
    (tcp : TcpGenerator) : Z :=
  if negb (can_still_pace (se_status (fg_next_emission generator))) then 0
  else
    let fresh := Z.min (tg_mss_bytes tcp) (tg_total_bytes tcp -w tg_next_sequence tcp) in
    let resendable (packet : PacketDescriptor) : Z :=
      match pk_kind packet with
      | TcpData header =>
          match checked_add (td_sequence header) (pk_size_bytes packet) with
          | Some frame_end =>
              if (td_sequence header <? tg_next_sequence tcp) && (tg_highest_ack tcp <? frame_end)
              then frame_end - Z.max (td_sequence header) (tg_highest_ack tcp) else 0
          | None => 0
          end
      | _ => 0
      end in
    let packets := filter (fun packet => pk_flow packet = fg_flow generator)
                     (im_initial_packets image) in
    Z.max fresh (foldr (fun packet maximum => Z.max (resendable packet) maximum) 0 packets).

(** [binary_search_by_key] on the receivers, which are sorted by flow. *)
Definition roce_receiver (image : SimulationImage) (flow : FlowDescriptor)
  : option RoceReceiverState :=
  target ← validated_node image (fd_target flow);
  match nd_kind target with
  | Switch => None
  | Host =>
      state ← im_host_states image !! Z.to_nat (nd_state_slot target);
      receivers ← hs_roce_receivers state;
      List.find (fun receiver => rv_flow receiver =? fd_id flow) receivers
  end.

Definition roce_feedback_max_bytes (image : SimulationImage) (flow : FlowDescriptor) : Z :=
  match roce_receiver image flow with Some receiver => rv_ack_size_bytes receiver | None => 0 end.

Definition roce_future_data_max_bytes (roce : RoceGenerator) : Z :=
  Z.min (rp_mtu_bytes (rc_pacer roce))
    (saturating_sub (rp_total_bytes (rc_pacer roce)) (rc_snd_una roce)).

(** [maximum] raised to [frame] when the frame's direction crosses the egress and
    packets are left. *)
Definition frame_when (image : SimulationImage) (generator : StagedGenerator) (reaches : bool)
    (frame maximum : Z) : check Z :=
  if reaches then
    packets ← executable_generator_packets image generator;
    Some (Ok (if packets =? 0 then maximum else Z.max maximum frame))
  else Some (Ok maximum).

Definition generator_max_frame (image : SimulationImage) (generator : StagedGenerator)
    (forward_reaches reverse_reaches : bool) (flow : FlowDescriptor) (maximum : Z) : check Z :=
  let emitted := fg_bytes_emitted generator.1 in
  match fg_kind generator.1 with
  | GenConstant constant =>
      frame_when image generator forward_reaches (cg_packet_size_bytes constant) maximum
  | GenRate rate =>
      frame_when image generator forward_reaches
        (Z.min (rg_packet_size_bytes rate) (rg_total_bytes rate -w emitted)) maximum
  | GenTcp tcp =>
      let future_data := tcp_future_data_max_frame image generator.1 tcp in
      let maximum := if forward_reaches then Z.max maximum future_data else maximum in
      Some (Ok (if reverse_reaches
                   && (negb (future_data =? 0) || negb (tg_bytes_in_flight tcp =? 0))
                then Z.max maximum (tg_ack_size_bytes tcp) else maximum))
  | GenDcqcn dcqcn =>
      let rate := dg_rate dcqcn in
      maximum ← frame_when image generator forward_reaches
                  (Z.min (rg_packet_size_bytes rate) (rg_total_bytes rate -w emitted)) maximum;
      frame_when image generator reverse_reaches (dg_cnp_size_bytes dcqcn) maximum
  | GenRoce roce =>
      packets ← executable_generator_packets image generator;
      let executable := negb (packets =? 0) in
      let maximum := if forward_reaches && executable
                     then Z.max maximum (roce_future_data_max_bytes roce) else maximum in
      Some (Ok (if reverse_reaches && (executable || (rc_snd_una roce <? emitted))
                then Z.max maximum (roce_feedback_max_bytes image flow) else maximum))
  end.

(** The largest frame of a class that can still leave through an egress: of the
    packets of the image and of those to come, with [packets_for_flow] as the filter it
    stands for. [None] is a panic; the class count is positive, since [check_drr]
    refuses an empty table first. *)
Definition maximum_drr_frame_bytes (image : SimulationImage) (egress : LinkId)
    (class_count class : nat) : check Z :=
  resident ← or_panic (foldr (fun packet maximum =>
    maximum ← maximum;
    if bool_decide (payload_class (validated_packet image) (pk_id packet) class_count = Some class)
    then
      reaches ← packet_can_still_reach_egress image packet egress;
      Some (if reaches : bool then Z.max (pk_size_bytes packet) maximum else maximum)
    else Some maximum) (Some 0) (im_initial_packets image));
  fueled_fold (fun maximum (generator : StagedGenerator) =>
    generator_class ← or_panic (scheduler_class (fg_flow generator.1) class_count);
    if negb (generator_class =? class)%nat then Some (Ok maximum)
    else
      flow ← or_panic (validated_flow image (fg_flow generator.1));
      generator_max_frame image generator (bool_decide (egress ∈ fd_route flow))
        (bool_decide (egress ∈ fd_reverse_route flow)) flow maximum)
    resident (flat_map staged_generators (im_host_states image)).

(** ** Owned service state *)

(** The earliest initial event. *)
Definition pending_event_frontier (image : SimulationImage) : option Z :=
  foldr (fun event frontier =>
    Some (match frontier with
          | Some frontier => Z.min (time_ns (key event)) frontier
          | None => time_ns (key event)
          end)) None (im_initial_events image).

(** The class of a packet: that of its flow and kind. *)
Definition payload_priority (image : SimulationImage) (payload : PayloadId) : option nat :=
  packet ← validated_packet image payload;
  flow ← validated_flow image (pk_flow packet);
  Some (Z.to_nat (packet_priority flow (pk_kind packet))).

(** Whether some queued packet is in a class the host may send. *)
Fixpoint host_pfc_eligible (image : SimulationImage) (pfc : HostPfcState)
    (queue : list PayloadId) : check bool :=
  match queue with
  | [] => Some (Ok false)
  | payload :: queue =>
      match payload_priority image payload with
      | None => Some (Ok true)
      | Some priority =>
          paused ← or_panic (host_is_paused pfc priority);
          if (paused : bool) then host_pfc_eligible image pfc queue else Some (Ok true)
      end
  end.

Definition host_eligible (image : SimulationImage) (state : HostState) : check bool :=
  match hs_pfc state with
  | None => Some (Ok (negb (bool_decide (hs_queue state = []))))
  | Some pfc => host_pfc_eligible image pfc (hs_queue state)
  end.

Definition check_host_service (image : SimulationImage) (owner : NodeDescriptor) : check unit :=
  let fault := InHost (nd_id owner) in
  state ← or_panic (im_host_states image !! Z.to_nat (nd_state_slot owner));
  egress ← lift_result (ok_or (validated_link image (hs_egress_link state))
                          (fault (HostUnknownEgress (hs_egress_link state))));
  if negb (lk_source egress =? nd_id owner)
  then reject (fault (HostEgressSource (lk_id egress) (lk_source egress)))
  else
    _ ← validate_payload_egress image (nd_id owner) (hs_egress_link state) (hs_queue state);
    _ ← validate_payload_egress image (nd_id owner) (hs_egress_link state)
          (option_list (hs_in_service state));
    if bool_decide (is_Some (hs_in_service state)) && hs_tx_ready_pending state
    then reject (fault HostServiceAndReady)
    else if hs_tx_ready_pending state && bool_decide (hs_queue state = [])
    then reject (fault HostReadyEmpty)
    else
      has_eligible_packet ← host_eligible image state;
      if has_eligible_packet && bool_decide (hs_in_service state = None)
         && negb (hs_tx_ready_pending state)
      then reject (fault HostNotWoken) else passed.

(** Whether some queued packet is in a class the queue may send. *)
Fixpoint queue_eligible (image : SimulationImage) (pfc : option PfcQueueState)
    (queue : list PayloadId) : check bool :=
  match queue with
  | [] => Some (Ok false)
  | payload :: queue =>
      priority ← or_panic (payload_priority image payload);
      paused ← match pfc with
               | Some pfc => or_panic (queue_is_paused pfc priority)
               | None => Some (Ok false)
               end;
      if (paused : bool) then queue_eligible image pfc queue else Some (Ok true)
  end.

Definition is_tail_drop (policy : DropMarkPolicy) : bool :=
  match policy with TailDrop => true | EcnRampMark _ => false end.

Definition check_queue_capacity (owner : NodeId) (queue_index : nat) (queue : SwitchQueueState)
    (backend : Backend) : check unit :=
  let fault := InQueue owner queue_index in
  let capacity := sq_queue_capacity_packets queue in
  if is_tail_drop (sq_drop_mark queue) then
    _ ← match capacity_limit backend with
        | Some limit => require (capacity <=? limit) (fault (CapacityBeyondBackend capacity limit))
        | None => passed
        end;
    require ((capacity =? 0) || (Z.of_nat (length (sq_queue queue)) <=? capacity))
      (fault (QueueBeyondCapacity (Z.of_nat (length (sq_queue queue))) capacity))
  else passed.

Section owned.
Context (image : SimulationImage) (backend : Backend).

(** One queue: the egress links its switch has seen, and those of all switches. *)
Definition check_switch_queue (owner : NodeDescriptor)
    (s : bset LinkId * bmap LinkId NodeId) (entry : nat * SwitchQueueState)
  : check (bset LinkId * bmap LinkId NodeId) :=
  let '(egresses, owners) := s in
  let '(queue_index, queue) := entry in
  let fault := InQueue (nd_id owner) queue_index in
  _ ← check_queue_capacity (nd_id owner) queue_index queue backend;
  egress_id ← lift_result (ok_or (sq_egress_link queue) (fault QueueWithoutEgress));
  let '(fresh, egresses) := bs_insert egress_id egresses in
  if negb fresh then reject (fault (QueueDuplicateEgress egress_id))
  else
    match bm_get egress_id owners with
    | Some first => reject (fault (QueueEgressOwnedBy first egress_id))
    | None =>
        egress ← lift_result (ok_or (validated_link image egress_id)
                                (fault (QueueUnknownEgress egress_id)));
        if negb (lk_source egress =? nd_id owner)
        then reject (fault (QueueEgressSource egress_id (lk_source egress)))
        else
          _ ← validate_payload_egress image (nd_id owner) egress_id (sq_queue queue);
          _ ← validate_payload_egress image (nd_id owner) egress_id
                (option_list (sq_in_service queue));
          _ ← validate_scheduler_state (validated_packet image) (nd_id owner) queue_index
                (maximum_drr_frame_bytes image) queue (pending_event_frontier image);
          _ ← validate_device_scheduler_capability (nd_id owner) queue_index queue backend;
          if bool_decide (is_Some (sq_in_service queue)) && sq_tx_ready_pending queue
          then reject (fault QueueServiceAndReady)
          else if sq_tx_ready_pending queue && bool_decide (sq_queue queue = [])
          then reject (fault QueueReadyEmpty)
          else
            has_eligible_packet ← queue_eligible image (sq_pfc queue) (sq_queue queue);
            if has_eligible_packet && bool_decide (sq_in_service queue = None)
               && negb (sq_tx_ready_pending queue)
            then reject (fault QueueNotWoken)
            else Some (Ok (egresses, bm_insert egress_id (nd_id owner) owners))
    end.

Definition check_switch_service (owners : bmap LinkId NodeId) (owner : NodeDescriptor)
  : check (bmap LinkId NodeId) :=
  state ← or_panic (im_switch_states image !! Z.to_nat (nd_state_slot owner));
  if (1 <? length (sw_queues state))%nat
  then reject (TooManyQueues (nd_id owner) (length (sw_queues state)))
  else
    s ← fueled_fold (check_switch_queue owner) ([], owners) (imap pair (sw_queues state));
    Some (Ok s.2).

(** The owner of a possible emission link serves it. *)
Definition check_emission_link (link_id : LinkId) : check unit :=
  link ← or_panic (validated_link image link_id);
  source ← or_panic (validated_node image (lk_source link));
  match nd_kind source with
  | Host =>
      state ← or_panic (im_host_states image !! Z.to_nat (nd_state_slot source));
      require (hs_egress_link state =? link_id) (EmissionNotOwned (nd_id source) link_id)
  | Switch =>
      state ← or_panic (im_switch_states image !! Z.to_nat (nd_state_slot source));
      require (existsb (fun queue => bool_decide (sq_egress_link queue = Some link_id))
                 (sw_queues state)) (EmissionNotOwned (nd_id source) link_id)
  end.

Definition nodes_of (kind : NodeKind) : list NodeDescriptor :=
  filter (fun node => nd_kind node = kind) (im_nodes image).

Definition validate_owned_service_state : check unit :=
  _ ← fueled_fold (fun _ => check_host_service image) tt (nodes_of Host);
  _ ← fueled_fold check_switch_service [] (nodes_of Switch);
  links ← or_panic (possible_emission_links image);
  fueled_fold (fun _ => check_emission_link) tt links.
End owned.

(** ** Initial service events *)

Definition validated_terminal (flow : FlowDescriptor) (kind : PacketKind) : NodeId :=
  match kind with
  | Data | TcpData _ | RoceData _ | StageNotify => fd_target flow
  | Feedback | TcpAck _ | Pfc _ | DcqcnCnp _ | RoceAck _ | RoceNack _ | RocePacingTimer =>
      fd_source flow
  end.

(** The delay of the route from [start_node] on, and whether the route leaves it. *)
Definition remaining_route_delay (image : SimulationImage) (size_bytes : Z) (start_node : NodeId)
    (route : list LinkId) : check (bool * Z) :=
  fueled_fold (fun '(started, remaining_delay) link_id =>
    link ← or_panic (validated_link image link_id);
    let started := started || (lk_source link =? start_node) in
    if started then
      delay ← or_panic (match link_delay_ns link size_bytes with
                        | Ok delay => Some delay
                        | Err _ => None
                        end);
      remaining_delay ← or_panic (checked_add remaining_delay delay);
      Some (Ok (started, remaining_delay))
    else Some (Ok (started, remaining_delay))) (false, 0) route.

Definition validate_remaining_route_time (image : SimulationImage) (flow : FlowDescriptor)
    (packet : PacketDescriptor) (start_time_ns : Z) (start_node : NodeId) (event_index : nat)
  : check unit :=
  if start_node =? validated_terminal flow (pk_kind packet) then passed
  else
    '(started, remaining_delay) ← remaining_route_delay image (pk_size_bytes packet) start_node
                                    (validated_route flow (pk_kind packet));
    if negb started then reject (StartNotOnRoute event_index (pk_id packet) start_node)
    else
      _ ← lift_result (ok_or (checked_add start_time_ns remaining_delay)
            (RouteTimeOverflow event_index (pk_id packet) start_time_ns remaining_delay));
      passed.

(** What the loop of [validate_events] asks of a [TxReady] or [TxComplete], once the
    event has its owners: the lookup of its packet and flow, and the arm of its kind.
    That no earlier event names the same payload, kind and target is not part of it. *)
Definition check_service_event (image : SimulationImage) (index : nat) (event : Event)
  : check unit :=
  packet ← lift_result (ok_or (validated_packet image (payload event))
                          (EventUnknownPacket index (payload event)));
  flow ← or_panic (validated_flow image (pk_flow packet));
  if negb (origin_node (key event) =? target event)
  then reject (ServiceOrigin index (origin_node (key event)) (target event))
  else if bool_decide (flow_egress_at image flow (pk_kind packet) (target event) = None)
  then reject (ServiceNotOwned index (target event) (payload event))
  else if bool_decide (kind event = TxReady)
  then validate_remaining_route_time image flow packet (time_ns (key event)) (target event) index
  else passed.

(** ** Service events *)

Record ServiceEvents := mkServiceEvents {
  ev_ready_count : Z;
  ev_completions : list PayloadId;
}.

Definition no_events : ServiceEvents := mkServiceEvents 0 [].

Abbreviation egress_key := (NodeId * option LinkId)%type.

(** The egress whose service an event belongs to: a host has one. *)
Definition service_key (image : SimulationImage) (event : Event) : option egress_key :=
  owner ← validated_node image (target event);
  match nd_kind owner with
  | Host => Some (nd_id owner, None)
  | Switch => egress ← event_egress image event; Some (nd_id owner, Some egress)
  end.

Definition record_service_event (image : SimulationImage)
    (events : bmap egress_key ServiceEvents) (event : Event)
  : check (bmap egress_key ServiceEvents) :=
  match kind event with
  | TxReady =>
      at_egress ← or_panic (service_key image event);
      let old := default no_events (bm_get at_egress events) in
      Some (Ok (bm_insert at_egress
        (mkServiceEvents (ev_ready_count old + 1) (ev_completions old)) events))
  | TxComplete =>
      at_egress ← or_panic (service_key image event);
      let old := default no_events (bm_get at_egress events) in
      Some (Ok (bm_insert at_egress
        (mkServiceEvents (ev_ready_count old) (ev_completions old ++ [payload event])) events))
  | _ => Some (Ok events)
  end.

Definition validate_ready_flag (owner : NodeId) (egress : option LinkId) (pending : bool)
    (ready_count : Z) : check unit :=
  if 1 <? ready_count then reject (ReadyCount owner egress pending ready_count)
  else if negb (Bool.eqb pending (ready_count =? 1))
  then reject (ReadyCount owner egress pending ready_count)
  else passed.

Definition validate_completion_state (owner : NodeId) (egress : option LinkId)
    (in_service : option PayloadId) (completions : list PayloadId) : check unit :=
  match in_service with
  | Some payload =>
      require (bool_decide (completions = [payload]))
        (CompletionMismatch owner egress in_service completions)
  | None =>
      require (bool_decide (completions = []))
        (CompletionMismatch owner egress in_service completions)
  end.

(** The flag and the packet in service of one egress against its events. *)
Definition check_egress_events (events : bmap egress_key ServiceEvents) (owner : NodeId)
    (egress : option LinkId) (pending : bool) (in_service : option PayloadId) : check unit :=
  let found := default no_events (bm_get (owner, egress) events) in
  _ ← validate_ready_flag owner egress pending (ev_ready_count found);
  validate_completion_state owner egress in_service (ev_completions found).

Definition check_host_events (image : SimulationImage) (events : bmap egress_key ServiceEvents)
    (owner : NodeDescriptor) : check unit :=
  state ← or_panic (im_host_states image !! Z.to_nat (nd_state_slot owner));
  check_egress_events events (nd_id owner) None (hs_tx_ready_pending state) (hs_in_service state).

Definition check_switch_events (image : SimulationImage) (events : bmap egress_key ServiceEvents)
    (owner : NodeDescriptor) : check unit :=
  state ← or_panic (im_switch_states image !! Z.to_nat (nd_state_slot owner));
  fueled_fold (fun _ queue =>
    egress ← or_panic (sq_egress_link queue);
    check_egress_events events (nd_id owner) (Some egress) (sq_tx_ready_pending queue)
      (sq_in_service queue)) tt (sw_queues state).

Definition record_mutable_payload (owner : NodeId) (owners : bmap PayloadId NodeId)
    (payload : PayloadId) : check (bmap PayloadId NodeId) :=
  match bm_get payload owners with
  | Some first => reject (PayloadOwnedTwice payload first owner)
  | None => Some (Ok (bm_insert payload owner owners))
  end.

(** The packets a node holds: each queue, then its packet in service. *)
Definition held_payloads (image : SimulationImage) (node : NodeDescriptor)
  : option (list PayloadId) :=
  match nd_kind node with
  | Host =>
      state ← im_host_states image !! Z.to_nat (nd_state_slot node);
      Some (hs_queue state ++ option_list (hs_in_service state))
  | Switch =>
      state ← im_switch_states image !! Z.to_nat (nd_state_slot node);
      Some (flat_map active_payloads (sw_queues state))
  end.

Definition validate_unique_mutable_payloads (image : SimulationImage) : check unit :=
  owners ← fueled_fold (fun owners node =>
             payloads ← or_panic (held_payloads image node);
             fueled_fold (record_mutable_payload (nd_id node)) owners payloads)
             [] (im_nodes image);
  fueled_fold (fun _ event =>
    match bm_get (payload event) owners with
    | Some owner => reject (ArrivalIsMutable (payload event) owner)
    | None => passed
    end) tt (filter (fun event => kind event = PacketArrival) (im_initial_events image)).

Definition validate_service_event_consistency (image : SimulationImage) : check unit :=
  events ← fueled_fold (record_service_event image) [] (im_initial_events image);
  _ ← fueled_fold (fun _ => check_host_events image events) tt (nodes_of image Host);
  _ ← fueled_fold (fun _ => check_switch_events image events) tt (nodes_of image Switch);
  validate_unique_mutable_payloads image.

(** ** Room for the deficits *)

Lemma frame_when_le image generator reaches frame maximum m :
  frame_when image generator reaches frame maximum = Some (Ok m) -> maximum <= m.
Proof.
  unfold frame_when. destruct reaches; [|intros [= ->]; lia].
  intros (packets & _ & [= <-])%fueled_bind_Ok. case_match; lia.
Qed.

Lemma generator_max_frame_le image generator forward reverse flow maximum m :
  generator_max_frame image generator forward reverse flow maximum = Some (Ok m) ->
  maximum <= m.
Proof.
  unfold generator_max_frame. destruct (fg_kind generator.1).
  - apply frame_when_le.
  - intros [= <-]. repeat case_match; lia.
  - apply frame_when_le.
  - intros (? & ?%frame_when_le & ?%frame_when_le)%fueled_bind_Ok. lia.
  - intros (? & _ & [= <-])%fueled_bind_Ok. repeat case_match; lia.
Qed.

Lemma maximum_frame_covers image egress class_count class packet m :
  maximum_drr_frame_bytes image egress class_count class = Some (Ok m) ->
  packet ∈ im_initial_packets image ->
  payload_class (validated_packet image) (pk_id packet) class_count = Some class ->
  packet_can_still_reach_egress image packet egress = Some true ->
  pk_size_bytes packet <= m.
Proof.
  unfold maximum_drr_frame_bytes.
  intros (resident & Hres & Hfold)%fueled_bind_Ok Hin Hclass Hreach.
  apply (proj1 (or_panic_Ok _ _)) in Hres.
  assert (Hle : pk_size_bytes packet <= resident).
  { clear Hfold. revert resident Hres. generalize dependent (im_initial_packets image).
    intros packets. induction packets as [|p packets IH]; [by intros ?%elem_of_nil|].
    intros Hin resident. cbn [foldr]. rewrite bind_Some. intros (rest & Hrest & Hp).
    apply elem_of_cons in Hin as [<-|Hin].
    - rewrite bool_decide_true in Hp by done. rewrite Hreach in Hp. injection Hp as <-. lia.
    - specialize (IH Hin rest Hrest). case_match; [|by simplify_eq].
      apply bind_Some in Hp as ([] & _ & [= <-]); lia. }
  refine (fueled_fold_ind (fun m => pk_size_bytes packet <= m) _ _ _ _ _ Hle Hfold).
  intros a generator b _ Ha (? & _ & Hb)%fueled_bind_Ok. case_match; [by simplify_eq|].
  apply fueled_bind_Ok in Hb as (flow & _ & Hb%generator_max_frame_le). lia.
Qed.

(** A DRR queue that passes the check has room in the deficit of each class for its
    quantum beside any packet of the class still to leave through the queue's egress:
    a deficit below the packet's size and one quantum more stay in [u64]. *)
Theorem drr_deficit_room image owner queue_index queue frontier state egress packet class quantum :
  check_scheduler (validated_packet image) owner queue_index (maximum_drr_frame_bytes image)
    queue frontier = Some (Ok tt) ->
  sq_scheduler queue = DeficitRoundRobin state -> sq_egress_link queue = Some egress ->
  packet ∈ im_initial_packets image -> 1 <= pk_size_bytes packet ->
  payload_class (validated_packet image) (pk_id packet) (length (drr_quanta_bytes state))
    = Some class ->
  packet_can_still_reach_egress image packet egress = Some true ->
  drr_quanta_bytes state !! class = Some quantum ->
  quantum + (pk_size_bytes packet - 1) <= u64_max.
Proof.
  intros Hc Hs He. unfold check_scheduler in Hc. rewrite Hs, He in Hc. unfold check_drr in Hc.
  destruct (drr_shape_ok state); [|done]. cbn [negb] in Hc.
  intros Hin Hsize Hclass Hreach Hq. apply fueled_units in Hc. rewrite Forall_forall in Hc.
  specialize (Hc (class, quantum)). cbv beta iota in Hc.
  apply fueled_bind_Ok in Hc as (m & Hm & Hc).
  - pose proof (maximum_frame_covers _ _ _ _ _ _ Hm Hin Hclass Hreach).
    destruct (Z.eqb_spec m 0); [lia|]. apply require_iff, bool_decide_eq_true in Hc as [sum Hsum].
    unfold checked_add in Hsum. case_match; [|done]. lia.
  - apply list_elem_of_lookup. exists class. by rewrite list_lookup_imap, Hq.
Qed.
