(* ===== verification/Wakes.v ===== *)
(** * What handlers do to an egress

    Every host, and every switch with its one queue, serves its packets through an
    egress: a queue, the packet in service, and the flag that a [TxReady] is
    pending. This file says what a handler may do to the egress of its node so that
    no packet is left waiting without an event that serves it ([woken]), and gives
    the rules that derive it from the handler's steps. *)

From Stdlib Require Import List.
From S2P Require Import Prelude OrdMap Event ExecError Fel Image PfcOrder StageIndex Transition.
From S2P Require Import Effects.

(** ** The egress of a node *)

Record Egress := mkEgress {
  eg_queue : list PayloadId;
  eg_service : option PayloadId;
  eg_ready : bool;
  eg_open : bool;
}.

(** No class is paused by any controller. *)
Definition none_paused (paused_by : list (bset NodeId)) : bool :=
  forallb (fun controllers => bool_decide (controllers = [])) paused_by.

Arguments none_paused : simpl never.

Definition host_open (pfc : option HostPfcState) : bool :=
  match pfc with
  | None => true
  | Some pfc => none_paused (hp_paused_by_controller pfc)
  end.

Definition host_egress (state : HostState) : Egress :=
  mkEgress (hs_queue state) (hs_in_service state) (hs_tx_ready_pending state)
    (host_open (hs_pfc state)).

(** A switch queue that can send: it has a link, and no class of it is paused. *)
Definition queue_open (queue : SwitchQueueState) : bool :=
  bool_decide (is_Some (sq_egress_link queue)) &&
  match sq_pfc queue with
  | None => true
  | Some pfc => none_paused (pq_paused_by_controller pfc)
  end.

Definition queue_egress (queue : SwitchQueueState) : Egress :=
  mkEgress (sq_queue queue) (sq_in_service queue) (sq_tx_ready_pending queue) (queue_open queue).

Definition switch_egress_view (state : SwitchState) : option Egress :=
  match sw_queues state with
  | [queue] => Some (queue_egress queue)
  | _ => None
  end.

Definition node_egress (nd : NodeDescriptor) (s : TransitionState) : option Egress :=
  slot ← slot_of nd s;
  match nd_kind nd with
  | Host => host_egress <$> ts_hosts s !! slot
  | Switch => ts_switch_states s !! slot ≫= switch_egress_view
  end.

(** The children that drive an egress. *)
Definition is_ready (e : Event) : bool := bool_decide (kind e = TxReady).
Definition is_complete (e : Event) : bool := bool_decide (kind e = TxComplete).
Definition drives (e : Event) : bool := is_ready e || is_complete e.
Abbreviation driving l := (List.filter drives l).

(** ** Waking an egress *)

(** Something will serve the queue. *)
Definition awake (v : Egress) : Prop := eg_ready v = true \/ is_Some (eg_service v).

(** An idle egress that is open has nothing to serve. *)
Definition calm (v : Egress) : Prop := awake v \/ eg_open v = false \/ eg_queue v = [].

(** What is known of the egress in the middle of a handler. *)
Inductive mode := Awake | Calmed | Calm | Dirty.

Definition in_mode (md : mode) (v v' : Egress) : Prop :=
  match md with
  | Awake => awake v'
  | Calmed => calm v'
  | Calm => calm v -> calm v'
  | Dirty => True
  end.

(** From [v] to [v'] the service has not changed, and the ready flag was raised at
    most once, by an idle egress: [new] are the [TxReady] emitted for it, [owed]
    says that one is still to be emitted. *)
Record woken (owed : bool) (md : mode) (v v' : Egress) (new : list Event) : Prop := {
  wk_service : eg_service v' = eg_service v;
  wk_ready : Forall (fun e => kind e = TxReady) new;
  wk_count : (length new + Nat.b2n owed + Nat.b2n (eg_ready v) = Nat.b2n (eg_ready v'))%nat;
  wk_idle : eg_ready v' = true -> eg_ready v = true \/ eg_service v = None;
  wk_mode : in_mode md v v';
}.

Lemma woken_refl v : woken false Calm v v [].
Proof. split; [done|done|done|by left|simpl; auto]. Qed.

Lemma calm_awake v : awake v -> calm v.
Proof. by left. Qed.

Definition at_least_calm (md : mode) : bool :=
  match md with Dirty => false | _ => true end.

Lemma woken_calm owed md v v' new : at_least_calm md = true ->
  woken owed md v v' new -> woken owed Calm v v' new.
Proof.
  intros Hm [H1 H2 H3 H4 H5]. split; [done..|]. destruct md; simpl in *; [by left|done|done|done].
Qed.

Lemma woken_trans v1 v2 v3 new1 new2 md : woken false md v1 v2 new1 -> at_least_calm md = true ->
  woken false Calm v2 v3 new2 -> woken false Calm v1 v3 (new1 ++ new2).
Proof.
  intros H12 Hmd H23. apply woken_calm in H12; [|done].
  destruct H12 as [S1 R1 C1 I1 M1], H23 as [S2 R2 C2 I2 M2].
  split; [congruence|by apply Forall_app|rewrite length_app; simpl in *; lia| |by simpl in *; auto].
  intros Hr. destruct (I2 Hr) as [Hr2|Hs]; [auto|]. right. congruence.
Qed.

(** Steps of a handler. *)

Lemma woken_owed_calm owed md v v' new q : woken owed md v v' new ->
  woken owed match md with Awake => Awake | _ => Dirty end v
    (mkEgress q (eg_service v') (eg_ready v') (eg_open v')) new.
Proof. intros [H1 H2 H3 H4 H5]. split; try done. by destruct md. Qed.

Lemma woken_emit v v' new e md : kind e = TxReady ->
  woken true md v v' new -> woken false md v v' (new ++ [e]).
Proof.
  intros Hk [H1 H2 H3 H4 H5]. split; try done.
  - apply Forall_app. split; [done|]. by constructor.
  - rewrite length_app. simpl in *. lia.
Qed.

(** An egress that is neither serving nor ready is claimed. *)
Lemma woken_claim md v v' new q o : woken false md v v' new ->
  let claims := bool_decide (eg_service v' = None) && negb (eg_ready v') in
  woken claims Awake v (mkEgress q (eg_service v') (claims || eg_ready v') o) new.
Proof.
  intros [H1 H2 H3 H4 _] claims. subst claims.
  destruct (eg_ready v') eqn:Hr; rewrite ?andb_false_r, ?andb_true_r, ?orb_false_r; simpl in *.
  - split; simpl; [done..| |auto|by left]. lia.
  - case_bool_decide as Hs; split; simpl; try done; try lia; [by right; congruence|by left|].
    right. simpl. by destruct (eg_service v').
Qed.

(** ** The rules *)

Section rules.
Context (nd : NodeDescriptor) (slot : option nat).

Definition faces (v : option Egress) (c : Ctx) : Prop :=
  slot_of nd (cx_state c) = slot /\ node_egress nd (cx_state c) = v.

(** From an egress [v], [m] leaves it, drives nothing and returns [Φ]. *)
Definition steady {A} (v : option Egress) (m : transition A) (Φ : A -> Prop) : Prop :=
  forall c a c', faces v c -> m c = Some (Ok (a, c')) ->
    faces v c' /\ driving (cx_children c') = driving (cx_children c) /\ Φ a.

(** From an egress [v], [m] ends with an egress and new driving events in [Q]. *)
Definition drive {A} (v : option Egress) (m : transition A)
    (Q : A -> option Egress -> list Event -> Prop) : Prop :=
  forall c a c', faces v c -> m c = Some (Ok (a, c')) ->
    exists v' new, faces v' c' /\ driving (cx_children c') = driving (cx_children c) ++ new
      /\ Q a v' new.

Lemma steady_weaken {A} v (m : transition A) (Φ Ψ : A -> Prop) :
  steady v m Φ -> (forall a, Φ a -> Ψ a) -> steady v m Ψ.
Proof. intros Hm HΦ c a c' Hf Hr. destruct (Hm _ _ _ Hf Hr) as (? & ? & ?). auto. Qed.

Lemma steady_bind {A B} v (m : transition A) (f : A -> transition B) Φ Ψ :
  steady v m Φ -> (forall a, Φ a -> steady v (f a) Ψ) -> steady v (m ≫= f) Ψ.
Proof.
  intros Hm Hf c b c' Hs (a & c1 & H1 & H2)%bind_inv.
  destruct (Hm _ _ _ Hs H1) as (Hs1 & He1 & Ha).
  destruct (Hf _ Ha _ _ _ Hs1 H2) as (Hs2 & He2 & Hb). split_and!; [done|congruence|done].
Qed.

Lemma drive_bind {A B} v (m : transition A) (f : A -> transition B) Q :
  drive v m (fun a v1 new1 => drive v1 (f a) (fun b v2 new2 => Q b v2 (new1 ++ new2))) ->
  drive v (m ≫= f) Q.
Proof.
  intros Hm c b c' Hs (a & c1 & H1 & H2)%bind_inv.
  destruct (Hm _ _ _ Hs H1) as (v1 & new1 & Hs1 & He1 & Hf).
  destruct (Hf _ _ _ Hs1 H2) as (v2 & new2 & Hs2 & He2 & HQ).
  exists v2, (new1 ++ new2). rewrite He2, He1, app_assoc. done.
Qed.

Lemma drive_weaken {A} v (m : transition A) (Q Q' : A -> option Egress -> list Event -> Prop) :
  drive v m Q -> (forall a v' new, Q a v' new -> Q' a v' new) -> drive v m Q'.
Proof.
  intros Hm HQ c a c' Hs Hr. destruct (Hm _ _ _ Hs Hr) as (v' & new & ? & ? & ?).
  exists v', new. auto.
Qed.

Lemma steady_drive {A} v (m : transition A) Φ :
  steady v m Φ -> drive v m (fun a v' new => Φ a /\ v' = v /\ new = []).
Proof.
  intros Hm c a c' Hs Hr. destruct (Hm _ _ _ Hs Hr) as (? & He & ?).
  exists v, []. by rewrite app_nil_r.
Qed.

Lemma drive_bind_steady {A B} v (m : transition A) (f : A -> transition B) Φ Q :
  steady v m Φ -> (forall a, Φ a -> drive v (f a) Q) -> drive v (m ≫= f) Q.
Proof.
  intros Hm Hf. apply drive_bind. eapply drive_weaken; [by apply steady_drive|].
  intros a v' new (Ha & -> & ->). by apply Hf.
Qed.

Lemma steady_assoc {A B C} v (m : transition A) (f : A -> transition B) (g : B -> transition C) Ψ :
  steady v (m ≫= fun x => f x ≫= g) Ψ -> steady v ((m ≫= f) ≫= g) Ψ.
Proof. intros H c a c' Hn Hr. rewrite bind_assoc in Hr. by eapply H. Qed.

Lemma drive_assoc {A B C} v (m : transition A) (f : A -> transition B) (g : B -> transition C) Q :
  drive v (m ≫= fun x => f x ≫= g) Q -> drive v ((m ≫= f) ≫= g) Q.
Proof. intros H c a c' Hn Hr. rewrite bind_assoc in Hr. by eapply H. Qed.

(** A step that only reads. *)
Lemma steady_read {A} v (m : transition A) (Φ : A -> Prop) :
  (forall c a c', m c = Some (Ok (a, c')) -> c' = c /\ (faces v c -> Φ a)) -> steady v m Φ.
Proof. intros Hm c a c' Hs Hr. destruct (Hm _ _ _ Hr) as [-> HΦ]. auto. Qed.

Lemma steady_done {A} v (a : A) (Φ : A -> Prop) : Φ a -> steady v (done_with a) Φ.
Proof. intros Ha. apply steady_read. by intros c b c' [= <- <-]. Qed.
Lemma steady_done_bind {A B} v (a : A) (f : A -> transition B) Ψ :
  steady v (f a) Ψ -> steady v (done_with a ≫= f) Ψ.
Proof. done. Qed.
Lemma steady_gets {A} v (f : TransitionState -> A) : steady v (gets f) (fun _ => True).
Proof. apply steady_read. by intros c a c' [= <- <-]. Qed.
Lemma steady_attempt {A} v (r : result ExecutionError A) : steady v (attempt r) (fun a => r = Ok a).
Proof. apply steady_read. intros c a c'. unfold attempt. by destruct r; intros [= <- <-]. Qed.
Lemma steady_some_or {A} v (o : option A) e : steady v (some_or o e) (fun a => o = Some a).
Proof. apply steady_read. intros c a c'. unfold some_or. by destruct o; intros [= <- <-]. Qed.
Lemma steady_unwrap {A} v (o : option A) : steady v (unwrap o) (fun a => o = Some a).
Proof. apply steady_read. intros c a c'. unfold unwrap. by destruct o; intros [= <- <-]. Qed.
Lemma steady_run {A} v (m : fueled ExecutionError A) : steady v (run m) (fun a => m = Some (Ok a)).
Proof. apply steady_read. intros c a c'. unfold run. by destruct m as [[]|]; intros [= <- <-]. Qed.
Lemma steady_fail {A} v e (Φ : A -> Prop) : steady v (fail e) Φ.
Proof. by intros c a c' _ Hr. Qed.
Lemma drive_fail {A} v e Q : drive v (@fail A e) Q.
Proof. by intros c a c' _ Hr. Qed.

Lemma drive_done {A} v (a : A) (Q : A -> option Egress -> list Event -> Prop) :
  Q a v [] -> drive v (done_with a) Q.
Proof. intros HQ c b c' Hs [= <- <-]. exists v, []. by rewrite app_nil_r. Qed.

Lemma steady_when v b m : steady v m (fun _ => True) -> steady v (when b m) (fun _ => True).
Proof. intros Hm. destruct b; [done|]. by apply steady_done. Qed.
Lemma steady_when_some {A} v (o : option A) m :
  (forall a, o = Some a -> steady v (m a) (fun _ => True)) ->
  steady v (when_some o m) (fun _ => True).
Proof. intros Hm. destruct o; [by apply Hm|]. by apply steady_done. Qed.
Lemma steady_for_each {A} v (l : list A) body :
  (forall x, x ∈ l -> steady v (body x) (fun _ => True)) ->
  steady v (for_each l body) (fun _ => True).
Proof.
  induction l as [|x l IH]; intros Hb; simpl; [by apply steady_done|].
  eapply steady_bind; [apply Hb; set_solver|]. intros _ _. apply IH.
  intros y Hy. apply Hb. set_solver.
Qed.

(** A write of what is not the node's state. *)
Lemma steady_modify v f :
  (forall s, ts_local_node (f s) = ts_local_node s /\ ts_hosts (f s) = ts_hosts s
     /\ ts_switch_states (f s) = ts_switch_states s) ->
  steady v (modify f) (fun _ => True).
Proof.
  intros Hf c [] c' [Hs Hn] [= <-]. destruct (Hf (cx_state c)) as (Hl & Hh & Hw).
  split_and!; [|done|done]. split; simpl; unfold node_egress, slot_of in *;
    by rewrite ?Hl, ?Hh, ?Hw.
Qed.
End rules.

(** ** A host's own state *)

Section host_steps.
Context (nd : NodeDescriptor) (slot : option nat) (parent : Event) (Hk : nd_kind nd = Host).

Lemma steady_local_state_slot v :
  steady nd slot v (local_state_slot nd) (fun i => slot = Some i).
Proof using Type. apply steady_read. by intros c a c' [-> Hs]%local_state_slot_inv; split; [|intros [<- _]]. Qed.

Lemma steady_host_state v :
  steady nd slot v (host_state nd) (fun h => v = Some (host_egress h)).
Proof using Hk.
  apply steady_read. intros c h c' (-> & i & Hs & Hh)%host_state_inv. split; [done|].
  intros [_ <-]. unfold node_egress. by rewrite Hs, Hk; simpl; rewrite Hh.
Qed.

Lemma steady_host_parts v :
  steady nd slot v (host_parts nd) (fun p => v = Some (host_egress p.1)).
Proof using Hk.
  apply steady_read. intros c [h x] c' (-> & i & Hs & Hh & _)%host_parts_inv. split; [done|].
  intros [_ <-]. unfold node_egress. by rewrite Hs, Hk; simpl; rewrite Hh.
Qed.

Lemma set_host_inv h c c' : set_host nd h c = Some (Ok (tt, c')) ->
  exists i, slot_of nd (cx_state c) = Some i
    /\ c' = mkCtx (cx_state c <| ts_hosts ::= <[i := h]> |>) (cx_children c).
Proof using Type.
  intros (i & c1 & [-> Hs]%local_state_slot_inv & Hr)%bind_inv. injection Hr as <-. eauto.
Qed.

(** A host is written where one was read. *)
Lemma set_host_egress s i h h' : slot_of nd s = Some i -> ts_hosts s !! i = Some h' ->
  node_egress nd (s <| ts_hosts ::= <[i := h]> |>) = Some (host_egress h).
Proof using Hk.
  intros Hs Hl. unfold node_egress.
  change (slot_of nd (s <| ts_hosts ::= _ |>)) with (slot_of nd s). rewrite Hs, Hk. simpl.
  by rewrite list_lookup_insert_eq by (by eapply lookup_lt_Some).
Qed.

Lemma node_egress_host s v : node_egress nd s = Some v ->
  exists i h, slot_of nd s = Some i /\ ts_hosts s !! i = Some h /\ v = host_egress h.
Proof using Hk.
  unfold node_egress. rewrite Hk. destruct (slot_of nd s) as [i|]; [|done]. simpl.
  destruct (ts_hosts s !! i) as [h|] eqn:E; [|done]. intros [= <-]. eauto.
Qed.

Lemma drive_set_host v h (Q : unit -> option Egress -> list Event -> Prop) :
  Q tt (Some (host_egress h)) [] -> drive nd slot (Some v) (set_host nd h) Q.
Proof using Hk.
  intros HQ c [] c' [Hs Hv] (i & Hi & ->)%set_host_inv.
  destruct (node_egress_host _ _ Hv) as (i' & h' & Hi' & Hl & _). rewrite Hi in Hi'.
  injection Hi' as <-. exists (Some (host_egress h)), []. rewrite app_nil_r.
  split_and!; [|done|done]. split; [done|]. by eapply set_host_egress.
Qed.

Lemma steady_set_host v h : v = host_egress h ->
  steady nd slot (Some v) (set_host nd h) (fun _ => True).
Proof using Hk.
  intros -> c [] c' Hf Hr.
  destruct (drive_set_host (host_egress h) h (fun _ v' new => v' = Some (host_egress h) /\ new = [])
    (conj eq_refl eq_refl) c tt c' Hf Hr) as (v' & new & Hf' & He & -> & ->).
  by rewrite app_nil_r in He.
Qed.

Lemma steady_set_index v i : steady nd slot v (set_index nd i) (fun _ => True).
Proof using Type.
  intros c [] c' [Hs Hv] (j & c1 & [-> Hj]%local_state_slot_inv & Hr)%bind_inv.
  injection Hr as <-. done.
Qed.

Lemma drive_emit v emission :
  drive nd slot (Some v) (emit_from_host nd parent emission)
    (fun _ v' new => v' = Some v /\
       exists e, kind e = ce_kind emission /\ payload e = ce_payload emission
         /\ new = driving [e]).
Proof using Hk.
  intros c a c' [Hsl Hv] (h & c1 & (-> & i & Hs & Hh)%host_state_inv & Hr)%bind_inv.
  apply bind_inv in Hr as (next & c1 & Hnext & Hr).
  unfold some_or, attempt in Hnext. destruct (checked_add _ 1) eqn:E; [|done].
  injection Hnext as <- <-. apply bind_inv in Hr as ([] & c1 & (j & Hj & ->)%set_host_inv & Hr).
  rewrite Hs in Hj. injection Hj as <-. apply insert_child_inv in Hr as [_ ->].
  exists (Some v), (driving [child_event nd (hs_next_origin_seq h) emission]).
  split_and!; [|apply List.filter_app|done|].
  2:{ by exists (child_event nd (hs_next_origin_seq h) emission). }
  split; [done|]. etrans; [by eapply set_host_egress|].
  destruct (node_egress_host _ _ Hv) as (i' & h' & Hi' & Hl & ->).
  rewrite Hs in Hi'. injection Hi' as <-. rewrite Hh in Hl. by injection Hl as <-.
Qed.

Lemma steady_emit v emission : ce_kind emission <> TxReady -> ce_kind emission <> TxComplete ->
  steady nd slot (Some v) (emit_from_host nd parent emission) (fun _ => True).
Proof using Hk.
  intros H1 H2 c a c' Hf Hr.
  destruct (drive_emit v emission c a c' Hf Hr) as (v' & new & Hf' & He & -> & e & Hk' & _ & ->).
  revert He. simpl. unfold drives, is_ready, is_complete.
  rewrite !bool_decide_false by congruence. simpl. by rewrite app_nil_r.
Qed.

Lemma drive_emit_ready v id :
  drive nd slot (Some v) (emit_host_ready nd parent id)
    (fun _ v' new => v' = Some v /\ exists e, kind e = TxReady /\ new = [e]).
Proof using Hk.
  eapply drive_weaken; [apply drive_emit|]. intros [] v' new (-> & e & Hke & _ & ->).
  split; [done|]. exists e. split; [done|]. simpl. unfold drives, is_ready.
  by rewrite bool_decide_true by done.
Qed.

End host_steps.

(** ** Automation

    [steadies] proves that a handler's step leaves the egress; a step's lemma comes
    from the database [wakes]. [egress_fact] is the hook for what pure helpers do to
    the egress. *)

Create HintDb wakes discriminated.

Ltac egress_fact := fail.

Ltac solve_egress := repeat egress_fact; unfold host_egress in *; cbn in *; congruence.

Ltac wake_leaf := solve [eauto 5 with wakes].

Ltac steadies := repeat (steady_step; cbn beta)
with steady_step :=
  lazymatch goal with
  | |- steady _ _ _ (let _ := _ in _) _ => cbv zeta
  | |- steady _ _ _ (match ?x with _ => _ end) _ => destruct_match x
  | |- steady _ _ _ (mbind _ ?m) _ =>
      lazymatch m with
      | mbind _ _ => apply steady_assoc
      | done_with _ => apply steady_done_bind
      | fail _ => eapply (steady_bind _ _ _ _ _ (fun _ => False)); [apply steady_fail|intros ? []]
      | match ?x with _ => _ end => destruct_match x
      | _ =>
          first
            [ eapply steady_bind; [wake_leaf|intro_post]
            | eapply (steady_bind _ _ _ _ _ (fun _ => True)); [by steadies|intros ? _] ]
      end
  | |- steady _ _ _ (when _ _) _ => apply steady_when
  | |- steady _ _ _ (when_some _ _) _ => apply steady_when_some; intros ? ?
  | |- steady _ _ _ (for_each _ _) _ => apply steady_for_each; intros ? ?
  | |- steady _ _ _ (done_with _) _ => apply steady_done
  | |- steady _ _ _ unit_done _ => apply steady_done
  | |- steady _ _ _ (fail _) _ => apply steady_fail
  | |- steady _ _ _ _ _ => first [wake_leaf | eapply steady_weaken; [wake_leaf|intro_post]]
  end.

#[export] Hint Resolve steady_gets steady_attempt steady_some_or steady_unwrap steady_run
  steady_local_state_slot steady_host_state steady_host_parts steady_set_host steady_set_index
  steady_emit : wakes.
#[export] Hint Extern 1 (_ = host_egress _) => solve_egress : wakes.
#[export] Hint Extern 1 (ce_kind _ <> _) => (cbn; discriminate) : wakes.

Ltac solve_steady_modify := apply steady_modify; by intros s.

(** ** The steps the handlers share *)

Section primitives.
Context (nd : NodeDescriptor) (slot : option nat) (parent : Event).

Lemma steady_node v id : steady nd slot v (node id) (fun _ => True).
Proof. unfold node. by steadies. Qed.
Lemma steady_link v id : steady nd slot v (link id) (fun _ => True).
Proof. unfold link. by steadies. Qed.
Lemma steady_flow v id : steady nd slot v (flow id) (fun _ => True).
Proof. unfold flow. by steadies. Qed.
Lemma steady_node_count v : steady nd slot v node_count (fun _ => True).
Proof. unfold node_count. by steadies. Qed.
#[local] Hint Resolve steady_node steady_link steady_flow steady_node_count : wakes.

Lemma steady_packet_pfc_class v pk : steady nd slot v (packet_pfc_class pk) (fun _ => True).
Proof. unfold packet_pfc_class. by steadies. Qed.
Lemma steady_packet_egress_at v pk id : steady nd slot v (packet_egress_at pk id) (fun _ => True).
Proof. unfold packet_egress_at. by steadies. Qed.
Lemma steady_packet_incoming_link_at v pk id :
  steady nd slot v (packet_incoming_link_at pk id) (fun _ => True).
Proof. unfold packet_incoming_link_at. by steadies. Qed.
Lemma steady_packet_remote_target_for v pk id :
  steady nd slot v (packet_remote_target_for pk id) (fun _ => True).
Proof. unfold packet_remote_target_for. by steadies. Qed.
Lemma steady_cancel_superseded_timer v id payload deadline :
  steady nd slot v (cancel_superseded_timer id payload deadline) (fun _ => True).
Proof. solve_steady_modify. Qed.
Lemma steady_resident v id : steady nd slot v (resident id) (fun _ => True).
Proof. unfold resident. by steadies. Qed.
Lemma steady_put_resident v r : steady nd slot v (put_resident r) (fun _ => True).
Proof. solve_steady_modify. Qed.
Lemma steady_update_resident v id r : steady nd slot v (update_resident id r) (fun _ => True).
Proof. solve_steady_modify. Qed.
Lemma steady_remove_resident v id : steady nd slot v (remove_resident id) (fun _ => True).
Proof. solve_steady_modify. Qed.
Lemma steady_set_summary v r : steady nd slot v (set_summary r) (fun _ => True).
Proof. solve_steady_modify. Qed.
Lemma steady_add_summary v x y id : steady nd slot v (add_summary x y id) (fun _ => True).
Proof. unfold add_summary. by steadies. Qed.
#[local] Hint Resolve steady_resident steady_put_resident steady_update_resident
  steady_remove_resident steady_packet_remote_target_for steady_set_summary
  steady_add_summary steady_packet_pfc_class : wakes.

Lemma steady_packet v id : steady nd slot v (packet id) (fun _ => True).
Proof. unfold packet. by steadies. Qed.
#[local] Hint Resolve steady_packet : wakes.

Lemma steady_packet_remote_target v id link :
  steady nd slot v (packet_remote_target id link) (fun _ => True).
Proof. unfold packet_remote_target. by steadies. Qed.
Lemma steady_insert_packet v pk t : steady nd slot v (insert_packet pk t) (fun _ => True).
Proof. unfold insert_packet. by steadies. Qed.
Lemma steady_set_source_time v id t : steady nd slot v (set_source_time id t) (fun _ => True).
Proof. unfold set_source_time. by steadies. Qed.
Lemma steady_set_packet_marked v id : steady nd slot v (set_packet_marked id) (fun _ => True).
Proof. unfold set_packet_marked. by steadies. Qed.
Lemma steady_start_transmission v nid id :
  steady nd slot v (start_transmission nid id) (fun _ => True).
Proof. unfold start_transmission. by steadies. Qed.
Lemma steady_finish_transmission v nid id :
  steady nd slot v (finish_transmission nid id) (fun _ => True).
Proof. unfold finish_transmission. by steadies. Qed.
Lemma steady_mark_terminal v id : steady nd slot v (mark_terminal id) (fun _ => True).
Proof. unfold mark_terminal. by steadies. Qed.
Lemma steady_record_sourced v nid pk : steady nd slot v (record_sourced nid pk) (fun _ => True).
Proof. unfold record_sourced. by steadies. Qed.
Lemma steady_record_departure v nid pk :
  steady nd slot v (record_departure nid pk) (fun _ => True).
Proof. unfold record_departure. by steadies. Qed.
Lemma steady_record_arrival v nid pk d :
  steady nd slot v (record_arrival nid pk d) (fun _ => True).
Proof. unfold record_arrival. by steadies. Qed.
End primitives.

#[export] Hint Resolve steady_node steady_link steady_flow steady_node_count
  steady_packet_pfc_class steady_packet_egress_at steady_packet_incoming_link_at
  steady_packet_remote_target_for steady_cancel_superseded_timer steady_resident
  steady_put_resident steady_update_resident steady_remove_resident steady_packet
  steady_packet_remote_target steady_insert_packet steady_set_source_time
  steady_set_packet_marked steady_start_transmission steady_finish_transmission
  steady_mark_terminal steady_record_sourced steady_record_departure steady_record_arrival : wakes.
