(* ===== verification/HostWakes.v ===== *)
(** * Host handlers wake the host's egress

    Each host handler other than those of [TxReady] and [TxComplete] leaves the
    packet in service, raises the ready flag of an idle egress at most once, and
    emits one [TxReady] for it: [wakes]. The two service handlers move the packet
    in service. *)

From S2P Require Import Prelude OrdMap Event LinkTime ExecError Fel Dcqcn Tcp Model Image Roce.
From S2P Require Import TcpReceiver Sched TcpLedger StageIndex Transition TcpSend Stages HostSend.
From S2P Require Import HostTcp Pacing HostRoce HostReceive Effects Wakes.

(** ** What the pure helpers do to the egress *)

Definition same_egress (state state' : HostState) : Prop := host_egress state' = host_egress state.

Section pure.
Context (nd : NodeDescriptor).

Lemma allocate_payload_egress count state id state' :
  allocate_payload nd count state = Ok (id, state') -> same_egress state state'.
Proof. unfold allocate_payload. intros H. by invert_ok. Qed.

Lemma count_sourced_egress k state state' :
  count_sourced nd k state = Ok state' -> same_egress state state'.
Proof. unfold count_sourced. intros H. by invert_ok. Qed.

Lemma count_received_egress state state' :
  count_received nd state = Ok state' -> same_egress state state'.
Proof. unfold count_received. intros H. by invert_ok. Qed.

Lemma plan_retransmission_egress count flow now segment s s' :
  plan_retransmission nd count flow now segment s = Ok s' -> same_egress (fl_host s) (fl_host s').
Proof. unfold plan_retransmission. intros H. invert_ok; [by eapply allocate_payload_egress|done..]. Qed.

Lemma send_segment_egress count flow now size s s' :
  send_segment nd count flow now size s = Ok s' -> same_egress (fl_host s) (fl_host s').
Proof. unfold send_segment. intros H. invert_ok. by eapply allocate_payload_egress. Qed.

Lemma fill_window_egress count flow now fill s s' :
  fill_window nd count flow now fill s = Some (Ok s') -> same_egress (fl_host s) (fl_host s').
Proof.
  unfold fill_window. destruct fill; [|by intros [= <-]].
  destruct (wloop _ _ s) as [|r] eqn:E; intros [= ->].
  apply wloop_inr in E. remember (Ok s') as r eqn:Hr. revert Hr.
  induction E as [s r Hs|s s1 r Hs _ IH]; intros ->; unfold fill_step in Hs; case_match; simplify_eq.
  - done.
  - by case_match; simplify_eq.
  - case_match; simplify_eq. etrans; [by apply IH|]. by eapply send_segment_egress.
Qed.

Lemma complete_local_successors_egress state index completed completion causes r :
  complete_local_successors state index completed completion causes = Some r ->
  same_egress state r.1.1.
Proof.
  unfold complete_local_successors. intros H. invert_ok; [|done]. simpl.
  match goal with H : panic_fold _ _ _ = _ |- _ => revert H end.
  apply (panic_fold_ind (fun s => same_egress state (sp_state s))); [|done].
  intros s y s2 _ Hs. unfold complete_local_successor. intros Hx. invert_ok; done.
Qed.

Lemma record_inbound_progress_egress state index inbound progress id causes r :
  record_inbound_progress state index inbound progress id causes = Some (Ok r) ->
  same_egress state r.1.1.
Proof.
  unfold record_inbound_progress. intros H. invert_ok; [|done]. simpl.
  match goal with H : fueled_fold _ _ _ = _ |- _ => revert H end.
  apply (fueled_fold_ind (fun s => same_egress state (sp_state s))); [|done].
  intros s y s2 _ Hs. unfold record_inbound_successor. intros Hx. invert_ok; done.
Qed.
End pure.

Ltac pure_egress :=
  match goal with
  | H : allocate_payload _ _ _ = Ok _ |- _ => apply allocate_payload_egress in H
  | H : count_sourced _ _ _ = Ok _ |- _ => apply count_sourced_egress in H
  | H : count_received _ _ = Ok _ |- _ => apply count_received_egress in H
  | H : plan_retransmission _ _ _ _ _ _ = Ok _ |- _ => apply plan_retransmission_egress in H
  | H : fill_window _ _ _ _ _ _ = Some (Ok _) |- _ => apply fill_window_egress in H
  | H : complete_local_successors _ _ _ _ _ = Some _ |- _ =>
      apply complete_local_successors_egress in H
  | H : record_inbound_progress _ _ _ _ _ _ = Some (Ok _) |- _ =>
      apply record_inbound_progress_egress in H
  end.

Ltac egress_pure := repeat pure_egress; unfold same_egress, host_egress in *; cbn in *; congruence.

Section pure_ticks.
Context (nd : NodeDescriptor).

Lemma pace_packet_egress pk state generator credit cost r :
  pace_packet nd pk state generator credit cost = Ok r -> same_egress state r.1.1.1.
Proof. unfold pace_packet. intros H. invert_ok; egress_pure. Qed.

Lemma pace_tick_egress count stop now pk state generator rate bps r :
  pace_tick nd count stop now pk state generator rate bps = Ok r -> same_egress state (pt_state r).
Proof.
  unfold pace_tick. intros H. invert_ok;
    match goal with H : pace_packet _ _ _ _ _ _ = _ |- _ => apply pace_packet_egress in H end;
    egress_pure.
Qed.

Lemma roce_send_egress count now flow state generator roce r :
  roce_send nd count now flow state generator roce = Ok r -> same_egress state r.1.1.1.1.
Proof. unfold roce_send. intros H. invert_ok; egress_pure. Qed.

Lemma roce_open_tick_egress count now stop flow state position generator roce r :
  roce_open_tick nd count now stop flow state position generator roce = Ok r ->
  same_egress state (rt_state r).
Proof.
  unfold roce_open_tick. intros H. invert_ok; cbn;
    try match goal with H : roce_send _ _ _ _ _ _ _ = _ |- _ => apply roce_send_egress in H end;
    egress_pure.
Qed.

Lemma paused_class_pfc image flow pfc p :
  paused_class image flow pfc = Some (Ok (Some p)) -> pfc = Some p.1.
Proof. unfold paused_class. intros H. invert_ok. by repeat case_match; simplify_eq. Qed.

Lemma roce_tick_egress image count event flow state position generator roce r :
  roce_tick nd image count event flow state position generator roce = Some (Ok r) ->
  same_egress state (rt_state r).
Proof.
  unfold roce_tick, join_parked. intros H. invert_ok; try done; [|by eapply roce_open_tick_egress].
  match goal with H : paused_class _ _ _ = _ |- _ => apply paused_class_pfc in H end.
  unfold same_egress, host_egress. cbn in *.
  by match goal with H : hs_pfc state = _ |- _ => rewrite H end.
Qed.

Lemma restart_parked_class_egress image now priority state r :
  restart_parked_class nd image now priority state = Some (Ok r) -> same_egress state r.1.
Proof.
  unfold restart_parked_class. intros H. destruct (hs_pfc state) as [pfc|] eqn:Hp; [|done]. revert H.
  rewrite fueled_bind_Ok. intros (parked & _ & H). revert H.
  apply (fueled_fold_ind (fun s => same_egress state s.1)).
  - intros s y s2 _ Hs. unfold restart_parked. intros Hx. invert_ok. done.
  - unfold same_egress, host_egress. cbn. by rewrite Hp.
Qed.

Lemma leave_parked_list_open pfc class position generator roce pfc' :
  leave_parked_list pfc class position generator roce = Some pfc' -> host_open pfc' = host_open pfc.
Proof. unfold leave_parked_list. intros H. by invert_ok. Qed.

(** A constant generator's emission ends with a claim. *)
Lemma constant_emission_egress count stop event pk state position generator r :
  constant_emission nd count stop event pk state position generator = Some (Ok r) ->
  exists state', same_egress state state' /\ claim_ready state' = (r.2, r.1.1).
Proof.
  unfold constant_emission. intros H. invert_ok; eexists; (split; [|eassumption || done]); egress_pure.
Qed.
End pure_ticks.

Ltac tick_egress :=
  match goal with
  | H : pace_tick _ _ _ _ _ _ _ _ _ = Ok _ |- _ => apply pace_tick_egress in H
  | H : roce_tick _ _ _ _ _ _ _ _ _ = Some (Ok _) |- _ => apply roce_tick_egress in H
  | H : restart_parked_class _ _ _ _ _ = Some (Ok _) |- _ => apply restart_parked_class_egress in H
  | H : leave_parked_list _ _ _ _ _ = Some _ |- _ => apply leave_parked_list_open in H
  end.

Ltac egress_fact ::= (first [pure_egress | tick_egress]); unfold same_egress in *.

(** ** Moves of the egress in the middle of a handler *)

Section moves.
Context (nd : NodeDescriptor) (slot : option nat).

(** From the egress [v], reached from [v0] with [new], [m] ends woken. *)
Definition brings {A} (v0 v : Egress) (new : list Event) (o : bool) (md : mode)
    (m : transition A) : Prop :=
  drive nd slot (Some v) m (fun _ v' new' => exists e, v' = Some e /\ woken o md v0 e (new ++ new')).

Definition moves {A} (o : bool) (md : mode) (o' : bool) (md' : mode) (m : transition A) : Prop :=
  forall v0 v new, woken o md v0 v new -> brings v0 v new o' md' m.

Lemma brings_steady {A B} v0 v new o md (m : transition A) (f : A -> transition B) Φ :
  steady nd slot (Some v) m Φ -> (forall a, Φ a -> brings v0 v new o md (f a)) ->
  brings v0 v new o md (m ≫= f).
Proof. intros Hm Hf. by eapply drive_bind_steady. Qed.

Lemma brings_moves {A B} v0 v new o md o1 md1 o2 md2 (m : transition A) (f : A -> transition B) :
  woken o md v0 v new -> moves o md o1 md1 m ->
  (forall a v' new', woken o1 md1 v0 v' new' -> brings v0 v' new' o2 md2 (f a)) ->
  brings v0 v new o2 md2 (m ≫= f).
Proof.
  intros Hw Hm Hf. apply drive_bind. eapply drive_weaken; [by apply Hm|].
  intros a v' new' (e & -> & He). eapply drive_weaken; [by apply Hf|].
  intros b v2 new2 (e2 & -> & He2). exists e2. by rewrite app_assoc.
Qed.

Lemma brings_assoc {A B C} v0 v new o md (m : transition A) (f : A -> transition B)
    (g : B -> transition C) :
  brings v0 v new o md (m ≫= fun x => f x ≫= g) -> brings v0 v new o md ((m ≫= f) ≫= g).
Proof. intros H. by apply drive_assoc. Qed.

Lemma brings_done_bind {A B} v0 v new o md (a : A) (f : A -> transition B) :
  brings v0 v new o md (f a) -> brings v0 v new o md (done_with a ≫= f).
Proof. done. Qed.

Lemma brings_fail {A} v0 v new o md e : brings v0 v new o md (@fail A e).
Proof. apply drive_fail. Qed.

Lemma brings_fail_bind {A B} v0 v new o md e (f : A -> transition B) :
  brings v0 v new o md (fail e ≫= f).
Proof. by intros c a c' _ Hr. Qed.

Lemma brings_done {A} v0 v new o md md' (a : A) : woken o md v0 v new ->
  (md = md' \/ (md' = Calm /\ at_least_calm md = true)) ->
  brings v0 v new o md' (done_with a).
Proof.
  intros Hw Hmd. apply drive_done. exists v. rewrite app_nil_r. split; [done|].
  destruct Hmd as [<-|[-> Hmd]]; [done|by eapply woken_calm].
Qed.

Lemma brings_when {A} v0 v new o md b (m : transition unit) (f : unit -> transition A) :
  (b = true -> brings v0 v new o md (m ≫= f)) -> (b = false -> brings v0 v new o md (f tt)) ->
  brings v0 v new o md (when b m ≫= f).
Proof. intros H1 H2. destruct b; [by apply H1|by apply H2]. Qed.

Lemma brings_when_some {A B} v0 v new o md (x : option B) (m : B -> transition unit)
    (f : unit -> transition A) :
  (forall b, x = Some b -> brings v0 v new o md (m b ≫= f)) ->
  (x = None -> brings v0 v new o md (f tt)) ->
  brings v0 v new o md (when_some x m ≫= f).
Proof. intros H1 H2. destruct x; [by apply H1|by apply H2]. Qed.

(** The last step of a handler, as a step before returning. *)
Lemma brings_tail {A} v0 v new o md (m : transition A) :
  brings v0 v new o md (m ≫= done_with) -> brings v0 v new o md m.
Proof.
  intros H c a c' Hf Hr. eapply H; [done|]. unfold mbind, transition_bind. by rewrite Hr.
Qed.
End moves.

(** A handler that may start in any calm mode. *)
Abbreviation wakes nd slot m :=
  (forall md, at_least_calm md = true -> moves nd slot false md false Calm m).

Lemma wakes_drive {A} nd slot v (m : transition A) : wakes nd slot m ->
  drive nd slot (Some v) m (fun _ v' new => exists e, v' = Some e /\ woken false Calm v e new).
Proof. intros Hm. exact (Hm Calm eq_refl v v [] (woken_refl v)). Qed.

Section host_moves.
Context (nd : NodeDescriptor) (slot : option nat) (parent : Event) (Hk : nd_kind nd = Host).

Lemma moves_emit_ready md id : moves nd slot true md false md (emit_host_ready nd parent id).
Proof using Hk.
  intros v0 v new Hw. eapply drive_weaken; [by apply drive_emit_ready|].
  intros [] v' new' (-> & e & He & ->). exists v. split; [done|]. by apply woken_emit.
Qed.

Lemma moves_when_ready md b id :
  moves nd slot b md false md (when b (emit_host_ready nd parent id)).
Proof using Hk.
  destruct b; [apply moves_emit_ready|]. intros v0 v new Hw. eapply brings_done; [done|by left].
Qed.

Lemma drive_enqueue v id :
  drive nd slot (Some v) (enqueue_source_packet nd id)
    (fun _ v' new => new = [] /\
       exists q, v' = Some (mkEgress q (eg_service v) (eg_ready v) (eg_open v))).
Proof using Hk.
  unfold enqueue_source_packet.
  eapply drive_bind_steady; [wake_leaf|intros r _].
  eapply drive_bind_steady; [apply steady_some_or|intros t _].
  eapply drive_bind_steady; [apply steady_gets|intros ps _].
  eapply drive_bind_steady; [by apply steady_host_state|intros h [= ->]].
  apply drive_set_host; [done|]. split; [done|]. by eexists.
Qed.
Lemma moves_enqueue_awake o id : moves nd slot o Awake o Awake (enqueue_source_packet nd id).
Proof using Hk.
  intros v0 v new Hw. eapply drive_weaken; [by apply drive_enqueue|].
  intros [] v' new' (-> & q & ->). eexists. split; [done|]. rewrite app_nil_r.
  exact (woken_owed_calm _ _ _ _ _ q Hw).
Qed.

Lemma moves_enqueue o md id : moves nd slot o md o Dirty (enqueue_source_packet nd id).
Proof using Hk.
  intros v0 v new Hw. eapply drive_weaken; [by apply drive_enqueue|].
  intros [] v' new' (-> & q & ->). eexists. split; [done|]. rewrite app_nil_r.
  destruct (woken_owed_calm _ _ _ _ _ q Hw). by split.
Qed.

(** A host that was read, whose egress has not changed since, is claimed. *)
Lemma brings_claim {A} v0 v new o' md md' state ready state' state'' (f : unit -> transition A) :
  claim_ready state = (ready, state') -> v = host_egress state ->
  host_egress state'' = host_egress state' ->
  woken false md v0 v new ->
  (woken ready Awake v0 (host_egress state'') new ->
     brings nd slot v0 (host_egress state'') new o' md' (f tt)) ->
  brings nd slot v0 v new o' md' (set_host nd state'' ≫= f).
Proof using Hk.
  intros Hc -> He Hw Hf. apply drive_bind, drive_set_host; [done|]. apply Hf.
  pose proof (woken_claim _ _ _ _ (hs_queue state) (host_open (hs_pfc state)) Hw) as Hcl.
  rewrite He. unfold claim_ready in Hc. cbn in Hcl.
  destruct (bool_decide (hs_in_service state = None) && negb (hs_tx_ready_pending state));
    by injection Hc as <- <-.
Qed.
End host_moves.

(** [waking] reads a handler step by step, keeping what is known of the egress. *)
Ltac waking := repeat (wake_step; cbn beta)
with wake_step :=
  lazymatch goal with
  | |- forall md, at_least_calm md = true -> _ => intros ? ?
  | |- moves _ _ _ _ _ _ _ => intros ? ? ? ?
  | |- brings _ _ _ _ _ _ _ (let _ := _ in _) => cbv zeta
  | |- brings _ _ _ _ _ _ _ (match ?x with _ => _ end) => destruct_match x
  | |- brings _ _ _ _ _ _ _ (fail _) => apply brings_fail
  | Hw : woken _ _ ?v0 ?v ?new |- brings _ _ ?v0 ?v ?new _ _ (done_with _) =>
      eapply brings_done; [exact Hw|first [by left | by right]]
  | Hw : woken _ _ ?v0 ?v ?new |- brings _ _ ?v0 ?v ?new _ _ unit_done =>
      eapply brings_done; [exact Hw|first [by left | by right]]
  | Hw : woken _ _ ?v0 ?v ?new |- brings _ _ ?v0 ?v ?new _ _ (mbind ?f ?m) =>
      lazymatch m with
      | mbind _ _ => apply brings_assoc
      | done_with _ => apply brings_done_bind
      | unit_done => apply brings_done_bind
      | fail _ => apply brings_fail_bind
      | match ?x with _ => _ end => destruct_match x
      | _ =>
          first
            [ eapply brings_steady; [wake_leaf|intro_post]
            | eapply (brings_steady _ _ _ _ _ _ _ _ _ (fun _ => True)); [solve [steadies]|intros ? _]
            | lazymatch m with set_host _ _ =>
                eapply brings_claim; [assumption|eassumption|solve_egress|solve_egress|exact Hw|];
                clear Hw; intros Hw end
            | eapply brings_moves; [exact Hw|wake_leaf|]; clear Hw; intros ? ? ? Hw
            | lazymatch m with
              | when _ _ => apply brings_when; intros ?
              | when_some _ _ => apply brings_when_some; [intros ? ?; simplify_eq|intros ?; simplify_eq]
              end ]
      end
  | |- brings _ _ _ _ _ _ _ _ => apply brings_tail
  end.

#[export] Hint Resolve moves_emit_ready moves_when_ready moves_enqueue_awake | 1 : wakes.
#[export] Hint Resolve moves_enqueue | 2 : wakes.
#[export] Hint Extern 1 (at_least_calm _ = true) => first [reflexivity | assumption] : wakes.

Section host_wakes.
Context (nd : NodeDescriptor) (slot : option nat) (parent : Event) (Hk : nd_kind nd = Host).

Lemma moves_source_packet_awake o pk now : moves nd slot o Awake o Awake (source_packet nd pk now).
Proof using Hk. unfold source_packet. by waking. Qed.

Lemma moves_source_packet o md pk now : moves nd slot o md o Dirty (source_packet nd pk now).
Proof using Hk. unfold source_packet. by waking. Qed.

Lemma moves_schedule_host_ready md id :
  moves nd slot false md false Awake (schedule_host_ready nd parent id).
Proof using Hk. unfold schedule_host_ready. by waking. Qed.

Lemma woken_dirty o md v v' new : woken o md v v' new -> woken o Dirty v v' new.
Proof using Type. intros []. by split. Qed.

Lemma woken_settled o md v v' new : woken o md v v' new -> calm v' -> woken o Calmed v v' new.
Proof using Type. intros [] ?. by split. Qed.

Lemma moves_source_packets md (packets : list PacketDescriptor) now :
  moves nd slot false md false Dirty (for_each packets (fun packet => source_packet nd packet now)).
Proof using Hk.
  intros v0 v new Hw%woken_dirty. revert v new Hw.
  induction packets as [|pk packets IH]; intros v new Hw; simpl.
  - eapply brings_done; [exact Hw|by left].
  - eapply brings_moves; [exact Hw|apply moves_source_packet|]. intros _ v' new' Hw'. by apply IH.
Qed.

(** The claim of a queue's head. *)
Lemma brings_ready {A} v0 v new o' md md' state (f : unit -> transition A) :
  v = host_egress state -> hs_in_service state = None -> hs_tx_ready_pending state = false ->
  woken false md v0 v new ->
  (forall v', woken true Awake v0 v' new -> brings nd slot v0 v' new o' md' (f tt)) ->
  brings nd slot v0 v new o' md' (set_host nd (state <| hs_tx_ready_pending := true |>) ≫= f).
Proof using Hk.
  intros -> Hs Hr Hw Hf. apply drive_bind, drive_set_host; [done|]. apply Hf.
  pose proof (woken_claim _ _ _ _ (hs_queue state) (host_open (hs_pfc state)) Hw) as Hcl.
  cbn in Hcl. rewrite Hs, Hr, bool_decide_true in Hcl by done. cbn in Hcl.
  unfold host_egress. cbn. by rewrite Hs.
Qed.

Lemma moves_install_tcp_attempts md plan :
  moves nd slot false md false Calm (install_tcp_attempts nd parent plan).
Proof using Hk.
  intros v0 v new Hw. unfold install_tcp_attempts.
  eapply brings_moves; [exact Hw|apply moves_source_packets|]. clear v new Hw. intros _ v new Hw.
  eapply brings_steady; [by apply steady_host_state|]. intros state [= ->].
  destruct (bool_decide (hs_in_service state = None) && negb (hs_tx_ready_pending state)) eqn:E.
  - apply andb_true_iff in E as [Hs%bool_decide_eq_true Hr%negb_true_iff].
    destruct (head (hs_queue state)) as [id|] eqn:Hq.
    + apply brings_assoc. eapply brings_ready; [done..|exact Hw|]. clear Hw. intros v Hw. by waking.
    + eapply woken_settled in Hw; [by waking|]. right. right. simpl. by destruct (hs_queue state).
  - eapply woken_settled in Hw; [by waking|]. left. apply andb_false_iff in E as [E|E].
    + right. simpl. apply bool_decide_eq_false in E. by destruct (hs_in_service state).
    + left. simpl. by apply negb_false_iff in E.
Qed.
End host_wakes.

#[export] Hint Resolve moves_source_packet_awake moves_schedule_host_ready | 1 : wakes.
#[export] Hint Resolve moves_source_packet moves_install_tcp_attempts | 2 : wakes.

(** ** The host handlers *)

Section handlers.
Context (nd : NodeDescriptor) (slot : option nat) (parent : Event) (Hk : nd_kind nd = Host).

Lemma steady_set_segments v segments :
  steady nd slot v (modify (fun s => s <| ts_tcp_sent_segments := segments |>)) (fun _ => True).
Proof using Type. solve_steady_modify. Qed.
#[local] Hint Resolve steady_set_segments : wakes.

Lemma steady_seed_tcp_segments v packets :
  steady nd slot v (seed_tcp_segments packets) (fun _ => True).
Proof using Type. unfold seed_tcp_segments. by steadies. Qed.
#[local] Hint Resolve steady_seed_tcp_segments : wakes.

Lemma steady_prepare_tcp_attempts v flow now retransmit fill preserve :
  steady nd slot (Some v) (prepare_tcp_attempts nd flow now retransmit fill preserve) (fun _ => True).
Proof using Hk. unfold prepare_tcp_attempts. by steadies. Qed.

Lemma steady_generator_parts v flow e :
  steady nd slot v (generator_parts nd flow e) (fun p => v = Some (host_egress p.1.1.1)).
Proof using Hk. unfold generator_parts. by steadies. Qed.

Lemma steady_set_generator v state position generator : v = host_egress state ->
  steady nd slot (Some v) (set_generator nd state position generator) (fun _ => True).
Proof using Hk. intros ->. unfold set_generator. by steadies. Qed.
#[local] Hint Resolve steady_prepare_tcp_attempts steady_generator_parts steady_set_generator : wakes.

(** *** Stages *)

Lemma steady_start_roce_stage v flow :
  steady nd slot (Some v) (start_roce_stage nd parent flow) (fun _ => True).
Proof using Hk. unfold start_roce_stage. by steadies. Qed.

Lemma steady_start_compute_stage v flow duration size kind :
  steady nd slot (Some v) (start_compute_stage nd parent flow duration size kind) (fun _ => True).
Proof using Hk. unfold start_compute_stage. by steadies. Qed.
#[local] Hint Resolve steady_start_roce_stage steady_start_compute_stage : wakes.

Lemma wakes_activate_wrapped_stage flow : wakes nd slot (activate_wrapped_stage nd parent flow).
Proof using Hk. unfold activate_wrapped_stage. by waking. Qed.
#[local] Hint Resolve wakes_activate_wrapped_stage : wakes.

Lemma wakes_activate_loop fuel causes ordinal :
  wakes nd slot (activate_loop fuel nd parent causes ordinal).
Proof using Hk.
  revert causes ordinal. induction fuel as [|fuel IH]; intros causes ordinal; simpl.
  - intros md Hmd v0 v new _ c a c' _ Hr. done.
  - by waking.
Qed.
#[local] Hint Resolve wakes_activate_loop : wakes.

Lemma wakes_release_stages causes : wakes nd slot (release_stages nd parent causes).
Proof using Hk. unfold release_stages, activate_ready_collectives. by waking. Qed.
#[local] Hint Resolve wakes_release_stages : wakes.

Lemma steady_complete_stage v flow ack origin data_bytes ack_bytes :
  steady nd slot (Some v) (complete_stage nd flow ack origin data_bytes ack_bytes) (fun _ => True).
Proof using Hk. unfold complete_stage. by steadies. Qed.
#[local] Hint Resolve steady_complete_stage : wakes.

(** *** Sends *)

Lemma wakes_host_preloaded_packet_arrival :
  wakes nd slot (host_preloaded_packet_arrival nd parent).
Proof using Hk. unfold host_preloaded_packet_arrival. by waking. Qed.
#[local] Hint Resolve wakes_host_preloaded_packet_arrival : wakes.

Lemma wakes_host_tcp_initial_send pk header :
  wakes nd slot (host_tcp_initial_send nd parent pk header).
Proof using Hk. unfold host_tcp_initial_send. by waking. Qed.
#[local] Hint Resolve wakes_host_tcp_initial_send : wakes.

Lemma wakes_host_compute_timer flow : wakes nd slot (host_compute_timer nd parent flow).
Proof using Hk. unfold host_compute_timer. by waking. Qed.

Lemma wakes_host_notify_timer flow : wakes nd slot (host_notify_timer nd parent flow).
Proof using Hk. unfold host_notify_timer. by waking. Qed.

Lemma wakes_host_notify_arrival pk : wakes nd slot (host_notify_arrival nd parent pk).
Proof using Hk. unfold host_notify_arrival. by waking. Qed.
#[local] Hint Resolve wakes_host_compute_timer wakes_host_notify_timer
  wakes_host_notify_arrival : wakes.

(** *** TCP *)

Lemma wakes_host_tcp_data_arrival pk header :
  wakes nd slot (host_tcp_data_arrival nd parent pk header).
Proof using Hk. unfold host_tcp_data_arrival. by waking. Qed.

Lemma steady_acknowledge_tcp_segments v flow ack :
  steady nd slot v (acknowledge_tcp_segments flow ack) (fun _ => True).
Proof using Type. unfold acknowledge_tcp_segments. by steadies. Qed.
#[local] Hint Resolve steady_acknowledge_tcp_segments : wakes.

Lemma wakes_host_tcp_ack_arrival pk header :
  wakes nd slot (host_tcp_ack_arrival nd parent pk header).
Proof using Hk. unfold host_tcp_ack_arrival. by waking. Qed.
#[local] Hint Resolve wakes_host_tcp_data_arrival wakes_host_tcp_ack_arrival : wakes.

(** *** Rates and DCQCN *)

Lemma wakes_finish_tick pk tick : wakes nd slot (finish_tick nd parent pk tick).
Proof using Hk. unfold finish_tick. by waking. Qed.
#[local] Hint Resolve wakes_finish_tick : wakes.

Lemma wakes_host_rate_timer pk : wakes nd slot (host_rate_timer nd parent pk).
Proof using Hk. unfold host_rate_timer. by waking. Qed.

Lemma wakes_host_dcqcn_pacing_timer pk : wakes nd slot (host_dcqcn_pacing_timer nd parent pk).
Proof using Hk. unfold host_dcqcn_pacing_timer. by waking. Qed.

Lemma wakes_host_dcqcn_data_arrival pk : wakes nd slot (host_dcqcn_data_arrival nd parent pk).
Proof using Hk. unfold host_dcqcn_data_arrival. by waking. Qed.

Lemma wakes_host_dcqcn_cnp_arrival pk : wakes nd slot (host_dcqcn_cnp_arrival nd parent pk).
Proof using Hk. unfold host_dcqcn_cnp_arrival. by waking. Qed.
#[local] Hint Resolve wakes_host_rate_timer wakes_host_dcqcn_pacing_timer
  wakes_host_dcqcn_data_arrival wakes_host_dcqcn_cnp_arrival : wakes.

(** *** RoCE *)

Lemma steady_roce_timers v token tick timer :
  steady nd slot (Some v) (emit_roce_timers nd parent token tick timer) (fun _ => True).
Proof using Hk. unfold emit_roce_timers. by steadies. Qed.
#[local] Hint Resolve steady_roce_timers : wakes.

Lemma wakes_host_roce_pacing_timer pk : wakes nd slot (host_roce_pacing_timer nd parent pk).
Proof using Hk. unfold host_roce_pacing_timer. by waking. Qed.

Lemma wakes_host_roce_feedback_arrival pk header nack :
  wakes nd slot (host_roce_feedback_arrival nd parent pk header nack).
Proof using Hk. unfold host_roce_feedback_arrival. by waking. Qed.

Lemma wakes_host_roce_timeout : wakes nd slot (host_roce_timeout nd parent).
Proof using Hk. unfold host_roce_timeout. by waking. Qed.

Lemma wakes_host_roce_data_arrival pk header :
  wakes nd slot (host_roce_data_arrival nd parent pk header).
Proof using Hk. unfold host_roce_data_arrival. by waking. Qed.
#[local] Hint Resolve wakes_host_roce_pacing_timer wakes_host_roce_feedback_arrival
  wakes_host_roce_timeout wakes_host_roce_data_arrival : wakes.

(** *** Routing *)

Lemma wakes_host_packet_arrival : wakes nd slot (host_packet_arrival nd parent).
Proof using Hk.
  unfold host_packet_arrival. waking.
  all: match goal with H : constant_emission _ _ _ _ _ _ _ _ = _ |- _ =>
         destruct (constant_emission_egress _ _ _ _ _ _ _ _ _ H) as (st & Hst & Hcl) end;
       unfold same_egress in Hst; cbn in Hcl; by waking.
Qed.

Lemma wakes_feedback_driven_packet flow size :
  wakes nd slot (emit_feedback_driven_packet nd parent flow size).
Proof using Hk. unfold emit_feedback_driven_packet. by waking. Qed.
#[local] Hint Resolve wakes_feedback_driven_packet : wakes.

Lemma wakes_host_plain_arrival pk descriptor :
  wakes nd slot (host_plain_arrival nd parent pk descriptor).
Proof using Hk. unfold host_plain_arrival. by waking. Qed.

Lemma wakes_host_retransmission_timeout : wakes nd slot (host_retransmission_timeout nd parent).
Proof using Hk. unfold host_retransmission_timeout, tcp_retransmission_timeout. by waking. Qed.

Lemma wakes_host_pacing_timer : wakes nd slot (host_pacing_timer nd parent).
Proof using Hk. unfold host_pacing_timer. by waking. Qed.
#[local] Hint Resolve wakes_host_plain_arrival : wakes.

(** *** Host-link PFC *)

Lemma steady_host_pfc_search v pfc position queue :
  steady nd slot v (host_pfc_search pfc position queue)
    (fun first => first = None -> host_open (Some pfc) = false \/ queue = []).
Proof using Type.
  revert position. induction queue as [|id queue IH]; intros position; simpl.
  { apply steady_done. by right. }
  eapply steady_bind; [wake_leaf|intros pk _]. eapply steady_bind; [wake_leaf|intros class _].
  eapply steady_bind; [apply steady_unwrap|intros paused Hp]. destruct paused.
  - eapply steady_weaken; [apply IH|]. intros first _ _. left. simpl.
    apply not_true_iff_false. unfold none_paused. rewrite forallb_forall. intros Hall.
    unfold host_is_paused in Hp. destruct (hp_paused_by_controller pfc !! class) as [cs|] eqn:E; [|done].
    apply list_elem_of_lookup_2, list_elem_of_In in E. apply Hall in E.
    apply bool_decide_eq_true in E. subst. done.
  - by apply steady_done.
Qed.

Lemma steady_host_pfc_first_eligible v :
  steady nd slot (Some v) (host_pfc_first_eligible nd)
    (fun first => first = None -> eg_open v = false \/ eg_queue v = []).
Proof using Hk.
  unfold host_pfc_first_eligible. eapply steady_bind; [by apply steady_host_state|].
  intros state [= ->]. cbn. destruct (hs_pfc state) as [pfc|] eqn:Hp.
  - apply steady_host_pfc_search.
  - apply steady_done. destruct (hs_queue state); [by right|done].
Qed.

(** What a frame does to the openness of the egress, when it resumes no class. *)
Lemma apply_pause_open paused_by priority controller pause paused_by' :
  apply_pause paused_by priority controller pause = Some (paused_by', false) ->
  none_paused paused_by' = false \/ none_paused paused_by' = none_paused paused_by.
Proof using Type.
  unfold apply_pause. intros H. destruct (paused_by !! priority) as [cs|] eqn:E; [|done].
  pose proof (lookup_lt_Some _ _ _ E) as Hlt.
  assert (Hclosed : forall cs', cs' <> [] -> none_paused (<[priority := cs']> paused_by) = false).
  { intros cs' Hne. apply not_true_iff_false. intros Hall. unfold none_paused in Hall.
    rewrite forallb_forall in Hall.
    specialize (Hall cs'). rewrite <- list_elem_of_In in Hall.
    specialize (Hall (list_elem_of_lookup_2 _ _ _ (list_lookup_insert_eq _ _ _ Hlt))).
    by apply bool_decide_eq_true in Hall. }
  simpl in H. destruct pause.
  - injection H as <-. left. apply Hclosed. intros Hn.
    pose proof (proj2 (bs_add_elem_of controller cs controller) (or_introl eq_refl)) as Hin.
    rewrite Hn in Hin. by apply not_elem_of_nil in Hin.
  - injection H as <- Hr. destruct (bs_contains controller cs) eqn:Hc.
    + left. apply Hclosed. simpl in Hr. by apply bool_decide_eq_false in Hr.
    + right. rewrite filter_all, list_insert_id; [done|done|]. intros x Hx ->.
      apply bs_contains_spec in Hx. congruence.
Qed.

Lemma drive_host_pfc_ready md v0 v new : woken false md v0 v new ->
  drive nd slot (Some v) (host_pfc_ready nd) (fun r v' new' => new' = [] /\
    exists e, v' = Some e /\
      woken (bool_decide (is_Some r)) match r with Some _ => Awake | None => Calmed end v0 e new).
Proof using Hk.
  intros Hw. unfold host_pfc_ready.
  eapply drive_bind_steady; [apply steady_host_pfc_first_eligible|]. intros [position|] Hfirst.
  - eapply drive_bind_steady; [by apply steady_host_state|]. intros state [= ->].
    destruct (claim_ready state) as [ready state'] eqn:Hc.
    pose proof (woken_claim _ _ _ _ (hs_queue state) (host_open (hs_pfc state)) Hw) as Hcl.
    unfold claim_ready in Hc. cbn in Hcl.
    destruct (bool_decide (hs_in_service state = None) && negb (hs_tx_ready_pending state));
      injection Hc as <- <-; cbn in Hcl.
    + apply drive_bind, drive_set_host; [done|].
      eapply drive_bind_steady; [apply steady_unwrap|]. intros id _. apply drive_done.
      split; [done|]. eexists. split; [done|]. exact Hcl.
    + apply drive_done. split; [done|]. eexists. split; [done|].
      eapply woken_settled; [exact Hcl|]. left. by destruct Hcl.
  - apply drive_done. split; [done|]. eexists. split; [done|].
    eapply woken_settled; [exact Hw|]. right. by apply Hfirst.
Qed.

Lemma wakes_host_pfc_remote_arrival header :
  wakes nd slot (host_pfc_remote_arrival nd parent header).
Proof using Hk.
  unfold host_pfc_remote_arrival. intros md Hmd v0 v new Hw.
  eapply brings_steady; [wake_leaf|intros image _].
  eapply brings_steady; [by apply steady_host_state|intros state [= ->]].
  eapply brings_steady; [apply steady_some_or|intros pfc Hpfc].
  eapply brings_steady; [apply steady_unwrap|intros [paused_by unpaused] Hap].
  set (v1 := host_egress (state <| hs_pfc := Some (pfc <| hp_paused_by_controller := paused_by |>) |>)).
  assert (Hw1 : woken false (if unpaused then Dirty else Calm) v0 v1 new).
  { apply woken_calm in Hw; [|done]. destruct Hw as [H1 H2 H3 H4 H5].
    split; [done..|]. destruct unpaused; [done|]. intros Hcalm.
    apply H5 in Hcalm. destruct (apply_pause_open _ _ _ _ _ Hap) as [Hc|Hc].
    - right. by left.
    - unfold calm, v1, host_egress in *. cbn in *. rewrite Hpfc in Hcalm. by rewrite Hc. }
  apply drive_bind, drive_set_host; [done|]. fold v1. cbn [app].
  apply (brings_steady nd slot v0 v1 new false Calm _ _ (fun _ => True)); [wake_leaf|intros _ _].
  apply brings_tail. destruct unpaused; cbn [when]; [|by waking].
  apply brings_assoc, drive_bind. eapply drive_weaken; [by apply (drive_host_pfc_ready Dirty v0 v1 new)|].
  intros r v' new' (-> & e & -> & He). cbn [app]. clear Hw Hw1.
  match goal with |- drive _ _ _ ?m _ => change (brings nd slot v0 e new false Calm m) end.
  destruct r as [id|]; cbn in He; by waking.
Qed.
#[local] Hint Resolve wakes_host_pfc_remote_arrival : wakes.

Lemma wakes_host_remote_arrival : wakes nd slot (host_remote_arrival nd parent).
Proof using Hk. unfold host_remote_arrival. by waking. Qed.

(** *** Service *)

(** After a [TxReady]: a packet is in service and its [TxComplete] emitted, or
    there was none to serve. *)
Definition served (v : Egress) (new : list Event) : Prop :=
  eg_ready v = false /\
  match eg_service v with
  | Some id => exists e, new = [e] /\ kind e = TxComplete /\ payload e = id
  | None => new = [] /\ (eg_open v = false \/ eg_queue v = [])
  end.

Lemma drive_host_start_service v :
  drive nd slot (Some v) (host_start_service nd) (fun r v' new => new = [] /\
    exists e, v' = Some e /\ eg_ready e = false /\
      match r with
      | Some (_, id) => eg_service e = Some id
      | None => eg_service e = None /\ (eg_open e = false \/ eg_queue e = [])
      end).
Proof using Hk.
  unfold host_start_service. eapply drive_bind_steady; [by apply steady_host_state|].
  intros state [= ->]. cbv zeta. apply drive_bind, drive_set_host; [done|].
  cbn [hs_in_service hs_pfc hs_queue]. destruct (hs_in_service state) as [p|] eqn:Hs; cbn; rewrite Hs.
  { apply drive_fail. }
  destruct (hs_pfc state) as [pfc|] eqn:Hp.
  - unfold host_pfc_start_eligible.
    eapply drive_bind_steady; [apply steady_host_pfc_first_eligible|]. intros [position|] Hfirst.
    + eapply drive_bind_steady; [by apply steady_host_state|]. intros state' [= H1 H2 H3 H4].
      eapply drive_bind_steady; [apply steady_some_or|]. intros id Hid.
      apply drive_bind, drive_set_host; [done|]. apply drive_done. split; [done|].
      eexists. split; [done|]. split; [|done]. by cbn.
    + apply drive_done. split; [done|]. eexists. split; [done|]. split; [done|]. cbn.
      split; [done|]. by apply Hfirst.
  - destruct (hs_queue state) as [|id queue] eqn:Hq.
    + apply drive_done. split; [done|]. eexists. split; [done|]. split; [done|]. cbn.
      split; [done|]. by right.
    + apply drive_bind, drive_set_host; [done|]. apply drive_done. split; [done|].
      eexists. by split_and!.
Qed.

Lemma drive_host_tx_ready v :
  drive nd slot (Some v) (host_tx_ready nd parent)
    (fun _ v' new => exists e, v' = Some e /\ served e new).
Proof using Hk.
  unfold host_tx_ready. apply drive_bind. eapply drive_weaken; [apply drive_host_start_service|].
  intros [[egress id]|] v' new (-> & e & -> & Hr & Hs); cbn [when_some app].
  2:{ apply drive_done. exists e. split; [done|]. split; [done|]. destruct Hs as [-> Hs]. done. }
  eapply drive_bind_steady; [wake_leaf|intros lk _].
  destruct (negb (lk_source lk =? nd_id nd)); [apply drive_fail|].
  eapply drive_bind_steady; [wake_leaf|intros _ _].
  eapply drive_bind_steady; [wake_leaf|intros pk _].
  eapply drive_bind_steady; [apply steady_attempt|intros arrival _].
  eapply drive_bind_steady; [apply steady_some_or|intros departure _].
  apply drive_bind. eapply drive_weaken; [by apply drive_emit|].
  intros [] v' new (-> & x & Hk' & Hp & ->).
  eapply drive_bind_steady; [wake_leaf|intros remote _].
  eapply drive_weaken; [apply steady_drive; wake_leaf|].
  intros [] v' new (_ & -> & ->). exists e. split; [done|]. split; [done|]. rewrite Hs.
  exists x. split; [|done]. cbn in Hk'. simpl. unfold drives, is_complete.
  rewrite (bool_decide_true (kind x = TxComplete)) by done. by rewrite orb_true_r.
Qed.

(** An idle egress that is claimed, or needs no claim. *)
Lemma woken_idle v : eg_service v = None -> calm v -> woken false Calmed v v [].
Proof using Type. intros Hs Hc. split; [done|done|done|by left|done]. Qed.

Lemma woken_raised v : eg_service v = None -> eg_ready v = false ->
  woken true Calmed v (mkEgress (eg_queue v) None true (eg_open v)) [].
Proof using Type.
  intros Hs Hr. split; cbn; [done|done|by rewrite Hr|by right|]. left. by left.
Qed.

Lemma drive_host_pfc_claim_ready v : eg_service v = None ->
  drive nd slot (Some v) (host_pfc_claim_ready nd) (fun ready v' new => new = [] /\
    exists e, v' = Some e /\ woken ready Calmed v e []).
Proof using Hk.
  intros Hs. unfold host_pfc_claim_ready.
  eapply drive_bind_steady; [apply steady_host_pfc_first_eligible|]. intros first Hfirst.
  eapply drive_bind_steady; [by apply steady_host_state|]. intros state [= ->].
  destruct (bool_decide (is_Some first) && negb (hs_tx_ready_pending state)) eqn:E.
  - apply andb_true_iff in E as [_ Hr%negb_true_iff].
    apply drive_bind, drive_set_host; [done|]. apply drive_done. split; [done|].
    eexists. split; [done|]. pose proof (woken_raised (host_egress state) Hs Hr) as Hw.
    unfold host_egress in *. cbn in *. rewrite Hs in Hw |- *. exact Hw.
  - apply drive_done. split; [done|]. eexists. split; [done|]. apply woken_idle; [done|].
    apply andb_false_iff in E as [E|E].
    + apply bool_decide_eq_false in E. right. apply Hfirst. by destruct first; [destruct E|].
    + left. left. by apply negb_false_iff in E.
Qed.

(** After a [TxComplete] the egress is woken from its idle state. *)
Lemma drive_host_tx_complete v :
  drive nd slot (Some v) (host_tx_complete nd parent)
    (fun _ v' new => eg_service v = Some (payload parent) /\
       exists e, v' = Some e /\
         woken false Calmed (mkEgress (eg_queue v) None (eg_ready v) (eg_open v)) e new).
Proof using Hk.
  unfold host_tx_complete. eapply drive_bind_steady; [by apply steady_host_state|].
  intros state [= ->]. cbn [eg_queue eg_service eg_ready eg_open host_egress].
  destruct (bool_decide (hs_in_service state = Some (payload parent))) eqn:Hs; [|apply drive_fail].
  apply bool_decide_eq_true in Hs. cbn [negb].
  eapply drive_bind_steady; [apply steady_some_or|]. intros departed _. cbv zeta.
  set (idle := mkEgress (hs_queue state) None (hs_tx_ready_pending state) (host_open (hs_pfc state))).
  set (state' := state <| hs_in_service := None |> <| hs_departed_packets := departed |>).
  assert (Hidle : host_egress state' = idle) by done.
  apply drive_bind.
  eapply (drive_weaken _ _ _ _ (fun (ready : bool) v' new => new = [] /\ exists e, v' = Some e /\
    woken ready Calmed idle e [])).
  - destruct (hs_pfc state').
    + apply drive_bind, drive_set_host; [done|]. rewrite Hidle.
      by apply (drive_host_pfc_claim_ready idle).
    + destruct (negb (bool_decide (hs_queue state' = [])) && negb (hs_tx_ready_pending state')) eqn:E;
        apply drive_bind, drive_set_host; try done; apply drive_done; (split; [done|]);
        eexists; (split; [done|]).
      * apply andb_true_iff in E as [_ Hr%negb_true_iff]. exact (woken_raised idle eq_refl Hr).
      * rewrite Hidle. apply woken_idle; [done|]. apply andb_false_iff in E as [E|E].
        -- apply negb_false_iff, bool_decide_eq_true in E. by right; right.
        -- left. left. by apply negb_false_iff in E.
  - intros ready v' new (-> & e & -> & He). cbn [app].
    eapply drive_weaken; [|intros x v2 new2 H; split; [done|exact H]].
    match goal with |- drive _ _ _ ?m _ => change (brings nd slot idle e [] false Calmed m) end.
    by waking.
Qed.
End handlers.
