(* ===== verification/SwitchWakes.v ===== *)
(** * Switch handlers wake the switch's egress

    The switch side of [HostWakes]: arrivals wake the queue, [TxReady] and
    [TxComplete] move the packet in service. A validated switch has one queue. *)

From S2P Require Import Prelude OrdMap Event LinkTime ExecError Fel EcnRamp Tcp Model Image.
From S2P Require Import PfcOrder Sched TcpLedger StageIndex Transition TcpSend Stages HostSend.
From S2P Require Import HostReceive SwitchHandlers Effects Wakes HostWakes.

(** ** The switch's own state *)

Section switch_steps.
Context (nd : NodeDescriptor) (slot : option nat) (parent : Event) (Hk : nd_kind nd = Switch).

Lemma steady_switch_state v :
  steady nd slot v (switch_state nd) (fun state => v = switch_egress_view state).
Proof using Hk.
  apply steady_read. intros c h c' (-> & i & Hs & Hh)%switch_state_inv. split; [done|].
  intros [_ <-]. unfold node_egress. by rewrite Hs, Hk; simpl; rewrite Hh.
Qed.

Lemma set_switch_inv h c c' : set_switch nd h c = Some (Ok (tt, c')) ->
  exists i, slot_of nd (cx_state c) = Some i
    /\ c' = mkCtx (cx_state c <| ts_switch_states ::= <[i := h]> |>) (cx_children c).
Proof using Type.
  intros (i & c1 & [-> Hs]%local_state_slot_inv & Hr)%bind_inv. injection Hr as <-. eauto.
Qed.

Lemma set_switch_egress s i h h' : slot_of nd s = Some i -> ts_switch_states s !! i = Some h' ->
  node_egress nd (s <| ts_switch_states ::= <[i := h]> |>) = switch_egress_view h.
Proof using Hk.
  intros Hs Hl. unfold node_egress.
  change (slot_of nd (s <| ts_switch_states ::= _ |>)) with (slot_of nd s). rewrite Hs, Hk. simpl.
  by rewrite list_lookup_insert_eq by (by eapply lookup_lt_Some).
Qed.

Lemma node_egress_switch s v : node_egress nd s = Some v ->
  exists i h, slot_of nd s = Some i /\ ts_switch_states s !! i = Some h
    /\ switch_egress_view h = Some v.
Proof using Hk.
  unfold node_egress. rewrite Hk. destruct (slot_of nd s) as [i|]; [|done]. simpl.
  destruct (ts_switch_states s !! i) as [h|] eqn:E; [|done]. eauto.
Qed.

Lemma drive_set_switch v h (Q : unit -> option Egress -> list Event -> Prop) :
  Q tt (switch_egress_view h) [] -> drive nd slot (Some v) (set_switch nd h) Q.
Proof using Hk.
  intros HQ c [] c' [Hs Hv] (i & Hi & ->)%set_switch_inv.
  destruct (node_egress_switch _ _ Hv) as (i' & h' & Hi' & Hl & _). rewrite Hi in Hi'.
  injection Hi' as <-. exists (switch_egress_view h), []. rewrite app_nil_r.
  split_and!; [|done|done]. split; [done|]. by eapply set_switch_egress.
Qed.

Lemma steady_set_switch v h : switch_egress_view h = Some v ->
  steady nd slot (Some v) (set_switch nd h) (fun _ => True).
Proof using Hk.
  intros Hh c [] c' Hf Hr.
  destruct (drive_set_switch v h (fun _ v' new => v' = Some v /\ new = [])
    (conj Hh eq_refl) c tt c' Hf Hr) as (v' & new & Hf' & He & -> & ->).
  by rewrite app_nil_r in He.
Qed.

Lemma drive_switch_emit v emission :
  drive nd slot (Some v) (emit_from_switch nd parent emission)
    (fun _ v' new => v' = Some v /\
       exists e, kind e = ce_kind emission /\ payload e = ce_payload emission
         /\ new = driving [e]).
Proof using Hk.
  intros c a c' [Hsl Hv] (h & c1 & (-> & i & Hs & Hh)%switch_state_inv & Hr)%bind_inv.
  apply bind_inv in Hr as (next & c1 & Hnext & Hr).
  unfold some_or, attempt in Hnext. destruct (checked_add _ 1) eqn:E; [|done].
  injection Hnext as <- <-. apply bind_inv in Hr as ([] & c1 & (j & Hj & ->)%set_switch_inv & Hr).
  rewrite Hs in Hj. injection Hj as <-. apply insert_child_inv in Hr as [_ ->].
  exists (Some v), (driving [child_event nd (sw_next_origin_seq h) emission]).
  split_and!; [|apply List.filter_app|done|].
  2:{ by exists (child_event nd (sw_next_origin_seq h) emission). }
  split; [done|]. etrans; [by eapply set_switch_egress|].
  destruct (node_egress_switch _ _ Hv) as (i' & h' & Hi' & Hl & Hview).
  rewrite Hs in Hi'. injection Hi' as <-. rewrite Hh in Hl. by injection Hl as <-.
Qed.

Lemma steady_switch_emit v emission :
  ce_kind emission <> TxReady -> ce_kind emission <> TxComplete ->
  steady nd slot (Some v) (emit_from_switch nd parent emission) (fun _ => True).
Proof using Hk.
  intros H1 H2 c a c' Hf Hr.
  destruct (drive_switch_emit v emission c a c' Hf Hr) as (v' & new & Hf' & He & -> & e & Hk' & _ & ->).
  revert He. simpl. unfold drives, is_ready, is_complete.
  rewrite !bool_decide_false by congruence. simpl. by rewrite app_nil_r.
Qed.

Lemma moves_switch_ready md id : moves nd slot true md false md (emit_switch_ready nd parent id).
Proof using Hk.
  intros v0 v new Hw. eapply drive_weaken; [by apply drive_switch_emit|].
  intros [] v' new' (-> & e & He & _ & ->). exists v. split; [done|]. simpl.
  unfold drives, is_ready. rewrite bool_decide_true by done. by apply woken_emit.
Qed.

Lemma moves_when_switch_ready md b id :
  moves nd slot b md false md (when b (emit_switch_ready nd parent id)).
Proof using Hk.
  destruct b; [apply moves_switch_ready|]. intros v0 v new Hw. eapply brings_done; [done|by left].
Qed.
End switch_steps.

#[export] Hint Resolve steady_switch_state steady_set_switch steady_switch_emit
  moves_switch_ready moves_when_switch_ready : wakes.

(** ** Queues *)

Lemma view_inv state v : switch_egress_view state = Some v ->
  exists queue, sw_queues state = [queue] /\ v = queue_egress queue.
Proof.
  unfold switch_egress_view. destruct (sw_queues state) as [|q [|]]; [done| |done].
  intros [= <-]. eauto.
Qed.

Lemma view_set_queue state queue queue' : sw_queues state = [queue] ->
  switch_egress_view (set_queue 0 queue' state) = Some (queue_egress queue').
Proof. intros Hq. unfold switch_egress_view, set_queue. cbn. by rewrite Hq. Qed.

Lemma none_paused_class paused_by class (controllers : bset NodeId) :
  paused_by !! class = Some controllers -> controllers <> [] -> none_paused paused_by = false.
Proof.
  intros Hc Hne. apply not_true_iff_false. unfold none_paused. rewrite forallb_forall. intros Hall.
  apply list_elem_of_lookup_2, list_elem_of_In, Hall, bool_decide_eq_true in Hc. done.
Qed.

Lemma queue_is_paused_open pfc class : queue_is_paused pfc class = Some true ->
  none_paused (pq_paused_by_controller pfc) = false.
Proof.
  unfold queue_is_paused. destruct (_ !! class) as [cs|] eqn:E; [|done]. simpl.
  intros [= Hb]. eapply none_paused_class; [done|]. intros ->. done.
Qed.

Lemma pfc_any_paused_open pfc :
  pfc_any_paused pfc = negb (none_paused (pq_paused_by_controller pfc)).
Proof.
  unfold pfc_any_paused, none_paused. induction (pq_paused_by_controller pfc) as [|cs l IH]; [done|].
  cbn [existsb forallb]. rewrite IH. by destruct (bool_decide (cs = [])).
Qed.

Section switch_queues.
Context (nd : NodeDescriptor) (slot : option nat) (parent : Event) (Hk : nd_kind nd = Switch).

Lemma steady_switch_queue v state egress : switch_egress_view state = Some v ->
  steady nd slot (Some v) (switch_queue nd state egress)
    (fun p => p.1 = 0%nat /\ sw_queues state = [p.2] /\ v = queue_egress p.2
              /\ sq_egress_link p.2 = egress).
Proof using Type.
  intros (queue & Hq & ->)%view_inv. unfold switch_queue. rewrite Hq.
  eapply steady_bind; [apply steady_some_or|]. intros i Hi.
  eapply steady_bind; [apply steady_unwrap|]. intros q' Hq'. apply steady_done. simpl in Hi.
  destruct (egress_is egress queue) eqn:He; [|done]. injection Hi as <-. injection Hq' as <-.
  apply bool_decide_eq_true in He. done.
Qed.

Lemma steady_pfc_overflow v pfc incoming priority size :
  steady nd slot v (pfc_overflow pfc incoming priority size) (fun _ => True).
Proof using Type. unfold pfc_overflow. by steadies. Qed.

(** The ingress monitor does not touch the egress. *)
Lemma find_ingress_pfc pfc incoming r : find_ingress pfc incoming = Some r -> pfc = Some r.1.1.
Proof using Type. unfold find_ingress. intros H. by invert_ok. Qed.

Lemma steady_ingress_admit v queue incoming priority pk :
  steady nd slot v (ingress_admit nd queue incoming priority pk)
    (fun r => queue_egress r.2 = queue_egress queue).
Proof using Type.
  unfold ingress_admit. destruct (find_ingress _ _) as [[[pfc position] ingress]|] eqn:E;
    [|by apply steady_done].
  apply find_ingress_pfc in E. cbn in E.
  eapply steady_bind; [apply steady_unwrap|]. intros class _. case_match; [by apply steady_done|].
  eapply steady_bind; [apply steady_some_or|]. intros depth _. apply steady_done.
  unfold queue_egress, queue_open. cbn. by rewrite E.
Qed.

Lemma steady_ingress_drain v queue incoming priority pk :
  steady nd slot v (ingress_drain nd queue incoming priority pk)
    (fun r => queue_egress r.2 = queue_egress queue).
Proof using Type.
  unfold ingress_drain. destruct (find_ingress _ _) as [[[pfc position] ingress]|] eqn:E;
    [|by apply steady_done].
  apply find_ingress_pfc in E. cbn in E.
  eapply steady_bind; [apply steady_unwrap|]. intros class _. case_match; [by apply steady_done|].
  eapply steady_bind; [apply steady_some_or|]. intros depth _. apply steady_done.
  unfold queue_egress, queue_open. cbn. by rewrite E.
Qed.

Lemma steady_queue_class_paused v queue priority :
  steady nd slot v (queue_class_paused queue priority)
    (fun paused => paused = true -> queue_open queue = false).
Proof using Type.
  unfold queue_class_paused. destruct (sq_pfc queue) as [pfc|] eqn:Hp; [|by apply steady_done].
  eapply steady_weaken; [apply steady_unwrap|]. intros paused Hq ->.
  unfold queue_open. rewrite Hp, (queue_is_paused_open _ _ Hq). by rewrite andb_false_r.
Qed.

Lemma steady_switch_sp_position v egress flow :
  steady nd slot (Some v) (switch_sp_position nd egress flow) (fun _ => True).
Proof using Hk.
  unfold switch_sp_position. eapply steady_bind; [wake_leaf|]. intros state Hs.
  eapply steady_bind; [by apply steady_switch_queue|]. intros [q queue] _. by steadies.
Qed.

Lemma enqueue_admitted_egress queue pk id now rate position queue' :
  enqueue_admitted nd queue pk id now rate position = Ok queue' ->
  sq_in_service queue' = sq_in_service queue /\ sq_tx_ready_pending queue' = sq_tx_ready_pending queue
  /\ queue_open queue' = queue_open queue /\ sq_egress_link queue' = sq_egress_link queue.
Proof using Type. unfold enqueue_admitted. intros H. by invert_ok. Qed.

(** An admitted packet claims an idle egress, unless its class is paused. *)
Lemma steady_admit_packet v event pk queue rate position incoming priority :
  steady nd slot v (admit_packet nd event pk queue rate position incoming priority)
    (fun '(_, ready, queue') =>
       ready = true /\ sq_in_service queue = None /\ sq_tx_ready_pending queue = false
         /\ (exists q, queue_egress queue' = mkEgress q None true (queue_open queue))
       \/ ready = false /\ (exists q, queue_egress queue'
            = mkEgress q (sq_in_service queue) (sq_tx_ready_pending queue) (queue_open queue))
         /\ (is_Some (sq_in_service queue) \/ sq_tx_ready_pending queue = true
             \/ queue_open queue = false)).
Proof using Type.
  unfold admit_packet. eapply steady_bind; [apply steady_attempt|]. intros q1 Hq1.
  destruct (enqueue_admitted_egress _ _ _ _ _ _ _ Hq1) as (Hs & Hr & Ho & Hl).
  eapply steady_bind; [apply steady_queue_class_paused|]. intros paused Hp. cbv zeta.
  eapply steady_bind; [apply steady_ingress_admit|]. intros [plan q2] Hq2. cbn in Hq2.
  apply steady_done. rewrite Hq2, Hs, Hr, Hl.
  match goal with |- context [if ?b then _ else q1] => destruct b eqn:E end.
  - left. rewrite !andb_true_iff, !negb_true_iff in E. destruct E as [[[E1 E2] E3] E4].
    apply bool_decide_eq_true in E2. split_and!; [done..|]. exists (sq_queue q1).
    unfold queue_egress. cbn. rewrite E2, <- Ho. unfold queue_open. cbn. by rewrite Hl.
  - right. split; [done|]. split; [exists (sq_queue q1); unfold queue_egress; by rewrite Hs, Hr, Ho|].
    rewrite !andb_false_iff, !negb_false_iff in E. destruct E as [[[E|E]|E]|E].
    + right. right. unfold queue_open. by rewrite E.
    + left. apply bool_decide_eq_false in E. by destruct (sq_in_service queue).
    + by right; left.
    + right. right. rewrite <- Ho. by apply Hp.
Qed.

Lemma steady_pfc_order v i q : steady nd slot v (pfc_order i q) (fun _ => True).
Proof using Type. unfold pfc_order. wake_leaf. Qed.
Lemma steady_set_pfc_order v i q order : steady nd slot v (set_pfc_order i q order) (fun _ => True).
Proof using Type. solve_steady_modify. Qed.
Hint Resolve steady_pfc_order steady_set_pfc_order : wakes.
Hint Extern 1 (steady _ _ _ (modify _) _) => solve_steady_modify : wakes.

Lemma steady_build_pfc_order v order queue :
  steady nd slot v (build_pfc_order order queue) (fun _ => True).
Proof using Type. revert order. induction queue as [|id queue IH]; intros order; simpl; steadies; auto. Qed.
Hint Resolve steady_build_pfc_order : wakes.

Lemma steady_ensure_pfc_order v i q : steady nd slot v (ensure_pfc_order i q) (fun _ => True).
Proof using Type. unfold ensure_pfc_order. by steadies. Qed.

Lemma steady_count_admitted v i q pk has_pfc priority :
  steady nd slot v (count_admitted nd i q pk has_pfc priority) (fun _ => True).
Proof using Type. unfold count_admitted. by steadies. Qed.

Lemma steady_count_served v i q service :
  steady nd slot v (count_served nd i q service) (fun _ => True).
Proof using Type. unfold count_served. by steadies. Qed.

Lemma steady_emit_pfc_frame v plan :
  steady nd slot (Some v) (emit_pfc_frame nd parent plan) (fun _ => True).
Proof using Hk. unfold emit_pfc_frame. by steadies. Qed.

(** Nothing is eligible only in an empty queue or with a paused class. *)
Lemma steady_pfc_search v pfc position queue :
  steady nd slot v (pfc_search pfc position queue) (fun _ => True).
Proof using Type.
  revert position. induction queue as [|id queue IH]; intros position; simpl; steadies; auto.
Qed.

Lemma steady_pfc_first_eligible v queue pfc order :
  steady nd slot v (pfc_first_eligible nd queue pfc order)
    (fun first => first = None ->
       none_paused (pq_paused_by_controller pfc) = false \/ sq_queue queue = []).
Proof using Type.
  unfold pfc_first_eligible, pfc_first_eligible_by_search. rewrite pfc_any_paused_open, negb_involutive.
  destruct (sq_queue queue) as [|id q]; cbn [head]; [apply steady_done; by right|].
  destruct (none_paused _); [by apply steady_done|].
  eapply (steady_weaken _ _ _ _ (fun _ => True)); [|by left].
  destruct order as [order|]; [|apply steady_pfc_search]. by steadies.
Qed.

Lemma steady_eligible_packets v id pfc position queue :
  steady nd slot v (eligible_packets id pfc position queue)
    (fun eligible => eligible = [] -> queue = []
       \/ exists p, pfc = Some p /\ none_paused (pq_paused_by_controller p) = false).
Proof using Type.
  revert position. induction queue as [|x queue IH]; intros position; cbn [eligible_packets].
  { apply steady_done. by left. }
  eapply steady_bind; [wake_leaf|intros pk _]. eapply steady_bind; [wake_leaf|intros class _].
  destruct pfc as [pfc|]; [|apply steady_done_bind].
  - eapply steady_bind; [apply steady_unwrap|intros [] Hp].
    + eapply steady_weaken; [apply IH|]. intros l _ _. right. exists pfc. split; [done|].
      by eapply queue_is_paused_open.
    + eapply steady_bind; [wake_leaf|intros incoming _].
      eapply steady_bind; [apply IH|intros rest _]. by apply steady_done.
  - eapply steady_bind; [wake_leaf|intros incoming _].
    eapply steady_bind; [apply IH|intros rest _]. by apply steady_done.
Qed.
End switch_queues.

#[export] Hint Resolve steady_pfc_order steady_set_pfc_order steady_ensure_pfc_order
  steady_count_admitted steady_count_served steady_emit_pfc_frame steady_pfc_overflow
  steady_switch_sp_position : wakes.

(** ** Handlers *)

Section handlers.
Context (nd : NodeDescriptor) (slot : option nat) (parent : Event) (Hk : nd_kind nd = Switch).

(** The switch is written where one was read. *)
Lemma brings_set_switch {A} v0 v v' new o' md' h (f : unit -> transition A) :
  switch_egress_view h = Some v' -> brings nd slot v0 v' new o' md' (f tt) ->
  brings nd slot v0 v new o' md' (set_switch nd h ≫= f).
Proof using Hk. intros Hv Hf. apply drive_bind, drive_set_switch; [done|]. by rewrite Hv. Qed.

Lemma woken_admit o md v0 v new q :
  eg_service v = None -> eg_ready v = false -> woken false md v0 v new ->
  woken true Awake v0 (mkEgress q None true o) new.
Proof using Type.
  intros Hs Hr Hw. pose proof (woken_claim _ _ _ _ q o Hw) as Hc. cbn in Hc.
  by rewrite Hs, Hr, bool_decide_true in Hc by done.
Qed.

Lemma woken_refuse md v0 v new q :
  is_Some (eg_service v) \/ eg_ready v = true \/ eg_open v = false -> woken false md v0 v new ->
  woken false Calmed v0 (mkEgress q (eg_service v) (eg_ready v) (eg_open v)) new.
Proof using Type.
  intros Hv [H1 H2 H3 H4 _]. split; [done..|]. unfold in_mode, calm, awake. cbn. tauto.
Qed.

Lemma wakes_switch_data_arrival pk : wakes nd slot (switch_data_arrival nd parent pk).
Proof using Hk.
  intros md Hmd v0 v new Hw. unfold switch_data_arrival.
  eapply brings_steady; [wake_leaf|intros egress _].
  eapply (brings_steady _ _ _ _ _ _ _ _ _ (fun _ => True)); [by steadies|intros rate _].
  eapply brings_steady; [wake_leaf|intros position _].
  eapply brings_steady; [wake_leaf|intros i _].
  eapply brings_steady; [by apply steady_switch_state|intros state Hv].
  eapply brings_steady; [by apply steady_switch_queue|].
  intros [q queue] (Hq0 & Hq & -> & Heg). cbn in Hq0, Hq, Heg, Hw |- *. subst q.
  eapply brings_steady; [wake_leaf|intros counters _].
  eapply brings_steady; [wake_leaf|intros row _].
  eapply brings_steady; [wake_leaf|intros bytes _]. cbv zeta.
  eapply (brings_steady _ _ _ _ _ _ _ _ _ (fun _ => True)); [by steadies|intros priority _].
  eapply (brings_steady _ _ _ _ _ _ _ _ _ (fun _ => True)); [by steadies|intros incoming _].
  eapply brings_steady; [wake_leaf|intros image _].
  eapply brings_steady; [wake_leaf|intros arrived _].
  eapply brings_steady; [wake_leaf|intros overflow _].
  eapply brings_steady; [wake_leaf|intros action _].
  assert (Hadmit : brings nd slot v0 (queue_egress queue) new false Calm
    ('(plan, schedule_ready, queue') ←
        admit_packet nd parent pk queue rate position incoming priority;
      _ ← set_switch nd (set_queue 0 queue' (state <| sw_arrived_packets := arrived |>));
      _ ← count_admitted nd i 0 pk (bool_decide (is_Some (sq_pfc queue))) priority;
      packet ←
        match action with
        | AdmitMark =>
            _ ← set_packet_marked (payload parent);
            done_with (pk <| pk_ecn_marked := true |>)
        | _ => done_with pk
        end;
      _ ← record_arrival (nd_id nd) packet AdmittedArrival;
      _ ← when_some plan (emit_pfc_frame nd parent);
      when schedule_ready (emit_switch_ready nd parent (payload parent)))).
  { eapply brings_steady; [apply steady_admit_packet|].
    intros [[plan ready] queue'] Hcases.
    assert (exists v', queue_egress queue' = v' /\ woken ready (if ready then Awake else Calmed) v0 v' new)
      as (v' & Hv' & Hw').
    { destruct Hcases as [(-> & Hs & Hr & q & ->)|(-> & (q & ->) & Hc)]; eexists; (split; [done|]).
      - by eapply (woken_admit _ _ _ (queue_egress queue)).
      - by eapply (woken_refuse _ _ (queue_egress queue)). }
    eapply brings_set_switch; [rewrite (view_set_queue _ queue) by done; by rewrite Hv'|].
    clear Hw Hcases Hv. by destruct ready; waking. }
  destruct action; [done|done|]. eapply brings_steady; [wake_leaf|intros dropped _].
  eapply brings_set_switch; [symmetry; exact Hv|]. clear Hadmit Hv. by waking.
Qed.

(** A frame either wakes the queue or leaves it calm. *)
Lemma woken_frame md v0 new queue pfc priority controller pause paused_by resumed :
  at_least_calm md = true -> woken false md v0 (queue_egress queue) new ->
  sq_pfc queue = Some pfc ->
  apply_pause (pq_paused_by_controller pfc) priority controller pause = Some (paused_by, resumed) ->
  let queue' := queue <| sq_pfc := Some (pfc <| pq_paused_by_controller := paused_by |>) |> in
  woken false (if resumed && bool_decide (sq_in_service queue' = None)
                  && negb (sq_tx_ready_pending queue') then Dirty else Calm)
    v0 (queue_egress queue') new.
Proof using Type.
  intros Hmd Hw Hpfc Hap queue'. apply woken_calm in Hw; [|done]. destruct Hw as [H1 H2 H3 H4 H5].
  assert (Hbusy : is_Some (sq_in_service queue) \/ sq_tx_ready_pending queue = true ->
    calm (queue_egress queue')) by (intros [H|H]; left; [by right|by left]).
  destruct resumed; cbn [andb].
  - subst queue'. cbn in *. case_bool_decide as Hs; cbn [andb].
    + destruct (sq_tx_ready_pending queue) eqn:Hr; cbn [negb]; (split; [done..|]); [|done].
      intros _. apply Hbusy. by right.
    + split; [done..|]. intros _. apply Hbusy. left. by destruct (sq_in_service queue).
  - split; [done..|]. intros Hcalm%H5. destruct (apply_pause_open _ _ _ _ _ Hap) as [Hc|Hc].
    + right. left. cbn. unfold queue_open. cbn. by rewrite Hc, andb_false_r.
    + unfold calm, queue_egress, queue_open in *. cbn in *. rewrite Hpfc in Hcalm. by rewrite Hc.
Qed.

Lemma wakes_switch_pfc_remote_arrival header :
  wakes nd slot (switch_pfc_remote_arrival nd parent header).
Proof using Hk.
  intros md Hmd v0 v new Hw. unfold switch_pfc_remote_arrival. cbv zeta.
  eapply brings_steady; [wake_leaf|intros i _].
  eapply brings_steady; [by apply steady_switch_state|intros state Hv].
  eapply brings_steady; [by apply steady_switch_queue|].
  intros [q queue] (Hq0 & Hq & -> & Heg). cbn [fst snd] in *. subst q.
  eapply brings_steady; [apply steady_some_or|intros pfc Hpfc].
  eapply brings_steady; [apply steady_unwrap|intros [paused_by resumed] Hap].
  pose proof (woken_frame _ _ _ _ _ _ _ _ _ _ Hmd Hw Hpfc Hap) as Hw1. cbv zeta in Hw1.
  clear Hw Hap Hv. set (queue' := queue <| sq_pfc := _ |>) in *.
  assert (Hlink : is_Some (sq_egress_link queue')) by (subst queue'; cbn; rewrite Heg; done).
  assert (Hpfc' : sq_pfc queue' = Some (pfc <| pq_paused_by_controller := paused_by |>)) by done.
  set (pfc' := pfc <| pq_paused_by_controller := paused_by |>) in *. clearbody queue' pfc'.
  eapply brings_set_switch; [by apply (view_set_queue _ queue)|].
  eapply (brings_steady _ _ _ _ _ _ _ _ _ (fun _ => True)); [by steadies|intros _ _].
  destruct (resumed && bool_decide (sq_in_service queue' = None)
            && negb (sq_tx_ready_pending queue')) eqn:E.
  2:{ clear Heg Hpfc Hlink. by waking. }
  apply andb_true_iff in E as [[_ Hs%bool_decide_eq_true]%andb_true_iff Hr%negb_true_iff].
  apply brings_assoc. eapply brings_steady; [wake_leaf|intros order _].
  apply brings_assoc. eapply brings_steady; [apply steady_pfc_first_eligible|].
  intros [[position id]|] Hfirst.
  - apply brings_assoc. eapply brings_set_switch.
    { apply (view_set_queue _ queue'). unfold set_queue. cbn. by rewrite Hq. }
    apply (woken_admit (queue_open queue') _ _ (queue_egress queue') _ (sq_queue queue') Hs Hr) in Hw1.
    unfold queue_egress at 1. cbn.
    rewrite Hs. unfold queue_open in *. cbn. clear Hfirst Heg Hpfc. by waking.
  - assert (Hcalm : calm (queue_egress queue')).
    { destruct Hfirst as [Hf|Hf]; [done| |by right; right]. right. left. cbn. unfold queue_open.
      by rewrite Hpfc', Hf, andb_false_r. }
    apply (woken_settled _ _ _ _ _ Hw1) in Hcalm. clear Hw1 Hfirst Heg Hpfc. by waking.
Qed.
#[local] Hint Resolve wakes_switch_data_arrival wakes_switch_pfc_remote_arrival : wakes.

Lemma wakes_switch_remote_arrival : wakes nd slot (switch_remote_arrival nd parent).
Proof using Hk. unfold switch_remote_arrival. by waking. Qed.

(** *** Service *)

(** A plan that serves nothing. *)
Definition idle_plan (plan : SwitchServicePlan) : bool :=
  match plan with
  | PlanHead None | PlanPfcFirst None | PlanEligible [] => true
  | _ => false
  end.

Lemma steady_service_plan v i q queue :
  steady nd slot v (service_plan nd i q queue)
    (fun plan => idle_plan plan = true -> queue_open queue = false \/ sq_queue queue = []).
Proof using Type.
  unfold service_plan. destruct (queue_serves_head queue).
  { destruct (sq_queue queue) as [|id l]; cbn [head]; [apply steady_done; by right|].
    eapply steady_bind; [wake_leaf|intros pk _]. by apply steady_done. }
  assert (Heligible : steady nd slot v
    (eligible ← eligible_packets (nd_id nd) (sq_pfc queue) 0 (sq_queue queue);
     done_with (PlanEligible eligible))
    (fun plan => idle_plan plan = true -> queue_open queue = false \/ sq_queue queue = [])).
  { eapply steady_bind; [apply steady_eligible_packets|]. intros [|x eligible] He; apply steady_done; [|done].
    intros _. destruct (He eq_refl) as [->|(p & Hp & Hn)]; [by right|]. left.
    unfold queue_open. by rewrite Hp, Hn, andb_false_r. }
  destruct (sq_pfc queue) as [pfc|] eqn:Hp; [|exact Heligible].
  destruct (scheduler_serves_head _); [|exact Heligible].
  eapply steady_bind; [wake_leaf|intros order _].
  eapply steady_bind; [apply steady_pfc_first_eligible|]. intros [[position id]|] Hfirst.
  - eapply steady_bind; [wake_leaf|intros pk _]. eapply steady_bind; [wake_leaf|intros class _].
    eapply steady_bind; [wake_leaf|intros incoming _]. by apply steady_done.
  - apply steady_done. intros _. destruct (Hfirst eq_refl) as [Hf|Hf]; [left|by right].
    unfold queue_open. by rewrite Hp, Hf, andb_false_r.
Qed.

(** Serving a packet puts it in service and leaves the rest of the egress. *)
Definition serves (queue : SwitchQueueState) (service : Service) : Prop :=
  exists q, queue_egress (sv_queue service)
    = mkEgress q (Some (sv_payload service)) (sq_tx_ready_pending queue) (queue_open queue).

Lemma steady_serve_at v queue selection :
  steady nd slot v (serve_at nd queue selection) (serves queue).
Proof using Type.
  unfold serve_at. eapply steady_bind; [apply steady_some_or|intros id _]. cbv zeta.
  eapply steady_bind; [apply steady_attempt|intros _ _].
  eapply steady_bind; [apply steady_ingress_drain|]. intros [plan queue'] Hq. cbn [snd] in Hq.
  apply steady_done. unfold serves. cbn [sv_queue sv_payload]. rewrite Hq. by eexists.
Qed.

Lemma steady_serve v queue plan :
  steady nd slot v (serve nd queue plan)
    (fun r => match r with None => idle_plan plan = true | Some service => serves queue service end).
Proof using Type.
  destruct plan as [[pk|]|[selection|]|eligible]; cbn [serve].
  - eapply steady_bind; [apply steady_some_or|intros id _].
    eapply steady_bind; [apply steady_attempt|intros _ _]. apply steady_done. by eexists.
  - by apply steady_done.
  - eapply steady_bind; [apply steady_serve_at|intros service Hs]. by apply steady_done.
  - by apply steady_done.
  - eapply steady_bind; [apply steady_attempt|]. intros [scheduler [[position x]|]] Hsel.
    + eapply steady_bind; [apply steady_unwrap|intros selection _].
      eapply steady_bind; [apply steady_serve_at|intros service Hs]. by apply steady_done.
    + apply steady_done. unfold scheduler_select_position in Hsel.
      destruct eligible as [|y eligible]; [done|]. cbn in Hsel. by invert_ok.
Qed.

Lemma drive_transmit v egress service :
  drive nd slot (Some v) (transmit nd parent egress service)
    (fun _ v' new => v' = Some v /\ exists e, new = [e] /\ kind e = TxComplete
       /\ payload e = sv_payload service).
Proof using Hk.
  unfold transmit. eapply drive_bind_steady; [wake_leaf|intros lk _].
  destruct (negb (lk_source lk =? nd_id nd)); [apply drive_fail|].
  eapply drive_bind_steady; [wake_leaf|intros _ _].
  eapply drive_bind_steady; [apply steady_attempt|intros arrival _].
  eapply drive_bind_steady; [apply steady_some_or|intros departure _].
  eapply (drive_bind_steady _ _ _ _ _ (fun _ => True)); [by steadies|intros _ _].
  apply drive_bind. eapply drive_weaken; [by apply drive_switch_emit|].
  intros [] v' new (-> & x & Hx & Hp & ->).
  eapply drive_bind_steady; [wake_leaf|intros remote _].
  eapply drive_weaken; [apply steady_drive; wake_leaf|].
  intros [] v' new (_ & -> & ->). split; [done|]. exists x. split; [|done]. cbn in Hx. simpl.
  unfold drives, is_complete. rewrite (bool_decide_true (kind x = TxComplete)) by done.
  by rewrite orb_true_r.
Qed.

Lemma drive_switch_tx_ready v :
  drive nd slot (Some v) (switch_tx_ready nd parent)
    (fun _ v' new => exists e, v' = Some e /\ served e new).
Proof using Hk.
  unfold switch_tx_ready, switch_egress. eapply drive_bind_steady; [wake_leaf|intros pk _].
  eapply (drive_bind_steady _ _ _ _ _ (fun _ => True)); [by steadies|intros egress _].
  eapply drive_bind_steady; [wake_leaf|intros i _].
  eapply drive_bind_steady; [by apply steady_switch_state|intros state Hv].
  eapply drive_bind_steady; [by apply steady_switch_queue|].
  intros [q queue] (Hq0 & Hq & -> & _). cbn [fst snd] in *. subst q.
  eapply drive_bind_steady; [apply steady_service_plan|intros plan Hplan]. cbv zeta.
  destruct (bool_decide _) eqn:Hs; [apply drive_fail|].
  apply bool_decide_eq_false, eq_None_not_Some in Hs. cbn in Hs.
  eapply drive_bind_steady; [apply steady_serve|]. intros [service|] Hsv.
  - destruct Hsv as [l Hl]. apply drive_bind, drive_set_switch; [done|].
    rewrite (view_set_queue _ queue) by done. rewrite Hl. cbn [app].
    eapply drive_bind_steady; [wake_leaf|intros _ _].
    eapply drive_weaken; [apply drive_transmit|]. intros [] v' new (-> & e & -> & He & Hp).
    eexists. split; [done|]. split; [done|]. cbn. eauto.
  - apply drive_set_switch; [done|]. rewrite (view_set_queue _ queue) by done.
    eexists. split; [done|]. split; [done|]. cbn. rewrite Hs. split; [done|]. by apply Hplan.
Qed.

(** The first eligible packet, after the transmission, of an idle queue. *)
Lemma steady_eligible_next v i q queue :
  steady nd slot v (eligible_next nd i q queue)
    (fun next => next = None -> queue_open queue = false \/ sq_queue queue = []).
Proof using Type.
  unfold eligible_next. destruct (sq_pfc queue) as [pfc|] eqn:Hp.
  - eapply steady_bind; [wake_leaf|intros order _].
    eapply steady_bind; [apply steady_pfc_first_eligible|]. intros [first|] Hf; apply steady_done; [done|].
    intros _. destruct (Hf eq_refl) as [H|H]; [left|by right].
    unfold queue_open. by rewrite Hp, H, andb_false_r.
  - apply steady_done. destruct (sq_queue queue); [by right|done].
Qed.

Lemma drive_switch_tx_complete v :
  drive nd slot (Some v) (switch_tx_complete nd parent)
    (fun _ v' new => eg_service v = Some (payload parent) /\
       exists e, v' = Some e /\
         woken false Calmed (mkEgress (eg_queue v) None (eg_ready v) (eg_open v)) e new).
Proof using Hk.
  unfold switch_tx_complete, switch_egress. eapply drive_bind_steady; [wake_leaf|intros pk _].
  eapply (drive_bind_steady _ _ _ _ _ (fun _ => True)); [by steadies|intros egress _].
  eapply drive_bind_steady; [wake_leaf|intros lk _].
  eapply drive_bind_steady; [by apply steady_switch_state|intros state Hv].
  eapply drive_bind_steady; [by apply steady_switch_queue|].
  intros [q queue] (Hq0 & Hq & -> & _). cbn [fst snd] in *. subst q.
  eapply drive_bind_steady; [wake_leaf|intros i _].
  eapply drive_bind_steady; [apply steady_eligible_next|intros next Hnext].
  destruct (bool_decide (sq_in_service queue = Some (payload parent))) eqn:Hs; [|apply drive_fail].
  apply bool_decide_eq_true in Hs. cbn [negb].
  eapply (drive_bind_steady _ _ _ _ _ (fun _ => True)); [by steadies|intros scheduler _]. cbv zeta.
  eapply drive_bind_steady; [apply steady_some_or|intros departed _].
  set (idle := mkEgress (sq_queue queue) None (sq_tx_ready_pending queue) (queue_open queue)).
  eapply drive_weaken; [|intros x v2 new2 H; split; [done|exact H]]. fold idle. clear Hv.
  match goal with |- drive _ _ _ ?m _ => change (brings nd slot idle (queue_egress queue) [] false Calmed m) end.
  destruct next as [id|]; cbn [is_Some bool_decide andb].
  - destruct (sq_tx_ready_pending queue) eqn:Hr; cbn [negb];
      (eapply brings_set_switch; [by apply (view_set_queue _ queue)|]).
    + assert (Hw : woken false Calmed idle idle []) by (apply woken_idle; [done|by left; left]).
      clear Hnext. subst idle. unfold queue_egress. cbn. rewrite Hr. by waking.
    + pose proof (woken_raised idle eq_refl eq_refl) as Hw.
      clear Hnext. subst idle. unfold queue_egress. cbn. by waking.
  - eapply brings_set_switch; [by apply (view_set_queue _ queue)|].
    assert (Hw : woken false Calmed idle idle []) by (apply woken_idle; [done|by right; apply Hnext]).
    clear Hnext. subst idle. unfold queue_egress. cbn. by waking.
Qed.
End handlers.
