(* ===== verification/Simulator.v ===== *)
(** * The simulator (executor/src/scalar.rs, [TransitionState] behind the drivers)

    The transition handlers as the [Machine] the event loops drive. A dispatch
    changes the state of its node only and numbers the children it emits from
    that node's sequence; so, from a validated image, no run of the simulator ever
    gives two pending events one key. *)

From S2P Require Import Prelude OrdMap Event LinkTime ExecError Fel Tcp Model Image Radix Machine.
From S2P Require Import ScalarLoop Sched TcpLedger StageIndex Transition Dispatch Effects.
From S2P Require Import SwitchHandlers SwitchLocality HostLocality Validate.

#[export] Instance days_machine : Machine TransitionState RunResult := {|
  m_new := transition_new;
  m_dispatch := step;
  m_finish := transition_finish;
|}.

(** ** The effect of a dispatch *)

Lemma dispatch_effect event c c' : dispatch event c = Some (Ok (tt, c')) ->
  exists nd, image_node (ts_image (cx_state c)) (target event) = Ok nd /\ effect nd event c c'.
Proof.
  intros (nd & c1 & Hnd & Hr)%bind_inv.
  apply bind_inv in Hnd as (image & c2 & [= <- <-] & Hnd). unfold attempt in Hnd.
  destruct (image_node (ts_image (cx_state c)) (target event)) as [nd'|] eqn:E; [|done].
  injection Hnd as -> ->. exists nd. split; [done|].
  apply bind_inv in Hr as (handler & c2 & Hh & Hr). unfold some_or, attempt in Hh.
  destruct (resolve_transition (nd_kind nd) (kind event)) as [h|] eqn:Hk; [|done].
  injection Hh as -> ->. unfold resolve_transition in Hk.
  pose proof (conj eq_refl eq_refl : stands nd (slot_of nd (cx_state c2))
                (next_seq nd (cx_state c2)) c2) as Hs.
  destruct (nd_kind nd) eqn:Hkind, (kind event); simplify_eq; revert Hs Hr.
  - by apply emits_host_packet_arrival.
  - by apply emits_host_tx_ready.
  - by apply emits_host_tx_complete.
  - by apply emits_host_remote_arrival.
  - by apply emits_host_retransmission_timeout.
  - by apply emits_host_pacing_timer.
  - by apply emits_switch_tx_ready.
  - by apply emits_switch_tx_complete.
  - by apply emits_switch_remote_arrival.
Qed.

Lemma step_inv event s children timers s' :
  step event s = Some (Ok (children, timers, s')) ->
  exists nd s1, image_node (ts_image s) (target event) = Ok nd
    /\ effect nd event (mkCtx s []) (mkCtx s1 children)
    /\ timers = ts_superseded_timers s1 /\ s' = s1 <| ts_superseded_timers := [] |>.
Proof.
  unfold step. intros ([ts c] & Hr & Hx)%fueled_bind_Ok. injection Hx as <- <- <-.
  apply bind_inv in Hr as ([] & [s1 cs] & Hd & Ht). injection Ht as <- <-. simpl.
  destruct (dispatch_effect _ _ _ Hd) as (nd & Hnd & He).
  exists nd, s1. by split_and!.
Qed.

Lemma step_effect event s children timers s' :
  ts_superseded_timers s = [] ->
  step event s = Some (Ok (children, timers, s')) ->
  exists nd, image_node (ts_image s) (target event) = Ok nd
    /\ framed nd s s' /\ ts_superseded_timers s' = []
    /\ numbered (next_seq nd s) (next_seq nd s') children
    /\ Forall (child_ok nd event) children
    /\ Forall (fun timer => st_target timer = nd_id nd) timers.
Proof.
  intros H0 (nd & s1 & Hnd & [Hf (new & Hc & Hall & Hn)] & -> & ->)%step_inv. simpl in *. subst new.
  exists nd. split; [done|]. destruct Hf as [Hi Hl Hh Hx Hw Hb Ho (own & Ht & Hown)].
  rewrite H0 in Ht. simpl in Ht. split; [|split_and!; [done|exact Hn|done|by rewrite Ht]].
  split; try done. exists []. by rewrite app_nil_r, H0.
Qed.

(** C3. A dispatch is local to its node. When the handlers return from an event,
    only the event's target has changed: every other host, stage index, switch,
    byte counter and PFC order is as before, as is the image. The children it
    emits carry consecutive numbers from the node's own sequence, which moves past
    them; each child follows its parent in the event order and, unless it is an
    arrival, is the node's own event. The timers it supersedes are the node's. *)
Theorem dispatch_is_local event s children timers s' :
  ts_superseded_timers s = [] ->
  step event s = Some (Ok (children, timers, s')) ->
  exists nd, image_node (ts_image s) (target event) = Ok nd
    /\ framed nd s s' /\ ts_superseded_timers s' = []
    /\ numbered (next_seq nd s) (next_seq nd s') children
    /\ Forall (child_ok nd event) children
    /\ Forall (fun timer => st_target timer = nd_id nd) timers.
Proof. apply step_effect. Qed.

(** ** Runs from a validated image *)

(** What the executors rely on of the image, as [validate] checks it. *)
Record image_valid (image : SimulationImage) : Prop := {
  iv_structure : validate_structure image = Ok tt;
  iv_events : validate_event_owners image = Ok tt;
  iv_sequences : validate_sequences_advance image = Some (Ok tt);
}.

(** The next number of a node. *)
Definition node_seq (s : TransitionState) (id : NodeId) : Z :=
  match image_node (ts_image s) id with
  | Ok nd => default 0 (next_seq nd s)
  | Err _ => 0
  end.

Section runs.
Context (image : SimulationImage) (Hvalid : image_valid image).

Lemma image_node_Ok id nd :
  image_node image id = Ok nd <-> nd ∈ im_nodes image /\ nd_id nd = id.
Proof.
  pose proof (so_nodes _ (proj1 (validate_structure_ok image) (iv_structure _ Hvalid))) as Hd.
  unfold image_node, indexed_lookup. rewrite ok_or_Ok. split.
  - destruct (im_nodes image !! Z.to_nat id) as [x|] eqn:E;
      [destruct (Z.eqb_spec (nd_id x) id) as [Hx|Hx]|].
    + intros [= <-]. split; [by eapply list_elem_of_lookup_2|done].
    + intros [Hin%list_elem_of_In ?]%find_some. split; [done|lia].
    + intros [Hin%list_elem_of_In ?]%find_some. split; [done|lia].
  - intros [[i Hi]%list_elem_of_lookup <-].
    by rewrite (Hd _ _ Hi), Nat2Z.id, Hi, (Hd _ _ Hi), Z.eqb_refl.
Qed.

(** Nodes of one kind own different slots. *)
Lemma slot_inj nd nd' : nd ∈ im_nodes image -> nd' ∈ im_nodes image -> nd_kind nd = nd_kind nd' ->
  Z.to_nat (nd_state_slot nd) = Z.to_nat (nd_state_slot nd') -> nd = nd'.
Proof.
  pose proof (proj1 (validate_structure_ok image) (iv_structure _ Hvalid)) as Hs.
  intros Hin Hin' Hk Hslot.
  assert (Hnd : NoDup (slots_of (nd_kind nd) (im_nodes image))).
  { destruct (nd_kind nd); [rewrite (so_hosts _ Hs)|rewrite (so_switches _ Hs)]; apply NoDup_seq. }
  unfold slots_of in Hnd. eapply (NoDup_fmap_inj _ _ _ _ Hnd); [by apply list_elem_of_filter..|done].
Qed.

(** The invariant of a run: the state of the image's nodes, and pending events
    below the sequences of the nodes that numbered them. *)
Record run_ok (c : TransitionState * pending) : Prop := {
  ro_image : ts_image c.1 = image;
  ro_local : ts_local_node c.1 = None;
  ro_timers : ts_superseded_timers c.1 = [];
  ro_indexed : indexed c.2;
  ro_fresh : forall e, pends e c.2 ->
    origin_seq (key e) < node_seq c.1 (origin_node (key e));
}.

(** The slot and the sequence of a node of the image. *)
Lemma next_seq_framed nd nd' s s' :
  nd ∈ im_nodes image -> nd' ∈ im_nodes image -> nd' <> nd -> ts_local_node s = None ->
  framed nd s s' -> next_seq nd' s' = next_seq nd' s.
Proof.
  intros Hnd Hnd' Hne Hlocal Hf. unfold next_seq, slot_of.
  rewrite (fr_local _ _ _ Hf), Hlocal. simpl.
  assert (Hslot : forall k, nd_kind nd' = k -> nd_kind nd = k ->
            slot_of nd s <> Some (Z.to_nat (nd_state_slot nd'))).
  { unfold slot_of. rewrite Hlocal. intros k Hk' Hk [= Hs]. apply Hne. symmetry.
    apply slot_inj; congruence. }
  destruct (nd_kind nd') eqn:Hk; f_equal.
  - apply (fr_hosts _ _ _ Hf). by apply Hslot.
  - apply (fr_switches _ _ _ Hf). by apply Hslot.
Qed.

Lemma step_seq c e cs ts s' :
  run_ok c -> step e c.1 = Some (Ok (cs, ts, s')) ->
  (forall i x, cs !! i = Some x -> origin_node (key x) = target e
     /\ origin_seq (key x) = node_seq c.1 (target e) + Z.of_nat i)
  /\ forall n, node_seq s' n
       = node_seq c.1 n + (if n =? target e then Z.of_nat (length cs) else 0).
Proof.
  intros Hok Hstep. destruct c as [s P]. destruct Hok as [Hi Hl Ht _ _]. simpl in *.
  destruct (step_effect _ _ _ _ _ Ht Hstep) as (nd & Hnd & Hf & _ & (Hn & Hq & Hnone) & Hall & _).
  rewrite Hi in Hnd. pose proof (proj1 (image_node_Ok _ _) Hnd) as [Hin Hid].
  assert (Hseq : node_seq s (target e) = default 0 (next_seq nd s))
    by (unfold node_seq; by rewrite Hi, Hnd).
  split.
  - intros i x Hx. rewrite Forall_forall in Hall.
    destruct (Hall x ltac:(by eapply list_elem_of_lookup_2)) as [Ho _ _ _]. split; [congruence|].
    rewrite Hseq. destruct (next_seq nd s) as [k|]; [|by rewrite (Hnone eq_refl) in Hx].
    assert (Hm : ((origin_seq ∘ key) <$> cs) !! i = Some (origin_seq (key x)))
      by (by rewrite list_lookup_fmap, Hx).
    rewrite (Hq k eq_refl) in Hm. apply lookup_seqZ in Hm as [-> _]. done.
  - intros n. unfold node_seq at 1. rewrite (fr_image _ _ _ Hf), Hi.
    destruct (Z.eqb_spec n (target e)) as [->|Hne].
    + rewrite Hnd, Hseq, Hn. destruct (next_seq nd s); simpl; [done|].
      by rewrite (Hnone eq_refl).
    + unfold node_seq. rewrite Hi. destruct (image_node image n) as [nd'|] eqn:Hnd'; [|done].
      apply image_node_Ok in Hnd' as [Hin' Hid'].
      rewrite (next_seq_framed nd nd' s s') by (try done; intros ->; congruence). lia.
Qed.

(** The children of a dispatch have keys of their own. *)
Lemma children_keys c e cs ts s' :
  run_ok c -> step e c.1 = Some (Ok (cs, ts, s')) ->
  NoDup (key <$> cs) /\ forall x y, x ∈ cs -> pends y c.2 -> key y <> key x.
Proof.
  intros Hok Hstep. destruct (step_seq _ _ _ _ _ Hok Hstep) as [Hs _]. split.
  - apply NoDup_alt. intros i j k Hi Hj. rewrite list_lookup_fmap in Hi, Hj.
    destruct (cs !! i) as [a|] eqn:Ea, (cs !! j) as [b|] eqn:Eb; [|done..].
    injection Hi as Hi. injection Hj as Hj. apply Hs in Ea as [_ Ea], Eb as [_ Eb].
    rewrite Hi in Ea. rewrite Hj in Eb. lia.
  - intros x y [i Hi]%list_elem_of_lookup_1 Hy Hk. apply Hs in Hi as [H1 H2].
    apply (ro_fresh _ Hok) in Hy. rewrite Hk, H1, H2 in Hy. lia.
Qed.

(** What the removals of a dispatch leave pending. *)
Lemma removed_timers c e cs ts s' P1 :
  run_ok c -> pends e c.2 -> step e c.1 = Some (Ok (cs, ts, s')) ->
  remove_timers (bm_remove (key e) c.2) ts = Ok P1 ->
  indexed P1 /\ forall x, pends x P1 -> pends x c.2.
Proof.
  intros [Hi _ Htm Hix _] He Hd Ht.
  destruct (step_effect _ _ _ _ _ Htm Hd) as (nd & Hnode & _ & _ & _ & _ & Hown).
  rewrite Hi in Hnode. apply image_node_Ok in Hnode as [_ Hid].
  pose proof (indexed_remove _ (key e) Hix) as Hir.
  pose proof (remove_timers_local (target e) _ _ ts Hir Hir (fun _ _ => iff_refl _)) as Hrm.
  rewrite Ht in Hrm. destruct Hrm as (out & _ & (Hi1 & _ & Hp1) & _).
  { intros t Htin. rewrite Forall_forall in Hown. rewrite <- Hid. by apply Hown. }
  split; [done|]. intros x [Hx _]%Hp1. by apply pends_remove in Hx as [Hx _].
Qed.

Lemma run_ok_fire c e c' : run_ok c -> pends e c.2 -> fire e c = Some (Ok c') -> run_ok c'.
Proof.
  intros Hok He Hf. destruct c as [s P], c' as [s' P']. unfold fire in Hf.
  apply fueled_bind_Ok in Hf as ([[cs ts] s1] & Hd & Hf).
  apply fueled_bind_Ok in Hf as (P1 & [= Ht] & Hf).
  apply fueled_bind_Ok in Hf as (P2 & [= Hc] & [= -> ->]). simpl in *.
  pose proof (children_keys _ _ _ _ _ Hok Hd) as [Hnd Hfr].
  destruct (step_seq _ _ _ _ _ Hok Hd) as [Hs Hn].
  destruct (removed_timers _ _ _ _ _ _ Hok He Hd Ht) as [Hi1 Hp1].
  pose proof Hok as [Hi Hl Htm Hix Hfresh]. simpl in *.
  destruct (step_effect _ _ _ _ _ Htm Hd) as (nd & _ & Hfm & Ht0 & _).
  destruct (insert_children_spec P1 cs Hi1 Hnd) as (P3 & HP3 & Hi3 & Hp3).
  { intros x y Hx Hy%Hp1. by apply Hfr. }
  rewrite Hc in HP3. injection HP3 as <-. split; simpl; [| |done..|].
  - by rewrite (fr_image _ _ _ Hfm).
  - by rewrite (fr_local _ _ _ Hfm).
  - intros x [Hx%Hp1|Hx]%Hp3; rewrite Hn.
    + apply Hfresh in Hx. case_match; lia.
    + apply list_elem_of_lookup_1 in Hx as [i Hi']. pose proof (lookup_lt_Some _ _ _ Hi').
      apply Hs in Hi' as [-> ->]. rewrite Z.eqb_refl. lia.
Qed.
End runs.

(** ** The initial configuration *)

(** A step that leaves the context as it is. *)
Definition reads {A} (m : transition A) : Prop :=
  forall c a c', m c = Some (Ok (a, c')) -> c' = c.

Lemma reads_bind {A B} (m : transition A) (f : A -> transition B) :
  reads m -> (forall a, reads (f a)) -> reads (m ≫= f).
Proof. intros Hm Hf c b c' (a & c1 & ->%Hm & H)%bind_inv. by eapply Hf. Qed.

Lemma reads_build_pfc_order order queue : reads (build_pfc_order order queue).
Proof.
  assert (Hg : forall A (f : TransitionState -> A), reads (gets f)) by (intros A f c a c' [= _ <-]; done).
  assert (Ha : forall A (r : result ExecutionError A), reads (attempt r))
    by (intros A [?|?] c x c' H; by inversion H).
  assert (Hu : forall A (o : option A), reads (unwrap o)) by (intros A [?|] c x c' H; by inversion H).
  assert (Hd : forall A (x : A), reads (done_with x)) by (intros A x c a c' [= _ <-]; done).
  revert order. induction queue as [|id queue IH]; intros order; simpl; [apply Hd|].
  unfold packet, resident, packet_pfc_class, flow, some_or.
  repeat first [apply Hg | apply Ha | apply Hu | apply Hd | apply IH | apply reads_bind; [|intros ?]].
Qed.

(** The class orders are all that the last step of [transition_new] writes. *)
Lemma ensure_pfc_orders_orders queues c c' :
  ensure_pfc_orders queues c = Some (Ok (tt, c')) ->
  exists orders, cx_state c' = cx_state c <| ts_switch_pfc_orders := orders |>.
Proof.
  revert c. induction queues as [|[slot q] queues IH]; intros c.
  { intros [= <-]. exists (ts_switch_pfc_orders (cx_state c)). by destruct (cx_state c). }
  intros ([] & c1 & H1 & H2)%bind_inv. destruct (IH _ H2) as [orders ->]. clear IH H2.
  unfold ensure_pfc_order in H1. apply bind_inv in H1 as (sw & c2 & [= <- <-] & H1).
  destruct (_ ≫= _) as [queue|]; [|injection H1 as <-; by eexists].
  apply bind_inv in H1 as (existing & c2 & [= <- <-] & H1). case_match; [injection H1 as <-; by eexists|].
  apply bind_inv in H1 as (order & c2 & ->%reads_build_pfc_order & H1). injection H1 as <-. by eexists.
Qed.

Lemma transition_new_fields image s : transition_new image = Some (Ok s) ->
  ts_image s = image /\ ts_local_node s = None /\ ts_superseded_timers s = []
  /\ ts_hosts s = im_host_states image /\ ts_switch_states s = im_switch_states image.
Proof.
  unfold transition_new. intros H. invert_ok.
  match goal with H : ensure_pfc_orders _ _ = Some (Ok ?x) |- _ => destruct x as [[] c] end.
  match goal with H : ensure_pfc_orders _ _ = _ |- _ =>
    apply ensure_pfc_orders_orders in H as [orders Ho] end. simpl in *. by rewrite Ho.
Qed.

Lemma inserted_spec (l : list Event) (P P' : pending) : indexed P ->
  try_fold map_insert P l = Ok P' -> indexed P' /\ forall e, pends e P' -> pends e P \/ e ∈ l.
Proof.
  revert P. induction l as [|x l IH]; intros P HP HP'; simpl in HP'.
  { injection HP' as <-. auto. }
  apply bind_Ok in HP' as (P1 & Hx & HP'). unfold map_insert in Hx.
  destruct (bm_get (key x) P) eqn:Eg; [done|]. injection Hx as <-.
  destruct (IH _ (indexed_insert _ x HP) HP') as [H1 H2]. split; [done|].
  intros e [He|He]%H2; [|set_solver]. apply pends_insert in He as [->|He]; set_solver.
Qed.

Lemma initial_pending_spec image P : initial_pending image = Ok P ->
  indexed P /\ forall e, pends e P -> e ∈ im_initial_events image.
Proof.
  intros HP. destruct (inserted_spec (im_initial_events image) [] P) as [H1 H2]; [|done|].
  - split; [constructor|by intros ? ? ?%not_elem_of_nil].
  - split; [done|]. by intros e [?%not_elem_of_nil|He]%H2.
Qed.

Section initial.
Context (image : SimulationImage) (Hvalid : image_valid image).

Lemma run_ok_new s P : transition_new image = Some (Ok s) -> initial_pending image = Ok P ->
  run_ok image (s, P).
Proof.
  intros Hs HP. destruct (transition_new_fields _ _ Hs) as (Hi & Hl & Ht & Hh & Hw).
  destruct (initial_pending_spec _ _ HP) as [Hix Hin].
  split; simpl; [done..|]. intros e He%Hin.
  destruct (validate_event_owners_Ok _ _ (iv_events _ Hvalid) He) as [(nd & Hnd & Hid) _].
  destruct (validate_sequences_advance_Ok _ _ _ (iv_sequences _ Hvalid) He Hnd Hid)
    as (next & Hnext & Hlt).
  unfold node_seq. rewrite Hi, (proj2 (image_node_Ok image Hvalid _ nd)) by done.
  unfold next_seq, slot_of. rewrite Hl, Hh, Hw. simpl. unfold next_origin_seq in Hnext.
  destruct (nd_kind nd); by rewrite Hnext.
Qed.
End initial.

(** The configurations a run can be in, whatever pending event it takes next. *)
Inductive reaches (image : SimulationImage) : TransitionState * pending -> Prop :=
| reaches_new s P : transition_new image = Some (Ok s) -> initial_pending image = Ok P ->
    reaches image (s, P)
| reaches_fire e c c' : reaches image c -> pends e c.2 -> fire e c = Some (Ok c') ->
    reaches image c'.

Lemma reaches_run_ok image c : image_valid image -> reaches image c -> run_ok image c.
Proof.
  intros Hv. induction 1 as [s P Hs HP|e c c' _ IH He Hf]; [by apply run_ok_new|].
  by eapply run_ok_fire.
Qed.

(** C2. The simulator never gives two events one key. From an image that passes
    the structural checks of [validate] and the checks of its initial events and
    origin sequences, take any number of pending events in any order: at every
    configuration reached, every pending event is numbered below the sequence of
    the node that emitted it, and whatever event is dispatched next, its children
    have pairwise different keys, none of them the key of a pending event. So
    [DuplicateEventKey] is never the result of indexing them. *)
Theorem keys_never_collide image c :
  image_valid image -> reaches image c ->
  (forall e, pends e c.2 -> origin_seq (key e) < node_seq c.1 (origin_node (key e)))
  /\ forall e cs ts s', pends e c.2 -> step e c.1 = Some (Ok (cs, ts, s')) ->
       NoDup (key <$> cs)
       /\ (forall x y, x ∈ cs -> pends y c.2 -> key y <> key x)
       /\ forall P1, remove_timers (bm_remove (key e) c.2) ts = Ok P1 ->
            exists P', insert_children P1 cs = Ok P'.
Proof.
  intros Hv Hr. pose proof (reaches_run_ok _ _ Hv Hr) as Hok. split; [apply Hok|].
  intros e cs ts s' He Hs. destruct (children_keys image Hv _ _ _ _ _ Hok Hs) as [Hnd Hf].
  split_and!; [done..|]. intros P1 Ht.
  destruct (removed_timers image Hv _ _ _ _ _ _ Hok He Hs Ht) as [Hi1 Hp1].
  destruct (insert_children_spec P1 cs Hi1 Hnd) as (P' & HP' & _); [|eauto].
  intros x y Hx Hy%Hp1. by apply Hf.
Qed.

(** ** An image: one packet between two hosts *)

Definition idle_host (egress next_seq : Z) : HostState :=
  mkHost egress [] None false [] [] [] [] None None next_seq 0 0 0 0.

Definition first_event : Event :=
  mkEvent (mkKey 10 (event_phase PacketArrival) 0 0) 0 PacketArrival 0.

Definition pair_image : SimulationImage :=
  mkImage 1000 [mkNode 0 Host 0; mkNode 1 Host 1] [idle_host 0 1; idle_host 1 0] []
    [mkFlow 0 0 1 0 0 [0] [1]] [mkPacket 0 0 100 false Data]
    [mkLink 0 0 1 8000000000 5; mkLink 1 1 0 8000000000 5]
    [mkChannel 0 1 0 RemoteArrival 5; mkChannel 1 0 1 RemoteArrival 5]
    [first_event] 0 [] [] [].

Lemma pair_image_valid : image_valid pair_image.
Proof. by split. Qed.

(** The packet leaves host 0 at 110 ns and is delivered at 115 ns. *)
Lemma pair_image_run :
  exists r, run_scalar (H := ListHeap) 10 pair_image None = Some (Ok r)
    /\ hs_received_packets <$> rr_host_states r = [0; 1]
    /\ hs_departed_packets <$> rr_host_states r = [1; 0]
    /\ rn_received_bytes (rr_summary r) = 100 /\ rr_pending_events r = [].
Proof. eexists. split; [vm_compute; reflexivity|]. by split_and!. Qed.

Definition pair_state : TransitionState :=
  mkTransition pair_image (im_host_states pair_image)
    ((fun state => build state []) <$> im_host_states pair_image) [] [] [] None
    [(0, mkResident (mkPacket 0 0 100 false Data) None 0 false)] empty_summary [] [].

Lemma dispatch_is_local_witness :
  exists children timers s', step first_event pair_state = Some (Ok (children, timers, s'))
    /\ length children = 1%nat
    /\ exists nd, image_node pair_image 0 = Ok nd
         /\ framed nd pair_state s' /\ ts_superseded_timers s' = []
         /\ numbered (next_seq nd pair_state) (next_seq nd s') children
         /\ Forall (child_ok nd first_event) children
         /\ Forall (fun timer => st_target timer = nd_id nd) timers.
Proof.
  destruct (step first_event pair_state) as [[[[cs ts] s']|]|] eqn:E;
    [|vm_compute in E; discriminate E..].
  exists cs, ts, s'. split; [reflexivity|]. split.
  - vm_compute in E. by injection E as <- _ _.
  - exact (dispatch_is_local first_event pair_state cs ts s' eq_refl E).
Defined.

Lemma keys_never_collide_witness :
  image_valid pair_image /\ reaches pair_image (pair_state, [(key first_event, first_event)])
  /\ forall cs ts s', step first_event pair_state = Some (Ok (cs, ts, s')) ->
       NoDup (key <$> cs) /\ forall x, x ∈ cs -> key first_event <> key x.
Proof.
  assert (Hr : reaches pair_image (pair_state, [(key first_event, first_event)]))
    by (constructor; vm_compute; reflexivity).
  split; [exact pair_image_valid|]. split; [exact Hr|]. intros cs ts s' Hs.
  assert (Hp : pends first_event [(key first_event, first_event)]) by (by left).
  destruct (keys_never_collide pair_image _ pair_image_valid Hr) as [_ Hc].
  destruct (Hc _ _ _ _ Hp Hs) as (Hnd & Hf & _). split; [exact Hnd|].
  intros x Hx. exact (Hf x _ Hx Hp).
Defined.
