(* ===== verification/IndexRuns.v ===== *)
(** * The stage index along a run

    The handlers keep every host's stage index in step with the host's tables: the
    flows of its generators and TCP receivers never change, and a stage is written
    together with its place in the releasable set. So at every configuration a run
    reaches, every lookup in an index gives the answer of the scan it replaces. *)

From Stdlib Require Import List.
From S2P Require Import Prelude OrdMap Event LinkTime ExecError Fel Dcqcn Tcp Model Image Roce.
From S2P Require Import TcpReceiver Sched TcpLedger StageIndex Transition TcpSend Stages HostSend.
From S2P Require Import HostTcp Pacing HostRoce HostReceive SwitchHandlers Dispatch Effects Machine.
From S2P Require Import Validate Simulator.

(** ** The tables an index answers for *)

Definition tables (h : HostState) : list FlowId * list FlowId * list (option CollectiveStage) :=
  (fg_flow <$> hs_generators h, tr_flow <$> hs_tcp_receivers h, hs_stages h).

#[global] Arguments tables : simpl never.

Definition table_flows (t : list FlowId * list FlowId * list (option CollectiveStage)) : list FlowId :=
  t.1.1.

Lemma index_ok_same h h' joins ix : tables h' = tables h -> index_ok h joins ix -> index_ok h' joins ix.
Proof. unfold tables. intros [= Hg Hr Hs]. by apply index_ok_tables. Qed.

Lemma table_flows_lookup h t p g : tables h = t -> hs_generators h !! p = Some g ->
  table_flows t !! p = Some (fg_flow g).
Proof. intros <- Hg. unfold table_flows, tables. simpl. by rewrite list_lookup_fmap, Hg. Qed.

Lemma tables_generator h t p g : tables h = t -> table_flows t !! p = Some (fg_flow g) ->
  tables (h <| hs_generators ::= <[p := g]> |>) = t.
Proof.
  intros <- Hp. unfold tables, table_flows in *. simpl in *. by rewrite list_fmap_insert, list_insert_id.
Qed.

Lemma tables_receiver h t p r r' : tables h = t -> hs_tcp_receivers h !! p = Some r ->
  tr_flow r' = tr_flow r -> tables (h <| hs_tcp_receivers ::= <[p := r']> |>) = t.
Proof.
  intros <- Hp Hr. unfold tables. simpl. rewrite list_fmap_insert, list_insert_id; [done|].
  by rewrite list_lookup_fmap, Hp, Hr.
Qed.

(** ** What the pure helpers do to the tables *)

Section pure.
Context (nd : NodeDescriptor).

Lemma allocate_payload_tables count h id h' :
  allocate_payload nd count h = Ok (id, h') -> tables h' = tables h.
Proof. unfold allocate_payload. intros H. by invert_ok. Qed.

Lemma count_sourced_tables k h h' : count_sourced nd k h = Ok h' -> tables h' = tables h.
Proof. unfold count_sourced. intros H. by invert_ok. Qed.

Lemma count_received_tables h h' : count_received nd h = Ok h' -> tables h' = tables h.
Proof. unfold count_received. intros H. by invert_ok. Qed.

Lemma claim_ready_tables h ready h' : claim_ready h = (ready, h') -> tables h' = tables h.
Proof. unfold claim_ready. intros H. by case_match; simplify_eq. Qed.

(** A fill keeps the host's tables and its generator's flow. *)
Definition fill_tables (s s' : FillState) : Prop :=
  tables (fl_host s') = tables (fl_host s) /\ fg_flow (fl_generator s') = fg_flow (fl_generator s).

Lemma plan_retransmission_tables count flow now segment s s' :
  plan_retransmission nd count flow now segment s = Ok s' -> fill_tables s s'.
Proof.
  unfold plan_retransmission. intros H. unfold fill_tables.
  invert_ok; simpl; try match goal with H : allocate_payload _ _ _ = _ |- _ => apply allocate_payload_tables in H end; done.
Qed.

Lemma send_segment_tables count flow now size s s' :
  send_segment nd count flow now size s = Ok s' -> fill_tables s s'.
Proof.
  unfold send_segment. intros H. unfold fill_tables.
  invert_ok; simpl. match goal with H : allocate_payload _ _ _ = _ |- _ => apply allocate_payload_tables in H end; done.
Qed.

Lemma fill_window_tables count flow now fill s s' :
  fill_window nd count flow now fill s = Some (Ok s') -> fill_tables s s'.
Proof.
  unfold fill_window. destruct fill; [|by intros [= <-]].
  destruct (wloop _ _ s) as [|r] eqn:E; intros [= ->].
  apply wloop_inr in E. remember (Ok s') as r eqn:Hr. revert Hr.
  induction E as [s r Hs|s s1 r Hs _ IH]; intros ->; unfold fill_step in Hs; case_match; simplify_eq.
  - done.
  - by case_match; simplify_eq.
  - case_match; simplify_eq. match goal with H : send_segment _ _ _ _ _ _ = _ |- _ => apply send_segment_tables in H as [? ?] end.
    destruct (IH eq_refl). split; congruence.
Qed.

Lemma constant_emission_tables count stop event pk h position g r :
  table_flows (tables h) !! position = Some (fg_flow g) ->
  constant_emission nd count stop event pk h position g = Some (Ok r) -> tables r.1.1 = tables h.
Proof.
  intros Hp. unfold constant_emission. intros H. invert_ok; simpl in *;
    repeat match goal with
    | H : allocate_payload _ _ _ = _ |- _ => apply allocate_payload_tables in H
    | H : count_sourced _ _ _ = _ |- _ => apply count_sourced_tables in H
    | H : claim_ready _ = _ |- _ => apply claim_ready_tables in H
    end;
    do 2 (etrans; [eassumption|]); apply tables_generator; simpl; congruence.
Qed.

Lemma pace_packet_tables pk h g credit cost r : pace_packet nd pk h g credit cost = Ok r ->
  tables r.1.1.1 = tables h /\ fg_flow r.1.1.2 = fg_flow g.
Proof.
  unfold pace_packet. intros H. invert_ok; simpl; [|done].
  match goal with H : count_sourced _ _ _ = _ |- _ => apply count_sourced_tables in H end. done.
Qed.

Lemma pace_tick_tables count stop now pk h g rate bps r :
  pace_tick nd count stop now pk h g rate bps = Ok r ->
  tables (pt_state r) = tables h /\ fg_flow (pt_generator r) = fg_flow g.
Proof.
  unfold pace_tick. intros H. invert_ok;
    match goal with H : pace_packet _ _ _ _ _ _ = _ |- _ => apply pace_packet_tables in H as [? ?] end;
    simpl in *;
    try match goal with H : allocate_payload _ _ _ = _ |- _ => apply allocate_payload_tables in H end;
    split; congruence.
Qed.
End pure.

Lemma restart_roce_pacer_flow g roce now stop r :
  restart_roce_pacer g roce now stop = Ok r -> fg_flow r.1.2 = fg_flow g.
Proof. unfold restart_roce_pacer. intros H. by invert_ok. Qed.

Section pure_roce.
Context (nd : NodeDescriptor).

Lemma roce_send_tables count now flow h g roce r : roce_send nd count now flow h g roce = Ok r ->
  tables r.1.1.1.1 = tables h /\ fg_flow r.1.1.1.2 = fg_flow g.
Proof.
  unfold roce_send. intros H. invert_ok; simpl;
    repeat match goal with
    | H : allocate_payload _ _ _ = _ |- _ => apply allocate_payload_tables in H
    | H : count_sourced _ _ _ = _ |- _ => apply count_sourced_tables in H
    end; split; congruence.
Qed.

Lemma roce_rearm_flow now stop flow g roce r :
  roce_rearm now stop flow g roce = Ok r -> fg_flow r.1.1 = fg_flow g.
Proof. unfold roce_rearm. intros H. invert_ok; by repeat case_match. Qed.

Lemma roce_open_tick_tables count now stop flow h position g roce r :
  table_flows (tables h) !! position = Some (fg_flow g) ->
  roce_open_tick nd count now stop flow h position g roce = Ok r -> tables (rt_state r) = tables h.
Proof.
  intros Hp. unfold roce_open_tick. intros H. invert_ok; simpl;
    repeat match goal with
    | H : roce_send _ _ _ _ _ _ _ = _ |- _ => apply roce_send_tables in H as [? ?]
    | H : roce_rearm _ _ _ _ _ = _ |- _ => apply roce_rearm_flow in H
    end; simpl in *; apply tables_generator; simpl; congruence.
Qed.

Lemma roce_tick_tables image count event flow h position g roce r :
  table_flows (tables h) !! position = Some (fg_flow g) ->
  roce_tick nd image count event flow h position g roce = Some (Ok r) -> tables (rt_state r) = tables h.
Proof.
  intros Hp. unfold roce_tick, join_parked. intros H. invert_ok; try by eapply roce_open_tick_tables.
  all: unfold park_tick; simpl; by apply tables_generator.
Qed.

Lemma roce_feedback_flow flow id now stop header nack g roce r :
  roce_feedback flow id now stop header nack g roce = Ok r -> fg_flow (rf_generator r) = fg_flow g.
Proof.
  unfold roce_feedback. intros H. invert_ok; simpl;
    try match goal with H : restart_roce_pacer _ _ _ _ = _ |- _ => apply restart_roce_pacer_flow in H end;
    simpl in *; congruence.
Qed.

Lemma roce_timeout_flow flow now stop g roce r :
  roce_timeout flow now stop g roce = Ok r -> fg_flow (rf_generator r) = fg_flow g.
Proof.
  unfold roce_timeout. intros H. invert_ok; simpl.
  match goal with H : restart_roce_pacer _ _ _ _ = _ |- _ => apply restart_roce_pacer_flow in H end. done.
Qed.

Lemma restart_parked_class_tables image now priority h r :
  restart_parked_class nd image now priority h = Some (Ok r) -> tables r.1 = tables h.
Proof.
  unfold restart_parked_class. intros H. destruct (hs_pfc h) as [pfc|]; [|done]. revert H.
  rewrite fueled_bind_Ok. intros (parked & _ & H). revert H. generalize (eq_refl (tables h)).
  generalize (tables h) at 2 3. intros t Ht.
  apply (fueled_fold_ind (fun s => tables s.1 = t)); [clear Ht|done].
  intros [h1 ts] y s2 _ Hs. unfold restart_parked. intros Hx. invert_ok. simpl in *.
  match goal with H : restart_roce_pacer _ _ _ _ = _ |- _ => apply restart_roce_pacer_flow in H end.
  apply tables_generator; [done|]. simpl in *.
  rewrite Hx1. by eapply table_flows_lookup.
Qed.
End pure_roce.

Lemma tcp_receive_range_flow r start stop : tr_flow (tcp_receive_range r start stop) = tr_flow r.
Proof. unfold tcp_receive_range. by repeat case_match. Qed.

Lemma cnp_feedback_flow g now g' : cnp_feedback g now = Some g' -> fg_flow g' = fg_flow g.
Proof. unfold cnp_feedback. intros H. by invert_ok. Qed.

Lemma apply_generator_feedback_flow g id r :
  apply_generator_feedback g id = Ok r -> fg_flow r.1 = fg_flow g.
Proof. unfold apply_generator_feedback. intros H. by invert_ok. Qed.

Lemma settle_tcp_status_flow preserve tcp g : fg_flow (settle_tcp_status preserve tcp g) = fg_flow g.
Proof. unfold settle_tcp_status. by destruct preserve. Qed.

Lemma timed_out_generator_lookup event k gs p g tcp timer :
  timed_out_generator event k gs = Some (p, g, tcp, timer) -> exists i, p = (k + i)%nat /\ gs !! i = Some g.
Proof.
  revert k. induction gs as [|x gs IH]; intros k; simpl; [done|].
  assert (Hrec : timed_out_generator event (S k) gs = Some (p, g, tcp, timer) ->
    exists i, p = (k + i)%nat /\ (x :: gs) !! i = Some g).
  { intros (i & -> & Hi)%IH. exists (S i). split; [lia|done]. }
  repeat case_match; try done. intros [= <- <- <- <-]. exists 0%nat. split; [lia|done].
Qed.

(** ** The stage writers *)

Section stages.
Context (joins : list FlowId).

(** A pass over the successors of a flow: the index with its releasable set. *)
Definition pass_ok (index : HostStageIndex) (s : StagePass) : Prop :=
  is_Some (ix_stage_views index) /\ index_ok (sp_state s) joins (set_releasable index (sp_releasable s)).

Lemma set_releasable_refresh index s position stage : is_Some (ix_stage_views index) ->
  set_releasable index (refresh s position stage)
  = refresh_releasable (set_releasable index s) position stage.
Proof.
  unfold set_releasable, refresh_releasable. destruct index as [g r [v|]]; [done|by intros [? ?]].
Qed.

Lemma write_stage_ok index s position g stage stage' cause : pass_ok index s ->
  hs_generators (sp_state s) !! position = Some g -> host_stage (sp_state s) position = Some stage ->
  sd_local (st_dependencies stage') = sd_local (st_dependencies stage) ->
  sd_inbound (st_dependencies stage') = sd_inbound (st_dependencies stage) ->
  pass_ok index (write_stage s position stage' cause).
Proof.
  intros [Hv Hok] Hg Hs Hl Hi. split; [done|]. simpl. rewrite set_releasable_refresh by done.
  eapply refresh_ok; eauto. by eapply lookup_lt_Some.
Qed.

Lemma complete_local_successors_ok h ix completed completion causes r : index_ok h joins ix ->
  complete_local_successors h ix completed completion causes = Some r -> index_ok r.1.1 joins r.1.2.
Proof.
  intros Hok. unfold complete_local_successors. intros H. invert_ok; [|done]. simpl.
  match goal with H : local_successors_of _ _ = _ |- _ => rename H into Hl end.
  unfold local_successors_of in Hl. destruct (ix_stage_views ix) as [v|] eqn:Hv; [|done].
  injection Hl as <- <-. match goal with H : panic_fold _ _ _ = _ |- _ => revert H end.
  intros Hf. eapply (panic_fold_ind (pass_ok ix)) in Hf; [by destruct Hf| |].
  - intros s y s2 _ Hs. unfold complete_local_successor. intros Hx. invert_ok; try done.
    by eapply write_stage_ok.
  - split; [by rewrite Hv|]. simpl. by destruct ix as [g0 r0 v0]; simpl in *; subst; destruct v.
Qed.

Lemma record_inbound_progress_ok h ix inbound progress id causes r : index_ok h joins ix ->
  record_inbound_progress h ix inbound progress id causes = Some (Ok r) -> index_ok r.1.1 joins r.1.2.
Proof.
  intros Hok. unfold record_inbound_progress. intros H. invert_ok; [|done]. simpl.
  match goal with H : inbound_successors_of _ _ = _ |- _ => rename H into Hl end.
  unfold inbound_successors_of in Hl. destruct (ix_stage_views ix) as [v|] eqn:Hv; [|done].
  injection Hl as <- <-. match goal with H : fueled_fold _ _ _ = _ |- _ => revert H end.
  intros Hf. eapply (fueled_fold_ind (pass_ok ix)) in Hf; [by destruct Hf| |].
  - intros s y s2 _ Hs. unfold record_inbound_successor. intros Hx. invert_ok; try done.
    by eapply write_stage_ok.
  - split; [by rewrite Hv|]. simpl. by destruct ix as [g0 r0 v0]; simpl in *; subst; destruct v.
Qed.
End stages.

(** ** Steps and their rules *)

Section rules.
Context (nd : NodeDescriptor) (slot : nat) (joins : list FlowId).

(** The host of the node has the tables [t], and its index answers for them. *)
Definition tabled (t : list FlowId * list FlowId * list (option CollectiveStage)) (c : Ctx) : Prop :=
  slot_of nd (cx_state c) = Some slot /\ exists h ix,
    ts_hosts (cx_state c) !! slot = Some h /\ ts_host_indices (cx_state c) !! slot = Some ix
    /\ tables h = t /\ index_ok h joins ix.

(** From the tables [t], [m] leaves them and returns [Φ]. *)
Definition holds {A} t (m : transition A) (Φ : A -> Prop) : Prop :=
  forall c a c', tabled t c -> m c = Some (Ok (a, c')) -> tabled t c' /\ Φ a.

(** From the tables [t], [m] ends with an index that answers for the tables. *)
Definition moves {A} t (m : transition A) : Prop :=
  forall c a c', tabled t c -> m c = Some (Ok (a, c')) -> exists t', tabled t' c'.

Lemma holds_weaken {A} t (m : transition A) (Φ Ψ : A -> Prop) :
  holds t m Φ -> (forall a, Φ a -> Ψ a) -> holds t m Ψ.
Proof. intros Hm HΦ c a c' Hn Hr. destruct (Hm _ _ _ Hn Hr). auto. Qed.

Lemma holds_moves {A} t (m : transition A) Φ : holds t m Φ -> moves t m.
Proof. intros Hm c a c' Hn Hr. destruct (Hm _ _ _ Hn Hr). eauto. Qed.

Lemma holds_bind {A B} t (m : transition A) (f : A -> transition B) Φ Ψ :
  holds t m Φ -> (forall a, Φ a -> holds t (f a) Ψ) -> holds t (m ≫= f) Ψ.
Proof.
  intros Hm Hf c b c' Hn Hr. apply bind_inv in Hr as (a & c1 & H1 & H2).
  destruct (Hm _ _ _ Hn H1) as [Hq Ha]. by eapply Hf.
Qed.

Lemma moves_bind_holds {A B} t (m : transition A) (f : A -> transition B) Φ :
  holds t m Φ -> (forall a, Φ a -> moves t (f a)) -> moves t (m ≫= f).
Proof.
  intros Hm Hf c b c' Hn Hr. apply bind_inv in Hr as (a & c1 & H1 & H2).
  destruct (Hm _ _ _ Hn H1) as [Hq Ha]. by eapply Hf.
Qed.

Lemma moves_bind {A B} t (m : transition A) (f : A -> transition B) :
  moves t m -> (forall t' a, moves t' (f a)) -> moves t (m ≫= f).
Proof.
  intros Hm Hf c b c' Hn Hr. apply bind_inv in Hr as (a & c1 & H1 & H2).
  destruct (Hm _ _ _ Hn H1) as [t' Hq]. by eapply Hf.
Qed.

Lemma holds_assoc {A B C} t (m : transition A) (f : A -> transition B) (g : B -> transition C) Ψ :
  holds t (m ≫= fun x => f x ≫= g) Ψ -> holds t ((m ≫= f) ≫= g) Ψ.
Proof. intros H c a c' Hn Hr. rewrite bind_assoc in Hr. by eapply H. Qed.

Lemma moves_assoc {A B C} t (m : transition A) (f : A -> transition B) (g : B -> transition C) :
  moves t (m ≫= fun x => f x ≫= g) -> moves t ((m ≫= f) ≫= g).
Proof. intros H c a c' Hn Hr. rewrite bind_assoc in Hr. by eapply H. Qed.

Lemma holds_done {A} t (a : A) (Φ : A -> Prop) : Φ a -> holds t (done_with a) Φ.
Proof. by intros Ha c b c' Hn [= <- <-]. Qed.

Lemma moves_done {A} t (a : A) : moves t (done_with a).
Proof. intros c b c' Hn [= <- <-]. eauto. Qed.

Lemma holds_done_bind {A B} t (a : A) (f : A -> transition B) Ψ :
  holds t (f a) Ψ -> holds t (done_with a ≫= f) Ψ.
Proof. done. Qed.

Lemma moves_done_bind {A B} t (a : A) (f : A -> transition B) :
  moves t (f a) -> moves t (done_with a ≫= f).
Proof. done. Qed.

Lemma holds_read {A} t (m : transition A) (Φ : A -> Prop) :
  (forall c a c', m c = Some (Ok (a, c')) -> c' = c /\ (tabled t c -> Φ a)) -> holds t m Φ.
Proof. intros Hm c a c' Hn Hr. destruct (Hm _ _ _ Hr) as [-> HΦ]. auto. Qed.

Lemma holds_gets {A} t (f : TransitionState -> A) : holds t (gets f) (fun _ => True).
Proof. apply holds_read. by intros c a c' [= <- <-]. Qed.
Lemma holds_attempt {A} t (r : result ExecutionError A) : holds t (attempt r) (fun a => r = Ok a).
Proof. apply holds_read. intros c a c'. unfold attempt. by destruct r; intros [= <- <-]. Qed.
Lemma holds_some_or {A} t (o : option A) e : holds t (some_or o e) (fun a => o = Some a).
Proof. apply holds_read. intros c a c'. unfold some_or. by destruct o; intros [= <- <-]. Qed.
Lemma holds_unwrap {A} t (o : option A) : holds t (unwrap o) (fun a => o = Some a).
Proof. apply holds_read. intros c a c'. unfold unwrap. by destruct o; intros [= <- <-]. Qed.
Lemma holds_run {A} t (m : fueled ExecutionError A) : holds t (run m) (fun a => m = Some (Ok a)).
Proof. apply holds_read. intros c a c'. unfold run. by destruct m as [[]|]; intros [= <- <-]. Qed.
Lemma holds_fail {A} t e (Φ : A -> Prop) : holds t (fail e) Φ.
Proof. by intros c a c' _ Hr. Qed.
Lemma moves_fail {A} t e : moves t (@fail A e).
Proof. by intros c a c' _ Hr. Qed.

(** A write of anything but the hosts and their indices. *)
Lemma holds_modify t f :
  (forall s, ts_local_node (f s) = ts_local_node s /\ ts_hosts (f s) = ts_hosts s
     /\ ts_host_indices (f s) = ts_host_indices s) -> holds t (modify f) (fun _ => True).
Proof.
  intros Hf c a c' [Hs Ht] [= <- <-]. split; [|done]. unfold tabled, slot_of in *. simpl.
  by destruct (Hf (cx_state c)) as (-> & -> & ->).
Qed.

Lemma holds_local_state_slot t : holds t (local_state_slot nd) (fun s => s = slot).
Proof.
  apply holds_read. intros c a c' [-> Hs]%local_state_slot_inv. split; [done|].
  intros [Hs' _]. congruence.
Qed.

Lemma holds_host_state t : holds t (host_state nd) (fun h => tables h = t).
Proof.
  apply holds_read. intros c h c' (-> & s & Hs & Hh)%host_state_inv. split; [done|].
  intros (Hs' & h' & ix & Hh' & _ & Ht & _). congruence.
Qed.

Lemma holds_host_parts t :
  holds t (host_parts nd) (fun p => tables p.1 = t /\ index_ok p.1 joins p.2).
Proof.
  apply holds_read. intros c [h i] c' (-> & s & Hs & Hh & Hi)%host_parts_inv. split; [done|].
  intros (Hs' & h' & ix & Hh' & Hi' & Ht & Hok). simpl.
  assert (s = slot) by congruence. subst s.
  rewrite Hh in Hh'. rewrite Hi in Hi'. by injection Hh' as <-; injection Hi' as <-.
Qed.

Lemma write_host_inv h c a c' : set_host nd h c = Some (Ok (a, c')) ->
  exists s, slot_of nd (cx_state c) = Some s
    /\ c' = mkCtx (cx_state c <| ts_hosts ::= <[s := h]> |>) (cx_children c).
Proof. intros (s & c1 & [-> Hs]%local_state_slot_inv & [= <- <-])%bind_inv. eauto. Qed.

Lemma set_index_inv ix c a c' : set_index nd ix c = Some (Ok (a, c')) ->
  exists s, slot_of nd (cx_state c) = Some s
    /\ c' = mkCtx (cx_state c <| ts_host_indices ::= <[s := ix]> |>) (cx_children c).
Proof. intros (s & c1 & [-> Hs]%local_state_slot_inv & [= <- <-])%bind_inv. eauto. Qed.

Lemma holds_set_host t h : tables h = t -> holds t (set_host nd h) (fun _ => True).
Proof.
  intros Ht c a c' (Hs & h' & ix & Hh & Hi & Ht' & Hok) (s & Hs' & ->)%write_host_inv.
  assert (s = slot) by congruence. subst s. split; [|done]. split; [done|]. simpl. exists h, ix.
  rewrite list_lookup_insert_eq by (by eapply lookup_lt_Some). split_and!; [done..|].
  eapply index_ok_same; [|done]. congruence.
Qed.

(** The host and its index, written together. *)
Lemma moves_write_parts {A} t h ix (m : transition A) : index_ok h joins ix -> moves (tables h) m ->
  moves t (_ ← set_host nd h; _ ← set_index nd ix; m).
Proof.
  intros Hok Hm c a c' (Hs & h' & ix' & Hh & Hi & _) Hr.
  apply bind_inv in Hr as (u & c1 & (s & Hs1 & ->)%write_host_inv & Hr).
  apply bind_inv in Hr as (u' & c2 & (s2 & Hs2 & ->)%set_index_inv & Hr).
  change (slot_of nd (cx_state c) = Some s2) in Hs2.
  assert (s = slot) by congruence. assert (s2 = slot) by congruence. subst s s2.
  eapply Hm; [|exact Hr]. split; [done|]. simpl. exists h, ix.
  by rewrite !list_lookup_insert_eq by (by eapply lookup_lt_Some).
Qed.

Lemma holds_insert_child t parent child : holds t (insert_child parent child) (fun _ => True).
Proof. intros c a c' Ht [_ ->]%insert_child_inv. by destruct c. Qed.

Lemma holds_when t b m : holds t m (fun _ => True) -> holds t (when b m) (fun _ => True).
Proof. intros Hm. destruct b; [done|]. by apply holds_done. Qed.
Lemma holds_when_some {A} t (o : option A) m :
  (forall a, o = Some a -> holds t (m a) (fun _ => True)) -> holds t (when_some o m) (fun _ => True).
Proof. intros Hm. destruct o; [by apply Hm|]. by apply holds_done. Qed.
Lemma moves_when t b m : moves t m -> moves t (when b m).
Proof. intros Hm. destruct b; [done|]. apply moves_done. Qed.
Lemma moves_when_some {A} t (o : option A) m :
  (forall a, o = Some a -> moves t (m a)) -> moves t (when_some o m).
Proof. intros Hm. destruct o; [by apply Hm|]. apply moves_done. Qed.
Lemma holds_for_each {A} t (l : list A) body :
  (forall x, x ∈ l -> holds t (body x) (fun _ => True)) -> holds t (for_each l body) (fun _ => True).
Proof.
  induction l as [|x l IH]; intros Hb; simpl; [by apply holds_done|].
  eapply holds_bind; [apply Hb; set_solver|]. intros _ _. apply IH. intros y Hy. apply Hb. set_solver.
Qed.
End rules.

(** ** Automation

    [walk] splits a handler into its steps; a step's lemma comes from the database
    [tables]. *)

Create HintDb tables discriminated.

(** Replaces a run of a pure helper by what it does to the tables. *)
Ltac table_fact :=
  match goal with
  | H : allocate_payload _ _ _ = Ok _ |- _ => apply allocate_payload_tables in H
  | H : count_sourced _ _ _ = Ok _ |- _ => apply count_sourced_tables in H
  | H : count_received _ _ = Ok _ |- _ => apply count_received_tables in H
  | H : claim_ready _ = _ |- _ => apply claim_ready_tables in H
  | H : plan_retransmission _ _ _ _ _ _ = Ok _ |- _ => apply plan_retransmission_tables in H as [? ?]
  | H : fill_window _ _ _ _ _ _ = Some (Ok _) |- _ => apply fill_window_tables in H as [? ?]
  | H : pace_tick _ _ _ _ _ _ _ _ _ = Ok _ |- _ => apply pace_tick_tables in H as [? ?]
  | H : restart_parked_class _ _ _ _ _ = Some (Ok _) |- _ => apply restart_parked_class_tables in H
  | H : roce_feedback _ _ _ _ _ _ _ _ = Ok _ |- _ => apply roce_feedback_flow in H
  | H : roce_timeout _ _ _ _ _ = Ok _ |- _ => apply roce_timeout_flow in H
  | H : cnp_feedback _ _ = Some _ |- _ => apply cnp_feedback_flow in H
  | H : apply_generator_feedback _ _ = Ok _ |- _ => apply apply_generator_feedback_flow in H
  | H : timed_out_generator _ 0 _ = Some _ |- _ =>
      apply timed_out_generator_lookup in H as (? & -> & H); rewrite Nat.add_0_l in *
  | H : _ /\ _ |- _ => destruct H
  end.

Ltac flow_eq := repeat table_fact; cbn in *; rewrite ?settle_tcp_status_flow; cbn in *; congruence.

Ltac solve_tables :=
  repeat (first [table_fact | tick_fact]); cbn [fst snd fl_host fl_generator] in *; chain_tables
with tick_fact :=
  match goal with
  | H : constant_emission _ _ _ _ _ _ _ _ = Some (Ok _) |- _ =>
      apply constant_emission_tables in H; [|own_flow]
  | H : roce_tick _ _ _ _ _ _ _ _ _ = Some (Ok _) |- _ => apply roce_tick_tables in H; [|own_flow]
  end
with own_flow :=
  cbn [fst snd] in *;
  first [ solve_flow
        | match goal with Ht : tables ?h = _ |- table_flows (tables ?h) !! _ = _ =>
            rewrite Ht; solve_flow end ]
with chain_tables :=
  first
    [ match goal with H : tables _ = ?t |- tables _ = ?t => exact H end
    | reflexivity
    | match goal with H : tables ?x = tables ?y |- tables ?z = _ =>
        change (tables z) with (tables x); rewrite H; clear H; chain_tables end
    | apply tables_generator; [chain_tables|solve_flow]
    | eapply tables_receiver; [chain_tables|eassumption|apply tcp_receive_range_flow] ]
with solve_flow :=
  repeat table_fact; cbn [fst snd] in *;
  first
    [ match goal with H : table_flows _ !! _ = Some _ |- _ => etrans; [exact H|]; f_equal; flow_eq end
    | match goal with H : hs_generators ?h !! ?p = Some ?g |- table_flows ?t !! ?p = Some _ =>
        etrans; [apply (table_flows_lookup h t p g); [chain_tables|exact H]|]; f_equal; flow_eq end ].

Ltac leaf_table := solve [eauto 5 with tables].

Ltac walk := repeat (walk_step; cbn beta)
with walk_step :=
  lazymatch goal with
  | |- moves _ _ _ _ (let _ := _ in _) => cbv zeta
  | |- holds _ _ _ _ (let _ := _ in _) _ => cbv zeta
  | |- moves _ _ _ _ (match ?x with _ => _ end) => destruct_match x
  | |- holds _ _ _ _ (match ?x with _ => _ end) _ => destruct_match x
  | |- moves _ _ _ _ (mbind _ ?m) =>
      lazymatch m with
      | mbind _ _ => apply moves_assoc
      | done_with _ => apply moves_done_bind
      | unit_done => apply moves_done_bind
      | fail _ => eapply (moves_bind_holds _ _ _ _ _ _ (fun _ => False)); [apply holds_fail|intros ? []]
      | match ?x with _ => _ end => destruct_match x
      | _ =>
          first
            [ eapply moves_write_parts; [leaf_table|]
            | eapply moves_bind_holds; [leaf_table|intro_post]
            | eapply moves_bind; [leaf_table|intros ? ?]
            | eapply (moves_bind_holds _ _ _ _ _ _ (fun _ => True)); [by walk|intros ? _]
            | eapply moves_bind; [by walk|intros ? ?] ]
      end
  | |- holds _ _ _ _ (mbind _ ?m) _ =>
      lazymatch m with
      | mbind _ _ => apply holds_assoc
      | done_with _ => apply holds_done_bind
      | unit_done => apply holds_done_bind
      | fail _ => eapply (holds_bind _ _ _ _ _ _ (fun _ => False)); [apply holds_fail|intros ? []]
      | match ?x with _ => _ end => destruct_match x
      | _ =>
          first
            [ eapply holds_bind; [leaf_table|intro_post]
            | eapply (holds_bind _ _ _ _ _ _ (fun _ => True)); [by walk|intros ? _] ]
      end
  | |- moves _ _ _ _ (when _ _) => apply moves_when
  | |- moves _ _ _ _ (when_some _ _) => apply moves_when_some; intros ? ?
  | |- holds _ _ _ _ (when _ _) _ => apply holds_when
  | |- holds _ _ _ _ (when_some _ _) _ => apply holds_when_some; intros ? ?
  | |- holds _ _ _ _ (for_each _ _) _ => apply holds_for_each; intros ? ?
  | |- moves _ _ _ _ (done_with _) => apply moves_done
  | |- moves _ _ _ _ unit_done => apply moves_done
  | |- holds _ _ _ _ (done_with _) _ => apply holds_done
  | |- holds _ _ _ _ unit_done _ => apply holds_done
  | |- holds _ _ _ _ (fail _) _ => apply holds_fail
  | |- moves _ _ _ _ (fail _) => apply moves_fail
  | |- holds _ _ _ _ _ _ => first [leaf_table | eapply holds_weaken; [leaf_table|intro_post]]
  | |- moves _ _ _ _ _ => first [leaf_table | eapply holds_moves; leaf_table]
  end.

#[export] Hint Resolve holds_gets holds_attempt holds_some_or holds_unwrap holds_run
  holds_local_state_slot holds_host_state holds_host_parts holds_set_host holds_insert_child : tables.
#[export] Hint Extern 1 (tables _ = _) => solve_tables : tables.
#[export] Hint Extern 1 (table_flows _ !! _ = Some _) => solve_flow : tables.
(** The index of a host that keeps its tables, or after a stage was written. *)
Ltac solve_index :=
  repeat table_fact; cbn [fst snd] in *;
  first
    [ eassumption
    | match goal with H : index_ok ?h ?j ?i |- index_ok _ ?j ?i =>
        apply (index_ok_same h);
        [first [solve_tables
               |match goal with Ht : tables h = ?t |- _ => transitivity t; [solve_tables|symmetry; exact Ht] end]
        |exact H] end
    | eapply refresh_ok; [eassumption..|by eapply lookup_lt_Some|reflexivity|reflexivity]
    | match goal with H : complete_local_successors ?h ?i ?f ?c ?p = Some ?r |- index_ok _ ?j _ =>
        let Hok := fresh in
        assert (Hok : index_ok h j i) by (clear H; solve_index);
        apply (complete_local_successors_ok j h i f c p r Hok) in H; solve_index end
    | match goal with H : record_inbound_progress ?h ?i ?f ?c ?n ?p = Some (Ok ?r) |- index_ok _ ?j _ =>
        let Hok := fresh in
        assert (Hok : index_ok h j i) by (clear H; solve_index);
        apply (record_inbound_progress_ok j h i f c n p r Hok) in H; solve_index end ].

#[export] Hint Extern 1 (index_ok _ _ _) => solve_index : tables.

(** ** The steps the handlers share *)

Section primitives.
Context (nd : NodeDescriptor) (slot : nat) (joins : list FlowId) (parent : Event).

Ltac same_hosts := apply holds_modify; intros s; by split_and!.

Lemma holds_node t id : holds nd slot joins t (node id) (fun _ => True).
Proof. unfold node. by walk. Qed.
Lemma holds_link t id : holds nd slot joins t (link id) (fun _ => True).
Proof. unfold link. by walk. Qed.
Lemma holds_flow t id : holds nd slot joins t (flow id) (fun _ => True).
Proof. unfold flow. by walk. Qed.
Lemma holds_node_count t : holds nd slot joins t node_count (fun _ => True).
Proof. unfold node_count. by walk. Qed.
Lemma holds_resident t id : holds nd slot joins t (resident id) (fun _ => True).
Proof. unfold resident. by walk. Qed.
Lemma holds_put_resident t r : holds nd slot joins t (put_resident r) (fun _ => True).
Proof. same_hosts. Qed.
Lemma holds_update_resident t id r : holds nd slot joins t (update_resident id r) (fun _ => True).
Proof. same_hosts. Qed.
Lemma holds_remove_resident t id : holds nd slot joins t (remove_resident id) (fun _ => True).
Proof. same_hosts. Qed.
Lemma holds_set_summary t r : holds nd slot joins t (set_summary r) (fun _ => True).
Proof. same_hosts. Qed.
Lemma holds_cancel_superseded_timer t id payload deadline :
  holds nd slot joins t (cancel_superseded_timer id payload deadline) (fun _ => True).
Proof. same_hosts. Qed.
Lemma holds_set_segments t segments :
  holds nd slot joins t (modify (fun s => s <| ts_tcp_sent_segments := segments |>)) (fun _ => True).
Proof. same_hosts. Qed.
#[local] Hint Resolve holds_node holds_link holds_flow holds_node_count holds_resident
  holds_put_resident holds_update_resident holds_remove_resident holds_set_summary
  holds_cancel_superseded_timer holds_set_segments : tables.

Lemma holds_packet t id : holds nd slot joins t (packet id) (fun _ => True).
Proof. unfold packet. by walk. Qed.
#[local] Hint Resolve holds_packet : tables.
Lemma holds_packet_pfc_class t pk : holds nd slot joins t (packet_pfc_class pk) (fun _ => True).
Proof. unfold packet_pfc_class. by walk. Qed.
Lemma holds_packet_remote_target t id egress :
  holds nd slot joins t (packet_remote_target id egress) (fun _ => True).
Proof. unfold packet_remote_target, packet_remote_target_for. by walk. Qed.
Lemma holds_insert_packet t pk time : holds nd slot joins t (insert_packet pk time) (fun _ => True).
Proof. unfold insert_packet. by walk. Qed.
Lemma holds_set_source_time t id time : holds nd slot joins t (set_source_time id time) (fun _ => True).
Proof. unfold set_source_time. by walk. Qed.
Lemma holds_start_transmission t nid id :
  holds nd slot joins t (start_transmission nid id) (fun _ => True).
Proof. unfold start_transmission. by walk. Qed.
Lemma holds_finish_transmission t nid id :
  holds nd slot joins t (finish_transmission nid id) (fun _ => True).
Proof. unfold finish_transmission. by walk. Qed.
Lemma holds_mark_terminal t id : holds nd slot joins t (mark_terminal id) (fun _ => True).
Proof. unfold mark_terminal. by walk. Qed.
Lemma holds_record_sourced t nid pk : holds nd slot joins t (record_sourced nid pk) (fun _ => True).
Proof. unfold record_sourced, add_summary. by walk. Qed.
Lemma holds_record_departure t nid pk :
  holds nd slot joins t (record_departure nid pk) (fun _ => True).
Proof. unfold record_departure, add_summary. by walk. Qed.
Lemma holds_record_arrival t nid pk d :
  holds nd slot joins t (record_arrival nid pk d) (fun _ => True).
Proof. unfold record_arrival, add_summary. by walk. Qed.
Lemma holds_enqueue_source_packet t id :
  holds nd slot joins t (enqueue_source_packet nd id) (fun _ => True).
Proof. unfold enqueue_source_packet. by walk. Qed.
Lemma holds_emit_from_host t emission :
  holds nd slot joins t (emit_from_host nd parent emission) (fun _ => True).
Proof. unfold emit_from_host. by walk. Qed.
#[local] Hint Resolve holds_insert_packet holds_record_sourced holds_enqueue_source_packet
  holds_emit_from_host : tables.
Lemma holds_source_packet t pk time : holds nd slot joins t (source_packet nd pk time) (fun _ => True).
Proof. unfold source_packet. by walk. Qed.
Lemma holds_emit_host_ready t id : holds nd slot joins t (emit_host_ready nd parent id) (fun _ => True).
Proof. unfold emit_host_ready. by walk. Qed.
#[local] Hint Resolve holds_emit_host_ready : tables.
Lemma holds_schedule_host_ready t id :
  holds nd slot joins t (schedule_host_ready nd parent id) (fun _ => True).
Proof. unfold schedule_host_ready. by walk. Qed.
End primitives.

#[export] Hint Resolve holds_node holds_link holds_flow holds_node_count holds_resident
  holds_put_resident holds_update_resident holds_remove_resident holds_set_summary
  holds_cancel_superseded_timer holds_set_segments holds_packet holds_packet_pfc_class
  holds_packet_remote_target holds_insert_packet holds_set_source_time holds_start_transmission
  holds_finish_transmission holds_mark_terminal holds_record_sourced holds_record_departure
  holds_record_arrival holds_enqueue_source_packet holds_emit_from_host holds_source_packet
  holds_emit_host_ready holds_schedule_host_ready : tables.

(** ** The host handlers *)

Section handlers.
Context (nd : NodeDescriptor) (slot : nat) (joins : list FlowId) (parent : Event).

Lemma holds_seed_tcp_segments t packets :
  holds nd slot joins t (seed_tcp_segments packets) (fun _ => True).
Proof. unfold seed_tcp_segments. by walk. Qed.
#[local] Hint Resolve holds_seed_tcp_segments : tables.

Lemma holds_prepare_tcp_attempts t flow now retransmit fill preserve :
  holds nd slot joins t (prepare_tcp_attempts nd flow now retransmit fill preserve) (fun _ => True).
Proof. unfold prepare_tcp_attempts. by walk. Qed.

Lemma holds_install_tcp_attempts t plan :
  holds nd slot joins t (install_tcp_attempts nd parent plan) (fun _ => True).
Proof. unfold install_tcp_attempts. by walk. Qed.

Lemma holds_generator_parts t flow e :
  holds nd slot joins t (generator_parts nd flow e) (fun p => tables p.1.1.1 = t
    /\ index_ok p.1.1.1 joins p.1.1.2 /\ table_flows t !! p.1.2 = Some (fg_flow p.2)).
Proof. unfold generator_parts. walk. destruct H. split_and!; [done..|]. cbn in *. by eapply table_flows_lookup. Qed.

Lemma holds_set_generator t state position generator :
  tables state = t -> table_flows t !! position = Some (fg_flow generator) ->
  holds nd slot joins t (set_generator nd state position generator) (fun _ => True).
Proof. intros Ht Hf. unfold set_generator. apply holds_set_host. by apply tables_generator. Qed.
#[local] Hint Resolve holds_prepare_tcp_attempts holds_install_tcp_attempts
  holds_generator_parts holds_set_generator : tables.

(** *** Stages *)

Lemma holds_start_roce_stage t flow :
  holds nd slot joins t (start_roce_stage nd parent flow) (fun _ => True).
Proof. unfold start_roce_stage. by walk. Qed.

Lemma holds_start_compute_stage t flow duration size kind :
  holds nd slot joins t (start_compute_stage nd parent flow duration size kind) (fun _ => True).
Proof. unfold start_compute_stage. by walk. Qed.
#[local] Hint Resolve holds_start_roce_stage holds_start_compute_stage : tables.

Lemma holds_activate_wrapped_stage t flow :
  holds nd slot joins t (activate_wrapped_stage nd parent flow) (fun _ => True).
Proof. unfold activate_wrapped_stage. by walk. Qed.
#[local] Hint Resolve holds_activate_wrapped_stage : tables.

Lemma moves_activate_loop t fuel causes ordinal :
  moves nd slot joins t (activate_loop fuel nd parent causes ordinal).
Proof.
  revert t causes ordinal. induction fuel as [|fuel IH]; intros t causes ordinal; simpl;
    [by intros c a c' _ Hr|]. by walk.
Qed.
#[local] Hint Resolve moves_activate_loop : tables.

Lemma moves_release_stages t causes : moves nd slot joins t (release_stages nd parent causes).
Proof. unfold release_stages, activate_ready_collectives. by walk. Qed.

Lemma moves_complete_stage t flow ack origin data_bytes ack_bytes :
  moves nd slot joins t (complete_stage nd flow ack origin data_bytes ack_bytes).
Proof. unfold complete_stage. by walk. Qed.
#[local] Hint Resolve moves_release_stages moves_complete_stage : tables.

(** *** Sends *)

Lemma holds_host_preloaded_packet_arrival t :
  holds nd slot joins t (host_preloaded_packet_arrival nd parent) (fun _ => True).
Proof. unfold host_preloaded_packet_arrival. by walk. Qed.

Lemma holds_host_tcp_initial_send t pk header :
  holds nd slot joins t (host_tcp_initial_send nd parent pk header) (fun _ => True).
Proof. unfold host_tcp_initial_send. by walk. Qed.
#[local] Hint Resolve holds_host_preloaded_packet_arrival holds_host_tcp_initial_send : tables.

Lemma holds_host_packet_arrival t :
  holds nd slot joins t (host_packet_arrival nd parent) (fun _ => True).
Proof. unfold host_packet_arrival. by walk. Qed.

Lemma moves_host_compute_timer t flow : moves nd slot joins t (host_compute_timer nd parent flow).
Proof. unfold host_compute_timer. by walk. Qed.

Lemma moves_host_notify_timer t flow : moves nd slot joins t (host_notify_timer nd parent flow).
Proof. unfold host_notify_timer. by walk. Qed.

Lemma moves_host_notify_arrival t pk : moves nd slot joins t (host_notify_arrival nd parent pk).
Proof. unfold host_notify_arrival. by walk. Qed.

Lemma holds_host_pfc_search t pfc position queue :
  holds nd slot joins t (host_pfc_search pfc position queue) (fun _ => True).
Proof. revert position. induction queue as [|id queue IH]; intros position; simpl; by walk. Qed.
#[local] Hint Resolve holds_host_pfc_search : tables.

Lemma holds_host_pfc_first_eligible t :
  holds nd slot joins t (host_pfc_first_eligible nd) (fun _ => True).
Proof. unfold host_pfc_first_eligible. by walk. Qed.
#[local] Hint Resolve holds_host_pfc_first_eligible : tables.

Lemma holds_host_pfc_start_eligible t :
  holds nd slot joins t (host_pfc_start_eligible nd) (fun _ => True).
Proof. unfold host_pfc_start_eligible. by walk. Qed.

Lemma holds_host_pfc_claim_ready t : holds nd slot joins t (host_pfc_claim_ready nd) (fun _ => True).
Proof. unfold host_pfc_claim_ready. by walk. Qed.
#[local] Hint Resolve holds_host_pfc_start_eligible holds_host_pfc_claim_ready : tables.

Lemma holds_host_start_service t : holds nd slot joins t (host_start_service nd) (fun _ => True).
Proof. unfold host_start_service. by walk. Qed.
#[local] Hint Resolve holds_host_start_service : tables.

Lemma holds_host_tx_ready t : holds nd slot joins t (host_tx_ready nd parent) (fun _ => True).
Proof. unfold host_tx_ready. by walk. Qed.

Lemma holds_host_tx_complete t : holds nd slot joins t (host_tx_complete nd parent) (fun _ => True).
Proof. unfold host_tx_complete. by walk. Qed.
#[local] Hint Resolve moves_host_compute_timer moves_host_notify_timer
  moves_host_notify_arrival : tables.

(** *** TCP *)

Lemma moves_host_tcp_data_arrival t pk header :
  moves nd slot joins t (host_tcp_data_arrival nd parent pk header).
Proof. unfold host_tcp_data_arrival. by walk. Qed.

Lemma holds_acknowledge_tcp_segments t flow ack :
  holds nd slot joins t (acknowledge_tcp_segments flow ack) (fun _ => True).
Proof. unfold acknowledge_tcp_segments. by walk. Qed.
#[local] Hint Resolve holds_acknowledge_tcp_segments : tables.

Lemma moves_host_tcp_ack_arrival t pk header :
  moves nd slot joins t (host_tcp_ack_arrival nd parent pk header).
Proof. unfold host_tcp_ack_arrival. by walk. Qed.

Lemma holds_tcp_retransmission_timeout t state position generator tcp timer :
  tables state = t -> table_flows t !! position = Some (fg_flow generator) ->
  holds nd slot joins t
    (tcp_retransmission_timeout nd parent state position generator tcp timer) (fun _ => True).
Proof. intros Ht Hf. unfold tcp_retransmission_timeout. by walk. Qed.
#[local] Hint Resolve moves_host_tcp_data_arrival moves_host_tcp_ack_arrival
  holds_tcp_retransmission_timeout : tables.

(** *** Rates and DCQCN *)

Lemma holds_finish_tick t pk tick : holds nd slot joins t (finish_tick nd parent pk tick) (fun _ => True).
Proof. unfold finish_tick. by walk. Qed.
#[local] Hint Resolve holds_finish_tick : tables.

Lemma holds_host_rate_timer t pk : holds nd slot joins t (host_rate_timer nd parent pk) (fun _ => True).
Proof. unfold host_rate_timer. by walk. Qed.

Lemma holds_host_dcqcn_pacing_timer t pk :
  holds nd slot joins t (host_dcqcn_pacing_timer nd parent pk) (fun _ => True).
Proof. unfold host_dcqcn_pacing_timer. by walk. Qed.

Lemma holds_host_dcqcn_data_arrival t pk :
  holds nd slot joins t (host_dcqcn_data_arrival nd parent pk) (fun _ => True).
Proof. unfold host_dcqcn_data_arrival. by walk. Qed.

Lemma holds_host_dcqcn_cnp_arrival t pk :
  holds nd slot joins t (host_dcqcn_cnp_arrival nd parent pk) (fun _ => True).
Proof. unfold host_dcqcn_cnp_arrival. by walk. Qed.
#[local] Hint Resolve holds_host_rate_timer holds_host_dcqcn_pacing_timer
  holds_host_dcqcn_data_arrival holds_host_dcqcn_cnp_arrival : tables.

(** *** RoCE *)

Lemma holds_emit_roce_timers t token tick timer :
  holds nd slot joins t (emit_roce_timers nd parent token tick timer) (fun _ => True).
Proof. unfold emit_roce_timers. by walk. Qed.
#[local] Hint Resolve holds_emit_roce_timers : tables.

Lemma holds_host_roce_pacing_timer t pk :
  holds nd slot joins t (host_roce_pacing_timer nd parent pk) (fun _ => True).
Proof. unfold host_roce_pacing_timer. by walk. Qed.

Lemma moves_host_roce_feedback_arrival t pk header nack :
  moves nd slot joins t (host_roce_feedback_arrival nd parent pk header nack).
Proof. unfold host_roce_feedback_arrival. by walk. Qed.

Lemma holds_host_roce_timeout t : holds nd slot joins t (host_roce_timeout nd parent) (fun _ => True).
Proof. unfold host_roce_timeout. by walk. Qed.

Lemma moves_host_roce_data_arrival t pk header :
  moves nd slot joins t (host_roce_data_arrival nd parent pk header).
Proof. unfold host_roce_data_arrival. by walk. Qed.
#[local] Hint Resolve holds_host_roce_pacing_timer moves_host_roce_feedback_arrival
  holds_host_roce_timeout moves_host_roce_data_arrival : tables.

(** *** Routing *)

Lemma holds_host_pfc_ready t : holds nd slot joins t (host_pfc_ready nd) (fun _ => True).
Proof. unfold host_pfc_ready. by walk. Qed.
#[local] Hint Resolve holds_host_pfc_ready : tables.

Lemma holds_host_pfc_remote_arrival t header :
  holds nd slot joins t (host_pfc_remote_arrival nd parent header) (fun _ => True).
Proof. unfold host_pfc_remote_arrival. by walk. Qed.

Lemma holds_emit_feedback_driven_packet t flow size :
  holds nd slot joins t (emit_feedback_driven_packet nd parent flow size) (fun _ => True).
Proof. unfold emit_feedback_driven_packet. by walk. Qed.
#[local] Hint Resolve holds_host_pfc_remote_arrival holds_emit_feedback_driven_packet : tables.

Lemma holds_host_plain_arrival t pk descriptor :
  holds nd slot joins t (host_plain_arrival nd parent pk descriptor) (fun _ => True).
Proof. unfold host_plain_arrival. by walk. Qed.
#[local] Hint Resolve holds_host_plain_arrival : tables.

Lemma moves_host_remote_arrival t : moves nd slot joins t (host_remote_arrival nd parent).
Proof. unfold host_remote_arrival. by walk. Qed.

Lemma moves_host_pacing_timer t : moves nd slot joins t (host_pacing_timer nd parent).
Proof. unfold host_pacing_timer. by walk. Qed.

Lemma holds_host_retransmission_timeout t :
  holds nd slot joins t (host_retransmission_timeout nd parent) (fun _ => True).
Proof. unfold host_retransmission_timeout. by walk. Qed.
End handlers.

(** ** Dispatches and runs *)

Lemma dispatch_tables joins event c c' : dispatch event c = Some (Ok (tt, c')) ->
  exists nd, effect nd event c c' /\ (nd_kind nd = Host -> forall slot t,
    tabled nd slot joins t c -> exists t', tabled nd slot joins t' c').
Proof.
  intros Hd. destruct (dispatch_effect _ _ _ Hd) as (nd & Hnd & He). exists nd. split; [done|].
  apply bind_inv in Hd as (nd' & c1 & Hnode & Hr).
  apply bind_inv in Hnode as (image & c2 & [= <- <-] & Hnode). unfold attempt in Hnode.
  rewrite Hnd in Hnode. injection Hnode as <- <-.
  apply bind_inv in Hr as (handler & c2 & Hh & Hr). unfold some_or, attempt in Hh.
  destruct (resolve_transition (nd_kind nd) (kind event)) as [h|] eqn:Hk; [|done].
  injection Hh as -> ->. intros Hkind slot t Ht. unfold resolve_transition in Hk.
  rewrite Hkind in Hk. destruct (kind event); injection Hk as <-; cbn [run_handler] in Hr.
  - by eapply holds_moves; [apply holds_host_packet_arrival|..].
  - by eapply holds_moves; [apply holds_host_tx_ready|..].
  - by eapply holds_moves; [apply holds_host_tx_complete|..].
  - by eapply moves_host_remote_arrival.
  - by eapply holds_moves; [apply holds_host_retransmission_timeout|..].
  - by eapply moves_host_pacing_timer.
Qed.

(** Every host has an index, which answers for its tables. *)
Definition indices_ok (joins : list FlowId) (s : TransitionState) : Prop :=
  length (ts_host_indices s) = length (ts_hosts s)
  /\ forall slot h ix, ts_hosts s !! slot = Some h -> ts_host_indices s !! slot = Some ix ->
       index_ok h joins ix.

Lemma step_indices joins event s children timers s' : indices_ok joins s ->
  step event s = Some (Ok (children, timers, s')) -> indices_ok joins s'.
Proof.
  intros [Hlen Hok]. unfold step. intros ([ts c] & Hr & Hx)%fueled_bind_Ok. injection Hx as <- <- <-.
  apply bind_inv in Hr as ([] & [s1 cs] & Hd & Ht). injection Ht as <- <-. simpl.
  destruct (dispatch_tables joins _ _ _ Hd) as (nd & [Hf _] & Hmv). simpl in Hf.
  destruct (fr_hosts _ _ _ Hf) as [Hlh Hh], (fr_indices _ _ _ Hf) as [Hli Hi].
  split; [simpl; congruence|]. simpl. intros slot h ix Hhs His.
  destruct (decide (nd_kind nd = Host /\ slot_of nd s = Some slot)) as [[Hk Hs]|Hout].
  - destruct (lookup_lt_is_Some_2 (ts_hosts s) slot) as [h0 Hh0];
      [rewrite <- Hlh; by eapply lookup_lt_Some|].
    destruct (lookup_lt_is_Some_2 (ts_host_indices s) slot) as [ix0 Hi0];
      [rewrite <- Hli; by eapply lookup_lt_Some|].
    destruct (Hmv Hk slot (tables h0)) as (t' & _ & h1 & ix1 & Hh1 & Hi1 & _ & Hok1).
    { split; [done|]. simpl. exists h0, ix0. split_and!; [done..|]. by eapply Hok. }
    simpl in Hh1, Hi1. rewrite Hhs in Hh1. rewrite His in Hi1. by simplify_eq.
  - rewrite Hh in Hhs by tauto. rewrite Hi in His by tauto. by eapply Hok.
Qed.

Lemma transition_new_indices image s : transition_new image = Some (Ok s) ->
  indices_ok (im_stage_joins image) s.
Proof.
  unfold transition_new. intros H. invert_ok.
  match goal with H : ensure_pfc_orders _ _ = Some (Ok ?x) |- _ => destruct x as [[] c] end.
  match goal with H : ensure_pfc_orders _ _ = _ |- _ =>
    apply ensure_pfc_orders_orders in H as [orders Ho] end. simpl in *. rewrite Ho.
  split; simpl; [by rewrite length_fmap|]. intros slot h ix Hh Hi.
  rewrite list_lookup_fmap, Hh in Hi. injection Hi as <-. apply build_ok.
Qed.

Lemma reaches_indices image c : reaches image c -> indices_ok (im_stage_joins image) c.1.
Proof.
  induction 1 as [s P Hs _|e c c' _ IH _ Hf]; [by apply transition_new_indices|].
  unfold fire in Hf. apply fueled_bind_Ok in Hf as ([[cs ts] s'] & Hs & Hf).
  do 2 apply fueled_bind_Ok in Hf as (? & _ & Hf). injection Hf as <-. by eapply step_indices.
Qed.


(** A host with a compute stage about to finish, a stage that waits for it and one
    that waits for the bytes of flow 7. *)
Definition timed_generator (flow : FlowId) (status : GeneratorStatus) (time_ns : Z) : FlowGeneratorState :=
  mkGenerator flow 0 0 (mkEmission status time_ns 0) 0 (mkFeedback 0 0 0)
    (GenConstant (mkConstant 0 1 1 (Bytes 1))).

Definition compute_stage (local inbound : StagePredecessors) (bytes : Z) (activated : bool)
  : option CollectiveStage :=
  Some (mkStage (RoleCompute (mkCompute 1 1 0 10)) (mkDeps local inbound bytes 0 0) activated).

Definition staged_host : HostState :=
  mkHost 0 [] None false
    [timed_generator 0 Scheduled 10; timed_generator 1 Blocked 0; timed_generator 2 Blocked 0]
    [compute_stage PredNone PredNone 0 true; compute_stage (PredOne 0) PredNone 0 false;
     compute_stage PredNone (PredOne 7) 100 false]
    [] [] None None 1 1 0 0 0.

Definition stage_timer : Event := mkEvent (mkKey 10 (event_phase PacingTimer) 0 0) 0 PacingTimer 0.

Definition staged_image : SimulationImage :=
  mkImage 1000 [mkNode 0 Host 0] [staged_host] []
    [mkFlow 0 0 0 0 0 [] []; mkFlow 1 0 0 0 0 [] []; mkFlow 2 0 0 0 0 [] []]
    [mkPacket 0 0 0 false Data] [] [] [stage_timer] 0 [] [] [].

