(* ===== verification/WakeUps.v ===== *)
(** * No lost wake-ups

    Over a run of the simulator: the pending [TxReady] and [TxComplete] events of a
    node are exactly those its egress calls for, and a packet waiting at an open
    egress is never left without an event that serves it. *)

From Stdlib Require Import List.
From S2P Require Import Prelude OrdMap Event LinkTime ExecError Fel Tcp Model Image Radix Machine.
From S2P Require Import ScalarLoop Sched TcpLedger StageIndex Transition Dispatch Effects Wakes.
From S2P Require Import HostWakes SwitchHandlers SwitchWakes Validate SchedulerChecks ServiceChecks.
From S2P Require Import HostSend HostTcp Pacing HostRoce HostReceive Simulator.

(** ** The pending events of a node *)

Definition pending_of (k : EventKind) (n : NodeId) (P : pending) : list Event :=
  filter (fun e => kind e = k /\ target e = n) P.*2.

Lemma pending_of_elem k n P e : indexed P ->
  e ∈ pending_of k n P <-> pends e P /\ kind e = k /\ target e = n.
Proof.
  intros HP. unfold pending_of. rewrite list_elem_of_filter, list_elem_of_fmap. split.
  - intros [Hk ([k' x] & -> & Hin)]. apply indexed_pends in Hin as [_ Hx]; [|done]. done.
  - intros [He Hk]. split; [done|]. by exists (key e, e).
Qed.

Lemma indexed_NoDup P : indexed P -> NoDup P.*2.
Proof.
  intros HP. assert (Hk : P.*1 = key <$> P.*2).
  { rewrite <- list_fmap_compose. apply list_fmap_ext. intros i [k e] Hi.
    by apply (ix_key _ HP), (list_elem_of_lookup_2 _ i). }
  apply (NoDup_fmap_1 key). rewrite <- Hk. pose proof (ix_wf _ HP) as Hwf. unfold wf in Hwf.
  clear HP Hk. induction Hwf as [|k l _ IH Hall]; [constructor|]. constructor; [|done].
  intros Hin. rewrite Forall_forall in Hall. by apply (klt_irrefl k), Hall.
Qed.

Lemma pending_of_NoDup k n P : indexed P -> NoDup (pending_of k n P).
Proof. intros HP. by apply NoDup_filter, indexed_NoDup. Qed.

(** ** What a dispatch does to them *)

Section runs.
Context (image : SimulationImage) (Hvalid : image_valid image).

Lemma fire_inv e c c' : run_ok image c -> pends e c.2 -> fire e c = Some (Ok c') ->
  exists cs ts (out : list Event), step e c.1 = Some (Ok (cs, ts, c'.1)) /\ indexed c'.2
    /\ NoDup cs /\ (forall x, x ∈ cs -> ~ pends x c.2)
    /\ (forall x, x ∈ out -> kind x = RetransmissionTimeout)
    /\ forall x, pends x c'.2 <-> (pends x c.2 /\ x <> e /\ x ∉ out) \/ x ∈ cs.
Proof.
  intros Hok He Hf. pose proof (run_ok_fire image Hvalid _ _ _ Hok He Hf) as Hok'.
  destruct c as [s P], c' as [s' P']. unfold fire in Hf.
  apply fueled_bind_Ok in Hf as ([[cs ts] s1] & Hd & Hf).
  apply fueled_bind_Ok in Hf as (P1 & [= Ht] & Hf).
  apply fueled_bind_Ok in Hf as (P2 & [= Hc] & [= -> ->]). simpl in *.
  destruct (children_keys image Hvalid _ _ _ _ _ Hok Hd) as [Hnd Hfr].
  pose proof Hok as [Hi _ Htm Hix _]. simpl in *.
  destruct (step_effect _ _ _ _ _ Htm Hd) as (nd & Hnode & _ & _ & _ & _ & Hown).
  rewrite Hi in Hnode. apply image_node_Ok in Hnode as [_ Hid]; [|done].
  pose proof (indexed_remove _ (key e) Hix) as Hir.
  pose proof (remove_timers_local (target e) _ _ ts Hir Hir (fun _ _ => iff_refl _)) as Hrm.
  rewrite Ht in Hrm. destruct Hrm as (out & _ & (Hi1 & Ho1 & Hp1) & _).
  { intros t Htin. rewrite Forall_forall in Hown. rewrite <- Hid. by apply Hown. }
  assert (Hp2 : forall x, pends x P1 <-> pends x P /\ x <> e /\ x ∉ out).
  { intros x. rewrite Hp1, pends_remove by done. tauto. }
  destruct (insert_children_spec P1 cs Hi1 Hnd) as (P3 & HP3 & Hi3 & Hp3).
  { intros x y Hx (Hy & _)%Hp2. by apply Hfr. }
  rewrite Hc in HP3. injection HP3 as <-. exists cs, ts, out. split_and!; [done|done| | |by apply Ho1|].
  - by eapply NoDup_fmap_1.
  - intros x Hx Hp. by apply (Hfr x x Hx Hp).
  - intros x. rewrite Hp3, Hp2. done.
Qed.

Lemma pending_of_fire k n e P P' (cs out : list Event) :
  indexed P -> indexed P' -> k <> RetransmissionTimeout -> NoDup cs ->
  (forall x, x ∈ cs -> ~ pends x P) -> (forall x, x ∈ out -> kind x = RetransmissionTimeout) ->
  (forall x, pends x P' <-> (pends x P /\ x <> e /\ x ∉ out) \/ x ∈ cs) ->
  pending_of k n P' ≡ₚ filter (fun x => x <> e) (pending_of k n P)
                     ++ filter (fun x => kind x = k /\ target x = n) cs.
Proof using Type.
  intros HP HP' Hk Hcs Hfresh Hout Hp. apply NoDup_Permutation.
  - by apply pending_of_NoDup.
  - apply NoDup_app. split_and!; [by apply NoDup_filter, pending_of_NoDup| |by apply NoDup_filter].
    intros x [_ Hx]%list_elem_of_filter [_ Hc]%list_elem_of_filter.
    apply pending_of_elem in Hx as [Hx _]; [|done]. by apply (Hfresh x).
  - intros x. rewrite elem_of_app, !list_elem_of_filter, !pending_of_elem, Hp by done.
    split; [|naive_solver]. intros [[(H1 & H2 & H3)|H1] [H4 H5]]; [left|right]; naive_solver.
Qed.
End runs.

(** ** The egress invariant *)

Record egress_ok (n : NodeId) (v : Egress) (P : pending) : Prop := {
  eo_ready : length (pending_of TxReady n P) = Nat.b2n (eg_ready v);
  eo_complete : payload <$> pending_of TxComplete n P = option_list (eg_service v);
  eo_apart : is_Some (eg_service v) -> eg_ready v = false;
  eo_calm : calm v;
}.

(** What a handler of the node does to its egress, by the kind of the event. *)
Definition egress_step (e : Event) (v v' : Egress) (new : list Event) : Prop :=
  match kind e with
  | TxReady => served v' new
  | TxComplete => eg_service v = Some (payload e)
      /\ woken false Calmed (mkEgress (eg_queue v) None (eg_ready v) (eg_open v)) v' new
  | _ => woken false Calm v v' new
  end.

(** The driving children of a node, by kind. *)
Lemma driving_of k n (cs : list Event) : k = TxReady \/ k = TxComplete ->
  (forall x, x ∈ cs -> target x = n \/ kind x = RemoteArrival) ->
  filter (fun x => kind x = k /\ target x = n) cs = filter (fun x => kind x = k) (driving cs).
Proof.
  intros Hk Hcs. induction cs as [|x cs IH]; [done|].
  specialize (IH (fun y Hy => Hcs y ltac:(by right))). cbn [List.filter].
  destruct (drives x) eqn:Hd.
  - rewrite !filter_cons, IH. destruct (Hcs x ltac:(by left)) as [Ht|Ht].
    + by destruct (decide (kind x = k)); destruct (decide (kind x = k /\ target x = n)); naive_solver.
    + unfold drives, is_ready, is_complete in Hd. by rewrite Ht in Hd.
  - rewrite filter_cons_False; [done|]. intros [Hx _]. unfold drives, is_ready, is_complete in Hd.
    by destruct Hk as [->| ->]; rewrite Hx in Hd.
Qed.

Lemma filter_ready new : Forall (fun e => kind e = TxReady) new ->
  filter (fun x => kind x = TxReady) new = new /\ filter (fun x => kind x = TxComplete) new = [].
Proof.
  intros Hn. split.
  - apply filter_all. intros x Hx. rewrite Forall_forall in Hn. by apply Hn.
  - apply filter_none. intros x Hx Hc. rewrite Forall_forall in Hn. apply Hn in Hx. congruence.
Qed.

(** The pending events of one kind after a dispatch at the node. *)
Definition follows (n : NodeId) (e : Event) (new : list Event) (P P' : pending) : Prop :=
  forall k, k = TxReady \/ k = TxComplete ->
    pending_of k n P' ≡ₚ filter (fun x => x <> e) (pending_of k n P) ++ filter (fun x => kind x = k) new.

Section egress_steps.
Context (n : NodeId) (e : Event) (P P' : pending) (new : list Event).
Context (HP : indexed P) (He : pends e P) (Hn : target e = n) (Hf : follows n e new P P').

Lemma pending_other k : k = TxReady \/ k = TxComplete -> kind e <> k ->
  pending_of k n P' ≡ₚ pending_of k n P ++ filter (fun x => kind x = k) new.
Proof using HP Hf.
  intros Hk Hne. rewrite (Hf k Hk), filter_all; [done|].
  intros x (_ & Hx & _)%pending_of_elem; [|done]. congruence.
Qed.

Lemma pending_own k l : k = TxReady \/ k = TxComplete -> kind e = k ->
  pending_of k n P = l -> length l = 1%nat ->
  pending_of k n P' ≡ₚ filter (fun x => kind x = k) new /\ l = [e].
Proof using All.
  intros Hk Hke Hl Hlen. assert (Hin : e ∈ l) by (rewrite <- Hl; by apply pending_of_elem).
  destruct l as [|x [|]]; [done| |done]. apply list_elem_of_singleton in Hin as ->.
  split; [|done]. rewrite (Hf k Hk), Hl, filter_cons_False; [done|]. intros H. by apply H.
Qed.

Lemma perm_fmap_short {A B} (f : A -> B) l1 l2 : l1 ≡ₚ l2 -> (length l2 <= 1)%nat -> f <$> l1 = f <$> l2.
Proof using Type.
  intros Hp Hl. destruct l2 as [|x [|]]; [|by apply Permutation_singleton_r in Hp as ->|simpl in *; lia].
  by apply Permutation_nil_r in Hp as ->.
Qed.

Lemma option_list_short {A} (o : option A) : (length (option_list o) <= 1)%nat.
Proof using Type. destruct o; simpl; lia. Qed.

(** Handlers other than those of the service. *)
Lemma egress_ok_woken v v' : kind e <> TxReady -> kind e <> TxComplete ->
  egress_ok n v P -> woken false Calm v v' new -> egress_ok n v' P'.
Proof using HP Hf.
  intros H1 H2 [Hr Hc Ha Hcalm] [Ws Wr Wc Wi Wm]. destruct (filter_ready _ Wr) as [Hfr Hfc].
  pose proof (pending_other _ (or_introl eq_refl) H1) as Hpr.
  pose proof (pending_other _ (or_intror eq_refl) H2) as Hpc. rewrite Hfr in Hpr. rewrite Hfc, app_nil_r in Hpc.
  split; [| | |by apply Wm].
  - rewrite Hpr, length_app, Hr. simpl in Wc. lia.
  - rewrite Ws, <- Hc. apply perm_fmap_short; [done|]. rewrite <- (length_fmap payload), Hc. apply option_list_short.
  - rewrite Ws. intros Hs. apply not_true_iff_false. intros Ht.
    destruct (Wi Ht) as [Hv|Hv]; [by rewrite (Ha Hs) in Hv|]. rewrite Hv in Hs. by destruct Hs.
Qed.

Lemma egress_ok_served v v' : kind e = TxReady ->
  egress_ok n v P -> served v' new -> egress_ok n v' P'.
Proof using All.
  intros Hk [Hr Hc Ha Hcalm] [Sr Ss].
  assert (Hready : eg_ready v = true).
  { assert (Hin : e ∈ pending_of TxReady n P) by (by apply pending_of_elem).
    destruct (eg_ready v); [done|]. apply nil_length_inv in Hr. rewrite Hr in Hin.
    by apply not_elem_of_nil in Hin. }
  rewrite Hready in Hr. destruct (pending_own TxReady _ (or_introl eq_refl) Hk eq_refl Hr) as [Hpr _].
  assert (Hidle : eg_service v = None).
  { destruct (eg_service v); [|done]. rewrite Ha in Hready; by eauto. }
  pose proof (pending_other TxComplete (or_intror eq_refl) ltac:(congruence)) as Hpc.
  rewrite Hidle in Hc. apply fmap_nil_inv in Hc. rewrite Hc in Hpc. simpl in Hpc.
  destruct (eg_service v') as [id|] eqn:Hs'.
  - destruct Ss as (x & -> & Hx & Hp). 
    rewrite filter_cons_False in Hpr by congruence. rewrite filter_cons_True in Hpc by done. apply Permutation_nil_r in Hpr. apply Permutation_singleton_r in Hpc.
    split; [by rewrite Hpr, Sr|by rewrite Hpc, Hs'; simpl; f_equal|done|].
    left. right. by rewrite Hs'.
  - destruct Ss as (-> & Hcl). apply Permutation_nil_r in Hpr, Hpc.
    split; [by rewrite Hpr, Sr|by rewrite Hpc, Hs'|done|]. by right.
Qed.

Lemma egress_ok_completed v v' : kind e = TxComplete -> egress_ok n v P ->
  eg_service v = Some (payload e) ->
  woken false Calmed (mkEgress (eg_queue v) None (eg_ready v) (eg_open v)) v' new ->
  egress_ok n v' P'.
Proof using All.
  intros Hk [Hr Hc Ha Hcalm] Hs [Ws Wr Wc Wi Wm]. simpl in *.
  destruct (filter_ready _ Wr) as [Hfr Hfc]. rewrite Hs in Hc.
  pose proof (pending_other TxReady (or_introl eq_refl) ltac:(congruence)) as Hpr. rewrite Hfr in Hpr.
  assert (Hlen : length (pending_of TxComplete n P) = 1%nat) by (by rewrite <- (length_fmap payload), Hc).
  destruct (pending_own TxComplete _ (or_intror eq_refl) Hk eq_refl Hlen) as [Hpc _].
  rewrite Hfc in Hpc. apply Permutation_nil_r in Hpc.
  split; [rewrite Hpr, length_app, Hr; lia|by rewrite Hpc, Ws|by rewrite Ws; intros [? ?]|done].
Qed.

Lemma egress_ok_step v v' : egress_ok n v P -> egress_step e v v' new -> egress_ok n v' P'.
Proof using All.
  intros Hok Hs. unfold egress_step in Hs. destruct (kind e) eqn:Hk.
  all: first [by eapply egress_ok_served | destruct Hs; by eapply egress_ok_completed
             | eapply egress_ok_woken; [..|exact Hok|exact Hs]; congruence].
Qed.
End egress_steps.

(** ** Every handler keeps the invariant of its node *)

Lemma dispatch_egress e c c' nd v : dispatch e c = Some (Ok (tt, c')) ->
  image_node (ts_image (cx_state c)) (target e) = Ok nd -> node_egress nd (cx_state c) = Some v ->
  exists v' new, node_egress nd (cx_state c') = Some v'
    /\ driving (cx_children c') = driving (cx_children c) ++ new /\ egress_step e v v' new.
Proof.
  intros (nd' & c1 & Hnd & Hr)%bind_inv Hnode Hv.
  apply bind_inv in Hnd as (image & c2 & [= <- <-] & Hnd). unfold attempt in Hnd.
  rewrite Hnode in Hnd. injection Hnd as <- <-.
  apply bind_inv in Hr as (handler & c2 & Hh & Hr). unfold some_or, attempt in Hh.
  destruct (resolve_transition (nd_kind nd) (kind e)) as [h|] eqn:Hk; [|done].
  injection Hh as -> <-. unfold resolve_transition in Hk.
  assert (Hfaces : faces nd (slot_of nd (cx_state c)) (Some v) c) by done.
  assert (Hdrive : drive nd (slot_of nd (cx_state c)) (Some v) (run_handler handler nd e)
    (fun _ v' new => exists x, v' = Some x /\ egress_step e v x new)).
  { unfold egress_step. destruct (nd_kind nd) eqn:Hkind, (kind e); simplify_eq; cbn [run_handler].
    - by apply wakes_drive, wakes_host_packet_arrival.
    - by apply drive_host_tx_ready.
    - eapply drive_weaken; [by apply drive_host_tx_complete|]. intros [] v' new (Hs & x & -> & Hx). by exists x.
    - by apply wakes_drive, wakes_host_remote_arrival.
    - by apply wakes_drive, wakes_host_retransmission_timeout.
    - by apply wakes_drive, wakes_host_pacing_timer.
    - by apply drive_switch_tx_ready.
    - eapply drive_weaken; [by apply drive_switch_tx_complete|]. intros [] v' new (Hs & x & -> & Hx). by exists x.
    - by apply wakes_drive, wakes_switch_remote_arrival. }
  destruct (Hdrive _ _ _ Hfaces Hr) as (v' & new & [_ Hv'] & Hc & x & -> & Hx). by exists x, new.
Qed.

(** A switch without a queue handles no event. *)

Definition refuses {A} (c : Ctx) (m : transition A) : Prop := forall a c', m c <> Some (Ok (a, c')).

Lemma refuses_bind {A B} c (m : transition A) (f : A -> transition B) :
  reads m -> (forall a, m c = Some (Ok (a, c)) -> refuses c (f a)) -> refuses c (m ≫= f).
Proof.
  intros Hm Hf b c' (a & c1 & Ha & Hb)%bind_inv. pose proof (Hm _ _ _ Ha) as ->. by eapply Hf.
Qed.

Section reads.
Lemma reads_gets {A} (f : TransitionState -> A) : reads (gets f).
Proof. by intros c a c' [= _ <-]. Qed.
Lemma reads_attempt {A} (r : result ExecutionError A) : reads (attempt r).
Proof. destruct r; intros c x c' H; by inversion H. Qed.
Lemma reads_unwrap {A} (o : option A) : reads (unwrap o).
Proof. destruct o; intros c x c' H; by inversion H. Qed.
Lemma reads_some_or {A} (o : option A) e : reads (some_or o e).
Proof. destruct o; intros c x c' H; by inversion H. Qed.
Lemma reads_done {A} (a : A) : reads (done_with a).
Proof. by intros c b c' [= _ <-]. Qed.
Lemma reads_fail {A} e : reads (@fail A e).
Proof. by intros c b c' H. Qed.
End reads.

Create HintDb reading discriminated.
#[export] Hint Resolve reads_gets reads_attempt reads_unwrap reads_some_or reads_done reads_fail
  : reading.
Ltac reading :=
  repeat first [solve [eauto with reading] | apply reads_bind; [|intros ?] | case_match].

Lemma reads_packet id : reads (packet id).
Proof. unfold packet, resident. reading. Qed.
Lemma reads_packet_egress_at pk id : reads (packet_egress_at pk id).
Proof. unfold packet_egress_at, flow. reading. Qed.
Lemma reads_local_state_slot nd : reads (local_state_slot nd).
Proof. intros c i c' [-> _]%local_state_slot_inv. done. Qed.
Lemma reads_link id : reads (link id).
Proof. unfold link. reading. Qed.
#[export] Hint Resolve reads_packet reads_packet_egress_at reads_local_state_slot reads_link : reading.

Section queueless.
Context (nd : NodeDescriptor) (c : Ctx) (state : SwitchState).
Context (Hstate : forall s c', switch_state nd c = Some (Ok (s, c')) -> s = state /\ c' = c).
Context (Hempty : sw_queues state = []).

Lemma refuses_switch_queue {A} egress (f : SwitchState -> nat * SwitchQueueState -> transition A) :
  refuses c (state ← switch_state nd; r ← switch_queue nd state egress; f state r).
Proof using All.
  intros a c' (s & c1 & [-> ->]%Hstate & Hr)%bind_inv.
  apply bind_inv in Hr as (r & c1 & Hq & _). unfold switch_queue in Hq. rewrite Hempty in Hq.
  apply bind_inv in Hq as (i & c2 & Hi & _). done.
Qed.

Ltac reads_on := apply refuses_bind; [by reading|intros ? _].

Lemma refuses_tx_ready e : refuses c (switch_tx_ready nd e).
Proof using All.
  unfold switch_tx_ready, switch_egress. reads_on. reads_on. reads_on. apply refuses_switch_queue.
Qed.

Lemma refuses_tx_complete e : refuses c (switch_tx_complete nd e).
Proof using All.
  unfold switch_tx_complete, switch_egress. reads_on. reads_on. reads_on. apply refuses_switch_queue.
Qed.

Lemma refuses_remote_arrival e : refuses c (switch_remote_arrival nd e).
Proof using All.
  unfold switch_remote_arrival. reads_on. case_match; try
    (unfold switch_data_arrival; reads_on; reads_on;
     intros b c' (x & c1 & Hx & _)%bind_inv; unfold switch_sp_position in Hx;
     by apply refuses_switch_queue in Hx).
  unfold switch_pfc_remote_arrival. reads_on. apply refuses_switch_queue.
Qed.
End queueless.

(** ** The invariant of a run *)

Definition queueless (nd : NodeDescriptor) (s : TransitionState) : Prop :=
  nd_kind nd = Switch /\ exists slot state, slot_of nd s = Some slot
    /\ ts_switch_states s !! slot = Some state /\ sw_queues state = [].

Definition node_wakeful (nd : NodeDescriptor) (c : TransitionState * pending) : Prop :=
  (exists v, node_egress nd c.1 = Some v /\ egress_ok (nd_id nd) v c.2) \/ queueless nd c.1.

Lemma step_dispatch e s cs ts s' : step e s = Some (Ok (cs, ts, s')) ->
  exists s1, dispatch e (mkCtx s []) = Some (Ok (tt, mkCtx s1 cs))
    /\ s' = s1 <| ts_superseded_timers := [] |>.
Proof.
  unfold step. intros ([t c] & Hr & Hx)%fueled_bind_Ok. injection Hx as <- <- <-.
  apply bind_inv in Hr as ([] & [s1 cs] & Hd & Ht). injection Ht as <- <-. by exists s1.
Qed.

Lemma dispatch_queueless e c c' nd : queueless nd (cx_state c) ->
  image_node (ts_image (cx_state c)) (target e) = Ok nd -> dispatch e c <> Some (Ok (tt, c')).
Proof.
  intros (Hkind & slot & state & Hslot & Hst & Hq) Hnode (nd' & c1 & Hnd & Hr)%bind_inv.
  apply bind_inv in Hnd as (image & c2 & [= <- <-] & Hnd). unfold attempt in Hnd.
  rewrite Hnode in Hnd. injection Hnd as <- <-.
  apply bind_inv in Hr as (handler & c2 & Hh & Hr). unfold some_or, attempt in Hh.
  destruct (resolve_transition (nd_kind nd) (kind e)) as [h|] eqn:Hk; [|done].
  injection Hh as -> <-. unfold resolve_transition in Hk. rewrite Hkind in Hk.
  assert (Hstate : forall s c', switch_state nd c = Some (Ok (s, c')) -> s = state /\ c' = c).
  { intros s c2 (-> & i & Hi & Hs)%switch_state_inv. split; [|done]. congruence. }
  destruct (kind e); simplify_eq; cbn [run_handler] in Hr; revert Hr.
  - by eapply refuses_tx_ready.
  - by eapply refuses_tx_complete.
  - by eapply refuses_remote_arrival.
Qed.

Lemma egress_ok_perm n v P P' : (forall k, k = TxReady \/ k = TxComplete ->
    pending_of k n P' ≡ₚ pending_of k n P) -> egress_ok n v P -> egress_ok n v P'.
Proof.
  intros Hp [Hr Hc Ha Hcalm]. split; [by rewrite (Hp _ (or_introl eq_refl))| |done..].
  rewrite <- Hc. apply perm_fmap_short; [by apply Hp; right|].
  rewrite <- (length_fmap payload), Hc. apply option_list_short.
Qed.

Section run_wakeful.
Context (image : SimulationImage) (Hvalid : image_valid image).

Lemma node_egress_framed nd nd' s s' :
  nd ∈ im_nodes image -> nd' ∈ im_nodes image -> nd' <> nd -> ts_local_node s = None ->
  framed nd s s' -> node_egress nd' s' = node_egress nd' s /\ (queueless nd' s -> queueless nd' s').
Proof using Hvalid.
  intros Hnd Hnd' Hne Hlocal Hf.
  assert (Hslots : slot_of nd' s' = slot_of nd' s) by (unfold slot_of; by rewrite (fr_local _ _ _ Hf)).
  assert (Hslot : forall k, nd_kind nd' = k -> nd_kind nd = k ->
            slot_of nd s <> Some (Z.to_nat (nd_state_slot nd'))).
  { unfold slot_of. rewrite Hlocal. intros k Hk' Hk [= Hs]. apply Hne. symmetry.
    apply (slot_inj image Hvalid); congruence. }
  assert (Hat : slot_of nd' s = Some (Z.to_nat (nd_state_slot nd'))) by (unfold slot_of; by rewrite Hlocal).
  split.
  - unfold node_egress. rewrite Hslots, Hat. simpl. destruct (nd_kind nd') eqn:Hk; f_equal.
    + apply (fr_hosts _ _ _ Hf). by apply Hslot.
    + apply (fr_switches _ _ _ Hf). by apply Hslot.
  - intros (Hk & i & state & Hi & Hst & Hq). split; [done|]. exists i, state.
    rewrite Hslots. split_and!; [done| |done]. rewrite Hat in Hi. injection Hi as <-.
    rewrite (proj2 (fr_switches _ _ _ Hf)); [done|]. by apply Hslot.
Qed.

Lemma wakeful_fire e c c' nd : run_ok image c -> pends e c.2 -> fire e c = Some (Ok c') ->
  nd ∈ im_nodes image -> node_wakeful nd c -> node_wakeful nd c'.
Proof using Hvalid.
  intros Hok He Hf Hnd Hnode.
  destruct (fire_inv image Hvalid _ _ _ Hok He Hf) as (cs & ts & out & Hs & Hi' & Hcs & Hfresh & Hout & Hp).
  pose proof Hok as [Hi Hl Htm Hix _].
  destruct (step_effect _ _ _ _ _ Htm Hs) as (own & Hown & Hframe & _ & _ & Hchild & _).
  assert (Hown' := Hown). rewrite Hi in Hown'. apply image_node_Ok in Hown' as [Hin Hid]; [|done].
  assert (Hfollow : forall k n, k = TxReady \/ k = TxComplete ->
    pending_of k n c'.2 ≡ₚ filter (fun x => x <> e) (pending_of k n c.2)
                         ++ filter (fun x => kind x = k /\ target x = n) cs).
  { intros k n Hk. eapply pending_of_fire; eauto. by destruct Hk; subst. }
  assert (Hcs' : forall x, x ∈ cs -> target x = nd_id own \/ kind x = RemoteArrival).
  { intros x Hx. rewrite Forall_forall in Hchild. by apply Hchild in Hx as [_ _ _ ?]. }
  destruct (decide (nd = own)) as [->|Hne].
  - destruct (step_dispatch _ _ _ _ _ Hs) as (s1 & Hd & Hs1).
    destruct Hnode as [(v & Hv & Hv')|Hq]; [|by eapply dispatch_queueless in Hd].
    destruct (dispatch_egress _ _ _ _ _ Hd Hown Hv) as (v' & new & Hv1 & Hdr & Hstep). simpl in *.
    left. exists v'. split; [by rewrite Hs1|].
    eapply (egress_ok_step (nd_id own) e c.2 c'.2 new); eauto.
    intros k Hk. by rewrite (Hfollow k _ Hk), (driving_of _ _ _ Hk Hcs'), Hdr.
  - destruct (node_egress_framed own nd c.1 c'.1 Hin Hnd Hne Hl Hframe) as [Hsame Hq].
    destruct Hnode as [(v & Hv & Hv')|Hq']; [|by right; auto].
    left. exists v. rewrite Hsame. split; [done|]. eapply egress_ok_perm; [|done].
    assert (Hids : nd_id nd <> nd_id own).
    { intros Heq. apply Hne. pose proof (proj2 (image_node_Ok image Hvalid _ nd) (conj Hnd eq_refl)) as H1.
      rewrite Heq, Hid, <- Hi, Hown in H1. by injection H1. }
    intros k Hk. rewrite (Hfollow k _ Hk), filter_all, filter_none, app_nil_r; [done| |].
    + intros x Hx [Hkx Htx]. destruct (Hcs' x Hx); [congruence|]. destruct Hk; congruence.
    + intros x (_ & _ & Hx)%pending_of_elem; [|done]. intros ->. congruence.
Qed.
End run_wakeful.
