(* ===== verification/Liveness.v ===== *)
(** * Waiting packets are served

    A validated image starts with the service events its egresses call for, so the
    invariant of [WakeUps] holds at every configuration a run reaches: of every host,
    and of every switch none of whose initial service events names a PFC frame. The
    checks do not refuse such an event, and [pfc_service_unchecked] shows the image
    that loses it. *)

From Stdlib Require Import List.
From S2P Require Import Prelude OrdMap Event LinkTime ExecError Fel Tcp Model Image Radix Machine.
From S2P Require Import ScalarLoop Sched TcpLedger StageIndex Transition Dispatch Effects Wakes.
From S2P Require Import SwitchHandlers SwitchWakes Validate SchedulerChecks ServiceChecks.
From S2P Require Import Simulator WakeUps.

Lemma fueled_fold_each {E A B} (f : A -> B -> fueled E A) l a b x :
  fueled_fold f a l = Some (Ok b) -> x ∈ l -> exists a' b', f a' x = Some (Ok b').
Proof.
  revert a. induction l as [|y l IH]; intros a; [set_solver|]. cbn [fueled_fold].
  intros (a1 & Ha & Hr)%fueled_bind_Ok [->|Hx]%elem_of_cons; [by exists a, a1|]. by eapply IH.
Qed.

Lemma fueled_fold_unit {E B} (f : B -> fueled E unit) l x :
  fueled_fold (fun _ => f) tt l = Some (Ok tt) -> x ∈ l -> f x = Some (Ok tt).
Proof. intros Hf%fueled_units. rewrite Forall_forall in Hf. apply Hf. Qed.

(** ** The initial events of an egress *)

(** The initial events of an egress, of one kind. *)
Definition events_at (image : SimulationImage) (k : EventKind) (at_egress : egress_key)
    (l : list Event) : list Event :=
  filter (fun e => kind e = k /\ service_key image e = Some at_egress) l.

Definition found (at_egress : egress_key) (events : bmap egress_key ServiceEvents) : ServiceEvents :=
  default no_events (bm_get at_egress events).

Section events.
Context (image : SimulationImage).

Lemma found_insert k k' v events :
  found k (bm_insert k' v events) = if decide (k' = k) then v else found k events.
Proof.
  unfold found. case_decide as Hk; [subst; by rewrite bm_get_insert_eq|by rewrite bm_get_insert_ne].
Qed.

Lemma record_service_event_found k m e m' : record_service_event image m e = Some (Ok m') ->
  ev_ready_count (found k m') = ev_ready_count (found k m)
      + Z.of_nat (length (events_at image TxReady k [e]))
  /\ ev_completions (found k m') = ev_completions (found k m)
      ++ (payload <$> events_at image TxComplete k [e])
  /\ (kind e = TxReady \/ kind e = TxComplete -> is_Some (service_key image e)).
Proof.
  unfold record_service_event, events_at. rewrite !filter_cons, !filter_nil.
  destruct (kind e) eqn:Hk; intros H.
  2, 3: apply fueled_bind_Ok in H as (k' & Hkey & H); apply (proj1 (or_panic_Ok _ _)) in Hkey;
    injection H as <-; rewrite found_insert; fold (found k' m).
  all: repeat (case_decide as Hd; [|]); subst; simpl; rewrite ?app_nil_r, ?Z.add_0_r;
    split_and!; try done; try naive_solver congruence.
  all: rewrite ?decide_True by done; rewrite ?decide_False by naive_solver;
    by rewrite ?app_nil_r, ?Z.add_0_r.
Qed.

Lemma record_events_found k l m m' :
  fueled_fold (record_service_event image) m l = Some (Ok m') ->
  ev_ready_count (found k m') = ev_ready_count (found k m)
      + Z.of_nat (length (events_at image TxReady k l))
  /\ ev_completions (found k m') = ev_completions (found k m)
      ++ (payload <$> events_at image TxComplete k l).
Proof.
  revert m. induction l as [|e l IH]; intros m; cbn [fueled_fold].
  { intros [= <-]. simpl. by rewrite app_nil_r, Z.add_0_r. }
  intros (m1 & H1 & H2)%fueled_bind_Ok. destruct (IH _ H2) as [-> ->].
  destruct (record_service_event_found k _ _ _ H1) as (-> & -> & _).
  change (e :: l) with ([e] ++ l). unfold events_at. rewrite !filter_app, length_app, fmap_app, app_assoc.
  split; [lia|done].
Qed.
End events.

(** ** The initial pending events *)

Lemma inserted_perm (l : list Event) (P P' : pending) : wf P ->
  try_fold map_insert P l = Ok P' -> P'.*2 ≡ₚ P.*2 ++ l.
Proof.
  revert P. induction l as [|x l IH]; intros P Hwf; cbn [try_fold].
  { intros [= <-]. by rewrite app_nil_r. }
  intros (P1 & Hx & HP')%bind_Ok. unfold map_insert in Hx.
  destruct (bm_get (key x) P) eqn:Eg; [done|]. injection Hx as <-.
  rewrite (IH _ (bm_insert_wf _ _ _ Hwf) HP'), (bm_insert_perm (key x) x P) by done. simpl.
  by rewrite Permutation_middle.
Qed.

Lemma initial_pending_perm image P : initial_pending image = Ok P ->
  P.*2 ≡ₚ im_initial_events image.
Proof. intros HP. apply (inserted_perm _ [] _ (wf_nil) HP). Qed.

Lemma filter_iff_elem {A} (P Q : A -> Prop) `{!forall x, Decision (P x), !forall x, Decision (Q x)}
    (l : list A) : (forall x, x ∈ l -> P x <-> Q x) -> filter P l = filter Q l.
Proof.
  induction l as [|x l IH]; intros Hl; [done|].
  rewrite !filter_cons, IH by (intros; apply Hl; set_solver).
  pose proof (Hl x ltac:(by left)). by repeat case_decide; try tauto.
Qed.

(** The invariant of an egress from the checks of its events. *)
Lemma egress_ok_initial image P nd eg v events :
  initial_pending image = Ok P ->
  fueled_fold (record_service_event image) [] (im_initial_events image) = Some (Ok events) ->
  (forall e, e ∈ im_initial_events image -> kind e = TxReady \/ kind e = TxComplete ->
     service_key image e = Some (nd_id nd, eg) <-> target e = nd_id nd) ->
  check_egress_events events (nd_id nd) eg (eg_ready v) (eg_service v) = Some (Ok tt) ->
  (is_Some (eg_service v) -> eg_ready v = false) -> calm v -> egress_ok (nd_id nd) v P.
Proof.
  intros HP Hev Hkey Hc Ha Hcalm. destruct (record_events_found image (nd_id nd, eg) _ _ _ Hev) as [Hr Hs].
  assert (Hp : forall k, k = TxReady \/ k = TxComplete -> pending_of k (nd_id nd) P
     ≡ₚ events_at image k (nd_id nd, eg) (im_initial_events image)).
  { intros k Hk. unfold pending_of, events_at. rewrite (initial_pending_perm _ _ HP).
    apply reflexive_eq, filter_iff_elem. intros e He. split; intros [Hke Ht]; (split; [done|]);
      apply (Hkey e He); first [done|by rewrite Hke]. }
  unfold check_egress_events in Hc. fold (found (nd_id nd, eg) events) in Hc.
  apply fueled_bind_Ok in Hc as ([] & Hflag & Hcomp). 
  rewrite Hr in Hflag. rewrite Hs in Hcomp. cbn [found bm_get default no_events ev_ready_count ev_completions app] in Hflag, Hcomp.
  split; [| |done..].
  - rewrite (Hp TxReady) by auto. unfold validate_ready_flag in Hflag.
    destruct (1 <? _) eqn:H1; [done|]. destruct (Bool.eqb _ _) eqn:H2; [|done].
    apply eqb_prop in H2. rewrite H2.
    destruct (0 + Z.of_nat _ =? 1) eqn:H3; cbn [Nat.b2n]; lia.
  - assert (Hl : payload <$> events_at image TxComplete (nd_id nd, eg) (im_initial_events image)
                 = option_list (eg_service v)).
    { unfold validate_completion_state in Hcomp.
      destruct (eg_service v); by apply require_iff, bool_decide_eq_true in Hcomp. }
    rewrite <- Hl. apply perm_fmap_short; [auto|].
    rewrite <- (length_fmap payload), Hl. apply option_list_short.
Qed.

(** ** What the checks say of a node *)

(** Whether some initial service event of a switch names a PFC frame. The frame is
    never queued, so no queue of the switch need serve the link its event leaves
    through, and no check of [validate] refuses the event. *)
Definition serves_pfc (image : SimulationImage) (nd : NodeDescriptor) : bool :=
  bool_decide (nd_kind nd = Switch) && existsb (fun e => drives e && (target e =? nd_id nd)
    && match validated_packet image (payload e) with
       | Some packet => is_pfc (pk_kind packet)
       | None => false
       end) (im_initial_events image).

(** The checks of [validate] on the service state, for any backend. *)
Record service_valid (image : SimulationImage) : Prop := {
  sv_owned : exists backend,
    validate_owned_service_state image backend = Some (Ok tt);
  sv_consistent : validate_service_event_consistency image = Some (Ok tt);
}.

Lemma host_pfc_eligible_false image pfc queue :
  host_pfc_eligible image pfc queue = Some (Ok false) ->
  none_paused (hp_paused_by_controller pfc) = false \/ queue = [].
Proof.
  destruct queue as [|id queue]; [by right|]. cbn [host_pfc_eligible].
  destruct (payload_priority image id) as [class|]; [|done].
  intros ([] & Hp & Hr)%fueled_bind_Ok; [|done]. left.
  apply (proj1 (or_panic_Ok _ _)) in Hp. unfold host_is_paused in Hp.
  destruct (hp_paused_by_controller pfc !! class) as [cs|] eqn:E; [|done]. injection Hp as Hp.
  eapply none_paused_class; [exact E|]. by intros ->.
Qed.

Lemma queue_eligible_false image pfc queue : queue_eligible image pfc queue = Some (Ok false) ->
  (exists p, pfc = Some p /\ none_paused (pq_paused_by_controller p) = false) \/ queue = [].
Proof.
  destruct queue as [|id queue]; [by right|]. cbn [queue_eligible].
  intros (class & _ & H)%fueled_bind_Ok. apply fueled_bind_Ok in H as ([] & Hp & Hr); [|done].
  destruct pfc as [pfc|]; [|done]. left. exists pfc. split; [done|].
  apply (proj1 (or_panic_Ok _ _)) in Hp. by eapply queue_is_paused_open.
Qed.

(** The flags of an egress that passed its checks. *)
Lemma flags_calm (v : Egress) (eligible : bool) :
  bool_decide (is_Some (eg_service v)) && eg_ready v = false ->
  eligible && bool_decide (eg_service v = None) && negb (eg_ready v) = false ->
  (eligible = false -> eg_open v = false \/ eg_queue v = []) ->
  (is_Some (eg_service v) -> eg_ready v = false) /\ calm v.
Proof.
  intros H1 H2 He. split.
  - intros Hs. by rewrite bool_decide_true in H1.
  - destruct (eg_service v) as [id|] eqn:Hs; [left; right; by rewrite Hs|].
    destruct (eg_ready v) eqn:Hr; [left; by left|].
    destruct eligible; [done|]. right. by apply He.
Qed.

Section start.
Context (image : SimulationImage) (Hvalid : image_valid image).

Lemma validated_node_of nd : nd ∈ im_nodes image -> validated_node image (nd_id nd) = Some nd.
Proof using Hvalid.
  intros [i Hi]%list_elem_of_lookup.
  pose proof (so_nodes _ (proj1 (validate_structure_ok image) (iv_structure _ Hvalid)) _ _ Hi) as Hid.
  unfold validated_node. by rewrite Hid, Nat2Z.id, Hi; simpl; rewrite Hid, Z.eqb_refl.
Qed.

Lemma host_service_start nd : nd_kind nd = Host -> check_host_service image nd = Some (Ok tt) ->
  exists state, im_host_states image !! Z.to_nat (nd_state_slot nd) = Some state
    /\ (is_Some (hs_in_service state) -> hs_tx_ready_pending state = false)
    /\ calm (host_egress state).
Proof using Type.
  intros Hk Hc. unfold check_host_service in Hc.
  apply fueled_bind_Ok in Hc as (state & Hs%(proj1 (or_panic_Ok _ _)) & Hc). exists state. split; [done|].
  apply fueled_bind_Ok in Hc as (egress & _ & Hc). destruct (negb _); [done|].
  apply fueled_bind_Ok in Hc as (_ & _ & Hc). apply fueled_bind_Ok in Hc as (_ & _ & Hc).
  destruct (_ && _) eqn:H1 in Hc; [done|]. destruct (_ && _) eqn:H0 in Hc; [done|]. clear H0.
  apply fueled_bind_Ok in Hc as (eligible & He & Hc). destruct (_ && _ && _) eqn:H2 in Hc; [done|].
  apply (flags_calm (host_egress state) eligible H1 H2). intros ->. cbn. unfold host_eligible in He.
  destruct (hs_pfc state) as [pfc|]; [by eapply host_pfc_eligible_false|].
  right. injection He as He. by apply negb_false_iff, bool_decide_eq_true in He.
Qed.

Lemma switch_queue_start backend nd s i queue s' :
  check_switch_queue image backend nd s (i, queue) = Some (Ok s') ->
  is_Some (sq_egress_link queue)
  /\ (is_Some (sq_in_service queue) -> sq_tx_ready_pending queue = false)
  /\ calm (queue_egress queue).
Proof using Type.
  intros Hc. unfold check_switch_queue in Hc. destruct s as [egresses owners].
  apply fueled_bind_Ok in Hc as (_ & _ & Hc).
  apply fueled_bind_Ok in Hc as (egress & Heg & Hc). apply (proj1 (lift_result_Ok _ _)), ok_or_Ok in Heg.
  split; [by rewrite Heg|]. cbn [bs_insert] in Hc. destruct (negb _); [done|].
  destruct (bm_get _ _); [done|]. apply fueled_bind_Ok in Hc as (lk & _ & Hc).
  destruct (negb _); [done|]. do 4 apply fueled_bind_Ok in Hc as (_ & _ & Hc).
  destruct (_ && _) eqn:H1 in Hc; [done|]. destruct (_ && _) eqn:H0 in Hc; [done|]. clear H0.
  apply fueled_bind_Ok in Hc as (eligible & He & Hc). destruct (_ && _ && _) eqn:H2 in Hc; [done|].
  apply (flags_calm (queue_egress queue) eligible H1 H2). intros ->. cbn.
  destruct (queue_eligible_false _ _ _ He) as [(p & Hp & Hn)|Hq]; [left|by right].
  unfold queue_open. by rewrite Hp, Hn, andb_false_r.
Qed.

Lemma nodes_of_elem k nd : nd ∈ nodes_of image k <-> nd ∈ im_nodes image /\ nd_kind nd = k.
Proof using Type. unfold nodes_of. rewrite list_elem_of_filter. tauto. Qed.

(** The link a service event leaves through has its queue at the event's node. *)
Lemma event_egress_owned backend e egress :
  validate_owned_service_state image backend = Some (Ok tt) ->
  (forall packet, validated_packet image (payload e) = Some packet -> is_pfc (pk_kind packet) = false) ->
  event_egress image e = Some egress ->
  exists link source, validated_link image egress = Some link /\ lk_source link = target e
    /\ validated_node image (target e) = Some source
    /\ check_emission_link image egress = Some (Ok tt).
Proof using Type.
  intros Hown Hpfc He. unfold validate_owned_service_state in Hown.
  do 2 apply fueled_bind_Ok in Hown as (? & _ & Hown).
  apply fueled_bind_Ok in Hown as (links & Hl%(proj1 (or_panic_Ok _ _)) & Hown).
  unfold event_egress in He. apply bind_Some in He as (packet & Hp & He).
  apply bind_Some in He as (flow & Hf & He). unfold flow_egress_at in He.
  apply find_some in He as [Hin%list_elem_of_In Hsrc].
  destruct (validated_link image egress) as [link|] eqn:Hlink; [|done]. apply Z.eqb_eq in Hsrc.
  assert (Hpos : egress ∈ links).
  { unfold possible_emission_links in Hl. apply bind_Some in Hl as (generated & _ & [= <-]).
    apply foldr_bs_add_elem, elem_of_app. left. apply list_elem_of_In, in_flat_map. exists packet.
    rewrite <- list_elem_of_In, list_elem_of_filter, Hf.
    unfold validated_packet in Hp. pose proof Hp as Hp'. apply find_some in Hp as [Hp%list_elem_of_In _].
    split; [|by apply list_elem_of_In]. split; [by apply Hpfc|done]. }
  pose proof (fueled_fold_unit _ _ _ Hown Hpos) as Hc. exists link.
  pose proof Hc as Hc'. unfold check_emission_link in Hc'. rewrite Hlink in Hc'. simpl in Hc'.
  apply fueled_bind_Ok in Hc' as (source & Hs%(proj1 (or_panic_Ok _ _)) & _).
  exists source. rewrite <- Hsrc. done.
Qed.

(** At a switch with one queue, the service events are that queue's. *)
Lemma switch_event_key backend nd state queue e egress :
  validate_owned_service_state image backend = Some (Ok tt) ->
  (forall packet, validated_packet image (payload e) = Some packet -> is_pfc (pk_kind packet) = false) ->
  nd ∈ im_nodes image -> nd_kind nd = Switch ->
  im_switch_states image !! Z.to_nat (nd_state_slot nd) = Some state -> sw_queues state = [queue] ->
  event_egress image e = Some egress -> target e = nd_id nd -> sq_egress_link queue = Some egress.
Proof using Hvalid.
  intros Hown Hpfc Hnd Hk Hst Hq He Ht.
  destruct (event_egress_owned _ _ _ Hown Hpfc He) as (link & source & Hlink & Hsrc & Hnode & Hc).
  rewrite Ht, (validated_node_of nd Hnd) in Hnode. injection Hnode as <-.
  unfold check_emission_link in Hc. rewrite Hlink in Hc. simpl in Hc.
  rewrite Hsrc, Ht, (validated_node_of nd Hnd) in Hc. simpl in Hc. rewrite Hk, Hst in Hc. simpl in Hc.
  apply require_iff in Hc. rewrite Hq in Hc. simpl in Hc. rewrite orb_false_r in Hc.
  by apply bool_decide_eq_true in Hc.
Qed.

Lemma service_key_target e k : service_key image e = Some k ->
  exists nd, validated_node image (target e) = Some nd /\ k.1 = nd_id nd /\ target e = nd_id nd
    /\ match nd_kind nd with
       | Host => k.2 = None
       | Switch => exists egress, event_egress image e = Some egress /\ k.2 = Some egress
       end.
Proof using Type.
  unfold service_key. destruct (validated_node image (target e)) as [nd|] eqn:E; [|done]. simpl.
  exists nd. apply validated_node_elem in E as [_ E].
  destruct (nd_kind nd); [injection H as <-; done|].
  apply bind_Some in H as (egress & He & [= <-]). split_and!; [done..|]. by exists egress.
Qed.


Lemma serves_pfc_elem nd e packet : serves_pfc image nd = false -> nd_kind nd = Switch ->
  e ∈ im_initial_events image -> kind e = TxReady \/ kind e = TxComplete -> target e = nd_id nd ->
  validated_packet image (payload e) = Some packet -> is_pfc (pk_kind packet) = false.
Proof using Type.
  unfold serves_pfc. intros Hpk Hk He%list_elem_of_In Hke Ht Hp. rewrite Hk, bool_decide_true in Hpk by done. cbn [andb] in Hpk.
  destruct (is_pfc (pk_kind packet)) eqn:E; [|done]. rewrite <- Hpk. symmetry. apply existsb_exists.
  exists e. split; [done|]. rewrite Hp, E, Ht, Z.eqb_refl. unfold drives, is_ready, is_complete.
  by destruct Hke as [->| ->].
Qed.

Lemma slot_of_new s nd : transition_new image = Some (Ok s) ->
  slot_of nd s = Some (Z.to_nat (nd_state_slot nd)) /\ ts_hosts s = im_host_states image
  /\ ts_switch_states s = im_switch_states image.
Proof using Type.
  intros (_ & Hl & _ & Hh & Hw)%transition_new_fields. split_and!; [|done..].
  unfold slot_of. by rewrite Hl.
Qed.

Section node_start.
Context (s : TransitionState) (P : pending) (nd : NodeDescriptor) (events : bmap egress_key ServiceEvents).
Context (Hs : transition_new image = Some (Ok s)) (HP : initial_pending image = Ok P).
Context (Hnd : nd ∈ im_nodes image).
Context (Hev : fueled_fold (record_service_event image) [] (im_initial_events image) = Some (Ok events)).

Lemma host_wakeful_new : nd_kind nd = Host -> check_host_service image nd = Some (Ok tt) ->
  check_host_events image events nd = Some (Ok tt) -> node_wakeful nd (s, P).
Proof using All.
  intros Hk Hc Hce. destruct (slot_of_new s nd Hs) as (Hslot & Hh & _).
  destruct (host_service_start nd Hk Hc) as (state & Hst & Ha & Hcalm).
  left. exists (host_egress state). split.
  { unfold node_egress. cbn [fst]. rewrite Hslot, Hk, Hh. simpl. by rewrite Hst. }
  unfold check_host_events in Hce. rewrite Hst in Hce. simpl in Hce.
  eapply (egress_ok_initial image P nd None); [done|exact Hev| |done..].
  intros e He Hke. split.
  - intros (nd' & _ & Hid & Ht & _)%service_key_target. simpl in Hid. congruence.
  - intros Ht. unfold service_key. rewrite Ht, (validated_node_of nd Hnd). simpl. by rewrite Hk.
Qed.

(** The service events of a node with one queue are those of the queue's egress. *)
Lemma queue_event_key backend state queue egress e :
  validate_owned_service_state image backend = Some (Ok tt) -> serves_pfc image nd = false ->
  nd_kind nd = Switch -> im_switch_states image !! Z.to_nat (nd_state_slot nd) = Some state ->
  sw_queues state = [queue] -> sq_egress_link queue = Some egress ->
  e ∈ im_initial_events image -> kind e = TxReady \/ kind e = TxComplete ->
  service_key image e = Some (nd_id nd, Some egress) <-> target e = nd_id nd.
Proof using Hvalid Hnd Hev.
  intros Hown Hpk Hk Hst Hq Heg He Hke. split.
  - intros (nd' & _ & Hid & Ht & _)%service_key_target. simpl in Hid. congruence.
  - intros Ht. destruct (fueled_fold_each _ _ _ _ _ Hev He) as (a & b & Hab).
    destruct (record_service_event_found image (0, None) _ _ _ Hab) as (_ & _ & Hsome).
    destruct (Hsome Hke) as [k Hkey]. rewrite Hkey.
    destruct (service_key_target e k Hkey) as (nd' & Hnode & Hk1 & Ht' & Hk2).
    rewrite Ht, (validated_node_of nd Hnd) in Hnode. injection Hnode as <-.
    rewrite Hk in Hk2. destruct Hk2 as (eg & He' & Hk2). destruct k as [k1 k2]; simpl in *. subst.
    f_equal. f_equal. rewrite <- Heg. symmetry.
    eapply (switch_event_key backend nd state queue e); try done.
    intros packet. by eapply serves_pfc_elem.
Qed.

Lemma switch_wakeful_new backend o o' :
  validate_owned_service_state image backend = Some (Ok tt) -> serves_pfc image nd = false ->
  nd_kind nd = Switch -> check_switch_service image backend o nd = Some (Ok o') ->
  check_switch_events image events nd = Some (Ok tt) -> node_wakeful nd (s, P).
Proof using All.
  intros Hown Hpk Hk Hc Hce. destruct (slot_of_new s nd Hs) as (Hslot & _ & Hw).
  unfold check_switch_service in Hc.
  apply fueled_bind_Ok in Hc as (state & Hst%(proj1 (or_panic_Ok _ _)) & Hc).
  unfold check_switch_events in Hce. rewrite Hst in Hce. simpl in Hce.
  destruct (sw_queues state) as [|queue [|]] eqn:Hq; [| |done].
  { right. split; [done|]. exists (Z.to_nat (nd_state_slot nd)), state. simpl. by rewrite Hw. }
  left. exists (queue_egress queue). split.
  { unfold node_egress. cbn [fst]. rewrite Hslot, Hk, Hw. simpl. rewrite Hst. simpl.
    unfold switch_egress_view. by rewrite Hq. }
  apply fueled_bind_Ok in Hc as (r & Hr & _). apply fueled_bind_Ok in Hr as (r' & Hr & _).
  destruct (switch_queue_start _ _ _ _ _ _ Hr) as ([egress Heg] & Ha & Hcalm).
  apply fueled_bind_Ok in Hce as ([] & Hce & _). rewrite Heg in Hce.
  eapply (egress_ok_initial image P nd (Some egress)); [done|exact Hev| |done..].
  intros e He Hke. by eapply queue_event_key.
Qed.
End node_start.

(** The invariant at the start of a run. *)
Lemma node_wakeful_new s P nd : service_valid image -> serves_pfc image nd = false ->
  transition_new image = Some (Ok s) -> initial_pending image = Ok P ->
  nd ∈ im_nodes image -> node_wakeful nd (s, P).
Proof using Hvalid.
  intros [(backend & Hown) Hcons] Hpk Hs HP Hnd.
  pose proof Hown as Hown'. unfold validate_owned_service_state in Hown'.
  apply fueled_bind_Ok in Hown' as ([] & Hhosts & Hown').
  apply fueled_bind_Ok in Hown' as (owners & Hswitches & _).
  unfold validate_service_event_consistency in Hcons.
  apply fueled_bind_Ok in Hcons as (events & Hev & Hcons).
  apply fueled_bind_Ok in Hcons as ([] & Hhe & Hcons). apply fueled_bind_Ok in Hcons as ([] & Hse & _).
  destruct (nd_kind nd) eqn:Hk.
  - assert (Hin : nd ∈ nodes_of image Host) by by apply nodes_of_elem.
    eapply host_wakeful_new; eauto using fueled_fold_unit.
  - assert (Hin : nd ∈ nodes_of image Switch) by by apply nodes_of_elem.
    destruct (fueled_fold_each _ _ _ _ _ Hswitches Hin) as (o & o' & Hc).
    eapply switch_wakeful_new; eauto using fueled_fold_unit.
Qed.
End start.

Lemma reaches_wakeful image c nd : image_valid image -> service_valid image -> reaches image c ->
  nd ∈ im_nodes image -> serves_pfc image nd = false -> node_wakeful nd c.
Proof.
  intros Hv Hsv Hr Hnd Hpk. induction Hr as [s P Hs HP|e c c' Hr IH He Hf].
  - by eapply node_wakeful_new.
  - eapply wakeful_fire; [done|by apply reaches_run_ok|done..].
Qed.

(** C4. No wake-up is lost: a packet that waits at an egress which may send is always
    about to be served. From an image that passes the structural checks and the
    checks of the service state, take any number of pending events in any order. At
    every configuration reached, for every host, and for every switch with its queue
    none of whose initial service events names a PFC frame ([pfc_service_unchecked]
    is about the others): the pending [TxReady] events of the node are one when its
    flag is set and none otherwise; its pending [TxComplete] events name exactly the
    packet in service, so a handler never finds an egress busy or serving another
    packet; and if a packet waits while the egress is open, one of these events is
    pending. When no event is pending, every open egress is idle with an empty
    queue. *)
Theorem no_lost_wakeups image c nd v :
  image_valid image -> service_valid image -> reaches image c ->
  nd ∈ im_nodes image -> serves_pfc image nd = false -> node_egress nd c.1 = Some v ->
  length (pending_of TxReady (nd_id nd) c.2) = Nat.b2n (eg_ready v)
  /\ payload <$> pending_of TxComplete (nd_id nd) c.2 = option_list (eg_service v)
  /\ (pending_of TxReady (nd_id nd) c.2 <> [] -> eg_service v = None)
  /\ (eg_open v = true -> eg_queue v <> [] ->
       pending_of TxReady (nd_id nd) c.2 <> [] \/ pending_of TxComplete (nd_id nd) c.2 <> [])
  /\ (c.2 = [] -> eg_open v = true -> eg_queue v = [] /\ eg_service v = None).
Proof.
  intros Hv Hsv Hr Hnd Hpk Hv'.
  destruct (reaches_wakeful image c nd Hv Hsv Hr Hnd Hpk) as [(v1 & Hv1 & [Hre Hco Ha Hc])|Hq].
  2:{ destruct Hq as (Hk & slot & state & Hs & Hst & Hq). unfold node_egress in Hv'.
      rewrite Hs, Hk in Hv'. simpl in Hv'. rewrite Hst in Hv'. simpl in Hv'.
      unfold switch_egress_view in Hv'. by rewrite Hq in Hv'. }
  rewrite Hv1 in Hv'. injection Hv' as ->.
  assert (Hwake : eg_open v = true -> eg_queue v <> [] ->
    pending_of TxReady (nd_id nd) c.2 <> [] \/ pending_of TxComplete (nd_id nd) c.2 <> []).
  { intros Ho Hq. destruct Hc as [[Hw|[id Hw]]|[Hw|Hw]]; [| |congruence|congruence].
    - left. intros Hn. by rewrite Hn, Hw in Hre.
    - right. intros Hn. by rewrite Hn, Hw in Hco. }
  split_and!; [done..| |done|].
  - intros Hne. destruct (eg_service v) as [id|] eqn:Hs; [|done]. rewrite Ha in Hre by eauto.
    by apply nil_length_inv in Hre.
  - intros Hn Ho. rewrite Hn in Hwake, Hco. split.
    + destruct (eg_queue v); [done|]. by destruct Hwake as [H|H].
    + by destruct (eg_service v).
Qed.

Lemma pair_image_service : service_valid pair_image.
Proof. split; [by exists Scalar|reflexivity..]. Qed.

(** The source host, with its packet queued and its [TxReady] pending. *)
Lemma no_lost_wakeups_witness :
  exists c v, reaches pair_image c /\ node_egress (mkNode 0 Host 0) c.1 = Some v
    /\ eg_queue v = [0] /\ eg_open v = true
    /\ (pending_of TxReady 0 c.2 <> [] \/ pending_of TxComplete 0 c.2 <> []).
Proof.
  assert (Hr : reaches pair_image (pair_state, [(key first_event, first_event)]))
    by (constructor; vm_compute; reflexivity).
  destruct (fire first_event (pair_state, [(key first_event, first_event)])) as [[c|]|] eqn:Hf;
    [|vm_compute in Hf; discriminate Hf..].
  assert (Hr' : reaches pair_image c) by (eapply reaches_fire; [exact Hr|by left|exact Hf]).
  vm_compute in Hf. injection Hf as <-.
  eexists _, _. split; [exact Hr'|]. split; [reflexivity|]. split; [reflexivity|]. split; [reflexivity|].
  destruct (no_lost_wakeups pair_image _ (mkNode 0 Host 0) _ pair_image_valid pair_image_service Hr'
              ltac:(by left) eq_refl eq_refl) as (_ & _ & _ & Hw & _).
  by apply Hw.
Defined.

(** ** A service event that names a PFC frame *)

Definition stray_ready : Event := mkEvent (mkKey 20 (event_phase TxReady) 2 0) 2 TxReady 0.

(** Two hosts and a switch whose queue serves the link to host 1. A PFC frame is on
    its way to host 0, and a [TxReady] at the switch names it. *)
Definition stray_image : SimulationImage :=
  mkImage 1000 [mkNode 0 Host 0; mkNode 1 Host 1; mkNode 2 Switch 0] [idle_host 0 0; idle_host 2 0]
    [mkSwitch 0 [mkSwitchQueue (Some 1) Fifo 0 TailDrop None [] None false] 2 0 0 0]
    [mkFlow 0 0 1 0 0 [0; 1] [2; 3]] [mkPacket 0 0 64 false (Pfc (mkPfcHeader 0 0 true))]
    [mkLink 0 0 2 8000000000 5; mkLink 1 2 1 8000000000 5; mkLink 2 1 2 8000000000 5;
     mkLink 3 2 0 8000000000 5] []
    [stray_ready; mkEvent (mkKey 30 (event_phase RemoteArrival) 2 1) 0 RemoteArrival 0]
    0 [] [] [].

(** The checks accept a [TxReady] that names a PFC frame at a switch with no queue for
    the link the frame's route leaves through: the link is no possible emission, and
    the event is counted at an egress no queue has. At the start of the run the event
    is pending while the switch's flag is down, and its handler fails. *)
Theorem pfc_service_unchecked :
  image_valid stray_image /\ service_valid stray_image
  /\ check_service_event stray_image 0 stray_ready = passed
  /\ exists s P v, reaches stray_image (s, P)
       /\ node_egress (mkNode 2 Switch 0) s = Some v /\ eg_ready v = false
       /\ pending_of TxReady 2 P = [stray_ready]
       /\ fire stray_ready (s, P) = Some (Err (MissingSwitchQueue 2 (Some 3))).
Proof.
  split; [by split|].
  split; [split; [by exists Scalar|reflexivity]|].
  split; [reflexivity|].
  destruct (transition_new stray_image) as [[s|]|] eqn:Hs; [|vm_compute in Hs; discriminate Hs..].
  destruct (initial_pending stray_image) as [P|] eqn:HP; [|vm_compute in HP; discriminate HP].
  assert (Hr : reaches stray_image (s, P)) by by constructor.
  vm_compute in Hs, HP. injection Hs as <-. injection HP as <-.
  eexists _, _, _. split; [exact Hr|]. by vm_compute.
Qed.
