(* ===== verification/Graphs.v ===== *)
(** * Graphs and walks (src/topos)

    The topology builders and the router work on [petgraph]'s [UnGraph<usize, ()>]. Its
    operations are an interface here ([Graph]) with the behaviour its documentation
    states ([GraphLaws]); [EdgeList] implements it. A node is its index, and node
    weights are carried but never read. *)

From S2P Require Import Prelude.
#[local] Open Scope nat_scope.

(** ** Sorting *)

Section sort.
Context {A : Type} (leb : A -> A -> bool).

(** Before the first element that is not below it: equal elements keep their order. *)
Fixpoint insert_by (x : A) (l : list A) : list A :=
  match l with
  | [] => [x]
  | y :: l' => if leb x y then x :: l else y :: insert_by x l'
  end.

(** A stable sort ([slice::sort_by_key]); [slice::sort_unstable] agrees with it where
    elements that compare equal are equal. *)
Definition sort_by (l : list A) : list A := foldr insert_by [] l.

Lemma insert_by_perm x l : insert_by x l ≡ₚ x :: l.
Proof.
  induction l as [|y l IH]; simpl; [done|]. destruct (leb x y); [done|]. rewrite IH. constructor.
Qed.

Lemma sort_by_perm l : sort_by l ≡ₚ l.
Proof. induction l as [|x l IH]; simpl; [done|]. by rewrite insert_by_perm, IH. Qed.

Context (Htotal : forall x y, leb x y = false -> leb y x = true).
Context (Htrans : forall x y z, leb x y = true -> leb y z = true -> leb x z = true).

Lemma insert_by_sorted x l : StronglySorted (fun x y => leb x y = true) l ->
  StronglySorted (fun x y => leb x y = true) (insert_by x l).
Proof using Htotal Htrans.
  induction 1 as [|y l Hs IH Hy]; simpl; [by repeat constructor|]. destruct (leb x y) eqn:E.
  - constructor; [by constructor|]. constructor; [done|]. eapply Forall_impl; [exact Hy|]. eauto.
  - constructor; [done|]. rewrite insert_by_perm. constructor; [by apply Htotal|done].
Qed.

Lemma sort_by_sorted l : StronglySorted (fun x y => leb x y = true) (sort_by l).
Proof using Htotal Htrans. induction l as [|x l IH]; simpl; [constructor|]. by apply insert_by_sorted. Qed.
End sort.

(** The lexicographic order of pairs. *)
Definition pair_leb (x y : nat * nat) : bool :=
  (x.1 <? y.1) || ((x.1 =? y.1) && (x.2 <=? y.2)).

(** ** Walks *)

Section walks.
Context (adjacent : nat -> nat -> Prop).

(** The nodes of a walk, endpoints included. *)
Inductive Walk : nat -> nat -> list nat -> Prop :=
| Walk_one x : Walk x x [x]
| Walk_cons x y z p : adjacent x y -> Walk y z p -> Walk x z (x :: p).

Definition shortest (x y : nat) (p : list nat) : Prop :=
  Walk x y p /\ forall q, Walk x y q -> length p <= length q.

Lemma Walk_pos x y p : Walk x y p -> 1 <= length p.
Proof. destruct 1; simpl; lia. Qed.

Lemma Walk_snoc x y z p : Walk x y p -> adjacent y z -> Walk x z (p ++ [z]).
Proof.
  induction 1 as [x|x w y p Hxw _ IH]; intros Hyz; simpl.
  - eapply Walk_cons; [done|constructor].
  - eapply Walk_cons; [done|by apply IH].
Qed.

(** The last step of a walk. *)
Lemma Walk_last x z p : Walk x z p ->
  p = [x] /\ x = z \/ exists y q, p = q ++ [z] /\ Walk x y q /\ adjacent y z.
Proof.
  induction 1 as [x|x w z p Hxw Hw IH]; [by left|right].
  destruct IH as [[-> ->]|(y & q & -> & Hq & Hyz)].
  - exists x, [x]. split_and!; [done|constructor|done].
  - exists y, (x :: q). split_and!; [done|by eapply Walk_cons|done].
Qed.
End walks.

Lemma Walk_mono (adj adj' : nat -> nat -> Prop) x y p :
  (forall a b, adj a b -> adj' a b) -> Walk adj x y p -> Walk adj' x y p.
Proof. intros H. induction 1; [constructor|]. eapply Walk_cons; eauto. Qed.

Lemma Walk_mono_in (P : nat -> Prop) (adj adj' : nat -> nat -> Prop) x y p :
  (forall a b, P a -> adj a b -> adj' a b /\ P b) -> P x -> Walk adj x y p -> Walk adj' x y p.
Proof.
  intros HP Hx Hw. induction Hw as [|x w y p Hxw _ IH]; [constructor|]. destruct (HP _ _ Hx Hxw) as [Ha Hw].
  eapply Walk_cons; [done|by apply IH].
Qed.

Lemma shortest_iff (adj adj' : nat -> nat -> Prop) x y p :
  (forall a b, adj a b <-> adj' a b) -> shortest adj x y p -> shortest adj' x y p.
Proof.
  intros H [Hw Hm]. split; [eapply Walk_mono, Hw; naive_solver|].
  intros q Hq. apply Hm. eapply Walk_mono, Hq. naive_solver.
Qed.

(** ** The graph interface *)

Class Graph (G : Type) := {
  empty_graph : G;
  add_node : G -> nat -> G;
  add_edge : G -> nat -> nat -> G;
  from_edges : list (nat * nat) -> G;
  (** the weights, in index order *)
  node_weights : G -> list nat;
  (** the endpoints of the edges, in insertion order *)
  edge_references : G -> list (nat * nat);
  contains_edge : G -> nat -> nat -> bool;
  (** [astar] with every edge at cost 1 and no heuristic *)
  astar : G -> nat -> nat -> option (nat * list nat);
}.

Definition node_count `{Graph G} (g : G) : nat := length (node_weights g).
Definition edge_count `{Graph G} (g : G) : nat := length (edge_references g).

(** The nodes an edge list needs. *)
Definition edges_node_count (edges : list (nat * nat)) : nat :=
  foldr (fun e n => Nat.max (S (Nat.max e.1 e.2)) n) 0 edges.

Definition adjacent `{Graph G} (g : G) (x y : nat) : Prop :=
  (x, y) ∈ edge_references g \/ (y, x) ∈ edge_references g.

Class GraphLaws (G : Type) `{Graph G} := {
  empty_weights : node_weights (empty_graph (G := G)) = [];
  empty_edges : edge_references (empty_graph (G := G)) = [];
  add_node_weights (g : G) w : node_weights (add_node g w) = node_weights g ++ [w];
  add_node_edges (g : G) w : edge_references (add_node g w) = edge_references g;
  add_edge_weights (g : G) a b : a < node_count g -> b < node_count g ->
    node_weights (add_edge g a b) = node_weights g;
  add_edge_edges (g : G) a b : a < node_count g -> b < node_count g ->
    edge_references (add_edge g a b) = edge_references g ++ [(a, b)];
  from_edges_weights l : node_weights (from_edges (G := G) l) = replicate (edges_node_count l) 0;
  from_edges_edges l : edge_references (from_edges (G := G) l) = l;
  edges_in_range (g : G) a b : (a, b) ∈ edge_references g -> a < node_count g /\ b < node_count g;
  contains_edge_spec (g : G) a b : contains_edge g a b = true <-> adjacent g a b;
  astar_some (g : G) a b cost p : astar g a b = Some (cost, p) ->
    shortest (adjacent g) a b p /\ length p = S cost;
  astar_none (g : G) a b p : a < node_count g -> astar g a b = None -> ~ Walk (adjacent g) a b p;
}.

(** ** The canonical graph (route.rs) *)

Definition canonical_edge (e : nat * nat) : nat * nat := (Nat.min e.1 e.2, Nat.max e.1 e.2).

Definition canonical_routing_graph `{Graph G} (graph : G) : G :=
  let canonical := foldl add_node empty_graph (node_weights graph) in
  let edges := sort_by pair_leb (canonical_edge <$> edge_references graph) in
  foldl (fun g e => add_edge g e.1 e.2) canonical edges.

Section canonical.
Context `{HG : Graph G} `{HL : !GraphLaws G}.

Lemma fold_nodes (ws : list nat) : forall g : G,
  node_weights (foldl add_node g ws) = node_weights g ++ ws
  /\ edge_references (foldl add_node g ws) = edge_references g.
Proof using HL.
  induction ws as [|w ws IH]; intros g; simpl; [by rewrite app_nil_r|].
  destruct (IH (add_node g w)) as [-> ->]. rewrite add_node_weights, add_node_edges. by rewrite <- app_assoc.
Qed.

Lemma fold_edges (es : list (nat * nat)) : forall g : G,
  Forall (fun e => e.1 < node_count g /\ e.2 < node_count g) es ->
  node_weights (foldl (fun g e => add_edge g e.1 e.2) g es) = node_weights g
  /\ edge_references (foldl (fun g e => add_edge g e.1 e.2) g es) = edge_references g ++ es.
Proof using HL.
  induction es as [|[a b] es IH]; intros g He; simpl; [by rewrite app_nil_r|].
  apply Forall_cons in He as [[Ha Hb] He]. simpl in *.
  assert (Hw : node_weights (add_edge g a b) = node_weights g) by by apply add_edge_weights.
  destruct (IH (add_edge g a b)) as [-> ->].
  - unfold node_count. by rewrite Hw.
  - rewrite Hw, add_edge_edges by done. by rewrite <- app_assoc.
Qed.

(** The canonical graph has the same nodes, and its edges sorted and oriented. *)
Lemma canonical_spec (g : G) :
  node_weights (canonical_routing_graph g) = node_weights g
  /\ edge_references (canonical_routing_graph g) = sort_by pair_leb (canonical_edge <$> edge_references g).
Proof using HL.
  unfold canonical_routing_graph. destruct (fold_nodes (node_weights g) (empty_graph (G := G))) as [Hw He].
  rewrite empty_weights in Hw. rewrite empty_edges in He.
  set (c := foldl add_node _ _) in *. destruct (fold_edges (sort_by pair_leb (canonical_edge <$> edge_references g)) c)
    as [-> ->]; [|by rewrite Hw, He].
  rewrite sort_by_perm. apply Forall_fmap, Forall_forall. intros [a b] Hab. apply edges_in_range in Hab.
  unfold node_count, compose, canonical_edge in *. rewrite Hw. simpl in *. lia.
Qed.

Lemma canonical_adjacent (g : G) x y : adjacent (canonical_routing_graph g) x y <-> adjacent g x y.
Proof using HL.
  unfold adjacent. rewrite (proj2 (canonical_spec g)), !sort_by_perm, !list_elem_of_fmap.
  unfold canonical_edge. split.
  - intros [([a b] & E & Hab)|([a b] & E & Hab)]; simpl in E; injection E as -> ->;
      destruct (Nat.min_spec a b) as [[? ->]|[? ->]], (Nat.max_spec a b) as [[? ->]|[? ->]]; auto;
      by (assert (a = b) as -> by lia; auto).
  - intros [H|H]; [set (e := (x, y)) in H|set (e := (y, x)) in H];
      destruct (Nat.le_ge_cases x y); [left|right|left|right]; exists e; (split; [simpl; f_equal; lia|done]).
Qed.

Lemma canonical_node_count (g : G) : node_count (canonical_routing_graph g) = node_count g.
Proof using HL. unfold node_count. by rewrite (proj1 (canonical_spec g)). Qed.

Lemma canonical_edge_count (g : G) : edge_count (canonical_routing_graph g) = edge_count g.
Proof using HL.
  unfold edge_count. by rewrite (proj2 (canonical_spec g)), sort_by_perm, length_fmap.
Qed.
End canonical.
