(* ===== verification/BestFirst.v ===== *)
(** * The uniform-cost best-first search (src/topos/route.rs)

    [FatTreeSearch::search] and [path_from_came_from], over any enumeration of the
    neighbours of a node. The search can stop when it pops its target or run until its
    heap is empty; both leave predecessors from which a route is read. The heap is an
    interface: [MinScoredNode] compares scores alone, so which of two nodes with equal
    scores comes first is the heap's choice. A search probe that counts work for tests
    is left out, and the mark [usize::MAX] of a node without a predecessor is [None]. *)

From S2P Require Import Prelude Graphs.
#[local] Open Scope nat_scope.

(** ** Scored nodes *)

Record MinScoredNode := mkScored {
  ms_score : nat * nat * nat;
  ms_node : nat;
}.

Definition score_ltb (a b : nat * nat * nat) : bool :=
  let '(a1, a2, a3) := a in
  let '(b1, b2, b3) := b in
  (a1 <? b1) || ((a1 =? b1) && ((a2 <? b2) || ((a2 =? b2) && (a3 <? b3)))).

Definition scored_cmp (x y : MinScoredNode) : comparison :=
  if bool_decide (ms_score x = ms_score y) then Eq
  else if score_ltb (ms_score x) (ms_score y) then Gt
  else Lt.

(** [BinaryHeap<MinScoredNode>]. *)
Class NodeHeap (H : Type) := {
  nh_empty : H;
  nh_push : MinScoredNode -> H -> H;
  nh_pop : H -> option (MinScoredNode * H);
  nh_into_vec : H -> list MinScoredNode;
}.

Class NodeHeapLaws (H : Type) `{NodeHeap H} := {
  nh_empty_vec : nh_into_vec nh_empty = [];
  nh_push_vec x h : nh_into_vec (nh_push x h) ≡ₚ x :: nh_into_vec h;
  nh_pop_max x h h' : nh_pop h = Some (x, h') ->
    nh_into_vec h ≡ₚ x :: nh_into_vec h' /\ forall y, y ∈ nh_into_vec h -> scored_cmp y x <> Gt;
  nh_pop_None h : nh_pop h = None -> nh_into_vec h = [];
}.

(** ** The search *)

Section search.
Context {H : Type} `{HH : NodeHeap H}.
Context (neighbours : nat -> list nat).

(** [scores], [came_from] and [visit_next]. *)
Definition search_state : Type := list (option (nat * nat * nat)) * list (option nat) * H.

(** [None] is the panic of an index out of range. *)
Definition push_neighbor (node g : nat) (s : search_state) (neigh : nat) : option search_state :=
  let '(scores, came_from, visit_next) := s in
  old ← scores !! neigh;
  let neigh_g := g + 1 in
  let neigh_score := (neigh_g, 0, neigh_g) in
  if match old with Some (_, _, old_neigh_g) => old_neigh_g <=? neigh_g | None => false end
  then Some s
  else Some (<[neigh := Some neigh_score]> scores, <[neigh := Some node]> came_from,
             nh_push (mkScored neigh_score neigh) visit_next).

Definition search_step (stop : option nat) (s : search_state)
  : search_state + option (bool * search_state) :=
  let '(scores, came_from, visit_next) := s in
  match nh_pop visit_next with
  | None => inr (Some (false, s))
  | Some (mkScored (f, h, g) node, visit_next) =>
      if bool_decide (Some node = stop) then inr (Some (true, (scores, came_from, visit_next)))
      else
        match scores !! node with
        | None => inr None
        | Some old =>
            if match old with Some (_, _, old_g) => old_g <? g | None => false end
            then inl (scores, came_from, visit_next)
            else
              match fold_option (push_neighbor node g)
                      (<[node := Some (f, h, g)]> scores, came_from, visit_next)
                      (neighbours node) with
              | Some s => inl s
              | None => inr None
              end
        end
  end.

(** The arrays and the heap a search begins with. *)
Definition search_init (node_count start : nat) : search_state :=
  (<[start := Some (0, 0, 0)]> (replicate node_count None), replicate node_count None,
   nh_push (mkScored (0, 0, 0) start) nh_empty).

Definition search (node_count start : nat) (stop : option nat) : option (bool * search_state) :=
  if start <? node_count then
    loop_result None (wloop (search_step stop) node_count (search_init node_count start))
  else None.
End search.

(** ** Reading a route *)

(** The chain from [end] to [start], built by pushing predecessors. *)
Definition chain_step (came_from : list (option nat)) (start : nat) (s : list nat * nat)
  : (list nat * nat) + option (list nat) :=
  let '(path, current) := s in
  if current =? start then inr (Some path)
  else
    match came_from !! current with
    | None => inr None
    | Some None => inr (Some path)
    | Some (Some previous) => inl (path ++ [previous], previous)
    end.

Definition path_from_came_from (came_from : list (option nat)) (start target : nat)
  : option (list nat) :=
  reverse <$> loop_result None
            (wloop (chain_step came_from start) (length came_from) ([target], target)).

(** ** The search's invariant *)

Section correctness.
Context {H : Type} `{HH : NodeHeap H} `{HL : !NodeHeapLaws H}.
Context (neighbours : nat -> list nat) (n start : nat).
Context (Hstart : start < n) (Hrange : forall x y, x < n -> y ∈ neighbours x -> y < n).

#[local] Abbreviation state := (search_state (H := H)).
#[local] Abbreviation scores s := s.1.1.
#[local] Abbreviation came s := s.1.2.
#[local] Abbreviation heap s := (nh_into_vec s.2).

(** A node was reached at a cost. *)
Definition scored (s : state) (x g : nat) : Prop := scores s !! x = Some (Some (g, 0, g)).

Definition waits (s : state) (x : nat) : Prop := x ∈ ms_node <$> heap s.
#[global] Instance waits_dec s x : Decision (waits s x).
Proof. unfold waits. apply _. Defined.

(** Every cost but the source's is one more than that of the node it came from; the
    waiting nodes are at the cost [m] or one above it, the expanded ones at most [m]. *)
Record explored (m : nat) (s : state) : Prop := {
  ex_scores : length (scores s) = n;
  ex_came : length (came s) = n;
  ex_start : scored s start 0;
  ex_source : came s !! start = Some None;
  ex_form : forall x v, scores s !! x = Some (Some v) -> exists g, v = (g, 0, g);
  ex_from : forall x g, scored s x g -> x <> start ->
    exists p g', came s !! x = Some (Some p) /\ scored s p g' /\ g = S g' /\ x ∈ neighbours p;
  ex_distinct : NoDup (ms_node <$> heap s);
  ex_waiting : forall e, e ∈ heap s -> exists g, ms_score e = (g, 0, g) /\ scored s (ms_node e) g /\ m <= g <= S m;
  ex_expanded : forall x g, scored s x g -> ~ waits s x -> g <= m;
}.

(** The neighbours of an expanded node are reached. *)
Definition closed_at (s : state) (x : nat) : Prop :=
  forall g y, scored s x g -> y ∈ neighbours x -> exists g', scored s y g' /\ g' <= S g.

(** Costs and predecessors are written once. *)
Record extends (s s' : state) : Prop := {
  et_scored : forall x g, scored s x g -> scored s' x g /\ came s' !! x = came s !! x;
  et_waits : forall x g, scored s x g -> waits s' x -> waits s x;
}.

#[global] Instance extends_preorder : PreOrder extends.
Proof.
  split; [by split|]. intros s1 s2 s3 [A1 B1] [A2 B2]. split.
  - intros x g [Hx E]%A1. destruct (A2 x g Hx) as [Hx' E']. split; [done|congruence].
  - intros x g Hx Hw. eapply B1; [done|]. destruct (A1 x g Hx) as [Hx' _]. by eapply B2.
Qed.

Lemma scored_fun s x g g' : scored s x g -> scored s x g' -> g = g'.
Proof. unfold scored. congruence. Qed.

Lemma scored_le m s x g : explored m s -> scored s x g -> g <= S m.
Proof.
  intros Hs Hx. destruct (decide (waits s x)) as [Hw|Hw]; [|by pose proof (ex_expanded _ _ Hs x g Hx Hw); lia].
  apply list_elem_of_fmap in Hw as (e & -> & He). destruct (ex_waiting _ _ Hs e He) as (g' & _ & Hg' & Hle).
  rewrite (scored_fun _ _ _ _ Hx Hg'). lia.
Qed.

(** A node reached by pushes waits. *)
Definition settles (s s' : state) : Prop := forall z g, scored s' z g -> ~ waits s' z ->
  scored s z g /\ ~ waits s z.

(** The nodes not reached yet, and those that wait: what bounds the iterations. *)
Definition unscored (s : state) : nat := length (filter (fun o => o = None) (scores s)).
Definition remaining (s : state) : nat := unscored s + length (heap s).

Lemma unscored_insert (l : list (option (nat * nat * nat))) i v : l !! i = Some None ->
  S (length (filter (fun o => o = None) (<[i := Some v]> l))) = length (filter (fun o => o = None) l).
Proof.
  revert i. induction l as [|o l IH]; intros [|i] Hi; [done..| |].
  - injection Hi as ->. change (<[0 := Some v]> (None :: l)) with (Some v :: l).
    by rewrite filter_cons_False, filter_cons_True by done.
  - change (<[S i := Some v]> (o :: l)) with (o :: <[i := Some v]> l). rewrite !filter_cons.
    specialize (IH i Hi). case_decide; simpl; lia.
Qed.

(** One neighbour: it is reached at most one above the node, nothing reached before
    changes, and a node that is pushed leaves the unreached ones. *)
Lemma push_one m s x y : explored m s -> scored s x m -> ~ waits s x -> y ∈ neighbours x -> y < n ->
  exists s', push_neighbor x m s y = Some s' /\ explored m s' /\ extends s s' /\ ~ waits s' x
    /\ (exists g, scored s' y g /\ g <= S m) /\ remaining s' = remaining s /\ settles s s'.
Proof using All.
  intros Hs Hx Hnw Hy Hyn. destruct s as [[sc cf] h]. unfold push_neighbor. cbn [fst snd] in *.
  pose proof (ex_scores _ _ Hs) as Hls. pose proof (ex_came _ _ Hs) as Hlc. cbn [fst snd] in Hls, Hlc.
  destruct (lookup_lt_is_Some_2 sc y) as [old Hold]; [by rewrite Hls|]. rewrite Hold. simpl.
  destruct old as [[[f h'] g]|].
  { destruct (ex_form _ _ Hs _ _ Hold) as (g0 & [= -> -> ->]).
    pose proof (scored_le _ _ _ _ Hs (Hold : scored (sc, cf, h) y g0)) as Hle.
    rewrite (proj2 (Nat.leb_le _ _)) by lia. eexists. split; [done|]. split_and!; [done|done|done| |done|].
    - exists g0. by split.
    - by intros z g. }
  rewrite Nat.add_1_r. set (e := mkScored (S m, 0, S m) y).
  eexists. split; [reflexivity|].
  assert (Hin : forall z g, scored (<[y := Some (S m, 0, S m)]> sc, <[y := Some x]> cf, nh_push e h) z g
    <-> z = y /\ g = S m \/ z <> y /\ scored (sc, cf, h) z g).
  { intros z g. unfold scored. cbn [fst snd]. destruct (decide (z = y)) as [->|Hne].
    - rewrite list_lookup_insert_eq by (by rewrite Hls). naive_solver.
    - rewrite list_lookup_insert_ne by done. naive_solver. }
  assert (Hwt : forall z, waits (<[y := Some (S m, 0, S m)]> sc, <[y := Some x]> cf, nh_push e h) z
    <-> z = y \/ waits (sc, cf, h) z).
  { intros z. unfold waits. cbn [fst snd]. rewrite nh_push_vec. simpl. by rewrite elem_of_cons. }
  assert (Hcf : forall z, z <> y -> <[y := Some x]> cf !! z = cf !! z).
  { intros z Hz. by rewrite list_lookup_insert_ne. }
  assert (Hold' : forall z g, scored (sc, cf, h) z g -> z <> y).
  { intros z g Hz ->. unfold scored in Hz. cbn [fst snd] in Hz. congruence. }
  split_and!.
  - split; cbn [fst snd].
    + rewrite length_insert. apply Hs.
    + rewrite length_insert. apply Hs.
    + apply Hin. right. split; [by eapply Hold', Hs|apply Hs].
    + rewrite Hcf; [apply Hs|by eapply Hold', Hs].
    + intros z v. destruct (decide (z = y)) as [->|Hne].
      * rewrite list_lookup_insert_eq by (by rewrite Hls). intros [= <-]. by eexists.
      * rewrite list_lookup_insert_ne by done. apply (ex_form _ _ Hs).
    + intros z g [[-> ->]|[Hne Hz]]%Hin Hzs.
      * exists x, m. rewrite list_lookup_insert_eq by (by rewrite Hlc).
        split_and!; [done|apply Hin; right; by eauto|done|done].
      * destruct (ex_from _ _ Hs z g Hz Hzs) as (p & g' & Hp & Hg' & -> & Hnb). exists p, g'.
        split_and!; [by rewrite Hcf|apply Hin; right; by eauto|done|done].
    + rewrite nh_push_vec. simpl. constructor; [|apply Hs]. intros Hw.
      apply list_elem_of_fmap in Hw as (e' & Ey & He'). destruct (ex_waiting _ _ Hs e' He') as (g & _ & Hg & _).
      apply (Hold' _ _ Hg). done.
    + intros e'. rewrite nh_push_vec. intros [->|He']%elem_of_cons.
      * exists (S m). split_and!; [done|apply Hin; by left|lia|lia].
      * destruct (ex_waiting _ _ Hs e' He') as (g & E & Hg & Hle). exists g. split_and!; [done| |lia|lia].
        apply Hin. right. by eauto.
    + intros z g [[-> ->]|[Hne Hz]]%Hin Hw; [exfalso; apply Hw, Hwt; by left|].
      eapply (ex_expanded _ _ Hs); [done|]. intros Hw'. apply Hw, Hwt. by right.
  - split.
    + intros z g Hz. split; [apply Hin; right; by eauto|]. cbn [fst snd]. apply Hcf. by eapply Hold'.
    + intros z g Hz [->|Hw]%Hwt; [|done]. by destruct (Hold' _ _ Hz).
  - intros [->|Hw]%Hwt; [by destruct (Hold' _ _ Hx)|done].
  - exists (S m). split; [apply Hin; by left|lia].
  - unfold remaining, unscored. cbn [fst snd]. rewrite nh_push_vec, <- (unscored_insert _ _ (S m, 0, S m) Hold).
    simpl. lia.
  - intros z g [[-> ->]|[Hne Hz]]%Hin Hw; [exfalso; apply Hw, Hwt; by left|].
    split; [done|]. intros Hw'. apply Hw, Hwt. by right.
Qed.

Lemma push_all m x ys : forall s, explored m s -> scored s x m -> ~ waits s x ->
  (forall y, y ∈ ys -> y ∈ neighbours x) -> x < n ->
  exists s', fold_option (push_neighbor x m) s ys = Some s' /\ explored m s' /\ extends s s' /\ ~ waits s' x
    /\ (forall y, y ∈ ys -> exists g, scored s' y g /\ g <= S m) /\ remaining s' = remaining s
    /\ settles s s'.
Proof using All.
  induction ys as [|y ys IH]; intros s Hs Hx Hw Hys Hxn; cbn [fold_option].
  { exists s. split_and!; [done..|set_solver|done|done]. }
  destruct (push_one m s x y Hs Hx Hw) as (s1 & Hp & Hs1 & He1 & Hw1 & (g & Hg & Hgm) & Hr1 & Hset1);
    [apply Hys; left|by eapply Hrange; [|apply Hys; left]|].
  rewrite Hp. cbn [mbind option_bind].
  destruct (IH s1 Hs1) as (s2 & Hp2 & Hs2 & He2 & Hw2 & Hy2 & Hr2 & Hset2);
    [by apply He1|done|intros; apply Hys; by right|done|].
  exists s2. split_and!; [done|done|by etrans|done| |by rewrite Hr2|].
  - intros z [->|Hz]%elem_of_cons; [|by apply Hy2]. exists g. split; [by apply He2|done].
  - intros z gz Hz Hnz. destruct (Hset2 z gz Hz Hnz) as [Hz1 Hn1]. by apply Hset1.
Qed.

(** Every expanded node's neighbours are reached. *)
Definition frontier_closed (s : state) : Prop := forall x g, scored s x g -> ~ waits s x -> closed_at s x.

Definition invariant (s : state) : Prop := (exists m, explored m s) /\ frontier_closed s.

Lemma pop_explored m sc cf h f h1 g x h' : explored m (sc, cf, h) ->
  nh_pop h = Some (mkScored (f, h1, g) x, h') ->
  f = g /\ h1 = 0 /\ scored (sc, cf, h) x g /\ m <= g <= S m
  /\ (forall y, waits (sc, cf, h) y <-> y = x \/ waits (sc, cf, h') y)
  /\ ~ waits (sc, cf, h') x /\ explored g (sc, cf, h').
Proof using All.
  intros Hs Hpop. destruct (nh_pop_max _ _ _ Hpop) as [Hperm Hmax].
  assert (Hw : forall y, waits (sc, cf, h) y <-> y = x \/ waits (sc, cf, h') y).
  { intros y. unfold waits. cbn [fst snd]. rewrite Hperm. simpl. by rewrite elem_of_cons. }
  pose proof (ex_distinct _ _ Hs) as Hd. cbn [fst snd] in Hd. rewrite Hperm in Hd. simpl in Hd.
  apply NoDup_cons in Hd as [Hnx Hd].
  destruct (ex_waiting _ _ Hs (mkScored (f, h1, g) x)) as (g0 & [= -> -> ->] & Hg & Hm);
    [cbn [fst snd]; rewrite Hperm; by left|]. cbn [ms_node] in Hg.
  split_and!; [done..|lia|lia|done|done|]. destruct Hs as [H1 H2 H3 H4 H5 H6 H7 H8 H9]. split; try done.
  - intros e He. destruct (H8 e) as (g' & E & Hg' & Hle); [cbn [fst snd]; rewrite Hperm; by right|].
    exists g'. split_and!; [done|done| |lia].
    assert (Hcmp : scored_cmp e (mkScored (g0, 0, g0) x) <> Gt) by (apply Hmax; rewrite Hperm; by right).
    unfold scored_cmp in Hcmp. rewrite E in Hcmp. cbn [ms_score] in Hcmp. unfold score_ltb in Hcmp.
    case_bool_decide as Eq; [injection Eq; lia|]. destruct (Nat.ltb_spec g' g0); simpl in Hcmp; [done|lia].
  - intros y gy Hy Hny. destruct (decide (y = x)) as [->|Hne]; [by rewrite (scored_fun _ _ _ _ Hy Hg)|].
    etrans; [eapply (H9 y gy Hy)|lia]. rewrite Hw. naive_solver.
Qed.

(** The state after a pop, before the neighbours: reached nodes are as before. *)
Lemma pop_extends sc cf h h' x : (forall y, waits (sc, cf, h) y <-> y = x \/ waits (sc, cf, h') y) ->
  extends (sc, cf, h) (sc, cf, h').
Proof using Type. intros Hw. split; [done|]. intros y g _ Hy. apply Hw. by right. Qed.

Lemma step_invariant s : invariant s ->
  match search_step neighbours None s with
  | inl s' => invariant s' /\ extends s s' /\ S (remaining s') = remaining s
      /\ forall z g, scored s' z g -> ~ waits s' z ->
           scored s z g /\ (waits s z -> exists e h, nh_pop s.2 = Some (e, h) /\ ms_node e = z)
  | inr r => r = Some (false, s) /\ heap s = []
  end.
Proof using All.
  intros [[m Hs] Hc]. destruct s as [[sc cf] h]. unfold search_step.
  destruct (nh_pop h) as [[[[[f h1] g] x] h']|] eqn:Hpop; [|split; [done|by apply nh_pop_None]].
  destruct (pop_explored _ _ _ _ _ _ _ _ _ Hs Hpop) as (-> & -> & Hx & Hm & Hw & Hnx & Hs').
  rewrite bool_decide_eq_false_2 by done. pose proof (pop_extends _ _ _ _ _ Hw) as He.
  pose proof Hx as Hsc. unfold scored in Hsc. cbn [fst snd] in Hsc. rewrite Hsc, Nat.ltb_irrefl.
  rewrite list_insert_id by done.
  destruct (push_all g x (neighbours x) _ Hs' Hx Hnx) as (s' & -> & Hs2 & He2 & Hnx2 & Hy & Hr & Hset); [done| |].
  { apply lookup_lt_Some in Hsc. by rewrite <- (ex_scores _ _ Hs). }
  split_and!; [split; [by exists g|]|by etrans| |].
  - intros z gz Hz Hnz. destruct (decide (z = x)) as [->|Hne].
    + intros gx y Hgx Hyx. destruct (Hy y Hyx) as (gy & Hgy & Hle). exists gy. split; [done|].
      assert (gx = g) as -> by (by eapply scored_fun; [exact Hgx|apply He2]). done.
    + destruct (Hset z gz Hz Hnz) as [Hz0 Hn0].
      assert (Hn1 : ~ waits (sc, cf, h) z) by (rewrite Hw; naive_solver).
      intros g' y Hg' Hyz. rewrite (scored_fun _ _ _ _ Hg' Hz).
      destruct (Hc z gz Hz0 Hn1 gz y Hz0 Hyz) as (gy & Hgy & Hle). exists gy. split; [by apply He2|done].
  - rewrite Hr. unfold remaining, unscored. cbn [fst snd].
    destruct (nh_pop_max _ _ _ Hpop) as [-> _]. simpl. lia.
  - intros z gz Hz Hnz. destruct (Hset z gz Hz Hnz) as [Hz0 Hn0]. split; [done|]. cbn [snd]. rewrite Hw.
    intros [->|Hwz]; [|done]. by eexists _, _.
Qed.

(** ** The two ways to run it *)

#[local] Abbreviation init := (search_init (H := H) n start).

Lemma init_vec : heap init ≡ₚ [mkScored (0, 0, 0) start].
Proof using All. unfold search_init. cbn [snd]. by rewrite nh_push_vec, nh_empty_vec. Qed.

Lemma init_scored x g : scored init x g -> x = start /\ g = 0.
Proof using All.
  unfold scored, search_init. cbn [fst snd]. destruct (decide (x = start)) as [->|Hne].
  - rewrite list_lookup_insert_eq by (by rewrite length_replicate). by intros [= <-].
  - rewrite list_lookup_insert_ne by done. by intros [? _]%lookup_replicate.
Qed.

Lemma init_start : scored init start 0.
Proof using All.
  unfold scored, search_init. cbn [fst snd]. by rewrite list_lookup_insert_eq by (by rewrite length_replicate).
Qed.

Lemma init_waits : waits init start.
Proof using All. unfold waits. rewrite init_vec. simpl. set_solver. Qed.

Lemma init_invariant : invariant init.
Proof using All.
  split.
  - exists 0. split.
    + cbn. by rewrite length_insert, length_replicate.
    + cbn. by rewrite length_replicate.
    + apply init_start.
    + cbn. by apply lookup_replicate_2.
    + intros x v. cbn. destruct (decide (x = start)) as [->|Hne].
      * rewrite list_lookup_insert_eq by (by rewrite length_replicate). intros [= <-]. by exists 0.
      * rewrite list_lookup_insert_ne by done. by intros [? _]%lookup_replicate.
    + by intros x g [-> ->]%init_scored.
    + rewrite init_vec. simpl. apply NoDup_singleton.
    + intros e. rewrite init_vec. intros ->%list_elem_of_singleton. exists 0. split_and!; [done|apply init_start|lia..].
    + intros x g [-> ->]%init_scored. lia.
  - intros x g [-> ->]%init_scored Hn. by destruct (Hn init_waits).
Qed.

Lemma init_remaining : remaining init = n.
Proof using All.
  unfold remaining, unscored. rewrite init_vec. cbn [fst snd search_init].
  assert (E : forall k, length (filter (fun o => o = None) (replicate k (@None (nat * nat * nat)))) = k).
  { clear. intros k. rewrite filter_all; [apply length_replicate|]. by intros x [? _]%elem_of_replicate. }
  assert (Hs : S (length (filter (fun o => o = None) (<[start := Some (0, 0, 0)]> (replicate n None)))) = n).
  { rewrite unscored_insert; [apply E|by apply lookup_replicate_2]. }
  simpl. lia.
Qed.

(** The exhaustive search empties its heap. *)
Lemma full_run : exists s, search neighbours n start None = Some (false, s)
  /\ Runs (search_step neighbours None) init (Some (false, s)) /\ invariant s /\ heap s = [].
Proof using All.
  destruct (wloop_spec (search_step neighbours None) invariant (fun s => Z.of_nat (remaining s))
    (fun r => exists s, r = Some (false, s) /\ invariant s /\ heap s = []) n init) as (r & Hr & Hruns & s & -> & Hs & Hh).
  - intros s s' Hs Hst. pose proof (step_invariant s Hs) as Hi. rewrite Hst in Hi.
    destruct Hi as (Hi & _ & Hr & _). split; [done|lia].
  - intros s r Hs Hst. pose proof (step_invariant s Hs) as Hi. rewrite Hst in Hi.
    destruct Hi as [-> Hh]. by exists s.
  - apply init_invariant.
  - rewrite init_remaining. apply Z.pow_gt_lin_r; lia.
  - exists s. unfold search. rewrite (proj2 (Nat.ltb_lt _ _) Hstart), Hr. by split_and!.
Qed.

Lemma step_stop t s :
  (forall e h, nh_pop s.2 = Some (e, h) -> ms_node e <> t) ->
  search_step neighbours (Some t) s = search_step neighbours None s.
Proof using Type.
  intros Hn. destruct s as [[sc cf] h]. unfold search_step. cbn [snd] in Hn.
  destruct (nh_pop h) as [[[[[f h1] g] x] h']|]; [|done]. specialize (Hn _ _ eq_refl). cbn in Hn.
  by rewrite !bool_decide_eq_false_2 by congruence.
Qed.

Lemma full_extends s sf : invariant s -> Runs (search_step neighbours None) s (Some (false, sf)) ->
  extends s sf.
Proof using All.
  intros Hs Hr. remember (Some (false, sf)) as r eqn:E. induction Hr as [s r Hst|s s' r Hst _ IH]; subst.
  - pose proof (step_invariant s Hs) as Hi. rewrite Hst in Hi. by destruct Hi as [[= ->] _].
  - pose proof (step_invariant s Hs) as Hi. rewrite Hst in Hi. destruct Hi as (Hi & He & _).
    etrans; [exact He|]. by apply IH.
Qed.

(** Until the target is popped, the two searches do the same: the early one stops with
    the target reached when the exhaustive one reaches it at all. *)
Lemma early_run t s sf : invariant s -> (forall g, scored s t g -> waits s t) ->
  Runs (search_step neighbours None) s (Some (false, sf)) -> heap sf = [] ->
  exists b s', Runs (search_step neighbours (Some t)) s (Some (b, s'))
    /\ if b then (exists g, scored s' t g) /\ extends s' sf /\ exists m, explored m s'
       else s' = sf /\ forall g, ~ scored sf t g.
Proof using All.
  intros Hs Ht Hr Hsf. remember (Some (false, sf)) as r eqn:E. revert Ht.
  induction Hr as [s r Hst|s s' r Hst Hr IH]; intros Ht; subst r.
  - pose proof (step_invariant s Hs) as Hi. rewrite Hst in Hi. destruct Hi as [[= ->] Hh].
    exists false, s. split.
    + constructor. rewrite step_stop; [done|]. intros e h' Hp. destruct (nh_pop_max _ _ _ Hp) as [Hperm _].
      rewrite Hh in Hperm. by apply Permutation_nil_cons in Hperm.
    + split; [done|]. intros g Hg. specialize (Ht g Hg). unfold waits in Ht. rewrite Hh in Ht.
      by apply not_elem_of_nil in Ht.
  - pose proof (step_invariant s Hs) as Hi. rewrite Hst in Hi. destruct Hi as (Hi & He & _ & Hnew).
    destruct (nh_pop s.2) as [[e h']|] eqn:Hp.
    2: { destruct (IH Hi eq_refl) as (b & s2 & Hr2 & Hb).
         - intros g Hg. destruct (decide (waits s' t)) as [|Hw]; [done|].
           destruct (Hnew t g Hg Hw) as [Hg0 Hx]. by destruct (Hx (Ht g Hg0)) as (? & ? & ? & _).
         - exists b, s2. split; [|done]. eapply Runs_step; [|exact Hr2]. rewrite step_stop; [done|].
           intros e h' Hp'. congruence. }
    destruct (decide (ms_node e = t)) as [Het|Het].
    + clear IH. destruct s as [[sc cf] h], e as [[[f h1] g] x]. cbn [snd ms_node] in *. subst x.
      destruct Hs as [[m Hm] Hc]. destruct (pop_explored _ _ _ _ _ _ _ _ _ Hm Hp) as (-> & -> & Hx & _ & _ & _ & Hs').
      exists true, (sc, cf, h'). split; [|split_and!].
      * constructor. unfold search_step. rewrite Hp. by rewrite bool_decide_eq_true_2 by done.
      * by exists g.
      * destruct (full_extends (sc, cf, h) sf) as [E1 E2]; [by split; [exists m|]|by eapply Runs_step|].
        split; [done|]. intros z gz _ Hwz. unfold waits in Hwz. rewrite Hsf in Hwz. by apply not_elem_of_nil in Hwz.
      * by exists g.
    + destruct (IH Hi eq_refl) as (b & s2 & Hr2 & Hb).
      * intros gt Hg. destruct (decide (waits s' t)) as [|Hw]; [done|].
        destruct (Hnew t gt Hg Hw) as [Hg0 Hx]. destruct (Hx (Ht gt Hg0)) as (e' & h2 & E & Hn). naive_solver.
      * exists b, s2. split; [|done]. eapply Runs_step; [|exact Hr2]. rewrite step_stop; [done|].
        intros e2 h2 Hp'. rewrite Hp in Hp'. by injection Hp' as <- <-.
Qed.

Lemma early_search t b sf : search neighbours n start None = Some (b, sf) ->
  exists b' s, search neighbours n start (Some t) = Some (b', s)
    /\ if b' then (exists g, scored s t g) /\ extends s sf /\ exists m, explored m s
       else s = sf /\ forall g, ~ scored sf t g.
Proof using All.
  destruct full_run as (sf' & Hf & Hr & Hi & Hh). rewrite Hf. intros [= <- <-].
  destruct (early_run t init sf' init_invariant) as (b & s' & Hr' & Hb); [|done|done|].
  { intros g [-> _]%init_scored. apply init_waits. }
  assert (Hs : search neighbours n start (Some t) = Some (b, s')).
  { unfold search. rewrite (proj2 (Nat.ltb_lt _ _) Hstart).
    rewrite (Runs_wloop _ invariant (fun s => Z.of_nat (remaining s)) n init (Some (b, s'))); [done| |apply init_invariant| |done].
    - intros s1 s2 Hs1 Hst. assert (Hst' : search_step neighbours None s1 = inl s2).
      { rewrite <- Hst. symmetry. apply step_stop. intros e h Hp He. unfold search_step in Hst.
        destruct s1 as [[sc cf] h0], e as [[[f h1] g] x]. cbn [snd ms_node] in *. subst.
        rewrite Hp, bool_decide_eq_true_2 in Hst by done. done. }
      pose proof (step_invariant s1 Hs1) as Hi1. rewrite Hst' in Hi1. destruct Hi1 as (Hi1 & _ & Hrem & _).
      split; [done|lia].
    - rewrite init_remaining. apply Z.pow_gt_lin_r; lia. }
  by exists b, s'.
Qed.

(** ** Routes *)

Definition step_of (x y : nat) : Prop := y ∈ neighbours x.

(** The predecessors of the reached nodes. *)
Definition agrees (s : state) (came_from : list (option nat)) : Prop :=
  forall z g, scored s z g -> came_from !! z = came s !! z.

Lemma chain_run m s : explored m s -> forall g x, scored s x g ->
  exists q, Walk step_of start x (reverse (x :: q)) /\ length q = g /\ NoDup (x :: q)
    /\ Forall (fun z => exists gz, scored s z gz /\ gz < g) q
    /\ forall came_from, agrees s came_from ->
         forall acc, Runs (chain_step came_from start) (acc, x) (Some (acc ++ q)).
Proof using All.
  intros Hs. induction g as [|g IH]; intros x Hx.
  - assert (x = start) as ->.
    { destruct (decide (x = start)) as [|Hne]; [done|].
      destruct (ex_from _ _ Hs _ _ Hx Hne) as (p & g' & _ & _ & [=] & _). }
    exists []. split_and!; [constructor|done|apply NoDup_singleton|constructor|].
    intros cf _ acc. constructor. simpl. by rewrite Nat.eqb_refl, app_nil_r.
  - assert (Hne : x <> start).
    { intros ->. by pose proof (scored_fun _ _ _ _ Hx (ex_start _ _ Hs)). }
    destruct (ex_from _ _ Hs _ _ Hx Hne) as (p & g' & Hp & Hg' & [= <-] & Hnb).
    destruct (IH p Hg') as (q & Hw & Hl & Hd & Hf & Hr). exists (p :: q).
    assert (Hf' : Forall (fun z => exists gz, scored s z gz /\ gz < S g) (p :: q)).
    { constructor; [by exists g; split; [|lia]|]. eapply Forall_impl; [exact Hf|].
      intros z (gz & Hz & Hlt). exists gz. split; [done|lia]. }
    split_and!; [|simpl; by rewrite Hl| |done|].
    + rewrite reverse_cons. by eapply Walk_snoc.
    + constructor; [|done]. intros Hin. rewrite Forall_forall in Hf'.
      destruct (Hf' x Hin) as (gz & Hz & Hlt). rewrite (scored_fun _ _ _ _ Hz Hx) in Hlt. lia.
    + intros cf Hcf acc. eapply Runs_step; [|rewrite (app_assoc acc [p] q : acc ++ p :: q = _); by apply Hr].
      unfold chain_step. rewrite (proj2 (Nat.eqb_neq _ _) Hne), (Hcf x _ Hx), Hp. done.
Qed.

Lemma in_range_length (l : list nat) : NoDup l -> Forall (fun x => x < n) l -> length l <= n.
Proof using All.
  intros Hd Hf. rewrite <- (length_seq n 0). apply submseteq_length, NoDup_submseteq; [done|].
  intros x Hx. rewrite Forall_forall in Hf. apply elem_of_seq. specialize (Hf x Hx). lia.
Qed.

Definition cost (s : state) (x : nat) : nat :=
  match scores s !! x with Some (Some (_, _, g)) => g | _ => 0 end.

(** The route read at a reached node: a walk of its cost, the same from any later state. *)
Lemma path_read m s x g : explored m s -> scored s x g ->
  exists p, Walk step_of start x p /\ length p = S g
    /\ forall came_from, agrees s came_from -> length came_from = n ->
         path_from_came_from came_from start x = Some p.
Proof using All.
  intros Hs Hx. destruct (chain_run _ _ Hs g x Hx) as (q & Hw & Hl & Hd & Hf & Hr).
  exists (reverse (x :: q)). split_and!; [done|by rewrite length_reverse; simpl; lia|].
  intros cf Hcf Hlen. unfold path_from_came_from. rewrite Hlen.
  assert (Hcost : forall z gz, scored s z gz -> cost s z = gz).
  { intros z gz Hz. unfold cost. by rewrite Hz. }
  rewrite (Runs_wloop _ (fun c => exists gc, scored s c.2 gc) (fun c => Z.of_nat (cost s c.2)) n _
    (Some ([x] ++ q))); [done| |by exists g| |by apply Hr].
  - intros [acc c] [acc' c'] [gc Hgc] Hst. cbn [snd] in *. unfold chain_step in Hst.
    destruct (Nat.eqb_spec c start) as [|Hne]; [done|]. rewrite (Hcf c gc Hgc) in Hst.
    destruct (ex_from _ _ Hs _ _ Hgc Hne) as (p & g' & Hp & Hg' & -> & _). rewrite Hp in Hst.
    injection Hst as <- <-. split; [by exists g'|]. rewrite (Hcost _ _ Hgc), (Hcost _ _ Hg'). lia.
  - cbn [snd]. rewrite (Hcost _ _ Hx). assert (S g <= n); [|pose proof (Z.pow_gt_lin_r 2 (Z.of_nat n)); lia].
    change (S g) with (1 + g). rewrite <- Hl. apply (in_range_length (x :: q)); [done|].
    assert (Hlt : forall z gz, scored s z gz -> z < n).
    { intros z gz Hz. apply lookup_lt_Some in Hz. by rewrite <- (ex_scores _ _ Hs). }
    constructor; [by eapply Hlt|]. eapply Forall_impl; [exact Hf|]. intros z (gz & Hz & _). by eapply Hlt.
Qed.

Lemma extends_agrees s s' : extends s s' -> agrees s (came s').
Proof using Type. intros [He _] z g Hz. by apply He in Hz as [_ ?]. Qed.

(** When the heap is empty, the reached nodes are those a walk reaches, at the cost of
    the shortest. *)
Lemma reached_exactly s x p : invariant s -> heap s = [] -> Walk step_of start x p ->
  exists g, scored s x g /\ S g <= length p.
Proof using All.
  intros [[m Hs] Hc] Hh Hw. revert x Hw. induction p as [|z p IH] using rev_ind; intros x Hw.
  { apply Walk_pos in Hw. simpl in Hw. lia. }
  apply Walk_last in Hw as [[E <-]|(y & q & E & Hq & Hyx)].
  - exists 0. split; [apply (ex_start _ _ Hs)|]. rewrite length_app. simpl. lia.
  - apply app_inj_tail in E as [-> ->]. destruct (IH y Hq) as (g & Hg & Hle).
    destruct (Hc y g Hg) with (g := g) (y := x) as (g' & Hg' & Hle'); [|done|done|].
    + unfold waits. rewrite Hh. apply not_elem_of_nil.
    + exists g'. split; [done|]. rewrite length_app. simpl. lia.
Qed.

(** The search that stops at its target and the exhaustive one find the same route, a
    shortest one, or both find that there is none. *)
Lemma search_routes t : t < n ->
  exists full b s, search neighbours n start None = Some (false, full)
    /\ search neighbours n start (Some t) = Some (b, s)
    /\ length (scores full) = n /\ length (scores s) = n
    /\ if b
       then exists v p, scores full !! t = Some (Some v)
         /\ path_from_came_from (came full) start t = Some p
         /\ path_from_came_from (came s) start t = Some p /\ shortest step_of start t p
       else scores full !! t = Some None /\ forall p, ~ Walk step_of start t p.
Proof using All.
  intros Ht. destruct full_run as (sf & Hf & _ & Hi & Hh).
  destruct (early_search t false sf Hf) as (b & s & Hs & Hb). exists sf, b, s.
  pose proof Hi as [[m Hm] _]. pose proof (ex_scores _ _ Hm) as Hlen.
  assert (Hlen' : length (scores s) = n).
  { destruct b; [destruct Hb as (_ & _ & m' & Hm'); apply Hm'|by destruct Hb as [-> _]]. }
  split_and!; [done..|]. destruct b.
  - destruct Hb as ((g & Hg) & He & m' & Hm'). destruct (path_read _ _ _ _ Hm' Hg) as (p & Hw & Hl & Hr).
    exists (g, 0, g), p. split; [by apply He|]. split; [apply Hr; [by apply extends_agrees|apply Hm]|].
    split; [apply Hr; [by intros ? ? _|apply Hm']|]. split; [done|].
    intros q Hq. destruct (reached_exactly sf t q Hi Hh Hq) as (g' & Hg' & Hle).
    assert (g' = g) as -> by (by eapply scored_fun; [exact Hg'|apply He]). lia.
  - destruct Hb as [-> Hn]. split.
    + destruct (lookup_lt_is_Some_2 (scores sf) t) as [[v|] Ev]; [by rewrite (ex_scores _ _ Hm)| |done].
      destruct (ex_form _ _ Hm _ _ Ev) as [g ->]. by destruct (Hn g).
    + intros p Hp. destruct (reached_exactly sf t p Hi Hh Hp) as (g & Hg & _). by apply (Hn g).
Qed.
End correctness.
