(* ===== verification/EdgeLists.v ===== *)
(** * Instances of the routing interfaces

    A heap of scored nodes kept as a list, and a graph kept as its edge list whose A*
    is the uniform-cost search itself: both interfaces of the router can be met. *)

From S2P Require Import Prelude Graphs BestFirst.
#[local] Open Scope nat_scope.

(** ** A heap *)

Definition ListNodeHeap := list MinScoredNode.

(** The first least node, and the others. *)
Fixpoint pop_least (x : MinScoredNode) (l : list MinScoredNode) : MinScoredNode * list MinScoredNode :=
  match l with
  | [] => (x, [])
  | y :: l =>
      if score_ltb (ms_score y) (ms_score x) then let '(z, l) := pop_least y l in (z, x :: l)
      else let '(z, l) := pop_least x l in (z, y :: l)
  end.

#[export] Instance ListNodeHeap_heap : NodeHeap ListNodeHeap := {|
  nh_empty := [];
  nh_push x h := x :: h;
  nh_pop h := match h with [] => None | x :: h => Some (pop_least x h) end;
  nh_into_vec h := h;
|}.

Lemma score_ltb_spec a b : score_ltb a b = true <->
  a.1.1 < b.1.1 \/ a.1.1 = b.1.1 /\ (a.1.2 < b.1.2 \/ a.1.2 = b.1.2 /\ a.2 < b.2).
Proof.
  destruct a as [[a1 a2] a3], b as [[b1 b2] b3]. unfold score_ltb. simpl.
  rewrite orb_true_iff, andb_true_iff, orb_true_iff, andb_true_iff, !Nat.ltb_lt, !Nat.eqb_eq. tauto.
Qed.

Definition not_before (y x : MinScoredNode) : Prop := score_ltb (ms_score y) (ms_score x) = false.

Lemma not_before_iff y x : not_before y x <-> ~ score_ltb (ms_score y) (ms_score x) = true.
Proof. unfold not_before. by rewrite not_true_iff_false. Qed.

Lemma not_before_trans z y x : not_before z y -> not_before y x -> not_before z x.
Proof.
  rewrite !not_before_iff, !score_ltb_spec.
  destruct (ms_score z) as [[a1 a2] a3], (ms_score y) as [[b1 b2] b3], (ms_score x) as [[c1 c2] c3]. simpl. lia.
Qed.

Lemma pop_least_spec l : forall x z l', pop_least x l = (z, l') ->
  x :: l ≡ₚ z :: l' /\ forall y, y ∈ x :: l -> not_before y z.
Proof.
  assert (Hrefl : forall x, not_before x x).
  { intros x. rewrite not_before_iff, score_ltb_spec. destruct (ms_score x) as [[? ?] ?]. simpl. lia. }
  induction l as [|y l IH]; intros x z l'; cbn [pop_least].
  - intros [= <- <-]. split; [done|]. intros y ->%list_elem_of_singleton. apply Hrefl.
  - destruct (score_ltb (ms_score y) (ms_score x)) eqn:E.
    + destruct (pop_least y l) as [w r] eqn:Hp. intros [= -> <-]. destruct (IH _ _ _ Hp) as [Hperm Hmin]. split.
      * rewrite Hperm. constructor.
      * intros v [->|Hv]%elem_of_cons; [|by apply Hmin]. apply (not_before_trans _ y); [|apply Hmin; left].
        apply score_ltb_spec in E. rewrite not_before_iff, score_ltb_spec.
        destruct (ms_score x) as [[? ?] ?], (ms_score y) as [[? ?] ?]. simpl in *. lia.
    + destruct (pop_least x l) as [w r] eqn:Hp. intros [= -> <-]. destruct (IH _ _ _ Hp) as [Hperm Hmin]. split.
      * rewrite (Permutation_swap y x), Hperm. constructor.
      * intros v [->|[->|Hv]%elem_of_cons]%elem_of_cons; [apply Hmin; left| |apply Hmin; by right].
        apply (not_before_trans _ x); [done|apply Hmin; left].
Qed.

#[export] Instance ListNodeHeap_laws : NodeHeapLaws ListNodeHeap.
Proof.
  split; [done|done| |].
  - intros x [|y h] h'; [done|]. cbn. intros Hp. injection Hp as Hp. destruct (pop_least_spec _ _ _ _ Hp) as [Hperm Hmin].
    split; [done|]. intros z Hz. specialize (Hmin z Hz). unfold scored_cmp. case_bool_decide; [done|].
    by rewrite Hmin.
  - by intros [|x h].
Qed.

(** ** A graph *)

Record EdgeList := mkEdgeList {
  el_weights : list nat;
  el_edges : list (nat * nat);
  el_in_range : Forall (fun e => e.1 < length el_weights /\ e.2 < length el_weights) el_edges;
}.

Definition el_empty : EdgeList := mkEdgeList [] [] (Forall_nil_2 _).

Lemma in_range_node (g : EdgeList) w :
  Forall (fun e => e.1 < length (el_weights g ++ [w]) /\ e.2 < length (el_weights g ++ [w])) (el_edges g).
Proof. eapply Forall_impl; [apply el_in_range|]. intros e. rewrite length_app. simpl. lia. Qed.

Definition el_add_node (g : EdgeList) (w : nat) : EdgeList :=
  mkEdgeList (el_weights g ++ [w]) (el_edges g) (in_range_node g w).

Lemma in_range_edge (g : EdgeList) a b : a < length (el_weights g) /\ b < length (el_weights g) ->
  Forall (fun e => e.1 < length (el_weights g) /\ e.2 < length (el_weights g)) (el_edges g ++ [(a, b)]).
Proof. intros Hab. apply Forall_app. split; [apply el_in_range|by constructor]. Qed.

Definition el_add_edge (g : EdgeList) (a b : nat) : EdgeList :=
  match decide (a < length (el_weights g) /\ b < length (el_weights g)) with
  | left Hab => mkEdgeList (el_weights g) (el_edges g ++ [(a, b)]) (in_range_edge g a b Hab)
  | right _ => g
  end.

Lemma edges_node_count_le l e : e ∈ l -> e.1 < edges_node_count l /\ e.2 < edges_node_count l.
Proof.
  induction l as [|x l IH]; [by intros ?%not_elem_of_nil|]. intros [->|He]%elem_of_cons; cbn [edges_node_count foldr].
  - lia.
  - specialize (IH He). unfold edges_node_count in IH. lia.
Qed.

Lemma in_range_from l : Forall (fun e => e.1 < length (replicate (edges_node_count l) 0)
  /\ e.2 < length (replicate (edges_node_count l) 0)) l.
Proof. apply Forall_forall. intros e He. rewrite length_replicate. by apply edges_node_count_le. Qed.

Definition el_from_edges (l : list (nat * nat)) : EdgeList :=
  mkEdgeList (replicate (edges_node_count l) 0) l (in_range_from l).

(** The other ends of the edges at a node. *)
Definition el_neighbours (g : EdgeList) (x : nat) : list nat :=
  e ← el_edges g; (if e.1 =? x then [e.2] else []) ++ (if e.2 =? x then [e.1] else []).

Definition el_astar (g : EdgeList) (start target : nat) : option (nat * list nat) :=
  if negb (target <? length (el_weights g)) then None
  else
  match search (H := ListNodeHeap) (el_neighbours g) (length (el_weights g)) start (Some target) with
  | Some (true, s) =>
      path ← path_from_came_from s.1.2 start target;
      Some (length path - 1, path)
  | _ => None
  end.

#[export] Instance EdgeList_graph : Graph EdgeList := {|
  empty_graph := el_empty;
  add_node := el_add_node;
  add_edge := el_add_edge;
  from_edges := el_from_edges;
  node_weights := el_weights;
  edge_references := el_edges;
  contains_edge g a b := existsb (fun e => (e.1 =? a) && (e.2 =? b) || (e.1 =? b) && (e.2 =? a)) (el_edges g);
  astar := el_astar;
|}.

Lemma el_neighbours_adjacent (g : EdgeList) x y : y ∈ el_neighbours g x <-> adjacent g x y.
Proof.
  unfold el_neighbours, adjacent. cbn. rewrite list_elem_of_bind. split.
  - intros ([a b] & Hy & Hab). simpl in Hy. apply elem_of_app in Hy as [Hy|Hy].
    + destruct (Nat.eqb_spec a x); [|by apply not_elem_of_nil in Hy]. apply list_elem_of_singleton in Hy. subst. by left.
    + destruct (Nat.eqb_spec b x); [|by apply not_elem_of_nil in Hy]. apply list_elem_of_singleton in Hy. subst. by right.
  - intros [Hxy|Hxy]; [exists (x, y)|exists (y, x)]; (split; [|done]); simpl; rewrite Nat.eqb_refl; set_solver.
Qed.

Lemma el_range (g : EdgeList) x y : y ∈ el_neighbours g x -> y < length (el_weights g).
Proof.
  rewrite el_neighbours_adjacent. intros [He|He]; pose proof (el_in_range g) as Hr; rewrite Forall_forall in Hr;
    apply Hr in He; simpl in He; lia.
Qed.

#[export] Instance EdgeList_laws : GraphLaws EdgeList.
Proof.
  split; try done.
  - intros g a b Ha Hb. cbn. unfold el_add_edge. by case_decide.
  - intros g a b Ha Hb. cbn. unfold el_add_edge. case_decide as Hd; [done|]. by destruct Hd.
  - intros g a b Hab. pose proof (el_in_range g) as Hr. rewrite Forall_forall in Hr. by apply Hr in Hab.
  - intros g a b. cbn. rewrite existsb_exists. unfold adjacent. cbn. split.
    + intros ([x y] & Hin%list_elem_of_In & Hb). simpl in Hb. rewrite orb_true_iff, !andb_true_iff, !Nat.eqb_eq in Hb.
      destruct Hb as [[-> ->]|[-> ->]]; auto.
    + intros [Hin|Hin]; eexists; (split; [apply list_elem_of_In, Hin|]); simpl; rewrite !Nat.eqb_refl; by rewrite ?orb_true_r.
  - intros g a b cost p. cbn. unfold el_astar. set (n := length (el_weights g)).
    destruct (Nat.ltb_spec b n) as [Hb|]; [|done]. cbn [negb]. destruct (decide (a < n)) as [Ha|Ha].
    2: { unfold search. by rewrite (proj2 (Nat.ltb_ge _ _)) by lia. }
    destruct (search_routes (H := ListNodeHeap) (el_neighbours g) n a Ha (fun x y _ => el_range g x y) b Hb)
      as (full & found & s & _ & -> & _ & _ & Hf). destruct found; [|done].
    destruct Hf as (v & q & _ & _ & -> & Hw & Hmin). cbn [mbind option_bind]. intros [= <- <-].
    pose proof (Walk_pos _ _ _ _ Hw). split; [|lia]. split.
    + eapply Walk_mono, Hw. intros x y. apply el_neighbours_adjacent.
    + intros q' Hq'. apply Hmin. eapply Walk_mono, Hq'. intros x y. apply el_neighbours_adjacent.
  - intros g a b p Ha. cbn in Ha |- *. unfold node_count in Ha. cbn in Ha. unfold el_astar.
    set (n := length (el_weights g)) in *. destruct (Nat.ltb_spec b n) as [Hb|Hb]; cbn [negb].
    + destruct (search_routes (H := ListNodeHeap) (el_neighbours g) n a Ha (fun x y _ => el_range g x y) b Hb)
        as (full & found & s & _ & -> & _ & _ & Hf). destruct found.
      * destruct Hf as (v & q & _ & _ & -> & _). done.
      * intros _ Hw. destruct Hf as [_ Hf]. apply (Hf p). eapply Walk_mono, Hw. intros x y.
        apply el_neighbours_adjacent.
    + intros _ Hw. apply Walk_last in Hw as [[_ ->]|(y & q & _ & _ & Hyb)]; [lia|].
      apply el_neighbours_adjacent, el_range in Hyb. fold n in Hyb. lia.
Qed.
