(* ===== verification/FatTree.v ===== *)
(** * Canonical fat trees (src/topos/route.rs)

    The router recognises a fat tree by its size and its wiring
    ([ShortestPath::fat_tree_params]) and then enumerates the neighbours of a switch by
    index arithmetic ([fat_tree_neighbours]). With [h] the switches of a layer in a pod,
    a fat tree has [2h] pods, [2h²] edge and as many aggregation switches, and [h²] core
    switches, numbered in that order. Node counts are taken below [2^53], where the
    floating-point square root of the source is the integer one on perfect squares. *)

From S2P Require Import Prelude Graphs.
#[local] Open Scope nat_scope.

Section recognition.
Context `{HG : Graph G}.

Definition has_fat_tree_layout (graph : G) (num_layer_switches switches_per_pod num_pods : nat)
  : bool :=
  let core_start := 2 * num_layer_switches in
  (edge_count graph =? num_layer_switches * switches_per_pod * 2)
  && forallb (fun edge_id =>
       let pod := edge_id / switches_per_pod in
       let agg_base := num_layer_switches + pod * switches_per_pod in
       forallb (fun agg_offset => contains_edge graph edge_id (agg_base + agg_offset))
         (seq 0 switches_per_pod))
     (seq 0 num_layer_switches)
  && forallb (fun agg_id =>
       let agg_rel := agg_id - num_layer_switches in
       let pod := agg_rel / switches_per_pod in
       let group := agg_rel mod switches_per_pod in
       let edge_base := pod * switches_per_pod in
       forallb (fun edge_offset => contains_edge graph agg_id (edge_base + edge_offset))
         (seq 0 switches_per_pod)
       && forallb (fun core_offset =>
            contains_edge graph agg_id (core_start + group * switches_per_pod + core_offset))
          (seq 0 switches_per_pod))
     (seq num_layer_switches (core_start - num_layer_switches))
  && forallb (fun core_id =>
       let core_rel := core_id - core_start in
       let group := core_rel / switches_per_pod in
       forallb (fun pod =>
         contains_edge graph core_id (num_layer_switches + pod * switches_per_pod + group))
       (seq 0 num_pods))
     (seq core_start (node_count graph - core_start)).

(** [(edge switches, switches per pod, pods)]. *)
Definition fat_tree_params (graph : G) : option (nat * nat * nat) :=
  let total_nodes := node_count graph in
  if (total_nodes =? 0) || negb (total_nodes mod 5 =? 0) then None
  else
    let num_layer_switches := total_nodes * 2 / 5 in
    let doubled := num_layer_switches * 2 in
    let k := Nat.sqrt doubled in
    if (k =? 0) || negb (k * k =? doubled) || negb (k mod 2 =? 0) then None
    else
      let switches_per_pod := k / 2 in
      if has_fat_tree_layout graph num_layer_switches switches_per_pod k
      then Some (num_layer_switches, switches_per_pod, k) else None.
End recognition.

(** The neighbours the search enumerates, in its order. *)
Definition fat_tree_neighbours (params : nat * nat * nat) (node_idx : nat) : list nat :=
  let '(num_layer_switches, switches_per_pod, num_pods) := params in
  let core_start := 2 * num_layer_switches in
  if node_idx <? num_layer_switches then
    let pod := node_idx / switches_per_pod in
    let agg_base := num_layer_switches + pod * switches_per_pod in
    (fun agg_offset => agg_base + agg_offset) <$> reverse (seq 0 switches_per_pod)
  else if node_idx <? core_start then
    let agg_rel := node_idx - num_layer_switches in
    let pod := agg_rel / switches_per_pod in
    let group := agg_rel mod switches_per_pod in
    let edge_base := pod * switches_per_pod in
    ((fun core_offset => core_start + group * switches_per_pod + core_offset)
       <$> reverse (seq 0 switches_per_pod))
    ++ ((fun edge_offset => edge_base + edge_offset) <$> reverse (seq 0 switches_per_pod))
  else
    let core_rel := node_idx - core_start in
    let group := core_rel / switches_per_pod in
    (fun pod => num_layer_switches + pod * switches_per_pod + group) <$> reverse (seq 0 num_pods).

(** ** What is recognised *)

(** The links of the fat tree with [h] switches per layer of a pod, from the lower layer. *)
Inductive up_link (h : nat) : nat -> nat -> Prop :=
| up_aggregation x o : x < 2 * h * h -> o < h -> up_link h x (2 * h * h + x / h * h + o)
| up_core x o : x < 2 * h * h -> o < h ->
    up_link h (2 * h * h + x) (4 * h * h + x mod h * h + o).

Definition fat_tree_link (h x y : nat) : Prop := up_link h x y \/ up_link h y x.

Definition up_links (h : nat) : list (nat * nat) :=
  (x ← seq 0 (2 * h * h); pair x <$> ((fun o => 2 * h * h + x / h * h + o) <$> seq 0 h))
  ++ (x ← seq 0 (2 * h * h);
      pair (2 * h * h + x) <$> ((fun o => 4 * h * h + x mod h * h + o) <$> seq 0 h)).

Lemma elem_of_up_links h x y : (x, y) ∈ up_links h <-> up_link h x y.
Proof.
  unfold up_links. rewrite elem_of_app, !list_elem_of_bind. split.
  - intros [(z & Hin & Hz%elem_of_seq)|(z & Hin & Hz%elem_of_seq)];
      apply list_elem_of_fmap in Hin as (y' & [= -> ->] & Hin);
      apply list_elem_of_fmap in Hin as (o & -> & Ho%elem_of_seq); constructor; lia.
  - intros [z o Hz Ho|z o Hz Ho]; [left|right]; exists z; (split; [|apply elem_of_seq; lia]);
      apply list_elem_of_fmap; eexists; (split; [done|]); apply list_elem_of_fmap; exists o;
      (split; [done|apply elem_of_seq; lia]).
Qed.

Lemma length_bind_const {A B} (f : A -> list B) k l : (forall x, x ∈ l -> length (f x) = k) ->
  length (l ≫= f) = length l * k.
Proof.
  induction l as [|x l IH]; intros Hf; [done|]. cbn. rewrite length_app, Hf, IH by set_solver. lia.
Qed.

Lemma NoDup_bind_fst {A B} (f : A -> list B) (g : A -> A) l : Inj (=) (=) g -> NoDup l ->
  (forall x, x ∈ l -> NoDup (f x)) -> NoDup (l ≫= (fun x => pair (g x) <$> f x)).
Proof.
  intros Hg Hl Hf. apply NoDup_bind; [|intros x Hx; apply NoDup_fmap_2; [by intros ?? [=]|by apply Hf]|done].
  intros x1 x2 [a b] _ _ H1 H2. apply list_elem_of_fmap in H1 as (y1 & [= -> ->] & _).
  apply list_elem_of_fmap in H2 as (y2 & [= E _] & _). by apply Hg in E.
Qed.

Lemma offsets_NoDup a l : NoDup l -> NoDup ((fun o : nat => a + o) <$> l).
Proof. intros Hl. apply NoDup_fmap_2; [intros ???; lia|done]. Qed.

Lemma up_links_NoDup h : NoDup (up_links h).
Proof.
  unfold up_links. apply NoDup_app. split_and!.
  - apply (NoDup_bind_fst _ id); [apply _|apply NoDup_seq|]. intros x _. apply offsets_NoDup, NoDup_seq.
  - intros [x y] H1 H2. apply list_elem_of_bind in H1 as (a & H1 & Ha%elem_of_seq).
    apply list_elem_of_bind in H2 as (b & H2 & Hb%elem_of_seq).
    apply list_elem_of_fmap in H1 as (? & [= -> _] & _). apply list_elem_of_fmap in H2 as (? & [= E _] & _). lia.
  - apply (NoDup_bind_fst _ (fun x => 2 * h * h + x)); [intros ???; lia|apply NoDup_seq|].
    intros x _. apply offsets_NoDup, NoDup_seq.
Qed.

Lemma up_links_length h : length (up_links h) = 2 * h * h * h * 2.
Proof.
  unfold up_links. rewrite length_app, !(length_bind_const _ h), length_seq; [lia|..];
    intros x _; by rewrite !length_fmap, length_seq.
Qed.

Lemma up_link_lt h x y : up_link h x y -> x < y.
Proof. intros [z o Hz Ho|z o Hz Ho]; nia. Qed.

Section recognised.
Context `{HG : Graph G} `{HL : !GraphLaws G}.

Lemma canonical_edge_adjacent (g : G) x y :
  adjacent g x y <-> canonical_edge (x, y) ∈ canonical_edge <$> edge_references g.
Proof using Type.
  unfold adjacent. rewrite list_elem_of_fmap. unfold canonical_edge. simpl. split.
  - intros [H|H]; eexists; (split; [|exact H]); simpl; f_equal; lia.
  - intros ([a b] & E & Hab). simpl in E. injection E as E1 E2.
    assert ((a = x /\ b = y) \/ (a = y /\ b = x)) as [[-> ->]|[-> ->]] by lia; auto.
Qed.

(** A graph with the links of a fat tree, and as many edges, has no other. *)
Lemma layout_exact (g : G) h : edge_count g = length (up_links h) ->
  (forall x y, up_link h x y -> adjacent g x y) ->
  forall x y, adjacent g x y <-> fat_tree_link h x y.
Proof using Type.
  intros Hc Hup x y. rewrite canonical_edge_adjacent.
  assert (Hperm : up_links h ≡ₚ canonical_edge <$> edge_references g).
  { apply submseteq_length_Permutation; [|by rewrite length_fmap, <- Hc].
    apply NoDup_submseteq; [apply up_links_NoDup|]. intros [a b] Hab%elem_of_up_links.
    pose proof (up_link_lt _ _ _ Hab) as Hlt. apply Hup, canonical_edge_adjacent in Hab.
    unfold canonical_edge in Hab at 1. simpl in Hab. by rewrite Nat.min_l, Nat.max_r in Hab by lia. }
  rewrite <- Hperm. unfold canonical_edge. simpl. rewrite elem_of_up_links. unfold fat_tree_link. split.
  - intros H. destruct (Nat.le_ge_cases x y).
    + left. by rewrite Nat.min_l, Nat.max_r in H by lia.
    + right. by rewrite Nat.min_r, Nat.max_l in H by lia.
  - intros [H|H]; pose proof (up_link_lt _ _ _ H).
    + by rewrite Nat.min_l, Nat.max_r by lia.
    + by rewrite Nat.min_r, Nat.max_l by lia.
Qed.

Lemma fat_tree_size total k : total mod 5 = 0 -> total <> 0 -> k * k = total * 2 / 5 * 2 -> k mod 2 = 0 ->
  exists h, 0 < h /\ k = 2 * h /\ total = 5 * h * h /\ total * 2 / 5 = 2 * h * h /\ k / 2 = h.
Proof.
  intros H5 H0 Hk H2. exists (k / 2).
  assert (Hkh : k = 2 * (k / 2)) by (pose proof (Nat.div_mod_eq k 2); lia).
  assert (Ht : total = 5 * (total / 5)) by (pose proof (Nat.div_mod_eq total 5); lia).
  set (h := k / 2) in *. set (q := total / 5) in *. clearbody h q. subst k total.
  assert (Hd : 5 * q * 2 / 5 = q * 2) by (replace (5 * q * 2) with (q * 2 * 5) by lia; apply Nat.div_mul; lia).
  rewrite Hd in Hk |- *. split_and!; [nia|done|nia|nia|done].
Qed.

Lemma forallb_seq f a k : forallb f (seq a k) = true <-> forall i, a <= i < a + k -> f i = true.
Proof.
  rewrite forallb_forall. split; intros Hf i Hi; apply Hf.
  - apply in_seq. lia.
  - by apply in_seq in Hi.
Qed.

Lemma fat_tree_params_spec (g : G) params : fat_tree_params g = Some params ->
  exists h, 0 < h /\ params = (2 * h * h, h, 2 * h) /\ node_count g = 5 * h * h
    /\ forall x y, adjacent g x y <-> fat_tree_link h x y.
Proof using HL.
  unfold fat_tree_params. destruct (Nat.eqb_spec (node_count g) 0) as [|H0]; [done|].
  destruct (Nat.eqb_spec (node_count g mod 5) 0) as [H5|]; [|done]. cbn [orb negb].
  set (k := Nat.sqrt _). destruct (Nat.eqb_spec k 0); [done|].
  destruct (Nat.eqb_spec (k * k) (node_count g * 2 / 5 * 2)) as [Hk|]; [|done].
  destruct (Nat.eqb_spec (k mod 2) 0) as [H2|]; [|done]. cbn [orb negb].
  destruct (fat_tree_size _ _ H5 H0 Hk H2) as (h & Hh & -> & Hn & -> & ->). clear Hk.
  destruct (has_fat_tree_layout _ _ _ _) eqn:Hl; [|done]. intros [= <-]. exists h. split_and!; [done..|].
  unfold has_fat_tree_layout in Hl. rewrite !andb_true_iff in Hl. destruct Hl as [[[Hc Hedge] Hagg] _].
  apply Nat.eqb_eq in Hc. apply layout_exact; [by rewrite Hc, up_links_length; lia|].
  rewrite forallb_seq in Hedge, Hagg. intros x y [z o Hz Ho|z o Hz Ho].
  - specialize (Hedge z ltac:(lia)). rewrite forallb_seq in Hedge. specialize (Hedge o ltac:(lia)).
    by apply contains_edge_spec.
  - specialize (Hagg (2 * h * h + z) ltac:(lia)). rewrite andb_true_iff, !forallb_seq in Hagg.
    destruct Hagg as [_ Hcore]. specialize (Hcore o ltac:(lia)). apply contains_edge_spec.
    replace (2 * h * h + z - 2 * h * h) with z in Hcore by lia.
    by replace (4 * h * h) with (2 * (2 * h * h)) by lia.
Qed.
End recognised.

(** ** The neighbours *)

Lemma div_of q r h : r < h -> (q * h + r) / h = q /\ (q * h + r) mod h = r.
Proof.
  intros Hr. split.
  - symmetry. apply (Nat.div_unique _ _ q r); lia.
  - symmetry. apply (Nat.mod_unique _ _ q r); lia.
Qed.

Lemma div_lt x h k : 0 < h -> x < k * h -> x / h < k.
Proof. intros Hh Hx. apply Nat.Div0.div_lt_upper_bound. lia. Qed.

Lemma elem_of_offsets (f : nat -> nat) k y : y ∈ f <$> reverse (seq 0 k) <-> exists o, o < k /\ y = f o.
Proof.
  rewrite list_elem_of_fmap. split.
  - intros (o & -> & Ho). rewrite elem_of_reverse, elem_of_seq in Ho. exists o. split; [lia|done].
  - intros (o & Ho & ->). exists o. split; [done|]. rewrite elem_of_reverse, elem_of_seq. lia.
Qed.

(** A number below a multiple of [h], split by [h]. *)
Lemma split_by h x k : 0 < h -> x < k * h -> exists q r, x = q * h + r /\ q < k /\ r < h.
Proof.
  intros Hh Hx. exists (x / h), (x mod h). split_and!; [pose proof (Nat.div_mod_eq x h); lia|by apply div_lt|].
  apply Nat.mod_upper_bound. lia.
Qed.

Lemma up_link_aggregation h q r o : q < 2 * h -> r < h -> o < h ->
  up_link h (q * h + r) (2 * h * h + q * h + o).
Proof.
  intros Hq Hr Ho. pose proof (up_aggregation h (q * h + r) o) as H.
  rewrite (proj1 (div_of q r h Hr)) in H. apply H; [nia|done].
Qed.

Lemma up_link_core h q r o : q < 2 * h -> r < h -> o < h ->
  up_link h (2 * h * h + (q * h + r)) (4 * h * h + r * h + o).
Proof.
  intros Hq Hr Ho. pose proof (up_core h (q * h + r) o) as H.
  rewrite (proj2 (div_of q r h Hr)) in H. apply H; [nia|done].
Qed.

Lemma up_link_inv h x y : 0 < h -> up_link h x y -> exists q r o, q < 2 * h /\ r < h /\ o < h
  /\ (x = q * h + r /\ y = 2 * h * h + q * h + o
      \/ x = 2 * h * h + (q * h + r) /\ y = 4 * h * h + r * h + o).
Proof.
  intros Hh [z o Hz Ho|z o Hz Ho]; destruct (split_by h z (2 * h)) as (q & r & -> & Hq & Hr); try lia;
    destruct (div_of q r h Hr) as [E1 E2]; rewrite ?E1, ?E2; exists q, r, o; (split_and!; [done..|]);
    [by left|by right].
Qed.

Lemma elem_of_neighbours h x y : 0 < h -> x < 5 * h * h ->
  y ∈ fat_tree_neighbours (2 * h * h, h, 2 * h) x <-> fat_tree_link h x y.
Proof.
  intros Hh Hx. unfold fat_tree_neighbours, fat_tree_link.
  destruct (Nat.ltb_spec x (2 * h * h)) as [H1|H1]; [|destruct (Nat.ltb_spec x (2 * (2 * h * h))) as [H2|H2]].
  - rewrite elem_of_offsets. destruct (split_by h x (2 * h)) as (q & r & -> & Hq & Hr); [lia..|].
    destruct (div_of q r h Hr) as [-> _]. split.
    + intros (o & Ho & ->). left. by apply up_link_aggregation.
    + intros [(q' & r' & o & Hq' & Hr' & Ho & [[E ->]|[E ->]])%up_link_inv|
              (q' & r' & o & Hq' & Hr' & Ho & [[-> E]|[-> E]])%up_link_inv]; try done; [|nia..].
      exists o. split; [done|]. assert (q' = q); nia.
  - rewrite elem_of_app, !elem_of_offsets. destruct (split_by h (x - 2 * h * h) (2 * h)) as (q & r & E & Hq & Hr); [lia..|].
    rewrite E. destruct (div_of q r h Hr) as [-> ->]. assert (x = 2 * h * h + (q * h + r)) as -> by lia. clear E. split.
    + intros [(o & Ho & ->)|(o & Ho & ->)].
      * left. replace (2 * (2 * h * h)) with (4 * h * h) by lia. by apply up_link_core.
      * right. rewrite Nat.add_assoc. by apply up_link_aggregation.
    + intros [(q' & r' & o & Hq' & Hr' & Ho & [[E ->]|[E ->]])%up_link_inv|
              (q' & r' & o & Hq' & Hr' & Ho & [[-> E]|[-> E]])%up_link_inv]; try done; [nia| | |nia].
      * left. exists o. split; [done|]. assert (q = q') as -> by nia. assert (r = r') as -> by lia. lia.
      * right. exists r'. split; [done|]. assert (q = q') as -> by nia. done.
  - rewrite elem_of_offsets. destruct (split_by h (x - 2 * (2 * h * h)) h) as (q & r & E & Hq & Hr); [nia..|].
    rewrite E. destruct (div_of q r h Hr) as [-> _]. assert (x = 4 * h * h + q * h + r) as -> by lia. clear E. split.
    + intros (o & Ho & ->). right. rewrite <- Nat.add_assoc. by apply up_link_core.
    + intros [(q' & r' & o & Hq' & Hr' & Ho & [[E ->]|[E ->]])%up_link_inv|
              (q' & r' & o & Hq' & Hr' & Ho & [[-> E]|[-> E]])%up_link_inv]; try done; [nia..|].
      exists q'. split; [done|]. assert (r' = q) as -> by nia. lia.
Qed.

Lemma neighbours_in_range h x y : 0 < h -> x < 5 * h * h ->
  y ∈ fat_tree_neighbours (2 * h * h, h, 2 * h) x -> y < 5 * h * h.
Proof.
  intros Hh Hx [(q & r & o & Hq & Hr & Ho & [[-> ->]|[-> ->]])%up_link_inv|
                (q & r & o & Hq & Hr & Ho & [[-> ->]|[-> ->]])%up_link_inv]%elem_of_neighbours; try done; nia.
Qed.
