(* ===== verification/Routing.v ===== *)
(** * Route selection (src/topos/route.rs)

    The searches of the router, one-off and per source, the route tables they fill, and
    the equal-cost choice of a canonical fat tree. An outer [None] is a panic. Threads
    only compute disjoint parts of a table, so a part is a sequential computation here. *)

From S2P Require Import Prelude OrdMap Graphs BestFirst FatTree.
#[local] Open Scope nat_scope.

(** ** The search of a fat tree *)

Section fat_tree_search.
Context {H : Type} `{HH : NodeHeap H}.

Record FatTreeSearch := mkFatTreeSearch {
  fs_params : nat * nat * nat;
  fs_scores : list (option (nat * nat * nat));
  fs_came_from : list (option nat);
  fs_visit_next : H;
  fs_tree_source : option nat;
}.

Definition fat_tree_search_new (node_count : nat) (params : nat * nat * nat) : FatTreeSearch :=
  mkFatTreeSearch params (replicate node_count None) (replicate node_count None) nh_empty None.

(** Both endpoints are edge switches. *)
Definition serves (self : FatTreeSearch) (start target : nat) : bool :=
  let '(num_layer_switches, _, _) := fs_params self in
  (start <? num_layer_switches) && (target <? num_layer_switches).

Definition fat_tree_search (self : FatTreeSearch) (start : nat) (stop : option nat)
  : option (bool * FatTreeSearch) :=
  '(found, (scores, came_from, visit_next)) ←
    search (fat_tree_neighbours (fs_params self)) (length (fs_scores self)) start stop;
  Some (found, mkFatTreeSearch (fs_params self) scores came_from visit_next None).

(** The search that stops at its target. *)
Definition route (self : FatTreeSearch) (start target : nat)
  : option (option (list nat) * FatTreeSearch) :=
  if negb (serves self start target) then Some (None, self)
  else
    '(found, self) ← fat_tree_search self start (Some target);
    if (found : bool) then
      path ← path_from_came_from (fs_came_from self) start target;
      Some (Some path, self)
    else Some (None, self).

(** The complete search tree of [start], built where the state does not hold it. *)
Definition tree_of (self : FatTreeSearch) (start : nat) : option FatTreeSearch :=
  if bool_decide (fs_tree_source self = Some start) then Some self
  else
    '(_, self) ← fat_tree_search self start None;
    Some (mkFatTreeSearch (fs_params self) (fs_scores self) (fs_came_from self)
            (fs_visit_next self) (Some start)).

Definition tree_route (self : FatTreeSearch) (start target : nat)
  : option (option (list nat) * FatTreeSearch) :=
  if negb (serves self start target) then Some (None, self)
  else
    self ← tree_of self start;
    score ← fs_scores self !! target;
    match score with
    | Some _ =>
        path ← path_from_came_from (fs_came_from self) start target;
        Some (Some path, self)
    | None => Some (None, self)
    end.
End fat_tree_search.
Arguments FatTreeSearch : clear implicits.

(** ** One-off routes *)

Section routes.
Context (H : Type) `{HH : NodeHeap H} `{HG : Graph G}.

Definition astar_route (graph : G) (start target : nat) : option (list nat) :=
  snd <$> astar graph start target.

(** [Option::or_else]. *)
Definition or_else {A} (o : option A) (f : option A) : option A :=
  match o with Some _ => o | None => f end.

Definition try_compute_route_in_canonical_graph (graph : G) (start target : nat)
  : option (option (list nat)) :=
  match fat_tree_params graph with
  | Some params =>
      '(path, _) ← route (fat_tree_search_new (H := H) (node_count graph) params) start target;
      Some (or_else path (astar_route graph start target))
  | None => Some (astar_route graph start target)
  end.

Definition try_compute_route_in (graph : G) (start target : nat) : option (option (list nat)) :=
  try_compute_route_in_canonical_graph (canonical_routing_graph graph) start target.

(** ** Worker budgets *)

Definition MAX_ROUTE_WORKERS : nat := 64.

(** [RouteWorkers::new]: a budget in [1..=64]. *)
Definition route_workers (workers : nat) : nat :=
  if workers <? 1 then 1 else if MAX_ROUTE_WORKERS <? workers then MAX_ROUTE_WORKERS else workers.

Definition nat_div_ceil (x y : nat) : nat := x / y + (if x mod y =? 0 then 0 else 1).

Definition route_chunk_len (flow_count workers : nat) : nat :=
  if flow_count =? 0 then 1
  else
    let chunks := if workers <? flow_count then workers else flow_count in
    nat_div_ceil flow_count chunks.

Definition route_chunk_count (flow_count workers : nat) : nat :=
  nat_div_ceil flow_count (route_chunk_len flow_count workers).

(** A flow with the endpoints of the one before it copies its route. *)
Fixpoint fill_from (graph : G) (previous : option ((nat * nat) * option (list nat)))
    (endpoints : list (nat * nat)) : list (option (list nat)) :=
  match endpoints with
  | [] => []
  | e :: endpoints =>
      let search := astar_route graph e.1 e.2 in
      let r := match previous with
               | Some (e', r) => if bool_decide (e' = e) then r else search
               | None => search
               end in
      r :: fill_from graph (Some (e, r)) endpoints
  end.

Definition fill_route_chunk (graph : G) (endpoints : list (nat * nat)) : list (option (list nat)) :=
  fill_from graph None endpoints.

(** [slice::chunks]. *)
Fixpoint chunks_of {A} (fuel size : nat) (l : list A) : list (list A) :=
  match fuel, l with
  | O, _ | _, [] => []
  | S fuel, _ => take size l :: chunks_of fuel size (drop size l)
  end.

Definition chunks {A} (size : nat) (l : list A) : list (list A) := chunks_of (length l) size l.

Definition scatter_routes (graph : G) (endpoints : list (nat * nat)) (workers : nat)
  : list (option (list nat)) :=
  let chunk_len := route_chunk_len (length endpoints) workers in
  if route_chunk_count (length endpoints) workers <? 2 then fill_route_chunk graph endpoints
  else concat (fill_route_chunk graph <$> chunks chunk_len endpoints).

(** ** One search tree per source *)

Definition FAT_TREE_ROUTE_READ_WEIGHT : nat := 5.

(** The first position of a source also carries the weight of its tree. *)
Definition position_weight (endpoints : list (nat * nat)) (grouped : list nat) (tree_weight index : nat)
  : nat :=
  let source i := (endpoints !!! (grouped !!! i)).1 in
  let starts_source := (index =? 0) || negb (source (index - 1) =? source index) in
  FAT_TREE_ROUTE_READ_WEIGHT + (if starts_source then tree_weight else 0).

(** [while (part + 1) * total <= scaled { part += 1 }]; a part is below the number of
    parts, which is enough fuel. *)
Fixpoint advance_part (fuel total scaled part : nat) : nat :=
  match fuel with
  | O => part
  | S fuel => if (part + 1) * total <=? scaled then advance_part fuel total scaled (part + 1) else part
  end.

(** One position: the ranges pushed, the start and number of the current part, and
    the weight before the position. *)
Definition part_step (weight : nat -> nat) (parts total : nat)
    (s : list (nat * nat) * nat * nat * nat) (index : nat) : list (nat * nat) * nat * nat * nat :=
  let '(ranges, part_start, current_part, before) := s in
  let part := advance_part parts total (before * parts) current_part in
  let '(ranges, part_start, current_part) :=
    if negb (part =? current_part) then
      (if part_start <? index then ranges ++ [(part_start, index)] else ranges, index, part)
    else (ranges, part_start, current_part) in
  (ranges, part_start, current_part, before + weight index).

Definition source_group_parts (endpoints : list (nat * nat)) (grouped : list nat)
    (tree_weight workers : nat) : list (nat * nat) :=
  if bool_decide (grouped = []) then []
  else
    let parts := Nat.min workers (length grouped) in
    let weight := position_weight endpoints grouped tree_weight in
    let total := sum_list (weight <$> seq 0 (length grouped)) in
    let '(ranges, part_start, _, _) :=
      foldl (part_step weight parts total) ([], 0, 0, 0) (seq 0 (length grouped)) in
    ranges ++ [(part_start, length grouped)].

(** The routes of one part, with the worker's own search. *)
Fixpoint route_group_from (graph : G) (endpoints : list (nat * nat)) (search : FatTreeSearch H)
    (previous : option ((nat * nat) * option (list nat))) (positions : list nat)
  : option (list (option (list nat))) :=
  match positions with
  | [] => Some []
  | position :: positions =>
      e ← endpoints !! position;
      let fresh :=
        '(path, search) ← tree_route search e.1 e.2;
        Some (or_else path (astar_route graph e.1 e.2), search) in
      '(r, search) ←
        match previous with
        | Some (e', r) => if bool_decide (e' = e) then Some (r, search) else fresh
        | None => fresh
        end;
      rest ← route_group_from graph endpoints search (Some (e, r)) positions;
      Some (r :: rest)
  end.

Definition route_source_groups (graph : G) (params : nat * nat * nat)
    (endpoints : list (nat * nat)) (positions : list nat) : option (list (option (list nat))) :=
  route_group_from graph endpoints (fat_tree_search_new (node_count graph) params) None positions.

(** The submitter writes the routes of a part to their positions. *)
Definition write_part (graph : G) (params : nat * nat * nat) (endpoints : list (nat * nat))
    (grouped : list nat) (routes : list (option (list nat))) (part : nat * nat)
  : option (list (option (list nat))) :=
  let positions := take (part.2 - part.1) (drop part.1 grouped) in
  part_routes ← route_source_groups graph params endpoints positions;
  Some (foldl (fun routes pr => <[pr.1 := pr.2]> routes) routes (zip positions part_routes)).

Definition scatter_fat_tree_routes (graph : G) (params : nat * nat * nat)
    (endpoints : list (nat * nat)) (workers : nat) : option (list (option (list nat))) :=
  let grouped := sort_by (fun a b => (endpoints !!! a).1 <=? (endpoints !!! b).1)
                   (seq 0 (length endpoints)) in
  let tree_weight := node_count graph + 2 * edge_count graph in
  let parts := source_group_parts endpoints grouped tree_weight workers in
  fold_option (write_part graph params endpoints grouped) (replicate (length endpoints) None) parts.
End routes.

(** ** Route tables *)

Inductive RouteTableError (K : Type) :=
| DuplicateKey (key : K)
| Unreachable (key : K)
| UnsupportedTopology.
Arguments DuplicateKey {K}.
Arguments Unreachable {K}.
Arguments UnsupportedTopology {K}.

Section tables.
Context (H : Type) `{HH : NodeHeap H} `{HG : Graph G} {K : Type} `{HK : OrdKey K}.

(** The position of the first key that repeats an earlier one. *)
Fixpoint repeated_from (seen : bset K) (index : nat) (keys : list K) : option nat :=
  match keys with
  | [] => None
  | key :: keys =>
      let '(fresh, seen) := bs_insert key seen in
      if (fresh : bool) then repeated_from seen (S index) keys else Some index
  end.

Definition first_repeated_key (keys : list K) : option nat := repeated_from [] 0 keys.

(** The first position without a route. *)
Fixpoint first_unrouted (routes : list (option (list nat))) : option nat :=
  match routes with
  | [] => None
  | None :: _ => Some 0
  | Some _ :: routes => S <$> first_unrouted routes
  end.

(** [collect] into a [BTreeMap]; [None] is the panic of an [expect] on a missing route. *)
Definition collect_routes (keyed : list (K * option (list nat))) : option (bmap K (list nat)) :=
  fold_option (fun table kr => path ← kr.2; Some (bm_insert kr.1 path table)) [] keyed.

(** The errors of a filled table, in the order they are reported. *)
Definition finish_table (keys : list K) (routes : list (option (list nat)))
    (first_duplicate : option nat) : option (result (RouteTableError K) (bmap K (list nat))) :=
  match first_unrouted routes with
  | Some index => key ← keys !! index; Some (Err (Unreachable key))
  | None =>
      match first_duplicate with
      | Some index => key ← keys !! index; Some (Err (DuplicateKey key))
      | None => table ← collect_routes (zip keys routes); Some (Ok table)
      end
  end.

Definition compute_shortest_path_route_table_with (graph : G) (flows : list (K * nat * nat))
    (workers : nat) : option (result (RouteTableError K) (bmap K (list nat))) :=
  let graph := canonical_routing_graph graph in
  let fat_tree_params := fat_tree_params graph in
  let keys := (fun f => f.1.1) <$> flows in
  let endpoints := (fun f => (f.1.2, f.2)) <$> flows in
  let first_duplicate := first_repeated_key keys in
  let routed := default (length keys) first_duplicate in
  routes ← match fat_tree_params with
           | Some params => scatter_fat_tree_routes H graph params (take routed endpoints) workers
           | None => Some (scatter_routes graph (take routed endpoints) workers)
           end;
  finish_table keys routes first_duplicate.

(** ** Equal-cost choice *)

Record EcmpFlow := mkEcmpFlow {
  ef_key : K;
  ef_source_switch : nat;
  ef_target_switch : nat;
  ef_flow_hash : Z;
}.

(** The aggregation group and the core offset are read from the two halves of the hash. *)
Definition ecmp_route (params : nat * nat * nat) (flow : EcmpFlow) : option (list nat) :=
  let '(num_layer_switches, switches_per_pod, _) := params in
  let core_start := 2 * num_layer_switches in
  let source := ef_source_switch flow in
  let target := ef_target_switch flow in
  if (num_layer_switches <=? source) || (num_layer_switches <=? target) then None
  else if source =? target then Some [source]
  else
    let group := Z.to_nat (ef_flow_hash flow mod Z.of_nat switches_per_pod) in
    let source_pod := source / switches_per_pod in
    let target_pod := target / switches_per_pod in
    let source_aggregation := num_layer_switches + source_pod * switches_per_pod + group in
    if source_pod =? target_pod then Some [source; source_aggregation; target]
    else
      let core := Z.to_nat (Z.shiftr (ef_flow_hash flow) 32 mod Z.of_nat switches_per_pod) in
      Some [source; source_aggregation; core_start + group * switches_per_pod + core;
            num_layer_switches + target_pod * switches_per_pod + group; target].

Definition compute_fat_tree_ecmp_route_table (graph : G) (flows : list EcmpFlow)
  : option (result (RouteTableError K) (bmap K (list nat))) :=
  let graph := canonical_routing_graph graph in
  match fat_tree_params graph with
  | None => Some (Err UnsupportedTopology)
  | Some params =>
      let keys := ef_key <$> flows in
      finish_table keys (ecmp_route params <$> flows) (first_repeated_key keys)
  end.
End tables.
Arguments EcmpFlow : clear implicits.
