(* ===== verification/RouteProofs.v ===== *)
(** * The searches of a recognised fat tree

    Distances between edge switches, and the agreement of the three ways to a route: the
    search that stops at its target, the tree built once per source, and the formula of
    the equal-cost choice. The theorems on routes and tables are in RouteTables.v. *)

From S2P Require Import Prelude OrdMap Graphs BestFirst FatTree Routing.
#[local] Open Scope nat_scope.

(** ** Distances in a fat tree *)

Section distances.
Context (h : nat) (Hh : 0 < h).
#[local] Abbreviation link := (fat_tree_link h).

(** Switch layers. *)
Lemma edge_link x y : x < 2 * h * h -> link x y <-> exists o, o < h /\ y = 2 * h * h + x / h * h + o.
Proof using Hh.
  intros Hx. rewrite <- elem_of_neighbours by nia. unfold fat_tree_neighbours.
  rewrite (proj2 (Nat.ltb_lt _ _) Hx). apply elem_of_offsets.
Qed.

Lemma link_sym x y : link x y -> link y x.
Proof using Hh. intros [?|?]; [by right|by left]. Qed.

Lemma aggregation_unlinked x y : x < 2 * h * h -> y < 2 * h * h -> ~ link (2 * h * h + x) (2 * h * h + y).
Proof using Hh.
  intros Hx Hy [(q & r & o & Hq & Hr & Ho & [[E1 E2]|[E1 E2]])%up_link_inv|
                (q & r & o & Hq & Hr & Ho & [[E1 E2]|[E1 E2]])%up_link_inv]; try done; nia.
Qed.

(** The route of the equal-cost choice. *)
Definition chosen (source target group core : nat) : list nat :=
  if source =? target then [source]
  else if source / h =? target / h then [source; 2 * h * h + source / h * h + group; target]
  else [source; 2 * h * h + source / h * h + group; 2 * (2 * h * h) + group * h + core;
        2 * h * h + target / h * h + group; target].

Lemma core_link x r o : x < 2 * h -> r < h -> o < h -> link (2 * h * h + x * h + r) (2 * (2 * h * h) + r * h + o).
Proof using Hh.
  intros Hx Hr Ho. left. replace (2 * h * h + x * h + r) with (2 * h * h + (x * h + r)) by lia.
  replace (2 * (2 * h * h)) with (4 * h * h) by lia. by apply up_link_core.
Qed.

Lemma chosen_walk source target group core : source < 2 * h * h -> target < 2 * h * h -> group < h -> core < h ->
  Walk link source target (chosen source target group core).
Proof using Hh.
  intros Hs Ht Hg Hc. unfold chosen. destruct (Nat.eqb_spec source target) as [->|Hne]; [constructor|].
  assert (Hup : link source (2 * h * h + source / h * h + group)) by (apply edge_link; eauto).
  assert (Hdown : link (2 * h * h + target / h * h + group) target) by (apply link_sym, edge_link; eauto).
  destruct (Nat.eqb_spec (source / h) (target / h)) as [E|Hp].
  - eapply Walk_cons; [exact Hup|]. rewrite E. eapply Walk_cons; [exact Hdown|constructor].
  - assert (source / h < 2 * h) by (apply div_lt; lia). assert (target / h < 2 * h) by (apply div_lt; lia).
    eapply Walk_cons; [exact Hup|]. eapply Walk_cons; [by apply core_link|].
    eapply Walk_cons; [by apply link_sym, core_link|]. eapply Walk_cons; [exact Hdown|constructor].
Qed.

(** No walk is shorter: between two edge switches of a pod it passes an aggregation
    switch, and it leaves a pod through a core switch. *)
Lemma chosen_shortest source target group core : source < 2 * h * h -> target < 2 * h * h -> group < h -> core < h ->
  shortest link source target (chosen source target group core).
Proof using Hh.
  intros Hs Ht Hg Hc. split; [by apply chosen_walk|]. intros q Hq. unfold chosen.
  destruct (Nat.eqb_spec source target) as [->|Hne]; [by apply Walk_pos in Hq|].
  inversion Hq as [|? a ? p1 Ha Hw1]; subst; [done|]. apply edge_link in Ha as (o & Ho & ->); [|done].
  inversion Hw1 as [|? b ? p2 Hb Hw2]; subst; [nia|]. pose proof (Walk_pos _ _ _ _ Hw2) as Hl2.
  destruct (Nat.eqb_spec (source / h) (target / h)) as [E|Hp]; [simpl; lia|]. simpl.
  inversion Hw2 as [|? c ? p3 Hc' Hw3]; subst.
  { apply link_sym, edge_link in Hb as (o' & Ho' & E); [|done]. exfalso. apply Hp.
    assert (source / h < 2 * h) by (apply div_lt; lia). assert (target / h < 2 * h) by (apply div_lt; lia). nia. }
  pose proof (Walk_pos _ _ _ _ Hw3) as Hl3. inversion Hw3 as [|? d ? p4 Hd Hw4]; subst; [|apply Walk_pos in Hw4; simpl; lia].
  apply link_sym, edge_link in Hc' as (o' & Ho' & ->); [|done]. exfalso.
  assert (source / h < 2 * h) by (apply div_lt; lia). assert (target / h < 2 * h) by (apply div_lt; lia).
  rewrite <- !Nat.add_assoc in Hb. eapply aggregation_unlinked; [| |exact Hb]; nia.
Qed.
End distances.

(** ** The searches of a recognised fat tree *)

Section searches.
Context {H : Type} `{HH : NodeHeap H} `{HHL : !NodeHeapLaws H}.
Context `{HG : Graph G} `{HGL : !GraphLaws G}.
Context (g : G) (params : nat * nat * nat) (Hparams : fat_tree_params g = Some params).
#[local] Abbreviation search_type := (FatTreeSearch H).

(** The two searches from an edge switch, and their common route. *)
Lemma edge_searches start target : start < params.1.1 -> target < params.1.1 ->
  exists full found p, search (H := H) (fat_tree_neighbours params) (node_count g) start None = Some (false, full)
    /\ search (H := H) (fat_tree_neighbours params) (node_count g) start (Some target) = Some (true, found)
    /\ length full.1.1 = node_count g /\ length found.1.1 = node_count g
    /\ (exists v, full.1.1 !! target = Some (Some v))
    /\ path_from_came_from full.1.2 start target = Some p
    /\ path_from_came_from found.1.2 start target = Some p
    /\ shortest (adjacent g) start target p.
Proof using All.
  intros Hs Ht. destruct (fat_tree_params_spec g params Hparams) as (h & Hh & -> & Hn & Hadj). cbn [fst] in *.
  destruct (search_routes (H := H) (fat_tree_neighbours (2 * h * h, h, 2 * h)) (node_count g) start) with (t := target)
    as (full & b & s & Hfull & Hearly & Hl1 & Hl2 & Hb); [nia| |nia|].
  { intros x y Hx. rewrite Hn in Hx |- *. by apply neighbours_in_range. }
  assert (Hto : forall p, Walk (adjacent g) start target p ->
    Walk (step_of (fat_tree_neighbours (2 * h * h, h, 2 * h))) start target p).
  { intros p. apply (Walk_mono_in (fun x => x < 5 * h * h)); [|nia]. intros a c Ha Hac%Hadj.
    apply elem_of_neighbours in Hac; [|done..]. split; [done|by eapply neighbours_in_range]. }
  assert (Hof : forall p, Walk (step_of (fat_tree_neighbours (2 * h * h, h, 2 * h))) start target p ->
    Walk (adjacent g) start target p).
  { intros p. apply (Walk_mono_in (fun x => x < 5 * h * h)); [|nia]. intros a c Ha Hac.
    split; [by apply Hadj, elem_of_neighbours|by eapply neighbours_in_range]. }
  destruct b.
  - destruct Hb as (v & p & Hv & Hp1 & Hp2 & Hw & Hmin). exists full, s, p. split_and!; [done..|by exists v|done|done|].
    split; [by apply Hof|]. intros q Hq. by apply Hmin, Hto.
  - destruct Hb as [_ Hnone]. exfalso. eapply Hnone, Hto, Walk_mono, (chosen_walk h Hh start target 0 0); [|done..].
    intros a c. apply Hadj.
Qed.

(** What the early-stopping search of a new state answers. *)
Definition one_off (start target : nat) : option (option (list nat)) :=
  fst <$> route (fat_tree_search_new (H := H) (node_count g) params) start target.

Definition sized (self : search_type) : Prop :=
  fs_params self = params /\ length (fs_scores self) = node_count g.

(** The state of a worker: the tree it holds is the complete one of its source. *)
Definition tree_ok (self : search_type) : Prop :=
  sized self /\ forall s, fs_tree_source self = Some s ->
    exists full, search (H := H) (fat_tree_neighbours params) (node_count g) s None = Some (false, full)
      /\ fs_scores self = full.1.1 /\ fs_came_from self = full.1.2.

Lemma new_tree_ok : tree_ok (fat_tree_search_new (node_count g) params).
Proof using Type. split; [split; [done|]; cbn; by rewrite length_replicate|done]. Qed.

Lemma serves_spec (self : search_type) s t : sized self ->
  serves self s t = true <-> s < params.1.1 /\ t < params.1.1.
Proof using All.
  intros [Hp _]. unfold serves. rewrite Hp. destruct params as [[nls spp] pods].
  by rewrite andb_true_iff, !Nat.ltb_lt.
Qed.

Lemma one_off_found s t found p : s < params.1.1 -> t < params.1.1 ->
  search (H := H) (fat_tree_neighbours params) (node_count g) s (Some t) = Some (true, found) ->
  path_from_came_from found.1.2 s t = Some p -> one_off s t = Some (Some p).
Proof using All.
  intros Hs Ht He Hp. unfold one_off, route.
  rewrite (proj2 (serves_spec _ s t (proj1 new_tree_ok))) by done. cbn [negb].
  unfold fat_tree_search. cbn [fat_tree_search_new fs_params fs_scores]. rewrite length_replicate, He.
  destruct found as [[sc cf] hp]. cbn [mbind option_bind fs_came_from fst snd] in *. by rewrite Hp.
Qed.

Lemma one_off_unserved self s t : tree_ok self -> serves self s t = false -> one_off s t = Some None.
Proof using All.
  intros Hok Hs. unfold one_off, route. destruct (serves (fat_tree_search_new _ _) s t) eqn:Hs'; [|done].
  apply (serves_spec _ _ _ (proj1 new_tree_ok)) in Hs'. apply (serves_spec self s t) in Hs'; [congruence|apply Hok].
Qed.

Lemma one_off_served s t : s < params.1.1 -> t < params.1.1 ->
  exists p, one_off s t = Some (Some p) /\ shortest (adjacent g) s t p.
Proof using All.
  intros Hs Ht. destruct (edge_searches s t Hs Ht) as (full & found & p & _ & He & _ & _ & _ & _ & Hp & Hsh).
  exists p. split; [by eapply one_off_found|done].
Qed.

Lemma route_spec self s t : tree_ok self ->
  exists r self', route self s t = Some (r, self') /\ tree_ok self' /\ one_off s t = Some r.
Proof using All.
  intros [[Hp Hn] Htree]. destruct (serves self s t) eqn:Hs.
  - apply serves_spec in Hs as [Hs Ht]; [|done].
    destruct (edge_searches s t Hs Ht) as (full & found & p & _ & He & _ & Hl & _ & _ & Hr & _).
    destruct found as [[sc cf] hp]. cbn [fst snd] in *.
    exists (Some p), (mkFatTreeSearch params sc cf hp None). split_and!.
    + unfold route. rewrite (proj2 (serves_spec self s t (conj Hp Hn))) by done. cbn [negb].
      unfold fat_tree_search. rewrite Hp, Hn, He. cbn [mbind option_bind fs_came_from]. by rewrite Hr.
    + by split.
    + by eapply one_off_found.
  - exists None, self. split_and!; [|by split|by eapply (one_off_unserved self)]. unfold route. by rewrite Hs.
Qed.

Lemma tree_of_spec self s t : tree_ok self -> s < params.1.1 -> t < params.1.1 ->
  exists self', tree_of self s = Some self' /\ tree_ok self' /\ exists full,
    search (H := H) (fat_tree_neighbours params) (node_count g) s None = Some (false, full)
    /\ fs_scores self' = full.1.1 /\ fs_came_from self' = full.1.2.
Proof using All.
  intros Hok Hs Ht. unfold tree_of. case_bool_decide as Hsrc.
  { exists self. split_and!; [done|done|]. by apply Hok. }
  destruct Hok as [[Hp Hn] _].
  destruct (edge_searches s t Hs Ht) as (full & found & p & Hf & _ & Hl & _).
  unfold fat_tree_search. rewrite Hp, Hn, Hf. destruct full as [[sc cf] hp]. cbn [mbind option_bind].
  eexists. split; [reflexivity|]. split; [|by eexists]. split; [done|]. intros s' [= <-]. by eexists.
Qed.

Lemma tree_route_spec self s t : tree_ok self ->
  exists r self', tree_route self s t = Some (r, self') /\ tree_ok self' /\ one_off s t = Some r.
Proof using All.
  intros Hok. destruct (serves self s t) eqn:Hsv.
  - apply serves_spec in Hsv as [Hs Ht]; [|apply Hok].
    destruct (edge_searches s t Hs Ht) as (full & found & p & Hf & He & _ & _ & (v & Hv) & Hr & Hr' & _).
    destruct (tree_of_spec self s t Hok Hs Ht) as (self' & Hto & Hok' & full' & Hf' & Esc & Ecf).
    rewrite Hf in Hf'. injection Hf' as <-. exists (Some p), self'. split_and!; [|done|].
    + unfold tree_route. rewrite (proj2 (serves_spec self s t (proj1 Hok))) by done. cbn [negb].
      rewrite Hto. cbn [mbind option_bind]. rewrite Esc, Hv. cbn [mbind option_bind]. by rewrite Ecf, Hr.
    + by eapply one_off_found.
  - exists None, self. split_and!; [|done|by eapply one_off_unserved]. unfold tree_route. by rewrite Hsv.
Qed.
End searches.
