(* ===== verification/RouteTables.v ===== *)
(** * Route tables and routes

    Whatever the number of workers, a table is the one a serial loop builds with one
    search per flow ([serial_table]): the same routes, and the same first error
    ([route_table_ignores_budget]). Every route is shortest ([routes_are_shortest]), the
    state a worker reuses never shows ([tree_routes_equal_searches]), and the equal-cost
    choice gives shortest routes too ([ecmp_routes_shortest]). *)

From S2P Require Import Prelude OrdMap Graphs BestFirst EdgeLists FatTree Routing RouteProofs.
#[local] Open Scope nat_scope.

(** ** Contiguous ranges *)

Inductive spans : nat -> nat -> list (nat * nat) -> Prop :=
| spans_nil a : spans a a []
| spans_cons a b c l : a <= b -> spans b c l -> spans a c ((a, b) :: l).

Lemma spans_snoc a b c l : spans a b l -> b <= c -> spans a c (l ++ [(b, c)]).
Proof.
  induction 1 as [a|a b' b l Hab _ IH]; intros Hc; simpl.
  - by econstructor; [|constructor].
  - econstructor; [done|by apply IH].
Qed.

Lemma spans_le a b l : spans a b l -> a <= b.
Proof. induction 1; lia. Qed.

Definition slice {A} (l : list A) (part : nat * nat) : list A := take (part.2 - part.1) (drop part.1 l).

Lemma spans_slices {A} (l : list A) a b ranges : spans a b ranges ->
  concat (slice l <$> ranges) = take (b - a) (drop a l).
Proof.
  induction 1 as [a|a b c ranges Hab Hs IH]; [by rewrite Nat.sub_diag|].
  rewrite fmap_cons. cbn [concat]. rewrite IH. pose proof (spans_le _ _ _ Hs). unfold slice. cbn [fst snd].
  replace (c - a) with ((b - a) + (c - b)) by lia. rewrite <- take_take_drop. f_equal.
  rewrite drop_drop. by replace (a + (b - a)) with b by lia.
Qed.

Lemma part_step_spans weight parts total len : forall i s,
  (let '(ranges, part_start, _, _) := s in spans 0 part_start ranges /\ part_start <= i) ->
  let '(ranges, part_start, _, _) := foldl (part_step weight parts total) s (seq i len) in
  spans 0 part_start ranges /\ part_start <= i + len.
Proof.
  induction len as [|len IH]; intros i [[[ranges start] current] before] [Hs Hle]; simpl; [split; [done|lia]|].
  rewrite <- Nat.add_succ_comm. apply IH. unfold part_step.
  destruct (negb _); [|split; [done|lia]]. destruct (Nat.ltb_spec start i) as [Hlt|Hge].
  - split; [by apply spans_snoc|lia].
  - assert (start = i) as <- by lia. split; [done|lia].
Qed.

(** The parts of the source-grouped positions cover them, in order. *)
Lemma source_group_parts_cover endpoints grouped tree_weight workers :
  concat (slice grouped <$> source_group_parts endpoints grouped tree_weight workers) = grouped.
Proof.
  unfold source_group_parts. case_bool_decide as Hg; [by subst|].
  set (weight := position_weight _ _ _). set (total := sum_list _).
  pose proof (part_step_spans weight (Nat.min workers (length grouped)) total (length grouped) 0 ([], 0, 0, 0)) as Hp.
  destruct (foldl _ _ _) as [[[ranges start] current] before].
  destruct Hp as [Hs Hle]; [split; [constructor|lia]|].
  rewrite (spans_slices _ 0 (length grouped)); [by rewrite Nat.sub_0_r, drop_0, firstn_all|].
  by apply spans_snoc.
Qed.

(** ** Chunks *)

Lemma chunks_concat {A} size (l : list A) : 0 < size -> concat (chunks size l) = l.
Proof.
  intros Hs. unfold chunks. assert (Hle : length l <= length l) by lia. revert Hle.
  generalize (length l) at 2 3. intros fuel. revert l.
  induction fuel as [|fuel IH]; intros l Hl; [by destruct l; [|simpl in Hl; lia]|].
  destruct l as [|x l]; [done|]. cbn [chunks_of concat].
  rewrite IH, take_drop; [done|]. rewrite length_drop. simpl in *. lia.
Qed.

Lemma route_chunk_len_pos count workers : 0 < workers -> 0 < route_chunk_len count workers.
Proof.
  intros Hw. unfold route_chunk_len, nat_div_ceil. destruct (Nat.eqb_spec count 0); [lia|].
  set (k := if workers <? count then workers else count).
  assert (0 < k) by (subst k; destruct (Nat.ltb_spec workers count); lia).
  destruct (Nat.eqb_spec (count mod k) 0) as [E|E]; [|lia].
  pose proof (Nat.div_mod_eq count k). nia.
Qed.

(** ** Writing parts *)

Section writes.
Context {A : Type} (f : nat -> A).

Lemma write_lookup ps : forall (l : list A) i,
  foldl (fun l pr => <[pr.1 := pr.2]> l) l (zip ps (f <$> ps)) !! i
  = if decide (i ∈ ps) then (fun _ => f i) <$> l !! i else l !! i.
Proof.
  induction ps as [|p ps IH]; intros l i; cbn [fmap list_fmap zip zip_with foldl].
  - by rewrite decide_False by (apply not_elem_of_nil).
  - rewrite IH. cbn [fst snd]. destruct (decide (i = p)) as [->|Hne].
    + rewrite (decide_True (P := p ∈ p :: ps)) by set_solver.
      destruct (decide (p < length l)) as [Hlt|Hge].
      * rewrite list_lookup_insert_eq by done. destruct (lookup_lt_is_Some_2 _ _ Hlt) as [y ->]. simpl. by case_decide.
      * rewrite list_insert_ge, (lookup_ge_None_2 l p) by lia. simpl. by case_decide.
    + rewrite list_lookup_insert_ne by done. destruct (decide (i ∈ ps)) as [Hi|Hi].
      * by rewrite decide_True by set_solver.
      * by rewrite decide_False by set_solver.
Qed.

Lemma write_all ps (l : list A) : ps ≡ₚ seq 0 (length l) ->
  foldl (fun l pr => <[pr.1 := pr.2]> l) l (zip ps (f <$> ps)) = f <$> seq 0 (length l).
Proof.
  intros Hp. apply list_eq. intros i. rewrite write_lookup, list_lookup_fmap.
  assert (Hin : i ∈ ps <-> i < length l) by (rewrite Hp, elem_of_seq; lia).
  destruct (decide (i < length l)) as [Hlt|Hge].
  - rewrite decide_True by (by apply Hin). rewrite lookup_seq_lt by done.
    by destruct (lookup_lt_is_Some_2 _ _ Hlt) as [y ->].
  - rewrite decide_False by (by rewrite Hin). rewrite !lookup_ge_None_2; [done|rewrite length_seq; lia|lia].
Qed.
End writes.

(** ** The serial table *)

Section serial.
Context (H : Type) `{HH : NodeHeap H} `{HG : Graph G} {K : Type} `{HK : OrdKey K}.

(** One search per flow, in submission order; the first flow that repeats a key or has
    no route is reported. *)
Fixpoint serial_table (graph : G) (seen : bset K) (table : bmap K (list nat))
    (flows : list (K * nat * nat)) : option (result (RouteTableError K) (bmap K (list nat))) :=
  match flows with
  | [] => Some (Ok table)
  | (key, source, target) :: flows =>
      if bs_contains key seen then Some (Err (DuplicateKey key))
      else
        r ← try_compute_route_in_canonical_graph H graph source target;
        match r with
        | Some path => serial_table graph (bs_add key seen) (bm_insert key path table) flows
        | None => Some (Err (Unreachable key))
        end
  end.
End serial.

Lemma repeated_from_S {K} `{OrdKey K} (keys : list K) : forall seen i,
  repeated_from seen (S i) keys = S <$> repeated_from seen i keys.
Proof.
  induction keys as [|k keys IH]; intros seen i; [done|]. cbn [repeated_from].
  destruct (bs_insert k seen) as [[|] seen']; [apply IH|done].
Qed.

Section tables.
Context {H : Type} `{HH : NodeHeap H} `{HHL : !NodeHeapLaws H}.
Context `{HG : Graph G} `{HGL : !GraphLaws G} {K : Type} `{HK : OrdKey K}.
Context (g : G).

(** The route of a pair of endpoints. *)
Definition selected (e : nat * nat) : option (list nat) :=
  default None (try_compute_route_in_canonical_graph H g e.1 e.2).

Lemma selected_spec e : try_compute_route_in_canonical_graph H g e.1 e.2 = Some (selected e).
Proof using All.
  unfold selected, try_compute_route_in_canonical_graph. destruct (fat_tree_params g) as [params|] eqn:Hp; [|done].
  destruct (route_spec (H := H) g params Hp _ e.1 e.2 (new_tree_ok g params)) as (r & s & -> & _). done.
Qed.

Lemma fill_spec endpoints : forall previous, fat_tree_params g = None ->
  (forall e r, previous = Some (e, r) -> r = selected e) ->
  fill_from g previous endpoints = selected <$> endpoints.
Proof using All.
  induction endpoints as [|e endpoints IH]; intros previous Hp Hprev; [done|]. cbn [fill_from].
  assert (He : match previous with
               | Some (e', r) => if bool_decide (e' = e) then r else astar_route g e.1 e.2
               | None => astar_route g e.1 e.2
               end = selected e).
  { assert (Hs : astar_route g e.1 e.2 = selected e)
      by (unfold selected, try_compute_route_in_canonical_graph; by rewrite Hp).
    destruct previous as [[e' r]|]; [|done]. case_bool_decide; [|done]. subst. by apply Hprev. }
  rewrite He, fmap_cons. f_equal. apply IH; [done|]. by intros e' r [= <- <-].
Qed.

Lemma scatter_routes_spec endpoints workers : 0 < workers -> fat_tree_params g = None ->
  scatter_routes g endpoints workers = selected <$> endpoints.
Proof using All.
  intros Hw Hp. unfold scatter_routes. destruct (_ <? 2); [by apply fill_spec|].
  assert (E : fill_route_chunk g <$> chunks (route_chunk_len (length endpoints) workers) endpoints
    = fmap selected <$> chunks (route_chunk_len (length endpoints) workers) endpoints).
  { apply list_fmap_ext. intros i l _. by apply fill_spec. }
  rewrite E. rewrite <- (chunks_concat (route_chunk_len (length endpoints) workers) endpoints) at 3
    by (by apply route_chunk_len_pos).
  generalize (chunks (route_chunk_len (length endpoints) workers) endpoints). clear E.
  intros ls. induction ls as [|l ls IH]; [done|]. rewrite fmap_cons. cbn [concat]. by rewrite fmap_app, IH.
Qed.

Section fat_tree.
Context (params : nat * nat * nat) (Hparams : fat_tree_params g = Some params).

Lemma group_spec (endpoints : list (nat * nat)) positions : forall search previous,
  tree_ok (H := H) g params search -> (forall e r, previous = Some (e, r) -> r = selected e) ->
  Forall (fun p => p < length endpoints) positions ->
  route_group_from H g endpoints search previous positions
  = Some ((fun p => selected (endpoints !!! p)) <$> positions).
Proof using All.
  induction positions as [|p positions IH]; intros search previous Hok Hprev Hf; [done|].
  apply Forall_cons in Hf as [Hlt Hf]. cbn [route_group_from].
  pose proof (list_lookup_lookup_total_lt _ _ Hlt) as He. rewrite He. cbn [mbind option_bind].
  set (e := endpoints !!! p) in *.
  assert (Hfresh : exists search', tree_ok (H := H) g params search'
    /\ ('(path, search) ← tree_route search e.1 e.2; Some (or_else path (astar_route g e.1 e.2), search))
       = Some (selected e, search')).
  { destruct (tree_route_spec (H := H) g params Hparams search e.1 e.2 Hok) as (r & search' & -> & Hok' & Hone).
    exists search'. split; [done|]. cbn [mbind option_bind]. do 2 f_equal. pose proof (selected_spec e) as Hsel.
    unfold try_compute_route_in_canonical_graph in Hsel. rewrite Hparams in Hsel. unfold one_off in Hone.
    destruct (route _ e.1 e.2) as [[path s']|]; [|done]. injection Hone as ->. by injection Hsel. }
  destruct Hfresh as (search' & Hok' & Hfresh).
  assert (Hr : exists search2, tree_ok (H := H) g params search2
    /\ match previous with
       | Some (e', r) => if bool_decide (e' = e) then Some (r, search)
                         else '(path, search) ← tree_route search e.1 e.2;
                              Some (or_else path (astar_route g e.1 e.2), search)
       | None => '(path, search) ← tree_route search e.1 e.2;
                 Some (or_else path (astar_route g e.1 e.2), search)
       end = Some (selected e, search2)).
  { destruct previous as [[e' r]|]; [|by exists search']. case_bool_decide; [|by exists search'].
    subst e'. exists search. split; [done|]. by rewrite <- (Hprev e r). }
  destruct Hr as (search2 & Hok2 & ->). cbn [mbind option_bind].
  rewrite (IH search2 (Some (e, selected e)) Hok2); [done| |done]. by intros e' r [= <- <-].
Qed.

Lemma scatter_fat_tree_spec endpoints workers :
  scatter_fat_tree_routes H g params endpoints workers = Some (selected <$> endpoints).
Proof using All.
  unfold scatter_fat_tree_routes. set (grouped := sort_by _ _). set (weight := _ + _).
  assert (Hperm : grouped ≡ₚ seq 0 (length endpoints)) by apply sort_by_perm.
  set (f := fun p => selected (endpoints !!! p)).
  assert (Hall : forall ranges routes, (forall r p, r ∈ ranges -> p ∈ slice grouped r -> p < length endpoints) ->
    fold_option (write_part H g params endpoints grouped) routes ranges
    = Some (foldl (fun l pr => <[pr.1 := pr.2]> l) routes
              (zip (concat (slice grouped <$> ranges)) (f <$> concat (slice grouped <$> ranges))))).
  { induction ranges as [|r ranges IH]; intros routes Hin; [done|]. cbn [fold_option].
    assert (Hw : write_part H g params endpoints grouped routes r
      = Some (foldl (fun l pr => <[pr.1 := pr.2]> l) routes
                (zip (slice grouped r) (f <$> slice grouped r)))).
    { unfold write_part, route_source_groups. fold (slice grouped r).
      rewrite group_spec; [done|by apply new_tree_ok|done|].
      apply Forall_forall. intros p Hp. eapply Hin; [left|done]. }
    rewrite Hw. cbn [mbind option_bind]. rewrite IH by (intros; eapply Hin; [by right|done]).
    rewrite fmap_cons. cbn [concat]. rewrite fmap_app, zip_with_app, foldl_app by (by rewrite length_fmap). done. }
  rewrite Hall.
  - rewrite source_group_parts_cover. rewrite <- (length_replicate (length endpoints) (None : option (list nat))) in Hperm.
    rewrite (write_all f grouped (replicate (length endpoints) None) Hperm), length_replicate. f_equal.
    rewrite (table_of_list endpoints) at 2. by rewrite <- list_fmap_compose.
  - intros r p _ Hp. unfold slice in Hp. assert (Hg : p ∈ grouped).
    { apply elem_of_take in Hp as (i & Hi & _). rewrite lookup_drop in Hi. by apply list_elem_of_lookup_2 in Hi. }
    rewrite Hperm, elem_of_seq in Hg. lia.
Qed.
End fat_tree.

Lemma finish_serial (flows : list (K * nat * nat)) : forall (seen : bset K) table,
  serial_table H g seen table flows
  = let keys := (fun f => f.1.1) <$> flows in
    let endpoints := (fun f => (f.1.2, f.2)) <$> flows in
    let dup := repeated_from seen 0 keys in
    let routes := selected <$> take (default (length keys) dup) endpoints in
    match first_unrouted routes with
    | Some index => key ← keys !! index; Some (Err (Unreachable key))
    | None =>
        match dup with
        | Some index => key ← keys !! index; Some (Err (DuplicateKey key))
        | None =>
            table ← fold_option (fun table kr => path ← kr.2; Some (bm_insert kr.1 path table)) table (zip keys routes);
            Some (Ok table)
        end
    end.
Proof using All.
  induction flows as [|[[k s] t] flows IH]; intros seen table; [done|]. cbn [serial_table].
  rewrite !fmap_cons. cbn [fst snd repeated_from]. unfold bs_insert. cbv zeta.
  destruct (bs_contains k seen); [done|]. cbn [negb]. rewrite repeated_from_S.
  pose proof (selected_spec (s, t)) as Hsel. cbn [fst snd] in Hsel. rewrite Hsel. cbn [mbind option_bind].
  set (dup := repeated_from (bs_add k seen) 0 _).
  assert (Hr : default (length (k :: ((fun f : K * nat * nat => f.1.1) <$> flows))) (S <$> dup)
               = S (default (length ((fun f : K * nat * nat => f.1.1) <$> flows)) dup)) by (by destruct dup).
  rewrite Hr. cbn [take]. rewrite fmap_cons. cbn [first_unrouted].
  destruct (selected (s, t)) as [path|]; [|done]. rewrite IH. cbv zeta. fold dup.
  destruct (first_unrouted _) as [i|]; [done|]. by destruct dup.
Qed.
End tables.

(** C9. The budget of route workers never shows. Whatever the number of workers, the route
    table of any graph is the one a serial loop builds with one early-stopping search (or
    A* search) per flow: every flow gets the same route, although the workers read them
    from per-source search trees, copy the route of an equal pair or split the flows into
    chunks; and the reported error is the first failing flow in submission order. *)
Theorem route_table_ignores_budget {H} `{NodeHeapLaws H} {G} `{GraphLaws G} {K} `{OrdKey K}
    (graph : G) (flows : list (K * nat * nat)) (workers : nat) :
  compute_shortest_path_route_table_with H graph flows (route_workers workers)
  = serial_table H (canonical_routing_graph graph) [] [] flows.
Proof.
  assert (Hw : 0 < route_workers workers).
  { unfold route_workers. destruct (Nat.ltb_spec workers 1); [lia|].
    destruct (Nat.ltb_spec MAX_ROUTE_WORKERS workers); unfold MAX_ROUTE_WORKERS; lia. }
  unfold compute_shortest_path_route_table_with. rewrite finish_serial. cbv zeta.
  set (c := canonical_routing_graph graph). destruct (fat_tree_params c) as [params|] eqn:Hp.
  - rewrite (scatter_fat_tree_spec c params Hp). done.
  - rewrite (scatter_routes_spec (H := H) c) by done. done.
Qed.

(** ** Routes of any graph *)

(** C11. Routes are shortest. On any graph the router answers every query without a panic:
    it returns a walk of the graph with as few switches as any, or no route where the
    target cannot be reached. On a recognised fat tree the answer comes from the search
    over computed neighbours, elsewhere from A*. *)
Theorem routes_are_shortest {H} `{NodeHeapLaws H} {G} `{GraphLaws G} (graph : G) (start target : nat) :
  start < node_count graph ->
  exists r, try_compute_route_in H graph start target = Some r
    /\ match r with
       | Some p => shortest (adjacent graph) start target p
       | None => forall p, ~ Walk (adjacent graph) start target p
       end.
Proof.
  intros Hs. unfold try_compute_route_in. pose proof (canonical_adjacent graph) as Hadj.
  rewrite <- canonical_node_count in Hs. set (c := canonical_routing_graph graph) in *. clearbody c.
  assert (Hastar : match astar_route c start target with
    | Some p => shortest (adjacent graph) start target p
    | None => forall p, ~ Walk (adjacent graph) start target p
    end).
  { unfold astar_route. destruct (astar c start target) as [[cost p]|] eqn:Ha; cbn.
    - apply astar_some in Ha as [Ha _]. by eapply shortest_iff.
    - intros p Hw. eapply astar_none in Ha; [|done]. apply Ha. eapply Walk_mono, Hw. intros. by apply Hadj. }
  unfold try_compute_route_in_canonical_graph. destruct (fat_tree_params c) as [params|] eqn:Hp; [|by eexists].
  destruct (route_spec (H := H) c params Hp _ start target (new_tree_ok c params)) as (r & self & Hr & _ & Ho).
  rewrite Hr. cbn [mbind option_bind]. destruct (decide (start < params.1.1 /\ target < params.1.1)) as [[Ha Hb]|Hn].
  - destruct (one_off_served (H := H) c params Hp start target Ha Hb) as (p & Ho' & Hsh).
    rewrite Ho in Ho'. injection Ho' as ->. eexists. split; [done|]. by eapply shortest_iff.
  - assert (Hsv : serves (fat_tree_search_new (H := H) (node_count c) params) start target = false).
    { apply not_true_iff_false. intros E. by apply (serves_spec c params Hp _ _ _ (proj1 (new_tree_ok c params))) in E. }
    rewrite (one_off_unserved c params Hp _ start target (new_tree_ok c params) Hsv) in Ho.
    injection Ho as <-. by eexists.
Qed.

(** ** One worker state, many queries *)

(** The answers of a worker to a sequence of queries; [true] asks the tree. *)
Fixpoint answers {H} `{NodeHeap H} (self : FatTreeSearch H) (queries : list (bool * (nat * nat)))
  : option (list (option (list nat))) :=
  match queries with
  | [] => Some []
  | (tree, (s, t)) :: queries =>
      '(r, self) ← (if (tree : bool) then tree_route self s t else route self s t);
      rest ← answers self queries;
      Some (r :: rest)
  end.

Lemma answers_spec {H} `{NodeHeapLaws H} {G} `{GraphLaws G} (g : G) params queries :
  fat_tree_params g = Some params -> forall self, tree_ok g params self ->
  exists rs, answers (H := H) self queries = Some rs
    /\ Forall2 (fun q r => one_off (H := H) g params q.2.1 q.2.2 = Some r) queries rs.
Proof.
  intros Hp. induction queries as [|[b [s t]] queries IH]; intros self Hok; [by exists []|].
  cbn [answers]. assert (Hq : exists r self', (if b then tree_route self s t else route self s t) = Some (r, self')
    /\ tree_ok g params self' /\ one_off (H := H) g params s t = Some r).
  { destruct b; [by apply (tree_route_spec g params Hp)|by apply (route_spec g params Hp)]. }
  destruct Hq as (r & self' & -> & Hok' & Ho). cbn [mbind option_bind].
  destruct (IH self' Hok') as (rs & -> & Hrs). cbn. eexists. split; [done|]. by constructor.
Qed.

(** C10. A worker's state never shows. A worker keeps one set of scratch arrays and the
    search tree of its last source. Whatever sequence of queries it serves, early-stopping
    searches and reads of a tree in any order, each answer is the one a fresh search that
    stops at its target gives, and between edge switches it is a shortest route. *)
Theorem tree_routes_equal_searches {H} `{NodeHeapLaws H} {G} `{GraphLaws G} (g : G) params
    (queries : list (bool * (nat * nat))) :
  fat_tree_params g = Some params ->
  exists rs, answers (fat_tree_search_new (H := H) (node_count g) params) queries = Some rs
    /\ Forall2 (fun q r => one_off (H := H) g params q.2.1 q.2.2 = Some r
         /\ (q.2.1 < params.1.1 -> q.2.2 < params.1.1 ->
             exists p, r = Some p /\ shortest (adjacent g) q.2.1 q.2.2 p)) queries rs.
Proof.
  intros Hp. destruct (answers_spec (H := H) g params queries Hp _ (new_tree_ok g params)) as (rs & Ha & Hrs).
  exists rs. split; [done|]. eapply Forall2_impl; [done|]. intros q r Hr. split; [done|]. intros Ha1 Ha2.
  destruct (one_off_served (H := H) g params Hp _ _ Ha1 Ha2) as (p & Ho & Hsh). exists p.
  split; [congruence|done].
Qed.

(** ** Equal-cost routes *)

Section ecmp.
Context {K : Type} `{HK : OrdKey K}.

Lemma repeated_from_spec (keys : list K) : forall seen i,
  match repeated_from seen i keys with
  | None => NoDup keys /\ forall k, k ∈ keys -> k ∉ seen
  | Some j => i <= j /\ exists k, keys !! (j - i) = Some k /\ (k ∈ seen \/ k ∈ take (j - i) keys)
  end.
Proof using All.
  induction keys as [|k keys IH]; intros seen i; cbn [repeated_from].
  { split; [constructor|]. intros k Hk. by apply not_elem_of_nil in Hk. }
  unfold bs_insert. cbv zeta. destruct (bs_contains k seen) eqn:Hk; cbn [negb].
  { apply bs_contains_spec in Hk. split; [done|]. exists k. rewrite Nat.sub_diag. auto. }
  apply not_true_iff_false in Hk. rewrite bs_contains_spec in Hk. specialize (IH (bs_add k seen) (S i)).
  destruct (repeated_from _ _ keys) as [j|].
  - destruct IH as (Hle & k' & Hl & Hin). split; [lia|]. exists k'. replace (j - i) with (S (j - S i)) by lia.
    cbn. split; [done|]. destruct Hin as [[->|Hin]%bs_add_elem_of|Hin]; [right; left|by left|right; by right].
  - destruct IH as [Hnd Hns]. split.
    + constructor; [|done]. intros Hin. apply (Hns _ Hin), bs_add_elem_of. by left.
    + intros k' [->|Hin]%elem_of_cons; [done|]. intros Hs. apply (Hns _ Hin), bs_add_elem_of. by right.
Qed.

Lemma first_unrouted_spec routes :
  match first_unrouted routes with
  | Some i => routes !! i = Some None
  | None => forall r, r ∈ routes -> is_Some r
  end.
Proof using Type.
  induction routes as [|[p|] routes IH]; cbn; [by intros r ?%not_elem_of_nil| |done].
  destruct (first_unrouted routes); cbn; [done|]. intros r [->|Hr]%elem_of_cons; [done|by apply IH].
Qed.

Lemma collect_from (keyed : list (K * list nat)) : forall table, NoDup keyed.*1 ->
  exists table', fold_option (fun table kr => path ← kr.2; Some (bm_insert kr.1 path table)) table
      ((fun kr => (kr.1, Some kr.2)) <$> keyed) = Some table'
    /\ (forall k p, (k, p) ∈ keyed -> bm_get k table' = Some p)
    /\ (forall k, k ∉ keyed.*1 -> bm_get k table' = bm_get k table).
Proof using All.
  induction keyed as [|[k p] keyed IH]; intros table Hnd.
  { exists table. split_and!; [done| |done]. by intros k p ?%not_elem_of_nil. }
  apply NoDup_cons in Hnd as [Hk Hnd]. rewrite fmap_cons. cbn [fst snd fold_option mbind option_bind].
  destruct (IH (bm_insert k p table) Hnd) as (table' & -> & Hin & Hout). exists table'. split_and!; [done|..].
  - intros k' p' [[= -> ->]|Hkp]%elem_of_cons; [|by apply Hin]. rewrite Hout by done. apply bm_get_insert_eq.
  - intros k' Hk'. rewrite fmap_cons, not_elem_of_cons in Hk'. destruct Hk' as [Hne Hk']. cbn in Hne.
    rewrite Hout by done. by apply bm_get_insert_ne.
Qed.
End ecmp.

Lemma all_routed (routes : list (option (list nat))) : (forall r, r ∈ routes -> is_Some r) ->
  routes = Some <$> (default [] <$> routes).
Proof.
  induction routes as [|r routes IH]; intros Hr; [done|]. rewrite !fmap_cons, <- IH by (intros; apply Hr; by right).
  by destruct (Hr r) as [p ->]; [left|].
Qed.

(** The outcomes of a filled table. *)
Lemma finish_table_spec {K} `{OrdKey K} (keys : list K) routes : length routes = length keys ->
  match finish_table keys routes (first_repeated_key keys) with
  | None | Some (Err UnsupportedTopology) => False
  | Some (Err (Unreachable key)) => exists i, keys !! i = Some key /\ routes !! i = Some None
  | Some (Err (DuplicateKey key)) =>
      (forall r, r ∈ routes -> is_Some r) /\ key ∈ keys /\ ~ NoDup keys
  | Some (Ok table) => (forall r, r ∈ routes -> is_Some r) /\ NoDup keys
      /\ forall i k p, keys !! i = Some k -> routes !! i = Some (Some p) -> bm_get k table = Some p
  end.
Proof.
  intros Hlen. unfold finish_table. pose proof (first_unrouted_spec routes) as Hun.
  destruct (first_unrouted routes) as [i|].
  { destruct (lookup_lt_is_Some_2 keys i) as [k Hk]; [rewrite <- Hlen; by eapply lookup_lt_Some|].
    rewrite Hk. by exists i. }
  pose proof (repeated_from_spec keys [] 0) as Hrep. unfold first_repeated_key.
  destruct (repeated_from [] 0 keys) as [j|].
  { destruct Hrep as (_ & k & Hk & Hk'). rewrite Nat.sub_0_r in Hk, Hk'. rewrite Hk. cbn [mbind option_bind].
    split_and!; [done|by eapply list_elem_of_lookup_2|]. intros Hnd.
    destruct Hk' as [Hk'|Hk']; [by apply not_elem_of_nil in Hk'|].
    rewrite <- (take_drop_middle _ _ _ Hk) in Hnd. apply NoDup_app in Hnd as (_ & Hnd & _).
    apply (Hnd _ Hk'). by left. }
  destruct Hrep as [Hnd _]. set (paths := default [] <$> routes).
  assert (Hz : zip keys routes = (fun kr => (kr.1, Some kr.2)) <$> zip keys paths).
  { rewrite (all_routed routes Hun) at 1. fold paths. clearbody paths. clear.
    revert paths. induction keys as [|k keys IH]; intros [|p paths]; [done..|]. cbn. by rewrite <- IH. }
  assert (Hlp : length paths = length keys) by (unfold paths; by rewrite length_fmap).
  unfold collect_routes. rewrite Hz. destruct (collect_from (zip keys paths) []) as (table & -> & Hget & _).
  { by rewrite fst_zip by lia. }
  cbn [mbind option_bind]. split_and!; [done|done|]. intros i k p Hk Hp. apply Hget.
  apply list_elem_of_lookup_2 with i. apply lookup_zip_Some. split; [done|].
  unfold paths. by rewrite list_lookup_fmap, Hp.
Qed.

Lemma ecmp_route_spec {K} (h : nat) (flow : EcmpFlow K) : 0 < h ->
  match ecmp_route (2 * h * h, h, 2 * h) flow with
  | Some p => shortest (fat_tree_link h) (ef_source_switch flow) (ef_target_switch flow) p
  | None => 2 * h * h <= ef_source_switch flow \/ 2 * h * h <= ef_target_switch flow
  end.
Proof.
  intros Hh. unfold ecmp_route. set (s := ef_source_switch flow). set (t := ef_target_switch flow).
  destruct (Nat.leb_spec (2 * h * h) s) as [|Hs]; [by left|].
  destruct (Nat.leb_spec (2 * h * h) t) as [|Ht]; [by right|]. cbn [orb].
  assert (Hmod : forall z, Z.to_nat (z mod Z.of_nat h) < h).
  { intros z. pose proof (Z.mod_pos_bound z (Z.of_nat h)). lia. }
  pose proof (chosen_shortest h Hh s t _ _ Hs Ht (Hmod (ef_flow_hash flow)) (Hmod (Z.shiftr (ef_flow_hash flow) 32)))
    as Hc. unfold chosen in Hc. destruct (s =? t); [done|]. by destruct (s / h =? t / h).
Qed.

Lemma ecmp_route_inside {K} params (flow : EcmpFlow K) r : ecmp_route params flow = Some r ->
  ~ (params.1.1 <= ef_source_switch flow \/ params.1.1 <= ef_target_switch flow).
Proof.
  destruct params as [[n spp] pods]. unfold ecmp_route. cbn [fst].
  destruct (Nat.leb_spec n (ef_source_switch flow)); [done|].
  destruct (Nat.leb_spec n (ef_target_switch flow)); [done|]. lia.
Qed.

(** C13. Equal-cost routes are shortest. The equal-cost table of any graph is built without
    a panic. It is refused exactly when the graph is not a canonical fat tree, when some
    flow ends outside the edge layer, or when a key repeats, in this order; otherwise each
    flow has its own entry, a shortest route between its switches whatever its hash. *)
Theorem ecmp_routes_shortest {G} `{GraphLaws G} {K} `{OrdKey K} (graph : G) (flows : list (EcmpFlow K)) :
  let outside params (flow : EcmpFlow K) :=
    params.1.1 <= ef_source_switch flow \/ params.1.1 <= ef_target_switch flow in
  let params := fat_tree_params (canonical_routing_graph graph) in
  match compute_fat_tree_ecmp_route_table graph flows with
  | None => False
  | Some (Err UnsupportedTopology) => params = None
  | Some (Err (Unreachable key)) =>
      exists p flow, params = Some p /\ flow ∈ flows /\ ef_key flow = key /\ outside p flow
  | Some (Err (DuplicateKey key)) =>
      exists p, params = Some p /\ Forall (fun flow => ~ outside p flow) flows /\ key ∈ ef_key <$> flows
        /\ ~ NoDup (ef_key <$> flows)
  | Some (Ok table) =>
      exists p, params = Some p /\ Forall (fun flow => ~ outside p flow) flows /\ NoDup (ef_key <$> flows)
        /\ forall flow, flow ∈ flows -> exists route, bm_get (ef_key flow) table = Some route
             /\ shortest (adjacent graph) (ef_source_switch flow) (ef_target_switch flow) route
  end.
Proof.
  intros outside params. unfold compute_fat_tree_ecmp_route_table. fold params.
  destruct params as [prm|] eqn:Hp; [|done].
  destruct (fat_tree_params_spec _ _ Hp) as (h & Hh & -> & _ & Hadj).
  pose proof (fun flow : EcmpFlow K => ecmp_route_spec h flow Hh) as Hroute.
  assert (Hrt : forall (flow : EcmpFlow K) r, ecmp_route (2 * h * h, h, 2 * h) flow = Some r ->
    shortest (adjacent graph) (ef_source_switch flow) (ef_target_switch flow) r).
  { intros flow r Hr. specialize (Hroute flow). rewrite Hr in Hroute. eapply shortest_iff, Hroute.
    intros a b. by rewrite <- Hadj, canonical_adjacent. }
  assert (Hin : (forall r, r ∈ ecmp_route (2 * h * h, h, 2 * h) <$> flows -> is_Some r) ->
    Forall (fun flow => ~ outside (2 * h * h, h, 2 * h) flow) flows).
  { intros Hall. apply Forall_forall. intros flow Hf.
    destruct (Hall _ (list_elem_of_fmap_2 (ecmp_route (2 * h * h, h, 2 * h)) flows flow Hf)) as [r Hr].
    by eapply ecmp_route_inside. }
  pose proof (finish_table_spec (ef_key <$> flows) (ecmp_route (2 * h * h, h, 2 * h) <$> flows)) as Hf.
  rewrite !length_fmap in Hf. specialize (Hf eq_refl). destruct (finish_table _ _ _) as [[table|[key|key|]]|]; try done.
  - destruct Hf as (Hall & Hnd & Hget). eexists. split_and!; [done|by apply Hin|done|]. intros flow Hfl.
    destruct (Hall _ (list_elem_of_fmap_2 (ecmp_route (2 * h * h, h, 2 * h)) flows flow Hfl)) as [r Hr].
    apply list_elem_of_lookup in Hfl as [i Hi]. exists r. split; [|by apply Hrt].
    apply (Hget i); rewrite list_lookup_fmap, Hi; [done|]. exact (f_equal Some Hr).
  - destruct Hf as (Hall & Hk & Hnd). eexists. split_and!; [done|by apply Hin|done|done].
  - destruct Hf as (i & Hk & Hr). rewrite list_lookup_fmap in Hk. rewrite list_lookup_fmap in Hr. destruct (flows !! i) as [flow|] eqn:Hi; [|done].
    injection Hk as <-. apply (inj Some) in Hr. specialize (Hroute flow). rewrite Hr in Hroute.
    eexists _, flow. split_and!; [done|by eapply list_elem_of_lookup_2|done|done].
Qed.

(** ** Witnesses: the fat tree of degree 4 *)

Definition fat_tree_4 : EdgeList := from_edges (up_links 2).

Lemma routes_are_shortest_witness :
  0 < node_count fat_tree_4 /\
  exists r, try_compute_route_in ListNodeHeap fat_tree_4 0 7 = Some r
    /\ match r with
       | Some p => shortest (adjacent fat_tree_4) 0 7 p
       | None => forall p, ~ Walk (adjacent fat_tree_4) 0 7 p
       end.
Proof.
  assert (Hn : 0 < node_count fat_tree_4) by (vm_compute; lia).
  split; [exact Hn|]. apply (routes_are_shortest fat_tree_4 0 7 Hn).
Defined.

Lemma tree_routes_equal_searches_witness :
  fat_tree_params fat_tree_4 = Some (8, 2, 4) /\
  exists rs, answers (fat_tree_search_new (H := ListNodeHeap) (node_count fat_tree_4) (8, 2, 4))
      [(true, (0, 7)); (false, (3, 1)); (true, (0, 2))] = Some rs
    /\ Forall2 (fun q r => one_off (H := ListNodeHeap) fat_tree_4 (8, 2, 4) q.2.1 q.2.2 = Some r
         /\ (q.2.1 < 8 -> q.2.2 < 8 -> exists p, r = Some p /\ shortest (adjacent fat_tree_4) q.2.1 q.2.2 p))
         [(true, (0, 7)); (false, (3, 1)); (true, (0, 2))] rs.
Proof.
  assert (Hp : fat_tree_params fat_tree_4 = Some (8, 2, 4)) by (vm_compute; reflexivity).
  split; [exact Hp|]. apply (tree_routes_equal_searches fat_tree_4 (8, 2, 4) _ Hp).
Defined.

Lemma route_table_ignores_budget_witness :
  compute_shortest_path_route_table_with ListNodeHeap fat_tree_4
    [(10%Z, 0, 7); (11%Z, 3, 1); (12%Z, 0, 2); (13%Z, 0, 2)] (route_workers 3)
  = serial_table ListNodeHeap (canonical_routing_graph fat_tree_4) [] []
      [(10%Z, 0, 7); (11%Z, 3, 1); (12%Z, 0, 2); (13%Z, 0, 2)].
Proof. apply (route_table_ignores_budget fat_tree_4 _ 3). Defined.

Lemma ecmp_routes_shortest_witness :
  exists table p, compute_fat_tree_ecmp_route_table fat_tree_4 [mkEcmpFlow 10%Z 0 7 12884901889] = Some (Ok table)
    /\ bm_get 10%Z table = Some p /\ p = [0; 9; 19; 15; 7] /\ shortest (adjacent fat_tree_4) 0 7 p.
Proof.
  pose proof (ecmp_routes_shortest fat_tree_4 [mkEcmpFlow 10%Z 0 7 12884901889]) as Hc. cbv zeta in Hc.
  destruct (compute_fat_tree_ecmp_route_table fat_tree_4 [mkEcmpFlow 10%Z 0 7 12884901889])
    as [[table|e]|] eqn:E; [|exfalso; vm_compute in E; discriminate E..].
  destruct Hc as (p & _ & _ & _ & Hr). destruct (Hr _ (list_elem_of_here _ _)) as (route & Hg & Hsh).
  exists table, route. split_and!; [done|exact Hg| |exact Hsh].
  vm_compute in E. injection E as <-. vm_compute in Hg. by injection Hg as <-.
Defined.
