(* ===== verification/Topology.v ===== *)
(** * Topology builders (src/topos/build.rs, src/topos/config.rs)

    The fat tree, torus and dragonfly builders, custom graphs, host attachments and the
    structural pairing of flows. Parsing of the configuration text is not modelled: the
    builders take the parsed tables. A [u32] computation without a check wraps, as in a
    release build; [None] is a panic of an index, of a division by zero or of
    [Graph::add_edge] on a missing node. The allocation of the host list succeeds. *)

From S2P Require Import Prelude OrdMap Graphs.

(** ** Configuration tables *)

Inductive TopoCategory := FatTree | Torus | Dragonfly | SpectrumX.

Record FatTreeConfig := mkFatTreeConfig {
  ft_k : Z;
  ft_hosts_per_edge : option Z;
}.

Record TorusConfig := mkTorusConfig {
  tc_dim : Z;
  tc_n : Z;
}.

Record DragonflyConfig := mkDragonflyConfig {
  df_routers_per_group : Z;
  df_global_ports_per_router : Z;
  df_hosts_per_router : option Z;
}.

(** The parsed file of a custom graph. *)
Record NetworkGraph := mkNetworkGraph {
  ng_edges : list (Z * Z);
  ng_hosts : list Z;
}.

(** ** Profiles, attachments and errors *)

Inductive PairingPolicy := Random | SwitchOffsetHalf | SameSwitchNext.

Record HostAttachment := mkAttachment {
  ha_host_id : Z;
  ha_switch_id : Z;
}.

Record HostAttachments := mkAttachments {
  at_entries : list HostAttachment;
  at_host_ids : list Z;
  at_distinct_source_sampling : bool;
}.

Inductive ConfigFault :=
| OddK
| ZeroK
| HostsPerEdge (maximum k hosts_per_edge : Z)
| RoutersPerGroup
| GlobalPorts
| HostsPerRouter
| ZeroNodesPerDim
| EmptyEdgeList
| EmptyHostList
| MissingConfig (category : TopoCategory)
| ZeroField (index : nat)
| GpuType
| GpusNotMultiple (gpus gpus_per_server : Z)
| PartialSegment (gpus segment : Z).

Inductive OverflowFault :=
| FatTreeK
| GroupCount
| RouterCount
| RouterIdentity
| HostCount
| HostIdentity
| SegmentSize
| AswCount
| NodeIdentities.

Inductive TopologyError :=
| InvalidConfig (fault : ConfigFault)
| UnsupportedDimension (dimension : Z)
| NumericOverflow (fault : OverflowFault).

Abbreviation topo := (fueled TopologyError).

(** ** Word arithmetic *)

Definition u32_modulus : Z := 4294967296.
Definition w32 (x : Z) : Z := x mod u32_modulus.

Lemma w32_small x : 0 <= x < u32_modulus -> w32 x = x.
Proof. intros. by apply Z.mod_small. Qed.

#[global] Arguments w32 : simpl never.

(** [u32::try_from]. *)
Definition try_u32 (x : Z) : option Z := if x <=? u32_max then Some x else None.

(** [UnGraph::from_edges] of [u32] endpoints. *)
Definition graph_of `{Graph G} (edges : list (Z * Z)) : G :=
  from_edges ((fun e => (Z.to_nat e.1, Z.to_nat e.2)) <$> edges).

(** ** Host lists *)

Definition attachments_new (entries : list HostAttachment) (distinct_source_sampling : bool)
  : HostAttachments :=
  mkAttachments entries (ha_host_id <$> entries) distinct_source_sampling.

Definition attachments_identity (host_ids : list Z) : HostAttachments :=
  attachments_new ((fun host_id => mkAttachment host_id host_id) <$> host_ids) false.

Definition switch_for (self : HostAttachments) (host_id : Z) : option Z :=
  ha_switch_id <$> List.find (fun entry => ha_host_id entry =? host_id) (at_entries self).

(** [host = ordinal * switch_count + switch]. *)
Definition create_uniform_host_list (switch_count hosts_per_switch : Z)
  : result TopologyError HostAttachments :=
  _ ← ok_or (checked_mul switch_count hosts_per_switch) (NumericOverflow HostCount);
  hosts ← try_fold (fun hosts host_ordinal =>
      host_base ← ok_or (checked_mul host_ordinal switch_count) (NumericOverflow HostIdentity);
      try_fold (fun hosts switch_id =>
          host_id ← ok_or (checked_add host_base switch_id) (NumericOverflow HostIdentity);
          Ok (hosts ++ [mkAttachment host_id switch_id]))
        hosts (seqZ 0 switch_count))
    [] (seqZ 0 hosts_per_switch);
  Ok (attachments_new hosts (1 <? hosts_per_switch)).

(** ** Fat trees *)

Definition validate_fattree_params (k : Z) : result TopologyError unit :=
  if negb (k mod 2 =? 0) then Err (InvalidConfig OddK)
  else if k =? 0 then Err (InvalidConfig ZeroK)
  else Ok tt.

Definition validate_hosts_per_edge (k hosts_per_edge : Z) : result TopologyError unit :=
  let maximum := k / 2 in
  if negb ((1 <=? hosts_per_edge) && (hosts_per_edge <=? maximum))
  then Err (InvalidConfig (HostsPerEdge maximum k hosts_per_edge))
  else Ok tt.

(** [(num_layer_switches, layer_switches_per_pod, core_switches_per_agg)]; the square
    is taken in [u32] without a check. *)
Definition calculate_fattree_params (k : Z) : option (Z * Z * Z) :=
  let num_layer_switches := w32 (k * k) / 2 in
  let layer_switches_per_pod := k / 2 in
  let num_core_switches := w32 (k * k) / 4 in
  if layer_switches_per_pod =? 0 then None
  else Some (num_layer_switches, layer_switches_per_pod, num_core_switches / layer_switches_per_pod).

Definition build_edge_to_aggregation_connections (num_layer_switches layer_switches_per_pod : Z)
  : list (Z * Z) :=
  edge_id ← seqZ 0 num_layer_switches;
  let pod_id := edge_id / layer_switches_per_pod in
  let agg_start := w32 (num_layer_switches + w32 (pod_id * layer_switches_per_pod)) in
  pair edge_id <$> seqZ agg_start (w32 (agg_start + layer_switches_per_pod) - agg_start).

Definition build_aggregation_to_core_connections
    (num_layer_switches layer_switches_per_pod core_switches_per_agg : Z) : list (Z * Z) :=
  agg_id ← seqZ num_layer_switches (w32 (2 * num_layer_switches) - num_layer_switches);
  let core_group := agg_id mod layer_switches_per_pod in
  let core_start := w32 (w32 (2 * num_layer_switches) + w32 (core_group * core_switches_per_agg)) in
  pair agg_id <$> seqZ core_start (w32 (core_start + core_switches_per_agg) - core_start).

Definition build_fattree_edges
    (num_layer_switches layer_switches_per_pod core_switches_per_agg : Z) : list (Z * Z) :=
  build_edge_to_aggregation_connections num_layer_switches layer_switches_per_pod
  ++ build_aggregation_to_core_connections num_layer_switches layer_switches_per_pod core_switches_per_agg.

Inductive TopologyProfile (R : Type) :=
| FatTreeProfile (edge_switches aggregation_switches core_switches : Z)
| TorusProfile
| DragonflyProfile (groups routers_per_group : Z)
| RailFabric (profile : R)
| CustomProfile.
Arguments FatTreeProfile {R}.
Arguments TorusProfile {R}.
Arguments DragonflyProfile {R}.
Arguments RailFabric {R}.
Arguments CustomProfile {R}.

Section builders.
Context `{HG : Graph G} {R : Type}.
#[local] Abbreviation built := (G * HostAttachments * TopologyProfile R)%type.

Definition build_fat_tree (config : FatTreeConfig) : topo built :=
  k ← lift_result (ok_or (try_u32 (ft_k config)) (NumericOverflow FatTreeK));
  _ ← lift_result (validate_fattree_params k);
  let hosts_per_edge := default 1 (ft_hosts_per_edge config) in
  _ ← lift_result (validate_hosts_per_edge k hosts_per_edge);
  '(num_layer_switches, layer_switches_per_pod, core_switches_per_agg) ←
    or_panic (calculate_fattree_params k);
  let edges := build_fattree_edges num_layer_switches layer_switches_per_pod core_switches_per_agg in
  hosts ← lift_result (create_uniform_host_list num_layer_switches hosts_per_edge);
  Some (Ok (graph_of edges, hosts,
            FatTreeProfile num_layer_switches num_layer_switches (w32 (k * k) / 4))).

(** ** Dragonflies *)

(** The local links: every pair of routers of a group. *)
Definition dragonfly_local_edges (groups routers_per_group : Z) : list (Z * Z) :=
  group ← seqZ 0 groups;
  left ← seqZ 0 routers_per_group;
  (fun right => (group * routers_per_group + left, group * routers_per_group + right))
    <$> seqZ (left + 1) (routers_per_group - (left + 1)).

(** The global link of port [port] of group [group], from its lower end. *)
Definition dragonfly_global_edge (groups routers_per_group global_ports group port : Z)
  : option (Z * Z) :=
  let partner := (group + port + 1) mod groups in
  if partner <=? group then None
  else
    let partner_port := groups - port - 2 in
    Some (group * routers_per_group + port / global_ports,
          partner * routers_per_group + partner_port / global_ports).

Definition dragonfly_global_edges (groups routers_per_group global_ports : Z) : list (Z * Z) :=
  group ← seqZ 0 groups;
  omap (dragonfly_global_edge groups routers_per_group global_ports group) (seqZ 0 (groups - 1)).

Definition build_dragonfly (config : DragonflyConfig) : result TopologyError built :=
  let routers_per_group := df_routers_per_group config in
  let global_ports := df_global_ports_per_router config in
  let hosts_per_router := default 1 (df_hosts_per_router config) in
  if routers_per_group <? 2 then Err (InvalidConfig RoutersPerGroup)
  else if global_ports =? 0 then Err (InvalidConfig GlobalPorts)
  else if hosts_per_router =? 0 then Err (InvalidConfig HostsPerRouter)
  else
    groups ← ok_or (ports ← checked_mul routers_per_group global_ports; checked_add ports 1)
               (NumericOverflow GroupCount);
    router_count ← ok_or (checked_mul groups routers_per_group) (NumericOverflow RouterCount);
    _ ← ok_or (try_u32 router_count) (NumericOverflow RouterIdentity);
    let edges := dragonfly_local_edges groups routers_per_group
                 ++ dragonfly_global_edges groups routers_per_group global_ports in
    hosts ← create_uniform_host_list router_count hosts_per_router;
    Ok (graph_of edges, hosts, DragonflyProfile groups routers_per_group).

(** ** Tori *)

Definition validate_torus_params (dimension nodes_per_dim : Z) : result TopologyError unit :=
  if negb ((1 <=? dimension) && (dimension <=? 3)) then Err (UnsupportedDimension dimension)
  else if nodes_per_dim =? 0 then Err (InvalidConfig ZeroNodesPerDim)
  else Ok tt.

(** The power is taken in [u32]; the conversion to [usize] never fails. *)
Definition calculate_total_nodes (dimension nodes_per_dim : Z) : Z := w32 (nodes_per_dim ^ dimension).

Definition build_1d_torus_edges (n : Z) : list (Z * Z) :=
  (fun i => (i, w32 (i + 1) mod n)) <$> seqZ 0 n.

Definition build_2d_torus_edges (n : Z) : list (Z * Z) :=
  i ← seqZ 0 n;
  j ← seqZ 0 n;
  let current := w32 (i + w32 (j * n)) in
  [(current, w32 (w32 (i + 1) mod n + w32 (j * n)));
   (current, w32 (i + w32 (w32 (j + 1) mod n * n)))].

Definition build_3d_torus_edges (n : Z) : list (Z * Z) :=
  i ← seqZ 0 n;
  j ← seqZ 0 n;
  k ← seqZ 0 n;
  let plane := w32 (n * n) in
  let current := w32 (w32 (i + w32 (j * n)) + w32 (k * plane)) in
  [(current, w32 (w32 (w32 (i + 1) mod n + w32 (j * n)) + w32 (k * plane)));
   (current, w32 (w32 (i + w32 (w32 (j + 1) mod n * n)) + w32 (k * plane)));
   (current, w32 (w32 (i + w32 (j * n)) + w32 (w32 (k + 1) mod n * plane)))].

(** [Graph::add_edge] on a graph of [total_nodes] nodes: it panics on a missing endpoint. *)
Definition add_torus_edges (total_nodes : Z) (edges : list (Z * Z)) : option (list (Z * Z)) :=
  if forallb (fun e => (e.1 <? total_nodes) && (e.2 <? total_nodes)) edges then Some edges else None.

Definition build_torus_edges (dimension nodes_per_dim : Z) : topo (list (Z * Z)) :=
  let total_nodes := w32 (nodes_per_dim ^ dimension) in
  if dimension =? 1 then or_panic (add_torus_edges total_nodes (build_1d_torus_edges nodes_per_dim))
  else if dimension =? 2 then or_panic (add_torus_edges total_nodes (build_2d_torus_edges nodes_per_dim))
  else if dimension =? 3 then or_panic (add_torus_edges total_nodes (build_3d_torus_edges nodes_per_dim))
  else Some (Err (UnsupportedDimension dimension)).

Definition build_torus (config : TorusConfig) : topo built :=
  let dimension := w32 (tc_dim config) in
  let nodes_per_dim := w32 (tc_n config) in
  _ ← lift_result (validate_torus_params dimension nodes_per_dim);
  let total_nodes := calculate_total_nodes dimension nodes_per_dim in
  edges ← build_torus_edges dimension nodes_per_dim;
  Some (Ok (graph_of edges, attachments_identity (seqZ 0 total_nodes), TorusProfile)).

(** ** Custom graphs *)

Definition network_graph_validate (config : NetworkGraph) : result TopologyError unit :=
  if bool_decide (ng_edges config = []) then Err (InvalidConfig EmptyEdgeList)
  else if bool_decide (ng_hosts config = []) then Err (InvalidConfig EmptyHostList)
  else Ok tt.

Definition build_custom_graph (config : NetworkGraph) : result TopologyError built :=
  _ ← network_graph_validate config;
  Ok (graph_of (ng_edges config), attachments_identity (ng_hosts config), CustomProfile).
End builders.
