(* ===== verification/Pairing.v ===== *)
(** * Endpoint pairs of a flow set (src/topos/build.rs)

    The structural pairings read the attachment grid: hosts by rank of their switch and by
    ordinal on it. The random ones draw from [rand], an interface here ([Random]). The
    structural pairings are permutations that keep or leave the switch
    ([structural_pairs_permute]). An outer [None] is a panic of an index. *)

From S2P Require Import Prelude OrdMap Graphs Topology.

Inductive PairingError :=
| NoAttachment
| RaggedGrid
| CountExceedsHosts (count hosts : nat)
| RandomIsNotStructural
| OddSwitchCount (switches : nat)
| OneHostPerSwitch
| TooFewHosts
| CountExceedsSources (count hosts : nat).

Abbreviation pairing := (fueled PairingError).

(** ** The attachment grid *)

(** [by_switch.entry(switch_id).or_default().push(host_id)]. *)
Definition push_host (by_switch : bmap Z (list Z)) (entry : HostAttachment) : bmap Z (list Z) :=
  bm_insert (ha_switch_id entry)
    (default [] (bm_get (ha_switch_id entry) by_switch) ++ [ha_host_id entry]) by_switch.

Definition hosts_by_switch (entries : list HostAttachment) : bmap Z (list Z) :=
  foldl push_host [] entries.

Definition attachment_grid (self : HostAttachments) : result PairingError (list (list Z)) :=
  let by_switch := hosts_by_switch (at_entries self) in
  match sort_by Z.leb <$> by_switch.*2 with
  | [] => Err NoAttachment
  | (hosts :: _) as grid =>
      if existsb (fun row => negb (length row =? length hosts)%nat) grid then Err RaggedGrid
      else Ok grid
  end.

(** The pairs collected into a [BTreeMap]: a later pair replaces an earlier one. *)
Definition grid_positions (grid : list (list Z)) : bmap Z (nat * nat) :=
  foldl (fun m p => bm_insert p.1 p.2 m) []
    (concat (imap (fun switch hosts => imap (fun ordinal host => (host, (switch, ordinal))) hosts) grid)).

(** ** Structural pairs *)

Definition structural_target (policy : PairingPolicy) (grid : list (list Z)) (switches ordinals : nat)
    (at_ : nat * nat) : option Z :=
  match policy with
  | Random => None
  | SwitchOffsetHalf => row ← grid !! ((at_.1 + switches / 2) mod switches)%nat; row !! at_.2
  | SameSwitchNext => row ← grid !! at_.1; row !! ((at_.2 + 1) mod ordinals)%nat
  end.

Definition structural_pair (policy : PairingPolicy) (grid : list (list Z)) (switches ordinals : nat)
    (source : Z) : option (Z * Z) :=
  at_ ← bm_get source (grid_positions grid);
  pair source <$> structural_target policy grid switches ordinals at_.

Definition structural_flow_pairs (self : HostAttachments) (policy : PairingPolicy) (count : nat)
  : pairing (list (Z * Z)) :=
  grid ← lift_result (attachment_grid self);
  first ← or_panic (grid !! 0%nat);
  let switches := length grid in
  let ordinals := length first in
  if (switches * ordinals <? count)%nat
  then Some (Err (CountExceedsHosts count (switches * ordinals)))
  else match policy with
  | Random => Some (Err RandomIsNotStructural)
  | SwitchOffsetHalf =>
      if negb (switches mod 2 =? 0)%nat then Some (Err (OddSwitchCount switches))
      else
        let sources := take count (sort_by Z.leb (at_host_ids self)) in
        or_panic (mapM (structural_pair policy grid switches ordinals) sources)
  | SameSwitchNext =>
      if (ordinals <? 2)%nat then Some (Err OneHostPerSwitch)
      else
        let sources := take count (sort_by Z.leb (at_host_ids self)) in
        or_panic (mapM (structural_pair policy grid switches ordinals) sources)
  end.

(** ** Random pairs *)

(** [SliceRandom::shuffle] and [IndexedRandom::sample] of two elements. *)
Class RandomSource (R : Type) := {
  shuffle : list Z -> R -> list Z * R;
  sample_two : list Z -> R -> list Z * R;
}.

(** A shuffle permutes; two elements of a slice at distinct positions are sampled. *)
Class RandomSourceLaws (R : Type) `{RandomSource R} := {
  shuffle_perm l (r : R) : (shuffle l r).1 ≡ₚ l;
  sample_two_spec l (r : R) : (2 <= length l)%nat ->
    length (sample_two l r).1 = 2%nat /\ (sample_two l r).1 ⊆+ l;
}.

Section sampling.
Context {R : Type} `{HR : RandomSource R}.

Fixpoint sample_pairs (host_ids : list Z) (count : nat) (rng : R) : option (list (Z * Z) * R) :=
  match count with
  | O => Some ([], rng)
  | S count =>
      let '(drawn, rng) := sample_two host_ids rng in
      source ← drawn !! 0%nat;
      target ← drawn !! 1%nat;
      '(pairs, rng) ← sample_pairs host_ids count rng;
      Some ((source, target) :: pairs, rng)
  end.

Definition offset_pair (sources : list Z) (target_offset index : nat) : option (Z * Z) :=
  source ← sources !! index;
  target ← sources !! ((index + target_offset) mod length sources)%nat;
  Some (source, target).

Definition sample_flow_pairs_from (host_ids : list Z) (distinct_source_sampling : bool) (rng : R)
    (count : nat) : pairing (list (Z * Z) * R) :=
  if (length host_ids <? 2)%nat then Some (Err TooFewHosts)
  else if negb distinct_source_sampling then or_panic (sample_pairs host_ids count rng)
  else if (length host_ids <? count)%nat
  then Some (Err (CountExceedsSources count (length host_ids)))
  else
    let '(sources, rng) := shuffle host_ids rng in
    let target_offset := (length sources / 2)%nat in
    pairs ← or_panic (mapM (offset_pair sources target_offset) (seq 0 count));
    Some (Ok (pairs, rng)).

Definition sample_flow_pairs (self : HostAttachments) (rng : R) (count : nat) : pairing (list (Z * Z) * R) :=
  sample_flow_pairs_from (at_host_ids self) (at_distinct_source_sampling self) rng count.

Definition sample_canonical_flow_pairs (self : HostAttachments) (rng : R) (count : nat)
  : pairing (list (Z * Z) * R) :=
  if at_distinct_source_sampling self then sample_flow_pairs self rng count
  else sample_flow_pairs_from (sort_by Z.leb (at_host_ids self)) false rng count.
End sampling.

(** ** The grid holds every host once, one switch per row *)

Lemma push_host_spec by_switch entry : wf by_switch ->
  wf (push_host by_switch entry)
  /\ concat (push_host by_switch entry).*2 ≡ₚ ha_host_id entry :: concat by_switch.*2.
Proof.
  intros Hwf. unfold push_host. split; [by apply bm_insert_wf|].
  rewrite bm_insert_perm_remove by done. rewrite fmap_cons. cbn [snd concat].
  destruct (bm_get (ha_switch_id entry) by_switch) as [row|] eqn:E; cbn [default].
  - rewrite (bm_remove_perm _ _ _ E) at 2. rewrite fmap_cons. cbn [snd concat].
    rewrite <- app_assoc. cbn [app]. by rewrite <- Permutation_middle.
  - by rewrite bm_remove_absent.
Qed.

Lemma hosts_by_switch_perm entries : wf (hosts_by_switch entries)
  /\ concat (hosts_by_switch entries).*2 ≡ₚ ha_host_id <$> entries.
Proof.
  unfold hosts_by_switch. induction entries as [|entry entries [Hwf Hp]] using rev_ind.
  { split; [apply wf_nil|done]. }
  rewrite foldl_app, fmap_app. cbn [foldl fmap list_fmap].
  destruct (push_host_spec _ entry Hwf) as [Hwf' ->]. split; [done|]. rewrite Hp. apply Permutation_cons_append.
Qed.

(** The hosts of one switch, in attachment order. *)
Definition hosts_of (entries : list HostAttachment) (switch : Z) : list Z :=
  ha_host_id <$> filter (fun entry => ha_switch_id entry = switch) entries.

Lemma hosts_by_switch_get entries switch :
  bm_get switch (hosts_by_switch entries)
  = if decide (hosts_of entries switch = []) then None else Some (hosts_of entries switch).
Proof.
  unfold hosts_by_switch, hosts_of. induction entries as [|entry entries IH] using rev_ind; [done|].
  rewrite foldl_app, filter_app, fmap_app. cbn [foldl]. unfold push_host at 1.
  rewrite filter_cons, filter_nil. destruct (decide (ha_switch_id entry = switch)) as [<-|Hne].
  - rewrite bm_get_insert_eq, decide_False by (by intros [_ ?]%app_eq_nil). rewrite IH. case_decide as E; [by rewrite E|done].
  - rewrite bm_get_insert_ne, IH by done. cbn [fmap list_fmap]. by rewrite !app_nil_r.
Qed.

Lemma hosts_by_switch_row entries switch row host : (switch, row) ∈ hosts_by_switch entries ->
  host ∈ row -> mkAttachment host switch ∈ entries.
Proof.
  intros Hin Hh. apply bm_get_elem_of in Hin; [|apply hosts_by_switch_perm].
  rewrite hosts_by_switch_get in Hin. case_decide; [done|]. injection Hin as <-.
  apply list_elem_of_fmap in Hh as ([h s] & -> & [Hs He]%list_elem_of_filter). by cbn in *; subst.
Qed.

Lemma switch_for_entry entries b host switch : NoDup (ha_host_id <$> entries) ->
  mkAttachment host switch ∈ entries -> switch_for (attachments_new entries b) host = Some switch.
Proof.
  unfold switch_for. cbn [attachments_new at_entries]. induction entries as [|[h s] entries IH]; intros Hnd Hin.
  { by apply not_elem_of_nil in Hin. }
  rewrite fmap_cons in Hnd. apply NoDup_cons in Hnd as [Hh Hnd]. cbn [List.find ha_host_id] in *.
  apply elem_of_cons in Hin as [[= -> ->]|Hin]; [by rewrite Z.eqb_refl|].
  destruct (Z.eqb_spec h host) as [->|]; [|by apply IH]. destruct Hh.
  by apply (list_elem_of_fmap_2 ha_host_id) in Hin.
Qed.

(** ** Cells of a grid *)

Definition cell (grid : list (list Z)) (at_ : nat * nat) : option Z := row ← grid !! at_.1; row !! at_.2.

Lemma cell_elem grid at_ host : cell grid at_ = Some host -> host ∈ concat grid.
Proof.
  unfold cell. destruct (grid !! at_.1) as [row|] eqn:Hr; [|done]. cbn. intros Hh.
  apply list_elem_of_In, in_concat. exists row. rewrite <- !list_elem_of_In. eauto using list_elem_of_lookup_2.
Qed.

Lemma elem_cell grid host : host ∈ concat grid -> exists at_, cell grid at_ = Some host.
Proof.
  rewrite list_elem_of_In, in_concat. intros (row & Hr%list_elem_of_In & Hh%list_elem_of_In).
  apply list_elem_of_lookup in Hr as [i Hi]. apply list_elem_of_lookup in Hh as [o Ho].
  exists (i, o). unfold cell. cbn [fst snd]. by rewrite Hi.
Qed.

Lemma cell_unique grid : NoDup (concat grid) -> forall p q host,
  cell grid p = Some host -> cell grid q = Some host -> p = q.
Proof.
  induction grid as [|row grid IH]; intros Hnd [i o] [j o'] host; [done|].
  cbn [concat] in Hnd. apply NoDup_app in Hnd as (Hr & Hd & Hg). destruct i as [|i], j as [|j]; unfold cell; cbn.
  - intros H1 H2. by rewrite (NoDup_lookup _ _ _ _ Hr H1 H2).
  - intros H1 H2. exfalso. eapply Hd; [by eapply list_elem_of_lookup_2|by apply (cell_elem grid (j, o'))].
  - intros H1 H2. exfalso. eapply Hd; [by eapply list_elem_of_lookup_2|by apply (cell_elem grid (i, o))].
  - intros H1 H2. by injection (IH Hg (i, o) (j, o') host H1 H2) as -> ->.
Qed.

Lemma positions_elem grid host at_ :
  (host, at_) ∈ concat (imap (fun switch hosts => imap (fun ordinal host => (host, (switch, ordinal))) hosts) grid)
  <-> cell grid at_ = Some host.
Proof.
  rewrite list_elem_of_In, in_concat. setoid_rewrite <- list_elem_of_In. unfold cell. destruct at_ as [i o]. cbn [fst snd].
  split.
  - intros (row & Hr & Hin). apply elem_of_lookup_imap in Hr as (j & hosts & -> & Hj).
    apply elem_of_lookup_imap in Hin as (o' & h & [= -> -> ->] & Ho). by rewrite Hj.
  - intros Hc. destruct (grid !! i) as [row|] eqn:Hi; [|done]. cbn in Hc. eexists. split.
    + eapply list_elem_of_lookup_2. rewrite list_lookup_imap, Hi. done.
    + eapply list_elem_of_lookup_2. rewrite list_lookup_imap, Hc. done.
Qed.

Lemma collected_get {V} (pairs : list (Z * V)) k :
  match bm_get k (foldl (fun m p => bm_insert p.1 p.2 m) [] pairs) with
  | Some v => (k, v) ∈ pairs
  | None => k ∉ pairs.*1
  end.
Proof.
  induction pairs as [|[k' v'] pairs IH] using rev_ind; [by intros ?%not_elem_of_nil|].
  rewrite foldl_app, fmap_app. cbn [foldl fst snd fmap list_fmap]. destruct (decide (k' = k)) as [->|Hne].
  - rewrite bm_get_insert_eq. apply elem_of_app. right. by left.
  - rewrite bm_get_insert_ne by done. destruct (bm_get k _); [by apply elem_of_app; left|].
    rewrite elem_of_app, list_elem_of_singleton. naive_solver.
Qed.

(** Every host has a position, its cell. *)
Lemma grid_positions_spec grid host : host ∈ concat grid ->
  exists at_, bm_get host (grid_positions grid) = Some at_ /\ cell grid at_ = Some host.
Proof.
  intros Hin. unfold grid_positions.
  set (pairs := concat (imap _ grid)). pose proof (collected_get pairs host) as Hc.
  destruct (bm_get host _) as [at_|]; [exists at_; split; [done|by apply positions_elem]|].
  destruct (elem_cell grid host Hin) as [at_ Hat]. destruct Hc. apply positions_elem in Hat.
  by apply (list_elem_of_fmap_2 fst) in Hat.
Qed.

Lemma cell_uniform (grid : list (list Z)) ordinals at_ : Forall (fun row => length row = ordinals) grid ->
  is_Some (cell grid at_) <-> (at_.1 < length grid /\ at_.2 < ordinals)%nat.
Proof.
  intros Hu. unfold cell. destruct (grid !! at_.1) as [row|] eqn:Hr; cbn.
  - rewrite Forall_forall in Hu. rewrite lookup_lt_is_Some, (Hu row) by (by eapply list_elem_of_lookup_2).
    apply lookup_lt_Some in Hr. tauto.
  - apply lookup_ge_None in Hr. split; [by intros []|lia].
Qed.

(** What an accepted grid is: every host once, rows of one length, one switch per row. *)
Lemma attachment_grid_spec entries b grid : NoDup (ha_host_id <$> entries) ->
  attachment_grid (attachments_new entries b) = Ok grid ->
  concat grid ≡ₚ ha_host_id <$> entries
  /\ (exists first, grid !! 0%nat = Some first /\ Forall (fun row => length row = length first) grid)
  /\ (forall p q x y, cell grid p = Some x -> cell grid q = Some y ->
       switch_for (attachments_new entries b) x = switch_for (attachments_new entries b) y <-> p.1 = q.1).
Proof.
  intros Hnd. unfold attachment_grid. cbn [attachments_new at_entries]. destruct (hosts_by_switch_perm entries) as [Hwf Hp].
  set (m := hosts_by_switch entries) in *.
  destruct (sort_by Z.leb <$> m.*2) as [|first rest] eqn:Hrows; [done|]. destruct (existsb _ _) eqn:Hex; [done|]. intros [= <-].
  rewrite <- Hrows in Hex |- *. set (rows := sort_by Z.leb <$> m.*2) in *. split; [|split].
  - rewrite <- Hp. unfold rows. clear. induction m.*2 as [|row l IH]; [done|]. cbn. by rewrite sort_by_perm, IH.
  - exists first. split; [by rewrite Hrows|]. apply Forall_forall. intros row Hrow.
    destruct (decide (length row = length first)) as [|Hne]; [done|]. apply not_true_iff_false in Hex. destruct Hex.
    apply existsb_exists. exists row. split; [by apply list_elem_of_In|]. by apply negb_true_iff, Nat.eqb_neq.
  - assert (Hsw : forall p x, cell rows p = Some x -> exists k, m.*1 !! p.1 = Some k
      /\ switch_for (attachments_new entries b) x = Some k).
    { intros [i o] x. unfold cell, rows. cbn [fst snd]. rewrite !list_lookup_fmap.
      destruct (m !! i) as [[k row]|] eqn:Hi; [|done].
      cbn [fmap option_fmap option_map mbind option_bind fst snd]. intros Hx. exists k. split; [done|].
      apply switch_for_entry; [done|]. apply (hosts_by_switch_row _ _ row); [by eapply list_elem_of_lookup_2|].
      apply list_elem_of_lookup_2 in Hx. by rewrite sort_by_perm in Hx. }
    intros p q x y Hx Hy. destruct (Hsw p x Hx) as (k & Hk & ->), (Hsw q y Hy) as (k' & Hk' & ->). split.
    + intros [= ->]. by eapply (NoDup_lookup m.*1); [apply wf_NoDup|..].
    + intros E. rewrite E in Hk. congruence.
Qed.

(** ** The moves of the structural policies *)

Definition moved (policy : PairingPolicy) (switches ordinals : nat) (at_ : nat * nat) : nat * nat :=
  match policy with
  | Random => at_
  | SwitchOffsetHalf => (((at_.1 + switches / 2) mod switches)%nat, at_.2)
  | SameSwitchNext => (at_.1, ((at_.2 + 1) mod ordinals)%nat)
  end.

Lemma structural_target_cell policy grid switches ordinals at_ : policy <> Random ->
  structural_target policy grid switches ordinals at_ = cell grid (moved policy switches ordinals at_).
Proof. by destruct policy. Qed.

(** The conditions under which a policy pairs. *)
Definition pairs_on (policy : PairingPolicy) (switches ordinals : nat) : Prop :=
  match policy with
  | Random => False
  | SwitchOffsetHalf => (switches mod 2 = 0)%nat
  | SameSwitchNext => (2 <= ordinals)%nat
  end.

Lemma shift_mod n d x : (x < n -> d < n ->
  (x + d) mod n < n /\ (x + d = (x + d) mod n \/ x + d = (x + d) mod n + n))%nat.
Proof.
  intros Hx Hd. destruct (Nat.lt_ge_cases (x + d) n) as [H|H]; [by rewrite Nat.mod_small; auto|].
  rewrite <- (Nat.mod_unique (x + d) n 1 (x + d - n)) by lia. lia.
Qed.

Lemma moved_spec policy switches ordinals p : pairs_on policy switches ordinals ->
  (p.1 < switches)%nat -> (p.2 < ordinals)%nat ->
  let q := moved policy switches ordinals p in
  (q.1 < switches)%nat /\ (q.2 < ordinals)%nat /\ q <> p
  /\ (policy = SameSwitchNext -> q.1 = p.1) /\ (policy = SwitchOffsetHalf -> q.1 <> p.1)
  /\ forall p', (p'.1 < switches)%nat -> (p'.2 < ordinals)%nat -> moved policy switches ordinals p' = q -> p' = p.
Proof.
  destruct p as [i o]. intros Hon Hi Ho. destruct policy; [done|..]; cbn [fst snd moved pairs_on] in *.
  - assert (Hh : (0 < switches / 2 < switches)%nat).
    { pose proof (Nat.div_mod_eq switches 2). lia. }
    pose proof (shift_mod switches (switches / 2) i Hi (proj2 Hh)) as Hm. split_and!; [apply Hm|done| |done| |].
    + intros E%(f_equal fst). cbn [fst] in E. lia.
    + intros _ E. lia.
    + intros [i' o'] Hi' Ho' [E E']%pair_eq. cbn [fst snd] in *. subst o'. f_equal.
      pose proof (shift_mod switches (switches / 2) i' Hi' (proj2 Hh)). lia.
  - pose proof (shift_mod ordinals 1 o Ho ltac:(lia)) as Hm. split_and!; [done|apply Hm| |done|done|].
    + intros E%(f_equal snd). cbn [snd] in E. lia.
    + intros [i' o'] Hi' Ho' [E' E]%pair_eq. cbn [fst snd] in *. subst i'. f_equal.
      pose proof (shift_mod ordinals 1 o' Ho' ltac:(lia)). lia.
Qed.

(** One pair of a grid with distinct hosts. *)
Lemma structural_pair_spec policy grid ordinals source : NoDup (concat grid) ->
  Forall (fun row => length row = ordinals) grid -> pairs_on policy (length grid) ordinals ->
  source ∈ concat grid ->
  exists p target, structural_pair policy grid (length grid) ordinals source = Some (source, target)
    /\ cell grid p = Some source /\ cell grid (moved policy (length grid) ordinals p) = Some target.
Proof.
  intros Hnd Hu Hon Hs. destruct (grid_positions_spec grid source Hs) as (p & Hp & Hc).
  destruct (proj1 (cell_uniform grid ordinals p Hu)) as [H1 H2]; [by eexists|].
  destruct (moved_spec _ _ _ p Hon H1 H2) as (H3 & H4 & _).
  destruct (proj2 (cell_uniform grid ordinals (moved policy (length grid) ordinals p) Hu)) as [target Ht]; [done|].
  exists p, target. split_and!; [|done|done]. unfold structural_pair. rewrite Hp. cbn [mbind option_bind].
  rewrite structural_target_cell by (by intros ->). by rewrite Ht.
Qed.

Lemma mapM_structural policy grid ordinals sources : NoDup (concat grid) ->
  Forall (fun row => length row = ordinals) grid -> pairs_on policy (length grid) ordinals ->
  (forall s, s ∈ sources -> s ∈ concat grid) ->
  exists pairs, mapM (structural_pair policy grid (length grid) ordinals) sources = Some pairs
    /\ pairs.*1 = sources
    /\ Forall (fun pair => exists p, cell grid p = Some pair.1
         /\ cell grid (moved policy (length grid) ordinals p) = Some pair.2) pairs.
Proof.
  intros Hnd Hu Hon. induction sources as [|s sources IH]; intros Hs; [by exists []|].
  destruct (structural_pair_spec policy grid ordinals s Hnd Hu Hon) as (p & t & Hp & Hc & Ht); [apply Hs; by left|].
  destruct IH as (pairs & Hm & Hf & Hall); [intros; apply Hs; by right|].
  exists ((s, t) :: pairs). cbn. rewrite Hp. cbn. rewrite Hm. cbn. rewrite Hf. split_and!; [done..|].
  constructor; [by exists p|done].
Qed.

(** Distinct cells move to distinct cells. *)
Lemma targets_distinct policy (grid : list (list Z)) ordinals (pairs : list (Z * Z)) : NoDup (concat grid) ->
  Forall (fun row => length row = ordinals) grid -> pairs_on policy (length grid) ordinals ->
  NoDup pairs.*1 ->
  Forall (fun pair => exists p, cell grid p = Some pair.1
    /\ cell grid (moved policy (length grid) ordinals p) = Some pair.2) pairs ->
  NoDup pairs.*2.
Proof.
  intros Hnd Hu Hon Hs Hall. induction pairs as [|[s t] pairs IH]; [constructor|].
  rewrite fmap_cons in Hs |- *. apply NoDup_cons in Hs as [Hs Hs']. apply Forall_cons in Hall as [(p & Hp & Ht) Hall].
  constructor; [|by apply IH]. cbn [fst snd] in *. intros ([s' t'] & -> & Hin)%list_elem_of_fmap. cbn in Ht.
  pose proof (proj1 (Forall_forall _ _) Hall _ Hin) as (p' & Hp' & Ht'). cbn in Hp', Ht'.
  pose proof (cell_unique grid Hnd _ _ _ Ht' Ht) as E.
  destruct (proj1 (cell_uniform grid ordinals p Hu)) as [H1 H2]; [by eexists|].
  destruct (proj1 (cell_uniform grid ordinals p' Hu)) as [H3 H4]; [by eexists|].
  destruct (moved_spec _ _ _ p Hon H1 H2) as (_ & _ & _ & _ & _ & Hinj). rewrite (Hinj p' H3 H4 E) in Hp'.
  rewrite Hp in Hp'. injection Hp' as ->. apply Hs. by apply (list_elem_of_fmap_2 fst) in Hin.
Qed.

Lemma structural_pairs_of entries b policy count : NoDup (ha_host_id <$> entries) ->
  match structural_flow_pairs (attachments_new entries b) policy count with
  | None => False
  | Some (Err _) => True
  | Some (Ok pairs) => exists grid ordinals, attachment_grid (attachments_new entries b) = Ok grid
      /\ Forall (fun row => length row = ordinals) grid /\ pairs_on policy (length grid) ordinals
      /\ (count <= length (ha_host_id <$> entries))%nat
      /\ mapM (structural_pair policy grid (length grid) ordinals)
           (take count (sort_by Z.leb (ha_host_id <$> entries))) = Some pairs
  end.
Proof.
  intros Hnd. unfold structural_flow_pairs. destruct (attachment_grid _) as [grid|e] eqn:Hg; [|done].
  destruct (attachment_grid_spec _ _ _ Hnd Hg) as (Hp & (first & Hf & Hu) & _).
  unfold lift_result. cbn [mbind fueled_bind]. rewrite Hf. cbn [or_panic mbind fueled_bind]. cbv zeta.
  cbn [attachments_new at_host_ids].
  assert (Hlen : length (ha_host_id <$> entries) = (length grid * length first)%nat).
  { rewrite <- Hp. clear -Hu. induction Hu as [|row grid Hr _ IH]; [done|]. cbn. rewrite length_app. lia. }
  assert (Hsub : forall s, s ∈ take count (sort_by Z.leb (ha_host_id <$> entries)) -> s ∈ concat grid).
  { intros s Hs%elem_of_take. destruct Hs as (i & Hs%list_elem_of_lookup_2 & _). by rewrite sort_by_perm, <- Hp in Hs. }
  assert (Hndg : NoDup (concat grid)) by (by rewrite Hp).
  destruct (Nat.ltb_spec (length grid * length first) count) as [|Hc]; [done|].
  destruct policy; [done|..].
  - destruct (Nat.eqb_spec (length grid mod 2) 0) as [He|]; [|done]. cbn [negb].
    destruct (mapM_structural SwitchOffsetHalf grid (length first) _ Hndg Hu He Hsub) as (pairs & Hm & _).
    rewrite Hm. exists grid, (length first). split_and!; [done..|lia|done].
  - destruct (Nat.ltb_spec (length first) 2) as [|He]; [done|].
    destruct (mapM_structural SameSwitchNext grid (length first) _ Hndg Hu He Hsub) as (pairs & Hm & _).
    rewrite Hm. exists grid, (length first). split_and!; [done..|lia|done].
Qed.

(** C15. Structural pairings are permutations. On attachments with distinct hosts a
    structural pairing never panics, and where it succeeds there is one pair per requested
    member: the sources are the first hosts in ascending order, the targets are pairwise
    distinct hosts, no host sends to itself, [SameSwitchNext] stays on the switch of the
    source and [SwitchOffsetHalf] leaves it. *)
Theorem structural_pairs_permute entries distinct policy count :
  let self := attachments_new entries distinct in
  NoDup (at_host_ids self) ->
  match structural_flow_pairs self policy count with
  | None => False
  | Some (Err _) => True
  | Some (Ok pairs) =>
      length pairs = count
      /\ pairs.*1 = take count (sort_by Z.leb (at_host_ids self))
      /\ NoDup pairs.*2
      /\ Forall (fun pair => pair.2 ∈ at_host_ids self /\ pair.1 <> pair.2
           /\ (policy = SameSwitchNext -> switch_for self pair.1 = switch_for self pair.2)
           /\ (policy = SwitchOffsetHalf -> switch_for self pair.1 <> switch_for self pair.2)) pairs
  end.
Proof.
  intros self Hnd. pose proof (structural_pairs_of entries distinct policy count Hnd) as Hp. fold self in Hp.
  destruct (structural_flow_pairs self policy count) as [[pairs|e]|]; [|done..].
  destruct Hp as (grid & ordinals & Hg & Hu & Hon & Hc & Hm).
  destruct (attachment_grid_spec _ _ _ Hnd Hg) as (Hperm & _ & Hsw). fold self in Hsw.
  change (ha_host_id <$> entries) with (at_host_ids self) in *.
  assert (Hndg : NoDup (concat grid)) by (by rewrite Hperm).
  set (sources := take count _) in *.
  destruct (mapM_structural policy grid ordinals sources Hndg Hu Hon) as (pairs' & Hm' & Hf & Hall).
  { intros s (i & Hs%list_elem_of_lookup_2 & _)%elem_of_take. by rewrite sort_by_perm, <- Hperm in Hs. }
  rewrite Hm in Hm'. injection Hm' as <-.
  assert (Hnds : NoDup pairs.*1).
  { rewrite Hf. eapply sublist_NoDup; [|apply sublist_take]. by rewrite sort_by_perm. }
  split_and!; [|done|by eapply targets_distinct|].
  - rewrite <- (length_fmap fst), Hf. unfold sources. rewrite length_take, sort_by_perm. lia.
  - eapply Forall_impl; [exact Hall|]. intros [s t] (p & Hp & Ht). cbn [fst snd] in *.
    destruct (proj1 (cell_uniform grid ordinals p Hu)) as [H1 H2]; [by eexists|].
    destruct (moved_spec _ _ _ p Hon H1 H2) as (_ & _ & Hne & Hsame & Hother & _).
    split_and!.
    + rewrite <- Hperm. by eapply cell_elem.
    + intros ->. apply Hne. by eapply cell_unique.
    + intros E. apply (Hsw p _ _ _ Hp Ht). by rewrite Hsame.
    + intros E Heq. apply (Hsw p _ _ _ Hp Ht) in Heq. by apply Hother.
Qed.

Lemma structural_pairs_permute_witness :
  let self := attachments_new [mkAttachment 0 0; mkAttachment 1 1; mkAttachment 2 0; mkAttachment 3 1] true in
  NoDup (at_host_ids self)
  /\ structural_flow_pairs self SwitchOffsetHalf 3 = Some (Ok [(0, 1); (1, 0); (2, 3)])
  /\ NoDup [1; 0; 3].
Proof.
  intros self. assert (Hnd : NoDup (at_host_ids self)) by (apply (bool_decide_unpack _); vm_compute; exact I).
  split; [exact Hnd|]. split; [vm_compute; reflexivity|].
  pose proof (structural_pairs_permute (at_entries self) true SwitchOffsetHalf 3 Hnd) as Hp.
  assert (E : structural_flow_pairs (attachments_new (at_entries self) true) SwitchOffsetHalf 3
              = Some (Ok [(0, 1); (1, 0); (2, 3)])) by (vm_compute; reflexivity).
  rewrite E in Hp. exact (proj1 (proj2 (proj2 Hp))).
Defined.

(** ** Sampled pairs *)

(** Distinct-source sampling draws distinct sources and distinct targets, none itself. *)
Lemma sampled_pairs_distinct {R} `{RandomSourceLaws R} host_ids (rng rng' : R) count pairs : NoDup host_ids ->
  sample_flow_pairs_from host_ids true rng count = Some (Ok (pairs, rng')) ->
  length pairs = count /\ NoDup pairs.*1 /\ NoDup pairs.*2
  /\ Forall (fun pair => pair.1 ∈ host_ids /\ pair.2 ∈ host_ids /\ pair.1 <> pair.2) pairs.
Proof.
  intros Hnd. unfold sample_flow_pairs_from. destruct (Nat.ltb_spec (length host_ids) 2) as [|H2]; [done|].
  cbn [negb]. destruct (Nat.ltb_spec (length host_ids) count) as [|Hc]; [done|].
  pose proof (shuffle_perm host_ids rng) as Hp. destruct (shuffle host_ids rng) as [sources rng1]. cbn [fst] in Hp.
  assert (Hs : NoDup sources) by (by rewrite Hp). assert (Hl : length sources = length host_ids) by (by rewrite Hp).
  set (offset := (length sources / 2)%nat).
  assert (Ho : (0 < offset < length sources)%nat).
  { unfold offset. pose proof (Nat.div_mod_eq (length sources) 2). pose proof (Nat.mod_upper_bound (length sources) 2). lia. }
  destruct (mapM _ _) as [l|] eqn:Hm; [|done]. intros [= -> <-]. apply mapM_Some in Hm.
  assert (Hat : forall i pair, pairs !! i = Some pair -> (i < count)%nat /\ sources !! i = Some pair.1
    /\ sources !! ((i + offset) mod length sources)%nat = Some pair.2).
  { intros i pair Hi. destruct (Forall2_lookup_r _ _ _ _ _ Hm Hi) as (j & Hj & Hpair).
    apply lookup_seq in Hj as [-> Hj]. cbn [Nat.add] in Hpair. split; [done|]. unfold offset_pair in Hpair.
    destruct (sources !! i) as [s|]; [|done]. cbn [mbind option_bind] in Hpair.
    destruct (sources !! _) as [t|]; [|done]. by injection Hpair as <-. }
  assert (Hlen : length pairs = count) by (rewrite <- (Forall2_length _ _ _ Hm); apply length_seq).
  split_and!; [done|..].
  - apply NoDup_alt. intros i j x Hi Hj. rewrite list_lookup_fmap in Hi. rewrite list_lookup_fmap in Hj.
    destruct (pairs !! i) as [p|] eqn:Ei; [|done]. destruct (pairs !! j) as [q|] eqn:Ej; [|done].
    destruct (Hat _ _ Ei) as (_ & Hx & _), (Hat _ _ Ej) as (_ & Hy & _). cbn in Hi, Hj.
    eapply (NoDup_lookup sources); [done|rewrite Hx; exact Hi|rewrite Hy; exact Hj].
  - apply NoDup_alt. intros i j x Hi Hj. rewrite list_lookup_fmap in Hi. rewrite list_lookup_fmap in Hj.
    destruct (pairs !! i) as [p|] eqn:Ei; [|done]. destruct (pairs !! j) as [q|] eqn:Ej; [|done].
    destruct (Hat _ _ Ei) as (Hi1 & _ & Hx), (Hat _ _ Ej) as (Hj1 & _ & Hy). cbn in Hi, Hj.
    pose proof (shift_mod (length sources) offset i ltac:(lia) ltac:(lia)).
    pose proof (shift_mod (length sources) offset j ltac:(lia) ltac:(lia)).
    assert (((i + offset) mod length sources)%nat = ((j + offset) mod length sources)%nat); [|lia].
    eapply (NoDup_lookup sources); [done|rewrite Hx; exact Hi|rewrite Hy; exact Hj].
  - apply Forall_forall. intros pair [i Hi]%list_elem_of_lookup. destruct (Hat _ _ Hi) as (Hi1 & Hx & Hy).
    split_and!; [rewrite <- Hp; by eapply list_elem_of_lookup_2..|]. intros E. rewrite <- E in Hy.
    pose proof (NoDup_lookup _ _ _ _ Hs Hx Hy). pose proof (shift_mod (length sources) offset i ltac:(lia) ltac:(lia)). lia.
Qed.
