(* ===== verification/BuiltTrees.v ===== *)
(** * The fat tree that is built is the one that is recognised

    The builder (build.rs) and the recogniser of the router (route.rs) agree: the wiring
    of a built fat tree is that of [up_links], so the router serves it with computed
    neighbours ([built_fat_tree_recognised]). *)

From S2P Require Import Prelude OrdMap Graphs BestFirst EdgeLists FatTree Topology.
#[local] Open Scope nat_scope.

(** ** The recogniser accepts the wiring *)

Section accepted.
Context `{HG : Graph G} `{HL : !GraphLaws G} (g : G) (h : nat) (Hh : 0 < h).
Context (Hn : node_count g = 5 * h * h) (Hc : edge_count g = length (up_links h)).
Context (Hadj : forall x y, fat_tree_link h x y -> adjacent g x y).

Lemma link_contained x y : fat_tree_link h x y -> contains_edge g x y = true.
Proof using HL Hadj. intros Hl. by apply contains_edge_spec, Hadj. Qed.

Lemma layout_accepted : has_fat_tree_layout g (2 * h * h) h (2 * h) = true.
Proof using All.
  unfold has_fat_tree_layout. rewrite !andb_true_iff. split_and!.
  - apply Nat.eqb_eq. rewrite Hc, up_links_length. lia.
  - apply forallb_seq. intros x Hx. apply forallb_seq. intros o Ho. apply link_contained. left. constructor; lia.
  - apply forallb_seq. intros x Hx. destruct (split_by h (x - 2 * h * h) (2 * h)) as (q & r & E & Hq & Hr); [lia..|].
    rewrite E. destruct (div_of q r h Hr) as [-> ->]. assert (x = 2 * h * h + (q * h + r)) as -> by lia.
    rewrite andb_true_iff, !forallb_seq. split; intros o Ho; apply link_contained.
    + right. rewrite Nat.add_assoc. apply up_link_aggregation; lia.
    + left. replace (2 * (2 * h * h)) with (4 * h * h) by lia. apply up_link_core; lia.
  - apply forallb_seq. intros x Hx. rewrite Hn in Hx.
    destruct (split_by h (x - 2 * (2 * h * h)) h) as (q & r & E & Hq & Hr); [nia..|].
    rewrite E. destruct (div_of q r h Hr) as [-> _]. assert (x = 4 * h * h + q * h + r) as -> by lia.
    apply forallb_seq. intros pod Hp. apply link_contained. right. rewrite <- Nat.add_assoc. apply up_link_core; lia.
Qed.

Lemma params_accepted : fat_tree_params g = Some (2 * h * h, h, 2 * h).
Proof using All.
  unfold fat_tree_params. rewrite Hn.
  assert (E1 : 5 * h * h * 2 / 5 = 2 * h * h).
  { replace (5 * h * h * 2) with (2 * h * h * 5) by lia. apply Nat.div_mul. lia. }
  assert (E2 : Nat.sqrt (2 * h * h * 2) = 2 * h).
  { replace (2 * h * h * 2) with ((2 * h) * (2 * h)) by lia. apply Nat.sqrt_square. }
  assert (E3 : 2 * h / 2 = h) by (rewrite Nat.mul_comm; apply Nat.div_mul; lia).
  assert (E4 : (5 * h * h) mod 5 = 0).
  { replace (5 * h * h) with (h * h * 5) by lia. apply Nat.Div0.mod_mul. }
  assert (E5 : (2 * h) mod 2 = 0) by (rewrite Nat.mul_comm; apply Nat.Div0.mod_mul).
  rewrite E4, E1, E2, E3, E5, layout_accepted.
  rewrite (proj2 (Nat.eqb_neq (5 * h * h) 0)), (proj2 (Nat.eqb_neq (2 * h) 0)) by nia.
  by rewrite (proj2 (Nat.eqb_eq (2 * h * (2 * h)) (2 * h * h * 2))) by lia.
Qed.
End accepted.

(** ** The wiring of the builder *)

Lemma edges_node_count_is l n : (forall e, e ∈ l -> e.1 < n /\ e.2 < n) ->
  (exists e, e ∈ l /\ (S e.1 = n \/ S e.2 = n)) -> edges_node_count l = n.
Proof.
  intros Hle (e & He & Hn). apply Nat.le_antisymm.
  - clear -Hle. induction l as [|e l IH]; cbn; [lia|]. pose proof (Hle e ltac:(by left)).
    assert (edges_node_count l <= n) by (apply IH; intros; apply Hle; by right). unfold edges_node_count in *. lia.
  - pose proof (edges_node_count_le l e He). lia.
Qed.

Lemma up_links_node_count h : 0 < h -> edges_node_count (up_links h) = 5 * h * h.
Proof.
  intros Hh. apply edges_node_count_is.
  - intros [x y] (q & r & o & Hq & Hr & Ho & [[-> ->]|[-> ->]])%elem_of_up_links%up_link_inv; [cbn; nia..|done].
  - exists (2 * h * h + (h - 1), 4 * h * h + (h - 1) * h + (h - 1)). split; [|right; cbn; nia].
    apply elem_of_up_links. pose proof (up_link_core h 0 (h - 1) (h - 1)) as Hl. cbn [Nat.mul Nat.add] in Hl.
    apply Hl; lia.
Qed.

Lemma seq_from a n : seq a n = Nat.add a <$> seq 0 n.
Proof. by rewrite fmap_add_seq, Nat.add_0_r. Qed.

Lemma seqZ_of_nat a n : seqZ (Z.of_nat a) (Z.of_nat n) = Z.of_nat <$> seq a n.
Proof.
  unfold seqZ. rewrite Nat2Z.id, (seq_from a), <- list_fmap_compose.
  apply list_fmap_ext. intros i x _. cbn. lia.
Qed.

(** A loop of pairs over consecutive words is its image over numbers. *)
Lemma wired a n (g : Z -> list (Z * Z)) (f' : nat -> nat) k :
  (forall x, a <= x < a + n -> g (Z.of_nat x) = pair (Z.of_nat x) <$> seqZ (Z.of_nat (f' x)) (Z.of_nat k)) ->
  (fun e : Z * Z => (Z.to_nat e.1, Z.to_nat e.2)) <$> (seqZ (Z.of_nat a) (Z.of_nat n) ≫= g)
  = x ← seq a n; pair x <$> ((fun o => f' x + o) <$> seq 0 k).
Proof.
  intros Hg. rewrite seqZ_of_nat. revert a Hg. induction n as [|n IH]; intros a Hg; [done|].
  cbn [seq fmap list_fmap mbind list_bind]. rewrite fmap_app. f_equal; [|apply IH; intros; apply Hg; lia].
  rewrite Hg, seqZ_of_nat by lia. rewrite (seq_from (f' a)), <- !list_fmap_compose.
  apply list_fmap_ext. intros i x _. cbn. by rewrite !Nat2Z.id.
Qed.

#[local] Open Scope Z_scope.

Section built.
Context (h : nat) (Hh : (0 < h)%nat) (Hb : 5 * Z.of_nat h * Z.of_nat h < u32_modulus).

(** The words of the builder do not wrap. *)
Lemma built_aggregation_links :
  (fun e : Z * Z => (Z.to_nat e.1, Z.to_nat e.2))
    <$> build_edge_to_aggregation_connections (2 * Z.of_nat h * Z.of_nat h) (Z.of_nat h)
  = x ← seq 0 (2 * h * h); pair x <$> ((fun o => 2 * h * h + x / h * h + o)%nat <$> seq 0 h).
Proof using Hh Hb.
  unfold build_edge_to_aggregation_connections.
  replace (seqZ 0 (2 * Z.of_nat h * Z.of_nat h)) with (seqZ (Z.of_nat 0) (Z.of_nat (2 * h * h))) by (f_equal; lia).
  apply wired. intros x Hx. assert (Hd : (x / h < 2 * h)%nat) by (apply div_lt; lia).
  assert (Hdz : Z.of_nat x / Z.of_nat h = Z.of_nat (x / h)) by (by rewrite Nat2Z.inj_div). rewrite Hdz.
  set (q := (x / h)%nat) in *. clearbody q.
  rewrite (w32_small (Z.of_nat q * Z.of_nat h)) by nia. rewrite (w32_small (_ + _)) by nia.
  rewrite (w32_small (_ + Z.of_nat h)) by nia. f_equal. f_equal; lia.
Qed.

Lemma built_core_links :
  (fun e : Z * Z => (Z.to_nat e.1, Z.to_nat e.2))
    <$> build_aggregation_to_core_connections (2 * Z.of_nat h * Z.of_nat h) (Z.of_nat h) (Z.of_nat h)
  = x ← seq 0 (2 * h * h); pair (2 * h * h + x)%nat <$> ((fun o => 4 * h * h + x mod h * h + o)%nat <$> seq 0 h).
Proof using Hh Hb.
  unfold build_aggregation_to_core_connections. rewrite (w32_small (2 * _)) by nia.
  replace (seqZ (2 * Z.of_nat h * Z.of_nat h) (2 * (2 * Z.of_nat h * Z.of_nat h) - 2 * Z.of_nat h * Z.of_nat h))
    with (seqZ (Z.of_nat (2 * h * h)) (Z.of_nat (2 * h * h))) by (f_equal; lia).
  rewrite (wired _ _ _ (fun x => 4 * h * h + x mod h * h)%nat h).
  - rewrite (seq_from (2 * h * h)). rewrite list_fmap_bind. apply list_bind_ext; [|done]. intros x. unfold compose.
    assert (E : ((2 * h * h + x) mod h = x mod h)%nat) by (by rewrite Nat.add_comm, Nat.Div0.mod_add).
    by rewrite E.
  - intros x Hx. assert (Hd : (x mod h < h)%nat) by (apply Nat.mod_upper_bound; lia).
    assert (Hdz : Z.of_nat x mod Z.of_nat h = Z.of_nat (x mod h)) by (by rewrite Nat2Z.inj_mod). rewrite Hdz.
    set (r := (x mod h)%nat) in *. clearbody r.
    rewrite (w32_small (Z.of_nat r * Z.of_nat h)) by nia. rewrite (w32_small (2 * _ + _)) by nia.
    rewrite (w32_small (_ + Z.of_nat h)) by nia. f_equal. f_equal; lia.
Qed.

Lemma built_edges :
  (fun e : Z * Z => (Z.to_nat e.1, Z.to_nat e.2))
    <$> build_fattree_edges (2 * Z.of_nat h * Z.of_nat h) (Z.of_nat h) (Z.of_nat h)
  = up_links h.
Proof using Hh Hb.
  unfold build_fattree_edges. rewrite fmap_app, built_aggregation_links, built_core_links. done.
Qed.
End built.

(** ** Uniform host lists *)

(** The attachments of [hosts] hosts on each of [switches] switches. *)
Definition uniform_attachments (switches hosts : Z) : list HostAttachment :=
  ordinal ← seqZ 0 hosts; (fun switch => mkAttachment (ordinal * switches + switch) switch) <$> seqZ 0 switches.

Lemma checked_mul_ok x y : 0 <= x * y <= u64_max -> checked_mul x y = Some (x * y).
Proof. intros. apply checked_mul_Some. split; [done|lia]. Qed.

Lemma checked_add_ok x y : x + y <= u64_max -> checked_add x y = Some (x + y).
Proof. intros. by apply checked_add_Some. Qed.

Lemma try_fold_snocs {E A B} (f : list A -> B -> result E (list A)) (g : B -> list A) (l : list B) :
  (forall acc x, x ∈ l -> f acc x = Ok (acc ++ g x)) -> forall acc, try_fold f acc l = Ok (acc ++ (l ≫= g)).
Proof.
  induction l as [|x l IH]; intros Hf acc; [by rewrite app_nil_r|]. cbn [try_fold]. rewrite Hf by (by left).
  cbn [mbind result_bind]. rewrite IH by (intros; apply Hf; by right). cbn. by rewrite <- app_assoc.
Qed.

Lemma bind_singleton {A B} (f : A -> B) l : (l ≫= fun x => [f x]) = f <$> l.
Proof. induction l as [|x l IH]; [done|]. cbn. by rewrite <- IH. Qed.

Lemma uniform_host_list switches hosts : 0 <= switches -> 0 <= hosts -> switches * hosts <= u64_max ->
  create_uniform_host_list switches hosts = Ok (attachments_new (uniform_attachments switches hosts) (1 <? hosts)).
Proof.
  intros Hs Hh Hb. unfold create_uniform_host_list. rewrite checked_mul_ok by nia. cbn [ok_or mbind result_bind].
  rewrite (try_fold_snocs _ (fun ordinal =>
    (fun switch => mkAttachment (ordinal * switches + switch) switch) <$> seqZ 0 switches)); [done|].
  intros acc ordinal Ho%elem_of_seqZ. rewrite checked_mul_ok by nia. cbn [ok_or mbind result_bind].
  rewrite <- bind_singleton. apply try_fold_snocs. intros acc' switch Hsw%elem_of_seqZ.
  by rewrite checked_add_ok by nia.
Qed.

(** C12. The router recognises what the builder builds. For every even [k] whose fat tree
    has switch identities below [2^32] and every legal number of hosts, the build
    succeeds: the profile has [k²/2] edge, [k²/2] aggregation and [k²/4] core switches,
    host [o * k²/2 + s] is attached to edge switch [s], and the canonical graph passes
    the router's recognition with [k/2] switches per layer of each of [k] pods. *)
Theorem built_fat_tree_recognised {G} `{GraphLaws G} {R : Type} (k hosts : Z) :
  0 < k -> k mod 2 = 0 -> 5 * (k * k) < 4 * u32_modulus -> 1 <= hosts <= k / 2 ->
  exists graph : G,
    build_fat_tree (R := R) (mkFatTreeConfig k (Some hosts))
    = Some (Ok (graph, attachments_new (uniform_attachments (k * k / 2) hosts) (1 <? hosts),
                FatTreeProfile (k * k / 2) (k * k / 2) (k * k / 4)))
    /\ fat_tree_params (canonical_routing_graph graph)
       = Some (Z.to_nat (k * k / 2), Z.to_nat (k / 2), Z.to_nat k).
Proof.
  intros Hk Hk2 Hb Hhosts. set (h := Z.to_nat (k / 2)).
  assert (Hkh : k = 2 * Z.of_nat h) by (unfold h; pose proof (Z.div_mod k 2); lia). clearbody h. subst k.
  assert (Hh : (0 < h)%nat) by lia. set (z := Z.of_nat h) in *.
  assert (E1 : 2 * z * (2 * z) / 2 = 2 * z * z) by (replace (2 * z * (2 * z)) with (2 * z * z * 2) by lia; apply Z.div_mul; lia).
  assert (E2 : 2 * z * (2 * z) / 4 = z * z) by (replace (2 * z * (2 * z)) with (z * z * 4) by lia; apply Z.div_mul; lia).
  assert (E3 : 2 * z / 2 = z) by (rewrite Z.mul_comm; apply Z.div_mul; lia).
  assert (E4 : z * z / z = z) by (apply Z.div_mul; lia).
  rewrite E1, E2, E3 in *. set (graph := graph_of (G := G) (build_fattree_edges (2 * z * z) z z)). exists graph.
  assert (Hb5 : 5 * z * z < u32_modulus) by (unfold u32_modulus in *; nia).
  assert (Hedges : edge_references graph = up_links h).
  { unfold graph, graph_of. rewrite from_edges_edges. by apply built_edges. }
  assert (Hnodes : node_count graph = (5 * h * h)%nat).
  { unfold graph, graph_of, node_count. rewrite from_edges_weights, length_replicate.
    unfold z. by rewrite built_edges, up_links_node_count. }
  split.
  - unfold build_fat_tree. cbn [ft_k ft_hosts_per_edge default from_option]. unfold try_u32, id.
    rewrite (proj2 (Z.leb_le (2 * z) _)) by (unfold u32_modulus in *; nia). cbn [ok_or lift_result mbind fueled_bind].
    unfold validate_fattree_params. rewrite Hk2. cbn [Z.eqb negb].
    rewrite (proj2 (Z.eqb_neq (2 * z) 0)) by lia. cbn [lift_result mbind fueled_bind].
    unfold validate_hosts_per_edge. rewrite E3, (proj2 (Z.leb_le 1 hosts)), (proj2 (Z.leb_le hosts z)) by lia.
    cbn [andb negb lift_result mbind fueled_bind]. unfold calculate_fattree_params.
    rewrite (w32_small (2 * z * (2 * z))) by (unfold u32_modulus in *; nia).
    rewrite E1, E2, E3, E4, (proj2 (Z.eqb_neq z 0)) by lia. cbn [or_panic mbind fueled_bind].
    rewrite uniform_host_list; [done|nia|lia|unfold u32_modulus in *; nia].
  - rewrite (params_accepted (canonical_routing_graph graph) h Hh).
    + f_equal. f_equal; [f_equal|]; lia.
    + by rewrite canonical_node_count.
    + rewrite canonical_edge_count. unfold edge_count. by rewrite Hedges.
    + intros x y Hl. apply canonical_adjacent. unfold adjacent. rewrite Hedges, !elem_of_up_links. exact Hl.
Qed.

Lemma built_fat_tree_recognised_witness :
  0 < 4 /\ 4 mod 2 = 0 /\ 5 * (4 * 4) < 4 * u32_modulus /\ 1 <= 2 <= 4 / 2
  /\ exists graph : EdgeList,
    build_fat_tree (R := unit) (mkFatTreeConfig 4 (Some 2))
    = Some (Ok (graph, attachments_new (uniform_attachments (4 * 4 / 2) 2) (1 <? 2),
                FatTreeProfile (4 * 4 / 2) (4 * 4 / 2) (4 * 4 / 4)))
    /\ fat_tree_params (canonical_routing_graph graph) = Some (8%nat, 2%nat, 4%nat).
Proof.
  split; [lia|]. split; [reflexivity|]. split; [unfold u32_modulus; lia|]. split; [vm_compute; split; discriminate|].
  apply (built_fat_tree_recognised 4 2); [lia|reflexivity|unfold u32_modulus; lia|vm_compute; split; discriminate].
Defined.
