(* ===== verification/Dragonflies.v ===== *)
(** * The wiring of a dragonfly, and the words of a torus

    With [g = a * h + 1] groups the circulant arrangement of build.rs joins every pair of
    groups by exactly one global link and uses every global port of every router
    ([dragonfly_balanced]). The torus builder reads its two words modulo [2^32]
    ([torus_config_truncates]). *)

From S2P Require Import Prelude OrdMap Graphs BestFirst EdgeLists Topology.

(** ** Filters over loops *)

Lemma filter_bind {A B} (P : B -> Prop) `{forall x, Decision (P x)} (f : A -> list B) (l : list A) :
  filter P (l ≫= f) = l ≫= (fun x => filter P (f x)).
Proof. induction l as [|x l IH]; [done|]. cbn. by rewrite filter_app, IH. Qed.

Lemma filter_empty {A} (P : A -> Prop) `{forall x, Decision (P x)} (l : list A) :
  (forall x, x ∈ l -> ~ P x) -> filter P l = [].
Proof.
  induction l as [|x l IH]; intros Hn; [done|]. rewrite filter_cons, decide_False by (apply Hn; by left).
  apply IH. intros y Hy. apply Hn. by right.
Qed.

Lemma filter_every {A} (P : A -> Prop) `{forall x, Decision (P x)} (l : list A) :
  (forall x, x ∈ l -> P x) -> filter P l = l.
Proof.
  induction l as [|x l IH]; intros Ha; [done|]. rewrite filter_cons, decide_True by (apply Ha; by left).
  f_equal. apply IH. intros y Hy. apply Ha. by right.
Qed.

Lemma filter_one {A} (P : A -> Prop) `{forall x, Decision (P x)} (l : list A) x : NoDup l -> x ∈ l -> P x ->
  (forall y, y ∈ l -> P y -> y = x) -> filter P l = [x].
Proof.
  intros Hnd Hx HPx Hu. induction l as [|y l IH]; [by apply not_elem_of_nil in Hx|].
  apply NoDup_cons in Hnd as [Hy Hnd]. rewrite filter_cons. destruct (decide (P y)) as [HP|HP].
  - rewrite (Hu y) by (by left || done). f_equal. apply filter_empty. intros z Hz HPz.
    assert (y = x) as -> by (apply Hu; [by left|done]). by rewrite (Hu z) in Hz by (by right || done).
  - apply elem_of_cons in Hx as [->|Hx]; [done|]. apply IH; [done..|]. intros z Hz. apply Hu. by right.
Qed.

Lemma bind_none {A B} (f : A -> list B) (l : list A) : (forall x, x ∈ l -> f x = []) -> l ≫= f = [].
Proof.
  induction l as [|x l IH]; intros Hn; [done|]. cbn. rewrite (Hn x) by (by left). apply IH. intros. apply Hn. by right.
Qed.

Lemma bind_one {A B} (f : A -> list B) (l : list A) x : NoDup l -> x ∈ l ->
  (forall y, y ∈ l -> y <> x -> f y = []) -> l ≫= f = f x.
Proof.
  intros Hnd Hx Hu. induction l as [|y l IH]; [by apply not_elem_of_nil in Hx|].
  apply NoDup_cons in Hnd as [Hy Hnd]. cbn. apply elem_of_cons in Hx as [->|Hx].
  - rewrite bind_none; [by rewrite app_nil_r|]. intros z Hz. apply Hu; [by right|]. by intros ->.
  - rewrite (Hu y) by (by left || by intros ->). apply IH; [done..|]. intros z Hz. apply Hu. by right.
Qed.

Lemma length_bind_filter {A B} (P : A -> Prop) `{forall x, Decision (P x)} (f : A -> list B) (l : list A) :
  (forall x, x ∈ l -> length (f x) = if decide (P x) then 1 else 0)%nat -> length (l ≫= f) = length (filter P l).
Proof.
  induction l as [|x l IH]; intros Hf; [done|]. cbn [mbind list_bind]. rewrite length_app, Hf, filter_cons by (by left).
  rewrite IH by (intros; apply Hf; by right). by case_decide.
Qed.

Lemma length_filter_fmap {A B} (Q : B -> Prop) `{forall x, Decision (Q x)} (P : A -> Prop)
    `{forall x, Decision (P x)} (f : A -> B) (l : list A) :
  (forall x, x ∈ l -> Q (f x) <-> P x) -> length (filter Q (f <$> l)) = length (filter P l).
Proof.
  induction l as [|x l IH]; intros Hf; [done|]. rewrite fmap_cons, !filter_cons.
  pose proof (Hf x ltac:(by left)) as Hx. specialize (IH ltac:(intros; apply Hf; by right)).
  destruct (decide (Q (f x))), (decide (P x)); cbn [length]; tauto || congruence.
Qed.

Lemma omap_all {A B} (f : A -> option B) (g : A -> B) (l : list A) :
  (forall x, x ∈ l -> f x = Some (g x)) -> omap f l = g <$> l.
Proof.
  induction l as [|x l IH]; intros Hf; [done|]. cbn. rewrite Hf by (by left). f_equal. apply IH. intros. apply Hf. by right.
Qed.

Lemma omap_none {A B} (f : A -> option B) (l : list A) : (forall x, x ∈ l -> f x = None) -> omap f l = [].
Proof.
  induction l as [|x l IH]; intros Hf; [done|]. cbn. rewrite Hf by (by left). apply IH. intros. apply Hf. by right.
Qed.

Lemma seqZ_split m a n : 0 <= a <= n -> seqZ m n = seqZ m a ++ seqZ (m + a) (n - a).
Proof. intros Ha. replace n with (a + (n - a)) at 1 by lia. apply seqZ_app; lia. Qed.

(** ** The global links *)

Section wiring.
Context (R P : Z) (HR : 0 < R) (HP : 0 < P).
#[local] Abbreviation N := (R * P + 1).

Lemma router_group g i : 0 <= i < R -> (g * R + i) / R = g.
Proof using HR. intros Hi. symmetry. apply (Z.div_unique _ _ g i); lia. Qed.

Lemma split_router g i q j : 0 <= i < R -> 0 <= j < R -> g * R + i = q * R + j <-> g = q /\ i = j.
Proof using HR.
  intros Hi Hj. split; [|by intros [-> ->]]. intros E. assert (g = q) as ->; [|split; [done|lia]].
  rewrite <- (router_group g i), E by done. by apply router_group.
Qed.

Lemma port_router p : 0 <= p < R * P -> 0 <= p / P < R.
Proof using HP. intros Hp. split; [apply Z.div_pos; lia|apply Z.div_lt_upper_bound; lia]. Qed.

(** The link of a port to a higher group. *)
Definition global_link (g p : Z) : Z * Z := (g * R + p / P, (g + p + 1) * R + (N - p - 2) / P).

(** The emitted half: the ports of a group that reach a higher group. *)
Lemma global_edges_of g : 0 <= g < N ->
  omap (dragonfly_global_edge N R P g) (seqZ 0 (N - 1)) = global_link g <$> seqZ 0 (N - 1 - g).
Proof using HR HP.
  intros Hg. rewrite (seqZ_split 0 (N - 1 - g) (N - 1)) by lia. rewrite omap_app.
  rewrite (omap_all _ (global_link g)), omap_none, app_nil_r; [done|..].
  - intros p Hp%elem_of_seqZ. unfold dragonfly_global_edge.
    replace ((g + p + 1) mod N) with (g + p + 1 - N) by (apply (Z.mod_unique _ _ 1); lia).
    by rewrite (proj2 (Z.leb_le _ _)) by lia.
  - intros p Hp%elem_of_seqZ. unfold dragonfly_global_edge. rewrite Z.mod_small by lia.
    by rewrite (proj2 (Z.leb_gt _ _)) by lia.
Qed.

Lemma global_edges_are :
  dragonfly_global_edges N R P = g ← seqZ 0 N; global_link g <$> seqZ 0 (N - 1 - g).
Proof using HR HP.
  unfold dragonfly_global_edges. apply Forall_bind_ext, Forall_forall. intros g Hg%elem_of_seqZ.
  apply global_edges_of. lia.
Qed.

(** One link joins each pair of groups. *)
Lemma one_link_per_pair a b : 0 <= a -> a < b -> b < N ->
  filter (fun e => e.1 / R = a /\ e.2 / R = b) (dragonfly_global_edges N R P) = [global_link a (b - a - 1)].
Proof using HR HP.
  intros Ha Hab Hb. rewrite global_edges_are, filter_bind.
  assert (Hgr : forall g p, 0 <= g < N -> 0 <= p < N - 1 - g ->
    (global_link g p).1 / R = g /\ (global_link g p).2 / R = g + p + 1).
  { intros g p Hg Hp. cbn. rewrite !router_group; [done|apply port_router; lia..]. }
  rewrite (bind_one _ _ a); [|apply NoDup_seqZ|apply elem_of_seqZ; lia|].
  - apply filter_one; [|apply list_elem_of_fmap_2, elem_of_seqZ; lia|destruct (Hgr a (b - a - 1) ltac:(lia) ltac:(lia)) as [-> ->]; lia|].
    + apply NoDup_fmap_2_strong; [|apply NoDup_seqZ]. intros p q Hp%elem_of_seqZ Hq%elem_of_seqZ E.
      pose proof (f_equal (fun e : Z * Z => e.2 / R) E) as E'. cbn beta in E'.
      rewrite (proj2 (Hgr a p ltac:(lia) ltac:(lia))), (proj2 (Hgr a q ltac:(lia) ltac:(lia))) in E'. lia.
    + intros e (p & -> & Hp%elem_of_seqZ)%list_elem_of_fmap [_ E]. rewrite (proj2 (Hgr a p ltac:(lia) ltac:(lia))) in E.
      f_equal. lia.
  - intros g Hg%elem_of_seqZ Hne. apply filter_empty. intros e (p & -> & Hp%elem_of_seqZ)%list_elem_of_fmap [E _].
    rewrite (proj1 (Hgr g p ltac:(lia) ltac:(lia))) in E. lia.
Qed.

(** The ports of one router. *)
Lemma ports_of_router i : 0 <= i < R -> length (filter (fun p => p / P = i) (seqZ 0 (R * P))) = Z.to_nat P.
Proof using HR HP.
  intros Hi. rewrite (seqZ_split 0 (i * P) (R * P)) by nia.
  rewrite (seqZ_split (0 + i * P) P (R * P - i * P)) by nia. rewrite !filter_app.
  rewrite (filter_empty _ (seqZ 0 (i * P))), (filter_every _ (seqZ (0 + i * P) P)), (filter_empty _ (seqZ (_ + P) _)).
  - rewrite app_nil_r. cbn [app]. apply length_seqZ.
  - intros p Hp%elem_of_seqZ E. assert (i + 1 <= p / P) by (apply Z.div_le_lower_bound; lia). lia.
  - intros p Hp%elem_of_seqZ. symmetry. apply (Z.div_unique _ _ i (p - i * P)); lia.
  - intros p Hp%elem_of_seqZ E. assert (p / P < i) by (apply Z.div_lt_upper_bound; lia). lia.
Qed.

Section router.
Context (g i : Z) (Hg : 0 <= g < N) (Hi : 0 <= i < R).
#[local] Abbreviation here := (fun e : Z * Z => e.1 = g * R + i \/ e.2 = g * R + i).

Lemma link_ends q p : 0 <= q < N -> 0 <= p < N - 1 - q ->
  here (global_link q p) <-> q = g /\ p / P = i \/ q + p + 1 = g /\ (N - p - 2) / P = i.
Proof using HR HP Hg Hi.
  intros Hq Hp. cbn [global_link fst snd]. rewrite !split_router; [done|..]; try done; apply port_router; lia.
Qed.

(** A lower group emitted at most one link to the router. *)
Lemma links_from_below q : 0 <= q < g ->
  length (filter here (global_link q <$> seqZ 0 (N - 1 - q)))
  = if decide ((N - 1 - g + q) / P = i) then 1%nat else 0%nat.
Proof using HR HP Hg Hi.
  intros Hq. rewrite (length_filter_fmap _ (fun p => p = g - q - 1 /\ (N - 1 - g + q) / P = i)).
  - case_decide as Hd.
    + rewrite (filter_one _ _ (g - q - 1)); [done|apply NoDup_seqZ|apply elem_of_seqZ; lia|done|by intros ? ? []].
    + rewrite filter_empty; [done|]. by intros p _ [].
  - intros p Hp%elem_of_seqZ. rewrite link_ends by lia. split.
    + intros [?|[E E']]; [lia|]. split; [lia|]. rewrite <- E'. f_equal. lia.
    + intros [-> E]. right. split; [lia|]. rewrite <- E. f_equal. lia.
Qed.

(** Every router ends exactly [P] global links: the ports of its group that belong to
    it, emitted by its own group or by the lower group they reach. *)
Lemma links_per_router : length (filter here (dragonfly_global_edges N R P)) = Z.to_nat P.
Proof using HR HP Hg Hi.
  rewrite <- (ports_of_router i Hi), global_edges_are, filter_bind.
  rewrite (seqZ_split 0 g N), (seqZ_split (0 + g) 1 (N - g)), !bind_app, !length_app by lia.
  rewrite (bind_none _ (seqZ (0 + g + 1) _)).
  2: { intros q Hq%elem_of_seqZ. apply filter_empty. intros e (p & -> & Hp%elem_of_seqZ)%list_elem_of_fmap.
       rewrite link_ends; lia. }
  rewrite (length_bind_filter (fun q => (N - 1 - g + q) / P = i) _ (seqZ 0 g)).
  2: { intros q Hq%elem_of_seqZ. apply links_from_below. lia. }
  replace (seqZ (0 + g) 1) with [g] by (rewrite seqZ_cons by lia; by rewrite Z.add_0_l).
  cbn [mbind list_bind]. rewrite app_nil_r, (length_filter_fmap _ (fun p => p / P = i)).
  2: { intros p Hp%elem_of_seqZ. rewrite link_ends; lia. }
  rewrite (seqZ_split 0 (N - 1 - g) (R * P)), filter_app, length_app by lia.
  replace (seqZ (0 + (N - 1 - g)) (R * P - (N - 1 - g))) with (Z.add (N - 1 - g) <$> seqZ 0 g)
    by (rewrite fmap_add_seqZ; f_equal; lia).
  rewrite (length_filter_fmap (fun p => p / P = i) (fun q => (N - 1 - g + q) / P = i)) by done. cbn [length]. lia.
Qed.
End router.
End wiring.

(** ** The local links *)

Lemma local_edges_elem groups R x y : 0 < R ->
  (x, y) ∈ dragonfly_local_edges groups R <-> 0 <= x /\ x < y /\ y < groups * R /\ x / R = y / R.
Proof.
  intros HR. unfold dragonfly_local_edges. rewrite list_elem_of_bind. split.
  - intros (g & Hg & Hgr%elem_of_seqZ). apply list_elem_of_bind in Hg as (l & Hl & Hlr%elem_of_seqZ).
    apply list_elem_of_fmap in Hl as (r & [= -> ->] & Hr%elem_of_seqZ).
    rewrite !router_group by lia. nia.
  - intros (H0 & Hxy & Hy & Hd). assert (Hg : 0 <= x / R < groups).
    { split; [apply Z.div_pos; lia|]. apply Z.div_lt_upper_bound; lia. }
    pose proof (Z.div_mod x R ltac:(lia)). pose proof (Z.div_mod y R ltac:(lia)).
    pose proof (Z.mod_pos_bound x R HR). pose proof (Z.mod_pos_bound y R HR).
    exists (x / R). split; [|apply elem_of_seqZ; lia]. apply list_elem_of_bind. exists (x mod R).
    split; [|apply elem_of_seqZ; lia]. apply list_elem_of_fmap. exists (y mod R).
    split; [f_equal; nia|apply elem_of_seqZ; nia].
Qed.

Lemma local_edges_NoDup groups R : 0 < R -> NoDup (dragonfly_local_edges groups R).
Proof.
  intros HR. unfold dragonfly_local_edges. apply NoDup_bind; [| |apply NoDup_seqZ].
  - intros g g' e Hg Hg' (l & He & Hl%elem_of_seqZ)%list_elem_of_bind (l' & He' & Hl'%elem_of_seqZ)%list_elem_of_bind.
    apply list_elem_of_fmap in He as (r & -> & _). apply list_elem_of_fmap in He' as (r' & [= E _] & _).
    apply split_router in E; lia.
  - intros g _. apply NoDup_bind; [| |apply NoDup_seqZ].
    + intros l l' e Hl Hl' He He'. apply list_elem_of_fmap in He as (r & -> & _).
      apply list_elem_of_fmap in He' as (r' & [= E _] & _). lia.
    + intros l _. apply NoDup_fmap_2; [|apply NoDup_seqZ]. intros r r' [=]. lia.
Qed.

(** C14. A built dragonfly is balanced. Whatever the accepted configuration of [a] routers
    per group with [h] global ports each, there are [a * h + 1] groups; two routers of a
    group are joined by exactly one local link and no local link leaves its group; every
    pair of groups is joined by exactly one global link; and every router ends exactly [h]
    global links. *)
Theorem dragonfly_balanced {G} `{Graph G} {R : Type} config (graph : G) hosts (profile : TopologyProfile R) :
  0 <= df_routers_per_group config -> 0 <= df_global_ports_per_router config ->
  build_dragonfly config = Ok (graph, hosts, profile) ->
  let a := df_routers_per_group config in
  let h := df_global_ports_per_router config in
  let groups := a * h + 1 in
  let local := dragonfly_local_edges groups a in
  let global := dragonfly_global_edges groups a h in
  graph = graph_of (local ++ global) /\ profile = DragonflyProfile groups a
  /\ NoDup local
  /\ (forall x y, (x, y) ∈ local <-> 0 <= x /\ x < y /\ y < groups * a /\ x / a = y / a)
  /\ (forall p q, 0 <= p -> p < q -> q < groups ->
       exists link, filter (fun e => e.1 / a = p /\ e.2 / a = q) global = [link])
  /\ (forall router, 0 <= router < groups * a ->
       length (filter (fun e => e.1 = router \/ e.2 = router) global) = Z.to_nat h).
Proof.
  intros Ha Hh Hb a h groups local global. unfold build_dragonfly in Hb. fold a h in Hb, Ha, Hh.
  destruct (Z.ltb_spec a 2) as [|Ha2]; [done|]. destruct (Z.eqb_spec h 0) as [|Hh0]; [done|].
  destruct (default 1 _ =? 0); [done|]. destruct (checked_mul a h) as [ports|] eqn:Hm; [|done].
  apply checked_mul_Some in Hm as [-> _]. cbn [mbind option_bind] in Hb.
  destruct (checked_add (a * h) 1) as [n|] eqn:Hn; [|done]. apply checked_add_Some in Hn as [-> _].
  cbn [ok_or mbind result_bind] in Hb. destruct (checked_mul _ a) as [routers|]; [|done].
  cbn [ok_or mbind result_bind] in Hb. destruct (try_u32 routers); [|done]. cbn [ok_or mbind result_bind] in Hb.
  destruct (create_uniform_host_list _ _) as [hs|]; [|done]. injection Hb as <- _ <-.
  split_and!; [done|done|apply local_edges_NoDup; lia|intros; apply local_edges_elem; lia|..].
  - intros p q Hp Hpq Hq. eexists. apply one_link_per_pair; lia.
  - intros router Hr. pose proof (Z.div_mod router a ltac:(lia)) as E. pose proof (Z.mod_pos_bound router a ltac:(lia)).
    replace router with (router / a * a + router mod a) by lia. apply links_per_router; [lia|lia| |lia].
    fold groups. split; [apply Z.div_pos; lia|apply Z.div_lt_upper_bound; lia].
Qed.

Lemma dragonfly_balanced_witness :
  let config := mkDragonflyConfig 4 2 None in
  exists (graph : EdgeList) hosts, build_dragonfly (R := unit) config = Ok (graph, hosts, DragonflyProfile 9 4)
    /\ length (filter (fun e => e.1 = 17 \/ e.2 = 17) (dragonfly_global_edges 9 4 2)) = 2%nat.
Proof.
  intros config. destruct (build_dragonfly (G := EdgeList) (R := unit) config) as [[[graph hosts] profile]|e] eqn:E;
    [|exfalso; vm_compute in E; discriminate E].
  destruct (dragonfly_balanced config graph hosts profile ltac:(vm_compute; discriminate) ltac:(vm_compute; discriminate) E)
    as (_ & Hp & _ & _ & _ & Hr).
  exists graph, hosts. split; [f_equal; f_equal; exact Hp|]. apply (Hr 17). vm_compute. split; [discriminate|reflexivity].
Defined.

(** ** The words of a torus *)

(** A torus is built from the low words of its configuration: a side of [2^32 + n] gives
    the torus of side [n], and no error. *)
Theorem torus_config_truncates {G} `{Graph G} {R : Type} dim n :
  build_torus (G := G) (R := R) (mkTorusConfig (u32_modulus + dim) (u32_modulus + n))
  = build_torus (mkTorusConfig dim n).
Proof.
  unfold build_torus. cbn [tc_dim tc_n]. assert (E : forall x, w32 (u32_modulus + x) = w32 x); [|by rewrite !E].
  intros x. unfold w32. rewrite Z.add_comm. replace (x + u32_modulus) with (x + 1 * u32_modulus) by lia. apply Z.mod_add.
  unfold u32_modulus. lia.
Qed.

(** The node count of a torus wraps before it is checked: a torus of [65536 * 65536]
    switches is not refused as an overflow, it panics on its first link. *)
Theorem torus_node_count_wraps {G} `{Graph G} {R : Type} :
  calculate_total_nodes 2 65536 = 0 /\ build_torus (G := G) (R := R) (mkTorusConfig 2 65536) = None.
Proof.
  split; [reflexivity|]. unfold build_torus. cbn [tc_dim tc_n]. change (w32 2) with 2. change (w32 65536) with 65536.
  cbn [validate_torus_params lift_result mbind fueled_bind]. unfold build_torus_edges.
  change (w32 (65536 ^ 2)) with 0. unfold build_2d_torus_edges. rewrite (seqZ_cons 0 65536) by lia. reflexivity.
Qed.
