(* ===== verification/Rail.v ===== *)
(** * Rail fabrics (src/topos/rail.rs)

    The rail-optimized fabric: its profile, the equal-cost choice of a spine switch (PSW)
    at a leaf switch (ASW), the checks of a configuration, the graph and attachments, and
    the delays of messages inside a server. Unchecked [u32] and [u128] arithmetic wraps,
    as in a release build; an outer [None] is a panic of a division by zero or of an
    [expect]. Rendering to a topology file is not modelled. *)

From S2P Require Import Prelude OrdMap Graphs BestFirst EdgeLists Topology.

(** ** The profile *)

Record RailProfile := mkRailProfile {
  rp_gpus : Z;
  rp_gpus_per_server : Z;
  rp_nics_per_asw : Z;
  rp_asws : Z;
  rp_psws : Z;
  rp_nic_rate_bps : Z;
  rp_uplink_rate_bps : Z;
  rp_nvlink_rate_bps : Z;
  rp_link_delay_ns : Z;
  rp_nvlink_delay_ns : Z;
}.

(** Division and remainder; zero divisors panic. *)
Definition div_by (x y : Z) : option Z := if y =? 0 then None else Some (x / y).
Definition rem_by (x y : Z) : option Z := if y =? 0 then None else Some (x mod y).

Definition segment_gpus (self : RailProfile) : Z := w32 (rp_gpus_per_server self * rp_nics_per_asw self).

Definition servers (self : RailProfile) : option Z := div_by (rp_gpus self) (rp_gpus_per_server self).

Definition asw_of (self : RailProfile) (gpu : Z) : option Z :=
  segment ← div_by gpu (segment_gpus self);
  rail ← rem_by gpu (rp_gpus_per_server self);
  Some (w32 (w32 (segment * rp_gpus_per_server self) + rail)).

Definition psw_index (self : RailProfile) (psw : Z) : Z := w32 (rp_asws self + psw).

Definition simai_switch_id (self : RailProfile) (index : Z) : option Z :=
  servers ← servers self;
  Some (w32 (w32 (rp_gpus self + servers) + index)).

Definition profile_server_of (self : RailProfile) (gpu : Z) : option Z := div_by gpu (rp_gpus_per_server self).

Definition is_asw (self : RailProfile) (index : Z) : bool := index <? rp_asws self.

(** ** The equal-cost choice *)

(** [u32::rotate_left]. *)
Definition rotate_left_32 (x n : Z) : Z := Z.lor (w32 (Z.shiftl x n)) (Z.shiftr x (32 - n)).

(** One word of the hash. *)
Definition ecmp_hash_word (hash word : Z) : Z :=
  let k := w32 (word * 3432918353) in
  let k := rotate_left_32 k 15 in
  let k := w32 (k * 461845907) in
  let hash := Z.lxor hash k in
  let hash := rotate_left_32 hash 13 in
  w32 (w32 (hash + w32 (Z.shiftl hash 2)) + 3864292196).

Definition simai_ecmp_hash (words : list Z) (seed : Z) : Z :=
  let hash := foldl ecmp_hash_word seed words in
  let hash := Z.lxor hash 12 in
  let hash := Z.lxor hash (Z.shiftr hash 16) in
  let hash := w32 (hash * 2246822507) in
  let hash := Z.lxor hash (Z.shiftr hash 13) in
  let hash := w32 (hash * 3266489909) in
  Z.lxor hash (Z.shiftr hash 16).

Definition simai_node_ip (id : Z) : Z :=
  w32 (w32 (184549377 + w32 (id / 256 * 65536)) + id mod 256 * 256).

Definition SIMAI_DPORT : Z := 100.
Definition SIMAI_FIRST_SPORT : Z := 10000.

(** The counter of a host pair wraps at 16 bits. *)
Definition simai_sport (ordinal : Z) : Z := (SIMAI_FIRST_SPORT +w ordinal) mod 65536.

(** The choice at ASW [asw]: entry [k] of its next hops is PSW [psws - 1 - k]. *)
Definition hashed_psw (self : RailProfile) (asw : Z) (words : list Z) : option (option Z) :=
  seed ← simai_switch_id self asw;
  entry ← rem_by (simai_ecmp_hash words seed) (rp_psws self);
  Some (Some (rp_psws self - 1 - entry)).

Definition data_psw (self : RailProfile) (source target sport : Z) : option (option Z) :=
  asw ← asw_of self source;
  target_asw ← asw_of self target;
  if asw =? target_asw then Some None
  else hashed_psw self asw
         [simai_node_ip source; simai_node_ip target; Z.lor sport (Z.shiftl SIMAI_DPORT 16)].

Definition feedback_psw (self : RailProfile) (source target sport : Z) : option (option Z) :=
  asw ← asw_of self target;
  source_asw ← asw_of self source;
  if asw =? source_asw then Some None
  else hashed_psw self asw
         [simai_node_ip target; simai_node_ip source; Z.lor SIMAI_DPORT (Z.shiftl sport 16)].

(** ** Building *)

(** [gpu_type] is its code points. *)
Record SpectrumXConfig := mkSpectrumXConfig {
  sx_gpus : Z;
  sx_gpus_per_server : Z;
  sx_nics_per_asw : Z;
  sx_psws : Z;
  sx_gpu_type : list Z;
  sx_nic_rate_bps : Z;
  sx_uplink_rate_bps : Z;
  sx_nvlink_rate_bps : Z;
  sx_link_delay_ns : Z;
  sx_nvlink_delay_ns : Z;
}.

Record RailTopology := mkRailTopology {
  rt_profile : RailProfile;
  rt_gpu_type : list Z;
}.

(** [char::is_whitespace]: the White_Space code points. *)
Definition is_whitespace (c : Z) : bool :=
  ((9 <=? c) && (c <=? 13)) || (c =? 32) || (c =? 133) || (c =? 160) || (c =? 5760)
  || ((8192 <=? c) && (c <=? 8202)) || (c =? 8232) || (c =? 8233) || (c =? 8239)
  || (c =? 8287) || (c =? 12288).

(** The index of the first field that is zero. *)
Fixpoint first_zero (index : nat) (fields : list Z) : option nat :=
  match fields with
  | [] => None
  | value :: fields => if value =? 0 then Some index else first_zero (S index) fields
  end.

Definition positive_fields (config : SpectrumXConfig) : list Z :=
  [sx_gpus config; sx_gpus_per_server config; sx_nics_per_asw config; sx_psws config;
   sx_nic_rate_bps config; sx_uplink_rate_bps config; sx_nvlink_rate_bps config;
   sx_link_delay_ns config; sx_nvlink_delay_ns config].

(** The identities of GPUs, NVSwitches, ASWs and PSWs. *)
Definition node_identities (gpus servers asws psws : Z) : option Z :=
  nodes ← fold_option checked_add 0 [gpus; servers; asws; psws];
  if nodes <=? u32_max then Some nodes else None.

(** [RailTopology::new]; [narrow] is [u32::try_from(..).expect(..)]. *)
Definition rail_new (config : SpectrumXConfig) : topo RailTopology :=
  match first_zero 0 (positive_fields config) with
  | Some index => Some (Err (InvalidConfig (ZeroField index)))
  | None =>
      if bool_decide (sx_gpu_type config = []) || existsb is_whitespace (sx_gpu_type config)
      then Some (Err (InvalidConfig GpuType))
      else if negb (sx_gpus config mod sx_gpus_per_server config =? 0)
      then Some (Err (InvalidConfig (GpusNotMultiple (sx_gpus config) (sx_gpus_per_server config))))
      else
        segment ← lift_result (ok_or (checked_mul (sx_gpus_per_server config) (sx_nics_per_asw config))
                    (NumericOverflow SegmentSize));
        if negb (sx_gpus config mod segment =? 0) && (segment <? sx_gpus config)
        then Some (Err (InvalidConfig (PartialSegment (sx_gpus config) segment)))
        else
          let segments := div_ceil (sx_gpus config) segment in
          asws ← lift_result (ok_or (checked_mul segments (sx_gpus_per_server config))
                   (NumericOverflow AswCount));
          let servers := sx_gpus config / sx_gpus_per_server config in
          _ ← lift_result (ok_or (node_identities (sx_gpus config) servers asws (sx_psws config))
                (NumericOverflow NodeIdentities));
          gpus ← or_panic (try_u32 (sx_gpus config));
          gpus_per_server ← or_panic (try_u32 (sx_gpus_per_server config));
          nics_per_asw ← or_panic (try_u32 (sx_nics_per_asw config));
          asws ← or_panic (try_u32 asws);
          psws ← or_panic (try_u32 (sx_psws config));
          Some (Ok (mkRailTopology
            (mkRailProfile gpus gpus_per_server nics_per_asw asws psws (sx_nic_rate_bps config)
               (sx_uplink_rate_bps config) (sx_nvlink_rate_bps config) (sx_link_delay_ns config)
               (sx_nvlink_delay_ns config))
            (sx_gpu_type config)))
  end.

Definition rail_edges (profile : RailProfile) : list (Z * Z) :=
  asw ← seqZ 0 (rp_asws profile); (fun psw => (asw, psw_index profile psw)) <$> seqZ 0 (rp_psws profile).

Definition rail_graph `{Graph G} (self : RailTopology) : G := graph_of (rail_edges (rt_profile self)).

Definition host_attachments (self : RailTopology) : topo HostAttachments :=
  let profile := rt_profile self in
  entries ← or_panic (mapM (fun gpu => mkAttachment gpu <$> asw_of profile gpu) (seqZ 0 (rp_gpus profile)));
  gpus_per_asw ← or_panic (div_by (Z.min (rp_gpus profile) (segment_gpus profile)) (rp_gpus_per_server profile));
  Some (Ok (attachments_new entries (1 <? gpus_per_asw))).

Definition build_spectrum_x `{Graph G} (config : SpectrumXConfig)
  : topo (G * HostAttachments * TopologyProfile RailProfile) :=
  rail ← rail_new config;
  hosts ← host_attachments rail;
  Some (Ok (rail_graph rail, hosts, RailFabric (rt_profile rail))).

(** ** The choice of a builder *)

Record TopoConfig := mkTopoConfig {
  tp_category : TopoCategory;
  tp_fat_tree : option FatTreeConfig;
  tp_torus : option TorusConfig;
  tp_dragonfly : option DragonflyConfig;
  tp_spectrum_x : option SpectrumXConfig;
}.

(** [build_graph_with_profile_from_str] of a parsed scenario: its topology table, if any,
    and the custom graph its root describes otherwise. *)
Definition build_graph_with_profile `{Graph G} (topology : option TopoConfig) (custom : NetworkGraph)
  : topo (G * HostAttachments * TopologyProfile RailProfile) :=
  match topology with
  | Some config =>
      let missing := InvalidConfig (MissingConfig (tp_category config)) in
      match tp_category config with
      | FatTree => table ← lift_result (ok_or (tp_fat_tree config) missing); build_fat_tree table
      | Torus => table ← lift_result (ok_or (tp_torus config) missing); build_torus table
      | Dragonfly =>
          table ← lift_result (ok_or (tp_dragonfly config) missing); lift_result (build_dragonfly table)
      | SpectrumX => table ← lift_result (ok_or (tp_spectrum_x config) missing); build_spectrum_x table
      end
  | None => lift_result (build_custom_graph custom)
  end.

(** ** Messages inside a server *)

Definition NANOS_PER_SECOND : Z := 1000000000.

Definition w128 (x : Z) : Z := x mod u128_modulus.

#[global] Arguments w128 : simpl never.

Lemma w128_small x : 0 <= x < u128_modulus -> w128 x = x.
Proof. intros. by apply Z.mod_small. Qed.

Definition server_of (profile : RailProfile) (host : Z) : option (option Z) :=
  if host <? rp_gpus profile then Some <$> div_by host (rp_gpus_per_server profile) else Some None.

Definition same_server (profile : RailProfile) (left right : Z) : option bool :=
  if left =? right then Some false
  else
    left_server ← server_of profile left;
    right_server ← server_of profile right;
    Some (bool_decide (is_Some left_server) && bool_decide (left_server = right_server)).

(** [(bytes * 8 * NANOS_PER_SECOND).div_ceil(rate)] in [u128]. *)
Definition serialize_ns (rate bytes : Z) : option Z :=
  if rate =? 0 then None else Some (div_ceil (w128 (w128 (bytes * 8) * NANOS_PER_SECOND)) rate).

(** The inner option is the result, the outer one a panic. *)
Definition nvlink_message_delay_ns (profile : RailProfile) (bytes concurrency mtu : Z) : option (option Z) :=
  if (bytes =? 0) || (concurrency =? 0) || (mtu =? 0) then Some None
  else
    let port_bytes := w128 (bytes * concurrency) in
    port ← serialize_ns (rp_nvlink_rate_bps profile) port_bytes;
    last ← serialize_ns (rp_nvlink_rate_bps profile) (Z.min bytes mtu);
    let total := w128 (w128 (w128 (2 * rp_nvlink_delay_ns profile) + port) + last) in
    Some (try_u64 total).

Definition single_server_collective_delay_ns (profile : RailProfile) (steps message_bytes channels mtu : Z)
  : option (option Z) :=
  delay ← nvlink_message_delay_ns profile message_bytes channels mtu;
  Some (delay ← delay; checked_mul steps delay).

Definition hop_tx (mtu bw : Z) : option Z := div_by (w128 (w128 (mtu * NANOS_PER_SECOND) * 8)) bw.

(** The bandwidth-delay product of a path of [(rate, delay)] hops. *)
Definition path_bdp (mtu : Z) (hops : list (Z * Z)) : option Z :=
  let delay := foldl (fun sum hop => w128 (sum + hop.2)) 0 hops in
  tx_delay ← fold_option (fun sum hop => tx ← hop_tx mtu hop.1; Some (w128 (sum + tx))) 0 hops;
  first ← head hops;
  let bw := foldl Z.min first.1 hops.*1 in
  Some (w128 (w128 (w128 (2 * delay) + tx_delay) * bw) / NANOS_PER_SECOND / 8).

Definition max_bdp_bytes (profile : RailProfile) (mtu : Z) : option Z :=
  let nic := (rp_nic_rate_bps profile, rp_link_delay_ns profile) in
  let up := (rp_uplink_rate_bps profile, rp_link_delay_ns profile) in
  let nvlink := (rp_nvlink_rate_bps profile, rp_nvlink_delay_ns profile) in
  best ← path_bdp mtu [nvlink; nvlink];
  let segment := segment_gpus profile in
  best ← if rp_gpus_per_server profile <? Z.min (rp_gpus profile) segment
         then Z.max best <$> path_bdp mtu [nic; nic] else Some best;
  best ← if 1 <? rp_asws profile
         then Z.max best <$> path_bdp mtu [nic; up; up; nic] else Some best;
  try_u64 best.

(** ** What an accepted configuration promises *)

Lemma first_zero_None fields : forall index, first_zero index fields = None -> Forall (fun v => v <> 0) fields.
Proof.
  induction fields as [|v fields IH]; intros index; [constructor|]. cbn. destruct (Z.eqb_spec v 0); [done|].
  intros Hf. constructor; [done|]. by eapply IH.
Qed.

Lemma node_identities_Some gpus servers asws psws n : 0 <= gpus -> 0 <= servers -> 0 <= asws ->
  node_identities gpus servers asws psws = Some n -> gpus + servers + asws + psws <= u32_max.
Proof.
  intros H1 H2 H3. unfold node_identities. cbn [fold_option]. intros Hn.
  destruct (checked_add 0 gpus) as [a|] eqn:Ea; [|done]. cbn [mbind option_bind] in Hn.
  destruct (checked_add a servers) as [b|] eqn:Eb; [|done]. cbn [mbind option_bind] in Hn.
  destruct (checked_add b asws) as [c|] eqn:Ec; [|done]. cbn [mbind option_bind] in Hn.
  destruct (checked_add c psws) as [d|] eqn:Ed; [|done]. cbn [mbind option_bind] in Hn.
  apply checked_add_Some in Ea, Eb, Ec, Ed. destruct (Z.leb_spec d u32_max); [lia|done].
Qed.

Lemma try_u32_Some x y : try_u32 x = Some y -> y = x.
Proof. unfold try_u32. case_match; naive_solver. Qed.

(** The fields of a configuration are words. *)
Definition config_words (config : SpectrumXConfig) : Prop :=
  Forall (fun v => 0 <= v <= u64_max) (positive_fields config).

Lemma rail_new_spec config rail : config_words config -> rail_new config = Some (Ok rail) ->
  let profile := rt_profile rail in
  0 < rp_gpus profile /\ 0 < rp_gpus_per_server profile /\ 0 < rp_nics_per_asw profile /\ 0 < rp_psws profile
  /\ rp_gpus profile mod rp_gpus_per_server profile = 0
  /\ (let segment := rp_gpus_per_server profile * rp_nics_per_asw profile in
      (rp_gpus profile mod segment = 0 \/ rp_gpus profile <= segment)
      /\ rp_asws profile = div_ceil (rp_gpus profile) segment * rp_gpus_per_server profile)
  /\ rp_gpus profile + rp_gpus profile / rp_gpus_per_server profile + rp_asws profile + rp_psws profile <= u32_max.
Proof.
  intros Hw. unfold rail_new. destruct (first_zero _ _) eqn:Hz; [done|]. apply first_zero_None in Hz.
  unfold config_words in Hw. unfold positive_fields in Hw, Hz. rewrite !Forall_cons in Hw, Hz.
  destruct Hw as (? & ? & ? & ? & _), Hz as (? & ? & ? & ? & _). destruct (_ || _); [done|].
  destruct (Z.eqb_spec (sx_gpus config mod sx_gpus_per_server config) 0) as [Hm|]; [|done]. cbn [negb].
  destruct (checked_mul _ _) as [segment|] eqn:Hs; [|done]. apply checked_mul_Some in Hs as [-> _].
  set (segment := sx_gpus_per_server config * sx_nics_per_asw config).
  unfold lift_result. cbn [ok_or mbind fueled_bind].
  destruct (negb (sx_gpus config mod segment =? 0) && (segment <? sx_gpus config)) eqn:Hpart; [done|].
  destruct (checked_mul (div_ceil _ _) _) as [asws|] eqn:Ha; [|done]. apply checked_mul_Some in Ha as [-> _].
  cbn [ok_or mbind fueled_bind]. destruct (node_identities _ _ _ _) as [nodes|] eqn:Hn; [|done].
  cbn [ok_or mbind fueled_bind].
  assert (Hd : 0 <= div_ceil (sx_gpus config) segment).
  { unfold div_ceil. assert (0 <= sx_gpus config / segment) by (apply Z.div_pos; unfold segment; nia). destruct (_ =? 0); lia. }
  assert (Hsv : 0 <= sx_gpus config / sx_gpus_per_server config) by (apply Z.div_pos; lia).
  apply node_identities_Some in Hn; [|lia|done|nia].
  intros Hr. repeat (apply fueled_bind_Ok in Hr as (x & Hx%(proj1 (or_panic_Ok _ _))%try_u32_Some & Hr); subst x).
  injection Hr as <-. cbn [rt_profile rp_gpus rp_gpus_per_server rp_nics_per_asw rp_asws rp_psws]. fold segment.
  split_and!; lia.
Qed.

Lemma div_ceil_above x y g : 0 < y -> 0 <= g < x -> g / y < div_ceil x y.
Proof.
  intros Hy Hg. unfold div_ceil. pose proof (Z.div_mod x y ltac:(lia)). pose proof (Z.mod_pos_bound x y Hy).
  destruct (Z.eqb_spec (x mod y) 0); apply Z.div_lt_upper_bound; nia.
Qed.

Section fabric.
Context (config : SpectrumXConfig) (rail : RailTopology).
Context (Hwords : config_words config) (Hnew : rail_new config = Some (Ok rail)).
#[local] Abbreviation profile := (rt_profile rail).
#[local] Abbreviation gps := (rp_gpus_per_server profile).
#[local] Abbreviation segment := (rp_gpus_per_server profile * rp_nics_per_asw profile).
Context (Hsegment : segment < u32_modulus).

Lemma asw_of_gpu gpu : 0 <= gpu < rp_gpus profile ->
  asw_of profile gpu = Some (gpu / segment * gps + gpu mod gps)
  /\ 0 <= gpu / segment * gps + gpu mod gps < rp_asws profile.
Proof using All.
  intros Hg. destruct (rail_new_spec config rail Hwords Hnew) as (H1 & H2 & H3 & H4 & H5 & [_ Ha] & Hn).
  assert (Hs : segment_gpus profile = segment) by (apply w32_small; nia).
  pose proof (div_ceil_above (rp_gpus profile) segment gpu ltac:(nia) Hg) as Hd.
  pose proof (Z.mod_pos_bound gpu gps H2) as Hm.
  assert (0 <= gpu / segment) by (apply Z.div_pos; nia).
  assert (0 <= rp_gpus profile / gps) by (apply Z.div_pos; lia).
  assert (Hb : 0 <= gpu / segment * gps + gpu mod gps < rp_asws profile) by (rewrite Ha; nia).
  split; [|done]. unfold asw_of, div_by, rem_by. rewrite Hs.
  rewrite (proj2 (Z.eqb_neq segment 0)), (proj2 (Z.eqb_neq gps 0)) by nia. cbn [mbind option_bind].
  rewrite (w32_small (_ * _)) by (unfold u32_modulus; nia). rewrite w32_small by (unfold u32_modulus; lia). done.
Qed.

Lemma hashed_psw_linked asw words : 0 <= asw < rp_asws profile ->
  exists psw, hashed_psw profile asw words = Some (Some psw) /\ 0 <= psw < rp_psws profile
    /\ forall a, 0 <= a < rp_asws profile -> (a, psw_index profile psw) ∈ rail_edges profile.
Proof using All.
  intros Hasw. destruct (rail_new_spec config rail Hwords Hnew) as (H1 & H2 & H3 & H4 & _).
  unfold hashed_psw, simai_switch_id, servers, div_by, rem_by.
  rewrite (proj2 (Z.eqb_neq gps 0)), (proj2 (Z.eqb_neq (rp_psws profile) 0)) by lia. cbn [mbind option_bind].
  eexists. split; [done|]. set (hash := simai_ecmp_hash _ _).
  pose proof (Z.mod_pos_bound hash (rp_psws profile) H4). split; [lia|]. intros a Ha. unfold rail_edges.
  apply list_elem_of_bind. exists a. split; [|apply elem_of_seqZ; lia]. apply list_elem_of_fmap.
  eexists. split; [done|]. apply elem_of_seqZ. lia.
Qed.

Lemma asw_eq s t : s / segment * gps + s mod gps = t / segment * gps + t mod gps
  <-> s / segment = t / segment /\ s mod gps = t mod gps.
Proof using Hwords Hnew.
  destruct (rail_new_spec config rail Hwords Hnew) as (_ & H2 & _).
  pose proof (Z.mod_pos_bound s gps H2). pose proof (Z.mod_pos_bound t gps H2). split; [|by intros [-> ->]].
  intros E. assert (s / segment = t / segment); [|lia].
  assert (Hq : forall q r, 0 <= r < gps -> (q * gps + r) / gps = q).
  { intros q r Hr. symmetry. apply (Z.div_unique _ _ q r); lia. }
  rewrite <- (Hq (s / segment) (s mod gps)), E by done. by apply Hq.
Qed.
End fabric.

(** C17. Rail fabrics connect their GPUs. For every accepted configuration whose segments
    have fewer than [2^32] GPUs, each GPU is attached to one of the ASWs; two GPUs share
    an ASW exactly when they are in one segment and on one rail, so the GPUs of a server
    never do; and for every pair of GPUs and source port the choice of data and feedback
    spine is made without a panic: none within an ASW, and otherwise PSWs of the fabric
    that are linked to both ASWs. *)
Theorem rail_fabric_connected config rail :
  config_words config -> rail_new config = Some (Ok rail) ->
  let profile := rt_profile rail in
  let gps := rp_gpus_per_server profile in
  let segment := gps * rp_nics_per_asw profile in
  segment < u32_modulus ->
  forall s t sport, 0 <= s < rp_gpus profile -> 0 <= t < rp_gpus profile ->
  exists a b, asw_of profile s = Some a /\ asw_of profile t = Some b
    /\ 0 <= a < rp_asws profile /\ 0 <= b < rp_asws profile
    /\ (a = b <-> s / segment = t / segment /\ s mod gps = t mod gps)
    /\ (s <> t -> s / gps = t / gps -> a <> b)
    /\ if decide (a = b) then data_psw profile s t sport = Some None /\ feedback_psw profile s t sport = Some None
       else exists p q, data_psw profile s t sport = Some (Some p) /\ feedback_psw profile s t sport = Some (Some q)
              /\ Forall (fun psw => 0 <= psw < rp_psws profile
                   /\ (a, psw_index profile psw) ∈ rail_edges profile
                   /\ (b, psw_index profile psw) ∈ rail_edges profile) [p; q].
Proof.
  intros Hw Hn profile gps segment Hs s t sport Hsg Htg.
  destruct (asw_of_gpu config rail Hw Hn Hs s Hsg) as [Ea Ha], (asw_of_gpu config rail Hw Hn Hs t Htg) as [Eb Hb].
  pose proof (asw_eq config rail Hw Hn s t) as Heq. fold profile gps segment in Ea, Eb, Ha, Hb, Heq.
  set (a := s / segment * gps + s mod gps) in *. set (b := t / segment * gps + t mod gps) in *. exists a, b.
  split_and!; [done|done|lia|lia|lia|lia|exact Heq|..].
  - intros Hne Hsv E. apply Heq in E as [_ E]. apply Hne.
    destruct (rail_new_spec config rail Hw Hn) as (_ & H2 & _). fold profile gps in H2.
    rewrite (Z.div_mod s gps), (Z.div_mod t gps) by lia. congruence.
  - unfold data_psw, feedback_psw. rewrite Ea, Eb. cbn [mbind option_bind]. case_decide as E.
    + by rewrite E, Z.eqb_refl.
    + rewrite (proj2 (Z.eqb_neq a b)), (proj2 (Z.eqb_neq b a)) by congruence.
      edestruct (hashed_psw_linked config rail Hw Hn Hs a) as (p & -> & Hp & Hlp); [done|].
      edestruct (hashed_psw_linked config rail Hw Hn Hs b) as (q & -> & Hq & Hlq); [done|].
      fold profile in Hp, Hq, Hlp, Hlq. exists p, q. split_and!; [done..|]. rewrite !Forall_cons, Forall_nil. split_and!; first [done|lia|by apply Hlp|by apply Hlq].
Qed.

(** A configuration of the tests: 1024 GPUs, 8 per server, 64 NICs per ASW, 64 PSWs. *)
Definition rail_1024 : SpectrumXConfig :=
  mkSpectrumXConfig 1024 8 64 64 [72; 49; 48; 48] 400000000000 400000000000 2880000000000 500 25.

Lemma rail_fabric_connected_witness : exists rail, rail_new rail_1024 = Some (Ok rail) /\
  exists a b, asw_of (rt_profile rail) 0 = Some a /\ asw_of (rt_profile rail) 513 = Some b /\ a <> b.
Proof.
  assert (Hw : config_words rail_1024).
  { unfold config_words, positive_fields. cbn. repeat (constructor; [lia|]). constructor. }
  destruct (rail_new rail_1024) as [[rail|e]|] eqn:E; [|exfalso; vm_compute in E; discriminate E..].
  exists rail. split; [reflexivity|].
  assert (Hp : rail = mkRailTopology
    (mkRailProfile 1024 8 64 16 64 400000000000 400000000000 2880000000000 500 25) [72; 49; 48; 48])
    by (vm_compute in E; by injection E as <-).
  destruct (rail_fabric_connected rail_1024 rail Hw E ltac:(rewrite Hp; vm_compute; reflexivity) 0 513 10000
    ltac:(rewrite Hp; vm_compute; split; [discriminate|reflexivity])
    ltac:(rewrite Hp; vm_compute; split; [discriminate|reflexivity])) as (a & b & Ea & Eb & _ & _ & Hab & _).
  exists a, b. split_and!; [exact Ea|exact Eb|]. intros H. apply Hab in H as [H _]. rewrite Hp in H.
  vm_compute in H. discriminate H.
Defined.

(** ** The hash on the vectors of the reference implementation *)

(** The data and the feedback hash of message [ordinal] of a pair. *)
Definition ecmp_hashes (config : SpectrumXConfig) (source target ordinal : Z) : option (Z * Z) :=
  match rail_new config with
  | Some (Ok rail) =>
      let profile := rt_profile rail in
      let sport := simai_sport ordinal in
      data_seed ← asw_of profile source ≫= simai_switch_id profile;
      feedback_seed ← asw_of profile target ≫= simai_switch_id profile;
      Some (simai_ecmp_hash [simai_node_ip source; simai_node_ip target;
                             Z.lor sport (Z.shiftl SIMAI_DPORT 16)] data_seed,
            simai_ecmp_hash [simai_node_ip target; simai_node_ip source;
                             Z.lor SIMAI_DPORT (Z.shiftl sport 16)] feedback_seed)
  | _ => None
  end.

Example ecmp_golden :
  ecmp_hashes rail_1024 0 9 0 = Some (3950278924, 467874184)
  /\ ecmp_hashes rail_1024 0 513 3 = Some (1400197738, 993105852)
  /\ ecmp_hashes rail_1024 7 1016 1 = Some (929461182, 2790962372)
  /\ ecmp_hashes rail_1024 64 127 2 = Some (2135000418, 2622897102).
Proof. vm_compute. split_and!; reflexivity. Qed.

(** ** Configurations beyond the bound of a segment *)

(** The number of NICs per ASW is not bounded by the node count: a small fabric with
    [2^33] NIC slots passes every check and then panics when the count is narrowed. *)
Theorem rail_nics_not_bounded :
  rail_new (mkSpectrumXConfig 8 8 8589934592 1 [72] 1 1 1 1 1) = None.
Proof. vm_compute. reflexivity. Qed.

(** The segment size is taken modulo [2^32]: with 8 GPUs per server and [2^29 + 1] NICs per
    ASW the 16 GPUs form one segment of 8 ASWs, but GPU 9 is attached to switch 9, which
    is a PSW. *)
Theorem rail_segment_wraps :
  exists rail, rail_new (mkSpectrumXConfig 16 8 536870913 2 [72] 1 1 1 1 1) = Some (Ok rail)
    /\ rp_asws (rt_profile rail) = 8
    /\ asw_of (rt_profile rail) 9 = Some 9 /\ psw_index (rt_profile rail) 1 = 9
    /\ is_asw (rt_profile rail) 9 = false.
Proof.
  exists (mkRailTopology (mkRailProfile 16 8 536870913 8 2 1 1 1 1 1) [72]).
  split; [vm_compute; reflexivity|]. split_and!; vm_compute; reflexivity.
Qed.

(** The delay of a message is not refused on overflow: the product of [2^63] bytes in each
    of [2^63] messages wraps to zero and the answer is the delay of a single packet. *)
Theorem nvlink_delay_wraps profile : rp_nvlink_rate_bps profile = 2880000000000 -> rp_nvlink_delay_ns profile = 25 ->
  nvlink_message_delay_ns profile 9223372036854775808 9223372036854775808 9000 = Some (Some 75).
Proof.
  intros Hr Hd. unfold nvlink_message_delay_ns, serialize_ns. rewrite Hr, Hd. vm_compute. reflexivity.
Qed.

(** Where the products fit in 128 bits the delay is exact, and refused exactly where it
    does not fit in 64 bits. *)
Lemma nvlink_delay_exact profile bytes concurrency mtu :
  0 < rp_nvlink_rate_bps profile -> 0 <= rp_nvlink_delay_ns profile <= u64_max ->
  0 < bytes <= u64_max -> 0 < concurrency -> 0 < mtu ->
  bytes * concurrency * 8 * NANOS_PER_SECOND < u128_modulus / 4 ->
  nvlink_message_delay_ns profile bytes concurrency mtu
  = Some (try_u64 (2 * rp_nvlink_delay_ns profile
                   + div_ceil (bytes * concurrency * 8 * NANOS_PER_SECOND) (rp_nvlink_rate_bps profile)
                   + div_ceil (Z.min bytes mtu * 8 * NANOS_PER_SECOND) (rp_nvlink_rate_bps profile))).
Proof.
  intros Hr Hd Hb Hc Hm Hfit. unfold nvlink_message_delay_ns, serialize_ns. change (u128_modulus / 4) with 85070591730234615865843651857942052864 in Hfit.
  unfold NANOS_PER_SECOND in *. set (rate := rp_nvlink_rate_bps profile) in *.
  rewrite (proj2 (Z.eqb_neq bytes 0)), (proj2 (Z.eqb_neq concurrency 0)), (proj2 (Z.eqb_neq mtu 0)),
    (proj2 (Z.eqb_neq rate 0)) by lia. cbn [orb mbind option_bind].
  assert (Hq : forall x, 0 <= x -> 0 <= div_ceil x rate <= x + 1).
  { intros x Hx. unfold div_ceil. assert (0 <= x / rate <= x) by (split; [apply Z.div_pos; lia|apply Z.div_le_upper_bound; nia]).
    destruct (_ =? 0); lia. }
  assert (Hbc : bytes <= bytes * concurrency) by nia.
  assert (Hmin : 0 < Z.min bytes mtu <= bytes * concurrency) by lia.
  set (all := bytes * concurrency) in *. set (one := Z.min bytes mtu) in *. clearbody all one.
  rewrite (w128_small all), (w128_small (all * 8)), (w128_small (one * 8)) by lia.
  rewrite (w128_small (all * 8 * _)), (w128_small (one * 8 * _)) by lia.
  pose proof (Hq (all * 8 * 1000000000) ltac:(lia)). pose proof (Hq (one * 8 * 1000000000) ltac:(lia)).
  rewrite (w128_small (2 * _)) by lia. rewrite (w128_small (_ + div_ceil (all * 8 * _) rate)) by lia.
  by rewrite w128_small by lia.
Qed.
